(* ===== verification/_CoqProject ===== *)
-Q . S2P
Prelude.v
RustStr.v
Ordered.v
Model.v
Path.v
Workspace.v
Execution.v
Attempt.v
Host.v
Labels.v
Policy.v
Capacity.v
Recovery.v
Store.v
Github.v
Schedule.v
Routing.v
Backoff.v
Report.v
Reconcile.v
ReconcileSafety.v
ReconcilePass.v
Coordinator.v
CoordinatorSafety.v
Effects.v
Tasks.v
Http.v
Traffic.v
AuthClient.v
AuthSafety.v
AuthRuns.v
DeviceFlow.v
Conditional.v
Demand.v
DemandSafety.v
Ports.v
Slots.v
RunnerEnv.v
Process.v
Fence.v
FenceSafety.v
FenceRuns.v
Archive.v
ArchiveSafety.v
Package.v
PackageSafety.v
PackageRuns.v
TargetLoop.v
LoopSafety.v
LoopRuns.v
Protocol.v
Link.v
LinkSafety.v
LinkRuns.v
HostLock.v
LockSafety.v
LockRuns.v
CacheNames.v
CacheIsolation.v
Caches.v
CacheSafety.v
CacheRuns.v
Lifecycle.v
Native.v
ListenerEnv.v
Supervise.v
Launch.v
LifecycleEnv.v
NativeSafety.v
LifecycleSafety.v
SuperviseSafety.v
LaunchSafety.v
Machine.v
NativeMachine.v
Retries.v
RecoveryGate.v
Daemon.v
SlotSafety.v
RunnerIdFile.v
LauncherContract.v
