(* ===== verification/Prelude.v ===== *)
(** * runner-manager: a verification library

    The program keeps a machine's self-hosted GitHub Actions runners: it watches the
    queued jobs of the repositories and organizations an operator added, starts one
    ephemeral runner per job within the machine's capacity, and cleans up after it.

    ** The program's parts and the files that model them

    The domain crate (crates/domain/src) is pure and is modelled in full detail.
    - [RustStr], [Ordered]: what the code uses of Rust's strings (trimming, splitting,
      ASCII case, character classes over code points) and of [BTreeSet]/[BTreeMap]
      (strictly sorted lists over a class of orders).
    - [Model], [Host] (model.rs): validated strings, GitHub names that compare without
      case, targets, intervals, hosts. Each constructor is translated check by check.
    - [Path] (path.rs), [Workspace] (workspace.rs), [Execution] (execution.rs): local
      absolute paths, workspace policies and slots, native and isolated execution.
    - [Attempt] (attempt.rs): one runner's life. [RunnerAttempt] is the struct,
      [attempt_op] and [apply_op] the calls, one method per source method; the receiver
      after a refused call is part of the result.
    - [Recovery] (attempt.rs): who may act on an attempt, and what a restarted daemon
      decides about the attempts it finds.
    - [Labels], [Policy] (policy.rs): routing labels and runs-on matching, and the life of
      a scale policy ([policy_op], [apply_policy_op]).
    - [Capacity] (capacity.rs): the allocator of a pass and the documented formula.
    - [Store] (store.rs): the SQLite journal as maps of rows, each method a transaction.

    The agent crate (crates/agent/src) is modelled from its reconciliation loop.
    - [Github] (crates/github/src: traffic.rs, rest.rs, demand.rs): quota pressure,
      rate-limit delays, refresh states, the reading of queued jobs.
    - [Schedule] (reconcile.rs): when to poll next, as a state machine over passes.
    - [Routing] (reconcile.rs): which profile a queued job is demand for.
    - [Backoff] (reconcile.rs, lifecycle.rs): the retry of failed cleanups.
    - [Report], [Reconcile] (reconcile.rs): the report, the events, and every phase of a
      pass as a program over the classes [RunnerLauncher], [AllocationLock],
      [DemandSource], [RepositoryDirectory], [Clock] and [Jitter], which stand for the
      traits of the same names; [ReconcileSafety] and [ReconcilePass] prove it against
      the contract [HostContract] of those ports.

    The runner lifecycle (crates/agent/src/lifecycle.rs) is what stands behind
    [RunnerLauncher]: it owns the directories, registrations and processes.
    - [Effects]: programs that end and call effects with typed answers ([free]); [sat],
      their predicate transformer against an environment that demands something of every
      call and promises something of its answer; programs cut short anywhere
      ([partly_run]); running them on a handler ([run_with]).
    - [Ports]: the effects ([LifecyclePorts], the execution provider, runner roots and the
      file system), the errors, and the durable runner-id file.
    - [Slots]: persistent slots: which is free, what may be reused, scrubbing and its
      verification. [Lifecycle]: journalling an edge, concluding and cleaning, natively and
      with containers. [Supervise]: [reconcile_one], [supervise] and [recover_startup].
      [Launch]: allocation, the retry loops, the steps of a launch, the launcher port.
    - [LifecycleEnv] says what the ports demand and promise, over the journal of [Store],
      the launcher's memory and the set of attempts that may have a running process; its
      [site] is a machine whose provider may deny a process that runs;
      [LifecycleSafety], [SuperviseSafety] and [LaunchSafety] prove every operation within
      it. [Machine] is a concrete machine that keeps the promises, for the witnesses.
    - [Daemon] composes calls, crashes and restarts into histories; [Retries],
      [RecoveryGate], [SlotSafety] and [RunnerIdFile] prove the properties of their names;
      [LauncherContract] discharges [HostContract] with the launcher.
    - [Process] (crates/platform/src/process.rs), [RunnerEnv] (runner_env.rs) and [Native]
      (lifecycle.rs): identities and termination of processes, the runner's environment,
      and the native provider over system calls, with its handoff and identity files;
      [ListenerEnv] and [NativeSafety] prove it, and that it keeps the promises
      [LifecycleEnv] makes of a provider. [NativeMachine] runs it.

    What a runner runs comes from the cache of packages (crates/agent/src/package.rs).
    - [Archive]: versions, digests, errors, and the extraction of zip and tar archives as
      a program; [ArchiveSafety] proves what it may touch. [Package] (package.rs,
      lifecycle.rs, rest.rs, os.rs): which published package is needed, its download,
      verification and commit, leases and pruning, the trusted trees, and the copy into a
      runtime. [PackageSafety] proves it beside jobs that rewrite the cache;
      [PackageRuns] states it of executions, runs one, and proves the pruning.

    The GitHub crate (crates/github/src) and its callers share one client.
    - [Http] (lib.rs, rest.rs): requests, responses, links to the next page, errors and
      rate-limit evidence. [Traffic] (traffic.rs): the ledger of requests by the minute.
      [Conditional] (conditional.rs): the cache of validators. [Demand] (demand.rs): the
      gateway that counts queued jobs and keeps GitHub's quiet periods; [DemandSafety]
      proves it against GitHub's contract for listings.
    - [Tasks]: programs of [Effects] that run at once on one world, and the rule that what
      each keeps under interference all keep together.
    - [AuthClient] (lib.rs): the authenticated client with its lockout, re-validation gate
      and renewal; [AuthSafety] proves it among any number of callers, [AuthRuns]
      executes interleavings. [DeviceFlow] (device_flow.rs): the sign-in.

    The daemon (crates/app/src/cli/daemon.rs) runs the passes.
    - [TargetLoop]: which policies share a loop, and the loop of a target with its
      schedule, wakes and drains; [LoopSafety] proves it on a clock that moves by itself,
      [LoopRuns] that every policy has one loop, and executes one.

    In a managed WSL distribution a launch and a recovery from Windows exclude each other.
    - [Fence] (crates/platform/src/wsl/fence.rs, wsl/recovery.rs, agent/src/reconcile.rs,
      app/src/cli/wsl_watchdog.rs, cli/daemon.rs): the launch fence, the guest's allocation
      lock and heartbeat, the watchdog and its decision; [FenceSafety] proves the
      exclusion, [FenceRuns] the decision, and executes interleavings.

    Processes of one host exclude each other by locked files.
    - [HostLock] (crates/platform/src/lock.rs): acquiring, recording the holder, and
      dropping, on Unix; [LockSafety] proves it among processes that fork and die,
      [LockRuns] executes a contention. The daemon's single instance and the allocation
      lock of [HostContract] are such locks.

    Runners keep the caches of their build tools (crates/platform/src/dependency_cache.rs,
    crates/agent/src/dependency_caches.rs).
    - [CacheNames]: the table of tools, the configuration and the cache root, whose cache a
      target gets and what the runner's environment says; [CacheIsolation] proves which
      targets share one, and that saving a configuration changes nothing for a target. [Caches]: leases
      of slots, measuring and pruning, the launch and the capture, as programs, and what a
      prune chooses; [CacheSafety] proves them among processes that die, with the root's
      lock as [LockSafety] has it, and [CacheRuns] executes them.

    The coordinator (crates/coordinator/src, crates/coordinator-protocol/src) wakes hosts
    when GitHub reports a queued job.
    - [Coordinator]: the protocol's messages and [covers] (lib.rs of the protocol), the
      registry of connected hosts (registry.rs), signatures, label matching and the
      delivery log
      (webhook.rs), the invites and hosts of its database (store.rs), the webhook
      handler and the rate limiter (server.rs), and what a host advertises to it
      (app/src/cli/coordinator.rs); [CoordinatorSafety] proves their properties.
    - [Protocol] (lib.rs of the protocol): the address, and the authentication of a host,
      over the class [Wire] of the operations of other crates, with [WireLaws]. [Link]
      (server.rs, app/src/cli/coordinator.rs, platform/src/coordinator.rs): a connection
      of the coordinator and the link of a daemon, as programs. [LinkSafety] proves any
      number of them against a hostile network, [LinkRuns] executes a registration.

    The pass calls the allocator of [Capacity] on the attempts of the journal, whose
    rows [Store] shows to be the attempts of [Attempt]; the policies it serves are those
    of [Policy], and the labels it matches those of [Labels].

    ** What the theorems show

    - Attempts: every reachable attempt satisfies the invariant of its fields; a call
      changes exactly what it says or nothing; a conclusion is permanent; a completed
      job was assigned; from every reachable attempt capacity and slot can be released;
      loading accepts exactly the storable records.
    - Recovery: decisions are legal transitions, never touch live work, and conclude
      what has died.
    - Labels and policies: matching is exactly the required-label rule, every job is
      tallied once, derived labels identify the host; every reachable policy is valid,
      and only an activated one starts runners.
    - Capacity: a pass respects the host's and each policy's ceiling, computes the
      documented formula, and is idempotent once its runners are listed.
    - Store: writes and reads agree, optimistic concurrency loses no update, the SQL
      counts are the domain's, and the execution policy changes only without attempts.
    - Reconciliation: a pass always completes and never oversubscribes the machine,
      beside other loops and with listings that lag; an outage starts nothing; scaling
      down removes concluded attempts only; each job is demand for at most one profile.
    - Schedule and back-off: floors and ceilings of every delay, the offline run, the
      idle budget and the cleanup retry delays.
    - Lifecycle: in every history of calls made one after another, crashes and restarts
      each running process is journalled and counted, unless an inspection of its attempt
      denied it or its start was cut short; a process starts only after its registration
      is journalled and never twice; only what is concluded is removed, dead but for the
      same exceptions, and a slot's job workspace never; calls return and retries are bounded; nothing launches before a
      startup recovery succeeded; and the launcher fulfils the contract of the pass, so
      that the pass never runs more processes than the host allows.
    - Native runners: a process that was started is found again after a crash, or the
      start reports how it ended; a recorded process that may live is taken for gone only
      by an inspection that could not tell its start time; but for that the provider keeps the promises the lifecycle relies on; a runner's
      environment is what its layers say, and edits of runner.env read back.
    - Packages: what a runtime is given is the whole of a package whose archive had the
      digest GitHub listed or the operator pinned, whatever jobs did to the package trees
      once they were committed;
      archives unpack inside their directory and with owner-only modes; no package in use
      is pruned; downloads are bounded.
    - GitHub: of a queue that stands still a demand reading is exact or a floor that says
      so; a request follows a look that found no quiet period, which is never shortened,
      lasts as GitHub asked and backs off; the ledger counts the last hour. No refresh
      token whose successor was received is presented, whatever the callers interleave; a
      reported failure is what happened; a lockout silences a lone caller. A sign-in whose
      interval is positive ends (an absurd expiry in an answer makes it panic), pauses as
      GitHub asks, and returns what GitHub said.
    - Loops: a pass begins no sooner than the schedule and the wakes allow; a drain ends
      within its deadline, an upgrade's only when nothing runs; a target has one loop.
    - Locks: no two living threads work under one lock, a dropped lock is free whoever
      inherited its descriptor, and no crash leaves one behind.
    - Caches: no directory of a slot is given to two runners that run, and no namespace of
      one is moved away; a prune removes the least recently used namespaces that are not
      in use, and no more than it takes.
    - WSL: no two live tasks are in a launch or a termination at once, whoever dies when,
      with one watchdog and one clock; the watchdog terminates exactly when every proof is
      present, those of the last two heartbeats and listings among them.
    - Coordinator: a host is woken exactly for the jobs the policies it last told would
      serve, while its queue has room; a
      delivery acts at most once and only when signed; an invite enrolls one host, and
      no two active hosts share a name; a host is in the registry only by a connection
      whose fresh challenge its key's holder signed, and a link signs only for the
      coordinator its host joined.

    ** Conventions and bounds

    Machine integers are [Z] with their saturation, clamping or wrap-around written out;
    their ranges are part of the invariants. Instants and durations are nanoseconds.
    [option] results stand for panics where the code can panic, and the theorems show
    [None] does not occur. Loops that are not structural have fuel. That of
    [Reconcile.start_loop] is the first grant: each turn that continues lowers the budget
    by one, and [pass_never_oversubscribes] shows that it never runs out. That of the
    retry loops of [Launch] is the retry policy's number of attempts, at least one, and
    running out is the effect [Panic], which [launch_retries_bounded] shows is not
    reached. In the lifecycle a panic is likewise an effect no environment allows.
    The histories of [Daemon] take the lifecycle's calls one at a time: the daemon holds
    the allocation lock around a launch, but the loops of several targets supervise at
    once, which is not modelled; what other loops of the host do between the calls of a
    pass is part of [HostContract]. The waits of [Process] poll as
    often as their grace period allows; [Http.parse_link] has the length of the header as
    fuel and [Conditional.evict_down] the size of the cache; [Package.install_attempts] has the
    retry budget, at least one by its setter; [DeviceFlow.complete] is
    given any number of turns, and [device_login_ends] shows how many are enough;
    [Fence.maintain_distribution], [TargetLoop.loop], the loops of [Link], and the search
    for a slot and the walk of a tree of [Caches] run for any number of turns. The jitter of [Schedule] is
    any function within the range of a clamped fraction, rounded to a nanosecond.

    ** What is relied on

    The files beside a runner are written by this program alone; a child whose wait fails
    is gone; a PID that may not be inspected is another account's. GitHub answers a
    conditional request and a paged listing as it documents. A renewal exchange
    that succeeds stored the new pair first, and the store never offers a replaced one; one
    that fails may have spent the token ([spent_token_presented_again]). A start time that
    the operating system tells is right; one it cannot tell is an answer of the model. The
    guest and the watchdog read one clock, and the fence's configuration is present. One process
    of the guest lives at a time (the daemon's single-instance lock), and one watchdog; a
    watchdog that made the fence's directory records itself within the grace after which
    a guest would take it for abandoned; a removal that fails leaves the directory. A
    download and a package under construction are left alone until the package is
    recorded as trusted; a change of a package tree moves its fingerprint to one it never
    had (its change times), and a runtime is written by its own launch only. Nobody makes
    a signature that verifies under a host's key but its holder, and a random nonce of 32
    bytes is new. Lock files are never removed, and releasing a lock of one's own file fails
    only when it is interrupted. The cache root stays the same while runners use it, its
    directories of leases can be read, and the runtime of an attempt is a new one:
    the persistent slots, which lay out one runtime again, are outside [CacheSafety].

    ** What is not modelled

    Sockets, files, processes and services below the calls of the models above: these are
    effects with stated promises, because what they do is decided outside this program.
    The service managers, secret stores, paths and logs of each operating system, the
    container and Hyper-V providers behind the lifecycle's ports, the package seeds of
    macOS and the locks of Windows are of that kind. The command line and the terminal
    interface only render what the models compute and call the operations modelled here.
    Of the GitHub crate, the runner inventory and the registration client are requests
    whose answers are passed on. In the store, opening, migrations and the text codecs of
    columns; the serde derives. Hashes, signatures, message authentication codes,
    hexadecimal and JSON parsing come from other crates and are parameters. *)

From stdpp Require Export base tactics option list numbers gmap sets.
From Stdlib Require Export ZArith Lia ZifyBool.

#[global] Open Scope Z_scope.

(** ** The [Result] type

    Rust's [Result<A, E>]. [let?] is the [?] operator; [map_err] is the
    [From] conversion that [?] applies, or an explicit [.map_err]. *)

Inductive result (A E : Type) : Type :=
  | Ok (a : A)
  | Err (e : E).
Arguments Ok {A E} a.
Arguments Err {A E} e.

Declare Scope rust_scope.
Delimit Scope rust_scope with rust.
#[global] Open Scope rust_scope.

Notation "'let?' x ':=' c 'in' k" :=
  (match c with Ok x => k | Err e => Err e end)
  (at level 10, x pattern, c at level 200, k at level 200,
   format "'[v' 'let?'  x  ':='  c  'in' '/' k ']'") : rust_scope.

Definition map_err {A E F} (f : E → F) (r : result A E) : result A F :=
  match r with Ok a => Ok a | Err e => Err (f e) end.

Definition map_ok {A B E} (f : A → B) (r : result A E) : result B E :=
  match r with Ok a => Ok (f a) | Err e => Err e end.

Definition is_ok {A E} (r : result A E) : bool :=
  match r with Ok _ => true | Err _ => false end.

Definition ok_or {A E} (o : option A) (e : E) : result A E :=
  match o with Some a => Ok a | None => Err e end.

#[global] Instance result_eq_dec `{EqDecision A, EqDecision E} : EqDecision (result A E).
Proof. solve_decision. Defined.

(** [iter().map(f).collect::<Result<Vec<_>, _>>()]: stops at the first error. *)
Fixpoint collect_result {A B E} (f : A → result B E) (l : list A) : result (list B) E :=
  match l with
  | [] => Ok []
  | x :: l => let? y := f x in let? ys := collect_result f l in Ok (y :: ys)
  end.

(** ** Methods that mutate [&mut self]

    A method [fn f(&mut self, ..) -> Result<A, E>] is a function from the
    receiver to the receiver after the call and the value returned. The receiver
    after an [Err] is part of the model, so that "a refused call changes nothing"
    is a theorem about the code and not a consequence of how it is written down. *)

Definition method (S A E : Type) : Type := S → S * result A E.

Definition st_ret {S A E} (a : A) : method S A E := λ s, (s, Ok a).
Definition st_fail {S A E} (e : E) : method S A E := λ s, (s, Err e).
Definition st_bind {S A B E} (m : method S A E) (k : A → method S B E) : method S B E :=
  λ s, match m s with
       | (s', Ok a) => k a s'
       | (s', Err e) => (s', Err e)
       end.
Definition st_lift {S A E} (r : result A E) : method S A E := λ s, (s, r).
Definition st_modify {S E} (f : S → S) : method S () E := λ s, (f s, Ok tt).
Definition st_read {S A E} (f : S → A) : method S A E := λ s, (s, Ok (f s)).
Definition st_guard {S E} (b : bool) (e : E) : method S () E :=
  λ s, (s, if b then Ok tt else Err e).

Notation "x '<-?' m ';;' k" := (st_bind m (λ x, k))
  (at level 100, m at next level, right associativity) : rust_scope.
Notation "m ';;?' k" := (st_bind m (λ _, k))
  (at level 100, right associativity) : rust_scope.

(** ** Machine integers

    A [u16], [u32] or [u64] is a [Z]; the range is part of the well-formedness
    invariants and the saturating operations write the bounds out. *)

Definition U16_MAX : Z := 65535.
Definition U32_MAX : Z := 4294967295.
Definition U64_MAX : Z := 18446744073709551615.
Definition I64_MAX : Z := 9223372036854775807.

Definition in_u16 (z : Z) : Prop := 0 ≤ z ≤ U16_MAX.
Definition in_u32 (z : Z) : Prop := 0 ≤ z ≤ U32_MAX.
Definition in_u64 (z : Z) : Prop := 0 ≤ z ≤ U64_MAX.

(** [NonZeroU16]. *)
Definition nonzero_u16 (z : Z) : Prop := 1 ≤ z ≤ U16_MAX.

#[global] Instance in_u16_dec z : Decision (in_u16 z) := _.
#[global] Instance in_u32_dec z : Decision (in_u32 z) := _.
#[global] Instance in_u64_dec z : Decision (in_u64 z) := _.
#[global] Instance nonzero_u16_dec z : Decision (nonzero_u16 z) := _.

Definition sat_add (max a b : Z) : Z := Z.min max (a + b).
Definition sat_sub (a b : Z) : Z := Z.max 0 (a - b).
Definition sat_mul (max a b : Z) : Z := Z.min max (a * b).

(** [Ord::clamp]. *)
Definition clamp (x lo hi : Z) : Z :=
  if bool_decide (x < lo) then lo else if bool_decide (hi < x) then hi else x.

(** [iter.fold(0u16, |acc, _| acc.saturating_add(1))]. *)
Definition sat_count {A} (max : Z) (l : list A) : Z :=
  foldl (λ acc _, sat_add max acc 1) 0 l.

(** ** Automation *)

Create HintDb rust discriminated.

(** Split every [match] in sight, keeping the equations. *)
Ltac cases := repeat (case_match; simplify_eq/=).

(** Reduce the method combinators. *)
Ltac munfold :=
  unfold st_bind, st_ret, st_fail, st_lift, st_modify, st_read, st_guard in *.
Ltac msimp := munfold; simplify_eq/=.
Ltac mcases := munfold; repeat (case_match; simplify_eq/=).

(** Turn boolean guards into propositions. *)
Ltac breflect :=
  repeat match goal with
  | H : bool_decide _ = true |- _ => apply bool_decide_eq_true_1 in H
  | H : bool_decide _ = false |- _ => apply bool_decide_eq_false_1 in H
  | H : (_ && _)%bool = true |- _ => apply andb_true_iff in H as [? ?]
  | H : (_ || _)%bool = false |- _ => apply orb_false_iff in H as [? ?]
  | H : negb _ = true |- _ => apply negb_true_iff in H
  | H : negb _ = false |- _ => apply negb_false_iff in H
  end.

Ltac zarith :=
  unfold sat_add, sat_sub, sat_mul, clamp, in_u16, in_u32, in_u64, nonzero_u16,
    U16_MAX, U32_MAX, U64_MAX, I64_MAX in *; repeat case_bool_decide; lia.

(** ** Generic lemmas *)

Lemma sat_add_range max a b : 0 ≤ max → 0 ≤ a → 0 ≤ b → 0 ≤ sat_add max a b ≤ max.
Proof. unfold sat_add. lia. Qed.

Lemma clamp_spec x lo hi : lo ≤ hi → clamp x lo hi = Z.max lo (Z.min x hi).
Proof. intros. unfold clamp. repeat case_bool_decide; lia. Qed.

Lemma sat_count_from {A} max (l : list A) acc :
  0 ≤ acc ≤ max →
  foldl (λ acc _, sat_add max acc 1) acc l = Z.min max (acc + Z.of_nat (length l)).
Proof.
  revert acc. induction l as [|x l IH]; intros acc Hacc; simpl; [lia|].
  rewrite IH; unfold sat_add; lia.
Qed.

Lemma sat_count_spec {A} max (l : list A) :
  0 ≤ max → sat_count max l = Z.min max (Z.of_nat (length l)).
Proof. intros. unfold sat_count. rewrite sat_count_from; lia. Qed.

Lemma sat_count_nonneg {A} max (l : list A) : 0 ≤ max → 0 ≤ sat_count max l ≤ max.
Proof. intros. rewrite sat_count_spec; lia. Qed.

#[export] Hint Resolve sat_add_range sat_count_nonneg : rust.

Lemma collect_result_ok {A B E} (f : A → result B E) l ys :
  collect_result f l = Ok ys ↔ Forall2 (λ x y, f x = Ok y) l ys.
Proof.
  revert ys. induction l as [|x l IH]; intros ys; simpl.
  - split; [intros [= <-]; constructor | by inversion 1].
  - split.
    + intros H. cases. constructor; [done|]. by apply IH.
    + inversion 1 as [|? y ? ys' Hx Hl]; subst. rewrite Hx.
      apply IH in Hl. by rewrite Hl.
Qed.

Lemma collect_result_err {A B E} (f : A → result B E) l e :
  collect_result f l = Err e → ∃ x, x ∈ l ∧ f x = Err e.
Proof.
  induction l as [|x l IH]; simpl; [done|]. intros H.
  destruct (f x) eqn:Hx; simplify_eq/=.
  - destruct (collect_result f l) eqn:Hl; simplify_eq.
    destruct (IH eq_refl) as (z & ? & ?). exists z. split; [by right|done].
  - exists x. split; [by left|done].
Qed.

Lemma Forall_exists_Forall2 {A B} (P : A → B → Prop) l :
  Forall (λ x, ∃ y, P x y) l → ∃ k, Forall2 P l k.
Proof.
  induction 1 as [|x l (y & Hy) _ (k & Hk)]; [by exists []|].
  exists (y :: k). by constructor.
Qed.

(** Distinct keys identify the elements of a list. *)
Lemma NoDup_fmap_key {A B} (f : A → B) (l : list A) x y :
  NoDup (f <$> l) → x ∈ l → y ∈ l → f x = f y → x = y.
Proof.
  intros Hnd [i Hi]%list_elem_of_lookup [j Hj]%list_elem_of_lookup E.
  assert (i = j) as ->; [|congruence].
  apply (NoDup_lookup _ i j (f x) Hnd); rewrite list_lookup_fmap; [by rewrite Hi|].
  rewrite Hj. simpl. congruence.
Qed.

Lemma NoDup_fmap_filter {A B} (f : A → B) (g : A → bool) (l : list A) :
  NoDup (f <$> l) → NoDup (f <$> List.filter g l).
Proof.
  induction l as [|x l IH]; simpl; [done|]. inversion 1 as [|? ? Hn Hl]; subst.
  destruct (g x); simpl; [|auto]. constructor; [|auto].
  intros (y & E & Hy)%list_elem_of_fmap. apply Hn, list_elem_of_fmap. exists y. split; [done|].
  apply list_elem_of_In in Hy. apply List.filter_In in Hy as [Hy _]. by apply list_elem_of_In.
Qed.

(** *** Accepted method calls *)

Section Methods.
Context {S E : Type}.

Lemma st_bind_ok {A B} (m : method S A E) (k : A → method S B E) s s' b :
  st_bind m k s = (s', Ok b) ↔ ∃ s1 a, m s = (s1, Ok a) ∧ k a s1 = (s', Ok b).
Proof. unfold st_bind. destruct (m s) as [s1 [a|e]]; naive_solver. Qed.

Lemma st_guard_ok b (e : E) (s s' : S) u : st_guard b e s = (s', Ok u) ↔ b = true ∧ s' = s.
Proof. unfold st_guard. destruct b, u; naive_solver. Qed.

Lemma st_modify_ok (f : S → S) (s s' : S) u :
  @st_modify S E f s = (s', Ok u) ↔ s' = f s.
Proof. unfold st_modify. destruct u. naive_solver. Qed.

Lemma st_lift_ok {A} (r : result A E) (s s' : S) a :
  st_lift r s = (s', Ok a) ↔ r = Ok a ∧ s' = s.
Proof. unfold st_lift. naive_solver. Qed.
End Methods.

Lemma map_err_ok {A E F} (f : E → F) (r : result A E) a : map_err f r = Ok a ↔ r = Ok a.
Proof. destruct r; naive_solver. Qed.

(** Take accepted calls apart into their guards and their effects. A component
    extends it to its own primitives by redefining the hook. *)
Ltac accepted_hook := fail.
Ltac accepted :=
  repeat first
    [ match goal with
      | H : st_bind _ _ _ = (_, Ok _) |- _ => apply st_bind_ok in H as (? & ? & ? & ?)
      | H : st_guard _ _ _ = (_, Ok _) |- _ => apply st_guard_ok in H as [? ?]
      | H : st_modify _ _ = (_, Ok _) |- _ => apply st_modify_ok in H
      | H : st_lift _ _ = (_, Ok _) |- _ => apply st_lift_ok in H as [? ?]
      | H : map_err _ _ = Ok _ |- _ => apply map_err_ok in H
      | H : st_fail _ _ = (_, Ok _) |- _ => discriminate H
      end
    | accepted_hook ]; subst; breflect; simpl in *.
