(* ===== verification/RustStr.v ===== *)
(** * Rust strings

    The parts of [core::str] and [core::char] that the modelled crates call. A
    [char] is its Unicode scalar value (an [N]) and a [str] is the list of its
    chars, so [str::chars] is the identity; [str::len] is the UTF-8 length,
    computed from the code points. [str::trim] and [char::is_whitespace] use the
    Unicode [White_Space] property and [char::is_control] the category [Cc], both
    written out; the [ascii] family of methods touches code points below 128
    only. *)

From S2P Require Import Prelude.
From stdpp Require Import strings.
From Stdlib Require Export Ascii.
From Stdlib Require Import DecimalString DecimalN.

#[local] Open Scope N_scope.

#[global] Abbreviation char := N (only parsing).
#[global] Abbreviation str := (list N) (only parsing).

(** A string literal of the source. *)
Fixpoint lit (s : string) : str :=
  match s with
  | EmptyString => []
  | String a s => N_of_ascii a :: lit s
  end.

(** A [char] literal of the source. *)
Definition ch (a : ascii) : char := N_of_ascii a.

Arguments ch a%_char_scope : simpl never.
Arguments lit s%_string_scope : simpl never.

(** ** Characters *)

Definition in_range (lo hi c : N) : bool := (lo <=? c) && (c <=? hi).

Definition is_ascii_digit (c : char) : bool := in_range 48 57 c.
Definition is_ascii_uppercase (c : char) : bool := in_range 65 90 c.
Definition is_ascii_lowercase (c : char) : bool := in_range 97 122 c.
Definition is_ascii_alphabetic (c : char) : bool :=
  is_ascii_uppercase c || is_ascii_lowercase c.
Definition is_ascii_alphanumeric (c : char) : bool :=
  is_ascii_alphabetic c || is_ascii_digit c.
Definition is_ascii_hexdigit (c : char) : bool :=
  is_ascii_digit c || in_range 65 70 c || in_range 97 102 c.

(** The [White_Space] property. *)
Definition is_whitespace (c : char) : bool :=
  in_range 9 13 c || (c =? 32) || (c =? 133) || (c =? 160) || (c =? 5760)
  || in_range 8192 8202 c || (c =? 8232) || (c =? 8233) || (c =? 8239)
  || (c =? 8287) || (c =? 12288).

(** The general category [Cc]. *)
Definition is_control (c : char) : bool := in_range 0 31 c || in_range 127 159 c.

Definition to_ascii_lower (c : char) : char :=
  if is_ascii_uppercase c then c + 32 else c.
Definition to_ascii_upper (c : char) : char :=
  if is_ascii_lowercase c then c - 32 else c.

Definition len_utf8 (c : char) : Z :=
  if c <? 128 then 1%Z else if c <? 2048 then 2%Z else if c <? 65536 then 3%Z else 4%Z.

(** A value a Rust [char] can have. *)
Definition is_scalar (c : N) : bool := (c <? 55296) || in_range 57344 1114111 c.

(** ** Strings *)

(** [str::len], in bytes. *)
Definition len (s : str) : Z := foldr (λ c n, (len_utf8 c + n)%Z) 0%Z s.

(** [str::as_bytes]: the UTF-8 encoding. *)
Definition utf8_char (c : char) : list N :=
  if c <? 128 then [c]
  else if c <? 2048 then [192 + c / 64; 128 + c mod 64]
  else if c <? 65536 then [224 + c / 4096; 128 + c / 64 mod 64; 128 + c mod 64]
  else [240 + c / 262144; 128 + c / 4096 mod 64; 128 + c / 64 mod 64; 128 + c mod 64].
Definition as_bytes (s : str) : list N := s ≫= utf8_char.

(** [str::chars().count()]. *)
Definition chars_count (s : str) : Z := Z.of_nat (length s).

Fixpoint drop_while (f : char → bool) (s : str) : str :=
  match s with
  | [] => []
  | c :: s' => if f c then drop_while f s' else s
  end.

Definition trim_start_matches (f : char → bool) (s : str) : str := drop_while f s.
Definition trim_end_matches (f : char → bool) (s : str) : str :=
  reverse (drop_while f (reverse s)).
Definition trim (s : str) : str :=
  trim_end_matches is_whitespace (trim_start_matches is_whitespace s).

Definition trim_start (s : str) : str := trim_start_matches is_whitespace s.
Definition trim_end (s : str) : str := trim_end_matches is_whitespace s.

Definition to_ascii_lowercase (s : str) : str := to_ascii_lower <$> s.
Definition to_ascii_uppercase (s : str) : str := to_ascii_upper <$> s.

Definition str_eqb (s t : str) : bool := bool_decide (s = t).
Definition eq_ignore_ascii_case (s t : str) : bool :=
  str_eqb (to_ascii_lowercase s) (to_ascii_lowercase t).

(** [chars().find(f)]. *)
Definition find_char (f : char → bool) (s : str) : option char := List.find f s.

Fixpoint strip_prefix (p s : str) : option str :=
  match p, s with
  | [], _ => Some s
  | c :: p, d :: s => if c =? d then strip_prefix p s else None
  | _, _ => None
  end.

Definition starts_with (p s : str) : bool :=
  match strip_prefix p s with Some _ => true | None => false end.
Definition ends_with (p s : str) : bool := starts_with (reverse p) (reverse s).

(** [s.strip_suffix(pat)]. *)
Definition strip_suffix (p s : str) : option str :=
  reverse <$> strip_prefix (reverse p) (reverse s).

(** [s.contains(pat)] for a string pattern. *)
Fixpoint contains_str (p s : str) : bool :=
  starts_with p s || match s with [] => false | _ :: s => contains_str p s end.

Definition contains_char (c : char) (s : str) : bool := existsb (N.eqb c) s.

(** [s.split(f)]: one more piece than there are separators. *)
Fixpoint split_on (f : char → bool) (s : str) : list str :=
  match s with
  | [] => [[]]
  | c :: s =>
      if f c then [] :: split_on f s
      else match split_on f s with
           | [] => [[c]]
           | w :: ws => (c :: w) :: ws
           end
  end.

(** [s.split_whitespace()]. *)
Definition split_whitespace (s : str) : list str :=
  List.filter (λ w, negb (bool_decide (w = []))) (split_on is_whitespace s).

(** [s.lines()]: a line feed, with one carriage return before it, ends a line; what
    follows the last one is a line unless it is empty. *)
Definition strip_cr (s : str) : str := default s (strip_suffix [13] s).
Fixpoint ended_lines (pieces : list str) : list str :=
  match pieces with
  | [] | [[]] => []
  | [rest] => [rest]
  | piece :: pieces => strip_cr piece :: ended_lines pieces
  end.
Definition lines (s : str) : list str := ended_lines (split_on (N.eqb 10) s).

(** [s.split_once(c)]: at the first occurrence. *)
Fixpoint split_once (c : char) (s : str) : option (str * str) :=
  match s with
  | [] => None
  | d :: s =>
      if d =? c then Some ([], s)
      else match split_once c s with
           | Some (a, b) => Some (d :: a, b)
           | None => None
           end
  end.

(** [s.rsplit_once(pat)]: at the last occurrence. *)
Fixpoint rsplit_once (p s : str) : option (str * str) :=
  match s with
  | [] => match strip_prefix p s with Some r => Some ([], r) | None => None end
  | d :: s' =>
      match rsplit_once p s' with
      | Some (a, b) => Some (d :: a, b)
      | None => match strip_prefix p s with Some r => Some ([], r) | None => None end
      end
  end.

(** [s.matches(c).count()]. *)
Definition matches_count (c : char) (s : str) : Z :=
  Z.of_nat (length (List.filter (N.eqb c) s)).

(** [{n}] of an unsigned integer. *)
Definition show_uint (n : Z) : str :=
  lit (NilZero.string_of_uint (N.to_uint (Z.to_N n))).

(** [str::parse] of an unsigned integer no larger than [max]. *)
Fixpoint parse_digits (max acc : Z) (s : str) : option Z :=
  match s with
  | [] => Some acc
  | c :: s =>
      if is_ascii_digit c then
        let acc := (acc * 10 + Z.of_N (c - 48))%Z in
        if bool_decide (acc ≤ max)%Z then parse_digits max acc s else None
      else None
  end.
Definition parse_uint (max : Z) (s : str) : option Z :=
  let digits := match s with c :: rest => if c =? ch "+" then rest else s | [] => [] end in
  match digits with [] => None | _ => parse_digits max 0 digits end.

(** [Uuid]'s text: 32 hexadecimal digits in groups of 8, 4, 4, 4 and 12. *)
Definition hex_digit (n : N) : char := if n <? 10 then 48 + n else 87 + n.
Fixpoint hex_digits (k : nat) (n : N) : str :=
  match k with O => [] | S k => hex_digits k (n / 16) ++ [hex_digit (n mod 16)] end.
Definition show_uuid (n : N) : str :=
  let h := hex_digits 32 n in
  take 8 h ++ [ch "-"] ++ take 4 (drop 8 h) ++ [ch "-"] ++ take 4 (drop 12 h) ++ [ch "-"]
  ++ take 4 (drop 16 h) ++ [ch "-"] ++ drop 20 h.

(** [slice.join(sep)]. *)
Fixpoint join (sep : str) (ws : list str) : str :=
  match ws with
  | [] => []
  | [w] => w
  | w :: ws => w ++ sep ++ join sep ws
  end.

(** ** Lemmas *)

Ltac chars :=
  unfold to_ascii_lower, to_ascii_upper, is_ascii_alphanumeric, is_ascii_hexdigit,
    is_whitespace, is_control, len_utf8 in *;
  unfold is_ascii_alphabetic in *;
  unfold is_ascii_uppercase, is_ascii_lowercase, is_ascii_digit in *;
  unfold in_range, ch in *;
  repeat match goal with
  | |- context [N_of_ascii ?a] =>
      let v := eval vm_compute in (N_of_ascii a) in change (N_of_ascii a) with v in *
  end;
  repeat match goal with
  | H : context [if ?b then _ else _] |- _ => destruct b eqn:?
  | |- context [if ?b then _ else _] => destruct b eqn:?
  end; lia.

Lemma to_ascii_lower_idem c : to_ascii_lower (to_ascii_lower c) = to_ascii_lower c.
Proof. chars. Qed.

Lemma is_whitespace_lower c : is_whitespace (to_ascii_lower c) = is_whitespace c.
Proof. chars. Qed.

Lemma is_control_lower c : is_control (to_ascii_lower c) = is_control c.
Proof. chars. Qed.

Lemma is_alnum_lower c :
  is_ascii_alphanumeric (to_ascii_lower c) = is_ascii_alphanumeric c.
Proof. chars. Qed.

Lemma length_as_bytes s : Z.of_nat (length (as_bytes s)) = len s.
Proof.
  unfold as_bytes. induction s as [|c s IH]; [done|].
  rewrite bind_cons, length_app, Nat2Z.inj_add, IH. cbn [len foldr]. fold (len s). f_equal.
  unfold utf8_char, len_utf8. by repeat case_match.
Qed.

Lemma len_utf8_lower c : len_utf8 (to_ascii_lower c) = len_utf8 c.
Proof. chars. Qed.

Lemma to_ascii_lower_fixed c d :
  is_ascii_alphabetic d = false → (to_ascii_lower c =? d) = (c =? d).
Proof. chars. Qed.

Lemma alnum_not_whitespace c : is_ascii_alphanumeric c = true → is_whitespace c = false.
Proof. chars. Qed.

Lemma to_ascii_lowercase_idem s :
  to_ascii_lowercase (to_ascii_lowercase s) = to_ascii_lowercase s.
Proof.
  unfold to_ascii_lowercase. rewrite <- list_fmap_compose.
  apply list_fmap_ext. intros ???. apply to_ascii_lower_idem.
Qed.

Lemma len_lower s : len (to_ascii_lowercase s) = len s.
Proof. induction s as [|c s IH]; [done|]. simpl. by rewrite len_utf8_lower, <- IH. Qed.

Lemma len_nonneg s : (0 ≤ len s)%Z.
Proof. induction s as [|c s IH]; simpl; [done|]. unfold len_utf8. cases; lia. Qed.

Lemma len_app s t : len (s ++ t) = (len s + len t)%Z.
Proof. induction s as [|c s IH]; simpl; [lia|]. rewrite IH. lia. Qed.

Lemma chars_count_le_len s : (chars_count s ≤ len s)%Z.
Proof.
  unfold chars_count. induction s as [|c s IH]; [done|]. simpl.
  unfold len_utf8. cases; lia.
Qed.

Lemma chars_count_lower s : chars_count (to_ascii_lowercase s) = chars_count s.
Proof. unfold chars_count, to_ascii_lowercase. by rewrite length_fmap. Qed.

Lemma eq_ignore_ascii_case_spec s t :
  eq_ignore_ascii_case s t = true ↔ to_ascii_lowercase s = to_ascii_lowercase t.
Proof. unfold eq_ignore_ascii_case, str_eqb. by rewrite bool_decide_eq_true. Qed.

(** *** [find] *)

Lemma find_char_None f s : find_char f s = None ↔ Forall (λ c, f c = false) s.
Proof.
  induction s as [|c s IH]; simpl; [split; [constructor|done]|].
  rewrite Forall_cons, <- IH. destruct (f c); intuition congruence.
Qed.

Lemma find_char_Some f s c : find_char f s = Some c → f c = true ∧ c ∈ s.
Proof.
  intros H. apply List.find_some in H as [Hin Hf].
  split; [done|]. by apply list_elem_of_In.
Qed.

(** *** [trim] *)

Lemma drop_while_fixed f s : (∀ c, head s = Some c → f c = false) → drop_while f s = s.
Proof. destruct s as [|c s]; simpl; [done|]. intros H. by rewrite (H c). Qed.

Lemma drop_while_head f s c : head (drop_while f s) = Some c → f c = false.
Proof. induction s as [|d s IH]; simpl; [done|]. destruct (f d) eqn:?; naive_solver. Qed.

Lemma drop_while_fmap f g s :
  (∀ c, f (g c) = f c) → drop_while f (g <$> s) = g <$> drop_while f s.
Proof. intros H. induction s as [|c s IH]; simpl; [done|]. rewrite H. by destruct (f c). Qed.

Lemma drop_while_suffix f s : ∃ p, s = p ++ drop_while f s.
Proof.
  induction s as [|c s [p IH]]; simpl; [by exists []|].
  destruct (f c); [exists (c :: p); by rewrite IH at 1 | by exists []].
Qed.

Lemma drop_while_elem f s c : c ∈ drop_while f s → c ∈ s.
Proof.
  destruct (drop_while_suffix f s) as [p E]. intros H. rewrite E. set_solver.
Qed.

Lemma trim_end_fixed f s : (∀ c, last s = Some c → f c = false) → trim_end_matches f s = s.
Proof.
  intros H. unfold trim_end_matches.
  rewrite drop_while_fixed; [by rewrite reverse_involutive|].
  intros c. rewrite head_reverse. apply H.
Qed.

Lemma trim_end_last f s c : last (trim_end_matches f s) = Some c → f c = false.
Proof. unfold trim_end_matches. rewrite last_reverse. apply drop_while_head. Qed.

Lemma trim_end_prefix f s : trim_end_matches f s `prefix_of` s.
Proof.
  unfold trim_end_matches. destruct (drop_while_suffix f (reverse s)) as [p E].
  exists (reverse p). rewrite <- reverse_app, <- E. by rewrite reverse_involutive.
Qed.

Lemma trim_end_elem f s c : c ∈ trim_end_matches f s → c ∈ s.
Proof. destruct (trim_end_prefix f s) as [k E]. intros. rewrite E. set_solver. Qed.

Lemma trim_end_head f s c : head (trim_end_matches f s) = Some c → head s = Some c.
Proof.
  destruct (trim_end_prefix f s) as [k E]. rewrite E at 2.
  by destruct (trim_end_matches f s).
Qed.

Lemma trim_elem s c : c ∈ trim s → c ∈ s.
Proof. intros H%trim_end_elem%drop_while_elem. done. Qed.

Lemma trim_edges s :
  (∀ c, head (trim s) = Some c → is_whitespace c = false) ∧
  (∀ c, last (trim s) = Some c → is_whitespace c = false).
Proof.
  split; intros c H.
  - apply trim_end_head, drop_while_head in H. done.
  - by apply trim_end_last in H.
Qed.

Lemma trim_fixed s :
  (∀ c, head s = Some c → is_whitespace c = false) →
  (∀ c, last s = Some c → is_whitespace c = false) → trim s = s.
Proof.
  intros Hh Hl. unfold trim, trim_start_matches.
  rewrite (drop_while_fixed _ s) by done. by apply trim_end_fixed.
Qed.

Lemma trim_idem s : trim (trim s) = trim s.
Proof. destruct (trim_edges s). by apply trim_fixed. Qed.

Lemma trim_lower s : trim (to_ascii_lowercase s) = to_ascii_lowercase (trim s).
Proof.
  unfold trim, trim_start_matches, trim_end_matches, to_ascii_lowercase.
  rewrite (drop_while_fmap _ to_ascii_lower s) by apply is_whitespace_lower.
  rewrite <- fmap_reverse, drop_while_fmap by apply is_whitespace_lower.
  by rewrite fmap_reverse.
Qed.

Lemma trim_no_whitespace s : Forall (λ c, is_whitespace c = false) s → trim s = s.
Proof.
  rewrite Forall_forall. intros H. apply trim_fixed; intros c Hc; apply H.
  - by apply head_Some_elem_of.
  - by apply last_Some_elem_of.
Qed.

Create Rewrite HintDb rust_str.
#[export] Hint Rewrite to_ascii_lowercase_idem len_lower chars_count_lower trim_idem
  trim_lower : rust_str.

(** *** Prefixes and suffixes *)

Lemma strip_prefix_spec p s r : strip_prefix p s = Some r ↔ s = p ++ r.
Proof.
  revert s. induction p as [|c p IH]; intros s; simpl; [naive_solver|].
  destruct s as [|d s]; simpl; [naive_solver|].
  destruct (N.eqb_spec c d) as [->|Hne]; rewrite ?IH; naive_solver.
Qed.

Lemma starts_with_spec p s : starts_with p s = true ↔ p `prefix_of` s.
Proof.
  unfold starts_with, prefix. destruct (strip_prefix p s) as [r|] eqn:E.
  - apply strip_prefix_spec in E. naive_solver.
  - split; [done|]. intros [r Hr]. apply strip_prefix_spec in Hr. congruence.
Qed.

Lemma ends_with_spec p s : ends_with p s = true ↔ p `suffix_of` s.
Proof. unfold ends_with. by rewrite starts_with_spec, <- suffix_prefix_reverse. Qed.

Lemma starts_with_char c s : starts_with [c] s = true ↔ head s = Some c.
Proof.
  rewrite starts_with_spec. unfold prefix. destruct s as [|d s]; naive_solver.
Qed.

Lemma ends_with_char c s : ends_with [c] s = true ↔ last s = Some c.
Proof.
  unfold ends_with. change (reverse [c]) with [c].
  by rewrite starts_with_char, head_reverse.
Qed.

Lemma starts_with_char_lower c s :
  is_ascii_alphabetic c = false →
  starts_with [c] (to_ascii_lowercase s) = starts_with [c] s.
Proof.
  intros Hc. destruct s as [|d s]; [done|].
  unfold to_ascii_lowercase, starts_with. rewrite fmap_cons. simpl.
  rewrite (N.eqb_sym c), (N.eqb_sym c), to_ascii_lower_fixed by done.
  by destruct (N.eqb d c).
Qed.

Lemma ends_with_char_lower c s :
  is_ascii_alphabetic c = false →
  ends_with [c] (to_ascii_lowercase s) = ends_with [c] s.
Proof.
  intros Hc. unfold ends_with, to_ascii_lowercase. rewrite <- fmap_reverse.
  by apply starts_with_char_lower.
Qed.

(** *** Splitting at a character *)

Lemma split_once_app c a b : c ∉ a → split_once c (a ++ c :: b) = Some (a, b).
Proof.
  induction a as [|d a IH]; simpl; intros H; [by rewrite N.eqb_refl|].
  destruct (N.eqb_spec d c) as [->|]; [set_solver|].
  rewrite IH by set_solver. done.
Qed.

Lemma split_once_Some c s a b : split_once c s = Some (a, b) → s = a ++ c :: b ∧ c ∉ a.
Proof.
  revert a b. induction s as [|d s IH]; intros a b; simpl; [done|].
  destruct (N.eqb_spec d c) as [->|Hne].
  - intros [= <- <-]. split; [done|]. apply not_elem_of_nil.
  - destruct (split_once c s) as [[a' b']|]; [|done].
    intros [= <- <-]. destruct (IH a' b' eq_refl) as [-> ?].
    split; [done|]. rewrite not_elem_of_cons. auto.
Qed.

Lemma matches_count_none c s : c ∉ s → matches_count c s = 0%Z.
Proof.
  unfold matches_count. induction s as [|d s IH]; simpl; [done|].
  intros H. destruct (N.eqb_spec c d) as [->|]; [set_solver|]. apply IH. set_solver.
Qed.

Lemma matches_count_app c s t :
  matches_count c (s ++ t) = (matches_count c s + matches_count c t)%Z.
Proof.
  unfold matches_count. rewrite List.filter_app, length_app. lia.
Qed.

Lemma matches_count_self c : matches_count c [c] = 1%Z.
Proof. unfold matches_count. simpl. by rewrite N.eqb_refl. Qed.

Lemma Forall_not_elem (f : char → bool) c (s : str) :
  Forall (λ d, f d = true) s → f c = false → c ∉ s.
Proof. rewrite Forall_forall. intros H Hc Hin. apply H in Hin. congruence. Qed.

Lemma trim_all (f : char → bool) s :
  (∀ c, f c = true → is_whitespace c = false) → Forall (λ c, f c = true) s → trim s = s.
Proof. intros Hf Hs. apply trim_no_whitespace. eapply Forall_impl; eauto. Qed.

Lemma find_negb_None (f : char → bool) s :
  find_char (λ c, negb (f c)) s = None ↔ Forall (λ c, f c = true) s.
Proof.
  rewrite find_char_None.
  split; intros H; apply (Forall_impl _ _ _ H); intros c; by destruct (f c).
Qed.

(** *** Splitting and joining *)

Lemma split_no_sep f s : Forall (λ c, f c = false) s → split_on f s = [s].
Proof.
  induction 1 as [|c s Hc Hs IH]; simpl; [done|]. by rewrite Hc, IH.
Qed.

Lemma split_app_sep f s c t :
  Forall (λ c, f c = false) s → f c = true → split_on f (s ++ c :: t) = s :: split_on f t.
Proof.
  intros Hs Hc. induction Hs as [|d s Hd Hs IH]; simpl; [by rewrite Hc|].
  by rewrite Hd, IH.
Qed.

Lemma split_join f c ws :
  f c = true → ws ≠ [] → Forall (Forall (λ c, f c = false)) ws →
  split_on f (join [c] ws) = ws.
Proof.
  intros Hc Hne Hws. induction Hws as [|w ws Hw Hws IH]; [done|].
  destruct ws as [|w' ws]; [by apply split_no_sep|].
  change (join [c] (w :: w' :: ws)) with (w ++ c :: join [c] (w' :: ws)).
  rewrite split_app_sep by done. f_equal. by apply IH.
Qed.

Lemma split_pieces_no_sep f s : Forall (Forall (λ c, f c = false)) (split_on f s).
Proof.
  induction s as [|c s IH]; simpl; [by repeat constructor|].
  destruct (f c) eqn:E; [by repeat constructor|].
  destruct (split_on f s) as [|w ws]; [by repeat constructor|].
  apply Forall_cons in IH as [??]. by repeat constructor.
Qed.

Lemma join_snoc c ws w : ws ≠ [] → join [c] (ws ++ [w]) = join [c] ws ++ [c] ++ w.
Proof.
  induction ws as [|v ws IH]; [done|]. intros _.
  destruct ws as [|v' ws]; [done|].
  change (join [c] ((v :: v' :: ws) ++ [w])) with (v ++ [c] ++ join [c] ((v' :: ws) ++ [w])).
  rewrite IH by done.
  change (join [c] (v :: v' :: ws)) with (v ++ [c] ++ join [c] (v' :: ws)).
  by rewrite <- !app_assoc.
Qed.

Lemma join_elem c d ws : d ∈ join [c] ws → d = c ∨ ∃ w, w ∈ ws ∧ d ∈ w.
Proof.
  induction ws as [|w ws IH]; [by intros ?%not_elem_of_nil|].
  destruct ws as [|w' ws].
  - simpl. intros. right. exists w. split; [by left|done].
  - change (join [c] (w :: w' :: ws)) with (w ++ [c] ++ join [c] (w' :: ws)).
    rewrite !elem_of_app, list_elem_of_singleton.
    intros [?|[?|H]]; [right; exists w; split; [by left|done]|by left|].
    destruct (IH H) as [?|(v & ? & ?)]; [by left|].
    right. exists v. split; [by right|done].
Qed.

Lemma split_on_nonempty f s : split_on f s ≠ [].
Proof. destruct s as [|c s]; simpl; [done|]. destruct (f c); [done|]. by destruct (split_on f s). Qed.

Lemma split_on_sep f s c t :
  f c = true → split_on f (s ++ c :: t) = split_on f s ++ split_on f t.
Proof.
  intros Hc. induction s as [|d s IH]; simpl; [by rewrite Hc|].
  destruct (f d); [by rewrite IH|]. rewrite IH.
  pose proof (split_on_nonempty f s). by destruct (split_on f s).
Qed.

(** *** Substrings *)

Lemma contains_str_spec p s : contains_str p s = true → ∃ a b, s = a ++ p ++ b.
Proof.
  induction s as [|c s IH]; simpl; rewrite orb_true_iff.
  - intros [H|?]; [|done]. apply starts_with_spec in H as [b E]. by exists [], b.
  - intros [H|H].
    + apply starts_with_spec in H as [b E]. by exists [], b.
    + destruct (IH H) as (a & b & ->). by exists (c :: a), b.
Qed.

Lemma rsplit_once_Some p s a b : rsplit_once p s = Some (a, b) → s = a ++ p ++ b.
Proof.
  revert a b. induction s as [|c s IH]; intros a b H; simpl in H.
  - destruct (strip_prefix p []) eqn:E; [|done]. injection H as <- <-.
    by apply strip_prefix_spec in E.
  - destruct (rsplit_once p s) as [[a' b']|] eqn:Hs.
    + injection H as <- <-. simpl. f_equal. by apply IH.
    + destruct (strip_prefix p (c :: s)) eqn:E; [|done]. injection H as <- <-.
      by apply strip_prefix_spec in E.
Qed.

Lemma matches_count_elem c s : c ∈ s → (1 ≤ matches_count c s)%Z.
Proof.
  intros (a & b & ->)%list_elem_of_split. change (c :: b) with ([c] ++ b).
  rewrite !matches_count_app, matches_count_self. unfold matches_count. lia.
Qed.

Lemma contains_str_complete p a b : contains_str p (a ++ p ++ b) = true.
Proof.
  assert (∀ t, starts_with p (p ++ t) = true) as Hp.
  { intros t. apply starts_with_spec. by exists t. }
  induction a as [|c a IH]; simpl.
  - specialize (Hp b). destruct (p ++ b); simpl; by rewrite Hp.
  - by rewrite IH, orb_true_r.
Qed.

Lemma split_on_infix f s w : w ∈ split_on f s → ∃ a b, s = a ++ w ++ b.
Proof.
  revert w. induction s as [|c s IH]; intros w; simpl.
  - intros ->%list_elem_of_singleton. by exists [], [].
  - destruct (f c).
    + rewrite elem_of_cons. intros [->|Hw]; [by exists [], (c :: s)|].
      destruct (IH _ Hw) as (a & b & ->). by exists (c :: a), b.
    + destruct (split_on f s) as [|v ws] eqn:E; [by apply split_on_nonempty in E|].
      rewrite elem_of_cons. intros [->|Hw].
      * assert (∃ b, s = v ++ b) as [b ->]; [|by exists [], b].
        clear IH. revert v ws E. induction s as [|d s IHs]; intros v ws E; simpl in E.
        -- injection E as <- <-. by exists [].
        -- destruct (f d); [injection E as <- <-; by exists (d :: s)|].
           destruct (split_on f s) as [|v' ws'] eqn:E'; [by apply split_on_nonempty in E'|].
           injection E as <- <-. destruct (IHs v' ws' eq_refl) as [b ->]. by exists b.
      * destruct (IH w) as (a & b & ->); [by right|]. by exists (c :: a), b.
Qed.

(** *** Lines *)

Lemma strip_suffix_spec p s r : strip_suffix p s = Some r ↔ s = r ++ p.
Proof.
  unfold strip_suffix. rewrite fmap_Some. setoid_rewrite strip_prefix_spec. split.
  - intros (t & E & ->). apply (f_equal reverse) in E.
    by rewrite reverse_app, !reverse_involutive in E.
  - intros ->. exists (reverse r). by rewrite reverse_app, reverse_involutive.
Qed.

Lemma strip_cr_cases s : (∃ t, s = t ++ [13] ∧ strip_cr s = t) ∨ (last s ≠ Some 13 ∧ strip_cr s = s).
Proof.
  unfold strip_cr. destruct (strip_suffix [13] s) as [t|] eqn:E; simpl.
  - apply strip_suffix_spec in E. left. by exists t.
  - right. split; [|done]. intros (t & E')%last_Some.
    apply (strip_suffix_spec [13] s t) in E'. congruence.
Qed.

Lemma strip_cr_id s : last s ≠ Some 13 → strip_cr s = s.
Proof. intros H. destruct (strip_cr_cases s) as [(t & -> & _)|[_ ?]]; [|done]. by rewrite last_snoc in H. Qed.

Lemma strip_cr_elem c s : c ∈ strip_cr s → c ∈ s.
Proof. destruct (strip_cr_cases s) as [(t & -> & ->)|[_ ->]]; [|done]. set_solver. Qed.

Lemma ended_lines_cons w v ws : ended_lines (w :: v :: ws) = strip_cr w :: ended_lines (v :: ws).
Proof. by destruct w. Qed.

Lemma ended_lines_elem l pieces :
  l ∈ ended_lines pieces → ∃ w, w ∈ pieces ∧ (l = w ∨ l = strip_cr w).
Proof.
  induction pieces as [|w ws IH]; [by intros ?%not_elem_of_nil|]. destruct ws as [|w' ws].
  - simpl. destruct w; [by intros ?%not_elem_of_nil|]. intros ->%list_elem_of_singleton.
    eexists. split; [by left|by left].
  - rewrite ended_lines_cons, elem_of_cons. intros [->|Hl].
    + exists w. split; [by left|by right].
    + destruct (IH Hl) as (v & ? & ?). exists v. split; [by right|done].
Qed.

Lemma lines_no_newline s l : l ∈ lines s → 10 ∉ l.
Proof.
  intros (w & Hw & Hl)%ended_lines_elem. pose proof (split_pieces_no_sep (N.eqb 10) s) as Hs.
  rewrite Forall_forall in Hs. specialize (Hs _ Hw).
  assert (10 ∉ w) as Hn.
  { rewrite Forall_forall in Hs. intros Hin. by apply Hs in Hin. }
  destruct Hl as [->| ->]; [done|]. intros Hin. by apply strip_cr_elem in Hin.
Qed.

(** Without doubled carriage returns no line keeps one at its end. *)
Lemma lines_strip_cr s l :
  contains_str [13; 13] s = false → l ∈ lines s → last (strip_cr l) ≠ Some 13.
Proof.
  intros Hs (w & Hw & Hl)%ended_lines_elem E.
  destruct (split_on_infix _ _ _ Hw) as (a & b & ->).
  assert (∀ t, w ≠ t ++ [13; 13]) as Hn.
  { intros t ->. rewrite <- (app_assoc t), (app_assoc a), contains_str_complete in Hs. done. }
  assert (last (strip_cr w) ≠ Some 13) as H1.
  { destruct (strip_cr_cases w) as [(t & -> & ->)|[? ->]]; [|done].
    intros (t' & E')%last_Some. subst t. apply (Hn t'). by rewrite <- app_assoc. }
  destruct Hl as [->| ->]; [done|]. by rewrite (strip_cr_id _ H1) in E.
Qed.

Lemma lines_concat ls :
  Forall (λ l, (10 ∉ l) ∧ last l ≠ Some 13) ls →
  lines (concat ((λ l, (l ++ [10])) <$> ls)) = ls.
Proof.
  unfold lines. induction 1 as [|l ls [Hn Hc] Hls IH]; [done|]. rewrite fmap_cons. cbn [concat].
  rewrite <- app_assoc, <- app_comm_cons, app_nil_l, split_app_sep; [|rewrite Forall_forall|done].
  - destruct (split_on (N.eqb 10) (concat ((λ l, l ++ [10]) <$> ls))) as [|w ws] eqn:E;
      [by apply split_on_nonempty in E|].
    by rewrite ended_lines_cons, (strip_cr_id _ Hc), IH.
  - intros c Hin. apply N.eqb_neq. by intros <-.
Qed.

(** ** Decimal numbers *)

(** The number written by [d] after [acc]. *)
Fixpoint uint_value (acc : Z) (d : Decimal.uint) : Z :=
  match d with
  | Decimal.Nil => acc
  | Decimal.D0 d => uint_value (acc * 10) d
  | Decimal.D1 d => uint_value (acc * 10 + 1) d
  | Decimal.D2 d => uint_value (acc * 10 + 2) d
  | Decimal.D3 d => uint_value (acc * 10 + 3) d
  | Decimal.D4 d => uint_value (acc * 10 + 4) d
  | Decimal.D5 d => uint_value (acc * 10 + 5) d
  | Decimal.D6 d => uint_value (acc * 10 + 6) d
  | Decimal.D7 d => uint_value (acc * 10 + 7) d
  | Decimal.D8 d => uint_value (acc * 10 + 8) d
  | Decimal.D9 d => uint_value (acc * 10 + 9) d
  end%Z.

Lemma uint_value_acc d p : Zpos (Pos.of_uint_acc d p) = uint_value (Zpos p) d.
Proof.
  revert p. induction d; intros p; cbn [Pos.of_uint_acc uint_value]; [done|..];
    rewrite IHd; f_equal; lia.
Qed.

Lemma uint_value_N d : Z.of_N (N.of_uint d) = uint_value 0 d.
Proof. unfold N.of_uint. induction d; cbn [Pos.of_uint uint_value]; try done; apply uint_value_acc. Qed.

Lemma uint_value_le d acc : (0 ≤ acc → acc ≤ uint_value acc d)%Z.
Proof.
  revert acc. induction d; intros acc Ha; cbn [uint_value]; [lia|..];
    (etransitivity; [|apply IHd]); lia.
Qed.

Lemma parse_digits_cons max acc (k : N) s :
  (k ≤ 9)%N → (acc * 10 + Z.of_N k ≤ max)%Z →
  parse_digits max acc ((48 + k)%N :: s) = parse_digits max (acc * 10 + Z.of_N k) s.
Proof.
  intros Hk Hm. cbn [parse_digits]. replace (is_ascii_digit (48 + k)) with true.
  - replace (48 + k - 48)%N with k by lia. by rewrite bool_decide_eq_true_2.
  - symmetry. unfold is_ascii_digit, in_range, ch. simpl. apply andb_true_iff. lia.
Qed.

Lemma lit_cons a s : lit (String.String a s) = N_of_ascii a :: lit s.
Proof. done. Qed.

Lemma parse_digits_show d max acc :
  (0 ≤ acc → uint_value acc d ≤ max →
  parse_digits max acc (lit (NilEmpty.string_of_uint d)) = Some (uint_value acc d))%Z.
Proof.
  revert acc. induction d; intros acc Ha Hm; [done|..]; cbn [uint_value] in *;
    cbn [NilEmpty.string_of_uint]; rewrite lit_cons.
  all: match goal with |- context [N_of_ascii ?a] =>
      let v := eval vm_compute in (N_of_ascii a - 48)%N in
      change (N_of_ascii a) with (48 + v)%N; rewrite (parse_digits_cons _ _ v) end.
  all: try (cbn [Z.of_N]; rewrite ?Z.add_0_r; apply IHd; lia).
  all: try lia.
  all: cbn [Z.of_N]; rewrite ?Z.add_0_r; etransitivity; [|exact Hm]; apply uint_value_le; lia.
Qed.

Lemma show_uint_digits n : Forall (λ c, is_ascii_digit c = true) (show_uint n).
Proof.
  unfold show_uint.
  assert (∀ d, Forall (λ c, is_ascii_digit c = true) (lit (NilEmpty.string_of_uint d))) as H.
  { induction d; cbn [NilEmpty.string_of_uint]; [constructor|..]; rewrite lit_cons;
      (constructor; [reflexivity|done]). }
  destruct (N.to_uint (Z.to_N n)); [repeat constructor|..]; apply H.
Qed.

Lemma show_uint_nonempty n : show_uint n ≠ [].
Proof. unfold show_uint. by destruct (N.to_uint (Z.to_N n)). Qed.

(** What [{n}] writes, [parse] reads. *)
Lemma parse_digits_nonneg max acc s n : (0 ≤ acc)%Z → parse_digits max acc s = Some n → (0 ≤ n)%Z.
Proof.
  revert acc. induction s as [|c s IH]; intros acc Ha; simpl; [congruence|].
  destruct (is_ascii_digit c); [|done]. case_bool_decide; [|done]. apply IH. lia.
Qed.
Lemma parse_uint_nonneg max s n : parse_uint max s = Some n → (0 ≤ n)%Z.
Proof. unfold parse_uint. destruct (match s with [] => [] | _ :: _ => _ end); [done|]. by apply parse_digits_nonneg. Qed.

Lemma parse_show_uint max n : (0 ≤ n ≤ max)%Z → parse_uint max (trim (show_uint n)) = Some n.
Proof.
  intros Hn. rewrite (trim_all is_ascii_digit); [| |apply show_uint_digits].
  2:{ intros c Hc. apply alnum_not_whitespace. unfold is_ascii_alphanumeric.
      by rewrite Hc, orb_true_r. }
  assert (parse_digits max 0 (show_uint n) = Some n) as Hp.
  { assert (uint_value 0 (N.to_uint (Z.to_N n)) = n) as Hv.
    { rewrite <- uint_value_N, DecimalN.Unsigned.of_to. lia. }
    assert (∀ d, uint_value 0 d = n →
      parse_digits max 0 (lit (NilZero.string_of_uint d)) = Some n) as H; [|by apply H].
    intros d <-. destruct d; try (apply parse_digits_show; [done|lia]).
    cbn [uint_value] in *. change (lit _) with [(48 + 0)%N].
    rewrite parse_digits_cons; [done|lia|lia]. }
  pose proof (show_uint_digits n) as Hd. pose proof (show_uint_nonempty n) as Hne.
  unfold parse_uint. destruct (show_uint n) as [|c s]; [done|].
  apply Forall_cons in Hd as [Hc _]. replace (c =? ch "+")%N with false; [done|].
  symmetry. apply N.eqb_neq. intros ->. done.
Qed.
