(* ===== verification/Ordered.v ===== *)
(** * Ordered collections

    [std::collections::BTreeSet] and [BTreeMap] iterate in key order, and the
    modelled code depends on it (label lists, the order targets are polled in, the
    tie-break of [max_by_key]). Both are modelled as strictly sorted lists over a
    type class for [Ord]. The class separates the laws of a total preorder from
    antisymmetry, because a GitHub name compares case-insensitively: two names
    can be equal as keys and differ as strings. *)

From S2P Require Import Prelude.
From Stdlib Require Import Sorted.

(** [Ord::cmp]. *)
Class Ord (A : Type) : Type := cmp : A → A → comparison.

Class OrdLaws (A : Type) `{Ord A} : Prop := {
  cmp_opp : ∀ x y : A, cmp y x = CompOpp (cmp x y);
  cmp_lt_trans : ∀ x y z : A, cmp x y = Lt → cmp y z = Lt → cmp x z = Lt;
  cmp_eq_l : ∀ x y z : A, cmp x y = Eq → cmp x z = cmp y z;
}.

(** Keys that compare equal are the same key. *)
Class OrdLeibniz (A : Type) `{Ord A} : Prop :=
  cmp_eq_leibniz : ∀ x y : A, cmp x y = Eq → x = y.

#[global] Instance ord_N : Ord N := N.compare.
#[global] Instance ord_Z : Ord Z := Z.compare.

(** Lexicographic order of slices and strings. *)
Fixpoint list_cmp {A} `{Ord A} (l k : list A) : comparison :=
  match l, k with
  | [], [] => Eq
  | [], _ :: _ => Lt
  | _ :: _, [] => Gt
  | x :: l, y :: k => match cmp x y with Eq => list_cmp l k | c => c end
  end.
#[global] Instance ord_list {A} `{Ord A} : Ord (list A) := list_cmp.

(** [Ordering::then_with] on a pair, as [#[derive(Ord)]] does. *)
#[global] Instance ord_prod {A B} `{Ord A, Ord B} : Ord (A * B) :=
  λ p q, match cmp p.1 q.1 with Eq => cmp p.2 q.2 | c => c end.

Section Facts.
Context {A : Type} `{OrdLaws A}.
Implicit Types x y z : A.

Lemma cmp_refl x : cmp x x = Eq.
Proof. pose proof (cmp_opp x x). by destruct (cmp x x). Qed.

Lemma cmp_eq_sym x y : cmp x y = Eq → cmp y x = Eq.
Proof. intros E. by rewrite cmp_opp, E. Qed.

Lemma cmp_eq_r x y z : cmp x y = Eq → cmp z x = cmp z y.
Proof.
  intros E. rewrite (cmp_opp x z), (cmp_opp y z). f_equal. by apply cmp_eq_l.
Qed.

Lemma cmp_gt_lt x y : cmp x y = Gt ↔ cmp y x = Lt.
Proof. rewrite (cmp_opp x y). by destruct (cmp x y). Qed.

Lemma cmp_lt_eq_trans x y z : cmp x y = Lt → cmp y z = Eq → cmp x z = Lt.
Proof. intros ? E. by rewrite <- (cmp_eq_r y z x E). Qed.
End Facts.

(** The equivalence induced on keys. *)
Definition key_eq {A} `{Ord A} (x y : A) : Prop := cmp x y = Eq.

#[global] Instance key_eq_equivalence {A} `{OrdLaws A} : Equivalence (key_eq (A:=A)).
Proof.
  split; unfold key_eq.
  - intros x. apply cmp_refl.
  - intros x y. apply cmp_eq_sym.
  - intros x y z E1 E2. by rewrite (cmp_eq_l x y z E1).
Qed.

#[global] Instance cmp_proper {A} `{OrdLaws A} :
  Proper (key_eq ==> key_eq ==> eq) (cmp (A:=A)).
Proof. intros x x' Ex y y' Ey. rewrite (cmp_eq_l _ _ _ Ex). by apply cmp_eq_r. Qed.

(** ** Instances *)

#[global] Instance ord_laws_N : OrdLaws N.
Proof.
  split; unfold cmp, ord_N.
  - intros x y. apply N.compare_antisym.
  - intros x y z. rewrite !N.compare_lt_iff. lia.
  - intros x y z ->%N.compare_eq_iff. done.
Qed.
#[global] Instance ord_leibniz_N : OrdLeibniz N.
Proof. intros x y. apply N.compare_eq_iff. Qed.

#[global] Instance ord_laws_Z : OrdLaws Z.
Proof.
  split; unfold cmp, ord_Z.
  - intros x y. apply Z.compare_antisym.
  - intros x y z. rewrite !Z.compare_lt_iff. lia.
  - intros x y z ->%Z.compare_eq_iff. done.
Qed.

Section ListOrd.
Context {A : Type} `{OrdLaws A}.

Lemma list_cmp_opp (x y : list A) : list_cmp y x = CompOpp (list_cmp x y).
Proof.
  revert y. induction x as [|a x IH]; intros [|b y]; simpl; try done.
  rewrite (cmp_opp a b). destruct (cmp a b); simpl; [apply IH|done..].
Qed.

Lemma list_cmp_lt_trans (x y z : list A) :
  list_cmp x y = Lt → list_cmp y z = Lt → list_cmp x z = Lt.
Proof.
  revert y z. induction x as [|a x IH]; intros [|b y] [|c z]; simpl; try done.
  destruct (cmp a b) eqn:Eab, (cmp b c) eqn:Ebc; try done; intros ??.
  - rewrite (cmp_eq_l _ _ c Eab), Ebc. eauto.
  - by rewrite (cmp_eq_l _ _ c Eab), Ebc.
  - by rewrite (cmp_lt_eq_trans _ _ _ Eab Ebc).
  - by rewrite (cmp_lt_trans _ _ _ Eab Ebc).
Qed.

Lemma list_cmp_eq_l (x y z : list A) : list_cmp x y = Eq → list_cmp x z = list_cmp y z.
Proof.
  revert y z. induction x as [|a x IH]; intros [|b y] [|c z]; simpl; try done.
  destruct (cmp a b) eqn:Eab; try done. intros E.
  rewrite (cmp_eq_l _ _ c Eab). destruct (cmp b c); [by apply IH|done..].
Qed.

#[global] Instance ord_laws_list : OrdLaws (list A).
Proof.
  split; [exact list_cmp_opp | exact list_cmp_lt_trans | exact list_cmp_eq_l].
Qed.

#[global] Instance ord_leibniz_list `{!OrdLeibniz A} : OrdLeibniz (list A).
Proof.
  unfold OrdLeibniz. change (∀ x y : list A, list_cmp x y = Eq → x = y).
  induction x as [|a x IH]; intros [|b y]; simpl; try done.
  destruct (cmp a b) eqn:E; try done. intros Hxy.
  f_equal; [by apply cmp_eq_leibniz | by apply IH].
Qed.
End ListOrd.

Lemma prod_cmp_unfold {A B} `{Ord A, Ord B} (p q : A * B) :
  cmp p q = match cmp p.1 q.1 with Eq => cmp p.2 q.2 | c => c end.
Proof. done. Qed.

#[global] Instance ord_laws_prod {A B} `{OrdLaws A, OrdLaws B} : OrdLaws (A * B).
Proof.
  split.
  - intros [a b] [a' b']. rewrite !prod_cmp_unfold. simpl. rewrite (cmp_opp a a').
    destruct (cmp a a'); simpl; [apply cmp_opp|done..].
  - intros [a b] [a' b'] [a'' b'']. rewrite !prod_cmp_unfold. simpl.
    destruct (cmp a a') eqn:E1, (cmp a' a'') eqn:E2; try done; intros ??.
    + rewrite (cmp_eq_l _ _ _ E1), E2. by eapply cmp_lt_trans.
    + by rewrite (cmp_eq_l _ _ _ E1), E2.
    + by rewrite (cmp_lt_eq_trans _ _ _ E1 E2).
    + by rewrite (cmp_lt_trans _ _ _ E1 E2).
  - intros [a b] [a' b'] [a'' b'']. rewrite !prod_cmp_unfold. simpl.
    destruct (cmp a a') eqn:E1; try done. intros E2.
    rewrite (cmp_eq_l _ _ a'' E1). destruct (cmp a' a''); [|done..].
    by apply cmp_eq_l.
Qed.

(** An order pulled back along a projection, as [impl Ord for Name] does. *)
Lemma ord_laws_on {A B} `{OrdLaws B} (f : A → B) :
  @OrdLaws A (λ x y, cmp (f x) (f y)).
Proof.
  split.
  - intros x y. exact (cmp_opp (f x) (f y)).
  - intros x y z. exact (cmp_lt_trans (f x) (f y) (f z)).
  - intros x y z. exact (cmp_eq_l (f x) (f y) (f z)).
Qed.

(** ** [BTreeSet] *)

Section BTreeSet.
Context {A : Type} `{OrdLaws A}.
Implicit Types (x y : A) (l : list A).

(** [insert]: the new set, and whether the value was absent. *)
Fixpoint set_insert x l : list A * bool :=
  match l with
  | [] => ([x], true)
  | y :: l' =>
      match cmp x y with
      | Lt => (x :: l, true)
      | Eq => (l, false)
      | Gt => let '(l'', b) := set_insert x l' in (y :: l'', b)
      end
  end.

Definition set_contains x l : bool :=
  existsb (λ y, match cmp x y with Eq => true | _ => false end) l.

(** [remove]: the new set, and whether the value was present. *)
Fixpoint set_remove x l : list A * bool :=
  match l with
  | [] => ([], false)
  | y :: l' =>
      match cmp x y with
      | Eq => (l', true)
      | _ => let '(l'', b) := set_remove x l' in (y :: l'', b)
      end
  end.

(** [collect()] into a set. *)
Definition set_collect l : list A := foldl (λ s x, (set_insert x s).1) [] l.

Definition set_sorted : list A → Prop := StronglySorted (λ x y, cmp x y = Lt).

Lemma set_contains_spec x l : set_contains x l = true ↔ ∃ y, y ∈ l ∧ cmp x y = Eq.
Proof.
  unfold set_contains. rewrite existsb_exists. split.
  - intros (y & Hy & E). exists y. rewrite list_elem_of_In. split; [done|].
    by destruct (cmp x y).
  - intros (y & Hy & E). exists y. rewrite <- list_elem_of_In, E. done.
Qed.

Lemma set_insert_elem x l y :
  y ∈ (set_insert x l).1 → y = x ∨ y ∈ l.
Proof.
  induction l as [|z l IH]; simpl; [set_solver|].
  destruct (cmp x z); simpl; [set_solver..|].
  destruct (set_insert x l) as [l' b]; simpl in *. set_solver.
Qed.

Lemma set_insert_sorted x l : set_sorted l → set_sorted (set_insert x l).1.
Proof.
  unfold set_sorted.
  induction 1 as [|y l Hs IH Hy]; simpl; [by repeat constructor|].
  destruct (cmp x y) eqn:E; simpl.
  - by constructor.
  - constructor; [by constructor|]. constructor; [done|].
    apply (Forall_impl _ _ _ Hy). intros z. by apply cmp_lt_trans.
  - pose proof (set_insert_elem x l) as Helem.
    destruct (set_insert x l) as [l' b]; simpl in *. constructor; [done|].
    rewrite Forall_forall in *. intros z Hz.
    destruct (Helem z Hz) as [->|?]; [by apply cmp_gt_lt | auto].
Qed.

Lemma set_collect_sorted l : set_sorted (set_collect l).
Proof.
  unfold set_collect.
  cut (∀ s, set_sorted s → set_sorted (foldl (λ s x, (set_insert x s).1) s l)).
  { intros Hc. apply Hc. constructor. }
  induction l as [|x l IH]; simpl; [done|]. intros s Hs.
  by apply IH, set_insert_sorted.
Qed.

Lemma set_insert_flag x l : set_sorted l → (set_insert x l).2 = negb (set_contains x l).
Proof.
  unfold set_sorted. induction 1 as [|y l Hs IH Hy]; simpl; [done|].
  destruct (cmp x y) eqn:E; simpl.
  - done.
  - symmetry. apply negb_true_iff, not_true_is_false. intros Hc.
    apply set_contains_spec in Hc as (z & Hz & Ez).
    rewrite Forall_forall in Hy. specialize (Hy z Hz).
    by rewrite (cmp_lt_trans _ _ _ E Hy) in Ez.
  - destruct (set_insert x l); done.
Qed.

Lemma set_contains_insert x y l :
  set_contains y (set_insert x l).1 = true ↔ cmp y x = Eq ∨ set_contains y l = true.
Proof.
  induction l as [|z l IH]; simpl.
  - rewrite orb_false_r. destruct (cmp y x); naive_solver.
  - destruct (cmp x z) eqn:E; simpl.
    + split; [by right|]. intros [E'|?]; [|done].
      rewrite (cmp_eq_l _ _ z E'), E. done.
    + rewrite orb_true_iff. destruct (cmp y x); naive_solver.
    + destruct (set_insert x l) as [l' b]; simpl in *.
      rewrite !orb_true_iff, IH. naive_solver.
Qed.

Lemma set_insert_present x l : (set_insert x l).2 = false → (set_insert x l).1 = l.
Proof.
  induction l as [|y l IH]; simpl; [done|].
  destruct (cmp x y); [done..|].
  destruct (set_insert x l); simpl in *. intros E. by rewrite IH.
Qed.

Lemma set_remove_flag x l : (set_remove x l).2 = set_contains x l.
Proof.
  induction l as [|y l IH]; simpl; [done|].
  destruct (cmp x y); simpl; [done|..]; by destruct (set_remove x l).
Qed.

Lemma set_remove_absent x l : (set_remove x l).2 = false → (set_remove x l).1 = l.
Proof.
  induction l as [|y l IH]; simpl; [done|].
  destruct (cmp x y); simpl; [done|..]; destruct (set_remove x l); simpl in *;
    intros E; by rewrite IH.
Qed.

Lemma set_remove_sublist x l : sublist (set_remove x l).1 l.
Proof.
  induction l as [|y l IH]; simpl; [done|].
  destruct (cmp x y); simpl; [by constructor|..]; destruct (set_remove x l);
    simpl in *; by constructor.
Qed.

Lemma sublist_sorted l k : sublist l k → set_sorted k → set_sorted l.
Proof.
  unfold set_sorted. induction 1 as [|y l k Hs IH|y l k Hs IH]; intros Hk.
  - constructor.
  - apply StronglySorted_inv in Hk as [? Hy]. constructor; [auto|].
    rewrite Forall_forall in *. intros z Hz. apply Hy. by eapply elem_of_sublist.
  - apply StronglySorted_inv in Hk as [? _]. auto.
Qed.

Lemma set_remove_sorted x l : set_sorted l → set_sorted (set_remove x l).1.
Proof. apply sublist_sorted, set_remove_sublist. Qed.
End BTreeSet.

#[export] Hint Resolve set_insert_sorted set_remove_sorted set_collect_sorted : rust.

(** Collecting an already sorted list gives it back. *)
Lemma set_collect_id {A} `{OrdLaws A} (l : list A) : set_sorted l → set_collect l = l.
Proof.
  cut (∀ s, set_sorted (s ++ l) → foldl (λ s x, (set_insert x s).1) s l = s ++ l).
  { intros Hc Hl. exact (Hc [] Hl). }
  induction l as [|x l IH]; intros s Hs; simpl; [by rewrite app_nil_r|].
  assert ((set_insert x s).1 = s ++ [x]) as ->.
  { clear IH. induction s as [|y s IH]; simpl in *; [done|].
    apply StronglySorted_inv in Hs as [Hs Hy].
    assert (cmp y x = Lt) as Hyx by (rewrite Forall_forall in Hy; apply Hy; set_solver).
    rewrite (cmp_opp y x), Hyx. simpl. specialize (IH Hs).
    destruct (set_insert x s); simpl in *. by f_equal. }
  rewrite IH; by rewrite <- app_assoc.
Qed.

(** ** [BTreeMap] *)

Section BTreeMap.
Context {K V : Type} `{Ord K}.

(** [insert]: an equal key keeps the stored key and takes the new value. *)
Fixpoint map_insert (k : K) (v : V) (m : list (K * V)) : list (K * V) :=
  match m with
  | [] => [(k, v)]
  | (k', v') :: m' =>
      match cmp k k' with
      | Lt => (k, v) :: m
      | Eq => (k', v) :: m'
      | Gt => (k', v') :: map_insert k v m'
      end
  end.

Fixpoint map_get (k : K) (m : list (K * V)) : option V :=
  match m with
  | [] => None
  | (k', v) :: m => match cmp k k' with Eq => Some v | _ => map_get k m end
  end.
End BTreeMap.

Lemma map_get_insert {K V} `{OrdLaws K} (k k' : K) (v : V) m :
  map_get k' (map_insert k v m) = match cmp k' k with Eq => Some v | _ => map_get k' m end.
Proof.
  induction m as [|[j w] m IH]; simpl; [done|].
  destruct (cmp k j) eqn:E; simpl.
  - rewrite <- (cmp_eq_r _ _ k' E). by destruct (cmp k' k).
  - by destruct (cmp k' k).
  - rewrite IH. destruct (cmp k' j) eqn:E', (cmp k' k) eqn:E''; try done.
    apply cmp_gt_lt in E. rewrite (cmp_eq_l _ _ j E'') in E'.
    rewrite cmp_opp, E' in E. done.
Qed.

(** A looked-up value is one of the map's, under an equal key. *)
Lemma map_get_elem {K V} `{OrdLaws K} (k : K) (m : list (K * V)) v :
  map_get k m = Some v → ∃ k', (k', v) ∈ m ∧ cmp k k' = Eq.
Proof.
  induction m as [|[j w] m IH]; simpl; [done|]. destruct (cmp k j) eqn:E.
  - intros [= <-]. exists j. split; [by left|done].
  - intros (k' & ? & ?)%IH. exists k'. split; [by right|done].
  - intros (k' & ? & ?)%IH. exists k'. split; [by right|done].
Qed.
