(* ===== verification/Model.v ===== *)
(** * The domain vocabulary ([crates/domain/src/model.rs])

    Identifiers, validated strings, GitHub names and targets, hosts and their
    intervals. Every validating constructor is translated check by check, with the
    error it reports. *)

From stdpp Require Import strings.
From S2P Require Import Prelude RustStr Ordered.
#[local] Open Scope Z_scope.
#[local] Open Scope rust_scope.

(** [Timestamp] is an instant and [Elapsed] a signed duration, both in
    nanoseconds. *)
#[global] Abbreviation Timestamp := Z (only parsing).
#[global] Abbreviation Elapsed := Z (only parsing).
Definition seconds (n : Z) : Elapsed := n * 1000000000.

(** UUID newtypes. *)
#[global] Abbreviation HostId := N (only parsing).
#[global] Abbreviation PolicyId := N (only parsing).
#[global] Abbreviation AttemptId := N (only parsing).

Inductive ValidationError :=
  | Empty (what : string)
  | TooLong (what : string) (max actual : Z)
  | IllegalCharacter (what : string) (found : char)
  | IllegalEdge (what : string) (edge : char)
  | MalformedOwnerRepo (got : str) (slashes : Z)
  | BelowFloor (what : string) (min actual : Z)
  | NonEmptyRequired (what : string)
  | Unrecognised (what : string) (got : str).

#[global] Instance ValidationError_eq_dec : EqDecision ValidationError.
Proof. solve_decision. Defined.

(** ** Host operating system and architecture *)

Inductive Os := Windows | MacOs | Linux.
#[global] Instance Os_eq_dec : EqDecision Os.
Proof. solve_decision. Defined.

Definition Os_ALL : list Os := [Windows; MacOs; Linux].

Definition Os_label_token (o : Os) : str :=
  match o with
  | Windows => lit "win"
  | MacOs => lit "osx"
  | Linux => lit "linux"
  end.

Definition supports_container_actions (o : Os) : bool :=
  match o with Linux => true | _ => false end.

Definition Os_from_str (s : str) : result Os ValidationError :=
  let t := to_ascii_lowercase (trim s) in
  if bool_decide (t ∈ [lit "win"; lit "windows"]) then Ok Windows
  else if bool_decide (t ∈ [lit "osx"; lit "macos"; lit "mac"; lit "darwin"]) then Ok MacOs
  else if bool_decide (t = lit "linux") then Ok Linux
  else Err (Unrecognised "host operating system" t).

Inductive Arch := X64 | Arm64 | Arm32.
#[global] Instance Arch_eq_dec : EqDecision Arch.
Proof. solve_decision. Defined.

Definition Arch_ALL : list Arch := [X64; Arm64; Arm32].

Definition Arch_label_token (a : Arch) : str :=
  match a with
  | X64 => lit "x64"
  | Arm64 => lit "arm64"
  | Arm32 => lit "arm"
  end.

Definition is_public_preview (a : Arch) : bool :=
  match a with Arm64 => true | _ => false end.

Definition Arch_from_str (s : str) : result Arch ValidationError :=
  let t := to_ascii_lowercase (trim s) in
  if bool_decide (t ∈ [lit "x64"; lit "x86_64"; lit "amd64"]) then Ok X64
  else if bool_decide (t ∈ [lit "arm64"; lit "aarch64"]) then Ok Arm64
  else if bool_decide (t ∈ [lit "arm"; lit "arm32"; lit "armv7"]) then Ok Arm32
  else Err (Unrecognised "host architecture" t).

Inductive StartMode := Boot | Login.
#[global] Instance StartMode_eq_dec : EqDecision StartMode.
Proof. solve_decision. Defined.

Definition StartMode_default : StartMode := Boot.

Definition StartMode_display (m : StartMode) : str :=
  match m with Boot => lit "boot" | Login => lit "login" end.

Definition StartMode_from_str (s : str) : result StartMode ValidationError :=
  let t := to_ascii_lowercase (trim s) in
  if bool_decide (t = lit "boot") then Ok Boot
  else if bool_decide (t = lit "login") then Ok Login
  else Err (Unrecognised "service start mode" t).

Inductive CachePolicy := RetainRunnerPackage | DiscardRunnerPackage.
#[global] Instance CachePolicy_eq_dec : EqDecision CachePolicy.
Proof. solve_decision. Defined.

Definition CachePolicy_default : CachePolicy := RetainRunnerPackage.
Definition retains_runner_package (c : CachePolicy) : bool :=
  match c with RetainRunnerPackage => true | DiscardRunnerPackage => false end.

(** ** Intervals *)

Record RefreshInterval := mk_RefreshInterval { refresh_secs : Z }.
#[global] Instance RefreshInterval_eq_dec : EqDecision RefreshInterval.
Proof. solve_decision. Defined.

Definition RefreshInterval_MIN_SECS : Z := 30.
Definition RefreshInterval_DEFAULT_SECS : Z := 60.

Definition RefreshInterval_from_secs (secs : Z) : result RefreshInterval ValidationError :=
  if bool_decide (secs < RefreshInterval_MIN_SECS)
  then Err (BelowFloor "refresh interval (seconds)" RefreshInterval_MIN_SECS secs)
  else Ok (mk_RefreshInterval secs).

Definition RefreshInterval_default : RefreshInterval :=
  mk_RefreshInterval RefreshInterval_DEFAULT_SECS.

Record IdlePollInterval := mk_IdlePollInterval { idle_secs : Z }.
#[global] Instance IdlePollInterval_eq_dec : EqDecision IdlePollInterval.
Proof. solve_decision. Defined.

Definition IdlePollInterval_MIN_SECS : Z := 5.
Definition IdlePollInterval_DEFAULT_SECS : Z := 10.

Definition IdlePollInterval_from_secs (secs : Z) : result IdlePollInterval ValidationError :=
  if bool_decide (secs < IdlePollInterval_MIN_SECS)
  then Err (BelowFloor "idle poll interval (seconds)" IdlePollInterval_MIN_SECS secs)
  else Ok (mk_IdlePollInterval secs).

(** ** Labels *)

Record Label := mk_Label { label_str : str }.
#[global] Instance Label_eq_dec : EqDecision Label.
Proof. solve_decision. Defined.
#[global] Instance ord_Label : Ord Label := λ x y, cmp (label_str x) (label_str y).
#[global] Instance ord_laws_Label : OrdLaws Label := ord_laws_on label_str.
#[global] Instance ord_leibniz_Label : OrdLeibniz Label.
Proof. intros [x] [y] E. f_equal. by apply cmp_eq_leibniz. Qed.

Definition Label_MAX_LEN : Z := 256.

Definition Label_new (raw : str) : result Label ValidationError :=
  let trimmed := trim raw in
  if bool_decide (trimmed = []) then Err (Empty "a label")
  else match find_char (λ c, N.eqb c (ch ",") || is_control c) trimmed with
  | Some bad => Err (IllegalCharacter "a label" bad)
  | None =>
      let folded := to_ascii_lowercase trimmed in
      if bool_decide (chars_count folded > Label_MAX_LEN)
      then Err (TooLong "a label" Label_MAX_LEN (chars_count folded))
      else Ok (mk_Label folded)
  end.

(** The character rule shared by [HostLabel] and [ProfileName]. *)
Definition is_selector_char (c : char) : bool :=
  is_ascii_alphanumeric c || N.eqb c (ch "-") || N.eqb c (ch "_").

Record HostLabel := mk_HostLabel { host_label_str : str }.
#[global] Instance HostLabel_eq_dec : EqDecision HostLabel.
Proof. solve_decision. Defined.

Definition HostLabel_MAX_LEN : Z := 64.

Definition HostLabel_new (raw : str) : result HostLabel ValidationError :=
  let trimmed := trim raw in
  if bool_decide (trimmed = []) then Err (Empty "a host label")
  else if bool_decide (len trimmed > HostLabel_MAX_LEN)
  then Err (TooLong "a host label" HostLabel_MAX_LEN (len trimmed))
  else match find_char (λ c, negb (is_selector_char c)) trimmed with
  | Some bad => Err (IllegalCharacter "a host label" bad)
  | None =>
      if starts_with [ch "-"] trimmed || ends_with [ch "-"] trimmed
      then Err (IllegalEdge "a host label" (ch "-"))
      else Ok (mk_HostLabel (to_ascii_lowercase trimmed))
  end.

Record ProfileName := mk_ProfileName { profile_str : str }.
#[global] Instance ProfileName_eq_dec : EqDecision ProfileName.
Proof. solve_decision. Defined.

Definition ProfileName_MAX_LEN : Z := 64.

Definition ProfileName_new (raw : str) : result ProfileName ValidationError :=
  let trimmed := trim raw in
  if bool_decide (trimmed = []) then Err (Empty "a profile name")
  else if bool_decide (len trimmed > ProfileName_MAX_LEN)
  then Err (TooLong "a profile name" ProfileName_MAX_LEN (len trimmed))
  else match find_char (λ c, negb (is_selector_char c)) trimmed with
  | Some bad => Err (IllegalCharacter "a profile name" bad)
  | None =>
      if starts_with [ch "-"] trimmed || ends_with [ch "-"] trimmed
      then Err (IllegalEdge "a profile name" (ch "-"))
      else Ok (mk_ProfileName (to_ascii_lowercase trimmed))
  end.

Definition default_profile : ProfileName := mk_ProfileName (lit "default").
Definition is_default (p : ProfileName) : bool := bool_decide (profile_str p = lit "default").

(** ** GitHub names and targets *)

(** A name keeps the spelling it was written with and compares without case. *)
Record Name := mk_Name { name_str : str }.
#[global] Instance ord_Name : Ord Name :=
  λ x y, cmp (to_ascii_lowercase (name_str x)) (to_ascii_lowercase (name_str y)).
#[global] Instance ord_laws_Name : OrdLaws Name :=
  ord_laws_on (λ n, to_ascii_lowercase (name_str n)).
#[global] Instance Name_leibniz_eq_dec : EqDecision Name.
Proof. solve_decision. Defined.

(** [impl PartialEq for Name]. *)
Definition Name_eqb (x y : Name) : bool := eq_ignore_ascii_case (name_str x) (name_str y).

(** What [impl Hash for Name] feeds the hasher. *)
Definition Name_hash_bytes (x : Name) : list N := to_ascii_lowercase (name_str x) ++ [255%N].

Definition validate_login (raw : str) (what : string) : result Name ValidationError :=
  let trimmed := trim raw in
  if bool_decide (trimmed = []) then Err (Empty what)
  else if bool_decide (len trimmed > 39) then Err (TooLong what 39 (len trimmed))
  else match find_char (λ c, negb (is_ascii_alphanumeric c || N.eqb c (ch "-"))) trimmed with
  | Some bad => Err (IllegalCharacter what bad)
  | None =>
      if starts_with [ch "-"] trimmed || ends_with [ch "-"] trimmed
      then Err (IllegalEdge what (ch "-"))
      else Ok (mk_Name trimmed)
  end.

Definition is_repo_char (c : char) : bool :=
  is_ascii_alphanumeric c || N.eqb c (ch "-") || N.eqb c (ch "_") || N.eqb c (ch ".").

Definition validate_repo_name (raw : str) : result Name ValidationError :=
  let what := "a repository name"%string in
  let trimmed := trim raw in
  if bool_decide (trimmed = []) then Err (Empty what)
  else if bool_decide (len trimmed > 100) then Err (TooLong what 100 (len trimmed))
  else if bool_decide (trimmed = lit "." ∨ trimmed = lit "..")
  then Err (Unrecognised what trimmed)
  else match find_char (λ c, negb (is_repo_char c)) trimmed with
  | Some bad => Err (IllegalCharacter what bad)
  | None => Ok (mk_Name trimmed)
  end.

Record OwnerRepo := mk_OwnerRepo { owner : Name; repo : Name }.
#[global] Instance ord_OwnerRepo : Ord OwnerRepo :=
  λ x y, cmp (owner x, repo x) (owner y, repo y).
#[global] Instance ord_laws_OwnerRepo : OrdLaws OwnerRepo :=
  ord_laws_on (λ r, (owner r, repo r)).
#[global] Instance OwnerRepo_leibniz_eq_dec : EqDecision OwnerRepo.
Proof. solve_decision. Defined.

Definition OwnerRepo_eqb (x y : OwnerRepo) : bool :=
  Name_eqb (owner x) (owner y) && Name_eqb (repo x) (repo y).

Definition OwnerRepo_new (o r : str) : result OwnerRepo ValidationError :=
  let? o' := validate_login o "a repository owner" in
  let? r' := validate_repo_name r in
  Ok (mk_OwnerRepo o' r').

Definition OwnerRepo_parse (raw0 : str) : result OwnerRepo ValidationError :=
  let raw := trim raw0 in
  let slashes := matches_count (ch "/") raw in
  if bool_decide (slashes ≠ 1) then Err (MalformedOwnerRepo raw slashes)
  else match split_once (ch "/") raw with
  | Some (o, r) => OwnerRepo_new o r
  | None => Err (MalformedOwnerRepo raw slashes) (* [expect]: exactly one separator *)
  end.

Definition OwnerRepo_display (r : OwnerRepo) : str :=
  name_str (owner r) ++ [ch "/"] ++ name_str (repo r).

Record Org := mk_Org { org_name : Name }.
#[global] Instance ord_Org : Ord Org := λ x y, cmp (org_name x) (org_name y).
#[global] Instance ord_laws_Org : OrdLaws Org := ord_laws_on org_name.
#[global] Instance Org_leibniz_eq_dec : EqDecision Org.
Proof. solve_decision. Defined.

Definition Org_new (raw : str) : result Org ValidationError :=
  map_ok mk_Org (validate_login raw "an organization login").
Definition Org_display (o : Org) : str := name_str (org_name o).

Inductive TargetScope := ScopeRepository | ScopeOrganization.
#[global] Instance TargetScope_eq_dec : EqDecision TargetScope.
Proof. solve_decision. Defined.

Inductive ScaleTarget :=
  | Repository (r : OwnerRepo)
  | Organization (o : Org).
#[global] Instance ScaleTarget_leibniz_eq_dec : EqDecision ScaleTarget.
Proof. solve_decision. Defined.

(** The derived [Ord]: by variant, then by content. *)
#[global] Instance ord_ScaleTarget : Ord ScaleTarget := λ x y,
  match x, y with
  | Repository r, Repository s => cmp r s
  | Repository _, Organization _ => Lt
  | Organization _, Repository _ => Gt
  | Organization o, Organization p => cmp o p
  end.

#[global] Instance ord_laws_ScaleTarget : OrdLaws ScaleTarget.
Proof.
  split; unfold cmp, ord_ScaleTarget.
  - intros [] []; try done; apply cmp_opp.
  - intros [] [] []; try done; apply cmp_lt_trans.
  - intros [] [] []; try done; apply cmp_eq_l.
Qed.

(** The derived [PartialEq]. *)
Definition ScaleTarget_eqb (x y : ScaleTarget) : bool :=
  match x, y with
  | Repository r, Repository s => OwnerRepo_eqb r s
  | Organization o, Organization p => Name_eqb (org_name o) (org_name p)
  | _, _ => false
  end.

Definition ScaleTarget_repository (raw : str) : result ScaleTarget ValidationError :=
  map_ok Repository (OwnerRepo_parse raw).
Definition ScaleTarget_organization (raw : str) : result ScaleTarget ValidationError :=
  map_ok Organization (Org_new raw).

Definition scope (t : ScaleTarget) : TargetScope :=
  match t with Repository _ => ScopeRepository | Organization _ => ScopeOrganization end.

Definition slug (t : ScaleTarget) : str :=
  match t with Repository r => OwnerRepo_display r | Organization o => Org_display o end.

(** ** Validated strings *)

(** What a [HostLabel] or a [ProfileName] holds. *)
Definition valid_selector (s : str) : Prop :=
  s ≠ [] ∧ len s ≤ 64 ∧ Forall (λ c, is_selector_char c = true) s ∧
  starts_with [ch "-"] s = false ∧ ends_with [ch "-"] s = false ∧
  to_ascii_lowercase s = s.

Lemma selector_char_not_whitespace c : is_selector_char c = true → is_whitespace c = false.
Proof. unfold is_selector_char. chars. Qed.

Lemma is_selector_char_lower c : is_selector_char (to_ascii_lower c) = is_selector_char c.
Proof. unfold is_selector_char. chars. Qed.

Lemma valid_selector_lower s :
  s ≠ [] → len s ≤ 64 → Forall (λ c, is_selector_char c = true) s →
  starts_with [ch "-"] s = false → ends_with [ch "-"] s = false →
  valid_selector (to_ascii_lowercase s).
Proof.
  intros Hne Hlen Hs Hh Hl. unfold valid_selector.
  rewrite len_lower, to_ascii_lowercase_idem, starts_with_char_lower,
    ends_with_char_lower by done.
  repeat split; try done.
  - by destruct s.
  - apply Forall_fmap. eapply Forall_impl; [exact Hs|]. intros c.
    simpl. by rewrite is_selector_char_lower.
Qed.

Lemma HostLabel_new_valid raw h : HostLabel_new raw = Ok h → valid_selector (host_label_str h).
Proof.
  unfold HostLabel_new. intros H. cases. breflect.
  apply find_negb_None in H2. unfold HostLabel_MAX_LEN in *.
  apply valid_selector_lower; try done; lia.
Qed.

Lemma ProfileName_new_valid raw p : ProfileName_new raw = Ok p → valid_selector (profile_str p).
Proof.
  unfold ProfileName_new. intros H. cases. breflect.
  apply find_negb_None in H2. unfold ProfileName_MAX_LEN in *.
  apply valid_selector_lower; try done; lia.
Qed.

Lemma HostLabel_new_canonical s : valid_selector s → HostLabel_new s = Ok (mk_HostLabel s).
Proof.
  intros (Hne & Hlen & Hs & Hh & Hl & Hlow). unfold HostLabel_new.
  rewrite (trim_all _ _ selector_char_not_whitespace Hs).
  rewrite !bool_decide_eq_false_2 by (done || (unfold HostLabel_MAX_LEN; lia)).
  rewrite (proj2 (find_negb_None _ _) Hs), Hh, Hl. simpl. by rewrite Hlow.
Qed.

Lemma ProfileName_new_canonical s :
  valid_selector s → ProfileName_new s = Ok (mk_ProfileName s).
Proof.
  intros (Hne & Hlen & Hs & Hh & Hl & Hlow). unfold ProfileName_new.
  rewrite (trim_all _ _ selector_char_not_whitespace Hs).
  rewrite !bool_decide_eq_false_2 by (done || (unfold ProfileName_MAX_LEN; lia)).
  rewrite (proj2 (find_negb_None _ _) Hs), Hh, Hl. simpl. by rewrite Hlow.
Qed.

(** What a [Label] holds. *)
Definition valid_label (s : str) : Prop :=
  s ≠ [] ∧ trim s = s ∧ Forall (λ c, (N.eqb c (ch ",") || is_control c) = false) s ∧
  chars_count s ≤ Label_MAX_LEN ∧ to_ascii_lowercase s = s.

Lemma label_char_lower c :
  (N.eqb (to_ascii_lower c) (ch ",") || is_control (to_ascii_lower c))
  = (N.eqb c (ch ",") || is_control c).
Proof. by rewrite is_control_lower, to_ascii_lower_fixed. Qed.

Lemma Label_new_valid raw l : Label_new raw = Ok l → valid_label (label_str l).
Proof.
  unfold Label_new. intros H. cases. breflect. apply find_char_None in H1.
  unfold valid_label. rewrite trim_lower, trim_idem, to_ascii_lowercase_idem.
  split; [by destruct (trim raw)|]. split; [done|]. split; [|split; [lia|done]].
  apply Forall_fmap. eapply Forall_impl; [exact H1|]. intros c. simpl.
  by rewrite label_char_lower.
Qed.

Lemma Label_new_canonical s : valid_label s → Label_new s = Ok (mk_Label s).
Proof.
  intros (Hne & Ht & Hs & Hlen & Hlow). unfold Label_new. rewrite Ht, Hlow.
  rewrite bool_decide_eq_false_2 by done.
  rewrite (proj2 (find_char_None _ _) Hs).
  by rewrite bool_decide_eq_false_2 by lia.
Qed.

(** A label never depends on the case its text was written in. *)
Lemma find_label_char_lower s :
  find_char (λ c, N.eqb c (ch ",") || is_control c) (to_ascii_lowercase s)
  = find_char (λ c, N.eqb c (ch ",") || is_control c) s.
Proof.
  induction s as [|c s IH]; [done|]. unfold to_ascii_lowercase, find_char in *.
  rewrite fmap_cons. cbn [List.find]. rewrite label_char_lower, IH.
  destruct (N.eqb c (ch ",") || is_control c) eqn:E; [|done].
  f_equal. revert E. chars.
Qed.

Lemma Label_new_fold raw : Label_new (to_ascii_lowercase raw) = Label_new raw.
Proof.
  unfold Label_new. rewrite trim_lower, find_label_char_lower, to_ascii_lowercase_idem.
  by destruct (trim raw).
Qed.

(** ** Names and targets *)

Definition valid_login (n : Name) : Prop :=
  name_str n ≠ [] ∧ len (name_str n) ≤ 39 ∧
  Forall (λ c, is_ascii_alphanumeric c || N.eqb c (ch "-") = true) (name_str n) ∧
  starts_with [ch "-"] (name_str n) = false ∧ ends_with [ch "-"] (name_str n) = false.

Definition valid_repo_name (n : Name) : Prop :=
  name_str n ≠ [] ∧ len (name_str n) ≤ 100 ∧
  name_str n ≠ lit "." ∧ name_str n ≠ lit ".." ∧
  Forall (λ c, is_repo_char c = true) (name_str n).

Definition valid_owner_repo (r : OwnerRepo) : Prop :=
  valid_login (owner r) ∧ valid_repo_name (repo r).

Definition valid_target (t : ScaleTarget) : Prop :=
  match t with
  | Repository r => valid_owner_repo r
  | Organization o => valid_login (org_name o)
  end.

Lemma login_char_not_whitespace c :
  is_ascii_alphanumeric c || N.eqb c (ch "-") = true → is_whitespace c = false.
Proof. chars. Qed.

Lemma repo_char_not_whitespace c : is_repo_char c = true → is_whitespace c = false.
Proof. unfold is_repo_char. chars. Qed.

Lemma validate_login_valid raw what n : validate_login raw what = Ok n → valid_login n.
Proof.
  unfold validate_login. intros H. cases. breflect. apply find_negb_None in H2.
  repeat split; simpl; try done; lia.
Qed.

Lemma validate_login_canonical n what : valid_login n → validate_login (name_str n) what = Ok n.
Proof.
  intros (Hne & Hlen & Hs & Hh & Hl). unfold validate_login.
  rewrite (trim_all _ _ login_char_not_whitespace Hs).
  rewrite !bool_decide_eq_false_2 by (done || lia).
  rewrite (proj2 (find_negb_None _ _) Hs), Hh, Hl. by destruct n.
Qed.

Lemma validate_repo_name_valid raw n : validate_repo_name raw = Ok n → valid_repo_name n.
Proof.
  unfold validate_repo_name. intros H. cases. breflect. apply find_negb_None in H3.
  repeat split; simpl; try naive_solver; lia.
Qed.

Lemma validate_repo_name_canonical n : valid_repo_name n → validate_repo_name (name_str n) = Ok n.
Proof.
  intros (Hne & Hlen & Hd & Hdd & Hs). unfold validate_repo_name.
  rewrite (trim_all _ _ repo_char_not_whitespace Hs).
  rewrite bool_decide_eq_false_2 by done. rewrite bool_decide_eq_false_2 by lia.
  rewrite bool_decide_eq_false_2 by (intros [?|?]; congruence).
  rewrite (proj2 (find_negb_None _ _) Hs). by destruct n.
Qed.

Lemma OwnerRepo_parse_valid raw r : OwnerRepo_parse raw = Ok r → valid_owner_repo r.
Proof.
  unfold OwnerRepo_parse, OwnerRepo_new. intros H. cases.
  split; simpl; [by eapply validate_login_valid | by eapply validate_repo_name_valid].
Qed.

Lemma OwnerRepo_parse_display r :
  valid_owner_repo r → OwnerRepo_parse (OwnerRepo_display r) = Ok r.
Proof.
  intros [Ho Hr]. pose proof Ho as (_ & _ & Hoc & _). pose proof Hr as (_ & _ & _ & _ & Hrc).
  assert (ch "/" ∉ name_str (owner r)) as Hos
    by exact (Forall_not_elem (λ c, is_ascii_alphanumeric c || N.eqb c (ch "-")) (ch "/") _ Hoc eq_refl).
  assert (ch "/" ∉ name_str (repo r)) as Hrs by exact (Forall_not_elem _ (ch "/") _ Hrc eq_refl).
  unfold OwnerRepo_parse.
  assert (trim (OwnerRepo_display r) = OwnerRepo_display r) as ->.
  { apply trim_no_whitespace. unfold OwnerRepo_display. rewrite !Forall_app. repeat split.
    - eapply Forall_impl; [exact Hoc|]. apply login_char_not_whitespace.
    - by constructor.
    - eapply Forall_impl; [exact Hrc|]. apply repo_char_not_whitespace. }
  unfold OwnerRepo_display.
  rewrite !matches_count_app, matches_count_self, !matches_count_none by done. simpl.
  rewrite split_once_app by done. unfold OwnerRepo_new.
  rewrite validate_login_canonical, validate_repo_name_canonical by done.
  by destruct r.
Qed.

(** The slug column, read at the scope column. *)
Definition read_target (s : TargetScope) (text : str) : result ScaleTarget ValidationError :=
  match s with
  | ScopeRepository => ScaleTarget_repository text
  | ScopeOrganization => ScaleTarget_organization text
  end.

Lemma read_target_slug t : valid_target t → read_target (scope t) (slug t) = Ok t.
Proof.
  unfold read_target, ScaleTarget_repository, ScaleTarget_organization, Org_new.
  destruct t as [r|[n]]; simpl; intros Hv.
  - by rewrite OwnerRepo_parse_display.
  - unfold Org_display. simpl. by rewrite validate_login_canonical.
Qed.

(** ** Theorems *)

(** A label is canonical and case-insensitive: its text read again is the same
    label, and every spelling that differs only in ASCII case or in surrounding white
    space gives the same label. *)
Theorem label_canonical raw l :
  Label_new raw = Ok l →
  valid_label (label_str l) ∧ Label_new (label_str l) = Ok l ∧
  ∀ raw', to_ascii_lowercase (trim raw') = to_ascii_lowercase (trim raw) → Label_new raw' = Ok l.
Proof.
  intros H. pose proof (Label_new_valid _ _ H) as Hv. split_and!; [done| |].
  - rewrite Label_new_canonical by done. by destruct l.
  - intros raw' E. rewrite <- H.
    assert (∀ r, Label_new r = Label_new (to_ascii_lowercase (trim r))) as Ht.
    { intros r. rewrite Label_new_fold. unfold Label_new. by rewrite trim_idem. }
    by rewrite (Ht raw'), (Ht raw), E.
Qed.

(** A target survives its stored form: every target the constructors accept is
    valid, and reading the slug of a valid target at its scope gives that target. *)
Theorem target_roundtrip t :
  (∀ raw, ScaleTarget_repository raw = Ok t ∨ ScaleTarget_organization raw = Ok t →
     valid_target t) ∧
  (valid_target t → read_target (scope t) (slug t) = Ok t).
Proof.
  split; [|apply read_target_slug].
  unfold ScaleTarget_repository, ScaleTarget_organization, Org_new.
  intros raw [H|H].
  - destruct (OwnerRepo_parse raw) as [r|] eqn:E; simplify_eq/=. by eapply OwnerRepo_parse_valid.
  - destruct (validate_login raw _) as [n|] eqn:E; simplify_eq/=. by eapply validate_login_valid.
Qed.

(** ** Witnesses *)

Lemma label_canonical_witness :
  Label_new (lit " GPU ") = Ok (mk_Label (lit "gpu")) ∧ Label_new (lit "gPu") = Ok (mk_Label (lit "gpu")).
Proof.
  assert (Label_new (lit " GPU ") = Ok (mk_Label (lit "gpu"))) as H by (vm_compute; reflexivity).
  split; [exact H|]. apply (label_canonical _ _ H). vm_compute. reflexivity.
Defined.

Lemma target_roundtrip_witness :
  ∃ t, ScaleTarget_repository (lit " Octo/repo.x ") = Ok t ∧
    ScaleTarget_repository (slug t) = Ok t.
Proof.
  destruct (ScaleTarget_repository (lit " Octo/repo.x ")) as [t|] eqn:H;
    [|vm_compute in H; discriminate].
  exists t. split; [reflexivity|].
  pose proof (proj2 (target_roundtrip t) (proj1 (target_roundtrip t) _ (or_introl H))) as Ht.
  vm_compute in H. injection H as <-. exact Ht.
Defined.
