(* ===== verification/Path.v ===== *)
(** * Configured local paths ([crates/domain/src/path.rs])

    The parser that turns operator text into a [LocalAbsolutePath] on either
    platform, and the one operation that extends such a path. *)

From stdpp Require Import strings.
From S2P Require Import Prelude RustStr.
#[local] Open Scope Z_scope.
#[local] Open Scope rust_scope.

Inductive LocalPathError :=
  | PathEmpty
  | NotAbsolute (got : str)
  | RootPath (got : str)
  | Traversal (got : str)
  | Unc (got : str)
  | DeviceNamespace (got : str)
  | UnrepresentableCharacter (component : str) (found : char)
  | TrailingDotOrSpace (component : str)
  | ReservedName (component : str)
  | NotASingleComponent (got : str).
#[global] Instance LocalPathError_eq_dec : EqDecision LocalPathError.
Proof. solve_decision. Defined.

Inductive PathPlatform := PWindows | PUnix.
#[global] Instance PathPlatform_eq_dec : EqDecision PathPlatform.
Proof. solve_decision. Defined.

Definition separator (p : PathPlatform) : char :=
  match p with PWindows => ch "\" | PUnix => ch "/" end.

Definition is_separator (p : PathPlatform) (c : char) : bool :=
  match p with
  | PWindows => N.eqb c (ch "\") || N.eqb c (ch "/")
  | PUnix => N.eqb c (ch "/")
  end.

Record LocalAbsolutePath := mk_path { text : str; platform : PathPlatform }.
#[global] Instance LocalAbsolutePath_eq_dec : EqDecision LocalAbsolutePath.
Proof. solve_decision. Defined.

Definition NUL : char := 0%N.

(** The double quote is code point 34. *)
Definition WINDOWS_RESERVED_CHARACTERS : list char :=
  [ch "<"; ch ">"; ch ":"; 34%N; ch "|"; ch "?"; ch "*"].

Definition WINDOWS_RESERVED_NAMES : list str :=
  [lit "CON"; lit "PRN"; lit "AUX"; lit "NUL";
   lit "COM1"; lit "COM2"; lit "COM3"; lit "COM4"; lit "COM5"; lit "COM6"; lit "COM7";
   lit "COM8"; lit "COM9";
   lit "LPT1"; lit "LPT2"; lit "LPT3"; lit "LPT4"; lit "LPT5"; lit "LPT6"; lit "LPT7";
   lit "LPT8"; lit "LPT9"].

Definition validate_component (component : str) (p : PathPlatform) : result () LocalPathError :=
  match find_char (N.eqb NUL) component with
  | Some found => Err (UnrepresentableCharacter component found)
  | None =>
      if bool_decide (p = PUnix) then Ok tt
      else match find_char (λ c, bool_decide (c ∈ WINDOWS_RESERVED_CHARACTERS) || is_control c)
                   component with
      | Some found => Err (UnrepresentableCharacter component found)
      | None =>
          if ends_with [ch " "] component || ends_with [ch "."] component
          then Err (TrailingDotOrSpace component)
          else
            let stem := match split_once (ch ".") component with
                        | Some (stem, _) => stem
                        | None => component
                        end in
            let stem := trim_end_matches (N.eqb (ch " ")) stem in
            if existsb (eq_ignore_ascii_case stem) WINDOWS_RESERVED_NAMES
            then Err (ReservedName component)
            else Ok tt
      end
  end.

(** The loop over [rest.split(..)]. *)
Fixpoint normalise_pieces (raw : str) (p : PathPlatform) (pieces : list str)
    : result (list str) LocalPathError :=
  match pieces with
  | [] => Ok []
  | c :: pieces =>
      if bool_decide (c = [] ∨ c = lit ".") then normalise_pieces raw p pieces
      else if bool_decide (c = lit "..") then Err (Traversal raw)
      else
        let? _ := validate_component c p in
        let? cs := normalise_pieces raw p pieces in
        Ok (c :: cs)
  end.

Definition normalise_components (raw rest : str) (p : PathPlatform)
    : result (list str) LocalPathError :=
  normalise_pieces raw p (split_on (is_separator p) rest).

Definition unix_prefix (raw : str) : result (str * str) LocalPathError :=
  match strip_prefix [ch "/"] raw with
  | Some rest => Ok ([ch "/"], rest)
  | None => Err (NotAbsolute raw)
  end.

Definition is_some_and {A} (f : A → bool) (o : option A) : bool :=
  match o with Some a => f a | None => false end.

Definition windows_prefix (raw : str) : result (str * str) LocalPathError :=
  let sep := is_separator PWindows in
  let first := raw !! 0%nat in
  let second := raw !! 1%nat in
  if is_some_and sep first && is_some_and sep second then
    let rest := drop 2 raw in
    let marker := rest !! 0%nat in
    let after := rest !! 1%nat in
    if is_some_and (λ c, N.eqb c (ch "?") || N.eqb c (ch ".")) marker && is_some_and sep after
    then Err (DeviceNamespace raw)
    else Err (Unc raw)
  else match first, second with
  | Some drive, Some colon =>
      if is_ascii_alphabetic drive && N.eqb colon (ch ":") then
        match drop 2 raw with
        | c :: rest =>
            if sep c then Ok ([to_ascii_upper drive; ch ":"; ch "\"], rest)
            else Err (NotAbsolute raw)
        | [] => Err (NotAbsolute raw)
        end
      else Err (NotAbsolute raw)
  | _, _ => Err (NotAbsolute raw)
  end.

Definition path_prefix (p : PathPlatform) (raw : str) : result (str * str) LocalPathError :=
  match p with PWindows => windows_prefix raw | PUnix => unix_prefix raw end.

Definition parse_for (raw : str) (p : PathPlatform) : result LocalAbsolutePath LocalPathError :=
  if bool_decide (trim raw = []) then Err PathEmpty
  else if contains_char NUL raw then Err (UnrepresentableCharacter raw NUL)
  else
    let? (prefix, rest) := path_prefix p raw in
    let? components := normalise_components raw rest p in
    if bool_decide (components = []) then Err (RootPath raw)
    else Ok (mk_path (prefix ++ join [separator p] components) p).

Definition join_child (self : LocalAbsolutePath) (name : str)
    : result LocalAbsolutePath LocalPathError :=
  if bool_decide (name = [] ∨ name = lit "." ∨ name = lit "..")
     || existsb (is_separator (platform self)) name
  then Err (NotASingleComponent name)
  else
    let? _ := validate_component name (platform self) in
    Ok (mk_path (text self ++ [separator (platform self)] ++ name) (platform self)).

(** ** What a [LocalAbsolutePath] holds *)

Definition valid_component (p : PathPlatform) (c : str) : Prop :=
  c ≠ [] ∧ c ≠ lit "." ∧ c ≠ lit ".." ∧
  Forall (λ d, is_separator p d = false) c ∧ validate_component c p = Ok tt.

Definition valid_prefix (p : PathPlatform) (s : str) : Prop :=
  match p with
  | PUnix => s = [ch "/"]
  | PWindows => ∃ d, s = [d; ch ":"; ch "\"] ∧ is_ascii_uppercase d = true
  end.

(** The canonical text of a path with the given components. *)
Definition path_of (p : PathPlatform) (prefix : str) (cs : list str) : LocalAbsolutePath :=
  mk_path (prefix ++ join [separator p] cs) p.

Definition valid_path (q : LocalAbsolutePath) : Prop :=
  ∃ prefix cs, valid_prefix (platform q) prefix ∧ cs ≠ [] ∧
    Forall (valid_component (platform q)) cs ∧ q = path_of (platform q) prefix cs.

Lemma separator_is_separator p : is_separator p (separator p) = true.
Proof. by destruct p. Qed.

(** *** Normalisation *)

Lemma normalise_pieces_valid raw p pieces cs :
  Forall (Forall (λ c, is_separator p c = false)) pieces →
  normalise_pieces raw p pieces = Ok cs → Forall (valid_component p) cs.
Proof.
  intros Hp. revert cs. induction Hp as [|c pieces Hc Hp IH]; intros cs; simpl.
  - intros [= <-]. constructor.
  - intros H. cases; breflect; [by apply IH|].
    destruct a. constructor; [|by apply IH]. unfold valid_component. naive_solver.
Qed.

Lemma normalise_pieces_id raw p cs :
  Forall (valid_component p) cs → normalise_pieces raw p cs = Ok cs.
Proof.
  induction 1 as [|c cs (Hne & Hd & Hdd & Hsep & Hv) Hcs IH];
    cbn [normalise_pieces]; [done|].
  rewrite bool_decide_eq_false_2 by (intros [?|?]; congruence).
  rewrite bool_decide_eq_false_2 by done. by rewrite Hv, IH.
Qed.

Lemma normalise_components_join raw p cs :
  cs ≠ [] → Forall (valid_component p) cs →
  normalise_components raw (join [separator p] cs) p = Ok cs.
Proof.
  intros Hne Hcs. unfold normalise_components.
  rewrite split_join; [by apply normalise_pieces_id|apply separator_is_separator|done|].
  eapply Forall_impl; [exact Hcs|]. by intros c (_ & _ & _ & ? & _).
Qed.

Lemma valid_component_no_nul p c : valid_component p c → NUL ∉ c.
Proof.
  intros (_ & _ & _ & _ & Hv). unfold validate_component in Hv.
  destruct (find_char (N.eqb NUL) c) eqn:E; [done|].
  apply find_char_None in E. rewrite Forall_forall in E.
  intros Hin. specialize (E _ Hin). by rewrite N.eqb_refl in E.
Qed.

(** *** Prefixes *)

Lemma path_prefix_valid p raw prefix rest :
  path_prefix p raw = Ok (prefix, rest) → valid_prefix p prefix.
Proof.
  destruct p; unfold path_prefix, windows_prefix, unix_prefix, valid_prefix; intros H; cases;
    [|done].
  breflect. eexists. split; [done|]. revert H3. chars.
Qed.

Lemma path_prefix_id p prefix s :
  valid_prefix p prefix → path_prefix p (prefix ++ s) = Ok (prefix, s).
Proof.
  destruct p; simpl.
  - intros (d & -> & Hd).
    assert (is_separator PWindows d = false) as Hsep by (unfold is_separator; chars).
    assert (is_ascii_alphabetic d = true) as Hal by (unfold is_ascii_alphabetic; by rewrite Hd).
    assert (to_ascii_upper d = d) as Hup by chars.
    unfold windows_prefix. cbn -[is_separator]. by rewrite Hsep, Hal, Hup.
  - intros ->. done.
Qed.

Lemma valid_prefix_head p prefix s :
  valid_prefix p prefix → trim (prefix ++ s) ≠ [].
Proof.
  intros Hp. assert (∃ c r, prefix ++ s = c :: r ∧ is_whitespace c = false) as (c & r & -> & Hc).
  { destruct p; simpl in Hp.
    - destruct Hp as (d & -> & Hd). exists d, (ch ":" :: ch "\" :: s). split; [done|]. chars.
    - subst. by exists (ch "/"), s. }
  intros Ht. unfold trim, trim_start_matches in Ht. simpl in Ht. rewrite Hc in Ht.
  assert (c ∈ trim_end_matches is_whitespace (c :: r)) as Hin.
  { unfold trim_end_matches. rewrite reverse_cons.
    destruct (drop_while_suffix is_whitespace (reverse r ++ [c])) as [q Hq].
    rewrite elem_of_reverse.
    destruct (drop_while is_whitespace (reverse r ++ [c])) as [|x l] eqn:E.
    - exfalso. clear -E Hc. induction (reverse r) as [|y l IH]; simpl in E.
      + by rewrite Hc in E.
      + destruct (is_whitespace y); [by apply IH|done].
    - rewrite <- E. apply last_Some_elem_of.
      assert (last (x :: l) = last (q ++ x :: l)) as Hlast by (by rewrite last_app_cons).
      rewrite E, Hlast, <- Hq. apply last_snoc. }
  rewrite Ht in Hin. by apply not_elem_of_nil in Hin.
Qed.

Lemma valid_path_no_nul p prefix cs :
  valid_prefix p prefix → Forall (valid_component p) cs →
  contains_char NUL (prefix ++ join [separator p] cs) = false.
Proof.
  intros Hp Hcs. unfold contains_char. apply not_true_is_false.
  rewrite existsb_exists. intros (x & Hx & <-%N.eqb_eq).
  apply list_elem_of_In, elem_of_app in Hx as [Hx|Hx].
  - destruct p; simpl in Hp.
    + destruct Hp as (d & -> & Hd). rewrite !elem_of_cons in Hx.
      destruct Hx as [<-|[?|[?|?%not_elem_of_nil]]]; done.
    + subst. apply list_elem_of_singleton in Hx. done.
  - apply join_elem in Hx as [Hx|(w & Hw & Hx)]; [by destruct p|].
    rewrite Forall_forall in Hcs. exact (valid_component_no_nul p w (Hcs w Hw) Hx).
Qed.

(** *** Canonical form *)

Lemma parse_path_of p prefix cs :
  valid_prefix p prefix → cs ≠ [] → Forall (valid_component p) cs →
  parse_for (text (path_of p prefix cs)) p = Ok (path_of p prefix cs).
Proof.
  intros Hp Hne Hcs. unfold parse_for, path_of. simpl.
  rewrite bool_decide_eq_false_2 by (by eapply valid_prefix_head).
  rewrite valid_path_no_nul, path_prefix_id, normalise_components_join by done.
  by rewrite bool_decide_eq_false_2.
Qed.

Lemma parse_for_valid raw p q : parse_for raw p = Ok q → platform q = p ∧ valid_path q.
Proof.
  unfold parse_for. intros H.
  destruct (bool_decide (trim raw = [])); [done|].
  destruct (contains_char NUL raw); [done|].
  destruct (path_prefix p raw) as [[prefix rest]|] eqn:Hpre; [|done].
  destruct (normalise_components raw rest p) as [cs|] eqn:Hcs; [|done].
  case_bool_decide; simplify_eq. split; [done|]. exists prefix, cs.
  simpl. split_and!; [by eapply path_prefix_valid|done| |done].
  eapply normalise_pieces_valid; [apply split_pieces_no_sep | done].
Qed.

Lemma valid_path_parse q : valid_path q → parse_for (text q) (platform q) = Ok q.
Proof.
  intros (prefix & cs & Hp & Hne & Hcs & ->). by apply parse_path_of.
Qed.

Lemma join_child_path_of p prefix cs name q :
  cs ≠ [] → join_child (path_of p prefix cs) name = Ok q →
  q = path_of p prefix (cs ++ [name]) ∧ valid_component p name.
Proof.
  intros Hne. unfold join_child, path_of. simpl. intros H. cases. breflect.
  split.
  - rewrite join_snoc by done. by rewrite <- !app_assoc.
  - destruct a. unfold valid_component. repeat split; try naive_solver.
    rewrite Forall_forall. intros c Hc. apply not_true_is_false. intros Hs.
    assert (existsb (is_separator p) name = true); [|congruence].
    apply existsb_exists. exists c. by rewrite <- list_elem_of_In.
Qed.

(** ** Theorems *)

(** A path that is accepted is stored in canonical form (its text, read again, is the
    same path; it has no empty, [.] or [..] component) and a child joined to it is again
    a canonical path, one component below: the parent's text, a separator and the name,
    which is a single safe component. *)
Theorem local_path_canonical raw p q name r :
  parse_for raw p = Ok q → join_child q name = Ok r →
  (platform q = p ∧ valid_path q ∧ parse_for (text q) p = Ok q) ∧
  (platform r = p ∧ valid_path r ∧ parse_for (text r) p = Ok r) ∧
  text r = text q ++ [separator p] ++ name ∧ valid_component p name.
Proof.
  intros Hq Hr. apply parse_for_valid in Hq as [<- Hq].
  pose proof (valid_path_parse _ Hq) as Hqp.
  assert (text r = text q ++ [separator (platform q)] ++ name ∧ platform r = platform q) as [Ht Hp].
  { unfold join_child in Hr. cases. done. }
  pose proof Hq as (prefix & cs & Hpre & Hne & Hcs & E).
  rewrite E in Hr. apply join_child_path_of in Hr as [Hr Hn]; [|done].
  assert (valid_path r) as Hv.
  { exists prefix, (cs ++ [name]). rewrite Hp. split_and!; try done.
    - by destruct cs.
    - apply Forall_app. split; [done|by apply Forall_singleton]. }
  pose proof (valid_path_parse _ Hv) as Hrp. rewrite Hp in Hrp. by split_and!.
Qed.

Definition example_root : str := lit "c:/Runner//work/./x".
Lemma local_path_canonical_witness :
  ∃ q r, parse_for example_root PWindows = Ok q ∧ join_child q (lit "s1") = Ok r ∧
    text r = lit "C:\Runner\work\x\s1" ∧ valid_path r.
Proof.
  destruct (parse_for example_root PWindows) as [q|] eqn:Hq; [|vm_compute in Hq; discriminate].
  destruct (join_child q (lit "s1")) as [r|] eqn:Hr;
    [|vm_compute in Hq; injection Hq as <-; vm_compute in Hr; discriminate].
  exists q, r. split; [reflexivity|]. split; [exact Hr|].
  pose proof (local_path_canonical _ _ _ _ _ Hq Hr) as (_ & (_ & Hv & _) & _ & _).
  split; [|exact Hv].
  vm_compute in Hq. injection Hq as <-. vm_compute in Hr. injection Hr as <-.
  vm_compute. reflexivity.
Defined.
