(* ===== verification/Workspace.v ===== *)
(** * Workspace policies and slots ([crates/domain/src/workspace.rs]) *)

From stdpp Require Import strings.
From S2P Require Import Prelude RustStr Ordered Model Path.
#[local] Open Scope Z_scope.
#[local] Open Scope rust_scope.

Inductive WorkspaceError :=
  | InvalidPath (e : LocalPathError)
  | PersistentRequiresRepositoryScope
  | PersistentWithoutRoot
  | EphemeralWithRoot (root : str)
  | PersistentWithoutSlot
  | EphemeralWithSlot (slot : Z)
  | SlotNotPositive.
#[global] Instance WorkspaceError_eq_dec : EqDecision WorkspaceError.
Proof. solve_decision. Defined.

Inductive WorkspaceKind := KEphemeral | KPersistent.
#[global] Instance WorkspaceKind_eq_dec : EqDecision WorkspaceKind.
Proof. solve_decision. Defined.

Definition kind_is_persistent (k : WorkspaceKind) : bool :=
  match k with KPersistent => true | KEphemeral => false end.

Definition WorkspaceKind_display (k : WorkspaceKind) : str :=
  match k with KEphemeral => lit "ephemeral" | KPersistent => lit "persistent" end.

Definition WorkspaceKind_from_str (s : str) : result WorkspaceKind ValidationError :=
  let t := to_ascii_lowercase (trim s) in
  if bool_decide (t = lit "ephemeral") then Ok KEphemeral
  else if bool_decide (t = lit "persistent") then Ok KPersistent
  else Err (Unrecognised "a workspace mode" t).

(** ** What a policy asks for *)

Inductive WorkspacePolicy :=
  | WEphemeral
  | WPersistent (root : LocalAbsolutePath).
#[global] Instance WorkspacePolicy_eq_dec : EqDecision WorkspacePolicy.
Proof. solve_decision. Defined.

Definition wp_kind (w : WorkspacePolicy) : WorkspaceKind :=
  match w with WEphemeral => KEphemeral | WPersistent _ => KPersistent end.

Definition wp_root (w : WorkspacePolicy) : option LocalAbsolutePath :=
  match w with WEphemeral => None | WPersistent root => Some root end.

Definition wp_is_persistent (w : WorkspacePolicy) : bool := kind_is_persistent (wp_kind w).

Definition wp_permitted_for (w : WorkspacePolicy) (s : TargetScope) : result () WorkspaceError :=
  match s with
  | ScopeRepository => Ok tt
  | ScopeOrganization =>
      if wp_is_persistent w then Err PersistentRequiresRepositoryScope else Ok tt
  end.

Definition wp_persistent (root : LocalAbsolutePath) (s : TargetScope)
    : result WorkspacePolicy WorkspaceError :=
  let policy := WPersistent root in
  let? _ := wp_permitted_for policy s in
  Ok policy.

Definition wp_from_persisted (k : WorkspaceKind) (root : option LocalAbsolutePath)
    (s : TargetScope) : result WorkspacePolicy WorkspaceError :=
  match k, root with
  | KEphemeral, None => Ok WEphemeral
  | KEphemeral, Some root => Err (EphemeralWithRoot (text root))
  | KPersistent, None => Err PersistentWithoutRoot
  | KPersistent, Some root => wp_persistent root s
  end.

(** ** What an attempt holds *)

Inductive AttemptWorkspace :=
  | AEphemeral
  | APersistentSlot (slot : Z).
#[global] Instance AttemptWorkspace_eq_dec : EqDecision AttemptWorkspace.
Proof. solve_decision. Defined.

(** The slot is a [NonZeroU16]. *)
Definition valid_aw (w : AttemptWorkspace) : Prop :=
  match w with AEphemeral => True | APersistentSlot slot => nonzero_u16 slot end.

Definition aw_from_persisted (k : WorkspaceKind) (slot : option Z)
    : result AttemptWorkspace WorkspaceError :=
  match k, slot with
  | KEphemeral, None => Ok AEphemeral
  | KEphemeral, Some slot => Err (EphemeralWithSlot slot)
  | KPersistent, None => Err PersistentWithoutSlot
  | KPersistent, Some slot =>
      if bool_decide (slot = 0) then Err SlotNotPositive else Ok (APersistentSlot slot)
  end.

Definition aw_kind (w : AttemptWorkspace) : WorkspaceKind :=
  match w with AEphemeral => KEphemeral | APersistentSlot _ => KPersistent end.

Definition aw_slot_number (w : AttemptWorkspace) : option Z :=
  match w with AEphemeral => None | APersistentSlot slot => Some slot end.

Definition aw_is_persistent (w : AttemptWorkspace) : bool := kind_is_persistent (aw_kind w).

Definition slot_directory_name (w : AttemptWorkspace) : option str :=
  (λ slot, lit "s" ++ show_uint slot) <$> aw_slot_number w.

(** ** Round trips *)

Lemma aw_roundtrip w : valid_aw w → aw_from_persisted (aw_kind w) (aw_slot_number w) = Ok w.
Proof.
  destruct w as [|slot]; simpl; [done|]. intros Hs.
  rewrite bool_decide_eq_false_2; [done|]. zarith.
Qed.

Lemma wp_roundtrip w s :
  wp_permitted_for w s = Ok tt → wp_from_persisted (wp_kind w) (wp_root w) s = Ok w.
Proof. destruct w as [|root]; simpl; [done|]. unfold wp_persistent. by intros ->. Qed.

Lemma wp_from_persisted_permitted k root s w :
  wp_from_persisted k root s = Ok w → wp_permitted_for w s = Ok tt.
Proof.
  unfold wp_from_persisted, wp_persistent. destruct s; intros H; cases; by repeat case_match.
Qed.

Lemma aw_from_persisted_ok k slot w :
  (∀ s, slot = Some s → in_u16 s) →
  aw_from_persisted k slot = Ok w ↔ valid_aw w ∧ aw_kind w = k ∧ aw_slot_number w = slot.
Proof.
  intros Hs. split.
  - intros H. destruct k, slot as [s|]; simplify_eq/=; [done|]. cases. breflect.
    simpl. split_and!; [|done..]. specialize (Hs s eq_refl). zarith.
  - intros (Hv & <- & <-). by apply aw_roundtrip.
Qed.

Lemma aw_from_persisted_kind k slot w : aw_from_persisted k slot = Ok w → aw_kind w = k.
Proof. intros H. destruct k, slot as [s|]; simplify_eq/=; [done|]. cases. done. Qed.
