(* ===== verification/Execution.v ===== *)
(** * Execution isolation ([crates/domain/src/execution.rs])

    Image references, resource floors, the execution policy of a profile and the
    execution identity an attempt journals. *)

From stdpp Require Import strings.
From S2P Require Import Prelude RustStr Ordered Model Path Workspace.
#[local] Open Scope Z_scope.
#[local] Open Scope rust_scope.

Inductive ExecutionError :=
  | IsolatedRequiresRepository
  | IsolatedRequiresEphemeral
  | InvalidImage
  | BackendImageMismatch
  | InvalidResources
  | UnresolvedProvider
  | InvalidEnvironmentIdentity
  | AttemptIdentityMismatch
  | IsolatedCleanupUnproven.
#[global] Instance ExecutionError_eq_dec : EqDecision ExecutionError.
Proof. solve_decision. Defined.

Inductive Backend := BAuto | BOci | BWindowsHyperVContainer | BVirtualMachine.
#[global] Instance Backend_eq_dec : EqDecision Backend.
Proof. solve_decision. Defined.

(** ** Image references *)

Record ImageReference := mk_image { reference : str }.
#[global] Instance ImageReference_eq_dec : EqDecision ImageReference.
Proof. solve_decision. Defined.

(** [is_ascii_alphanumeric() || b"._-".contains(..)]. *)
Definition is_token_char (c : char) : bool :=
  is_ascii_alphanumeric c || bool_decide (c ∈ [ch "."; ch "_"; ch "-"]).

Definition safe_oci_segment (segment : str) : bool :=
  negb (bool_decide (segment = [])) && forallb is_token_char segment.

Definition oci_name_is_safe (name : str) : bool :=
  match split_on (N.eqb (ch "/")) name with
  | [] => false
  | registry_or_image :: segments =>
      let has_path := contains_char (ch "/") name in
      let first :=
        match rsplit_once [ch ":"] registry_or_image with
        | Some (host, port) =>
            has_path && negb (bool_decide (host = [])) && negb (bool_decide (port = []))
            && forallb is_ascii_digit port && safe_oci_segment host
        | None => safe_oci_segment registry_or_image
        end in
      first && forallb safe_oci_segment segments
  end.

Definition is_digest (d : str) : bool :=
  bool_decide (len d = 64) && forallb is_ascii_hexdigit d.

Definition ImageReference_new (r : str) : result ImageReference ExecutionError :=
  let valid :=
    negb (bool_decide (r = [])) && bool_decide (len r ≤ 512) && bool_decide (trim r = r)
    && negb (existsb is_whitespace r) && negb (contains_char (ch "@") r)
    && (starts_with (lit "sha256:") r || starts_with (lit "vm-version:") r) in
  let oci :=
    match rsplit_once (lit "@sha256:") r with
    | Some (name, digest) =>
        negb (bool_decide (name = [])) && negb (contains_char (ch "@") name)
        && negb (contains_str (lit "://") name) && negb (existsb is_whitespace name)
        && oci_name_is_safe name && is_digest digest
    | None => false
    end in
  let digest := match strip_prefix (lit "sha256:") r with
                | Some d => is_digest d | None => false end in
  let version :=
    match strip_prefix (lit "vm-version:") r with
    | Some v => negb (bool_decide (v = [])) && bool_decide (len v ≤ 128)
                && forallb is_token_char v
    | None => false
    end in
  if negb (oci || (valid && (digest || version))) then Err InvalidImage
  else Ok (mk_image r).

(** ** Resources and policies *)

Record ResourceLimits := mk_limits { cpu_millis : Z; memory_mib : Z; disk_mib : Z }.
#[global] Instance ResourceLimits_eq_dec : EqDecision ResourceLimits.
Proof. solve_decision. Defined.

Definition ResourceLimits_validate (r : ResourceLimits) : result ResourceLimits ExecutionError :=
  if bool_decide (cpu_millis r < 100) || bool_decide (memory_mib r < 256)
     || bool_decide (disk_mib r < 1024)
  then Err InvalidResources else Ok r.

Inductive ExecutionPolicy :=
  | EPNative
  | EPIsolated (backend : Backend) (image : ImageReference) (resources : ResourceLimits).
#[global] Instance ExecutionPolicy_eq_dec : EqDecision ExecutionPolicy.
Proof. solve_decision. Defined.

Definition needs_digest (b : Backend) : bool :=
  match b with BOci | BWindowsHyperVContainer => true | _ => false end.

Definition ExecutionPolicy_validate (e : ExecutionPolicy) (s : TargetScope)
    (w : WorkspacePolicy) : result () ExecutionError :=
  match e with
  | EPNative => Ok tt
  | EPIsolated backend image resources =>
      if bool_decide (s ≠ ScopeRepository) then Err IsolatedRequiresRepository
      else if wp_is_persistent w then Err IsolatedRequiresEphemeral
      else
        let? _ := ResourceLimits_validate resources in
        let? _ := ImageReference_new (reference image) in
        if needs_digest backend && negb (contains_str (lit "sha256:") (reference image))
        then Err BackendImageMismatch else Ok tt
  end.

(** ** Attempt identities *)

Inductive AttemptExecution :=
  | Native (process_id : option Z)
  | Isolated (provider_kind : Backend) (environment_id : option str)
             (resolved_image : ImageReference) (generation : str).
#[global] Instance AttemptExecution_eq_dec : EqDecision AttemptExecution.
Proof. solve_decision. Defined.

Definition is_native (e : AttemptExecution) : bool :=
  match e with Native _ => true | Isolated _ _ _ _ => false end.

Definition non_secret_id (s : str) : bool :=
  negb (bool_decide (s = [])) && bool_decide (len s ≤ 128) && forallb is_token_char s.

Definition can_advance_to (self next : AttemptExecution) : bool :=
  match self, next with
  | Native old, Native new => bool_decide (old = None) || bool_decide (old = new)
  | Isolated old_provider old_id old_image old_generation,
    Isolated new_provider new_id new_image new_generation =>
      bool_decide (old_provider = new_provider) && bool_decide (old_image = new_image)
      && bool_decide (old_generation = new_generation)
      && (bool_decide (old_id = None) || bool_decide (old_id = new_id))
  | _, _ => false
  end.

Definition AttemptExecution_validate (e : AttemptExecution) : result () ExecutionError :=
  match e with
  | Native _ => Ok tt
  | Isolated provider_kind environment_id resolved_image generation =>
      if bool_decide (provider_kind = BAuto) then Err UnresolvedProvider
      else
        let? _ := ImageReference_new (reference resolved_image) in
        if needs_digest provider_kind
           && negb (contains_str (lit "sha256:") (reference resolved_image))
        then Err BackendImageMismatch
        else if negb (non_secret_id generation)
                || match environment_id with
                   | Some id => negb (non_secret_id id)
                   | None => false
                   end
        then Err InvalidEnvironmentIdentity
        else Ok tt
  end.

Arguments ImageReference_new : simpl never.
Arguments ExecutionPolicy_validate : simpl never.
Arguments AttemptExecution_validate : simpl never.
Arguments can_advance_to : simpl nomatch.

(** ** Facts *)

(** Identities only ever advance: the relation the journal checks is a preorder. *)
#[global] Instance can_advance_to_preorder : PreOrder (λ a b, can_advance_to a b = true).
Proof.
  split.
  - intros [p|k e i g]; simpl;
      rewrite ?andb_true_iff, ?orb_true_iff, ?bool_decide_eq_true; naive_solver.
  - intros [p|k e i g] [p'|k' e' i' g'] [p''|k'' e'' i'' g'']; simpl; try done;
      rewrite ?andb_true_iff, ?orb_true_iff, ?bool_decide_eq_true; naive_solver.
Qed.

Lemma can_advance_refl e : can_advance_to e e = true.
Proof. exact (@PreOrder_Reflexive _ _ can_advance_to_preorder e). Qed.

Lemma can_advance_trans e1 e2 e3 :
  can_advance_to e1 e2 = true → can_advance_to e2 e3 = true → can_advance_to e1 e3 = true.
Proof. exact (@PreOrder_Transitive _ _ can_advance_to_preorder e1 e2 e3). Qed.

Lemma validate_set_environment k i g id :
  AttemptExecution_validate (Isolated k (Some id) i g) = Ok tt →
  AttemptExecution_validate (Isolated k None i g) = Ok tt.
Proof.
  unfold AttemptExecution_validate.
  destruct (bool_decide (k = BAuto)); [done|].
  destruct (ImageReference_new (reference i)); [|done].
  destruct (needs_digest k && _); [done|].
  by destruct (non_secret_id g).
Qed.

(** ** Pinned images *)

(** A reference that names its content: the digest is its last part. *)
Definition digest_pinned (r : str) : Prop :=
  ∃ name d, r = name ++ lit "sha256:" ++ d ∧ is_digest d = true.

(** A virtual-machine version has no digest marker in it. *)
Lemma version_has_no_marker v :
  forallb is_token_char v = true → contains_str (lit "sha256:") (lit "vm-version:" ++ v) = false.
Proof.
  intros Hv. apply not_true_is_false. intros (a & b & E)%contains_str_spec.
  assert (ch ":" ∉ v) as Hc.
  { intros Hin. rewrite forallb_forall in Hv. apply list_elem_of_In, Hv in Hin.
    vm_compute in Hin. discriminate. }
  assert (split_once (ch ":") (lit "vm-version" ++ ch ":" :: v) = Some (lit "vm-version", v)) as H1
    by (apply split_once_app; vm_compute; intros ?; set_solver).
  change (lit "vm-version:" ++ v) with (lit "vm-version" ++ ch ":" :: v) in E.
  change (a ++ lit "sha256:" ++ b) with (a ++ lit "sha256" ++ ch ":" :: b) in E.
  rewrite (assoc_L (++)) in E.
  assert (ch ":" ∉ a ++ lit "sha256") as Hn.
  { intros Hin%matches_count_elem. apply (f_equal (matches_count (ch ":"))) in E.
    change (?x ++ ch ":" :: ?y) with (x ++ [ch ":"] ++ y) in E.
    rewrite !(matches_count_app _ _ ([_] ++ _)), !(matches_count_app _ [_]) in E.
    rewrite (matches_count_none _ v Hc) in E.
    change (matches_count (ch ":") (lit "vm-version")) with 0 in E.
    unfold matches_count at 4 in E. lia. }
  rewrite E in H1.
  rewrite split_once_app in H1 by done. injection H1 as H1 _.
  apply (f_equal last) in H1. rewrite last_app in H1. vm_compute in H1. discriminate.
Qed.

Lemma image_with_marker_pinned r i :
  ImageReference_new r = Ok i → contains_str (lit "sha256:") r = true → digest_pinned r.
Proof.
  unfold ImageReference_new. intros H Hc. case_match eqn:E; [done|].
  apply negb_false_iff, orb_true_iff in E as [E|E].
  - destruct (rsplit_once _ r) as [[name d]|] eqn:Hr; [|done].
    apply rsplit_once_Some in Hr as ->. breflect.
    exists (name ++ lit "@"), d. by rewrite <- (assoc_L (++)).
  - apply andb_true_iff in E as [_ [E|E]%orb_true_iff].
    + destruct (strip_prefix (lit "sha256:") r) as [d|] eqn:Hs; [|done].
      apply strip_prefix_spec in Hs as ->. by exists [], d.
    + destruct (strip_prefix (lit "vm-version:") r) as [v|] eqn:Hs; [|done].
      apply strip_prefix_spec in Hs as ->. breflect.
      by rewrite version_has_no_marker in Hc.
Qed.

(** An isolated execution policy is accepted only for a repository target with a
    fresh workspace per job and at least the minimum resources, and on a container backend only with
    an image pinned by a SHA-256 digest: the digest is the end of the reference. *)
Theorem isolated_policy_pinned backend image limits s w :
  ExecutionPolicy_validate (EPIsolated backend image limits) s w = Ok tt →
  s = ScopeRepository ∧ wp_is_persistent w = false ∧
  100 ≤ cpu_millis limits ∧ 256 ≤ memory_mib limits ∧ 1024 ≤ disk_mib limits ∧
  (needs_digest backend = true → digest_pinned (reference image)).
Proof.
  unfold ExecutionPolicy_validate. intros H. case_bool_decide; [done|].
  destruct (wp_is_persistent w); [done|].
  destruct (ResourceLimits_validate limits) eqn:Hl; [|done].
  destruct (ImageReference_new (reference image)) eqn:Hi; [|done].
  unfold ResourceLimits_validate in Hl.
  repeat case_bool_decide; try done. clear Hl.
  do 2 (split; [done|]). split_and!; try lia. intros Hn. rewrite Hn in H. simpl in H.
  eapply image_with_marker_pinned; [exact Hi|]. by destruct (contains_str _ _).
Qed.

Definition example_pinned : ExecutionPolicy :=
  EPIsolated BOci (mk_image (lit "ghcr.io/octo/runner@sha256:0123456789abcdef0123456789abcdef0123456789abcdef0123456789abcdef"))
    (mk_limits 2000 4096 20480).
Lemma isolated_policy_pinned_witness :
  match example_pinned with
  | EPIsolated _ image _ => digest_pinned (reference image)
  | EPNative => False
  end.
Proof.
  apply (isolated_policy_pinned BOci _ (mk_limits 2000 4096 20480) ScopeRepository WEphemeral);
    vm_compute; reflexivity.
Defined.
