(* ===== verification/Attempt.v ===== *)
(** * Runner attempts ([crates/domain/src/attempt.rs], lines 1-1336 and 1860-1893)

    The attempt state machine, its outcomes, the record with every mutating
    method, and the flat shape the journal stores. *)

From stdpp Require Import strings.
From S2P Require Import Prelude RustStr Ordered Model Path Workspace Execution.
#[local] Open Scope Z_scope.
#[local] Open Scope rust_scope.

(** ** States *)

Inductive AttemptState :=
  | Allocated | Preparing | Prepared | JitReceived | Starting | Idle | Busy
  | Finished | Failed | Orphaned | Destroying | CleanupDeferred | Cleaned.
#[global] Instance AttemptState_eq_dec : EqDecision AttemptState.
Proof. solve_decision. Defined.

Definition AttemptState_ALL : list AttemptState :=
  [Allocated; Preparing; Prepared; JitReceived; Starting; Idle; Busy;
   Finished; Failed; Orphaned; Destroying; CleanupDeferred; Cleaned].

Definition AttemptState_LEGAL : list (AttemptState * AttemptState) :=
  [(Allocated, JitReceived); (Allocated, Preparing); (Preparing, Prepared);
   (Prepared, JitReceived); (JitReceived, Starting); (Starting, Idle); (Starting, Busy);
   (Idle, Busy); (Busy, Idle);
   (Allocated, Failed); (Allocated, Orphaned);
   (Preparing, Failed); (Preparing, Orphaned);
   (Prepared, Failed); (Prepared, Orphaned);
   (JitReceived, Failed); (JitReceived, Orphaned);
   (Starting, Failed); (Starting, Orphaned);
   (Idle, Finished); (Idle, Failed); (Idle, Orphaned);
   (Busy, Finished); (Busy, Failed); (Busy, Orphaned);
   (Finished, Cleaned); (Failed, Cleaned); (Orphaned, Cleaned);
   (Finished, Destroying); (Failed, Destroying); (Orphaned, Destroying);
   (Destroying, CleanupDeferred); (CleanupDeferred, Destroying); (Destroying, Cleaned)].

Definition CONCLUDABLE_FROM : list AttemptState :=
  [Allocated; Preparing; Prepared; JitReceived; Starting; Idle; Busy].

Definition can_transition_to (s next : AttemptState) : bool :=
  bool_decide ((s, next) ∈ AttemptState_LEGAL).

Definition is_terminal (s : AttemptState) : bool :=
  match s with
  | Finished | Failed | Orphaned | Destroying | CleanupDeferred | Cleaned => true
  | _ => false
  end.

Definition state_counts_against_capacity (s : AttemptState) : bool := negb (is_terminal s).

Definition is_concluded (s : AttemptState) : bool :=
  match s with Finished | Failed | Orphaned => true | _ => false end.

Definition AttemptState_display (s : AttemptState) : str :=
  match s with
  | Allocated => lit "allocated"
  | Preparing => lit "preparing"
  | Prepared => lit "prepared"
  | JitReceived => lit "jit_received"
  | Starting => lit "starting"
  | Idle => lit "idle"
  | Busy => lit "busy"
  | Finished => lit "finished"
  | Failed => lit "failed"
  | Orphaned => lit "orphaned"
  | Destroying => lit "destroying"
  | CleanupDeferred => lit "cleanup_deferred"
  | Cleaned => lit "cleaned"
  end.

(** ** Outcomes *)

Inductive IsolationProviderFailure :=
  | Unsupported | NotInstalled | PermissionDenied | ImageUnavailableOrIncompatible
  | DiskQuotaUnavailable | Degraded | RuntimeOperationFailed | OwnershipMismatch
  | UnsafeRuntimePath | JitHandoffRejected.
#[global] Instance IsolationProviderFailure_eq_dec : EqDecision IsolationProviderFailure.
Proof. solve_decision. Defined.

Inductive FailureReason :=
  | JitRequestFailed | JitExpired | RunnerPackageUnverified | RunnerVersionRejected
  | ProcessStartFailed | ProcessExitedUnexpectedly | RegistrationTimedOut
  | TerminatedAfterRegistrationTimeout
  | IsolationProvider (category : IsolationProviderFailure)
  | WorkspaceCleanupDeferred | HostUnfit
  | Other (detail : str).
#[global] Instance FailureReason_eq_dec : EqDecision FailureReason.
Proof. solve_decision. Defined.

Inductive AttemptOutcome :=
  | CompletedJob
  | ExitedIdleWithoutWork
  | OutcomeFailed (reason : FailureReason)
  | OutcomeOrphaned.
#[global] Instance AttemptOutcome_eq_dec : EqDecision AttemptOutcome.
Proof. solve_decision. Defined.

Definition terminal_state (o : AttemptOutcome) : AttemptState :=
  match o with
  | CompletedJob | ExitedIdleWithoutWork => Finished
  | OutcomeFailed _ => Failed
  | OutcomeOrphaned => Orphaned
  end.

Definition outcome_is_failure (o : AttemptOutcome) : bool :=
  match o with OutcomeFailed _ | OutcomeOrphaned => true | _ => false end.

Definition is_idle_exit (o : AttemptOutcome) : bool :=
  match o with ExitedIdleWithoutWork => true | _ => false end.

Definition ran_a_job (o : AttemptOutcome) : bool :=
  match o with CompletedJob => true | _ => false end.

Definition required_from (o : AttemptOutcome) : list AttemptState :=
  match o with
  | CompletedJob => [Busy]
  | ExitedIdleWithoutWork => [Idle]
  | OutcomeFailed _ | OutcomeOrphaned => CONCLUDABLE_FROM
  end.

(** ** Errors *)

Inductive AttemptError :=
  | AExecution (e : ExecutionError)
  | AIllegalTransition (from to : AttemptState)
  | AWorkspace (e : WorkspaceError)
  | BusyCannotBeCleaned
  | OutcomeUnreachable (from : AttemptState) (outcome : AttemptOutcome)
  | TerminalWithoutOutcome (state : AttemptState)
  | NonTerminalWithOutcome (state : AttemptState) (outcome : AttemptOutcome)
  | OutcomeStateMismatch (state : AttemptState) (outcome : AttemptOutcome)
  | TerminalWithoutTimestamp (state : AttemptState)
  | NonTerminalWithTimestamp (state : AttemptState)
  | TimestampsOutOfOrder (state : AttemptState) (field : string)
      (created_at found : Timestamp).
#[global] Instance AttemptError_eq_dec : EqDecision AttemptError.
Proof. solve_decision. Defined.

(** ** Attempts *)

(** A [PathBuf]: the units that are not Unicode scalar values stand for the parts
    of an operating-system path that are not valid text. *)
#[global] Abbreviation PathBuf := (list N) (only parsing).

Definition path_to_str (p : PathBuf) : option str :=
  if forallb is_scalar p then Some p else None.

Record RunnerAttempt := mk_attempt {
  a_id : AttemptId;
  a_policy_id : PolicyId;
  github_runner_id : option Z;
  state : AttemptState;
  outcome : option AttemptOutcome;
  process_id : option Z;
  execution : AttemptExecution;
  runtime_path : PathBuf;
  workspace : AttemptWorkspace;
  created_at : Timestamp;
  terminal_at : option Timestamp;
  last_state_change_at : Timestamp;
}.
#[global] Instance RunnerAttempt_eq_dec : EqDecision RunnerAttempt.
Proof. solve_decision. Defined.

Record PersistedAttempt := mk_persisted_attempt {
  pa_id : AttemptId;
  pa_policy_id : PolicyId;
  pa_github_runner_id : option Z;
  pa_state : AttemptState;
  pa_outcome : option AttemptOutcome;
  pa_process_id : option Z;
  pa_execution : AttemptExecution;
  pa_runtime_path : PathBuf;
  pa_workspace_kind : WorkspaceKind;
  pa_workspace_slot : option Z;
  pa_created_at : Timestamp;
  pa_terminal_at : option Timestamp;
  pa_last_state_change_at : Timestamp;
}.
#[global] Instance PersistedAttempt_eq_dec : EqDecision PersistedAttempt.
Proof. solve_decision. Defined.

Definition to_persisted (a : RunnerAttempt) : PersistedAttempt := {|
  pa_id := a_id a;
  pa_policy_id := a_policy_id a;
  pa_github_runner_id := github_runner_id a;
  pa_state := state a;
  pa_outcome := outcome a;
  pa_process_id := process_id a;
  pa_execution := execution a;
  pa_runtime_path := runtime_path a;
  pa_workspace_kind := aw_kind (workspace a);
  pa_workspace_slot := aw_slot_number (workspace a);
  pa_created_at := created_at a;
  pa_terminal_at := terminal_at a;
  pa_last_state_change_at := last_state_change_at a;
|}.

Definition allocate_in (id : AttemptId) (policy_id : PolicyId) (path : PathBuf)
    (w : AttemptWorkspace) (now : Timestamp) : RunnerAttempt := {|
  a_id := id;
  a_policy_id := policy_id;
  github_runner_id := None;
  state := Allocated;
  outcome := None;
  process_id := None;
  execution := Native None;
  runtime_path := path;
  workspace := w;
  created_at := now;
  terminal_at := None;
  last_state_change_at := now;
|}.

Definition allocate (id : AttemptId) (policy_id : PolicyId) (path : PathBuf)
    (now : Timestamp) : RunnerAttempt :=
  allocate_in id policy_id path AEphemeral now.

(** The checks of [from_persisted] after the workspace is rebuilt, in order. *)

Definition check_identity (f : PersistedAttempt) : result () AttemptError :=
  match pa_execution f with
  | Native identity_pid =>
      if bool_decide (identity_pid = pa_process_id f) then Ok tt
      else Err (AExecution AttemptIdentityMismatch)
  | Isolated _ _ _ _ =>
      if bool_decide (pa_process_id f = None) then Ok tt
      else Err (AExecution AttemptIdentityMismatch)
  end.

Definition check_outcome (f : PersistedAttempt) : result () AttemptError :=
  let s := pa_state f in
  match pa_outcome f, is_terminal s with
  | None, true => Err (TerminalWithoutOutcome s)
  | Some o, false => Err (NonTerminalWithOutcome s o)
  | Some o, true =>
      let expected := terminal_state o in
      let allowed_isolated_cleanup :=
        negb (is_native (pa_execution f)) && bool_decide (s ∈ [Destroying; CleanupDeferred]) in
      if negb (bool_decide (s ∈ [expected; Cleaned])) && negb allowed_isolated_cleanup
      then Err (OutcomeStateMismatch s o) else Ok tt
  | None, false => Ok tt
  end.

Definition check_terminal_at (f : PersistedAttempt) : result () AttemptError :=
  match pa_terminal_at f, is_terminal (pa_state f) with
  | None, true => Err (TerminalWithoutTimestamp (pa_state f))
  | Some _, false => Err (NonTerminalWithTimestamp (pa_state f))
  | _, _ => Ok tt
  end.

Definition lacks_environment (e : AttemptExecution) : bool :=
  match e with Isolated _ None _ _ => true | _ => false end.

Definition check_isolation (f : PersistedAttempt) : result () AttemptError :=
  let s := pa_state f in
  if bool_decide (s ∈ [Preparing; Prepared; Destroying; CleanupDeferred])
     && is_native (pa_execution f)
  then Err (AExecution AttemptIdentityMismatch)
  else if bool_decide (s ∈ [Prepared; JitReceived; Starting; Idle; Busy])
          && lacks_environment (pa_execution f)
  then Err (AExecution AttemptIdentityMismatch)
  else Ok tt.

Definition check_timestamps (f : PersistedAttempt) : result () AttemptError :=
  let s := pa_state f in
  let created := pa_created_at f in
  if bool_decide (pa_last_state_change_at f < created)
  then Err (TimestampsOutOfOrder s "last_state_change_at" created (pa_last_state_change_at f))
  else match pa_terminal_at f with
  | Some t =>
      if bool_decide (t < created)
      then Err (TimestampsOutOfOrder s "terminal_at" created t) else Ok tt
  | None => Ok tt
  end.

Definition from_persisted (f : PersistedAttempt) : result RunnerAttempt AttemptError :=
  let? w := map_err AWorkspace (aw_from_persisted (pa_workspace_kind f) (pa_workspace_slot f)) in
  let? _ := map_err AExecution (AttemptExecution_validate (pa_execution f)) in
  let? _ := check_identity f in
  let? _ := check_outcome f in
  let? _ := check_terminal_at f in
  let? _ := check_isolation f in
  let? _ := check_timestamps f in
  Ok {| a_id := pa_id f;
        a_policy_id := pa_policy_id f;
        github_runner_id := pa_github_runner_id f;
        state := pa_state f;
        outcome := pa_outcome f;
        process_id := pa_process_id f;
        execution := pa_execution f;
        runtime_path := pa_runtime_path f;
        workspace := w;
        created_at := pa_created_at f;
        terminal_at := pa_terminal_at f;
        last_state_change_at := pa_last_state_change_at f |}.

(** ** Reading *)

Definition holds_slot_lease (a : RunnerAttempt) : bool :=
  aw_is_persistent (workspace a) && negb (bool_decide (state a = Cleaned)).

Definition counts_against_capacity (a : RunnerAttempt) : bool :=
  state_counts_against_capacity (state a)
  || (negb (is_native (execution a)) && negb (bool_decide (state a = Cleaned))).

Definition active_count (attempts : list RunnerAttempt) : Z :=
  sat_count U16_MAX (List.filter counts_against_capacity attempts).

Definition active_count_for (policy_id : PolicyId) (attempts : list RunnerAttempt) : Z :=
  sat_count U16_MAX
    (List.filter (λ a, bool_decide (a_policy_id a = policy_id) && counts_against_capacity a)
       attempts).

(** ** Mutating methods *)

Definition set_state (s : AttemptState) (now : Timestamp) (a : RunnerAttempt) : RunnerAttempt :=
  {| a_id := a_id a; a_policy_id := a_policy_id a; github_runner_id := github_runner_id a;
     state := s; outcome := outcome a; process_id := process_id a; execution := execution a;
     runtime_path := runtime_path a; workspace := workspace a; created_at := created_at a;
     terminal_at := terminal_at a; last_state_change_at := now |}.

Definition set_execution (pid : option Z) (e : AttemptExecution) (a : RunnerAttempt)
    : RunnerAttempt :=
  {| a_id := a_id a; a_policy_id := a_policy_id a; github_runner_id := github_runner_id a;
     state := state a; outcome := outcome a; process_id := pid; execution := e;
     runtime_path := runtime_path a; workspace := workspace a; created_at := created_at a;
     terminal_at := terminal_at a; last_state_change_at := last_state_change_at a |}.

Definition set_github_runner_id (id : option Z) (a : RunnerAttempt) : RunnerAttempt :=
  {| a_id := a_id a; a_policy_id := a_policy_id a; github_runner_id := id;
     state := state a; outcome := outcome a; process_id := process_id a;
     execution := execution a; runtime_path := runtime_path a; workspace := workspace a;
     created_at := created_at a; terminal_at := terminal_at a;
     last_state_change_at := last_state_change_at a |}.

Definition set_conclusion (o : AttemptOutcome) (now : Timestamp) (a : RunnerAttempt)
    : RunnerAttempt :=
  {| a_id := a_id a; a_policy_id := a_policy_id a; github_runner_id := github_runner_id a;
     state := state a; outcome := Some o; process_id := process_id a;
     execution := execution a; runtime_path := runtime_path a; workspace := workspace a;
     created_at := created_at a; terminal_at := Some now;
     last_state_change_at := last_state_change_at a |}.

Definition attempt_method := method RunnerAttempt () AttemptError.

Definition mismatch : AttemptError := AExecution AttemptIdentityMismatch.

Definition has_environment (e : AttemptExecution) : bool :=
  match e with Isolated _ (Some _) _ _ => true | _ => false end.

Definition move_to (next : AttemptState) (now : Timestamp) : attempt_method := λ a,
  if negb (can_transition_to (state a) next)
  then (a, Err (AIllegalTransition (state a) next))
  else (set_state next now a, Ok tt).

Definition allocate_execution (e : AttemptExecution) : attempt_method := λ a,
  (if bool_decide (state a ≠ Allocated) || bool_decide (is_Some (process_id a))
   then st_fail mismatch
   else
     st_lift (map_err AExecution (AttemptExecution_validate e)) ;;?
     st_guard (match e with Native (Some _) => false | _ => true end) mismatch ;;?
     st_modify (set_execution (process_id a) e)) a.

Definition prepared_environment (id : str) : attempt_method := λ a,
  if negb (bool_decide (state a ∈
       [Allocated; Preparing; Failed; Orphaned; Destroying; CleanupDeferred]))
  then (a, Err mismatch)
  else match execution a with
  | Native _ => (a, Err mismatch)
  | Isolated provider stored image generation =>
      if bool_decide (is_Some stored) then (a, Err mismatch)
      else
        let a' := set_execution (process_id a) (Isolated provider (Some id) image generation) a in
        match AttemptExecution_validate (execution a') with
        | Err error =>
            (set_execution (process_id a') (Isolated provider None image generation) a',
             Err (AExecution error))
        | Ok _ => (a', Ok tt)
        end
  end.

Definition begin_prepare (now : Timestamp) : attempt_method := λ a,
  (st_guard (negb (is_native (execution a))) mismatch ;;? move_to Preparing now) a.

Definition mark_prepared (now : Timestamp) : attempt_method := λ a,
  (st_guard (has_environment (execution a)) mismatch ;;? move_to Prepared now) a.

Definition jit_received (now : Timestamp) : attempt_method := move_to JitReceived now.

Definition started (pid : Z) (now : Timestamp) : attempt_method := λ a,
  (st_guard (is_native (execution a)) mismatch ;;?
   move_to Starting now ;;?
   st_modify (set_execution (Some pid) (Native (Some pid)))) a.

Definition started_isolated (now : Timestamp) : attempt_method := λ a,
  (st_guard (has_environment (execution a)) mismatch ;;? move_to Starting now) a.

Definition registered_idle (runner_id : Z) (now : Timestamp) : attempt_method :=
  move_to Idle now ;;? st_modify (set_github_runner_id (Some runner_id)).

Definition assigned_job (runner_id : Z) (now : Timestamp) : attempt_method :=
  move_to Busy now ;;? st_modify (set_github_runner_id (Some runner_id)).

Definition assignment_not_taken (now : Timestamp) : attempt_method := λ a,
  (st_guard (bool_decide (state a = Busy)) (AIllegalTransition (state a) Idle) ;;?
   move_to Idle now) a.

Definition conclude (o : AttemptOutcome) (now : Timestamp) : attempt_method := λ a,
  (st_guard (bool_decide (state a ∈ required_from o)) (OutcomeUnreachable (state a) o) ;;?
   move_to (terminal_state o) now ;;?
   st_modify (set_conclusion o now)) a.

Definition clean (now : Timestamp) : attempt_method := λ a,
  (st_guard (bool_decide (state a ≠ Busy)) BusyCannotBeCleaned ;;?
   st_guard (is_native (execution a)) (AExecution IsolatedCleanupUnproven) ;;?
   st_guard (is_concluded (state a)) (AIllegalTransition (state a) Cleaned) ;;?
   move_to Cleaned now) a.

Definition begin_destroy (now : Timestamp) : attempt_method := λ a,
  (st_guard (negb (is_native (execution a)) && bool_decide (is_Some (outcome a))) mismatch ;;?
   move_to Destroying now) a.

Definition defer_cleanup (now : Timestamp) : attempt_method := λ a,
  (st_guard (negb (is_native (execution a))) mismatch ;;? move_to CleanupDeferred now) a.

Definition clean_isolated (now : Timestamp) : attempt_method := λ a,
  (st_guard (negb (is_native (execution a))) mismatch ;;? move_to Cleaned now) a.

(** ** The attempt as a transition system

    One constructor per public mutating method. *)

Inductive attempt_op :=
  | OpAllocateExecution (e : AttemptExecution)
  | OpPreparedEnvironment (id : str)
  | OpBeginPrepare
  | OpMarkPrepared
  | OpJitReceived
  | OpStarted (pid : Z)
  | OpStartedIsolated
  | OpRegisteredIdle (runner_id : Z)
  | OpAssignedJob (runner_id : Z)
  | OpAssignmentNotTaken
  | OpConclude (o : AttemptOutcome)
  | OpClean
  | OpBeginDestroy
  | OpDeferCleanup
  | OpCleanIsolated.

Definition apply_op (op : attempt_op) (now : Timestamp) : attempt_method :=
  match op with
  | OpAllocateExecution e => allocate_execution e
  | OpPreparedEnvironment id => prepared_environment id
  | OpBeginPrepare => begin_prepare now
  | OpMarkPrepared => mark_prepared now
  | OpJitReceived => jit_received now
  | OpStarted pid => started pid now
  | OpStartedIsolated => started_isolated now
  | OpRegisteredIdle id => registered_idle id now
  | OpAssignedJob id => assigned_job id now
  | OpAssignmentNotTaken => assignment_not_taken now
  | OpConclude o => conclude o now
  | OpClean => clean now
  | OpBeginDestroy => begin_destroy now
  | OpDeferCleanup => defer_cleanup now
  | OpCleanIsolated => clean_isolated now
  end.

(** One accepted call, at any clock reading. *)
Inductive attempt_step (a : RunnerAttempt) (op : attempt_op) (a' : RunnerAttempt) : Prop :=
  | attempt_step_intro now : apply_op op now a = (a', Ok tt) → attempt_step a op a'.

(** Calls in sequence, each with its clock reading; the first refusal ends it. *)
Fixpoint run (ops : list (attempt_op * Timestamp)) : attempt_method :=
  match ops with
  | [] => st_ret tt
  | (op, now) :: ops => apply_op op now ;;? run ops
  end.

(** The attempts the program can hold: allocated, then changed by accepted calls. *)
Inductive reachable : RunnerAttempt → Prop :=
  | reachable_allocate id policy_id path w now :
      valid_aw w → reachable (allocate_in id policy_id path w now)
  | reachable_step a op a' : reachable a → attempt_step a op a' → reachable a'.

(** ** The invariant *)

Record attempt_inv (a : RunnerAttempt) : Prop := {
  inv_workspace : valid_aw (workspace a);
  inv_execution : AttemptExecution_validate (execution a) = Ok tt;
  inv_identity :
    process_id a = match execution a with Native pid => pid | Isolated _ _ _ _ => None end;
  inv_outcome :
    match outcome a with
    | None => is_terminal (state a) = false
    | Some o =>
        state a = terminal_state o ∨ state a = Cleaned ∨
        is_native (execution a) = false ∧ state a ∈ [Destroying; CleanupDeferred]
    end;
  inv_terminal_at : is_Some (terminal_at a) ↔ is_terminal (state a) = true;
  inv_isolated :
    state a ∈ [Preparing; Prepared; Destroying; CleanupDeferred] →
    is_native (execution a) = false;
  inv_environment :
    state a ∈ [Prepared; Starting; Idle; Busy] → lacks_environment (execution a) = false;
}.

Ltac aunfold :=
  unfold apply_op, allocate_execution, prepared_environment, begin_prepare, mark_prepared,
    jit_received, started, started_isolated, registered_idle, assigned_job,
    assignment_not_taken, conclude, clean, begin_destroy, defer_cleanup, clean_isolated,
    move_to in *.

(** A refused call leaves the attempt exactly as it was. *)
Lemma apply_op_error op now a a' e : apply_op op now a = (a', Err e) → a' = a.
Proof.
  intros H. destruct op; aunfold; mcases; try done.
  breflect. destruct a; simpl in *; subst. unfold set_execution. simpl. f_equal.
  destruct environment_id; [|done]. exfalso. eauto.
Qed.

(** An accepted [move_to] follows one edge of the diagram. *)
Lemma move_to_ok next now a a' :
  move_to next now a = (a', Ok tt) ↔
  can_transition_to (state a) next = true ∧ a' = set_state next now a.
Proof.
  unfold move_to. destruct (can_transition_to (state a) next); naive_solver.
Qed.

(** Split membership in a known list of states. *)
Ltac states :=
  repeat match goal with
  | H : _ ∈ _ :: _ |- _ => apply elem_of_cons in H as [H|H]
  | H : _ ∈ [] |- _ => by apply not_elem_of_nil in H
  end; try discriminate.
Ltac state_in := repeat (first [by left | right]).

Lemma attempt_inv_allocate id policy_id path w now :
  valid_aw w → attempt_inv (allocate_in id policy_id path w now).
Proof.
  intros Hw. split; simpl; try done; intros; states.
Qed.

Ltac accepted_hook ::=
  match goal with
  | H : move_to _ _ _ = (_, Ok ?u) |- _ => destruct u; apply move_to_ok in H as [? ?]
  | H : move_to _ _ _ = (_, Ok tt) |- _ => apply move_to_ok in H as [? ?]
  end.

(** *** Edges of the diagram *)

Lemma legal_from_live s t :
  can_transition_to s t = true → is_terminal t = false → is_terminal s = false.
Proof. by destruct s, t. Qed.

Lemma legal_into_cleanup s t :
  can_transition_to s t = true → t ∈ [Destroying; CleanupDeferred; Cleaned] →
  is_terminal s = true.
Proof. intros Hl Ht. destruct s, t; try done; states. Qed.

Lemma concludable s : s ∈ CONCLUDABLE_FROM ↔ is_terminal s = false.
Proof.
  split; [intros Hs; unfold CONCLUDABLE_FROM in Hs; states; by subst|].
  unfold CONCLUDABLE_FROM. destruct s; try done; intros; state_in.
Qed.

Lemma required_from_live s o : s ∈ required_from o → is_terminal s = false.
Proof. intros Hs. destruct o; simpl in Hs; try (by apply concludable); states; by subst. Qed.

Lemma terminal_state_terminal o : is_terminal (terminal_state o) = true.
Proof. by destruct o. Qed.

(** *** How each kind of change keeps the invariant *)

Lemma inv_live_outcome a : attempt_inv a → is_terminal (state a) = false → outcome a = None.
Proof.
  intros [_ _ _ Hout _ _ _] Hs. destruct (outcome a) as [o|]; [|done].
  destruct Hout as [E|[E|[_ E]]]; states; rewrite E in Hs; try done.
  by rewrite terminal_state_terminal in Hs.
Qed.

Lemma attempt_inv_move next now a :
  attempt_inv a → can_transition_to (state a) next = true → is_terminal next = false →
  (next ∈ [Preparing; Prepared; Destroying; CleanupDeferred] →
   is_native (execution a) = false) →
  (next ∈ [Prepared; Starting; Idle; Busy] → lacks_environment (execution a) = false) →
  attempt_inv (set_state next now a).
Proof.
  intros Hinv Hl Hn Hi He. pose proof (legal_from_live _ _ Hl Hn) as Hs.
  pose proof (inv_live_outcome _ Hinv Hs) as Ho.
  destruct Hinv as [Hw Hex Hid Hout Hterm Hiso Henv]. split; simpl; try done.
  - by rewrite Ho.
  - by rewrite Hterm, Hs, Hn.
Qed.

Lemma attempt_inv_cleanup next now a :
  attempt_inv a → can_transition_to (state a) next = true →
  next ∈ [Destroying; CleanupDeferred; Cleaned] →
  (next ≠ Cleaned → is_native (execution a) = false) →
  attempt_inv (set_state next now a).
Proof.
  intros [Hw Hex Hid Hout Hterm Hiso Henv] Hl Hn Hi.
  pose proof (legal_into_cleanup _ _ Hl Hn) as Hs. split; simpl; try done.
  - destruct (outcome a) as [o|]; [|congruence].
    states; subst; [right; right..|by right; left]; split; eauto; state_in.
  - rewrite Hterm, Hs. by states; subst.
  - intros Hn'. apply Hi. intros ->. states.
  - intros Hn'. exfalso. states; subst; states.
Qed.

Lemma attempt_inv_conclude o now a :
  attempt_inv a → is_terminal (state a) = false →
  attempt_inv (set_conclusion o now (set_state (terminal_state o) now a)).
Proof.
  intros [Hw Hex Hid Hout Hterm Hiso Henv] Hs. split; simpl; try done.
  - by left.
  - rewrite terminal_state_terminal. naive_solver.
  - intros Hn. destruct o; simpl in Hn; states.
  - intros Hn. destruct o; simpl in Hn; states.
Qed.

Lemma attempt_inv_runner id a : attempt_inv a → attempt_inv (set_github_runner_id id a).
Proof. by intros []. Qed.

Lemma attempt_inv_execution e a :
  attempt_inv a → AttemptExecution_validate e = Ok tt →
  match e with Native pid => pid = None ∧ process_id a = None | _ => process_id a = None end →
  state a = Allocated ∨
    is_native e = is_native (execution a) ∧ lacks_environment e = false →
  attempt_inv (set_execution (process_id a) e a).
Proof.
  intros [Hw Hex Hid Hout Hterm Hiso Henv] He Hp Hn. split; simpl; try done.
  - destruct e; naive_solver.
  - destruct (outcome a) as [o|]; [|done].
    destruct Hn as [Hn|[-> _]]; [|done]. rewrite Hn in *.
    destruct Hout as [E|[E|[_ E]]]; [by destruct o|done|states].
  - intros Hs. destruct Hn as [Hn|[-> _]]; [|by apply Hiso]. rewrite Hn in Hs. states.
  - intros Hs. destruct Hn as [Hn|[_ ->]]; [|done]. rewrite Hn in Hs. states.
Qed.

Lemma attempt_inv_started pid a :
  attempt_inv a → is_native (execution a) = true →
  attempt_inv (set_execution (Some pid) (Native (Some pid)) a).
Proof.
  intros [Hw Hex Hid Hout Hterm Hiso Henv] Hn. split; simpl; try done.
  - destruct (outcome a) as [o|]; [|done]. rewrite Hn in Hout. naive_solver.
  - intros Hs. apply Hiso in Hs. congruence.
Qed.

Lemma has_environment_facts e :
  has_environment e = true → is_native e = false ∧ lacks_environment e = false.
Proof. by destruct e as [|? [|] ? ?]. Qed.

Lemma native_has_environment e : is_native e = true → lacks_environment e = false.
Proof. by destruct e. Qed.

#[export] Hint Resolve attempt_inv_runner attempt_inv_conclude attempt_inv_started
  required_from_live : rust.

(** *** Inversion of the two calls that are not built from guards and moves *)

Lemma allocate_execution_ok e a a' :
  allocate_execution e a = (a', Ok tt) →
  state a = Allocated ∧ process_id a = None ∧ AttemptExecution_validate e = Ok tt ∧
  match e with Native (Some _) => false | _ => true end = true ∧
  a' = set_execution (process_id a) e a.
Proof.
  unfold allocate_execution. intros H. case_match eqn:G; [done|]. breflect.
  accepted. destruct x0. split_and!; try done.
  - by apply dec_stable.
  - destruct (process_id a); [|done]. exfalso. naive_solver.
Qed.

Lemma prepared_environment_ok id a a' :
  prepared_environment id a = (a', Ok tt) →
  state a ∈ [Allocated; Preparing; Failed; Orphaned; Destroying; CleanupDeferred] ∧
  ∃ provider image generation,
    execution a = Isolated provider None image generation ∧
    AttemptExecution_validate (Isolated provider (Some id) image generation) = Ok tt ∧
    a' = set_execution (process_id a) (Isolated provider (Some id) image generation) a.
Proof.
  unfold prepared_environment. intros H. cases. breflect. split; [done|].
  destruct environment_id; [exfalso; naive_solver|]. destruct a0. eauto 10.
Qed.

(** Every accepted call preserves the invariant. *)
Lemma attempt_inv_step a op a' : attempt_inv a → attempt_step a op a' → attempt_inv a'.
Proof.
  intros Hinv [now H]. pose proof Hinv as [Hw Hex Hid Hout Hterm Hiso Henv].
  destruct op; cbn [apply_op] in H.
  - apply allocate_execution_ok in H as (Hs & Hp & He & Hg & ->).
    apply attempt_inv_execution; auto. by destruct e as [[|]|].
  - apply prepared_environment_ok in H as (Hs & k & i & g & He & Hv & ->).
    rewrite He in Hid.
    apply attempt_inv_execution; auto. right. by rewrite He.
  - unfold begin_prepare in H. accepted.
    apply attempt_inv_move; auto. intros; states.
  - unfold mark_prepared in H. accepted. apply has_environment_facts in H as [??].
    apply attempt_inv_move; auto.
  - unfold jit_received in H. accepted. apply attempt_inv_move; auto; intros; states.
  - unfold started in H. accepted. apply attempt_inv_started; [|done].
    apply attempt_inv_move; auto; intros; [states|by apply native_has_environment].
  - unfold started_isolated in H. accepted. apply has_environment_facts in H as [??].
    apply attempt_inv_move; auto.
  - unfold registered_idle in H. accepted. apply attempt_inv_runner, attempt_inv_move; auto.
    + intros; states.
    + intros _. destruct (state a); try done; apply Henv; state_in.
  - unfold assigned_job in H. accepted. apply attempt_inv_runner, attempt_inv_move; auto.
    + intros; states.
    + intros _. destruct (state a); try done; apply Henv; state_in.
  - unfold assignment_not_taken in H. accepted. apply attempt_inv_move; auto.
    + intros; states.
    + intros _. rewrite H in Henv. apply Henv. state_in.
  - unfold conclude in H. accepted. eauto with rust.
  - unfold clean in H. accepted. apply attempt_inv_cleanup; auto; [state_in|done].
  - unfold begin_destroy in H. accepted. apply attempt_inv_cleanup; auto. state_in.
  - unfold defer_cleanup in H. accepted. apply attempt_inv_cleanup; auto. state_in.
  - unfold clean_isolated in H. accepted. apply attempt_inv_cleanup; auto; state_in.
Qed.

Lemma reachable_inv a : reachable a → attempt_inv a.
Proof.
  induction 1; [by apply attempt_inv_allocate | by eapply attempt_inv_step].
Qed.

(** *** Loading from the journal *)

(** What a stored attempt has beyond the invariant: an isolated attempt that was
    handed its JIT configuration has an environment, and the three instants are in
    order. *)
Record loadable (a : RunnerAttempt) : Prop := {
  load_inv : attempt_inv a;
  load_environment : state a = JitReceived → lacks_environment (execution a) = false;
  load_changed : created_at a ≤ last_state_change_at a;
  load_terminal : ∀ t, terminal_at a = Some t → created_at a ≤ t;
}.

Lemma check_identity_ok f :
  check_identity f = Ok tt ↔
  pa_process_id f =
    match pa_execution f with Native pid => pid | Isolated _ _ _ _ => None end.
Proof. unfold check_identity. repeat case_match; breflect; naive_solver. Qed.

Lemma check_outcome_ok f :
  check_outcome f = Ok tt ↔
  match pa_outcome f with
  | None => is_terminal (pa_state f) = false
  | Some o =>
      pa_state f = terminal_state o ∨ pa_state f = Cleaned ∨
      is_native (pa_execution f) = false ∧ pa_state f ∈ [Destroying; CleanupDeferred]
  end.
Proof.
  unfold check_outcome. destruct (pa_outcome f) as [o|]; [|by destruct (is_terminal _)].
  destruct (is_terminal (pa_state f)) eqn:Ht.
  - assert (pa_state f ∈ [terminal_state o; Cleaned] ↔
            pa_state f = terminal_state o ∨ pa_state f = Cleaned) as Hin by set_solver.
    repeat case_bool_decide; destruct (is_native (pa_execution f)); naive_solver.
  - split; [done|]. intros H. exfalso. destruct H as [E|[E|[_ E]]].
    + by rewrite E, terminal_state_terminal in Ht.
    + by rewrite E in Ht.
    + states; by rewrite E in Ht.
Qed.

Lemma check_terminal_at_ok f :
  check_terminal_at f = Ok tt ↔
  (is_Some (pa_terminal_at f) ↔ is_terminal (pa_state f) = true).
Proof.
  unfold check_terminal_at. rewrite is_Some_alt.
  destruct (pa_terminal_at f), (is_terminal (pa_state f)); naive_solver.
Qed.

Lemma check_isolation_ok f :
  check_isolation f = Ok tt ↔
  (pa_state f ∈ [Preparing; Prepared; Destroying; CleanupDeferred] →
   is_native (pa_execution f) = false) ∧
  (pa_state f ∈ [Prepared; JitReceived; Starting; Idle; Busy] →
   lacks_environment (pa_execution f) = false).
Proof.
  unfold check_isolation. case_bool_decide; case_bool_decide;
    destruct (is_native (pa_execution f)), (lacks_environment (pa_execution f)); naive_solver.
Qed.

Lemma check_timestamps_ok f :
  check_timestamps f = Ok tt ↔
  pa_created_at f ≤ pa_last_state_change_at f ∧
  ∀ t, pa_terminal_at f = Some t → pa_created_at f ≤ t.
Proof.
  unfold check_timestamps. case_bool_decide; [split; [done|lia]|].
  destruct (pa_terminal_at f) as [t|]; [case_bool_decide|].
  - split; [done|]. intros [_ Ht]. specialize (Ht t eq_refl). lia.
  - split; [|done]. intros _. split; [lia|]. intros ? [= <-]. lia.
  - split; [|done]. intros _. split; [lia|done].
Qed.

(** The slot column is a [u16]. *)
Definition persisted_typed (f : PersistedAttempt) : Prop :=
  ∀ s, pa_workspace_slot f = Some s → in_u16 s.

Lemma from_persisted_fields f a : from_persisted f = Ok a → persisted_typed f → to_persisted a = f.
Proof.
  intros H Ht. unfold from_persisted in H. cases.
  rename select (map_err AWorkspace _ = _) into Hw.
  apply map_err_ok, aw_from_persisted_ok in Hw as (_ & Hk & Hs); [|done].
  unfold to_persisted. simpl. rewrite Hk, Hs. by destruct f.
Qed.

Lemma loadable_checks a :
  loadable a ↔
  valid_aw (workspace a) ∧
  AttemptExecution_validate (execution a) = Ok tt ∧
  check_identity (to_persisted a) = Ok tt ∧
  check_outcome (to_persisted a) = Ok tt ∧
  check_terminal_at (to_persisted a) = Ok tt ∧
  check_isolation (to_persisted a) = Ok tt ∧
  check_timestamps (to_persisted a) = Ok tt.
Proof.
  rewrite check_identity_ok, check_outcome_ok, check_terminal_at_ok, check_isolation_ok,
    check_timestamps_ok. simpl. split.
  - intros [[Hw Hex Hid Hout Hterm Hiso Henv] Hjit Hch Hte]. split_and!; try done.
    intros Hs. states; [|by apply Hjit|..]; apply Henv; rewrite Hs; state_in.
  - intros (Hw & Hex & Hid & Hout & Hterm & [Hiso Henv] & Hch & Hte). split; [|intros E|..]; try done.
    + split; try done. intros Hs. apply Henv. states; rewrite Hs; state_in.
    + apply Henv. rewrite E. state_in.
Qed.

Lemma from_persisted_to_persisted a : loadable a → from_persisted (to_persisted a) = Ok a.
Proof.
  intros (Hw & Hex & Hid & Hout & Hterm & Hiso & Hts)%loadable_checks.
  unfold from_persisted. rewrite Hid, Hout, Hterm, Hiso, Hts. simpl.
  rewrite (aw_roundtrip _ Hw), Hex. simpl. by destruct a.
Qed.

Lemma from_persisted_loadable f a :
  from_persisted f = Ok a → persisted_typed f → loadable a.
Proof.
  intros H Ht. pose proof (from_persisted_fields _ _ H Ht) as Hf.
  apply loadable_checks. rewrite Hf. unfold from_persisted in H.
  cases. repeat match goal with x : () |- _ => destruct x end.
  split_and!; try done.
  - rename select (map_err AWorkspace _ = _) into Hw.
    apply map_err_ok, aw_from_persisted_ok in Hw as [? _]; [|done].
    by rewrite <- H.
  - by rename select (map_err AExecution _ = _) into He; apply map_err_ok in He.
Qed.

(** *** What one call changes *)

Definition same_identity (a b : RunnerAttempt) : Prop :=
  a_id a = a_id b ∧ a_policy_id a = a_policy_id b ∧ runtime_path a = runtime_path b ∧
  workspace a = workspace b ∧ created_at a = created_at b.

#[global] Instance same_identity_equiv : Equivalence same_identity.
Proof. split; repeat intros ?; unfold same_identity in *; intuition congruence. Qed.

Definition keeps_state (op : attempt_op) : bool :=
  match op with OpAllocateExecution _ | OpPreparedEnvironment _ => true | _ => false end.

Lemma apply_op_identity op now a a' r : apply_op op now a = (a', r) → same_identity a' a.
Proof.
  intros H. destruct r as [[]|e]; [|by apply apply_op_error in H as ->].
  destruct op; cbn [apply_op] in H;
    first [apply allocate_execution_ok in H as (_&_&_&_&->)
          |apply prepared_environment_ok in H as (_&?&?&?&_&_&->)
          |aunfold; mcases]; by unfold same_identity.
Qed.

Lemma apply_op_edge op now a a' :
  apply_op op now a = (a', Ok tt) →
  if keeps_state op
  then state a' = state a ∧ last_state_change_at a' = last_state_change_at a
  else can_transition_to (state a) (state a') = true ∧ last_state_change_at a' = now.
Proof.
  intros H. destruct op; cbn [apply_op keeps_state] in *;
    first [apply allocate_execution_ok in H as (_&_&_&_&->)
          |apply prepared_environment_ok in H as (_&?&?&?&_&_&->)
          |aunfold; mcases]; breflect; done.
Qed.

(** A process exists only from [Starting] on. *)
Definition not_started (s : AttemptState) : bool :=
  match s with Allocated | Preparing | Prepared | JitReceived => true | _ => false end.

Lemma legal_not_started s t :
  can_transition_to s t = true → not_started t = true → not_started s = true.
Proof. by destruct s, t. Qed.

Lemma reachable_no_process a :
  reachable a → not_started (state a) = true → process_id a = None.
Proof.
  induction 1 as [|a op a' Ha IH Hs]; [done|]. destruct Hs as [now H].
  destruct op; cbn [apply_op] in H;
    first [apply allocate_execution_ok in H as (_&_&_&_&->); by apply IH
          |apply prepared_environment_ok in H as (_&?&?&?&_&_&->); by apply IH
          |aunfold; mcases; breflect; intros Hn; try done;
           eauto using legal_not_started ].
Qed.

(** Every call that is not [allocate_execution] only advances the identity of what
    runs the attempt. *)
Lemma apply_op_advances op now a a' :
  reachable a → apply_op op now a = (a', Ok tt) →
  match op with OpAllocateExecution _ => false | _ => true end = true →
  can_advance_to (execution a) (execution a') = true.
Proof.
  intros Ha H Hop. pose proof (inv_identity _ (reachable_inv _ Ha)) as Hid.
  destruct op; try done; cbn [apply_op] in H;
    try (clear Hid; aunfold; mcases; apply can_advance_refl).
  - apply prepared_environment_ok in H as (_&k&i&g&He&_&->). simpl. rewrite He. simpl.
    by rewrite !bool_decide_eq_true_2 by done.
  - unfold started in H. accepted. pose proof (reachable_no_process _ Ha) as Hp.
    destruct (execution a) as [p|]; [|done]. rewrite <- Hid, Hp; [reflexivity|].
    by destruct (state a).
Qed.

(** Only [allocate_execution] chooses between a process and a container. *)
Lemma apply_op_kind op now a a' :
  apply_op op now a = (a', Ok tt) →
  match op with OpAllocateExecution _ => false | _ => true end = true →
  is_native (execution a') = is_native (execution a).
Proof.
  intros H Hop. destruct op; try done; cbn [apply_op] in H;
    first [apply prepared_environment_ok in H as (_&k&i&g&He&_&->); simpl; by rewrite He
          |unfold started in H; accepted; by destruct (execution a)
          |aunfold; mcases; done].
Qed.

(** An attempt that has given its capacity back never takes it again. *)
Lemma apply_op_counts op now a a' :
  apply_op op now a = (a', Ok tt) → counts_against_capacity a' = true →
  counts_against_capacity a = true.
Proof.
  intros H. pose proof (apply_op_edge _ _ _ _ H) as He.
  destruct (keeps_state op) eqn:Hk.
  - destruct He as [Hs _]. unfold counts_against_capacity. rewrite Hs. destruct op; try done.
    + cbn [apply_op] in H. apply allocate_execution_ok in H as (Hs'&_). rewrite Hs'. done.
    + rewrite (apply_op_kind _ _ _ _ H eq_refl). done.
  - destruct He as [He _]. assert (is_native (execution a') = is_native (execution a)) as Hn.
    { apply (apply_op_kind _ _ _ _ H). by destruct op. }
    unfold counts_against_capacity. rewrite Hn. destruct (is_native (execution a)) eqn:En; simpl.
    + rewrite !orb_false_r. clear H. by destruct (state a), (state a').
    + intros _. clear H. by destruct (state a), (state a').
Qed.

(** Calls that end neither the attempt nor its cleanup keep it counted. *)
Definition ends (op : attempt_op) : bool :=
  match op with OpConclude _ | OpClean | OpCleanIsolated => true | _ => false end.
Lemma apply_op_keeps_counting op now a a' :
  apply_op op now a = (a', Ok tt) → ends op = false → counts_against_capacity a = true →
  counts_against_capacity a' = true.
Proof.
  intros H Hop. unfold counts_against_capacity. destruct op; try done; cbn [apply_op] in H;
    first [apply allocate_execution_ok in H as (Hs&_&_&_&->); simpl; by rewrite Hs
          |apply prepared_environment_ok in H as (_&k&i&g&He&_&->); simpl; by rewrite He
          |aunfold; mcases; breflect; try done;
           destruct (state a), (execution a); done].
Qed.

(** *** Runs *)

Lemma run_cons op now ops a b :
  run ((op, now) :: ops) a = (b, Ok tt) ↔
  ∃ a', apply_op op now a = (a', Ok tt) ∧ run ops a' = (b, Ok tt).
Proof. simpl. rewrite st_bind_ok. split; [intros (a' & [] & ? & ?)|intros (a' & ? & ?)]; eauto. Qed.

Lemma run_ind (P : RunnerAttempt → Prop) :
  (∀ a op now a', P a → apply_op op now a = (a', Ok tt) → P a') →
  ∀ ops a b, P a → run ops a = (b, Ok tt) → P b.
Proof.
  intros Hstep. induction ops as [|[op now] ops IH]; intros a b Ha.
  - by intros [= <-].
  - rewrite run_cons. intros (a' & H & Hr). eauto.
Qed.

Lemma run_inv ops a b : attempt_inv a → run ops a = (b, Ok tt) → attempt_inv b.
Proof. apply run_ind. intros ????? H. eapply attempt_inv_step; [done|]. by eexists. Qed.

(** What a conclusion fixes. *)
Definition conclusion (a : RunnerAttempt)
    : option AttemptOutcome * option Timestamp * option Z * option Z :=
  (outcome a, terminal_at a, github_runner_id a, process_id a).

Lemma apply_op_concluded op now a a' :
  is_terminal (state a) = true → apply_op op now a = (a', Ok tt) →
  is_terminal (state a') = true ∧ conclusion a' = conclusion a.
Proof.
  intros Ht H. unfold conclusion. destruct op; cbn [apply_op] in H;
    first [apply allocate_execution_ok in H as (_&_&_&_&->)
          |apply prepared_environment_ok in H as (_&?&?&?&_&_&->)
          |aunfold; mcases; breflect]; try done;
    try (split; [|done]; by destruct (state a)); try by destruct (state a).
  rename select (_ ∈ required_from _) into Hr. apply required_from_live in Hr. congruence.
Qed.

(** The calls that give a capacity slot back, whatever state the attempt is in. *)
Definition release_ops (o : AttemptOutcome) (now : Timestamp) (a : RunnerAttempt)
    : list (attempt_op * Timestamp) :=
  (if is_terminal (state a) then [] else [(OpConclude o, now)]) ++
  (if bool_decide (state a = Cleaned) then []
   else if is_native (execution a) then [(OpClean, now)]
   else (if bool_decide (state a = Destroying) then [] else [(OpBeginDestroy, now)])
        ++ [(OpCleanIsolated, now)]).

Lemma conclude_accepts o now a :
  state a ∈ required_from o →
  conclude o now a = (set_conclusion o now (set_state (terminal_state o) now a), Ok tt).
Proof.
  intros Hs. unfold conclude, move_to. munfold. rewrite bool_decide_eq_true_2 by done.
  assert (can_transition_to (state a) (terminal_state o) = true) as ->; [|done].
  destruct o; simpl in Hs; unfold CONCLUDABLE_FROM in Hs; states; by rewrite Hs.
Qed.

Lemma clean_accepts now a :
  is_concluded (state a) = true → is_native (execution a) = true →
  clean now a = (set_state Cleaned now a, Ok tt).
Proof. intros Hs Hn. unfold clean, move_to. munfold. rewrite Hn. by destruct (state a). Qed.

Lemma begin_destroy_accepts now a :
  is_concluded (state a) = true ∨ state a = CleanupDeferred →
  is_native (execution a) = false → is_Some (outcome a) →
  begin_destroy now a = (set_state Destroying now a, Ok tt).
Proof.
  intros Hs Hn Ho. unfold begin_destroy, move_to. munfold.
  rewrite Hn, bool_decide_eq_true_2 by done. destruct Hs; by destruct (state a).
Qed.

Lemma clean_isolated_accepts now a :
  state a = Destroying → is_native (execution a) = false →
  clean_isolated now a = (set_state Cleaned now a, Ok tt).
Proof. intros Hs Hn. unfold clean_isolated, move_to. munfold. by rewrite Hn, Hs. Qed.

Lemma release_terminal o now a :
  attempt_inv a → is_terminal (state a) = true →
  ∃ b, run (release_ops o now a) a = (b, Ok tt) ∧ state b = Cleaned.
Proof.
  intros Hinv Ht. unfold release_ops. rewrite Ht. simpl.
  case_bool_decide as Hc; [by exists a|].
  assert (is_Some (outcome a)) as Ho.
  { pose proof (inv_outcome _ Hinv) as Ho. destruct (outcome a); [done|congruence]. }
  destruct (is_native (execution a)) eqn:Hn; simpl; munfold.
  - rewrite clean_accepts; [by eexists| |done].
    pose proof (inv_isolated _ Hinv) as Hi. rewrite Hn in Hi.
    destruct (state a); try done; exfalso; by discriminate Hi; state_in.
  - case_bool_decide as Hd; simpl; munfold.
    + rewrite clean_isolated_accepts by done. by eexists.
    + rewrite begin_destroy_accepts; [|destruct (state a); auto|done..].
      rewrite clean_isolated_accepts by done. by eexists.
Qed.

Lemma release_run o now a :
  attempt_inv a → state a ∈ required_from o ∨ is_terminal (state a) = true →
  ∃ b, run (release_ops o now a) a = (b, Ok tt) ∧ state b = Cleaned.
Proof.
  intros Hinv [Hs|Hs]; [|by apply release_terminal].
  pose proof (required_from_live _ _ Hs) as Hl.
  set (c := set_conclusion o now (set_state (terminal_state o) now a)).
  destruct (release_terminal o now c) as (b & Hr & Hb).
  { by apply attempt_inv_conclude. }
  { apply terminal_state_terminal. }
  exists b. split; [|done]. rewrite <- Hr.
  unfold release_ops. rewrite Hl. subst c. simpl. rewrite terminal_state_terminal.
  rewrite !(bool_decide_eq_false_2 (state a = _)) by (intros E; by rewrite E in Hl).
  rewrite !(bool_decide_eq_false_2 (terminal_state o = _)) by (by destruct o).
  simpl. munfold. by rewrite conclude_accepts.
Qed.

Lemma assigned_before_completed ops a b :
  run ops a = (b, Ok tt) → outcome b = Some CompletedJob →
  outcome a = Some CompletedJob ∨ state a = Busy ∨ ∃ id t, (OpAssignedJob id, t) ∈ ops.
Proof.
  revert a. induction ops as [|[op now] ops IH]; intros a.
  { intros [= <-]. by left. }
  rewrite run_cons. intros (a' & H & Hr) Hb.
  destruct (IH _ Hr Hb) as [Ho|[Hs|(id & t & Hin)]];
    [| |right; right; exists id, t; by right].
  - destruct op; cbn [apply_op] in H;
      first [apply allocate_execution_ok in H as (_&_&_&_&->)
            |apply prepared_environment_ok in H as (_&?&?&?&_&_&->)
            |aunfold; mcases; breflect]; auto.
    right; left. rename select (state a ∈ _) into Hq.
    by apply list_elem_of_singleton in Hq.
  - pose proof (apply_op_edge _ _ _ _ H) as He.
    destruct op; cbn [keeps_state] in He; destruct He as [He _]; try (right; left; congruence);
      cbn [apply_op] in H; try (aunfold; mcases; done).
    + right; right. exists runner_id, now. by left.
    + aunfold; mcases. by destruct o.
Qed.

(** ** Theorems *)

(** C8: every attempt the program can hold, from allocation through any sequence of
    accepted calls, satisfies the record's invariant: outcome and conclusion time are
    present exactly in the terminal states and agree with them, the process id agrees
    with the execution identity, only isolated attempts are in the preparation and
    destruction states, and a running isolated attempt has its environment. *)
Theorem attempt_reachable_inv a : reachable a → attempt_inv a.
Proof. apply reachable_inv. Qed.

(** The journal's reader accepts exactly the rows written from loadable attempts
    (the invariant, an environment once the JIT configuration was handed over, and
    instants in order), and returns the attempt that was written. *)
Theorem from_persisted_exact f a :
  persisted_typed f → from_persisted f = Ok a ↔ loadable a ∧ to_persisted a = f.
Proof.
  intros Ht. split.
  - intros H. split; [by eapply from_persisted_loadable | by apply from_persisted_fields].
  - intros [Hl <-]. by apply from_persisted_to_persisted.
Qed.

(** No call ever changes who the attempt is (id, policy, paths, workspace,
    creation time); a refused call changes nothing at all; an accepted call either
    only sets the execution identity or follows one edge of the state diagram and
    stamps the time of the change. *)
Theorem attempt_call_effect op now a a' r :
  apply_op op now a = (a', r) →
  same_identity a' a ∧
  match r with
  | Err _ => a' = a
  | Ok _ =>
      if keeps_state op
      then state a' = state a ∧ last_state_change_at a' = last_state_change_at a
      else can_transition_to (state a) (state a') = true ∧ last_state_change_at a' = now
  end.
Proof.
  intros H. split; [by eapply apply_op_identity|].
  destruct r as [[]|e]; [by apply apply_op_edge | by eapply apply_op_error].
Qed.

(** A conclusion is written once: whatever calls follow, the outcome, the
    conclusion time, the GitHub runner and the process of a terminal attempt stay as
    they were recorded, and it never becomes live again. *)
Theorem conclusion_permanent ops a b :
  is_terminal (state a) = true → run ops a = (b, Ok tt) →
  is_terminal (state b) = true ∧ conclusion b = conclusion a.
Proof.
  intros Ht. apply (run_ind (λ b, is_terminal (state b) = true ∧ conclusion b = conclusion a));
    [|done].
  intros c op now c' [Hc Ec] H. destruct (apply_op_concluded _ _ _ _ Hc H) as [? E].
  split; [done|]. by rewrite E.
Qed.

(** C36: no attempt can hold on to its capacity slot or its workspace lease for ever:
    from every state that satisfies the invariant the release calls (conclude with any
    outcome allowed there, then the clean-up of its kind) are all accepted, and at
    their end the attempt neither counts against capacity nor holds a lease. *)
Theorem capacity_always_released o now a :
  attempt_inv a → state a ∈ required_from o ∨ is_terminal (state a) = true →
  ∃ b, run (release_ops o now a) a = (b, Ok tt) ∧
       counts_against_capacity b = false ∧ holds_slot_lease b = false.
Proof.
  intros Hinv Hs. destruct (release_run o now a Hinv Hs) as (b & Hr & Hb).
  exists b. unfold counts_against_capacity, holds_slot_lease. rewrite Hb. simpl.
  by rewrite !andb_false_r.
Qed.

(** A job is only ever reported as completed by an attempt GitHub assigned a job
    to: the outcome is in no attempt whose calls do not include the assignment. *)
Theorem completed_job_was_assigned id policy_id path w now ops b :
  run ops (allocate_in id policy_id path w now) = (b, Ok tt) →
  outcome b = Some CompletedJob → ∃ runner t, (OpAssignedJob runner, t) ∈ ops.
Proof.
  intros Hr Hb. by destruct (assigned_before_completed _ _ _ Hr Hb) as [?|[?|?]].
Qed.

(** ** Witnesses *)

(** An isolated attempt through a job to deferred clean-up, and a native one. *)
Definition example_image : ImageReference := mk_image (lit "vm-version:2024.1").
Definition example_isolated : AttemptExecution :=
  Isolated BVirtualMachine None example_image (lit "gen-1").
Definition example_isolated_ops : list (attempt_op * Timestamp) :=
  [(OpAllocateExecution example_isolated, 0); (OpBeginPrepare, 1);
   (OpPreparedEnvironment (lit "vm-7"), 2); (OpMarkPrepared, 3); (OpJitReceived, 4);
   (OpStartedIsolated, 5); (OpRegisteredIdle 9, 6); (OpAssignedJob 9, 7);
   (OpConclude CompletedJob, 8); (OpBeginDestroy, 9); (OpDeferCleanup, 10)].
Definition example_native_ops : list (attempt_op * Timestamp) :=
  [(OpJitReceived, 1); (OpStarted 77, 2); (OpAssignedJob 9, 3); (OpConclude CompletedJob, 4)].
Definition example_new : RunnerAttempt :=
  allocate_in 1%N 2%N (lit "rt") (APersistentSlot 3) 0.
Definition example_deferred : RunnerAttempt := (run example_isolated_ops example_new).1.
Definition example_done : RunnerAttempt := (run example_native_ops example_new).1.

Lemma example_deferred_state :
  run example_isolated_ops example_new = (example_deferred, Ok tt) ∧
  state example_deferred = CleanupDeferred.
Proof. vm_compute. done. Qed.

Lemma example_reachable ops a b : reachable a → run ops a = (b, Ok tt) → reachable b.
Proof. apply run_ind. intros ????? H. eapply reachable_step; [done|]. by eexists. Qed.

Lemma example_new_reachable : reachable example_new.
Proof. apply reachable_allocate. vm_compute. split; discriminate. Qed.

Lemma attempt_reachable_inv_witness :
  state example_deferred = CleanupDeferred ∧ attempt_inv example_deferred.
Proof.
  split; [exact (proj2 example_deferred_state)|].
  apply attempt_reachable_inv.
  exact (example_reachable _ _ _ example_new_reachable (proj1 example_deferred_state)).
Defined.

Lemma from_persisted_exact_witness :
  from_persisted (to_persisted example_deferred) = Ok example_deferred ∧
  loadable example_deferred ∧ to_persisted example_deferred = to_persisted example_deferred.
Proof.
  assert (from_persisted (to_persisted example_deferred) = Ok example_deferred) as H
    by (vm_compute; reflexivity).
  split; [exact H|]. apply from_persisted_exact; [|exact H].
  intros s Hs. vm_compute in Hs. injection Hs as <-. vm_compute. split; discriminate.
Defined.

Lemma attempt_call_effect_witness :
  same_identity (clean 5 example_new).1 example_new ∧ (clean 5 example_new).1 = example_new.
Proof.
  exact (attempt_call_effect OpClean 5 example_new _ (Err (AIllegalTransition Allocated Cleaned))
           eq_refl).
Defined.

Lemma conclusion_permanent_witness :
  ∃ b, run [(OpClean, 9)] example_done = (b, Ok tt) ∧ outcome b = Some CompletedJob ∧
       conclusion b = conclusion example_done.
Proof.
  eexists. split; [vm_compute; reflexivity|]. split; [reflexivity|].
  eapply (conclusion_permanent [(OpClean, 9)] example_done); vm_compute; reflexivity.
Defined.

Lemma capacity_always_released_witness :
  ∃ b, run [(OpBeginDestroy, 20); (OpCleanIsolated, 20)] example_deferred = (b, Ok tt) ∧
       counts_against_capacity b = false ∧ holds_slot_lease b = false.
Proof.
  apply (capacity_always_released OutcomeOrphaned 20 example_deferred).
  - apply reachable_inv.
    exact (example_reachable _ _ _ example_new_reachable (proj1 example_deferred_state)).
  - right. reflexivity.
Defined.

Lemma completed_job_was_assigned_witness :
  outcome example_done = Some CompletedJob ∧
  ∃ runner t, (OpAssignedJob runner, t) ∈ example_native_ops.
Proof.
  split; [reflexivity|].
  apply (completed_job_was_assigned 1%N 2%N (lit "rt") (APersistentSlot 3) 0
           example_native_ops example_done); vm_compute; reflexivity.
Defined.
