(* ===== verification/Host.v ===== *)
(** * Hosts ([crates/domain/src/model.rs], lines 1229-1313) *)

From stdpp Require Import strings.
From S2P Require Import Prelude RustStr Ordered Model Path.
#[local] Open Scope Z_scope.
#[local] Open Scope rust_scope.

Record Host := mk_host {
  h_id : HostId;
  display_name : str;
  h_os : Os;
  architecture : Arch;
  host_capacity : Z;  (* NonZeroU16 *)
  service_start_mode : StartMode;
  refresh_interval : RefreshInterval;
  runner_root_override : option LocalAbsolutePath;
  h_created_at : Timestamp;
}.
#[global] Instance Host_eq_dec : EqDecision Host.
Proof. solve_decision. Defined.

Definition Host_new (id : HostId) (name : str) (os : Os) (arch : Arch) (capacity : Z)
    (created : Timestamp) : result Host ValidationError :=
  let name := trim name in
  if bool_decide (name = []) then Err (Empty "a host display name")
  else Ok {| h_id := id; display_name := name; h_os := os; architecture := arch;
             host_capacity := capacity; service_start_mode := StartMode_default;
             refresh_interval := RefreshInterval_default; runner_root_override := None;
             h_created_at := created |}.

Definition has_configured_runner_root (h : Host) : bool :=
  bool_decide (is_Some (runner_root_override h)).

(** What the field types guarantee. *)
Definition host_typed (h : Host) : Prop := nonzero_u16 (host_capacity h).
