(* ===== verification/Labels.v ===== *)
(** * Routing labels and [runs-on] ([crates/domain/src/policy.rs], lines 114-645)

    The label set of a policy, the [runs-on] of a queued job, and the predicate and
    tally that decide which queued jobs a policy answers. *)

From stdpp Require Import strings.
From S2P Require Import Prelude RustStr Ordered Model.
#[local] Open Scope Z_scope.
#[local] Open Scope rust_scope.

(** ** Label sets *)

Record RoutingLabels := mk_RoutingLabels {
  host_label : Label;
  additional : list Label;  (* a [BTreeSet] *)
}.
#[global] Instance RoutingLabels_eq_dec : EqDecision RoutingLabels.
Proof. solve_decision. Defined.

Definition PREFIX : str := lit "rm".
Definition dash : str := lit "-".

Definition from_parts (h : Label) (ls : list Label) : RoutingLabels :=
  mk_RoutingLabels h (set_collect (List.filter (λ l, negb (bool_decide (l = h))) ls)).

Definition from_host_label (h : Label) : RoutingLabels := from_parts h [].

Definition derived_text (h : HostLabel) (os : Os) (arch : Arch) : str :=
  PREFIX ++ dash ++ host_label_str h ++ dash ++ Os_label_token os ++ dash
  ++ Arch_label_token arch.

Arguments derived_text : simpl never.
Arguments dash : simpl never.
Arguments PREFIX : simpl never.

(** [expect] panics on an invalid label: [None]. *)
Definition derive (h : HostLabel) (os : Os) (arch : Arch) : option RoutingLabels :=
  match Label_new (derived_text h os arch) with
  | Ok l => Some (mk_RoutingLabels l [])
  | Err _ => None
  end.

Definition derive_for_profile (h : HostLabel) (os : Os) (arch : Arch) (p : ProfileName)
    : option RoutingLabels :=
  match Label_new (derived_text h os arch ++ dash ++ profile_str p) with
  | Ok l => Some (from_host_label l)
  | Err _ => None
  end.

Definition is_derived_shape (r : RoutingLabels) : bool :=
  match split_on (N.eqb (ch "-")) (label_str (host_label r)) with
  | prefix :: rest =>
      match reverse rest with
      | arch :: os :: middle =>
          str_eqb prefix PREFIX && negb (bool_decide (middle = []))
          && existsb (λ o, str_eqb (Os_label_token o) os) Os_ALL
          && existsb (λ a, str_eqb (Arch_label_token a) arch) Arch_ALL
      | _ => false
      end
  | [] => false
  end.

Definition labels_add (l : Label) (r : RoutingLabels) : RoutingLabels * bool :=
  if bool_decide (l = host_label r) then (r, false)
  else let '(s, b) := set_insert l (additional r) in (mk_RoutingLabels (host_label r) s, b).

(** [Err] carries the label of [HostLabelNotRemovable]. *)
Definition labels_remove (l : Label) : method RoutingLabels bool Label := λ r,
  if bool_decide (l = host_label r) then (r, Err l)
  else let '(s, b) := set_remove l (additional r) in
       (mk_RoutingLabels (host_label r) s, Ok b).

Definition labels_contains (r : RoutingLabels) (l : Label) : bool :=
  bool_decide (host_label r = l) || set_contains l (additional r).

Definition labels_iter (r : RoutingLabels) : list Label := host_label r :: additional r.

Definition labels_count (r : RoutingLabels) : Z := 1 + Z.of_nat (length (additional r)).

Definition as_registration_labels (r : RoutingLabels) : list str :=
  label_str <$> labels_iter r.

(** ** [runs-on] *)

Inductive UnresolvableRunsOn :=
  | Expression (raw : str)
  | RunnerGroupWithoutLabels (group : str)
  | NoLabels
  | InvalidLabel (raw : str) (source : ValidationError).
#[global] Instance UnresolvableRunsOn_eq_dec : EqDecision UnresolvableRunsOn.
Proof. solve_decision. Defined.

Inductive RunsOnLabels := LOne (one : str) | LMany (many : list str).
Inductive RunsOn :=
  | Single (one : str)
  | Many (many : list str)
  | Grouped (group : option str) (labels : RunsOnLabels).
#[global] Instance RunsOnLabels_eq_dec : EqDecision RunsOnLabels.
Proof. solve_decision. Defined.
#[global] Instance RunsOn_eq_dec : EqDecision RunsOn.
Proof. solve_decision. Defined.

Definition labels_as_slice (l : RunsOnLabels) : list str :=
  match l with LOne one => [one] | LMany many => many end.

Definition from_job_labels (ls : list str) : RunsOn := Many ls.

Definition runner_group (r : RunsOn) : option str :=
  match r with Grouped group _ => group | _ => None end.

Definition raw_labels (r : RunsOn) : list str :=
  match r with
  | Single one => [one]
  | Many many => many
  | Grouped _ labels => labels_as_slice labels
  end.

Definition is_expression (raw : str) : bool := contains_str (lit "${{") raw.

Definition is_blank (raw : str) : bool := bool_decide (trim raw = []).

Definition required_labels (r : RunsOn) : result (list Label) UnresolvableRunsOn :=
  let raws := raw_labels r in
  match List.find is_expression raws with
  | Some raw => Err (Expression raw)
  | None =>
      let usable := List.filter (λ r, negb (is_blank r)) raws in
      if bool_decide (usable = []) then
        match runner_group r with
        | Some group => Err (RunnerGroupWithoutLabels group)
        | None => Err NoLabels
        end
      else collect_result (λ raw, map_err (InvalidLabel raw) (Label_new raw)) usable
  end.

(** ** Matching *)

Inductive RunsOnMatch :=
  | Match (runner_group : option str)
  | NoMatch (missing : list Label)
  | Unresolvable (reason : UnresolvableRunsOn).
#[global] Instance RunsOnMatch_eq_dec : EqDecision RunsOnMatch.
Proof. solve_decision. Defined.

Definition is_match (m : RunsOnMatch) : bool := match m with Match _ => true | _ => false end.
Definition is_unresolvable (m : RunsOnMatch) : bool :=
  match m with Unresolvable _ => true | _ => false end.

Definition labels_matches (r : RoutingLabels) (runs_on : RunsOn) : RunsOnMatch :=
  match required_labels runs_on with
  | Err unresolvable => Unresolvable unresolvable
  | Ok required =>
      let missing := List.filter (λ l, negb (labels_contains r l)) required in
      if bool_decide (missing = []) then Match (runner_group runs_on) else NoMatch missing
  end.

Record DemandTally := mk_tally {
  matched : Z;       (* u32 *)
  not_matched : Z;   (* u32 *)
  unresolvable : list UnresolvableRunsOn;
}.
#[global] Instance DemandTally_eq_dec : EqDecision DemandTally.
Proof. solve_decision. Defined.

Definition tally_default : DemandTally := mk_tally 0 0 [].

(** [u32] addition of a release build. *)
Definition u32_add (a b : Z) : Z := (a + b) mod (U32_MAX + 1).

Definition tally_one (r : RoutingLabels) (t : DemandTally) (job : RunsOn) : DemandTally :=
  match labels_matches r job with
  | Match _ => mk_tally (u32_add (matched t) 1) (not_matched t) (unresolvable t)
  | NoMatch _ => mk_tally (matched t) (u32_add (not_matched t) 1) (unresolvable t)
  | Unresolvable reason => mk_tally (matched t) (not_matched t) (unresolvable t ++ [reason])
  end.

Definition labels_tally (r : RoutingLabels) (jobs : list RunsOn) : DemandTally :=
  foldl (tally_one r) tally_default jobs.

Definition demand (t : DemandTally) : Z := matched t.

Definition total_seen (t : DemandTally) : Z :=
  u32_add (u32_add (matched t) (not_matched t))
    (Z.of_nat (length (unresolvable t)) mod (U32_MAX + 1)).

(** ** Well-formed label sets *)

Record valid_labels (r : RoutingLabels) : Prop := {
  vl_host : valid_label (label_str (host_label r));
  vl_additional : Forall (λ l, valid_label (label_str l)) (additional r);
  vl_sorted : set_sorted (additional r);
  vl_host_apart : host_label r ∉ additional r;
}.

Lemma set_contains_elem (l : Label) ls : set_contains l ls = true ↔ l ∈ ls.
Proof.
  rewrite set_contains_spec. split.
  - intros (l' & Hin & E). apply cmp_eq_leibniz in E. by subst.
  - intros Hin. exists l. split; [done|]. apply cmp_refl.
Qed.

Lemma labels_contains_spec r l : labels_contains r l = true ↔ l ∈ labels_iter r.
Proof.
  unfold labels_contains, labels_iter.
  rewrite orb_true_iff, bool_decide_eq_true, set_contains_elem, elem_of_cons. naive_solver.
Qed.

Lemma labels_add_valid l r :
  valid_label (label_str l) → valid_labels r → valid_labels (labels_add l r).1.
Proof.
  intros Hl [Hh Ha Hs Hn]. unfold labels_add. case_bool_decide as Hd; [done|].
  pose proof (set_insert_elem l (additional r)) as He.
  pose proof (set_insert_sorted l _ Hs) as Hs'.
  destruct (set_insert l (additional r)) as [s b]; simpl in *. split; simpl; try done.
  - rewrite Forall_forall in *. intros x Hx. destruct (He x Hx) as [->|?]; auto.
  - intros Hx. destruct (He _ Hx) as [E|?]; [by symmetry in E | done].
Qed.

Lemma labels_remove_valid l r : valid_labels r → valid_labels (labels_remove l r).1.
Proof.
  intros [Hh Ha Hs Hn]. unfold labels_remove. case_bool_decide as Hd; [done|].
  pose proof (set_remove_sublist l (additional r)) as He.
  pose proof (set_remove_sorted l _ Hs) as Hs'.
  destruct (set_remove l (additional r)) as [s b]; simpl in *. split; simpl; try done.
  - rewrite Forall_forall in *. intros x Hx. apply Ha. by eapply elem_of_sublist.
  - intros Hx. apply Hn. by eapply elem_of_sublist.
Qed.

(** Reading back the serialised parts of a label set gives the set. *)
Lemma from_parts_id r : valid_labels r → from_parts (host_label r) (additional r) = r.
Proof.
  intros [Hh Ha Hs Hn]. unfold from_parts.
  assert (List.filter (λ l, negb (bool_decide (l = host_label r))) (additional r)
          = additional r) as ->.
  { clear Ha Hs. induction (additional r) as [|x ls IH]; [done|]. simpl.
    rewrite bool_decide_eq_false_2 by (intros ->; set_solver). simpl. f_equal. set_solver. }
  rewrite set_collect_id by done. by destruct r.
Qed.

(** ** Required labels *)

Lemma find_false_None {A} (f : A → bool) l :
  List.find f l = None ↔ ∀ x, x ∈ l → f x = false.
Proof.
  induction l as [|y l IH]; simpl; [set_solver|]. destruct (f y) eqn:E.
  - split; [done|]. intros H. specialize (H y). rewrite E in H. set_solver.
  - rewrite IH. set_solver.
Qed.

Lemma elem_of_filter_bool {A} (f : A → bool) l x : x ∈ List.filter f l ↔ x ∈ l ∧ f x = true.
Proof. by rewrite !list_elem_of_In, filter_In. Qed.

Lemma filter_nil_iff {A} (f : A → bool) l : List.filter f l = [] ↔ ∀ x, x ∈ l → f x = false.
Proof.
  induction l as [|y l IH]; simpl; [set_solver|]. destruct (f y) eqn:E.
  - split; [done|]. intros H. specialize (H y). rewrite E in H. set_solver.
  - rewrite IH. set_solver.
Qed.

(** What [required_labels] answers when it answers. *)
Lemma required_labels_ok ro req :
  required_labels ro = Ok req ↔
  (∀ raw, raw ∈ raw_labels ro → is_expression raw = false) ∧
  (∃ raw, raw ∈ raw_labels ro ∧ is_blank raw = false) ∧
  Forall2 (λ raw l, Label_new raw = Ok l)
    (List.filter (λ raw, negb (is_blank raw)) (raw_labels ro)) req.
Proof.
  unfold required_labels. destruct (List.find is_expression (raw_labels ro)) eqn:Hf.
  { split; [done|]. intros [H _]. apply find_false_None in H. congruence. }
  pose proof (proj1 (find_false_None _ _) Hf) as He.
  case_bool_decide as Hu.
  { split; [by destruct (runner_group ro)|]. intros (_ & (raw & Hin & Hb) & _).
    pose proof (proj1 (filter_nil_iff _ _) Hu raw Hin) as H%negb_false_iff. congruence. }
  rewrite collect_result_ok. split.
  - intros H. split_and!; [done| |].
    + destruct (List.filter _ _) as [|raw l] eqn:E; [done|]. exists raw.
      assert (raw ∈ raw :: l) as Hin by set_solver. rewrite <- E in Hin.
      by apply elem_of_filter_bool in Hin as [? ?%negb_true_iff].
    + eapply Forall2_impl; [exact H|]. intros x y. apply map_err_ok.
  - intros (_ & _ & H). eapply Forall2_impl; [exact H|]. intros x y. apply map_err_ok.
Qed.

Lemma labels_matches_Match r ro g :
  labels_matches r ro = Match g ↔
  g = runner_group ro ∧ ∃ req, required_labels ro = Ok req ∧ ∀ l, l ∈ req → l ∈ labels_iter r.
Proof.
  unfold labels_matches. destruct (required_labels ro) as [req|e]; [|naive_solver].
  case_bool_decide as Hm.
  - split; [|naive_solver]. intros [= <-]. split; [done|]. exists req. split; [done|].
    intros l Hl. apply labels_contains_spec.
    by pose proof (proj1 (filter_nil_iff _ _) Hm l Hl) as ?%negb_false_iff.
  - split; [done|]. intros (_ & req' & [= <-] & H). exfalso. apply Hm, filter_nil_iff.
    intros l Hl. apply negb_false_iff, labels_contains_spec. auto.
Qed.

(** ** Tallies *)

Definition count_jobs (f : RunsOnMatch → bool) (r : RoutingLabels) (jobs : list RunsOn) : Z :=
  Z.of_nat (length (List.filter (λ job, f (labels_matches r job)) jobs)).

Definition is_no_match (m : RunsOnMatch) : bool := match m with NoMatch _ => true | _ => false end.

Lemma labels_tally_from r jobs t :
  0 ≤ matched t → 0 ≤ not_matched t →
  matched t + not_matched t + Z.of_nat (length jobs) ≤ U32_MAX →
  let t' := foldl (tally_one r) t jobs in
  matched t' = matched t + count_jobs is_match r jobs ∧
  not_matched t' = not_matched t + count_jobs is_no_match r jobs ∧
  Z.of_nat (length (unresolvable t'))
    = Z.of_nat (length (unresolvable t)) + count_jobs is_unresolvable r jobs.
Proof.
  revert t. induction jobs as [|job jobs IH]; intros t Hm Hn Hb; simpl.
  { unfold count_jobs. simpl. lia. }
  assert (∀ a, 0 ≤ a < U32_MAX → u32_add a 1 = a + 1) as Hadd.
  { intros a Ha. unfold u32_add. rewrite Z.mod_small; lia. }
  cbn [length] in Hb. unfold count_jobs in *. simpl.
  destruct (labels_matches r job) eqn:E; unfold tally_one at 2 4 6; rewrite E; simpl;
    edestruct IH as (-> & -> & ->); simpl; rewrite ?Hadd, ?length_app; simpl; lia.
Qed.

Lemma count_jobs_total r jobs :
  count_jobs is_match r jobs + count_jobs is_no_match r jobs + count_jobs is_unresolvable r jobs
  = Z.of_nat (length jobs).
Proof.
  unfold count_jobs. induction jobs as [|job jobs IH]; [done|]. simpl.
  destruct (labels_matches r job); simpl; lia.
Qed.

(** ** Derived labels *)

(** Text built from selector segments. *)
Definition selector_text (s : str) : Prop :=
  Forall (λ c, is_selector_char c = true) s ∧ to_ascii_lowercase s = s.

Lemma selector_text_app s t : selector_text s → selector_text t → selector_text (s ++ t).
Proof.
  intros [Hs Es] [Ht Et]. split; [by apply Forall_app|].
  unfold to_ascii_lowercase in *. by rewrite fmap_app, Es, Et.
Qed.

Lemma valid_selector_text s : valid_selector s → selector_text s.
Proof. by intros (_ & _ & ? & _ & _ & ?). Qed.

Lemma label_char_selector c :
  is_selector_char c = true → (N.eqb c (ch ",") || is_control c) = false.
Proof. unfold is_selector_char. chars. Qed.

Lemma selector_text_label s :
  s ≠ [] → selector_text s → chars_count s ≤ Label_MAX_LEN → valid_label s.
Proof.
  intros Hne [Hs Hl] Hc. split_and!; try done.
  - by apply (trim_all _ _ selector_char_not_whitespace).
  - eapply Forall_impl; [exact Hs|]. apply label_char_selector.
Qed.

Ltac selector_token := split; [repeat constructor|vm_compute; reflexivity].
Lemma Os_token_text o : selector_text (Os_label_token o).
Proof. destruct o; selector_token. Qed.
Lemma Arch_token_text a : selector_text (Arch_label_token a).
Proof. destruct a; selector_token. Qed.
Lemma dash_text : selector_text dash.
Proof. selector_token. Qed.
Lemma prefix_text : selector_text PREFIX.
Proof. selector_token. Qed.

#[export] Hint Resolve selector_text_app valid_selector_text Os_token_text Arch_token_text
  dash_text prefix_text : rust.

Lemma derived_text_selector h os arch :
  valid_selector (host_label_str h) → selector_text (derived_text h os arch).
Proof. unfold derived_text. auto 20 with rust. Qed.

Lemma chars_count_app s t : chars_count (s ++ t) = chars_count s + chars_count t.
Proof. unfold chars_count. rewrite length_app. lia. Qed.

Lemma selector_count s : valid_selector s → chars_count s ≤ 64.
Proof. intros (_ & ? & _). pose proof (chars_count_le_len s). lia. Qed.

Lemma derived_text_count h os arch :
  valid_selector (host_label_str h) → chars_count (derived_text h os arch) ≤ 79.
Proof.
  intros Hh%selector_count. unfold derived_text. rewrite !chars_count_app.
  assert (chars_count (Os_label_token os) ≤ 5) by (by destruct os).
  assert (chars_count (Arch_label_token arch) ≤ 5) by (by destruct arch).
  change (chars_count PREFIX) with 2. change (chars_count dash) with 1. lia.
Qed.

Lemma derived_text_label h os arch :
  valid_selector (host_label_str h) → valid_label (derived_text h os arch).
Proof.
  intros Hh. apply selector_text_label; [done|by apply derived_text_selector|].
  pose proof (derived_text_count h os arch Hh). unfold Label_MAX_LEN. lia.
Qed.

Lemma profile_text_label h os arch p :
  valid_selector (host_label_str h) → valid_selector (profile_str p) →
  valid_label (derived_text h os arch ++ dash ++ profile_str p).
Proof.
  intros Hh Hp. apply selector_text_label; [done| |].
  - auto using derived_text_selector with rust.
  - rewrite !chars_count_app. pose proof (derived_text_count h os arch Hh).
    pose proof (selector_count _ Hp). change (chars_count dash) with 1.
    unfold Label_MAX_LEN. lia.
Qed.

Lemma valid_labels_single l : valid_label (label_str l) → valid_labels (mk_RoutingLabels l []).
Proof. intros Hl. split; simpl; [done|constructor|constructor|set_solver]. Qed.

Lemma derive_eq h os arch :
  valid_selector (host_label_str h) →
  derive h os arch = Some (mk_RoutingLabels (mk_Label (derived_text h os arch)) []).
Proof. intros Hh. unfold derive. by rewrite Label_new_canonical by by apply derived_text_label. Qed.

Lemma derive_for_profile_eq h os arch p :
  valid_selector (host_label_str h) → valid_selector (profile_str p) →
  derive_for_profile h os arch p =
    Some (mk_RoutingLabels (mk_Label (derived_text h os arch ++ dash ++ profile_str p)) []).
Proof.
  intros Hh Hp. unfold derive_for_profile.
  by rewrite Label_new_canonical by by apply profile_text_label.
Qed.

Definition is_dash : char → bool := N.eqb (ch "-").

Lemma token_split t : Forall (λ c, is_dash c = false) t → split_on is_dash t = [t].
Proof. apply split_no_sep. Qed.

Lemma derived_text_split h os arch :
  split_on is_dash (derived_text h os arch) =
  PREFIX :: split_on is_dash (host_label_str h) ++ [Os_label_token os; Arch_label_token arch].
Proof.
  unfold derived_text. change dash with [ch "-"].
  change (PREFIX ++ [ch "-"] ++ ?t) with (PREFIX ++ ch "-" :: t).
  rewrite split_on_sep by done.
  change (host_label_str h ++ [ch "-"] ++ ?t) with (host_label_str h ++ ch "-" :: t).
  rewrite split_on_sep by done.
  change (Os_label_token os ++ [ch "-"] ++ ?t) with (Os_label_token os ++ ch "-" :: t).
  rewrite split_on_sep by done. by destruct os, arch.
Qed.

Lemma derived_text_inj h os arch h' os' arch' :
  derived_text h os arch = derived_text h' os' arch' → h = h' ∧ os = os' ∧ arch = arch'.
Proof.
  intros E. pose proof (f_equal (split_on is_dash) E) as Es.
  rewrite !derived_text_split in Es. injection Es as Es.
  apply app_inj_2 in Es as [_ Et]; [|done]. injection Et as Eo Ea.
  assert (os = os') as <- by (by destruct os, os').
  assert (arch = arch') as <- by (by destruct arch, arch').
  split; [|done]. unfold derived_text in E.
  apply app_inv_head, app_inv_head, app_inv_tail in E.
  by destruct h, h'; simpl in *; subst.
Qed.

Lemma derived_shape h os arch l :
  label_str l = derived_text h os arch → is_derived_shape (mk_RoutingLabels l []) = true.
Proof.
  intros E. unfold is_derived_shape. simpl. rewrite E.
  change (N.eqb (ch "-")) with is_dash. rewrite derived_text_split, reverse_app. simpl.
  rewrite bool_decide_eq_false_2; [by destruct os, arch|].
  intros Hn. apply (f_equal reverse) in Hn. rewrite reverse_involutive in Hn.
  by apply split_on_nonempty in Hn.
Qed.

(** ** Theorems *)

(** A policy answers a queued job exactly when none of the job's [runs-on] labels
    is an expression, at least one is not blank, and every one that is not blank is
    (after trimming and case folding) a label of the policy; the runner group is
    reported back. *)
Theorem runs_on_match_iff r ro g :
  labels_matches r ro = Match g ↔
  g = runner_group ro ∧
  (∀ raw, raw ∈ raw_labels ro → is_expression raw = false) ∧
  (∃ raw, raw ∈ raw_labels ro ∧ is_blank raw = false) ∧
  (∀ raw, raw ∈ raw_labels ro → is_blank raw = false →
     ∃ l, Label_new raw = Ok l ∧ l ∈ labels_iter r).
Proof.
  rewrite labels_matches_Match. split.
  - intros (-> & req & (He & Hx & Hf)%required_labels_ok & Hr). split_and!; try done.
    intros raw Hin Hb.
    assert (raw ∈ List.filter (λ r, negb (is_blank r)) (raw_labels ro)) as Hu
      by (apply elem_of_filter_bool; by rewrite Hb).
    apply list_elem_of_lookup_1 in Hu as [i Hi].
    destruct (Forall2_lookup_l _ _ _ _ _ Hf Hi) as (l & Hl & Hn).
    exists l. split; [done|]. apply Hr. by eapply list_elem_of_lookup_2.
  - intros (-> & He & Hx & Hall). split; [done|].
    assert (∃ req, Forall2 (λ raw l, Label_new raw = Ok l ∧ l ∈ labels_iter r)
              (List.filter (λ r, negb (is_blank r)) (raw_labels ro)) req) as [req Hreq].
    { apply Forall_exists_Forall2, Forall_forall. intros raw [Hin Hb]%elem_of_filter_bool.
      apply negb_true_iff in Hb. eauto. }
    exists req. split.
    + apply required_labels_ok. split_and!; try done.
      eapply Forall2_impl; [exact Hreq|]. by intros ?? [].
    + intros l [i Hi]%list_elem_of_lookup_1.
      by destruct (Forall2_lookup_r _ _ _ _ _ Hreq Hi) as (? & _ & _ & ?).
Qed.

(** The tally of fewer than 2^32 jobs counts every job exactly once, as matched,
    not matched or unresolvable, and the demand is the number of jobs the label set
    matches. *)
Theorem tally_counts_every_job r jobs :
  Z.of_nat (length jobs) ≤ U32_MAX →
  demand (labels_tally r jobs) = count_jobs is_match r jobs ∧
  not_matched (labels_tally r jobs) = count_jobs is_no_match r jobs ∧
  total_seen (labels_tally r jobs) = Z.of_nat (length jobs).
Proof.
  intros Hb. destruct (labels_tally_from r jobs tally_default) as (Hm & Hn & Hu); [done..|].
  fold (labels_tally r jobs) in *. simpl in *.
  pose proof (count_jobs_total r jobs) as Ht.
  assert (∀ f, 0 ≤ count_jobs f r jobs) as Hpos by (unfold count_jobs; lia).
  pose proof (Hpos is_match). pose proof (Hpos is_no_match). pose proof (Hpos is_unresolvable).
  unfold demand, total_seen, u32_add. rewrite Hm, Hn, Hu.
  unfold U32_MAX in *.
  split_and!; [lia|lia|]. Z.div_mod_to_equations. lia.
Qed.

(** The derived host label of a valid host label never panics, is a valid
    host-scoped label set of the recognised shape, and identifies the host label, the
    operating system and the architecture it was derived from: no other host derives
    the same one. *)
Theorem derive_identifies_host h os arch :
  valid_selector (host_label_str h) →
  ∃ r, derive h os arch = Some r ∧ valid_labels r ∧ is_derived_shape r = true ∧
    ∀ h' os' arch', valid_selector (host_label_str h') → derive h' os' arch' = Some r →
      h' = h ∧ os' = os ∧ arch' = arch.
Proof.
  intros Hh. eexists. split; [by apply derive_eq|]. split_and!.
  - apply valid_labels_single. by apply derived_text_label.
  - by eapply derived_shape.
  - intros h' os' arch' Hh'. rewrite derive_eq by done. intros E.
    apply derived_text_inj.
    exact (f_equal (from_option (λ r, label_str (host_label r)) []) E).
Qed.

(** ** Witnesses *)

Definition example_host : HostLabel := mk_HostLabel (lit "home--pc").
Lemma example_host_valid : valid_selector (host_label_str example_host).
Proof. vm_compute. split_and!; try done; repeat constructor. Qed.

Definition example_labels : RoutingLabels :=
  from_parts (mk_Label (lit "rm-home-win-x64")) [mk_Label (lit "gpu"); mk_Label (lit "big")].
Definition example_jobs : list RunsOn :=
  [Single (lit " RM-home-WIN-x64 "); Many [lit "gpu"; lit "rm-home-win-x64"; lit ""];
   Single (lit "ubuntu-latest"); Single (lit "${{ matrix.os }}")].

Lemma tally_counts_every_job_witness :
  demand (labels_tally example_labels example_jobs) = 2 ∧
  total_seen (labels_tally example_labels example_jobs) = 4.
Proof.
  destruct (tally_counts_every_job example_labels example_jobs) as (H1 & _ & H2).
  - vm_compute. discriminate.
  - split; [rewrite H1; vm_compute; reflexivity | rewrite H2; reflexivity].
Defined.

Lemma derive_identifies_host_witness :
  ∃ r, derive example_host Windows X64 = Some r ∧
    label_str (host_label r) = lit "rm-home--pc-win-x64" ∧ is_derived_shape r = true.
Proof.
  destruct (derive_identifies_host example_host Windows X64 example_host_valid)
    as (r & H & _ & Hs & _).
  exists r. split; [exact H|]. split; [|exact Hs].
  vm_compute in H. injection H as <-. vm_compute. reflexivity.
Defined.
