(* ===== verification/Policy.v ===== *)
(** * Scale policies ([crates/domain/src/policy.rs], lines 42-112 and 647-1665)

    The capacity configuration, the two modes, the policy state machine, and the
    policy record with every mutating method and its stored shape. *)

From stdpp Require Import strings.
From S2P Require Import Prelude RustStr Ordered Model Path Workspace Execution Labels.
#[local] Open Scope Z_scope.
#[local] Open Scope rust_scope.

(** ** States *)

Inductive PolicyState :=
  | Pending | Active | Draining | Disabled | RepairRequired | AuthenticationFailed.
#[global] Instance PolicyState_eq_dec : EqDecision PolicyState.
Proof. solve_decision. Defined.

Definition PolicyState_ALL : list PolicyState :=
  [Pending; Active; Draining; Disabled; RepairRequired; AuthenticationFailed].

Definition PolicyState_LEGAL : list (PolicyState * PolicyState) :=
  [(Pending, Active); (Pending, RepairRequired); (Active, Draining); (Draining, Disabled);
   (Disabled, Pending);
   (Pending, AuthenticationFailed); (Active, AuthenticationFailed);
   (Draining, AuthenticationFailed); (Disabled, AuthenticationFailed);
   (RepairRequired, AuthenticationFailed);
   (AuthenticationFailed, Pending)].

Definition policy_can_transition_to (s next : PolicyState) : bool :=
  bool_decide ((s, next) ∈ PolicyState_LEGAL).

Definition admits_new_runners (s : PolicyState) : bool :=
  match s with Active => true | _ => false end.

(** ** Errors *)

Inductive PolicyError :=
  | PInvalid (e : ValidationError)
  | PWorkspace (e : WorkspaceError)
  | PExecution (e : ExecutionError)
  | AutoscaleWithoutRoutingLabels
  | AutoscaleWithoutMaxCapacity
  | MonitorOnlyWithMinCapacity (min : Z)
  | InvertedCapacityRange (min max : Z)
  | PIllegalTransition (from to : PolicyState)
  | AlreadyAutoscale
  | NotAutoscale
  | HostLabelNotRemovable (label : Label)
  | InvalidProfileSelector
  | NamedConstructorForDefault
  | NamedProfileNeedsDerivedSelector.
#[global] Instance PolicyError_eq_dec : EqDecision PolicyError.
Proof. solve_decision. Defined.

(** ** Modes *)

Record AutoscaleConfig := mk_config {
  cfg_labels : RoutingLabels;
  cfg_min : Z;  (* u16 *)
  cfg_max : Z;  (* NonZeroU16 *)
}.
#[global] Instance AutoscaleConfig_eq_dec : EqDecision AutoscaleConfig.
Proof. solve_decision. Defined.

Definition AutoscaleConfig_new (labels : RoutingLabels) (min max : Z)
    : result AutoscaleConfig PolicyError :=
  if bool_decide (min > max) then Err (InvertedCapacityRange min max)
  else Ok (mk_config labels min max).

Definition cfg_set_max_capacity (max : Z) : method AutoscaleConfig () PolicyError := λ c,
  if bool_decide (cfg_min c > max) then (c, Err (InvertedCapacityRange (cfg_min c) max))
  else (mk_config (cfg_labels c) (cfg_min c) max, Ok tt).

Inductive PolicyMode := MonitorOnly | Autoscale (cfg : AutoscaleConfig).
#[global] Instance PolicyMode_eq_dec : EqDecision PolicyMode.
Proof. solve_decision. Defined.

Definition mode_autoscale (labels : RoutingLabels) (min max : Z)
    : result PolicyMode PolicyError :=
  let? cfg := AutoscaleConfig_new labels min max in Ok (Autoscale cfg).

Definition mode_from_persisted (labels : option RoutingLabels) (min : Z) (max : option Z)
    : result PolicyMode PolicyError :=
  match labels, max with
  | None, None =>
      if bool_decide (min ≠ 0) then Err (MonitorOnlyWithMinCapacity min) else Ok MonitorOnly
  | Some _, None => Err AutoscaleWithoutMaxCapacity
  | None, Some _ => Err AutoscaleWithoutRoutingLabels
  | Some labels, Some max => mode_autoscale labels min max
  end.

Definition mode_labels (m : PolicyMode) : option RoutingLabels :=
  match m with MonitorOnly => None | Autoscale cfg => Some (cfg_labels cfg) end.
Definition mode_min (m : PolicyMode) : Z :=
  match m with MonitorOnly => 0 | Autoscale cfg => cfg_min cfg end.
Definition mode_max (m : PolicyMode) : option Z :=
  match m with MonitorOnly => None | Autoscale cfg => Some (cfg_max cfg) end.
Definition is_autoscale (m : PolicyMode) : bool :=
  match m with Autoscale _ => true | MonitorOnly => false end.

(** ** Policies *)

Record ScalePolicy := mk_policy {
  p_id : PolicyId;
  target : ScaleTarget;
  installation_id : Z;  (* u64 *)
  host_id : HostId;
  requested_host_label : HostLabel;
  profile_name : ProfileName;
  mode : PolicyMode;
  enabled : bool;
  p_state : PolicyState;
  cache_policy : CachePolicy;
  workspace_policy : WorkspacePolicy;
  execution_policy : ExecutionPolicy;
  revision : Z;  (* u64 *)
}.
#[global] Instance ScalePolicy_eq_dec : EqDecision ScalePolicy.
Proof. solve_decision. Defined.

Record PersistedPolicy := mk_persisted_policy {
  pp_id : PolicyId;
  pp_target : ScaleTarget;
  pp_installation_id : Z;
  pp_host_id : HostId;
  pp_requested_host_label : HostLabel;
  pp_profile_name : ProfileName;
  pp_routing_labels : option RoutingLabels;
  pp_min_capacity : Z;
  pp_max_capacity : option Z;
  pp_enabled : bool;
  pp_state : PolicyState;
  pp_cache_policy : CachePolicy;
  pp_workspace_kind : WorkspaceKind;
  pp_workspace_root : option LocalAbsolutePath;
  pp_execution_policy : ExecutionPolicy;
  pp_revision : Z;
}.
#[global] Instance PersistedPolicy_eq_dec : EqDecision PersistedPolicy.
Proof. solve_decision. Defined.

Record NamedProfileSpec := mk_spec {
  spec_host_label : HostLabel;
  spec_os : Os;
  spec_arch : Arch;
  spec_profile : ProfileName;
  spec_min : Z;
  spec_max : Z;
}.

Definition new_for_host_label (id : PolicyId) (t : ScaleTarget) (installation : Z)
    (host : HostId) (label : HostLabel) (m : PolicyMode) (cache : CachePolicy) : ScalePolicy :=
  {| p_id := id; target := t; installation_id := installation; host_id := host;
     requested_host_label := label; profile_name := default_profile; mode := m;
     enabled := false; p_state := Pending; cache_policy := cache;
     workspace_policy := WEphemeral; execution_policy := EPNative; revision := 0 |}.

(** [expect] on the compatibility host label panics on an invalid one: [None]. *)
Definition policy_new (id : PolicyId) (t : ScaleTarget) (installation : Z) (host : HostId)
    (m : PolicyMode) (cache : CachePolicy) : option ScalePolicy :=
  match HostLabel_new (lit "host") with
  | Ok label => Some (new_for_host_label id t installation host label m cache)
  | Err _ => None
  end.

Definition with_profile (p : ScalePolicy) (profile : ProfileName) : ScalePolicy :=
  {| p_id := p_id p; target := target p; installation_id := installation_id p;
     host_id := host_id p; requested_host_label := requested_host_label p;
     profile_name := profile; mode := mode p; enabled := enabled p; p_state := p_state p;
     cache_policy := cache_policy p; workspace_policy := workspace_policy p;
     execution_policy := execution_policy p; revision := revision p |}.

(** [None] is the panic of [derive_for_profile]. *)
Definition new_named (id : PolicyId) (t : ScaleTarget) (installation : Z) (host : HostId)
    (spec : NamedProfileSpec) (cache : CachePolicy) : option (result ScalePolicy PolicyError) :=
  if is_default (spec_profile spec) then Some (Err NamedConstructorForDefault)
  else match derive_for_profile (spec_host_label spec) (spec_os spec) (spec_arch spec)
               (spec_profile spec) with
  | None => None
  | Some labels => Some (
      let? m := mode_autoscale labels (spec_min spec) (spec_max spec) in
      Ok (with_profile
            (new_for_host_label id t installation host (spec_host_label spec) m cache)
            (spec_profile spec)))
  end.

Definition new_named_monitor (id : PolicyId) (t : ScaleTarget) (installation : Z)
    (host : HostId) (label : HostLabel) (profile : ProfileName) (cache : CachePolicy)
    : result ScalePolicy PolicyError :=
  if is_default profile then Err NamedConstructorForDefault
  else Ok (with_profile (new_for_host_label id t installation host label MonitorOnly cache)
             profile).

Definition check_profile_selector (profile : ProfileName) (m : PolicyMode)
    : result () PolicyError :=
  if negb (is_default profile) then
    match mode_labels m with
    | Some labels =>
        if negb (ends_with (dash ++ profile_str profile) (label_str (host_label labels)))
        then Err InvalidProfileSelector else Ok tt
    | None => Ok tt
    end
  else Ok tt.

Definition policy_from_persisted (f : PersistedPolicy) : result ScalePolicy PolicyError :=
  let? m := mode_from_persisted (pp_routing_labels f) (pp_min_capacity f)
              (pp_max_capacity f) in
  let? _ := check_profile_selector (pp_profile_name f) m in
  let? w := map_err PWorkspace
              (wp_from_persisted (pp_workspace_kind f) (pp_workspace_root f)
                 (scope (pp_target f))) in
  let? _ := map_err PExecution
              (ExecutionPolicy_validate (pp_execution_policy f) (scope (pp_target f)) w) in
  Ok {| p_id := pp_id f; target := pp_target f; installation_id := pp_installation_id f;
        host_id := pp_host_id f; requested_host_label := pp_requested_host_label f;
        profile_name := pp_profile_name f; mode := m; enabled := pp_enabled f;
        p_state := pp_state f; cache_policy := pp_cache_policy f; workspace_policy := w;
        execution_policy := pp_execution_policy f; revision := pp_revision f |}.

Definition policy_to_persisted (p : ScalePolicy) : PersistedPolicy :=
  {| pp_id := p_id p; pp_target := target p; pp_installation_id := installation_id p;
     pp_host_id := host_id p; pp_requested_host_label := requested_host_label p;
     pp_profile_name := profile_name p; pp_routing_labels := mode_labels (mode p);
     pp_min_capacity := mode_min (mode p); pp_max_capacity := mode_max (mode p);
     pp_enabled := enabled p; pp_state := p_state p; pp_cache_policy := cache_policy p;
     pp_workspace_kind := wp_kind (workspace_policy p);
     pp_workspace_root := wp_root (workspace_policy p);
     pp_execution_policy := execution_policy p; pp_revision := revision p |}.

(** ** Reading *)

Definition is_owned_by (p : ScalePolicy) (h : HostId) : bool := bool_decide (host_id p = h).
Definition owns_runners (p : ScalePolicy) : bool := is_autoscale (mode p).
Definition may_start_runners (p : ScalePolicy) : bool :=
  is_autoscale (mode p) && enabled p && admits_new_runners (p_state p).
Definition can_activate (p : ScalePolicy) : bool := policy_can_transition_to (p_state p) Active.
Definition can_request_disable (p : ScalePolicy) : bool :=
  policy_can_transition_to (p_state p) Draining.
Definition policy_tally (p : ScalePolicy) (jobs : list RunsOn) : DemandTally :=
  match mode_labels (mode p) with
  | Some labels => labels_tally labels jobs
  | None => tally_default
  end.

(** ** Mutating methods *)

(** Assignments to the private fields, one per field a method writes. *)
Definition set_lifecycle (s : PolicyState) (e : bool) (rev : Z) (p : ScalePolicy)
    : ScalePolicy :=
  {| p_id := p_id p; target := target p; installation_id := installation_id p;
     host_id := host_id p; requested_host_label := requested_host_label p;
     profile_name := profile_name p; mode := mode p; enabled := e; p_state := s;
     cache_policy := cache_policy p; workspace_policy := workspace_policy p;
     execution_policy := execution_policy p; revision := rev |}.

Definition set_mode (m : PolicyMode) (rev : Z) (p : ScalePolicy) : ScalePolicy :=
  {| p_id := p_id p; target := target p; installation_id := installation_id p;
     host_id := host_id p; requested_host_label := requested_host_label p;
     profile_name := profile_name p; mode := m; enabled := enabled p; p_state := p_state p;
     cache_policy := cache_policy p; workspace_policy := workspace_policy p;
     execution_policy := execution_policy p; revision := rev |}.

Definition set_runtime (w : WorkspacePolicy) (e : ExecutionPolicy) (rev : Z) (p : ScalePolicy)
    : ScalePolicy :=
  {| p_id := p_id p; target := target p; installation_id := installation_id p;
     host_id := host_id p; requested_host_label := requested_host_label p;
     profile_name := profile_name p; mode := mode p; enabled := enabled p; p_state := p_state p;
     cache_policy := cache_policy p; workspace_policy := w; execution_policy := e;
     revision := rev |}.

(** [self.revision.saturating_add(1)]. *)
Definition bump (rev : Z) : Z := sat_add U64_MAX rev 1.

Definition policy_method (A : Type) := method ScalePolicy A PolicyError.

Definition set_execution_policy (e : ExecutionPolicy) : policy_method () := λ p,
  match map_err PExecution (ExecutionPolicy_validate e (scope (target p)) (workspace_policy p)) with
  | Err err => (p, Err err)
  | Ok _ =>
      if bool_decide (execution_policy p ≠ e)
      then (set_runtime (workspace_policy p) e (bump (revision p)) p, Ok tt)
      else (p, Ok tt)
  end.

Definition set_workspace_policy (w : WorkspacePolicy) : policy_method () := λ p,
  match map_err PWorkspace (wp_permitted_for w (scope (target p))) with
  | Err err => (p, Err err)
  | Ok _ =>
      match map_err PExecution
              (ExecutionPolicy_validate (execution_policy p) (scope (target p)) w) with
      | Err err => (p, Err err)
      | Ok _ =>
          if bool_decide (workspace_policy p ≠ w)
          then (set_runtime w (execution_policy p) (bump (revision p)) p, Ok tt)
          else (p, Ok tt)
      end
  end.

Definition transition_to (next : PolicyState) : policy_method () := λ p,
  if negb (policy_can_transition_to (p_state p) next)
  then (p, Err (PIllegalTransition (p_state p) next))
  else (set_lifecycle next (enabled p) (bump (revision p)) p, Ok tt).

Definition set_enabled (e : bool) (p : ScalePolicy) : ScalePolicy :=
  set_lifecycle (p_state p) e (revision p) p.

Definition activate : policy_method () :=
  transition_to Active ;;? st_modify (set_enabled true).

Definition request_disable : policy_method PolicyState :=
  transition_to Draining ;;? st_modify (set_enabled false) ;;? st_read p_state.

Definition drain_completed (active_attempts : Z) : policy_method PolicyState := λ p,
  (st_guard (bool_decide (p_state p = Draining)) (PIllegalTransition (p_state p) Disabled) ;;?
   (if bool_decide (active_attempts = 0) then transition_to Disabled else st_ret tt) ;;?
   st_read p_state) p.

Definition authentication_failed : policy_method () := transition_to AuthenticationFailed.
Definition reauthenticated : policy_method () := transition_to Pending.
Definition repair_required : policy_method () := transition_to RepairRequired.

Definition set_mode_bumped (m : PolicyMode) (p : ScalePolicy) : ScalePolicy :=
  set_mode m (bump (revision p)) p.

Definition promote_to_autoscale (labels : RoutingLabels) (min max : Z) : policy_method () := λ p,
  (st_guard (is_default (profile_name p)) NamedProfileNeedsDerivedSelector ;;?
   st_guard (negb (is_autoscale (mode p))) AlreadyAutoscale ;;?
   m <-? st_lift (mode_autoscale labels min max) ;;
   st_modify (set_mode_bumped m)) p.

(** [None] is the panic of [derive_for_profile]. *)
Definition promote_named_to_autoscale (os : Os) (arch : Arch) (min max : Z) (p : ScalePolicy)
    : option (ScalePolicy * result () PolicyError) :=
  if is_default (profile_name p) then Some (p, Err NamedConstructorForDefault)
  else if is_autoscale (mode p) then Some (p, Err AlreadyAutoscale)
  else match derive_for_profile (requested_host_label p) os arch (profile_name p) with
  | None => None
  | Some labels => Some
      ((m <-? st_lift (mode_autoscale labels min max) ;; st_modify (set_mode_bumped m)) p)
  end.

Definition set_max_capacity (max : Z) : policy_method () := λ p,
  match mode p with
  | MonitorOnly => (p, Err NotAutoscale)
  | Autoscale cfg =>
      match cfg_set_max_capacity max cfg with
      | (cfg', Err e) => (set_mode (Autoscale cfg') (revision p) p, Err e)
      | (cfg', Ok _) => (set_mode_bumped (Autoscale cfg') p, Ok tt)
      end
  end.

Definition with_labels (cfg : AutoscaleConfig) (labels : RoutingLabels) : PolicyMode :=
  Autoscale (mk_config labels (cfg_min cfg) (cfg_max cfg)).

Definition add_routing_label (l : Label) : policy_method bool := λ p,
  match mode p with
  | MonitorOnly => (p, Err NotAutoscale)
  | Autoscale cfg =>
      let '(labels, added) := labels_add l (cfg_labels cfg) in
      let rev := if added : bool then bump (revision p) else revision p in
      (set_mode (with_labels cfg labels) rev p, Ok added)
  end.

Definition remove_routing_label (l : Label) : policy_method bool := λ p,
  match mode p with
  | MonitorOnly => (p, Err NotAutoscale)
  | Autoscale cfg =>
      match labels_remove l (cfg_labels cfg) with
      | (labels, Err host) =>
          (set_mode (with_labels cfg labels) (revision p) p, Err (HostLabelNotRemovable host))
      | (labels, Ok removed) =>
          let rev := if removed : bool then bump (revision p) else revision p in
          (set_mode (with_labels cfg labels) rev p, Ok removed)
      end
  end.

(** ** The policy as a transition system *)

Inductive policy_op :=
  | OpSetExecutionPolicy (e : ExecutionPolicy)
  | OpSetWorkspacePolicy (w : WorkspacePolicy)
  | OpTransitionTo (next : PolicyState)
  | OpActivate
  | OpRequestDisable
  | OpDrainCompleted (active_attempts : Z)
  | OpAuthenticationFailed
  | OpReauthenticated
  | OpRepairRequired
  | OpPromote (labels : RoutingLabels) (min max : Z)
  | OpPromoteNamed (os : Os) (arch : Arch) (min max : Z)
  | OpSetMaxCapacity (max : Z)
  | OpAddRoutingLabel (l : Label)
  | OpRemoveRoutingLabel (l : Label).

(** The call with the value it returns left out; [None] is a panic. *)
Definition no_value {A E} (c : ScalePolicy * result A E)
    : option (ScalePolicy * result () E) :=
  Some (c.1, map_ok (λ _, tt) c.2).

Definition apply_policy_op (op : policy_op) (p : ScalePolicy)
    : option (ScalePolicy * result () PolicyError) :=
  match op with
  | OpSetExecutionPolicy e => no_value (set_execution_policy e p)
  | OpSetWorkspacePolicy w => no_value (set_workspace_policy w p)
  | OpTransitionTo next => no_value (transition_to next p)
  | OpActivate => no_value (activate p)
  | OpRequestDisable => no_value (request_disable p)
  | OpDrainCompleted n => no_value (drain_completed n p)
  | OpAuthenticationFailed => no_value (authentication_failed p)
  | OpReauthenticated => no_value (reauthenticated p)
  | OpRepairRequired => no_value (repair_required p)
  | OpPromote labels min max => no_value (promote_to_autoscale labels min max p)
  | OpPromoteNamed os arch min max => promote_named_to_autoscale os arch min max p
  | OpSetMaxCapacity max => no_value (set_max_capacity max p)
  | OpAddRoutingLabel l => no_value (add_routing_label l p)
  | OpRemoveRoutingLabel l => no_value (remove_routing_label l p)
  end.

(** What the Rust types of the arguments guarantee. *)
Definition capacity_typed (min max : Z) : Prop := in_u16 min ∧ nonzero_u16 max.
Definition policy_op_typed (op : policy_op) : Prop :=
  match op with
  | OpPromote labels min max => valid_labels labels ∧ capacity_typed min max
  | OpPromoteNamed _ _ min max => capacity_typed min max
  | OpSetMaxCapacity max => nonzero_u16 max
  | OpAddRoutingLabel l => valid_label (label_str l)
  | _ => True
  end.

(** ** The invariant *)

Definition valid_mode (m : PolicyMode) : Prop :=
  match m with
  | MonitorOnly => True
  | Autoscale cfg =>
      valid_labels (cfg_labels cfg) ∧ in_u16 (cfg_min cfg) ∧ nonzero_u16 (cfg_max cfg) ∧
      cfg_min cfg ≤ cfg_max cfg
  end.

Record valid_policy (p : ScalePolicy) : Prop := {
  vp_host_label : valid_selector (host_label_str (requested_host_label p));
  vp_profile : valid_selector (profile_str (profile_name p));
  vp_mode : valid_mode (mode p);
  vp_selector : check_profile_selector (profile_name p) (mode p) = Ok tt;
  vp_workspace : wp_permitted_for (workspace_policy p) (scope (target p)) = Ok tt;
  vp_execution :
    ExecutionPolicy_validate (execution_policy p) (scope (target p)) (workspace_policy p)
    = Ok tt;
  vp_revision : in_u64 (revision p);
}.

Lemma bump_u64 rev : in_u64 rev → in_u64 (bump rev).
Proof. unfold bump. zarith. Qed.

Lemma mode_autoscale_ok labels min max m :
  mode_autoscale labels min max = Ok m ↔ min ≤ max ∧ m = Autoscale (mk_config labels min max).
Proof.
  unfold mode_autoscale, AutoscaleConfig_new. case_bool_decide; simpl.
  - split; [done|]. lia.
  - split; [intros [= <-]|intros [_ ->]]; [split; [lia|done]|done].
Qed.

Lemma mode_autoscale_valid labels min max m :
  mode_autoscale labels min max = Ok m → valid_labels labels → capacity_typed min max →
  valid_mode m.
Proof. intros [? ->]%mode_autoscale_ok ? [??]. by split_and!. Qed.

Lemma check_profile_default profile m :
  is_default profile = true → check_profile_selector profile m = Ok tt.
Proof. unfold check_profile_selector. by intros ->. Qed.

(** Only the host label matters to the selector check. *)
Lemma check_profile_same_host profile cfg labels :
  host_label labels = host_label (cfg_labels cfg) →
  check_profile_selector profile (with_labels cfg labels)
  = check_profile_selector profile (Autoscale cfg).
Proof. intros E. unfold check_profile_selector. simpl. by rewrite E. Qed.

Lemma derived_selector_checks profile t m labels :
  mode_labels m = Some labels →
  label_str (host_label labels) = t ++ dash ++ profile_str profile →
  check_profile_selector profile m = Ok tt.
Proof.
  intros Hm Hl. unfold check_profile_selector. rewrite Hm, Hl.
  assert (ends_with (dash ++ profile_str profile) (t ++ dash ++ profile_str profile) = true)
    as ->; [|by destruct (is_default profile)].
  apply ends_with_spec. by exists t.
Qed.

Lemma labels_add_host l r : host_label (labels_add l r).1 = host_label r.
Proof. unfold labels_add. case_bool_decide; [done|]. by destruct (set_insert _ _). Qed.

Lemma labels_remove_host l r : host_label (labels_remove l r).1 = host_label r.
Proof. unfold labels_remove. case_bool_decide; [done|]. by destruct (set_remove _ _). Qed.

(** Changes of the lifecycle fields keep the invariant. *)
Lemma valid_policy_lifecycle s e rev p :
  in_u64 rev → valid_policy p → valid_policy (set_lifecycle s e rev p).
Proof. intros Hr [??????]. by split. Qed.

Lemma valid_policy_mode m rev p :
  valid_policy p → valid_mode m → check_profile_selector (profile_name p) m = Ok tt →
  in_u64 rev → valid_policy (set_mode m rev p).
Proof. intros [??????]. by split. Qed.

Lemma valid_policy_runtime w e rev p :
  valid_policy p → wp_permitted_for w (scope (target p)) = Ok tt →
  ExecutionPolicy_validate e (scope (target p)) w = Ok tt → in_u64 rev →
  valid_policy (set_runtime w e rev p).
Proof. intros [??????]. by split. Qed.

#[export] Hint Resolve bump_u64 vp_revision valid_policy_lifecycle : rust.

Lemma transition_to_cases next p :
  transition_to next p =
    if policy_can_transition_to (p_state p) next
    then (set_lifecycle next (enabled p) (bump (revision p)) p, Ok tt)
    else (p, Err (PIllegalTransition (p_state p) next)).
Proof. unfold transition_to. by destruct (policy_can_transition_to _ _). Qed.

Lemma transition_to_valid next p : valid_policy p → valid_policy (transition_to next p).1.
Proof. intros Hp. rewrite transition_to_cases. case_match; simpl; eauto with rust. Qed.

Lemma set_enabled_valid e p : valid_policy p → valid_policy (set_enabled e p).
Proof. unfold set_enabled. eauto with rust. Qed.
#[export] Hint Resolve transition_to_valid set_enabled_valid : rust.

(** A method all of whose stages keep the invariant keeps it. *)
Lemma st_bind_pres {S A B E} (P : S → Prop) (m : method S A E) (k : A → method S B E) s :
  P (m s).1 → (∀ a s', P s' → P (k a s').1) → P (st_bind m k s).1.
Proof. unfold st_bind. destruct (m s) as [s' [a|e]]; simpl; auto. Qed.

Lemma set_execution_policy_valid e p : valid_policy p → valid_policy (set_execution_policy e p).1.
Proof.
  intros Hp. unfold set_execution_policy. case_match eqn:E; [|done].
  case_bool_decide; [|done]. simpl. apply map_err_ok in E. destruct a.
  apply valid_policy_runtime; eauto using vp_workspace with rust.
Qed.

Lemma set_workspace_policy_valid w p : valid_policy p → valid_policy (set_workspace_policy w p).1.
Proof.
  intros Hp. unfold set_workspace_policy. case_match eqn:E; [|done].
  case_match eqn:E'; [|done]. case_bool_decide; [|done]. simpl.
  apply map_err_ok in E, E'. destruct a, a0.
  apply valid_policy_runtime; eauto with rust.
Qed.

Lemma drain_completed_valid n p : valid_policy p → valid_policy (drain_completed n p).1.
Proof.
  intros Hp. unfold drain_completed. apply st_bind_pres; [done|]. intros _ q Hq.
  apply st_bind_pres; [|done]. case_bool_decide; eauto with rust.
Qed.

Lemma promote_to_autoscale_valid labels min max p :
  valid_policy p → valid_labels labels → capacity_typed min max →
  valid_policy (promote_to_autoscale labels min max p).1.
Proof.
  intros Hp Hl Hc. unfold promote_to_autoscale. munfold.
  destruct (is_default (profile_name p)) eqn:Hd; [|done].
  destruct (is_autoscale (mode p)); [done|]. simpl.
  destruct (mode_autoscale labels min max) as [m|e] eqn:Hm; [|done]. simpl.
  apply valid_policy_mode; eauto using mode_autoscale_valid, check_profile_default with rust.
Qed.

Lemma promote_named_valid os arch min max p :
  valid_policy p → capacity_typed min max →
  ∃ p' r, promote_named_to_autoscale os arch min max p = Some (p', r) ∧ valid_policy p'.
Proof.
  intros Hp Hc. unfold promote_named_to_autoscale.
  destruct (is_default (profile_name p)); [eauto|].
  destruct (is_autoscale (mode p)); [eauto|].
  pose proof (vp_host_label _ Hp) as Hh. pose proof (vp_profile _ Hp) as Hf.
  rewrite derive_for_profile_eq by done. munfold.
  destruct (mode_autoscale _ min max) as [m|e] eqn:Hm; [|eauto].
  eexists _, _. split; [done|]. unfold set_mode_bumped.
  apply valid_policy_mode; eauto using mode_autoscale_valid, valid_labels_single,
    profile_text_label with rust.
  apply mode_autoscale_ok in Hm as [_ ->]. by eapply derived_selector_checks.
Qed.

Lemma set_max_capacity_valid max p :
  valid_policy p → nonzero_u16 max → valid_policy (set_max_capacity max p).1.
Proof.
  intros Hp Hmax. pose proof (vp_mode _ Hp) as Hm. pose proof (vp_selector _ Hp) as Hs.
  unfold set_max_capacity. destruct (mode p) as [|cfg]; [done|].
  destruct Hm as (Hl & Hmin & Hmx & Hle). unfold cfg_set_max_capacity.
  case_bool_decide; simpl; unfold set_mode_bumped; apply valid_policy_mode;
    try exact Hs; eauto with rust; simpl; split_and!; try done; lia.
Qed.

Lemma with_labels_valid cfg labels rev p :
  valid_policy p → mode p = Autoscale cfg → valid_labels labels →
  host_label labels = host_label (cfg_labels cfg) → in_u64 rev →
  valid_policy (set_mode (with_labels cfg labels) rev p).
Proof.
  intros Hp Hm Hl Hh Hr. pose proof (vp_mode _ Hp) as Hv. rewrite Hm in Hv.
  destruct Hv as (_ & ? & ? & ?). apply valid_policy_mode; try done.
  rewrite check_profile_same_host, <- Hm by done. apply Hp.
Qed.

Lemma add_routing_label_valid l p :
  valid_policy p → valid_label (label_str l) → valid_policy (add_routing_label l p).1.
Proof.
  intros Hp Hl. pose proof (vp_mode _ Hp) as Hv.
  unfold add_routing_label. destruct (mode p) as [|cfg] eqn:Hm; [done|].
  destruct Hv as (Hc & _). pose proof (labels_add_valid l _ Hl Hc) as Hl'.
  pose proof (labels_add_host l (cfg_labels cfg)) as Hh.
  destruct (labels_add l (cfg_labels cfg)) as [labels added]; simpl in *.
  apply with_labels_valid; try done. destruct added; eauto with rust.
Qed.

Lemma remove_routing_label_valid l p :
  valid_policy p → valid_policy (remove_routing_label l p).1.
Proof.
  intros Hp. pose proof (vp_mode _ Hp) as Hv.
  unfold remove_routing_label. destruct (mode p) as [|cfg] eqn:Hm; [done|].
  destruct Hv as (Hc & _). pose proof (labels_remove_valid l _ Hc) as Hl'.
  pose proof (labels_remove_host l (cfg_labels cfg)) as Hh.
  destruct (labels_remove l (cfg_labels cfg)) as [labels [removed|e]]; simpl in *;
    apply with_labels_valid; try done; [destruct removed|]; eauto with rust.
Qed.

#[export] Hint Resolve set_execution_policy_valid set_workspace_policy_valid
  drain_completed_valid promote_to_autoscale_valid set_max_capacity_valid
  add_routing_label_valid remove_routing_label_valid : rust.

Lemma activate_valid p : valid_policy p → valid_policy (activate p).1.
Proof.
  intros Hp. unfold activate. apply st_bind_pres; [eauto with rust|]. intros _ q.
  apply set_enabled_valid.
Qed.

Lemma request_disable_valid p : valid_policy p → valid_policy (request_disable p).1.
Proof.
  intros Hp. unfold request_disable. apply st_bind_pres; [eauto with rust|]. intros _ q Hq.
  apply st_bind_pres; [by apply set_enabled_valid|done].
Qed.
#[export] Hint Resolve activate_valid request_disable_valid : rust.

Lemma policy_op_valid op p :
  policy_op_typed op → valid_policy p →
  ∃ p' r, apply_policy_op op p = Some (p', r) ∧ valid_policy p'.
Proof.
  intros Ht Hp. destruct op; simpl in *; unfold no_value;
    try (eexists _, _; split; [reflexivity|]; destruct_and?;
         unfold authentication_failed, reauthenticated, repair_required; by eauto with rust).
  by apply promote_named_valid.
Qed.

(** *** What one call changes *)

Definition same_policy (p q : ScalePolicy) : Prop :=
  p_id p = p_id q ∧ target p = target q ∧ installation_id p = installation_id q ∧
  host_id p = host_id q ∧ requested_host_label p = requested_host_label q ∧
  profile_name p = profile_name q ∧ cache_policy p = cache_policy q.

(** Nothing changed, or the revision moved by one. *)
Definition revised {A} (p : ScalePolicy) (c : ScalePolicy * result A PolicyError) : Prop :=
  same_policy c.1 p ∧
  match c.2 with
  | Err _ => c.1 = p
  | Ok _ => c.1 = p ∨ revision c.1 = bump (revision p)
  end.

Lemma set_mode_id p : set_mode (mode p) (revision p) p = p.
Proof. by destruct p. Qed.

Lemma set_mode_same cfg p : mode p = Autoscale cfg → set_mode (Autoscale cfg) (revision p) p = p.
Proof. intros <-. apply set_mode_id. Qed.

Lemma with_labels_same cfg : with_labels cfg (cfg_labels cfg) = Autoscale cfg.
Proof. by destruct cfg. Qed.

Lemma labels_add_false l r : (labels_add l r).2 = false → (labels_add l r).1 = r.
Proof.
  unfold labels_add. case_bool_decide; [done|].
  pose proof (set_insert_present l (additional r)) as Hp.
  destruct (set_insert l (additional r)) as [s b]; simpl in *. intros E. rewrite Hp by done.
  by destruct r.
Qed.

Lemma labels_remove_false l r r' : labels_remove l r = (r', Ok false) → r' = r.
Proof.
  unfold labels_remove. case_bool_decide; [done|].
  pose proof (set_remove_absent l (additional r)) as Hp.
  destruct (set_remove l (additional r)) as [s b]; simpl in *. intros [= <- ->].
  rewrite Hp by done. by destruct r.
Qed.

Lemma labels_remove_err l r r' e : labels_remove l r = (r', Err e) → r' = r.
Proof. unfold labels_remove. intros H. cases. done. Qed.

Lemma transition_to_revised next p : revised p (transition_to next p).
Proof. rewrite transition_to_cases. case_match; (split; [done|]); simpl; auto. Qed.

Lemma set_max_capacity_revised max p : revised p (set_max_capacity max p).
Proof.
  unfold set_max_capacity. destruct (mode p) as [|cfg] eqn:Hm; [done|].
  unfold cfg_set_max_capacity. case_bool_decide; (split; [done|]); simpl; [|auto].
  by apply set_mode_same.
Qed.

Lemma add_routing_label_revised l p : revised p (add_routing_label l p).
Proof.
  unfold add_routing_label. destruct (mode p) as [|cfg] eqn:Hm; [done|].
  pose proof (labels_add_false l (cfg_labels cfg)) as Hf.
  destruct (labels_add l (cfg_labels cfg)) as [labels [|]]; simpl in *; (split; [done|]); simpl.
  - by right.
  - left. rewrite Hf, with_labels_same by done. by apply set_mode_same.
Qed.

Lemma remove_routing_label_revised l p : revised p (remove_routing_label l p).
Proof.
  unfold remove_routing_label. destruct (mode p) as [|cfg] eqn:Hm; [done|].
  destruct (labels_remove l (cfg_labels cfg)) as [labels [[|]|e]] eqn:Hr; (split; [done|]); simpl.
  - by right.
  - left. apply labels_remove_false in Hr as ->. rewrite with_labels_same. by apply set_mode_same.
  - apply labels_remove_err in Hr as ->. rewrite with_labels_same. by apply set_mode_same.
Qed.

Ltac revision_moves := simpl; split; [done | simpl; auto].

Lemma policy_op_revised op p p' r : apply_policy_op op p = Some (p', r) → revised p (p', r).
Proof.
  assert (∀ A (c : ScalePolicy * result A PolicyError),
            revised p c → no_value c = Some (p', r) → revised p (p', r)) as Hno.
  { intros A [q [a|e]] [Hs Hq]; intros [= <- <-]; by split. }
  intros H. destruct op; simpl in H;
    first [ refine (Hno _ _ _ H) | idtac ];
    eauto using transition_to_revised, set_max_capacity_revised, add_routing_label_revised,
      remove_routing_label_revised.
  - unfold set_execution_policy. repeat case_match; revision_moves.
  - unfold set_workspace_policy. repeat case_match; revision_moves.
  - unfold activate. munfold. rewrite transition_to_cases.
    destruct (policy_can_transition_to _ _); revision_moves.
  - unfold request_disable. munfold. rewrite transition_to_cases.
    destruct (policy_can_transition_to _ _); revision_moves.
  - unfold drain_completed. munfold. case_bool_decide; [|done].
    case_bool_decide; [|revision_moves]. rewrite transition_to_cases.
    destruct (policy_can_transition_to _ _); revision_moves.
  - unfold promote_to_autoscale. munfold. repeat case_match; simplify_eq/=; revision_moves.
  - unfold promote_named_to_autoscale in H. munfold.
    repeat case_match; simplify_eq/=; revision_moves.
Qed.

(** *** Reachable policies *)

Inductive reachable_policy : ScalePolicy → Prop :=
  | rp_new id t installation host label m cache :
      valid_selector (host_label_str label) → valid_mode m →
      reachable_policy (new_for_host_label id t installation host label m cache)
  | rp_named id t installation host spec cache p :
      valid_selector (host_label_str (spec_host_label spec)) →
      valid_selector (profile_str (spec_profile spec)) →
      capacity_typed (spec_min spec) (spec_max spec) →
      new_named id t installation host spec cache = Some (Ok p) → reachable_policy p
  | rp_named_monitor id t installation host label profile cache p :
      valid_selector (host_label_str label) → valid_selector (profile_str profile) →
      new_named_monitor id t installation host label profile cache = Ok p → reachable_policy p
  | rp_step p op p' r :
      reachable_policy p → policy_op_typed op → apply_policy_op op p = Some (p', r) →
      reachable_policy p'.

Lemma ephemeral_permitted s : wp_permitted_for WEphemeral s = Ok tt.
Proof. by destruct s. Qed.

Lemma default_profile_valid : valid_selector (profile_str default_profile).
Proof. vm_compute. split_and!; try done; repeat constructor. Qed.

Lemma with_profile_valid id t installation host label m cache profile :
  valid_selector (host_label_str label) → valid_selector (profile_str profile) → valid_mode m →
  check_profile_selector profile m = Ok tt →
  valid_policy (with_profile (new_for_host_label id t installation host label m cache) profile).
Proof. intros. split; simpl; try done. apply ephemeral_permitted. Qed.

Lemma reachable_policy_valid p : reachable_policy p → valid_policy p.
Proof.
  induction 1 as [id t i h label m cache Hl Hm|id t i h spec cache p Hl Hf Hc H
                 |id t i h label profile cache p Hl Hf H|p op p' r _ IH Ht H].
  - apply (with_profile_valid _ _ _ _ _ _ _ default_profile);
      auto using default_profile_valid, check_profile_default.
  - unfold new_named in H. destruct (is_default (spec_profile spec)); [done|].
    rewrite derive_for_profile_eq in H by done.
    destruct (mode_autoscale _ _ _) as [m|] eqn:Hm; [|done]. injection H as <-.
    pose proof (mode_autoscale_valid _ _ _ _ Hm) as Hv.
    apply mode_autoscale_ok in Hm as [_ ->].
    apply with_profile_valid; try done; [|by eapply derived_selector_checks].
    by apply Hv; [apply valid_labels_single, profile_text_label|].
  - unfold new_named_monitor in H. cases. apply with_profile_valid; try done.
    unfold check_profile_selector. by case_match.
  - destruct (policy_op_valid op p Ht IH) as (q & r' & Hq & Hv). by simplify_eq.
Qed.

(** *** The stored shape *)

Definition mode_ordered (m : PolicyMode) : Prop :=
  match m with MonitorOnly => True | Autoscale cfg => cfg_min cfg ≤ cfg_max cfg end.

Record policy_loadable (p : ScalePolicy) : Prop := {
  pl_mode : mode_ordered (mode p);
  pl_selector : check_profile_selector (profile_name p) (mode p) = Ok tt;
  pl_workspace : wp_permitted_for (workspace_policy p) (scope (target p)) = Ok tt;
  pl_execution :
    ExecutionPolicy_validate (execution_policy p) (scope (target p)) (workspace_policy p)
    = Ok tt;
}.

Lemma valid_policy_loadable p : valid_policy p → policy_loadable p.
Proof. intros [_ _ Hm ????]. split; try done. destruct (mode p); [done|]. naive_solver. Qed.

Lemma mode_from_persisted_ok labels min max m :
  mode_from_persisted labels min max = Ok m ↔
  mode_ordered m ∧ mode_labels m = labels ∧ mode_min m = min ∧ mode_max m = max.
Proof.
  unfold mode_from_persisted. split.
  - destruct labels as [labels|], max as [max|]; try done.
    + by intros [? ->]%mode_autoscale_ok.
    + case_bool_decide as Hz; [done|]. intros [= <-]. by subst.
  - intros (Ho & <- & <- & <-). destruct m as [|[labels min max]]; [done|].
    by apply mode_autoscale_ok.
Qed.

Lemma wp_from_persisted_ok k root s w :
  wp_from_persisted k root s = Ok w ↔
  wp_permitted_for w s = Ok tt ∧ wp_kind w = k ∧ wp_root w = root.
Proof.
  split.
  - intros H. split; [by eapply wp_from_persisted_permitted|].
    unfold wp_from_persisted, wp_persistent in H. cases; done.
  - intros (Hp & <- & <-). by apply wp_roundtrip.
Qed.

Lemma policy_from_persisted_ok f p :
  policy_from_persisted f = Ok p ↔ policy_loadable p ∧ policy_to_persisted p = f.
Proof.
  unfold policy_from_persisted. split.
  - intros H. repeat (case_match; [|done]). injection H as <-.
    rename select (mode_from_persisted _ _ _ = _) into Hm.
    rename select (map_err PWorkspace _ = _) into Hw.
    rename select (map_err PExecution _ = _) into He.
    apply mode_from_persisted_ok in Hm as (Ho & Hl & Hmin & Hmax).
    apply map_err_ok, wp_from_persisted_ok in Hw as (Hp & Hk & Hr).
    apply map_err_ok in He. repeat match goal with x : () |- _ => destruct x end.
    split; [by split|]. unfold policy_to_persisted. simpl.
    rewrite Hl, Hmin, Hmax, Hk, Hr. by destruct f.
  - intros [[Ho Hs Hw He] <-]. simpl.
    rewrite (proj2 (mode_from_persisted_ok _ _ _ (mode p))) by done.
    rewrite Hs. rewrite (proj2 (wp_from_persisted_ok _ _ _ (workspace_policy p))) by done.
    simpl. rewrite He. simpl. by destruct p.
Qed.

(** *** Activation *)

(** Calls in sequence, refusals included; [None] is a panic. *)
Fixpoint run_policy (ops : list policy_op) (p : ScalePolicy) : option ScalePolicy :=
  match ops with
  | [] => Some p
  | op :: ops =>
      match apply_policy_op op p with Some (p', _) => run_policy ops p' | None => None end
  end.

Lemma policy_op_enabled op p p' r :
  apply_policy_op op p = Some (p', r) → enabled p' = true → enabled p = true ∨ op = OpActivate.
Proof.
  assert (∀ next q, enabled (transition_to next q).1 = enabled q) as Ht.
  { intros next q. rewrite transition_to_cases. by destruct (policy_can_transition_to _ _). }
  intros H. destruct op; simpl in H; unfold no_value in H; simplify_eq; auto; intros He; left.
  - unfold set_execution_policy in He. repeat case_match; simplify_eq/=; done.
  - unfold set_workspace_policy in He. repeat case_match; simplify_eq/=; done.
  - by rewrite Ht in He.
  - unfold request_disable in He. munfold. rewrite transition_to_cases in He.
    by destruct (policy_can_transition_to _ _).
  - unfold drain_completed in He. munfold. repeat case_bool_decide; try done.
    rewrite transition_to_cases in He. by destruct (policy_can_transition_to _ _).
  - unfold authentication_failed in He. by rewrite Ht in He.
  - unfold reauthenticated in He. by rewrite Ht in He.
  - unfold repair_required in He. by rewrite Ht in He.
  - unfold promote_to_autoscale in He. munfold. repeat case_match; simplify_eq/=; done.
  - unfold promote_named_to_autoscale in H. munfold. repeat case_match; simplify_eq/=; done.
  - unfold set_max_capacity, cfg_set_max_capacity in He. repeat case_match; simplify_eq/=; done.
  - unfold add_routing_label in He. repeat case_match; simplify_eq/=; done.
  - unfold remove_routing_label in He. repeat case_match; simplify_eq/=; done.
Qed.

Lemma run_policy_enabled ops p q :
  run_policy ops p = Some q → enabled q = true → enabled p = true ∨ OpActivate ∈ ops.
Proof.
  revert p. induction ops as [|op ops IH]; intros p; simpl; [intros [= <-]; auto|].
  destruct (apply_policy_op op p) as [[p' r]|] eqn:Ho; [|done]. intros Hr Hq.
  destruct (IH _ Hr Hq) as [He|Hin]; [|right; by right].
  destruct (policy_op_enabled _ _ _ _ Ho He) as [?| ->]; [by left|right; by left].
Qed.

(** ** Theorems *)

(** C25: every policy built by a constructor and changed by any calls, accepted or
    refused, is valid (label set well formed, [min <= max], a named profile's
    selector ends with its name, workspace and execution permitted for the target's
    scope), and no call on it panics. *)
Theorem policy_reachable_valid p :
  reachable_policy p →
  valid_policy p ∧
  ∀ op, policy_op_typed op → ∃ p' r, apply_policy_op op p = Some (p', r).
Proof.
  intros Hp%reachable_policy_valid. split; [done|]. intros op Ht.
  destruct (policy_op_valid op p Ht Hp) as (p' & r & ? & _). eauto.
Qed.

(** The loader accepts exactly the stored shapes of loadable policies (all the
    policies the program can build are, by their validity) and returns the policy that
    was stored, state, enablement and revision included. *)
Theorem policy_from_persisted_exact f p :
  (policy_from_persisted f = Ok p ↔ policy_loadable p ∧ policy_to_persisted p = f) ∧
  (reachable_policy p → policy_loadable p).
Proof.
  split; [apply policy_from_persisted_ok|].
  intros Hp. by apply valid_policy_loadable, reachable_policy_valid.
Qed.

(** No call changes what the policy is for (id, target, installation, host, host
    label, profile, cache policy); a refused call changes nothing; an accepted call
    either changes nothing or moves the revision by exactly one, so that two different
    contents of a policy never carry the same revision in sequence. *)
Theorem policy_call_revises op p p' r :
  apply_policy_op op p = Some (p', r) →
  same_policy p' p ∧
  match r with
  | Err _ => p' = p
  | Ok _ => p' = p ∨ revision p' = bump (revision p)
  end.
Proof. apply policy_op_revised. Qed.

(** Whatever calls are made on a new policy, it may start runners only if it is an
    active autoscaling policy that was explicitly activated. *)
Theorem runners_need_activation id t installation host label m cache ops q :
  run_policy ops (new_for_host_label id t installation host label m cache) = Some q →
  may_start_runners q = true →
  OpActivate ∈ ops ∧ p_state q = Active ∧ ∃ cfg, mode q = Autoscale cfg.
Proof.
  intros Hr Hm. unfold may_start_runners in Hm. breflect. split_and!.
  - by destruct (run_policy_enabled _ _ _ Hr) as [?|?].
  - by destruct (p_state q).
  - destruct (mode q); [done|]. eauto.
Qed.

(** ** Witnesses *)

Definition example_spec : NamedProfileSpec :=
  mk_spec example_host Linux X64 (mk_ProfileName (lit "gpu")) 0 4.
Definition example_target : ScaleTarget :=
  Repository (mk_OwnerRepo (mk_Name (lit "octo")) (mk_Name (lit "repo"))).
Definition example_named : option (result ScalePolicy PolicyError) :=
  new_named 7%N example_target 99 1%N example_spec RetainRunnerPackage.
Definition example_monitor : ScalePolicy :=
  new_for_host_label 7%N example_target 99 1%N example_host MonitorOnly RetainRunnerPackage.
Definition example_policy_ops : list policy_op :=
  [OpPromote example_labels 0 4; OpActivate; OpAddRoutingLabel (mk_Label (lit "extra"))].

Lemma example_spec_valid :
  valid_selector (profile_str (spec_profile example_spec)) ∧ capacity_typed 0 4.
Proof. split; vm_compute; split_and!; try done; repeat constructor. Qed.

Lemma policy_reachable_valid_witness :
  ∃ p, example_named = Some (Ok p) ∧ valid_policy p ∧
    label_str (host_label (default example_labels (mode_labels (mode p))))
    = lit "rm-home--pc-linux-x64-gpu".
Proof.
  destruct example_named as [[p|]|] eqn:E; [|vm_compute in E; discriminate..].
  exists p. split; [reflexivity|]. split.
  - apply (policy_reachable_valid p). eapply rp_named; [| | |exact E].
    + exact example_host_valid.
    + exact (proj1 example_spec_valid).
    + exact (proj2 example_spec_valid).
  - vm_compute in E. injection E as <-. vm_compute. reflexivity.
Defined.

Lemma policy_from_persisted_exact_witness :
  policy_loadable example_monitor ∧
  policy_from_persisted (policy_to_persisted example_monitor) = Ok example_monitor.
Proof.
  assert (policy_loadable example_monitor) as H.
  { apply (policy_from_persisted_exact (policy_to_persisted example_monitor)).
    apply rp_new; [exact example_host_valid|exact I]. }
  split; [exact H|].
  apply (policy_from_persisted_exact (policy_to_persisted example_monitor) example_monitor).
  split; [exact H|reflexivity].
Defined.

Lemma policy_call_revises_witness :
  same_policy (activate example_monitor).1 example_monitor ∧
  ((activate example_monitor).1 = example_monitor ∨ revision (activate example_monitor).1 = 1).
Proof.
  exact (policy_call_revises OpActivate example_monitor (activate example_monitor).1 (Ok tt)
           eq_refl).
Defined.

Lemma runners_need_activation_witness :
  OpActivate ∈ example_policy_ops ∧
  may_start_runners (default example_monitor (run_policy example_policy_ops example_monitor))
  = true.
Proof.
  split; [|vm_compute; reflexivity].
  eapply (runners_need_activation 7%N example_target 99 1%N example_host MonitorOnly
            RetainRunnerPackage example_policy_ops); vm_compute; reflexivity.
Defined.

(** ** Two remarks on the documented diagram *)

(** A policy in [RepairRequired] does return to [Active]: the rule that any state may
    fail authentication leads out of it. *)
Lemma repair_required_recovers p :
  p_state p = RepairRequired →
  option_map p_state (run_policy [OpAuthenticationFailed; OpReauthenticated; OpActivate] p)
  = Some Active.
Proof. intros Hs. destruct p. cbn [p_state] in Hs. subst. vm_compute. reflexivity. Qed.

(** [reauthenticated] is also accepted in [Disabled]. *)
Lemma reauthenticated_from_disabled p :
  p_state p = Disabled → (reauthenticated p).2 = Ok tt ∧ p_state (reauthenticated p).1 = Pending.
Proof. intros Hs. destruct p; simpl in *; subst. done. Qed.
