(* ===== verification/Capacity.v ===== *)
(** * The two-level capacity ceiling ([crates/domain/src/capacity.rs])

    The host-wide allocator, one reconciliation pass over the policies, and the
    documented formula as an abstract specification that it refines. *)

From stdpp Require Import strings.
From S2P Require Import Prelude RustStr Ordered Model Path Workspace Execution Host Attempt.
From S2P Require Import Labels Policy.
#[local] Open Scope Z_scope.
#[local] Open Scope rust_scope.

Inductive LimitingFactor :=
  | LDemand | LMinCapacity | LMaxCapacity | LHostCapacity | LMonitorOnly | LNotReconciling
  | LForeignHost.
#[global] Instance LimitingFactor_eq_dec : EqDecision LimitingFactor.
Proof. solve_decision. Defined.

Record Allocation := mk_allocation {
  al_policy_id : PolicyId;
  al_demand : Z;           (* u32 *)
  al_desired : Z;          (* u16 *)
  al_active_owned : Z;     (* u16 *)
  al_headroom_before : Z;  (* u16 *)
  to_start : Z;            (* u16 *)
  limiting_factor : LimitingFactor;
}.
#[global] Instance Allocation_eq_dec : EqDecision Allocation.
Proof. solve_decision. Defined.

Definition starts_nothing (a : Allocation) : bool := bool_decide (to_start a = 0).

Record HostAllocator := mk_allocator {
  ha_host_id : HostId;
  ha_host_capacity : Z;  (* NonZeroU16 *)
  ha_attempts : list RunnerAttempt;
  ha_active_total : Z;   (* u16 *)
}.

Definition from_attempts (host : Host) (attempts : list RunnerAttempt) : HostAllocator :=
  mk_allocator (h_id host) (host_capacity host) attempts (active_count attempts).

Definition headroom (a : HostAllocator) : Z := sat_sub (ha_host_capacity a) (ha_active_total a).

(** The states of a runner that can still take a queued job. *)
Definition is_unassigned (s : AttemptState) : bool :=
  match s with
  | Allocated | Preparing | Prepared | JitReceived | Starting | Idle => true
  | _ => false
  end.

Definition unassigned_count (id : PolicyId) (attempts : list RunnerAttempt) : Z :=
  Z.of_nat (length (List.filter (λ a, is_unassigned (state a))
    (List.filter (λ a, bool_decide (a_policy_id a = id)) attempts))).

Definition refuse (p : ScalePolicy) (demand active_owned headroom_before : Z)
    (f : LimitingFactor) : Allocation :=
  mk_allocation (p_id p) demand 0 active_owned headroom_before 0 f.

(** [Ord::clamp] panics on an inverted range: [None]. *)
Definition checked_clamp (x lo hi : Z) : option Z :=
  if bool_decide (lo > hi) then None else Some (clamp x lo hi).

(** [None] is a panic: a missing [max_capacity] or an inverted range. *)
Definition allocate (p : ScalePolicy) (demand : Z) (a : HostAllocator)
    : option (HostAllocator * Allocation) :=
  let active_owned := active_count_for (p_id p) (ha_attempts a) in
  let headroom_before := headroom a in
  let refuse := refuse p demand active_owned headroom_before in
  if negb (is_owned_by p (ha_host_id a)) then Some (a, refuse LForeignHost)
  else if negb (owns_runners p) then Some (a, refuse LMonitorOnly)
  else if negb (may_start_runners p) then Some (a, refuse LNotReconciling)
  else
    let min := mode_min (mode p) in
    match mode_max (mode p) with
    | None => None
    | Some max =>
        let unassigned_supply := Z.min (unassigned_count (p_id p) (ha_attempts a)) U16_MAX in
        let target := sat_add U32_MAX demand (sat_sub active_owned unassigned_supply) in
        match checked_clamp target min max with
        | None => None
        | Some desired =>
            let factor :=
              if bool_decide (target > max) then LMaxCapacity
              else if bool_decide (target < min) then LMinCapacity
              else LDemand in
            let wanted := sat_sub desired active_owned in
            let start := Z.min wanted headroom_before in
            let factor := if bool_decide (start < wanted) then LHostCapacity else factor in
            Some (mk_allocator (ha_host_id a) (ha_host_capacity a) (ha_attempts a)
                    (sat_add U16_MAX (ha_active_total a) start),
                  mk_allocation (p_id p) demand desired active_owned headroom_before start
                    factor)
        end
    end.

(** One pass: [allocate] once per policy, in order, on one allocator. *)
Fixpoint allocate_pass (ps : list (ScalePolicy * Z)) (a : HostAllocator)
    : option (HostAllocator * list Allocation) :=
  match ps with
  | [] => Some (a, [])
  | (p, demand) :: ps =>
      match allocate p demand a with
      | None => None
      | Some (a', g) =>
          match allocate_pass ps a' with
          | None => None
          | Some (a'', gs) => Some (a'', g :: gs)
          end
      end
  end.

Definition total_started (gs : list Allocation) : Z := foldr (λ g n, to_start g + n) 0 gs.

(** ** The documented formula *)

(** Unbounded arithmetic: [demand + (active - unassigned)] clamped to the policy's
    range, less what already runs, within the room the host has. *)
Definition spec_to_start (min max demand active unassigned room : Z) : Z :=
  let desired := Z.max min (Z.min (demand + (active - unassigned)) max) in
  Z.max 0 (Z.min (desired - active) room).

(** The attempts of a policy that hold a slot, uncapped. *)
Definition active_of (id : PolicyId) (attempts : list RunnerAttempt) : Z :=
  Z.of_nat (length (List.filter
    (λ a, bool_decide (a_policy_id a = id) && counts_against_capacity a) attempts)).
Definition active_of_host (attempts : list RunnerAttempt) : Z :=
  Z.of_nat (length (List.filter counts_against_capacity attempts)).

Lemma active_count_for_spec id attempts :
  active_count_for id attempts = Z.min U16_MAX (active_of id attempts).
Proof. unfold active_count_for. by rewrite sat_count_spec. Qed.

Lemma active_count_spec attempts : active_count attempts = Z.min U16_MAX (active_of_host attempts).
Proof. unfold active_count. by rewrite sat_count_spec. Qed.

Lemma is_unassigned_active a : is_unassigned (state a) = true → counts_against_capacity a = true.
Proof. unfold counts_against_capacity. by destruct (state a). Qed.

Lemma unassigned_le_active id attempts :
  0 ≤ unassigned_count id attempts ≤ active_of id attempts.
Proof.
  unfold unassigned_count, active_of. split; [lia|].
  induction attempts as [|a l IH]; [done|]. simpl.
  destruct (bool_decide (a_policy_id a = id)); simpl; [|done].
  pose proof (is_unassigned_active a).
  destruct (is_unassigned (state a)); [rewrite H by done; simpl; lia|].
  destruct (counts_against_capacity a); simpl; lia.
Qed.

(** ** Well-formed allocators *)

Definition valid_allocator (a : HostAllocator) : Prop :=
  nonzero_u16 (ha_host_capacity a) ∧ in_u16 (ha_active_total a).

Lemma from_attempts_valid host attempts :
  host_typed host → valid_allocator (from_attempts host attempts).
Proof.
  intros Hh. split; [done|]. simpl. rewrite active_count_spec.
  unfold active_of_host, in_u16, U16_MAX. lia.
Qed.

(** A policy the allocator may serve: ours, autoscaling, enabled and active. *)
Definition serves (a : HostAllocator) (p : ScalePolicy) (cfg : AutoscaleConfig) : Prop :=
  is_owned_by p (ha_host_id a) = true ∧ mode p = Autoscale cfg ∧ may_start_runners p = true.

(** The saturating arithmetic of the code computes the documented formula. *)
Lemma saturated_start min max d active unassigned room :
  in_u16 min → nonzero_u16 max → min ≤ max → 0 ≤ d → 0 ≤ unassigned ≤ active → 0 ≤ room →
  Z.min (sat_sub (Z.max min (Z.min (sat_add U32_MAX d
           (sat_sub (Z.min U16_MAX active) (Z.min unassigned U16_MAX))) max))
         (Z.min U16_MAX active)) room
  = spec_to_start min max d active unassigned room.
Proof.
  unfold in_u16, nonzero_u16, spec_to_start. intros Hmin Hmax Hle Hd Hu Hr.
  destruct (Z.le_gt_cases active U16_MAX) as [Ha|Ha].
  - rewrite !(Z.min_r U16_MAX active), (Z.min_l unassigned) by lia.
    unfold sat_sub, sat_add. rewrite (Z.max_r 0 (active - unassigned)) by lia.
    unfold U16_MAX, U32_MAX in *. lia.
  - rewrite !(Z.min_l U16_MAX active) by lia. unfold sat_sub. lia.
Qed.

Lemma allocate_served a p cfg demand :
  valid_allocator a → valid_policy p → serves a p cfg → in_u32 demand →
  ∃ g, allocate p demand a =
         Some (mk_allocator (ha_host_id a) (ha_host_capacity a) (ha_attempts a)
                 (ha_active_total a + to_start g), g) ∧
    al_policy_id g = p_id p ∧ al_headroom_before g = headroom a ∧
    to_start g = spec_to_start (cfg_min cfg) (cfg_max cfg) demand
                   (active_of (p_id p) (ha_attempts a))
                   (unassigned_count (p_id p) (ha_attempts a)) (headroom a).
Proof.
  intros [Hcap Htot] Hp (Ho & Hm & Hs) Hd. pose proof (vp_mode _ Hp) as Hv. rewrite Hm in Hv.
  destruct Hv as (_ & Hmin & Hmax & Hle).
  pose proof (unassigned_le_active (p_id p) (ha_attempts a)) as Hu.
  unfold allocate, owns_runners. rewrite Ho, Hs, Hm. simpl.
  unfold checked_clamp. rewrite bool_decide_eq_false_2 by lia.
  rewrite clamp_spec, active_count_for_spec by done.
  assert (0 ≤ headroom a) as Hr by (unfold headroom, sat_sub; lia).
  rewrite saturated_start by (try done; unfold in_u32 in Hd; lia).
  eexists (mk_allocation _ _ _ _ _ _ _). split.
  - do 3 f_equal. simpl. unfold sat_add. apply Z.min_r.
    unfold spec_to_start, headroom, sat_sub, in_u16, nonzero_u16 in *. lia.
  - simpl. by split_and!.
Qed.

(** Starting what the formula asks for leaves nothing to start. *)
Lemma spec_to_start_again min max d active unassigned room room' k :
  k = spec_to_start min max d active unassigned room → 0 ≤ room → room' ≤ Z.max 0 (room - k) →
  spec_to_start min max d (active + k) (unassigned + k) room' = 0.
Proof.
  unfold spec_to_start.
  replace (active + k - (unassigned + k)) with (active - unassigned) by lia.
  generalize (Z.max min (Z.min (d + (active - unassigned)) max)). lia.
Qed.

(** Why a policy is not served, in the order the code asks. *)
Definition refusal (a : HostAllocator) (p : ScalePolicy) : option LimitingFactor :=
  if negb (is_owned_by p (ha_host_id a)) then Some LForeignHost
  else if negb (owns_runners p) then Some LMonitorOnly
  else if negb (may_start_runners p) then Some LNotReconciling
  else None.

Lemma allocate_refused a p demand f :
  refusal a p = Some f →
  allocate p demand a =
    Some (a, refuse p demand (active_count_for (p_id p) (ha_attempts a)) (headroom a) f).
Proof. unfold refusal, allocate. intros H. cases; done. Qed.

Lemma refusal_None a p : refusal a p = None → ∃ cfg, serves a p cfg.
Proof.
  unfold refusal, owns_runners. intros H. cases. breflect.
  destruct (mode p) as [|cfg] eqn:Hm; [done|]. exists cfg. by split_and!.
Qed.

(** The part of an allocator a pass leaves alone. *)
Definition same_host (a b : HostAllocator) : Prop :=
  ha_host_id a = ha_host_id b ∧ ha_host_capacity a = ha_host_capacity b ∧
  ha_attempts a = ha_attempts b.

Lemma allocate_total a p demand :
  valid_allocator a → valid_policy p → in_u32 demand →
  ∃ a' g, allocate p demand a = Some (a', g) ∧ same_host a' a ∧ valid_allocator a' ∧
    al_policy_id g = p_id p ∧
    ha_active_total a' = ha_active_total a + to_start g ∧ 0 ≤ to_start g ≤ headroom a ∧
    (to_start g = 0 ∨ ∃ max, mode_max (mode p) = Some max ∧
       active_of (p_id p) (ha_attempts a) + to_start g ≤ max).
Proof.
  intros Ha Hp Hd. destruct (refusal a p) as [f|] eqn:Hr.
  - rewrite (allocate_refused _ _ _ _ Hr). eexists _, _. split; [done|]. simpl.
    assert (0 ≤ headroom a) by (unfold headroom, sat_sub; lia).
    split_and!; try done; try lia; by left.
  - destruct (refusal_None _ _ Hr) as [cfg Hs].
    destruct (allocate_served a p cfg demand Ha Hp Hs Hd) as (g & -> & Hid & _ & Hg).
    assert (0 ≤ to_start g ≤ headroom a) as Hb.
    { assert (0 ≤ headroom a) by (unfold headroom, sat_sub; lia).
      rewrite Hg. unfold spec_to_start. lia. }
    eexists _, _. split; [done|]. destruct Ha as [Hc Ht]. simpl. split_and!; try done; try lia.
    + split; [done|]. simpl. unfold headroom, sat_sub in Hb.
      unfold in_u16, nonzero_u16 in *. lia.
    + destruct (Z.eq_dec (to_start g) 0) as [|Hz]; [by left|right].
      destruct Hs as (_ & Hm & _). rewrite Hm. exists (cfg_max cfg). split; [done|].
      pose proof (vp_mode _ Hp) as Hv. rewrite Hm in Hv. destruct Hv as (_ & _ & _ & Hle).
      unfold spec_to_start in Hg. lia.
Qed.

(** The headroom left after a grant. *)
Lemma headroom_after a a' n :
  same_host a' a → ha_active_total a' = ha_active_total a + n → 0 ≤ n ≤ headroom a →
  headroom a' = headroom a - n.
Proof. intros (_ & Hc & _) Ht Hn. unfold headroom, sat_sub in *. rewrite Hc, Ht. lia. Qed.

Lemma allocate_pass_total ps a :
  valid_allocator a → Forall (λ pd, valid_policy pd.1 ∧ in_u32 pd.2) ps →
  ∃ a' gs, allocate_pass ps a = Some (a', gs) ∧ same_host a' a ∧
    al_policy_id <$> gs = p_id ∘ fst <$> ps ∧
    0 ≤ total_started gs ≤ headroom a ∧ ha_active_total a' = ha_active_total a + total_started gs ∧
    Forall2 (λ pd g, to_start g = 0 ∨ ∃ max, mode_max (mode pd.1) = Some max ∧
               active_of (p_id pd.1) (ha_attempts a) + to_start g ≤ max) ps gs.
Proof.
  intros Ha Hps. revert a Ha. induction Hps as [|[p d] ps [Hp Hd] _ IH]; intros a Ha; simpl.
  { eexists _, _. split; [done|]. assert (0 ≤ headroom a) by (unfold headroom, sat_sub; lia).
    simpl. split_and!; try done; lia. }
  destruct (allocate_total a p d Ha Hp Hd) as (a1 & g & -> & Hs & Ha1 & Hid & Ht & Hb & Hm).
  destruct (IH a1 Ha1) as (a2 & gs & -> & Hs2 & Hids & Hb2 & Ht2 & Hm2).
  pose proof (headroom_after _ _ _ Hs Ht Hb) as Hh.
  destruct Hs as (? & ? & He). destruct Hs2 as (? & ? & ?).
  eexists _, _. split; [done|]. unfold total_started in *. simpl. split_and!; try lia.
  - split_and!; congruence.
  - rewrite Hid. f_equal. exact Hids.
  - constructor; [done|]. by rewrite He in Hm2.
Qed.

(** *** Counting over a larger set of attempts *)

Lemma active_of_app id l k : active_of id (l ++ k) = active_of id l + active_of id k.
Proof. unfold active_of. rewrite List.filter_app, length_app. lia. Qed.

Lemma active_of_host_app l k : active_of_host (l ++ k) = active_of_host l + active_of_host k.
Proof. unfold active_of_host. rewrite List.filter_app, length_app. lia. Qed.

Lemma unassigned_app id l k :
  unassigned_count id (l ++ k) = unassigned_count id l + unassigned_count id k.
Proof. unfold unassigned_count. rewrite !List.filter_app, length_app. lia. Qed.

Lemma counts_nonneg id l : 0 ≤ active_of id l ∧ 0 ≤ active_of_host l ∧ 0 ≤ unassigned_count id l.
Proof. unfold active_of, active_of_host, unassigned_count. lia. Qed.

(** Runners that were just started for the policy: all of them count, all are free. *)
Definition fresh_for (id : PolicyId) (x : RunnerAttempt) : Prop :=
  a_policy_id x = id ∧ is_unassigned (state x) = true.

Lemma counts_fresh id l :
  Forall (fresh_for id) l →
  active_of id l = Z.of_nat (length l) ∧ active_of_host l = Z.of_nat (length l) ∧
  unassigned_count id l = Z.of_nat (length l).
Proof.
  unfold active_of, active_of_host, unassigned_count.
  induction 1 as [|x l [Hx Hu] _ IH]; [done|]. simpl.
  rewrite bool_decide_eq_true_2 by done. simpl. rewrite Hu, is_unassigned_active by done.
  simpl. lia.
Qed.

Lemma counts_others id l :
  Forall (λ x, a_policy_id x ≠ id) l → active_of id l = 0 ∧ unassigned_count id l = 0.
Proof.
  unfold active_of, unassigned_count.
  induction 1 as [|x l Hx _ IH]; [done|]. simpl. by rewrite bool_decide_eq_false_2.
Qed.

(** ** Theorems *)

(** C9: one pass over any policies, in any order, never oversubscribes the machine:
    the runners started add up to at most the room the host has over the attempts it
    already holds, every grant keeps its policy within its own maximum, and the pass
    never panics. *)
Theorem pass_respects_both_ceilings host attempts ps :
  host_typed host → Forall (λ pd, valid_policy pd.1 ∧ in_u32 pd.2) ps →
  ∃ a' gs, allocate_pass ps (from_attempts host attempts) = Some (a', gs) ∧
    al_policy_id <$> gs = p_id ∘ fst <$> ps ∧
    (total_started gs = 0 ∨ active_of_host attempts + total_started gs ≤ host_capacity host) ∧
    Forall2 (λ pd g, to_start g = 0 ∨ ∃ max, mode_max (mode pd.1) = Some max ∧
               active_of (p_id pd.1) attempts + to_start g ≤ max) ps gs.
Proof.
  intros Hh Hps.
  destruct (allocate_pass_total ps (from_attempts host attempts)) as
    (a' & gs & He & _ & Hids & Hb & _ & Hm); [by apply from_attempts_valid|done|].
  exists a', gs. split_and!; try done. unfold headroom, sat_sub in Hb. simpl in Hb.
  rewrite active_count_spec in Hb. unfold host_typed, nonzero_u16 in Hh. lia.
Qed.

(** C24: the allocator computes the documented formula: a policy of another host, a
    monitoring policy and a policy that is not reconciling are refused, in that order;
    every other policy is granted [max 0 (min (clamp (demand + active - unassigned) min
    max - active) headroom)] over unbounded counts, the saturation of the machine
    integers never showing. *)
Theorem allocate_refines_formula a p demand :
  valid_allocator a → valid_policy p → in_u32 demand →
  ∃ a' g, allocate p demand a = Some (a', g) ∧
    match refusal a p with
    | Some f => a' = a ∧ to_start g = 0 ∧ limiting_factor g = f
    | None => ∃ cfg, mode p = Autoscale cfg ∧
        to_start g = spec_to_start (cfg_min cfg) (cfg_max cfg) demand
                       (active_of (p_id p) (ha_attempts a))
                       (unassigned_count (p_id p) (ha_attempts a)) (headroom a)
    end.
Proof.
  intros Ha Hp Hd. destruct (refusal a p) as [f|] eqn:Hr.
  - rewrite (allocate_refused _ _ _ _ Hr). by eexists _, _.
  - destruct (refusal_None _ _ Hr) as [cfg Hs].
    destruct (allocate_served a p cfg demand Ha Hp Hs Hd) as (g & -> & _ & _ & Hg).
    destruct Hs as (_ & Hm & _). eauto 10.
Qed.

(** A job that stays queued while its runner starts is served once: when the
    runners a poll granted have been created, and other policies have created theirs,
    polling again with the same demand grants nothing more. *)
Theorem same_demand_starts_nothing_more host attempts p demand a1 g new others :
  host_typed host → valid_policy p → in_u32 demand →
  allocate p demand (from_attempts host attempts) = Some (a1, g) →
  Z.of_nat (length new) = to_start g → Forall (fresh_for (p_id p)) new →
  Forall (λ x, a_policy_id x ≠ p_id p) others →
  ∃ a2 g', allocate p demand (from_attempts host (attempts ++ new ++ others)) = Some (a2, g') ∧
    to_start g' = 0.
Proof.
  intros Hh Hp Hd Ha Hlen Hnew Hoth.
  pose proof (from_attempts_valid host attempts Hh) as Hv.
  pose proof (from_attempts_valid host (attempts ++ new ++ others) Hh) as Hv'.
  destruct (refusal (from_attempts host attempts) p) as [f|] eqn:Hr.
  - rewrite (allocate_refused _ p demand f) by done. by eexists _, _.
  - destruct (refusal_None _ _ Hr) as [cfg Hs].
    destruct (allocate_served _ p cfg demand Hv Hp Hs Hd) as (g0 & E & _ & _ & Hg).
    rewrite E in Ha. injection Ha as _ ->.
    destruct (allocate_served _ p cfg demand Hv' Hp Hs Hd) as (g' & -> & _ & _ & Hg').
    eexists _, g'. split; [done|]. rewrite Hg'. simpl.
    rewrite !active_of_app, !unassigned_app.
    destruct (counts_fresh _ _ Hnew) as (-> & Hn & ->).
    destruct (counts_others _ _ Hoth) as (-> & ->). rewrite !Z.add_0_r, Hlen.
    eapply spec_to_start_again; [exact Hg|unfold headroom, sat_sub; lia|].
    clear Hg Hg' E Hv Hv'. unfold headroom, sat_sub. simpl.
    rewrite !active_count_spec, !active_of_host_app, Hn.
    pose proof (counts_nonneg (p_id p) others).
    unfold host_typed, nonzero_u16 in Hh. lia.
Qed.

(** Unserved demand is acted on: when more jobs are queued than the policy has free
    runners, the policy is below its maximum and the host has room, at least one runner
    is started. *)
Theorem unserved_demand_starts_a_runner a p cfg demand :
  valid_allocator a → valid_policy p → in_u32 demand → serves a p cfg →
  unassigned_count (p_id p) (ha_attempts a) < demand →
  active_of (p_id p) (ha_attempts a) < cfg_max cfg → 0 < headroom a →
  ∃ a' g, allocate p demand a = Some (a', g) ∧ 1 ≤ to_start g.
Proof.
  intros Ha Hp Hd Hs Hu Hm Hr.
  destruct (allocate_served a p cfg demand Ha Hp Hs Hd) as (g & -> & _ & _ & Hg).
  eexists _, g. split; [done|]. rewrite Hg. unfold spec_to_start. lia.
Qed.

(** ** Witnesses *)

Definition example_machine : Host :=
  mk_host 1%N (lit "pc") Windows X64 3 Boot RefreshInterval_default None 0.
Definition example_active : ScalePolicy :=
  default example_monitor (run_policy example_policy_ops example_monitor).
(** Two attempts of the policy, one busy and one starting, and one of another policy. *)
Definition example_attempt (id policy : N) (ops : list (attempt_op * Timestamp)) :=
  (run ops (allocate_in id policy (lit "rt") AEphemeral 0)).1.
Definition example_busy : RunnerAttempt :=
  example_attempt 1%N 7%N [(OpJitReceived, 1); (OpStarted 77, 2); (OpAssignedJob 9, 3)].
Definition example_starting : RunnerAttempt := example_attempt 2%N 7%N [].

Lemma example_active_valid : valid_policy example_active.
Proof.
  apply reachable_policy_valid. unfold example_active.
  assert (∀ ops p q, Forall policy_op_typed ops → reachable_policy p →
            run_policy ops p = Some q → reachable_policy q) as Hrun.
  { induction ops as [|op ops IH]; intros p q Ht Hp; simpl; [by intros [= <-]|].
    apply Forall_cons in Ht as [Ht Hts].
    destruct (apply_policy_op op p) as [[p' r]|] eqn:E; [|done]. intros Hq.
    by eapply IH; [done|eapply rp_step|]. }
  destruct (run_policy example_policy_ops example_monitor) as [q|] eqn:E;
    [|vm_compute in E; discriminate].
  apply (Hrun example_policy_ops example_monitor q); [|by apply rp_new; [apply example_host_valid|]|exact E].
  repeat constructor; vm_compute; try done; try (repeat constructor); try discriminate.
  set_solver.
Qed.

Lemma example_monitor_valid : valid_policy example_monitor.
Proof. apply reachable_policy_valid, rp_new; [exact example_host_valid|exact I]. Qed.

Lemma example_machine_typed : host_typed example_machine.
Proof. vm_compute. split; discriminate. Qed.

Lemma pass_respects_both_ceilings_witness :
  ∃ a' gs, allocate_pass [(example_active, 5); (example_monitor, 2)]
             (from_attempts example_machine [example_busy]) = Some (a', gs) ∧
    total_started gs = 2.
Proof.
  destruct (pass_respects_both_ceilings example_machine [example_busy]
              [(example_active, 5); (example_monitor, 2)]) as (a' & gs & H & _).
  - exact example_machine_typed.
  - apply Forall_cons. split; [|apply Forall_singleton]; (split; [|vm_compute; split; discriminate]).
    + exact example_active_valid.
    + exact example_monitor_valid.
  - exists a', gs. split; [exact H|]. vm_compute in H. injection H as _ <-. reflexivity.
Defined.

Lemma allocate_refines_formula_witness :
  ∃ a' g, allocate example_active 5 (from_attempts example_machine [example_busy]) = Some (a', g) ∧
    to_start g = 2.
Proof.
  destruct (allocate_refines_formula (from_attempts example_machine [example_busy])
              example_active 5) as (a' & g & H & _).
  - apply from_attempts_valid, example_machine_typed.
  - exact example_active_valid.
  - vm_compute. split; discriminate.
  - exists a', g. split; [exact H|]. vm_compute in H. injection H as _ <-. reflexivity.
Defined.

Lemma same_demand_starts_nothing_more_witness :
  ∃ a2 g', allocate example_active 2
             (from_attempts example_machine ([example_busy] ++ [example_starting; example_starting]
                ++ [])) = Some (a2, g') ∧ to_start g' = 0.
Proof.
  eapply (same_demand_starts_nothing_more example_machine [example_busy] example_active 2).
  - exact example_machine_typed.
  - exact example_active_valid.
  - vm_compute. split; discriminate.
  - vm_compute. reflexivity.
  - vm_compute. reflexivity.
  - repeat constructor.
  - constructor.
Defined.

Lemma unserved_demand_starts_a_runner_witness :
  ∃ a' g, allocate example_active 2 (from_attempts example_machine [example_starting])
          = Some (a', g) ∧ 1 ≤ to_start g.
Proof.
  destruct (mode example_active) as [|cfg] eqn:Hm; [vm_compute in Hm; discriminate|].
  apply (unserved_demand_starts_a_runner _ example_active cfg).
  - apply from_attempts_valid, example_machine_typed.
  - exact example_active_valid.
  - vm_compute. split; discriminate.
  - split; [vm_compute; reflexivity|]. split; [exact Hm|vm_compute; reflexivity].
  - vm_compute. reflexivity.
  - vm_compute in Hm. injection Hm as <-. vm_compute. reflexivity.
  - vm_compute. reflexivity.
Defined.
