(* ===== verification/Recovery.v ===== *)
(** * Ownership and recovery decisions ([crates/domain/src/attempt.rs], lines 102-124 and
    1338-1860) *)

From stdpp Require Import strings.
From S2P Require Import Prelude RustStr Ordered Model Path Workspace Execution Attempt Labels.
From S2P Require Import Policy.
#[local] Open Scope Z_scope.
#[local] Open Scope rust_scope.

(** ** Ownership *)

Inductive OwnershipError :=
  | PolicyMismatch (attempt : AttemptId) (attempt_policy policy : PolicyId)
  | ForeignHost (policy : PolicyId) (owner agent : HostId).

Definition authorize (agent : HostId) (p : ScalePolicy) (a : RunnerAttempt)
    : result () OwnershipError :=
  if bool_decide (a_policy_id a ≠ p_id p)
  then Err (PolicyMismatch (a_id a) (a_policy_id a) (p_id p))
  else if negb (is_owned_by p agent) then Err (ForeignHost (p_id p) (host_id p) agent)
  else Ok tt.

(** ** Observations *)

Record RecoveryTimeouts := mk_timeouts {
  jit_handoff : Elapsed;
  startup : Elapsed;
  idle : Elapsed;
}.
Definition provisional : RecoveryTimeouts :=
  mk_timeouts (seconds 120) (seconds 300) (seconds 300).

Inductive GithubRunnerObservation :=
  | Unreachable
  | NotRegistered
  | Registered (busy : bool).
#[global] Instance GithubRunnerObservation_eq_dec : EqDecision GithubRunnerObservation.
Proof. solve_decision. Defined.

Record RecoveryObservation := mk_observation {
  process_alive : bool;
  github : GithubRunnerObservation;
}.

Inductive RecoveryDecision :=
  | Nothing | Clean | Adopt | Wait | Defer
  | Observe (s : AttemptState)
  | Conclude (o : AttemptOutcome)
  | Terminate (o : AttemptOutcome).
#[global] Instance RecoveryDecision_eq_dec : EqDecision RecoveryDecision.
Proof. solve_decision. Defined.

(** [None] is [unreachable!]. *)
Definition recovery_decision (a : RunnerAttempt) (obs : RecoveryObservation)
    (timeouts : RecoveryTimeouts) (now : Timestamp) : option RecoveryDecision :=
  let s := state a in
  if bool_decide (s = Cleaned) then Some Nothing
  else if is_terminal s then Some Clean
  else if bool_decide (github obs = Unreachable) then Some Defer
  else
    let elapsed := now - last_state_change_at a in
    match s with
    | Allocated | JitReceived =>
        if process_alive obs then Some Adopt
        else match github obs with
        | Registered _ =>
            Some (Observe (if bool_decide (s = Allocated) then JitReceived else Starting))
        | NotRegistered =>
            if bool_decide (jit_handoff timeouts ≤ elapsed)
            then Some (Conclude (OutcomeFailed
                   (if bool_decide (s = Allocated) then JitRequestFailed else JitExpired)))
            else Some Wait
        | Unreachable => None
        end
    | Starting =>
        match github obs with
        | Registered true => Some (Observe Busy)
        | Registered false => Some (Observe Idle)
        | NotRegistered =>
            if negb (process_alive obs)
            then Some (Conclude (OutcomeFailed ProcessExitedUnexpectedly))
            else if bool_decide (elapsed < startup timeouts) then Some Adopt
            else Some (Terminate (OutcomeFailed RegistrationTimedOut))
        | Unreachable => None
        end
    | Idle =>
        match github obs with
        | Registered true => Some (Observe Busy)
        | Registered false =>
            if negb (process_alive obs) then Some (Conclude OutcomeOrphaned)
            else if bool_decide (idle timeouts ≤ elapsed)
            then Some (Terminate ExitedIdleWithoutWork)
            else Some Adopt
        | NotRegistered =>
            if process_alive obs then Some Adopt
            else if bool_decide (idle timeouts ≤ elapsed)
            then Some (Conclude ExitedIdleWithoutWork)
            else Some (Conclude (OutcomeFailed ProcessExitedUnexpectedly))
        | Unreachable => None
        end
    | Busy => if process_alive obs then Some Adopt else Some (Conclude OutcomeOrphaned)
    | Preparing | Prepared => Some Wait
    | Finished | Failed | Orphaned | Destroying | CleanupDeferred | Cleaned => None
    end.

(** ** Facts *)

(** Split on everything the decision reads. *)
Ltac decision_cases :=
  unfold recovery_decision;
  match goal with
  | |- context [state ?a] => destruct (state a) eqn:?
  end; simpl;
  repeat match goal with
  | |- context [github ?o] => destruct (github o) as [| |[|]] eqn:?
  | |- context [process_alive ?o] => destruct (process_alive o) eqn:?
  end; simpl; repeat case_bool_decide; simplify_eq/=; try done.

Lemma recovery_decision_some a obs timeouts now :
  ∃ d, recovery_decision a obs timeouts now = Some d.
Proof. decision_cases; eauto. Qed.

(** Only a dead process is concluded without being stopped. *)
Lemma conclude_only_dead a obs timeouts now o :
  recovery_decision a obs timeouts now = Some (Conclude o) → process_alive obs = false.
Proof. decision_cases; intros; simplify_eq/=; congruence. Qed.

(** Only a concluded attempt is cleaned. *)
Lemma clean_only_terminal a obs timeouts now :
  recovery_decision a obs timeouts now = Some Clean → is_terminal (state a) = true.
Proof. decision_cases; intros; simplify_eq/=; congruence. Qed.

(** What the state machine lets the decision do. *)
Definition decision_legal (s : AttemptState) (d : RecoveryDecision) : bool :=
  match d with
  | Nothing => bool_decide (s = Cleaned)
  | Clean => is_terminal s && negb (bool_decide (s = Cleaned))
  | Adopt | Wait | Defer => negb (is_terminal s)
  | Observe s' => can_transition_to s s' && negb (is_terminal s')
  | Conclude o | Terminate o => bool_decide (s ∈ required_from o)
  end.

(** ** Theorems *)

(** Only an agent of the policy's own host, and only for an attempt of that policy,
    passes the ownership check. *)
Lemma authorize_exact agent p a :
  authorize agent p a = Ok tt ↔ a_policy_id a = p_id p ∧ host_id p = agent.
Proof.
  unfold authorize, is_owned_by. repeat case_bool_decide; simpl; naive_solver.
Qed.

(** Every recovery decision is one the state machine accepts: it never panics, it
    cleans only concluded attempts, it observes only along edges of the diagram, and a
    conclusion it asks for (at once, or after stopping the process) is accepted by
    [conclude] and gives the attempt that outcome. *)
Theorem recovery_decision_legal a obs timeouts now :
  ∃ d, recovery_decision a obs timeouts now = Some d ∧ decision_legal (state a) d = true ∧
    ∀ o, d = Conclude o ∨ d = Terminate o →
      ∃ b, conclude o now a = (b, Ok tt) ∧ outcome b = Some o ∧ is_terminal (state b) = true.
Proof.
  assert (∃ d, recovery_decision a obs timeouts now = Some d ∧
            decision_legal (state a) d = true) as (d & Hd & Hl).
  { decision_cases; eauto. }
  exists d. split_and!; try done. intros o Ho.
  assert (state a ∈ required_from o) as Hs by (destruct Ho as [-> | ->]; by apply bool_decide_eq_true in Hl).
  rewrite conclude_accepts by done. eexists. split; [done|].
  split; [done|]. apply terminal_state_terminal.
Qed.

(** C11: recovery never discards live work: during an outage nothing about a live
    attempt is decided; an attempt is concluded only when its process is gone, and before
    its runner was started only when GitHub does not know it and the handoff timeout has
    passed; a process is stopped exactly when it lives and either starts, is not
    registered and the startup timeout has passed, or idles, is registered without a job
    and the idle timeout has passed; and a busy attempt whose process lives is kept. *)
Theorem recovery_keeps_live_work a obs timeouts now d :
  recovery_decision a obs timeouts now = Some d → is_terminal (state a) = false →
  let elapsed := now - last_state_change_at a in
  (github obs = Unreachable → d = Defer) ∧
  (∀ o, d = Conclude o → process_alive obs = false ∧
     (state a ∈ [Allocated; JitReceived] → github obs = NotRegistered ∧ jit_handoff timeouts ≤ elapsed)) ∧
  (∀ o, d = Terminate o ↔ process_alive obs = true ∧
     ((state a = Starting ∧ github obs = NotRegistered ∧ startup timeouts ≤ elapsed ∧
       o = OutcomeFailed RegistrationTimedOut) ∨
      (state a = Idle ∧ github obs = Registered false ∧ idle timeouts ≤ elapsed ∧ o = ExitedIdleWithoutWork))) ∧
  (state a = Busy → process_alive obs = true → d = Adopt ∨ d = Defer).
Proof.
  decision_cases; intros; simplify_eq/=; split_and!; intros; simplify_eq/=; auto;
    first [split; auto; intros Hs; exfalso; by apply elem_of_cons in Hs as [|[|?%not_elem_of_nil]%elem_of_cons] | naive_solver lia].
Qed.

(** A dead attempt does not linger: once its process is gone, GitHub does not know
    its runner and the handoff timeout has passed, every attempt past preparation is
    concluded on the next pass. *)
Theorem dead_attempt_is_concluded a obs timeouts now :
  is_terminal (state a) = false → state a ∉ [Preparing; Prepared] →
  process_alive obs = false → github obs = NotRegistered →
  jit_handoff timeouts ≤ now - last_state_change_at a →
  ∃ o, recovery_decision a obs timeouts now = Some (Conclude o).
Proof.
  decision_cases; intros; try done; eauto; try lia;
    rename select (_ ∉ _) into Hn; exfalso; apply Hn; state_in.
Qed.

(** ** Witnesses *)

(** A runner that registered and has waited ten minutes without work. *)
Definition example_idle : RunnerAttempt :=
  (run [(OpJitReceived, 1); (OpStarted 77, 2); (OpRegisteredIdle 9, 3)]
     (allocate_in 1%N 7%N (lit "rt") AEphemeral 0)).1.

Lemma recovery_keeps_live_work_witness :
  recovery_decision example_idle (mk_observation true (Registered false)) provisional
    (seconds 600) = Some (Terminate ExitedIdleWithoutWork) ∧ state example_idle ≠ Busy.
Proof.
  assert (recovery_decision example_idle (mk_observation true (Registered false)) provisional
    (seconds 600) = Some (Terminate ExitedIdleWithoutWork)) as H by (vm_compute; reflexivity).
  split; [exact H|].
  destruct (recovery_keeps_live_work example_idle (mk_observation true (Registered false))
              provisional (seconds 600) _ H) as (_ & _ & Ht & _); [reflexivity|].
  destruct (proj1 (Ht _) eq_refl) as [_ [[E _]|[E _]]]; rewrite E; discriminate.
Defined.

Lemma dead_attempt_is_concluded_witness :
  ∃ o, recovery_decision example_idle (mk_observation false NotRegistered) provisional
         (seconds 600) = Some (Conclude o).
Proof.
  apply dead_attempt_is_concluded; try (vm_compute; reflexivity).
  - by apply (bool_decide_eq_false_1 (state example_idle ∈ [Preparing; Prepared])).
  - vm_compute. discriminate.
Defined.
