(* ===== verification/Store.v ===== *)
(** * The SQLite journal ([crates/domain/src/store.rs] and its migrations)

    The three tables as finite maps, with the two unique indexes the migrations
    create, and every statement of [SqliteStore] as a transaction on them.

    A row holds the decoded columns. The token, JSON, UUID and timestamp codecs are
    those of serde, uuid and chrono and are not modelled; the text columns that the
    store hands to a validating constructor of the domain (slug, host label, profile
    name, paths, display name) are kept as text and are validated when they are read,
    as the code does. A failing disk or a locked database is not modelled. *)

From stdpp Require Import strings sorting.
From S2P Require Import Prelude RustStr Ordered Model Path Workspace Execution Host Attempt.
From S2P Require Import Labels Policy.
#[local] Open Scope Z_scope.
#[local] Open Scope rust_scope.

(** ** Errors *)

(** The [subject] text of [UncleanedCountChanged]. *)
Inductive CountSubject :=
  | SubjectPolicy (id : PolicyId)
  | SubjectPolicyExecution (id : PolicyId)
  | SubjectHost (id : HostId).

Inductive StoreError :=
  | SqliteConstraint  (* [Sqlite] with [ConstraintViolation] *)
  | StaleRevision (id : PolicyId) (expected found : Z)
  | ActiveCountChanged (id : PolicyId) (expected found : Z)
  | RunnerRootChanged (id : HostId) (expected found : option str)
  | UncleanedCountChanged (subject : CountSubject) (expected found : Z)
  | ExecutionAllocationChanged (id : AttemptId)
  | SlotAlreadyLeased (policy : PolicyId) (slot : Z)
  | NotFound (what : string) (id : N)
  | AlreadyExists (what : string) (id : N)
  | CorruptPolicy (id : PolicyId) (source : PolicyError)
  | CorruptProfileSelector (id : PolicyId)
  | ProfileLabelConflict (id sibling : PolicyId)
  | ProfileSelectorConflict (id sibling : PolicyId)
  | ProfileHostMissing (host : HostId)
  | ProfileIdentityChanged (id : PolicyId)
  | CorruptAttempt (id : AttemptId) (source : AttemptError)
  | CorruptHost (id : HostId) (source : ValidationError)
  | CorruptHostWorkspace (id : HostId) (source : WorkspaceError)
  | CorruptColumn (table column : string) (id : N)
  | UnrepresentableInteger (what : string) (value : Z)
  | UnrepresentablePath (attempt : AttemptId) (path : PathBuf).

(** ** Tables *)

Record HostRow := mk_host_row {
  hr_display_name : str;
  hr_os : Os;
  hr_architecture : Arch;
  hr_host_capacity : Z;
  hr_service_start_mode : StartMode;
  hr_refresh_interval_secs : Z;
  hr_runner_root_override : option str;
  hr_created_at : Timestamp;
}.

Record PolicyRow := mk_policy_row {
  pr_target_scope : TargetScope;
  pr_target_slug : str;
  pr_installation_id : Z;
  pr_host_id : HostId;
  pr_requested_host_label : str;
  pr_profile_name : str;
  pr_profile_selector : option str;
  pr_routing_labels : option (Label * list Label);
  pr_min_capacity : Z;
  pr_max_capacity : option Z;
  pr_enabled : bool;
  pr_state : PolicyState;
  pr_cache_policy : CachePolicy;
  pr_workspace_mode : WorkspaceKind;
  pr_workspace_path : option str;
  pr_execution_policy : ExecutionPolicy;
  pr_revision : Z;
}.

Record db := mk_db {
  hosts : gmap HostId HostRow;
  policies : gmap PolicyId PolicyRow;
  attempts : gmap AttemptId PersistedAttempt;
  clock_skew_repairs : Z;
}.

Definition set_hosts (t : gmap HostId HostRow) (d : db) : db :=
  mk_db t (policies d) (attempts d) (clock_skew_repairs d).
Definition set_policies (t : gmap PolicyId PolicyRow) (d : db) : db :=
  mk_db (hosts d) t (attempts d) (clock_skew_repairs d).
Definition set_attempts (t : gmap AttemptId PersistedAttempt) (d : db) : db :=
  mk_db (hosts d) (policies d) t (clock_skew_repairs d).
Definition add_repairs (n : Z) (d : db) : db :=
  mk_db (hosts d) (policies d) (attempts d) (clock_skew_repairs d + n).

Definition store_method (A : Type) := method db A StoreError.

(** [u64_to_sql]: SQLite integers are signed. *)
Definition u64_to_sql (what : string) (value : Z) : result Z StoreError :=
  if bool_decide (value ≤ I64_MAX) then Ok value else Err (UnrepresentableInteger what value).

(** ** Predicates of the queries *)

Definition active_sql (r : PersistedAttempt) : bool :=
  bool_decide (pa_state r ∈ List.filter state_counts_against_capacity AttemptState_ALL)
  || (negb (is_native (pa_execution r)) && negb (bool_decide (pa_state r = Cleaned))).
Definition uncleaned_sql (r : PersistedAttempt) : bool :=
  negb (bool_decide (pa_state r = Cleaned)).
Definition uncleaned_of_kind_sql (k : WorkspaceKind) (r : PersistedAttempt) : bool :=
  bool_decide (pa_workspace_kind r = k) && uncleaned_sql r.

(** [ORDER BY created_at, id]. *)
Definition attempt_row_le (r s : PersistedAttempt) : Prop :=
  pa_created_at r < pa_created_at s ∨
  pa_created_at r = pa_created_at s ∧ (pa_id r ≤ pa_id s)%N.
#[global] Instance attempt_row_le_dec : RelDecision attempt_row_le.
Proof. intros r s. unfold attempt_row_le. apply _. Defined.

Definition attempt_rows (d : db) : list PersistedAttempt :=
  merge_sort attempt_row_le (snd <$> map_to_list (attempts d)).

(** [SELECT MIN(COUNT( * ), 65535) FROM attempts WHERE ..]. *)
Definition attempt_count_sql (pred : PersistedAttempt → bool) (d : db) : Z :=
  Z.min (Z.of_nat (length (List.filter pred (attempt_rows d)))) U16_MAX.
Definition of_policy (id : PolicyId) (pred : PersistedAttempt → bool) (r : PersistedAttempt)
    : bool :=
  bool_decide (pa_policy_id r = id) && pred r.

Inductive CountedAttempts := CountActive | CountUncleaned.
Definition count_sql (c : CountedAttempts) (id : PolicyId) (d : db) : Z :=
  attempt_count_sql
    (of_policy id (match c with CountActive => active_sql | CountUncleaned => uncleaned_sql end))
    d.
Definition clamped_count (found : Z) : Z := if bool_decide (found ≤ U16_MAX) then found else U16_MAX.
Definition count_changed (c : CountedAttempts) (id : PolicyId) (expected found : Z) : StoreError :=
  match c with
  | CountActive => ActiveCountChanged id expected found
  | CountUncleaned => UncleanedCountChanged (SubjectPolicy id) expected found
  end.

(** ** Attempts *)

(** The repaired row, and how many timestamps were repaired. *)
Definition set_times (f : PersistedAttempt) (e : AttemptExecution) (changed : Timestamp)
    (terminal : option Timestamp) : PersistedAttempt :=
  {| pa_id := pa_id f; pa_policy_id := pa_policy_id f;
     pa_github_runner_id := pa_github_runner_id f; pa_state := pa_state f;
     pa_outcome := pa_outcome f; pa_process_id := pa_process_id f; pa_execution := e;
     pa_runtime_path := pa_runtime_path f; pa_workspace_kind := pa_workspace_kind f;
     pa_workspace_slot := pa_workspace_slot f; pa_created_at := pa_created_at f;
     pa_terminal_at := terminal; pa_last_state_change_at := changed |}.

Definition normalise (f : PersistedAttempt) : PersistedAttempt * Z :=
  let e := match pa_state f, pa_execution f with
           | Cleaned, Native None => Native (pa_process_id f)
           | _, e => e
           end in
  let '(changed, n1) :=
    if bool_decide (pa_last_state_change_at f < pa_created_at f)
    then (pa_created_at f, 1) else (pa_last_state_change_at f, 0) in
  let '(terminal, n2) :=
    match pa_terminal_at f with
    | Some t => if bool_decide (t < pa_created_at f) then (Some (pa_created_at f), 1)
                else (Some t, 0)
    | None => (None, 0)
    end in
  (set_times f e changed terminal, n1 + n2).

(** What [attempt_params] refuses to bind. *)
Definition attempt_params (f : PersistedAttempt) : result PersistedAttempt StoreError :=
  let? _ := ok_or (path_to_str (pa_runtime_path f))
              (UnrepresentablePath (pa_id f) (pa_runtime_path f)) in
  let? _ := match pa_github_runner_id f with
            | Some id => map_ok Some (u64_to_sql "attempts.github_runner_id" id)
            | None => Ok None
            end in
  Ok f.

(** The unique index [one_uncleaned_persistent_attempt_per_slot]. *)
Definition leases (r : PersistedAttempt) : bool := uncleaned_of_kind_sql KPersistent r.
Definition same_slot (r s : PersistedAttempt) : bool :=
  bool_decide (pa_policy_id r = pa_policy_id s)
  && bool_decide (pa_workspace_slot r = pa_workspace_slot s)
  && bool_decide (is_Some (pa_workspace_slot r)).
Definition slot_taken (r : PersistedAttempt) (d : db) : bool :=
  leases r
  && existsb (λ kr, negb (bool_decide (kr.1 = pa_id r)) && leases kr.2 && same_slot r kr.2)
       (map_to_list (attempts d)).

(** [INSERT .. ON CONFLICT(id) DO UPDATE]: the creation time and the workspace columns
    of an existing row stay. *)
Definition upsert_row (f : PersistedAttempt) (d : db) : PersistedAttempt :=
  match attempts d !! pa_id f with
  | None => f
  | Some old =>
      {| pa_id := pa_id f; pa_policy_id := pa_policy_id f;
         pa_github_runner_id := pa_github_runner_id f; pa_state := pa_state f;
         pa_outcome := pa_outcome f; pa_process_id := pa_process_id f;
         pa_execution := pa_execution f; pa_runtime_path := pa_runtime_path f;
         pa_workspace_kind := pa_workspace_kind old; pa_workspace_slot := pa_workspace_slot old;
         pa_created_at := pa_created_at old; pa_terminal_at := pa_terminal_at f;
         pa_last_state_change_at := pa_last_state_change_at f |}
  end.

Definition slot_lease_error (a : RunnerAttempt) : StoreError :=
  match aw_slot_number (workspace a) with
  | Some slot => if holds_slot_lease a then SlotAlreadyLeased (a_policy_id a) slot
                 else SqliteConstraint
  | None => SqliteConstraint
  end.

Definition record_attempt (a : RunnerAttempt) : store_method () := λ d0,
  let '(fields, repairs) := normalise (to_persisted a) in
  let d := add_repairs repairs d0 in
  match attempt_params fields with
  | Err e => (d, Err e)
  | Ok fields =>
      if match attempts d !! pa_id fields with
         | Some old => negb (can_advance_to (pa_execution old) (pa_execution fields))
         | None => false
         end
      then (d, Err (ExecutionAllocationChanged (pa_id fields)))
      else
        let row := upsert_row fields d in
        if slot_taken row d then (d, Err (slot_lease_error a))
        else (set_attempts (<[pa_id fields := row]> (attempts d)) d, Ok tt)
  end.

Definition attempt_from_row (row : PersistedAttempt) : store_method RunnerAttempt := λ d,
  let '(fields, repairs) := normalise row in
  (add_repairs repairs d,
   map_err (CorruptAttempt (pa_id fields)) (from_persisted fields)).

Definition attempt (id : AttemptId) : store_method (option RunnerAttempt) := λ d,
  match attempts d !! id with
  | Some row => (a <-? attempt_from_row row ;; st_ret (Some a)) d
  | None => (d, Ok None)
  end.

Fixpoint load_rows (rows : list PersistedAttempt) : store_method (list RunnerAttempt) :=
  match rows with
  | [] => st_ret []
  | row :: rows => a <-? attempt_from_row row ;; l <-? load_rows rows ;; st_ret (a :: l)
  end.

Definition attempts_where (pred : PersistedAttempt → bool)
    : store_method (list RunnerAttempt) := λ d,
  load_rows (List.filter pred (attempt_rows d)) d.

Definition attempts_for_policy (id : PolicyId) := attempts_where (of_policy id (λ _, true)).
Definition active_attempts_for_policy (id : PolicyId) := attempts_where (of_policy id active_sql).
Definition uncleaned_attempts_for_policy (id : PolicyId) :=
  attempts_where (of_policy id uncleaned_sql).
Definition slot_leases_for_policy (id : PolicyId) :=
  attempts_where (of_policy id (uncleaned_of_kind_sql KPersistent)).
Definition uncleaned_ephemeral_attempts := attempts_where (uncleaned_of_kind_sql KEphemeral).

Definition remove_attempt (id : AttemptId) : store_method bool := λ d,
  match attempts d !! id with
  | Some _ => (set_attempts (delete id (attempts d)) d, Ok true)
  | None => (d, Ok false)
  end.

(** ** Hosts *)

Section Native.
(** [PathPlatform::NATIVE], fixed when the program is built. *)
Context (NATIVE : PathPlatform).

Definition LocalAbsolutePath_new (raw : str) : result LocalAbsolutePath LocalPathError :=
  parse_for raw NATIVE.

(** [.map(LocalAbsolutePath::new).transpose()]. *)
Definition read_path (raw : option str) : result (option LocalAbsolutePath) WorkspaceError :=
  match raw with
  | Some raw => map_ok Some (map_err InvalidPath (LocalAbsolutePath_new raw))
  | None => Ok None
  end.

Definition host_row (h : Host) : HostRow :=
  mk_host_row (display_name h) (h_os h) (architecture h) (host_capacity h)
    (service_start_mode h) (refresh_secs (refresh_interval h))
    (text <$> runner_root_override h) (h_created_at h).

Definition put_host (h : Host) : store_method () :=
  st_modify (λ d, set_hosts (<[h_id h := host_row h]> (hosts d)) d).

Definition host_from_row (id : HostId) (r : HostRow) : result Host StoreError :=
  let? _ := if bool_decide (hr_host_capacity r = 0)
            then Err (CorruptColumn "hosts" "host_capacity" id) else Ok tt in
  let? root := map_err (CorruptHostWorkspace id) (read_path (hr_runner_root_override r)) in
  let? h := map_err (CorruptHost id)
              (Host_new id (hr_display_name r) (hr_os r) (hr_architecture r)
                 (hr_host_capacity r) (hr_created_at r)) in
  let? interval := map_err (CorruptHost id)
                     (RefreshInterval_from_secs (hr_refresh_interval_secs r)) in
  Ok {| h_id := h_id h; display_name := display_name h; h_os := h_os h;
        architecture := architecture h; host_capacity := host_capacity h;
        service_start_mode := hr_service_start_mode r; refresh_interval := interval;
        runner_root_override := root; h_created_at := h_created_at h |}.

Definition host (id : HostId) (d : db) : result (option Host) StoreError :=
  match hosts d !! id with
  | Some row => map_ok Some (host_from_row id row)
  | None => Ok None
  end.

Definition set_runner_root_override (id : HostId) (expected new_root : option LocalAbsolutePath)
    (expected_uncleaned : Z) : store_method () := λ d,
  let count := attempt_count_sql (uncleaned_of_kind_sql KEphemeral) d in
  match hosts d !! id with
  | None => (d, Err (NotFound "host" id))
  | Some r =>
      if bool_decide (hr_runner_root_override r = text <$> expected)
         && bool_decide (expected_uncleaned = count)
      then (set_hosts (<[id := mk_host_row (hr_display_name r) (hr_os r) (hr_architecture r)
                                 (hr_host_capacity r) (hr_service_start_mode r)
                                 (hr_refresh_interval_secs r) (text <$> new_root)
                                 (hr_created_at r)]> (hosts d)) d, Ok tt)
      else if bool_decide (hr_runner_root_override r ≠ text <$> expected)
      then (d, Err (RunnerRootChanged id (text <$> expected) (hr_runner_root_override r)))
      else (d, Err (UncleanedCountChanged (SubjectHost id) expected_uncleaned
                      (clamped_count count)))
  end.

(** ** Policies *)

Definition policy_params (f : PersistedPolicy) : result PolicyRow StoreError :=
  let? installation := u64_to_sql "policies.installation_id" (pp_installation_id f) in
  let? rev := u64_to_sql "policies.revision" (pp_revision f) in
  Ok {| pr_target_scope := scope (pp_target f);
        pr_target_slug := slug (pp_target f);
        pr_installation_id := installation;
        pr_host_id := pp_host_id f;
        pr_requested_host_label := host_label_str (pp_requested_host_label f);
        pr_profile_name := profile_str (pp_profile_name f);
        pr_profile_selector := (λ l, label_str (host_label l)) <$> pp_routing_labels f;
        pr_routing_labels := (λ l, (host_label l, additional l)) <$> pp_routing_labels f;
        pr_min_capacity := pp_min_capacity f;
        pr_max_capacity := pp_max_capacity f;
        pr_enabled := pp_enabled f;
        pr_state := pp_state f;
        pr_cache_policy := pp_cache_policy f;
        pr_workspace_mode := pp_workspace_kind f;
        pr_workspace_path := text <$> pp_workspace_root f;
        pr_execution_policy := pp_execution_policy f;
        pr_revision := rev |}.

Definition policy_from_row (id : PolicyId) (r : PolicyRow) : result ScalePolicy StoreError :=
  let corrupt {A} (x : result A ValidationError) :=
    map_err (λ e, CorruptPolicy id (PInvalid e)) x in
  let? t := corrupt (read_target (pr_target_scope r) (pr_target_slug r)) in
  let labels := (λ '(h, ls), from_parts h ls) <$> pr_routing_labels r in
  let? max := match pr_max_capacity r with
              | Some raw => if bool_decide (raw = 0)
                            then Err (CorruptColumn "policies" "max_capacity" id)
                            else Ok (Some raw)
              | None => Ok None
              end in
  let? _ := if bool_decide (trim (pr_profile_name r) ≠ pr_profile_name r)
            then Err (CorruptColumn "policies" "profile_name" id) else Ok tt in
  let? label := corrupt (HostLabel_new (pr_requested_host_label r)) in
  let? profile := corrupt (ProfileName_new (pr_profile_name r)) in
  let? root := map_err (λ e, CorruptPolicy id (PWorkspace e)) (read_path (pr_workspace_path r)) in
  let? p := map_err (CorruptPolicy id)
              (policy_from_persisted
                 {| pp_id := id; pp_target := t; pp_installation_id := pr_installation_id r;
                    pp_host_id := pr_host_id r; pp_requested_host_label := label;
                    pp_profile_name := profile; pp_routing_labels := labels;
                    pp_min_capacity := pr_min_capacity r; pp_max_capacity := max;
                    pp_enabled := pr_enabled r; pp_state := pr_state r;
                    pp_cache_policy := pr_cache_policy r;
                    pp_workspace_kind := pr_workspace_mode r; pp_workspace_root := root;
                    pp_execution_policy := pr_execution_policy r;
                    pp_revision := pr_revision r |}) in
  if bool_decide (pr_profile_selector r
                  ≠ (λ l, label_str (host_label l)) <$> mode_labels (mode p))
  then Err (CorruptColumn "policies" "profile_selector" id)
  else Ok p.

(** The label conflicts a sibling profile of the same host and target can have. *)
Definition sibling_conflict (candidate sibling : ScalePolicy) : result () StoreError :=
  if bool_decide (profile_name sibling = profile_name candidate) then Ok tt
  else match mode_labels (mode candidate), mode_labels (mode sibling) with
  | Some own, Some other =>
      if bool_decide (host_label own = host_label other)
      then Err (ProfileSelectorConflict (p_id candidate) (p_id sibling))
      else if existsb (λ l, bool_decide (l = host_label own)) (additional other)
      then Err (ProfileLabelConflict (p_id candidate) (p_id sibling))
      else if existsb (λ l, bool_decide (l = host_label other)) (additional own)
      then Err (ProfileLabelConflict (p_id candidate) (p_id sibling))
      else Ok tt
  | _, _ => Ok tt
  end.

Fixpoint check_siblings (candidate : ScalePolicy) (rows : list (PolicyId * PolicyRow))
    : result () StoreError :=
  match rows with
  | [] => Ok tt
  | (id, row) :: rows =>
      let? sibling := policy_from_row id row in
      let? _ := sibling_conflict candidate sibling in
      check_siblings candidate rows
  end.

(** [COLLATE NOCASE] on scope tokens is equality of scopes. *)
Definition is_sibling_row (candidate : ScalePolicy) (kr : PolicyId * PolicyRow) : bool :=
  bool_decide (pr_host_id kr.2 = host_id candidate)
  && bool_decide (pr_target_scope kr.2 = scope (target candidate))
  && eq_ignore_ascii_case (pr_target_slug kr.2) (slug (target candidate))
  && negb (bool_decide (kr.1 = p_id candidate)).

(** The outer option is the panic of [derive_for_profile]. *)
Definition check_profile_host (candidate : ScalePolicy) (d : db)
    : option (result () StoreError) :=
  if is_default (profile_name candidate) then Some (Ok tt)
  else match hosts d !! host_id candidate with
  | None => Some (Err (ProfileHostMissing (host_id candidate)))
  | Some row =>
      match host_from_row (host_id candidate) row with
      | Err e => Some (Err e)
      | Ok h =>
          match mode_labels (mode candidate) with
          | None => Some (Ok tt)
          | Some found =>
              match derive_for_profile (requested_host_label candidate) (h_os h)
                      (architecture h) (profile_name candidate) with
              | None => None
              | Some expected => Some (
                  if bool_decide (host_label found ≠ host_label expected)
                  then Err (CorruptProfileSelector (p_id candidate)) else Ok tt)
              end
          end
      end
  end.

Definition validate_profile_in_target (candidate : ScalePolicy) (d : db)
    : option (result () StoreError) :=
  match check_profile_host candidate d with
  | None => None
  | Some checked => Some (
      let? _ := checked in
      check_siblings candidate
        (List.filter (is_sibling_row candidate) (map_to_list (policies d))))
  end.

Definition ensure_profile_identity (candidate : ScalePolicy) (d : db) : result () StoreError :=
  match policies d !! p_id candidate with
  | None => Ok tt
  | Some row =>
      let? stored := policy_from_row (p_id candidate) row in
      if negb (bool_decide (profile_name stored = profile_name candidate))
         || negb (bool_decide (host_id stored = host_id candidate))
         || negb (ScaleTarget_eqb (target stored) (target candidate))
         || match mode_labels (mode stored) with
            | Some labels => negb (bool_decide
                (Some (host_label labels) = host_label <$> mode_labels (mode candidate)))
            | None => false
            end
      then Err (ProfileIdentityChanged (p_id candidate)) else Ok tt
  end.

Definition ensure_execution_mutation_safe (candidate : ScalePolicy) (d : db)
    : result () StoreError :=
  match policies d !! p_id candidate with
  | None => Ok tt
  | Some row =>
      let? stored := policy_from_row (p_id candidate) row in
      if bool_decide (execution_policy stored = execution_policy candidate) then Ok tt
      else
        let found := clamped_count (count_sql CountUncleaned (p_id candidate) d) in
        if bool_decide (found ≠ 0)
        then Err (UncleanedCountChanged (SubjectPolicyExecution (p_id candidate)) 0 found)
        else Ok tt
  end.

Definition conflict_or_missing (id : PolicyId) (expected : Z) (d : db) : StoreError :=
  match policies d !! id with
  | Some r => if bool_decide (0 ≤ pr_revision r) then StaleRevision id expected (pr_revision r)
              else CorruptColumn "policies" "revision" id
  | None => NotFound "policy" id
  end.

(** The unique index [one_profile_per_host_target]. *)
Definition same_profile_key (r s : PolicyRow) : bool :=
  bool_decide (pr_host_id r = pr_host_id s)
  && bool_decide (pr_target_scope r = pr_target_scope s)
  && eq_ignore_ascii_case (pr_target_slug r) (pr_target_slug s)
  && eq_ignore_ascii_case (pr_profile_name r) (pr_profile_name s).
Definition profile_taken (id : PolicyId) (r : PolicyRow) (d : db) : bool :=
  existsb (λ kr, negb (bool_decide (kr.1 = id)) && same_profile_key r kr.2)
    (map_to_list (policies d)).

(** A transaction that may panic: [None]. A refused one is rolled back. *)
Definition transaction := db → option (db * result () StoreError).

Definition with_profile_check (p : ScalePolicy) (d : db)
    (k : db * result () StoreError) : option (db * result () StoreError) :=
  match validate_profile_in_target p d with
  | None => None
  | Some (Err e) => Some (d, Err e)
  | Some (Ok _) => Some k
  end.

Definition insert_policy (p : ScalePolicy) : transaction := λ d,
  match policy_params (policy_to_persisted p) with
  | Err e => Some (d, Err e)
  | Ok row =>
      with_profile_check p d
        (if bool_decide (is_Some (policies d !! p_id p)) || profile_taken (p_id p) row d
         then (d, Err (AlreadyExists "policy" (p_id p)))
         else (set_policies (<[p_id p := row]> (policies d)) d, Ok tt))
  end.

Definition update_checks (p : ScalePolicy) (d : db) : result () StoreError :=
  let? _ := ensure_profile_identity p d in
  ensure_execution_mutation_safe p d.

(** [UPDATE policies SET .. WHERE id = .. AND revision = .. AND guard]. *)
Definition update_row (id : PolicyId) (row : PolicyRow) (expected : Z) (guard : bool) (d : db)
    (refused : StoreError) : db * result () StoreError :=
  match policies d !! id with
  | Some old =>
      if bool_decide (pr_revision old = expected) && guard then
        if profile_taken id row d then (d, Err SqliteConstraint)
        else (set_policies (<[id := row]> (policies d)) d, Ok tt)
      else (d, Err refused)
  | None => (d, Err refused)
  end.

Definition update_policy (p : ScalePolicy) (expected_revision : Z) : transaction := λ d,
  match policy_params (policy_to_persisted p),
        u64_to_sql "the expected revision" expected_revision with
  | Err e, _ => Some (d, Err e)
  | _, Err e => Some (d, Err e)
  | Ok row, Ok expected =>
      match update_checks p d with
      | Err e => Some (d, Err e)
      | Ok _ =>
          with_profile_check p d
            (update_row (p_id p) row expected true d
               (conflict_or_missing (p_id p) expected_revision d))
      end
  end.

Definition update_policy_confirming_count (p : ScalePolicy) (expected_revision expected_count : Z)
    (c : CountedAttempts) : transaction := λ d,
  match policy_params (policy_to_persisted p),
        u64_to_sql "the expected revision" expected_revision with
  | Err e, _ => Some (d, Err e)
  | _, Err e => Some (d, Err e)
  | Ok row, Ok expected =>
      match update_checks p d with
      | Err e => Some (d, Err e)
      | Ok _ =>
          let count := count_sql c (p_id p) d in
          let refused :=
            match conflict_or_missing (p_id p) expected_revision d with
            | StaleRevision id e f =>
                if bool_decide (e = f)
                then count_changed c (p_id p) expected_count (clamped_count count)
                else StaleRevision id e f
            | other => other
            end in
          with_profile_check p d
            (update_row (p_id p) row expected (bool_decide (expected_count = count)) d refused)
      end
  end.

Definition update_policy_confirming_active_count (p : ScalePolicy) (rev active : Z) : transaction :=
  update_policy_confirming_count p rev active CountActive.
Definition update_policy_confirming_uncleaned_count (p : ScalePolicy) (rev n : Z) : transaction :=
  update_policy_confirming_count p rev n CountUncleaned.

Definition remove_policy (id : PolicyId) (expected_revision : Z) : store_method () := λ d,
  match u64_to_sql "the expected revision" expected_revision with
  | Err e => (d, Err e)
  | Ok expected =>
      match policies d !! id with
      | Some old =>
          if bool_decide (pr_revision old = expected)
          then (set_policies (delete id (policies d)) d, Ok tt)
          else (d, Err (conflict_or_missing id expected_revision d))
      | None => (d, Err (conflict_or_missing id expected_revision d))
      end
  end.

(** [None] is the panic of [derive_for_profile]. *)
Definition policy (id : PolicyId) (d : db) : option (result (option ScalePolicy) StoreError) :=
  match policies d !! id with
  | None => Some (Ok None)
  | Some row =>
      match policy_from_row id row with
      | Err e => Some (Err e)
      | Ok p =>
          match validate_profile_in_target p d with
          | None => None
          | Some checked => Some (let? _ := checked in Ok (Some p))
          end
      end
  end.

End Native.

(** ** The journal of attempts *)

(** What a stepped-back clock is repaired to. *)
Definition clamp_attempt (a : RunnerAttempt) : RunnerAttempt :=
  {| a_id := a_id a; a_policy_id := a_policy_id a; github_runner_id := github_runner_id a;
     state := state a; outcome := outcome a; process_id := process_id a;
     execution := execution a; runtime_path := runtime_path a; workspace := workspace a;
     created_at := created_at a;
     terminal_at := Z.max (created_at a) <$> terminal_at a;
     last_state_change_at := Z.max (created_at a) (last_state_change_at a) |}.

Lemma normalise_attempt a :
  attempt_inv a → (normalise (to_persisted a)).1 = to_persisted (clamp_attempt a).
Proof.
  intros Hinv. pose proof (inv_identity _ Hinv) as Hid. unfold normalise. simpl.
  assert (match state a, execution a with
          | Cleaned, Native None => Native (process_id a)
          | _, e => e
          end = execution a) as ->.
  { destruct (state a); try done. destruct (execution a) as [[p|]|]; try done. by rewrite Hid. }
  unfold to_persisted, clamp_attempt, set_times. simpl.
  case_bool_decide as Hc; destruct (terminal_at a) as [t|]; simpl;
    try case_bool_decide as Ht; simpl; f_equal; try f_equal; lia.
Qed.

Lemma clamp_attempt_id a : created_at a ≤ last_state_change_at a →
  (∀ t, terminal_at a = Some t → created_at a ≤ t) → clamp_attempt a = a.
Proof.
  intros Hc Ht. unfold clamp_attempt. rewrite Z.max_r by done.
  destruct a as [????????? created [t|] ?]; simpl in *; [|done].
  by rewrite Z.max_r by (by apply Ht).
Qed.

(** Past the JIT handoff an isolated attempt must have its environment. *)
Definition jit_ready (a : RunnerAttempt) : Prop :=
  state a = JitReceived → lacks_environment (execution a) = false.

Lemma clamp_attempt_loadable a : attempt_inv a → jit_ready a → loadable (clamp_attempt a).
Proof.
  intros [Hw Hex Hid Hout Hterm Hiso Henv] Hj. split; simpl; [|done|lia|].
  - split; try done. simpl. rewrite <- Hterm. by destruct (terminal_at a).
  - intros t. destruct (terminal_at a) as [t'|]; [|done]. simpl. intros [= <-]. lia.
Qed.

(** What [attempt_params] needs of an attempt. *)
Definition bindable (a : RunnerAttempt) : Prop :=
  path_to_str (runtime_path a) = Some (runtime_path a) ∧
  ∀ id, github_runner_id a = Some id → id ≤ I64_MAX.

Lemma attempt_params_ok a :
  bindable a → attempt_params (to_persisted (clamp_attempt a)) = Ok (to_persisted (clamp_attempt a)).
Proof.
  intros [Hp Hg]. unfold attempt_params. simpl. rewrite Hp. simpl.
  destruct (github_runner_id a) as [id|]; [|done]. unfold u64_to_sql.
  by rewrite bool_decide_eq_true_2 by by apply Hg.
Qed.

(** Every row is filed under its id, and no two uncleaned persistent rows of a policy
    share a slot. *)
Record journal_ok (d : db) : Prop := {
  rows_keyed : ∀ id r, attempts d !! id = Some r → pa_id r = id;
  slots_unique : ∀ i j r s,
    attempts d !! i = Some r → attempts d !! j = Some s → i ≠ j →
    leases r = true → leases s = true → same_slot r s = false;
}.

Lemma slot_taken_false r d :
  slot_taken r d = false ↔
  (leases r = true → ∀ j s, attempts d !! j = Some s → j ≠ pa_id r → leases s = true →
     same_slot r s = false).
Proof.
  unfold slot_taken. rewrite andb_false_iff, <- !not_true_iff_false, existsb_exists. split.
  - intros [H|H] Hl j s Hs Hj Hls; [done|].
    apply not_true_is_false. intros Hsame. apply H. exists (j, s).
    rewrite <- list_elem_of_In, elem_of_map_to_list. split; [done|]. simpl.
    by rewrite bool_decide_eq_false_2, Hls, Hsame.
  - intros H. destruct (leases r); [right|by left]. intros ([j s] & Hin & Hb).
    rewrite <- list_elem_of_In, elem_of_map_to_list in Hin. simpl in Hb. breflect.
    rename select (same_slot r s = true) into Hsame.
    rewrite (H eq_refl j s) in Hsame; done.
Qed.

Lemma same_slot_sym r s : same_slot r s = same_slot s r.
Proof.
  unfold same_slot. apply eq_true_iff_eq.
  rewrite !andb_true_iff, !bool_decide_eq_true.
  split; intros [[E1 E2] E3]; split_and!; congruence.
Qed.

(** Writing a row whose slot is free keeps the journal in order. *)
Lemma journal_ok_insert r d :
  journal_ok d → slot_taken r d = false →
  journal_ok (set_attempts (<[pa_id r := r]> (attempts d)) d).
Proof.
  intros [Hk Hu] Hf. rewrite slot_taken_false in Hf. split; simpl.
  - intros id s [[<- <-]|[??]]%lookup_insert_Some; [done|by apply Hk].
  - intros i j s t Hi Hj Hij Hls Hlt.
    apply lookup_insert_Some in Hi as [[<- <-]|[Hi Hi']],
      Hj as [[<- <-]|[Hj Hj']]; try done; eauto.
    rewrite same_slot_sym. eauto.
Qed.

Lemma journal_ok_repairs n d : journal_ok (add_repairs n d) ↔ journal_ok d.
Proof. split; intros [??]; by split. Qed.

Lemma upsert_row_id f d : pa_id (upsert_row f d) = pa_id f.
Proof. unfold upsert_row. by case_match. Qed.

Lemma journal_ok_record a d : journal_ok d → journal_ok (record_attempt a d).1.
Proof.
  intros Hd. unfold record_attempt. destruct (normalise (to_persisted a)) as [f n].
  assert (journal_ok (add_repairs n d)) as Hd' by by apply journal_ok_repairs.
  destruct (attempt_params f) as [f'|]; [|done]. case_match; [done|].
  destruct (slot_taken _ _) eqn:Hs; [done|]. simpl.
  rewrite <- (upsert_row_id f' (add_repairs n d)). by apply (journal_ok_insert _ _ Hd').
Qed.

Lemma journal_ok_remove id d : journal_ok d → journal_ok (remove_attempt id d).1.
Proof.
  intros Hd. unfold remove_attempt. destruct (attempts d !! id); [|done].
  destruct Hd as [Hk Hu]. split; simpl.
  - intros j r [_ ?]%lookup_delete_Some. by apply Hk.
  - intros i j r s [_ Hi]%lookup_delete_Some [_ Hj]%lookup_delete_Some. by apply Hu.
Qed.

(** The journal holds this attempt as it is. *)
Definition stored (d : db) (a : RunnerAttempt) : Prop :=
  attempts d !! a_id a = Some (to_persisted (clamp_attempt a)).

Lemma clamp_attempt_idem a : clamp_attempt (clamp_attempt a) = clamp_attempt a.
Proof.
  apply clamp_attempt_id; simpl; [lia|]. intros t.
  destruct (terminal_at a) as [t'|]; [|done]. simpl. intros [= <-]. lia.
Qed.

Lemma attempt_read d a :
  attempt_inv a → jit_ready a → stored d a →
  (attempt (a_id a) d).2 = Ok (Some (clamp_attempt a)).
Proof.
  intros Hi Hj Hs. pose proof (clamp_attempt_loadable a Hi Hj) as Hl.
  unfold attempt. rewrite Hs. unfold attempt_from_row. munfold.
  pose proof (normalise_attempt _ (load_inv _ Hl)) as Hn. rewrite clamp_attempt_idem in Hn.
  destruct (normalise (to_persisted (clamp_attempt a))) as [f n]. simpl in Hn. subst f.
  by rewrite from_persisted_to_persisted.
Qed.

(** Unfold a recording whose row is known. *)
Lemma record_attempt_ok a d :
  attempt_inv a → bindable a →
  upsert_row (to_persisted (clamp_attempt a)) d = to_persisted (clamp_attempt a) →
  match attempts d !! a_id a with
  | Some old => can_advance_to (pa_execution old) (execution a) = true
  | None => True
  end →
  slot_taken (to_persisted (clamp_attempt a)) d = false → journal_ok d →
  ∃ d', record_attempt a d = (d', Ok tt) ∧ stored d' a ∧ journal_ok d' ∧
    ∀ j, j ≠ a_id a → attempts d' !! j = attempts d !! j.
Proof.
  intros Hi Hb Hu Hadv Ht Hd. pose proof (journal_ok_record a d Hd) as Hd'.
  unfold record_attempt in *. pose proof (normalise_attempt a Hi) as Hn.
  destruct (normalise (to_persisted a)) as [f n]. simpl in Hn. subst f.
  rewrite attempt_params_ok in * by done. cbn [pa_id to_persisted a_id clamp_attempt] in *.
  change (attempts (add_repairs n d)) with (attempts d) in *.
  change (upsert_row ?f (add_repairs n d)) with (upsert_row f d) in *.
  change (slot_taken ?f (add_repairs n d)) with (slot_taken f d) in *.
  rewrite Hu, Ht in *.
  assert (match attempts d !! a_id a with
          | Some old => negb (can_advance_to (pa_execution old)
                                (pa_execution (to_persisted (clamp_attempt a))))
          | None => false
          end = false) as Hg.
  { destruct (attempts d !! a_id a); [|done]. simpl. by rewrite Hadv. }
  rewrite Hg in *. eexists. split; [done|]. split_and!; [|done|].
  - unfold stored. simpl. by rewrite lookup_insert_eq.
  - intros j Hj. simpl. by rewrite lookup_insert_ne.
Qed.

Lemma upsert_same_identity a a' d :
  stored d a → same_identity a' a →
  upsert_row (to_persisted (clamp_attempt a')) d = to_persisted (clamp_attempt a').
Proof.
  unfold stored. intros Hs (Hi & _ & _ & Hw & Hc). unfold upsert_row. simpl.
  rewrite Hi, Hs. simpl. unfold to_persisted. simpl. by rewrite Hi, <- Hw, <- Hc.
Qed.

Lemma apply_op_from_cleaned op now a a' :
  apply_op op now a = (a', Ok tt) → state a = Cleaned → False.
Proof.
  intros H Hs. pose proof (apply_op_edge _ _ _ _ H) as He.
  destruct op; cbn [keeps_state apply_op] in *;
    first [apply allocate_execution_ok in H as (Hs' & _); congruence
          |apply prepared_environment_ok in H as (Hs' & _); rewrite Hs in Hs'; states
          |destruct He as [He _]; rewrite Hs in He; by destruct (state a')].
Qed.

(** The slot of an attempt stays its own from one step to the next. *)
Lemma slot_kept op now a a' d :
  journal_ok d → stored d a → apply_op op now a = (a', Ok tt) →
  slot_taken (to_persisted (clamp_attempt a')) d = false.
Proof.
  intros [Hk Hu] Hs H. pose proof (apply_op_identity _ _ _ _ _ H) as (Hi & Hp & _ & Hw & _).
  apply slot_taken_false. intros Hl j s Hj Hne Hls. simpl in Hne.
  assert (same_slot (to_persisted (clamp_attempt a')) s
          = same_slot (to_persisted (clamp_attempt a)) s) as ->.
  { unfold same_slot. simpl. by rewrite Hp, Hw. }
  apply (Hu (a_id a) j); try done; [congruence|].
  unfold leases, uncleaned_of_kind_sql, uncleaned_sql in *. simpl in *. breflect.
  rewrite <- Hw. rewrite bool_decide_eq_true_2 by done. simpl.
  rewrite bool_decide_eq_false_2; [done|]. intros Hc. by eapply apply_op_from_cleaned.
Qed.

Definition allocates_execution (op : attempt_op) : bool :=
  match op with OpAllocateExecution _ => true | _ => false end.

Lemma record_step op now a a' d :
  reachable a → stored d a → journal_ok d →
  apply_op op now a = (a', Ok tt) → allocates_execution op = false → bindable a' →
  ∃ d', record_attempt a' d = (d', Ok tt) ∧ stored d' a' ∧ journal_ok d' ∧
    ∀ j, j ≠ a_id a → attempts d' !! j = attempts d !! j.
Proof.
  intros Ha Hs Hd H Hop Hb. pose proof (apply_op_identity _ _ _ _ _ H) as Hid.
  assert (attempt_inv a') as Hi by (eapply attempt_inv_step; [by apply reachable_inv|by eexists]).
  pose proof Hid as (E & _). rewrite <- E. apply record_attempt_ok; try done.
  - by eapply upsert_same_identity.
  - rewrite E, Hs. simpl. eapply apply_op_advances; [done|done|]. by destruct op.
  - by eapply slot_kept.
Qed.

(** ** Counting in SQL and in the domain *)

Definition load (row : PersistedAttempt) : result RunnerAttempt StoreError :=
  map_err (CorruptAttempt (pa_id (normalise row).1)) (from_persisted (normalise row).1).

Lemma attempt_from_row_result row d : (attempt_from_row row d).2 = load row.
Proof. unfold attempt_from_row, load. by destruct (normalise row). Qed.

Lemma load_rows_ok rows d l :
  (load_rows rows d).2 = Ok l ↔ Forall2 (λ row a, load row = Ok a) rows l.
Proof.
  revert d l. induction rows as [|row rows IH]; intros d l; simpl.
  - split; [intros [= <-]; constructor|by inversion 1].
  - munfold. pose proof (attempt_from_row_result row d) as Hr.
    destruct (attempt_from_row row d) as [d1 [a|e]]; simpl in Hr.
    + specialize (IH d1). destruct (load_rows rows d1) as [d2 [l'|e]]; simpl in *.
      * split; [intros [= <-]; constructor; [done|by apply IH]|].
        inversion 1 as [|? a' ? l'' Ha Hl]; subst. apply IH in Hl. congruence.
      * split; [done|]. inversion 1 as [|? a' ? l'' Ha Hl]; subst. by apply IH in Hl.
    + split; [done|]. inversion 1 as [|? a' ? l'' Ha Hl]; subst. congruence.
Qed.

(** Loading a row changes none of the columns the queries look at. *)
Lemma load_columns row a :
  load row = Ok a → a_policy_id a = pa_policy_id row ∧ state a = pa_state row ∧
    is_native (execution a) = is_native (pa_execution row).
Proof.
  unfold load. intros H%map_err_ok. unfold from_persisted in H.
  repeat (case_match; [|done]). injection H as <-. simpl. unfold normalise.
  destruct (pa_state row) eqn:?, (pa_execution row) as [[]|]; repeat case_match; simplify_eq/=;
    split_and!; congruence.
Qed.

Lemma active_sql_domain row a : load row = Ok a → active_sql row = counts_against_capacity a.
Proof.
  intros (_ & Hs & Hn)%load_columns.
  unfold active_sql, counts_against_capacity. rewrite Hs, Hn. by destruct (pa_state row).
Qed.

Lemma uncleaned_sql_domain row a :
  load row = Ok a → uncleaned_sql row = negb (bool_decide (state a = Cleaned)).
Proof. intros (_ & Hs & _)%load_columns. unfold uncleaned_sql. by rewrite Hs. Qed.

(** A query selects what the corresponding predicate selects among the loaded. *)
Lemma Forall2_filter {A B} (P : A → B → Prop) (f : A → bool) (g : B → bool) l k :
  (∀ x y, P x y → f x = g y) → Forall2 P l k →
  Forall2 P (List.filter f l) (List.filter g k).
Proof.
  intros Hfg. induction 1 as [|x y l k Hxy _ IH]; simpl; [constructor|].
  rewrite (Hfg x y Hxy). destruct (g y); [by constructor|done].
Qed.

Lemma filter_and {A} (f g : A → bool) l :
  List.filter (λ x, f x && g x) l = List.filter g (List.filter f l).
Proof.
  induction l as [|x l IH]; [done|]. simpl. destruct (f x) eqn:E; simpl; [|done].
  by rewrite IH.
Qed.

Lemma filter_true_id {A} (f : A → bool) l : (∀ x, x ∈ l → f x = true) → List.filter f l = l.
Proof.
  intros H. induction l as [|x l IH]; [done|]. simpl. rewrite H by set_solver.
  f_equal. apply IH. set_solver.
Qed.

Lemma of_policy_filter id pred rows :
  List.filter (of_policy id pred) rows
  = List.filter pred (List.filter (of_policy id (λ _, true)) rows).
Proof.
  unfold of_policy. rewrite filter_and. f_equal.
  induction rows as [|r rows IH]; [done|]. simpl. rewrite andb_true_r, IH. done.
Qed.

(** ** The table of policies *)

Section PolicyTable.
Context (NATIVE : PathPlatform).

(** What a policy needs beyond its validity to be written: names the constructors
    produced, paths of this platform, integers SQLite can hold. *)
Record storable (p : ScalePolicy) : Prop := {
  sp_valid : valid_policy p;
  sp_target : valid_target (target p);
  sp_root : ∀ root, wp_root (workspace_policy p) = Some root →
    valid_path root ∧ platform root = NATIVE;
  sp_installation : installation_id p ≤ I64_MAX;
  sp_revision : revision p ≤ I64_MAX;
}.

Lemma policy_params_ok p :
  installation_id p ≤ I64_MAX → revision p ≤ I64_MAX →
  is_ok (policy_params (policy_to_persisted p)) = true.
Proof.
  intros Hi Hr. unfold policy_params, u64_to_sql. simpl.
  by rewrite !bool_decide_eq_true_2 by done.
Qed.

Lemma policy_params_revision p row :
  policy_params (policy_to_persisted p) = Ok row → pr_revision row = revision p.
Proof. unfold policy_params, u64_to_sql. simpl. intros H. by cases. Qed.

Lemma read_path_valid (w : WorkspacePolicy) :
  (∀ root, wp_root w = Some root → valid_path root ∧ platform root = NATIVE) →
  read_path NATIVE (text <$> wp_root w) = Ok (wp_root w).
Proof.
  intros Hw. destruct (wp_root w) as [root|]; [|done]. simpl.
  destruct (Hw root eq_refl) as [Hv Hp]. unfold LocalAbsolutePath_new.
  rewrite <- Hp. by rewrite valid_path_parse.
Qed.

Lemma selector_trim s : valid_selector s → trim s = s.
Proof. intros (_ & _ & H & _). by apply (trim_all _ _ selector_char_not_whitespace). Qed.

Lemma mode_labels_read m :
  valid_mode m →
  (λ '(h, ls), from_parts h ls) <$> ((λ l, (host_label l, additional l)) <$> mode_labels m)
  = mode_labels m.
Proof. destruct m as [|cfg]; [done|]. intros (Hl & _). simpl. by rewrite from_parts_id. Qed.

(** A row written for a policy is read back as that policy. *)
Lemma policy_row_read p row :
  storable p → policy_params (policy_to_persisted p) = Ok row →
  policy_from_row NATIVE (p_id p) row = Ok p.
Proof.
  intros [Hv Ht Hroot _ _] H. unfold policy_params in H. cases.
  rename select (u64_to_sql _ _ = _) into Hi.
  assert (∀ what v z, u64_to_sql what v = Ok z → z = v) as Hu
    by (intros what v z Hz; unfold u64_to_sql in Hz; by cases).
  repeat match goal with E : u64_to_sql _ _ = Ok _ |- _ => apply Hu in E; simpl in E; subst end.
  clear Hu. unfold policy_from_row. simpl.
  rewrite read_target_slug by done. simpl.
  assert (match mode_max (mode p) with
          | Some raw => if bool_decide (raw = 0)
                        then Err (CorruptColumn "policies" "max_capacity" (p_id p))
                        else Ok (Some raw)
          | None => Ok None
          end = Ok (mode_max (mode p))) as ->.
  { pose proof (vp_mode _ Hv) as Hm. destruct (mode p) as [|cfg]; [done|]. simpl.
    destruct Hm as (_ & _ & Hmax & _). rewrite bool_decide_eq_false_2; [done|].
    unfold nonzero_u16 in Hmax. lia. }
  rewrite selector_trim by apply Hv. rewrite bool_decide_eq_false_2 by (intros ?; done).
  rewrite HostLabel_new_canonical, ProfileName_new_canonical by apply Hv. simpl.
  rewrite read_path_valid by done. simpl.
  rewrite mode_labels_read by apply Hv.
  assert (policy_from_persisted (policy_to_persisted p) = Ok p) as Hp
    by (apply policy_from_persisted_ok; split; [by apply valid_policy_loadable|done]).
  destruct (requested_host_label p) eqn:Eh, (profile_name p) eqn:Ep. simpl.
  unfold policy_to_persisted in Hp. rewrite Eh, Ep in Hp. rewrite Hp. simpl.
  by rewrite bool_decide_eq_false_2 by (intros ?; done).
Qed.

(** *** What an accepted write did *)

(** The row was written, on top of the expected revision. *)
Definition wrote (p : ScalePolicy) (expected : Z) (d d' : db) : Prop :=
  ∃ old row, policies d !! p_id p = Some old ∧ pr_revision old = expected ∧
    policy_params (policy_to_persisted p) = Ok row ∧
    d' = set_policies (<[p_id p := row]> (policies d)) d.

Lemma with_profile_check_inv p d k d' r :
  with_profile_check NATIVE p d k = Some (d', r) →
  (validate_profile_in_target NATIVE p d = Some (Ok tt) ∧ k = (d', r)) ∨
  (d' = d ∧ ∃ e, r = Err e).
Proof. unfold with_profile_check. intros H. cases; [left; by destruct a|right; eauto]. Qed.

Lemma update_row_inv id row expected guard d refused d' r :
  update_row id row expected guard d refused = (d', r) →
  match r with
  | Ok _ => guard = true ∧ (∃ old, policies d !! id = Some old ∧ pr_revision old = expected) ∧
      d' = set_policies (<[id := row]> (policies d)) d
  | Err _ => d' = d
  end.
Proof. unfold update_row. intros H. cases; breflect; eauto 10. Qed.

Lemma u64_to_sql_ok what v z : u64_to_sql what v = Ok z → z = v.
Proof. unfold u64_to_sql. intros H. by cases. Qed.

Lemma update_policy_inv p expected d d' r :
  update_policy NATIVE p expected d = Some (d', r) →
  match r with
  | Ok _ => wrote p expected d d' ∧ update_checks NATIVE p d = Ok tt ∧
      validate_profile_in_target NATIVE p d = Some (Ok tt)
  | Err _ => d' = d
  end.
Proof.
  unfold update_policy. destruct (policy_params _) as [row|] eqn:Hp; [|by intros [= <- <-]].
  destruct (u64_to_sql _ expected) as [e|] eqn:Hu; [|by intros [= <- <-]].
  apply u64_to_sql_ok in Hu as ->.
  destruct (update_checks NATIVE p d) as [[]|] eqn:Hc; [|by intros [= <- <-]].
  intros [[Hv H]|[-> [e ->]]]%with_profile_check_inv; [|done].
  apply update_row_inv in H. destruct r; [|done].
  destruct H as (_ & (old & ? & ?) & ->). split; [|done]. by exists old, row.
Qed.

Lemma update_confirming_inv p expected n c d d' r :
  update_policy_confirming_count NATIVE p expected n c d = Some (d', r) →
  match r with
  | Ok _ => wrote p expected d d' ∧ update_checks NATIVE p d = Ok tt ∧
      validate_profile_in_target NATIVE p d = Some (Ok tt) ∧ n = count_sql c (p_id p) d
  | Err _ => d' = d
  end.
Proof.
  unfold update_policy_confirming_count.
  destruct (policy_params _) as [row|] eqn:Hp; [|by intros [= <- <-]].
  destruct (u64_to_sql _ expected) as [e|] eqn:Hu; [|by intros [= <- <-]].
  apply u64_to_sql_ok in Hu as ->.
  destruct (update_checks NATIVE p d) as [[]|] eqn:Hc; [|by intros [= <- <-]].
  intros [[Hv H]|[-> [e ->]]]%with_profile_check_inv; [|done].
  apply update_row_inv in H. destruct r; [|done].
  destruct H as (Hg & (old & ? & ?) & ->). breflect. split_and!; try done. by exists old, row.
Qed.

Lemma remove_policy_inv id expected d d' r :
  remove_policy id expected d = (d', r) →
  match r with
  | Ok _ => ∃ old, policies d !! id = Some old ∧ pr_revision old = expected
  | Err _ => d' = d
  end.
Proof.
  unfold remove_policy. destruct (u64_to_sql _ expected) as [e|] eqn:Hu; [|by intros [= <- <-]].
  apply u64_to_sql_ok in Hu as ->. intros H. cases; breflect; eauto.
Qed.

Lemma wrote_revision p expected d d' old :
  wrote p expected d d' → policies d' !! p_id p = Some old → pr_revision old = revision p.
Proof.
  intros (_ & row & _ & _ & Hp & ->). simpl. rewrite lookup_insert_eq. intros [= <-].
  by apply policy_params_revision.
Qed.

(** *** Uncleaned attempts *)

Lemma attempt_rows_elem d r : r ∈ attempt_rows d ↔ ∃ id, attempts d !! id = Some r.
Proof.
  unfold attempt_rows. rewrite merge_sort_Permutation, list_elem_of_fmap. split.
  - intros ([id r'] & -> & Hin). apply elem_of_map_to_list in Hin. eauto.
  - intros [id Hid]. exists (id, r). split; [done|]. by apply elem_of_map_to_list.
Qed.

Lemma no_uncleaned id d :
  clamped_count (count_sql CountUncleaned id d) = 0 →
  ∀ j r, attempts d !! j = Some r → pa_policy_id r = id → pa_state r = Cleaned.
Proof.
  unfold clamped_count, count_sql, attempt_count_sql. intros Hz j r Hj Hr.
  assert (List.filter (of_policy id uncleaned_sql) (attempt_rows d) = []) as Hn.
  { destruct (List.filter _ _); [done|]. exfalso. simpl in Hz.
    case_bool_decide; unfold U16_MAX in *; lia. }
  assert (of_policy id uncleaned_sql r = false) as Hf.
  { rewrite filter_nil_iff in Hn. apply Hn, attempt_rows_elem. eauto. }
  unfold of_policy, uncleaned_sql in Hf. rewrite bool_decide_eq_true_2 in Hf by done.
  simpl in Hf. by breflect.
Qed.

Lemma execution_change_safe p q row d :
  update_checks NATIVE p d = Ok tt → policies d !! p_id p = Some row →
  policy_from_row NATIVE (p_id p) row = Ok q → execution_policy q ≠ execution_policy p →
  ∀ j r, attempts d !! j = Some r → pa_policy_id r = p_id p → pa_state r = Cleaned.
Proof.
  unfold update_checks, ensure_execution_mutation_safe. intros H Hrow Hq Hne.
  destruct (ensure_profile_identity NATIVE p d); [|done]. rewrite Hrow, Hq in H.
  rewrite bool_decide_eq_false_2 in H by done. case_bool_decide as Hz; [done|].
  by apply no_uncleaned.
Qed.

(** *** Siblings *)

Lemma check_siblings_ok p rows :
  check_siblings NATIVE p rows = Ok tt ↔
  Forall (λ kr, ∃ q, policy_from_row NATIVE kr.1 kr.2 = Ok q ∧ sibling_conflict p q = Ok tt) rows.
Proof.
  induction rows as [|[id row] rows IH]; simpl; [done|].
  rewrite Forall_cons. simpl. destruct (policy_from_row NATIVE id row) as [q|].
  2: { split; [done|]. by intros [(? & ? & _) _]. }
  destruct (sibling_conflict p q) as [[]|] eqn:Hc.
  - rewrite IH. split; [intros H; split; [eauto|done]|by intros [_ H]].
  - split; [done|]. intros [(q' & [= <-] & E) _]. congruence.
Qed.

Lemma sibling_rows p d kr :
  kr ∈ List.filter (is_sibling_row p) (map_to_list (policies d)) ↔
  policies d !! kr.1 = Some kr.2 ∧ is_sibling_row p kr = true.
Proof. destruct kr. by rewrite elem_of_filter_bool, elem_of_map_to_list. Qed.

(** The checks of a policy do not look at its own row. *)
Lemma validate_own_row p row d :
  validate_profile_in_target NATIVE p d = Some (Ok tt) →
  validate_profile_in_target NATIVE p (set_policies (<[p_id p := row]> (policies d)) d)
  = Some (Ok tt).
Proof.
  unfold validate_profile_in_target.
  change (check_profile_host NATIVE p (set_policies _ d)) with (check_profile_host NATIVE p d).
  destruct (check_profile_host NATIVE p d) as [[[]|]|]; [|done..].
  intros [= H]. f_equal. rewrite check_siblings_ok, Forall_forall in *.
  intros kr [Hl Hs]%sibling_rows. apply H, sibling_rows. split; [|done].
  simpl in Hl. rewrite lookup_insert_ne in Hl; [done|].
  intros Hid. unfold is_sibling_row in Hs. breflect. by symmetry in Hid.
Qed.

Lemma policy_read p row d :
  storable p → policy_params (policy_to_persisted p) = Ok row →
  validate_profile_in_target NATIVE p d = Some (Ok tt) →
  policy NATIVE (p_id p) (set_policies (<[p_id p := row]> (policies d)) d) = Some (Ok (Some p)).
Proof.
  intros Hp Hrow Hv. unfold policy. simpl. rewrite lookup_insert_eq.
  rewrite (policy_row_read p row) by done. by rewrite validate_own_row.
Qed.
End PolicyTable.

(** ** Theorems *)

(** C23: the journal accepts every step of an attempt: when it holds the attempt as it
    was, recording the attempt after any accepted call (other than choosing its
    execution, which happens before the first record) succeeds, disturbs no other row,
    keeps every persistent slot leased to at most one uncleaned attempt, and, once an
    isolated attempt has its environment, the row loads back as that attempt, with its
    instants repaired if the clock stepped back. *)
Theorem journal_accepts_every_step op now a a' d :
  reachable a → stored d a → journal_ok d →
  apply_op op now a = (a', Ok tt) → allocates_execution op = false → bindable a' →
  ∃ d', record_attempt a' d = (d', Ok tt) ∧ journal_ok d' ∧ stored d' a' ∧
    (∀ j, j ≠ a_id a → attempts d' !! j = attempts d !! j) ∧
    (jit_ready a' → (attempt (a_id a') d').2 = Ok (Some (clamp_attempt a'))).
Proof.
  intros Ha Hs Hd H Hop Hb.
  destruct (record_step op now a a' d) as (d' & Hr & Hs' & Hd' & Hf); try done.
  exists d'. split_and!; try done. intros Hj. apply attempt_read; try done.
  eapply attempt_inv_step; [by apply reachable_inv|by eexists].
Qed.

(** The capacity predicates written in SQL agree with the domain's: on the attempts
    of a policy that load, the active query returns exactly those that count against
    capacity, its count is the domain's saturating count, and the uncleaned count is the
    number of those not cleaned. *)
Theorem sql_counts_agree id d l :
  (attempts_for_policy id d).2 = Ok l →
  (active_attempts_for_policy id d).2 = Ok (List.filter counts_against_capacity l) ∧
  count_sql CountActive id d = active_count_for id l ∧
  count_sql CountUncleaned id d
    = Z.min (Z.of_nat (length (List.filter (λ a, negb (bool_decide (state a = Cleaned))) l)))
        U16_MAX.
Proof.
  intros Hl%load_rows_ok.
  pose proof (Forall2_filter _ _ _ _ _ active_sql_domain Hl) as Ha.
  pose proof (Forall2_filter _ _ _ _ _ uncleaned_sql_domain Hl) as Hu.
  rewrite <- of_policy_filter in Ha, Hu. split_and!.
  - by apply load_rows_ok.
  - unfold count_sql, attempt_count_sql, active_count_for.
    rewrite sat_count_spec, Z.min_comm by done. do 2 f_equal.
    rewrite (Forall2_length _ _ _ Ha). f_equal. rewrite filter_and. f_equal.
    symmetry. apply filter_true_id. intros a Hin.
    apply list_elem_of_lookup_1 in Hin as [i Hi].
    destruct (Forall2_lookup_r _ _ _ _ _ Hl Hi) as (row & Hrow & Hload).
    apply load_columns in Hload as (-> & _).
    apply list_elem_of_lookup_2, elem_of_filter_bool in Hrow as [_ Hp].
    unfold of_policy in Hp. by rewrite andb_true_r in Hp.
  - unfold count_sql, attempt_count_sql. by rewrite (Forall2_length _ _ _ Hu).
Qed.

(** C10: no update of a policy is lost: after a change made on revision [r] has been
    written, every other write that was prepared on revision [r] (an update, a confirmed
    update or a removal) is refused and leaves the database as the first writer left
    it. *)
Theorem no_lost_update NATIVE op p0 p1 r1 d d1 :
  apply_policy_op op p0 = Some (p1, r1) → p1 ≠ p0 → revision p0 < U64_MAX →
  update_policy NATIVE p1 (revision p0) d = Some (d1, Ok tt) →
  (∀ p2 d2 r, p_id p2 = p_id p0 →
     update_policy NATIVE p2 (revision p0) d1 = Some (d2, r) → d2 = d1 ∧ r ≠ Ok tt) ∧
  (∀ p2 n c d2 r, p_id p2 = p_id p0 →
     update_policy_confirming_count NATIVE p2 (revision p0) n c d1 = Some (d2, r) →
     d2 = d1 ∧ r ≠ Ok tt) ∧
  (∀ d2 r, remove_policy (p_id p0) (revision p0) d1 = (d2, r) → d2 = d1 ∧ r ≠ Ok tt).
Proof.
  intros Hop Hne Hrev (Hw & _)%update_policy_inv.
  destruct (policy_op_revised _ _ _ _ Hop) as [(Hid & _) Hr]. simpl in *.
  assert (revision p1 ≠ revision p0) as Hn.
  { destruct r1; [|done]. destruct Hr as [?|Hr]; [done|].
    rewrite Hr. unfold bump, sat_add. lia. }
  pose proof (λ old, wrote_revision _ _ _ _ old Hw) as Hrow. rewrite Hid in Hrow.
  split_and!.
  - intros p2 d2 r E H%update_policy_inv. destruct r as [[]|]; [|done].
    destruct H as ((old & row & Ho & Hr2 & _) & _). rewrite E in Ho.
    specialize (Hrow _ Ho). congruence.
  - intros p2 n c d2 r E H%update_confirming_inv. destruct r as [[]|]; [|done].
    destruct H as ((old & row & Ho & Hr2 & _) & _). rewrite E in Ho.
    specialize (Hrow _ Ho). congruence.
  - intros d2 r H%remove_policy_inv. destruct r as [[]|]; [|done].
    destruct H as (old & Ho & Hr2). specialize (Hrow _ Ho). congruence.
Qed.

(** How a policy's jobs are executed never changes under a job: an update that is
    accepted and alters the execution policy finds every attempt of the policy cleaned;
    a confirmed update is accepted only while the count the operator confirmed is the
    count in the database. *)
Theorem execution_change_needs_no_attempts NATIVE p q row expected d d1 :
  policies d !! p_id p = Some row → policy_from_row NATIVE (p_id p) row = Ok q →
  update_policy NATIVE p expected d = Some (d1, Ok tt) ∨
  (∃ n c, update_policy_confirming_count NATIVE p expected n c d = Some (d1, Ok tt)) →
  (execution_policy q ≠ execution_policy p →
   ∀ j r, attempts d !! j = Some r → pa_policy_id r = p_id p → pa_state r = Cleaned) ∧
  (∀ n c, update_policy_confirming_count NATIVE p expected n c d = Some (d1, Ok tt) →
   n = count_sql c (p_id p) d).
Proof.
  intros Hrow Hq H. split; [|by intros n c (_ & _ & _ & ?)%update_confirming_inv].
  intros Hne. apply (execution_change_safe NATIVE p q row); try done.
  by destruct H as [(_ & ? & _)%update_policy_inv|(n & c & (_ & ? & _)%update_confirming_inv)].
Qed.

(** What is written is what is read: after an accepted insert or update of a storable
    policy, reading it by id returns that policy. *)
Theorem policy_write_read NATIVE p expected d d' :
  storable NATIVE p →
  insert_policy NATIVE p d = Some (d', Ok tt) ∨ update_policy NATIVE p expected d = Some (d', Ok tt) →
  policy NATIVE (p_id p) d' = Some (Ok (Some p)).
Proof.
  intros Hp [H|((_ & row & _ & _ & Hr & ->) & _ & Hv)%update_policy_inv];
    [|by apply policy_read].
  unfold insert_policy in H. destruct (policy_params _) as [row|] eqn:Hr; [|done].
  apply with_profile_check_inv in H as [[Hv H]|[_ [e ?]]]; [|done].
  case_match; [done|]. injection H as <-. by apply policy_read.
Qed.

(** ** Witnesses *)

Definition empty_db : db := mk_db ∅ ∅ ∅ 0.
Definition after (t : option (db * result () StoreError)) : db := default empty_db (fst <$> t).

Lemma empty_journal_ok : journal_ok empty_db.
Proof. split; intros *; simpl; rewrite lookup_empty; done. Qed.

(** A journal that holds one new attempt in slot 3. *)
Definition example_journal : db := (record_attempt example_new empty_db).1.
Definition example_next : RunnerAttempt := (jit_received 5 example_new).1.

Lemma journal_accepts_every_step_witness :
  ∃ d', record_attempt example_next example_journal = (d', Ok tt) ∧
    (attempt 1%N d').2 = Ok (Some example_next).
Proof.
  destruct (journal_accepts_every_step OpJitReceived 5 example_new example_next example_journal)
    as (d' & Hr & _ & _ & _ & Hl).
  - exact example_new_reachable.
  - vm_compute. reflexivity.
  - apply journal_ok_record, empty_journal_ok.
  - vm_compute. reflexivity.
  - reflexivity.
  - split; [vm_compute; reflexivity|]. intros id Hid. vm_compute in Hid. discriminate.
  - exists d'. split; [exact Hr|].
    assert (jit_ready example_next) as Hj by (intros _; vm_compute; reflexivity).
    specialize (Hl Hj). etransitivity; [exact Hl|]. vm_compute. reflexivity.
Defined.

Lemma sql_counts_agree_witness :
  count_sql CountActive 2%N example_journal = 1.
Proof.
  assert ((attempts_for_policy 2%N example_journal).2 = Ok [example_new]) as H
    by (vm_compute; reflexivity).
  destruct (sql_counts_agree 2%N example_journal [example_new] H) as (_ & Hc & _).
  rewrite Hc. vm_compute. reflexivity.
Defined.

(** A database that holds one monitoring policy; the policy after activation. *)
Definition example_policies : db := after (insert_policy PUnix example_monitor empty_db).
Definition example_activated : ScalePolicy := (activate example_monitor).1.
Definition example_updated : db :=
  after (update_policy PUnix example_activated 0 example_policies).

Lemma no_lost_update_witness :
  fst <$> update_policy PUnix example_monitor 0 example_updated = Some example_updated.
Proof.
  destruct (update_policy PUnix example_monitor 0 example_updated) as [[d2 r]|] eqn:E;
    [|vm_compute in E; discriminate].
  cbn. f_equal.
  refine (proj1 (proj1 (no_lost_update PUnix OpActivate example_monitor example_activated
    (Ok tt) example_policies example_updated _ _ _ _) example_monitor d2 r eq_refl E)).
  - vm_compute. reflexivity.
  - intros E'. apply (f_equal revision) in E'. vm_compute in E'. discriminate.
  - vm_compute. reflexivity.
  - vm_compute. reflexivity.
Defined.

Definition example_isolated_policy : ScalePolicy :=
  (set_execution_policy example_pinned example_monitor).1.

Lemma execution_change_needs_no_attempts_witness :
  ∃ d1, update_policy PUnix example_isolated_policy 0 example_policies = Some (d1, Ok tt) ∧
    ∀ j r, attempts example_policies !! j = Some r → pa_policy_id r = 7%N → pa_state r = Cleaned.
Proof.
  destruct (policies example_policies !! 7%N) as [row|] eqn:Hrow;
    [|vm_compute in Hrow; discriminate].
  exists (after (update_policy PUnix example_isolated_policy 0 example_policies)).
  assert (update_policy PUnix example_isolated_policy 0 example_policies =
          Some (after (update_policy PUnix example_isolated_policy 0 example_policies), Ok tt))
    as Hu by (vm_compute; reflexivity).
  split; [exact Hu|].
  refine (proj1 (execution_change_needs_no_attempts PUnix example_isolated_policy example_monitor
    row 0 example_policies _ Hrow _ (or_introl Hu)) _).
  - vm_compute in Hrow. injection Hrow as <-. vm_compute. reflexivity.
  - vm_compute. discriminate.
Defined.

Lemma example_monitor_storable : storable PUnix example_monitor.
Proof.
  split; [apply reachable_policy_valid, rp_new; [exact example_host_valid|exact I]| | |..];
    try (vm_compute; discriminate).
  vm_compute. split_and!; try done; repeat constructor.
Qed.

Lemma policy_write_read_witness :
  policy PUnix 7%N example_policies = Some (Ok (Some example_monitor)).
Proof.
  apply (policy_write_read PUnix example_monitor 0 empty_db).
  - exact example_monitor_storable.
  - left. vm_compute. reflexivity.
Defined.
