(* ===== verification/Github.v ===== *)
(** * What GitHub's answers say ([crates/github/src/traffic.rs], [rest.rs], [demand.rs])

    The rate-limit vocabulary (quota snapshots, the pressure they put on polling,
    refusals and how long they silence a credential), the outcome of a refresh, and
    the reading of queued jobs that demand polling produces. *)

From stdpp Require Import strings.
From S2P Require Import Prelude RustStr Ordered Model Labels.
#[local] Open Scope Z_scope.
#[local] Open Scope rust_scope.

(** A [std::time::Duration] is a number of nanoseconds between zero and
    [Duration::MAX]. *)
#[global] Abbreviation Duration := Z (only parsing).
Definition DURATION_MAX : Duration := U64_MAX * 1000000000 + 999999999.
Definition duration (d : Duration) : Prop := 0 ≤ d ≤ DURATION_MAX.
Definition dur_add (a b : Duration) : Duration := sat_add DURATION_MAX a b.
Definition dur_mul (a : Duration) (n : Z) : Duration := sat_mul DURATION_MAX a n.

(** [DateTime::timestamp]: whole seconds since the epoch, rounded down. *)
Definition timestamp (now : Timestamp) : Z := now / 1000000000.

(** [i64] arithmetic: [saturating_sub], and the plain subtraction of a release
    build. *)
Definition I64_MIN : Z := -9223372036854775808.
Definition i64_saturating_sub (a b : Z) : Z := clamp (a - b) I64_MIN I64_MAX.
Definition i64_sub (a b : Z) : Z := (a - b - I64_MIN) mod (U64_MAX + 1) + I64_MIN.

(** ** The hourly quota *)

Record RateLimitSnapshot := mk_snapshot {
  rl_limit : Z;              (* u64 *)
  rl_remaining : Z;          (* u64 *)
  rl_used : option Z;        (* u64 *)
  rl_reset_unix_secs : Z;    (* u64 *)
  rl_observed_at : Timestamp;
}.
#[global] Instance RateLimitSnapshot_eq_dec : EqDecision RateLimitSnapshot.
Proof. solve_decision. Defined.

Inductive PrimaryPressure := PNormal | PLow | PCritical.
#[global] Instance PrimaryPressure_eq_dec : EqDecision PrimaryPressure.
Proof. solve_decision. Defined.

Definition stretch_factor (p : PrimaryPressure) : Z :=
  match p with PNormal => 1 | PLow => 2 | PCritical => 4 end.

Definition LOW_PRIMARY_REMAINING_PERCENT : Z := 20.
Definition CRITICAL_PRIMARY_REMAINING_PERCENT : Z := 5.

Definition reset_in (q : RateLimitSnapshot) (now : Timestamp) : Duration :=
  let reset := if bool_decide (rl_reset_unix_secs q ≤ I64_MAX)
               then rl_reset_unix_secs q else I64_MAX in
  let secs := i64_saturating_sub reset (timestamp now) in
  if bool_decide (0 ≤ secs) then seconds secs else 0.

Definition pressure (q : RateLimitSnapshot) (now : Timestamp) : PrimaryPressure :=
  if bool_decide (rl_limit q = 0) || bool_decide (reset_in q now = 0) then PNormal
  else
    let percent := sat_mul U64_MAX (rl_remaining q) 100 / rl_limit q in
    if bool_decide (percent < CRITICAL_PRIMARY_REMAINING_PERCENT) then PCritical
    else if bool_decide (percent < LOW_PRIMARY_REMAINING_PERCENT) then PLow
    else PNormal.

(** ** Refusals *)

Inductive RateLimitKind := Primary | Secondary.
#[global] Instance RateLimitKind_eq_dec : EqDecision RateLimitKind.
Proof. solve_decision. Defined.

Record RateLimited := mk_limited {
  kind : RateLimitKind;
  retry_after : option Duration;
  remaining : option Z;        (* u64 *)
  reset_unix_secs : option Z;  (* u64 *)
}.
#[global] Instance RateLimited_eq_dec : EqDecision RateLimited.
Proof. solve_decision. Defined.

Definition DEFAULT_RATE_LIMIT_BACKOFF : Duration := seconds 60.
Definition MAX_RATE_LIMIT_BACKOFF : Duration := seconds (15 * 60).

Definition delay_from (l : RateLimited) (now : Timestamp) : Duration :=
  let requested :=
    match retry_after l with
    | Some d => Some d
    | None =>
        match reset_unix_secs l with
        | None => None
        | Some reset =>
            if bool_decide (reset ≤ I64_MAX) then
              let secs := i64_sub reset (timestamp now) in
              if bool_decide (0 ≤ secs) then Some (seconds secs) else None
            else None
        end
    end in
  let requested :=
    match requested with
    | Some d => if bool_decide (0 < d) then d else DEFAULT_RATE_LIMIT_BACKOFF
    | None => DEFAULT_RATE_LIMIT_BACKOFF
    end in
  Z.min requested MAX_RATE_LIMIT_BACKOFF.

(** ** The runner inventory of a target, as a refresh reports it *)

Inductive RunnerStatus := Online | RunnerOffline | OtherStatus (raw : str).
#[global] Instance RunnerStatus_eq_dec : EqDecision RunnerStatus.
Proof. solve_decision. Defined.

Record Runner := mk_runner {
  rn_id : Z;  (* u64 *)
  rn_name : str;
  rn_os : str;
  rn_status : RunnerStatus;
  rn_busy : bool;
  rn_ephemeral : option bool;
  rn_labels : list str;
}.
#[global] Instance Runner_eq_dec : EqDecision Runner.
Proof. solve_decision. Defined.

Record RunnerInventory := mk_inventory {
  ri_target : ScaleTarget;
  ri_runners : list Runner;
  ri_reported_total : option Z;  (* u64 *)
  ri_pages : Z;                  (* usize *)
  ri_truncated : bool;
}.
#[global] Instance RunnerInventory_eq_dec : EqDecision RunnerInventory.
Proof. solve_decision. Defined.

Record UnavailableRepository := mk_unavailable { un_repository : OwnerRepo; un_reason : str }.
#[global] Instance UnavailableRepository_eq_dec : EqDecision UnavailableRepository.
Proof. solve_decision. Defined.

Record ActivityCount := mk_activity {
  ac_per_repository : list (OwnerRepo * Z);  (* BTreeMap<OwnerRepo, u32> *)
  ac_unavailable : list UnavailableRepository;
  ac_truncated : list OwnerRepo;             (* BTreeSet *)
}.
#[global] Instance ActivityCount_eq_dec : EqDecision ActivityCount.
Proof. solve_decision. Defined.

Record RateLimitHeadroom := mk_headroom {
  hr_limit : option Z;
  hr_remaining : option Z;
  hr_reset_unix_secs : option Z;
}.
#[global] Instance RateLimitHeadroom_eq_dec : EqDecision RateLimitHeadroom.
Proof. solve_decision. Defined.

Record InventorySnapshot := mk_inventory_snapshot {
  is_target : ScaleTarget;
  is_runners : RunnerInventory;
  is_activity : ActivityCount;
  is_observed_at : Timestamp;
  is_headroom : option RateLimitHeadroom;
}.
#[global] Instance InventorySnapshot_eq_dec : EqDecision InventorySnapshot.
Proof. solve_decision. Defined.

(** ** The outcome of a refresh *)

Inductive RefreshState :=
  | RReady (snapshot : InventorySnapshot)
  | RRateLimited (limit : RateLimited)
  | RUnauthorized
  | RLockedOut (retry_after : Duration)
  | RForbidden (message : option str)
  | ROffline
  | RFailed (status : option Z) (message : str)
  | RCancelled.
#[global] Instance RefreshState_eq_dec : EqDecision RefreshState.
Proof. solve_decision. Defined.

Definition retry_delay (s : RefreshState) (now : Timestamp) : option Duration :=
  match s with
  | RRateLimited limit => Some (delay_from limit now)
  | RLockedOut retry_after => Some retry_after
  | _ => None
  end.

(** ** The demand reading *)

Record QueuedDemand := mk_demand {
  qd_per_repository : list (OwnerRepo * list RunsOn);  (* BTreeMap *)
  qd_unavailable : list UnavailableRepository;
  qd_truncated : list OwnerRepo;                       (* BTreeSet *)
  qd_busy : list OwnerRepo;                            (* BTreeSet *)
  qd_rate_limit : option RateLimitSnapshot;
}.

Definition QueuedDemand_new (jobs : list (OwnerRepo * list RunsOn)) : QueuedDemand :=
  mk_demand jobs [] [] [] None.

Definition QueuedDemand_is_quiet (d : QueuedDemand) : bool :=
  bool_decide (qd_busy d = []) && bool_decide (qd_unavailable d = []).

Definition jobs_for (d : QueuedDemand) (r : OwnerRepo) : list RunsOn :=
  default [] (map_get r (qd_per_repository d)).

Definition jobs (d : QueuedDemand) : list RunsOn := (qd_per_repository d).*2 ≫= id.

Definition is_complete (d : QueuedDemand) : bool :=
  bool_decide (qd_unavailable d = []) && bool_decide (qd_truncated d = []).

(** ** Bounds *)

(** What the field types guarantee of a snapshot. *)
Definition snapshot_typed (q : RateLimitSnapshot) : Prop :=
  in_u64 (rl_limit q) ∧ in_u64 (rl_remaining q) ∧ in_u64 (rl_reset_unix_secs q).

Definition limited_typed (l : RateLimited) : Prop :=
  (∀ d, retry_after l = Some d → duration d) ∧ ∀ r, reset_unix_secs l = Some r → in_u64 r.

Lemma reset_in_bounds q now : 0 ≤ reset_in q now ≤ seconds I64_MAX.
Proof.
  unfold reset_in, i64_saturating_sub, clamp, seconds, I64_MIN, I64_MAX.
  repeat case_bool_decide; lia.
Qed.

(** A refusal silences the credential for at most fifteen minutes, and never for
    no time at all, whatever the headers said. *)
Lemma delay_from_bounds l now :
  limited_typed l → 0 < delay_from l now ≤ MAX_RATE_LIMIT_BACKOFF.
Proof.
  unfold delay_from, DEFAULT_RATE_LIMIT_BACKOFF, MAX_RATE_LIMIT_BACKOFF, seconds, duration.
  intros [Hd _]. repeat (case_match || case_bool_decide); simplify_eq; lia.
Qed.

Lemma stretch_factor_bounds p : 1 ≤ stretch_factor p ≤ 4.
Proof. destruct p; simpl; lia. Qed.
