(* ===== verification/Schedule.v ===== *)
(** * When to poll next ([crates/agent/src/reconcile.rs], the poll schedule)

    The state machine that turns the outcome of each reconciliation pass into the
    delay before the next one: the idle and active intervals, the stretch under
    quota pressure, the rate-limit floors and the offline back-off with jitter. *)

From stdpp Require Import strings.
From S2P Require Import Prelude RustStr Ordered Model Labels Github.
#[local] Open Scope Z_scope.
#[local] Open Scope rust_scope.

Definition MAX_OFFLINE_BACKOFF : Duration := seconds (15 * 60).
Definition MAX_BACKOFF_DOUBLINGS : Z := 5.
Definition MAX_IDLE_REQUESTS_PER_MINUTE_PER_TARGET : Z := 300.
Definition GITHUB_CANCELS_QUEUED_JOBS_AFTER : Duration := seconds (24 * 60 * 60).

(** The two jitter ratios, in thousandths. *)
Definition JITTER_RATIO : Z := 500.
Definition RATE_LIMIT_JITTER_RATIO : Z := 100.

(** The [Jitter] trait as the schedule uses it: [jitter_mul ratio d] is
    [d.mul_f64(ratio * jitter.fraction().clamp(0.0, 1.0))] for the fraction drawn
    by this call. The law is the range of the clamped fraction together with the
    rounding of [mul_f64] to a nanosecond. *)
Class Jitter := { jitter_mul : Z → Duration → Duration }.
Class JitterLaws `{Jitter} : Prop := {
  jitter_mul_bounds ratio d :
    0 ≤ ratio ≤ 1000 → 0 ≤ d → 0 ≤ jitter_mul ratio d ≤ d * ratio / 1000 + 1 }.

Inductive PollPace :=
  | PaceNominal
  | PaceIdle
  | PaceStretched (pressure : PrimaryPressure)
  | PaceRateLimited (kind : RateLimitKind)
  | PaceLockedOut
  | PaceOffline (consecutive : Z)  (* u32 *)
  | PaceBlocked.
#[global] Instance PollPace_eq_dec : EqDecision PollPace.
Proof. solve_decision. Defined.

Definition is_throttled (p : PollPace) : bool :=
  negb (bool_decide (p = PaceNominal) || bool_decide (p = PaceIdle)).

Record NextPoll := mk_next { delay : Duration; pace : PollPace }.
#[global] Instance NextPoll_eq_dec : EqDecision NextPoll.
Proof. solve_decision. Defined.

Record PollSchedule := mk_schedule {
  interval : RefreshInterval;
  idle : Duration;
  consecutive_offline : Z;  (* u32 *)
  offline_since : option Timestamp;
}.
#[global] Instance PollSchedule_eq_dec : EqDecision PollSchedule.
Proof. solve_decision. Defined.

Record PollConditions := mk_conditions {
  quiet : bool;
  quota : option RateLimitSnapshot;
  requests_per_pass : Z;  (* u32 *)
}.
Definition PollConditions_default : PollConditions := mk_conditions false None 0.

Definition idle_floor : Duration := seconds IdlePollInterval_MIN_SECS.
Definition floor : Duration := seconds RefreshInterval_MIN_SECS.
Definition nominal (s : PollSchedule) : Duration := seconds (refresh_secs (interval s)).

Definition NextPoll_default : NextPoll := mk_next floor PaceNominal.

Definition PollSchedule_new (i : RefreshInterval) : PollSchedule :=
  mk_schedule i (seconds (refresh_secs i)) 0 None.

Definition set_intervals (i : RefreshInterval) (idle : Duration) (s : PollSchedule)
    : PollSchedule :=
  mk_schedule i (Z.max (Z.min idle (seconds (refresh_secs i))) idle_floor)
    (consecutive_offline s) (offline_since s).

Definition with_idle (d : Duration) (s : PollSchedule) : PollSchedule :=
  set_intervals (interval s) d s.

(** [signed_duration_since(..).to_std().ok()]: [None] for a negative elapsed time. *)
Definition to_std (e : Elapsed) : option Duration :=
  if bool_decide (0 ≤ e) then Some e else None.

Definition offline_for (s : PollSchedule) (now : Timestamp) : option Duration :=
  match offline_since s with
  | None => None
  | Some since => to_std (now - since)
  end.

Definition recovered (s : PollSchedule) : PollSchedule :=
  mk_schedule (interval s) (idle s) 0 None.

Definition idle_floor_for (requests : Z) : Duration :=
  seconds (requests * 60 / MAX_IDLE_REQUESTS_PER_MINUTE_PER_TARGET).

Definition retry_floor (state : RefreshState) (now : Timestamp) : Duration :=
  default floor (retry_delay state now).

(** The offline back-off before jitter. *)
Definition offline_capped (consecutive : Z) (nominal : Duration) : Duration :=
  let doublings := Z.min (sat_sub consecutive 1) MAX_BACKOFF_DOUBLINGS in
  let grown := dur_mul nominal (Z.shiftl 1 doublings) in
  Z.min grown MAX_OFFLINE_BACKOFF.

Section WithJitter.
Context `{Jitter}.

Definition offline_delay (s : PollSchedule) (nominal : Duration) : Duration :=
  let capped := offline_capped (consecutive_offline s) nominal in
  let spread := jitter_mul JITTER_RATIO capped in
  Z.max (dur_add capped spread) floor.

Definition next_poll_with (failure : option RefreshState) (c : PollConditions)
    (now : Timestamp) (s : PollSchedule) : PollSchedule * NextPoll :=
  let nominal := nominal s in
  match failure with
  | None =>
      let s := recovered s in
      let p := match quota c with Some q => pressure q now | None => PNormal end in
      (s, match p, quota c with
          | (PLow | PCritical), Some q =>
              mk_next (Z.min (dur_mul nominal (stretch_factor p))
                             (Z.max (reset_in q now) nominal))
                (PaceStretched p)
          | _, _ =>
              if quiet c && bool_decide (idle s < nominal)
              then mk_next (Z.max (idle s) (idle_floor_for (requests_per_pass c))) PaceIdle
              else mk_next nominal PaceNominal
          end)
  | Some ROffline =>
      let s := mk_schedule (interval s) (idle s)
                 (sat_add U32_MAX (consecutive_offline s) 1)
                 (Some (default now (offline_since s))) in
      (s, mk_next (offline_delay s nominal) (PaceOffline (consecutive_offline s)))
  | Some (RRateLimited limit as state) =>
      let wait := Z.max (retry_floor state now) nominal in
      (recovered s,
       mk_next (dur_add wait (jitter_mul RATE_LIMIT_JITTER_RATIO wait))
         (PaceRateLimited (kind limit)))
  | Some (RLockedOut _ as state) =>
      (recovered s, mk_next (Z.max (retry_floor state now) nominal) PaceLockedOut)
  | Some _ => (recovered s, mk_next nominal PaceBlocked)
  end.

Definition next_poll (failure : option RefreshState) (now : Timestamp) (s : PollSchedule)
    : PollSchedule * NextPoll :=
  next_poll_with failure PollConditions_default now s.
End WithJitter.

(** ** The offline notice *)

Record OfflineState := mk_offline {
  os_consecutive : Z;  (* u32 *)
  os_retry_in : Duration;
  os_offline_for : option Duration;
}.
#[global] Instance OfflineState_eq_dec : EqDecision OfflineState.
Proof. solve_decision. Defined.

Definition OfflineState_new (consecutive : Z) (retry_in : Duration) : OfflineState :=
  mk_offline consecutive retry_in None.

Definition OfflineState_since (d : Duration) (s : OfflineState) : OfflineState :=
  mk_offline (os_consecutive s) (os_retry_in s) (Some d).

Definition has_outlasted_the_queue (s : OfflineState) : bool :=
  match os_offline_for s with
  | Some elapsed => bool_decide (GITHUB_CANCELS_QUEUED_JOBS_AFTER ≤ elapsed)
  | None => false
  end.

(** ** The schedule over the life of a loop *)

(** What happens to a schedule: an operator changes the intervals, or a pass ends. *)
Inductive schedule_event :=
  | SetIntervals (i : RefreshInterval) (idle : Duration)
  | PassEnded (failure : option RefreshState) (c : PollConditions) (now : Timestamp).

Definition apply_event `{Jitter} (s : PollSchedule) (e : schedule_event) : PollSchedule :=
  match e with
  | SetIntervals i d => set_intervals i d s
  | PassEnded f c now => (next_poll_with f c now s).1
  end.

Definition run_schedule `{Jitter} (i : RefreshInterval) (es : list schedule_event)
    : PollSchedule := foldl apply_event (PollSchedule_new i) es.

(** What [RefreshInterval]'s constructor guarantees. *)
Definition valid_interval (i : RefreshInterval) : Prop :=
  RefreshInterval_MIN_SECS ≤ refresh_secs i ≤ U16_MAX.

Definition valid_event (e : schedule_event) : Prop :=
  match e with SetIntervals i d => valid_interval i ∧ duration d | PassEnded _ _ _ => True end.

(** What the types of a pass's outcome guarantee. *)
Definition outcome_typed (f : option RefreshState) (c : PollConditions) : Prop :=
  (∀ l, f = Some (RRateLimited l) → limited_typed l) ∧
  (∀ d, f = Some (RLockedOut d) → duration d) ∧ in_u32 (requests_per_pass c).

Record valid_schedule (s : PollSchedule) : Prop := {
  vs_interval : valid_interval (interval s);
  vs_idle : idle_floor ≤ idle s ≤ nominal s;
  vs_consecutive : in_u32 (consecutive_offline s);
  vs_since : consecutive_offline s = 0 ↔ offline_since s = None;
}.

Lemma PollSchedule_new_valid i : valid_interval i → valid_schedule (PollSchedule_new i).
Proof.
  unfold valid_interval, RefreshInterval_MIN_SECS.
  intros ?; constructor; simpl; [done| |zarith|done].
  unfold idle_floor, nominal, seconds, IdlePollInterval_MIN_SECS. simpl. lia.
Qed.

Lemma recovered_valid s : valid_schedule s → valid_schedule (recovered s).
Proof. intros [? ? ? ?]; constructor; simpl; [done|done|zarith|done]. Qed.

Lemma apply_event_valid `{Jitter} s e :
  valid_event e → valid_schedule s → valid_schedule (apply_event s e).
Proof.
  intros He Hs. destruct e as [i d|f c now]; simpl in *.
  - destruct He as [Hi Hd], Hs as [? ? ? ?]. constructor; simpl; try done.
    unfold valid_interval, nominal, idle_floor, seconds, IdlePollInterval_MIN_SECS,
      RefreshInterval_MIN_SECS in *. simpl. lia.
  - destruct f as [[]|]; simpl; auto using recovered_valid.
    destruct Hs as [? ? Hc Hd]. constructor; simpl; [done|done| |].
    + unfold sat_add, in_u32, U32_MAX in *. lia.
    + unfold sat_add, in_u32, U32_MAX in *. split; [lia|done].
Qed.

Lemma run_schedule_valid `{Jitter} i es :
  valid_interval i → Forall valid_event es → valid_schedule (run_schedule i es).
Proof.
  unfold run_schedule. intros Hi Hes.
  assert (valid_schedule (PollSchedule_new i)) as Hs by auto using PollSchedule_new_valid.
  revert Hs. generalize (PollSchedule_new i).
  induction Hes; simpl; auto using apply_event_valid.
Qed.

(** ** Bounds of each pace *)

Ltac durations :=
  unfold dur_add, dur_mul, sat_add, sat_mul, DURATION_MAX, floor, idle_floor,
    MAX_OFFLINE_BACKOFF, MAX_RATE_LIMIT_BACKOFF, RefreshInterval_MIN_SECS,
    IdlePollInterval_MIN_SECS, JITTER_RATIO, RATE_LIMIT_JITTER_RATIO, U64_MAX, U32_MAX, U16_MAX,
    seconds in *.

Lemma offline_capped_bounds n d :
  floor ≤ d ≤ seconds U16_MAX →
  floor ≤ offline_capped n d ≤ MAX_OFFLINE_BACKOFF.
Proof.
  unfold offline_capped. durations. intros Hd.
  rewrite Z.shiftl_1_l.
  assert (0 < 2 ^ Z.min (sat_sub n 1) MAX_BACKOFF_DOUBLINGS).
  { apply Z.pow_pos_nonneg; unfold sat_sub, MAX_BACKOFF_DOUBLINGS; lia. }
  generalize dependent (2 ^ Z.min (sat_sub n 1) MAX_BACKOFF_DOUBLINGS). intros k Hk.
  assert (d * 1 ≤ d * k) by (apply Z.mul_le_mono_nonneg_l; lia). lia.
Qed.

(** The longest a pace may wait. *)
Definition longest (s : PollSchedule) (f : option RefreshState) (c : PollConditions)
    (now : Timestamp) (p : PollPace) : Duration :=
  match p with
  | PaceNominal | PaceBlocked => nominal s
  | PaceIdle => Z.max (idle s) (idle_floor_for (requests_per_pass c))
  | PaceStretched q => stretch_factor q * nominal s
  | PaceRateLimited _ =>
      let wait := Z.max MAX_RATE_LIMIT_BACKOFF (nominal s) in wait + wait / 10 + 1
  | PaceLockedOut => Z.max (default 0 (f ≫= λ st, retry_delay st now)) (nominal s)
  | PaceOffline _ => MAX_OFFLINE_BACKOFF + MAX_OFFLINE_BACKOFF / 2 + 1
  end.

Section Bounds.
Context `{JitterLaws}.

Lemma offline_delay_bounds s n :
  floor ≤ n ≤ seconds U16_MAX →
  floor ≤ offline_delay s n ≤ MAX_OFFLINE_BACKOFF + MAX_OFFLINE_BACKOFF / 2 + 1.
Proof.
  intros Hn. unfold offline_delay.
  pose proof (offline_capped_bounds (consecutive_offline s) _ Hn) as Hc.
  generalize dependent (offline_capped (consecutive_offline s) n). intros d Hd.
  pose proof (jitter_mul_bounds JITTER_RATIO d) as Hj.
  durations.
  specialize (Hj ltac:(lia) ltac:(lia)).
  Z.to_euclidean_division_equations. lia.
Qed.

Lemma rate_limit_wait_bounds w m :
  0 ≤ w ≤ m → m ≤ seconds U16_MAX →
  w ≤ dur_add w (jitter_mul RATE_LIMIT_JITTER_RATIO w) ≤ m + m / 10 + 1.
Proof.
  intros Hw Hm. pose proof (jitter_mul_bounds RATE_LIMIT_JITTER_RATIO w) as Hj.
  durations.
  specialize (Hj ltac:(lia) ltac:(lia)).
  Z.to_euclidean_division_equations. lia.
Qed.

Lemma nominal_bounds s : valid_schedule s → floor ≤ nominal s ≤ seconds U16_MAX.
Proof.
  intros [[? ?] _ _ _]. unfold nominal, floor, seconds. lia.
Qed.

Lemma success_bounds s c now :
  valid_schedule s → let n := (next_poll_with None c now s).2 in
  idle_floor ≤ delay n ≤ longest s None c now (pace n) ∧
  (floor ≤ delay n ∨ pace n = PaceIdle).
Proof.
  intros Hs. pose proof (nominal_bounds s Hs) as Hn. destruct Hs as [_ Hidle _ _].
  assert (idle_floor ≤ floor) as Hf by done. cbv zeta.
  cbn [next_poll_with snd].
  destruct (quota c) as [q|]; [destruct (pressure q now)|];
    try destruct (quiet c && _); cbn [delay pace longest recovered idle stretch_factor];
    rewrite ?(right_id_L _ (∨)); split; try (left; lia); try (by right); try lia.
  all: durations; lia.
Qed.

(** C35: No pass schedules the next one too early or, short of GitHub naming a
    lockout, too late. After any sequence of passes and interval changes, the delay
    is at least five seconds, and at least thirty unless the pace is idle; it is at
    most the active interval when nothing is wrong, four times it under quota
    pressure, fifteen minutes and a tenth (or the interval and a tenth, when that is
    longer) under a rate limit, and fifteen minutes and a half of that when offline. *)
Theorem next_poll_bounds i es f c now :
  valid_interval i → Forall valid_event es → outcome_typed f c →
  let s := run_schedule i es in
  let n := (next_poll_with f c now s).2 in
  idle_floor ≤ delay n ≤ longest s f c now (pace n) ∧
  (floor ≤ delay n ∨ pace n = PaceIdle).
Proof.
  intros Hi Hes (Hl & Hd & Hr). cbv zeta.
  pose proof (run_schedule_valid i es Hi Hes) as Hs. generalize dependent (run_schedule i es).
  intros s Hs. pose proof (nominal_bounds s Hs) as Hn.
  assert (idle_floor ≤ floor) by done.
  destruct f as [[]|]; [| | | | | | | |by apply success_bounds];
    cbn [next_poll_with snd delay pace longest];
    try (split; [lia | left; lia]).
  - specialize (Hl _ eq_refl). unfold retry_floor. cbn [retry_delay default id].
    pose proof (delay_from_bounds limit now Hl).
    assert (MAX_RATE_LIMIT_BACKOFF ≤ seconds U16_MAX) by done.
    pose proof (rate_limit_wait_bounds (Z.max (delay_from limit now) (nominal s))
      (Z.max MAX_RATE_LIMIT_BACKOFF (nominal s)) ltac:(lia) ltac:(lia)).
    split; [lia | left; lia].
  - unfold retry_floor. cbn [retry_delay default id option_bind mbind]. split; [lia | left; lia].
  - pose proof (offline_delay_bounds (mk_schedule (interval s) (idle s)
      (sat_add U32_MAX (consecutive_offline s) 1) (Some (default now (offline_since s))))
      (nominal s) Hn).
    split; [lia | left; lia].
Qed.

(** C40: Idle polling respects its budget of 300 requests a minute up to one second
    of rounding, and a quiet target is polled no later than an active one exactly
    when the budget allows it: the floor set by the cost of a pass is not clipped
    to the active interval. *)
Theorem idle_polling_budget i es c now :
  valid_interval i → Forall valid_event es → in_u32 (requests_per_pass c) →
  let s := run_schedule i es in
  let n := (next_poll_with None c now s).2 in
  pace n = PaceIdle →
  requests_per_pass c * seconds 60 <
    MAX_IDLE_REQUESTS_PER_MINUTE_PER_TARGET * (delay n + seconds 1) ∧
  (delay n ≤ nominal s ↔ requests_per_pass c < 5 * (refresh_secs (interval s) + 1)).
Proof.
  intros Hi Hes Hr. cbv zeta. pose proof (run_schedule_valid i es Hi Hes) as Hs.
  generalize dependent (run_schedule i es). intros s [_ Hidle _ _].
  cbn [next_poll_with snd].
  destruct (match quota c with Some q => pressure q now | None => PNormal end),
    (quota c); try done; destruct (quiet c && _); try done; intros _;
  cbn [delay recovered idle]; unfold idle_floor_for, nominal,
    MAX_IDLE_REQUESTS_PER_MINUTE_PER_TARGET, in_u32, seconds in *;
  Z.to_euclidean_division_equations; lia.
Qed.
End Bounds.

(** ** The offline run *)

(** The polls of a history that ended it offline, latest first. *)
Fixpoint streak (rev_events : list schedule_event) : list Timestamp :=
  match rev_events with
  | SetIntervals _ _ :: es => streak es
  | PassEnded (Some ROffline) _ now :: es => now :: streak es
  | _ => []
  end.

(** The schedule knows the outage it is in: after any history the counter is the
    number of passes since GitHub last answered (saturating), the outage's start is
    the time of the first of them, and the elapsed time shown to the operator is
    measured from it. *)
Theorem offline_run_tracked `{Jitter} i es now :
  let s := run_schedule i es in
  let l := streak (reverse es) in
  consecutive_offline s = Z.min U32_MAX (Z.of_nat (length l)) ∧
  offline_since s = last l ∧
  offline_for s now = last l ≫= λ since, to_std (now - since).
Proof.
  cbv zeta.
  assert (consecutive_offline (run_schedule i es) =
            Z.min U32_MAX (Z.of_nat (length (streak (reverse es)))) ∧
          offline_since (run_schedule i es) = last (streak (reverse es))) as [Hc Hs].
  { induction es as [|e es [IHc IHs]] using rev_ind; [done|].
    unfold run_schedule in *. rewrite foldl_app, reverse_snoc. simpl.
    destruct e as [|[[]|] ?]; simpl; try done.
    rewrite IHc, IHs. split; [unfold sat_add, U32_MAX; lia|].
    rewrite last_cons. by destruct (last (streak (reverse es))). }
  split_and!; [done..|]. unfold offline_for. rewrite Hs. by destruct (last _).
Qed.

(** ** Witnesses *)

(** A jitter source that always draws [fraction] thousandths. *)
Definition fixed_jitter (fraction : Z) : Jitter :=
  {| jitter_mul := λ ratio d, d * (ratio * fraction) / 1000000 |}.

Lemma fixed_jitter_laws fraction : 0 ≤ fraction ≤ 1000 → @JitterLaws (fixed_jitter fraction).
Proof.
  intros Hf. constructor. intros ratio d Hr Hd. simpl.
  assert (d * (ratio * fraction) ≤ d * ratio * 1000) by nia.
  assert (0 ≤ d * (ratio * fraction)) by nia.
  split; [apply Z.div_pos; lia|].
  transitivity (d * ratio * 1000 / 1000000); [apply Z.div_le_mono; lia|].
  replace 1000000 with (1000 * 1000) by lia. rewrite Z.div_mul_cancel_r by lia. lia.
Qed.

Definition example_history : list schedule_event :=
  [SetIntervals (mk_RefreshInterval 60) (seconds 10);
   PassEnded None PollConditions_default (seconds 60);
   PassEnded (Some ROffline) PollConditions_default (seconds 120);
   PassEnded (Some ROffline) PollConditions_default (seconds 200)].

Lemma example_history_valid : Forall valid_event example_history.
Proof. repeat constructor; vm_compute; congruence. Qed.

(** A third offline pass, with a quarter of the spread drawn. *)
Lemma next_poll_bounds_witness :
  let J := fixed_jitter 250 in
  let n := (next_poll_with (Some ROffline) PollConditions_default (seconds 400)
              (run_schedule RefreshInterval_default example_history)).2 in
  n = mk_next (seconds 270) (PaceOffline 3) ∧
  idle_floor ≤ delay n ≤ MAX_OFFLINE_BACKOFF + MAX_OFFLINE_BACKOFF / 2 + 1.
Proof.
  cbv zeta. split; [vm_compute; reflexivity|].
  pose (L := fixed_jitter_laws 250 ltac:(lia)).
  apply (@next_poll_bounds _ L RefreshInterval_default example_history (Some ROffline)
    PollConditions_default (seconds 400)).
  - vm_compute. split; congruence.
  - apply example_history_valid.
  - split; [done|]. split; [done|]. vm_compute. split; congruence.
Defined.

(** A hundred quiet repositories, at four requests each: eighty seconds, with an
    active interval of sixty. *)
Lemma idle_polling_budget_witness :
  let J := fixed_jitter 0 in
  let s := run_schedule RefreshInterval_default [SetIntervals (mk_RefreshInterval 60) (seconds 10)] in
  let c := mk_conditions true None 400 in
  let n := (next_poll_with None c 0 s).2 in
  n = mk_next (seconds 80) PaceIdle ∧ nominal s = seconds 60 ∧
  400 * seconds 60 < MAX_IDLE_REQUESTS_PER_MINUTE_PER_TARGET * (delay n + seconds 1).
Proof.
  cbv zeta. split; [vm_compute; reflexivity|]. split; [vm_compute; reflexivity|].
  pose (L := fixed_jitter_laws 0 ltac:(lia)).
  apply (@idle_polling_budget (fixed_jitter 0) RefreshInterval_default
    [SetIntervals (mk_RefreshInterval 60) (seconds 10)] (mk_conditions true None 400) 0).
  - vm_compute. split; congruence.
  - repeat constructor; vm_compute; congruence.
  - vm_compute. split; congruence.
  - vm_compute. reflexivity.
Defined.
