(* ===== verification/Routing.v ===== *)
(** * Routing queued jobs to profiles ([crates/agent/src/reconcile.rs], [route_demand])

    A target's queued jobs are tallied for each of its profiles, and a job that
    several profiles of this host could serve is refused to all of them. *)

From stdpp Require Import strings.
From S2P Require Import Prelude RustStr Ordered Model Path Workspace Execution Host Attempt.
From S2P Require Import Labels Policy Capacity Github.
#[local] Open Scope Z_scope.
#[local] Open Scope rust_scope.

Inductive RoutingRefusal := OverlappingProfiles.
#[global] Instance RoutingRefusal_eq_dec : EqDecision RoutingRefusal.
Proof. solve_decision. Defined.
#[global] Instance ord_RoutingRefusal : Ord RoutingRefusal := λ _ _, Eq.
#[global] Instance ord_laws_RoutingRefusal : OrdLaws RoutingRefusal.
Proof. by constructor. Qed.

(** [u32] subtraction of a release build. *)
Definition u32_sub (a b : Z) : Z := (a - b) mod (U32_MAX + 1).

Definition target_jobs (t : ScaleTarget) (reading : QueuedDemand) : list RunsOn :=
  match t with
  | Repository r => jobs_for reading r
  | Organization _ => jobs reading
  end.

Definition demand_for (p : ScalePolicy) (reading : QueuedDemand) : DemandTally :=
  match mode_labels (mode p) with
  | None => tally_default
  | Some labels => labels_tally labels (target_jobs (target p) reading)
  end.

Definition policy_matches (p : ScalePolicy) (job : RunsOn) : bool :=
  match mode_labels (mode p) with
  | Some labels => is_match (labels_matches labels job)
  | None => false
  end.

Definition tallies := list (PolicyId * DemandTally).   (* BTreeMap *)
Definition refusals := list (RoutingRefusal * Z).      (* BTreeMap, u32 *)

Definition collect_tallies (profiles : list ScalePolicy) (reading : QueuedDemand) : tallies :=
  foldl (λ m p, map_insert (p_id p) (demand_for p reading) m) [] profiles.

Definition routing_owners (all : list ScalePolicy) (first : ScalePolicy) : list ScalePolicy :=
  List.filter owns_runners
    (List.filter (λ p, ScaleTarget_eqb (target p) (target first)
                       && bool_decide (host_id p = host_id first)) all).

Definition matched_owners (owners : list ScalePolicy) (job : RunsOn) : list PolicyId :=
  p_id <$> List.filter (λ p, policy_matches p job) owners.

Definition refused (t : DemandTally) : DemandTally :=
  mk_tally (u32_sub (matched t) 1) (u32_add (not_matched t) 1) (unresolvable t).

(** [if let Some(tally) = tallies.get_mut(&id)]. *)
Definition refuse_one (ts : tallies) (id : PolicyId) : tallies :=
  match map_get id ts with
  | Some t => map_insert id (refused t) ts
  | None => ts
  end.

(** [*refusals.entry(reason).or_default() += 1]. *)
Definition bump (r : RoutingRefusal) (m : refusals) : refusals :=
  map_insert r (u32_add (default 0 (map_get r m)) 1) m.

Definition route_job (owners : list ScalePolicy) (acc : tallies * refusals) (job : RunsOn)
    : tallies * refusals :=
  match required_labels job with
  | Err _ => acc
  | Ok _ =>
      let ids := matched_owners owners job in
      if bool_decide (1 < Z.of_nat (length ids))
      then (foldl refuse_one acc.1 ids, bump OverlappingProfiles acc.2)
      else acc
  end.

Definition route_demand (all profiles : list ScalePolicy) (reading : QueuedDemand)
    : tallies * refusals :=
  let ts := collect_tallies profiles reading in
  match profiles with
  | [] => (ts, [])
  | first :: _ =>
      foldl (route_job (routing_owners all first)) (ts, [])
        (target_jobs (target first) reading)
  end.

(** ** Lemmas *)

Lemma Name_eqb_cmp x y : Name_eqb x y = true ↔ cmp x y = Eq.
Proof.
  unfold Name_eqb. rewrite eq_ignore_ascii_case_spec. unfold cmp at 1, ord_Name. split.
  - intros ->. apply cmp_refl.
  - apply cmp_eq_leibniz.
Qed.

Lemma OwnerRepo_eqb_cmp x y : OwnerRepo_eqb x y = true ↔ cmp x y = Eq.
Proof.
  unfold OwnerRepo_eqb. rewrite andb_true_iff, !Name_eqb_cmp.
  unfold cmp at 3, ord_OwnerRepo. rewrite prod_cmp_unfold. simpl.
  destruct (cmp (owner x) (owner y)); naive_solver.
Qed.

(** Equal targets are equal keys. *)
Lemma ScaleTarget_eqb_cmp x y : ScaleTarget_eqb x y = true ↔ cmp x y = Eq.
Proof.
  destruct x, y; simpl; try done; [apply OwnerRepo_eqb_cmp|]. apply Name_eqb_cmp.
Qed.

Lemma map_get_key {K V} `{OrdLaws K} (k k' : K) (m : list (K * V)) :
  cmp k k' = Eq → map_get k m = map_get k' m.
Proof.
  intros E. induction m as [|[j v] m IH]; simpl; [done|].
  by rewrite (cmp_eq_l _ _ _ E), IH.
Qed.

(** Two spellings of a target read the same jobs. *)
Lemma target_jobs_eqb t t' reading :
  ScaleTarget_eqb t t' = true → target_jobs t reading = target_jobs t' reading.
Proof.
  destruct t, t'; simpl; try done. intros E. unfold jobs_for.
  by rewrite (map_get_key _ _ _ (proj1 (OwnerRepo_eqb_cmp _ _) E)).
Qed.

Lemma map_get_insert_N {V} (k k' : N) (v : V) m :
  map_get k' (map_insert k v m) = if decide (k' = k) then Some v else map_get k' m.
Proof.
  rewrite map_get_insert. change (cmp k' k) with (N.compare k' k).
  destruct (N.compare_spec k' k); destruct (decide (k' = k)); try done; lia.
Qed.

Lemma collect_tallies_get profiles reading p :
  p ∈ profiles → (∀ q, q ∈ profiles → p_id q = p_id p → q = p) →
  map_get (p_id p) (collect_tallies profiles reading) = Some (demand_for p reading).
Proof.
  unfold collect_tallies. intros Hp Hu. induction profiles as [|q l IH] using rev_ind.
  { by apply not_elem_of_nil in Hp. }
  rewrite foldl_app. simpl. rewrite map_get_insert_N. destruct (decide _) as [E|E].
  - rewrite (Hu q); [done| |done]. apply elem_of_app. right. by apply list_elem_of_singleton.
  - apply IH; [|intros; apply Hu; [apply elem_of_app; by left|done]].
    apply elem_of_app in Hp as [?|Hp]; [done|]. apply list_elem_of_singleton in Hp. congruence.
Qed.

Lemma refuse_one_get ts id k :
  map_get k (refuse_one ts id) = if decide (k = id) then refused <$> map_get k ts else map_get k ts.
Proof.
  unfold refuse_one. destruct (map_get id ts) eqn:E.
  - rewrite map_get_insert_N. destruct (decide _) as [->|]; [|done]. by rewrite E.
  - destruct (decide _) as [->|]; [|done]. by rewrite E.
Qed.

Lemma refuse_all_get ids ts k :
  NoDup ids →
  map_get k (foldl refuse_one ts ids)
  = if decide (k ∈ ids) then refused <$> map_get k ts else map_get k ts.
Proof.
  intros Hnd. revert ts. induction Hnd as [|id ids Hid _ IH]; intros ts; cbn [foldl].
  { destruct (decide _) as [Hk|]; [|done]. by apply not_elem_of_nil in Hk. }
  rewrite IH, refuse_one_get.
  destruct (decide (k = id)) as [->|].
  - rewrite decide_False by done. rewrite decide_True; [done|by left].
  - destruct (decide (k ∈ ids)).
    + rewrite decide_True; [done|by right].
    + rewrite decide_False; [done|]. rewrite elem_of_cons. naive_solver.
Qed.

(** ** Sole ownership *)

(** The profile a job is routed to, if any: the only owner that matches it. *)
Definition sole_owner (owners : list ScalePolicy) (job : RunsOn) : option PolicyId :=
  match matched_owners owners job with [id] => Some id | _ => None end.

Definition overlapping (owners : list ScalePolicy) (job : RunsOn) : bool :=
  bool_decide (1 < Z.of_nat (length (matched_owners owners job))).

Definition count_if {A} (f : A → bool) (l : list A) : Z := Z.of_nat (length (List.filter f l)).

(** Only a job whose labels resolve matches a profile. *)
Lemma unresolved_matches_none p job e :
  required_labels job = Err e → policy_matches p job = false.
Proof.
  intros E. unfold policy_matches, labels_matches. destruct (mode_labels (mode p)); [|done].
  by rewrite E.
Qed.

Section Owners.
Context (owners : list ScalePolicy) (Hids : NoDup (p_id <$> owners)).

Lemma matched_NoDup job : NoDup (matched_owners owners job).
Proof. by apply NoDup_fmap_filter. Qed.

Lemma matched_elem p job :
  p ∈ owners → p_id p ∈ matched_owners owners job ↔ policy_matches p job = true.
Proof.
  intros Hp. unfold matched_owners. rewrite list_elem_of_fmap. split.
  - intros (q & Hq & Hf). apply elem_of_filter_bool in Hf as [Hin Hm].
    by rewrite (NoDup_fmap_key _ _ _ _ Hids Hp Hin Hq).
  - intros Hm. exists p. split; [done|]. by apply elem_of_filter_bool.
Qed.

(** What one job does to the tally of one profile. *)
Lemma route_job_get (acc : tallies * refusals) job p :
  p ∈ owners →
  map_get (p_id p) (route_job owners acc job).1
  = if overlapping owners job && policy_matches p job
    then refused <$> map_get (p_id p) acc.1 else map_get (p_id p) acc.1.
Proof.
  intros Hp. unfold route_job, overlapping. destruct (required_labels job) eqn:E.
  - destruct (bool_decide _); [|done]. simpl. rewrite refuse_all_get by apply matched_NoDup.
    destruct (decide _) as [Hin|Hin].
    + apply matched_elem in Hin; [|done]. by rewrite Hin.
    + destruct (policy_matches p job) eqn:Hm; [|done].
      by apply matched_elem in Hm.
  - by rewrite (unresolved_matches_none p job e E), andb_false_r.
Qed.

Lemma route_jobs_get js (acc : tallies * refusals) p t :
  p ∈ owners → map_get (p_id p) acc.1 = Some t →
  count_if (policy_matches p) js ≤ matched t →
  0 ≤ not_matched t → matched t + not_matched t ≤ U32_MAX →
  ∃ t', map_get (p_id p) (foldl (route_job owners) acc js).1 = Some t' ∧
    matched t' = matched t - count_if (λ j, overlapping owners j && policy_matches p j) js ∧
    matched t' + not_matched t' = matched t + not_matched t ∧
    unresolvable t' = unresolvable t.
Proof.
  intros Hp. revert acc t. induction js as [|job js IH]; intros acc t Ht Hc Hn Hu; simpl.
  { exists t. unfold count_if. simpl. split_and!; [done|lia..|done]. }
  pose proof (route_job_get acc job p Hp) as Hg. rewrite Ht in Hg. unfold count_if in *. simpl in *.
  destruct (policy_matches p job), (overlapping owners job); simpl in *;
    try (apply (IH _ t Hg); lia).
  assert (u32_sub (matched t) 1 = matched t - 1) as Hsub.
  { unfold u32_sub. apply Z.mod_small. lia. }
  assert (u32_add (not_matched t) 1 = not_matched t + 1) as Hadd.
  { unfold u32_add. apply Z.mod_small. lia. }
  destruct (IH _ (refused t) Hg) as (t' & ? & ? & ? & ?);
    simpl in *; rewrite ?Hsub, ?Hadd in *; try lia.
  exists t'. split_and!; [done|lia..|done].
Qed.

(** Every job a profile matches is either refused to it or its own. *)
Lemma matches_split p js :
  p ∈ owners →
  count_if (policy_matches p) js
  = count_if (λ j, overlapping owners j && policy_matches p j) js
    + count_if (λ j, bool_decide (sole_owner owners j = Some (p_id p))) js.
Proof.
  intros Hp. unfold count_if. induction js as [|job js IH]; [done|]. simpl.
  assert (policy_matches p job = true ∧ overlapping owners job = true ∧
            sole_owner owners job ≠ Some (p_id p) ∨
          policy_matches p job = true ∧ overlapping owners job = false ∧
            sole_owner owners job = Some (p_id p) ∨
          policy_matches p job = false ∧ sole_owner owners job ≠ Some (p_id p)) as Hcases.
  { unfold sole_owner, overlapping. pose proof (matched_elem p job Hp) as He.
    destruct (matched_owners owners job) as [|a [|b l]];
      destruct (policy_matches p job) eqn:Hm.
    - exfalso. apply (not_elem_of_nil (p_id p)). by apply He.
    - right; right. done.
    - right; left. split_and!; [done..|]. assert (p_id p ∈ [a]) as Ha by by apply He.
      apply list_elem_of_singleton in Ha. congruence.
    - right; right. split; [done|]. intros [= ->]. assert (false = true); [|done].
      apply He. by left.
    - left. split_and!; [done| |done]. apply bool_decide_eq_true. simpl. lia.
    - right; right. done. }
  destruct Hcases as [(-> & -> & Hs)|[(-> & -> & Hs)|(-> & Hs)]]; rewrite ?andb_false_r;
    first [rewrite bool_decide_true by done | rewrite bool_decide_false by done]; simpl; lia.
Qed.
End Owners.

(** *** Refusals *)

Definition refused_jobs (m : refusals) : Z := default 0 (map_get OverlappingProfiles m).

Lemma route_job_refusals owners (acc : tallies * refusals) job :
  refused_jobs (route_job owners acc job).2
  = if overlapping owners job then u32_add (refused_jobs acc.2) 1 else refused_jobs acc.2.
Proof.
  unfold route_job, overlapping. destruct (required_labels job) eqn:E.
  - destruct (bool_decide _); [|done]. unfold refused_jobs, bump. simpl.
    by rewrite map_get_insert.
  - rewrite bool_decide_false; [done|]. unfold matched_owners.
    assert (List.filter (λ p, policy_matches p job) owners = []) as ->.
    { apply filter_nil_iff. intros p _. by apply (unresolved_matches_none p job e). }
    simpl. lia.
Qed.

Lemma route_jobs_refusals owners js (acc : tallies * refusals) :
  0 ≤ refused_jobs acc.2 → refused_jobs acc.2 + Z.of_nat (length js) ≤ U32_MAX →
  refused_jobs (foldl (route_job owners) acc js).2
  = refused_jobs acc.2 + count_if (overlapping owners) js.
Proof.
  revert acc. induction js as [|job js IH]; intros acc Hn Hb; simpl.
  { unfold count_if. simpl. lia. }
  pose proof (route_job_refusals owners acc job) as Hg. unfold count_if in *. simpl length in *.
  simpl. destruct (overlapping owners job).
  - assert (u32_add (refused_jobs acc.2) 1 = refused_jobs acc.2 + 1) as Hadd.
    { unfold u32_add. apply Z.mod_small. lia. }
    rewrite IH; rewrite Hg, Hadd; simpl; lia.
  - rewrite IH; rewrite Hg; lia.
Qed.

(** *** Every profile is tallied, with a machine count *)

Lemma collect_tallies_has profiles reading p :
  p ∈ profiles → is_Some (map_get (p_id p) (collect_tallies profiles reading)).
Proof.
  unfold collect_tallies. intros Hp. induction profiles as [|q l IH] using rev_ind.
  { by apply not_elem_of_nil in Hp. }
  rewrite foldl_app. simpl. rewrite map_get_insert_N. destruct (decide _) as [E|E]; [done|].
  apply IH. apply elem_of_app in Hp as [?|Hp]; [done|].
  apply list_elem_of_singleton in Hp. congruence.
Qed.

Lemma refuse_all_has ids (ts : tallies) k :
  is_Some (map_get k ts) → is_Some (map_get k (foldl refuse_one ts ids)).
Proof.
  revert ts. induction ids as [|id ids IH]; intros ts Hk; simpl; [done|]. apply IH.
  rewrite refuse_one_get. destruct (decide _); [by apply fmap_is_Some|done].
Qed.

Definition counts_typed (ts : tallies) : Prop :=
  ∀ k t, map_get k ts = Some t → in_u32 (matched t).

Lemma u32_mod_typed z : in_u32 (z mod (U32_MAX + 1)).
Proof.
  change (U32_MAX + 1) with 4294967296. unfold in_u32, U32_MAX.
  pose proof (Z.mod_pos_bound z 4294967296). lia.
Qed.

Lemma labels_tally_typed r js : in_u32 (matched (labels_tally r js)).
Proof.
  unfold labels_tally. assert (in_u32 (matched tally_default)) as H by done. revert H.
  generalize tally_default. induction js as [|j js IH]; intros t Ht; simpl; [done|].
  apply IH. unfold tally_one. destruct (labels_matches r j); simpl; [|done..].
  apply u32_mod_typed.
Qed.

Lemma collect_tallies_typed profiles reading : counts_typed (collect_tallies profiles reading).
Proof.
  unfold collect_tallies, counts_typed. induction profiles as [|q l IH] using rev_ind; [done|].
  intros k t. rewrite foldl_app. simpl. rewrite map_get_insert_N. destruct (decide _).
  - intros [= <-]. unfold demand_for. destruct (mode_labels (mode q)); [|done].
    apply labels_tally_typed.
  - apply IH.
Qed.

Lemma refuse_all_typed ids ts : counts_typed ts → counts_typed (foldl refuse_one ts ids).
Proof.
  revert ts. induction ids as [|id ids IH]; intros ts Ht; simpl; [done|]. apply IH.
  intros k t. rewrite refuse_one_get. destruct (decide _); [|apply Ht].
  destruct (map_get k ts); [|done]. intros [= <-]. simpl. apply u32_mod_typed.
Qed.

Lemma route_jobs_has owners js (acc : tallies * refusals) k :
  is_Some (map_get k acc.1) → is_Some (map_get k (foldl (route_job owners) acc js).1).
Proof.
  revert acc. induction js as [|j js IH]; intros acc Hk; simpl; [done|]. apply IH.
  unfold route_job. destruct (required_labels j); [|done]. case_bool_decide; [|done].
  by apply refuse_all_has.
Qed.

Lemma route_jobs_typed owners js (acc : tallies * refusals) :
  counts_typed acc.1 → counts_typed (foldl (route_job owners) acc js).1.
Proof.
  revert acc. induction js as [|j js IH]; intros acc Hk; simpl; [done|]. apply IH.
  unfold route_job. destruct (required_labels j); [|done]. case_bool_decide; [|done].
  by apply refuse_all_typed.
Qed.

Lemma route_demand_has all profiles reading p :
  p ∈ profiles → ∃ t, map_get (p_id p) (route_demand all profiles reading).1 = Some t.
Proof.
  intros Hp. unfold route_demand. destruct profiles as [|first ps].
  { by apply not_elem_of_nil in Hp. }
  by apply route_jobs_has, collect_tallies_has.
Qed.

Lemma route_demand_typed all profiles reading : counts_typed (route_demand all profiles reading).1.
Proof.
  unfold route_demand. destruct profiles as [|first ps]; [done|].
  apply route_jobs_typed, collect_tallies_typed.
Qed.

(** ** Theorem *)

(** The profiles of one pass over a target: pollable policies of one host with one
    target, taken from the policies of the host. *)
Definition profiles_of (all profiles : list ScalePolicy) : Prop :=
  NoDup (p_id <$> all) ∧
  ∀ p q, p ∈ profiles → q ∈ profiles →
    p ∈ all ∧ owns_runners p = true ∧ ScaleTarget_eqb (target p) (target q) = true ∧
    host_id p = host_id q.

Lemma profiles_own all first profiles p :
  profiles_of all (first :: profiles) → p ∈ first :: profiles →
  p ∈ routing_owners all first.
Proof.
  intros [_ H] Hp. destruct (H p first Hp) as (Hin & Ho & Ht & Hh); [by left|].
  apply elem_of_filter_bool. split; [|done]. apply elem_of_filter_bool. split; [done|].
  rewrite Ht. by apply bool_decide_eq_true.
Qed.

Lemma demand_for_counts p reading :
  Z.of_nat (length (target_jobs (target p) reading)) ≤ U32_MAX → owns_runners p = true →
  let js := target_jobs (target p) reading in
  let t := demand_for p reading in
  matched t = count_if (policy_matches p) js ∧ 0 ≤ not_matched t ∧
  matched t + not_matched t + Z.of_nat (length (unresolvable t)) = Z.of_nat (length js).
Proof.
  intros Hb Ho. unfold demand_for, policy_matches, owns_runners in *.
  destruct (mode p) as [|cfg]; [done|]. simpl.
  destruct (labels_tally_from (cfg_labels cfg) (target_jobs (target p) reading) tally_default)
    as (Hm & Hn & Hu); simpl; try lia. unfold labels_tally. rewrite Hm, Hn, Hu. simpl.
  pose proof (count_jobs_total (cfg_labels cfg) (target_jobs (target p) reading)).
  unfold count_jobs, count_if in *. lia.
Qed.

(** C22: Each queued job is demand for at most one profile: the demand a profile is
    given is exactly the number of jobs that it matches and no other profile of this
    host on this target matches, whether or not that other profile may start runners.
    The counters never underflow, every job is still accounted for, and the jobs
    withheld are reported. *)
Theorem route_demand_exclusive all profiles reading p first :
  profiles_of all profiles → p ∈ profiles → head profiles = Some first →
  Z.of_nat (length (target_jobs (target first) reading)) ≤ U32_MAX →
  let js := target_jobs (target first) reading in
  let owners := routing_owners all first in
  let out := route_demand all profiles reading in
  ∃ t, map_get (p_id p) out.1 = Some t ∧
    demand t = count_if (λ j, bool_decide (sole_owner owners j = Some (p_id p))) js ∧
    matched t + not_matched t + Z.of_nat (length (unresolvable t)) = Z.of_nat (length js) ∧
    refused_jobs out.2 = count_if (overlapping owners) js.
Proof.
  intros Hall Hp Hfirst Hb. destruct profiles as [|first' ps]; [done|].
  injection Hfirst as ->. cbv zeta. unfold route_demand.
  pose proof (profiles_own _ _ _ _ Hall Hp) as Hown. destruct Hall as [Hids Hall].
  assert (NoDup (p_id <$> routing_owners all first)) as Hnd
    by (do 2 apply NoDup_fmap_filter; done).
  destruct (Hall p first Hp) as (Hin & Ho & Ht & _); [by left|].
  pose proof (target_jobs_eqb _ _ reading Ht) as Hjobs.
  destruct (demand_for_counts p reading) as (Hm & Hn & Hsum); [by rewrite Hjobs|done|].
  rewrite Hjobs in *.
  destruct (route_jobs_get _ Hnd (target_jobs (target first) reading)
    (collect_tallies (first :: ps) reading, []) p (demand_for p reading)) as
    (t & Hget & Hmt & Hst & Hut); [done| |lia|done|lia|].
  { apply collect_tallies_get; [done|]. intros q Hq E.
    apply (NoDup_fmap_key p_id all); [done| | |done]; by eapply Hall. }
  exists t. split_and!; [done| |rewrite Hut; lia|].
  - unfold demand. pose proof (matches_split _ Hnd p (target_jobs (target first) reading) Hown).
    lia.
  - rewrite route_jobs_refusals; unfold refused_jobs; simpl; [lia..].
Qed.

(** ** Witness *)

(** A second, disabled profile of the same repository that carries one of the labels
    of the active one. *)
Definition example_sibling : ScalePolicy :=
  mk_policy 8%N (target example_active) 99 1%N example_host (mk_ProfileName (lit "isolated"))
    (Autoscale (mk_config (from_parts (mk_Label (lit "gpu")) []) 0 2)) false
    (p_state example_monitor) RetainRunnerPackage (workspace_policy example_monitor)
    (execution_policy example_monitor) 0.

Definition example_reading : QueuedDemand :=
  QueuedDemand_new
    (match target example_active with
     | Repository r =>
         [(r, [Single (lit "gpu"); Single (lit "big"); Many [lit "gpu"; lit "big"];
               Single (lit "ubuntu-latest")])]
     | Organization _ => []
     end).

(** Of three jobs the active profile matches, one is contested by the disabled
    profile and two are its demand. *)
Lemma route_demand_exclusive_witness :
  ∃ t, map_get 7%N (route_demand [example_active; example_sibling] [example_active]
                      example_reading).1 = Some t ∧ demand t = 2.
Proof.
  destruct (route_demand_exclusive [example_active; example_sibling] [example_active]
    example_reading example_active example_active) as (t & Hg & Hd & _).
  - split; [vm_compute; repeat constructor; set_solver|].
    intros p q Hp Hq. apply list_elem_of_singleton in Hp as ->, Hq as ->.
    split_and!; [by left|vm_compute; reflexivity..].
  - by left.
  - reflexivity.
  - vm_compute. discriminate.
  - exists t. split; [exact Hg|]. rewrite Hd. vm_compute. reflexivity.
Defined.
