(* ===== verification/Backoff.v ===== *)
(** * Retrying failed cleanups ([crates/agent/src/reconcile.rs], [CleanBackoff], and the
    [RetryPolicy] of [crates/agent/src/lifecycle.rs])

    A failed cleanup is retried with a delay that doubles per consecutive failure of
    the same attempt, up to a ceiling. *)

From stdpp Require Import strings.
From S2P Require Import Prelude RustStr Ordered Model Labels Github Schedule.
#[local] Open Scope Z_scope.
#[local] Open Scope rust_scope.

Record RetryPolicy := mk_retry_policy {
  max_attempts : Z;  (* u32 *)
  initial : Duration;
  maximum : Duration;
}.

Definition bounded (n : Z) (i m : Duration) : RetryPolicy := mk_retry_policy n i m.

Definition retry_policy_delay (p : RetryPolicy) (failure_index : Z) : Duration :=
  let shift := Z.min (sat_sub failure_index 1) 31 in
  Z.min (dur_mul (initial p) (Z.shiftl 1 shift)) (maximum p).

Definition CLEAN_RETRY_INITIAL : Duration := seconds 30.
Definition CLEAN_RETRY_MAXIMUM : Duration := seconds (30 * 60).

Record CleanRetry := mk_clean_retry { cr_failures : Z (* u32 *); not_before : Timestamp }.

Record CleanBackoff := mk_backoff { retries : gmap AttemptId CleanRetry }.
Definition CleanBackoff_default : CleanBackoff := mk_backoff ∅.

Definition SCHEDULE : RetryPolicy := bounded U32_MAX CLEAN_RETRY_INITIAL CLEAN_RETRY_MAXIMUM.

(** [chrono::Duration::from_std(d).unwrap_or_default()]: a [TimeDelta] holds at most
    [i64::MAX] milliseconds. *)
Definition time_delta (d : Duration) : Elapsed :=
  if bool_decide (d ≤ I64_MAX * 1000000) then d else 0.

Definition is_due (a : AttemptId) (now : Timestamp) (b : CleanBackoff) : bool :=
  match retries b !! a with
  | Some retry => bool_decide (not_before retry ≤ now)
  | None => true
  end.

Definition clean_failed (a : AttemptId) (now : Timestamp) (b : CleanBackoff) : CleanBackoff :=
  let failures :=
    match retries b !! a with Some r => sat_add U32_MAX (cr_failures r) 1 | None => 1 end in
  let delay := retry_policy_delay SCHEDULE failures in
  mk_backoff (<[a := mk_clean_retry failures (now + time_delta delay)]> (retries b)).

Definition clean_succeeded (a : AttemptId) (b : CleanBackoff) : CleanBackoff :=
  mk_backoff (delete a (retries b)).

Definition backoff_retain (present : list AttemptId) (b : CleanBackoff) : CleanBackoff :=
  mk_backoff (filter (λ kv, kv.1 ∈ present) (retries b)).

(** ** The life of a back-off table *)

Inductive backoff_event :=
  | EFailed (a : AttemptId) (now : Timestamp)
  | ESucceeded (a : AttemptId)
  | ERetain (present : list AttemptId).

Definition apply_backoff (b : CleanBackoff) (e : backoff_event) : CleanBackoff :=
  match e with
  | EFailed a now => clean_failed a now b
  | ESucceeded a => clean_succeeded a b
  | ERetain present => backoff_retain present b
  end.

Definition run_backoff (es : list backoff_event) : CleanBackoff :=
  foldl apply_backoff CleanBackoff_default es.

(** The failures of [a] since it was last cleaned or forgotten, latest first. *)
Fixpoint failures_of (a : AttemptId) (rev_events : list backoff_event) : list Timestamp :=
  match rev_events with
  | [] => []
  | EFailed a' now :: es =>
      if bool_decide (a' = a) then now :: failures_of a es else failures_of a es
  | ESucceeded a' :: es => if bool_decide (a' = a) then [] else failures_of a es
  | ERetain present :: es =>
      if bool_decide (a ∈ present) then failures_of a es else []
  end.

(** The documented delay after the [n]th consecutive failure: thirty seconds, doubled
    each time, and at most thirty minutes. *)
Definition clean_delay (n : Z) : Duration := Z.min (seconds 30 * 2 ^ (n - 1)) (seconds 1800).

Lemma schedule_delay n : 1 ≤ n → retry_policy_delay SCHEDULE n = clean_delay n.
Proof.
  intros Hn. unfold retry_policy_delay, clean_delay, SCHEDULE, bounded, CLEAN_RETRY_INITIAL,
    CLEAN_RETRY_MAXIMUM, dur_mul, sat_mul, DURATION_MAX, U64_MAX, sat_sub, seconds.
  cbn [initial maximum]. rewrite Z.shiftl_1_l.
  destruct (Z.le_gt_cases n 32).
  - replace (Z.min (Z.max 0 (n - 1)) 31) with (n - 1) by lia.
    assert (0 < 2 ^ (n - 1)) by (apply Z.pow_pos_nonneg; lia). lia.
  - replace (Z.min (Z.max 0 (n - 1)) 31) with 31 by lia.
    assert (2 ^ 31 ≤ 2 ^ (n - 1)) by (apply Z.pow_le_mono_r; lia). lia.
Qed.

Lemma clean_delay_bounds n : 1 ≤ n → seconds 30 ≤ clean_delay n ≤ seconds 1800.
Proof.
  intros Hn. unfold clean_delay, seconds.
  assert (1 ≤ 2 ^ (n - 1)) by (apply (Z.pow_le_mono_r 2 0); lia). lia.
Qed.

Lemma time_delta_id d : d ≤ seconds 1800 → time_delta d = d.
Proof.
  unfold time_delta, seconds, I64_MAX. intros. by rewrite bool_decide_true by lia.
Qed.

Lemma failures_bound a es :
  Z.of_nat (length (failures_of a es)) ≤ Z.of_nat (length es).
Proof. induction es as [|[] es IH]; simpl; repeat case_bool_decide; simpl; lia. Qed.

Lemma run_backoff_lookup es a :
  Z.of_nat (length es) ≤ U32_MAX →
  retries (run_backoff es) !! a =
    match failures_of a (reverse es) with
    | [] => None
    | (last :: _) as l =>
        let n := Z.of_nat (length l) in Some (mk_clean_retry n (last + clean_delay n))
    end.
Proof.
  intros Hlen. unfold run_backoff. induction es as [|e es IH] using rev_ind; [done|].
  rewrite length_app in Hlen. simpl in Hlen. specialize (IH ltac:(lia)).
  pose proof (failures_bound a (reverse es)) as Hb. rewrite length_reverse in Hb.
  rewrite foldl_app, reverse_snoc. simpl.
  generalize dependent (foldl apply_backoff CleanBackoff_default es). intros b IH.
  destruct e as [a' now|a'|present]; cbn [apply_backoff failures_of retries].
  - unfold clean_failed. cbn [retries]. case_bool_decide as E.
    + subst a'. rewrite lookup_insert_eq. rewrite IH.
      destruct (failures_of a (reverse es)) as [|t l] eqn:El.
      * rewrite schedule_delay by lia. by rewrite time_delta_id by (apply clean_delay_bounds; lia).
      * cbn [length cr_failures] in *.
        assert (sat_add U32_MAX (Z.of_nat (S (length l))) 1 = Z.of_nat (S (S (length l)))) as ->
          by (unfold sat_add; lia).
        rewrite schedule_delay by lia. by rewrite time_delta_id by (apply clean_delay_bounds; lia).
    + by rewrite lookup_insert_ne.
  - unfold clean_succeeded. cbn [retries]. case_bool_decide as E.
    + subst a'. by rewrite lookup_delete_eq.
    + by rewrite lookup_delete_ne.
  - unfold backoff_retain. cbn [retries]. case_bool_decide as E.
    + transitivity (retries b !! a); [|exact IH]. destruct (retries b !! a) eqn:El.
      * by apply map_lookup_filter_Some_2.
      * apply map_lookup_filter_None. by left.
    + apply map_lookup_filter_None. right. intros ? _. simpl. done.
Qed.

(** A cleanup that keeps failing is retried, but not in a flood: after [n]
    consecutive failures of an attempt it is due again exactly thirty seconds times
    [2^(n-1)], at most thirty minutes, after the last of them; an attempt that was
    cleaned, forgotten or never failed is due at once. *)
Theorem clean_backoff_schedule es a now :
  Z.of_nat (length es) ≤ U32_MAX →
  is_due a now (run_backoff es) = true ↔
  match failures_of a (reverse es) with
  | [] => True
  | (last :: _) as l => last + clean_delay (Z.of_nat (length l)) ≤ now
  end.
Proof.
  intros Hlen. unfold is_due. rewrite run_backoff_lookup by done.
  destruct (failures_of a (reverse es)); [done|]. simpl. by rewrite bool_decide_eq_true.
Qed.

(** Three failures of one attempt, the second attempt cleaned in between. *)
Definition example_backoff : list backoff_event :=
  [EFailed 1%N 0; EFailed 2%N 0; EFailed 1%N (seconds 31); ESucceeded 2%N; ERetain [1%N; 3%N];
   EFailed 1%N (seconds 100)].

Lemma clean_backoff_schedule_witness :
  is_due 1%N (seconds 219) (run_backoff example_backoff) = false ∧
  is_due 1%N (seconds 220) (run_backoff example_backoff) = true ∧
  is_due 2%N (seconds 1) (run_backoff example_backoff) = true.
Proof.
  split; [vm_compute; reflexivity|].
  split; apply clean_backoff_schedule; vm_compute; try discriminate; exact I.
Defined.
