(* ===== verification/Report.v ===== *)
(** * What a reconciliation pass reads and reports ([crates/agent/src/reconcile.rs])

    The outcomes of polling, the failures of the ports, the report of a pass and the
    lifecycle events it emits. *)

From stdpp Require Import strings.
From S2P Require Import Prelude RustStr Ordered Model Path Workspace Execution Host Attempt.
From S2P Require Import Labels Policy Capacity Github Schedule Routing Backoff.
#[local] Open Scope Z_scope.
#[local] Open Scope rust_scope.

Inductive PollOutcome := Ready (demand : QueuedDemand) | PollFailed (state : RefreshState).

Definition reading (o : PollOutcome) : option QueuedDemand :=
  match o with Ready d => Some d | PollFailed _ => None end.
Definition poll_failure (o : PollOutcome) : option RefreshState :=
  match o with PollFailed s => Some s | Ready _ => None end.

Record ActivityScope := mk_scope {
  sc_target : ScaleTarget;
  sc_repositories : list OwnerRepo;
}.
Definition scope_repository (r : OwnerRepo) : ActivityScope := mk_scope (Repository r) [r].
Definition scope_organization (o : Org) (rs : list OwnerRepo) : ActivityScope :=
  mk_scope (Organization o) rs.

Definition DEMAND_REQUESTS_PER_REPOSITORY_PER_POLL : Z := 4.
Definition demand_requests_per_poll (s : ActivityScope) : Z :=
  sat_mul U32_MAX (Z.min U32_MAX (Z.of_nat (length (sc_repositories s))))
    DEMAND_REQUESTS_PER_REPOSITORY_PER_POLL.

Record LaunchFailure := mk_launch_failure { lf_reason : FailureReason }.
Record ReplacementIntent := mk_intent {
  in_policy : PolicyId;
  previous_attempt : AttemptId;
  operation : string;
}.
Inductive HostCapacityError := MissingHost | JournalUnreadable.
Inductive AllocationFailure :=
  | AFHostCapacity (e : HostCapacityError)
  | AFAttempts (f : LaunchFailure).

Inductive OutcomeKind := KCompletedJob | KIdleExit | KFailed | KOrphaned.
#[global] Instance OutcomeKind_eq_dec : EqDecision OutcomeKind.
Proof. solve_decision. Defined.

Definition OutcomeKind_of (o : AttemptOutcome) : OutcomeKind :=
  match o with
  | CompletedJob => KCompletedJob
  | ExitedIdleWithoutWork => KIdleExit
  | OutcomeFailed _ => KFailed
  | OutcomeOrphaned => KOrphaned
  end.

Definition OutcomeKind_as_str (k : OutcomeKind) : string :=
  match k with
  | KCompletedJob => "completed_job"
  | KIdleExit => "exited_idle_without_work"
  | KFailed => "failed"
  | KOrphaned => "orphaned"
  end.

Definition kind_is_failure (k : OutcomeKind) : bool :=
  match k with KFailed | KOrphaned => true | _ => false end.

Definition isolation_failure_kind (f : IsolationProviderFailure) : string :=
  match f with
  | Unsupported => "isolation_provider_unsupported"
  | NotInstalled => "isolation_provider_not_installed"
  | PermissionDenied => "isolation_provider_permission_denied"
  | ImageUnavailableOrIncompatible => "isolation_image_unavailable"
  | DiskQuotaUnavailable => "isolation_disk_quota_unavailable"
  | Degraded => "isolation_provider_degraded"
  | RuntimeOperationFailed => "isolation_runtime_operation_failed"
  | OwnershipMismatch => "isolation_ownership_mismatch"
  | UnsafeRuntimePath => "isolation_unsafe_runtime_path"
  | JitHandoffRejected => "isolation_jit_handoff_rejected"
  end.

Definition failure_reason_kind (r : FailureReason) : string :=
  match r with
  | JitRequestFailed => "jit_request_failed"
  | JitExpired => "jit_expired"
  | RunnerPackageUnverified => "runner_package_unverified"
  | RunnerVersionRejected => "runner_version_rejected"
  | ProcessStartFailed => "process_start_failed"
  | ProcessExitedUnexpectedly => "process_exited_unexpectedly"
  | RegistrationTimedOut => "registration_timed_out"
  | TerminatedAfterRegistrationTimeout => "terminated_after_registration_timeout"
  | IsolationProvider category => isolation_failure_kind category
  | WorkspaceCleanupDeferred => "ephemeral_workspace_could_not_be_removed"
  | HostUnfit => "host_unfit"
  | Other _ => "other"
  end.

Definition unreadable_reason (s : RefreshState) : string :=
  match s with
  | RReady _ => "ready"
  | ROffline => "offline"
  | RRateLimited _ => "rate_limited"
  | RLockedOut _ => "locked_out"
  | RUnauthorized => "unauthorized"
  | RForbidden _ => "forbidden"
  | RFailed _ _ => "failed"
  | RCancelled => "cancelled"
  end.

Definition severity (s : RefreshState) : Z :=
  match s with
  | ROffline => 5
  | RRateLimited _ => 4
  | RLockedOut _ => 3
  | RUnauthorized => 2
  | RForbidden _ | RFailed _ _ => 1
  | RCancelled | RReady _ => 0
  end.

Inductive LifecycleEvent :=
  | EvDemandObserved (policy : PolicyId) (demand not_matched unresolvable : Z) (complete : bool)
  | EvRoutingRefused (policy : PolicyId) (reason : RoutingRefusal) (count : Z)
  | EvTargetUnreadable (policy : PolicyId) (reason : string)
  | EvAllocated (policy : PolicyId) (demand desired active_owned headroom to_start : Z)
      (limiting : LimitingFactor)
  | EvMonitorOnlySkipped (policy : PolicyId)
  | EvRunnerStarted (policy : PolicyId) (attempt : AttemptId)
  | EvRunnerStartFailed (policy : PolicyId) (reason : string)
  | EvAllocationDeferred (policy : PolicyId) (count : Z)
  | EvAttemptsUnreadable (reason : string)
  | EvHostCapacityUnreadable (reason : HostCapacityError)
  | EvAttemptCleaned (policy : PolicyId) (attempt : AttemptId) (outcome : OutcomeKind)
  | EvAttemptCleanFailed (policy : PolicyId) (attempt : AttemptId) (reason : string)
  | EvScaleDownRefused (policy : PolicyId) (attempt : AttemptId)
  | EvPollScheduled (retry_in_ms : Z) (pace : PollPace).

(** ** The report *)

Record ReconcileReport := mk_report {
  rr_allocations : list Allocation;
  rr_monitor_only : list PolicyId;
  rr_unreadable : list PolicyId;
  rr_targets_read : Z;  (* u16 *)
  rr_started : Z;  (* u16 *)
  rr_replacement_intents : Z;  (* u16 *)
  rr_cleaned : Z;  (* u16 *)
  rr_idle_exits : Z;  (* u16 *)
  rr_failures : Z;  (* u16 *)
  rr_deferred : Z;  (* u16 *)
  rr_attempts_unreadable : Z;  (* u16 *)
  rr_host_capacity_unreadable : Z;  (* u16 *)
  rr_clean_failures : Z;  (* u16 *)
  rr_failure : option RefreshState;
  rr_offline : option OfflineState;
  rr_next_poll : NextPoll;
  rr_demand_requests : Z;  (* u32 *)
}.

Definition ReconcileReport_default : ReconcileReport :=
  mk_report [] [] [] 0 0 0 0 0 0 0 0 0 0 None None NextPoll_default 0.

(** Field updates: [push_*] appends, [count_*] is a saturating increment, [with_*] assigns. *)

Definition push_allocations (x : Allocation) (r : ReconcileReport) : ReconcileReport :=
  mk_report
    (rr_allocations r ++ [x]) (rr_monitor_only r) (rr_unreadable r) (rr_targets_read r)
    (rr_started r) (rr_replacement_intents r) (rr_cleaned r) (rr_idle_exits r) (rr_failures r)
    (rr_deferred r) (rr_attempts_unreadable r) (rr_host_capacity_unreadable r)
    (rr_clean_failures r) (rr_failure r) (rr_offline r) (rr_next_poll r) (rr_demand_requests r).

Definition push_monitor_only (x : PolicyId) (r : ReconcileReport) : ReconcileReport :=
  mk_report
    (rr_allocations r) (rr_monitor_only r ++ [x]) (rr_unreadable r) (rr_targets_read r)
    (rr_started r) (rr_replacement_intents r) (rr_cleaned r) (rr_idle_exits r) (rr_failures r)
    (rr_deferred r) (rr_attempts_unreadable r) (rr_host_capacity_unreadable r)
    (rr_clean_failures r) (rr_failure r) (rr_offline r) (rr_next_poll r) (rr_demand_requests r).

Definition push_unreadable (x : PolicyId) (r : ReconcileReport) : ReconcileReport :=
  mk_report
    (rr_allocations r) (rr_monitor_only r) (rr_unreadable r ++ [x]) (rr_targets_read r)
    (rr_started r) (rr_replacement_intents r) (rr_cleaned r) (rr_idle_exits r) (rr_failures r)
    (rr_deferred r) (rr_attempts_unreadable r) (rr_host_capacity_unreadable r)
    (rr_clean_failures r) (rr_failure r) (rr_offline r) (rr_next_poll r) (rr_demand_requests r).

Definition count_started (n : Z) (r : ReconcileReport) : ReconcileReport :=
  mk_report
    (rr_allocations r) (rr_monitor_only r) (rr_unreadable r) (rr_targets_read r)
    (sat_add U16_MAX (rr_started r) n) (rr_replacement_intents r) (rr_cleaned r)
    (rr_idle_exits r) (rr_failures r) (rr_deferred r) (rr_attempts_unreadable r)
    (rr_host_capacity_unreadable r) (rr_clean_failures r) (rr_failure r) (rr_offline r)
    (rr_next_poll r) (rr_demand_requests r).

Definition count_replacement_intents (n : Z) (r : ReconcileReport) : ReconcileReport :=
  mk_report
    (rr_allocations r) (rr_monitor_only r) (rr_unreadable r) (rr_targets_read r) (rr_started r)
    (sat_add U16_MAX (rr_replacement_intents r) n) (rr_cleaned r) (rr_idle_exits r)
    (rr_failures r) (rr_deferred r) (rr_attempts_unreadable r) (rr_host_capacity_unreadable r)
    (rr_clean_failures r) (rr_failure r) (rr_offline r) (rr_next_poll r) (rr_demand_requests r).

Definition count_cleaned (n : Z) (r : ReconcileReport) : ReconcileReport :=
  mk_report
    (rr_allocations r) (rr_monitor_only r) (rr_unreadable r) (rr_targets_read r) (rr_started r)
    (rr_replacement_intents r) (sat_add U16_MAX (rr_cleaned r) n) (rr_idle_exits r)
    (rr_failures r) (rr_deferred r) (rr_attempts_unreadable r) (rr_host_capacity_unreadable r)
    (rr_clean_failures r) (rr_failure r) (rr_offline r) (rr_next_poll r) (rr_demand_requests r).

Definition count_idle_exits (n : Z) (r : ReconcileReport) : ReconcileReport :=
  mk_report
    (rr_allocations r) (rr_monitor_only r) (rr_unreadable r) (rr_targets_read r) (rr_started r)
    (rr_replacement_intents r) (rr_cleaned r) (sat_add U16_MAX (rr_idle_exits r) n)
    (rr_failures r) (rr_deferred r) (rr_attempts_unreadable r) (rr_host_capacity_unreadable r)
    (rr_clean_failures r) (rr_failure r) (rr_offline r) (rr_next_poll r) (rr_demand_requests r).

Definition count_failures (n : Z) (r : ReconcileReport) : ReconcileReport :=
  mk_report
    (rr_allocations r) (rr_monitor_only r) (rr_unreadable r) (rr_targets_read r) (rr_started r)
    (rr_replacement_intents r) (rr_cleaned r) (rr_idle_exits r)
    (sat_add U16_MAX (rr_failures r) n) (rr_deferred r) (rr_attempts_unreadable r)
    (rr_host_capacity_unreadable r) (rr_clean_failures r) (rr_failure r) (rr_offline r)
    (rr_next_poll r) (rr_demand_requests r).

Definition count_deferred (n : Z) (r : ReconcileReport) : ReconcileReport :=
  mk_report
    (rr_allocations r) (rr_monitor_only r) (rr_unreadable r) (rr_targets_read r) (rr_started r)
    (rr_replacement_intents r) (rr_cleaned r) (rr_idle_exits r) (rr_failures r)
    (sat_add U16_MAX (rr_deferred r) n) (rr_attempts_unreadable r)
    (rr_host_capacity_unreadable r) (rr_clean_failures r) (rr_failure r) (rr_offline r)
    (rr_next_poll r) (rr_demand_requests r).

Definition count_attempts_unreadable (n : Z) (r : ReconcileReport) : ReconcileReport :=
  mk_report
    (rr_allocations r) (rr_monitor_only r) (rr_unreadable r) (rr_targets_read r) (rr_started r)
    (rr_replacement_intents r) (rr_cleaned r) (rr_idle_exits r) (rr_failures r) (rr_deferred r)
    (sat_add U16_MAX (rr_attempts_unreadable r) n) (rr_host_capacity_unreadable r)
    (rr_clean_failures r) (rr_failure r) (rr_offline r) (rr_next_poll r) (rr_demand_requests r).

Definition count_host_capacity_unreadable (n : Z) (r : ReconcileReport) : ReconcileReport :=
  mk_report
    (rr_allocations r) (rr_monitor_only r) (rr_unreadable r) (rr_targets_read r) (rr_started r)
    (rr_replacement_intents r) (rr_cleaned r) (rr_idle_exits r) (rr_failures r) (rr_deferred r)
    (rr_attempts_unreadable r) (sat_add U16_MAX (rr_host_capacity_unreadable r) n)
    (rr_clean_failures r) (rr_failure r) (rr_offline r) (rr_next_poll r) (rr_demand_requests r).

Definition count_clean_failures (n : Z) (r : ReconcileReport) : ReconcileReport :=
  mk_report
    (rr_allocations r) (rr_monitor_only r) (rr_unreadable r) (rr_targets_read r) (rr_started r)
    (rr_replacement_intents r) (rr_cleaned r) (rr_idle_exits r) (rr_failures r) (rr_deferred r)
    (rr_attempts_unreadable r) (rr_host_capacity_unreadable r)
    (sat_add U16_MAX (rr_clean_failures r) n) (rr_failure r) (rr_offline r) (rr_next_poll r)
    (rr_demand_requests r).

Definition with_targets_read (x : Z) (r : ReconcileReport) : ReconcileReport :=
  mk_report
    (rr_allocations r) (rr_monitor_only r) (rr_unreadable r) x (rr_started r)
    (rr_replacement_intents r) (rr_cleaned r) (rr_idle_exits r) (rr_failures r) (rr_deferred r)
    (rr_attempts_unreadable r) (rr_host_capacity_unreadable r) (rr_clean_failures r)
    (rr_failure r) (rr_offline r) (rr_next_poll r) (rr_demand_requests r).

Definition with_failure (x : option RefreshState) (r : ReconcileReport) : ReconcileReport :=
  mk_report
    (rr_allocations r) (rr_monitor_only r) (rr_unreadable r) (rr_targets_read r) (rr_started r)
    (rr_replacement_intents r) (rr_cleaned r) (rr_idle_exits r) (rr_failures r) (rr_deferred r)
    (rr_attempts_unreadable r) (rr_host_capacity_unreadable r) (rr_clean_failures r) x
    (rr_offline r) (rr_next_poll r) (rr_demand_requests r).

Definition with_offline (x : option OfflineState) (r : ReconcileReport) : ReconcileReport :=
  mk_report
    (rr_allocations r) (rr_monitor_only r) (rr_unreadable r) (rr_targets_read r) (rr_started r)
    (rr_replacement_intents r) (rr_cleaned r) (rr_idle_exits r) (rr_failures r) (rr_deferred r)
    (rr_attempts_unreadable r) (rr_host_capacity_unreadable r) (rr_clean_failures r)
    (rr_failure r) x (rr_next_poll r) (rr_demand_requests r).

Definition with_next_poll (x : NextPoll) (r : ReconcileReport) : ReconcileReport :=
  mk_report
    (rr_allocations r) (rr_monitor_only r) (rr_unreadable r) (rr_targets_read r) (rr_started r)
    (rr_replacement_intents r) (rr_cleaned r) (rr_idle_exits r) (rr_failures r) (rr_deferred r)
    (rr_attempts_unreadable r) (rr_host_capacity_unreadable r) (rr_clean_failures r)
    (rr_failure r) (rr_offline r) x (rr_demand_requests r).

Definition with_demand_requests (x : Z) (r : ReconcileReport) : ReconcileReport :=
  mk_report
    (rr_allocations r) (rr_monitor_only r) (rr_unreadable r) (rr_targets_read r) (rr_started r)
    (rr_replacement_intents r) (rr_cleaned r) (rr_idle_exits r) (rr_failures r) (rr_deferred r)
    (rr_attempts_unreadable r) (rr_host_capacity_unreadable r) (rr_clean_failures r)
    (rr_failure r) (rr_offline r) (rr_next_poll r) x.

Record ScaleDownReport := mk_scale_down {
  sd_removed : Z;         (* u16 *)
  sd_refused_busy : Z;    (* u16 *)
  sd_clean_failures : Z;  (* u16 *)
  sd_retained : Z;        (* u16 *)
  sd_attempts_unreadable : bool;
}.
Definition ScaleDownReport_default : ScaleDownReport := mk_scale_down 0 0 0 0 false.

(** Whether a pass found nothing happening. *)
Definition is_quiet (readings : list (ScaleTarget * PollOutcome)) (r : ReconcileReport) : bool :=
  negb (match readings with [] => true | _ => false end)
  && forallb (λ o, match reading o with Some d => QueuedDemand_is_quiet d | None => false end)
       readings.*2
  && bool_decide (rr_started r = 0)
  && bool_decide (rr_host_capacity_unreadable r = 0)
  && bool_decide (rr_attempts_unreadable r = 0)
  && forallb (λ a, bool_decide (al_active_owned a = 0) && bool_decide (al_demand a = 0))
       (rr_allocations r).

(** [Iterator::max_by_key]: the last of the greatest. *)
Definition max_by_key {A} (key : A → Z) (l : list A) : option A :=
  foldl (λ best x,
    match best with
    | Some b => if bool_decide (key x < key b) then Some b else Some x
    | None => Some x
    end) None l.

Lemma max_by_key_spec {A} (key : A → Z) l x :
  max_by_key key l = Some x → x ∈ l ∧ ∀ y, y ∈ l → key y ≤ key x.
Proof.
  unfold max_by_key. revert x. induction l as [|a l IH] using rev_ind; intros x; [done|].
  rewrite foldl_app. simpl.
  destruct (foldl _ None l) as [b|] eqn:E.
  - specialize (IH b eq_refl) as [Hin Hmax]. case_bool_decide; intros [= <-]; split;
      try set_solver; intros y [Hy|Hy%list_elem_of_singleton]%elem_of_app; subst; try lia;
      specialize (Hmax _ Hy); lia.
  - intros [= <-]. split; [set_solver|]. intros y [Hy|Hy%list_elem_of_singleton]%elem_of_app;
      [|by subst].
    exfalso. clear -E Hy. destruct l as [|z l _] using rev_ind; [by apply not_elem_of_nil in Hy|].
    rewrite foldl_app in E. simpl in E. destruct (foldl _ None l); [case_bool_decide|]; done.
Qed.

Lemma max_by_key_None {A} (key : A → Z) l : max_by_key key l = None ↔ l = [].
Proof.
  split; [|by intros ->]. unfold max_by_key. destruct l as [|z l _] using rev_ind; [done|].
  rewrite foldl_app. simpl. destruct (foldl _ None l); [case_bool_decide|]; done.
Qed.
