(* ===== verification/Reconcile.v ===== *)
(** * The reconciliation pass ([crates/agent/src/reconcile.rs], [Reconciler])

    One pass over the policies of a host: supervise, poll each target once, route the
    queued jobs, clean what has concluded, start runners one lock hold at a time, and
    schedule the next pass. The traits the loop is written against are classes over an
    abstract world, so a pass is a program over any launcher, lock, demand source,
    directory and clock. *)

From stdpp Require Import strings.
From S2P Require Import Prelude RustStr Ordered Model Path Workspace Execution Host Attempt.
From S2P Require Import Labels Policy Capacity Github Schedule Routing Backoff Report.
#[local] Open Scope Z_scope.
#[local] Open Scope rust_scope.

(** ** Ports

    A call takes the world and returns it with the answer; whatever other processes do
    meanwhile is part of the world the call returns. A launch request also carries the
    guard, as evidence that the lock is held, and the time spent waiting for it, which
    is only reported; neither decides anything here. *)

Class RunnerLauncher (W : Type) := {
  l_host_capacity : Host → W → W * result Z HostCapacityError;
  l_supervise : ScalePolicy → W → W * result (list ReplacementIntent) LaunchFailure;
  l_attempts : W → W * result (list RunnerAttempt) LaunchFailure;
  l_launch : Host → ScalePolicy → W → W * result RunnerAttempt LaunchFailure;
  l_clean : AttemptId → W → W * result () LaunchFailure;
}.

(** [acquire] answers whether the guard was obtained; [release] drops it. *)
Class AllocationLock (W : Type) := {
  acquire : W → W * bool;
  release : W → W;
}.

Class DemandSource (W : Type) := { ds_poll : ActivityScope → W → W * PollOutcome }.

(** The error of a listing, summarised by [RefreshState::from_error]. *)
Class RepositoryDirectory (W : Type) := {
  d_repositories : Org → W → W * result (list OwnerRepo) RefreshState }.

Class Clock (W : Type) := { clock_now : W → W * Timestamp }.

(** [FitnessGatedLauncher]: a host found unfit launches nothing; everything else is the
    inner launcher's. *)
Definition FitnessGatedLauncher {W} (inner : RunnerLauncher W) (unfit : W → bool)
    : RunnerLauncher W := {|
  l_host_capacity := l_host_capacity;
  l_supervise := l_supervise;
  l_attempts := l_attempts;
  l_launch := λ h p w,
    if unfit w then (w, Err (mk_launch_failure HostUnfit)) else l_launch h p w;
  l_clean := l_clean;
|}.

(** ** The reconciler's own state *)

Record CachedRepositories := mk_cached { ca_repositories : list OwnerRepo; fetched_at : Timestamp }.

Definition REPOSITORY_LIST_REFRESH_MULTIPLE : Z := 30.

Record RepositoryCache := mk_cache {
  ttl : Duration;
  entries : list (Org * CachedRepositories);  (* BTreeMap *)
  lookups : Z;                                (* u64 *)
}.

Definition RepositoryCache_new (poll : RefreshInterval) : RepositoryCache :=
  mk_cache (dur_mul (seconds (refresh_secs poll)) REPOSITORY_LIST_REFRESH_MULTIPLE) [] 0.

Definition fresh_entry (c : RepositoryCache) (org : Org) (now : Timestamp)
    : option (list OwnerRepo) :=
  match map_get org (entries c) with
  | None => None
  | Some entry =>
      match to_std (now - fetched_at entry) with
      | None => None
      | Some age => if bool_decide (age < ttl c) then Some (ca_repositories entry) else None
      end
  end.

Definition cache_store (org : Org) (rs : list OwnerRepo) (now : Timestamp) (c : RepositoryCache)
    : RepositoryCache :=
  mk_cache (ttl c) (map_insert org (mk_cached rs now) (entries c)) (lookups c).

Definition count_lookup (c : RepositoryCache) : RepositoryCache :=
  mk_cache (ttl c) (entries c) ((lookups c + 1) mod (U64_MAX + 1)).

Record Reconciler := mk_reconciler {
  rc_host : Host;
  rc_repositories : RepositoryCache;
  rc_schedule : PollSchedule;
  rc_clean_backoff : CleanBackoff;
}.

Definition Reconciler_new (h : Host) : Reconciler :=
  mk_reconciler h (RepositoryCache_new (refresh_interval h))
    (PollSchedule_new (refresh_interval h)) CleanBackoff_default.

(** [Reconciler::set_intervals]: the lifetime of cached repository lists keeps the
    interval the reconciler was built with. *)
Definition reconciler_set_intervals (active : RefreshInterval) (idle : Duration) (r : Reconciler)
    : Reconciler :=
  let h := rc_host r in
  mk_reconciler
    (mk_host (h_id h) (display_name h) (h_os h) (architecture h) (host_capacity h)
       (service_start_mode h) active (runner_root_override h) (h_created_at h))
    (rc_repositories r) (set_intervals active idle (rc_schedule r)) (rc_clean_backoff r).

(** ** Programs

    A method runs on the reconciler, the events emitted so far and the world; [None]
    is a panic. *)

Record St (W : Type) := mk_st { self : Reconciler; events : list LifecycleEvent; world : W }.
Arguments mk_st {W} _ _ _.
Arguments self {W} _.
Arguments events {W} _.
Arguments world {W} _.

Definition prog (W A : Type) : Type := St W → option (St W * A).
#[global] Instance prog_ret W : MRet (prog W) := λ A a s, Some (s, a).
#[global] Instance prog_bind W : MBind (prog W) := λ A B k m s,
  match m s with Some (s', a) => k a s' | None => None end.

Section Reconciler.
Context {W : Type} `{!RunnerLauncher W, !AllocationLock W, !DemandSource W}.
Context `{!RepositoryDirectory W, !Clock W, !Jitter}.

Definition panic {A} : prog W A := λ _, None.
Definition call {A} (f : W → W * A) : prog W A := λ s,
  let (w, a) := f (world s) in Some (mk_st (self s) (events s) w, a).
Definition emit (e : LifecycleEvent) : prog W () := λ s,
  Some (mk_st (self s) (events s ++ [e]) (world s), tt).
Definition get_self : prog W Reconciler := λ s, Some (s, self s).
Definition drop_guard : prog W () := call (λ w, (release w, tt)).

Definition set_repositories (c : RepositoryCache) : prog W () := λ s,
  let r := self s in
  Some (mk_st (mk_reconciler (rc_host r) c (rc_schedule r) (rc_clean_backoff r))
          (events s) (world s), tt).
Definition set_schedule (sch : PollSchedule) : prog W () := λ s,
  let r := self s in
  Some (mk_st (mk_reconciler (rc_host r) (rc_repositories r) sch (rc_clean_backoff r))
          (events s) (world s), tt).
Definition modify_backoff (f : CleanBackoff → CleanBackoff) : prog W () := λ s,
  let r := self s in
  Some (mk_st (mk_reconciler (rc_host r) (rc_repositories r) (rc_schedule r)
                 (f (rc_clean_backoff r)))
          (events s) (world s), tt).

(** [for x in l], threading what the body updates. *)
Fixpoint for_each {A B} (l : list A) (body : A → B → prog W B) (b : B) : prog W B :=
  match l with
  | [] => mret b
  | x :: l => b ← body x b; for_each l body b
  end.

(** *** Polling *)

Definition repositories_of (org : Org) : prog W (result (list OwnerRepo) RefreshState) :=
  now ← call clock_now;
  r ← get_self;
  match fresh_entry (rc_repositories r) org now with
  | Some fresh => mret (Ok fresh)
  | None =>
      listed ← call (d_repositories org);
      match listed with
      | Err e => mret (Err e)
      | Ok repositories =>
          r ← get_self;
          _ ← set_repositories
                (cache_store org repositories now (count_lookup (rc_repositories r)));
          mret (Ok repositories)
      end
  end.

Definition scope_for (t : ScaleTarget) : prog W (result ActivityScope RefreshState) :=
  match t with
  | Repository r => mret (Ok (scope_repository r))
  | Organization org =>
      rs ← repositories_of org;
      mret (map_ok (scope_organization org) rs)
  end.

Definition poll_targets (pollable : list ScalePolicy) (report : ReconcileReport)
    : prog W (list (ScaleTarget * PollOutcome) * ReconcileReport) :=
  for_each (set_collect (target <$> pollable)) (λ t '(readings, report),
    scoped ← scope_for t;
    match scoped with
    | Ok scope =>
        let report := with_demand_requests
          (sat_add U32_MAX (rr_demand_requests report) (demand_requests_per_poll scope)) report in
        outcome ← call (ds_poll scope);
        mret (map_insert t outcome readings, report)
    | Err state => mret (map_insert t (PollFailed state) readings, report)
    end) ([], report).

(** *** Allocation *)

Definition report_unreadable_attempts (report : ReconcileReport) (f : LaunchFailure)
    : prog W ReconcileReport :=
  _ ← emit (EvAttemptsUnreadable (failure_reason_kind (lf_reason f)));
  mret (count_attempts_unreadable 1 report).

Definition report_allocation_failure (report : ReconcileReport) (f : AllocationFailure)
    : prog W ReconcileReport :=
  match f with
  | AFHostCapacity reason =>
      _ ← emit (EvHostCapacityUnreadable reason);
      mret (count_host_capacity_unreadable 1 report)
  | AFAttempts failure => report_unreadable_attempts report failure
  end.

Definition emit_allocation (a : Allocation) : prog W () :=
  emit (EvAllocated (al_policy_id a) (al_demand a) (al_desired a) (al_active_owned a)
          (al_headroom_before a) (to_start a) (limiting_factor a)).

Definition merge_launched (attempts launched : list RunnerAttempt) : list RunnerAttempt :=
  attempts ++ List.filter (λ a, negb (bool_decide (a_id a ∈ a_id <$> attempts))) launched.

Definition host_attempts (launched : list RunnerAttempt)
    : prog W (result (list RunnerAttempt) LaunchFailure) :=
  read ← call l_attempts;
  mret (map_ok (λ attempts, merge_launched attempts launched) read).

Definition with_capacity (h : Host) (c : Z) : Host :=
  mk_host (h_id h) (display_name h) (h_os h) (architecture h) c (service_start_mode h)
    (refresh_interval h) (runner_root_override h) (h_created_at h).

Definition allocate_only (p : ScalePolicy) (demand : Z) (launched : list RunnerAttempt)
    : prog W (result Allocation AllocationFailure) :=
  r ← get_self;
  capacity ← call (l_host_capacity (rc_host r));
  match capacity with
  | Err e => mret (Err (AFHostCapacity e))
  | Ok c =>
      let host := with_capacity (rc_host r) c in
      attempts ← host_attempts launched;
      match attempts with
      | Err f => mret (Err (AFAttempts f))
      | Ok attempts =>
          match Capacity.allocate p demand (from_attempts host attempts) with
          | Some (_, allocation) => mret (Ok allocation)
          | None => panic
          end
      end
  end.

(** The [while budget > 0] loop. Each turn that does not leave it lowers the budget by
    one, so [fuel] is enough from the first budget on. *)
Fixpoint start_loop (fuel : nat) (p : ScalePolicy) (demand : Z) (decided : option Allocation)
    (budget : Z) (report : ReconcileReport) (launched : list RunnerAttempt)
    : prog W (option Allocation * ReconcileReport * list RunnerAttempt) :=
  if bool_decide (budget ≤ 0) then mret (decided, report, launched)
  else match fuel with
  | O => panic
  | S fuel =>
      guard ← call acquire;
      if negb guard then
        _ ← emit (EvAllocationDeferred (p_id p) budget);
        mret (decided, count_deferred budget report, launched)
      else
        allocated ← allocate_only p demand launched;
        match allocated with
        | Err failure =>
            _ ← drop_guard;
            report ← report_allocation_failure report failure;
            mret (decided, report, launched)
        | Ok allocation =>
            let budget :=
              match decided with None => Z.min budget (to_start allocation) | Some _ => budget end in
            let decided := match decided with None => Some allocation | Some d => Some d end in
            if starts_nothing allocation || bool_decide (budget = 0) then
              _ ← drop_guard;
              mret (decided, report, launched)
            else
              r ← get_self;
              created ← call (l_launch (rc_host r) p);
              _ ← drop_guard;
              match created with
              | Ok attempt =>
                  _ ← emit (EvRunnerStarted (p_id p) (a_id attempt));
                  start_loop fuel p demand decided (budget - 1)
                    (count_started 1 report) (launched ++ [attempt])
              | Err failure =>
                  _ ← emit (EvRunnerStartFailed (p_id p) (failure_reason_kind (lf_reason failure)));
                  mret (decided, report, launched)
              end
        end
  end.

Definition start_runners (p : ScalePolicy) (demand : Z) (report : ReconcileReport)
    (launched : list RunnerAttempt) : prog W (ReconcileReport * list RunnerAttempt) :=
  intended ← allocate_only p demand launched;
  match intended with
  | Err failure =>
      report ← report_allocation_failure report failure;
      mret (report, launched)
  | Ok intent =>
      '(decided, report, launched) ←
        start_loop (Z.to_nat (to_start intent)) p demand None (to_start intent) report launched;
      let allocation := default intent decided in
      _ ← emit_allocation allocation;
      mret (push_allocations allocation report, launched)
  end.

(** *** Cleanup *)

Definition clean_one (now : Timestamp) (a : RunnerAttempt) (report : ReconcileReport)
    : prog W ReconcileReport :=
  r ← get_self;
  match is_concluded (state a), outcome a with
  | true, Some o =>
      if negb (is_due (a_id a) now (rc_clean_backoff r)) then mret report
      else
        let kind := OutcomeKind_of o in
        cleaned ← call (l_clean (a_id a));
        match cleaned with
        | Ok _ =>
            _ ← modify_backoff (clean_succeeded (a_id a));
            let report := count_cleaned 1 report in
            let report :=
              if kind_is_failure kind then count_failures 1 report
              else if bool_decide (kind = KIdleExit) then count_idle_exits 1 report
              else report in
            _ ← emit (EvAttemptCleaned (a_policy_id a) (a_id a) kind);
            mret report
        | Err failure =>
            _ ← modify_backoff (clean_failed (a_id a) now);
            _ ← emit (EvAttemptCleanFailed (a_policy_id a) (a_id a)
                        (failure_reason_kind (lf_reason failure)));
            mret (count_clean_failures 1 report)
        end
  | _, _ => mret report
  end.

Definition clean_terminal_attempts (report : ReconcileReport) : prog W ReconcileReport :=
  read ← call l_attempts;
  match read with
  | Err failure => report_unreadable_attempts report failure
  | Ok attempts =>
      _ ← modify_backoff (backoff_retain (a_id <$> attempts));
      now ← call clock_now;
      for_each attempts (clean_one now) report
  end.

Definition scale_down_one (p : ScalePolicy) (a : RunnerAttempt) (report : ScaleDownReport)
    : prog W ScaleDownReport :=
  let '(mk_scale_down removed refused failed retained unreadable) := report in
  if bool_decide (a_policy_id a ≠ p_id p) then mret report
  else if bool_decide (state a = Busy) then
    _ ← emit (EvScaleDownRefused (p_id p) (a_id a));
    mret (mk_scale_down removed (sat_add U16_MAX refused 1) failed retained unreadable)
  else if is_concluded (state a) then
    let kind := match outcome a with Some o => OutcomeKind_of o | None => KFailed end in
    cleaned ← call (l_clean (a_id a));
    match cleaned with
    | Ok _ =>
        _ ← emit (EvAttemptCleaned (p_id p) (a_id a) kind);
        mret (mk_scale_down (sat_add U16_MAX removed 1) refused failed retained unreadable)
    | Err failure =>
        _ ← emit (EvAttemptCleanFailed (p_id p) (a_id a) (failure_reason_kind (lf_reason failure)));
        mret (mk_scale_down removed refused (sat_add U16_MAX failed 1) retained unreadable)
    end
  else if bool_decide (state a = Cleaned) then mret report
  else mret (mk_scale_down removed refused failed (sat_add U16_MAX retained 1) unreadable).

Definition scale_down (p : ScalePolicy) : prog W ScaleDownReport :=
  read ← call l_attempts;
  match read with
  | Err failure =>
      _ ← emit (EvAttemptsUnreadable (failure_reason_kind (lf_reason failure)));
      mret (mk_scale_down 0 0 0 0 true)
  | Ok attempts => for_each attempts (scale_down_one p) ScaleDownReport_default
  end.

(** *** The pass *)

(** Flow 2.1: which policies are polled for. *)
Definition survey_one (p : ScalePolicy)
    (acc : list ScalePolicy * list PolicyId * ReconcileReport)
    : prog W (list ScalePolicy * list PolicyId * ReconcileReport) :=
  let '(pollable, supervision_failed, report) := acc in
  r ← get_self;
  if negb (owns_runners p) then
    _ ← emit (EvMonitorOnlySkipped (p_id p));
    mret (pollable, supervision_failed, push_monitor_only (p_id p) report)
  else if negb (is_owned_by p (h_id (rc_host r))) then mret acc
  else
    supervised ← call (l_supervise p);
    match supervised with
    | Err failure =>
        report ← report_unreadable_attempts report failure;
        mret (pollable, p_id p :: supervision_failed, report)
    | Ok intents =>
        let report := count_replacement_intents
          (Z.min U16_MAX (Z.of_nat (length intents))) report in
        if may_start_runners p then mret (pollable ++ [p], supervision_failed, report)
        else mret (pollable, supervision_failed, report)
    end.

Definition profiles_for (pollable : list ScalePolicy) (t : ScaleTarget) : list ScalePolicy :=
  List.filter (λ p, ScaleTarget_eqb (target p) t) pollable.

Definition route_one (policies pollable : list ScalePolicy) (kv : ScaleTarget * PollOutcome)
    (routed : list (ScaleTarget * tallies)) : prog W (list (ScaleTarget * tallies)) :=
  match kv.2 with
  | PollFailed _ => mret routed
  | Ready reading =>
      let profiles := profiles_for pollable kv.1 in
      let '(ts, refused) := route_demand policies profiles reading in
      _ ← match profiles with
          | [] => mret tt
          | first :: _ => for_each refused (λ rc _, emit (EvRoutingRefused (p_id first) rc.1 rc.2)) tt
          end;
      mret (map_insert kv.1 ts routed)
  end.

(** Flow 2.3-2.6: one policy's share. *)
Definition serve_one (readings : list (ScaleTarget * PollOutcome))
    (routed : list (ScaleTarget * tallies)) (supervision_failed : list PolicyId)
    (p : ScalePolicy) (acc : ReconcileReport * list RunnerAttempt)
    : prog W (ReconcileReport * list RunnerAttempt) :=
  let '(report, launched) := acc in
  r ← get_self;
  if negb (owns_runners p) then mret acc
  else if negb (is_owned_by p (h_id (rc_host r))) || negb (may_start_runners p) then
    allocated ← allocate_only p 0 launched;
    match allocated with
    | Ok allocation =>
        _ ← emit_allocation allocation;
        mret (push_allocations allocation report, launched)
    | Err failure =>
        report ← report_allocation_failure report failure;
        mret (report, launched)
    end
  else if bool_decide (p_id p ∈ supervision_failed) then mret acc
  else match map_get (target p) readings with
  | None => mret acc
  | Some (PollFailed state) =>
      _ ← emit (EvTargetUnreadable (p_id p) (unreadable_reason state));
      mret (push_unreadable (p_id p) report, launched)
  | Some (Ready d) =>
      match map_get (target p) routed ≫= map_get (p_id p) with
      | None => panic
      | Some tally =>
          let count := demand tally in
          _ ← emit (EvDemandObserved (p_id p) count (not_matched tally)
                      (Z.min U32_MAX (Z.of_nat (length (unresolvable tally)))) (is_complete d));
          start_runners p count report launched
      end
  end.

(** Flow 2.1 and 3.3: when to come back. *)
Definition worst_failure (readings : list (ScaleTarget * PollOutcome)) : option RefreshState :=
  max_by_key severity (omap poll_failure readings.*2).

Definition latest_quota (readings : list (ScaleTarget * PollOutcome)) : option RateLimitSnapshot :=
  max_by_key rl_observed_at (omap (λ o, reading o ≫= qd_rate_limit) readings.*2).

Definition schedule_next (readings : list (ScaleTarget * PollOutcome)) (report : ReconcileReport)
    : prog W ReconcileReport :=
  let failure := worst_failure readings in
  now ← call clock_now;
  let conditions :=
    mk_conditions (is_quiet readings report) (latest_quota readings) (rr_demand_requests report) in
  r ← get_self;
  let '(schedule, next) := next_poll_with failure conditions now (rc_schedule r) in
  _ ← set_schedule schedule;
  let report := with_failure failure (with_next_poll next report) in
  let report :=
    match pace next with
    | PaceOffline consecutive =>
        let notice := OfflineState_new consecutive (delay next) in
        with_offline (Some (match offline_for schedule now with
                            | Some elapsed => OfflineState_since elapsed notice
                            | None => notice
                            end)) report
    | _ => report
    end in
  _ ← emit (EvPollScheduled (Z.min U64_MAX (delay next / 1000000)) (pace next));
  mret report.

Definition count_ready (readings : list (ScaleTarget * PollOutcome)) : Z :=
  Z.min U16_MAX (Z.of_nat (length (omap reading readings.*2))).

(** The report of the pass, with what it launched. *)
Definition reconcile (policies : list ScalePolicy)
    : prog W (ReconcileReport * list RunnerAttempt) :=
  '(pollable, supervision_failed, report) ←
    for_each policies survey_one ([], [], ReconcileReport_default);
  '(readings, report) ← poll_targets pollable report;
  let report := with_targets_read (count_ready readings) report in
  routed ← for_each readings (route_one policies pollable) [];
  report ← clean_terminal_attempts report;
  '(report, launched) ←
    for_each policies (serve_one readings routed supervision_failed) (report, []);
  report ← schedule_next readings report;
  mret (report, launched).
End Reconciler.
