(* ===== verification/ReconcileSafety.v ===== *)
(** * What a reconciliation pass guarantees

    Total-correctness rules for the programs of [Reconcile], and the contracts of the
    launcher and the allocation lock under which a pass completes without a panic and
    never puts more runners on the machine than it has room for, while other loops of
    the same host run beside it. *)

From stdpp Require Import strings.
From S2P Require Import Prelude RustStr Ordered Model Path Workspace Execution Host Attempt.
From S2P Require Import Labels Policy Capacity Github Schedule Routing Backoff Report Reconcile.
#[local] Open Scope Z_scope.
#[local] Open Scope rust_scope.

(** ** Total correctness *)

(** [m] completes without a panic and its result satisfies [Q]. *)
Definition wp {W A} (m : prog W A) (s : St W) (Q : St W → A → Prop) : Prop :=
  match m s with Some (s', a) => Q s' a | None => False end.

Section Rules.
Context {W : Type}.
Implicit Types s : St W.

Lemma wp_mono {A} (m : prog W A) s (P Q : St W → A → Prop) :
  wp m s P → (∀ s' a, P s' a → Q s' a) → wp m s Q.
Proof. unfold wp. destruct (m s) as [[s' a]|]; auto. Qed.

Lemma wp_ret {A} (a : A) s (Q : St W → A → Prop) : Q s a → wp (mret a) s Q.
Proof. done. Qed.

Lemma wp_bind {A B} (m : prog W A) (k : A → prog W B) s (Q : St W → B → Prop) :
  wp m s (λ s' a, wp (k a) s' Q) → wp (m ≫= k) s Q.
Proof. unfold wp, mbind, prog_bind. destruct (m s) as [[s' a]|]; done. Qed.

Lemma wp_call {A} (f : W → W * A) s (Q : St W → A → Prop) :
  Q (mk_st (self s) (events s) (f (world s)).1) (f (world s)).2 → wp (call f) s Q.
Proof. unfold wp, call. by destruct (f (world s)). Qed.

Lemma wp_emit e s (Q : St W → () → Prop) :
  Q (mk_st (self s) (events s ++ [e]) (world s)) tt → wp (emit e) s Q.
Proof. done. Qed.

Lemma wp_get_self s (Q : St W → Reconciler → Prop) : Q s (self s) → wp get_self s Q.
Proof. done. Qed.

Lemma wp_set_schedule sch s (Q : St W → () → Prop) :
  Q (mk_st (mk_reconciler (rc_host (self s)) (rc_repositories (self s)) sch
              (rc_clean_backoff (self s))) (events s) (world s)) tt →
  wp (set_schedule sch) s Q.
Proof. done. Qed.

Lemma wp_set_repositories c s (Q : St W → () → Prop) :
  Q (mk_st (mk_reconciler (rc_host (self s)) c (rc_schedule (self s))
              (rc_clean_backoff (self s))) (events s) (world s)) tt →
  wp (set_repositories c) s Q.
Proof. done. Qed.

Lemma wp_modify_backoff f s (Q : St W → () → Prop) :
  Q (mk_st (mk_reconciler (rc_host (self s)) (rc_repositories (self s)) (rc_schedule (self s))
              (f (rc_clean_backoff (self s)))) (events s) (world s)) tt →
  wp (modify_backoff f) s Q.
Proof. done. Qed.

Lemma wp_for_each {A B} (I : St W → B → Prop) (l : list A) (body : A → B → prog W B) s b :
  I s b → (∀ x s b, x ∈ l → I s b → wp (body x b) s I) → wp (for_each l body b) s I.
Proof.
  revert s b. induction l as [|x l IH]; intros s b Hb Hbody; simpl; [done|].
  apply wp_bind. eapply wp_mono; [apply Hbody; [by left|done]|].
  intros s' b' Hb'. apply IH; [done|]. intros y ???. apply Hbody; by right.
Qed.

(** The same, with an invariant over the part of the list already visited. *)
Lemma wp_for_each_prefix {A B} (I : list A → St W → B → Prop) (l : list A)
    (body : A → B → prog W B) s b :
  I [] s b → (∀ pre x s b, x ∈ l → I pre s b → wp (body x b) s (I (pre ++ [x]))) →
  wp (for_each l body b) s (I l).
Proof.
  assert (∀ l pre s b, I pre s b →
    (∀ pre x s b, x ∈ l → I pre s b → wp (body x b) s (I (pre ++ [x]))) →
    wp (for_each l body b) s (I (pre ++ l))) as Hgen; [|by apply (Hgen l [])].
  clear. intros l. induction l as [|x l IH]; intros pre s b Hb Hbody; simpl.
  { by rewrite app_nil_r. }
  apply wp_bind. eapply wp_mono; [apply Hbody; [by left|done]|].
  intros s' b' Hb'. rewrite cons_middle, app_assoc. apply IH; [done|].
  intros pre' y ???. apply Hbody; by right.
Qed.
End Rules.

(** One step of a program: the rule for its head. *)
Ltac wp_step :=
  match goal with
  | |- wp (_ ≫= _) _ _ => apply wp_bind
  | |- wp (mret _) _ _ => apply wp_ret
  | |- wp (call _) _ _ => apply wp_call
  | |- wp (emit _) _ _ => apply wp_emit
  | |- wp get_self _ _ => apply wp_get_self
  | |- wp drop_guard _ _ => apply wp_call
  | |- wp (set_schedule _) _ _ => apply wp_set_schedule
  | |- wp (set_repositories _) _ _ => apply wp_set_repositories
  | |- wp (modify_backoff _) _ _ => apply wp_modify_backoff
  | |- wp (if ?b then _ else _) _ _ => destruct b eqn:?
  | |- wp (match ?r with Ok _ => _ | Err _ => _ end) _ _ => destruct r eqn:?
  | |- wp (let '(_, _) := ?x in _) _ _ => destruct x eqn:?
  end; cbn beta iota.
Ltac wp_steps := repeat wp_step.

(** ** Contracts *)

Definition active_ids (l : list RunnerAttempt) : gset AttemptId :=
  list_to_set (a_id <$> List.filter counts_against_capacity l).
Definition all_ids (l : list RunnerAttempt) : gset AttemptId := list_to_set (a_id <$> l).

(** What can be said of the machine behind the ports: [occupied] is the identifiers of
    the runners that hold a slot, [pending] those of this pass's launches that a listing
    may not show yet, [held] whether this loop holds the allocation lock. *)
Class HostView (W : Type) := {
  occupied : W → gset AttemptId;
  pending : W → gset AttemptId;
  held : W → Prop;
}.

Section Views.
Context {W : Type} `{!HostView W} (ceiling : Z).

(** The machine is not oversubscribed. *)
Definition safe (w : W) : Prop := Z.of_nat (size (occupied w)) ≤ ceiling.
(** Other loops of the host keep the ceiling, and nothing but a launch of this pass
    hides a runner from its listings. *)
Definition benign (w w' : W) : Prop := (safe w → safe w') ∧ pending w' ⊆ pending w.
(** Inside a hold runners only finish. *)
Definition within (w w' : W) : Prop :=
  occupied w' ⊆ occupied w ∧ pending w' ⊆ pending w ∧ held w'.
End Views.

Class HostContract (W : Type) `{RunnerLauncher W, AllocationLock W, DemandSource W,
    RepositoryDirectory W, Clock W, HostView W} (ceiling : Z) : Prop := {
  ceiling_u16 : ceiling ≤ U16_MAX;
  supervise_benign p w : benign ceiling w (l_supervise p w).1;
  clean_benign id w : benign ceiling w (l_clean id w).1;
  poll_benign sc w : benign ceiling w (ds_poll sc w).1;
  directory_benign org w : benign ceiling w (d_repositories org w).1;
  clock_benign w : benign ceiling w (clock_now w).1;
  release_benign w : benign ceiling w (release w);
  acquire_benign w : benign ceiling w (acquire w).1;
  acquire_holds w : (acquire w).2 = true → held (acquire w).1;
  capacity_benign h w : benign ceiling w (l_host_capacity h w).1;
  capacity_within h w : held w → within w (l_host_capacity h w).1;
  capacity_bound h w c : (l_host_capacity h w).2 = Ok c → 1 ≤ c ≤ ceiling;
  attempts_benign w : benign ceiling w (l_attempts w).1;
  attempts_within w : held w → within w (l_attempts w).1;
  (** A listing shows every runner that holds a slot, except a launch of this pass
      that has not become visible. *)
  attempts_listed w l : (l_attempts w).2 = Ok l →
    occupied (l_attempts w).1 ⊆ active_ids l ∪ (pending (l_attempts w).1 ∖ all_ids l);
  (** One launch adds one runner, in a state that counts against capacity. *)
  launch_adds h p w : held w → ∃ id,
    occupied (l_launch h p w).1 ⊆ occupied w ∪ {[ id ]} ∧
    match (l_launch h p w).2 with
    | Ok a => a_id a = id ∧ counts_against_capacity a = true ∧
              pending (l_launch h p w).1 ⊆ pending w ∪ {[ id ]}
    | Err _ => pending (l_launch h p w).1 ⊆ pending w
    end;
}.

(** ** Counting the merged set *)

Lemma all_ids_app l k : all_ids (l ++ k) = all_ids l ∪ all_ids k.
Proof. unfold all_ids. by rewrite fmap_app, list_to_set_app_L. Qed.

Lemma elem_of_all_ids id l : id ∈ all_ids l ↔ ∃ a, a ∈ l ∧ a_id a = id.
Proof.
  unfold all_ids. rewrite elem_of_list_to_set, list_elem_of_fmap. naive_solver.
Qed.

Lemma elem_of_active_ids id l :
  id ∈ active_ids l ↔ ∃ a, a ∈ l ∧ counts_against_capacity a = true ∧ a_id a = id.
Proof.
  unfold active_ids. rewrite elem_of_list_to_set, list_elem_of_fmap.
  setoid_rewrite elem_of_filter_bool. naive_solver.
Qed.

Lemma size_union_singleton (X : gset AttemptId) id : (size (X ∪ {[ id ]}) ≤ S (size X))%nat.
Proof.
  rewrite size_union_alt. assert (size ({[ id ]} ∖ X) ≤ size (C:=gset AttemptId) {[ id ]})%nat
    by (apply subseteq_size; set_solver). rewrite size_singleton in *. lia.
Qed.

Lemma size_list_to_set_le (l : list AttemptId) :
  (size (list_to_set (C:=gset AttemptId) l) ≤ length l)%nat.
Proof.
  induction l as [|id l IH]; [by rewrite list_to_set_nil, size_empty|].
  rewrite list_to_set_cons, (comm_L (∪)). etransitivity; [apply size_union_singleton|].
  simpl. lia.
Qed.

Lemma size_active_ids l : Z.of_nat (size (active_ids l)) ≤ active_of_host l.
Proof.
  unfold active_ids, active_of_host. rewrite <- (length_fmap a_id).
  apply inj_le. etransitivity; [apply size_list_to_set_le|done].
Qed.

(** The merge of a listing with what this pass launched misses no occupied slot, however
    late the listing is. *)
Lemma merged_covers (slots hidden : gset AttemptId) l launched :
  slots ⊆ active_ids l ∪ (hidden ∖ all_ids l) → hidden ⊆ all_ids launched →
  Forall (λ a, counts_against_capacity a = true) launched →
  Z.of_nat (size slots) ≤ active_of_host (merge_launched l launched).
Proof.
  intros Ho Hp Hl. etransitivity; [|apply size_active_ids]. apply inj_le, subseteq_size.
  intros id Hid. apply Ho in Hid. apply elem_of_active_ids.
  unfold merge_launched. apply elem_of_union in Hid as [Hid|Hid].
  - apply elem_of_active_ids in Hid as (a & Ha & Hc & <-). exists a.
    split; [|done]. apply elem_of_app. by left.
  - apply elem_of_difference in Hid as [Hid Hnot]. apply Hp, elem_of_all_ids in Hid as (a & Ha & <-).
    rewrite Forall_forall in Hl. exists a. split; [|split; [by apply Hl|done]].
    apply elem_of_app. right. apply elem_of_filter_bool. split; [done|].
    apply negb_true_iff, bool_decide_eq_false. intros Hin. apply Hnot.
    unfold all_ids. by apply elem_of_list_to_set.
Qed.

(** ** Starting runners *)

Section Safety.
Context {W : Type} {ceiling : Z} `{HostContract W ceiling} `{!Jitter}.
Implicit Types (s : St W) (w : W).

(** What holds between the steps of a pass that has launched [launched]. *)
Definition pass_inv (h : Host) (launched : list RunnerAttempt) (s : St W) : Prop :=
  rc_host (self s) = h ∧ safe ceiling (world s) ∧ pending (world s) ⊆ all_ids launched ∧
  Forall (λ a, counts_against_capacity a = true) launched.

Lemma inv_benign h launched s s' :
  pass_inv h launched s → rc_host (self s') = rc_host (self s) →
  benign ceiling (world s) (world s') → pass_inv h launched s'.
Proof.
  intros (Hh & Hs & Hp & Hl) Hh' [Hb1 Hb2]. split; [congruence|]. split; [auto|].
  split; [set_solver|done].
Qed.

Lemma inv_same h launched s s' :
  pass_inv h launched s → rc_host (self s') = rc_host (self s) → world s' = world s →
  pass_inv h launched s'.
Proof. intros (Hh & Hs) Hh' Hw. unfold pass_inv. rewrite Hw, Hh'. done. Qed.

Lemma host_attempts_spec h launched s :
  pass_inv h launched s →
  wp (host_attempts launched) s (λ s' r, pass_inv h launched s' ∧
    (held (world s) → held (world s')) ∧
    match r with
    | Ok l => Z.of_nat (size (occupied (world s'))) ≤ active_of_host l
    | Err _ => True
    end).
Proof.
  intros Hi. unfold host_attempts. wp_steps. cbn [world self].
  assert (pass_inv h launched (mk_st (self s) (events s) (l_attempts (world s)).1)) as Hi'
    by (eapply inv_benign; [exact Hi|done|apply attempts_benign]).
  split; [done|]. split; [intros Hh; by apply (attempts_within (world s) Hh)|].
  destruct (l_attempts (world s)).2 as [l|] eqn:E; simpl; [|done].
  destruct Hi' as (_ & _ & Hp & Hl).
  eapply merged_covers; [by apply attempts_listed|done|done].
Qed.

Lemma allocate_only_spec h p d launched s :
  valid_policy p → in_u32 d → pass_inv h launched s →
  wp (allocate_only p d launched) s (λ s' r, pass_inv h launched s' ∧
    (held (world s) → held (world s')) ∧
    match r with
    | Ok a => 0 ≤ to_start a ∧
        (starts_nothing a = false → Z.of_nat (size (occupied (world s'))) < ceiling)
    | Err _ => True
    end).
Proof.
  intros Hp Hd Hi. unfold allocate_only. wp_step. wp_step. wp_step. wp_step.
  set (s1 := mk_st (self s) (events s) (l_host_capacity (rc_host (self s)) (world s)).1).
  assert (pass_inv h launched s1) as Hi1
    by (eapply inv_benign; [exact Hi|done|apply capacity_benign]).
  assert (held (world s) → held (world s1)) as Hheld
    by (intros Hh; by apply (capacity_within _ (world s) Hh)).
  destruct (l_host_capacity _ _).2 as [c|] eqn:Ec; [|by wp_steps].
  apply capacity_bound in Ec. pose proof ceiling_u16 as Hc.
  wp_step. eapply wp_mono; [by apply host_attempts_spec|].
  intros s2 [l|f] (Hi2 & Hh2 & Hsize); [|wp_steps; split_and!; auto].
  destruct (allocate_total (from_attempts (with_capacity (rc_host (self s)) c) l) p d) as
    (a' & g & -> & _ & _ & _ & _ & Hb & _); [|done..|].
  { apply from_attempts_valid. split; simpl; lia. }
  wp_steps. split_and!; [done|auto|lia|]. unfold starts_nothing. intros Hne.
  apply bool_decide_eq_false in Hne. unfold headroom, sat_sub in Hb. simpl in Hb.
  rewrite active_count_spec in Hb. lia.
Qed.

Lemma report_allocation_failure_spec report f s (Q : St W → ReconcileReport → Prop) :
  (∀ s' report', self s' = self s → world s' = world s →
     rr_started report' = rr_started report → rr_allocations report' = rr_allocations report →
     Q s' report') →
  wp (report_allocation_failure report f) s Q.
Proof.
  intros HQ. unfold report_allocation_failure, report_unreadable_attempts.
  destruct f; wp_steps; by apply HQ.
Qed.

(** What starting runners for one policy did: [new] was launched, and no more of it
    than the grant. *)
Definition started_within (n : Z) (launched launched' : list RunnerAttempt)
    (report report' : ReconcileReport) (new : list RunnerAttempt) : Prop :=
  launched' = launched ++ new ∧ Z.of_nat (length new) ≤ n ∧
  rr_started report' = Z.min U16_MAX (rr_started report + Z.of_nat (length new)).

Lemma started_none n launched report report' :
  0 ≤ n → rr_started report ≤ U16_MAX → rr_started report' = rr_started report →
  started_within n launched launched report report' [].
Proof.
  intros. unfold started_within. rewrite app_nil_r. simpl. split_and!; [done|lia|lia].
Qed.

Lemma started_one n launched launched' a report report' new :
  0 ≤ rr_started report ≤ U16_MAX →
  started_within (n - 1) (launched ++ [a]) launched' (count_started 1 report) report' new →
  started_within n launched launched' report report' (a :: new).
Proof.
  intros Hr (Hl & Hn & Hs). unfold started_within. rewrite Hl, <- app_assoc. simpl.
  split; [done|]. split; [lia|]. rewrite Hs. simpl. unfold sat_add. lia.
Qed.

Lemma launch_spec h p launched s :
  pass_inv h launched s → held (world s) → Z.of_nat (size (occupied (world s))) < ceiling →
  let '(w', r) := l_launch (rc_host (self s)) p (world s) in
  safe ceiling w' ∧
  match r with
  | Ok a => pending w' ⊆ all_ids (launched ++ [a]) ∧ counts_against_capacity a = true
  | Err _ => pending w' ⊆ all_ids launched
  end.
Proof.
  intros (_ & _ & Hp & _) Hheld Hroom.
  pose proof (launch_adds (rc_host (self s)) p (world s) Hheld) as (id & Ho & Hr).
  destruct (l_launch _ p (world s)) as [w' r]. simpl in *.
  assert (safe ceiling w').
  { unfold safe. assert (size (occupied w') ≤ S (size (occupied (world s))))%nat; [|lia].
    etransitivity; [by apply subseteq_size|apply size_union_singleton]. }
  split; [done|]. destruct r as [a|f]; [|set_solver].
  destruct Hr as (<- & Hc & Hpend). split; [|done]. rewrite all_ids_app.
  unfold all_ids at 2. simpl. set_solver.
Qed.

(** A launch inside a hold with room, and the release of the lock after it. *)
Lemma launch_turn_spec {A} h p launched s (ok : RunnerAttempt → prog W A)
    (err : LaunchFailure → prog W A) (Q : St W → A → Prop) :
  pass_inv h launched s → held (world s) → Z.of_nat (size (occupied (world s))) < ceiling →
  (∀ a s', pass_inv h (launched ++ [a]) s' → wp (ok a) s' Q) →
  (∀ f s', pass_inv h launched s' → wp (err f) s' Q) →
  wp (r ← get_self;
      created ← call (l_launch (rc_host r) p);
      _ ← drop_guard;
      match created with Ok a => ok a | Err f => err f end) s Q.
Proof.
  intros Hi Hheld Hroom Hok Herr. wp_step. wp_step. wp_step. wp_step.
  pose proof (launch_spec h p launched s Hi Hheld Hroom) as Hl.
  destruct (l_launch (rc_host (self s)) p (world s)) as [w' r]. cbn [fst snd].
  destruct Hl as [Hsafe Hr]. wp_step. wp_step. cbn beta iota. cbn [self events world].
  pose proof (release_benign w') as [Hrel Hpend]. destruct Hi as (Hhost & _ & _ & Hall).
  destruct r as [a|f].
  - destruct Hr as [Hp Hc]. apply Hok. split; [done|]. split; [by apply Hrel|].
    split; [set_solver|]. apply Forall_app. by repeat constructor.
  - apply Herr. split; [done|]. split; [by apply Hrel|]. split; [set_solver|done].
Qed.

(** The result of the loop: the grant it was decided by, and what was launched. *)
Definition loop_post (h : Host) (decided : option Allocation) (budget : Z)
    (report : ReconcileReport) (launched : list RunnerAttempt) (s' : St W)
    (out : option Allocation * ReconcileReport * list RunnerAttempt) : Prop :=
  let '(decided', report', launched') := out in
  pass_inv h launched' s' ∧ rr_allocations report' = rr_allocations report ∧
  ∃ new, started_within budget launched launched' report report' new ∧
    match decided, decided' with
    | None, None => new = []
    | None, Some g => Z.of_nat (length new) ≤ to_start g
    | Some g, g' => g' = Some g
    end.

(** Leaving the loop with nothing launched since. *)
Lemma loop_stop h decided decided' budget report report' launched s' :
  pass_inv h launched s' → 0 ≤ budget → rr_started report ≤ U16_MAX →
  rr_started report' = rr_started report → rr_allocations report' = rr_allocations report →
  match decided, decided' with
  | None, Some g => 0 ≤ to_start g
  | None, None => True
  | Some g, g' => g' = Some g
  end →
  loop_post h decided budget report launched s' (decided', report', launched).
Proof.
  intros Hi Hb Hr Hs Ha Hd. split; [done|]. split; [done|]. exists [].
  split; [by apply started_none|]. by destruct decided, decided'.
Qed.

Lemma start_loop_spec h p d : valid_policy p → in_u32 d →
  ∀ fuel decided budget report launched s,
  0 ≤ budget ≤ Z.of_nat fuel → 0 ≤ rr_started report ≤ U16_MAX → pass_inv h launched s →
  wp (start_loop fuel p d decided budget report launched) s
    (loop_post h decided budget report launched).
Proof.
  intros Hp Hd. induction fuel as [|fuel IH]; intros decided budget report launched s Hb Hr Hi;
    cbn [start_loop]; (destruct (bool_decide (budget ≤ 0)) eqn:Hz; breflect;
    [wp_steps; apply loop_stop; [done|lia..|done|done|by destruct decided]|]); [lia|].
  wp_step. wp_step.
  set (s1 := mk_st (self s) (events s) (acquire (world s)).1).
  assert (pass_inv h launched s1) as Hi1
    by (eapply inv_benign; [exact Hi|done|apply acquire_benign]).
  destruct (acquire (world s)).2 eqn:Hacq; cbn [negb].
  2:{ wp_steps. apply loop_stop; [|lia|lia|done|done|by destruct decided].
      by apply (inv_same h launched s1). }
  assert (held (world s1)) as Hheld1 by by apply acquire_holds.
  wp_step. eapply wp_mono; [by apply (allocate_only_spec h p d launched s1)|].
  intros s2 [g|f] (Hi2 & Hheld2 & Hg); specialize (Hheld2 Hheld1).
  2:{ wp_step. wp_step. set (s3 := mk_st _ _ _). cbn beta iota.
      assert (pass_inv h launched s3) as Hi3
        by (eapply inv_benign; [exact Hi2|done|apply release_benign]).
      wp_step. apply report_allocation_failure_spec. intros s4 report' Hs Hw Hst Hal. wp_steps.
      apply loop_stop; [|lia|lia|done|done|by destruct decided].
      apply (inv_same h launched s3); [done|by rewrite Hs|done]. }
  set (budget' := match decided with None => _ | Some _ => budget end).
  set (decided' := match decided with None => Some g | Some d => Some d end).
  destruct Hg as [Hg0 Hroom].
  assert (match decided, decided' with
          | None, Some g => 0 ≤ to_start g | None, None => True | Some g, g' => g' = Some g
          end) as Hdec by (unfold decided'; by destruct decided).
  destruct (starts_nothing g || bool_decide (budget' = 0)) eqn:Hstop.
  { wp_step. wp_step. cbn beta iota. wp_steps. apply loop_stop; [|lia|lia|done..].
    eapply inv_benign; [exact Hi2|done|apply release_benign]. }
  breflect. specialize (Hroom ltac:(done)).
  assert (0 < budget' ∧ budget' ≤ budget) as Hbud by (unfold budget'; destruct decided; lia).
  apply (launch_turn_spec h p launched s2); [done..| |].
  2:{ intros f s3 Hi3. wp_steps. apply loop_stop; [|lia|lia|done..].
      by apply (inv_same h launched s3). }
  intros a s3 Hi3. wp_step. wp_step. cbn beta iota. eapply wp_mono.
  { apply IH; [lia|simpl; unfold sat_add; lia|]. by apply (inv_same h (launched ++ [a]) s3). }
  intros s4 [[dec report'] launched'] (Hi4 & Ha4 & new & Hn4 & Hd4). split; [done|]. split; [done|].
  exists (a :: new). apply started_one in Hn4; [|done].
  split; [destruct Hn4 as (? & ? & ?); split_and!; [done|lia|done]|].
  unfold decided', budget' in *. destruct decided; [done|]. subst dec.
  destruct Hn4 as (_ & Hle & _). lia.
Qed.

(** Starting runners for one policy. *)
Definition start_post (h : Host) (report : ReconcileReport) (launched : list RunnerAttempt)
    (s' : St W) (out : ReconcileReport * list RunnerAttempt) : Prop :=
  let '(report', launched') := out in
  pass_inv h launched' s' ∧ ∃ n new,
    started_within n launched launched' report report' new ∧
    (n = 0 ∧ rr_allocations report' = rr_allocations report ∨
     ∃ g, rr_allocations report' = rr_allocations report ++ [g] ∧ n = to_start g).

Lemma start_runners_spec h p d report launched s :
  valid_policy p → in_u32 d → 0 ≤ rr_started report ≤ U16_MAX → pass_inv h launched s →
  wp (start_runners p d report launched) s (start_post h report launched).
Proof.
  intros Hp Hd Hr Hi. unfold start_runners. wp_step.
  eapply wp_mono; [by apply allocate_only_spec|]. intros s1 [g|f] (Hi1 & _ & Hg).
  - destruct Hg as [Hg _]. wp_step. eapply wp_mono; [apply (start_loop_spec h p d Hp Hd); [lia|done..]|].
    intros s2 [[dec report'] launched'] (Hi2 & Ha & new & (Hl & Hn & Hs) & Hdec). wp_steps.
    split; [by apply (inv_same h launched' s2)|].
    exists (to_start (default g dec)), new. split.
    + split; [done|]. split; [|done]. destruct dec; simpl in *; [done|]. subst new. simpl. lia.
    + right. exists (default g dec). simpl. by rewrite Ha.
  - wp_step. apply report_allocation_failure_spec. intros s2 report' Hs Hw Hst Hal. wp_steps.
    split; [apply (inv_same h launched s1); [done|by rewrite Hs|done]|].
    exists 0, []. split; [apply started_none; [lia|lia|done]|by left].
Qed.
End Safety.
