(* ===== verification/ReconcilePass.v ===== *)
(** * A whole reconciliation pass

    The phases of [reconcile] put together: a pass always completes, keeps the host's
    ceiling beside the other loops of the host, reports what it started truthfully, and
    starts nothing during an outage. Also what a scale-down removes. *)

From stdpp Require Import strings.
From S2P Require Import Prelude RustStr Ordered Model Path Workspace Execution Host Attempt.
From S2P Require Import Labels Policy Capacity Github Schedule Routing Backoff Report Reconcile.
From S2P Require Import ReconcileSafety.
#[local] Open Scope Z_scope.
#[local] Open Scope rust_scope.

(** ** Ordered maps *)

Lemma map_insert_values {K V} `{Ord K} (k : K) (v : V) m (P : V → Prop) :
  P v → Forall P m.*2 → Forall P (map_insert k v m).*2.
Proof.
  intros Hv. induction m as [|[j w] m IH]; simpl; intros Hm; [by repeat constructor|].
  inversion Hm; subst. destruct (cmp k j); simpl; repeat constructor; auto.
Qed.

(** ** The phases *)

Section Pass.
Context {W : Type} {ceiling : Z} `{HostContract W ceiling} `{!Jitter}.
Context (h : Host) (policies : list ScalePolicy) (Hpolicies : Forall valid_policy policies).
Implicit Types (s : St W).

(** Nothing has been started yet. *)
Definition idle_report (r : ReconcileReport) : Prop :=
  rr_started r = 0 ∧ rr_allocations r = [].

(** A policy the pass will poll for, unless its supervision failed. *)
Definition eligible (p : ScalePolicy) : bool :=
  owns_runners p && is_owned_by p (h_id h) && may_start_runners p.

Definition surveyed (seen : list ScalePolicy)
    (acc : list ScalePolicy * list PolicyId * ReconcileReport) : Prop :=
  let '(pollable, failed, report) := acc in
  idle_report report ∧
  ∀ p, p ∈ seen → eligible p = true → p_id p ∈ failed ∨ p ∈ pollable.

Lemma survey_one_spec p seen acc s :
  pass_inv (ceiling:=ceiling) h [] s → surveyed seen acc →
  wp (survey_one p acc) s (λ s' acc', pass_inv (ceiling:=ceiling) h [] s' ∧
    surveyed (seen ++ [p]) acc').
Proof.
  intros Hi Hs. destruct acc as [[pollable failed] report]. destruct Hs as [Hrep Hseen].
  assert (rc_host (self s) = h) as Hh by apply Hi.
  assert (∀ pollable' failed' report', idle_report report' → pollable ⊆ pollable' →
    failed ⊆ failed' → (eligible p = true → p_id p ∈ failed' ∨ p ∈ pollable') →
    surveyed (seen ++ [p]) (pollable', failed', report')) as Hext.
  { intros ??? Hr Hp Hf Hnew. split; [done|]. intros q Hq He.
    apply elem_of_app in Hq as [Hq|Hq%list_elem_of_singleton]; [|subst; auto].
    destruct (Hseen q Hq He); [left|right]; set_solver. }
  unfold survey_one. wp_step. wp_step. rewrite Hh. unfold eligible in *.
  destruct (owns_runners p) eqn:Eo; cbn [negb].
  2:{ wp_steps. split; [by apply (inv_same h [] s)|]. by apply Hext. }
  destruct (is_owned_by p (h_id h)) eqn:Ew; cbn [negb].
  2:{ wp_steps. split; [done|]. by apply Hext. }
  wp_step. wp_step. set (s1 := mk_st _ _ _).
  assert (pass_inv (ceiling:=ceiling) h [] s1) as Hi1
    by (eapply inv_benign; [exact Hi|done|apply supervise_benign]).
  destruct (l_supervise p (world s)).2.
  - destruct (may_start_runners p) eqn:Em; wp_steps; (split; [done|]); apply Hext; try done.
    + set_solver.
    + intros _. right. set_solver.
  - unfold report_unreadable_attempts. wp_steps. split; [by apply (inv_same h [] s1)|].
    apply Hext; [done|done|set_solver|]. intros _. left. set_solver.
Qed.

Lemma survey_spec s :
  pass_inv (ceiling:=ceiling) h [] s →
  wp (for_each policies survey_one ([], [], ReconcileReport_default)) s
    (λ s' acc, pass_inv (ceiling:=ceiling) h [] s' ∧ surveyed policies acc).
Proof.
  intros Hi.
  apply (wp_for_each_prefix
    (λ seen s acc, pass_inv (ceiling:=ceiling) h [] s ∧ surveyed seen acc)).
  - split; [done|]. split; [done|]. intros p Hp. by apply not_elem_of_nil in Hp.
  - intros pre p s' acc _ [Hi' Hs]. by apply survey_one_spec.
Qed.

Lemma scope_for_spec t s :
  pass_inv (ceiling:=ceiling) h [] s →
  wp (scope_for t) s (λ s' _, pass_inv (ceiling:=ceiling) h [] s').
Proof.
  intros Hi. unfold scope_for, repositories_of. destruct t as [r|org]; [by wp_steps|].
  wp_step. wp_step. wp_step. set (s1 := mk_st _ _ _).
  assert (pass_inv (ceiling:=ceiling) h [] s1) as Hi1
    by (eapply inv_benign; [exact Hi|done|apply clock_benign]).
  wp_step. wp_step. destruct (fresh_entry _ _ _); [by wp_steps|].
  wp_step. wp_step. set (s2 := mk_st (self s1) _ _).
  assert (pass_inv (ceiling:=ceiling) h [] s2) as Hi2
    by (eapply inv_benign; [exact Hi1|done|apply directory_benign]).
  destruct (d_repositories org (world s1)).2; wp_steps; [|done].
  by apply (inv_same h [] s2).
Qed.

(** Each target is polled; [P] is what the demand source says. *)
Lemma poll_targets_spec (P : PollOutcome → Prop) pollable report s :
  (∀ sc w, P (ds_poll sc w).2) → (∀ st, P (PollFailed st)) →
  pass_inv (ceiling:=ceiling) h [] s → idle_report report →
  wp (poll_targets pollable report) s (λ s' '(readings, report'),
    pass_inv (ceiling:=ceiling) h [] s' ∧ idle_report report' ∧ Forall P readings.*2).
Proof.
  intros HP HF Hi Hr. unfold poll_targets. eapply wp_mono.
  - apply (wp_for_each (λ s' acc, pass_inv (ceiling:=ceiling) h [] s' ∧ idle_report acc.2 ∧
      Forall P acc.1.*2)); [by split_and!; [done|done|constructor]|].
    intros t s1 [readings report1] _ (Hi1 & Hr1 & Hv). simpl in Hr1, Hv.
    wp_step. eapply wp_mono; [by apply scope_for_spec|].
    intros s2 [scope|e] Hi2.
    + wp_step. wp_step. wp_step. cbn [fst snd].
      split; [eapply inv_benign; [exact Hi2|done|apply poll_benign]|].
      split; [done|]. by apply map_insert_values.
    + wp_step. split_and!; [done|done|]. by apply map_insert_values.
  - intros s' [readings report']. done.
Qed.

(** Every polled policy has a routed tally wherever its target answered. *)
Definition routed_for (pollable : list ScalePolicy) (seen : list (ScaleTarget * PollOutcome))
    (routed : list (ScaleTarget * tallies)) : Prop :=
  (∀ t ts, map_get t routed = Some ts → counts_typed ts) ∧
  ∀ p k d, p ∈ pollable → (k, Ready d) ∈ seen → cmp (target p) k = Eq →
    ∃ tally, map_get (target p) routed ≫= map_get (p_id p) = Some tally.

Lemma route_one_routed pollable seen k d routed :
  routed_for pollable seen routed →
  routed_for pollable (seen ++ [(k, Ready d)])
    (map_insert k (route_demand policies (profiles_for pollable k) d).1 routed).
Proof.
  intros [Ht Hr]. split.
  - intros t ts. rewrite map_get_insert. destruct (cmp t k); [|apply Ht..].
    intros [= <-]. apply route_demand_typed.
  - intros p k' d' Hp Hin Hk. rewrite map_get_insert. destruct (cmp (target p) k) eqn:E.
    + simpl. apply route_demand_has. apply elem_of_filter_bool. split; [done|].
      by apply ScaleTarget_eqb_cmp.
    + apply elem_of_app in Hin as [Hin|Hin%list_elem_of_singleton]; [by eapply Hr|].
      injection Hin as -> _. congruence.
    + apply elem_of_app in Hin as [Hin|Hin%list_elem_of_singleton]; [by eapply Hr|].
      injection Hin as -> _. congruence.
Qed.

Lemma route_spec pollable readings s :
  pass_inv (ceiling:=ceiling) h [] s →
  wp (for_each readings (route_one policies pollable) []) s (λ s' routed,
    pass_inv (ceiling:=ceiling) h [] s' ∧ routed_for pollable readings routed).
Proof.
  intros Hi. apply (wp_for_each_prefix (λ seen s routed,
    pass_inv (ceiling:=ceiling) h [] s ∧ routed_for pollable seen routed)).
  { split; [done|]. split; [done|]. intros p k d _ Hin. by apply not_elem_of_nil in Hin. }
  intros pre [k [d|e]] s1 routed _ [Hi1 Hr]; unfold route_one; cbn [fst snd].
  - pose proof (route_one_routed pollable pre k d routed Hr) as Hnext.
    destruct (route_demand policies (profiles_for pollable k) d) as [ts refused].
    wp_step. eapply (wp_mono _ _ (λ s' _, pass_inv (ceiling:=ceiling) h [] s')).
    + destruct (profiles_for pollable k) as [|first ps]; [by wp_steps|].
      apply wp_for_each; [done|]. intros [r c] s2 [] _ Hi2. wp_step. by apply (inv_same h [] s2).
    + intros s2 [] Hi2. wp_steps. by split.
  - wp_steps. split; [done|]. destruct Hr as [Ht Hr]. split; [done|].
    intros p k' d Hp Hin. apply elem_of_app in Hin as [Hin|Hin%list_elem_of_singleton]; [|done].
    by eapply Hr.
Qed.

Lemma clean_spec report s :
  pass_inv (ceiling:=ceiling) h [] s → idle_report report →
  wp (clean_terminal_attempts report) s (λ s' report',
    pass_inv (ceiling:=ceiling) h [] s' ∧ idle_report report').
Proof.
  intros Hi Hr. unfold clean_terminal_attempts. wp_step. wp_step. set (s1 := mk_st _ _ _).
  assert (pass_inv (ceiling:=ceiling) h [] s1) as Hi1
    by (eapply inv_benign; [exact Hi|done|apply attempts_benign]).
  destruct (l_attempts (world s)).2 as [l|e].
  2:{ unfold report_unreadable_attempts. wp_steps. split; [by apply (inv_same h [] s1)|done]. }
  wp_step. wp_step. wp_step. wp_step.
  apply (wp_for_each (λ s r, pass_inv (ceiling:=ceiling) h [] s ∧ idle_report r)).
  { split; [|done]. eapply inv_benign; [exact Hi1|done|apply clock_benign]. }
  cbn [world]. generalize (clock_now (world s1)).2. intros now a s2 report2 _ [Hi2 Hr2]. unfold clean_one.
  wp_step. wp_step. destruct (is_concluded (state a)), (outcome a); try by wp_steps.
  destruct (negb _); [by wp_steps|]. wp_step. wp_step. set (s3 := mk_st _ _ _).
  assert (pass_inv (ceiling:=ceiling) h [] s3) as Hi3
    by (eapply inv_benign; [exact Hi2|done|apply clean_benign]).
  destruct (l_clean (a_id a) (world s2)).2; wp_steps;
    (split; [by apply (inv_same h [] s3)|]); repeat case_match; done.
Qed.

(** What the report says of the runners launched so far. *)
Definition truthful (acc : ReconcileReport * list RunnerAttempt) : Prop :=
  let '(report, launched) := acc in
  rr_started report = Z.min U16_MAX (Z.of_nat (length launched)) ∧
  Z.of_nat (length launched) ≤ total_started (rr_allocations report).

Lemma total_started_app l k : total_started (l ++ k) = total_started l + total_started k.
Proof. unfold total_started. induction l; simpl; lia. Qed.

Lemma start_truthful report launched s' out :
  truthful (report, launched) → start_post (ceiling:=ceiling) h report launched s' out →
  pass_inv (ceiling:=ceiling) h out.2 s' ∧ truthful out.
Proof.
  intros [Hs Hl]. destruct out as [report' launched']. intros (Hi & n & new & (-> & Hn & Hst) & Ha).
  split; [done|]. unfold truthful. rewrite Hst, Hs, !length_app.
  unfold U16_MAX. split; [lia|].
  destruct Ha as [[-> ->]|(g & -> & ->)]; [lia|]. rewrite total_started_app.
  unfold total_started at 2. simpl. lia.
Qed.

(** The policies that are allocated for without demand, and so started nothing. *)
Lemma allocate_idle_spec p report launched s :
  valid_policy p → pass_inv (ceiling:=ceiling) h launched s → truthful (report, launched) →
  wp (allocated ← allocate_only p 0 launched;
      match allocated with
      | Ok allocation =>
          _ ← emit_allocation allocation;
          mret (push_allocations allocation report, launched)
      | Err failure =>
          report ← report_allocation_failure report failure;
          mret (report, launched)
      end) s
    (λ s' out, pass_inv (ceiling:=ceiling) h out.2 s' ∧ truthful out ∧ out.2 = launched).
Proof.
  intros Hp Hi [Hs Hl]. wp_step. eapply wp_mono; [by apply (allocate_only_spec h p 0)|].
  intros s1 [g|f] (Hi1 & _ & Hg).
  - unfold emit_allocation. wp_steps. split; [by apply (inv_same h launched s1)|].
    split; [|done]. split; [done|]. simpl. rewrite total_started_app.
    unfold total_started at 2. simpl. lia.
  - wp_step. apply report_allocation_failure_spec. intros s2 report' He Hw Hst Hal. wp_steps.
    split; [apply (inv_same h launched s1); [done|by rewrite He|done]|]. split; [|done].
    unfold truthful. by rewrite Hst, Hal.
Qed.

Lemma serve_one_spec readings pollable failed report0 routed p report launched s :
  p ∈ policies → surveyed policies (pollable, failed, report0) →
  routed_for pollable readings routed →
  pass_inv (ceiling:=ceiling) h launched s → truthful (report, launched) →
  wp (serve_one readings routed failed p (report, launched)) s (λ s' out,
    pass_inv (ceiling:=ceiling) h out.2 s' ∧ truthful out ∧
    (Forall (λ o, reading o = None) readings.*2 → out.2 = launched)).
Proof.
  intros Hp [_ Hsv] [Htyped Hrouted] Hi Htr.
  assert (valid_policy p) as Hv by by (rewrite Forall_forall in Hpolicies; auto).
  assert (rc_host (self s) = h) as Hh by apply Hi.
  unfold serve_one. wp_step. wp_step. rewrite Hh.
  destruct (owns_runners p) eqn:Eo; cbn [negb]; [|by wp_steps].
  destruct (negb (is_owned_by p (h_id h)) || negb (may_start_runners p)) eqn:Ew.
  { eapply wp_mono; [by apply allocate_idle_spec|]. intros s' out (? & ? & ?). by split_and!. }
  apply orb_false_iff in Ew as [Ew%negb_false_iff Em%negb_false_iff].
  destruct (bool_decide (p_id p ∈ failed)) eqn:Ef; [by wp_steps|]. breflect.
  destruct (map_get (target p) readings) as [[d|e]|] eqn:Eg; [| |by wp_steps].
  2:{ wp_steps. split; [by apply (inv_same h launched s)|done]. }
  apply map_get_elem in Eg as (k & Hk & Hcmp).
  destruct (Hsv p Hp) as [|Hpoll]; [unfold eligible; by rewrite Eo, Ew, Em|done|].
  destruct (Hrouted p k d Hpoll Hk Hcmp) as [tally Ht]. rewrite Ht.
  assert (in_u32 (demand tally)) as Hd.
  { destruct (map_get (target p) routed) as [ts|] eqn:Er; [|done]. by eapply (Htyped _ ts). }
  wp_step. wp_step. eapply wp_mono.
  - apply (start_runners_spec h); [done..| |by apply (inv_same h launched s)].
    destruct Htr as [-> _]. unfold U16_MAX. lia.
  - intros s' out Hpost. destruct (start_truthful _ _ _ _ Htr Hpost). split_and!; [done..|].
    intros Hnone. rewrite Forall_forall in Hnone.
    assert (Ready d ∈ readings.*2) as Hin by (apply list_elem_of_fmap; by exists (k, Ready d)).
    by apply Hnone in Hin.
Qed.

Lemma schedule_next_spec readings report launched s :
  pass_inv (ceiling:=ceiling) h launched s → truthful (report, launched) →
  wp (schedule_next readings report) s (λ s' report',
    pass_inv (ceiling:=ceiling) h launched s' ∧ truthful (report', launched)).
Proof.
  intros Hi Htr. unfold schedule_next. wp_step. wp_step. wp_step. wp_step.
  set (s1 := mk_st _ _ _).
  assert (pass_inv (ceiling:=ceiling) h launched s1) as Hi1
    by (eapply inv_benign; [exact Hi|done|apply clock_benign]).
  destruct (next_poll_with _ _ _ _) as [sch next]. wp_steps.
  split; [by apply (inv_same h launched s1)|]. by destruct (pace next).
Qed.

Lemma reconcile_spec (P : PollOutcome → Prop) s :
  (∀ sc w, P (ds_poll sc w).2) → (∀ st, P (PollFailed st)) →
  pass_inv (ceiling:=ceiling) h [] s →
  wp (reconcile policies) s (λ s' out,
    pass_inv (ceiling:=ceiling) h out.2 s' ∧ truthful out ∧
    ((∀ o, P o → reading o = None) → out.2 = [])).
Proof.
  intros HP HF Hi. unfold reconcile. wp_step. eapply wp_mono; [by apply survey_spec|].
  intros s1 [[pollable failed] report] [Hi1 Hsv]. pose proof (proj1 Hsv) as Hidle.
  wp_step. eapply wp_mono; [by apply (poll_targets_spec P)|].
  intros s2 [readings report2] (Hi2 & Hr2 & Hval).
  wp_step. eapply wp_mono; [by apply (route_spec pollable)|]. intros s3 routed [Hi3 Hrt].
  wp_step. eapply wp_mono; [by apply clean_spec|]. intros s4 report4 [Hi4 [Hs4 Ha4]].
  wp_step. eapply wp_mono.
  - apply (wp_for_each (λ s out, pass_inv (ceiling:=ceiling) h out.2 s ∧ truthful out ∧
      ((∀ o, P o → reading o = None) → out.2 = []))).
    + split_and!; [done| |done]. unfold truthful. by rewrite Hs4, Ha4.
    + intros p s5 [report5 launched5] Hp (Hi5 & Ht5 & Hout).
      eapply wp_mono; [by eapply serve_one_spec|]. intros s6 out (? & ? & Hnone). split_and!; [done..|].
      intros HN. rewrite Hnone; [by apply Hout|]. eapply Forall_impl; [exact Hval|done].
  - intros s5 [report5 launched5] (Hi5 & Ht5 & Hout). wp_step.
    eapply wp_mono; [by apply schedule_next_spec|]. intros s6 report6 [? ?]. by wp_steps.
Qed.
End Pass.

(** ** Theorems *)

Section Theorems.
Context {W : Type} {ceiling : Z} `{HostContract W ceiling} `{!Jitter}.
Implicit Types (s : St W).

(** C1: A reconciliation pass always completes, and it never oversubscribes the machine.
    Beside other loops that take the same lock, with a launcher whose new runners may
    not show in its listings, the host that held at most [ceiling] runners before the
    pass holds at most [ceiling] after it; the report counts the runners launched, and
    they are at most what the reported allocations granted. *)
Theorem pass_never_oversubscribes policies s :
  Forall valid_policy policies → safe ceiling (world s) → pending (world s) = ∅ →
  ∃ s' report launched, reconcile policies s = Some (s', (report, launched)) ∧
    safe ceiling (world s') ∧
    rr_started report = Z.min U16_MAX (Z.of_nat (length launched)) ∧
    Z.of_nat (length launched) ≤ total_started (rr_allocations report).
Proof.
  intros Hp Hs Hpend.
  assert (pass_inv (ceiling:=ceiling) (rc_host (self s)) [] s) as Hi.
  { split_and!; [done|done|by rewrite Hpend|constructor]. }
  pose proof (reconcile_spec (rc_host (self s)) policies Hp (λ _, True) s
    ltac:(done) ltac:(done) Hi) as Hwp. unfold wp in Hwp.
  destruct (reconcile policies s) as [[s' [report launched]]|]; [|done].
  destruct Hwp as ((_ & Hsafe & _) & [Hst Hle] & _). by eexists _, _, _.
Qed.

(** An outage starts nothing: when no target can be read, a pass completes and has
    launched no runner, whatever the policies and whatever demand was seen before. *)
Theorem outage_starts_nothing policies s :
  Forall valid_policy policies → safe ceiling (world s) → pending (world s) = ∅ →
  (∀ sc (w : W), reading (ds_poll sc w).2 = None) →
  ∃ s' report, reconcile policies s = Some (s', (report, [])) ∧
    safe ceiling (world s') ∧ rr_started report = 0.
Proof.
  intros Hp Hs Hpend Hout.
  assert (pass_inv (ceiling:=ceiling) (rc_host (self s)) [] s) as Hi.
  { split_and!; [done|done|by rewrite Hpend|constructor]. }
  pose proof (reconcile_spec (rc_host (self s)) policies Hp (λ o, reading o = None) s
    Hout ltac:(done) Hi) as Hwp. unfold wp in Hwp.
  destruct (reconcile policies s) as [[s' [report launched]]|]; [|done]. simpl in Hwp.
  destruct Hwp as ((_ & Hsafe & _) & [Hst _] & Hnone). rewrite (Hnone ltac:(done)) in *.
  exists s', report. split_and!; done.
Qed.
End Theorems.

(** ** Scaling down *)

Section ScaleDown.
Context {W : Type} `{!RunnerLauncher W}.
Implicit Types (s : St W) (p : ScalePolicy).

Definition mine (p : ScalePolicy) (a : RunnerAttempt) : bool := bool_decide (a_policy_id a = p_id p).
Definition mine_concluded (p : ScalePolicy) (a : RunnerAttempt) : bool :=
  mine p a && is_concluded (state a).
Definition mine_busy (p : ScalePolicy) (a : RunnerAttempt) : bool :=
  mine p a && bool_decide (state a = Busy).

(** The world after cleaning a list of attempts in order. *)
Definition clean_all (ids : list AttemptId) (w : W) : W :=
  foldl (λ w id, (l_clean id w).1) w ids.

Definition scale_down_post (p : ScalePolicy) (w : W) (r : Reconciler) (seen : list RunnerAttempt)
    (s' : St W) (report : ScaleDownReport) : Prop :=
  self s' = r ∧
  world s' = clean_all (a_id <$> List.filter (mine_concluded p) seen) w ∧
  sd_refused_busy report = Z.min U16_MAX (count_if (mine_busy p) seen) ∧
  sd_attempts_unreadable report = false.

Lemma count_if_app {A} (f : A → bool) l k : count_if f (l ++ k) = count_if f l + count_if f k.
Proof. unfold count_if. rewrite List.filter_app, length_app. lia. Qed.

Lemma count_if_nonneg {A} (f : A → bool) l : 0 ≤ count_if f l.
Proof. unfold count_if. lia. Qed.

Lemma scale_down_post_snoc p w r pre a s s' report report' :
  scale_down_post p w r pre s report → self s' = self s →
  world s' = (if mine_concluded p a then (l_clean (a_id a) (world s)).1 else world s) →
  sd_refused_busy report' = (if mine_busy p a then sat_add U16_MAX (sd_refused_busy report) 1
                             else sd_refused_busy report) →
  sd_attempts_unreadable report' = sd_attempts_unreadable report →
  scale_down_post p w r (pre ++ [a]) s' report'.
Proof.
  intros (Hr & Hw & Hb & Hu) Hr' Hw' Hb' Hu'. split; [congruence|]. split; [|split; [|congruence]].
  - rewrite Hw', List.filter_app, fmap_app. unfold clean_all in *. rewrite foldl_app, <- Hw. simpl.
    by destruct (mine_concluded p a).
  - rewrite Hb', Hb, count_if_app. pose proof (count_if_nonneg (mine_busy p) pre).
    assert (count_if (mine_busy p) [a] = if mine_busy p a then 1 else 0) as ->
      by (unfold count_if; simpl; by destruct (mine_busy p a)).
    destruct (mine_busy p a); unfold sat_add; lia.
Qed.

Lemma scale_down_one_spec p w r pre a s report :
  scale_down_post p w r pre s report →
  wp (scale_down_one p a report) s (scale_down_post p w r (pre ++ [a])).
Proof.
  intros Hpost. assert (is_concluded Busy = false) as Hbusy by done.
  unfold scale_down_one. destruct report as [removed refused failed retained unreadable].
  destruct (bool_decide (a_policy_id a ≠ p_id p)) eqn:Em.
  { assert (mine p a = false) as Hmine by (breflect; by apply bool_decide_eq_false).
    wp_steps. eapply scale_down_post_snoc; [exact Hpost|done|..];
      unfold mine_concluded, mine_busy; by rewrite ?Hmine. }
  assert (mine p a = true) as Hmine.
  { breflect. apply bool_decide_eq_true. by apply dec_stable. }
  destruct (bool_decide (state a = Busy)) eqn:Eb.
  { wp_steps. breflect. eapply scale_down_post_snoc; [exact Hpost|done|..];
      unfold mine_concluded, mine_busy; rewrite ?Hmine, ?Eb; done. }
  destruct (is_concluded (state a)) eqn:Ec.
  { wp_step. wp_step. set (s1 := mk_st _ _ _). destruct (l_clean (a_id a) (world s)).2;
      wp_steps; (eapply scale_down_post_snoc; [exact Hpost|done|..]);
      unfold mine_concluded, mine_busy; rewrite ?Hmine, ?Ec, ?Eb; done. }
  destruct (bool_decide (state a = Cleaned)); wp_steps;
    (eapply scale_down_post_snoc; [exact Hpost|done|..]);
    unfold mine_concluded, mine_busy; rewrite ?Hmine, ?Ec, ?Eb; done.
Qed.

(** A scale-down removes exactly the runtimes that have concluded: it cleans the
    policy's concluded attempts, in the order listed and nothing else, so a runner that
    is starting, idle or executing a job is left alone, and it reports every busy one
    it refused. *)
Theorem scale_down_cleans_concluded_only p s w l :
  l_attempts (world s) = (w, Ok l) →
  ∃ s' report, scale_down p s = Some (s', report) ∧ self s' = self s ∧
    world s' = clean_all (a_id <$> List.filter (mine_concluded p) l) w ∧
    sd_refused_busy report = Z.min U16_MAX (count_if (mine_busy p) l) ∧
    ∀ a, a ∈ List.filter (mine_concluded p) l → is_terminal (state a) = true ∧ state a ≠ Busy.
Proof.
  intros Hl.
  assert (wp (scale_down p) s (scale_down_post p w (self s) l)) as Hwp.
  { unfold scale_down. wp_step. wp_step. rewrite Hl. cbn [fst snd].
    apply (wp_for_each_prefix (scale_down_post p w (self s))); [done|].
    intros pre a s' report _ Hpost. by apply scale_down_one_spec. }
  unfold wp in Hwp. destruct (scale_down p s) as [[s' report]|]; [|done].
  destruct Hwp as (Hr & Hw & Hb & _). exists s', report. split_and!; try done.
  intros a Ha. apply elem_of_filter_bool in Ha as [_ Hc]. unfold mine_concluded in Hc.
  apply andb_true_iff in Hc as [_ Hc]. revert Hc.
  by destruct (state a).
Qed.
End ScaleDown.

(** ** Witnesses: a host whose launches never show in its listings *)

Record SimHost := mk_sim {
  sim_listed : list RunnerAttempt;
  sim_hidden : list RunnerAttempt;
  sim_next : N;
  sim_held : bool;
}.

#[local] Instance sim_launcher : RunnerLauncher SimHost := {|
  l_host_capacity := λ _ w, (w, Ok 3);
  l_supervise := λ _ w, (w, Ok []);
  l_attempts := λ w, (w, Ok (sim_listed w));
  l_launch := λ _ p w,
    let a := example_attempt (sim_next w) (p_id p) [] in
    (mk_sim (sim_listed w) (sim_hidden w ++ [a]) (sim_next w + 1)%N (sim_held w), Ok a);
  l_clean := λ _ w, (w, Err (mk_launch_failure (Other (lit "in use"))));
|}.

#[local] Instance sim_lock : AllocationLock SimHost := {|
  acquire := λ w, (mk_sim (sim_listed w) (sim_hidden w) (sim_next w) true, true);
  release := λ w, mk_sim (sim_listed w) (sim_hidden w) (sim_next w) false;
|}.

#[local] Instance sim_directory : RepositoryDirectory SimHost :=
  {| d_repositories := λ _ w, (w, Ok []) |}.
#[local] Instance sim_clock : Clock SimHost := {| clock_now := λ w, (w, seconds 1000) |}.

#[local] Instance sim_view : HostView SimHost := {|
  occupied := λ w, active_ids (sim_listed w) ∪ (active_ids (sim_hidden w) ∖ all_ids (sim_listed w));
  pending := λ w, all_ids (sim_hidden w);
  held := λ w, sim_held w = true;
|}.

Lemma active_ids_all l : active_ids l ⊆ all_ids l.
Proof. intros id (a & ? & _ & ?)%elem_of_active_ids. apply elem_of_all_ids. by exists a. Qed.

Lemma active_ids_app l k : active_ids (l ++ k) = active_ids l ∪ active_ids k.
Proof. unfold active_ids. by rewrite List.filter_app, fmap_app, list_to_set_app_L. Qed.

Lemma example_attempt_active id policy :
  a_id (example_attempt id policy []) = id ∧
  counts_against_capacity (example_attempt id policy []) = true.
Proof. done. Qed.

Lemma sim_contract (D : DemandSource SimHost) :
  (∀ sc w, (ds_poll sc w).1 = w) → HostContract SimHost 3.
Proof.
  intros HD. constructor; try done; unfold benign, within, safe; simpl; try set_solver.
  - intros sc w. by rewrite HD.
  - intros h w c [= <-]. lia.
  - intros w l [= <-]. pose proof (active_ids_all (sim_hidden w)). set_solver.
  - intros h p w Hw. exists (sim_next w). rewrite active_ids_app, all_ids_app.
    destruct (example_attempt_active (sim_next w) (p_id p)) as [Hid Hact].
    assert (all_ids [example_attempt (sim_next w) (p_id p) []] = {[ sim_next w ]}) as Hone
      by (unfold all_ids; simpl; set_solver).
    pose proof (active_ids_all [example_attempt (sim_next w) (p_id p) []]) as Hsub.
    rewrite Hone in *. split; [set_solver|]. split_and!; [done|done|set_solver].
Qed.

(** Five queued jobs for the active profile. *)
#[local] Instance sim_demand : DemandSource SimHost :=
  {| ds_poll := λ _ w, (w, Ready (QueuedDemand_new
       (match target example_active with
        | Repository r => [(r, replicate 5 (Single (lit "gpu")))]
        | Organization _ => []
        end))) |}.

Definition sim_start : St SimHost :=
  mk_st (Reconciler_new example_machine) [] (mk_sim [example_busy] [] 10%N false).

(** One runner is busy and the host holds three: the pass starts two of the five. *)
Lemma pass_never_oversubscribes_witness :
  let J := fixed_jitter 0 in
  ∃ s' report launched,
    reconcile [example_active; example_monitor] sim_start = Some (s', (report, launched)) ∧
    safe 3 (world s') ∧ length launched = 2%nat ∧ rr_started report = 2.
Proof.
  intros J. pose (HC := sim_contract sim_demand (λ _ _, eq_refl)).
  destruct (@pass_never_oversubscribes SimHost 3 _ _ _ _ _ _ HC J
    [example_active; example_monitor] sim_start) as (s' & report & launched & He & Hs & Hst & _).
  - apply Forall_cons. split; [apply example_active_valid|].
    apply Forall_singleton, example_monitor_valid.
  - vm_compute. discriminate.
  - reflexivity.
  - exists s', report, launched. split; [exact He|]. split; [exact Hs|].
    assert (length launched = 2%nat) as Hl.
    { revert He. vm_compute. intros [= _ _ <-]. reflexivity. }
    split; [exact Hl|]. rewrite Hst, Hl. reflexivity.
Defined.

Lemma outage_starts_nothing_witness :
  let J := fixed_jitter 0 in
  let D : DemandSource SimHost := {| ds_poll := λ _ w, (w, PollFailed ROffline) |} in
  ∃ s' report, reconcile (DemandSource0:=D) [example_active] sim_start = Some (s', (report, [])) ∧
    safe 3 (world s') ∧ rr_started report = 0.
Proof.
  intros J D. pose (HC := sim_contract D (λ _ _, eq_refl)).
  apply (@outage_starts_nothing SimHost 3 _ _ D _ _ _ HC J [example_active] sim_start).
  - apply Forall_singleton, example_active_valid.
  - vm_compute. discriminate.
  - reflexivity.
  - reflexivity.
Defined.

(** A busy and a concluded runner of one policy. *)
Definition example_concluded : RunnerAttempt :=
  example_attempt 3%N 7%N [(OpConclude (OutcomeFailed JitExpired), 1)].

Definition sim_full : SimHost :=
  mk_sim [example_busy; example_concluded; example_starting] [] 10%N false.

Lemma scale_down_cleans_concluded_only_witness :
  ∃ s' report,
    scale_down example_active (mk_st (Reconciler_new example_machine) [] sim_full)
      = Some (s', report) ∧ sd_refused_busy report = 1 ∧
    a_id <$> List.filter (mine_concluded example_active) (sim_listed sim_full) = [3%N].
Proof.
  destruct (@scale_down_cleans_concluded_only SimHost sim_launcher example_active
    (mk_st (Reconciler_new example_machine) [] sim_full) sim_full (sim_listed sim_full) eq_refl)
    as (s' & report & He & _ & _ & Hb & _).
  exists s', report. split; [exact He|]. split; [rewrite Hb|]; vm_compute; reflexivity.
Defined.
