(* ===== verification/Coordinator.v ===== *)
(** * The coordinator ([crates/coordinator/src], [crates/coordinator-protocol/src])

    The optional server that hosts connect to: enrollment by one-time invite, the
    registry of connections, and the webhook that wakes the hosts able to serve a
    queued job, with what a host advertises to it ([crates/app/src/cli/coordinator.rs]).
    Hashing, signatures and JSON are parameters. *)

From stdpp Require Import strings.
From S2P Require Import Prelude RustStr Ordered Model Path Workspace Execution Host Attempt.
From S2P Require Import Labels Policy Capacity Github.
#[local] Open Scope Z_scope.
#[local] Open Scope rust_scope.

(** ** Messages ([coordinator-protocol/src/lib.rs]) *)

Definition PROTOCOL_VERSION : Z := 1.
Definition CLOSE_REPLACED : Z := 4409.

Inductive WireScope := WRepo | WOrg.
#[global] Instance WireScope_eq_dec : EqDecision WireScope.
Proof. solve_decision. Defined.

Record TargetRef := mk_ref { tr_scope : WireScope; tr_name : str }.
#[global] Instance TargetRef_eq_dec : EqDecision TargetRef.
Proof. solve_decision. Defined.

Definition covers (t : TargetRef) (repository : str) : bool :=
  match tr_scope t with
  | WRepo => eq_ignore_ascii_case (tr_name t) repository
  | WOrg =>
      match split_once (ch "/") repository with
      | Some (o, _) => eq_ignore_ascii_case o (tr_name t)
      | None => false
      end
  end.

Record WireProfile := mk_profile { wp_name : str; wp_labels : list str; wp_enabled : bool }.
Record WireTarget := mk_target { wt_scope : WireScope; wt_name : str; wt_profiles : list WireProfile }.
Definition reference (t : WireTarget) : TargetRef := mk_ref (wt_scope t) (wt_name t).

Record Hello := mk_hello {
  he_protocol_version : Z;  (* u32 *)
  he_host_id : str;
  he_os : str;
  he_arch : str;
  he_cores : Z;             (* u32 *)
  he_ram_bytes : option Z;
  he_disk_free_bytes : option Z;
  he_targets : list WireTarget;
}.

Record Heartbeat := mk_heartbeat {
  hb_free_slots : Z;
  hb_busy_slots : Z;
  hb_cpu_load_percent : option Z;
  hb_free_ram_bytes : option Z;
  hb_unfit : bool;
  hb_draining : bool;
}.

Inductive WakeReason := JobQueued | OtherReason.
Record Wake := mk_wake {
  wk_target : TargetRef;
  wk_repository : str;
  wk_reason : WakeReason;
  wk_delivery_id : str;
}.

Inductive ServerMessage :=
  | Challenge (protocol_version : Z) (nonce : str)
  | Welcome (protocol_version heartbeat_interval_secs : Z)
  | MWake (wake : Wake)
  | MUnknown.

(** ** Labels and deliveries ([webhook.rs]) *)

Definition labels_cover (profile job : list str) : bool :=
  match required_labels (from_job_labels job) with
  | Err _ => false
  | Ok required =>
      let offered := omap (λ l, match Label_new l with Ok l => Some l | Err _ => None end) profile in
      forallb (λ l, bool_decide (l ∈ offered)) required
  end.

Definition valid_delivery_id (id : str) : bool :=
  bool_decide (1 ≤ len id ≤ 64)
  && forallb (λ c, is_ascii_alphanumeric c || N.eqb c (ch "-")) id.

Record DeliveryLog := mk_log {
  dl_seen : gset str;       (* HashSet *)
  dl_order : list str;      (* VecDeque *)
  dl_capacity : Z;          (* usize *)
}.

Definition DELIVERY_MEMORY : Z := 10000.
Definition DeliveryLog_new (capacity : Z) : DeliveryLog := mk_log ∅ [] (Z.max capacity 1).

Definition first_time (id : str) (l : DeliveryLog) : DeliveryLog * bool :=
  if bool_decide (id ∈ dl_seen l) then (l, false)
  else
    let '(seen, order) :=
      if bool_decide (Z.of_nat (length (dl_order l)) = dl_capacity l) then
        match dl_order l with
        | oldest :: order => (dl_seen l ∖ {[ oldest ]}, order)
        | [] => (dl_seen l, [])
        end
      else (dl_seen l, dl_order l) in
    (mk_log ({[ id ]} ∪ seen) (order ++ [id]) (dl_capacity l), true).

Definition action_is_queued (action : str) : bool := bool_decide (action = lit "queued").

(** ** The registry ([registry.rs]) *)

Inductive Outbound := Send (m : ServerMessage) | Close (code : Z) (reason : string).

(** An [mpsc] channel: what waits in it, and whether its receiver is still there. *)
Record Channel := mk_channel { queued : list Outbound; receiving : bool }.
Definition OUTBOUND_QUEUE : Z := 64.

Record Connected := mk_connected {
  cn_connection : Z;  (* u64 *)
  cn_sender : N;      (* the channel *)
  cn_hello : option Hello;
  cn_heartbeat : option Heartbeat;
}.

Record Registry := mk_registry {
  rg_hosts : gmap str Connected;
  rg_next : Z;                  (* u64 *)
  rg_channels : gmap N Channel;
}.

(** [Sender::try_send]: the channel takes the message unless it is full or closed. *)
Definition try_send (c : N) (m : Outbound) (chans : gmap N Channel) : gmap N Channel * bool :=
  match chans !! c with
  | Some k =>
      if receiving k && bool_decide (Z.of_nat (length (queued k)) < OUTBOUND_QUEUE)
      then (<[c := mk_channel (queued k ++ [m]) true]> chans, true)
      else (chans, false)
  | None => (chans, false)
  end.

Definition register (host_id : str) (sender : N) (r : Registry) : Registry * Z :=
  let connection := rg_next r in
  let previous := rg_hosts r !! host_id in
  let hosts := <[host_id := mk_connected connection sender None None]> (rg_hosts r) in
  let channels :=
    match previous with
    | Some p => (try_send (cn_sender p) (Close CLOSE_REPLACED "replaced") (rg_channels r)).1
    | None => rg_channels r
    end in
  (mk_registry hosts ((rg_next r + 1) mod (U64_MAX + 1)) channels, connection).

Definition unregister (host_id : str) (connection : Z) (r : Registry) : Registry :=
  match rg_hosts r !! host_id with
  | Some current =>
      if bool_decide (cn_connection current = connection)
      then mk_registry (delete host_id (rg_hosts r)) (rg_next r) (rg_channels r)
      else r
  | None => r
  end.

Definition set_hello (host_id : str) (connection : Z) (h : Hello) (r : Registry) : Registry :=
  match rg_hosts r !! host_id with
  | Some c =>
      if bool_decide (cn_connection c = connection)
      then mk_registry
             (<[host_id := mk_connected (cn_connection c) (cn_sender c) (Some h) (cn_heartbeat c)]>
                (rg_hosts r)) (rg_next r) (rg_channels r)
      else r
  | None => r
  end.

Definition set_heartbeat (host_id : str) (connection : Z) (h : Heartbeat) (r : Registry)
    : Registry :=
  match rg_hosts r !! host_id with
  | Some c =>
      if bool_decide (cn_connection c = connection)
      then mk_registry
             (<[host_id := mk_connected (cn_connection c) (cn_sender c) (cn_hello c) (Some h)]>
                (rg_hosts r)) (rg_next r) (rg_channels r)
      else r
  | None => r
  end.

Definition target_serves (repository : str) (labels : list str) (t : WireTarget) : bool :=
  covers (reference t) repository
  && existsb (λ p, wp_enabled p && labels_cover (wp_labels p) labels) (wt_profiles t).

Definition matching_target (h : Hello) (repository : str) (labels : list str) : option TargetRef :=
  reference <$> List.find (target_serves repository labels) (he_targets h).

(** What one host is sent for a queued job. *)
Definition wake_of (repository : str) (labels : list str) (delivery_id : str) (c : Connected)
    : option Outbound :=
  match cn_hello c ≫= λ h, matching_target h repository labels with
  | None => None
  | Some t => Some (Send (MWake (mk_wake t repository JobQueued delivery_id)))
  end.

Definition wake_one (repository : str) (labels : list str) (delivery_id : str)
    (acc : gmap N Channel * Z) (kv : str * Connected) : gmap N Channel * Z :=
  match wake_of repository labels delivery_id kv.2 with
  | None => acc
  | Some m =>
      let '(chans, sent) := try_send (cn_sender kv.2) m acc.1 in
      (chans, if sent then acc.2 + 1 else acc.2)
  end.

(** The hosts are visited in the order of the hash map; the order decides nothing. *)
Definition wake_for_job (repository : str) (labels : list str) (delivery_id : str) (r : Registry)
    : Registry * Z :=
  let '(chans, woken) :=
    foldl (wake_one repository labels delivery_id) (rg_channels r, 0) (map_to_list (rg_hosts r)) in
  (mk_registry (rg_hosts r) (rg_next r) chans, woken).

(** ** What a host advertises ([crates/app/src/cli/coordinator.rs]) *)

Definition target_ref (t : ScaleTarget) : TargetRef :=
  mk_ref (match t with Repository _ => WRepo | Organization _ => WOrg end) (slug t).

Definition same_target (local : ScaleTarget) (remote : TargetRef) : bool :=
  bool_decide (tr_scope (target_ref local) = tr_scope remote)
  && eq_ignore_ascii_case (tr_name (target_ref local)) (tr_name remote).

(** The profile goes to the first target of the same scope and spelling, or to a new one. *)
Fixpoint push_profile (r : TargetRef) (p : WireProfile) (ts : list WireTarget) : list WireTarget :=
  match ts with
  | [] => [mk_target (tr_scope r) (tr_name r) [p]]
  | t :: ts =>
      if bool_decide (wt_scope t = tr_scope r) && bool_decide (wt_name t = tr_name r)
      then mk_target (wt_scope t) (wt_name t) (wt_profiles t ++ [p]) :: ts
      else t :: push_profile r p ts
  end.

Definition advertise_one (ts : list WireTarget) (p : ScalePolicy) : list WireTarget :=
  match mode_labels (mode p) with
  | None => ts
  | Some labels =>
      push_profile (target_ref (target p))
        (mk_profile (profile_str (profile_name p)) (as_registration_labels labels)
           (may_start_runners p)) ts
  end.

Definition advertised_targets (policies : list ScalePolicy) : list WireTarget :=
  foldl advertise_one [] policies.

(** ** Enrollment ([store.rs]) *)

Definition MIN_INVITE_TTL : Duration := seconds 60.
Definition MAX_INVITE_TTL : Duration := seconds (7 * 24 * 60 * 60).

Inductive CStoreError :=
  | CSqlite
  | NoSuchHost (host : str)
  | Ambiguous (host : str)
  | NameInUse (name : str)
  | InvalidName
  | InvalidTtl.

Inductive EnrollError := InvalidCode | EnrollStore (e : CStoreError).

Record HostRecord := mk_record {
  hr_id : str;
  hr_name : str;
  hr_hostname : str;
  hr_public_key : str;
  hr_enrolled_at : Timestamp;
  hr_revoked_at : option Timestamp;
  hr_last_seen_at : option Timestamp;
}.
#[global] Instance HostRecord_eq_dec : EqDecision HostRecord.
Proof. solve_decision. Defined.

Definition record_is_active (r : HostRecord) : bool := bool_decide (hr_revoked_at r = None).

Record InviteRow := mk_invite {
  iv_name : str;
  iv_created_at : Timestamp;
  iv_expires_at : Timestamp;
  iv_used_at : option Timestamp;
}.

(** The two tables, by primary key. *)
Record cdb := mk_cdb { cd_hosts : gmap str HostRecord; cd_invites : gmap str InviteRow }.

Definition is_name_char (c : char) : bool :=
  is_ascii_alphanumeric c || N.eqb c (ch ".") || N.eqb c (ch "_") || N.eqb c (ch "-").

Definition validate_name (name : str) : result () CStoreError :=
  if bool_decide (1 ≤ len name ≤ 64) && forallb is_name_char name then Ok tt else Err InvalidName.

Definition sanitize_hostname (raw : str) : str :=
  let cleaned := take 64 (List.filter is_name_char raw) in
  if bool_decide (cleaned = []) then lit "unknown" else cleaned.

Definition name_taken (name : str) (d : cdb) : bool :=
  existsb (λ kv, bool_decide (hr_name kv.2 = name) && record_is_active kv.2)
    (map_to_list (cd_hosts d)).

Section Enrollment.
(** [Sha256::digest] and [hex::encode]. *)
Context (sha256_digest : list N → list N) (hex_encode : list N → str).

Definition code_hash (code : str) : str := hex_encode (sha256_digest (as_bytes code)).

(** [code] is the code the random source gave. *)
Definition create_invite (name : str) (ttl : Duration) (now : Timestamp) (code : str) (d : cdb)
    : cdb * result (str * Timestamp) CStoreError :=
  match validate_name name with
  | Err e => (d, Err e)
  | Ok _ =>
      if negb (bool_decide (MIN_INVITE_TTL ≤ ttl ≤ MAX_INVITE_TTL)) then (d, Err InvalidTtl)
      else if name_taken name d then (d, Err (NameInUse name))
      else match cd_invites d !! code_hash code with
      | Some _ => (d, Err CSqlite)
      | None =>
          let expires_at := now + ttl in
          (mk_cdb (cd_hosts d)
             (<[code_hash code := mk_invite name now expires_at None]> (cd_invites d)),
           Ok (code, expires_at))
      end
  end.

(** [id] is the fresh UUID. A refusal rolls the transaction back. *)
Definition enroll (code hostname public_key : str) (now : Timestamp) (id : str) (d : cdb)
    : cdb * result HostRecord EnrollError :=
  let hash := code_hash (trim code) in
  let invite :=
    match cd_invites d !! hash with
    | Some i => if bool_decide (iv_used_at i = None) then Some i else None
    | None => None
    end in
  match invite with
  | None => (d, Err InvalidCode)
  | Some i =>
      if negb (bool_decide (now < iv_expires_at i)) then (d, Err InvalidCode)
      else if name_taken (iv_name i) d then (d, Err (EnrollStore (NameInUse (iv_name i))))
      else match cd_hosts d !! id with
      | Some _ => (d, Err (EnrollStore CSqlite))
      | None =>
          let record := mk_record id (iv_name i) (sanitize_hostname hostname) public_key now
                          None None in
          (mk_cdb (<[id := record]> (cd_hosts d))
             (<[hash := mk_invite (iv_name i) (iv_created_at i) (iv_expires_at i) (Some now)]>
                (cd_invites d)), Ok record)
      end
  end.
End Enrollment.

Definition active_host (id : str) (d : cdb) : option HostRecord :=
  match cd_hosts d !! id with
  | Some r => if record_is_active r then Some r else None
  | None => None
  end.

Definition set_revoked (now : Timestamp) (r : HostRecord) : HostRecord :=
  mk_record (hr_id r) (hr_name r) (hr_hostname r) (hr_public_key r) (hr_enrolled_at r)
    (Some now) (hr_last_seen_at r).

Definition revoke (host : str) (now : Timestamp) (d : cdb) : cdb * result HostRecord CStoreError :=
  let matching :=
    List.filter (λ r, record_is_active r
                      && (bool_decide (hr_id r = host) || bool_decide (hr_name r = host)))
      (map_to_list (cd_hosts d)).*2 in
  match matching with
  | [] => (d, Err (NoSuchHost host))
  | [record] =>
      (mk_cdb (alter (set_revoked now) (hr_id record) (cd_hosts d)) (cd_invites d),
       Ok (set_revoked now record))
  | _ => (d, Err (Ambiguous host))
  end.

Definition touch (id : str) (now : Timestamp) (d : cdb) : cdb :=
  mk_cdb
    (alter (λ r, mk_record (hr_id r) (hr_name r) (hr_hostname r) (hr_public_key r)
                   (hr_enrolled_at r) (hr_revoked_at r) (Some now)) id (cd_hosts d))
    (cd_invites d).

(** ** The webhook ([server.rs]) *)

Record WorkflowJob := mk_job { wj_id : Z; wj_run_id : Z; wj_labels : list str }.
Record WorkflowJobEvent := mk_event { we_action : str; we_job : WorkflowJob; we_full_name : str }.

Record AppState := mk_state {
  as_registry : Registry;
  as_deliveries : DeliveryLog;
  as_secret : list N;                        (* config.webhook_secret *)
}.

Definition OK : Z := 200.
Definition ACCEPTED : Z := 202.
Definition BAD_REQUEST : Z := 400.
Definition UNAUTHORIZED : Z := 401.

Section Webhook.
(** [hex::decode]; [Hmac::<Sha256>::new_from_slice] and the code of a message under that
    key, [None] where the key is refused; and the JSON parser. *)
Context (hex_decode : str → option (list N)).
Context (hmac_sha256 : list N → option (list N → list N)).
Context (parse_event : list N → option WorkflowJobEvent).

Definition signature_valid (secret body : list N) (header : option str) : bool :=
  match (value ← header; strip_prefix (lit "sha256=") (trim value)) ≫= hex_decode with
  | None => false
  | Some expected =>
      match hmac_sha256 secret with
      | None => false
      | Some mac => bool_decide (mac body = expected)
      end
  end.

Definition webhook (header : string → option str) (body : list N) (s : AppState) : AppState * Z :=
  if negb (signature_valid (as_secret s) body (header "x-hub-signature-256")) then (s, UNAUTHORIZED)
  else match header "x-github-event", header "x-github-delivery" with
  | Some event, Some delivery =>
      if negb (valid_delivery_id delivery) then (s, BAD_REQUEST)
      else
        let '(log, first) := first_time delivery (as_deliveries s) in
        let s := mk_state (as_registry s) log (as_secret s) in
        if negb first then (s, OK)
        else if bool_decide (event = lit "ping") then (s, OK)
        else if bool_decide (event = lit "workflow_job") then
          match parse_event body with
          | None => (s, BAD_REQUEST)
          | Some job =>
              if action_is_queued (we_action job)
              then (mk_state (wake_for_job (we_full_name job) (wj_labels (we_job job)) delivery
                                (as_registry s)).1 log (as_secret s), OK)
              else (s, OK)
          end
        else (s, ACCEPTED)
  | _, _ => (s, BAD_REQUEST)
  end.
End Webhook.

(** ** The attempt limiter ([server.rs]) *)

Definition RATE_LIMIT_SWEEP_AT : Z := 4096.
Definition WINDOW : Duration := seconds 60.

Record RateLimiter := mk_limiter {
  per_minute : Z;                            (* u32 *)
  windows : gmap str (Timestamp * Z);        (* by client address *)
}.

(** [Instant::duration_since]: zero for an earlier instant. *)
Definition duration_since (now start : Timestamp) : Duration := Z.max 0 (now - start).

Definition allow (address : str) (now : Timestamp) (l : RateLimiter) : RateLimiter * bool :=
  let ws :=
    if bool_decide (RATE_LIMIT_SWEEP_AT ≤ Z.of_nat (size (windows l)))
    then filter (λ kv, duration_since now kv.2.1 < WINDOW) (windows l)
    else windows l in
  let entry := default (now, 0) (ws !! address) in
  let entry := if bool_decide (WINDOW ≤ duration_since now entry.1) then (now, 0) else entry in
  let count := sat_add U32_MAX entry.2 1 in
  (mk_limiter (per_minute l) (<[address := (entry.1, count)]> ws),
   bool_decide (count ≤ per_minute l)).
