(* ===== verification/CoordinatorSafety.v ===== *)
(** * What the coordinator guarantees

    A queued job wakes exactly the hosts whose own rule would serve it; a webhook acts
    on signed deliveries, once each; an invite enrolls one host; a connection's late
    cleanup cannot remove its successor. *)

From stdpp Require Import strings.
From S2P Require Import Prelude RustStr Ordered Model Path Workspace Execution Host Attempt.
From S2P Require Import Labels Policy Capacity Github Coordinator.
#[local] Open Scope Z_scope.
#[local] Open Scope rust_scope.

(** ** Waking *)

Lemma offered_labels r :
  valid_labels r →
  omap (λ l, match Label_new l with Ok l => Some l | Err _ => None end)
    (as_registration_labels r) = labels_iter r.
Proof.
  intros Hr. unfold as_registration_labels.
  assert (Forall (λ l, valid_label (label_str l)) (labels_iter r)) as Hall.
  { constructor; [apply (vl_host _ Hr)|apply (vl_additional _ Hr)]. }
  induction Hall as [|l ls Hl _ IH]; [done|]. cbn [fmap list_fmap omap list_omap].
  rewrite Label_new_canonical by done. destruct l. simpl. f_equal. exact IH.
Qed.

(** The coordinator's label rule is the host's. *)
Lemma labels_cover_agrees r job :
  valid_labels r →
  labels_cover (as_registration_labels r) job = is_match (labels_matches r (from_job_labels job)).
Proof.
  intros Hr. unfold labels_cover, labels_matches.
  destruct (required_labels (from_job_labels job)) as [required|]; [|done].
  rewrite offered_labels by done. apply eq_true_iff_eq. rewrite forallb_forall.
  case_bool_decide as Hm; simpl; split; try done.
  - intros _ l Hl. apply bool_decide_eq_true, labels_contains_spec.
    apply list_elem_of_In in Hl. rewrite filter_nil_iff in Hm.
    specialize (Hm l Hl). by apply negb_false_iff in Hm.
  - intros Hall. exfalso. apply Hm, filter_nil_iff. intros l Hl. apply negb_false_iff.
    apply labels_contains_spec. eapply bool_decide_eq_true, Hall. by apply list_elem_of_In.
Qed.

(** The profiles of a list of targets, each with its target. *)
Definition offers (ts : list WireTarget) : list (TargetRef * WireProfile) :=
  ts ≫= λ t, pair (reference t) <$> wt_profiles t.

Lemma elem_of_offers r p ts :
  (r, p) ∈ offers ts ↔ ∃ t, t ∈ ts ∧ reference t = r ∧ p ∈ wt_profiles t.
Proof.
  unfold offers. rewrite list_elem_of_bind. setoid_rewrite list_elem_of_fmap. naive_solver.
Qed.

Lemma push_profile_offers r p ts x :
  x ∈ offers (push_profile r p ts) ↔ x = (r, p) ∨ x ∈ offers ts.
Proof.
  unfold offers. induction ts as [|t ts IH]; simpl.
  - destruct r. unfold reference. simpl. set_solver.
  - destruct (bool_decide (wt_scope t = tr_scope r) && bool_decide (wt_name t = tr_name r)) eqn:E;
      simpl; rewrite !elem_of_app.
    + apply andb_true_iff in E as [E1%bool_decide_eq_true E2%bool_decide_eq_true].
      unfold reference. simpl. rewrite fmap_app, elem_of_app. simpl.
      rewrite list_elem_of_singleton, E1, E2. destruct r. simpl. naive_solver.
    + rewrite IH. naive_solver.
Qed.

Lemma advertised_offers policies r wp :
  (r, wp) ∈ offers (advertised_targets policies) ↔
  ∃ p ls, p ∈ policies ∧ mode_labels (mode p) = Some ls ∧ r = target_ref (target p) ∧
    wp = mk_profile (profile_str (profile_name p)) (as_registration_labels ls)
           (may_start_runners p).
Proof.
  unfold advertised_targets. induction policies as [|p ps IH] using rev_ind.
  { simpl. split; [by intros ?%not_elem_of_nil|]. by intros (p & ls & ?%not_elem_of_nil & _). }
  rewrite foldl_app. simpl. unfold advertise_one at 1.
  setoid_rewrite elem_of_app. setoid_rewrite list_elem_of_singleton.
  destruct (mode_labels (mode p)) as [ls|] eqn:E.
  - rewrite push_profile_offers, IH. split.
    + intros [[= -> ->]|(q & ls' & ? & ? & ? & ?)]; [by exists p, ls; auto|by exists q, ls'; auto].
    + intros (q & ls' & [Hq| ->] & Hl & -> & ->); [right; by exists q, ls'|left].
      rewrite E in Hl. by injection Hl as ->.
  - rewrite IH. split.
    + intros (q & ls' & ? & ? & ? & ?). by exists q, ls'; auto.
    + intros (q & ls' & [Hq| ->] & Hl & -> & ->); [by exists q, ls'|congruence].
Qed.

Lemma find_exists {A} (f : A → bool) l :
  is_Some (List.find f l) ↔ ∃ x, x ∈ l ∧ f x = true.
Proof.
  split.
  - intros [x Hx]. apply List.find_some in Hx as [Hin Hf]. exists x.
    by rewrite list_elem_of_In.
  - intros (x & Hin%list_elem_of_In & Hf). destruct (List.find f l) eqn:E; [done|].
    by rewrite (List.find_none _ _ E _ Hin) in Hf.
Qed.

Lemma matching_target_offers h repository labels :
  is_Some (matching_target h repository labels) ↔
  ∃ r wp, (r, wp) ∈ offers (he_targets h) ∧ covers r repository = true ∧
    wp_enabled wp = true ∧ labels_cover (wp_labels wp) labels = true.
Proof.
  unfold matching_target. rewrite fmap_is_Some, find_exists. unfold target_serves. split.
  - intros (t & Ht & [Hc Hp]%andb_true_iff).
    apply existsb_exists in Hp as (wp & Hwp%list_elem_of_In & [He Hl]%andb_true_iff).
    exists (reference t), wp. split; [|done]. apply elem_of_offers. by exists t.
  - intros (r & wp & (t & Ht & <- & Hwp)%elem_of_offers & Hc & He & Hl).
    exists t. split; [done|]. apply andb_true_iff. split; [done|]. apply existsb_exists.
    exists wp. rewrite <- list_elem_of_In. split; [done|]. by apply andb_true_iff.
Qed.

(** One of the host's policies would serve the job, by the host's own rule. *)
Definition serves (policies : list ScalePolicy) (repository : str) (labels : list str) : Prop :=
  ∃ p ls, p ∈ policies ∧ mode_labels (mode p) = Some ls ∧ may_start_runners p = true ∧
    covers (target_ref (target p)) repository = true ∧
    is_match (labels_matches ls (from_job_labels labels)) = true.
Lemma matching_target_serves policies h repository labels :
  Forall valid_policy policies → he_targets h = advertised_targets policies →
  is_Some (matching_target h repository labels) ↔ serves policies repository labels.
Proof.
  intros Hv Hh. rewrite matching_target_offers, Hh. rewrite Forall_forall in Hv.
  assert (∀ p ls, p ∈ policies → mode_labels (mode p) = Some ls → valid_labels ls) as Hls.
  { intros p ls Hp Hm. pose proof (vp_mode _ (Hv p Hp)) as Hmode. destruct (mode p); [done|].
    injection Hm as <-. apply Hmode. }
  split.
  - intros (r & wp & (p & ls & Hp & Hm & -> & ->)%advertised_offers & Hc & He & Hl).
    exists p, ls. simpl in *. rewrite labels_cover_agrees in Hl by eauto. done.
  - intros (p & ls & Hp & Hm & He & Hc & Hl).
    exists (target_ref (target p)), (mk_profile (profile_str (profile_name p))
      (as_registration_labels ls) (may_start_runners p)).
    split; [apply advertised_offers; by exists p, ls|]. simpl.
    by rewrite labels_cover_agrees by eauto.
Qed.

Lemma matching_target_covers h repository labels t :
  matching_target h repository labels = Some t → covers t repository = true.
Proof.
  unfold matching_target. rewrite fmap_Some. intros (wt & [_ H]%List.find_some & ->).
  by apply andb_true_iff in H as [? _].
Qed.

(** *** The queues *)

Lemma filter_sub {A} (f : A → bool) l : sublist (List.filter f l) l.
Proof. induction l as [|x l IH]; simpl; [constructor|]. destruct (f x); by constructor. Qed.

Section Wake.
Context (repository : str) (labels : list str) (delivery : str).
#[local] Abbreviation wakes := (wake_of repository labels delivery) (only parsing).

Definition has_room (k : Channel) : bool :=
  receiving k && bool_decide (Z.of_nat (length (queued k)) < OUTBOUND_QUEUE).
(** The host's queue with the wake, if it is sent one and there is room. *)
Definition woken_queue (c : Connected) (k : Channel) : option Channel :=
  match wakes c with
  | Some m => if has_room k then Some (mk_channel (queued k ++ [m]) true) else None
  | None => None
  end.
Definition wakes_up (chans : gmap N Channel) (c : Connected) : bool :=
  bool_decide (is_Some (chans !! cn_sender c ≫= woken_queue c)).

Lemma wake_one_spec chans n i c :
  wake_one repository labels delivery (chans, n) (i, c) =
  (match chans !! cn_sender c ≫= woken_queue c with Some k => <[cn_sender c := k]> chans | None => chans end,
   if wakes_up chans c then n + 1 else n).
Proof.
  unfold wake_one, wakes_up, woken_queue, try_send, has_room. simpl. destruct (wakes c) as [m|].
  - destruct (chans !! cn_sender c) as [k|]; [|done]. simpl. by destruct (receiving k && _).
  - by destruct (chans !! cn_sender c).
Qed.

Lemma wake_all_spec (l : list (str * Connected)) chans n :
  NoDup (cn_sender <$> l.*2) →
  let '(chans', n') := foldl (wake_one repository labels delivery) (chans, n) l in
  (∀ i c, (i, c) ∈ l → chans' !! cn_sender c =
     match chans !! cn_sender c ≫= woken_queue c with Some k => Some k | None => chans !! cn_sender c end) ∧
  (∀ s, s ∉ cn_sender <$> l.*2 → chans' !! s = chans !! s) ∧
  n' = n + Z.of_nat (length (List.filter (wakes_up chans ∘ snd) l)).
Proof.
  revert chans n. induction l as [|[i c] l IH]; intros chans n Hd.
  { simpl. split_and!; [by intros ? ? ?%not_elem_of_nil|done|lia]. }
  rewrite !fmap_cons in Hd. apply NoDup_cons in Hd as [Hc Hd]. cbn [snd] in Hc.
  cbn [foldl]. rewrite wake_one_spec.
  set (chans1 := match chans !! cn_sender c ≫= woken_queue c with Some k => <[cn_sender c:=k]> chans | None => chans end).
  assert (∀ s, s ≠ cn_sender c → chans1 !! s = chans !! s) as Hother.
  { intros s Hs. subst chans1. case_match; [by rewrite lookup_insert_ne|done]. }
  assert (chans1 !! cn_sender c = match chans !! cn_sender c ≫= woken_queue c with Some k => Some k | None => chans !! cn_sender c end) as Hown.
  { subst chans1. case_match; [by rewrite lookup_insert_eq|done]. }
  specialize (IH chans1 (if wakes_up chans c then n + 1 else n) Hd). destruct (foldl _ _ l) as [chans' n'].
  destruct IH as (IH1 & IH2 & IH3).
  assert (∀ j d, (j, d) ∈ l → cn_sender d ≠ cn_sender c) as Hne.
  { intros j d Hj E. apply Hc. rewrite <- E. apply list_elem_of_fmap. exists d. split; [done|].
    apply list_elem_of_fmap. by exists (j, d). }
  split_and!.
  - intros j d [[= -> ->]|Hj]%elem_of_cons; [by rewrite IH2|]. rewrite (IH1 j d Hj).
    by rewrite (Hother _ (Hne j d Hj)).
  - intros s Hs. rewrite !fmap_cons in Hs. apply not_elem_of_cons in Hs as [Hs1 Hs2]. rewrite IH2 by done. by apply Hother.
  - rewrite IH3. assert (List.filter (wakes_up chans1 ∘ snd) l = List.filter (wakes_up chans ∘ snd) l) as ->.
    { apply List.filter_ext_in. intros [j d] Hj%list_elem_of_In. unfold compose, wakes_up. simpl.
      by rewrite (Hother _ (Hne j d Hj)). }
    cbn [List.filter]. change ((wakes_up chans ∘ snd) (i, c)) with (wakes_up chans c).
    destruct (wakes_up chans c); cbn [length]; lia.
Qed.
End Wake.

(** C37: The coordinator wakes the hosts that would serve the job. For a registry whose
    connections have channels of their own, and hosts whose last hello, if they have sent
    one, advertised the policies they have now: a connected host is sent one wake, for a
    target that covers the repository and for this delivery, exactly when it has sent a
    hello, one of its policies may start runners, covers the job's repository and matches
    the job's labels by the host's own rule, and its outbound queue is open and not full
    (a wake for a full queue is dropped); nothing else changes, and the number returned
    is that of the wakes. *)
Theorem woken_hosts_serve policies_of repository labels delivery r :
  (∀ i c, rg_hosts r !! i = Some c → Forall valid_policy (policies_of i) ∧
     ∀ h, cn_hello c = Some h → he_targets h = advertised_targets (policies_of i)) →
  (∀ i j c d, rg_hosts r !! i = Some c → rg_hosts r !! j = Some d → cn_sender c = cn_sender d → i = j) →
  let '(r', woken) := wake_for_job repository labels delivery r in
  let wakes i c k := is_Some (cn_hello c) ∧ serves (policies_of i) repository labels ∧ has_room k = true in
  rg_hosts r' = rg_hosts r ∧ rg_next r' = rg_next r ∧
  (∀ i c k, rg_hosts r !! i = Some c → rg_channels r !! cn_sender c = Some k →
     (wakes i c k → ∃ t, covers t repository = true ∧ rg_channels r' !! cn_sender c =
        Some (mk_channel (queued k ++ [Send (MWake (mk_wake t repository JobQueued delivery))]) true)) ∧
     ((wakes i c k → False) → rg_channels r' !! cn_sender c = Some k)) ∧
  (∀ s, (∀ i c, rg_hosts r !! i = Some c → cn_sender c ≠ s) → rg_channels r' !! s = rg_channels r !! s) ∧
  ∃ l, NoDup l ∧ woken = Z.of_nat (length l) ∧
    ∀ i, i ∈ l ↔ ∃ c k, rg_hosts r !! i = Some c ∧ rg_channels r !! cn_sender c = Some k ∧ wakes i c k.
Proof.
  intros Hpol Hown. unfold wake_for_job.
  pose proof (wake_all_spec repository labels delivery (map_to_list (rg_hosts r)) (rg_channels r) 0) as H.
  destruct (foldl _ _ _) as [chans woken]. cbn [rg_hosts rg_next rg_channels].
  assert (∀ i c k, rg_hosts r !! i = Some c →
    is_Some (woken_queue repository labels delivery c k) ↔
    is_Some (cn_hello c) ∧ serves (policies_of i) repository labels ∧ has_room k = true) as Hwakes.
  { intros i c k Hi. destruct (Hpol i c Hi) as [Hv Hh]. unfold woken_queue, wake_of.
    destruct (cn_hello c) as [h|]; simpl; [|by split; [intros [? ?]|intros [[? ?] _]]].
    rewrite <- (matching_target_serves (policies_of i) h) by auto.
    destruct (matching_target h repository labels); simpl; [|by split; [intros [? ?]|intros (_ & [? ?] & _)]].
    destruct (has_room k); split; try done; try (by intros [? ?]); by intros (_ & _ & ?). }
  assert (NoDup (cn_sender <$> (map_to_list (rg_hosts r)).*2)) as Hd.
  { rewrite <- list_fmap_compose. apply NoDup_fmap_2_strong; [|apply NoDup_map_to_list].
    intros [i c] [j d] Hi%elem_of_map_to_list Hj%elem_of_map_to_list E. simpl in E.
    pose proof (Hown i j c d Hi Hj E) as ->. by simplify_eq. }
  specialize (H Hd). cbn in H. destruct H as (Hin & Hout & ->). split; [done|]. split; [done|]. split_and!.
  - intros i c k Hi Hk. specialize (Hin i c). rewrite elem_of_map_to_list in Hin. specialize (Hin Hi).
    rewrite Hk in Hin. simpl in Hin. split.
    + intros Hw. apply (Hwakes i c k Hi) in Hw as [k' Ek]. rewrite Ek in Hin. unfold woken_queue, wake_of in Ek.
      destruct (cn_hello c) as [h|]; [|done]. simpl in Ek. destruct (matching_target h repository labels) as [t|] eqn:Et; [|done].
      destruct (has_room k); [|done]. injection Ek as <-. exists t. split; [by eapply matching_target_covers|done].
    + intros Hn. destruct (woken_queue repository labels delivery c k) eqn:Ek; [|done]. exfalso.
      apply Hn, (Hwakes i c k Hi). by rewrite Ek.
  - intros s Hs. apply Hout. intros (c & -> & Hc)%list_elem_of_fmap.
    apply list_elem_of_fmap in Hc as ([i d] & -> & Hi%elem_of_map_to_list). by apply (Hs i d).
  - exists (List.filter (wakes_up repository labels delivery (rg_channels r) ∘ snd) (map_to_list (rg_hosts r))).*1.
    split_and!.
    + eapply sublist_NoDup; [apply (NoDup_fst_map_to_list (rg_hosts r))|]. apply fmap_sublist, filter_sub.
    + rewrite length_fmap. lia.
    + intros i. rewrite list_elem_of_fmap. split.
      * intros ([j c] & -> & [Hj Hw]%list_elem_of_In%List.filter_In). apply list_elem_of_In, elem_of_map_to_list in Hj.
        unfold compose, wakes_up in Hw. apply bool_decide_eq_true in Hw. simpl in Hw.
        destruct (rg_channels r !! cn_sender c) as [k|] eqn:Ek; [|by destruct Hw]. exists c, k.
        split; [done|]. split; [done|]. by apply (Hwakes j c k Hj).
      * intros (c & k & Hi & Hk & Hw). exists (i, c). split; [done|]. apply list_elem_of_In, List.filter_In.
        split; [by apply list_elem_of_In, elem_of_map_to_list|]. unfold compose, wakes_up. apply bool_decide_eq_true.
        simpl. rewrite Hk. simpl. by apply (Hwakes i c k Hi).
Qed.

(** ** Deliveries *)

(** The last [n] elements. *)
Definition lastn {A} (n : nat) (l : list A) : list A := drop (length l - n) l.

Lemma lastn_snoc {A} n (l : list A) x :
  lastn (S n) (l ++ [x]) = lastn n l ++ [x].
Proof.
  unfold lastn. rewrite length_app. simpl. rewrite drop_app_le by lia.
  f_equal. f_equal. lia.
Qed.

Lemma length_lastn {A} n (l : list A) : length (lastn n l) = Nat.min n (length l).
Proof. unfold lastn. rewrite length_drop. lia. Qed.

Lemma lastn_step {A} n (l : list A) : (length l ≤ n)%nat → lastn n l = l.
Proof. intros. unfold lastn. by replace (length l - n)%nat with 0%nat by lia. Qed.

Lemma lastn_tail {A} n (l : list A) :
  (S n ≤ length l)%nat → tail (lastn (S n) l) = lastn n l.
Proof.
  intros Hn. unfold lastn.
  assert (∀ k : list A, tail k = drop 1 k) as -> by (by intros []).
  rewrite drop_drop. f_equal. lia.
Qed.

(** The log is the window of the last deliveries recorded. *)
Definition log_holds (recorded : list str) (l : DeliveryLog) : Prop :=
  ∃ n, dl_capacity l = Z.of_nat (S n) ∧ dl_order l = lastn (S n) recorded ∧
    NoDup (dl_order l) ∧ dl_seen l = list_to_set (dl_order l).

Lemma first_time_holds recorded l id :
  log_holds recorded l →
  (first_time id l).2 = bool_decide (id ∉ dl_order l) ∧
  log_holds (if bool_decide (id ∉ dl_order l) then recorded ++ [id] else recorded)
    (first_time id l).1 ∧ dl_capacity (first_time id l).1 = dl_capacity l.
Proof.
  intros (n & Hc & Ho & Hnd & Hs). unfold first_time. rewrite Hs.
  rewrite (bool_decide_ext (id ∈ list_to_set (C:=gset str) (dl_order l)) (id ∈ dl_order l))
    by by rewrite elem_of_list_to_set.
  destruct (decide (id ∈ dl_order l)) as [Hin|Hin].
  { rewrite bool_decide_true by done. rewrite bool_decide_false by (intros Hn; by apply Hn).
    split; [done|]. split; [|done]. by exists n. }
  rewrite (bool_decide_false (id ∈ dl_order l)) by done.
  rewrite (bool_decide_true (id ∉ dl_order l)) by done. rewrite Hc.
  assert (∃ (seen : gset str) (order : list str),
    (if bool_decide (Z.of_nat (length (dl_order l)) = Z.of_nat (S n))
     then match dl_order l with
          | oldest :: order => (list_to_set (dl_order l) ∖ {[ oldest ]}, order)
          | [] => (list_to_set (dl_order l), [])
          end
     else (list_to_set (dl_order l), dl_order l)) = (seen, order) ∧
    order = lastn n recorded ∧ NoDup order ∧ seen = list_to_set order ∧ id ∉ order)
    as (seen & order & -> & Hord & Hnd' & Hseen & Hnew).
  { case_bool_decide as Hlen.
    - pose proof (length_lastn (S n) recorded) as Hl. rewrite <- Ho in Hl.
      pose proof (lastn_tail n recorded ltac:(lia)) as Ht. rewrite <- Ho in Ht.
      destruct (dl_order l) as [|oldest order]; [simpl in Hlen; lia|].
      inversion Hnd as [|? ? Hnot Hnd']; subst. eexists _, _. split; [done|].
      split_and!; [done|done|set_solver|set_solver].
    - eexists _, _. split; [done|]. split_and!; [|done|done|done].
      pose proof (length_lastn (S n) recorded) as Hl. rewrite <- Ho in Hl.
      rewrite Ho, !lastn_step by lia. done. }
  simpl. split; [done|]. split; [|done]. exists n. simpl. split_and!; [done| | |].
  - by rewrite lastn_snoc, Hord.
  - apply NoDup_app. split_and!; [done| |apply NoDup_singleton]. set_solver.
  - rewrite list_to_set_app_L. set_solver.
Qed.

(** ** The webhook *)

Section Webhook.
Context (hex_decode : str → option (list N)) (hmac_sha256 : list N → option (list N → list N)).
Context (parse_event : list N → option WorkflowJobEvent) (secret : list N).

Record request := mk_request { rq_header : string → option str; rq_body : list N }.
Definition signed (r : request) : bool :=
  signature_valid hex_decode hmac_sha256 secret (rq_body r) (rq_header r "x-hub-signature-256").

Definition answer (r : request) (s : AppState) : AppState * Z :=
  webhook hex_decode hmac_sha256 parse_event (rq_header r) (rq_body r) s.

(** The delivery a request is recorded as, if it gets that far. *)
Definition delivery_of (r : request) : option str :=
  if signed r then
    match rq_header r "x-github-event", rq_header r "x-github-delivery" with
    | Some _, Some d => if valid_delivery_id d then Some d else None
    | _, _ => None
    end
  else None.

(** The deliveries recorded by a history of requests: those not among the last
    [DELIVERY_MEMORY] recorded before them. *)
Definition memory : nat := Z.to_nat DELIVERY_MEMORY.
Definition record_one (recorded : list str) (r : request) : list str :=
  match delivery_of r with
  | Some d => if bool_decide (d ∉ lastn memory recorded) then recorded ++ [d] else recorded
  | None => recorded
  end.
Definition recorded_by (rs : list request) : list str := foldl record_one [] rs.

Definition serve (g : Registry) (rs : list request) : AppState :=
  foldl (λ s r, (answer r s).1) (mk_state g (DeliveryLog_new DELIVERY_MEMORY) secret) rs.

(** A signature is the code of the body under the secret, in hexadecimal. *)
Lemma signed_spec r :
  signed r = true ↔ ∃ value hex mac code,
    rq_header r "x-hub-signature-256" = Some value ∧ trim value = lit "sha256=" ++ hex ∧
    hmac_sha256 secret = Some mac ∧ hex_decode hex = Some code ∧ mac (rq_body r) = code.
Proof.
  unfold signed, signature_valid. generalize (lit "sha256=") as prefix; intros prefix.
  destruct (rq_header r "x-hub-signature-256") as [value|]; cbn; [|naive_solver].
  destruct (strip_prefix prefix (trim value)) as [hex|] eqn:E; cbn.
  - apply strip_prefix_spec in E.
    trans (∃ mac code, hmac_sha256 secret = Some mac ∧ hex_decode hex = Some code ∧
             mac (rq_body r) = code).
    + destruct (hex_decode hex), (hmac_sha256 secret); rewrite ?bool_decide_eq_true; naive_solver.
    + split; [intros (mac & code & ?); by exists value, hex, mac, code|].
      intros (v & h & mac & code & [= <-] & Ht & Hrest). exists mac, code.
      rewrite E in Ht. by apply app_inv_head in Ht as <-.
  - split; [done|]. intros (v & h & m & c & [= <-] & Ht & _).
    apply strip_prefix_spec in Ht. congruence.
Qed.

(** One request, on a log that holds [recorded]. *)
Lemma answer_step r s recorded :
  log_holds recorded (as_deliveries s) → dl_capacity (as_deliveries s) = DELIVERY_MEMORY →
  as_secret s = secret →
  let s' := (answer r s).1 in
  log_holds (record_one recorded r) (as_deliveries s') ∧
  dl_capacity (as_deliveries s') = DELIVERY_MEMORY ∧ as_secret s' = secret ∧
  (signed r = false → answer r s = (s, UNAUTHORIZED)) ∧
  (as_registry s' ≠ as_registry s →
   ∃ d, delivery_of r = Some d ∧ d ∉ lastn memory recorded).
Proof.
  intros Hlog Hcap Hsec. destruct (Hlog) as (n & Hn & Ho & _).
  assert (S n = memory) as Hmem by (unfold memory; rewrite Hcap in Hn; rewrite Hn; lia).
  rewrite Hmem in Ho. cbv zeta. unfold answer, webhook, record_one, delivery_of.
  rewrite Hsec. fold (signed r). destruct (signed r); simpl.
  2:{ split_and!; done. }
  destruct (rq_header r "x-github-event") as [event|];
    [destruct (rq_header r "x-github-delivery") as [d|]|]; try (split_and!; done).
  destruct (valid_delivery_id d); simpl; [|split_and!; done].
  destruct (first_time_holds recorded _ d Hlog) as (Hf & Hl & Hc). rewrite Ho in *.
  destruct (first_time d (as_deliveries s)) as [log first]. simpl in *. rewrite Hcap in Hc.
  case_bool_decide as Hnew; subst first; simpl; [|split_and!; done].
  repeat case_match; simpl; split_and!; try done; intros; by exists d.
Qed.

Lemma serve_holds g rs :
  log_holds (recorded_by rs) (as_deliveries (serve g rs)) ∧
  dl_capacity (as_deliveries (serve g rs)) = DELIVERY_MEMORY ∧ as_secret (serve g rs) = secret.
Proof.
  unfold serve, recorded_by. induction rs as [|r rs (IH1 & IH2 & IH3)] using rev_ind; simpl.
  { split; [|done]. exists (pred memory). split_and!; [done|done|constructor|done]. }
  rewrite !foldl_app. simpl.
  by destruct (answer_step r _ _ IH1 IH2 IH3) as (? & ? & ? & _).
Qed.

(** C38: The webhook acts only on deliveries signed with the configured secret, and on
    each once: after any history of requests, a request without a valid signature changes
    nothing and is refused, and a request that changes the registry carries the code of
    its body under the secret and a delivery that is not among the last ten thousand
    recorded. The log is exactly that window. *)
Theorem webhook_acts_once g rs r :
  let s := serve g rs in
  dl_order (as_deliveries s) = lastn memory (recorded_by rs) ∧
  (signed r = false → answer r s = (s, UNAUTHORIZED)) ∧
  (as_registry (answer r s).1 ≠ as_registry s →
   (∃ value hex mac code,
      rq_header r "x-hub-signature-256" = Some value ∧ trim value = lit "sha256=" ++ hex ∧
      hmac_sha256 secret = Some mac ∧ hex_decode hex = Some code ∧ mac (rq_body r) = code) ∧
   ∃ d, delivery_of r = Some d ∧ d ∉ lastn memory (recorded_by rs)).
Proof.
  cbv zeta. destruct (serve_holds g rs) as (Hl & Hc & Hs).
  destruct (answer_step r _ _ Hl Hc Hs) as (_ & _ & _ & Hu & Hr). split_and!; [|done|].
  - destruct Hl as (n & Hn & -> & _). rewrite Hc in Hn. f_equal. unfold memory. lia.
  - intros Hne. split; [|by apply Hr]. apply signed_spec. destruct (signed r); [done|].
    exfalso. apply Hne. by rewrite Hu.
Qed.
End Webhook.

(** ** Enrollment *)

Section Enrollment.
Context (sha256_digest : list N → list N) (hex_encode : list N → str).
#[local] Abbreviation hash_of := (code_hash sha256_digest hex_encode).

(** One operation of the coordinator's database, whatever its answer. *)
Inductive cstep : cdb → cdb → Prop :=
  | step_invite name ttl now code d :
      cstep d (create_invite sha256_digest hex_encode name ttl now code d).1
  | step_enroll code hostname key now id d :
      cstep d (enroll sha256_digest hex_encode code hostname key now id d).1
  | step_revoke host now d : cstep d (revoke host now d).1
  | step_touch id now d : cstep d (touch id now d).

Definition csteps : cdb → cdb → Prop := rtc cstep.
Definition empty_cdb : cdb := mk_cdb ∅ ∅.

(** Rows are stored under their identifiers, and active hosts have distinct names. *)
Record valid_cdb (d : cdb) : Prop := {
  vc_keys : ∀ id r, cd_hosts d !! id = Some r → hr_id r = id;
  vc_names : ∀ id1 id2 r1 r2, cd_hosts d !! id1 = Some r1 → cd_hosts d !! id2 = Some r2 →
    record_is_active r1 = true → record_is_active r2 = true → hr_name r1 = hr_name r2 →
    id1 = id2;
}.

Lemma name_taken_spec name d :
  name_taken name d = true ↔
  ∃ id r, cd_hosts d !! id = Some r ∧ hr_name r = name ∧ record_is_active r = true.
Proof.
  unfold name_taken. rewrite existsb_exists. split.
  - intros ([id r] & Hin%list_elem_of_In%elem_of_map_to_list & [Hn Ha]%andb_true_iff).
    apply bool_decide_eq_true in Hn. by exists id, r.
  - intros (id & r & Hl & Hn & Ha). exists (id, r).
    rewrite <- list_elem_of_In, elem_of_map_to_list. split; [done|].
    apply andb_true_iff. split; [by apply bool_decide_eq_true|done].
Qed.

(** What an accepted enrollment found and did. *)
Lemma enroll_ok code hostname key now id d d' record :
  enroll sha256_digest hex_encode code hostname key now id d = (d', Ok record) →
  ∃ i, cd_invites d !! hash_of (trim code) = Some i ∧ iv_used_at i = None ∧
    now < iv_expires_at i ∧ name_taken (iv_name i) d = false ∧ cd_hosts d !! id = None ∧
    record = mk_record id (iv_name i) (sanitize_hostname hostname) key now None None ∧
    d' = mk_cdb (<[id := record]> (cd_hosts d))
           (<[hash_of (trim code) :=
                mk_invite (iv_name i) (iv_created_at i) (iv_expires_at i) (Some now)]>
              (cd_invites d)).
Proof.
  unfold enroll. destruct (cd_invites d !! hash_of (trim code)) as [i|]; [|done].
  destruct (bool_decide (iv_used_at i = None)) eqn:Eu; [|done].
  destruct (bool_decide (now < iv_expires_at i)) eqn:Ee; [|done]. cbn [negb].
  destruct (name_taken (iv_name i) d) eqn:En; [done|].
  destruct (cd_hosts d !! id) eqn:Eh; [done|]. intros [= <- <-]. breflect.
  exists i. by split_and!.
Qed.

(** A refused enrollment changes nothing. *)
Lemma enroll_refused code hostname key now id d d' e :
  enroll sha256_digest hex_encode code hostname key now id d = (d', Err e) → d' = d.
Proof. unfold enroll. intros. repeat case_match; by simplify_eq. Qed.

Lemma create_invite_hosts name ttl now code d :
  cd_hosts (create_invite sha256_digest hex_encode name ttl now code d).1 = cd_hosts d.
Proof. unfold create_invite. repeat case_match; done. Qed.

(** Updates of one row that keep its identity never make a name ambiguous. *)
Lemma alter_valid d (f : HostRecord → HostRecord) id :
  (∀ r, hr_id (f r) = hr_id r ∧ hr_name (f r) = hr_name r ∧
        (record_is_active (f r) = true → record_is_active r = true)) →
  valid_cdb d → valid_cdb (mk_cdb (alter f id (cd_hosts d)) (cd_invites d)).
Proof.
  intros Hf [Hk Hn].
  assert (∀ j r, alter f id (cd_hosts d) !! j = Some r → ∃ r0, cd_hosts d !! j = Some r0 ∧
    hr_id r = hr_id r0 ∧ hr_name r = hr_name r0 ∧
    (record_is_active r = true → record_is_active r0 = true)) as Halter.
  { intros j r. rewrite lookup_alter. case_decide as E.
    - subst. destruct (cd_hosts d !! j) as [r0|]; [|done]. intros [= <-]. exists r0.
      by destruct (Hf r0) as (? & ? & ?).
    - intros Hj. by exists r. }
  constructor; simpl.
  - intros j r (r0 & Hj & -> & _)%Halter. by apply Hk.
  - intros j1 j2 r1 r2 (s1 & H1 & _ & N1 & A1)%Halter (s2 & H2 & _ & N2 & A2)%Halter ? ? E.
    apply (Hn j1 j2 s1 s2); auto. congruence.
Qed.

Lemma cstep_valid d d' : cstep d d' → valid_cdb d → valid_cdb d'.
Proof.
  destruct 1 as [name ttl now code d|code hostname key now id d|host now d|id now d]; intros Hv.
  - destruct Hv as [Hk Hn]. constructor; rewrite create_invite_hosts; done.
  - destruct (enroll sha256_digest hex_encode code hostname key now id d) as [d' [record|e]] eqn:E;
      [|by rewrite (enroll_refused _ _ _ _ _ _ _ _ E)].
    apply enroll_ok in E as (i & _ & _ & _ & Hfree & Hid & -> & ->). destruct Hv as [Hk Hn].
    assert (∀ j r, cd_hosts d !! j = Some r → record_is_active r = true →
              hr_name r ≠ iv_name i) as Hne.
    { intros j r Hj Ha E. assert (name_taken (iv_name i) d = true); [|congruence].
      apply name_taken_spec. by exists j, r. }
    constructor; simpl.
    + intros j r [[<- <-]|[_ Hj]]%lookup_insert_Some; [done|by apply Hk].
    + intros j1 j2 r1 r2 [[<- <-]|[_ H1]]%lookup_insert_Some [[<- <-]|[_ H2]]%lookup_insert_Some;
        simpl; intros A1 A2 E; [done| | |by eapply Hn].
      * exfalso. by eapply (Hne j2).
      * exfalso. by eapply (Hne j1).
  - unfold revoke. destruct (List.filter _ _) as [|r [|]]; simpl; try done.
    apply alter_valid; [|done]. by intros r0.
  - apply alter_valid; [|done]. by intros r0.
Qed.

(** *** A spent code stays spent *)

Definition spent (hash : str) (d : cdb) : Prop :=
  ∃ i, cd_invites d !! hash = Some i ∧ is_Some (iv_used_at i).

Lemma enroll_spent code hostname key now id d :
  spent (hash_of (trim code)) d →
  enroll sha256_digest hex_encode code hostname key now id d = (d, Err InvalidCode).
Proof.
  intros (i & Hi & [t Ht]). unfold enroll. rewrite Hi, bool_decide_false; [done|].
  by rewrite Ht.
Qed.

Lemma cstep_spent hash d d' : cstep d d' → spent hash d → spent hash d'.
Proof.
  destruct 1 as [name ttl now code d|code hostname key now id d|host now d|id now d];
    intros Hs.
  - unfold create_invite. repeat case_match; try done. simpl.
    destruct Hs as (i & Hi & Hu). exists i. split; [|done]. simpl.
    rewrite lookup_insert_ne; [done|]. congruence.
  - destruct (enroll sha256_digest hex_encode code hostname key now id d) as [d' [record|e]] eqn:E;
      [|by rewrite (enroll_refused _ _ _ _ _ _ _ _ E)].
    apply enroll_ok in E as (i & Hi & Hu & _ & _ & _ & _ & ->).
    destruct Hs as (i' & Hi' & Hu'). exists i'. split; [|done]. simpl.
    rewrite lookup_insert_ne; [done|]. intros <-. rewrite Hi in Hi'. injection Hi' as ->.
    rewrite Hu in Hu'. by destruct Hu'.
  - unfold revoke. destruct (List.filter _ _) as [|r [|]]; done.
  - done.
Qed.

(** C39: An invite enrolls one host. In a database built by the coordinator's own
    operations, a code that enrolled a host is refused ever after, whatever is done in
    between, and every refusal leaves the database as it was; and no two active hosts
    ever share a name. *)
Theorem invite_enrolls_once d d1 d2 code hostname key now id record
    code' hostname' key' now' id' :
  csteps empty_cdb d →
  enroll sha256_digest hex_encode code hostname key now id d = (d1, Ok record) →
  csteps d1 d2 → trim code' = trim code →
  enroll sha256_digest hex_encode code' hostname' key' now' id' d2
    = (d2, Err InvalidCode) ∧ valid_cdb d2.
Proof.
  intros Hd He Hd2 Htrim.
  assert (∀ a b, csteps a b → valid_cdb a → valid_cdb b) as Hvalid
    by (induction 1; eauto using cstep_valid).
  assert (∀ a b, csteps a b → spent (hash_of (trim code)) a → spent (hash_of (trim code)) b)
    as Hspent by (induction 1; eauto using cstep_spent).
  split.
  - apply enroll_spent. rewrite Htrim. apply (Hspent d1); [done|].
    apply enroll_ok in He as (i & _ & _ & _ & _ & _ & _ & ->).
    eexists. simpl. by rewrite lookup_insert_eq.
  - apply (Hvalid d1); [done|].
    change d1 with ((d1, @Ok _ EnrollError record).1). rewrite <- He.
    apply (cstep_valid d); [constructor|]. apply (Hvalid empty_cdb); [done|].
    constructor; simpl; intros *; by rewrite lookup_empty.
Qed.
End Enrollment.

(** ** Witnesses *)

Definition example_hello : Hello :=
  mk_hello 1 (lit "h") (lit "windows") (lit "x64") 8 None None (advertised_targets [example_active]).

Definition example_hosts : Registry :=
  mk_registry {[ lit "h" := mk_connected 0 1 (Some example_hello) None; lit "silent" := mk_connected 1 2 None None ]} 2
    {[ 1%N := mk_channel [] true; 2%N := mk_channel [] true ]}.
(** The host that advertised the job's target is woken, and the one without a hello not. *)
Lemma woken_hosts_serve_witness :
  let '(r', woken) := wake_for_job (slug (target example_active)) [lit "GPU"] (lit "d1") example_hosts in
  woken = 1 ∧ rg_channels r' !! 2%N = Some (mk_channel [] true) ∧
  ∃ t, covers t (slug (target example_active)) = true ∧ rg_channels r' !! 1%N =
    Some (mk_channel [Send (MWake (mk_wake t (slug (target example_active)) JobQueued (lit "d1")))] true).
Proof.
  assert ((wake_for_job (slug (target example_active)) [lit "GPU"] (lit "d1") example_hosts).2 = 1) as E
    by (vm_compute; reflexivity).
  assert (∀ i c, rg_hosts example_hosts !! i = Some c →
    (i = lit "h" ∧ c = mk_connected 0 1 (Some example_hello) None) ∨ (i = lit "silent" ∧ c = mk_connected 1 2 None None)) as Hhosts.
  { intros i c H. unfold example_hosts in H. cbn [rg_hosts] in H.
    apply lookup_insert_Some in H as [[<- <-]|[_ H]]; [left; split; reflexivity|right].
    apply lookup_singleton_Some in H as [<- <-]. split; reflexivity. }
  pose proof (woken_hosts_serve (λ _, [example_active]) (slug (target example_active)) [lit "GPU"] (lit "d1") example_hosts) as H.
  destruct (wake_for_job _ _ _ _) as [r' woken]. cbn [snd] in E. destruct H as (_ & _ & H & _).
  - intros i c Hi. split; [apply Forall_singleton, example_active_valid|]. intros h Hh.
    destruct (Hhosts i c Hi) as [[_ ->]|[_ ->]]; [|discriminate Hh]. injection Hh as <-. reflexivity.
  - intros i j c d Hi Hj Hs. destruct (Hhosts i c Hi) as [[-> ->]|[-> ->]], (Hhosts j d Hj) as [[-> ->]|[-> ->]];
      reflexivity || discriminate Hs.
  - split; [exact E|]. split.
    + destruct (H (lit "silent") (mk_connected 1 2 None None) (mk_channel [] true) eq_refl eq_refl) as [_ Hs]. apply Hs.
      intros [[? Hh] _]. discriminate Hh.
    + destruct (H (lit "h") (mk_connected 0 1 (Some example_hello) None) (mk_channel [] true) eq_refl eq_refl) as [Hw _]. apply Hw.
      split; [by eexists|]. split; [|reflexivity].
      exists example_active, (default example_labels (mode_labels (mode example_active))).
      split_and!; [by left|vm_compute; reflexivity..].
Defined.

(** A connected host that serves the job, and a signed delivery for it. *)
Definition example_registry : Registry :=
  set_hello (lit "h") 0 example_hello
    (register (lit "h") 1%N (mk_registry ∅ 0 {[ 1%N := mk_channel [] true ]})).1.
Definition example_request : request :=
  mk_request (λ name,
    if bool_decide (name = "x-hub-signature-256"%string) then Some (lit "sha256=ok")
    else if bool_decide (name = "x-github-event"%string) then Some (lit "workflow_job")
    else if bool_decide (name = "x-github-delivery"%string) then Some (lit "72d3-1") else None)
    (lit "{}").
Definition example_decode (hex : str) : option (list N) := Some hex.
Definition example_hmac (secret : list N) : option (list N → list N) := Some (λ _, secret).
Definition example_parse (_ : list N) : option WorkflowJobEvent :=
  Some (mk_event (lit "queued") (mk_job 7 9 [lit "gpu"]) (slug (target example_active))).

Definition waiting (s : AppState) : Z :=
  match rg_channels (as_registry s) !! 1%N with
  | Some c => Z.of_nat (length (queued c))
  | None => 0
  end.

Definition example_serve : list request → AppState :=
  serve example_decode example_hmac example_parse (lit "ok") example_registry.

(** The delivery wakes the host once; its repetition does not. *)
Lemma webhook_acts_once_witness :
  waiting (example_serve [example_request]) = 1 ∧
  waiting (example_serve [example_request; example_request]) = 1 ∧
  ∃ d, delivery_of example_decode example_hmac (lit "ok") example_request = Some d ∧
    d ∉ lastn memory (recorded_by example_decode example_hmac (lit "ok") []).
Proof.
  split; [vm_compute; reflexivity|]. split; [vm_compute; reflexivity|].
  apply (webhook_acts_once example_decode example_hmac example_parse (lit "ok")
    example_registry [] example_request).
  intros E. apply (f_equal rg_channels) in E. revert E. vm_compute. discriminate.
Defined.

(** The hash of a code stands for itself. *)
Definition example_invited : cdb :=
  (create_invite id id (lit "builder") (seconds 900) 0 (lit "rmc_1") empty_cdb).1.
Definition example_enrolled : cdb * result HostRecord EnrollError :=
  enroll id id (lit " rmc_1 ") (lit "box") (lit "key") (seconds 10) (lit "id-1") example_invited.

Lemma invite_enrolls_once_witness :
  is_ok example_enrolled.2 = true ∧
  enroll id id (lit "rmc_1") (lit "thief") (lit "other") (seconds 20) (lit "id-2")
    example_enrolled.1 = (example_enrolled.1, Err InvalidCode).
Proof.
  split; [vm_compute; reflexivity|].
  assert (∃ record, example_enrolled = (example_enrolled.1, Ok record)) as [record He].
  { eexists. vm_compute. reflexivity. }
  apply (invite_enrolls_once id id example_invited example_enrolled.1 example_enrolled.1
    (lit " rmc_1 ") (lit "box") (lit "key") (seconds 10) (lit "id-1") record
    (lit "rmc_1") (lit "thief") (lit "other") (seconds 20) (lit "id-2")).
  - apply rtc_once. apply (step_invite id id).
  - exact He.
  - apply rtc_refl.
  - vm_compute. reflexivity.
Defined.
