(* ===== verification/Effects.v ===== *)
(** * Programs with effects

    The free monad of a set of effects, for code that calls many ports: a program is a
    finite tree whose nodes are the calls it makes and whose branches are the answers it
    can get. [sat] is total correctness against an environment that promises something
    about its answers and asks something of each call; because the demand is checked
    before every call, a theorem about [sat] also speaks of a process that dies between
    two calls. [run_with] executes a program with a handler, [at_most] bounds its calls. *)

From S2P Require Import Prelude.
#[local] Open Scope rust_scope.

Section Free.
Context {E : Type} {ans : E → Type}.

Inductive free (A : Type) : Type :=
  | Ret (a : A)
  | Op (e : E) (k : ans e → free A).
Arguments Ret {A} a.
Arguments Op {A} e k.

#[global] Instance free_ret : MRet free := @Ret.
#[global] Instance free_bind : MBind free := λ A B f,
  fix bind m := match m with Ret a => f a | Op e k => Op e (λ x, bind (k x)) end.

Definition op (e : E) : free (ans e) := Op e Ret.

(** The [?] operator on a call that returns a [Result]. *)
Definition bind_ok {A B F} (m : free (result A F)) (k : A → free (result B F))
    : free (result B F) :=
  m ≫= λ r, match r with Ok a => k a | Err e => Ret (Err e) end.

(** [for x in l], threading what the body updates; the first error leaves the loop. *)
Fixpoint for_each_ok {A B F} (l : list A) (body : A → B → free (result B F)) (b : B)
    : free (result B F) :=
  match l with
  | [] => Ret (Ok b)
  | x :: l => bind_ok (body x b) (for_each_ok l body)
  end.

(** ** Total correctness *)

Record env (S : Type) := mk_env {
  may : S → E → Prop;                      (* what a call must have established *)
  does : S → ∀ e, ans e → S → Prop;        (* what the environment then answers *)
}.
Arguments mk_env {S} _ _.
Arguments may {S} _ _ _.
Arguments does {S} _ _ _ _ _.

Section Sat.
Context {S : Type} (V : env S).
Implicit Types s : S.

Fixpoint sat {A} (m : free A) (s : S) (Q : S → A → Prop) : Prop :=
  match m with
  | Ret a => Q s a
  | Op e k => may V s e ∧ ∀ x s', does V s e x s' → sat (k x) s' Q
  end.

Lemma sat_mono {A} (m : free A) s (P Q : S → A → Prop) :
  sat m s P → (∀ s' a, P s' a → Q s' a) → sat m s Q.
Proof.
  intros H HPQ. revert s H. induction m as [a|e k IH]; intros s; simpl; [auto|].
  intros [Hm Hk]. split; [done|]. intros x s' Hd. apply IH, Hk, Hd.
Qed.

Lemma sat_bind {A B} (m : free A) (k : A → free B) s (Q : S → B → Prop) :
  sat m s (λ s' a, sat (k a) s' Q) → sat (m ≫= k) s Q.
Proof.
  revert s. induction m as [a|e c IH]; intros s; simpl; [done|].
  intros [Hm Hk]. split; [done|]. intros x s' Hd. apply IH, Hk, Hd.
Qed.

Lemma sat_ret {A} (a : A) s (Q : S → A → Prop) : Q s a → sat (Ret a) s Q.
Proof. done. Qed.

Lemma sat_op e s (Q : S → ans e → Prop) :
  may V s e → (∀ x s', does V s e x s' → Q s' x) → sat (op e) s Q.
Proof. done. Qed.

Lemma sat_bind_ok {A B F} (m : free (result A F)) (k : A → free (result B F)) s
    (Q : S → result B F → Prop) :
  sat m s (λ s' r, match r with Ok a => sat (k a) s' Q | Err e => Q s' (Err e) end) →
  sat (bind_ok m k) s Q.
Proof. intros H. apply sat_bind. eapply sat_mono; [exact H|]. by intros s' [a|e]. Qed.

(** A call followed by the rest of the program. *)
Lemma sat_op_bind {B} e (k : ans e → free B) s (Q : S → B → Prop) :
  may V s e → (∀ x s', does V s e x s' → sat (k x) s' Q) → sat (op e ≫= k) s Q.
Proof. intros Hm Hk. apply sat_bind, sat_op; done. Qed.

Lemma sat_for_each_ok {A B F} (I : S → B → Prop) (Q : S → result B F → Prop) l
    (body : A → B → free (result B F)) s b :
  I s b →
  (∀ x s b, x ∈ l → I s b →
    sat (body x b) s (λ s' r, match r with Ok b' => I s' b' | Err e => Q s' (Err e) end)) →
  (∀ s b, I s b → Q s (Ok b)) → sat (for_each_ok l body b) s Q.
Proof.
  intros Hb Hbody HQ. revert s b Hb. induction l as [|x l IH]; intros s b Hb; simpl; [auto|].
  apply sat_bind_ok. eapply sat_mono; [apply Hbody; [by left|done]|].
  intros s' [b'|e] Hr; [|done]. apply IH; [|done]. intros y ???. apply Hbody. by right.
Qed.

(** The same, with what has been done so far. *)
Lemma sat_for_each_done {A B F} (I : list A → S → B → Prop) (Q : S → result B F → Prop) l
    (body : A → B → free (result B F)) s b :
  I [] s b →
  (∀ l1 x l2 s b, l = l1 ++ x :: l2 → I l1 s b →
    sat (body x b) s (λ s' r, match r with Ok b' => I (l1 ++ [x]) s' b' | Err e => Q s' (Err e) end)) →
  (∀ s b, I l s b → Q s (Ok b)) → sat (for_each_ok l body b) s Q.
Proof.
  intros Hb Hbody HQ. cut (∀ l2 l1 s b, l = l1 ++ l2 → I l1 s b → sat (for_each_ok l2 body b) s Q).
  { intros H. by apply (H l []). }
  induction l2 as [|x l2 IH]; intros l1 s1 b1 El HI; simpl.
  { rewrite app_nil_r in El. subst. auto. }
  apply sat_bind_ok. eapply sat_mono; [by eapply Hbody|].
  intros s' [b'|e] Hr; [|done]. apply (IH (l1 ++ [x])); [by rewrite <- app_assoc|done].
Qed.

(** What every answer keeps, a program keeps. *)
Lemma sat_always {A} (rel : S → S → Prop) `{!PreOrder rel} (m : free A) s (Q : S → A → Prop) :
  (∀ s e x s', does V s e x s' → rel s s') → sat m s Q → sat m s (λ s' a, Q s' a ∧ rel s s').
Proof.
  intros Hrel. revert s. induction m as [a|e k IH]; intros s; simpl; [done|].
  intros [Hm Hk]. split; [done|]. intros x s1 Hd. eapply sat_mono; [by apply IH, Hk|].
  intros s2 a [? ?]. split; [done|]. etransitivity; [by eapply Hrel|done].
Qed.

(** ** Executions, whole and interrupted *)

(** The program after some of its calls were answered. *)
Inductive partly_run {A} : free A → S → free A → S → Prop :=
  | partly_here m s : partly_run m s m s
  | partly_call e k s x s' m t :
      does V s e x s' → partly_run (k x) s' m t → partly_run (Op e k) s m t.

(** Whatever has been answered, what follows is still correct: so at each call the demand
    of the environment is met, and the result of a completed execution satisfies the
    postcondition. *)
Lemma sat_partly_run {A} (m : free A) s m' s' (Q : S → A → Prop) :
  sat m s Q → partly_run m s m' s' → sat m' s' Q.
Proof. intros H. induction 1; [done|]. destruct H as [_ H]. auto. Qed.

Lemma sat_interrupted {A} (m : free A) s (Q : S → A → Prop) e k s' :
  sat m s Q → partly_run m s (Op e k) s' → may V s' e.
Proof. intros H Hx. by destruct (sat_partly_run _ _ _ _ _ H Hx). Qed.
End Sat.

(** ** Programs confined to some effects *)

Fixpoint within {A} (R : E → Prop) (m : free A) : Prop :=
  match m with Ret _ => True | Op e k => R e ∧ ∀ x, within R (k x) end.

Lemma within_bind {A B} R (m : free A) (k : A → free B) :
  within R m → (∀ a, within R (k a)) → within R (m ≫= k).
Proof. intros Hm Hk. induction m as [a|e c IH]; simpl in *; [done|]. naive_solver. Qed.

Lemma within_bind_ok {A B F} R (m : free (result A F)) (k : A → free (result B F)) :
  within R m → (∀ a, within R (k a)) → within R (bind_ok m k).
Proof. intros Hm Hk. apply within_bind; [done|]. by intros [a|e]. Qed.

Lemma within_for_each_ok {A B F} R (l : list A) (body : A → B → free (result B F)) b :
  (∀ x b, within R (body x b)) → within R (for_each_ok l body b).
Proof.
  intros Hbody. revert b. induction l as [|x l IH]; intros b; [done|].
  apply within_bind_ok; auto.
Qed.

Lemma within_mono {A} (R R' : E → Prop) (m : free A) :
  (∀ e, R e → R' e) → within R m → within R' m.
Proof. intros HR Hm. induction m as [a|e c IH]; simpl in *; [done|]. naive_solver. Qed.

(** A confined program keeps what each of those effects keeps. *)
Lemma sat_within {S A} (V : env S) (R : E → Prop) (I : S → Prop) (rel : S → S → Prop)
    `{!PreOrder rel} (m : free A) s :
  (∀ s e, I s → R e → may V s e) →
  (∀ s e x s', I s → R e → does V s e x s' → I s' ∧ rel s s') →
  within R m → I s → sat V m s (λ s' _, I s' ∧ rel s s').
Proof.
  intros Hmay Hdoes. revert s. induction m as [a|e k IH]; intros s Hm Hs; simpl; [done|].
  destruct Hm as [He Hk]. split; [auto|]. intros x s1 Hd.
  destruct (Hdoes _ _ _ _ Hs He Hd) as [Hs1 Hr].
  eapply sat_mono; [by apply IH|]. intros s2 _ [? ?]. split; [done|by etransitivity].
Qed.

(** ** Handlers

    A handler answers the calls on a world of its own; [None] is a call it does not
    survive. *)

Fixpoint run_with {W A} (h : ∀ e, W → option (W * ans e)) (m : free A) (w : W)
    : option (W * A) :=
  match m with
  | Ret a => Some (w, a)
  | Op e k => match h e w with Some (w', x) => run_with h (k x) w' | None => None end
  end.

(** A handler that keeps the promises of the environment through a view of its world. *)
Definition keeps_promises {W S} (V : env S) (view : W → S) (h : ∀ e, W → option (W * ans e))
    : Prop :=
  ∀ e w, may V (view w) e →
    ∃ w' x, h e w = Some (w', x) ∧ does V (view w) e x (view w').

(** Then a correct program runs to its end, and what it was proved to do, it does. *)
Lemma sat_run_with {W S A} (V : env S) (view : W → S) h (m : free A) w (Q : S → A → Prop) :
  keeps_promises V view h → sat V m (view w) Q →
  ∃ w' a, run_with h m w = Some (w', a) ∧ Q (view w') a.
Proof.
  intros Hh. revert w. induction m as [a|e k IH]; intros w; simpl; [eauto|].
  intros [Hm Hk]. destruct (Hh e w Hm) as (w' & x & Hx & Hd). rewrite Hx. apply IH, Hk, Hd.
Qed.

Lemma run_with_bind {W A B} (h : ∀ e, W → option (W * ans e)) (m : free A) (k : A → free B) w :
  run_with h (m ≫= k) w =
  match run_with h m w with Some (w', a) => run_with h (k a) w' | None => None end.
Proof.
  revert w. induction m as [a|e c IH]; intros w; simpl; [done|].
  destruct (h e w) as [[w' x]|]; [apply IH|done].
Qed.

(** The first calls only. *)
Fixpoint run_for {W A} (n : nat) (h : ∀ e, W → option (W * ans e)) (m : free A) (w : W)
    : option (free A * W) :=
  match n, m with
  | S n, Op e k => match h e w with Some (w', x) => run_for n h (k x) w' | None => None end
  | _, _ => Some (m, w)
  end.

Lemma run_for_partly {W S A} (V : env S) (view : W → S) h n (m m' : free A) w w' :
  (∀ e w w' x, h e w = Some (w', x) → does V (view w) e x (view w')) →
  run_for n h m w = Some (m', w') → partly_run V m (view w) m' (view w').
Proof.
  intros Hh. revert m w. induction n as [|n IH]; intros m w; simpl.
  { intros [= <- <-]. constructor. }
  destruct m as [a|e k]; [intros [= <- <-]; constructor|].
  destruct (h e w) as [[w1 x]|] eqn:Hx; [|done]. intros Hr.
  econstructor; [by apply Hh|]. by apply IH.
Qed.

(** An execution to the end, seen through [f]. *)
Lemma run_for_end {W S A B} (V : env S) (view : W → S) h (f : W → B) n (m : free A) w a b :
  (∀ e w w' x, h e w = Some (w', x) → does V (view w) e x (view w')) →
  match run_for n h m w with Some (Ret a', w') => Some (a', f w') | _ => None end = Some (a, b) →
  ∃ w', partly_run V m (view w) (Ret a) (view w') ∧ f w' = b.
Proof.
  intros Hh. destruct (run_for n h m w) as [[m' w']|] eqn:Hr; [|done]. destruct m' as [a'|]; [|done].
  intros [= <- <-]. exists w'. split; [|done]. by eapply run_for_partly.
Qed.

(** The call an execution has come to. *)
Lemma run_for_call {W S A} (V : env S) (view : W → S) h n (m : free A) w e :
  (∀ e w w' x, h e w = Some (w', x) → does V (view w) e x (view w')) →
  match run_for n h m w with Some (Op e' _, _) => Some e' | _ => None end = Some e →
  ∃ k w', partly_run V m (view w) (Op e k) (view w').
Proof.
  intros Hh. destruct (run_for n h m w) as [[m' w']|] eqn:Hr; [|done]. destruct m' as [|e' k]; [done|].
  intros [= <-]. exists k, w'. by eapply run_for_partly.
Qed.

(** A handler that keeps its promises where they are asked for, on a correct program. *)
Lemma run_for_partly_sat {W S A} (V : env S) (view : W → S) h n (m m' : free A) w w' (Q : S → A → Prop) :
  keeps_promises V view h → sat V m (view w) Q →
  run_for n h m w = Some (m', w') → partly_run V m (view w) m' (view w').
Proof.
  intros Hh. revert m w. induction n as [|n IH]; intros m w; simpl.
  { intros _ [= <- <-]. constructor. }
  destruct m as [a|e k]; [intros _ [= <- <-]; constructor|]. intros [Hm Hk].
  destruct (Hh e w Hm) as (w1 & x & Hx & Hd). rewrite Hx. intros Hr.
  econstructor; [exact Hd|]. apply IH; [|done]. by apply Hk.
Qed.

(** ** Counting calls *)

(** On no branch more than [n] calls of a kind. *)
Fixpoint at_most {A} (P : E → bool) (n : nat) (m : free A) : Prop :=
  match m with
  | Ret _ => True
  | Op e k =>
      if P e then match n with O => False | S n => ∀ x, at_most P n (k x) end
      else ∀ x, at_most P n (k x)
  end.

Lemma at_most_mono {A} P n n' (m : free A) : (n ≤ n')%nat → at_most P n m → at_most P n' m.
Proof.
  revert n n'. induction m as [a|e k IH]; intros n n' Hn; simpl; [done|].
  destruct (P e); [|by eauto]. destruct n as [|n]; [done|]. destruct n' as [|n']; [lia|].
  intros H x. eapply IH; [|apply H]. lia.
Qed.

Lemma at_most_bind {A B} P n n' (m : free A) (k : A → free B) :
  at_most P n m → (∀ a, at_most P n' (k a)) → at_most P (n + n') (m ≫= k).
Proof.
  intros Hm Hk. revert n Hm. induction m as [a|e c IH]; intros n Hm; simpl in *.
  - eapply at_most_mono; [|apply Hk]. lia.
  - destruct (P e); [|by auto]. destruct n as [|n]; [done|]. simpl. auto.
Qed.

Lemma at_most_bind_ok {A B F} P n n' (m : free (result A F)) (k : A → free (result B F)) :
  at_most P n m → (∀ a, at_most P n' (k a)) → at_most P (n + n') (bind_ok m k).
Proof. intros Hm Hk. apply at_most_bind; [done|]. by intros [a|e]. Qed.

(** Every value a program can return. *)
Fixpoint returns {A} (R : A → Prop) (m : free A) : Prop :=
  match m with Ret a => R a | Op e k => ∀ x, returns R (k x) end.

Lemma returns_bind {A B} (R : B → Prop) (m : free A) (k : A → free B) :
  (∀ a, returns R (k a)) → returns R (m ≫= k).
Proof. intros Hk. induction m as [a|e c IH]; simpl; [done|]. auto. Qed.

Lemma sat_returns {S A} (V : env S) (R : A → Prop) (m : free A) s (Q : S → A → Prop) :
  returns R m → sat V m s Q → sat V m s (λ s' a, Q s' a ∧ R a).
Proof.
  revert s. induction m as [a|e k IH]; intros s; simpl; [done|]. intros Hr [Hm Hk].
  split; [done|]. intros x s' Hd. auto.
Qed.

Lemma at_most_bind_returns {A B} P n n' (R : A → Prop) (m : free A) (k : A → free B) :
  at_most P n m → returns R m → (∀ a, R a → at_most P n' (k a)) → at_most P (n + n') (m ≫= k).
Proof.
  intros Hm Hr Hk. revert n Hm. induction m as [a|e c IH]; intros n Hm; simpl in *.
  - eapply at_most_mono; [|by apply Hk]. lia.
  - destruct (P e); [|by auto]. destruct n as [|n]; [done|]. simpl. auto.
Qed.

Lemma at_most_for_each_ok {A B F} P n (l : list A) (body : A → B → free (result B F)) b :
  (∀ x b, at_most P n (body x b)) → at_most P (length l * n) (for_each_ok l body b).
Proof.
  intros Hbody. revert b. induction l as [|x l IH]; intros b; [done|]. simpl.
  apply at_most_bind_ok; auto.
Qed.

Lemma within_at_most {A} (R : E → Prop) P (m : free A) :
  (∀ e, R e → P e = false) → within R m → at_most P 0 m.
Proof.
  intros HR. induction m as [a|e k IH]; simpl; [done|]. intros [He Hk].
  rewrite (HR e He). auto.
Qed.
End Free.

Arguments free {E} ans A.
Arguments Ret {E ans A} a.
Arguments Op {E ans A} e k.
Arguments op {E ans} e.
Arguments env {E} ans S.
Arguments mk_env {E ans S} _ _.
Arguments may {E ans S} _ _ _.
Arguments does {E ans S} _ _ _ _ _.
Arguments sat {E ans S} V {A} m s Q : simpl never.
Arguments bind_ok {E ans A B F} m k : simpl never.

Notation "x '←?' m ; k" := (bind_ok m (λ x, k))
  (at level 20, m at level 100, k at level 200, only parsing) : rust_scope.
Notation "' x '←?' m ; k" := (bind_ok m (λ x, k))
  (at level 20, x pattern, m at level 100, k at level 200, only parsing) : rust_scope.

(** Confinement is read off the program; [tac] answers for the calls. *)
Ltac within_step tac :=
  match goal with
  | |- within _ (bind_ok _ _) => apply within_bind_ok
  | |- within _ (_ ≫= _) => apply within_bind
  | |- within _ (for_each_ok _ _ _) => apply within_for_each_ok
  | |- within _ (op _) => split; [tac|done]
  | |- within _ (Ret _) => exact I
  | |- within _ (mret _) => exact I
  | |- within _ (if ?b then _ else _) => destruct b
  | |- within _ (match ?x with _ => _ end) => destruct x
  | |- ∀ _, _ => intros ?
  end.

(** One step of a correctness proof: the rule for the head of the program. *)
Ltac sat_step :=
  match goal with
  | |- sat _ (op _ ≫= _) _ _ => apply sat_op_bind
  | |- sat _ (bind_ok _ _) _ _ => apply sat_bind_ok
  | |- sat _ (_ ≫= _) _ _ => apply sat_bind
  | |- sat _ (op _) _ _ => apply sat_op
  | |- sat _ (Ret _) _ _ => apply sat_ret
  | |- sat _ (mret _) _ _ => apply sat_ret
  end; cbn beta iota.
