(* ===== verification/Tasks.v ===== *)
(** * Tasks that share a world

    Several programs of [Effects] run at once on one world: any task may make its next
    call, the world may move on its own, and new tasks may start. [task_env] is a task's
    own view, in which the others may act after each of its calls, as far as [rely] lets
    them. When each task's calls stay within what the others rely on, what was proved of
    each task alone holds of all of them together. *)

From Stdlib Require Import Relations.
From S2P Require Import Prelude Effects.
#[local] Open Scope rust_scope.

Section Tasks.
Context {E : Type} {ans : E → Type} {S A : Type}.
(** The program each task has still to run. *)
Definition pool : Type := nat → free ans A.
Implicit Types (s : S) (p : pool) (i j : nat).
Definition set_task i (m : free ans A) p : pool := λ j, if decide (j = i) then m else p j.

(** What a call must have established, what it does, and what moves by itself. *)
Context (asks : nat → S → E → Prop) (act : nat → S → ∀ e, ans e → S → Prop) (tick : S → S → Prop).

Inductive pool_step : pool * S → pool * S → Prop :=
  | step_call p s i e k x s' :
      p i = Op e k → act i s e x s' → pool_step (p, s) (set_task i (k x) p, s')
  | step_tick p s s' : tick s s' → pool_step (p, s) (p, s').

Context (rely : nat → S → S → Prop).
Definition task_env i : env ans S :=
  mk_env (asks i) (λ s e x s', ∃ s1, act i s e x s1 ∧ rely i s1 s').

Context (Q : nat → S → A → Prop).
(** Correct, whatever the others have done meanwhile. *)
Definition settled i (m : free ans A) s : Prop := ∀ s', rely i s s' → sat (task_env i) m s' (Q i).
Definition all_settled (c : pool * S) : Prop := ∀ i, settled i (c.1 i) c.2.

Context {rely_preorder : ∀ i, PreOrder (rely i)}.
Context (act_rely : ∀ i j s e x s', i ≠ j → asks i s e → act i s e x s' → rely j s s').
Context (tick_rely : ∀ j s s', tick s s' → rely j s s').

Lemma settled_rely i m s s' : rely i s s' → settled i m s → settled i m s'.
Proof. intros Hr H s2 Hr2. apply H. by etransitivity. Qed.

Lemma settled_asks i e k s : settled i (Op e k) s → asks i s e.
Proof. intros H. by destruct (H s) as [? _]. Qed.

Lemma settled_returned i a s : settled i (Ret a) s → Q i s a.
Proof. intros H. by apply (H s). Qed.

Lemma pool_step_settled c c' : pool_step c c' → all_settled c → all_settled c'.
Proof.
  intros [p s i e k x s' Hi Ha|p s s' Ht] H j; simpl.
  - pose proof (H i) as Hs. simpl in Hs. rewrite Hi in Hs. unfold set_task.
    destruct (decide (j = i)) as [->|Hij].
    + intros s2 Hr. destruct (Hs s) as [_ Hk]; [done|]. apply Hk. by exists s'.
    + eapply settled_rely; [eapply act_rely; [done|by eapply settled_asks|done]|apply (H j)].
  - eapply settled_rely; [by apply tick_rely|apply (H j)].
Qed.

(** In every reachable configuration the next call of each task has its demand met, and
    each finished task has what was promised of its result. *)
Lemma pool_sound c c' : clos_refl_trans_1n _ pool_step c c' → all_settled c →
  ∀ i, match c'.1 i with Op e k => asks i c'.2 e | Ret a => Q i c'.2 a end.
Proof.
  intros Hc H. assert (all_settled c') as H'.
  { clear -Hc H act_rely tick_rely rely_preorder. induction Hc; [done|].
    apply IHHc. by eapply pool_step_settled. }
  intros i. specialize (H' i). destruct (c'.1 i) as [a|e k]; [by eapply settled_returned|by eapply settled_asks].
Qed.
End Tasks.

(** ** Schedules, executed *)

Section Play.
Context {E : Type} {ans : E → Type} {S A : Type}.
Context (act : nat → S → ∀ e, ans e → S → Prop) (tick : S → S → Prop).
Context (handler : nat → S → ∀ e, option (S * ans e)).
#[local] Abbreviation config := (pool (ans := ans) (A := A) * S)%type.

(** A task makes its next call; and a list of such turns. *)
Definition turn (i : nat) (c : config) : option config :=
  match c.1 i with
  | Ret _ => None
  | Op e k => match handler i c.2 e with Some (s, x) => Some (set_task i (k x) c.1, s) | None => None end
  end.
Fixpoint play (schedule : list nat) (c : config) : option config :=
  match schedule with [] => Some c | i :: schedule => turn i c ≫= play schedule end.

(** Where the handler is one the world allows. *)
Context (I : S → Prop).
Context (handler_acts : ∀ i s e s' x, I s → handler i s e = Some (s', x) → act i s e x s' ∧ I s').
Lemma play_steps schedule c c' : I c.2 → play schedule c = Some c' → clos_refl_trans_1n _ (pool_step act tick) c c'.
Proof.
  revert c. induction schedule as [|i schedule IH]; intros c Hc; simpl; [by intros [= <-]; constructor|].
  destruct (turn i c) as [c1|] eqn:Et; [|done]. simpl. intros Hp. unfold turn in Et. destruct c as [p s]. simpl in Et, Hc.
  destruct (p i) as [|e k] eqn:Ei; [done|]. destruct (handler i s e) as [[s' x]|] eqn:En; [|done]. injection Et as <-.
  destruct (handler_acts i s e s' x Hc En) as [Ha Hs'].
  apply (Relation_Operators.rt1n_trans _ _ _ (set_task i (k x) p, s')); [by apply (step_call act tick p s i e k x s')|by apply IH].
Qed.
Lemma play_reaches {B} (f : config → B) schedule c y : I c.2 → f <$> play schedule c = Some y →
  ∃ c', clos_refl_trans_1n _ (pool_step act tick) c c' ∧ f c' = y.
Proof.
  intros Hc. destruct (play schedule c) as [c'|] eqn:Ep; [|done]. intros [= <-]. exists c'.
  split; [by apply (play_steps schedule)|done].
Qed.
End Play.
