(* ===== verification/Http.v ===== *)
(** * Requests, responses and failures ([crates/github/src/lib.rs], [rest.rs])

    What the rest of the GitHub crate reads of HTTP: requests with their cache keys and
    validators, responses with their headers, the [Link] header, the failure taxonomy,
    and which failures are GitHub's rate limits. A header value is its text, or [None]
    when it is not visible ASCII; bodies are uninterpreted and JSON is a parameter where
    it is read. *)

From stdpp Require Import strings.
From S2P Require Import Prelude RustStr Ordered Model Labels Policy Github.
#[local] Open Scope Z_scope.
#[local] Open Scope rust_scope.

(** ** Headers *)

(** [HeaderMap]: names are lower case; [get] answers the first value. *)
#[global] Abbreviation HeaderMap := (list (str * option str)).

Definition contains_key (name : str) (h : HeaderMap) : bool :=
  existsb (λ nv, str_eqb nv.1 name) h.
(** [get(name)] and [to_str], as text. *)
Definition header_text (name : str) (h : HeaderMap) : option str :=
  match List.find (λ nv, str_eqb nv.1 name) h with Some nv => nv.2 | None => None end.
Definition header_number (name : str) (h : HeaderMap) : option Z :=
  v ← header_text name h; parse_uint U64_MAX (trim v).

(** [retry_after]: integer seconds only. *)
Definition retry_after_header (h : HeaderMap) : option Duration :=
  seconds <$> header_number (lit "retry-after") h.

(** ** Requests and responses *)

Record Validators := mk_validators { etag : option str; last_modified : option str }.
#[global] Instance Validators_eq_dec : EqDecision Validators.
Proof. solve_decision. Defined.
Definition validators_empty (v : Validators) : bool :=
  bool_decide (etag v = None) && bool_decide (last_modified v = None).

Inductive Method := GET | POST | DELETE.
#[global] Instance Method_eq_dec : EqDecision Method.
Proof. solve_decision. Defined.
Definition method_text (m : Method) : str :=
  lit (match m with GET => "GET" | POST => "POST" | DELETE => "DELETE" end).

Record ApiRequest := mk_request {
  rq_method : Method;
  rq_path : str;
  rq_query : list (str * str);
  rq_body : option str;
  rq_validators : option Validators;
}.
#[global] Instance ApiRequest_eq_dec : EqDecision ApiRequest.
Proof. solve_decision. Defined.
Definition api_new (m : Method) (path : str) : ApiRequest := mk_request m path [] None None.
Definition api_get (path : str) : ApiRequest := api_new GET path.
Definition api_query (key value : str) (r : ApiRequest) : ApiRequest :=
  mk_request (rq_method r) (rq_path r) (rq_query r ++ [(key, value)]) (rq_body r) (rq_validators r).
Definition conditional (v : Validators) (r : ApiRequest) : ApiRequest :=
  mk_request (rq_method r) (rq_path r) (rq_query r) (rq_body r)
    (if validators_empty v then None else Some v).
Definition is_conditional (r : ApiRequest) : bool := bool_decide (is_Some (rq_validators r)).

Fixpoint query_text (sep : str) (query : list (str * str)) : str :=
  match query with
  | [] => []
  | (name, value) :: query => sep ++ name ++ lit "=" ++ value ++ query_text (lit "&") query
  end.
Definition cache_key (r : ApiRequest) : str :=
  method_text (rq_method r) ++ lit " " ++ rq_path r ++ query_text (lit "?") (rq_query r).

Record ApiResponse := mk_response { rs_status : Z; rs_headers : HeaderMap; rs_body : str }.
#[global] Instance ApiResponse_eq_dec : EqDecision ApiResponse.
Proof. solve_decision. Defined.
Definition is_success (status : Z) : bool := bool_decide (200 ≤ status < 300).
Definition NOT_MODIFIED : Z := 304.
Definition UNAUTHORIZED : Z := 401.
Definition FORBIDDEN : Z := 403.
Definition TOO_MANY_REQUESTS : Z := 429.
Definition is_not_modified (r : ApiResponse) : bool := bool_decide (rs_status r = NOT_MODIFIED).
Definition response_header (name : str) (r : ApiResponse) : option str :=
  header_text name (rs_headers r).

Definition validator_header (name : str) (r : ApiResponse) : option str :=
  v ← response_header name r; if bool_decide (trim v = []) then None else Some (trim v).
Definition Validators_of (r : ApiResponse) : Validators :=
  mk_validators (validator_header (lit "etag") r) (validator_header (lit "last-modified") r).

(** ** The [Link] header *)

(** The parameters of a link-value, and what follows: the text is cut at the first comma
    that begins another link-value. *)
Fixpoint cut_params (tail : str) : str * str :=
  match tail with
  | [] => ([], [])
  | c :: rest =>
      if (c =? ch ",")%N && starts_with (lit "<") (trim_start rest) then ([], tail)
      else let '(params, next) := cut_params rest in (c :: params, next)
  end.
Definition quote (c : char) : bool := (c =? 34)%N || (c =? 39)%N.
Definition is_rel_next (params : str) : bool :=
  existsb (λ param, eq_ignore_ascii_case (List.filter (λ c, negb (quote c)) (trim param)) (lit "rel=next"))
    (split_on (N.eqb (ch ";")) params).

Section Link.
(** [Url::parse], as the text of the URL. *)
Context (parse_url : str → option str).

Fixpoint parse_link (fuel : nat) (rest : str) : option str :=
  match fuel with
  | O => None
  | S fuel =>
      match split_once (ch "<") rest with
      | None => None
      | Some (_, after_open) =>
          match split_once (ch ">") after_open with
          | None => None
          | Some (target, tail) =>
              let '(params, next) := cut_params tail in
              if is_rel_next params then parse_url (trim target)
              else parse_link fuel (default next (strip_prefix (lit ",") next))
          end
      end
  end.
(** Each turn consumes at least the two angle brackets. *)
Definition parse_link_next (link : str) : option str := parse_link (S (length link)) link.
Definition next_page (r : ApiResponse) : option str :=
  link ← response_header (lit "link") r; parse_link_next link.
End Link.

(** ** Failures *)

Inductive GithubError :=
  | AuthenticationFailed
  | AuthenticationLockout (retry_after : Duration)
  | Forbidden (method path : str) (message : option str) (headers : HeaderMap)
  | Status (status : Z) (method path : str) (message : option str) (headers : HeaderMap)
  | Transport
  | Decode
  | Malformed (what value : str)
  | Config (reason : str).
#[global] Instance GithubError_eq_dec : EqDecision GithubError.
Proof. solve_decision. Defined.

Inductive InventoryError :=
  | InvRateLimited (limit : RateLimited)
  | InvCancelled
  | InvGithub (error : GithubError).

Definition error_headers (e : GithubError) : option HeaderMap :=
  match e with
  | Status _ _ _ _ headers | Forbidden _ _ _ headers => Some headers
  | _ => None
  end.
Definition error_retry_after (e : GithubError) : option Duration :=
  h ← error_headers e; retry_after_header h.

Record RateLimitEvidence := mk_evidence {
  ev_remaining : option Z;
  ev_reset_unix_secs : option Z;
  ev_retry_after : option Duration;
}.
Definition error_rate_limit (e : GithubError) : option RateLimitEvidence :=
  headers ← error_headers e;
  let remaining := header_number (lit "x-ratelimit-remaining") headers in
  let reset := header_number (lit "x-ratelimit-reset") headers in
  if bool_decide (remaining = None) && bool_decide (reset = None) then None
  else Some (mk_evidence remaining reset (error_retry_after e)).

Definition says_rate_limit (message : option str) : bool :=
  from_option (λ m, contains_str (lit "rate limit") (to_ascii_lowercase m)) false message.

(** [RateLimited::detect]: whether it is a limit at all, then which. *)
Definition detect (e : GithubError) : option RateLimited :=
  found ← (match e with
           | Status status _ _ message _ => Some (status, message)
           | Forbidden _ _ message _ => Some (FORBIDDEN, message)
           | _ => None
           end);
  let '(status, message) := (found : Z * option str) in
  if negb (bool_decide (status = FORBIDDEN) || bool_decide (status = TOO_MANY_REQUESTS)) then None
  else
    let evidence := error_rate_limit e in
    let remaining := evidence ≫= ev_remaining in
    if negb (bool_decide (status = TOO_MANY_REQUESTS)) && negb (says_rate_limit message) then None
    else
      let kind := if bool_decide (remaining = Some 0) then Primary else Secondary in
      Some (mk_limited kind (error_retry_after e) remaining (evidence ≫= ev_reset_unix_secs)).

Section FromError.
(** [Display] of an error. *)
Context (error_text : GithubError → str).

(** [RefreshState::from_error]. *)
Definition from_error (e : InventoryError) : RefreshState :=
  match e with
  | InvRateLimited limit => RRateLimited limit
  | InvCancelled => RCancelled
  | InvGithub github =>
      match github with
      | AuthenticationFailed => RUnauthorized
      | AuthenticationLockout retry_after => RLockedOut retry_after
      | Forbidden _ _ message _ => RForbidden message
      | Transport => ROffline
      | Status status _ _ _ _ => RFailed (Some status) (error_text github)
      | other => RFailed None (error_text other)
      end
  end.
End FromError.
