(* ===== verification/Traffic.v ===== *)
(** * The traffic ledger ([crates/github/src/traffic.rs])

    Responses counted by class in a ring of sixty one-minute buckets, the newest reading
    of the hourly quota, and the summary of the last hour. *)

From stdpp Require Import strings.
From S2P Require Import Prelude RustStr Ordered Model Labels Policy Github Http.
#[local] Open Scope Z_scope.
#[local] Open Scope rust_scope.

Definition SECONDARY_POINTS_PER_MINUTE : Z := 900.
Definition WINDOW_MINUTES : Z := 60.

(** [RateLimitSnapshot::from_headers]: the [core] quota only, and only when whole. *)
Definition snapshot_from_headers (h : HeaderMap) (now : Timestamp) : option RateLimitSnapshot :=
  if from_option (λ r, negb (eq_ignore_ascii_case (trim r) (lit "core"))) false
       (header_text (lit "x-ratelimit-resource") h)
  then None
  else
    limit ← header_number (lit "x-ratelimit-limit") h;
    remaining ← header_number (lit "x-ratelimit-remaining") h;
    let used := header_number (lit "x-ratelimit-used") h in
    reset ← header_number (lit "x-ratelimit-reset") h;
    Some (mk_snapshot limit remaining used reset now).

Record Minute := mk_minute {
  epoch_minute : Z;   (* i64 *)
  mn_full : Z;        (* u32 *)
  mn_not_modified : Z;
  mn_failed : Z;
}.
Definition Minute_default : Minute := mk_minute 0 0 0 0.
Definition Minute_total (m : Minute) : Z :=
  sat_add U32_MAX (sat_add U32_MAX (mn_full m) (mn_not_modified m)) (mn_failed m).

Record ApiTraffic := mk_traffic {
  minutes : list Minute;   (* [Minute; 60] *)
  first_seen : option Timestamp;
  latest : option RateLimitSnapshot;
}.
Definition ApiTraffic_new : ApiTraffic :=
  mk_traffic (replicate (Z.to_nat WINDOW_MINUTES) Minute_default) None None.

Definition minute_of (now : Timestamp) : Z := timestamp now / 60.
Definition slot_of (minute : Z) : nat := Z.to_nat (minute mod WINDOW_MINUTES).

(** One response counted in its bucket, which is emptied first when it is an old one. *)
Definition count_in (status minute : Z) (bucket : Minute) : Minute :=
  let b := if bool_decide (epoch_minute bucket ≠ minute)
           then mk_minute minute 0 0 0 else bucket in
  if bool_decide (status = NOT_MODIFIED)
  then mk_minute (epoch_minute b) (mn_full b) (sat_add U32_MAX (mn_not_modified b) 1) (mn_failed b)
  else if is_success status
  then mk_minute (epoch_minute b) (sat_add U32_MAX (mn_full b) 1) (mn_not_modified b) (mn_failed b)
  else mk_minute (epoch_minute b) (mn_full b) (mn_not_modified b) (sat_add U32_MAX (mn_failed b) 1).

Definition traffic_record (status : Z) (h : HeaderMap) (now : Timestamp) (t : ApiTraffic) : ApiTraffic :=
  let snapshot := if is_success status || bool_decide (status = NOT_MODIFIED)
                  then snapshot_from_headers h now else None in
  let minute := minute_of now in
  mk_traffic (alter (count_in status minute) (slot_of minute) (minutes t))
    (Some (default now (first_seen t)))
    (match snapshot with Some s => Some s | None => latest t end).
Definition latest_rate_limit (t : ApiTraffic) : option RateLimitSnapshot := latest t.

Record TrafficSummary := mk_summary {
  observed_minutes : Z;
  ts_full : Z;
  ts_not_modified : Z;
  ts_failed : Z;
  peak_requests_per_minute : Z;
  ts_rate_limit : option RateLimitSnapshot;
}.

(** Strictly inside the last hour, the current minute included. *)
Definition in_window (current minute : Z) : bool :=
  bool_decide (current - WINDOW_MINUTES < minute ≤ current).
Definition add_minute (current : Z) (s : TrafficSummary) (m : Minute) : TrafficSummary :=
  if in_window current (epoch_minute m)
  then mk_summary (observed_minutes s) (sat_add U32_MAX (ts_full s) (mn_full m))
         (sat_add U32_MAX (ts_not_modified s) (mn_not_modified m))
         (sat_add U32_MAX (ts_failed s) (mn_failed m))
         (Z.max (peak_requests_per_minute s) (Minute_total m)) (ts_rate_limit s)
  else s.
Definition traffic_summary (t : ApiTraffic) (now : Timestamp) : TrafficSummary :=
  let current := minute_of now in
  let s := fold_left (add_minute current) (minutes t) (mk_summary 0 0 0 0 0 (latest t)) in
  mk_summary
    (match first_seen t with
     | None => 0
     | Some first => clamp (current - minute_of first + 1) 0 WINDOW_MINUTES
     end)
    (ts_full s) (ts_not_modified s) (ts_failed s) (peak_requests_per_minute s) (ts_rate_limit s).

Definition TrafficSummary_total (s : TrafficSummary) : Z :=
  sat_add U32_MAX (sat_add U32_MAX (ts_full s) (ts_not_modified s)) (ts_failed s).
Definition not_modified_percent (s : TrafficSummary) : option Z :=
  let total := TrafficSummary_total s in
  if bool_decide (0 < total)
  then Some (if bool_decide (ts_not_modified s * 100 / total ≤ U32_MAX)
             then ts_not_modified s * 100 / total else 100)
  else None.
Definition per_hour (s : TrafficSummary) (count : Z) : Z :=
  if bool_decide (observed_minutes s = 0) then 0 else Z.min (count * 60 / observed_minutes s) U32_MAX.
Definition secondary_share_percent (requests_per_minute : Z) : Z :=
  sat_mul U32_MAX requests_per_minute 100 / SECONDARY_POINTS_PER_MINUTE.

(** ** The ledger against the history it saw *)

Record exchange := mk_exchange { ex_status : Z; ex_headers : HeaderMap; ex_at : Timestamp }.
Definition ledger (hs : list exchange) : ApiTraffic :=
  fold_left (λ t e, traffic_record (ex_status e) (ex_headers e) (ex_at e) t) hs ApiTraffic_new.
Definition ex_minute (e : exchange) : Z := minute_of (ex_at e).

(** The classes a response is counted in. *)
Inductive class := CFull | CNotModified | CFailed.
#[global] Instance class_eq_dec : EqDecision class.
Proof. solve_decision. Defined.
Definition class_of (status : Z) : class :=
  if bool_decide (status = NOT_MODIFIED) then CNotModified
  else if is_success status then CFull else CFailed.
Definition counted (c : class) (m : Minute) : Z :=
  match c with CFull => mn_full m | CNotModified => mn_not_modified m | CFailed => mn_failed m end.
Definition summed (c : class) (s : TrafficSummary) : Z :=
  match c with CFull => ts_full s | CNotModified => ts_not_modified s | CFailed => ts_failed s end.

(** How many of a class there were in the minutes that satisfy [P], up to [u32]. *)
Definition occurrences (c : class) (P : Z → bool) (hs : list exchange) : Z :=
  Z.of_nat (length (List.filter (λ e, P (ex_minute e) && bool_decide (class_of (ex_status e) = c)) hs)).

Lemma occurrences_snoc c P hs e :
  occurrences c P (hs ++ [e]) =
  occurrences c P hs + (if P (ex_minute e) && bool_decide (class_of (ex_status e) = c) then 1 else 0).
Proof.
  unfold occurrences. rewrite List.filter_app, length_app. simpl.
  destruct (_ && _); simpl; lia.
Qed.
Lemma occurrences_nonneg c P hs : 0 ≤ occurrences c P hs.
Proof. unfold occurrences. lia. Qed.
Lemma occurrences_none c P hs :
  (∀ e, e ∈ hs → P (ex_minute e) = false) → occurrences c P hs = 0.
Proof.
  intros H. induction hs as [|e hs IH] using rev_ind; [done|].
  rewrite occurrences_snoc, IH by set_solver. rewrite H by set_solver. done.
Qed.
Lemma occurrences_ext c P Q hs :
  (∀ e, e ∈ hs → P (ex_minute e) = Q (ex_minute e)) → occurrences c P hs = occurrences c Q hs.
Proof.
  intros H. induction hs as [|e hs IH] using rev_ind; [done|].
  rewrite !occurrences_snoc, IH by set_solver. by rewrite H by set_solver.
Qed.

Definition ordered (hs : list exchange) : Prop :=
  ∀ i j e e', hs !! i = Some e → hs !! j = Some e' → (i ≤ j)%nat → ex_minute e ≤ ex_minute e'.
Lemma ordered_snoc hs e : ordered (hs ++ [e]) → ordered hs ∧ ∀ e', e' ∈ hs → ex_minute e' ≤ ex_minute e.
Proof.
  intros H. split.
  - intros i j x y Hi Hj. apply H; by apply lookup_app_l_Some.
  - intros e' [i Hi]%list_elem_of_lookup_1. apply (H i (length hs)).
    + by apply lookup_app_l_Some.
    + rewrite lookup_app_r, Nat.sub_diag by lia. done.
    + apply lookup_lt_Some in Hi. lia.
Qed.

(** The bucket of a slot: untouched, or that of the latest minute counted there. *)
Definition in_slot (slot : nat) (minute : Z) : bool := bool_decide (slot_of minute = slot).
Definition bucket_of (slot : nat) (hs : list exchange) (m : Minute) : Prop :=
  (m = Minute_default ∧ ∀ e, e ∈ hs → in_slot slot (ex_minute e) = false) ∨
  (in_slot slot (epoch_minute m) = true ∧ (∃ e, e ∈ hs ∧ ex_minute e = epoch_minute m) ∧
   (∀ e, e ∈ hs → in_slot slot (ex_minute e) = true → ex_minute e ≤ epoch_minute m) ∧
   ∀ c, counted c m = Z.min U32_MAX (occurrences c (λ n, bool_decide (n = epoch_minute m)) hs)).

Lemma count_in_counted status minute m c :
  counted c (count_in status minute m) =
  (if bool_decide (class_of status = c) then sat_add U32_MAX else λ x _, x)
    (if bool_decide (epoch_minute m ≠ minute) then 0 else counted c m) 1.
Proof.
  unfold count_in, class_of. case_bool_decide as E1; [|destruct (is_success status)];
    destruct c; simpl; case_bool_decide; done.
Qed.

Lemma count_in_epoch status minute m : epoch_minute (count_in status minute m) = minute.
Proof.
  unfold count_in. destruct (decide (epoch_minute m = minute)) as [<-|Hne].
  - rewrite (bool_decide_eq_false_2 (epoch_minute m ≠ _)) by naive_solver. by repeat case_match.
  - rewrite (bool_decide_eq_true_2 (epoch_minute m ≠ _)) by done. by repeat case_match.
Qed.

Lemma bucket_of_counted slot hs e m :
  ordered (hs ++ [e]) → in_slot slot (ex_minute e) = true → bucket_of slot hs m →
  bucket_of slot (hs ++ [e]) (count_in (ex_status e) (ex_minute e) m).
Proof.
  intros [_ Hle]%ordered_snoc Hs Hm. right. rewrite count_in_epoch. split; [done|].
  split; [exists e; set_solver|]. split.
  { intros e' [Hin| ->%list_elem_of_singleton]%elem_of_app _; [by apply Hle|done]. }
  intros c. rewrite count_in_counted, occurrences_snoc, (bool_decide_eq_true_2 (_ = ex_minute e)) by done.
  cbn [andb]. set (n := occurrences _ _ _).
  assert ((if bool_decide (epoch_minute m ≠ ex_minute e) then 0 else counted c m) = Z.min U32_MAX n) as ->.
  { assert (0 ≤ n) by apply occurrences_nonneg.
    destruct Hm as [[-> Hno]|(Hslot & (e0 & He0 & E0) & Hmax & Hc)].
    - assert (n = 0) as ->.
      { apply occurrences_none. intros e' He'. apply bool_decide_eq_false_2. intros E.
        specialize (Hno _ He'). rewrite E in Hno. congruence. }
      case_bool_decide; [done|]. by destruct c.
    - case_bool_decide as Hne; [|by rewrite Hc, Hne].
      assert (n = 0) as ->; [|done]. apply occurrences_none. intros e' He'. apply bool_decide_eq_false_2.
      intros E. apply Hne. apply Z.le_antisymm; [rewrite <- E0; by apply Hle|].
      rewrite <- E. apply Hmax; [done|by rewrite E]. }
  case_bool_decide; [|f_equal; lia]. unfold sat_add. lia.
Qed.

Lemma bucket_of_other slot hs e m :
  in_slot slot (ex_minute e) = false → bucket_of slot hs m → bucket_of slot (hs ++ [e]) m.
Proof.
  intros Hs [[-> Hno]|(Hslot & (e0 & He0 & E0) & Hmax & Hc)].
  - left. split; [done|]. intros e' [Hin| ->%list_elem_of_singleton]%elem_of_app; auto.
  - right. split; [done|]. split; [exists e0; set_solver|]. split.
    + intros e' [Hin| ->%list_elem_of_singleton]%elem_of_app; [by apply Hmax|congruence].
    + intros c. rewrite Hc, occurrences_snoc, (bool_decide_eq_false_2 (_ = epoch_minute m)).
      * simpl. f_equal. lia.
      * intros E. congruence.
Qed.

Lemma ledger_snoc hs e :
  ledger (hs ++ [e]) = traffic_record (ex_status e) (ex_headers e) (ex_at e) (ledger hs).
Proof. unfold ledger. by rewrite fold_left_app. Qed.

Lemma slot_of_bound minute : (slot_of minute < 60)%nat.
Proof. unfold slot_of, WINDOW_MINUTES. pose proof (Z.mod_pos_bound minute 60). lia. Qed.

Lemma ledger_buckets hs :
  ordered hs → length (minutes (ledger hs)) = 60%nat ∧
  ∀ slot m, minutes (ledger hs) !! slot = Some m → bucket_of slot hs m.
Proof.
  induction hs as [|e hs IH] using rev_ind; intros Ho.
  { split; [done|]. intros slot m Hm. left. split; [|by intros e ?%not_elem_of_nil].
    cbn in Hm. apply list_elem_of_lookup_2 in Hm.
    change (m ∈ replicate 60 Minute_default) in Hm. by apply elem_of_replicate in Hm as [-> _]. }
  destruct (IH (proj1 (ordered_snoc _ _ Ho))) as [Hlen Hb]. rewrite ledger_snoc. cbn [traffic_record minutes].
  split; [by rewrite length_alter|]. intros slot m.
  destruct (decide (slot_of (ex_minute e) = slot)) as [<-|Hne].
  - rewrite list_lookup_alter_eq. intros (b & Hbk & ->)%fmap_Some.
    apply bucket_of_counted; [done|by apply bool_decide_eq_true_2|by apply Hb].
  - rewrite list_lookup_alter_ne by done. intros Hm. apply bucket_of_other; [|by apply Hb].
    by apply bool_decide_eq_false_2.
Qed.

(** *** The last hour *)

Lemma occurrences_split c P Q R hs :
  (∀ n, P n = Q n || R n) → (∀ n, Q n && R n = false) →
  occurrences c P hs = occurrences c Q hs + occurrences c R hs.
Proof.
  intros HP HQR. induction hs as [|e hs IH] using rev_ind; [done|]. rewrite !occurrences_snoc, IH.
  specialize (HP (ex_minute e)). specialize (HQR (ex_minute e)). rewrite HP.
  destruct (Q _), (R _), (bool_decide _); simpl in *; done || lia.
Qed.

(** A minute of the window is the only one of its slot there. *)
Lemma window_slot current n n' :
  in_window current n = true → in_window current n' = true → slot_of n = slot_of n' → n = n'.
Proof.
  unfold in_window, slot_of, WINDOW_MINUTES. rewrite !bool_decide_eq_true. intros Hn Hn' E.
  pose proof (Z.mod_pos_bound n 60). pose proof (Z.mod_pos_bound n' 60).
  pose proof (Z.div_mod n 60). pose proof (Z.div_mod n' 60). lia.
Qed.

Lemma bucket_contributes slot hs m c current :
  bucket_of slot hs m → (∀ e, e ∈ hs → ex_minute e ≤ current) →
  (if in_window current (epoch_minute m) then counted c m else 0) =
  Z.min U32_MAX (occurrences c (λ n, in_window current n && in_slot slot n) hs).
Proof.
  intros [[-> Hno]|(Hslot & (e0 & He0 & E0) & Hmax & Hc)] Hcur.
  { rewrite occurrences_none; [destruct c, (in_window _ _); done|].
    intros e He. by rewrite (Hno e He), andb_false_r. }
  destruct (in_window current (epoch_minute m)) eqn:Hw.
  - rewrite Hc. f_equal. apply occurrences_ext. intros e He. case_bool_decide as E.
    + by rewrite E, Hw, Hslot.
    + symmetry. destruct (in_window current (ex_minute e)) eqn:He'; [|done]. cbn [andb].
      apply not_true_iff_false. intros Hs. apply E. eapply window_slot; [done|done|].
      unfold in_slot in *. apply bool_decide_eq_true in Hs, Hslot. congruence.
  - rewrite occurrences_none; [done|]. intros e He. destruct (in_slot slot (ex_minute e)) eqn:Hs; [|by rewrite andb_false_r].
    rewrite andb_true_r. pose proof (Hmax _ He Hs). pose proof (Hcur _ He0).
    unfold in_window in *. apply bool_decide_eq_false in Hw. apply bool_decide_eq_false. lia.
Qed.

Lemma add_minute_summed current s m c :
  summed c (add_minute current s m) =
  if in_window current (epoch_minute m) then sat_add U32_MAX (summed c s) (counted c m) else summed c s.
Proof. unfold add_minute. destruct (in_window _ _); [|done]. by destruct c. Qed.

Definition slots_from (k len : nat) (n : Z) : bool :=
  bool_decide (k ≤ slot_of n ∧ slot_of n < k + len)%nat.

Lemma window_summed hs c current ms k s :
  (∀ e, e ∈ hs → ex_minute e ≤ current) →
  (∀ i m, ms !! i = Some m → bucket_of (k + i) hs m) → 0 ≤ summed c s ≤ U32_MAX →
  summed c (fold_left (add_minute current) ms s) =
  Z.min U32_MAX (summed c s +
    occurrences c (λ n, in_window current n && slots_from k (length ms) n) hs).
Proof.
  intros Hcur. revert k s. induction ms as [|m ms IH]; intros k s Hms Hs.
  { rewrite occurrences_none; [simpl; lia|]. intros e _. unfold slots_from. simpl.
    rewrite bool_decide_eq_false_2 by lia. by rewrite andb_false_r. }
  cbn [fold_left length].
  assert (bucket_of k hs m) as Hm by (rewrite <- (Nat.add_0_r k); by apply (Hms 0%nat)).
  pose proof (bucket_contributes k hs m c current Hm Hcur) as Hb.
  rewrite (occurrences_split c _ (λ n, in_window current n && in_slot k n)
    (λ n, in_window current n && slots_from (S k) (length ms) n)).
  - pose proof (occurrences_nonneg c (λ n, in_window current n && in_slot k n) hs) as Ha.
    pose proof (occurrences_nonneg c (λ n, in_window current n && slots_from (S k) (length ms) n) hs).
    assert (summed c (add_minute current s m) = Z.min U32_MAX (summed c s +
              Z.min U32_MAX (occurrences c (λ n, in_window current n && in_slot k n) hs))) as E.
    { rewrite add_minute_summed, <- Hb. destruct (in_window _ _); [done|]. lia. }
    rewrite (IH (S k)), E; [unfold U32_MAX in *; lia| |rewrite E; unfold U32_MAX in *; lia].
    intros i m' Hi. replace (S k + i)%nat with (k + S i)%nat by lia. exact (Hms (S i) m' Hi).
  - intros n. unfold slots_from, in_slot. destruct (in_window current n); [|done]. cbn [andb].
    repeat case_bool_decide; done || lia.
  - intros n. unfold slots_from, in_slot. destruct (in_window current n); [|done]. cbn [andb].
    repeat case_bool_decide; done || lia.
Qed.

Lemma ledger_latest hs :
  latest (ledger hs) =
  last (omap (λ e, if is_success (ex_status e) || bool_decide (ex_status e = NOT_MODIFIED)
                   then snapshot_from_headers (ex_headers e) (ex_at e) else None) hs).
Proof.
  induction hs as [|e hs IH] using rev_ind; [done|].
  rewrite ledger_snoc, omap_app. cbn [traffic_record latest omap list_omap].
  set (found := (if is_success (ex_status e) || _ then _ else _)).
  destruct found as [s|]; [by rewrite last_snoc|]. by rewrite app_nil_r.
Qed.

(** The ledger is the history. While the clock does not run backwards by a minute,
    the summary counts exactly the responses of each class received in the last sixty
    minutes, the current one included (saturating at the width of the counters), however
    often the ring of buckets wrapped around; and the quota it reports is the newest one
    read from an authenticated answer. *)
Theorem traffic_counts_last_hour hs now :
  ordered hs → (∀ e, e ∈ hs → ex_minute e ≤ minute_of now) →
  (∀ c, summed c (traffic_summary (ledger hs) now) =
        Z.min U32_MAX (occurrences c (in_window (minute_of now)) hs)) ∧
  ts_rate_limit (traffic_summary (ledger hs) now) =
    last (omap (λ e, if is_success (ex_status e) || bool_decide (ex_status e = NOT_MODIFIED)
                     then snapshot_from_headers (ex_headers e) (ex_at e) else None) hs).
Proof.
  intros Ho Hnow. destruct (ledger_buckets hs Ho) as [Hlen Hb]. split.
  - intros c. pose proof (window_summed hs c (minute_of now) (minutes (ledger hs)) 0
      (mk_summary 0 0 0 0 0 (latest (ledger hs))) Hnow Hb) as Hsum.
    transitivity (Z.min U32_MAX (0 + occurrences c
      (λ n, in_window (minute_of now) n && slots_from 0 (length (minutes (ledger hs))) n) hs)).
    + destruct c; apply Hsum; by vm_compute.
    + rewrite Z.add_0_l. f_equal. apply occurrences_ext. intros e _. rewrite Hlen.
      unfold slots_from. pose proof (slot_of_bound (ex_minute e)).
      rewrite bool_decide_eq_true_2 by lia. apply andb_true_r.
  - rewrite <- ledger_latest.
    assert (∀ ms s, ts_rate_limit (fold_left (add_minute (minute_of now)) ms s) = ts_rate_limit s) as Hf.
    { induction ms as [|m ms IH]; intros s; [done|]. simpl. rewrite IH. unfold add_minute.
      by destruct (in_window _ _). }
    apply Hf.
Qed.

(** Two answers of one minute, one of an hour before, one that failed. *)
Definition example_exchanges : list exchange :=
  [mk_exchange 200 [] (seconds 60); mk_exchange 304 [] (seconds 3600);
   mk_exchange 200 [(lit "x-ratelimit-limit", Some (lit "5000"));
                    (lit "x-ratelimit-remaining", Some (lit "4990"));
                    (lit "x-ratelimit-reset", Some (lit "7200"))] (seconds 3660);
   mk_exchange 502 [] (seconds 3661)].

Lemma traffic_counts_last_hour_witness :
  let s := traffic_summary (ledger example_exchanges) (seconds 3670) in
  summed CFull s = 1 ∧ summed CNotModified s = 1 ∧ summed CFailed s = 1 ∧
  (rl_remaining <$> ts_rate_limit s) = Some 4990.
Proof.
  destruct (traffic_counts_last_hour example_exchanges (seconds 3670)) as [Hc Hr].
  - intros i j e e' Hi Hj Hij.
    repeat (destruct i as [|i]; [|try done]; simpl in Hi);
    repeat (destruct j as [|j]; [|try done]; simpl in Hj); try lia;
    injection Hi as <-; injection Hj as <-; by vm_compute.
  - intros e He. unfold example_exchanges in He. repeat (apply elem_of_cons in He as [->|He]; [by vm_compute|]).
    by apply not_elem_of_nil in He.
  - cbv zeta. rewrite !Hc, Hr. by vm_compute.
Defined.
