(* ===== verification/AuthClient.v ===== *)
(** * The authenticated client ([crates/github/src/lib.rs])

    [AuthenticatedClient]: one credential shared by every task of the process, the
    lockout that silences it, the re-validation of a refused credential behind a gate,
    the reload of a stored credential and the exchange of a refresh token. A program
    here is one caller's; between two of its calls the other callers may act. *)

From stdpp Require Import strings.
From S2P Require Import Prelude RustStr Ordered Model Github Effects Http Traffic.
#[local] Open Scope Z_scope.
#[local] Open Scope rust_scope.

Definition REVALIDATION_PATH : str := lit "/user/installations".
Definition DEFAULT_LOCKOUT_BACKOFF : Duration := seconds 60.
Definition MAX_LOCKOUT_BACKOFF : Duration := seconds (15 * 60).

(** ** The credential *)

Record Renewal := mk_renewal {
  refresh_token : str;
  access_expires_at : option Timestamp;
  refresh_expires_at : option Timestamp;
}.
Record UserAccessToken := mk_token {
  token : str;
  token_type : str;
  token_scope : option str;
  renewal : option Renewal;
}.
Definition UserAccessToken_new (t : str) : UserAccessToken := mk_token t (lit "bearer") None None.
Definition from_parts (t ty : str) (sc : option str) : UserAccessToken := mk_token t ty sc None.

(** The last instant of [DateTime<Utc>]; [checked_add_signed] fails after it. *)
Definition TIMESTAMP_MAX : Timestamp := seconds 8210266876799 + 999999999.
Definition checked_add_signed (t : Timestamp) (d : Z) : option Timestamp :=
  if bool_decide (t + d ≤ TIMESTAMP_MAX) then Some (t + d) else None.

(** The instant so many seconds from now. [None] where the code panics: [TimeDelta::seconds]
    does for more than [i64::MAX] milliseconds. *)
Definition expires_at (now : Timestamp) (secs : option Z) : option (option Timestamp) :=
  match secs with
  | Some s =>
      if bool_decide (I64_MAX < s) then Some None
      else if bool_decide (I64_MAX < s * 1000) then None
      else Some (checked_add_signed now (seconds s))
  | None => Some None
  end.
Definition with_renewal (now : Timestamp) (refresh : option str) (access_in refresh_in : option Z)
    (t : UserAccessToken) : option UserAccessToken :=
  match refresh with
  | None => Some (mk_token (token t) (token_type t) (token_scope t) None)
  | Some r =>
      access ← expires_at now access_in;
      refresh ← expires_at now refresh_in;
      Some (mk_token (token t) (token_type t) (token_scope t) (Some (mk_renewal r access refresh)))
  end.

(** The stored document. *)
Record Document := mk_document {
  doc_access_token : str;
  doc_refresh_token : option str;
  doc_access_expires_at : option Timestamp;
  doc_refresh_expires_at : option Timestamp;
}.
Section Stored.
Context (decode_document : str → option Document) (encode_document : Document → str).

Definition from_stored_document (stored : str) : UserAccessToken :=
  match decode_document stored with
  | Some d =>
      mk_token (doc_access_token d) (lit "bearer") None
        ((λ r, mk_renewal r (doc_access_expires_at d) (doc_refresh_expires_at d)) <$> doc_refresh_token d)
  | None => UserAccessToken_new stored
  end.
Definition to_stored_document (t : UserAccessToken) : str :=
  encode_document (mk_document (token t) (refresh_token <$> renewal t)
                     (renewal t ≫= access_expires_at) (renewal t ≫= refresh_expires_at)).
End Stored.

Definition family (t : UserAccessToken) : str :=
  match split_once (ch "_") (token t) with
  | Some (before, _) => if bool_decide (len before < 8) then before ++ lit "_" else []
  | None => []
  end.
Definition is_user_to_server (t : UserAccessToken) : bool := str_eqb (family t) (lit "ghu_").

(** ** The client *)

Inductive Revalidation := RevValid | RevRejected | RevUnavailable.
#[global] Instance Revalidation_eq_dec : EqDecision Revalidation.
Proof. solve_decision. Defined.
Record LockoutState := mk_lockout { lo_until : option Timestamp; lo_backoff : Duration }.

Record Client := mk_client {
  credential : UserAccessToken;
  generation : Z;                 (* revalidation_generation *)
  last_revalidation : Revalidation;
  revalidations_performed : Z;
  consecutive_unauthorized : Z;
  lockout : LockoutState;
  traffic : ApiTraffic;
}.
Definition Client_new (c : UserAccessToken) : Client :=
  mk_client c 0 RevValid 0 0 (mk_lockout None DEFAULT_LOCKOUT_BACKOFF) ApiTraffic_new.

Definition with_credential (x : UserAccessToken) (c : Client) : Client :=
  mk_client x (generation c) (last_revalidation c) (revalidations_performed c)
    (consecutive_unauthorized c) (lockout c) (traffic c).
Definition with_generation (x : Z) (c : Client) : Client :=
  mk_client (credential c) x (last_revalidation c) (revalidations_performed c)
    (consecutive_unauthorized c) (lockout c) (traffic c).
Definition with_revalidation (x : Revalidation) (c : Client) : Client :=
  mk_client (credential c) (generation c) x (revalidations_performed c)
    (consecutive_unauthorized c) (lockout c) (traffic c).
Definition with_performed (x : Z) (c : Client) : Client :=
  mk_client (credential c) (generation c) (last_revalidation c) x
    (consecutive_unauthorized c) (lockout c) (traffic c).
Definition with_unauthorized (x : Z) (c : Client) : Client :=
  mk_client (credential c) (generation c) (last_revalidation c) (revalidations_performed c)
    x (lockout c) (traffic c).
Definition with_lockout (x : LockoutState) (c : Client) : Client :=
  mk_client (credential c) (generation c) (last_revalidation c) (revalidations_performed c)
    (consecutive_unauthorized c) x (traffic c).
Definition with_traffic (x : ApiTraffic) (c : Client) : Client :=
  mk_client (credential c) (generation c) (last_revalidation c) (revalidations_performed c)
    (consecutive_unauthorized c) (lockout c) x.

(** [lockout_remaining], at an instant. *)
Definition lockout_left (now : Timestamp) (c : Client) : option Duration :=
  until ← lo_until (lockout c);
  if bool_decide (until ≤ now) then None else Some (until - now).
Definition clear_lockout (c : Client) : Client :=
  with_unauthorized 0 (with_lockout (mk_lockout None (lo_backoff (lockout c))) c).

(** ** Calls *)

Inductive RenewalError := Declined (reason : str) | RenewalFailed (reason : str).

(** [ALocked] is one access under the client's locks, or one of its atomics, with the
    clock read there; [AGate] waits for the re-validation gate and [ARelease] ends it;
    [AWire] sends a request with a bearer token to a URL and answers the status and the
    headers, [ABody] then reads the body; [AReload] is [CredentialSource::reload] and
    [ARenew] is [CredentialRenewal::renew]. *)
Inductive acall :=
  | ALocked (A : Set) (f : Timestamp → Client → Client * A)
  | AGate
  | ARelease
  | ASleep (d : Duration)
  | AWire (url bearer : str) (request : ApiRequest)
  | ABody
  | AReload
  | ARenew (refresh : str).
Definition aanswer (e : acall) : Type :=
  match e with
  | ALocked A _ => A
  | AWire _ _ _ => option (Z * HeaderMap)
  | ABody => option str
  | AReload => option UserAccessToken
  | ARenew _ => result UserAccessToken RenewalError
  | _ => unit
  end.
#[global] Abbreviation aprogram := (free aanswer) (only parsing).
#[global] Abbreviation aop e := (@op acall aanswer e) (only parsing).
Definition look {A : Set} (f : Timestamp → Client → A) : aprogram A := aop (ALocked A (λ now c, (c, f now c))).
Definition change (f : Client → Client) : aprogram unit := aop (ALocked unit (λ _ c, (f c, tt))).

Inductive Classified := COk | CUnauthorized | CError (e : GithubError).
(** [Attempt] of the crate: which of a request's two attempts got the response. *)
Inductive Position := First | Retry.
#[global] Instance Position_eq_dec : EqDecision Position.
Proof. solve_decision. Defined.

Section Client.
(** [Url::parse], [Url::join] on the API base, the [message] of GitHub's error envelope
    when the body is one, and the process's id. *)
Context (parse_url join_base : str → option str) (envelope : str → option (option str)) (process_id : Z).
(** Whether the client has a credential store to re-read, and a way to renew. *)
Context (has_source has_renewal : bool).

Definition error_message (body : str) : option str :=
  m ← envelope body ≫= id; if bool_decide (m = []) then None else Some m.

Definition is_rate_limited (r : ApiResponse) : bool :=
  bool_decide (rs_status r = TOO_MANY_REQUESTS)
  || from_option (λ v, str_eqb (trim v) (lit "0")) false (response_header (lit "x-ratelimit-remaining") r)
  || says_rate_limit (error_message (rs_body r)).
Definition is_lockout_continuation (r : ApiResponse) : bool :=
  contains_key (lit "retry-after") (rs_headers r) && bool_decide (error_message (rs_body r) = None).
Definition is_lockout_403 (r : ApiResponse) (position : Position) : bool :=
  if is_rate_limited r then false
  else match position with Retry => true | First => is_lockout_continuation r end.

Definition lockout_remaining : aprogram (option Duration) := look lockout_left.

Definition latch_lockout (headers : HeaderMap) : aprogram Duration :=
  let backoff := Z.min (default DEFAULT_LOCKOUT_BACKOFF (retry_after_header headers)) MAX_LOCKOUT_BACKOFF in
  _ ← aop (ALocked unit (λ now c, (with_lockout (mk_lockout (Some (now + backoff)) backoff) c, tt)));
  mret backoff.

Definition resolve (path : str) : result str GithubError :=
  if starts_with (lit "http://") path || starts_with (lit "https://") path then
    match parse_url path with
    | Some url => Ok url
    | None => Err (Malformed (lit "an absolute request URL") path)
    end
  else
    match join_base (trim_start_matches (N.eqb (ch "/")) path) with
    | Some url => Ok url
    | None => Err (Malformed (lit "a request path") path)
    end.

Definition send_raw (request : ApiRequest) : aprogram (result ApiResponse GithubError) :=
  match resolve (rq_path request) with
  | Err e => Ret (Err e)
  | Ok url =>
      bearer ← look (λ _ c, token (credential c));
      sent ← aop (AWire url bearer request);
      match sent with
      | None => Ret (Err Transport)
      | Some (status, headers) =>
          _ ← aop (ALocked unit (λ now c, (with_traffic (traffic_record status headers now (traffic c)) c, tt)));
          body ← aop ABody;
          match body with
          | None => Ret (Err Transport)
          | Some body => Ret (Ok (mk_response status headers body))
          end
      end
  end.

(** [classify]. *)
Definition classify_response (request : ApiRequest) (r : ApiResponse) (position : Position)
    : aprogram Classified :=
  let status := rs_status r in
  if is_success status || (bool_decide (status = NOT_MODIFIED) && is_conditional request) then
    _ ← change (with_unauthorized 0); mret COk
  else if bool_decide (status = UNAUTHORIZED) then
    _ ← change (λ c, with_unauthorized (consecutive_unauthorized c + 1) c); mret CUnauthorized
  else if bool_decide (status = FORBIDDEN) && is_lockout_403 r position then
    backoff ← latch_lockout (rs_headers r); mret (CError (AuthenticationLockout backoff))
  else
    let message := error_message (rs_body r) in
    let method := method_text (rq_method request) in
    mret (CError (if bool_decide (status = FORBIDDEN)
                  then Forbidden method (rq_path request) message (rs_headers r)
                  else Status status method (rq_path request) message (rs_headers r))).

(** ** Replacing the credential *)

Definition swap_credential_once (produce : aprogram (option UserAccessToken)) : aprogram bool :=
  before ← look (λ _ c, generation c);
  _ ← aop AGate;
  now_at ← look (λ _ c, generation c);
  if negb (bool_decide (now_at = before)) then _ ← aop ARelease; mret true
  else
    fresh ← produce;
    match fresh with
    | None => _ ← aop ARelease; mret false
    | Some fresh =>
        changed ← aop (ALocked bool (λ _ c,
          if str_eqb (token (credential c)) (token fresh) then (c, false) else (with_credential fresh c, true)));
        if (changed : bool) then
          _ ← change (λ c, with_generation (generation c + 1) c);
          _ ← aop ARelease; mret true
        else _ ← aop ARelease; mret false
    end.

Definition reload_once : aprogram bool :=
  if has_source then swap_credential_once (aop AReload) else mret false.

Definition spend_refresh : aprogram (option UserAccessToken) :=
  refresh ← look (λ _ c, option_map refresh_token (renewal (credential c)));
  match refresh with
  | None => mret None
  | Some refresh =>
      r ← aop (ARenew refresh);
      mret (match r with Ok fresh => Some fresh | Err _ => None end)
  end.
Definition renew_once : aprogram bool :=
  if has_renewal then swap_credential_once spend_refresh else mret false.

(** [reload_once().await || renew_once().await]. *)
Definition reload_or_renew : aprogram bool :=
  reloaded ← reload_once;
  if (reloaded : bool) then mret true else renew_once.

(** What [renew_if_expiring_within] decides under the lock. *)
Inductive due := NotRenewable | DeadlineOverflows | Due (due : bool).
Definition due_within (window : Duration) (now : Timestamp) (c : Client) : due :=
  match renewal (credential c) with
  | None => NotRenewable
  | Some r =>
      match checked_add_signed now (Z.min window (I64_MAX * 1000000)) with
      | None => DeadlineOverflows
      | Some deadline =>
          Due (from_option (λ e, bool_decide (e ≤ deadline)) true (access_expires_at r)
               || from_option (λ e, bool_decide (e ≤ deadline)) false (refresh_expires_at r))
      end
  end.
Definition renew_if_expiring_within (window : Duration) : aprogram bool :=
  d ← look (due_within window);
  match d with
  | NotRenewable => mret false
  | DeadlineOverflows => mret true
  | Due false => mret false
  | Due true => reload_or_renew
  end.

(** ** Re-validation *)

Definition probe_request : ApiRequest :=
  api_query (lit "per_page") (lit "1") (api_get REVALIDATION_PATH).

Definition probe_credential (position : Position) : aprogram Revalidation :=
  sent ← send_raw probe_request;
  match sent with
  | Ok r =>
      if is_success (rs_status r) then mret RevValid
      else if bool_decide (rs_status r = UNAUTHORIZED) then
        _ ← change (λ c, with_unauthorized (consecutive_unauthorized c + 1) c); mret RevRejected
      else if bool_decide (rs_status r = FORBIDDEN) then
        if is_lockout_403 r position then _ ← latch_lockout (rs_headers r); mret RevUnavailable
        else mret RevUnavailable
      else mret RevUnavailable
  | Err _ => mret RevUnavailable
  end.

(** Under the gate: a probe that ended while this caller queued is shared. *)
Definition shared_or_probed (position : Position) (sampled : Z) : aprogram Revalidation :=
  now_at ← look (λ _ c, generation c);
  if negb (bool_decide (now_at = sampled)) then look (λ _ c, last_revalidation c)
  else
    _ ← change (λ c, with_performed (revalidations_performed c + 1) c);
    fresh ← probe_credential position;
    _ ← change (with_revalidation fresh);
    _ ← change (λ c, with_generation (generation c + 1) c);
    mret fresh.

Definition revalidate_from (position : Position) : aprogram (result Revalidation GithubError) :=
  locked ← lockout_remaining;
  match locked with
  | Some retry_after => Ret (Err (AuthenticationLockout retry_after))
  | None =>
      sampled ← look (λ _ c, generation c);
      _ ← aop AGate;
      outcome ← shared_or_probed position sampled;
      locked ← lockout_remaining;
      _ ← aop ARelease;
      match locked with
      | Some retry_after => Ret (Err (AuthenticationLockout retry_after))
      | None => Ret (Ok outcome)
      end
  end.
Definition revalidate : aprogram (result Revalidation GithubError) := revalidate_from First.

(** ** Requests *)

(** The one retry. *)
Definition retry_once (request : ApiRequest) : aprogram (result ApiResponse GithubError) :=
  second ←? send_raw request;
  verdict ← classify_response request second Retry;
  mret (match verdict with
        | COk => Ok second
        | CUnauthorized => Err AuthenticationFailed
        | CError e => Err e
        end).

Definition jitter : Duration := ((process_id mod 1500) + 50) * 1000000.

Definition revalidate_and_retry_once (request : ApiRequest)
    : aprogram (result ApiResponse GithubError) :=
  _ ← aop (ASleep jitter);
  changed ← reload_or_renew;
  if (changed : bool) then retry_once request
  else
    outcome ←? revalidate_from Retry;
    match outcome with
    | RevRejected => Ret (Err AuthenticationFailed)
    | RevValid | RevUnavailable =>
        locked ← lockout_remaining;
        match locked with
        | Some remaining => Ret (Err (AuthenticationLockout remaining))
        | None => retry_once request
        end
    end.

(** [AuthenticatedClient::send]. *)
Definition client_send (request : ApiRequest) : aprogram (result ApiResponse GithubError) :=
  locked ← lockout_remaining;
  match locked with
  | Some remaining => Ret (Err (AuthenticationLockout remaining))
  | None =>
      first ←? send_raw request;
      verdict ← classify_response request first First;
      match verdict with
      | COk => Ret (Ok first)
      | CUnauthorized => revalidate_and_retry_once request
      | CError e => Ret (Err e)
      end
  end.
End Client.
