(* ===== verification/AuthSafety.v ===== *)
(** * The authenticated client among its callers

    [AuthClient] with any number of callers sharing one client: what GitHub, the store
    and the other callers may do, the protocol around the re-validation gate, and what
    follows for each call. Proved here: a refresh token whose successor arrived is never
    presented again, every failure means what its name says, a call sends at most three
    requests, and a lockout silences the client. *)

From Stdlib Require Import Relations.
From stdpp Require Import strings.
From S2P Require Import Prelude RustStr Ordered Model Github Effects Tasks Http Traffic AuthClient.
#[local] Open Scope Z_scope.
#[local] Open Scope rust_scope.

(** ** The world *)

(** A request that was put on the wire, whose it was, what GitHub answered, if anything
    came back, and the body, unless it could not be read. *)
Record exchanged := mk_exchanged {
  xc_task : nat;
  xc_request : ApiRequest;
  xc_answer : option (Z * HeaderMap);
  xc_body : option str;
}.
Definition xc_status (x : exchanged) : Z := from_option fst 0 (xc_answer x).

(** [aw_replaced] are the refresh tokens whose successors this client was given, and
    [aw_spent] those that GitHub has exchanged, whatever became of the successor. *)
Record aworld := mk_aworld {
  aw_client : Client;
  aw_clock : Timestamp;
  aw_gate : option nat;
  aw_store : option UserAccessToken;
  aw_replaced : list str;
  aw_spent : list str;
  aw_log : list exchanged;
}.
Implicit Types w : aworld.

Definition set_client (c : Client) w : aworld :=
  mk_aworld c (aw_clock w) (aw_gate w) (aw_store w) (aw_replaced w) (aw_spent w) (aw_log w).
Definition set_gate (g : option nat) w : aworld :=
  mk_aworld (aw_client w) (aw_clock w) g (aw_store w) (aw_replaced w) (aw_spent w) (aw_log w).
Definition logged (x : exchanged) w : aworld :=
  mk_aworld (aw_client w) (aw_clock w) (aw_gate w) (aw_store w) (aw_replaced w) (aw_spent w) (aw_log w ++ [x]).
(** The new pair is in the store: GitHub spent the refresh token now, or another process
    has had it spent before. *)
Definition rotated (r : str) (fresh : UserAccessToken) w : aworld :=
  mk_aworld (aw_client w) (aw_clock w) (aw_gate w) (Some fresh) (r :: aw_replaced w) (r :: aw_spent w) (aw_log w).
(** GitHub spent it, and the new pair was lost before it was stored. *)
Definition wasted (r : str) w : aworld :=
  mk_aworld (aw_client w) (aw_clock w) (aw_gate w) (aw_store w) (aw_replaced w) (r :: aw_spent w) (aw_log w).
Definition cred w : UserAccessToken := credential (aw_client w).
Definition mine (i : nat) w : list exchanged := filter (λ x, xc_task x = i) (aw_log w).

(** A credential that does not hold a token already replaced. *)
Definition unspent (replaced : list str) (t : UserAccessToken) : Prop :=
  ∀ r, renewal t = Some r → refresh_token r ∉ replaced.
(** A probe that GitHub refused. *)
Definition refused_probe w : Prop :=
  ∃ x, x ∈ aw_log w ∧ xc_request x = probe_request ∧ xc_status x = UNAUTHORIZED.

Section Auth.
(** The [message] of GitHub's error envelope, when a body is one. *)
Context (envelope : str → option (option str)).

(** The whole response of a request. *)
Definition responds (r : ApiResponse) (x : exchanged) : Prop :=
  xc_answer x = Some (rs_status r, rs_headers r) ∧ xc_body x = Some (rs_body r).
(** GitHub limits the rate: by status, by what remains, or in words. *)
Definition limited (r : ApiResponse) : Prop :=
  rs_status r = 429 ∨ (∃ v, response_header (lit "x-ratelimit-remaining") r = Some v ∧ trim v = lit "0") ∨
  says_rate_limit (error_message envelope (rs_body r)) = true.
(** A 403 that tells of a lockout: it does not limit the rate, and, at the first attempt, it
    names a delay and no reason. *)
Definition lockout_answer (r : ApiResponse) (position : Position) : Prop :=
  rs_status r = 403 ∧ ¬ limited r ∧
  (position = First → contains_key (lit "retry-after") (rs_headers r) = true ∧ error_message envelope (rs_body r) = None).
(** How long it lasts: a minute unless GitHub says, and fifteen at most. *)
Definition lockout_delay (r : ApiResponse) : Duration :=
  match retry_after_header (rs_headers r) with Some d => Z.min d (seconds 900) | None => seconds 60 end.
(** Somebody was answered so. *)
Definition lockout_seen w : Prop := ∃ x r position, x ∈ aw_log w ∧ responds r x ∧ lockout_answer r position.
Definition lockout_justified w : Prop :=
  ∀ u, lo_until (lockout (aw_client w)) = Some u → u ≤ aw_clock w + MAX_LOCKOUT_BACKOFF ∧ lockout_seen w.

Definition client_inv w : Prop :=
  (aw_gate w = None → unspent (aw_replaced w) (cred w)) ∧
  (∀ t, aw_store w = Some t → unspent (aw_replaced w) t) ∧
  lockout_justified w ∧
  (last_revalidation (aw_client w) = RevRejected → refused_probe w).

Lemma responds_status r x : responds r x → xc_status x = rs_status r.
Proof. unfold responds, xc_status. by intros [-> _]. Qed.
Lemma is_rate_limited_spec r : is_rate_limited envelope r = true ↔ limited r.
Proof.
  unfold is_rate_limited, limited, str_eqb. rewrite !orb_true_iff, bool_decide_eq_true.
  destruct (response_header _ r) as [v|]; simpl; [rewrite bool_decide_eq_true|]; naive_solver.
Qed.
Lemma is_lockout_spec r position :
  rs_status r = FORBIDDEN → is_lockout_403 envelope r position = true ↔ lockout_answer r position.
Proof.
  intros Hs. unfold is_lockout_403, lockout_answer. pose proof (is_rate_limited_spec r) as Hl.
  destruct (is_rate_limited envelope r); [naive_solver|]. destruct position.
  - unfold is_lockout_continuation. rewrite andb_true_iff, bool_decide_eq_true. naive_solver.
  - naive_solver.
Qed.

(** *** Calls *)

Definition locked {A : Set} (f : Timestamp → Client → Client * A) w : aworld :=
  set_client (f (aw_clock w) (aw_client w)).1 w.

(** An exchange that succeeds gives a pair that was stored before; one that fails may
    have spent the token all the same. *)
Definition client_act (i : nat) w (e : acall) : aanswer e → aworld → Prop :=
  match e return aanswer e → aworld → Prop with
  | ALocked A f => λ x w', x = (f (aw_clock w) (aw_client w)).2 ∧ w' = locked f w
  | AGate => λ _ w', aw_gate w = None ∧ w' = set_gate (Some i) w
  | ARelease => λ _ w', w' = set_gate None w
  | AWire _ _ request => λ x w', ∃ body, w' = logged (mk_exchanged i request x body) w
  | ABody => λ x w', w' = w ∧ ∀ y, last (mine i w) = Some y → x = xc_body y
  | AReload => λ x w', w' = w ∧ (x = None ∨ x = aw_store w)
  | ARenew r => λ x w',
      match x with
      | Ok fresh => w' = rotated r fresh w ∧ unspent (r :: aw_replaced w) fresh ∧ token fresh ≠ token (cred w)
      | Err _ => w' = w ∨ w' = wasted r w
      end
  | _ => λ _ w', w' = w
  end.

(** What a caller must have established: it presents a refresh token only under the gate,
    and only the one it holds, whose successor never arrived; it replaces the credential
    only under the gate; it leaves the gate with a credential that can be renewed; and it
    never waits for a gate it holds. *)
Definition client_asks (i : nat) w (e : acall) : Prop :=
  client_inv w ∧
  match e with
  | ALocked A f =>
      client_inv (locked f w) ∧
      (aw_gate w ≠ Some i → cred (locked f w) = cred w ∧
                            generation (aw_client (locked f w)) = generation (aw_client w))
  | AGate => aw_gate w ≠ Some i
  | ARelease => aw_gate w = Some i ∧ unspent (aw_replaced w) (cred w)
  | ARenew r => aw_gate w = Some i ∧ refresh_token <$> renewal (cred w) = Some r ∧ r ∉ aw_replaced w
  | _ => True
  end.

(** Time passes, and somebody may store another credential. *)
Definition client_tick w w' : Prop :=
  ∃ clock store, aw_clock w ≤ clock ∧ (∀ t, store = Some t → unspent (aw_replaced w) t) ∧
    w' = mk_aworld (aw_client w) clock (aw_gate w) store (aw_replaced w) (aw_spent w) (aw_log w).

(** ** What a caller may rely on *)

(** Whatever happens, also by the caller's own doing. *)
Definition later (i : nat) w w' : Prop :=
  (client_inv w → client_inv w') ∧ aw_clock w ≤ aw_clock w' ∧ aw_log w ⊆ aw_log w' ∧
  (aw_gate w = Some i → aw_gate w' = Some i ∧ cred w' = cred w ∧
     generation (aw_client w') = generation (aw_client w) ∧ aw_replaced w' = aw_replaced w) ∧
  (aw_gate w ≠ Some i → aw_gate w' ≠ Some i).
Definition client_rely (i : nat) w w' : Prop := later i w w' ∧ mine i w' = mine i w.

#[global] Instance later_preorder i : PreOrder (later i).
Proof.
  split; [by intros w; unfold later; naive_solver|].
  intros w1 w2 w3 (I1 & C1 & L1 & G1 & N1) (I2 & C2 & L2 & G2 & N2).
  split; [tauto|]. split; [lia|]. split; [set_solver|]. split; [|tauto].
  intros G. destruct (G1 G) as (E1 & ? & ? & ?). destruct (G2 E1) as (? & ? & ? & ?).
  repeat split; congruence.
Qed.
#[global] Instance client_rely_preorder i : PreOrder (client_rely i).
Proof.
  split; [by intros w; split|]. intros w1 w2 w3 [? ?] [? ?].
  split; [by etransitivity|congruence].
Qed.

(** *** The others *)

Lemma mine_app i w x : mine i (logged x w) = mine i w ++ (if decide (xc_task x = i) then [x] else []).
Proof. unfold mine, logged. simpl. rewrite filter_app, filter_cons, filter_nil. done. Qed.

Lemma refused_mono w w' : aw_log w ⊆ aw_log w' → refused_probe w → refused_probe w'.
Proof. intros Hl (x & ? & ? & ?). exists x. set_solver. Qed.

Lemma unspent_cons r l t : unspent (r :: l) t → unspent l t.
Proof. intros H r' E. specialize (H r' E). set_solver. Qed.

Lemma inv_set_gate g w :
  client_inv w → (g = None → unspent (aw_replaced w) (cred w)) → client_inv (set_gate g w).
Proof. intros (_ & ? & ? & ?) Hg. split; [done|]. done. Qed.

Lemma seen_mono w w' : aw_log w ⊆ aw_log w' → lockout_seen w → lockout_seen w'.
Proof. intros Hl (x & r & position & Hx & H). exists x, r, position. split; [by apply Hl|done]. Qed.
Lemma inv_logged x w : client_inv w → client_inv (logged x w).
Proof.
  intros (? & ? & Hj & Hr). assert (aw_log w ⊆ aw_log (logged x w)) as Hl by (simpl; set_solver).
  split; [done|]. split; [done|]. split.
  - intros u Hu. destruct (Hj u Hu) as [? Hs]. split; [done|]. by eapply seen_mono.
  - intros E. eapply refused_mono; [exact Hl|by apply Hr].
Qed.
Lemma inv_wasted r w : client_inv w → client_inv (wasted r w).
Proof. done. Qed.

Lemma inv_rotated i r fresh w :
  client_inv w → aw_gate w = Some i → unspent (r :: aw_replaced w) fresh → client_inv (rotated r fresh w).
Proof.
  intros (_ & ? & ? & ?) Hg Hf. split; [by simpl; rewrite Hg|]. split; [|done].
  by intros t [= <-].
Qed.

Lemma tick_rely j w w' : client_tick w w' → client_rely j w w'.
Proof.
  intros (clock & store & Hc & Hs & ->). split; [|done]. split.
  - intros (? & ? & Hl & ?). split; [done|]. split; [done|]. split; [|done].
    intros u Hu. destruct (Hl u Hu) as [? ?]. simpl. split; [lia|done].
  - done.
Qed.

Lemma act_rely i j w e x w' :
  i ≠ j → client_asks i w e → client_act i w e x w' → client_rely j w w'.
Proof.
  intros Hij [Hi Ha]. destruct e as [A f| | |d|url b request| | |r]; simpl in *.
  - destruct Ha as [Hinv Hown]. intros [_ ->]. split; [|done]. split; [done|]. split; [done|]. split; [done|].
    split; [|done]. intros Hg. destruct Hown as [Hc Hgen]; [congruence|]. done.
  - intros [Hg ->]. split; [|done]. split; [by intros; apply inv_set_gate|]. split; [done|]. split; [done|].
    rewrite Hg. split; [done|]. simpl. congruence.
  - intros ->. destruct Ha as [Hg Hu]. split; [|done]. split; [by intros; apply inv_set_gate|].
    split; [done|]. split; [done|]. rewrite Hg. split; [congruence|]. by intros _.
  - by intros ->.
  - intros [body ->]. split.
    + split; [apply inv_logged|]. split; [done|]. split; [simpl; set_solver|done].
    + rewrite mine_app. simpl. rewrite decide_False by done. by rewrite app_nil_r.
  - by intros [-> _].
  - by intros [-> _].
  - destruct x as [fresh|]; [|by intros [-> | ->]]. intros (-> & Hf & _). destruct Ha as (Hg & _ & _).
    split; [|done]. split; [by intros; eapply inv_rotated|]. split; [done|]. split; [done|].
    simpl. rewrite Hg. split; [congruence|done].
Qed.

Lemma retry_after_bounds h d : retry_after_header h = Some d → 0 ≤ d.
Proof.
  unfold retry_after_header, header_number. destruct (header_text _ h) as [v|]; [|done]. simpl.
  destruct (parse_uint U64_MAX (trim v)) as [n|] eqn:E; [|done]. intros [= <-].
  apply parse_uint_nonneg in E. unfold seconds. lia.
Qed.

(** ** One caller *)

Section Caller.
Context (parse_url join_base : str → option str) (process_id : Z).
Context (has_source has_renewal : bool).
Context (me : nat).
#[local] Abbreviation V := (task_env client_asks client_act client_rely me).

(** What a call of the client keeps, whoever holds the gate. *)
Definition kept w w' : Prop := client_inv w' ∧ later me w w' ∧ mine me w' = mine me w.

Lemma kept_rely w w' : client_inv w → client_rely me w w' → kept w w'.
Proof. intros Hi [Hl Hm]. split; [by apply Hl|]. done. Qed.
Lemma kept_trans w1 w2 w3 : kept w1 w2 → kept w2 w3 → kept w1 w3.
Proof. intros (? & ? & ?) (? & ? & ?). split; [done|]. split; [by etransitivity|congruence]. Qed.
Lemma kept_refl w : client_inv w → kept w w.
Proof. by split. Qed.

Lemma sat_look {A : Set} (f : Timestamp → Client → A) w (Q : aworld → A → Prop) :
  client_inv w → (∀ w', kept w w' → Q w' (f (aw_clock w) (aw_client w))) → sat V (look f) w Q.
Proof.
  intros Hi HQ. assert (locked (λ now c, (c, f now c)) w = w) as E by by destruct w.
  apply sat_op; [split; [done|]; by rewrite E|].
  intros x w' (w1 & [-> ->] & Hr). rewrite E in Hr. apply HQ. by apply kept_rely.
Qed.

(** A change that leaves the credential and the generation. *)
Lemma sat_locked_calm {A : Set} (f : Timestamp → Client → Client * A) w (Q : aworld → A → Prop) :
  client_inv w → client_inv (locked f w) →
  (∀ now c, credential (f now c).1 = credential c ∧ generation (f now c).1 = generation c) →
  (∀ w', kept w w' → Q w' (f (aw_clock w) (aw_client w)).2) → sat V (aop (ALocked A f)) w Q.
Proof.
  intros Hi Hl Hf HQ. apply sat_op; [split; [done|]; split; [done|]; intros; apply Hf|].
  intros x w' (w1 & [-> ->] & Hr). apply HQ. eapply kept_trans; [|by apply kept_rely].
  split; [done|]. split; [|done]. split; [done|]. split; [done|]. split; [done|]. split; [|done].
  intros Hg. destruct (Hf (aw_clock w) (aw_client w)). done.
Qed.

Lemma sat_change_calm (f : Client → Client) w (Q : aworld → unit → Prop) :
  client_inv w →
  (∀ c, credential (f c) = credential c ∧ generation (f c) = generation c ∧ lockout (f c) = lockout c ∧
        (last_revalidation (f c) = RevRejected → last_revalidation c = RevRejected ∨ refused_probe w)) →
  (∀ w', kept w w' → Q w' tt) → sat V (change f) w Q.
Proof.
  intros Hi Hf HQ. pose proof (Hf (aw_client w)) as (E1 & E2 & E3 & E4).
  apply sat_locked_calm; [done| |by intros; split; apply Hf|done].
  destruct Hi as (H1 & H2 & H3 & H4). split; [|split; [|split]].
  - intros Hg. unfold cred, locked. simpl. rewrite E1. by apply H1.
  - done.
  - intros u. unfold locked. simpl. rewrite E3. apply H3.
  - intros E. unfold locked in E. simpl in E. destruct (E4 E); [by apply H4|done].
Qed.

(** ** Requests on the wire *)

Definition answered_by (request : ApiRequest) (r : ApiResponse) (x : exchanged) : Prop :=
  xc_task x = me ∧ xc_request x = request ∧ responds r x.

(** One request, or none. *)
Definition sent_one (request : ApiRequest) w w' (r : result ApiResponse GithubError) : Prop :=
  client_inv w' ∧ later me w w' ∧
  match r with
  | Ok resp =>
      (∃ x, mine me w' = mine me w ++ [x] ∧ x ∈ aw_log w' ∧ answered_by request resp x) ∧
      ∃ url, resolve parse_url join_base (rq_path request) = Ok url
  | Err Transport =>
      (∃ x, mine me w' = mine me w ++ [x] ∧ xc_request x = request ∧ (xc_answer x = None ∨ xc_body x = None)) ∧
      ∃ url, resolve parse_url join_base (rq_path request) = Ok url
  | Err e => mine me w' = mine me w ∧ resolve parse_url join_base (rq_path request) = Err e
  end.

Lemma later_logged x w : later me w (logged x w).
Proof. split; [apply inv_logged|]. split; [done|]. split; [simpl; set_solver|done]. Qed.

Lemma sat_wire url b request w (Q : aworld → option (Z * HeaderMap) → Prop) :
  client_inv w →
  (∀ w' a body, client_inv w' → later me w w' →
     let x := mk_exchanged me request a body in
     mine me w' = mine me w ++ [x] → x ∈ aw_log w' → Q w' a) →
  sat V (aop (AWire url b request)) w Q.
Proof.
  intros Hi HS. apply sat_op; [by split|]. intros a w' (w1 & [body ->] & Hr).
  destruct Hr as [Hl Hm]. rewrite mine_app in Hm. simpl in Hm. rewrite decide_True in Hm by done.
  apply (HS w' a body); [by apply Hl, inv_logged|by etransitivity; [apply later_logged|]|done|].
  destruct Hl as (_ & _ & Hl & _). apply Hl. simpl. set_solver.
Qed.
Lemma sat_body w (Q : aworld → option str → Prop) :
  client_inv w → (∀ w' x, kept w w' → (∀ y, last (mine me w) = Some y → x = xc_body y) → Q w' x) → sat V (aop ABody) w Q.
Proof. intros Hi HQ. apply sat_op; [by split|]. intros x w' (w1 & [-> Hx] & Hr). by apply HQ; [apply kept_rely|]. Qed.

Lemma sat_plain e w (Q : aworld → aanswer e → Prop) :
  client_inv w → (∀ w, client_inv w → client_asks me w e) → (∀ x w w', client_act me w e x w' → w' = w) →
  (∀ w' x, kept w w' → Q w' x) → sat V (aop e) w Q.
Proof.
  intros Hi He Hs HQ. apply sat_op; [by apply He|]. intros x w' (w1 & Ha & Hr).
  apply Hs in Ha as ->. by apply HQ, kept_rely.
Qed.

Lemma send_raw_sat request w :
  client_inv w → sat V (send_raw parse_url join_base request) w (sent_one request w).
Proof.
  intros Hi. unfold send_raw. destruct (resolve _ _ _) as [url|e] eqn:Er.
  2: { apply sat_ret. split; [done|]. split; [done|]. unfold resolve in Er |- *.
       repeat case_match; simplify_eq; done. }
  apply sat_bind, sat_look; [done|]. intros w1 (Hi1 & Hl1 & Hm1).
  apply sat_bind, sat_wire; [done|]. intros w2 a body Hi2 Hl2 x Hm2 Hx.
  destruct a as [[status headers]|].
  2: { apply sat_ret. split; [done|]. split; [by etransitivity|]. split; [|by exists url]. exists x. split; [congruence|].
       split; [done|by left]. }
  apply sat_bind, sat_locked_calm; [done|by destruct Hi2|done|]. intros w3 (Hi3 & Hl3 & Hm3).
  apply sat_bind, sat_body; [done|]. intros w4 read (Hi4 & Hl4 & Hm4) Hread.
  assert (later me w w4) as Hl by (etransitivity; [exact Hl1|]; etransitivity; [exact Hl2|]; by etransitivity).
  assert (mine me w4 = mine me w ++ [x]) as Hm by congruence.
  assert (read = body) as ->.
  { apply (Hread x). rewrite Hm3, Hm2. apply last_snoc. }
  assert (x ∈ aw_log w4) as Hx4 by (destruct Hl3 as (_ & _ & L3 & _), Hl4 as (_ & _ & L4 & _); set_solver).
  destruct body as [body|]; apply sat_ret; (split; [done|split; [done|]]); (split; [exists x|by exists url]).
  - by split_and!.
  - split_and!; [done|done|by right].
Qed.

(** ** What an answer means *)

Definition acceptable (request : ApiRequest) (status : Z) : Prop :=
  is_success status = true ∨ (status = NOT_MODIFIED ∧ is_conditional request = true).

(** What a failure says of the answer that caused it. *)
Definition failure_of (request : ApiRequest) (r : ApiResponse) (position : Position) (e : GithubError) : Prop :=
  match e with
  | AuthenticationLockout d => lockout_answer r position ∧ d = lockout_delay r
  | Forbidden method path message headers =>
      rs_status r = FORBIDDEN ∧ ¬ lockout_answer r position ∧
      path = rq_path request ∧ message = error_message envelope (rs_body r) ∧ headers = rs_headers r
  | Status status method path message headers =>
      status = rs_status r ∧ status ≠ FORBIDDEN ∧ status ≠ UNAUTHORIZED ∧ (acceptable request status → False) ∧
      path = rq_path request ∧ message = error_message envelope (rs_body r) ∧ headers = rs_headers r
  | _ => False
  end.
Definition verdict_of (request : ApiRequest) (r : ApiResponse) (position : Position) (v : Classified) : Prop :=
  match v with
  | COk => acceptable request (rs_status r)
  | CUnauthorized => rs_status r = UNAUTHORIZED
  | CError e => failure_of request r position e
  end.

Lemma lockout_delay_bounds r : 0 ≤ lockout_delay r ≤ MAX_LOCKOUT_BACKOFF.
Proof.
  unfold lockout_delay. destruct (retry_after_header _) as [d|] eqn:E.
  - apply retry_after_bounds in E. unfold MAX_LOCKOUT_BACKOFF, seconds. lia.
  - unfold MAX_LOCKOUT_BACKOFF, seconds. lia.
Qed.
Lemma latch_sat x r position w (Q : aworld → Duration → Prop) :
  client_inv w → x ∈ aw_log w → responds r x → lockout_answer r position → (∀ w', kept w w' → Q w' (lockout_delay r)) →
  sat V (latch_lockout (rs_headers r)) w Q.
Proof.
  intros Hi Hx Hr Ha HQ. unfold latch_lockout. set (backoff := Z.min _ _).
  assert (backoff = lockout_delay r) as Hb.
  { subst backoff. unfold lockout_delay, DEFAULT_LOCKOUT_BACKOFF, MAX_LOCKOUT_BACKOFF, seconds.
    destruct (retry_after_header (rs_headers r)); simpl; lia. }
  pose proof (lockout_delay_bounds r). apply sat_bind, sat_locked_calm; [done| |done|].
  - destruct Hi as (? & ? & ? & ?). split; [done|]. split; [done|]. split; [|done].
    intros u [= <-]. simpl. split; [lia|]. by exists x, r, position.
  - intros w1 Hk. rewrite Hb. by apply sat_ret, HQ.
Qed.

Lemma classify_response_sat request r position x w (Q : aworld → Classified → Prop) :
  client_inv w → x ∈ aw_log w → responds r x → (∀ w' v, kept w w' → verdict_of request r position v → Q w' v) →
  sat V (classify_response envelope request r position) w Q.
Proof.
  intros Hi Hlog Hresp HQ. unfold classify_response. destruct (is_success (rs_status r)) eqn:Es; cbn [orb].
  { apply sat_bind, sat_change_calm; [done|naive_solver|]. intros w1 Hk. apply sat_ret, HQ; [done|by left]. }
  case_bool_decide as Enm; cbn [andb].
  { destruct (is_conditional request) eqn:Ec.
    - apply sat_bind, sat_change_calm; [done|naive_solver|]. intros w1 Hk. apply sat_ret, HQ; [done|by right].
    - rewrite Enm. apply sat_ret, HQ; [by apply kept_refl|]. simpl. rewrite Enm.
      repeat split; try done. intros [?|[_ ?]]; congruence. }
  case_bool_decide as Eu.
  { apply sat_bind, sat_change_calm; [done|naive_solver|]. intros w1 Hk. by apply sat_ret, HQ. }
  case_bool_decide as Ef; cbn [andb]; [pose proof (is_lockout_spec r position Ef) as Hspec; destruct (is_lockout_403 envelope r position)|].
  - apply sat_bind, (latch_sat x r position); [done|done|done|by apply Hspec|]. intros w1 Hk. apply sat_ret, HQ; [done|].
    split; [by apply Hspec|done].
  - apply sat_ret, HQ; [by apply kept_refl|]. split; [done|]. split; [|done]. by intros ?%Hspec.
  - apply sat_ret, HQ; [by apply kept_refl|]. simpl. repeat split; try done. intros [?|[? _]]; congruence.
Qed.

Lemma lockout_left_bounds w d :
  client_inv w → lockout_left (aw_clock w) (aw_client w) = Some d → 0 ≤ d ≤ MAX_LOCKOUT_BACKOFF ∧ lockout_seen w.
Proof.
  intros (_ & _ & Hb & _). unfold lockout_left, lockout_justified in *.
  destruct (lo_until _) as [u|]; [|done]. simpl. case_bool_decide; [done|]. intros [= <-].
  destruct (Hb u eq_refl). split; [lia|done].
Qed.
(** ** Under the gate *)

Definition since w w' : Prop := aw_clock w ≤ aw_clock w' ∧ aw_log w ⊆ aw_log w' ∧ mine me w' = mine me w.
#[local] Instance since_preorder : PreOrder since.
Proof.
  split; [by intros w|]. intros w1 w2 w3 (? & ? & ?) (? & ? & ?).
  split; [lia|]. split; [set_solver|congruence].
Qed.
Lemma kept_since w w' : kept w w' → since w w'.
Proof. by intros (_ & (_ & ? & ? & _) & ?). Qed.

Definition outside w : Prop := client_inv w ∧ aw_gate w ≠ Some me.
Definition inside w : Prop := client_inv w ∧ aw_gate w = Some me.
(** ... with a credential that may be left behind. *)
Definition inside_clean w : Prop := inside w ∧ unspent (aw_replaced w) (cred w).

Lemma outside_kept w w' : outside w → kept w w' → outside w'.
Proof. intros [_ Hg] (Hi & Hl & _). split; [done|by apply Hl]. Qed.
Lemma inside_kept w w' : inside w → kept w w' →
  inside w' ∧ cred w' = cred w ∧ aw_replaced w' = aw_replaced w ∧
  generation (aw_client w') = generation (aw_client w).
Proof.
  intros [_ Hg] (Hi & Hl & _). destruct Hl as (_ & _ & _ & Hl & _).
  destruct (Hl Hg) as (? & ? & ? & ?). done.
Qed.
Lemma inside_clean_kept w w' : inside_clean w → kept w w' → inside_clean w'.
Proof.
  intros [Hin Hu] Hk. destruct (inside_kept _ _ Hin Hk) as (? & Hc & Hr & _). split; [done|].
  by rewrite Hc, Hr.
Qed.
Lemma outside_since w w' : outside w → outside w' → since w w' → kept w w'.
Proof. intros [? Hg] [? ?] (? & ? & ?). split; [done|]. split; [|done]. unfold later. by split_and!. Qed.

Lemma sat_gate w (Q : aworld → unit → Prop) :
  outside w → (∀ w', inside_clean w' → since w w' → Q w' tt) → sat V (aop AGate) w Q.
Proof.
  intros [Hi Hg] HQ. apply sat_op; [done|]. intros [] w' (w1 & [Hn ->] & Hr).
  assert (client_inv (set_gate (Some me) w)) as Hi1 by by apply inv_set_gate.
  assert (inside_clean (set_gate (Some me) w)) as Hc by (split; [done|]; exact (proj1 Hi Hn)).
  apply HQ; [eapply inside_clean_kept; [done|by apply kept_rely]|].
  by apply (kept_since (set_gate (Some me) w)), kept_rely.
Qed.

Lemma sat_release w (Q : aworld → unit → Prop) :
  inside_clean w → (∀ w', outside w' → since w w' → Q w' tt) → sat V (aop ARelease) w Q.
Proof.
  intros [[Hi Hg] Hu] HQ. apply sat_op; [done|]. intros [] w' (w1 & -> & Hr).
  assert (outside (set_gate None w)) as Ho by (split; [by apply inv_set_gate|done]).
  apply HQ; [eapply outside_kept; [done|by apply kept_rely; [destruct Ho|]]|].
  apply (kept_since (set_gate None w)), kept_rely; [by destruct Ho|done].
Qed.

(** A change of the credential or the generation. *)
Lemma sat_locked_inside {A : Set} (f : Timestamp → Client → Client * A) w (Q : aworld → A → Prop) :
  inside w → client_inv (locked f w) →
  (∀ w', inside w' → cred w' = cred (locked f w) → aw_replaced w' = aw_replaced w → since w w' →
         Q w' (f (aw_clock w) (aw_client w)).2) →
  sat V (aop (ALocked A f)) w Q.
Proof.
  intros [Hi Hg] Hl HQ. apply sat_op; [done|]. intros x w' (w1 & [-> ->] & Hr).
  apply kept_rely in Hr; [|done].
  assert (inside (locked f w)) as Hin by done.
  destruct (inside_kept _ _ Hin Hr) as (? & ? & ? & _). apply HQ; [done..|]. by apply (kept_since (locked f w)).
Qed.

Definition produces (m : aprogram (option UserAccessToken)) : Prop := ∀ w, inside_clean w →
  sat V m w (λ w' x, since w w' ∧ inside w' ∧
    match x with
    | None => unspent (aw_replaced w') (cred w')
    | Some fresh => unspent (aw_replaced w') fresh ∧
        (unspent (aw_replaced w') (cred w') ∨ token (cred w') ≠ token fresh)
    end).

Lemma swap_sat m w : produces m → outside w → sat V (swap_credential_once m) w (λ w' _, kept w w').
Proof.
  intros Hp Ho. unfold swap_credential_once.
  assert (∀ w0 (b : bool), since w w0 → inside_clean w0 →
    sat V (_ ← aop ARelease; mret b) w0 (λ w' _, kept w w')) as Hleave.
  { intros w0 b Hs Hc. apply sat_bind, sat_release; [done|]. intros w' Ho' Hs'. apply sat_ret.
    apply outside_since; [done|done|]. by etransitivity. }
  apply sat_bind, sat_look; [by destruct Ho|]. intros w1 Hk1.
  apply sat_bind, sat_gate; [by eapply outside_kept|]. intros w2 Hc2 Hs2.
  assert (since w w2) as Hs by (etransitivity; [by apply kept_since|done]).
  apply sat_bind, sat_look; [by destruct Hc2 as [[] _]|]. intros w3 Hk3.
  assert (inside_clean w3) as Hc3 by by eapply inside_clean_kept.
  assert (since w w3) as Hs3 by (etransitivity; [done|by apply kept_since]).
  destruct (negb _); [by apply Hleave|].
  apply sat_bind. eapply sat_mono; [by apply Hp|]. intros w4 [fresh|] (Hs4 & Hin4 & Hx).
  2: { apply Hleave; [by etransitivity|done]. }
  destruct Hx as [Hf Ht]. apply sat_bind, sat_locked_inside; [done|..].
  { destruct Hin4 as [(? & ? & ? & ?) Hg]. unfold locked.
    case_match; (split; [simpl; congruence|]); done. }
  intros w5 Hin5 Hc5 Hr5 Hs5. unfold locked in Hc5. unfold str_eqb in *.
  case_bool_decide as Et; cbn [snd].
  - apply Hleave; [etransitivity; [done|by etransitivity]|]. split; [done|].
    rewrite Hr5, Hc5. simpl. by destruct Ht.
  - simpl in Hc5. unfold change. apply sat_bind, sat_locked_inside; [done| |].
    { by destruct Hin5 as [(? & ? & ? & ?) Hg]. }
    intros w6 Hin6 Hc6 Hr6 Hs6. apply Hleave.
    { etransitivity; [exact Hs3|]. etransitivity; [exact Hs4|]. by etransitivity. }
    split; [done|]. rewrite Hr6, Hr5, Hc6. unfold locked, cred in *. simpl. by rewrite Hc5.
Qed.

Lemma reload_once_sat w : outside w → sat V (reload_once has_source) w (λ w' _, kept w w').
Proof.
  intros Ho. unfold reload_once. destruct has_source; [|by apply sat_ret, kept_refl; destruct Ho].
  apply swap_sat; [|done]. intros w1 Hc. apply sat_op; [by destruct Hc as [[] _]|].
  intros x w2 (w3 & [-> Hx] & Hr). apply kept_rely in Hr as Hk; [|by destruct Hc as [[] _]].
  pose proof (inside_clean_kept _ _ Hc Hk) as [Hin Hu]. split; [by apply kept_since|]. split; [done|].
  destruct x as [fresh|]; [|done]. split; [|by left]. destruct Hc as [Hin1 _].
  destruct (inside_kept _ _ Hin1 Hk) as (_ & _ & -> & _). destruct Hx as [|Hx]; [done|].
  destruct Hin1 as [(_ & Hst & _) _]. by apply Hst.
Qed.

Lemma spend_refresh_produces : produces spend_refresh.
Proof.
  intros w Hc. unfold spend_refresh. apply sat_bind, sat_look; [by destruct Hc as [[] _]|]. intros w1 Hk1.
  pose proof (inside_clean_kept _ _ Hc Hk1) as [Hin1 Hu1].
  destruct (inside_kept _ _ (proj1 Hc) Hk1) as (_ & Hcr & _ & _).
  destruct (renewal (credential (aw_client w))) as [r|] eqn:Er; simpl.
  2: { apply sat_ret. split; [by apply kept_since|done]. }
  assert (renewal (cred w1) = Some r) as Er1 by by rewrite Hcr.
  apply sat_op_bind.
  { split; [by destruct Hin1|]. split; [by destruct Hin1|]. rewrite Er1. split; [done|]. by apply Hu1. }
  intros x w2 (w3 & Ha & Hr). apply sat_ret. destruct Hin1 as [Hi1 Hg1]. simpl in Ha. destruct x as [fresh|err].
  - destruct Ha as (-> & Hf & Ht). apply kept_rely in Hr; [|by eapply inv_rotated].
    assert (inside (rotated (refresh_token r) fresh w1)) as Hin2 by (split; [by eapply inv_rotated|done]).
    destruct (inside_kept _ _ Hin2 Hr) as (Hin3 & Hc3 & Hr3 & _).
    split; [transitivity w1; [by apply kept_since|exact (kept_since _ _ Hr)]|]. split; [done|].
    rewrite Hr3, Hc3. split; [done|]. right. intros E. by apply Ht.
  - assert (client_inv w3 ∧ aw_gate w3 = Some me ∧ cred w3 = cred w1 ∧ aw_replaced w3 = aw_replaced w1 ∧ since w1 w3)
      as (Hi3 & Hg3 & Ec & Er3 & Hs3) by (by destruct Ha as [-> | ->]).
    apply kept_rely in Hr; [|done]. destruct (inside_kept _ _ (conj Hi3 Hg3) Hr) as (Hin4 & Hc3 & Hr3 & _).
    split; [etransitivity; [by apply kept_since|]; etransitivity; [exact Hs3|by apply kept_since]|].
    split; [done|]. by rewrite Hc3, Hr3, Ec, Er3.
Qed.

Lemma reload_or_renew_sat w :
  outside w → sat V (reload_or_renew has_source has_renewal) w (λ w' _, kept w w').
Proof.
  intros Ho. unfold reload_or_renew. apply sat_bind. eapply sat_mono; [by apply reload_once_sat|].
  intros w1 [] Hk; [by apply sat_ret|]. unfold renew_once. destruct has_renewal; [|by apply sat_ret].
  eapply sat_mono; [apply swap_sat; [apply spend_refresh_produces|by eapply outside_kept]|].
  intros w2 b Hk2. by eapply kept_trans.
Qed.
(** ** Re-validation *)

(** Some requests later, no more than [n]. *)
Definition grown (n : nat) w w' : Prop :=
  aw_clock w ≤ aw_clock w' ∧ aw_log w ⊆ aw_log w' ∧
  ∃ l, mine me w' = mine me w ++ l ∧ (length l ≤ n)%nat.
Lemma grown_since w w' : since w w' → grown 0 w w'.
Proof. intros (? & ? & Hm). split; [done|]. split; [done|]. exists []. by rewrite app_nil_r. Qed.
Lemma grown_mono n n' w w' : (n ≤ n')%nat → grown n w w' → grown n' w w'.
Proof. intros ? (? & ? & l & ? & ?). split; [done|]. split; [done|]. exists l. split; [done|lia]. Qed.
Lemma grown_trans n1 n2 w1 w2 w3 : grown n1 w1 w2 → grown n2 w2 w3 → grown (n1 + n2) w1 w3.
Proof.
  intros (? & ? & l1 & Hm1 & ?) (? & ? & l2 & Hm2 & ?). split; [lia|]. split; [set_solver|].
  exists (l1 ++ l2). rewrite Hm2, Hm1, app_assoc, length_app. split; [done|lia].
Qed.
Lemma sent_grown request w w' r : sent_one request w w' r → grown 1 w w'.
Proof.
  intros (_ & (_ & ? & ? & _) & Hr). split; [done|]. split; [done|].
  assert (mine me w' = mine me w ∨ ∃ x, mine me w' = mine me w ++ [x]) as [->|[x ->]]
    by (destruct r as [|[]]; naive_solver).
  - exists []. rewrite app_nil_r. split; [done|simpl; lia].
  - by exists [x].
Qed.

Lemma inside_clean_later w w' : inside_clean w → client_inv w' → later me w w' → inside_clean w'.
Proof.
  intros [[? Hg] Hu] Hi (_ & _ & _ & Hl & _). destruct (Hl Hg) as (? & Hc & _ & Hr).
  split; [done|]. by rewrite Hc, Hr.
Qed.
Lemma outside_later w w' : outside w → client_inv w' → later me w w' → outside w'.
Proof. intros [? Hg] Hi (_ & _ & _ & _ & Hl). split; [done|by apply Hl]. Qed.

Lemma probe_sat position w :
  inside_clean w → sat V (probe_credential parse_url join_base envelope position) w
    (λ w' x, inside_clean w' ∧ grown 1 w w' ∧ (x = RevRejected → refused_probe w')).
Proof.
  intros Hc. unfold probe_credential. apply sat_bind.
  eapply sat_mono; [apply send_raw_sat; by destruct Hc as [[] _]|]. intros w1 r Hs.
  pose proof (sent_grown _ _ _ _ Hs) as Hg. destruct Hs as (Hi & Hl & Hr).
  assert (inside_clean w1) as Hc1 by by eapply inside_clean_later.
  assert (∀ w', kept w1 w' → inside_clean w' ∧ grown 1 w w') as Hk.
  { intros w' Hk. split; [by eapply inside_clean_kept|].
    apply (grown_trans 1 0 _ w1); [done|by apply grown_since, kept_since]. }
  destruct r as [r|e]; [|by apply sat_ret]. destruct (is_success _); [by apply sat_ret|].
  destruct Hr as [(x & _ & Hx & _ & Hreq & Hresp) _]. pose proof (responds_status _ _ Hresp) as Hst.
  case_bool_decide as Eu.
  { apply sat_bind, sat_change_calm; [done|naive_solver|]. intros w2 Hk2. apply sat_ret.
    split; [by apply Hk|]. split; [by apply Hk|]. intros _. exists x. split; [|split; congruence].
    destruct (kept_since _ _ Hk2) as (_ & HL & _). by apply HL. }
  case_bool_decide as Ef; [|by apply sat_ret]. pose proof (is_lockout_spec r position Ef) as Hspec.
  destruct (is_lockout_403 _ _ _); [|by apply sat_ret].
  apply sat_bind, (latch_sat x r position); [done|done|done|by apply Hspec|]. intros w2 Hk2. apply sat_ret.
  split; [by apply Hk|]. split; [by apply Hk|done].
Qed.

Lemma shared_or_probed_sat position sampled w :
  inside_clean w → sat V (shared_or_probed parse_url join_base envelope position sampled) w
    (λ w' x, inside_clean w' ∧ grown 1 w w' ∧ (x = RevRejected → refused_probe w')).
Proof.
  intros Hc. unfold shared_or_probed. apply sat_bind, sat_look; [by destruct Hc as [[] _]|]. intros w1 Hk1.
  assert (∀ w2, kept w1 w2 → inside_clean w2 ∧ grown 0 w w2) as Hkept.
  { intros w2 Hk2. split; [by do 2 (eapply inside_clean_kept; [|done])|].
    apply grown_since. by transitivity w1; apply kept_since. }
  assert (client_inv w1) as Hi1 by by destruct Hk1.
  destruct (negb _).
  - apply sat_look; [done|]. intros w2 Hk2. destruct (Hkept w2 Hk2) as [? Hg]. split; [done|].
    split; [by eapply grown_mono; [|done]; lia|].
    intros E. destruct Hi1 as (_ & _ & _ & Hlast). apply Hlast in E.
    eapply refused_mono; [|done]. by destruct (kept_since _ _ Hk2) as (_ & ? & _).
  - apply sat_bind, sat_change_calm; [done|naive_solver|]. intros w2 Hk2. destruct (Hkept w2 Hk2) as [Hc2 Hg2].
    apply sat_bind. eapply sat_mono; [by apply probe_sat|]. intros w3 x (Hc3 & Hg3 & Hx).
    assert (inside_clean w3) as [[Hi3 Hgate3] Hu3] by done.
    apply sat_bind. apply sat_change_calm; [done|naive_solver|]. intros w4 Hk4.
    pose proof (inside_clean_kept _ _ Hc3 Hk4) as Hc4. destruct Hc4 as [Hin4 Hu4].
    apply sat_bind. unfold change. apply sat_locked_inside; [done|by destruct Hin4 as [(? & ? & ? & ?) ?]|].
    intros w5 Hin5 Hcr5 Hrep5 Hs5. apply sat_ret.
    assert (since w3 w5) as Hs by (transitivity w4; [by apply kept_since|done]). split; [|split].
    + split; [done|]. by rewrite Hrep5, Hcr5.
    + apply (grown_trans 0 1 _ w2); [done|]. apply (grown_trans 1 0 _ w3); [done|]. by apply grown_since.
    + intros E. eapply refused_mono; [apply Hs|]. by apply Hx.
Qed.
Lemma revalidate_from_sat position w :
  outside w → sat V (revalidate_from parse_url join_base envelope position) w
    (λ w' r, outside w' ∧ grown 1 w w' ∧
      match r with
      | Ok x => x = RevRejected → refused_probe w'
      | Err e => ∃ d, e = AuthenticationLockout d ∧ 0 ≤ d ≤ MAX_LOCKOUT_BACKOFF ∧ lockout_seen w'
      end).
Proof.
  intros Ho. unfold revalidate_from, lockout_remaining. apply sat_bind, sat_look; [by destruct Ho|].
  intros w1 Hk1. pose proof (outside_kept _ _ Ho Hk1) as Ho1.
  destruct (lockout_left _ _) as [d|] eqn:Ed.
  { apply sat_ret. split; [done|]. split; [by eapply grown_mono; [|by apply grown_since, kept_since]; lia|].
    apply lockout_left_bounds in Ed as [? Hseen]; [|by destruct Ho]. exists d. split; [done|]. split; [done|].
    eapply seen_mono; [|exact Hseen]. by destruct (kept_since _ _ Hk1) as (_ & ? & _). }
  apply sat_bind, sat_look; [by destruct Ho1|]. intros w2 Hk2.
  apply sat_bind, sat_gate; [by eapply outside_kept|]. intros w3 Hc3 Hs3.
  assert (since w w3) as Hs by (transitivity w1; [by apply kept_since|]; transitivity w2; [by apply kept_since|done]).
  apply sat_bind. eapply sat_mono; [by apply shared_or_probed_sat|]. intros w4 x (Hc4 & Hg4 & Hx).
  apply sat_bind, sat_look; [by destruct Hc4 as [[] _]|]. intros w5 Hk5.
  apply sat_bind, sat_release; [by eapply inside_clean_kept|]. intros w6 Ho6 Hs6.
  assert (since w4 w6) as Hs46 by (transitivity w5; [by apply kept_since|done]).
  assert (grown 1 w w6) as Hg.
  { apply (grown_trans 0 1 _ w3); [by apply grown_since|]. apply (grown_trans 1 0 _ w4); [done|by apply grown_since]. }
  destruct (lockout_left (aw_clock w4) _) as [d|] eqn:E; apply sat_ret; (split; [done|split; [done|]]).
  - apply lockout_left_bounds in E as [? Hseen]; [|by destruct Hc4 as [[] _]]. exists d. split; [done|]. split; [done|].
    eapply seen_mono; [apply Hs46|done].
  - intros Ex. eapply refused_mono; [apply Hs46|]. by apply Hx.
Qed.

(** ** A request and its answer *)

(** What the result of [send] says of the requests that were made for it. *)
Definition position_of (l : list exchanged) : Position := if bool_decide (length l = 1)%nat then First else Retry.
Definition send_outcome (request : ApiRequest) w (r : result ApiResponse GithubError) : Prop :=
  (length (mine me w) ≤ 3)%nat ∧
  let refused_first := ∃ x, head (mine me w) = Some x ∧ xc_request x = request ∧ xc_status x = UNAUTHORIZED in
  match r with
  | Ok resp => acceptable request (rs_status resp) ∧
      ∃ x, last (mine me w) = Some x ∧ answered_by request resp x
  | Err AuthenticationFailed =>
      refused_first ∧
      ((∃ y, last (mine me w) = Some y ∧ (1 < length (mine me w))%nat ∧
             xc_request y = request ∧ xc_status y = UNAUTHORIZED) ∨ refused_probe w)
  | Err (AuthenticationLockout d) =>
      (∃ resp x, last (mine me w) = Some x ∧ answered_by request resp x ∧
         lockout_answer resp (position_of (mine me w)) ∧ d = lockout_delay resp) ∨
      ((mine me w = [] ∨ refused_first) ∧ 0 ≤ d ≤ MAX_LOCKOUT_BACKOFF ∧ lockout_seen w)
  | Err Transport =>
      ∃ x, last (mine me w) = Some x ∧ xc_request x = request ∧ (xc_answer x = None ∨ xc_body x = None)
  | Err (Malformed _ _ as e) => mine me w = [] ∧ resolve parse_url join_base (rq_path request) = Err e
  | Err e => ∃ resp x, last (mine me w) = Some x ∧ answered_by request resp x ∧
      failure_of request resp (position_of (mine me w)) e
  end.

(** After the 401 [x] and perhaps a probe. *)
Lemma retry_once_sat request x l w :
  outside w → mine me w = x :: l → (length l ≤ 1)%nat →
  xc_request x = request → xc_status x = UNAUTHORIZED → (∃ url, resolve parse_url join_base (rq_path request) = Ok url) →
  sat V (retry_once parse_url join_base envelope request) w (λ w' r, outside w' ∧ send_outcome request w' r).
Proof.
  intros Ho Hm Hl Hreq Hst [url Hurl]. unfold retry_once. apply sat_bind_ok.
  eapply sat_mono; [apply send_raw_sat; by destruct Ho|]. intros w1 r (Hi & Hla & Hr).
  assert (outside w1) as Ho1 by by eapply outside_later. destruct r as [resp|e].
  - destruct Hr as [(y & Hm1 & Hlog & Hy) _].
    apply sat_bind, (classify_response_sat _ _ _ y); [done|done|by destruct Hy as (_ & _ & ?)|]. intros w2 v Hk Hv.
    apply sat_ret. split; [by eapply outside_kept|].
    assert (mine me w2 = x :: l ++ [y]) as Hm2 by (destruct Hk as (_ & _ & ->); by rewrite Hm1, Hm).
    assert (last (mine me w2) = Some y) as Hlast by (by rewrite Hm2, app_comm_cons, last_snoc).
    split; [rewrite Hm2; simpl; rewrite length_app; simpl; lia|].
    assert (position_of (mine me w2) = Retry) as Hn.
    { unfold position_of. rewrite bool_decide_false; [done|]. rewrite Hm2. simpl. rewrite length_app. simpl. lia. }
    destruct v as [| |e]; simpl in Hv.
    + split; [done|]. by exists y.
    + split; [exists x; by rewrite Hm2|]. left. exists y. split; [done|].
      split; [|by destruct Hy as (_ & ? & ?%responds_status); split; [|congruence]].
      rewrite Hm2. simpl. rewrite length_app. simpl. lia.
    + destruct e; try done; [left|..]; exists resp, y; rewrite Hn; done.
  - split; [done|]. destruct e; try (by destruct Hr as [_ Hr]; rewrite Hurl in Hr).
    destruct Hr as [(y & Hm1 & Hy) _]. split.
    + rewrite Hm1, Hm. simpl. rewrite length_app. simpl. lia.
    + exists y. rewrite Hm1, last_snoc. done.
Qed.

Lemma revalidate_and_retry_sat request x w :
  outside w → mine me w = [x] → xc_request x = request → xc_status x = UNAUTHORIZED →
  (∃ url, resolve parse_url join_base (rq_path request) = Ok url) →
  sat V (revalidate_and_retry_once parse_url join_base envelope process_id has_source has_renewal request) w
    (λ w' r, outside w' ∧ send_outcome request w' r).
Proof.
  intros Ho Hm Hxr Hx401 Hurl.
  unfold revalidate_and_retry_once. apply sat_bind, sat_plain; [by destruct Ho|by split|by intros ? ? ? ->|].
  intros w4 [] Hk4. pose proof (outside_kept _ _ Ho Hk4) as Ho4.
  apply sat_bind. eapply sat_mono; [by apply reload_or_renew_sat|]. intros w5 b Hk5.
  pose proof (outside_kept _ _ Ho4 Hk5) as Ho5.
  assert (mine me w5 = [x]) as Hm5 by (destruct Hk5 as (_ & _ & ->), Hk4 as (_ & _ & ->); done).
  destruct b; [by eapply retry_once_sat; [done|exact Hm5|simpl; lia|..]|].
  apply sat_bind_ok. eapply sat_mono; [by apply revalidate_from_sat|]. intros w6 r (Ho6 & Hg6 & Hr6).
  destruct Hg6 as (_ & _ & l & Hm6 & Hn6). rewrite Hm5 in Hm6. simpl in Hm6. destruct r as [y|e].
  2: { destruct Hr6 as (d & -> & Hd & Hseen). split; [done|]. split; [rewrite Hm6; simpl; lia|]. right.
       split; [right; exists x; by rewrite Hm6|done]. }
  assert (sat V (locked ← lockout_remaining;
    match locked with
    | Some remaining => Ret (Err (AuthenticationLockout remaining))
    | None => retry_once parse_url join_base envelope request
    end) w6 (λ w' r, outside w' ∧ send_outcome request w' r)) as Hretry.
  { apply sat_bind, sat_look; [by destruct Ho6|]. intros w7 Hk7. pose proof (outside_kept _ _ Ho6 Hk7) as Ho7.
    assert (mine me w7 = x :: l) as Hm7 by (by destruct Hk7 as (_ & _ & ->)).
    destruct (lockout_left (aw_clock w6) _) as [d|] eqn:E.
    - apply sat_ret. split; [done|]. split; [rewrite Hm7; simpl; lia|]. right.
      split; [right; exists x; by rewrite Hm7|].
      apply lockout_left_bounds in E as [? Hseen]; [|by destruct Ho6]. split; [done|].
      eapply seen_mono; [|exact Hseen]. by destruct (kept_since _ _ Hk7) as (_ & ? & _).
    - by eapply retry_once_sat. }
  destruct y; [exact Hretry| |exact Hretry]. apply sat_ret. split; [done|]. split; [rewrite Hm6; simpl; lia|].
  split; [exists x; by rewrite Hm6|]. right. by apply Hr6.
Qed.

Lemma client_send_sat request w :
  outside w → mine me w = [] →
  sat V (client_send parse_url join_base envelope process_id has_source has_renewal request) w
    (λ w' r, outside w' ∧ send_outcome request w' r).
Proof.
  intros Ho Hm. unfold client_send, lockout_remaining. apply sat_bind, sat_look; [by destruct Ho|]. intros w1 Hk1.
  pose proof (outside_kept _ _ Ho Hk1) as Ho1. assert (mine me w1 = []) as Hm1 by (by destruct Hk1 as (_ & _ & ->)).
  destruct (lockout_left _ _) as [d|] eqn:Ed.
  { apply sat_ret. split; [done|]. split; [rewrite Hm1; simpl; lia|]. right. split; [by left|].
    apply lockout_left_bounds in Ed as [? Hseen]; [|by destruct Ho]. split; [done|].
    eapply seen_mono; [|exact Hseen]. by destruct (kept_since _ _ Hk1) as (_ & ? & _). }
  apply sat_bind_ok. eapply sat_mono; [apply send_raw_sat; by destruct Ho1|]. intros w2 r (Hi2 & Hl2 & Hr).
  assert (outside w2) as Ho2 by by eapply outside_later. destruct r as [resp|e].
  2: { split; [done|]. destruct e; try (destruct Hr as [Hr1 Hr2]; unfold resolve in Hr2; by repeat case_match).
       - unfold send_outcome. destruct Hr as [(y & -> & Hy) _]. rewrite Hm1. split; [simpl; lia|]. by exists y.
       - destruct Hr as [Hr1 Hr2]. unfold send_outcome. rewrite Hr1, Hm1. split; [simpl; lia|done]. }
  destruct Hr as [(x & Hm2 & Hlog & Hx) Hurl]. rewrite Hm1 in Hm2. simpl in Hm2.
  assert (xc_request x = request ∧ xc_status x = rs_status resp) as [Hxr Hxs] by by destruct Hx as (_ & ? & ?%responds_status).
  apply sat_bind, (classify_response_sat _ _ _ x); [done|done|by destruct Hx as (_ & _ & ?)|]. intros w3 v Hk3 Hv.
  pose proof (outside_kept _ _ Ho2 Hk3) as Ho3. assert (mine me w3 = [x]) as Hm3 by (by destruct Hk3 as (_ & _ & ->)).
  destruct v as [| |e]; cbn [verdict_of] in Hv.
  { apply sat_ret. split; [done|]. unfold send_outcome. rewrite Hm3. split; [simpl; lia|].
    split; [done|]. by exists x. }
  2: { apply sat_ret. split; [done|]. unfold send_outcome. rewrite Hm3. split; [simpl; lia|].
       destruct e; try done; [left|..]; by exists resp, x. }
  by apply (revalidate_and_retry_sat request x); [..|congruence|].
Qed.
End Caller.

(** ** Any number of callers *)

Section Callers.
Context (parse_url join_base : str → option str) (process_id : Z).
Context (has_source has_renewal : bool).

(** What a task does with the client, and what it gets. *)
Inductive caller := CSend (request : ApiRequest) | CRevalidate | CRenew (window : Duration).
Inductive reply :=
  | Sent (r : result ApiResponse GithubError)
  | Revalidated (r : result Revalidation GithubError)
  | Renewed (changed : bool).
Definition caller_program (c : caller) : aprogram reply :=
  match c with
  | CSend request =>
      r ← client_send parse_url join_base envelope process_id has_source has_renewal request; mret (Sent r)
  | CRevalidate => r ← revalidate parse_url join_base envelope; mret (Revalidated r)
  | CRenew window => b ← renew_if_expiring_within has_source has_renewal window; mret (Renewed b)
  end.
Definition replied (c : caller) (i : nat) w (x : reply) : Prop :=
  match c, x with
  | CSend request, Sent r => send_outcome parse_url join_base i request w r
  | CRevalidate, Revalidated r =>
      match r with
      | Ok y => y = RevRejected → refused_probe w
      | Err e => ∃ d, e = AuthenticationLockout d ∧ 0 ≤ d ≤ MAX_LOCKOUT_BACKOFF ∧ lockout_seen w
      end
  | CRenew _, Renewed _ => True
  | _, _ => False
  end.

(** Nobody has done anything with the client yet. *)
Definition unused w : Prop := client_inv w ∧ aw_gate w = None ∧ aw_log w = [].

Definition callers_step := (pool_step (A := reply) client_act client_tick).
Definition reachable (calls : nat → caller) w0 (p : pool) w : Prop :=
  clos_refl_trans_1n _ callers_step (λ i, caller_program (calls i), w0) (p, w).

Lemma renew_if_expiring_sat i window w :
  outside i w → sat (task_env client_asks client_act client_rely i)
    (renew_if_expiring_within has_source has_renewal window) w (λ _ _, True).
Proof.
  intros Ho. unfold renew_if_expiring_within. apply sat_bind, sat_look; [by destruct Ho|]. intros w1 Hk.
  destruct (due_within _ _ _) as [| |[]]; try (apply sat_ret; exact I).
  eapply sat_mono; [apply reload_or_renew_sat; exact (outside_kept _ _ _ Ho Hk)|]. intros; exact I.
Qed.

Lemma callers_settled calls w0 :
  unused w0 → all_settled client_asks client_act client_rely (λ i, replied (calls i) i)
                (λ i, caller_program (calls i), w0).
Proof.
  intros (Hi & Hg & Hlog) i. unfold settled. cbn [fst snd]. intros w [Hl Hm].
  assert (outside i w) as Ho.
  { split; [by apply Hl|]. destruct Hl as (_ & _ & _ & _ & Hl). apply Hl. by rewrite Hg. }
  assert (mine i w = []) as Hm0 by (rewrite Hm; unfold mine; by rewrite Hlog).
  destruct (calls i) as [request| |window]; cbn [caller_program replied].
  - apply sat_bind. eapply sat_mono; [by eapply client_send_sat|].
    intros w' r [_ H]. exact H.
  - apply sat_bind. unfold revalidate. eapply sat_mono; [by eapply revalidate_from_sat|].
    intros w' r (_ & _ & H). exact H.
  - apply sat_bind. eapply sat_mono; [by apply renew_if_expiring_sat|]. intros; exact I.
Qed.

Lemma callers_sound calls w0 p w : unused w0 → reachable calls w0 p w →
  ∀ i, match p i with Op e k => client_asks i w e | Ret x => replied (calls i) i w x end.
Proof.
  intros Hu Hr. apply (pool_sound client_asks client_act client_tick client_rely
    (λ i, replied (calls i) i) act_rely tick_rely _ _ Hr). by apply callers_settled.
Qed.

(** C16: no successor of a refresh token is thrown away. However many callers send,
    re-validate and renew at once, in any interleaving, and whatever GitHub and the store
    answer: whenever one of them is about to exchange a refresh token, it alone holds the
    gate, the token is that of the credential in use, and no exchange of it has succeeded
    before, so that it was spent already only where an exchange of it was reported as
    failed; the same caller never waits for the gate while it holds it. *)
Theorem superseded_token_never_presented calls w0 p w i e k :
  unused w0 → reachable calls w0 p w → p i = Op e k →
  match e with
  | ARenew r =>
      aw_gate w = Some i ∧ refresh_token <$> renewal (cred w) = Some r ∧ r ∉ aw_replaced w
  | AGate => aw_gate w ≠ Some i
  | _ => True
  end.
Proof.
  intros Hu Hr Hi. pose proof (callers_sound _ _ _ _ Hu Hr i) as H. rewrite Hi in H.
  destruct e; try done; by destruct H.
Qed.

(** C17: what [send] reports is what happened. In any interleaving of callers, a call that
    has ended put at most three requests on the wire, and: a response is the whole answer
    to the last of them, which was this request, and a success, or a 304 to a conditional
    request; a failed authentication means that this request was refused with 401 and then
    either refused again, or a probe of the client was refused (its own, or one of another
    caller, perhaps earlier); a lockout is that of the last answer, a 403 that tells of one
    at that position, with the delay it names, or one that some caller's answer had told of,
    and then nothing was sent or this request had been refused with 401; a failed
    connection means that the last request was this one and got no whole answer; another
    failure is the last answer's, which tells of none of these; and where the path could
    not be used nothing was sent. *)
Theorem send_reports_what_happened calls w0 p w i request r :
  unused w0 → reachable calls w0 p w → calls i = CSend request → p i = Ret (Sent r) →
  send_outcome parse_url join_base i request w r.
Proof.
  intros Hu Hr Hc Hi. pose proof (callers_sound _ _ _ _ Hu Hr i) as H. by rewrite Hi, Hc in H.
Qed.
End Callers.
End Auth.
