(* ===== verification/AuthRuns.v ===== *)
(** * Runs of the authenticated client

    A scheduler that executes callers of [AuthSafety] with scripted answers, every run of
    which is an interleaving of that world; the lockout of a client with one caller at a
    time; and concrete runs. *)

From Stdlib Require Import Relations.
From stdpp Require Import strings.
From S2P Require Import Prelude RustStr Ordered Model Github Effects Tasks Http Traffic AuthClient AuthSafety.
#[local] Open Scope Z_scope.
#[local] Open Scope rust_scope.

(** ** A lockout silences a lone caller *)

Definition silent w : Prop := lockout_left (aw_clock w) (aw_client w) = None.

(** Only the callers of this client latch or lift its lockout; here nobody else does
    while the call lasts, and time passes. *)
Definition undisturbed (w w' : aworld) : Prop :=
  aw_clock w ≤ aw_clock w' ∧ lockout (aw_client w') = lockout (aw_client w).
Definition lone_env : env aanswer aworld :=
  mk_env (λ w e, match e with AWire _ _ _ => silent w | _ => True end)
    (λ w e x w', ∃ i w1, client_act i w e x w1 ∧ undisturbed w1 w').

#[global] Instance undisturbed_preorder : PreOrder undisturbed.
Proof. split; [done|]. intros w1 w2 w3 [? ?] [? ?]. split; [lia|congruence]. Qed.

Lemma silent_undisturbed w w' : undisturbed w w' → silent w → silent w'.
Proof.
  intros [Hc Hl]. unfold silent, lockout_left. rewrite Hl.
  destruct (lo_until (lockout (aw_client w))); [|done]. simpl. repeat case_bool_decide; done || lia.
Qed.

Section Lone.
Context (parse_url join_base : str → option str) (envelope : str → option (option str)) (process_id : Z).
Context (has_source has_renewal : bool).
#[local] Abbreviation V := lone_env.

(** A call that does not latch. *)
Definition gentle (e : acall) : Prop :=
  match e with ALocked A f => ∀ now c, lockout (f now c).1 = lockout c | AWire _ _ _ => False | _ => True end.

Lemma gentle_does w e x w' : gentle e → does V w e x w' → undisturbed w w'.
Proof.
  intros He (i & w1 & Ha & Hu). etransitivity; [|exact Hu]. destruct e as [A f| | |d|url b request| | |r]; simpl in *.
  - destruct Ha as [_ ->]. split; [done|apply He].
  - by destruct Ha as [_ ->].
  - by subst.
  - by subst.
  - done.
  - by destruct Ha as [-> _].
  - by destruct Ha as [-> _].
  - destruct x; [by destruct Ha as (-> & _)|by destruct Ha as [-> | ->]].
Qed.

Lemma gentle_sat {A} (m : aprogram A) w (Q : aworld → A → Prop) :
  within gentle m → (∀ w' a, undisturbed w w' → Q w' a) → sat V m w Q.
Proof.
  intros Hm HQ. eapply sat_mono; [apply (sat_within V gentle (λ _, True) undisturbed _ w); try done|].
  - intros s e _ He. by destruct e.
  - intros s e x s' _ He Hd. split; [done|]. by eapply gentle_does.
  - intros w' a [_ ?]. by apply HQ.
Qed.

Lemma sat_silent_wire url b request w (Q : aworld → option (Z * HeaderMap) → Prop) :
  silent w → (∀ w' x, silent w' → Q w' x) → sat V (aop (AWire url b request)) w Q.
Proof.
  intros Hs HQ. apply sat_op; [done|]. intros x w' (i & w1 & Ha & Hu). apply HQ.
  eapply silent_undisturbed; [exact Hu|]. simpl in Ha. by destruct Ha as [body ->].
Qed.

Ltac gentle := repeat (within_step ltac:(simpl; intros; repeat case_match; done) || (unfold look, change) || done).

Lemma lone_send_raw request w :
  silent w → sat V (send_raw parse_url join_base request) w (λ w' _, silent w').
Proof.
  intros Hs. unfold send_raw. destruct (resolve _ _ _); [|by apply sat_ret].
  apply sat_bind, gentle_sat; [gentle|]. intros w1 b Hu1.
  apply sat_bind, sat_silent_wire; [by eapply silent_undisturbed|]. intros w2 [[status headers]|] Hs2; [|by apply sat_ret].
  apply gentle_sat; [gentle|]. intros w3 r Hu3. by eapply silent_undisturbed.
Qed.

(** An answer that is not an error leaves the client as free as it was. *)
Lemma lone_classify request r position w :
  silent w → sat V (classify_response envelope request r position) w
    (λ w' v, match v with CError _ => True | _ => silent w' end).
Proof.
  intros Hs. unfold classify_response. destruct (_ || _).
  { apply gentle_sat; [gentle|]. intros w1 v Hu. destruct v; try done; by eapply silent_undisturbed. }
  case_bool_decide.
  { apply gentle_sat; [gentle|]. intros w1 v Hu. destruct v; try done; by eapply silent_undisturbed. }
  destruct (_ && _); [|by apply sat_ret]. unfold latch_lockout.
  apply sat_bind, sat_bind, sat_op; [done|]. intros x w1 _. by apply sat_ret, sat_ret.
Qed.
Lemma lone_lockout_remaining w (Q : aworld → option Duration → Prop) :
  (∀ w' d, undisturbed w w' → d = lockout_left (aw_clock w) (aw_client w) → Q w' d) →
  sat V lockout_remaining w Q.
Proof.
  intros HQ. apply sat_op; [done|]. intros x w' (i & w1 & [-> ->] & Hu). apply HQ; [|done].
  etransitivity; [|exact Hu]. done.
Qed.

Lemma lone_retry request w :
  silent w → sat V (retry_once parse_url join_base envelope request) w (λ _ _, True).
Proof.
  intros Hs. unfold retry_once. apply sat_bind_ok. eapply sat_mono; [by apply lone_send_raw|].
  intros w1 [r|e] Hs1; [|exact I]. apply sat_bind. eapply sat_mono; [by apply lone_classify|].
  intros w2 v _. apply sat_ret. exact I.
Qed.

Lemma lone_revalidate position w :
  sat V (revalidate_from parse_url join_base envelope position) w
    (λ w' r, match r with Ok _ => silent w' | Err _ => True end).
Proof.
  unfold revalidate_from. apply sat_bind, lone_lockout_remaining. intros w1 d Hu1 ->.
  destruct (lockout_left _ _) eqn:E; [by apply sat_ret|].
  assert (silent w1) as Hs1 by by eapply silent_undisturbed.
  apply sat_bind, gentle_sat; [gentle|]. intros w2 sampled Hu2.
  apply sat_bind, gentle_sat; [gentle|]. intros w3 [] Hu3.
  assert (silent w3) as Hs3 by (eapply silent_undisturbed; [|exact Hs1]; by etransitivity).
  assert (sat V (shared_or_probed parse_url join_base envelope position sampled) w3 (λ _ _, True)) as Hp.
  { unfold shared_or_probed. apply sat_bind, gentle_sat; [gentle|]. intros w4 g Hu4.
    destruct (negb _); [apply gentle_sat; [gentle|]; done|].
    apply sat_bind, gentle_sat; [gentle|]. intros w5 [] Hu5. apply sat_bind. unfold probe_credential.
    apply sat_bind. eapply sat_mono; [apply lone_send_raw; eapply silent_undisturbed; [exact (transitivity Hu4 Hu5)|done]|].
    intros w6 r Hs6. apply (sat_mono V _ _ (λ _ _, True)).
    - destruct r as [r|]; [|by apply sat_ret]. destruct (is_success _); [by apply sat_ret|].
      case_bool_decide; [apply gentle_sat; [gentle|done]|]. case_bool_decide; [|by apply sat_ret].
      destruct (is_lockout_403 _ _ _); [|by apply sat_ret]. unfold latch_lockout.
      apply sat_bind, sat_bind, sat_op; [done|]. intros x w7 _. by apply sat_ret, sat_ret.
    - intros w7 x _. apply gentle_sat; [gentle|done]. }
  apply sat_bind. eapply sat_mono; [exact Hp|]. intros w4 outcome _.
  apply sat_bind, lone_lockout_remaining. intros w5 d Hu5 ->.
  apply sat_bind, gentle_sat; [gentle|]. intros w6 [] Hu6.
  destruct (lockout_left (aw_clock w4) _) eqn:E4; apply sat_ret; [exact I|].
  eapply silent_undisturbed; [|exact E4]. by etransitivity.
Qed.

Lemma reload_or_renew_gentle : within gentle (reload_or_renew has_source has_renewal).
Proof.
  unfold reload_or_renew, reload_once, renew_once, swap_credential_once, spend_refresh.
  destruct has_source, has_renewal; gentle.
Qed.

Lemma lone_send request w :
  sat V (client_send parse_url join_base envelope process_id has_source has_renewal request) w (λ _ _, True).
Proof.
  unfold client_send. apply sat_bind, lone_lockout_remaining. intros w1 d Hu1 ->.
  destruct (lockout_left _ _) eqn:E; [by apply sat_ret|].
  assert (silent w1) as Hs1 by by eapply silent_undisturbed.
  apply sat_bind_ok. eapply sat_mono; [by apply lone_send_raw|]. intros w2 [r|e] Hs2; [|exact I].
  apply sat_bind. eapply sat_mono; [by apply lone_classify|]. intros w3 v Hs3.
  destruct v; [by apply sat_ret| |by apply sat_ret]. unfold revalidate_and_retry_once.
  apply sat_bind, gentle_sat; [gentle|]. intros w4 [] Hu4.
  apply sat_bind, gentle_sat; [apply reload_or_renew_gentle|]. intros w5 changed Hu5. destruct changed.
  { apply lone_retry. eapply silent_undisturbed; [|exact Hs3]. by etransitivity. }
  apply sat_bind_ok. eapply sat_mono; [apply lone_revalidate|]. intros w6 [x|e'] Hs6; [|exact I].
  assert (sat V (locked ← lockout_remaining;
    match locked with
    | Some remaining => Ret (Err (AuthenticationLockout remaining))
    | None => retry_once parse_url join_base envelope request
    end) w6 (λ _ _, True)) as Hretry; [|by destruct x; [|apply sat_ret|]].
  apply sat_bind, lone_lockout_remaining. intros w7 d Hu7 ->.
  destruct (lockout_left (aw_clock w6) _); [by apply sat_ret|]. by eapply lone_retry, silent_undisturbed.
Qed.

End Lone.

(** ** A scheduler *)

(** What the outside answers to the calls that ask it. *)
Inductive outside_answer :=
  | OnWire (x : option (Z * HeaderMap)) (body : option str)
  | OnReload (readable : bool)
  | OnRenew (x : result UserAccessToken RenewalError) (spent : bool).

Definition mints (r : str) (fresh : UserAccessToken) (w : aworld) : bool :=
  match renewal fresh with
  | Some x => negb (bool_decide (refresh_token x ∈ r :: aw_replaced w))
  | None => true
  end && negb (bool_decide (token fresh = token (cred w))).

(** A call that asks nothing of the outside. *)
Definition perform_own (i : nat) (w : aworld) (e : acall) : option (aanswer e * aworld) :=
  match e return option (aanswer e * aworld) with
  | ALocked A f => Some ((f (aw_clock w) (aw_client w)).2, locked f w)
  | AGate => if bool_decide (aw_gate w = None) then Some (tt, set_gate (Some i) w) else None
  | ARelease => Some (tt, set_gate None w)
  | ASleep _ => Some (tt, w)
  | ABody => Some (last (mine i w) ≫= xc_body, w)
  | _ => None
  end.
Definition perform_answered (i : nat) (a : outside_answer) (w : aworld) (e : acall)
    : option (aanswer e * aworld) :=
  match e, a return option (aanswer e * aworld) with
  | AWire _ _ request, OnWire x body => Some (x, logged (mk_exchanged i request x body) w)
  | AReload, OnReload readable => Some (if readable then aw_store w else None, w)
  | ARenew r, OnRenew x spent =>
      match x with
      | Ok fresh => if mints r fresh w then Some (Ok fresh, rotated r fresh w) else None
      | Err e => Some (Err e, if spent then wasted r w else w)
      end
  | _, _ => None
  end.

Lemma perform_own_act i w e x w' : perform_own i w e = Some (x, w') → client_act i w e x w'.
Proof.
  destruct e; simpl; try done; [by intros [= <- <-]| |by intros [= _ <-]..|].
  - case_bool_decide; [|done]. by intros [= _ <-].
  - intros [= <- <-]. split; [done|]. by intros y ->.
Qed.
Lemma perform_answered_act i a w e x w' :
  perform_answered i a w e = Some (x, w') → client_act i w e x w'.
Proof.
  destruct e as [| | | | url b request| | |r], a as [y body|y|y spent]; simpl; try done.
  - intros [= <- <-]. by exists body.
  - intros [= <- <-]. split; [done|]. destruct y; auto.
  - destruct y as [fresh|]; [|by intros [= <- <-]; destruct spent; auto].
    destruct (mints r fresh w) eqn:E; [|done]. intros [= <- <-]. split; [done|].
    unfold mints in E. apply andb_prop in E as [E1 E2]. split.
    + intros rn Hrn. rewrite Hrn in E1. by apply negb_true_iff, bool_decide_eq_false in E1.
    + by apply negb_true_iff, bool_decide_eq_false in E2.
Qed.

(** Task [i] runs on while it needs no answer, or has one. *)
Fixpoint advance (fuel i : nat) (answers : list outside_answer) (p : @pool acall aanswer reply) (w : aworld)
    : pool * aworld :=
  match fuel, p i with
  | S fuel, Op e k =>
      match perform_own i w e with
      | Some (x, w') => advance fuel i answers (set_task i (k x) p) w'
      | None =>
          match answers with
          | a :: answers =>
              match perform_answered i a w e with
              | Some (x, w') => advance fuel i answers (set_task i (k x) p) w'
              | None => (p, w)
              end
          | [] => (p, w)
          end
      end
  | _, _ => (p, w)
  end.
(** Turns of tasks, each with its answers. *)
Fixpoint run_turns (fuel : nat) (l : list (nat * list outside_answer)) (c : pool * aworld)
    : pool * aworld :=
  match l with
  | [] => c
  | t :: l => run_turns fuel l (advance fuel t.1 t.2 c.1 c.2)
  end.

Lemma advance_steps fuel i answers p w :
  clos_refl_trans_1n _ callers_step (p, w) (advance fuel i answers p w).
Proof.
  revert answers p w. induction fuel as [|fuel IH]; intros answers p w; simpl; [constructor|].
  destruct (p i) as [a|e k] eqn:Ei; [constructor|].
  destruct (perform_own i w e) as [[x w']|] eqn:E.
  { econstructor; [|apply IH]. econstructor; [exact Ei|]. by apply perform_own_act. }
  destruct answers as [|a answers]; [constructor|].
  destruct (perform_answered i a w e) as [[x w']|] eqn:E'; [|constructor].
  econstructor; [|apply IH]. econstructor; [exact Ei|]. by eapply perform_answered_act.
Qed.

Lemma run_turns_steps fuel l c : clos_refl_trans_1n _ callers_step c (run_turns fuel l c).
Proof.
  revert c. induction l as [|t l IH]; intros c; simpl; [constructor|].
  apply clos_rt_rt1n. eapply rt_trans; apply clos_rt1n_rt; [|apply IH].
  destruct c. apply advance_steps.
Qed.

(** ** Examples *)

Definition exchanging (m : aprogram reply) : option str :=
  match m with Op (ARenew r) _ => Some r | _ => None end.
Lemma exchanging_op m r : exchanging m = Some r → ∃ k, m = Op (ARenew r) k.
Proof. destruct m as [|[] k]; simpl; try done. intros [= ->]. by exists k. Qed.
Definition sending (m : aprogram reply) : option ApiRequest :=
  match m with Op (AWire _ _ request) _ => Some request | _ => None end.
Lemma sending_op m request : sending m = Some request → ∃ url bearer k, m = Op (AWire url bearer request) k.
Proof. destruct m as [|[] k]; simpl; try done. intros [= ->]. by do 2 eexists; exists k. Qed.
Definition returned (m : aprogram reply) : option reply := match m with Ret x => Some x | _ => None end.
Lemma returned_ret m x : returned m = Some x → m = Ret x.
Proof. destruct m; simpl; congruence. Qed.

Definition ex_token (access : string) (refresh : option string) : UserAccessToken :=
  mk_token (lit access) (lit "bearer") None ((λ r, mk_renewal (lit r) None None) <$> refresh).
Definition ex_world (stored : option UserAccessToken) (t : UserAccessToken) : aworld :=
  mk_aworld (Client_new t) (seconds 1000) None stored [] [] [].
Definition ex_request : ApiRequest := api_get (lit "/repos").
Definition ex_url (path : str) : option str := Some path.
Definition ex_envelope (body : str) : option (option str) := None.
Definition ex_answer (status : Z) : list outside_answer := [OnWire (Some (status, [])) (Some [])].
Definition ex_calls (i : nat) : caller := CSend ex_request.
Definition ex_start (has_renewal : bool) (t : UserAccessToken) : pool * aworld :=
  (λ i, caller_program ex_envelope ex_url ex_url 0 true has_renewal (ex_calls i), ex_world None t).

Definition ex_run (has_renewal : bool) (t : UserAccessToken) (l : list (nat * list outside_answer))
    : pool * aworld :=
  run_turns 100 l (ex_start has_renewal t).
Lemma ex_run_reachable has_renewal t l :
  reachable ex_envelope ex_url ex_url 0 true has_renewal ex_calls (ex_world None t)
    (ex_run has_renewal t l).1 (ex_run has_renewal t l).2.
Proof. unfold reachable. rewrite <- surjective_pairing. apply run_turns_steps. Qed.

Lemma ex_unused t : unused ex_envelope (ex_world None t).
Proof.
  split; [|done]. split; [|done]. intros _ r _. simpl. apply not_elem_of_nil.
Qed.

(** Two callers are refused; the first is about to renew, the second waits for the gate. *)
Definition ex_refusals : list (nat * list outside_answer) :=
  [(0%nat, ex_answer 401); (1%nat, ex_answer 401); (0%nat, [OnReload false])].
Definition ex_renewing : pool * aworld :=
  ex_run true (ex_token "a1" (Some "r1"%string)) ex_refusals.
Lemma superseded_token_never_presented_witness :
  exchanging (ex_renewing.1 0%nat) = Some (lit "r1") ∧
  aw_gate ex_renewing.2 = Some 0%nat ∧ lit "r1" ∉ aw_replaced ex_renewing.2.
Proof.
  assert (exchanging (ex_renewing.1 0%nat) = Some (lit "r1")) as E by (vm_compute; reflexivity).
  split; [exact E|]. apply exchanging_op in E as [k E].
  pose proof (superseded_token_never_presented ex_envelope ex_url ex_url 0 true true ex_calls
    (ex_world None (ex_token "a1" (Some "r1"%string))) ex_renewing.1 ex_renewing.2 0%nat (ARenew (lit "r1")) k
    (ex_unused _) (ex_run_reachable _ _ _) E) as (H1 & _ & H2). split; [exact H1|exact H2].
Defined.

(** The first gets a new pair and its retry succeeds; the second finds the new pair in
    use, and its retry is refused again. *)
Definition ex_renewal : list (nat * list outside_answer) :=
  [(0%nat, OnRenew (Ok (ex_token "a2" (Some "r2"%string))) true :: ex_answer 200); (1%nat, ex_answer 401)].
Definition ex_renewed : pool * aworld :=
  ex_run true (ex_token "a1" (Some "r1"%string)) (ex_refusals ++ ex_renewal).
Lemma ex_renewed_reachable :
  reachable ex_envelope ex_url ex_url 0 true true ex_calls (ex_world None (ex_token "a1" (Some "r1"%string)))
    ex_renewed.1 ex_renewed.2.
Proof. unfold ex_renewed. apply ex_run_reachable. Qed.
Lemma send_reports_what_happened_witness :
  returned (ex_renewed.1 0%nat) = Some (Sent (Ok (mk_response 200 [] []))) ∧
  returned (ex_renewed.1 1%nat) = Some (Sent (Err AuthenticationFailed)) ∧
  send_outcome ex_envelope ex_url ex_url 0 ex_request ex_renewed.2 (Ok (mk_response 200 [] [])) ∧
  send_outcome ex_envelope ex_url ex_url 1 ex_request ex_renewed.2 (Err AuthenticationFailed).
Proof.
  assert (returned (ex_renewed.1 0%nat) = Some (Sent (Ok (mk_response 200 [] [])))) as E0 by (vm_compute; reflexivity).
  assert (returned (ex_renewed.1 1%nat) = Some (Sent (Err AuthenticationFailed))) as E1 by (vm_compute; reflexivity).
  split; [exact E0|]. split; [exact E1|]. apply returned_ret in E0, E1.
  split.
  - exact (send_reports_what_happened _ _ _ _ _ _ ex_calls _ ex_renewed.1 ex_renewed.2 0 ex_request _
             (ex_unused _) ex_renewed_reachable eq_refl E0).
  - exact (send_reports_what_happened _ _ _ _ _ _ ex_calls _ ex_renewed.1 ex_renewed.2 1 ex_request _
             (ex_unused _) ex_renewed_reachable eq_refl E1).
Defined.

(** With several callers, the silence has a hole. The credential cannot be renewed; both
    callers are refused, and the second waits for the gate while the first probes. The
    probe is answered with a lockout, and the first reports it; the second sees that the
    generation moved on, takes that for a new credential, and sends its request again
    while the lockout is in force. *)
Definition ex_lockout : list (nat * list outside_answer) :=
  [(0%nat, ex_answer 401 ++ [OnReload false]); (1%nat, ex_answer 401); (0%nat, ex_answer 403); (1%nat, [])].
Definition ex_locked_out : pool * aworld :=
  ex_run false (ex_token "a1" None) ex_lockout.
Theorem waiting_caller_breaks_lockout :
  reachable ex_envelope ex_url ex_url 0 true false ex_calls (ex_world None (ex_token "a1" None))
    ex_locked_out.1 ex_locked_out.2 ∧
  returned (ex_locked_out.1 0%nat) = Some (Sent (Err (AuthenticationLockout (seconds 60)))) ∧
  sending (ex_locked_out.1 1%nat) = Some ex_request ∧
  lockout_left (aw_clock ex_locked_out.2) (aw_client ex_locked_out.2) = Some (seconds 60).
Proof.
  split; [apply ex_run_reachable|]. split; [vm_compute; reflexivity|]. split; vm_compute; reflexivity.
Qed.

(** A refresh token that was spent is presented again. The exchange succeeded, but the new
    pair could not be stored: the caller is told that the renewal failed, and the client
    goes on with the spent token, which the next caller presents. *)
Definition ex_wasted : pool * aworld :=
  ex_run true (ex_token "a1" (Some "r1"%string))
    [(0%nat, ex_answer 401 ++ [OnReload false; OnRenew (Err (RenewalFailed [])) true] ++ ex_answer 401);
     (1%nat, ex_answer 401 ++ [OnReload false])].
Theorem spent_token_presented_again :
  reachable ex_envelope ex_url ex_url 0 true true ex_calls (ex_world None (ex_token "a1" (Some "r1"%string)))
    ex_wasted.1 ex_wasted.2 ∧
  exchanging (ex_wasted.1 1%nat) = Some (lit "r1") ∧ lit "r1" ∈ aw_spent ex_wasted.2.
Proof.
  split; [apply ex_run_reachable|]. split; [vm_compute; reflexivity|].
  apply (bool_decide_unpack _). vm_compute. exact I.
Qed.

(** A verdict about another credential. An earlier probe was refused. Now a caller is
    refused, finds nothing new, samples the generation and waits for the gate while another
    puts a new credential in use: it sees that the generation moved on, takes the earlier
    verdict for one about now, and reports that the authentication failed, although the new
    credential was never tried. *)
Definition ex_no_renewal : list outside_answer := [OnReload false; OnRenew (Err (RenewalFailed [])) false].
Definition ex_stale : pool * aworld :=
  run_turns 100 [(1%nat, OnRenew (Ok (ex_token "a2" (Some "r2"%string))) true :: ex_answer 200); (0%nat, [])]
    (run_turns 100 [(1%nat, ex_answer 401 ++ [OnReload false])]
      (run_turns 20 [(0%nat, ex_answer 401 ++ ex_no_renewal)]
        (ex_run true (ex_token "a1" (Some "r1"%string)) [(2%nat, ex_answer 401 ++ ex_no_renewal ++ ex_answer 401)]))).
Theorem stale_verdict_reported :
  reachable ex_envelope ex_url ex_url 0 true true ex_calls (ex_world None (ex_token "a1" (Some "r1"%string)))
    ex_stale.1 ex_stale.2 ∧
  returned (ex_stale.1 1%nat) = Some (Sent (Ok (mk_response 200 [] []))) ∧
  returned (ex_stale.1 0%nat) = Some (Sent (Err AuthenticationFailed)) ∧ length (mine 0 ex_stale.2) = 1%nat.
Proof.
  split_and!; [|vm_compute; reflexivity..]. unfold reachable. rewrite <- surjective_pairing. unfold ex_stale.
  do 3 (apply clos_rt_rt1n; eapply rt_trans; apply clos_rt1n_rt; [|apply run_turns_steps]).
  apply (run_turns_steps 100 _ (ex_start true _)).
Qed.

(** *** One caller at a time *)

Fixpoint advance_alone (fuel : nat) (answers : list outside_answer) (m : aprogram reply) (w : aworld)
    : aprogram reply * aworld :=
  match fuel, m with
  | S fuel, Op e k =>
      match perform_own 0 w e with
      | Some (x, w') => advance_alone fuel answers (k x) w'
      | None =>
          match answers with
          | a :: answers =>
              match perform_answered 0 a w e with
              | Some (x, w') => advance_alone fuel answers (k x) w'
              | None => (m, w)
              end
          | [] => (m, w)
          end
      end
  | _, _ => (m, w)
  end.

Lemma advance_alone_partly fuel answers m w :
  partly_run lone_env m w (advance_alone fuel answers m w).1 (advance_alone fuel answers m w).2.
Proof.
  revert answers m w. induction fuel as [|fuel IH]; intros answers m w; simpl; [constructor|].
  destruct m as [a|e k]; [constructor|]. destruct (perform_own 0 w e) as [[x w1]|] eqn:E.
  { econstructor; [|apply IH]. exists 0%nat, w1. split; [by apply perform_own_act|done]. }
  destruct answers as [|a answers]; [constructor|].
  destruct (perform_answered 0 a w e) as [[x w1]|] eqn:E'; [|constructor].
  econstructor; [|apply IH]. exists 0%nat, w1. split; [by eapply perform_answered_act|done].
Qed.

(** Refused, nothing new in the store, the probe succeeds: the one retry is due. *)
Definition ex_retrying : aprogram reply * aworld :=
  advance_alone 100 (ex_answer 401 ++ [OnReload false] ++ ex_answer 200)
    (caller_program ex_envelope ex_url ex_url 0 true false (CSend ex_request))
    (ex_world None (ex_token "a1" None)).
Lemma ex_retrying_partly :
  partly_run lone_env (caller_program ex_envelope ex_url ex_url 0 true false (CSend ex_request))
    (ex_world None (ex_token "a1" None)) ex_retrying.1 ex_retrying.2.
Proof. unfold ex_retrying. apply advance_alone_partly. Qed.
Lemma ex_retrying_sends : sending ex_retrying.1 = Some ex_request.
Proof. vm_compute. reflexivity. Qed.
