(* ===== verification/DeviceFlow.v ===== *)
(** * The device flow ([crates/github/src/device_flow.rs])

    Signing in without a secret: a code is requested, the user approves it on GitHub's own
    page, and the token endpoint is polled until it answers. Requests, pauses and the
    clock are calls; the form encoding, JSON and URLs are parameters.

    [complete] is a loop with no bound of its own. It is modelled with fuel, and shown to
    need no more turns than the code's lifetime has poll intervals; with an interval of
    zero it may never end. *)

From stdpp Require Import strings.
From S2P Require Import Prelude RustStr Ordered Model Github Effects Http Traffic AuthClient.
#[local] Open Scope Z_scope.
#[local] Open Scope rust_scope.

Definition DEVICE_GRANT_TYPE : str := lit "urn:ietf:params:oauth:grant-type:device_code".
Definition SLOW_DOWN_INCREMENT : Duration := seconds 5.
Definition DEFAULT_POLL_INTERVAL : Duration := seconds 5.
Definition MAX_TRANSPORT_RETRIES : Z := 5.

Inductive DeviceFlowError :=
  | DAccessDenied
  | DExpired
  | DIncorrectDeviceCode
  | DAppMisconfigured (code : str)
  | DUnexpected (code : str)
  | DUntrustedVerificationUri (origin : str)
  | DTransport
  | DStatus (status : Z) (stage : str)
  | DDecode (stage : str)
  | DMalformed (what value : str).

Definition is_retryable (e : DeviceFlowError) : bool :=
  match e with
  | DTransport => true
  | DStatus status _ => bool_decide (500 ≤ status < 600)
  | _ => false
  end.
Definition requires_new_login (e : DeviceFlowError) : bool :=
  match e with DExpired | DIncorrectDeviceCode => true | _ => false end.

Record DeviceAuthorization := mk_authorization {
  device_code : str;
  user_code : str;
  verification_uri : str;
  expires_in : Duration;
  interval : Duration;
}.

Inductive DevicePoll :=
  | DPending
  | DSlowDown (interval : Duration)
  | DApproved (t : UserAccessToken).

Record RawDeviceCode := mk_raw_code {
  rc_device_code : str;
  rc_user_code : str;
  rc_verification_uri : str;
  rc_expires_in : option Z;
  rc_interval : option Z;
}.
Record RawTokenResponse := mk_raw_token {
  rt_access_token : option str;
  rt_token_type : option str;
  rt_scope : option str;
  rt_refresh_token : option str;
  rt_expires_in : option Z;
  rt_refresh_token_expires_in : option Z;
  rt_error : option str;
  rt_interval : option Z;
}.

(** ** Calls *)

(** [FPost] posts a form and answers the status and, unless the connection breaks, the
    body; [FPanic] is a panic, which nothing follows. *)
Inductive fcall :=
  | FPost (url : str) (form : list (str * str))
  | FSleep (d : Duration)
  | FNow
  | FPanic.
Definition fanswer (e : fcall) : Type :=
  match e with
  | FPost _ _ => option (Z * option str)
  | FSleep _ => unit
  | FNow => Timestamp
  | FPanic => Empty_set
  end.
#[global] Abbreviation fprogram := (free fanswer) (only parsing).
#[global] Abbreviation fop e := (@op fcall fanswer e) (only parsing).

Definition slowed (current : Duration) (advertised : option Duration) : Duration :=
  let floor := sat_add DURATION_MAX current SLOW_DOWN_INCREMENT in
  from_option (λ a, Z.max a floor) floor advertised.

Definition interpret_error (code : str) (advertised : option Z) (current : Duration)
    : result DevicePoll DeviceFlowError :=
  if str_eqb code (lit "authorization_pending") then Ok DPending
  else if str_eqb code (lit "slow_down") then Ok (DSlowDown (slowed current (seconds <$> advertised)))
  else if str_eqb code (lit "expired_token") then Err DExpired
  else if str_eqb code (lit "access_denied") then Err DAccessDenied
  else if str_eqb code (lit "incorrect_device_code") then Err DIncorrectDeviceCode
  else if str_eqb code (lit "unsupported_grant_type") || str_eqb code (lit "incorrect_client_credentials")
       || str_eqb code (lit "device_flow_disabled") then Err (DAppMisconfigured code)
  else Err (DUnexpected code).

(** ** The code *)

Section Start.
Context (decode_code : str → option RawDeviceCode).
(** The origin of a URL, as text, when it parses; GitHub's own; and the endpoint. *)
Context (origin_of : str → option str) (web_origin device_code_url client_id : str).

Definition start : fprogram (result DeviceAuthorization DeviceFlowError) :=
  response ← fop (FPost device_code_url [(lit "client_id", client_id)]);
  mret (match response with
  | None | Some (_, None) => Err DTransport
  | Some (status, Some bytes) =>
      if negb (is_success status) then Err (DStatus status (lit "device code request"))
      else match decode_code bytes with
      | None => Err (DDecode (lit "device code"))
      | Some raw =>
          match origin_of (rc_verification_uri raw) with
          | None => Err (DMalformed (lit "a verification URL") (rc_verification_uri raw))
          | Some origin =>
              if negb (str_eqb origin web_origin) then Err (DUntrustedVerificationUri origin)
              else Ok (mk_authorization (rc_device_code raw) (rc_user_code raw) (rc_verification_uri raw)
                         (seconds (default 900 (rc_expires_in raw)))
                         (from_option seconds DEFAULT_POLL_INTERVAL (rc_interval raw)))
          end
      end
  end).

(** The code is only ever typed on GitHub's own page. *)
Theorem verification_page_is_githubs :
  returns (λ r, match r with Ok a => origin_of (verification_uri a) = Some web_origin | Err _ => True end) start.
Proof.
  unfold start. intros [[status [bytes|]]|]; simpl; [|done..]. destruct (negb _); [done|].
  destruct (decode_code bytes) as [raw|]; [|done]. destruct (origin_of _) as [o|] eqn:Eo; [|done].
  unfold str_eqb. case_bool_decide; simpl; [by subst|done].
Qed.

End Start.

(** ** The token *)

Section Flow.
Context (decode_token : str → option RawTokenResponse) (access_token_url client_id : str).

(** The credential a token response carries. *)
Definition token_of (access : str) (raw : RawTokenResponse) : fprogram UserAccessToken :=
  now ← fop FNow;
  let t := from_parts access (default (lit "bearer") (rt_token_type raw))
             (s ← rt_scope raw; if bool_decide (s = []) then None else Some s) in
  match with_renewal now (rt_refresh_token raw) (rt_expires_in raw) (rt_refresh_token_expires_in raw) t with
  | Some t => mret t
  | None => e ← fop FPanic; match (e : Empty_set) with end
  end.

Definition refresh_stage : str := lit "refresh request".
Definition refresh (refresh_token : str) : fprogram (result UserAccessToken DeviceFlowError) :=
  response ← fop (FPost access_token_url
    [(lit "client_id", client_id); (lit "refresh_token", refresh_token); (lit "grant_type", lit "refresh_token")]);
  match response with
  | None | Some (_, None) => mret (Err DTransport)
  | Some (status, Some bytes) =>
      match decode_token bytes with
      | None => mret (Err (if is_success status then DDecode (lit "refresh") else DStatus status refresh_stage))
      | Some raw =>
          match rt_error raw, rt_access_token raw with
          | Some code, _ => mret (Err (DMalformed (lit "a refresh response") code))
          | None, None =>
              mret (Err (DMalformed (lit "a refresh response") (lit "neither an access token nor an error")))
          | None, Some access => t ← token_of access raw; mret (Ok t)
          end
      end
  end.

Definition token_stage : str := lit "access token request".
Definition poll_once_from (a : DeviceAuthorization) (current : Duration)
    : fprogram (result DevicePoll DeviceFlowError) :=
  response ← fop (FPost access_token_url
    [(lit "client_id", client_id); (lit "device_code", device_code a); (lit "grant_type", DEVICE_GRANT_TYPE)]);
  match response with
  | None | Some (_, None) => mret (Err DTransport)
  | Some (status, Some bytes) =>
      match decode_token bytes with
      | None => mret (Err (if is_success status then DDecode (lit "access token") else DStatus status token_stage))
      | Some raw =>
          match rt_error raw with
          | Some code => mret (interpret_error code (rt_interval raw) current)
          | None =>
              if negb (is_success status) then mret (Err (DStatus status token_stage))
              else match rt_access_token raw with
              | None =>
                  mret (Err (DMalformed (lit "an access token response") (lit "neither an access token nor an error")))
              | Some access => t ← token_of access raw; mret (Ok (DApproved t))
              end
          end
      end
  end.
Definition poll_once (a : DeviceAuthorization) : fprogram (result DevicePoll DeviceFlowError) :=
  poll_once_from a (interval a).

(** What a failed poll means to the loop: [None] leaves it. *)
Definition absorbed (retries : Z) (r : result DevicePoll DeviceFlowError)
    : result (DevicePoll * Z) DeviceFlowError :=
  match r with
  | Ok outcome => Ok (outcome, 0)
  | Err e =>
      if is_retryable e && bool_decide (retries < MAX_TRANSPORT_RETRIES) then Ok (DPending, retries + 1)
      else Err e
  end.

(** [complete], for as many turns; [None] is a loop that has not ended by then. *)
Fixpoint complete_loop (fuel : nat) (a : DeviceAuthorization) (pause elapsed retries : Duration)
    : fprogram (option (result UserAccessToken DeviceFlowError)) :=
  match fuel with
  | O => mret None
  | S fuel =>
      _ ← fop (FSleep pause);
      let elapsed := sat_add DURATION_MAX elapsed pause in
      polled ← poll_once_from a pause;
      match absorbed retries polled with
      | Err e => mret (Some (Err e))
      | Ok (DApproved t, _) => mret (Some (Ok t))
      | Ok (outcome, retries) =>
          let pause := match outcome with DSlowDown next => next | _ => pause end in
          if bool_decide (expires_in a ≤ elapsed) then mret (Some (Err DExpired))
          else complete_loop fuel a pause elapsed retries
      end
  end.
Definition turns (a : DeviceAuthorization) : nat := S (Z.to_nat (expires_in a / interval a)).
Definition complete (fuel : nat) (a : DeviceAuthorization)
    : fprogram (option (result UserAccessToken DeviceFlowError)) :=
  complete_loop fuel a (interval a) 0 0.

(** ** What a sign-in does *)

(** The pauses made and the answers got, in order. *)
Record fworld := mk_fworld { fw_slept : list Duration; fw_posts : list (option (Z * option str)) }.
Definition total (l : list Duration) : Z := foldr Z.add 0 l.

(** The answer was an error of the protocol, and this one. *)
Definition said (code : str) (x : option (Z * option str)) : Prop :=
  ∃ status body raw, x = Some (status, Some body) ∧ decode_token body = Some raw ∧ rt_error raw = Some code.
(** The pause after the answer [x]: as before, or, when it said to slow down, five seconds
    more, and as long as it stated if that is longer. *)
Definition pause_after (before : Duration) (x : option (Z * option str)) (d : Duration) : Prop :=
  (∃ status body raw, x = Some (status, Some body) ∧ decode_token body = Some raw ∧
     rt_error raw = Some (lit "slow_down") ∧
     d = Z.max (Z.min DURATION_MAX (before + seconds 5)) (from_option seconds 0 (rt_interval raw))) ∨
  (¬ said (lit "slow_down") x ∧ d = before).
(** The next pause: the interval GitHub stated at first. *)
Definition pause_due (a : DeviceAuthorization) (w : fworld) (d : Duration) : Prop :=
  match last (fw_slept w), last (fw_posts w) with
  | Some before, Some x => pause_after before x d
  | None, None => d = interval a
  | _, _ => False
  end.
(** The last answer stated an expiry that [TimeDelta::seconds] panics on. *)
Definition overlong_expiry (w : fworld) : Prop :=
  ∃ status body raw n, last (fw_posts w) = Some (Some (status, Some body)) ∧ decode_token body = Some raw ∧
    (rt_expires_in raw = Some n ∨ rt_refresh_token_expires_in raw = Some n) ∧ n ≤ I64_MAX < n * 1000.

(** Every poll follows a pause of its own, which is the one due and no shorter than the
    interval GitHub stated. *)
Definition login_may (a : DeviceAuthorization) (w : fworld) (e : fcall) : Prop :=
  match e with
  | FPost _ _ => length (fw_slept w) = S (length (fw_posts w))
  | FSleep d => length (fw_slept w) = length (fw_posts w) ∧ interval a ≤ d ∧ pause_due a w d
  | FPanic => overlong_expiry w
  | FNow => True
  end.
Definition login_does (w : fworld) (e : fcall) : fanswer e → fworld → Prop :=
  match e return fanswer e → fworld → Prop with
  | FPost _ _ => λ x w', w' = mk_fworld (fw_slept w) (fw_posts w ++ [x])
  | FSleep d => λ _ w', w' = mk_fworld (fw_slept w ++ [d]) (fw_posts w)
  | _ => λ _ w', w' = w
  end.
Definition login_env (a : DeviceAuthorization) : env fanswer fworld := mk_env (login_may a) login_does.

(** The answer was a credential, and this one. *)
Definition granted (t : UserAccessToken) (x : option (Z * option str)) : Prop :=
  ∃ status body raw access, x = Some (status, Some body) ∧ is_success status = true ∧
    decode_token body = Some raw ∧ rt_error raw = None ∧ rt_access_token raw = Some access ∧
    token t = access ∧ refresh_token <$> renewal t = rt_refresh_token raw.
(** The answer said nothing about the sign-in. *)
Definition no_answer (x : option (Z * option str)) : Prop :=
  match x with
  | None | Some (_, None) => True
  | Some (status, Some body) => bool_decide (500 ≤ status < 600) = true ∧
      match decode_token body with Some raw => rt_error raw = None | None => True end
  end.

Definition login_result (a : DeviceAuthorization) (w : fworld) (r : result UserAccessToken DeviceFlowError) : Prop :=
  ∃ x, last (fw_posts w) = Some x ∧
  match r with
  | Ok t => granted t x
  | Err DExpired => said (lit "expired_token") x ∨ expires_in a ≤ total (fw_slept w)
  | Err DAccessDenied => said (lit "access_denied") x
  | Err DIncorrectDeviceCode => said (lit "incorrect_device_code") x
  | Err e => is_retryable e = true →
      ∃ before after, fw_posts w = before ++ after ∧ length after = 6%nat ∧ Forall no_answer after
  end.

(** What one poll says. *)
Definition poll_says (current : Duration) (x : option (Z * option str))
    (r : result DevicePoll DeviceFlowError) : Prop :=
  match r with
  | Ok DPending => pause_after current x current
  | Ok (DSlowDown next) => current ≤ next ≤ DURATION_MAX ∧ pause_after current x next
  | Ok (DApproved t) => granted t x
  | Err e => (is_retryable e = true → no_answer x) ∧
      match e with
      | DExpired => said (lit "expired_token") x
      | DAccessDenied => said (lit "access_denied") x
      | DIncorrectDeviceCode => said (lit "incorrect_device_code") x
      | _ => True
      end
  end.

Lemma slowed_grows current advertised :
  0 ≤ current ≤ DURATION_MAX → (∀ n, advertised = Some n → 0 ≤ n ≤ U64_MAX) →
  current ≤ slowed current (seconds <$> advertised) ≤ DURATION_MAX.
Proof.
  intros H Ha. unfold slowed, sat_add, SLOW_DOWN_INCREMENT.
  destruct advertised as [n|]; simpl; [specialize (Ha n eq_refl)|]; unfold DURATION_MAX, seconds, U64_MAX in *; lia.
Qed.

Lemma slowed_exact current advertised :
  slowed current (seconds <$> advertised)
  = Z.max (Z.min DURATION_MAX (current + seconds 5)) (from_option seconds 0 advertised) ∨ current < 0 ∨
    ∃ n, advertised = Some n ∧ n < 0.
Proof.
  unfold slowed, sat_add, SLOW_DOWN_INCREMENT. destruct advertised as [n|]; simpl; unfold DURATION_MAX, seconds, U64_MAX in *; [|lia].
  destruct (decide (n < 0)); [right; right; by exists n|left; lia].
Qed.

Lemma not_slow code x : said code x → code ≠ lit "slow_down" → ¬ said (lit "slow_down") x.
Proof. intros (s & b & w & -> & Hd & Hc) Hne (s' & b' & w' & [= <- <-] & Hd' & Hc'). congruence. Qed.

Lemma interpret_error_says status body raw code current :
  0 ≤ current ≤ DURATION_MAX → (∀ n, rt_interval raw = Some n → 0 ≤ n ≤ U64_MAX) →
  decode_token body = Some raw → rt_error raw = Some code →
  poll_says current (Some (status, Some body)) (interpret_error code (rt_interval raw) current).
Proof.
  intros Hc Ha Hd He. assert (said code (Some (status, Some body))) as Hx by by exists status, body, raw.
  unfold interpret_error. unfold str_eqb. case_bool_decide as E1.
  { right. split; [|done]. eapply not_slow; [exact Hx|by subst]. }
  case_bool_decide as E2.
  { split; [by apply slowed_grows|]. left. exists status, body, raw. subst. split_and!; try done.
    destruct (slowed_exact current (rt_interval raw)) as [->|[?|(n & E & ?)]]; [done|lia|]. specialize (Ha n E). lia. }
  case_bool_decide; [by subst|]. case_bool_decide; [by subst|].
  case_bool_decide; [by subst|]. by destruct (_ || _).
Qed.

Lemma token_of_sat a access raw status body w (Q : fworld → UserAccessToken → Prop) :
  last (fw_posts w) = Some (Some (status, Some body)) → decode_token body = Some raw →
  (∀ t, token t = access → refresh_token <$> renewal t = rt_refresh_token raw → Q w t) →
  sat (login_env a) (token_of access raw) w Q.
Proof.
  intros Hl Hd HQ. unfold token_of. apply sat_op_bind; [done|]. intros now w' ->.
  assert (∀ secs, expires_at now secs = None → ∃ n, secs = Some n ∧ n ≤ I64_MAX < n * 1000) as Hnone.
  { intros [n|]; [|done]. simpl. repeat case_bool_decide; try done. intros _. exists n. split; [done|lia]. }
  destruct (with_renewal _ _ _ _ _) as [t|] eqn:E.
  - apply sat_ret. unfold with_renewal in E. destruct (rt_refresh_token raw) as [r|] eqn:Er.
    + destruct (expires_at now (rt_expires_in raw)); [|done]. simpl in E.
      destruct (expires_at now (rt_refresh_token_expires_in raw)); [|done]. simpl in E.
      injection E as <-. by apply HQ.
    + injection E as <-. by apply HQ.
  - apply sat_op_bind; [|by intros []]. unfold with_renewal in E. destruct (rt_refresh_token raw) as [r|]; [|done].
    destruct (expires_at now (rt_expires_in raw)) eqn:E1; simpl in E.
    + destruct (expires_at now (rt_refresh_token_expires_in raw)) eqn:E2; [done|].
      destruct (Hnone _ E2) as (n & ? & ?). exists status, body, raw, n. auto.
    + destruct (Hnone _ E1) as (n & ? & ?). exists status, body, raw, n. auto.
Qed.

(** [interval] of an answer is a [u64]. *)
Context (token_u64 : ∀ body raw n, decode_token body = Some raw → rt_interval raw = Some n → 0 ≤ n ≤ U64_MAX).

Lemma poll_sat a current w (Q : fworld → result DevicePoll DeviceFlowError → Prop) :
  0 ≤ current ≤ DURATION_MAX → length (fw_slept w) = S (length (fw_posts w)) →
  (∀ x r, poll_says current x r → Q (mk_fworld (fw_slept w) (fw_posts w ++ [x])) r) →
  sat (login_env a) (poll_once_from a current) w Q.
Proof.
  intros Hc Hl HQ. unfold poll_once_from. apply sat_op_bind; [done|]. intros x w' ->.
  destruct x as [[status [bytes|]]|]; [|apply sat_ret, HQ; done..].
  destruct (decode_token bytes) as [raw|] eqn:Ed.
  2: { apply sat_ret, HQ. destruct (is_success status); [done|]. split; [|done]. intros E. split; [done|].
       by rewrite Ed. }
  destruct (rt_error raw) as [code|] eqn:Ee.
  { apply sat_ret, HQ, interpret_error_says; [done|intros n; by apply (token_u64 bytes raw)|done|done]. }
  destruct (is_success status) eqn:Es; cbn [negb].
  2: { apply sat_ret, HQ. split; [|done]. intros E. split; [done|]. by rewrite Ed. }
  destruct (rt_access_token raw) as [access|] eqn:Ea; [|by apply sat_ret, HQ].
  apply sat_bind, (token_of_sat _ _ _ status bytes); [by simpl; rewrite last_snoc|done|]. intros t Ht Hr. apply sat_ret, HQ.
  by exists status, bytes, raw, access.
Qed.

(** *** The loop *)

Lemma total_app l d : total (l ++ [d]) = total l + d.
Proof. unfold total. rewrite foldr_app. simpl. induction l; simpl; lia. Qed.

Definition login_ok (a : DeviceAuthorization) : Prop :=
  0 < interval a ≤ DURATION_MAX ∧ 0 ≤ expires_in a ≤ DURATION_MAX.

(** At the top of a turn, with the next pause, the time waited and the polls that got no
    answer just before. *)
Definition turn_inv (a : DeviceAuthorization) (pause elapsed retries : Z) (w : fworld) : Prop :=
  length (fw_slept w) = length (fw_posts w) ∧ interval a ≤ pause ≤ DURATION_MAX ∧
  pause_due a w pause ∧
  elapsed = Z.min DURATION_MAX (total (fw_slept w)) ∧
  Z.of_nat (length (fw_slept w)) * interval a ≤ total (fw_slept w) ∧
  (fw_slept w = [] ∨ total (fw_slept w) < expires_in a) ∧
  ∃ before after, fw_posts w = before ++ after ∧ Z.of_nat (length after) = retries ∧ Forall no_answer after ∧
    retries ≤ MAX_TRANSPORT_RETRIES.

(** When it ended. *)
Definition ended (a : DeviceAuthorization) (w : fworld) : Prop :=
  ∃ slept d, fw_slept w = slept ++ [d] ∧ (slept = [] ∨ total slept < expires_in a).

(** The next turn, after an answer that leaves the loop running. *)
Definition next_pause (o : DevicePoll) (pause : Duration) : Duration :=
  match o with DSlowDown next => next | _ => pause end.
Lemma turn_again a pause elapsed retries w x r o retries' :
  login_ok a → turn_inv a pause elapsed retries w → poll_says pause x r →
  absorbed retries r = Ok (o, retries') → total (fw_slept w ++ [pause]) < expires_in a →
  turn_inv a (next_pause o pause) (sat_add DURATION_MAX elapsed pause) retries'
    (mk_fworld (fw_slept w ++ [pause]) (fw_posts w ++ [x])).
Proof.
  intros [Hi He] (Hlen & Hp & Hlast & Hel & Hsum & _ & before & after & Hposts & Hretry & Hno & Hmax) Hx Ha Ht.
  assert (pause ≤ next_pause o pause ≤ DURATION_MAX) as Hn.
  { destruct r as [o'|e]; simpl in Ha; [injection Ha as <- _; destruct o'; simpl in *; lia|].
    destruct (_ && _); [injection Ha as <- _; simpl; lia|done]. }
  assert (pause_after pause x (next_pause o pause)) as Hdue.
  { destruct r as [o'|e]; simpl in Ha; [injection Ha as <- _; destruct o' as [|next|t]; simpl in *; [done|by destruct Hx|]|].
    - right. split; [|done]. destruct Hx as (st & b & raw & access & -> & _ & Hd & Hn' & _).
      intros (st' & b' & raw' & [= <- <-] & Hd' & He'). congruence.
    - destruct (is_retryable e) eqn:Er; simpl in Ha; [|done]. case_bool_decide; [|done]. injection Ha as <- _.
      right. split; [|done]. destruct Hx as [Hx _]. specialize (Hx Er).
      intros (st & b & raw & -> & Hd & He'). simpl in Hx. rewrite Hd in Hx. destruct Hx. congruence. }
  unfold turn_inv. unfold pause_due. cbn [fw_slept fw_posts]. rewrite !length_app, !last_snoc, total_app in *. cbn [length].
  split_and!; [lia|lia|lia|done|unfold sat_add; lia|lia|right; lia|].
  destruct r as [o'|e]; simpl in Ha.
  - injection Ha as _ <-. exists (fw_posts w ++ [x]), []. rewrite app_nil_r. by split_and!.
  - destruct (is_retryable e) eqn:Ee; [|done]. simpl in Ha. case_bool_decide as Hr; [|done].
    injection Ha as _ <-. exists before, (after ++ [x]). rewrite Hposts, app_assoc, length_app. simpl.
    split_and!; [done|lia|by apply Forall_app; split; [|repeat constructor; apply Hx]|unfold MAX_TRANSPORT_RETRIES in *; lia].
Qed.

(** ... and an answer that leaves it. *)
Lemma turn_fails a pause elapsed retries w x r e :
  turn_inv a pause elapsed retries w → poll_says pause x r → absorbed retries r = Err e →
  login_result a (mk_fworld (fw_slept w ++ [pause]) (fw_posts w ++ [x])) (Err e).
Proof.
  intros (_ & _ & _ & _ & _ & _ & before & after & Hposts & Hretry & Hno & Hmax) Hx Ha.
  destruct r as [|e']; [done|]. simpl in Ha, Hx. destruct (is_retryable e') eqn:Ee.
  - simpl in Ha. case_bool_decide as Hr; [done|]. injection Ha as ->. exists x. cbn [fw_posts].
    rewrite last_snoc. split; [done|]. destruct e; try done.
    all: intros _; exists before, (after ++ [x]); rewrite Hposts, app_assoc, length_app; simpl.
    all: split; [done|]; split; [unfold MAX_TRANSPORT_RETRIES in *; lia|].
    all: apply Forall_app; split; [done|]; repeat constructor; by apply Hx.
  - injection Ha as ->. exists x. cbn [fw_posts]. rewrite last_snoc. split; [done|].
    destruct Hx as [_ Hx]. destruct e; try done; try (by left); by rewrite Ee.
Qed.

Lemma complete_loop_sat a fuel pause elapsed retries w :
  login_ok a → turn_inv a pause elapsed retries w → (turns a ≤ fuel + length (fw_slept w))%nat →
  sat (login_env a) (complete_loop fuel a pause elapsed retries) w
    (λ w' o, ended a w' ∧ ∃ r, o = Some r ∧ login_result a w' r).
Proof.
  intros Ha. revert pause elapsed retries w.
  induction fuel as [|fuel IH]; intros pause elapsed retries w Hinv Hf; cbn [complete_loop].
  { exfalso. destruct Hinv as (_ & _ & _ & _ & Hsum & Hlt & _). destruct Ha as [Hi He]. unfold turns in Hf.
    assert (expires_in a < Z.of_nat (length (fw_slept w)) * interval a).
    { pose proof (Z.div_mod (expires_in a) (interval a)). pose proof (Z.mod_pos_bound (expires_in a) (interval a)).
      assert (0 ≤ expires_in a / interval a) by (apply Z.div_pos; lia). nia. }
    destruct Hlt as [E|]; [rewrite E in Hf; simpl in Hf; lia|lia]. }
  pose proof Hinv as (Hlen & Hp & Hlast & Hel & Hsum & Hlt & _).
  apply sat_op_bind; [split; [done|]; split; [lia|done]|]. intros [] w1 ->. apply sat_bind, poll_sat.
  { destruct Ha; lia. } { cbn [fw_slept fw_posts]. rewrite length_app. simpl. lia. }
  intros x r Hx. cbn [fw_slept fw_posts].
  assert (ended a (mk_fworld (fw_slept w ++ [pause]) (fw_posts w ++ [x]))) as Hend by by exists (fw_slept w), pause.
  destruct (absorbed retries r) as [[o retries']|e] eqn:Eab.
  2: { apply sat_ret. split; [done|]. exists (Err e). split; [done|]. by eapply turn_fails. }
  assert (∀ t, o = DApproved t → r = Ok (DApproved t)) as Hok.
  { intros t ->. destruct r as [o'|]; simpl in Eab; [congruence|]. by destruct (_ && _). }
  assert (sat (login_env a)
    (if bool_decide (expires_in a ≤ sat_add DURATION_MAX elapsed pause) then mret (Some (Err DExpired))
     else complete_loop fuel a (next_pause o pause) (sat_add DURATION_MAX elapsed pause) retries')
    (mk_fworld (fw_slept w ++ [pause]) (fw_posts w ++ [x]))
    (λ w' o, ended a w' ∧ ∃ r, o = Some r ∧ login_result a w' r)) as Hnext.
  { assert (sat_add DURATION_MAX elapsed pause = Z.min DURATION_MAX (total (fw_slept w ++ [pause]))) as Es.
    { rewrite total_app. unfold sat_add. destruct Ha. lia. }
    case_bool_decide as Hexp.
    - apply sat_ret. split; [done|]. eexists. split; [done|]. exists x. cbn [fw_posts fw_slept].
      rewrite last_snoc. split; [done|]. right. destruct Ha. lia.
    - apply IH; [eapply turn_again; [done|done|done|done|destruct Ha; lia]|].
      cbn [fw_slept]. rewrite length_app. simpl. lia. }
  destruct o as [|next|t]; [exact Hnext|exact Hnext|]. apply sat_ret. split; [done|].
  eexists. split; [done|]. exists x. cbn [fw_posts]. rewrite last_snoc. split; [done|].
  rewrite (Hok t eq_refl) in Hx. exact Hx.
Qed.

Definition is_post (e : fcall) : bool := match e with FPost _ _ => true | _ => false end.

Lemma complete_loop_posts fuel a pause elapsed retries :
  at_most is_post fuel (complete_loop fuel a pause elapsed retries).
Proof.
  revert pause elapsed retries. induction fuel as [|fuel IH]; intros pause elapsed retries; [done|].
  cbn [complete_loop]. apply (at_most_bind _ 0 (S fuel)); [done|]. intros _.
  apply (at_most_bind _ 1 fuel).
  - unfold poll_once_from. apply (at_most_bind _ 1 0); [done|]. intros [[status [bytes|]]|]; [|done..].
    destruct (decode_token bytes) as [raw|]; [|done]. destruct (rt_error raw); [done|].
    destruct (negb _); [done|]. destruct (rt_access_token raw); [|done]. unfold token_of.
    apply (at_most_bind _ 0 0); [|done]. apply (at_most_bind _ 0 0); [done|]. intros now.
    destruct (with_renewal _ _ _ _ _); [done|]. by intros [].
  - intros r. destruct (absorbed retries r) as [[[|next|t] n]|e]; [| |done..]; case_bool_decide; [done|apply IH|done|apply IH].
Qed.


(** *** An interval of zero *)

(** GitHub that always says the approval is pending. *)
Definition pending_answers (body : str) (e : fcall) (w : fworld) : option (fworld * fanswer e) :=
  match e return option (fworld * fanswer e) with
  | FPost _ _ => Some (mk_fworld (fw_slept w) (fw_posts w ++ [Some (200, Some body)]), Some (200, Some body))
  | FSleep d => Some (mk_fworld (fw_slept w ++ [d]) (fw_posts w), tt)
  | FNow => Some (w, 0)
  | FPanic => None
  end.

(** Then the loop polls without a pause, and outlives the code, for as long as it runs. *)
Theorem zero_interval_never_ends a body raw fuel :
  interval a = 0 → 0 < expires_in a → decode_token body = Some raw → rt_error raw = Some (lit "authorization_pending") →
  ∃ w, run_with (pending_answers body) (complete fuel a) (mk_fworld [] []) = Some (w, None) ∧
       length (fw_posts w) = fuel ∧ total (fw_slept w) = 0.
Proof.
  intros Hi He Hd Hr. unfold complete. rewrite Hi.
  cut (∀ w, total (fw_slept w) = 0 → ∃ w', run_with (pending_answers body) (complete_loop fuel a 0 0 0) w = Some (w', None) ∧
    length (fw_posts w') = (fuel + length (fw_posts w))%nat ∧ total (fw_slept w') = 0).
  { intros H. destruct (H (mk_fworld [] []) eq_refl) as (w' & ? & Hl & ?). exists w'. simpl in Hl.
    split; [done|]. split; [lia|done]. }
  induction fuel as [|fuel IH]; intros w Hw; [by exists w|]. cbn [complete_loop]. rewrite run_with_bind. cbn [run_with op pending_answers].
  rewrite run_with_bind. unfold poll_once_from. rewrite run_with_bind. cbn [run_with op pending_answers].
  rewrite Hd, Hr. cbn [run_with mret free_ret]. change (interpret_error _ _ _) with (@Ok DevicePoll DeviceFlowError DPending).
  cbn [absorbed]. change (sat_add DURATION_MAX 0 0) with 0. rewrite bool_decide_false by lia.
  cbn [fw_slept fw_posts].
  destruct (IH (mk_fworld (fw_slept w ++ [0]) (fw_posts w ++ [Some (200, Some body)]))) as (w' & -> & Hl & Ht).
  { cbn [fw_slept]. rewrite total_app. lia. }
  exists w'. split; [done|]. split; [|done]. rewrite Hl. cbn [fw_posts]. rewrite length_app. simpl. lia.
Qed.
End Flow.

Definition ex_decode (body : str) : option RawTokenResponse :=
  if str_eqb body (lit "pending")
  then Some (mk_raw_token None None None None None None (Some (lit "authorization_pending")) None)
  else if str_eqb body (lit "slow")
  then Some (mk_raw_token None None None None None None (Some (lit "slow_down")) (Some 10))
  else if str_eqb body (lit "token")
  then Some (mk_raw_token (Some (lit "ghu_1")) None None (Some (lit "ghr_1")) (Some 28800) None None None)
  else None.
Definition ex_authorization : DeviceAuthorization :=
  mk_authorization (lit "code") (lit "WDJB-MJHT") (lit "https://github.com/login/device") (seconds 900) (seconds 5).

