(* ===== verification/Conditional.v ===== *)
(** * The conditional cache ([crates/github/src/conditional.rs])

    Validators and bodies of the listings one client polls. The operations are those made
    under the cache's lock; [Demand] composes them with the requests between them. The
    hash map is a [gmap]; which of several entries of the same age is evicted first is
    arbitrary in the code and the order of the map here. *)

From stdpp Require Import strings.
From S2P Require Import Prelude RustStr Ordered Model Labels Policy Github Http.
#[local] Open Scope Z_scope.
#[local] Open Scope rust_scope.

Definition IDLE_ENTRY_TTL : Duration := seconds (2 * 60 * 60).
Definition MAX_ENTRIES : nat := 1024.

Record Entry := mk_entry {
  en_validators : Validators;
  en_response : ApiResponse;
  en_last_used : Timestamp;
}.
#[global] Abbreviation ConditionalCache := (gmap str Entry).

Record Fetched := mk_fetched { fe_response : ApiResponse; fe_not_modified : bool }.

Definition retain_recent (now : Timestamp) (entries : ConditionalCache) : ConditionalCache :=
  filter (λ ke, now - en_last_used ke.2 < IDLE_ENTRY_TTL) entries.

Fixpoint least_recent (best : option (str * Entry)) (l : list (str * Entry)) : option str :=
  match l with
  | [] => fst <$> best
  | ke :: l =>
      least_recent (match best with
                    | Some b => if bool_decide (en_last_used ke.2 < en_last_used b.2) then Some ke else best
                    | None => Some ke
                    end) l
  end.
(** The key of an entry that was not used for longest. *)
Definition oldest (entries : ConditionalCache) : option str :=
  least_recent None (map_to_list entries).

(** Each turn removes an entry, so as many turns as entries are enough. *)
Fixpoint evict_down (fuel : nat) (entries : ConditionalCache) : ConditionalCache :=
  if bool_decide (size entries ≤ MAX_ENTRIES)%nat then entries
  else match fuel, oldest entries with
  | S fuel, Some key => evict_down fuel (delete key entries)
  | _, _ => entries
  end.

Definition cache_store (key : str) (response : ApiResponse) (now : Timestamp)
    (entries : ConditionalCache) : ConditionalCache :=
  let validators := Validators_of response in
  if validators_empty validators then delete key entries
  else
    let entries := <[key := mk_entry validators response now]> entries in
    let entries := if bool_decide (MAX_ENTRIES < size entries)%nat
                   then retain_recent now entries else entries in
    evict_down (size entries) entries.

(** The body that a [304] to [sent] vouches for, if it is still the one cached. *)
Definition cached_for (key : str) (sent : option Validators) (now : Timestamp)
    (entries : ConditionalCache) : ConditionalCache * option ApiResponse :=
  match entries !! key with
  | Some entry =>
      if bool_decide (Some (en_validators entry) = sent)
      then (<[key := mk_entry (en_validators entry) (en_response entry) now]> entries,
            Some (en_response entry))
      else (entries, None)
  | None => (entries, None)
  end.

Definition cached_validators (key : str) (entries : ConditionalCache) : option Validators :=
  en_validators <$> entries !! key.

(** ** The cache stays small, and holds what was answered *)

Lemma least_recent_elem best l key :
  least_recent best l = Some key →
  (∃ e, best = Some (key, e)) ∨ ∃ e, (key, e) ∈ l.
Proof.
  revert best. induction l as [|[k e] l IH]; intros best; simpl.
  - intros ([k e] & -> & ->)%fmap_Some. left. by eexists.
  - intros [[e' E]|[e' E]]%IH; [|right; set_solver].
    destruct best as [b|]; [case_bool_decide|]; simplify_eq; [right; set_solver|left; by eexists|right; set_solver].
Qed.

Lemma least_recent_some best l : best ≠ None ∨ l ≠ [] → least_recent best l ≠ None.
Proof.
  revert best. induction l as [|ke l IH]; intros best Hb; simpl.
  - destruct best; [done|]. naive_solver.
  - apply IH. left. destruct best; [by case_bool_decide|done].
Qed.

Lemma oldest_elem entries key : oldest entries = Some key → is_Some (entries !! key).
Proof.
  intros [[e E]|[e E]]%least_recent_elem; [done|]. apply elem_of_map_to_list in E. by rewrite E.
Qed.

Lemma evict_down_subseteq fuel entries : evict_down fuel entries ⊆ entries.
Proof.
  revert entries. induction fuel as [|fuel IH]; intros entries; cbn [evict_down]; case_bool_decide; try done.
  destruct (oldest entries) as [key|]; [|done]. etransitivity; [apply IH|]. apply delete_subseteq.
Qed.

Lemma evict_down_size fuel entries :
  (size entries ≤ fuel + MAX_ENTRIES)%nat → (size (evict_down fuel entries) ≤ MAX_ENTRIES)%nat.
Proof.
  revert entries. induction fuel as [|fuel IH]; intros entries Hs; cbn [evict_down]; case_bool_decide; try done.
  destruct (oldest entries) as [key|] eqn:E.
  - apply IH. rewrite map_size_delete_Some by by apply oldest_elem. lia.
  - exfalso. revert E. apply least_recent_some. right. intros E%map_to_list_empty_iff. subst.
    rewrite map_size_empty in *. lia.
Qed.

Lemma cache_store_size key response now entries :
  (size entries ≤ MAX_ENTRIES)%nat → (size (cache_store key response now entries) ≤ MAX_ENTRIES)%nat.
Proof.
  intros Hs. unfold cache_store. destruct (validators_empty _).
  - rewrite <- Hs. apply map_subseteq_size, delete_subseteq.
  - apply evict_down_size. lia.
Qed.

Lemma cache_store_lookup key response now entries k e :
  cache_store key response now entries !! k = Some e →
  (k = key ∧ e = mk_entry (Validators_of response) response now ∧
   validators_empty (Validators_of response) = false) ∨ entries !! k = Some e.
Proof.
  unfold cache_store. destruct (validators_empty _) eqn:Hv.
  - intros [_ ?]%lookup_delete_Some. by right.
  - intros H. eapply lookup_weaken in H; [|apply evict_down_subseteq].
    assert (<[key := mk_entry (Validators_of response) response now]> entries !! k = Some e) as Hi.
    { case_bool_decide; [|done]. by apply map_lookup_filter_Some in H as [? _]. }
    apply lookup_insert_Some in Hi as [[<- <-]|[_ ?]]; [by left|by right].
Qed.
