(* ===== verification/Demand.v ===== *)
(** * The demand gateway ([crates/github/src/demand.rs], [conditional.rs])

    [RestDemand]: queued jobs read from GitHub, one repository at a time, through the
    conditional cache, inside the host-wide quiet period after a rate limit, and shared
    between the loops of a host. A program here makes its requests one by one; between
    two of its calls the other loops may use the same gateway. *)

From stdpp Require Import strings.
From S2P Require Import Prelude RustStr Ordered Model Path Workspace Execution Host Attempt.
From S2P Require Import Labels Policy Capacity Github Schedule Routing Backoff Report.
From S2P Require Import Effects Http Traffic Conditional.
#[local] Open Scope Z_scope.
#[local] Open Scope rust_scope.

(** ** Constants *)

Definition QUEUED_RUN_STATUS : str := lit "queued".
Definition IN_PROGRESS_RUN_STATUS : str := lit "in_progress".
Definition QUEUED_JOB_STATUS : str := lit "queued".
Definition LATEST_JOBS_FILTER : str := lit "latest".
Definition PER_PAGE : Z := 100.
Definition MAX_QUEUED_RUNS_PER_REPOSITORY_PER_POLL : nat := 6.
Definition MAX_IN_PROGRESS_RUNS_PER_REPOSITORY_PER_POLL : nat := 4.
Definition MAX_JOB_PAGES_PER_RUN : nat := 3.
Definition max_demand_requests_per_repository_per_poll : Z :=
  2 + Z.of_nat MAX_QUEUED_RUNS_PER_REPOSITORY_PER_POLL
    + Z.of_nat MAX_IN_PROGRESS_RUNS_PER_REPOSITORY_PER_POLL.
Definition max_demand_requests_per_poll (s : ActivityScope) : Z :=
  sat_mul U32_MAX (Z.min U32_MAX (Z.of_nat (length (sc_repositories s))))
    max_demand_requests_per_repository_per_poll.
Definition HOLD_MEMORY : Duration := seconds (60 * 60).

(** ** State *)

Record RepositoryDemand := mk_rdemand { rd_jobs : list RunsOn; rd_exact : bool; rd_busy : bool }.
Record RunListing := mk_listing { ls_run_ids : list Z; ls_complete : bool; ls_changed : bool }.
Record RunJobs := mk_runjobs { rj_jobs : list RunsOn; rj_complete : bool; rj_changed : bool }.

Record RateLimitHold := mk_hold {
  ho_until : Timestamp;
  ho_limit : RateLimited;
  consecutive_secondary : Z;  (* u32 *)
}.
Record DemandStats := mk_stats { reads : Z; unchanged_reads : Z; shared_reads : Z; suppressed : Z }.

Record RestDemand := mk_rest_demand {
  requests_issued : Z;
  cache : ConditionalCache;
  window_ms : Z;   (* u64 *)
  readings : list (OwnerRepo * (Timestamp * RepositoryDemand));  (* BTreeMap *)
  hold : option RateLimitHold;
  stats : DemandStats;
}.
Definition RestDemand_new : RestDemand := mk_rest_demand 0 ∅ 0 [] None (mk_stats 0 0 0 0).

Definition with_cache (f : ConditionalCache → ConditionalCache) (d : RestDemand) : RestDemand :=
  mk_rest_demand (requests_issued d) (f (cache d)) (window_ms d) (readings d) (hold d) (stats d).
Definition with_hold (h : option RateLimitHold) (d : RestDemand) : RestDemand :=
  mk_rest_demand (requests_issued d) (cache d) (window_ms d) (readings d) h (stats d).
Definition with_readings (r : list (OwnerRepo * (Timestamp * RepositoryDemand))) (d : RestDemand)
    : RestDemand :=
  mk_rest_demand (requests_issued d) (cache d) (window_ms d) r (hold d) (stats d).
Definition with_stats (f : DemandStats → DemandStats) (d : RestDemand) : RestDemand :=
  mk_rest_demand (requests_issued d) (cache d) (window_ms d) (readings d) (hold d) (f (stats d)).
Definition count_request (d : RestDemand) : RestDemand :=
  mk_rest_demand (requests_issued d + 1) (cache d) (window_ms d) (readings d) (hold d) (stats d).

Definition set_shared_window (window : Duration) (d : RestDemand) : RestDemand :=
  mk_rest_demand (requests_issued d) (cache d) (Z.min U64_MAX (window / 1000000)) (readings d)
    (hold d) (stats d).
Definition shared_window (d : RestDemand) : Duration := window_ms d * 1000000.
Definition forget_shared_reading (r : OwnerRepo) (d : RestDemand) : RestDemand :=
  with_readings (List.filter (λ kv, negb (OwnerRepo_eqb kv.1 r)) (readings d)) d.

(** ** The quiet period *)

(** What is left of the hold; a clock that jumped back does not stretch it. *)
Definition held (now : Timestamp) (d : RestDemand) : option RateLimited :=
  h ← hold d;
  let left := ho_until h - now in
  if bool_decide (left < 0) then None
  else
    let left := Z.min left MAX_RATE_LIMIT_BACKOFF in
    if bool_decide (left = 0) then None
    else Some (mk_limited (kind (ho_limit h)) (Some left) (remaining (ho_limit h))
                 (reset_unix_secs (ho_limit h))).

(** Secondary limits in a row: answers in flight together are one. *)
Definition hold_count (k : RateLimitKind) (previous live : option RateLimitHold) : Z :=
  match k, previous, live with
  | Primary, _, _ => 0
  | Secondary, _, Some live => Z.max (consecutive_secondary live) 1
  | Secondary, Some previous, None => sat_add U32_MAX (consecutive_secondary previous) 1
  | Secondary, None, None => 1
  end.
Definition hold_wait (limit : RateLimited) (now : Timestamp) (consecutive : Z) : Duration :=
  let wait := delay_from limit now in
  if bool_decide (1 < consecutive) then
    let doubled := dur_mul DEFAULT_RATE_LIMIT_BACKOFF (Z.shiftl 1 (Z.min (consecutive - 1) 10)) in
    Z.min (Z.max wait doubled) MAX_RATE_LIMIT_BACKOFF
  else wait.

(** [hold_for], on the hold in its lock: the new hold, and what is reported. Adding at most
    fifteen minutes to a wall-clock instant does not overflow it. *)
Definition hold_for (limit : RateLimited) (now : Timestamp) (current : option RateLimitHold)
    : RateLimitHold * RateLimited :=
  let previous := h ← current; if bool_decide (now - ho_until h < HOLD_MEMORY) then Some h else None in
  let live := h ← previous; if bool_decide (now < ho_until h) then Some h else None in
  let consecutive := hold_count (kind limit) previous live in
  let wait := hold_wait limit now consecutive in
  let until := now + wait in
  let '(until, wait) :=
    match live with
    | Some live => if bool_decide (until < ho_until live) then (ho_until live, ho_until live - now)
                   else (until, wait)
    | None => (until, wait)
    end in
  (mk_hold until limit (Z.max consecutive (from_option consecutive_secondary 0 live)),
   mk_limited (kind limit) (Some wait) (remaining limit) (reset_unix_secs limit)).

Definition clear_hold (now : Timestamp) (d : RestDemand) : RestDemand :=
  match hold d with
  | Some h => if bool_decide (ho_until h ≤ now) then with_hold None d else d
  | None => d
  end.

(** ** Calls *)

(** [DLocked] is one access to the gateway's state under its locks; [DSend] is
    [AuthenticatedClient::send]; [DGate] is waiting for a repository's gate, [DRelease]
    its end; [DCancelled] asks the caller's token; [DQuota] reads the client's ledger. *)
Inductive dcall :=
  | DNow
  | DCancelled
  | DSend (r : ApiRequest)
  | DLocked (A : Set) (f : RestDemand → RestDemand * A)
  | DGate (r : OwnerRepo)
  | DRelease (r : OwnerRepo)
  | DQuota.
Definition danswer (e : dcall) : Type :=
  match e with
  | DNow => Timestamp
  | DCancelled => bool
  | DSend _ => result ApiResponse GithubError
  | DLocked A _ => A
  | DGate _ | DRelease _ => unit
  | DQuota => option RateLimitSnapshot
  end.
#[global] Abbreviation dprogram := (free danswer) (only parsing).
#[global] Abbreviation dop e := (@op dcall danswer e) (only parsing).
Definition update (f : RestDemand → RestDemand) : dprogram unit :=
  dop (DLocked unit (λ d, (f d, tt))).

Definition cancel_check : dprogram (result unit InventoryError) :=
  cancelled ← dop DCancelled;
  mret (if (cancelled : bool) then Err InvCancelled else Ok tt).

(** [CancelToken::run]: the token is asked first, and again whenever the work would wait;
    an answer that arrives after the token was cancelled is dropped with the work. Here the
    work only waits for requests. *)
Fixpoint until_cancelled {A} (m : dprogram (result A InventoryError))
    : dprogram (result A InventoryError) :=
  match m with
  | Ret a => Ret a
  | Op e k =>
      match e return (danswer e → dprogram (result A InventoryError)) → _ with
      | DSend r => λ k', Op (DSend r) (λ x, Op DCancelled (λ cancelled : bool,
                           if cancelled then Ret (Err InvCancelled) else k' x))
      | e => λ k', Op e k'
      end (λ x, until_cancelled (k x))
  end.
Definition cancel_run {A} (m : dprogram (result A InventoryError))
    : dprogram (result A InventoryError) :=
  cancelled ← dop DCancelled;
  if (cancelled : bool) then mret (Err InvCancelled) else until_cancelled m.

(** ** Requests *)

(** [ConditionalCache::send]. *)
Definition conditional_send (request : ApiRequest) : dprogram (result Fetched GithubError) :=
  let key := cache_key request in
  validators ← dop (DLocked _ (λ d, (d, cached_validators key (cache d))));
  let sent := match validators with Some v => conditional v request | None => request end in
  response ←? dop (DSend sent);
  now ← dop DNow;
  if is_not_modified response then
    cached ← dop (DLocked _ (λ d, let '(entries, found) := cached_for key validators now (cache d) in
                               (with_cache (λ _, entries) d, found)));
    match cached with
    | Some response => Ret (Ok (mk_fetched response true))
    | None =>
        response ←? dop (DSend request);
        _ ← update (with_cache (cache_store key response now));
        Ret (Ok (mk_fetched response false))
    end
  else
    _ ← update (with_cache (cache_store key response now));
    Ret (Ok (mk_fetched response false)).

(** [classify]: a rate limit starts the quiet period. *)
Definition classify_failure (error : GithubError) : dprogram InventoryError :=
  match detect error with
  | None => mret (InvGithub error)
  | Some limit =>
      now ← dop DNow;
      reported ← dop (DLocked _ (λ d, let '(h, reported) := hold_for limit now (hold d) in
                                   (with_hold (Some h) d, reported)));
      mret (InvRateLimited reported)
  end.

Definition get (request : ApiRequest) : dprogram (result Fetched InventoryError) :=
  _ ←? cancel_check;
  now ← dop DNow;
  limit ← dop (DLocked _ (λ d, (d, held now d)));
  match limit with
  | Some limit =>
      _ ← update (with_stats (λ s, mk_stats (reads s) (unchanged_reads s) (shared_reads s) (suppressed s + 1)));
      Ret (Err (InvRateLimited limit))
  | None =>
      fetched ← cancel_run (
        _ ← update count_request;
        r ← conditional_send request;
        mret (map_err InvGithub r));
      match fetched with
      | Ok fetched => now ← dop DNow; _ ← update (clear_hold now); Ret (Ok fetched)
      | Err (InvGithub error) => e ← classify_failure error; Ret (Err e)
      | Err other => Ret (Err other)
      end
  end.

Section Reading.
(** [Url::parse] of a page link, and the two JSON envelopes: the ids of a page of runs,
    and the status and labels of a page of jobs. *)
Context (parse_url : str → option str).
Context (decode_runs : str → option (list Z)) (decode_jobs : str → option (list (str * list str))).

Definition repo_path (r : OwnerRepo) (rest : str) : str :=
  lit "/repos/" ++ name_str (owner r) ++ lit "/" ++ name_str (repo r) ++ rest.
Definition runs_request (r : OwnerRepo) (status : str) : ApiRequest :=
  api_query (lit "per_page") (show_uint PER_PAGE)
    (api_query (lit "status") status (api_get (repo_path r (lit "/actions/runs")))).
Definition jobs_request (r : OwnerRepo) (run_id : Z) : ApiRequest :=
  api_query (lit "per_page") (show_uint PER_PAGE)
    (api_query (lit "filter") LATEST_JOBS_FILTER
      (api_get (repo_path r (lit "/actions/runs/" ++ show_uint run_id ++ lit "/jobs")))).

Definition active_runs (r : OwnerRepo) (status : str) (cap : nat)
    : dprogram (result RunListing InventoryError) :=
  fetched ←? get (runs_request r status);
  let has_next_page := bool_decide (is_Some (next_page parse_url (fe_response fetched))) in
  match decode_runs (rs_body (fe_response fetched)) with
  | None => Ret (Err (InvGithub Decode))
  | Some workflow_runs =>
      Ret (Ok (mk_listing (take cap workflow_runs)
                 (bool_decide (length workflow_runs ≤ cap)%nat && negb has_next_page)
                 (negb (fe_not_modified fetched))))
  end.

(** The jobs of a page that wait for a runner. *)
Definition queued_jobs (page : list (str * list str)) : list RunsOn :=
  (λ job, from_job_labels job.2) <$> List.filter (λ job, str_eqb job.1 QUEUED_JOB_STATUS) page.

(** The walk over the pages of a run's jobs, with this many pages left. *)
Fixpoint job_pages (budget : nat) (request : ApiRequest) (jobs : list RunsOn) (changed : bool)
    : dprogram (result RunJobs InventoryError) :=
  match budget with
  | O => Ret (Ok (mk_runjobs jobs false changed))
  | S budget =>
      fetched ←? get request;
      let changed := changed || negb (fe_not_modified fetched) in
      match decode_jobs (rs_body (fe_response fetched)) with
      | None => Ret (Err (InvGithub Decode))
      | Some page =>
          let jobs := jobs ++ queued_jobs page in
          match next_page parse_url (fe_response fetched) with
          | Some url => job_pages budget (api_get url) jobs changed
          | None => Ret (Ok (mk_runjobs jobs true changed))
          end
      end
  end.
Definition queued_jobs_of_run (r : OwnerRepo) (run_id : Z)
    : dprogram (result RunJobs InventoryError) :=
  job_pages MAX_JOB_PAGES_PER_RUN (jobs_request r run_id) [] false.

(** What a repository's two passes accumulate. *)
Record progress := mk_progress {
  pg_jobs : list RunsOn;
  pg_exact : bool;
  pg_changed : bool;
  pg_resolved : list Z;   (* BTreeSet<u64>, in the order of insertion *)
}.

Definition resolve_run (r : OwnerRepo) (run_id : Z) (p : progress)
    : dprogram (result progress InventoryError) :=
  if bool_decide (run_id ∈ pg_resolved p) then Ret (Ok p)
  else
    run ←? queued_jobs_of_run r run_id;
    Ret (Ok (mk_progress (pg_jobs p ++ rj_jobs run) (pg_exact p && rj_complete run)
               (pg_changed p || rj_changed run) (pg_resolved p ++ [run_id]))).

Definition resolve_status (r : OwnerRepo) (pass : str * nat) (p : progress)
    : dprogram (result progress InventoryError) :=
  let '(status, cap) := pass in
  listing ←? active_runs r status cap;
  for_each_ok (ls_run_ids listing) (resolve_run r)
    (mk_progress (pg_jobs p) (pg_exact p && ls_complete listing)
       (pg_changed p || ls_changed listing) (pg_resolved p)).

Definition repository_queued (r : OwnerRepo) : dprogram (result RepositoryDemand InventoryError) :=
  p ←? for_each_ok
         [(QUEUED_RUN_STATUS, MAX_QUEUED_RUNS_PER_REPOSITORY_PER_POLL);
          (IN_PROGRESS_RUN_STATUS, MAX_IN_PROGRESS_RUNS_PER_REPOSITORY_PER_POLL)]
         (resolve_status r) (mk_progress [] true false []);
  _ ← update (with_stats (λ s, mk_stats (reads s + 1) (unchanged_reads s + (if pg_changed p then 0 else 1))
                                 (shared_reads s) (suppressed s)));
  Ret (Ok (mk_rdemand (pg_jobs p) (pg_exact p)
             (pg_changed p && negb (bool_decide (pg_resolved p = []))))).

(** ** One reading for every loop *)

(** A reading at [at_] that is younger than [age]. *)
Definition younger (now age at_ : Z) : bool := bool_decide (0 ≤ now - at_) && bool_decide (now - at_ < age).

Definition fresh_reading (r : OwnerRepo) (now : Timestamp) (window : Duration) (d : RestDemand)
    : option RepositoryDemand :=
  found ← map_get r (readings d);
  if younger now window found.1 then Some found.2 else None.
Definition keep_reading (r : OwnerRepo) (now : Timestamp) (reading : RepositoryDemand)
    (d : RestDemand) : RestDemand :=
  with_readings (List.filter (λ kv, younger now HOLD_MEMORY kv.2.1)
                   (map_insert r (now, reading) (readings d))) d.

(** The gate, unless the caller is cancelled while waiting for it. *)
Definition gate_lock (r : OwnerRepo) : dprogram (result unit InventoryError) :=
  _ ←? cancel_check;
  _ ← dop (DGate r);
  cancelled ← dop DCancelled;
  if (cancelled : bool) then _ ← dop (DRelease r); Ret (Err InvCancelled) else Ret (Ok tt).

Definition gated_reading (r : OwnerRepo) (window : Duration)
    : dprogram (result RepositoryDemand InventoryError) :=
  now ← dop DNow;
  fresh ← dop (DLocked _ (λ d, (d, fresh_reading r now window d)));
  match fresh with
  | Some reading =>
      _ ← update (with_stats (λ s, mk_stats (reads s) (unchanged_reads s) (shared_reads s + 1) (suppressed s)));
      Ret (Ok reading)
  | None =>
      reading ←? repository_queued r;
      _ ← update (keep_reading r now reading);
      Ret (Ok reading)
  end.

Definition repository_reading (r : OwnerRepo) : dprogram (result RepositoryDemand InventoryError) :=
  window ← dop (DLocked _ (λ d, (d, shared_window d)));
  if bool_decide (window = 0) then repository_queued r
  else
    _ ←? gate_lock r;
    reading ← gated_reading r window;
    _ ← dop (DRelease r);
    mret reading.

(** ** The demand of a scope *)

Definition is_repository_local_failure (e : InventoryError) : bool :=
  match e with
  | InvGithub (Forbidden _ _ _ _) => true
  | InvGithub (Status status _ _ _ _) => bool_decide (status = 404)
  | _ => false
  end.

(** [Display] of the failure. *)
Context (error_text : InventoryError → str).

Definition add_reading (r : OwnerRepo) (reading : RepositoryDemand) (d : QueuedDemand) : QueuedDemand :=
  mk_demand (map_insert r (rd_jobs reading) (qd_per_repository d)) (qd_unavailable d)
    (if rd_exact reading then qd_truncated d else (set_insert r (qd_truncated d)).1)
    (if rd_busy reading then (set_insert r (qd_busy d)).1 else qd_busy d) (qd_rate_limit d).
Definition add_unavailable (r : OwnerRepo) (e : InventoryError) (d : QueuedDemand) : QueuedDemand :=
  mk_demand (qd_per_repository d) (qd_unavailable d ++ [mk_unavailable r (error_text e)])
    (qd_truncated d) (qd_busy d) (qd_rate_limit d).

Definition poll_repository (aggregating : bool) (r : OwnerRepo) (d : QueuedDemand)
    : dprogram (result QueuedDemand InventoryError) :=
  reading ← repository_reading r;
  match reading with
  | Ok reading => Ret (Ok (add_reading r reading d))
  | Err error =>
      if aggregating && is_repository_local_failure error then Ret (Ok (add_unavailable r error d))
      else Ret (Err error)
  end.

Definition queued_demand (s : ActivityScope) : dprogram (result QueuedDemand InventoryError) :=
  let aggregating := bool_decide (scope (sc_target s) = ScopeOrganization) in
  now ← dop DNow;
  _ ← update (with_cache (retain_recent now));
  demand ←? for_each_ok (sc_repositories s) (poll_repository aggregating) (QueuedDemand_new []);
  quota ← dop DQuota;
  Ret (Ok (mk_demand (qd_per_repository demand) (qd_unavailable demand) (qd_truncated demand)
             (qd_busy demand) quota)).

(** [GatewayDemand::poll] of the agent. *)
Context (github_text : GithubError → str).
Definition gateway_poll (s : ActivityScope) : dprogram PollOutcome :=
  demand ← queued_demand s;
  mret (match demand with
        | Ok demand => Ready demand
        | Err error => PollFailed (from_error github_text error)
        end).
End Reading.
