(* ===== verification/DemandSafety.v ===== *)
(** * What the demand gateway reads

    [Demand] against a GitHub that serves one queue, which stands still while it is read, a
    conditional-request contract and other loops that use the same gateway between the
    calls. Proved here: the cache never
    shows; a reading never counts a job twice, is a floor, and is exact when it says so;
    a scope's reading accounts for every repository; no request leaves but after a look that
    finds no quiet period, which is never shortened; how long one lasts; and what a poll may
    spend. *)

From stdpp Require Import strings.
From S2P Require Import Prelude RustStr Ordered Model Path Workspace Execution Host Attempt.
From S2P Require Import Labels Policy Capacity Github Schedule Routing Backoff Report.
From S2P Require Import Effects Http Traffic Conditional Demand.
#[local] Open Scope Z_scope.
#[local] Open Scope rust_scope.

(** ** The world *)

Record gworld := mk_gworld { gw_state : RestDemand; gw_clock : Timestamp }.
Definition on_state {A} (f : RestDemand → RestDemand * A) (w : gworld) : gworld :=
  mk_gworld (f (gw_state w)).1 (gw_clock w).
Definition quiet (w : gworld) : Prop := held (gw_clock w) (gw_state w) = None.

(** Calls that leave the hold. *)
Definition calm_call (e : dcall) : Prop :=
  match e with DLocked A f => ∀ d, hold (f d).1 = hold d | _ => True end.
Ltac calms :=
  repeat first
    [ done
    | progress intros
    | apply within_bind
    | apply within_bind_ok
    | match goal with
      | |- within _ (op (DLocked _ _)) =>
          split; [cbn; intros; repeat case_match; simplify_eq/=; done|done]
      | |- within _ match ?x with _ => _ end => destruct x
      end ].

Section Server.
Context (parse_url : str → option str).
Context (decode_runs : str → option (list Z)) (decode_jobs : str → option (list (str * list str))).
(** The responses GitHub ever gave for a resource, and those that show it as it is. *)
Context (given listing : str → ApiResponse → Prop).
(** The queue: the runs of a repository by status, and the pages of a run's jobs. *)
Context (q_runs : OwnerRepo → str → list Z) (q_pages : OwnerRepo → Z → list (list (str * list str))).
Context (page_key : OwnerRepo → Z → nat → str).

(** Pagination as documented, of a queue that does not move: pages in order, linked until
    the last; and a repository is one however its name is spelled. *)
Class GithubListings : Prop := {
  runs_listed r status resp :
    listing (cache_key (runs_request r status)) resp →
    ∃ page rest, decode_runs (rs_body resp) = Some page ∧ q_runs r status = page ++ rest ∧
      (next_page parse_url resp = None → rest = []);
  first_page r run : page_key r run 0 = cache_key (jobs_request r run);
  jobs_listed r run i resp :
    listing (page_key r run i) resp →
    ∃ page, q_pages r run !! i = Some page ∧ decode_jobs (rs_body resp) = Some page ∧
      match next_page parse_url resp with
      | Some url => cache_key (api_get url) = page_key r run (S i)
      | None => length (q_pages r run) = S i
      end;
  one_repository r r' : cmp r r' = Eq →
    (∀ status, q_runs r status = q_runs r' status) ∧ ∀ run, q_pages r run = q_pages r' run;
}.
Context `{HGithub : !GithubListings}.

(** ** What a reading should say *)

(** The runs under way, each once, and their jobs that wait. *)
Definition active (r : OwnerRepo) : list Z :=
  remove_dups (q_runs r QUEUED_RUN_STATUS ++ q_runs r IN_PROGRESS_RUN_STATUS).
Definition waiting (r : OwnerRepo) (run : Z) : list RunsOn := q_pages r run ≫= queued_jobs.
Definition all_waiting (r : OwnerRepo) : list RunsOn := active r ≫= waiting r.

Definition good (r : OwnerRepo) (x : RepositoryDemand) : Prop :=
  rd_jobs x ⊆+ all_waiting r ∧ (rd_exact x = true → rd_jobs x ≡ₚ all_waiting r).

Lemma good_key r r' x : cmp r r' = Eq → good r x → good r' x.
Proof.
  intros [Hr Hp]%one_repository. assert (all_waiting r = all_waiting r') as E; [|by unfold good; rewrite E].
  unfold all_waiting, active. rewrite !Hr. apply list_bind_ext; [|done]. intros run.
  unfold waiting. by rewrite Hp.
Qed.

(** ** The gateway's invariant *)

Definition cache_ok (c : ConditionalCache) : Prop :=
  (size c ≤ MAX_ENTRIES)%nat ∧
  ∀ k e, c !! k = Some e → given k (en_response e) ∧ en_validators e = Validators_of (en_response e).
Definition readings_ok (l : list (OwnerRepo * (Timestamp * RepositoryDemand))) : Prop :=
  ∀ r t x, (r, (t, x)) ∈ l → good r x.
Definition gateway_ok (w : gworld) : Prop :=
  cache_ok (cache (gw_state w)) ∧ readings_ok (readings (gw_state w)).

(** What other loops do meanwhile: they keep the gateway in order, and time passes. They may
    start and end quiet periods, unless the hold is [steady]. *)
Context (steady : bool).
Definition calm (w w' : gworld) : Prop :=
  gw_clock w ≤ gw_clock w' ∧ (steady = true → hold (gw_state w') = hold (gw_state w)).
Definition others (w w' : gworld) : Prop := gateway_ok w' ∧ calm w w'.

Definition demand_does (w : gworld) (e : dcall) : danswer e → gworld → Prop :=
  match e return danswer e → gworld → Prop with
  | DNow => λ t w', others w w' ∧ t = gw_clock w'
  | DSend r => λ x w', others w w' ∧
      match x with
      | Ok resp =>
          if is_not_modified resp
          then ∃ v, rq_validators r = Some v ∧
                 ∀ r', given (cache_key r) r' → Validators_of r' = v → listing (cache_key r) r'
          else given (cache_key r) resp ∧ listing (cache_key r) resp
      | Err _ => True
      end
  | DLocked A f => λ x w', ∃ w1, others w w1 ∧ w' = on_state f w1 ∧ x = (f (gw_state w1)).2
  | _ => λ _ w', others w w'
  end.
(** With a steady hold no request leaves in a quiet period. *)
Definition quiet_if_steady (w : gworld) : Prop := steady = true → quiet w.
Definition demand_may (w : gworld) (e : dcall) : Prop :=
  gateway_ok w ∧ match e with DSend _ => quiet_if_steady w | _ => True end.
Definition demand_env : env danswer gworld := mk_env demand_may demand_does.
#[local] Abbreviation V := demand_env.

#[local] Instance calm_preorder : PreOrder calm.
Proof.
  split; [done|]. intros w1 w2 w3 [? H1] [? H2]. split; [lia|]. intros Hs. by rewrite (H2 Hs), (H1 Hs).
Qed.

Lemma others_trans w1 w2 w3 : calm w1 w2 → others w2 w3 → others w1 w3.
Proof. intros H1 [? H2]. split; [done|]. by etransitivity. Qed.

Lemma quiet_calm w w' : calm w w' → quiet_if_steady w → quiet_if_steady w'.
Proof.
  intros [Hc Hh] Hq Hs. specialize (Hq Hs). revert Hq. unfold quiet, held. rewrite (Hh Hs). destruct (hold (gw_state w)) as [h|]; [|done]. simpl.
  unfold MAX_RATE_LIMIT_BACKOFF, seconds. repeat case_bool_decide; done || lia.
Qed.

(** *** Rules *)

Lemma sat_locked {A} (f : RestDemand → RestDemand * A) w (Q : gworld → A → Prop) :
  gateway_ok w → (∀ w1, others w w1 → Q (on_state f w1) (f (gw_state w1)).2) →
  sat V (dop (DLocked A f)) w Q.
Proof. intros Hw HQ. apply sat_op; [done|]. intros x w' (w1 & Ho & -> & ->). by apply HQ. Qed.

Lemma sat_update f w (Q : gworld → unit → Prop) :
  gateway_ok w → (∀ w1, others w w1 → Q (mk_gworld (f (gw_state w1)) (gw_clock w1)) tt) →
  sat V (update f) w Q.
Proof. intros Hw HQ. apply sat_locked; [done|]. intros w1 Ho. by apply HQ. Qed.

(** An access that leaves the hold, and keeps the invariant. *)
Lemma others_state f w w1 :
  others w w1 → gateway_ok (mk_gworld f (gw_clock w1)) → hold f = hold (gw_state w1) →
  others w (mk_gworld f (gw_clock w1)).
Proof. intros [_ [Hc Hh]] Hok Hf. split; [done|]. split; [done|]. simpl. intros Hs. by rewrite Hf, Hh. Qed.

(** ** Cancellation *)

Lemma calm_call_does w e x w' : calm_call e → demand_does w e x w' → calm w w'.
Proof.
  destruct e; simpl; try by intros _ [_ ?].
  - by intros _ [[_ ?] _].
  - by intros _ [[_ ?] _].
  - intros Hf (w1 & [_ [Hc Hh]] & -> & _). split; [done|]. simpl. intros Hs. by rewrite Hf, Hh.
Qed.

(** Work that may be dropped does what it does, or leaves the gateway in order. *)
Lemma until_cancelled_sat {A} (m : dprogram (result A InventoryError)) w
    (Q : gworld → result A InventoryError → Prop) :
  within calm_call m → sat V m w Q →
  sat V (until_cancelled m) w (λ w' r, Q w' r ∨ (r = Err InvCancelled ∧ others w w')).
Proof.
  intros Hm. assert (∀ w0, calm w0 w → sat V m w Q →
    sat V (until_cancelled m) w (λ w' r, Q w' r ∨ (r = Err InvCancelled ∧ others w0 w'))) as H.
  { revert w. induction m as [a|e k IH]; intros w w0 Hw.
    { intros HQ. by left. }
    destruct Hm as [He Hk]. intros [Hmay Hsat].
    assert (∀ x w', does V w e x w' → sat V (until_cancelled (k x)) w'
      (λ w' r, Q w' r ∨ (r = Err InvCancelled ∧ others w0 w'))) as Hrest.
    { intros x w' Hd. apply IH; [done| |by apply Hsat].
      etransitivity; [exact Hw|]. by eapply calm_call_does. }
    destruct e; try (split; [done|]; exact Hrest).
    split; [done|]. intros x w1 [Ho Hx]. split; [by destruct Ho|].
    intros c w2 Ho2. destruct c.
    - right. split; [done|]. eapply others_trans; [|exact Ho2].
      etransitivity; [exact Hw|]. by destruct Ho.
    - apply Hrest. split; [|done]. eapply others_trans; [|exact Ho2]. by destruct Ho. }
  by apply H.
Qed.

(** ** The cache never shows *)

Definition shows (request : ApiRequest) (w w' : gworld) (r : result Fetched GithubError) : Prop :=
  others w w' ∧ match r with Ok f => listing (cache_key request) (fe_response f) | Err _ => True end.

Lemma store_ok key resp now c : cache_ok c → given key resp → cache_ok (cache_store key resp now c).
Proof.
  intros [Hs Hc] Hg. split; [by apply cache_store_size|].
  intros k e [(-> & -> & _)|Hk]%cache_store_lookup; [done|by apply Hc].
Qed.

Lemma store_sat key resp now w (Q : gworld → unit → Prop) :
  gateway_ok w → given key resp → (∀ w', others w w' → Q w' tt) →
  sat V (update (with_cache (cache_store key resp now))) w Q.
Proof.
  intros Hw Hg HQ. apply sat_update; [done|]. intros w1 Ho. apply HQ.
  apply others_state; [done| |done]. destruct Ho as [[Hc Hr] _]. split; [|done].
  simpl. by apply store_ok.
Qed.

Lemma cached_for_ok key sent now c :
  cache_ok c → cache_ok (cached_for key sent now c).1 ∧
  ∀ resp, (cached_for key sent now c).2 = Some resp → given key resp ∧ sent = Some (Validators_of resp).
Proof.
  intros [Hs Hc]. unfold cached_for. destruct (c !! key) as [e|] eqn:E; [|done].
  destruct (Hc _ _ E) as [Hg Hv]. case_bool_decide as Hsent; [|done]. cbn [fst snd]. split; [split|].
  - simpl. rewrite map_size_insert_Some; [done|by eexists].
  - intros k e' [[<- <-]|[_ ?]]%lookup_insert_Some; [done|by apply Hc].
  - intros resp [= <-]. split; [done|]. congruence.
Qed.

Lemma conditional_key v request : cache_key (conditional v request) = cache_key request.
Proof. done. Qed.

Lemma cached_validators_ok key c v :
  cache_ok c → cached_validators key c = Some v → ∃ resp, given key resp ∧ v = Validators_of resp.
Proof.
  intros [_ Hc] (e & E & ->)%fmap_Some. destruct (Hc _ _ E) as [? ?]. by eexists.
Qed.

Lemma others_calm w w' : others w w' → calm w w'.
Proof. by intros [_ ?]. Qed.
Lemma others_ok w w' : others w w' → gateway_ok w'.
Proof. by intros [? _]. Qed.
#[local] Hint Resolve others_calm others_ok others_trans quiet_calm : core.

Lemma conditional_send_sat request w :
  gateway_ok w → quiet_if_steady w → rq_validators request = None →
  sat V (conditional_send request) w (shows request w).
Proof.
  intros Hw Hq Hplain. apply sat_bind, sat_locked; [done|]. intros w1 O1.
  set (v := cached_validators _ _).
  set (sent := match v with Some v => conditional v request | None => request end).
  assert (cache_key sent = cache_key request) as Hkey by (unfold sent; by destruct v).
  change (on_state _ w1) with (mk_gworld (gw_state w1) (gw_clock w1)).
  assert (mk_gworld (gw_state w1) (gw_clock w1) = w1) as -> by (by destruct w1).
  apply sat_bind_ok, sat_op; [split; eauto|]. intros [resp|e] w2 [O2 H2]; [|split; eauto].
  cbn [snd] in H2. fold sent in H2.
  assert (others w w2) as O02 by eauto.
  apply sat_op_bind; [split; eauto|]. intros now w3 [O3 ->]. assert (others w w3) as O03 by eauto.
  destruct (is_not_modified resp); cycle 1.
  { rewrite Hkey in H2. destruct H2 as [Hg Hl]. apply sat_bind, store_sat; [by eauto|done|].
    intros w4 O4. apply sat_ret. split; [eauto|done]. }
  destruct H2 as (v' & Hv & Hvouch). rewrite Hkey in Hvouch.
  assert (v = Some v') as Ev.
  { unfold sent in Hv. destruct v as [v0|]; [|congruence]. simpl in Hv.
    destruct (validators_empty v0); congruence. }
  apply sat_bind, sat_locked; [by eauto|]. intros w4 O4.
  destruct (cached_for_ok (cache_key request) v (gw_clock w3) (cache (gw_state w4))) as [Hok Hfound].
  { by destruct O4 as [[? _] _]. }
  unfold on_state. destruct (cached_for _ _ _ _) as [entries found]. cbn [fst snd] in *.
  assert (others w (mk_gworld (with_cache (λ _, entries) (gw_state w4)) (gw_clock w4))) as O5.
  { apply others_state; [by eauto| |done]. split; [exact Hok|]. by destruct O4 as [[_ ?] _]. }
  destruct found as [resp'|].
  - destruct (Hfound _ eq_refl) as [Hg Hs]. apply sat_ret. split; [done|]. apply Hvouch; [done|].
    rewrite Ev in Hs. by injection Hs.
  - apply sat_bind_ok, sat_op; [split; eauto|]. intros [resp'|e] w6 [O6 H6]; [|split; eauto].
    destruct (is_not_modified resp'); [destruct H6 as (? & ? & _); congruence|].
    destruct H6 as [Hg Hl]. apply sat_bind, store_sat; [by eauto|done|].
    intros w7 O7. apply sat_ret. split; [eauto|done].
Qed.

Lemma conditional_send_calm request : within calm_call (conditional_send request).
Proof. unfold conditional_send. calms. Qed.

(** ** One request *)

Definition got (request : ApiRequest) (w w' : gworld) (r : result Fetched InventoryError) : Prop :=
  gateway_ok w' ∧ gw_clock w ≤ gw_clock w' ∧
  match r with Ok f => listing (cache_key request) (fe_response f) | Err _ => True end.

Lemma clear_hold_cache now d : cache (clear_hold now d) = cache d ∧ readings (clear_hold now d) = readings d.
Proof. unfold clear_hold. destruct (hold d); [by case_bool_decide|done]. Qed.

Lemma gateway_ok_same w d :
  gateway_ok w → cache d = cache (gw_state w) → readings d = readings (gw_state w) →
  gateway_ok (mk_gworld d (gw_clock w)).
Proof. intros [Hc Hr] Ec Er. split; simpl; by rewrite ?Ec, ?Er. Qed.

Lemma classify_failure_sat error w :
  gateway_ok w → sat V (classify_failure error) w (λ w' _, gateway_ok w' ∧ gw_clock w ≤ gw_clock w').
Proof.
  intros Hw. unfold classify_failure. destruct (detect error) as [limit|]; [|by apply sat_ret].
  apply sat_op_bind; [done|]. intros now w1 [O1 ->].
  apply sat_bind, sat_locked; [by eauto|]. intros w2 O2. apply sat_ret. unfold on_state.
  destruct (hold_for _ _ _) as [h reported]. simpl. split.
  - apply gateway_ok_same; [by eauto|done|done].
  - destruct O1 as [_ [? _]], O2 as [_ [? _]]. lia.
Qed.

Lemma get_sat request w :
  gateway_ok w → rq_validators request = None → sat V (get request) w (got request w).
Proof.
  intros Hw Hplain. apply sat_bind_ok, sat_op_bind; [done|]. intros c w1 O1. apply sat_ret.
  change (others w w1) in O1. destruct c; [split; [by eauto|]; split; [apply O1|done]|].
  apply sat_op_bind; [split; eauto|]. intros now w2 [O2 ->].
  apply sat_bind, sat_locked; [by eauto|]. intros w3 O3.
  change (on_state _ w3) with (mk_gworld (gw_state w3) (gw_clock w3)). cbn [snd].
  assert (mk_gworld (gw_state w3) (gw_clock w3) = w3) as -> by (by destruct w3).
  assert (others w w3) as O03 by eauto.
  destruct (held (gw_clock w2) (gw_state w3)) as [limit|] eqn:Eh.
  { apply sat_bind, sat_update; [by eauto|]. intros w4 O4. apply sat_ret. split; [|split; [|done]].
    - apply gateway_ok_same; [by eauto|done|done].
    - destruct O03 as [_ [? _]], O4 as [_ [? _]]. simpl. lia. }
  assert (quiet_if_steady w3) as Hq.
  { eapply (quiet_calm (mk_gworld (gw_state w3) (gw_clock w2))); [|by intros _]. split; [|done].
    simpl. by destruct O3 as [_ [? _]]. }
  apply sat_bind, sat_op_bind; [split; eauto|]. intros c w4 O4.
  change (others w3 w4) in O4. assert (others w w4) as O04 by eauto.
  assert (∀ e w5, others w w5 → got request w w5 (Err e)) as Herr.
  { intros e w5 O5. split; [by eauto|]. split; [apply O5|done]. }
  destruct c; [apply sat_ret, sat_ret; by auto|].
  eapply sat_mono; [apply (until_cancelled_sat _ _ (λ w5 r, ∃ g, r = map_err InvGithub g ∧ shows request w4 w5 g))|].
  - calms.
  - apply sat_bind, sat_update; [by eauto|]. intros w5 O5.
    assert (others w4 (mk_gworld (count_request (gw_state w5)) (gw_clock w5))) as O5'.
    { apply others_state; [done| |done]. apply gateway_ok_same; [by eauto|done|done]. }
    apply sat_bind. eapply sat_mono; [apply conditional_send_sat; [by eauto| |done]|].
    { eapply quiet_calm; [|exact Hq]. etransitivity; [by apply others_calm|]. by apply others_calm. }
    intros w6 g [O6 Hg]. apply sat_ret. exists g. split; [done|]. split; [eauto|done].
  - intros w5 r [(g & -> & [O5 Hg])|[-> O5]]; [|apply sat_ret; by eauto].
    assert (others w w5) as O05 by eauto. destruct g as [f|error]; cbn [map_err].
    + apply sat_op_bind; [split; eauto|]. intros now w6 [O6 ->].
      apply sat_bind, sat_update; [by eauto|]. intros w7 O7. apply sat_ret.
      destruct (clear_hold_cache (gw_clock w6) (gw_state w7)) as [Ec Er]. split; [|split; [|done]].
      * apply gateway_ok_same; [by eauto|done|done].
      * destruct O05 as [_ [? _]], O6 as [_ [? _]], O7 as [_ [? _]]. simpl. lia.
    + apply sat_bind. eapply sat_mono; [by apply classify_failure_sat; eauto|].
      intros w6 e [Hok Hc]. apply sat_ret. split; [done|]. split; [|done]. destruct O05 as [_ [? _]]. lia.
Qed.

(** ** One run *)

Definition walked (r : OwnerRepo) (run : Z) (w' : gworld) (res : result RunJobs InventoryError) : Prop :=
  gateway_ok w' ∧
  match res with
  | Ok x => rj_jobs x `prefix_of` waiting r run ∧ (rj_complete x = true → rj_jobs x = waiting r run)
  | Err _ => True
  end.

Lemma take_prefix r run i : (take i (q_pages r run) ≫= queued_jobs) `prefix_of` waiting r run.
Proof.
  unfold waiting. rewrite <- (take_drop i (q_pages r run)) at 2. rewrite bind_app. by eexists.
Qed.

Lemma job_pages_sat r run budget i request jobs changed w :
  gateway_ok w → cache_key request = page_key r run i → rq_validators request = None →
  jobs = (take i (q_pages r run) ≫= queued_jobs) →
  sat V (job_pages parse_url decode_jobs budget request jobs changed) w (walked r run).
Proof.
  revert i request jobs changed w. induction budget as [|budget IH];
    intros i request jobs changed w Hw Hk Hplain ->; cbn [job_pages].
  { apply sat_ret. split; [done|]. split; [apply take_prefix|done]. }
  apply sat_bind_ok. eapply sat_mono; [by apply get_sat|].
  intros w1 [f|e] (Hok & _ & Hf); [|done]. rewrite Hk in Hf.
  destruct (jobs_listed _ _ _ _ Hf) as (page & Hp & Hd & Hn). rewrite Hd.
  assert ((take i (q_pages r run) ≫= queued_jobs) ++ queued_jobs page =
          (take (S i) (q_pages r run) ≫= queued_jobs)) as ->.
  { rewrite (take_S_r _ _ _ Hp), bind_app. simpl. by rewrite app_nil_r. }
  destruct (next_page parse_url (fe_response f)) as [url|].
  - by apply (IH (S i)).
  - apply sat_ret. split; [done|]. cbn [rj_jobs rj_complete].
    split; [apply take_prefix|]. intros _. unfold waiting. by rewrite take_ge by lia.
Qed.

Lemma queued_jobs_of_run_sat r run w :
  gateway_ok w → sat V (queued_jobs_of_run parse_url decode_jobs r run) w (walked r run).
Proof. intros Hw. apply (job_pages_sat r run _ 0); try done. symmetry. apply first_page. Qed.

(** ** Every run once *)

(** What was resolved: each run once, with its waiting jobs or the first of them. *)
Definition tallied (r : OwnerRepo) (p : progress) : Prop :=
  ∃ parts : list (Z * list RunsOn), parts.*1 = pg_resolved p ∧ NoDup parts.*1 ∧
    pg_jobs p = concat parts.*2 ∧
    Forall (λ part, part.1 ∈ active r ∧ part.2 `prefix_of` waiting r part.1 ∧
              (pg_exact p = true → part.2 = waiting r part.1)) parts.

(** Later progress: more is resolved, and it is exact only if it was. *)
Definition further (p p' : progress) : Prop :=
  pg_resolved p ⊆ pg_resolved p' ∧ (pg_exact p' = true → pg_exact p = true).
#[local] Instance further_preorder : PreOrder further.
Proof. split; [done|]. intros p1 p2 p3 [? ?] [? ?]. split; [set_solver|auto]. Qed.

Lemma tallied_weaken r p exact changed :
  tallied r p → (exact = true → pg_exact p = true) →
  tallied r (mk_progress (pg_jobs p) exact changed (pg_resolved p)).
Proof.
  intros (parts & Hr & Hd & Hj & Hf) He. exists parts. split_and!; try done.
  eapply Forall_impl; [exact Hf|]. simpl. naive_solver.
Qed.

Lemma resolve_run_sat r run p w :
  gateway_ok w → run ∈ active r → tallied r p →
  sat V (resolve_run parse_url decode_jobs r run p) w (λ w' res,
    gateway_ok w' ∧
    match res with Ok p' => tallied r p' ∧ further p p' ∧ run ∈ pg_resolved p' | Err _ => True end).
Proof.
  intros Hw Hrun Ht. unfold resolve_run. case_bool_decide as Hin; [by apply sat_ret|].
  apply sat_bind_ok. eapply sat_mono; [by apply queued_jobs_of_run_sat|].
  intros w1 [x|e] [Hok Hx]; [|done]. apply sat_ret. split; [done|]. split_and!.
  - destruct Ht as (parts & Hr & Hd & Hj & Hf), Hx as [Hpre Hall].
    exists (parts ++ [(run, rj_jobs x)]). rewrite !fmap_app, concat_app. cbn [pg_resolved pg_jobs pg_exact].
    split_and!.
    + by rewrite Hr.
    + apply NoDup_app. split_and!; [done| |apply NoDup_singleton].
      intros run' Hr' ->%list_elem_of_singleton. by rewrite Hr in Hr'.
    + rewrite Hj. simpl. by rewrite app_nil_r.
    + apply Forall_app. split.
      * eapply Forall_impl; [exact Hf|]. simpl. intros part (?&?&He). split_and!; try done.
        intros [? _]%andb_true_iff. auto.
      * constructor; [|done]. simpl. split_and!; try done. intros [_ ?]%andb_true_iff. auto.
  - split; simpl; [set_solver|by intros [? _]%andb_true_iff].
  - simpl. set_solver.
Qed.

Lemma active_runs_sat r status cap w :
  gateway_ok w →
  sat V (active_runs parse_url decode_runs r status cap) w (λ w' res,
    gateway_ok w' ∧
    match res with
    | Ok x => ls_run_ids x ⊆ q_runs r status ∧ (ls_complete x = true → ls_run_ids x = q_runs r status)
    | Err _ => True
    end).
Proof.
  intros Hw. apply sat_bind_ok. eapply sat_mono; [by apply get_sat|].
  intros w1 [f|e] (Hok & _ & Hf); [|done].
  destruct (runs_listed _ _ _ Hf) as (page & rest & Hd & Hq & Hn). rewrite Hd. apply sat_ret.
  split; [done|]. cbn [ls_run_ids ls_complete]. rewrite Hq. split.
  - intros x Hx%list_elem_of_lookup_1. destruct Hx as [i Hi]. apply lookup_take_Some in Hi as [Hi _].
    apply elem_of_app. left. by eapply list_elem_of_lookup_2.
  - intros [Hl Hnx]%andb_true_iff. apply bool_decide_eq_true in Hl. rewrite take_ge by done.
    rewrite Hn, app_nil_r; [done|]. apply negb_true_iff, bool_decide_eq_false in Hnx.
    by apply eq_None_not_Some.
Qed.

Lemma resolve_status_sat r status cap p w :
  gateway_ok w → q_runs r status ⊆ active r → tallied r p →
  sat V (resolve_status parse_url decode_runs decode_jobs r (status, cap) p) w (λ w' res,
    gateway_ok w' ∧
    match res with
    | Ok p' => tallied r p' ∧ further p p' ∧
               (pg_exact p' = true → q_runs r status ⊆ pg_resolved p')
    | Err _ => True
    end).
Proof.
  intros Hw Hact Ht. apply sat_bind_ok. eapply sat_mono; [by apply active_runs_sat|].
  intros w1 [x|e] [Hok Hx]; [|done]. destruct Hx as [Hsub Hall].
  set (p0 := mk_progress _ _ _ _).
  assert (further p p0) as H0 by (split; simpl; [done|by intros [? _]%andb_true_iff]).
  apply (sat_for_each_done _ (λ l w' p', gateway_ok w' ∧ tallied r p' ∧ further p0 p' ∧ l ⊆ pg_resolved p')).
  - split; [done|]. split; [|split; [done|apply list_subseteq_nil]]. apply tallied_weaken; [done|].
    by intros [? _]%andb_true_iff.
  - intros l1 run l2 w2 p2 El (Hok2 & Ht2 & Hf2 & Hl2).
    eapply sat_mono; [apply resolve_run_sat; [done| |done]|].
    { apply Hact, Hsub. rewrite El. set_solver. }
    intros w3 [p3|e] [Hok3 H3]; [|done]. destruct H3 as (Ht3 & Hf3 & Hrun).
    split_and!; [done|done|by etransitivity|]. destruct Hf3 as [? _]. set_solver.
  - intros w2 p2 (Hok2 & Ht2 & Hf2 & Hl2). split; [done|]. split; [done|].
    split; [by etransitivity|]. intros He. apply Hf2 in He. simpl in He.
    apply andb_true_iff in He as [_ He]. by rewrite <- (Hall He).
Qed.

(** ** A repository *)

Lemma concat_parts_submseteq (f : Z → list RunsOn) (parts : list (Z * list RunsOn)) :
  Forall (λ part, part.2 `prefix_of` f part.1) parts → concat parts.*2 ⊆+ (parts.*1 ≫= f).
Proof.
  induction 1 as [|part parts [k Hk] _ IH]; [done|]. simpl. rewrite Hk.
  rewrite <- app_assoc. apply submseteq_app; [done|]. by apply submseteq_inserts_l.
Qed.

Lemma concat_parts_eq (f : Z → list RunsOn) (parts : list (Z * list RunsOn)) :
  Forall (λ part, part.2 = f part.1) parts → concat parts.*2 = (parts.*1 ≫= f).
Proof. induction 1 as [|part parts Hp _ IH]; [done|]. simpl. rewrite Hp. by f_equal. Qed.

Lemma tallied_good r p b :
  tallied r p → (pg_exact p = true → active r ⊆ pg_resolved p) →
  good r (mk_rdemand (pg_jobs p) (pg_exact p) b).
Proof.
  intros (parts & Hr & Hd & Hj & Hf) Hall. unfold good, all_waiting. cbn [rd_jobs rd_exact].
  assert (parts.*1 ⊆ active r) as Hsub.
  { intros run (part & -> & Hin)%list_elem_of_fmap. rewrite Forall_forall in Hf. by apply Hf. }
  assert (parts.*1 ⊆+ active r) as Hsubm by (by apply NoDup_submseteq).
  rewrite Hj. split.
  - etransitivity; [apply (concat_parts_submseteq (waiting r))|by apply bind_submseteq].
    eapply Forall_impl; [exact Hf|]. naive_solver.
  - intros He. rewrite (concat_parts_eq (waiting r)); cycle 1.
    { eapply Forall_impl; [exact Hf|]. naive_solver. }
    apply bind_Permutation, NoDup_Permutation; [done|apply NoDup_remove_dups|].
    intros run. split; [by auto|]. rewrite Hr. by apply Hall.
Qed.

Definition read_good (r : OwnerRepo) (w' : gworld) (res : result RepositoryDemand InventoryError) : Prop :=
  gateway_ok w' ∧ match res with Ok x => good r x | Err _ => True end.

Lemma repository_queued_sat r w :
  gateway_ok w → sat V (repository_queued parse_url decode_runs decode_jobs r) w (read_good r).
Proof.
  intros Hw. apply sat_bind_ok. eapply (sat_mono _ _ _ (λ w' res, gateway_ok w' ∧
    match res with Ok p => tallied r p ∧ (pg_exact p = true → active r ⊆ pg_resolved p) | Err _ => True end)).
  - assert (∀ status, status ∈ [QUEUED_RUN_STATUS; IN_PROGRESS_RUN_STATUS] → q_runs r status ⊆ active r) as Hact.
    { intros status Hs run Hrun. apply elem_of_remove_dups, elem_of_app.
      apply elem_of_cons in Hs as [->| ->%list_elem_of_singleton]; auto. }
    assert (tallied r (mk_progress [] true false [])) as H0.
    { exists []. by split_and!; try constructor. }
    cbn [for_each_ok]. apply sat_bind_ok.
    eapply sat_mono; [apply resolve_status_sat; [done|apply Hact; set_solver|done]|].
    intros w1 [p1|e] [Hok1 H1]; [|done]. destruct H1 as (Ht1 & _ & Hq1).
    apply sat_bind_ok. eapply sat_mono; [apply resolve_status_sat; [done|apply Hact; set_solver|done]|].
    intros w2 [p2|e] [Hok2 H2]; [|done]. destruct H2 as (Ht2 & [Hs2 He2] & Hq2).
    apply sat_ret. split; [done|]. split; [done|]. intros He run Hrun.
    apply elem_of_remove_dups, elem_of_app in Hrun as [Hrun|Hrun]; [|by apply Hq2].
    apply Hs2, Hq1; auto.
  - intros w1 [p|e] [Hok H]; [|done]. destruct H as [Ht Hall].
    apply sat_bind, sat_update; [done|]. intros w2 O2. apply sat_ret. split.
    + apply gateway_ok_same; [by eauto|done|done].
    + by apply tallied_good.
Qed.

(** ** Shared readings *)

Lemma map_insert_elem {X} (r : OwnerRepo) (v : X) m k x :
  (k, x) ∈ map_insert r v m → (x = v ∧ cmp r k = Eq) ∨ (k, x) ∈ m.
Proof.
  assert (∀ l, (k, x) ∈ (r, v) :: l → (x = v ∧ cmp r k = Eq) ∨ (k, x) ∈ l) as Hnew.
  { intros l [E|?]%elem_of_cons; [|by right]. injection E as -> ->. left. split; [done|apply cmp_refl]. }
  induction m as [|[k' v'] m IH]; simpl; [apply Hnew|].
  destruct (cmp r k') eqn:E; [|apply Hnew|].
  - intros [E'|?]%elem_of_cons; [injection E' as -> ->; by left|right; by apply elem_of_cons; right].
  - intros [->|[?|?]%IH]%elem_of_cons; [right; by apply elem_of_cons; left|by left|right; by apply elem_of_cons; right].
Qed.

Lemma keep_reading_ok r now x d :
  readings_ok (readings d) → good r x → readings_ok (readings (keep_reading r now x d)).
Proof.
  intros Hd Hx k t y Hk. simpl in Hk. apply list_elem_of_In, List.filter_In in Hk as [Hk _].
  apply list_elem_of_In, map_insert_elem in Hk as [[[= -> ->] He]|Hk]; [by eapply good_key|by eapply Hd].
Qed.

Lemma fresh_reading_good r now window d x :
  readings_ok (readings d) → fresh_reading r now window d = Some x → good r x.
Proof.
  intros Hd. unfold fresh_reading. destruct (map_get r (readings d)) as [[t y]|] eqn:E; [|done]. simpl.
  destruct (younger _ _ _); [|done]. intros [= ->]. apply map_get_elem in E as (k & Hk & He).
  eapply good_key; [by apply cmp_eq_sym|]. by eapply Hd.
Qed.

Lemma gated_reading_sat r window w :
  gateway_ok w → sat V (gated_reading parse_url decode_runs decode_jobs r window) w (read_good r).
Proof.
  intros Hw. apply sat_op_bind; [done|]. intros now w1 [O1 ->].
  apply sat_bind, sat_locked; [by eauto|]. intros w2 O2.
  change (on_state _ w2) with (mk_gworld (gw_state w2) (gw_clock w2)). cbn [snd].
  destruct (fresh_reading _ _ _ _) as [x|] eqn:E.
  - apply sat_bind, sat_update; [by apply (gateway_ok_same w2); eauto|]. intros w3 O3. apply sat_ret. split.
    + apply gateway_ok_same; [by eauto|done|done].
    + eapply fresh_reading_good; [|exact E]. by destruct O2 as [[_ ?] _].
  - apply sat_bind_ok. eapply sat_mono; [apply repository_queued_sat; by apply (gateway_ok_same w2); eauto|].
    intros w3 [x|e] [Hok Hx]; [|done]. apply sat_bind, sat_update; [done|]. intros w4 [[Hc Hr] _].
    apply sat_ret. split; [|done]. split; [done|]. simpl. by apply keep_reading_ok.
Qed.

Lemma repository_reading_sat r w :
  gateway_ok w → sat V (repository_reading parse_url decode_runs decode_jobs r) w (read_good r).
Proof.
  intros Hw. apply sat_bind, sat_locked; [done|]. intros w1 O1.
  assert (gateway_ok (mk_gworld (gw_state w1) (gw_clock w1))) as Hok1
    by (apply gateway_ok_same; [by eauto|done|done]).
  change (on_state _ w1) with (mk_gworld (gw_state w1) (gw_clock w1)). cbn [snd].
  case_bool_decide; [by apply repository_queued_sat|].
  apply sat_bind_ok. eapply (sat_mono _ _ _ (λ w' _, gateway_ok w')).
  - apply sat_bind_ok, sat_op_bind; [done|]. intros c w2 [O2 _]. apply sat_ret. destruct c; [done|].
    apply sat_op_bind; [done|]. intros [] w3 [O3 _].
    apply sat_op_bind; [done|]. intros c w4 [O4 _]. destruct c; [|by apply sat_ret].
    apply sat_op_bind; [done|]. intros [] w5 [O5 _]. by apply sat_ret.
  - intros w2 [[]|e] Hok2; [|done]. apply sat_bind. eapply sat_mono; [by apply gated_reading_sat|].
    intros w3 x [Hok3 Hx]. apply sat_op_bind; [done|]. intros [] w4 [O4 _]. apply sat_ret. by split.
Qed.

(** ** A scope *)

(** The repository was read, or is reported as one that was not. *)
Definition accounted (aggregating : bool) (d : QueuedDemand) (r : OwnerRepo) : Prop :=
  (∃ jobs, map_get r (qd_per_repository d) = Some jobs ∧ jobs ⊆+ all_waiting r ∧
     (set_contains r (qd_truncated d) = false → jobs ≡ₚ all_waiting r)) ∨
  (aggregating = true ∧ ∃ reason, mk_unavailable r reason ∈ qd_unavailable d).

Lemma add_reading_accounted aggregating r x d r' :
  good r x → accounted aggregating d r' ∨ r' = r → accounted aggregating (add_reading r x d) r'.
Proof.
  intros Hx H. unfold accounted, add_reading. cbn [qd_per_repository qd_unavailable qd_truncated].
  assert (∀ (l : list OwnerRepo) (b : bool), set_contains r' (if b then l else (set_insert r l).1) = false →
            set_contains r' l = false ∧ (cmp r' r = Eq → b = true)) as Hset.
  { intros l [] Hc; [done|]. rewrite <- !not_true_iff_false, set_contains_insert in *. naive_solver. }
  rewrite map_get_insert. destruct (cmp r' r) eqn:E.
  { left. exists (rd_jobs x). split; [done|].
    assert (good r' x) as [Hf' He'] by (eapply good_key; [by apply cmp_eq_sym|done]).
    split; [done|]. intros [_ Hb]%Hset. auto. }
  all: destruct H as [[(jobs & Hj & Hf & He)|H]| ->]; [|by right|by rewrite cmp_refl in E].
  all: left; exists jobs; split; [done|]; split; [done|]; intros [? _]%Hset; auto.
Qed.

Lemma add_unavailable_accounted error_text aggregating r e d r' :
  accounted aggregating d r' ∨ (aggregating = true ∧ r' = r) →
  accounted aggregating (add_unavailable error_text r e d) r'.
Proof.
  intros [[H|(Ha & reason & H)]|[Ha ->]]; [by left|right..].
  - split; [done|]. exists reason. simpl. set_solver.
  - split; [done|]. eexists. simpl. apply elem_of_app. right. by apply list_elem_of_singleton.
Qed.

Definition read_scope (error_text : InventoryError → str) (s : ActivityScope) (w' : gworld)
    (res : result QueuedDemand InventoryError) : Prop :=
  let aggregating := bool_decide (scope (sc_target s) = ScopeOrganization) in
  gateway_ok w' ∧
  match res with
  | Ok d => Forall (accounted aggregating d) (sc_repositories s) ∧
            (aggregating = false → qd_unavailable d = [])
  | Err _ => True
  end.

Lemma poll_repository_sat error_text aggregating r d l w :
  gateway_ok w → Forall (accounted aggregating d) l → (aggregating = false → qd_unavailable d = []) →
  sat V (poll_repository parse_url decode_runs decode_jobs error_text aggregating r d) w (λ w' res,
    gateway_ok w' ∧
    match res with
    | Ok d' => Forall (accounted aggregating d') (l ++ [r]) ∧ (aggregating = false → qd_unavailable d' = [])
    | Err _ => True
    end).
Proof.
  intros Hw Hd Hu. apply sat_bind. eapply sat_mono; [by apply repository_reading_sat|].
  intros w1 [x|e] [Hok Hx].
  - apply sat_ret. split; [done|]. split; [|done]. apply Forall_app. split.
    + eapply Forall_impl; [exact Hd|]. intros r' Hr'. apply add_reading_accounted; auto.
    + constructor; [|done]. apply add_reading_accounted; auto.
  - destruct (aggregating && _) eqn:E; apply sat_ret; [|done].
    apply andb_true_iff in E as [-> _]. split; [done|]. split; [|done]. apply Forall_app. split.
    + eapply Forall_impl; [exact Hd|]. intros r' Hr'. apply add_unavailable_accounted; auto.
    + constructor; [|done]. apply add_unavailable_accounted; auto.
Qed.

Lemma retain_ok now c : cache_ok c → cache_ok (retain_recent now c).
Proof.
  intros [Hs Hc]. split.
  - rewrite <- Hs. apply map_subseteq_size, map_filter_subseteq.
  - intros k e [He _]%map_lookup_filter_Some. by apply Hc.
Qed.

Lemma queued_demand_sat error_text s w :
  gateway_ok w →
  sat V (queued_demand parse_url decode_runs decode_jobs error_text s) w (read_scope error_text s).
Proof.
  intros Hw. apply sat_op_bind; [done|]. intros now w1 [O1 ->].
  apply sat_bind, sat_update; [by eauto|]. intros w2 [[Hc Hr] _].
  assert (gateway_ok (mk_gworld (with_cache (retain_recent (gw_clock w1)) (gw_state w2)) (gw_clock w2))) as Hok.
  { split; [by apply retain_ok|done]. }
  apply sat_bind_ok.
  set (aggregating := bool_decide _). eapply sat_mono.
  - eapply (sat_for_each_done _ (λ l w' d, gateway_ok w' ∧ Forall (accounted aggregating d) l ∧
      (aggregating = false → qd_unavailable d = []))).
    + done.
    + intros l1 r l2 w3 d _ (Hok3 & Hd & Hu). eapply sat_mono; [by apply (poll_repository_sat _ _ _ _ l1)|].
      intros w4 [d'|e] [Hok4 H4]; [by split|]. instantiate (1 := λ w' res, gateway_ok w' ∧
        match res with Ok d => Forall (accounted aggregating d) (sc_repositories s) ∧
          (aggregating = false → qd_unavailable d = []) | Err _ => True end). done.
    + intros w3 d (Hok3 & Hd & Hu). by split.
  - intros w3 [d|e] [Hok3 H3]; [|done]. apply sat_op_bind; [done|]. intros quota w4 [O4 _].
    apply sat_ret. by split.
Qed.

(** ** Theorems *)

(** C18: a demand reading is a floor, and exact when it says so, of a queue that stands
    still: the runs, their jobs and the pages they are listed on do not change during the
    poll, nor since the readings that loops share were made. Then, through the conditional
    cache, with other loops using the gateway, whatever requests fail and whatever is
    shared: every repository of the scope is read or, in an organization only, reported
    as unavailable; the jobs of a repository that was read are among those that wait
    there, none of them counted twice even when a run is in both listings; and a reading
    that is complete holds exactly the waiting jobs of every repository. *)
Theorem demand_is_floor_or_exact error_text s w :
  gateway_ok w →
  sat V (queued_demand parse_url decode_runs decode_jobs error_text s) w (λ w' res,
    gateway_ok w' ∧
    match res with
    | Err _ => True
    | Ok d =>
        (∀ r, r ∈ sc_repositories s →
           (∃ jobs, map_get r (qd_per_repository d) = Some jobs ∧ jobs ⊆+ all_waiting r) ∨
           (scope (sc_target s) = ScopeOrganization ∧
            ∃ reason, mk_unavailable r reason ∈ qd_unavailable d)) ∧
        (is_complete d = true → ∀ r, r ∈ sc_repositories s →
           ∃ jobs, map_get r (qd_per_repository d) = Some jobs ∧ jobs ≡ₚ all_waiting r)
    end).
Proof.
  intros Hw. eapply sat_mono; [by apply queued_demand_sat|]. intros w' [d|e] [Hok H]; [|done].
  destruct H as [Ha _]. rewrite Forall_forall in Ha. split; [done|]. split.
  - intros r [(jobs & ? & ? & _)|[E ?]]%Ha; [by left; eexists|]. right. split; [|done].
    by apply bool_decide_eq_true in E.
  - intros [Hu Ht]%andb_true_iff r Hr. apply bool_decide_eq_true in Hu, Ht.
    destruct (Ha _ Hr) as [(jobs & Hj & _ & He)|(_ & reason & Hin)].
    + exists jobs. split; [done|]. apply He. by rewrite Ht.
    + rewrite Hu in Hin. by apply not_elem_of_nil in Hin.
Qed.

Lemma steady_sends_quiet error_text s w rq k w' :
  gateway_ok w → steady = true →
  partly_run V (queued_demand parse_url decode_runs decode_jobs error_text s) w (Op (DSend rq) k) w' →
  held (gw_clock w') (gw_state w') = None.
Proof.
  intros Hw Hst Hrun. pose proof (queued_demand_sat error_text s w Hw) as Hsat.
  destruct (sat_interrupted _ _ _ _ _ _ _ Hsat Hrun) as [_ H]. by apply H.
Qed.
End Server.

Definition is_send (e : dcall) : bool := match e with DSend _ => true | _ => false end.

(** ** The hold among other loops *)

(** A quiet period that is not over is not shortened. *)
Definition unshortened (w w' : gworld) : Prop :=
  ∀ h, hold (gw_state w) = Some h → gw_clock w' < ho_until h →
    ∃ h', hold (gw_state w') = Some h' ∧ ho_until h ≤ ho_until h'.
(** Time passes, and other loops do with the gateway what they like but that. *)
Definition shares (w w' : gworld) : Prop := gw_clock w ≤ gw_clock w' ∧ unshortened w w'.
#[global] Instance shares_preorder : PreOrder shares.
Proof.
  split; [by intros w; split; [lia|]; intros h Hh _; exists h|].
  intros w1 w2 w3 [C1 U1] [C2 U2]. split; [lia|]. intros h Hh Hu. destruct (U1 h Hh) as (h2 & Hh2 & ?); [lia|].
  destruct (U2 h2 Hh2) as (h3 & ? & ?); [lia|]. exists h3. split; [done|lia].
Qed.

(** An access of the gateway that keeps what is in force at [now]. *)
Definition keeps_hold (now : Timestamp) (f : RestDemand → RestDemand) : Prop :=
  ∀ d h, hold d = Some h → now < ho_until h → ∃ h', hold (f d) = Some h' ∧ ho_until h ≤ ho_until h'.
Definition shared_does (w : gworld) (e : dcall) : danswer e → gworld → Prop :=
  match e return danswer e → gworld → Prop with
  | DNow => λ t w', shares w w' ∧ t = gw_clock w'
  | DLocked A f => λ x w', ∃ w1, shares w w1 ∧ w' = on_state f w1 ∧ x = (f (gw_state w1)).2
  | _ => λ _ w', shares w w'
  end.
Definition shared_may (w : gworld) (e : dcall) : Prop :=
  match e with DLocked A f => ∀ now, gw_clock w ≤ now → keeps_hold now (λ d, (f d).1) | _ => True end.
Definition shared_env : env danswer gworld := mk_env shared_may shared_does.
#[local] Abbreviation W := shared_env.

Lemma shared_step w e x w' : shared_may w e → shared_does w e x w' → shares w w'.
Proof.
  destruct e; simpl; try done; try (by intros _ [? _]).
  intros Hk (w1 & H1 & -> & _). etransitivity; [exact H1|]. split; [done|]. intros h Hh Hu. simpl in Hu.
  apply (Hk (gw_clock w1)); [apply H1|done|done].
Qed.
Lemma shared_run {A} (m m' : dprogram A) w w' Q : sat W m w Q → partly_run W m w m' w' → shares w w'.
Proof.
  intros Hs Hr. induction Hr as [|e k w x w1 m' w' Hd _ IH]; [done|]. destruct Hs as [Hm Hk].
  etransitivity; [by eapply shared_step|]. by apply IH, Hk.
Qed.

(** A program that never shortens a quiet period. *)
Definition orderly {A} (m : dprogram A) : Prop := ∀ w, sat W m w (λ w' _, gw_clock w ≤ gw_clock w').
Lemma orderly_bind {A B} (m : dprogram A) (k : A → dprogram B) : orderly m → (∀ a, orderly (k a)) → orderly (m ≫= k).
Proof.
  intros Hm Hk w. apply sat_bind. eapply sat_mono; [apply Hm|]. intros w1 a H1. simpl.
  eapply sat_mono; [apply Hk|]. intros w2 b H2. simpl in *. lia.
Qed.
Lemma orderly_bind_ok {A B F} (m : dprogram (result A F)) (k : A → dprogram (result B F)) :
  orderly m → (∀ a, orderly (k a)) → orderly (bind_ok m k).
Proof. intros Hm Hk. apply orderly_bind; [done|]. intros [a|e]; [apply Hk|]. intros w. by apply sat_ret. Qed.
Lemma orderly_calm {A} (m : dprogram A) : within calm_call m → orderly m.
Proof.
  induction m as [a|e k IH]; intros Hm w; [by apply sat_ret|]. destruct Hm as [He Hk]. split.
  - destruct e; try done. intros now _ d h Hh _. exists h. cbn in He. rewrite He. done.
  - intros x w1 Hd. eapply sat_mono; [by apply IH|]. intros w2 a H2. simpl in H2.
    assert (shares w w1) as [? _]; [|lia]. eapply shared_step; [|exact Hd]. destruct e; try done.
    intros now _ d h Hh _. exists h. cbn in He. rewrite He. done.
Qed.
Lemma until_cancelled_calm {A} (m : dprogram (result A InventoryError)) :
  within calm_call m → within calm_call (until_cancelled m).
Proof.
  induction m as [a|e k IH]; [done|]. intros [He Hk]. destruct e; try (split; [exact He|]; intros x; by apply IH).
  split; [done|]. intros x. split; [done|]. intros []; [done|]. by apply IH.
Qed.

(** An access that may end or start a quiet period, at a time read before. *)
Lemma orderly_at {A B} (f : Timestamp → RestDemand → RestDemand * A) (k : A → dprogram B) :
  (∀ t now, t ≤ now → keeps_hold now (λ d, (f t d).1)) → (∀ a, orderly (k a)) →
  orderly (now ← dop DNow; x ← dop (DLocked A (f now)); k x).
Proof.
  intros Hf Hk w. apply sat_op_bind; [done|]. intros t w1 [[C1 _] ->]. apply sat_op_bind.
  { intros now Hn. by apply Hf. }
  intros x w2 (w3 & [C3 _] & -> & _). eapply sat_mono; [apply Hk|]. intros w4 b C4. simpl in C4. lia.
Qed.
Lemma hold_for_keeps limit t now current h :
  t ≤ now → current = Some h → now < ho_until h → ho_until h ≤ ho_until (hold_for limit t current).1.
Proof.
  intros Ht -> Hn. unfold hold_for. cbn [mbind option_bind].
  rewrite (bool_decide_true (t - ho_until h < HOLD_MEMORY)) by (unfold HOLD_MEMORY, seconds; lia).
  cbn [mbind option_bind]. rewrite (bool_decide_true (t < ho_until h)) by lia. case_bool_decide; simpl; lia.
Qed.
Lemma classify_failure_orderly error : orderly (classify_failure error).
Proof.
  unfold classify_failure. destruct (detect error) as [limit|]; [|by apply orderly_calm].
  apply (orderly_at (λ now d, let '(h, reported) := hold_for limit now (hold d) in (with_hold (Some h) d, reported))).
  - intros t now Ht d h Hh Hu. pose proof (hold_for_keeps limit t now (hold d) h Ht Hh Hu).
    destruct (hold_for limit t (hold d)) as [h' reported]. by exists h'.
  - intros reported. by apply orderly_calm.
Qed.
Lemma clear_hold_keeps t now : t ≤ now → keeps_hold now (clear_hold t).
Proof.
  intros Ht d h Hh Hu. exists h. split; [|done]. unfold clear_hold. rewrite Hh.
  by rewrite bool_decide_false by lia.
Qed.

(** *** A request *)

Lemma get_orderly request : orderly (get request).
Proof.
  apply orderly_bind_ok; [by apply orderly_calm; calms|]. intros _.
  apply orderly_bind; [by apply orderly_calm|]. intros now.
  apply orderly_bind; [by apply orderly_calm; calms|]. intros [limit|]; [by apply orderly_calm; calms|].
  apply orderly_bind.
  { apply orderly_calm. apply within_bind; [done|]. intros []; [done|]. apply until_cancelled_calm.
    apply within_bind; [by calms|]. intros _. apply within_bind; [apply conditional_send_calm|done]. }
  intros [f|[]]; try by apply orderly_calm.
  - apply (orderly_at (λ now d, (clear_hold now d, tt))); [|by intros; apply orderly_calm].
    intros t n Ht. by apply clear_hold_keeps.
  - apply orderly_bind; [apply classify_failure_orderly|]. intros. by apply orderly_calm.
Qed.

Lemma partly_inv {A} (m : dprogram A) w m' w' :
  partly_run W m w m' w' →
  (m' = m ∧ w' = w) ∨
  match m with Op e k => ∃ x w1, shared_does w e x w1 ∧ partly_run W (k x) w1 m' w' | Ret _ => False end.
Proof. destruct 1; eauto 6. Qed.
(** Past a call that is no request, towards a request. *)
Lemma towards_send {A} e (k : danswer e → dprogram A) w rq k' w' :
  is_send e = false → partly_run W (Op e k) w (Op (DSend rq) k') w' →
  ∃ x w1, shared_does w e x w1 ∧ partly_run W (k x) w1 (Op (DSend rq) k') w'.
Proof. intros He [[E _]|H]%partly_inv; [|exact H]. injection E as E _. by subst. Qed.
(** Programs without a request do not come to one. *)
Lemma no_send {A} (m : dprogram A) w rq k' w' :
  at_most is_send 0 m → partly_run W m w (Op (DSend rq) k') w' → False.
Proof.
  intros Hm Hr. remember (Op (DSend rq) k') as m'. induction Hr as [m w|e k w x w1 m' w' _ _ IH]; subst; [done|].
  simpl in Hm. destruct (is_send e); [done|]. by apply IH.
Qed.

(** A request is sent only after a moment, in the same call, at which no limit was in force. *)
Lemma get_looks_first request w rq k w' :
  partly_run W (get request) w (Op (DSend rq) k) w' →
  ∃ m w1, partly_run W (get request) w m w1 ∧ partly_run W m w1 (Op (DSend rq) k) w' ∧ quiet w1.
Proof.
  intros Hr. pose proof Hr as H0.
  apply towards_send in H0 as (c & w1 & D1 & H1); [|done]. destruct c; [by apply no_send in H1|].
  pose proof H1 as H2. apply towards_send in H2 as (t & w2 & D2 & H2); [|done].
  pose proof H2 as H3. apply towards_send in H3 as (limit & w3 & D3 & H3); [|done].
  eexists _, w3. split; [|split; [exact H3|]].
  { econstructor; [exact D1|]. econstructor; [exact D2|]. econstructor; [exact D3|]. constructor. }
  destruct D2 as [_ ->]. destruct D3 as (w4 & [C4 _] & -> & E). destruct limit as [limit|].
  { exfalso. by eapply no_send, H3. }
  simpl in E. unfold quiet. simpl. unfold held in *. destruct (hold (gw_state w4)) as [h|]; [|done]. simpl in *.
  unfold MAX_RATE_LIMIT_BACKOFF, seconds in *. repeat case_bool_decide; done || lia.
Qed.

(** *** A poll *)

Section Poll.
Context (parse_url : str → option str).
Context (decode_runs : str → option (list Z)) (decode_jobs : str → option (list (str * list str))).
Context (error_text : InventoryError → str).

Ltac orderly := repeat first
  [ solve [intros; by apply orderly_calm; calms] | solve [auto] | progress intros
  | apply get_orderly | apply orderly_bind | apply orderly_bind_ok
  | match goal with |- orderly match ?x with _ => _ end => destruct x end ].

Lemma for_each_orderly {A B F} (l : list A) (body : A → B → dprogram (result B F)) b :
  (∀ x b, orderly (body x b)) → orderly (for_each_ok l body b).
Proof. intros Hb. revert b. induction l as [|x l IH]; intros b; cbn [for_each_ok]; orderly; auto. Qed.
Lemma job_pages_orderly budget request jobs changed :
  orderly (job_pages parse_url decode_jobs budget request jobs changed).
Proof. revert request jobs changed. induction budget as [|budget IH]; intros; cbn [job_pages]; orderly. Qed.
Lemma repository_queued_orderly r : orderly (repository_queued parse_url decode_runs decode_jobs r).
Proof.
  pose proof job_pages_orderly. apply orderly_bind_ok; [|orderly]. apply for_each_orderly. intros [status cap] p.
  unfold resolve_status. apply orderly_bind_ok; [unfold active_runs; orderly|]. intros x. apply for_each_orderly.
  intros run p'. unfold resolve_run, queued_jobs_of_run. orderly.
Qed.
Lemma queued_demand_orderly s : orderly (queued_demand parse_url decode_runs decode_jobs error_text s).
Proof.
  pose proof repository_queued_orderly. unfold queued_demand. apply orderly_bind; [orderly|]. intros now.
  apply orderly_bind; [orderly|]. intros _. apply orderly_bind_ok; [|orderly]. apply for_each_orderly. intros r d.
  unfold poll_repository, repository_reading, gated_reading. orderly.
Qed.

(** C19: the host is silent in a quiet period. Whenever a poll, of any scope, is about to
    send a request, no rate limit that the gateway knows of is still being waited out, as
    long as other loops leave the hold alone during the poll. With other loops changing it
    at any moment, each request is sent only after a moment, in the same call, at which no
    limit was in force (the lock is not held from that look to the request, so a limit
    that arrives in between does not stop it). And at no point of a poll has a quiet period
    that is not over been shortened or dropped, if other loops do not do so. *)
Theorem no_request_in_quiet_period given listing q_runs q_pages page_key s
    `{!GithubListings parse_url decode_runs decode_jobs listing q_runs q_pages page_key} :
  let poll := queued_demand parse_url decode_runs decode_jobs error_text s in
  (∀ w rq k w', gateway_ok given q_runs q_pages w →
     partly_run (demand_env given listing q_runs q_pages true) poll w (Op (DSend rq) k) w' →
     held (gw_clock w') (gw_state w') = None) ∧
  (∀ request w rq k w', partly_run shared_env (get request) w (Op (DSend rq) k) w' →
     ∃ m w1, partly_run shared_env (get request) w m w1 ∧ partly_run shared_env m w1 (Op (DSend rq) k) w' ∧
       held (gw_clock w1) (gw_state w1) = None) ∧
  (∀ w m w', partly_run shared_env poll w m w' → unshortened w w').
Proof.
  intros poll. split_and!.
  - intros w rq k w' Hw Hr. by eapply steady_sends_quiet.
  - apply get_looks_first.
  - intros w m w' Hr. destruct (shared_run _ _ _ _ _ (queued_demand_orderly s w) Hr) as [_ H]. exact H.
Qed.
End Poll.

(** ** The length of a quiet period *)

Lemma delay_from_positive limit now : 0 < delay_from limit now ≤ MAX_RATE_LIMIT_BACKOFF.
Proof.
  unfold delay_from, DEFAULT_RATE_LIMIT_BACKOFF, MAX_RATE_LIMIT_BACKOFF, seconds.
  repeat case_match; try case_bool_decide; lia.
Qed.

(** Secondary limits so far, as the hold counts them. *)
Definition limits_in_a_row (h : RateLimitHold) : Prop := 0 ≤ consecutive_secondary h ≤ U32_MAX.

Lemma hold_wait_bounds limit now n :
  0 < hold_wait limit now n ≤ MAX_RATE_LIMIT_BACKOFF ∧
  (1 < n → Z.min MAX_RATE_LIMIT_BACKOFF (seconds 60 * 2 ^ Z.min (n - 1) 10) ≤ hold_wait limit now n).
Proof.
  pose proof (delay_from_positive limit now) as Hd. unfold hold_wait. case_bool_decide as Hn; [|split; [done|lia]].
  rewrite Z.shiftl_1_l. pose proof (Z.pow_pos_nonneg 2 (Z.min (n - 1) 10)).
  unfold dur_mul, sat_mul, DEFAULT_RATE_LIMIT_BACKOFF, MAX_RATE_LIMIT_BACKOFF, DURATION_MAX, U64_MAX, seconds in *.
  lia.
Qed.

(** What GitHub asks for: the delay it names, or the time until the limit is reset, or
    nothing, for which a minute is taken. *)
Inductive asks (limit : RateLimited) (now : Timestamp) : Duration → Prop :=
  | asks_delay d : retry_after limit = Some d → 0 < d → asks limit now d
  | asks_reset reset :
      retry_after limit = None → reset_unix_secs limit = Some reset → 0 ≤ timestamp now < reset → reset ≤ I64_MAX →
      asks limit now (seconds (reset - timestamp now))
  | asks_nothing : retry_after limit = None → reset_unix_secs limit = None → asks limit now (seconds 60).

(** The doubled back-off of the [n]th secondary limit in a row. *)
Definition doubled (k : RateLimitKind) (n : Z) : Duration :=
  match k with
  | Secondary => if bool_decide (1 < n) then seconds 60 * 2 ^ Z.min (n - 1) 10 else 0
  | Primary => 0
  end.
(** When the quiet period that is in force ends, or now. *)
Definition ends_at (now : Timestamp) (current : option RateLimitHold) : Timestamp :=
  from_option (λ h, Z.max now (ho_until h)) now current.

Lemma asks_delay_from limit now d : asks limit now d → delay_from limit now = Z.min d MAX_RATE_LIMIT_BACKOFF.
Proof.
  unfold delay_from. intros [d' -> Hd|reset -> -> Ht Hr| -> ->].
  - by rewrite bool_decide_true.
  - rewrite (bool_decide_true (reset ≤ I64_MAX)) by done.
    assert (i64_sub reset (timestamp now) = reset - timestamp now) as ->.
    { unfold i64_sub, I64_MIN, I64_MAX, U64_MAX in *. rewrite Z.mod_small; lia. }
    by rewrite (bool_decide_true (0 ≤ _)), bool_decide_true by (unfold seconds; lia).
  - done.
Qed.
Lemma asks_hold_wait limit now n d : 0 ≤ n → asks limit now d →
  hold_wait limit now (match kind limit with Primary => 0 | Secondary => n end)
  = Z.min MAX_RATE_LIMIT_BACKOFF (Z.max d (doubled (kind limit) n)).
Proof.
  intros Hn Ha. pose proof (asks_delay_from _ _ _ Ha) as E. unfold hold_wait. rewrite E.
  assert (0 < d) by (destruct Ha; unfold seconds in *; lia).
  destruct (kind limit); simpl; [lia|]. case_bool_decide; [|lia].
  rewrite Z.shiftl_1_l. pose proof (Z.pow_pos_nonneg 2 (Z.min (n - 1) 10)).
  assert (2 ^ Z.min (n - 1) 10 ≤ 2 ^ 10) by (apply Z.pow_le_mono_r; lia). change (2 ^ 10) with 1024 in *.
  unfold dur_mul, sat_mul, DEFAULT_RATE_LIMIT_BACKOFF, MAX_RATE_LIMIT_BACKOFF, DURATION_MAX, U64_MAX, seconds in *. lia.
Qed.

(** The secondary limits in a row, this one included. *)
Lemma hold_count_spec limit now current :
  (∀ h, current = Some h → limits_in_a_row h) →
  let previous := current ≫= λ h, if bool_decide (now - ho_until h < HOLD_MEMORY) then Some h else None in
  let live := previous ≫= λ h, if bool_decide (now < ho_until h) then Some h else None in
  ∃ m, 1 ≤ m ≤ U32_MAX ∧
    hold_count (kind limit) previous live = match kind limit with Primary => 0 | Secondary => m end ∧
    (∀ c, current = Some c → (now < ho_until c → m = Z.max 1 (consecutive_secondary c)) ∧
       (ho_until c ≤ now < ho_until c + HOLD_MEMORY → m = Z.min U32_MAX (consecutive_secondary c + 1))) ∧
    ((∀ c, current = Some c → ho_until c + HOLD_MEMORY ≤ now) → m = 1).
Proof.
  intros Hcur previous live. destruct current as [c|]; [pose proof (Hcur c eq_refl) as Hc; unfold limits_in_a_row in Hc|];
    cbn [mbind option_bind] in previous; [|by exists 1; split; [done|]; subst live previous; destruct (kind limit)].
  subst live previous. unfold HOLD_MEMORY, U32_MAX, seconds, hold_count in *.
  destruct (bool_decide (now - ho_until c < _)) eqn:Ep; cbn [mbind option_bind];
    [destruct (bool_decide (now < ho_until c)) eqn:El; [exists (Z.max (consecutive_secondary c) 1)
      |exists (sat_add (2 ^ 32 - 1) (consecutive_secondary c) 1)]|exists 1];
    rewrite ?bool_decide_eq_true, ?bool_decide_eq_false in *; unfold sat_add; split_and!; try lia;
    try (by destruct (kind limit)); try (intros c' [= <-]; lia); intros H; specialize (H c eq_refl); lia.
Qed.


(** ** What a poll may spend *)

Lemma until_cancelled_sends {A} n (m : dprogram (result A InventoryError)) :
  at_most is_send n m → at_most is_send n (until_cancelled m).
Proof.
  revert n. induction m as [a|e k IH]; intros n; [done|]. destruct e; simpl; try (intros H x; by apply IH).
  destruct n as [|n]; [done|]. intros H x c. destruct c; [done|]. by apply IH.
Qed.

Lemma conditional_send_sends request : at_most is_send 2 (conditional_send request).
Proof.
  apply (at_most_bind _ 0 2); [done|]. intros v. apply (at_most_bind_ok _ 1 1); [done|]. intros resp.
  apply (at_most_bind _ 0 1); [done|]. intros now. destruct (is_not_modified resp); [|done].
  apply (at_most_bind _ 0 1); [done|]. intros [found|]; [done|].
  by apply (at_most_bind_ok _ 1 0).
Qed.

Lemma get_sends request : at_most is_send 2 (get request).
Proof.
  apply (at_most_bind_ok _ 0 2); [done|]. intros _. apply (at_most_bind _ 0 2); [done|]. intros now.
  apply (at_most_bind _ 0 2); [done|]. intros [limit|]; [done|]. apply (at_most_bind _ 2 0).
  - apply (at_most_bind _ 0 2); [done|]. intros c. destruct c; [done|]. apply until_cancelled_sends.
    apply (at_most_bind _ 0 2); [done|]. intros _. apply (at_most_bind _ 2 0); [|done].
    apply conditional_send_sends.
  - intros [f|[]]; [done..|]. apply (at_most_bind _ 0 0); [|done]. unfold classify_failure.
    by destruct (detect error).
Qed.

Section Spending.
Context (parse_url : str → option str).
Context (decode_runs : str → option (list Z)) (decode_jobs : str → option (list (str * list str))).

Lemma job_pages_sends budget request jobs changed :
  at_most is_send (budget * 2) (job_pages parse_url decode_jobs budget request jobs changed).
Proof.
  revert request jobs changed. induction budget as [|budget IH]; intros request jobs changed; [done|].
  cbn [job_pages]. apply (at_most_bind_ok _ 2 (budget * 2)); [apply get_sends|]. intros f.
  destruct (decode_jobs _); [|done]. by destruct (next_page _ _).
Qed.

Lemma resolve_status_sends r status cap p :
  at_most is_send (2 + cap * 6) (resolve_status parse_url decode_runs decode_jobs r (status, cap) p).
Proof.
  apply (at_most_bind_returns _ 2 (cap * 6)
    (λ res, match res with Ok x => (length (ls_run_ids x) ≤ cap)%nat | Err _ => True end)).
  - apply (at_most_bind_ok _ 2 0); [apply get_sends|]. intros f. by destruct (decode_runs _).
  - apply returns_bind. intros [f|e]; [|done]. destruct (decode_runs _); [|done]. simpl.
    rewrite length_take. lia.
  - intros [x|e] Hx; [|done]. eapply at_most_mono; [|apply (at_most_for_each_ok _ 6)].
    + apply Nat.mul_le_mono_r, Hx.
    + intros run q. unfold resolve_run. case_bool_decide; [done|].
      apply (at_most_bind_ok _ 6 0); [|done]. apply (job_pages_sends MAX_JOB_PAGES_PER_RUN).
Qed.

Lemma repository_queued_sends r :
  at_most is_send 64 (repository_queued parse_url decode_runs decode_jobs r).
Proof.
  apply (at_most_bind_ok _ 64 0); [|done]. cbn [for_each_ok].
  apply (at_most_bind_ok _ 38 26); [apply (resolve_status_sends r _ 6)|]. intros p1.
  by apply (at_most_bind_ok _ 26 0); [apply (resolve_status_sends r _ 4)|].
Qed.

(** What a poll may spend. Whatever GitHub answers, a poll of a scope sends at most
    sixty-four requests for each of its repositories: two run listings and three pages of
    jobs for each of at most ten runs, each sent again at most once when the cached answer
    that a [304] refers to is gone. *)
Theorem poll_requests_bounded error_text s :
  at_most is_send (length (sc_repositories s) * 64)
    (queued_demand parse_url decode_runs decode_jobs error_text s).
Proof.
  apply (at_most_bind _ 0 (length (sc_repositories s) * 64)); [done|]. intros now.
  apply (at_most_bind _ 0 (length (sc_repositories s) * 64)); [done|]. intros _.
  rewrite <- (Nat.add_0_r (_ * 64)). apply at_most_bind_ok; [|done].
  apply at_most_for_each_ok. intros r d. apply (at_most_bind _ 64 0).
  - apply (at_most_bind _ 0 64); [done|]. intros window. case_bool_decide; [apply repository_queued_sends|].
    apply (at_most_bind_ok _ 0 64); [|intros _; apply (at_most_bind _ 64 0); [|done]].
    + apply (at_most_bind_ok _ 0 0); [done|]. intros _. apply (at_most_bind _ 0 0); [done|]. intros _.
      apply (at_most_bind _ 0 0); [done|]. by intros [].
    + apply (at_most_bind _ 0 64); [done|]. intros now'. apply (at_most_bind _ 0 64); [done|].
      intros [x|]; [done|]. apply (at_most_bind_ok _ 64 0); [apply repository_queued_sends|done].
  - intros [x|e]; [done|]. by destruct (_ && _).
Qed.
End Spending.

(** ** A GitHub that answers *)

Section Example.
(** Full answers by resource, at a clock that stands still. *)
Context (serve : str → ApiResponse).

Definition example_github (e : dcall) (w : gworld) : option (gworld * danswer e) :=
  match e return option (gworld * danswer e) with
  | DNow => Some (w, gw_clock w)
  | DCancelled => Some (w, false)
  | DSend r => Some (w, Ok (serve (cache_key r)))
  | DLocked A f => Some (on_state f w, (f (gw_state w)).2)
  | DGate _ | DRelease _ => Some (w, tt)
  | DQuota => Some (w, None)
  end.
End Example.

Definition example_repo : OwnerRepo := mk_OwnerRepo (mk_Name (lit "octo")) (mk_Name (lit "hello")).
(** Run ids and jobs as characters: a job is waiting or done. *)
Definition read_ids (body : str) : option (list Z) := Some (Z.of_N <$> body).
Definition read_jobs (body : str) : option (list (str * list str)) :=
  Some ((λ c, (if (c =? 1)%N then QUEUED_JOB_STATUS else lit "completed", [lit "self-hosted"])) <$> body).

(** Two runs queued and two in progress, one of them in both listings; every run has three
    jobs of which two wait; names have no case. *)
Definition quiet_answer (key : str) : ApiResponse :=
  let key := to_ascii_lowercase key in
  mk_response 200 [(lit "etag", Some (lit "W/x"))]
    (if ends_with (lit "?status=queued&per_page=100") key then [1; 2]%N
     else if ends_with (lit "?status=in_progress&per_page=100") key then [2; 3]%N
     else [1; 0; 1]%N).
Definition shown (key : str) (r : ApiResponse) : Prop := key ≠ [] ∧ r = quiet_answer key.
Definition shown_runs (r : OwnerRepo) (status : str) : list Z :=
  Z.of_N <$> rs_body (quiet_answer (cache_key (runs_request r status))).
Definition shown_pages (r : OwnerRepo) (run : Z) : list (list (str * list str)) :=
  [default [] (read_jobs (rs_body (quiet_answer (cache_key (jobs_request r run)))))].
Definition shown_key (r : OwnerRepo) (run : Z) (i : nat) : str :=
  match i with O => cache_key (jobs_request r run) | S _ => [] end.

Lemma same_text r r' rest :
  cmp r r' = Eq → to_ascii_lowercase (repo_path r rest) = to_ascii_lowercase (repo_path r' rest).
Proof.
  assert (∀ n n' : Name, cmp n n' = Eq → to_ascii_lowercase (name_str n) = to_ascii_lowercase (name_str n')) as Hn.
  { intros n n' E. by apply cmp_eq_leibniz. }
  intros H. change (cmp (owner r, repo r) (owner r', repo r') = Eq) in H. rewrite prod_cmp_unfold in H. simpl in H.
  destruct (cmp (owner r) (owner r')) eqn:E; try done. apply Hn in E, H.
  unfold repo_path, to_ascii_lowercase in *. rewrite !fmap_app. congruence.
Qed.

#[global] Instance shown_listings :
  GithubListings (λ _, None) read_ids read_jobs shown shown_runs shown_pages shown_key.
Proof.
  split.
  - intros r status resp [_ ->]. exists (shown_runs r status), []. by rewrite app_nil_r.
  - done.
  - intros r run [|i] resp [Hk ->]; [|done]. by eexists.
  - intros r r' E. unfold shown_runs, shown_pages, quiet_answer, cache_key, to_ascii_lowercase.
    cbn [rq_method rq_path rq_query runs_request jobs_request api_query api_get api_new].
    pose proof (λ rest, same_text r r' rest E) as Ht. unfold to_ascii_lowercase in Ht.
    split; intros x; rewrite !fmap_app, Ht; done.
Qed.

Lemma shown_served r : shown (cache_key r) (quiet_answer (cache_key r)).
Proof. split; [|done]. unfold cache_key. by destruct (rq_method r). Qed.

Lemma example_github_keeps serve :
  (∀ key, is_not_modified (serve key) = false) →
  ∀ given listing q_runs q_pages, (∀ r, given (cache_key r) (serve (cache_key r))) →
  (∀ r, listing (cache_key r) (serve (cache_key r))) →
  ∀ steady, keeps_promises (demand_env given listing q_runs q_pages steady) id (example_github serve).
Proof.
  intros Hs given listing q_runs q_pages Hg Hl steady e w [Hok _]. assert (∀ w, calm steady w w) as Hcalm by done.
  destruct e; eexists _, _; (split; [reflexivity|]); cbn; try done.
  - unfold id. rewrite Hs. done.
  - exists w. done.
Qed.

Definition idle_gateway : gworld := mk_gworld (set_shared_window (seconds 5) RestDemand_new) (seconds 100).
Lemma idle_gateway_ok : gateway_ok shown shown_runs shown_pages idle_gateway.
Proof.
  split; [split|].
  - cbn. rewrite map_size_empty. unfold MAX_ENTRIES. lia.
  - intros k e. cbn. by rewrite lookup_empty.
  - by intros r t x ?%not_elem_of_nil.
Qed.

#[local] Abbreviation poll := (queued_demand (λ _, None) read_ids read_jobs (λ _, [])) (only parsing).

#[local] Abbreviation example_poll :=
  (poll (scope_repository example_repo)) (only parsing).
Definition settled (r : option (gworld * result QueuedDemand InventoryError)) : bool :=
  match r with
  | Some (w, Ok d) => is_complete d && (requests_issued (gw_state w) =? 5)
  | _ => false
  end.
Lemma example_poll_settles : settled (run_with (example_github quiet_answer) example_poll idle_gateway) = true.
Proof. vm_compute. reflexivity. Qed.

(** Six jobs wait in three runs, the one of both listings counted once. *)
Lemma demand_is_floor_or_exact_witness :
  gateway_ok shown shown_runs shown_pages idle_gateway ∧
  ∃ w d jobs, run_with (example_github quiet_answer) example_poll idle_gateway = Some (w, Ok d) ∧
    is_complete d = true ∧ requests_issued (gw_state w) = 5 ∧
    map_get example_repo (qd_per_repository d) = Some jobs ∧
    jobs ≡ₚ all_waiting shown_runs shown_pages example_repo ∧ length jobs = 6%nat.
Proof.
  split; [exact idle_gateway_ok|].
  pose proof (demand_is_floor_or_exact (λ _, None) read_ids read_jobs shown shown shown_runs shown_pages
    shown_key false (λ _, []) (scope_repository example_repo) _ idle_gateway_ok) as H.
  apply (sat_run_with _ id (example_github quiet_answer)) in H as (w & r & Hrun & _ & H); cycle 1.
  { by apply example_github_keeps; [|apply shown_served..]. }
  pose proof example_poll_settles as Hs. unfold id in Hrun. rewrite Hrun in Hs. destruct r as [d|e]; [|done].
  apply andb_true_iff in Hs as [Hc Hn%Z.eqb_eq].
  destruct H as [_ H]. destruct (H Hc example_repo) as (jobs & Hj & Hp); [by apply list_elem_of_singleton|].
  exists w, d, jobs. split; [exact Hrun|]. split; [exact Hc|]. split; [exact Hn|]. split; [exact Hj|].
  split; [exact Hp|]. rewrite (Permutation_length Hp). vm_compute. reflexivity.
Defined.

Definition sending (m : option (dprogram (result QueuedDemand InventoryError) * gworld)) : bool :=
  match m with Some (Op e _, _) => is_send e | _ => false end.
Lemma example_poll_sends :
  sending (run_for 14 (example_github quiet_answer) example_poll idle_gateway) = true.
Proof. vm_compute. reflexivity. Qed.

(** The first request of a poll. *)
Lemma no_request_in_quiet_period_witness :
  ∃ rq k w', partly_run (demand_env shown shown shown_runs shown_pages true) example_poll idle_gateway
      (Op (DSend rq) k) w' ∧
    held (gw_clock w') (gw_state w') = None.
Proof.
  destruct (run_for 14 (example_github quiet_answer) example_poll idle_gateway) as [[rest w]|] eqn:E;
    pose proof example_poll_sends as Hs; rewrite E in Hs; [|done].
  destruct rest as [a|e k]; [done|]. destruct e as [| |rq| | | |]; try done.
  assert (partly_run (demand_env shown shown shown_runs shown_pages true) example_poll idle_gateway (Op (DSend rq) k) w)
    as Hrun.
  { eapply (run_for_partly_sat _ id (example_github quiet_answer)).
    - by apply example_github_keeps; [|apply shown_served..].
    - by apply (queued_demand_sat _ _ _ _ _ _ _ shown_key true (λ _, [])), idle_gateway_ok.
    - exact E. }
  exists rq, k, w. split; [exact Hrun|].
  exact (proj1 (no_request_in_quiet_period (λ _, None) read_ids read_jobs (λ _, []) shown shown shown_runs shown_pages
    shown_key (scope_repository example_repo)) _ rq k w idle_gateway_ok Hrun).
Defined.


(** ** More than the documented worst case *)

(** Six runs queued and four others in progress, each with more pages of jobs than a poll
    reads. *)
Definition busy_answer (key : str) : ApiResponse :=
  mk_response 200
    (if ends_with (lit "&per_page=100") key && negb (ends_with (lit "?filter=latest&per_page=100") key) then []
     else [(lit "link", Some (lit "<https://next>; rel=next"))])
    (if ends_with (lit "?status=queued&per_page=100") key then [1; 2; 3; 4; 5; 6]%N
     else if ends_with (lit "?status=in_progress&per_page=100") key then [7; 8; 9; 10]%N
     else [1]%N).

(** One poll of one repository issues thirty-two requests;
    [max_demand_requests_per_repository_per_poll] is twelve. *)
Theorem documented_worst_case_exceeded :
  max_demand_requests_per_repository_per_poll = 12 ∧
  match run_with (example_github busy_answer)
          (queued_demand Some read_ids read_jobs (λ _, []) (scope_repository example_repo)) idle_gateway with
  | Some (w, Ok d) => requests_issued (gw_state w) = 32 ∧ is_complete d = false
  | _ => False
  end.
Proof. split; [done|]. vm_compute. by split. Qed.
