(* ===== verification/Ports.v ===== *)
(** * What the runner lifecycle calls ([crates/agent/src/lifecycle.rs])

    The types that cross the ports of [LifecycleLauncher], the effects it performs (its
    own memory, the journal, GitHub, packages, the execution provider, files, the clock)
    and small readings of files shared by the launch, supervision and cleanup. Texts of
    errors that come from the operating system or from the runner-root checks are carried
    as data. *)

From stdpp Require Import strings.
From S2P Require Import Prelude RustStr Ordered Model Path Workspace Execution Host Attempt.
From S2P Require Import Labels Policy Capacity Recovery Store Github Backoff Report Effects.
#[local] Open Scope Z_scope.
#[local] Open Scope rust_scope.

(** ** Errors of the operating system *)

Inductive IoErrorKind :=
  | IoNotFound | IoAlreadyExists | IoPermissionDenied | IoOtherKind (name : str).
#[global] Instance IoErrorKind_eq_dec : EqDecision IoErrorKind.
Proof. solve_decision. Defined.
Definition io_kind_debug (k : IoErrorKind) : str :=
  match k with
  | IoNotFound => lit "NotFound"
  | IoAlreadyExists => lit "AlreadyExists"
  | IoPermissionDenied => lit "PermissionDenied"
  | IoOtherKind name => name
  end.
Record IoError := mk_io { io_kind : IoErrorKind; io_text : str }.
Definition io (A : Type) : Type := result A IoError.

(** [fs::Metadata], as far as it is read: [md_reparse] is the Windows attribute. *)
Record Metadata := mk_metadata { md_is_dir : bool; md_is_symlink : bool; md_reparse : bool }.

(** A [RunnerRootError], by its [kind] and its text. *)
Record RootError := mk_root_error { re_kind : str; re_text : str }.
Inductive RootOwner := OwnerHost | OwnerRepository (target : str).

(** ** GitHub *)

Definition DEFAULT_WORK_FOLDER : str := lit "_work".

Record JitRunnerRequest := mk_jit_request {
  jr_name : str;
  jr_runner_group_id : Z;  (* u64 *)
  jr_labels : list str;
  jr_work_folder : str;
}.
Definition JitRunnerRequest_new (name : str) (group : Z) (labels : list str) : JitRunnerRequest :=
  mk_jit_request name group labels DEFAULT_WORK_FOLDER.
Definition for_policy (name : str) (group : Z) (labels : RoutingLabels) : JitRunnerRequest :=
  JitRunnerRequest_new name group (as_registration_labels labels).

(** The secret configuration and the identifier of the registered runner. *)
Record JitRegistration := mk_registration { rg_config : str; rg_runner_id : Z }.
Record JitRequestFailure := mk_jit_failure {
  jf_terminal : bool;
  jf_reason : FailureReason;
  jf_retry_after : option Duration;
}.
Record LifecycleGithubObservation := mk_gh_observation {
  go_status : GithubRunnerObservation;
  go_runner_id : option Z;
}.

(** ** Execution providers *)

Record ProcessStartFailure := mk_start_failure {
  sf_reason : FailureReason;
  sf_retryable : bool;
  sf_live_pid : option Z;
}.
Definition before_spawn (reason : FailureReason) : ProcessStartFailure :=
  mk_start_failure reason true None.
Definition after_spawn_stopped : ProcessStartFailure :=
  mk_start_failure ProcessStartFailed false None.
Definition after_spawn_live_with_reason (pid : Z) (reason : FailureReason)
    : ProcessStartFailure := mk_start_failure reason false (Some pid).
Definition after_spawn_live (pid : Z) : ProcessStartFailure :=
  after_spawn_live_with_reason pid ProcessStartFailed.

Inductive ProviderCapability :=
  | CapReady | CapUnsupported | CapNotInstalled | CapPermissionDenied
  | CapImageUnavailableOrIncompatible | CapDiskQuotaUnavailable | CapDegraded.
#[global] Instance ProviderCapability_eq_dec : EqDecision ProviderCapability.
Proof. solve_decision. Defined.

Definition capability_refusal (c : ProviderCapability) : FailureReason :=
  IsolationProvider
    match c with
    | CapReady | CapDegraded => Degraded
    | CapUnsupported => Unsupported
    | CapNotInstalled => NotInstalled
    | CapPermissionDenied => PermissionDenied
    | CapImageUnavailableOrIncompatible => ImageUnavailableOrIncompatible
    | CapDiskQuotaUnavailable => DiskQuotaUnavailable
    end.

Definition safe_isolation_reason (reason : FailureReason) (fallback : IsolationProviderFailure)
    : FailureReason :=
  match reason with
  | IsolationProvider _ => reason
  | _ => IsolationProvider fallback
  end.

Inductive EnvironmentIdentity :=
  | NativeProcess (pid : Z)
  | IsolatedIdentity (host : HostId) (attempt : AttemptId) (provider_kind : Backend)
      (environment_id : str) (resolved_image : ImageReference) (generation : str).

Record PreparedEnvironment := mk_prepared {
  pe_attempt : AttemptId;
  pe_identity : option EnvironmentIdentity;
  pe_cache_target : option ScaleTarget;
}.
Record ResolvedEnvironment := mk_resolved { rv_provider_kind : Backend; rv_image : ImageReference }.

Inductive EnvironmentState := EnvStarting | EnvRunning | EnvExited | EnvMissing.
#[global] Instance EnvironmentState_eq_dec : EqDecision EnvironmentState.
Proof. solve_decision. Defined.
Inductive ProviderStop := StopStopped | StopStillRunning.
#[global] Instance ProviderStop_eq_dec : EqDecision ProviderStop.
Proof. solve_decision. Defined.
Inductive ProviderDestroy := Destroyed | DestroyDeferred (reason : str).

Definition identity_same_allocation (host : HostId) (a : RunnerAttempt)
    (i : EnvironmentIdentity) : bool :=
  match execution a, i with
  | Isolated provider_kind _ resolved_image generation,
    IsolatedIdentity owner owner_attempt kind _ image resource_generation =>
      bool_decide (owner = host) && bool_decide (owner_attempt = a_id a)
      && bool_decide (provider_kind = kind) && bool_decide (resolved_image = image)
      && bool_decide (generation = resource_generation)
  | _, _ => false
  end.

Definition identity_matches_intent (host : HostId) (a : RunnerAttempt)
    (i : EnvironmentIdentity) : bool :=
  identity_same_allocation host a i &&
  match execution a, i with
  | Isolated _ environment_id _ _, IsolatedIdentity _ _ _ id _ _ =>
      match environment_id with None => true | Some journal_id => bool_decide (journal_id = id) end
  | _, _ => false
  end.

(** ** Events *)

(** The durations that [Launched] also reports are not modelled. *)
Inductive AttemptEvent :=
  | AEvState (attempt : AttemptId) (state : AttemptState)
  | AEvRetry (attempt : AttemptId) (operation : string) (delay : Duration)
  | AEvLaunched (attempt : AttemptId) (started : bool)
  | AEvAdopted (attempt : AttemptId)
  | AEvRemoteIdentityRecovered (attempt : AttemptId) (runner_id : Z)
  | AEvTerminateIntent (attempt : AttemptId)
  | AEvTerminated (attempt : AttemptId)
  | AEvDeregistered (attempt : AttemptId) (runner_id : Z)
  | AEvConcluded (attempt : AttemptId) (outcome : OutcomeKind)
  | AEvCleaned (attempt : AttemptId) (outcome : OutcomeKind)
  | AEvQuarantinedOwnedResource (attempt : AttemptId).

(** ** The launcher's memory

    The mutexes of [LifecycleLauncher]; none is poisoned, since nothing panics while one
    is held. [pending_replacements] is a [BTreeMap]. *)

Record Memory := mk_memory {
  recovery_complete : bool;
  versions : gmap AttemptId str;
  pending_replacements : list (AttemptId * ReplacementIntent);
  cleanup_retries : CleanBackoff;
}.
Definition Memory_new : Memory := mk_memory false ∅ [] CleanBackoff_default.

(** ** Effects *)

Inductive effect :=
  | Panic
  | ClockNow
  | FreshAttemptId
  | FreshUuid
  | MemGet
  | MemPut (m : Memory)
  | Emit (e : AttemptEvent)
  | EmitReconcile (e : LifecycleEvent)
  (* the journal *)
  | JAttempts
  | JAttemptsForPolicy (p : PolicyId)
  | JSlotLeases (p : PolicyId)
  | JAttempt (id : AttemptId)
  | JRecord (a : RunnerAttempt)
  | JHost (h : HostId)
  | JPolicy (p : PolicyId)
  (* GitHub *)
  | GhRegister (t : ScaleTarget) (r : JitRunnerRequest)
  | GhObserve (t : ScaleTarget) (a : AttemptId)
  | GhDeregister (t : ScaleTarget) (runner_id : Z)
  | DemandPersists (p : PolicyId)
  | DelayWait (d : Duration)
  (* packages *)
  | PkMaterialize (a : RunnerAttempt)
  | PkRelease (a : AttemptId)
  | PkPrune (current : str) (attempts : list RunnerAttempt)
  (* the execution provider *)
  | PrProbe (p : ScalePolicy)
  | PrResolve (p : ScalePolicy)
  | PrPrepare (a : RunnerAttempt) (p : ScalePolicy)
  | PrStart (prepared : PreparedEnvironment) (a : RunnerAttempt) (config : str)
  | PrInspect (a : RunnerAttempt)
  | PrRecover (a : RunnerAttempt)
  | PrStop (a : RunnerAttempt)
  | PrDestroy (a : RunnerAttempt)
  | PrOwns (a : RunnerAttempt)
  | PrEnumerateOwned (h : HostId)
  | PrRecoveredPid (a : RunnerAttempt)
  | PrCompletedSuccessfully (a : RunnerAttempt)
  | PrRecordTerminateIntent (a : RunnerAttempt)
  | PrHasTerminateIntent (a : RunnerAttempt)
  (* runner roots *)
  | RootDefault
  | RootCheck (owner : RootOwner) (root : LocalAbsolutePath) (against : option LocalAbsolutePath)
  | RootContains (root child : LocalAbsolutePath)
  | RecordRootRefusal (p : PolicyId) (now : Timestamp) (kind root text : str)
  | ClearRootRefusal (p : PolicyId)
  (* files *)
  | DirectoryResponds (p : PathBuf)
  | FsExists (p : PathBuf)
  | FsReadToString (p : PathBuf)
  | FsReadDir (p : PathBuf)
  | FsSymlinkMetadata (p : PathBuf)
  | FsCreateDir (p : PathBuf)
  | FsCreateDirAll (p : PathBuf)
  | FsWrite (p : PathBuf) (text : str)
  | FsOpenTruncate (p : PathBuf)
  | FsWriteAll (p : PathBuf) (text : str)
  | FsSyncFile (p : PathBuf)
  | FsSyncDir (p : PathBuf)
  | FsRename (from to : PathBuf)
  | FsRemoveFile (p : PathBuf)
  | FsRemoveDir (p : PathBuf)
  | FsRemoveDirAll (p : PathBuf)
  | UnlinkReparsePoints (p : PathBuf).

Definition answer (e : effect) : Type :=
  match e with
  | Panic => Empty_set
  | ClockNow => Timestamp
  | FreshAttemptId => AttemptId
  | FreshUuid => N
  | MemGet => Memory
  | MemPut _ | Emit _ | EmitReconcile _ => unit
  | JAttempts | JAttemptsForPolicy _ | JSlotLeases _ => result (list RunnerAttempt) StoreError
  | JAttempt _ => result (option RunnerAttempt) StoreError
  | JRecord _ => result unit StoreError
  | JHost _ => result (option Host) StoreError
  | JPolicy _ => result (option ScalePolicy) StoreError
  | GhRegister _ _ => result JitRegistration JitRequestFailure
  | GhObserve _ _ => LifecycleGithubObservation
  | GhDeregister _ _ => bool
  | DemandPersists _ => bool
  | DelayWait _ => unit
  | PkMaterialize _ => result str FailureReason
  | PkRelease _ | PkPrune _ _ => result unit FailureReason
  | PrProbe _ => ProviderCapability
  | PrResolve _ => result (option ResolvedEnvironment) FailureReason
  | PrPrepare _ _ => result PreparedEnvironment FailureReason
  | PrStart _ _ _ => result EnvironmentIdentity ProcessStartFailure
  | PrInspect _ | PrRecover _ => result EnvironmentState FailureReason
  | PrStop _ => result ProviderStop FailureReason
  | PrDestroy _ => result ProviderDestroy FailureReason
  | PrOwns _ => result bool FailureReason
  | PrEnumerateOwned _ => list EnvironmentIdentity
  | PrRecoveredPid _ => result (option Z) FailureReason
  | PrCompletedSuccessfully _ | PrHasTerminateIntent _ => bool
  | PrRecordTerminateIntent _ => result unit FailureReason
  | RootDefault => result LocalAbsolutePath RootError
  | RootCheck _ _ _ => result (option PathBuf) RootError
  | RootContains _ _ => result unit RootError
  | RecordRootRefusal _ _ _ _ _ | ClearRootRefusal _ => unit
  | DirectoryResponds _ => bool
  | FsExists _ => bool
  | FsReadToString _ => io str
  | FsReadDir _ => io (list (io str))
  | FsSymlinkMetadata _ => io Metadata
  | FsCreateDir _ | FsCreateDirAll _ | FsWrite _ _ | FsOpenTruncate _ | FsWriteAll _ _
  | FsSyncFile _ | FsSyncDir _ | FsRename _ _ | FsRemoveFile _ | FsRemoveDir _
  | FsRemoveDirAll _ => io unit
  | UnlinkReparsePoints _ => unit
  end.

#[global] Abbreviation prog := (free answer) (only parsing).
(** One call. *)
#[global] Abbreviation call e := (@op effect answer e) (only parsing).
Definition panic {A} : prog A := Op Panic (λ x : Empty_set, match x with end).

(** ** The launcher's errors *)

Inductive LifecycleError :=
  | LJournal
  | LMissing (a : AttemptId)
  | LTransition
  | LRecoveryIncomplete
  | LSlotQuarantined (class : string) (detail : str)
  | LWorkspaceCleanupDeferred
  | LEnvironmentCleanupDeferred
  | LFailed (reason : FailureReason).

Definition LifecycleError_reason (e : LifecycleError) : FailureReason :=
  match e with
  | LFailed reason => reason
  | LRecoveryIncomplete => Other (lit "startup recovery incomplete")
  | LJournal => Other (lit "attempt journal operation failed")
  | LMissing _ => Other (lit "attempt disappeared from the journal")
  | LTransition => Other (lit "attempt transition was refused")
  | LSlotQuarantined _ detail => Other (lit "the persistent slot was not cleaned: " ++ detail)
  | LWorkspaceCleanupDeferred => WorkspaceCleanupDeferred
  | LEnvironmentCleanupDeferred => Other (lit "isolated environment cleanup is deferred")
  end.

#[global] Abbreviation lprog A := (free answer (result A LifecycleError)) (only parsing).
Definition lfail {A} (e : LifecycleError) : lprog A := Ret (Err e).
Definition lret {A} (a : A) : lprog A := Ret (Ok a).

(** [call.map_err(f)]. *)
Definition op_map_err {A F G} (f : F → G) (m : prog (result A F)) : prog (result A G) :=
  r ← m; mret (map_err f r).

Lemma within_map_err {A F G} (R : effect → Prop) (f : F → G) (m : prog (result A F)) :
  within R m → within R (op_map_err f m).
Proof. intros Hm. by apply within_bind. Qed.

(** ** Files *)

Section Files.
Context (NATIVE : PathPlatform).

(** [Path::join] of a relative name. *)
Definition path_join (p : PathBuf) (name : str) : PathBuf :=
  match List.rev p with
  | [] => name
  | c :: _ => if is_separator NATIVE c then p ++ name else p ++ separator NATIVE :: name
  end.

Lemma path_join_inj dir name name' : path_join dir name = path_join dir name' → name = name'.
Proof.
  unfold path_join. destruct (List.rev dir) as [|c l]; [done|].
  destruct (is_separator NATIVE c); intros H%app_inv_head; [done|]. by injection H.
Qed.

Definition RUNNER_ID_FILE : str := lit ".github-runner-id".

Definition read_runner_id (runtime : PathBuf) : prog (option Z) :=
  read ← call (FsReadToString (path_join runtime RUNNER_ID_FILE));
  mret (match read with
        | Ok content => parse_uint U64_MAX (trim content)
        | Err _ => None
        end).

(** [path.parent()] is the directory the caller built the path from. *)
Definition write_durable_file (dir : PathBuf) (name text : str) : prog (io unit) :=
  let path := path_join dir name in
  _ ←? call (FsOpenTruncate path);
  _ ←? call (FsWriteAll path text);
  _ ←? call (FsSyncFile path);
  call (FsSyncDir dir).

Definition journal_if (b : bool) : lprog unit := if b then lret tt else lfail LJournal.

Definition write_runner_id (runtime : PathBuf) (runner_id : Z) : lprog unit :=
  let target := path_join runtime RUNNER_ID_FILE in
  existing ← read_runner_id runtime;
  match existing with
  | Some existing => journal_if (bool_decide (existing = runner_id))
  | None =>
      id ← call FreshUuid;
      let temporary := RUNNER_ID_FILE ++ lit "." ++ show_uuid id ++ lit ".tmp" in
      _ ←? op_map_err (λ _, LJournal) (write_durable_file runtime temporary (show_uint runner_id));
      renamed ← call (FsRename (path_join runtime temporary) target);
      match renamed with
      | Ok _ => op_map_err (λ _, LJournal) (call (FsSyncDir runtime))
      | Err error =>
          _ ← call (FsRemoveFile (path_join runtime temporary));
          if bool_decide (io_kind error = IoAlreadyExists) then
            found ← read_runner_id runtime;
            journal_if (bool_decide (found = Some runner_id))
          else lfail LJournal
      end
  end.

(** ** Evidence of a job *)

Inductive JobEvidence := RanAJob | NoJob | UnknownEvidence.
#[global] Instance JobEvidence_eq_dec : EqDecision JobEvidence.
Proof. solve_decision. Defined.

(** The scan of the directory's names, up to the first worker log. *)
Fixpoint evidence_of_names (listener : bool) (names : list str) : JobEvidence :=
  match names with
  | [] => if listener then NoJob else UnknownEvidence
  | name :: names =>
      if negb (ends_with (lit ".log") name) then evidence_of_names listener names
      else if starts_with (lit "Worker_") name then RanAJob
      else evidence_of_names (listener || starts_with (lit "Runner_") name) names
  end.

Definition JobEvidence_of (runtime : PathBuf) : prog JobEvidence :=
  let diag := path_join runtime (lit "_diag") in
  responds ← call (DirectoryResponds diag);
  if negb responds then mret UnknownEvidence
  else
    listed ← call (FsReadDir diag);
    match listed with
    | Err _ => mret UnknownEvidence
    | Ok entries =>
        mret (evidence_of_names false
                (omap (λ e, match e with Ok n => Some n | Err _ => None end) entries))
    end.
End Files.
