(* ===== verification/Slots.v ===== *)
(** * Persistent slots ([crates/agent/src/lifecycle.rs])

    Which slot a new attempt of a persistent repository gets, whether the directory found
    there may be reused, and how it is scrubbed afterwards: everything goes but one real
    [_work] directory. *)

From stdpp Require Import strings sorting.
From S2P Require Import Prelude RustStr Ordered Model Path Workspace Execution Host Attempt.
From S2P Require Import Labels Policy Capacity Recovery Store Github Backoff Report.
From S2P Require Import Effects Ports.
#[local] Open Scope Z_scope.
#[local] Open Scope rust_scope.

(** ** Selection *)

Definition lowest_free_slot (leases : list RunnerAttempt) (ceiling : Z) : option Z :=
  let held := omap (λ a, aw_slot_number (workspace a)) leases in
  List.find (λ slot, negb (bool_decide (slot ∈ held))) (seqZ 1 ceiling).

(** [Path::display]: what is not text is replaced. *)
Definition path_display (p : PathBuf) : str := (λ c, if is_scalar c then c else 65533%N) <$> p.

(** [{name:?}], escapes aside. *)
Definition quoted (name : str) : str := [34%N] ++ name ++ [34%N].

(** A [LocalPathError], displayed. *)
Definition path_error_text (e : LocalPathError) : str :=
  match e with
  | PathEmpty => lit "a configured path must not be empty"
  | NotAbsolute got =>
      lit "a configured path must be absolute; " ++ quoted got ++
      lit " is relative, and what it resolves to depends on the process working directory"
  | RootPath got =>
      lit "a configured path must name a directory below a filesystem root; " ++ quoted got ++
      lit " is a root itself"
  | Traversal got =>
      lit "a configured path must not contain a `..` component; " ++ quoted got ++
      lit " does, and resolving it without the filesystem would be wrong across a symlink"
  | Unc got =>
      lit "a configured path must be local; " ++ quoted got ++
      lit " is a UNC path, and runner correctness and recovery may not depend on a remote " ++
      lit "filesystem (D10)"
  | DeviceNamespace got =>
      lit "a configured path must use ordinary filesystem syntax; " ++ quoted got ++
      lit " is in the Windows device namespace, which bypasses the rules validated here"
  | UnrepresentableCharacter component found =>
      lit "the path component " ++ quoted component ++
      lit " contains a character that cannot be stored: '" ++ [found] ++ lit "'"
  | TrailingDotOrSpace component =>
      lit "the path component " ++ quoted component ++
      lit " ends with a space or a dot, which Windows silently strips, so the stored path would " ++
      lit "not name the directory it appears to"
  | ReservedName component =>
      lit "the path component " ++ quoted component ++ lit " is a reserved Windows device name"
  | NotASingleComponent got => quoted got ++ lit " is not a single path component"
  end.

(** [runner_root::derive_child]. *)
Definition derive_child (root : LocalAbsolutePath) (name : str)
    : result LocalAbsolutePath RootError :=
  map_err (λ source, mk_root_error (lit "underivable_name") (path_error_text source))
    (join_child root name).

Definition slot_refusal (slot : PathBuf) (detail : str) : LifecycleError :=
  LFailed (Other (lit "the persistent slot " ++ path_display slot ++ lit " " ++ detail)).

(** ** Refusals *)

Inductive SlotRefusal :=
  | NotTheJournalledSlot | PolicyRootDisagrees | Containment | SlotNotADirectory
  | Enumeration | WorkNotADirectory | Deletion | Residue.
#[global] Instance SlotRefusal_eq_dec : EqDecision SlotRefusal.
Proof. solve_decision. Defined.

Definition refusal_class (r : SlotRefusal) : string :=
  match r with
  | NotTheJournalledSlot => "slot_path_is_not_the_journalled_slot"
  | PolicyRootDisagrees => "slot_root_disagrees_with_policy"
  | Containment => "slot_escapes_its_root"
  | SlotNotADirectory => "slot_is_not_a_directory"
  | Enumeration => "slot_could_not_be_enumerated"
  | WorkNotADirectory => "retained_work_is_not_a_directory"
  | Deletion => "slot_entry_could_not_be_removed"
  | Residue => "slot_still_holds_runner_state"
  end.

Definition remediation (r : SlotRefusal) : str :=
  match r with
  | NotTheJournalledSlot | PolicyRootDisagrees | Containment =>
      lit "the attempt keeps its slot lease and nothing was removed; correct the " ++
      lit "repository's persistent workspace path, or remove the slot directory by hand " ++
      lit "once you have confirmed what is in it"
  | SlotNotADirectory | WorkNotADirectory =>
      lit "the attempt keeps its slot lease and nothing was removed; a job replaced the " ++
      lit "slot or its `_work` with a link, so inspect it before deleting anything and " ++
      lit "treat the retained workspace as untrusted"
  | Enumeration | Deletion | Residue =>
      lit "the attempt keeps its slot lease and will be cleaned again on the next pass; " ++
      lit "release whatever is holding the files open, or remove the slot's contents by " ++
      lit "hand leaving only `_work`"
  end.

Record SlotQuarantine := mk_quarantine { sq_refusal : SlotRefusal; sq_detail : str }.
Definition quarantine_display (q : SlotQuarantine) : str :=
  sq_detail q ++ lit "; " ++ remediation (sq_refusal q).

#[global] Abbreviation sprog A := (free answer (result A SlotQuarantine)) (only parsing).
Definition refuse {A} (r : SlotRefusal) (detail : str) : prog (result A SlotQuarantine) :=
  Ret (Err (mk_quarantine r detail)).

(** [Vec<String>::sort]. *)
Definition str_le (s t : str) : Prop := cmp s t ≠ Gt.
#[global] Instance str_le_dec : RelDecision str_le.
Proof. intros s t. unfold str_le. apply _. Defined.

(** [Vec::dedup]. *)
Fixpoint dedup (l : list str) : list str :=
  match l with
  | x :: ((y :: _) as rest) => if bool_decide (x = y) then dedup rest else x :: dedup rest
  | _ => l
  end.

Section Slots.
Context (NATIVE : PathPlatform).

(** ** Entries *)

Definition is_work_folder (name : str) : bool :=
  match NATIVE with
  | PWindows => eq_ignore_ascii_case name DEFAULT_WORK_FOLDER
  | PUnix => bool_decide (name = DEFAULT_WORK_FOLDER)
  end.

Definition is_link_like (m : Metadata) : bool :=
  md_is_symlink m || match NATIVE with PWindows => md_reparse m | PUnix => false end.

Definition is_retainable_work_folder (name : str) (m : Metadata) : bool :=
  is_work_folder name && md_is_dir m && negb (is_link_like m).

(** ** Allocation *)

Definition create_or_validate_slot (slot : PathBuf) : lprog unit :=
  found ← call (FsSymlinkMetadata slot);
  match found with
  | Ok m =>
      if is_link_like m then
        lfail (slot_refusal slot
          (lit "is a symbolic link, junction or other reparse point, which could place runner " ++
           lit "files outside the configured root"))
      else if negb (md_is_dir m) then lfail (slot_refusal slot (lit "is not a directory"))
      else lret tt
  | Err error =>
      if bool_decide (io_kind error = IoNotFound) then
        op_map_err (λ source, slot_refusal slot (lit "could not be created: " ++ io_text source))
          (call (FsCreateDir slot))
      else lfail (slot_refusal slot (lit "could not be inspected: " ++ io_text error))
  end.

Definition accept_entry (slot : PathBuf) (entry : io str) (refused : list str)
    : lprog (list str) :=
  match entry with
  | Err source => lfail (slot_refusal slot (lit "could not be read: " ++ io_text source))
  | Ok name =>
      m ←? op_map_err (λ source, slot_refusal slot
             (lit "entry " ++ quoted name ++ lit " could not be inspected: " ++ io_text source))
             (call (FsSymlinkMetadata (path_join NATIVE slot name)));
      lret (if is_retainable_work_folder name m then refused else refused ++ [name])
  end.

Definition accept_reusable_slot (slot : PathBuf) : lprog unit :=
  entries ←? op_map_err (λ source, slot_refusal slot (lit "could not be read: " ++ io_text source))
               (call (FsReadDir slot));
  refused ←? for_each_ok entries (accept_entry slot) [];
  if bool_decide (refused = []) then lret tt
  else
    let refused := merge_sort str_le refused in
    lfail (slot_refusal slot
      (lit "holds " ++ (if bool_decide (length refused = 1%nat) then lit "an entry" else lit "entries")
       ++ lit " that this attempt may not reuse: [" ++ join (lit ", ") refused
       ++ lit "]. A reusable slot is empty or holds one real `" ++ DEFAULT_WORK_FOLDER
       ++ lit "` directory and nothing else; remove or move the entries listed, or let cleanup "
       ++ lit "and recovery resolve them")).

(** ** The journalled slot *)

(** [Path::parent] of an absolute path: the last component goes, with the separators and
    the [.] components around it. *)
Fixpoint trim_components (rev : list N) : list N :=
  match rev with
  | c :: rev' =>
      if is_separator NATIVE c then trim_components rev'
      else if bool_decide (c = ch ".") &&
              match rev' with [] => true | d :: _ => is_separator NATIVE d end
      then trim_components rev'
      else rev
  | [] => []
  end.
Fixpoint drop_component (rev : list N) : list N :=
  match rev with
  | c :: rev' => if is_separator NATIVE c then rev else drop_component rev'
  | [] => []
  end.
Definition path_parent (p : PathBuf) : option PathBuf :=
  match trim_components (List.rev p) with
  | [] => None
  | last =>
      let rest := drop_component last in
      match trim_components rest with
      | [] => Some (List.rev (take 1 rest))
      | parent => Some (List.rev parent)
      end
  end.

Definition mislaid (runtime : PathBuf) (slot : Z) : SlotQuarantine :=
  mk_quarantine NotTheJournalledSlot
    (lit "the journalled runtime " ++ path_display runtime ++ lit " is not the slot s"
     ++ show_uint slot ++ lit " this attempt was allocated as").

Definition local_path (missing : SlotQuarantine) (p : PathBuf)
    : result LocalAbsolutePath SlotQuarantine :=
  ok_or (path_to_str p ≫= λ raw,
    match LocalAbsolutePath_new NATIVE raw with Ok q => Some q | Err _ => None end) missing.

(** The root and the slot the journal names, with a surviving policy's agreement. *)
Definition journalled_slot (runtime : PathBuf) (slot : Z) (configured : option LocalAbsolutePath)
    : result (LocalAbsolutePath * LocalAbsolutePath) SlotQuarantine :=
  let mislaid := mislaid runtime slot in
  let? runtime_path := local_path mislaid runtime in
  let? parent := ok_or (path_parent runtime) mislaid in
  let? root := local_path mislaid parent in
  let? derived := map_err (λ _, mislaid) (derive_child root (lit "s" ++ show_uint slot)) in
  if negb (bool_decide (derived = runtime_path)) then Err mislaid
  else match configured with
  | Some c =>
      if negb (bool_decide (c = root)) then
        Err (mk_quarantine PolicyRootDisagrees
          (lit "the journalled slot " ++ path_display runtime
           ++ lit " is not under the repository's configured persistent root " ++ text c))
      else Ok (root, derived)
  | None => Ok (root, derived)
  end.

Definition verify_journalled_slot (runtime : PathBuf) (slot : Z)
    (configured : option LocalAbsolutePath) : sprog unit :=
  '(root, derived) ←? Ret (journalled_slot runtime slot configured);
  op_map_err (λ source, mk_quarantine Containment
      (lit "the journalled slot is not inside the root it was allocated from: " ++ re_text source))
    (call (RootContains root derived)).

Definition slot_is_present (slot : PathBuf) : sprog bool :=
  found ← call (FsSymlinkMetadata slot);
  match found with
  | Err error =>
      if bool_decide (io_kind error = IoNotFound) then Ret (Ok false)
      else refuse SlotNotADirectory
             (lit "the slot " ++ path_display slot ++ lit " could not be inspected: "
              ++ io_kind_debug (io_kind error))
  | Ok m =>
      if negb (md_is_dir m) || is_link_like m then
        refuse SlotNotADirectory
          (lit "the slot " ++ path_display slot ++ lit " is a link or a file rather than a real directory")
      else Ret (Ok true)
  end.

(** ** Scrubbing *)

Definition remove_runtime_tree (path : PathBuf) : prog (io unit) :=
  match NATIVE with
  | PWindows =>
      removed ← call (FsRemoveDirAll path);
      match removed with
      | Err error =>
          if bool_decide (io_kind error = IoPermissionDenied) then
            _ ← call (UnlinkReparsePoints path);
            call (FsRemoveDirAll path)
          else mret (Err error)
      | Ok _ => mret (Ok tt)
      end
  | PUnix => call (FsRemoveDirAll path)
  end.

Definition listed_entry_metadata (path : PathBuf) : prog (io (option Metadata)) :=
  found ← call (FsSymlinkMetadata path);
  mret (match found with
        | Ok m => Ok (Some m)
        | Err error => if bool_decide (io_kind error = IoNotFound) then Ok None else Err error
        end).

Definition remove_slot_entry (path : PathBuf) (m : Metadata) : prog (io unit) :=
  removed ←
    (if is_link_like m then
       unlinked ← call (FsRemoveFile path);
       match unlinked with Ok _ => mret (Ok tt) | Err _ => call (FsRemoveDir path) end
     else if md_is_dir m then remove_runtime_tree path
     else call (FsRemoveFile path));
  mret (match removed with
        | Err error => if bool_decide (io_kind error = IoNotFound) then Ok tt else Err error
        | Ok _ => Ok tt
        end).

Definition unreadable (slot : PathBuf) (suffix : str) (source : IoError) : SlotQuarantine :=
  mk_quarantine Enumeration
    (lit "the entries of " ++ path_display slot ++ lit " could not be listed" ++ suffix
     ++ lit ": " ++ io_kind_debug (io_kind source)).

Definition scrub_entry (slot : PathBuf) (entry : io str) : sprog unit :=
  let unreadable := unreadable slot [] in
  name ←? Ret (map_err unreadable entry);
  let path := path_join NATIVE slot name in
  listed ←? op_map_err unreadable (listed_entry_metadata path);
  match listed with
  | None => Ret (Ok tt)
  | Some m =>
      if is_work_folder name then
        if is_retainable_work_folder name m then Ret (Ok tt)
        else refuse WorkNotADirectory
               (lit "the retained `" ++ DEFAULT_WORK_FOLDER ++ lit "` in " ++ path_display slot
                ++ lit " is a link or a file rather than a real directory")
      else
        op_map_err (λ source, mk_quarantine Deletion
            (lit "an entry of " ++ path_display slot ++ lit " could not be removed: "
             ++ io_kind_debug (io_kind source)))
          (remove_slot_entry path m)
  end.

Definition scrub_slot_entries (slot : PathBuf) : sprog unit :=
  entries ←? op_map_err (unreadable slot []) (call (FsReadDir slot));
  for_each_ok entries (λ entry _, scrub_entry slot entry) tt.

Definition IDENTITY_FILE : str := lit ".runner-process.json".
Definition FALLBACK_IDENTITY_FILE : str := lit ".runner-process.recovery.json".
Definition UNRESOLVED_PROCESS_FILE : str := lit ".runner-process.unresolved".
Definition TERMINATE_INTENT_FILE : str := lit ".terminate-registration-timeout".
Definition HANDOFF_NAME_PREFIX : str := lit "jit-".

Definition SENSITIVE_SLOT_ENTRIES : list str :=
  [lit "bin"; lit "externals"; lit "run.sh"; lit "run.cmd"; lit "config.sh"; lit "config.cmd";
   lit ".runner"; lit ".credentials"; lit ".credentials_rsaparams"; lit ".env"; lit ".path";
   lit "_diag"; IDENTITY_FILE; FALLBACK_IDENTITY_FILE; UNRESOLVED_PROCESS_FILE;
   RUNNER_ID_FILE; TERMINATE_INTENT_FILE].

(** The number of entries that had to go, and the names that may be printed. *)
Definition verify_entry (slot : PathBuf) (entry : io str) (acc : Z * list str)
    : sprog (Z * list str) :=
  let unreadable := unreadable slot (lit " to verify the scrub") in
  let '(residue, named) := acc in
  name ←? Ret (map_err unreadable entry);
  listed ←? op_map_err unreadable (listed_entry_metadata (path_join NATIVE slot name));
  match listed with
  | None => Ret (Ok acc)
  | Some m =>
      if is_retainable_work_folder name m then Ret (Ok acc)
      else Ret (Ok (sat_add U64_MAX residue 1,
                    if starts_with HANDOFF_NAME_PREFIX name
                    then named ++ [lit "an encoded JIT handoff"] else named))
  end.

Definition stat_sensitive (slot : PathBuf) (entry : str) (named : list str)
    : sprog (list str) :=
  found ← call (FsSymlinkMetadata (path_join NATIVE slot entry));
  Ret (Ok (if is_ok found then named ++ [lit "`" ++ entry ++ lit "`"] else named)).

Definition residue_detail (slot : PathBuf) (residue : Z) (named : list str) : str :=
  if bool_decide (residue = 0) then
    lit "the listing of " ++ path_display slot ++ lit " reported nothing but `"
    ++ DEFAULT_WORK_FOLDER ++ lit "`, yet " ++ join (lit ", ") named ++ lit " survived cleanup"
  else
    show_uint residue ++ lit " entr" ++ (if bool_decide (residue = 1) then lit "y" else lit "ies")
    ++ lit " other than `" ++ DEFAULT_WORK_FOLDER ++ lit "` survived cleanup of "
    ++ path_display slot
    ++ (if bool_decide (named = []) then [] else lit ", including " ++ join (lit ", ") named).

Definition verify_slot_scrubbed (slot : PathBuf) : sprog unit :=
  entries ←? op_map_err (unreadable slot (lit " to verify the scrub")) (call (FsReadDir slot));
  '(residue, named) ←? for_each_ok entries (verify_entry slot) (0, []);
  named ←? for_each_ok SENSITIVE_SLOT_ENTRIES (stat_sensitive slot) named;
  if bool_decide (residue = 0 ∧ named = []) then Ret (Ok tt)
  else refuse Residue (residue_detail slot residue (dedup (merge_sort str_le named))).

(** Steps 1 to 7 of a slot's cleanup. *)
Definition scrub_slot (runtime : PathBuf) (slot : Z) (configured : option LocalAbsolutePath)
    : sprog unit :=
  _ ←? verify_journalled_slot runtime slot configured;
  present ←? slot_is_present runtime;
  if present then
    _ ←? scrub_slot_entries runtime;
    verify_slot_scrubbed runtime
  else Ret (Ok tt).
End Slots.

(** Confinement of programs over the ports. *)
Ltac port_step tac :=
  first
    [ apply within_map_err
    | match goal with
      | |- within _ (lret _) => exact I
      | |- within _ (lfail _) => exact I
      | |- within _ (refuse _ _) => exact I
      end
    | within_step tac ].
