(* ===== verification/RunnerEnv.v ===== *)
(** * The environment of a native runner ([crates/platform/src/runner_env.rs])

    The host's [runner.env]: its lines, parsing and rendering, the operator's edits; the
    platform's defaults; and the order in which a runner's variables are applied. *)

From stdpp Require Import strings.
From S2P Require Import Prelude RustStr Ordered Model Path Workspace Execution Host Attempt.
From S2P Require Import Effects Ports Slots.
#[local] Open Scope Z_scope.
#[local] Open Scope rust_scope.

Definition RUNNER_ENV_FILE : str := lit "runner.env".
Definition RESERVED_NAMES : list str := [lit "TMPDIR"; lit "TEMP"; lit "TMP"].
Definition RESERVED_PREFIX : str := lit "ACTIONS_RUNNER_INPUT_".
Definition MACOS_TOOL_DIRECTORIES : list str :=
  [lit "/opt/homebrew/bin"; lit "/opt/homebrew/sbin"; lit "/usr/local/bin"].
Definition MACOS_SYSTEM_PATH : str := lit "/usr/bin:/bin:/usr/sbin:/sbin".
Definition MACOS_DEFAULT_LANG : str := lit "en_US.UTF-8".

(** ** Errors *)

Inductive RunnerEnvError :=
  | NotAnAssignment (line : option Z)
  | InvalidName (line : option Z)
  | ReservedName (line : option Z) (name : str)
  | DuplicateName (line : Z) (name : str)
  | LineBreak (line : option Z) (name : str)
  | EnvIo (action : string) (path : PathBuf) (source : IoError).

Definition at_line (line : option Z) : str :=
  match line with None => [] | Some n => lit "line " ++ show_uint n ++ lit ": " end.

Definition env_error_text (e : RunnerEnvError) : str :=
  match e with
  | NotAnAssignment line => at_line line ++ lit "is not KEY=VALUE"
  | InvalidName line =>
      at_line line ++ lit "the name before `=` is not a valid environment variable name; use letters, digits and `_`, not starting with a digit"
  | ReservedName line name =>
      at_line line ++ lit "`" ++ name ++ lit "` is set by runner-manager for every runner and cannot be changed"
  | DuplicateName line name =>
      lit "line " ++ show_uint line ++ lit " sets `" ++ name ++ lit "` a second time"
  | LineBreak line name =>
      at_line line ++ lit "the value of `" ++ name
      ++ lit "` contains a line break or a NUL character, which runner.env cannot hold"
  | EnvIo action path source =>
      lit "cannot " ++ lit action ++ lit " " ++ path_display path ++ lit ": " ++ io_text source
  end.

(** ** The file *)

Inductive Line := TextLine (raw : str) | EntryLine (name value : str).
#[global] Instance Line_eq_dec : EqDecision Line.
Proof. solve_decision. Defined.
Record RunnerEnv := mk_env_file { env_lines : list Line }.
Definition RunnerEnv_default : RunnerEnv := mk_env_file [].

(** [entries]: every name and value, in file order. *)
Definition line_entry (l : Line) : option (str * str) :=
  match l with EntryLine name value => Some (name, value) | TextLine _ => None end.
Definition entries (e : RunnerEnv) : list (str * str) := omap line_entry (env_lines e).

Definition is_name_start (c : char) : bool := is_ascii_alphabetic c || (c =? ch "_")%N.
Definition is_name_char (c : char) : bool := is_ascii_alphanumeric c || (c =? ch "_")%N.

Definition is_reserved (name : str) : bool :=
  let upper := to_ascii_uppercase name in
  starts_with RESERVED_PREFIX upper || bool_decide (upper ∈ RESERVED_NAMES).

Definition validate_env_name (name : str) (line : option Z) : result unit RunnerEnvError :=
  let valid := match name with [] => false | c :: rest => is_name_start c && forallb is_name_char rest end in
  if negb valid then Err (InvalidName line)
  else if is_reserved name then Err (ReservedName line name)
  else Ok tt.

Section Platform.
Context (NATIVE : PathPlatform).

(** One variable on this platform: Windows compares names without case. *)
Definition same_name (a b : str) : bool :=
  match NATIVE with PWindows => eq_ignore_ascii_case a b | PUnix => str_eqb a b end.

Definition env_get (name : str) (e : RunnerEnv) : option str :=
  snd <$> List.find (λ nv, same_name nv.1 name) (entries e).

Definition parse_line (line : Z) (e : RunnerEnv) (raw : str) : result RunnerEnv RunnerEnvError :=
  let raw := strip_cr raw in
  let trimmed := trim_start raw in
  if bool_decide (trimmed = []) || starts_with [ch "#"] trimmed
  then Ok (mk_env_file (env_lines e ++ [TextLine raw]))
  else
    let? assignment := ok_or (split_once (ch "=") trimmed) (NotAnAssignment (Some line)) in
    let '(name, value) := assignment in
    let name := trim_end name in
    let? _ := validate_env_name name (Some line) in
    if contains_char 0 value then Err (LineBreak (Some line) name)
    else match env_get name e with
    | Some _ => Err (DuplicateName line name)
    | None => Ok (mk_env_file (env_lines e ++ [EntryLine name value]))
    end.

Fixpoint parse_lines (line : Z) (e : RunnerEnv) (raws : list str) : result RunnerEnv RunnerEnvError :=
  match raws with
  | [] => Ok e
  | raw :: raws => let? e := parse_line line e raw in parse_lines (line + 1) e raws
  end.
Definition env_parse (text : str) : result RunnerEnv RunnerEnvError :=
  parse_lines 1 RunnerEnv_default (lines text).

(** [load], given what reading the file answered; a missing file is empty. *)
Definition env_load (path : PathBuf) (found : io str) : result RunnerEnv RunnerEnvError :=
  match found with
  | Ok text => env_parse text
  | Err error =>
      if bool_decide (io_kind error = IoNotFound) then Ok RunnerEnv_default
      else Err (EnvIo "read" path error)
  end.

Definition line_text (l : Line) : str :=
  match l with TextLine raw => raw | EntryLine name value => name ++ [ch "="] ++ value end.
Definition env_render (e : RunnerEnv) : str :=
  concat ((λ l, (line_text l ++ [10%N])) <$> env_lines e).

(** The first entry of the name, replaced. *)
Fixpoint replace_entry (name value : str) (ls : list Line) : option (list Line) :=
  match ls with
  | [] => None
  | l :: ls =>
      match l with
      | EntryLine existing current =>
          if same_name existing name then Some (EntryLine existing value :: ls)
          else cons l <$> replace_entry name value ls
      | TextLine _ => cons l <$> replace_entry name value ls
      end
  end.
(** [set]: the environment after it, and whether the name was set before. *)
Definition env_set (name value : str) : method RunnerEnv bool RunnerEnvError := λ e,
  match validate_env_name name None with
  | Err error => (e, Err error)
  | Ok _ =>
      if contains_char 10 value || contains_char 13 value || contains_char 0 value
      then (e, Err (LineBreak None name))
      else match replace_entry name value (env_lines e) with
      | Some ls => (mk_env_file ls, Ok true)
      | None => (mk_env_file (env_lines e ++ [EntryLine name value]), Ok false)
      end
  end.

Definition is_entry_of (name : str) (l : Line) : bool :=
  match l with EntryLine existing _ => same_name existing name | TextLine _ => false end.
Definition env_unset (name : str) (e : RunnerEnv) : RunnerEnv * bool :=
  let ls := List.filter (λ l, negb (is_entry_of name l)) (env_lines e) in
  (mk_env_file ls, negb (bool_decide (length ls = length (env_lines e)))).

(** [split_assignment]: the argument of [host env set]. *)
Definition split_assignment (raw : str) : result (str * str) RunnerEnvError :=
  ok_or (split_once (ch "=") raw) (NotAnAssignment None).
End Platform.

(** ** Defaults *)

Inductive RunnerPlatform := RpWindows | RpMacOs | RpLinux.
Definition POWERSHELL_TELEMETRY_OPTOUT : str := lit "POWERSHELL_TELEMETRY_OPTOUT".
Definition POWERSHELL_TELEMETRY_OPTOUT_VALUE : str := lit "1".

Record Inherited := mk_inherited {
  inh_path : option str;
  inh_has_locale : bool;
  inh_has_optout : bool;
}.
Definition Inherited_from_env (var : str → option str) : Inherited :=
  mk_inherited (var (lit "PATH"))
    (bool_decide (is_Some (var (lit "LANG"))) || bool_decide (is_Some (var (lit "LC_ALL"))))
    (match var POWERSHELL_TELEMETRY_OPTOUT with Some v => negb (bool_decide (v = [])) | None => false end).

Definition RUNNER_HOME_DIR : str := lit "home".
Definition WINDOWS_PROFILE_VARIABLES : list str :=
  [lit "USERPROFILE"; lit "HOME"; lit "APPDATA"; lit "LOCALAPPDATA"].
Definition DIRECTORY_VARIABLES : list str := [lit "APPDATA"; lit "LOCALAPPDATA"].

Definition split_colon_path (path : str) : list str := split_on (N.eqb (ch ":")) path.

(** The macOS variables. *)
Definition macos_defaults (inherited : Inherited) (exists_ : str → bool) : list (str * str) :=
  let listed := from_option split_colon_path [] (inh_path inherited) in
  let missing := List.filter (λ dir, exists_ dir && negb (bool_decide (dir ∈ listed)))
                   MACOS_TOOL_DIRECTORIES in
  (if bool_decide (missing = []) then []
   else
     let rest := match inh_path inherited with
                 | Some (c :: p) => c :: p
                 | _ => MACOS_SYSTEM_PATH
                 end in
     [(lit "PATH", join [ch ":"] missing ++ [ch ":"] ++ rest)])
  ++ (if inh_has_locale inherited then [] else [(lit "LANG", MACOS_DEFAULT_LANG)]).

Definition platform_defaults (NATIVE : PathPlatform) (p : RunnerPlatform) (runtime : PathBuf)
    (inherited : Inherited) (exists_ : str → bool) : list (str * str) :=
  match p with
  | RpLinux => []
  | RpWindows =>
      let home := path_join NATIVE runtime RUNNER_HOME_DIR in
      let app_data := path_join NATIVE home (lit "AppData") in
      [(lit "USERPROFILE", home); (lit "HOME", home);
       (lit "APPDATA", path_join NATIVE app_data (lit "Roaming"));
       (lit "LOCALAPPDATA", path_join NATIVE app_data (lit "Local"))]
  | RpMacOs => macos_defaults inherited exists_
  end
  ++ (if inh_has_optout inherited then []
      else [(POWERSHELL_TELEMETRY_OPTOUT, POWERSHELL_TELEMETRY_OPTOUT_VALUE)]).

(** The variables of a runner, in the order they are applied. *)
Definition runner_environment (defaults caches : list (str * str)) (file : RunnerEnv)
    : list (str * str) :=
  defaults ++ caches ++ entries file.

(** ** Lemmas *)

Section Facts.
Context (NATIVE : PathPlatform).

(** What names are compared by. *)
Definition env_key (name : str) : str :=
  match NATIVE with PWindows => to_ascii_lowercase name | PUnix => name end.

Lemma same_name_spec a b : same_name NATIVE a b = bool_decide (env_key a = env_key b).
Proof. unfold same_name, env_key. by destruct NATIVE. Qed.

(** A line that survives being written and read. *)
Definition line_ok (l : Line) : Prop :=
  match l with
  | TextLine raw =>
      (10%N ∉ raw) ∧ last raw ≠ Some 13%N ∧
      bool_decide (trim_start raw = []) || starts_with [ch "#"] (trim_start raw) = true
  | EntryLine name value =>
      validate_env_name name None = Ok tt ∧ (10%N ∉ value) ∧ contains_char 0 value = false ∧
      last value ≠ Some 13%N
  end.
Definition keys (ls : list Line) : list str := (λ nv, env_key nv.1) <$> omap line_entry ls.
Definition valid_env (e : RunnerEnv) : Prop :=
  Forall line_ok (env_lines e) ∧ NoDup (keys (env_lines e)).

Lemma validate_env_name_line name l l' :
  validate_env_name name l = Ok tt → validate_env_name name l' = Ok tt.
Proof. unfold validate_env_name. by repeat case_match. Qed.

Lemma validate_env_name_ok name l :
  validate_env_name name l = Ok tt →
  (∃ c rest, name = c :: rest) ∧ Forall (λ c, is_name_char c = true) name ∧ is_reserved name = false.
Proof.
  unfold validate_env_name. destruct name as [|c rest]; [done|].
  destruct (is_name_start c && _) eqn:Hv; [|done]. apply andb_true_iff in Hv as [Hc Hr].
  destruct (is_reserved _); [done|]. intros _. split; [by eexists _, _|]. split; [|done].
  constructor.
  - unfold is_name_char, is_name_start, is_ascii_alphanumeric in *. apply orb_true_iff.
    apply orb_true_iff in Hc as [Hc|Hc]; [left|by right]. by rewrite Hc.
  - rewrite Forall_forall. intros d Hd. rewrite forallb_forall in Hr. apply Hr.
    by apply list_elem_of_In.
Qed.

Lemma name_char_plain c :
  is_name_char c = true → is_whitespace c = false ∧ c ≠ ch "#" ∧ c ≠ ch "=" ∧ c ≠ 10%N ∧ c ≠ 13%N.
Proof.
  unfold is_name_char. change (ch "_") with 95%N. change (ch "#") with 35%N.
  change (ch "=") with 61%N. intros H. split_and!; chars.
Qed.

Lemma env_get_keys name e : env_get NATIVE name e = None ↔ env_key name ∉ keys (env_lines e).
Proof.
  unfold env_get, keys. fold (entries e). rewrite fmap_None. split.
  - intros H (nv & E & Hin)%list_elem_of_fmap. apply list_elem_of_In in Hin.
    pose proof (List.find_none _ _ H _ Hin) as Hf. simpl in Hf.
    rewrite same_name_spec, bool_decide_eq_false in Hf. by rewrite E in Hf.
  - intros H. destruct (List.find _ (entries e)) as [nv|] eqn:E; [|done].
    apply List.find_some in E as [Hin Hs]. rewrite same_name_spec, bool_decide_eq_true in Hs.
    exfalso. apply H, list_elem_of_fmap. exists nv. rewrite Hs. split; [done|].
    by apply list_elem_of_In.
Qed.

Lemma keys_snoc ls name value : keys (ls ++ [EntryLine name value]) = keys ls ++ [env_key name].
Proof. unfold keys. by rewrite omap_app, fmap_app. Qed.

Lemma keys_text ls raw : keys (ls ++ [TextLine raw]) = keys ls.
Proof. unfold keys. rewrite omap_app. simpl. by rewrite app_nil_r. Qed.

(** *** Reading back what was written *)

Lemma line_text_ok l : line_ok l → (10%N ∉ line_text l) ∧ last (line_text l) ≠ Some 13%N.
Proof.
  destruct l as [raw|name value]; [by intros (? & ? & _)|]. simpl. intros (Hn & Hv & _ & Hl).
  apply validate_env_name_ok in Hn as ((c & rest & E) & Hc & _). split.
  - rewrite elem_of_app, elem_of_cons. intros [Hin|[E'|?]]; [|by vm_compute in E'|done].
    rewrite Forall_forall in Hc. apply Hc in Hin. by apply name_char_plain in Hin as (_ & _ & _ & ? & _).
  - destruct (decide (value = [])) as [->|Hne]; [by rewrite last_snoc|].
    rewrite cons_middle, app_assoc, last_app.
    destruct (last value) eqn:E'; [done|]. by apply last_None in E'.
Qed.

Lemma trim_start_name name rest :
  Forall (λ c, is_name_char c = true) name → name ≠ [] → trim_start (name ++ rest) = name ++ rest.
Proof.
  intros Hn Hne. unfold trim_start, trim_start_matches. apply drop_while_fixed. intros c E.
  destruct name as [|d name]; [done|]. injection E as <-. apply Forall_cons in Hn as [Hd _].
  by apply name_char_plain in Hd as (? & _).
Qed.

Lemma parse_line_text line e l :
  line_ok l → NoDup (keys (env_lines e ++ [l])) →
  parse_line NATIVE line e (line_text l) = Ok (mk_env_file (env_lines e ++ [l])).
Proof.
  intros Hl Hd. pose proof (line_text_ok l Hl) as [_ Hcr]. unfold parse_line.
  rewrite (strip_cr_id _ Hcr). destruct l as [raw|name value]; simpl in Hl |- *.
  - destruct Hl as (_ & _ & Ht). by rewrite Ht.
  - destruct Hl as (Hn & _ & H0 & _). pose proof Hn as ((c & rest & E) & Hc & _)%validate_env_name_ok.
    assert (name ≠ []) as Hne by (by rewrite E). rewrite trim_start_name by done.
    rewrite bool_decide_eq_false_2 by (by rewrite E).
    assert (is_name_char c = true) as Hcc by (rewrite E in Hc; by apply Forall_cons in Hc as [? _]).
    apply name_char_plain in Hcc as (_ & Hhash & _).
    replace (starts_with [ch "#"] (name ++ ch "=" :: value)) with false; cycle 1.
    { symmetry. apply not_true_iff_false. rewrite starts_with_char, E. naive_solver. }
    cbn [orb]. rewrite split_once_app; cycle 1.
    { intros Hin. rewrite Forall_forall in Hc. apply Hc in Hin.
      by apply name_char_plain in Hin as (_ & _ & ? & _). }
    simpl. assert (trim_end name = name) as ->.
    { unfold trim_end. apply trim_end_fixed. intros d Hd'. apply last_Some_elem_of in Hd'.
      rewrite Forall_forall in Hc. apply Hc in Hd'. by apply name_char_plain in Hd' as (? & _). }
    rewrite (validate_env_name_line _ _ (Some line) Hn). simpl. rewrite H0.
    rewrite keys_snoc in Hd. apply NoDup_app in Hd as (_ & Hd & _).
    destruct (env_get NATIVE name e) eqn:G; [|done]. exfalso.
    assert (env_get NATIVE name e ≠ None) as G' by (by rewrite G). apply G', env_get_keys.
    intros Hin. apply (Hd _ Hin). by left.
Qed.

Lemma parse_lines_text ls line e :
  Forall line_ok ls → NoDup (keys (env_lines e ++ ls)) →
  parse_lines NATIVE line e (line_text <$> ls) = Ok (mk_env_file (env_lines e ++ ls)).
Proof.
  intros Hls. revert line e. induction Hls as [|l ls Hl Hls IH]; intros line e Hd; simpl.
  - rewrite app_nil_r. by destruct e.
  - rewrite cons_middle, app_assoc in Hd |- *. rewrite parse_line_text; [|done|]; simpl.
    + by apply (IH (line + 1) (mk_env_file (env_lines e ++ [l]))).
    + unfold keys in Hd |- *. rewrite omap_app, fmap_app in Hd. by apply NoDup_app in Hd as (? & _).
Qed.

Lemma parse_render e : valid_env e → env_parse NATIVE (env_render e) = Ok e.
Proof.
  intros [Hl Hd]. unfold env_parse, env_render.
  replace ((λ l, (line_text l ++ [10%N])) <$> env_lines e)
    with ((λ t, (t ++ [10%N])) <$> (line_text <$> env_lines e)) by (by rewrite <- list_fmap_compose).
  rewrite lines_concat.
  - rewrite parse_lines_text; [by destruct e|done|done].
  - rewrite Forall_fmap. eapply Forall_impl; [exact Hl|]. intros l. apply line_text_ok.
Qed.

(** *** Every environment the program builds is valid *)

Lemma suffix_last (a b : str) c : last b = Some c → last (a ++ b) = Some c.
Proof. intros H. by rewrite last_app, H. Qed.

Lemma trim_start_infix s : ∃ a, s = a ++ trim_start s.
Proof. apply drop_while_suffix. Qed.

Lemma parse_line_valid line e raw e' :
  valid_env e → 10%N ∉ raw → last (strip_cr raw) ≠ Some 13%N →
  parse_line NATIVE line e raw = Ok e' → valid_env e'.
Proof.
  intros [Hl Hd] Hn Hcr. unfold parse_line.
  assert (10%N ∉ strip_cr raw) as Hn' by (intros ?%strip_cr_elem; done).
  destruct (bool_decide (trim_start (strip_cr raw) = []) || _) eqn:Ht.
  { intros [= <-]. split; simpl; [|by rewrite keys_text].
    apply Forall_app. split; [done|]. constructor; [|done]. by split_and!. }
  destruct (split_once (ch "=") (trim_start (strip_cr raw))) as [[name value]|] eqn:E; [|done]. simpl.
  destruct (validate_env_name (trim_end name) (Some line)) as [[]|] eqn:Hv; [|done]. simpl.
  destruct (contains_char 0 value) eqn:H0; [done|].
  destruct (env_get NATIVE (trim_end name) e) eqn:G; [done|]. intros [= <-].
  apply split_once_Some in E as [E _]. destruct (trim_start_infix (strip_cr raw)) as [a Ha].
  rewrite E in Ha. split; simpl.
  - apply Forall_app. split; [done|]. constructor; [|done]. split_and!.
    + by eapply validate_env_name_line.
    + intros Hin. apply Hn'. rewrite Ha. set_solver.
    + done.
    + intros H13. apply Hcr. rewrite Ha, cons_middle, !app_assoc. by apply suffix_last.
  - rewrite keys_snoc. apply NoDup_app. split_and!; [done| |apply NoDup_singleton].
    intros k Hk ->%list_elem_of_singleton. by apply env_get_keys in G.
Qed.

Lemma parse_lines_valid raws line e e' :
  Forall (λ raw, (10%N ∉ raw) ∧ last (strip_cr raw) ≠ Some 13%N) raws → valid_env e →
  parse_lines NATIVE line e raws = Ok e' → valid_env e'.
Proof.
  intros Hr. revert line e. induction Hr as [|raw raws [Hn Hcr] Hr IH]; intros line e He; simpl.
  - by intros [= <-].
  - destruct (parse_line NATIVE line e raw) as [e1|] eqn:E; [|done]. simpl.
    apply IH. by eapply parse_line_valid.
Qed.

Lemma parse_valid text e :
  contains_str [13%N; 13%N] text = false → env_parse NATIVE text = Ok e → valid_env e.
Proof.
  intros Ht. apply parse_lines_valid; [|by repeat constructor]. rewrite Forall_forall. intros l Hl.
  split; [by eapply lines_no_newline|by eapply lines_strip_cr].
Qed.

(** Whatever the text, the names that were read are valid and distinct. *)
Definition named_env (e : RunnerEnv) : Prop :=
  (∀ name value, (name, value) ∈ entries e → validate_env_name name None = Ok tt) ∧
  NoDup (keys (env_lines e)).

Lemma valid_named e : valid_env e → named_env e.
Proof.
  intros [Hok Hd]. split; [|done]. intros name value Hin.
  apply list_elem_of_omap in Hin as (l & Hl & E). rewrite Forall_forall in Hok.
  apply Hok in Hl. destruct l; [done|]. injection E as <- <-. apply Hl.
Qed.

Lemma parse_line_named line e raw e' :
  named_env e → parse_line NATIVE line e raw = Ok e' → named_env e'.
Proof.
  intros [Hv Hd]. unfold parse_line. destruct (_ || _).
  { intros [= <-]. unfold named_env, entries. simpl. rewrite keys_text, omap_app, app_nil_r. done. }
  destruct (split_once _ _) as [[name value]|]; [|done]. simpl.
  destruct (validate_env_name (trim_end name) (Some line)) as [[]|] eqn:Hn; [|done]. simpl.
  destruct (contains_char 0 value); [done|].
  destruct (env_get NATIVE (trim_end name) e) eqn:G; [done|]. intros [= <-]. split.
  - intros n v. unfold entries. simpl. rewrite omap_app, elem_of_app.
    intros [Hin|[= -> ->]%list_elem_of_singleton]; [by eapply Hv|by eapply validate_env_name_line].
  - simpl. rewrite keys_snoc. apply NoDup_app. split_and!; [done| |apply NoDup_singleton].
    intros k Hk ->%list_elem_of_singleton. by apply env_get_keys in G.
Qed.

Lemma parse_named text e : env_parse NATIVE text = Ok e → named_env e.
Proof.
  unfold env_parse. assert (named_env RunnerEnv_default) as H0.
  { split; [|by constructor]. by intros ?? ?%not_elem_of_nil. }
  revert H0. generalize 1, RunnerEnv_default. induction (lines text) as [|raw raws IH]; intros line e0 He0; simpl.
  - by intros [= <-].
  - destruct (parse_line NATIVE line e0 raw) as [e1|] eqn:E; [|done]. simpl.
    apply IH. by eapply parse_line_named.
Qed.

Lemma contains_char_false c s : contains_char c s = false ↔ c ∉ s.
Proof.
  unfold contains_char. rewrite <- not_true_iff_false, existsb_exists. split.
  - intros H Hin. apply H. exists c. split; [by apply list_elem_of_In|apply N.eqb_refl].
  - intros H (d & Hd & <-%N.eqb_eq). by apply H, list_elem_of_In.
Qed.

Lemma replace_entry_Some name value ls ls' :
  replace_entry NATIVE name value ls = Some ls' →
  ∃ a existing current b, ls = a ++ EntryLine existing current :: b ∧
    ls' = a ++ EntryLine existing value :: b ∧ env_key existing = env_key name.
Proof.
  revert ls'. induction ls as [|l ls IH]; intros ls'; simpl; [done|].
  assert (cons l <$> replace_entry NATIVE name value ls = Some ls' →
    ∃ a existing current b, l :: ls = a ++ EntryLine existing current :: b ∧
      ls' = a ++ EntryLine existing value :: b ∧ env_key existing = env_key name) as Hrec.
  { intros (t & E & ->)%fmap_Some. destruct (IH _ E) as (a & n & c & b & -> & -> & ?).
    by exists (l :: a), n, c, b. }
  destruct l as [raw|existing current]; [done|]. rewrite same_name_spec.
  case_bool_decide; [|done]. intros [= <-]. by exists [], existing, current, ls.
Qed.

Lemma replace_entry_None name value ls :
  replace_entry NATIVE name value ls = None → env_key name ∉ keys ls.
Proof.
  induction ls as [|[raw|existing current] ls IH]; simpl; [set_solver|..].
  - rewrite fmap_None. done.
  - rewrite same_name_spec. case_bool_decide as Hk; [done|]. rewrite fmap_None. intros H Hin.
    unfold keys in Hin. simpl in Hin. apply elem_of_cons in Hin as [E|Hin]; [by rewrite E in Hk|].
    by apply IH.
Qed.

Lemma keys_replace a existing v v' b :
  keys (a ++ EntryLine existing v :: b) = keys (a ++ EntryLine existing v' :: b).
Proof. unfold keys. by rewrite !omap_app, !fmap_app. Qed.

Lemma env_set_valid name value e : valid_env e → valid_env (env_set NATIVE name value e).1.
Proof.
  intros [Hl Hd]. unfold env_set. destruct (validate_env_name name None) as [[]|] eqn:Hv; [|done].
  destruct (contains_char 10 value || _ || _) eqn:Hc; [done|].
  apply orb_false_iff in Hc as [[H10 H13]%orb_false_iff H0].
  assert (∀ existing, validate_env_name existing None = Ok tt →
    line_ok (EntryLine existing value)) as Hok.
  { intros existing He. split_and!; [done|by apply contains_char_false|done|].
    intros Hlast%last_Some_elem_of. by apply contains_char_false in H13. }
  destruct (replace_entry NATIVE name value (env_lines e)) as [ls|] eqn:E; split; simpl.
  - apply replace_entry_Some in E as (a & n & c & b & E & -> & _). rewrite E in Hl.
    apply Forall_app in Hl as [Ha [Hn Hb]%Forall_cons]. apply Forall_app. split; [done|].
    constructor; [|done]. apply Hok. by destruct Hn.
  - apply replace_entry_Some in E as (a & n & c & b & E & -> & _). rewrite E in Hd.
    by rewrite (keys_replace a n value c b).
  - apply Forall_app. split; [done|]. constructor; [|done]. by apply Hok.
  - rewrite keys_snoc. apply NoDup_app. split_and!; [done| |apply NoDup_singleton].
    intros k Hk ->%list_elem_of_singleton. by apply replace_entry_None in E.
Qed.

Lemma keys_filter f ls : sublist (keys (List.filter f ls)) (keys ls).
Proof.
  unfold keys. induction ls as [|l ls IH]; [done|]. simpl. destruct (f l), l; simpl;
    first [exact IH|by constructor].
Qed.

Lemma env_unset_valid name e : valid_env e → valid_env (env_unset NATIVE name e).1.
Proof.
  intros [Hl Hd]. split; simpl.
  - rewrite Forall_forall in Hl |- *. intros l Hin. apply Hl.
    apply list_elem_of_In, List.filter_In in Hin as [Hin _]. by apply list_elem_of_In.
  - eapply sublist_NoDup; [exact Hd|apply keys_filter].
Qed.

(** ** Edits *)

Inductive env_edit := EditSet (name value : str) | EditUnset (name : str).
Definition apply_edit (d : env_edit) (e : RunnerEnv) : RunnerEnv :=
  match d with
  | EditSet name value => (env_set NATIVE name value e).1
  | EditUnset name => (env_unset NATIVE name e).1
  end.
Definition run_edits (ds : list env_edit) (e : RunnerEnv) : RunnerEnv :=
  fold_left (λ e d, apply_edit d e) ds e.

Lemma run_edits_valid ds e : valid_env e → valid_env (run_edits ds e).
Proof.
  revert e. induction ds as [|d ds IH]; intros e He; [done|]. apply IH.
  destruct d; [by apply env_set_valid|by apply env_unset_valid].
Qed.

(** A valid file reads as a map of keys to values. *)
Lemma env_get_Some name value e :
  named_env e →
  env_get NATIVE name e = Some value ↔
  ∃ existing, (existing, value) ∈ entries e ∧ env_key existing = env_key name.
Proof.
  intros [_ Hd]. unfold env_get. rewrite fmap_Some. split.
  - intros ([n v] & [Hin Hs]%List.find_some & ->). exists n.
    rewrite same_name_spec, bool_decide_eq_true in Hs. split; [|done]. by apply list_elem_of_In.
  - intros (n & Hin & Hk). unfold keys in Hd. fold (entries e) in Hd. revert Hd Hin.
    induction (entries e) as [|[m v] l IH]; intros Hd Hin; [by apply not_elem_of_nil in Hin|].
    simpl in Hd |- *. apply NoDup_cons in Hd as [Hm Hd]. rewrite same_name_spec.
    apply elem_of_cons in Hin as [[= <- <-]|Hin].
    + rewrite bool_decide_eq_true_2 by done. by eexists.
    + rewrite bool_decide_eq_false_2; [by apply IH|]. simpl. intros E. apply Hm.
      apply list_elem_of_fmap. exists (n, value). split; [by rewrite E|done].
Qed.

Lemma reserved_not_set name e : named_env e → is_reserved name = true → env_get NATIVE name e = None.
Proof.
  intros He Hr. destruct (env_get NATIVE name e) as [v|] eqn:G; [|done].
  apply env_get_Some in G as (n & Hin & Hk); [|done]. exfalso.
  apply He, validate_env_name_ok in Hin as (_ & _ & Hn).
  assert (is_reserved n = is_reserved name) as Heq; [|congruence].
  unfold is_reserved. replace (to_ascii_uppercase n) with (to_ascii_uppercase name); [done|].
  unfold env_key in Hk. destruct NATIVE; [|by rewrite Hk].
  apply (f_equal to_ascii_uppercase) in Hk. unfold to_ascii_uppercase, to_ascii_lowercase in *.
  rewrite <- !list_fmap_compose in Hk. transitivity ((to_ascii_upper ∘ to_ascii_lower) <$> name).
  - apply list_fmap_ext. intros _ c _. unfold compose. chars.
  - rewrite <- Hk. apply list_fmap_ext. intros _ c _. unfold compose. chars.
Qed.

(** ** Theorems *)

(** C33: what an operator edits is what the next runner gets. From any file that parses
    (and has no doubled carriage returns), after any sequence of [host env set] and
    [unset], accepted or refused, the file written parses back to exactly the edited
    lines; and no reserved variable, in any spelling, is ever set by it. *)
Theorem env_edits_roundtrip text e ds :
  contains_str [13%N; 13%N] text = false → env_parse NATIVE text = Ok e →
  env_parse NATIVE (env_render (run_edits ds e)) = Ok (run_edits ds e) ∧
  ∀ name, is_reserved name = true → env_get NATIVE name (run_edits ds e) = None.
Proof.
  intros Ht He. apply (parse_valid _ _ Ht) in He. apply (run_edits_valid ds) in He.
  split; [by apply parse_render|]. intros name. by apply reserved_not_set, valid_named.
Qed.
End Facts.

(** A file with a comment, Windows line ends and two variables, edited twice. *)
Definition example_env_text : str :=
  lit "# caches" ++ [10%N] ++ lit "A=1" ++ [13; 10]%N ++ lit "URL=https://x/?a=b" ++ [10%N].
Definition example_edits : list env_edit :=
  [EditSet (lit "B") (lit "two"); EditUnset (lit "A"); EditSet (lit "tmp") (lit "refused")].

Lemma env_edits_roundtrip_witness :
  ∃ e, env_parse PUnix example_env_text = Ok e ∧
    env_parse PUnix (env_render (run_edits PUnix example_edits e)) = Ok (run_edits PUnix example_edits e) ∧
    env_get PUnix (lit "B") (run_edits PUnix example_edits e) = Some (lit "two") ∧
    env_get PUnix (lit "TMPDIR") (run_edits PUnix example_edits e) = None.
Proof.
  eexists. split; [vm_compute; reflexivity|]. split_and!; [|by vm_compute|].
  - eapply (env_edits_roundtrip PUnix example_env_text); by vm_compute.
  - eapply (env_edits_roundtrip PUnix example_env_text); by vm_compute.
Defined.
