(* ===== verification/Process.v ===== *)
(** * Processes and the secret handoff ([crates/platform/src/process.rs])

    A process is known by its PID and its start token, so that a recycled PID is never
    mistaken for it. This file holds the identities, the children of this program, the
    file that hands a secret to one, and the system calls they use as effects. *)

From stdpp Require Import strings.
From S2P Require Import Prelude RustStr Ordered Model Path Workspace Execution Host Attempt.
From S2P Require Import Github Backoff Effects Ports Slots RunnerEnv.
#[local] Open Scope Z_scope.
#[local] Open Scope rust_scope.

(** ** Identities *)

Record ProcessIdentity := mk_identity { pi_pid : Z (* u32 *); pi_start_token : str }.
#[global] Instance ProcessIdentity_eq_dec : EqDecision ProcessIdentity.
Proof. solve_decision. Defined.
Definition EXITED_BEFORE_IDENTIFIED : str := lit "exited-before-identified".

Inductive Adoption := AdoptLive | AdoptGone | AdoptPidRecycled (current : ProcessIdentity).
Inductive Termination :=
  | Terminated
  | AlreadyGone
  | RefusedPidRecycled (current : ProcessIdentity).
Inductive LivenessFilter := LiveOnly | IncludeExited.
#[global] Instance LivenessFilter_eq_dec : EqDecision LivenessFilter.
Proof. solve_decision. Defined.

Inductive ProcessError :=
  | NoSuchProcess (pid : Z)
  | IdentityUnreadable (pid : Z) (source : IoError)
  | SpawnFailed (program : PathBuf) (source : IoError)
  | ControlFailed (pid : Z) (source : IoError)
  | SecretInCommandLine (program : PathBuf) (location : str).

(** The adoption decision, with the operating system's answer. *)
Definition classify (i : ProcessIdentity) (observed : option str) : Adoption :=
  match observed with
  | None => AdoptGone
  | Some token =>
      if bool_decide (token = pi_start_token i) then AdoptLive
      else AdoptPidRecycled (mk_identity (pi_pid i) token)
  end.

(** ** The Linux [/proc/<pid>/stat] line *)

Record ProcStat := mk_proc_stat { ps_state : str; ps_start_ticks : str }.
(** The last closing parenthesis ends the executable's name, which may hold others. *)
Definition parse_proc_stat (stat : str) : option ProcStat :=
  match rsplit_once (lit ")") stat with
  | None => None
  | Some (_, after_comm) =>
      match split_whitespace after_comm with
      | state :: fields =>
          match fields !! 18%nat with
          | Some start_ticks => Some (mk_proc_stat state start_ticks)
          | None => None
          end
      | [] => None
      end
  end.

(** ** What to start *)

Record SpawnSpec := mk_spawn {
  ss_program : PathBuf;
  ss_args : list str;
  ss_envs : list (str * str);
  ss_working_dir : option PathBuf;
}.
Definition SpawnSpec_new (program : PathBuf) : SpawnSpec := mk_spawn program [] [] None.
Definition spec_arg (arg : str) (s : SpawnSpec) : SpawnSpec :=
  mk_spawn (ss_program s) (ss_args s ++ [arg]) (ss_envs s) (ss_working_dir s).
Definition spec_env (key value : str) (s : SpawnSpec) : SpawnSpec :=
  mk_spawn (ss_program s) (ss_args s) (ss_envs s ++ [(key, value)]) (ss_working_dir s).
Definition spec_working_dir (dir : PathBuf) (s : SpawnSpec) : SpawnSpec :=
  mk_spawn (ss_program s) (ss_args s) (ss_envs s) (Some dir).

Definition RUNNER_JIT_CONFIG_ENV : str := lit "ACTIONS_RUNNER_INPUT_JITCONFIG".

(** [os_str_contains]: on the lossy text. *)
Definition os_str_contains (haystack needle : str) : bool :=
  contains_str needle (path_display haystack).

Fixpoint exposed_arg (index : Z) (payload : str) (args : list str) : option str :=
  match args with
  | [] => None
  | arg :: args =>
      if os_str_contains arg payload then Some (lit "argument " ++ show_uint index)
      else exposed_arg (index + 1) payload args
  end.
Fixpoint exposed_env (payload : str) (envs : list (str * str)) : option str :=
  match envs with
  | [] => None
  | (key, value) :: envs =>
      if os_str_contains value payload then Some (lit "environment variable " ++ path_display key)
      else exposed_env payload envs
  end.
Definition reject_exposed_handoff (s : SpawnSpec) (payload : str) : result unit ProcessError :=
  match payload with
  | [] => Ok tt
  | _ =>
      match exposed_arg 0 payload (ss_args s) with
      | Some location => Err (SecretInCommandLine (ss_program s) location)
      | None =>
          match exposed_env payload (ss_envs s) with
          | Some location => Err (SecretInCommandLine (ss_program s) location)
          | None => Ok tt
          end
      end
  end.

(** ** System calls

    A child is named by the handle its parent holds, which no other process ever has; a
    status is whether the exit was a success. [SysPersist] is [write_durable_file] of
    [Ports]; the last group are the ports of a native launch that other files own. *)

Record ChildProcess := mk_child { ch_handle : N; ch_identity : ProcessIdentity }.
(** The state of the native provider: [children] and [successful_exits]. *)
Record NativeProcesses := mk_native {
  children : gmap AttemptId ChildProcess;
  successful_exits : gmap AttemptId bool;
}.

Inductive sys :=
  | SysPanic
  | SysNow
  | SysSleep (d : Duration)
  | SysUuid
  | SysStartToken (pid : Z) (filter : LivenessFilter)
  | SysRequestStop (pid : Z)
  | SysForceStop (pid : Z)
  | SysSpawn (s : SpawnSpec) (extra : option (str * str))
  | SysTryWait (handle : N)
  | SysWait (handle : N)
  | SysKill (handle : N)
  | SysCreateRestrictive (p : PathBuf)
  | SysWriteFile (p : PathBuf) (text : str)
  | SysRemoveFile (p : PathBuf)
  | SysIsFile (p : PathBuf)
  | SysExists (p : PathBuf)
  | SysReadToString (p : PathBuf)
  | SysCreateDirAll (p : PathBuf)
  | SysPersist (p : PathBuf) (text : str)
  | SysEnvironment
  | NativeGet
  | NativePut (n : NativeProcesses)
  (* dependency caches *)
  | CachesConfig
  | CachesForLaunch (target : ScaleTarget) (runtime : PathBuf) (host_env : RunnerEnv)
  | CachesCaptureGit (runtime : PathBuf)
  (* accounting of containers a job starts *)
  | DockerEnvironment (a : AttemptId) (repository : str) (host_env : RunnerEnv)
  | DockerApplies
  | DockerRecord (p : PathBuf) (i : ProcessIdentity).

Definition sys_answer (e : sys) : Type :=
  match e with
  | SysPanic => Empty_set
  | SysNow => Timestamp
  | SysSleep _ => unit
  | SysUuid => N
  | SysStartToken _ _ => io (option str)
  | SysRequestStop _ => io bool
  | SysForceStop _ => io unit
  | SysSpawn _ _ => io (N * Z)
  | SysTryWait _ => io (option bool)
  | SysWait _ => io bool
  | SysKill _ => io unit
  | SysCreateRestrictive _ | SysWriteFile _ _ | SysRemoveFile _ | SysCreateDirAll _
  | SysPersist _ _ => io unit
  | SysIsFile _ | SysExists _ => bool
  | SysReadToString _ => io str
  | SysEnvironment => str → option str
  | NativeGet => NativeProcesses
  | NativePut _ => unit
  | CachesConfig => result unit FailureReason
  | CachesForLaunch _ _ _ => list (str * str)
  | CachesCaptureGit _ => unit
  | DockerEnvironment _ _ _ => io (option str)
  | DockerApplies => bool
  | DockerRecord _ _ => io unit
  end.

#[global] Abbreviation sprogram := (free sys_answer) (only parsing).
#[global] Abbreviation sysop e := (@op sys sys_answer e) (only parsing).
Definition sys_panic {A} : sprogram A := Op SysPanic (λ x : Empty_set, match x with end).
Definition sys_map_err {A F G} (f : F → G) (m : sprogram (result A F)) : sprogram (result A G) :=
  r ← m; mret (map_err f r).

(** ** Identities of processes that run *)

Definition POLL_INTERVAL : Duration := 20000000.

Definition identity_read (pid : Z) (filter : LivenessFilter)
    : sprogram (result ProcessIdentity ProcessError) :=
  token ← sysop (SysStartToken pid filter);
  mret (match token with
        | Ok (Some token) => Ok (mk_identity pid token)
        | Ok None => Err (NoSuchProcess pid)
        | Err source => Err (IdentityUnreadable pid source)
        end).

(** [of_child]: a child that has already gone still gets an identity, which nothing
    matches. *)
Definition of_child (pid : Z) : sprogram (result ProcessIdentity ProcessError) :=
  found ← identity_read pid IncludeExited;
  mret (match found with
        | Err (NoSuchProcess _) => Ok (mk_identity pid EXITED_BEFORE_IDENTIFIED)
        | _ => found
        end).

Definition recheck (i : ProcessIdentity) : sprogram (result Adoption ProcessError) :=
  observed ← sysop (SysStartToken (pi_pid i) LiveOnly);
  mret (match observed with
        | Ok observed => Ok (classify i observed)
        | Err source => Err (IdentityUnreadable (pi_pid i) source)
        end).

(** Turns a loop that polls until [grace] has passed can take: the clock moves by an
    interval each time. *)
Definition polls (grace : Duration) : nat := Z.to_nat (grace / POLL_INTERVAL + 2).

(** The grace period of [terminate]; [true] when the process went. *)
Fixpoint await_gone (fuel : nat) (deadline : Timestamp) (i : ProcessIdentity)
    : sprogram (result bool ProcessError) :=
  match fuel with
  | O => sys_panic
  | S fuel =>
      now ← sysop SysNow;
      if bool_decide (deadline ≤ now) then Ret (Ok false)
      else
        adoption ←? recheck i;
        match adoption with
        | AdoptGone | AdoptPidRecycled _ => Ret (Ok true)
        | AdoptLive => _ ← sysop (SysSleep POLL_INTERVAL); await_gone fuel deadline i
        end
  end.

Definition identity_terminate (i : ProcessIdentity) (grace : Duration)
    : sprogram (result Termination ProcessError) :=
  adoption ←? recheck i;
  match adoption with
  | AdoptGone => Ret (Ok AlreadyGone)
  | AdoptPidRecycled current => Ret (Ok (RefusedPidRecycled current))
  | AdoptLive =>
      requested ←? sys_map_err (ControlFailed (pi_pid i)) (sysop (SysRequestStop (pi_pid i)));
      gone ←? (if (requested : bool) then
                 now ← sysop SysNow; await_gone (polls grace) (now + grace) i
               else Ret (Ok false));
      if (gone : bool) then Ret (Ok Terminated)
      else
        adoption ←? recheck i;
        match adoption with
        | AdoptGone => Ret (Ok AlreadyGone)
        | AdoptPidRecycled current => Ret (Ok (RefusedPidRecycled current))
        | AdoptLive =>
            _ ←? sys_map_err (ControlFailed (pi_pid i)) (sysop (SysForceStop (pi_pid i)));
            Ret (Ok Terminated)
        end
  end.

(** ** Children *)

Definition child_pid (c : ChildProcess) : Z := pi_pid (ch_identity c).

Definition try_exit_status (c : ChildProcess) : sprogram (result (option bool) ProcessError) :=
  sys_map_err (ControlFailed (child_pid c)) (sysop (SysTryWait (ch_handle c))).
Definition child_wait (c : ChildProcess) : sprogram (result bool ProcessError) :=
  sys_map_err (ControlFailed (child_pid c)) (sysop (SysWait (ch_handle c))).

Fixpoint wait_until (fuel : nat) (deadline : Timestamp) (c : ChildProcess)
    : sprogram (result (option bool) ProcessError) :=
  match fuel with
  | O => sys_panic
  | S fuel =>
      status ←? try_exit_status c;
      match status with
      | Some status => Ret (Ok (Some status))
      | None =>
          now ← sysop SysNow;
          if bool_decide (deadline ≤ now) then Ret (Ok None)
          else _ ← sysop (SysSleep POLL_INTERVAL); wait_until fuel deadline c
      end
  end.
Definition wait_for (timeout : Duration) (c : ChildProcess)
    : sprogram (result (option bool) ProcessError) :=
  now ← sysop SysNow; wait_until (polls timeout) (now + timeout) c.

Definition child_stop (grace : Duration) (c : ChildProcess) : sprogram (result bool ProcessError) :=
  status ←? try_exit_status c;
  match status with
  | Some status => Ret (Ok status)
  | None =>
      let control := ControlFailed (child_pid c) in
      requested ←? sys_map_err control (sysop (SysRequestStop (child_pid c)));
      waited ←? (if (requested : bool) then wait_for grace c else Ret (Ok None));
      match waited with
      | Some status => Ret (Ok status)
      | None =>
          _ ←? sys_map_err control (sysop (SysKill (ch_handle c)));
          child_wait c
      end
  end.

(** ** Spawning *)

(** A child that cannot be identified is killed rather than leaked. *)
Definition spawn_with_extra_env (s : SpawnSpec) (extra : option (str * str))
    : sprogram (result ChildProcess ProcessError) :=
  spawned ←? sys_map_err (SpawnFailed (ss_program s)) (sysop (SysSpawn s extra));
  let '(handle, pid) := (spawned : N * Z) in
  identified ← of_child pid;
  match identified with
  | Ok i => Ret (Ok (mk_child handle i))
  | Err error =>
      _ ← sysop (SysKill handle);
      _ ← sysop (SysWait handle);
      Ret (Err error)
  end.

Definition spawn_runner_with_handoff (s : SpawnSpec) (payload : str)
    : sprogram (result ChildProcess ProcessError) :=
  _ ←? Ret (reject_exposed_handoff s payload);
  spawn_with_extra_env s (Some (RUNNER_JIT_CONFIG_ENV, payload)).

(** ** The handoff file *)

Section Handoff.
Context (NATIVE : PathPlatform).

(** [delete_in_place] of a file not yet deleted: one that is gone is deleted. *)
Definition delete_in_place (p : PathBuf) : sprogram (io unit) :=
  removed ← sysop (SysRemoveFile p);
  mret (match removed with
        | Err source => if bool_decide (io_kind source = IoNotFound) then Ok tt else removed
        | Ok _ => removed
        end).

(** [Drop]: a failure is only logged. *)
Definition handoff_drop (p : PathBuf) : sprogram unit := _ ← delete_in_place p; mret tt.

(** [delete] consumes the handoff: when it fails, [Drop] tries once more. *)
Definition handoff_delete (p : PathBuf) : sprogram (io unit) :=
  deleted ← delete_in_place p;
  match deleted with
  | Ok _ => mret deleted
  | Err _ => _ ← handoff_drop p; mret deleted
  end.

Definition handoff_name (id : N) : str := HANDOFF_NAME_PREFIX ++ show_uuid id ++ lit ".tmp".

Definition handoff_create (directory : PathBuf) (payload : str) : sprogram (io PathBuf) :=
  id ← sysop SysUuid;
  let p := path_join NATIVE directory (handoff_name id) in
  _ ←? sysop (SysCreateRestrictive p);
  written ← sysop (SysWriteFile p payload);
  match written with
  | Ok _ => mret (Ok p)
  | Err source => _ ← handoff_drop p; mret (Err source)
  end.
End Handoff.
