(* ===== verification/Fence.v ===== *)
(** * The launch fence of a managed WSL guest
    ([crates/platform/src/wsl/fence.rs], [wsl/recovery.rs], [crates/agent/src/reconcile.rs],
    [crates/app/src/cli/wsl_watchdog.rs], [cli/daemon.rs])

    A runner launch inside the guest and its recovery from Windows exclude each other by
    a directory both try to create. Here: the claims and their reclamation, the guest's
    allocation lock, the guest's heartbeat, and the Windows watchdog with the decision to
    terminate the distribution. Files of the shared directory hold a value or cannot be
    read; the calls are those of one root and one distribution. *)

From stdpp Require Import strings.
From S2P Require Import Prelude RustStr Ordered Model Path Workspace Execution Host Attempt.
From S2P Require Import Labels Policy Github Effects Process.
#[local] Open Scope Z_scope.
#[local] Open Scope rust_scope.

(** ** Records of the shared directory *)

Definition FENCE_SCHEMA_VERSION : Z := 1.
Definition RELEASE_ATTEMPTS : nat := 3.
Definition RELEASE_RETRY_DELAY : Duration := 50 * 1000000.
Definition OWNERLESS_CLAIM_GRACE : Duration := seconds (5 * 60).

Inductive FenceError :=
  | FenceIo (operation : str)
  | FenceDecode
  | FenceSchema (found : Z).

Record GuestRecoveryConfig := mk_guest_config { gc_schema_version : Z; shared_root : str }.
Record DrainRequest := mk_drain { dr_generation : Z; dr_requested_at : Timestamp }.
Record GuestHeartbeat := mk_heartbeat {
  hb_observed_at : Timestamp;
  hb_acknowledged_generation : option Z;
  hb_local_active_attempts : option Z;
  hb_local_busy_attempts : option Z;
  hb_managed_targets : list ScaleTarget;
  hb_unmanaged_runner_services : option Z;
}.
Inductive RecoveryPhase := PhaseHealthy | PhaseDegraded | PhaseDraining | PhaseRecovering | PhaseBackoff | PhaseRecoveryBlocked.
Record RecoveryStatus := mk_status {
  st_observed_at : Timestamp;
  st_phase : RecoveryPhase;
  st_consecutive_probe_failures : Z;
  st_reason : option str;
  st_last_recovered_at : option Timestamp;
}.

Inductive FenceOwnerKind := GuestLaunch | WindowsRecovery.
#[global] Instance FenceOwnerKind_eq_dec : EqDecision FenceOwnerKind.
Proof. solve_decision. Defined.
Record FenceOwner := mk_owner {
  fo_kind : FenceOwnerKind;
  fo_generation : option Z;
  fo_process_id : Z;
  fo_acquired_at : Timestamp;
  fo_identity : option ProcessIdentity;
}.
#[global] Instance FenceOwner_eq_dec : EqDecision FenceOwner.
Proof. solve_decision. Defined.

(** A time in the future is not elapsed. *)
Definition elapsed_at_least (since now : Timestamp) (limit : Duration) : bool :=
  bool_decide (0 ≤ now - since) && bool_decide (limit ≤ now - since).

(** ** Calls *)

Inductive MkDir := Created | AlreadyExists | MkDirFailed.

(** Why a launch was refused ([launch_health.rs]). *)
Inductive BlockCause :=
  | FenceHeld (owner : option FenceOwner)
  | FenceOwnerUnreadable (e : FenceError)
  | DrainRequested
  | FenceUnusable (e : FenceError)
  | AllocationLockBusy.

Record Streak := mk_streak { sk_since : Timestamp; sk_latest : Timestamp; sk_count : Z }.
Record Refusals := mk_refusals { streak : option Streak; recorded : bool }.

(** One managed runner, as the inventory lists it, and the listing. *)
Record InventoryRunner := mk_inv_runner { ir_name : str; ir_busy : bool; ir_online : bool }.
Record RunnerListing := mk_runner_listing { rl_runners : list InventoryRunner; rl_truncated : bool; rl_missing : bool }.

Inductive wcall :=
  (* the shared directory *)
  | WCreateRoot | WCreateFence | WWriteOwner (o : FenceOwner) | WReadOwner | WRemoveFence | WFenceModified
  | WReadRequest | WWriteRequest (r : DrainRequest) | WRemoveRequest
  | WWriteStatus (s : RecoveryStatus) | WRemoveStatus
  | WReadHeartbeat | WWriteHeartbeat (h : GuestHeartbeat)
  (* the clocks and the processes of this side *)
  | WNow | WInstant | WPid | WIdentity
  | WRecheck (i : ProcessIdentity) | WPidAlive (pid : Z) | WBootTime | WProcessStarted | WSleep (d : Duration)
  (* HELD_HERE: its mutex, and whether it has this root's key *)
  | WHeldLock | WHeldUnlock | WHeld | WSetHeld (b : bool)
  (* the guest *)
  | WReadConfig | WInnerLock | WInnerUnlock | WInFlight | WSetInFlight (d : Z)
  | WRefusals (f : Refusals → Refusals)   (* one access under its lock: what it is now *)
  | WRecordBlocked (c : BlockCause) (since now : Timestamp) | WClearBlocked
  | WLaunch | WAttempts | WPolicies | WUnmanagedServices
  (* Windows *)
  | WRecord | WHost | WTaskOwned | WIsWsl2 | WProbe | WInventory (t : ScaleTarget) | WTerminate | WStartTask.

Definition wanswer (e : wcall) : Type :=
  match e with
  | WCreateFence => MkDir
  | WCreateRoot | WWriteOwner _ | WRemoveFence | WWriteRequest _ | WRemoveRequest | WWriteStatus _
  | WRemoveStatus | WWriteHeartbeat _ | WRecordBlocked _ _ _ | WClearBlocked => result unit FenceError
  | WReadOwner => result (option FenceOwner) FenceError
  | WFenceModified => result (option Timestamp) FenceError
  | WReadRequest => result (option DrainRequest) FenceError
  | WReadHeartbeat => result (option GuestHeartbeat) FenceError
  | WReadConfig => result (option GuestRecoveryConfig) FenceError
  | WNow | WInstant | WProcessStarted => Timestamp
  | WPid | WInFlight => Z
  | WIdentity => option ProcessIdentity
  | WRecheck _ => option Adoption
  | WPidAlive _ => option bool
  | WBootTime => option Timestamp
  | WRecord => result bool FenceError
  | WHost | WHeld | WInnerLock | WTaskOwned | WIsWsl2 | WProbe | WTerminate => bool
  | WRefusals _ => Refusals
  | WAttempts => option (list RunnerAttempt)
  | WPolicies => option (list ScaleTarget)
  | WUnmanagedServices => option Z
  | WInventory _ => option RunnerListing
  | _ => unit
  end.
#[global] Abbreviation wprogram := (free wanswer) (only parsing).
#[global] Abbreviation wop e := (@op wcall wanswer e) (only parsing).
Definition ignore {A F} (m : wprogram (result A F)) : wprogram unit := _ ← m; mret tt.

(** ** Claims *)

(** [remove_claim]: what is not there is removed. *)
Definition remove_claim : wprogram (result unit FenceError) := wop WRemoveFence.

(** [FenceClaim::try_claim]: [true] is a claim. *)
Definition try_claim (kind : FenceOwnerKind) (generation : option Z) : wprogram (result bool FenceError) :=
  _ ←? wop WCreateRoot;
  made ← wop WCreateFence;
  match made with
  | AlreadyExists => Ret (Ok false)
  | MkDirFailed => Ret (Err (FenceIo (lit "claim")))
  | Created =>
      pid ← wop WPid;
      now ← wop WNow;
      identity ← wop WIdentity;
      written ← wop (WWriteOwner (mk_owner kind generation pid now identity));
      match written with
      | Err e => _ ← ignore remove_claim; Ret (Err e)
      | Ok _ => Ret (Ok true)
      end
  end.

Inductive StaleGuestClaim := OwnerExited | EarlierBoot | WrittenBeforeThisDaemon | ReleaseFailed | OwnerNeverRecorded.

(** [stale_guest_owner], with [?] on an unknown answer. *)
Definition stale_guest_owner (o : FenceOwner) : wprogram (option StaleGuestClaim) :=
  if negb (bool_decide (fo_kind o = GuestLaunch)) then mret None
  else
    current ← wop WIdentity;
    match fo_identity o with
    | Some i =>
        if bool_decide (current = Some i) then mret (Some ReleaseFailed)
        else
          adoption ← wop (WRecheck i);
          mret (match adoption with
                | None | Some AdoptLive => None
                | Some AdoptGone | Some (AdoptPidRecycled _) => Some OwnerExited
                end)
    | None =>
        booted ← wop WBootTime;
        if from_option (λ b, bool_decide (fo_acquired_at o < b)) false booted then mret (Some EarlierBoot)
        else
          started ← wop WProcessStarted;
          if bool_decide (fo_acquired_at o < started) then mret (Some WrittenBeforeThisDaemon)
          else if from_option (λ me, bool_decide (pi_pid me = fo_process_id o)) false current
          then mret (Some ReleaseFailed)
          else
            alive ← wop (WPidAlive (fo_process_id o));
            mret (match alive with Some false => Some OwnerExited | _ => None end)
    end.

(** [reclaim_unheld]. *)
Definition reclaim_unheld (now : Timestamp)
    : wprogram (result (option (StaleGuestClaim * option FenceOwner)) FenceError) :=
  owner ←? wop WReadOwner;
  match owner with
  | None =>
      modified ←? wop WFenceModified;
      if negb (from_option (λ m, elapsed_at_least m now OWNERLESS_CLAIM_GRACE) false modified) then Ret (Ok None)
      else
        again ←? wop WReadOwner;
        match again with
        | Some _ => Ret (Ok None)
        | None => _ ←? remove_claim; Ret (Ok (Some (OwnerNeverRecorded, None)))
        end
  | Some o =>
      stale ← stale_guest_owner o;
      match stale with
      | None => Ret (Ok None)
      | Some reason =>
          again ←? wop WReadOwner;
          if negb (bool_decide (again = Some o)) then Ret (Ok None)
          else _ ←? remove_claim; Ret (Ok (Some (reason, Some o)))
      end
  end.

(** Work under [HELD_HERE]'s mutex. *)
Definition under_held {A} (m : wprogram A) : wprogram A :=
  _ ← wop WHeldLock; x ← m; _ ← wop WHeldUnlock; mret x.

(** [try_claim_guest_launch]: [true] is [Claimed], [false] is [Busy]. *)
Definition claim_or_reclaim (now : Timestamp) : wprogram (result bool FenceError) :=
  held ← wop WHeld;
  if (held : bool) then Ret (Ok false)
  else
    claimed ←? try_claim GuestLaunch None;
    claimed ←? (if (claimed : bool) then Ret (Ok true)
                else
                  reclaimed ←? reclaim_unheld now;
                  match reclaimed with
                  | Some _ => try_claim GuestLaunch None
                  | None => Ret (Ok false)
                  end);
    if (claimed : bool) then _ ← wop (WSetHeld true); Ret (Ok true) else Ret (Ok false).
Definition try_claim_guest_launch : wprogram (result bool FenceError) :=
  now ← wop WNow;
  _ ←? wop WCreateRoot;
  under_held (claim_or_reclaim now).

Definition reclaim_stale_guest_claim : wprogram (result (option (StaleGuestClaim * option FenceOwner)) FenceError) :=
  now ← wop WNow;
  under_held (held ← wop WHeld; if (held : bool) then Ret (Ok None) else reclaim_unheld now).

(** [release_now]: the removal is tried three times. *)
Fixpoint remove_retrying (attempts : nat) (attempt : Z) : wprogram (result unit FenceError) :=
  match attempts with
  | O => Ret (Ok tt)
  | S attempts =>
      r ← remove_claim;
      if is_ok r || bool_decide (attempts = 0)%nat then mret r
      else _ ← wop (WSleep (RELEASE_RETRY_DELAY * attempt)); remove_retrying attempts (attempt + 1)
  end.
Definition release_guest_launch : wprogram (result unit FenceError) :=
  under_held (_ ← wop (WSetHeld false); remove_retrying RELEASE_ATTEMPTS 1).

(** ** Recovery coordination of Windows *)

Definition is_recovery_of (generation : Z) (o : FenceOwner) : bool :=
  bool_decide (fo_kind o = WindowsRecovery) && bool_decide (fo_generation o = Some generation).

Definition clear_recovery (generation : Z) : wprogram (result unit FenceError) :=
  owner ←? wop WReadOwner;
  _ ←? (if from_option (is_recovery_of generation) false owner then remove_claim else Ret (Ok tt));
  request ←? wop WReadRequest;
  if from_option (λ r, negb (bool_decide (dr_generation r = generation))) false request then Ret (Ok tt)
  else wop WRemoveRequest.

Definition retire_windows_recovery : wprogram (result unit FenceError) :=
  owner ←? wop WReadOwner;
  let generation := o ← owner; if bool_decide (fo_kind o = WindowsRecovery) then fo_generation o else None in
  _ ←? (match generation with Some g => clear_recovery g | None => Ret (Ok tt) end);
  request ←? wop WReadRequest;
  _ ←? (match request with Some r => clear_recovery (dr_generation r) | None => Ret (Ok tt) end);
  wop WRemoveStatus.

Definition retire_abandoned_windows_recovery (now : Timestamp) (abandoned_after : Duration)
    : wprogram (result bool FenceError) :=
  let abandoned t := elapsed_at_least t now abandoned_after in
  request ←? wop WReadRequest;
  if from_option (λ r, negb (abandoned (dr_requested_at r))) false request then Ret (Ok false)
  else
    owner ←? wop WReadOwner;
    let windows_owner := o ← owner; if bool_decide (fo_kind o = WindowsRecovery) then Some o else None in
    if from_option (λ o, negb (abandoned (fo_acquired_at o))) false windows_owner then Ret (Ok false)
    else match request, windows_owner with
    | None, None => Ret (Ok false)
    | _, _ => _ ←? retire_windows_recovery; Ret (Ok true)
    end.

(** ** The guest's allocation lock *)

Definition BLOCKED_AFTER_DEFERRALS : Z := 5.
Definition BLOCKED_AFTER : Duration := seconds (5 * 60).

Definition note_granted : wprogram unit :=
  r ← wop (WRefusals (λ r, mk_refusals None (recorded r)));
  if recorded r then
    cleared ← wop WClearBlocked;
    match cleared with
    | Ok _ => _ ← wop (WRefusals (λ r, mk_refusals (streak r) false)); mret tt
    | Err _ => mret tt
    end
  else mret tt.

(** The run of refusals a refusal at [now] continues, or begins. *)
Definition next_streak (now : Timestamp) (s : option Streak) : Streak :=
  match s with
  | Some s => if negb (elapsed_at_least (sk_latest s) now BLOCKED_AFTER)
              then mk_streak (sk_since s) now (sat_add U32_MAX (sk_count s) 1) else mk_streak now now 1
  | None => mk_streak now now 1
  end.
Definition note_refused (cause : BlockCause) : wprogram unit :=
  launching ← wop WInFlight;
  if bool_decide (0 < launching) then mret tt
  else
    now ← wop WNow;
    r ← wop (WRefusals (λ r, mk_refusals (Some (next_streak now (streak r))) (recorded r)));
    match streak r with
    | None => mret tt
    | Some s =>
        if bool_decide (sk_count s < BLOCKED_AFTER_DEFERRALS) || negb (elapsed_at_least (sk_since s) now BLOCKED_AFTER)
        then mret tt
        else
          written ← wop (WRecordBlocked cause (sk_since s) now);
          match written with
          | Ok _ => _ ← wop (WRefusals (λ r, mk_refusals (streak r) true)); mret tt
          | Err _ => mret tt
          end
    end.

(** The part of [acquire] that claims the fence: whether there is a claim to release. *)
Definition claim_fence : wprogram (result bool BlockCause) :=
  config ← wop WReadConfig;
  match config with
  | Err e => Ret (Err (FenceUnusable e))
  | Ok None => Ret (Ok false)
  | Ok (Some _) =>
      claimed ← try_claim_guest_launch;
      match claimed with
      | Ok true =>
          request ← wop WReadRequest;
          match request with
          | Ok None => Ret (Ok true)
          | Ok (Some _) => _ ← ignore release_guest_launch; Ret (Err DrainRequested)
          | Err e => _ ← ignore release_guest_launch; Ret (Err (FenceUnusable e))
          end
      | Ok false =>
          owner ← wop WReadOwner;
          Ret (Err (match owner with Ok o => FenceHeld o | Err e => FenceOwnerUnreadable e end))
      | Err e =>
          owner ← wop WReadOwner;
          Ret (Err (match owner with Ok _ => FenceUnusable e | Err e' => FenceOwnerUnreadable e' end))
      end
  end.
Definition release_fence (claimed : bool) : wprogram unit :=
  if claimed then ignore release_guest_launch else mret tt.

(** [WslRecoveryAllocationLock::acquire], a launch under it, and the guard's drop. *)
Definition launch_fenced : wprogram bool :=
  claim ← claim_fence;
  match claim with
  | Err cause => _ ← note_refused cause; mret false
  | Ok claimed =>
      inner ← wop WInnerLock;
      if negb inner then
        _ ← note_refused AllocationLockBusy; _ ← release_fence claimed; mret false
      else
        _ ← note_granted;
        _ ← wop (WSetInFlight 1);
        _ ← wop WLaunch;
        _ ← release_fence claimed;
        _ ← wop WInnerUnlock;
        _ ← wop (WSetInFlight (-1));
        mret true
  end.

(** ** The guest's heartbeat *)

(** One turn of [maintain_wsl_guest_heartbeat]. *)
Definition guest_heartbeat : wprogram unit :=
  config ← wop WReadConfig;
  match config with
  | Ok (Some _) =>
      request ← wop WReadRequest;
      attempts ← wop WAttempts;
      policies ← wop WPolicies;
      now ← wop WNow;
      services ← wop WUnmanagedServices;
      ignore (wop (WWriteHeartbeat (mk_heartbeat now
        (match request with Ok (Some r) => Some (dr_generation r) | _ => None end)
        (active_count <$> attempts)
        ((λ l, Z.of_nat (length (List.filter (λ a, bool_decide (state a = Busy)) l))) <$> attempts)
        (default [] (foldl (λ s t, (set_insert t s).1) [] <$> policies))
        services)))
  | _ => mret tt
  end.

(** ** The decision ([recovery.rs]) *)

Record RecoveryEvidence := mk_evidence_of {
  consecutive_probe_failures : Z;
  failure_span : option Duration;
  failure_is_recoverable : bool;
  drain_generation : Z;
  acknowledged_generation : option Z;
  heartbeat_age : option Duration;
  local_active_attempts : option Z;
  local_busy_attempts : option Z;
  consecutive_zero_attempt_heartbeats : Z;
  consecutive_no_busy_heartbeats : Z;
  managed_busy_runners : option Z;
  managed_online_registrations : option Z;
  consecutive_zero_inventory_reads : Z;
  unmanaged_runner_services : option Z;
  task_is_product_owned : bool;
  distribution_is_wsl2 : bool;
  inventory_authorized : bool;
  recovery_fence_held : bool;
  circuit_open : bool;
}.
Inductive RecoveryDecision := Observe | RequestDrain | TerminateNamed | Blocked (reason : str).

Definition FAILURE_THRESHOLD : Z := 3.
Definition MINIMUM_FAILURE_SPAN : Duration := seconds (5 * 60).
Definition MAX_HEARTBEAT_AGE : Duration := seconds 30.

(** The last checks: what GitHub lists. *)
Definition decide_inventory (e : RecoveryEvidence) : RecoveryDecision :=
  match managed_busy_runners e, managed_online_registrations e with
  | Some busy, online =>
      if bool_decide (busy = 0) then
        match online with
        | Some online =>
            if bool_decide (online = 0) then
              if bool_decide (2 ≤ consecutive_zero_inventory_reads e) then TerminateNamed
              else Blocked (lit "empty GitHub inventory has not been confirmed twice")
            else Blocked (lit "GitHub reports an online managed runner")
        | None => Blocked (lit "the GitHub runner inventory is unknown")
        end
      else Blocked (lit "GitHub reports a busy managed runner")
  | None, _ => Blocked (lit "the GitHub runner inventory is unknown")
  end.
(** ... what the guest says of itself ... *)
Definition decide_guest (e : RecoveryEvidence) : RecoveryDecision :=
  match local_active_attempts e with
  | None => Blocked (lit "the guest attempt count is unknown")
  | Some active =>
      match local_busy_attempts e with
      | None => Blocked (lit "the guest busy-attempt count is unknown")
      | Some busy =>
          if negb (bool_decide (busy = 0)) then Blocked (lit "the guest owns a busy attempt")
          else if bool_decide (active = 0) then
            if bool_decide (consecutive_zero_attempt_heartbeats e < 2)
            then Blocked (lit "idle guest state has not been confirmed twice")
            else decide_inventory e
          else if bool_decide (consecutive_no_busy_heartbeats e < 2)
          then Blocked (lit "the guest's active but non-busy attempts have not been confirmed twice")
          else decide_inventory e
      end
  end.
(** ... and what Windows may do at all. *)
Definition decide_recovery_of (e : RecoveryEvidence) : RecoveryDecision :=
  if circuit_open e then Blocked (lit "the recovery circuit is open")
  else if bool_decide (consecutive_probe_failures e < FAILURE_THRESHOLD) then Observe
  else if negb (failure_is_recoverable e)
  then Blocked (lit "the failure is not a recoverable WSL transport failure")
  else match failure_span e with
  | None => Blocked (lit "the probe failure window is unknown")
  | Some span =>
      if bool_decide (span < MINIMUM_FAILURE_SPAN) then Observe
      else if negb (task_is_product_owned e) then Blocked (lit "the lifecycle task is not product-owned")
      else if negb (distribution_is_wsl2 e) then Blocked (lit "the distribution is not verified as WSL2")
      else if negb (inventory_authorized e) then Blocked (lit "GitHub runner inventory is not authorized")
      else if negb (recovery_fence_held e) then Blocked (lit "the recovery fence is not held")
      else match unmanaged_runner_services e with
      | None => Blocked (lit "the unmanaged-runner audit is unknown")
      | Some unmanaged =>
          if negb (bool_decide (unmanaged = 0)) then Blocked (lit "an unmanaged runner service exists")
          else match heartbeat_age e with
          | None => Blocked (lit "the guest heartbeat is missing")
          | Some age =>
              if bool_decide (MAX_HEARTBEAT_AGE < age) then Blocked (lit "the guest heartbeat is stale")
              else if negb (bool_decide (acknowledged_generation e = Some (drain_generation e))) then RequestDrain
              else decide_guest e
          end
      end
  end.

(** ** The watchdog ([wsl_watchdog.rs]) *)

Definition WATCH_INTERVAL : Duration := seconds 10.
Definition CIRCUIT_WINDOW : Duration := seconds (60 * 60).
Definition CIRCUIT_LIMIT : Z := 3.
Definition ABANDONED_RECOVERY_AFTER : Duration := seconds (5 * 60).
Definition U8_MAX : Z := 255.

Record Tracker := mk_tracker {
  tk_failures : Z;                     (* u8 *)
  tk_first_failure : option Timestamp; (* Instant *)
  tk_generation : option Z;
  tk_fence_held : bool;
  tk_last_heartbeat : option Timestamp;
  tk_zero_heartbeats : Z;              (* u8 *)
  tk_no_busy_heartbeats : Z;           (* u8 *)
  tk_zero_inventory_reads : Z;         (* u8 *)
  tk_recovery_attempts : list Timestamp;
  tk_last_recovered_at : option Timestamp;
}.
Definition Tracker_default : Tracker := mk_tracker 0 None None false None 0 0 0 [] None.

Definition publish (t : Tracker) (phase : RecoveryPhase) (reason : option str) : wprogram unit :=
  now ← wop WNow;
  ignore (wop (WWriteStatus (mk_status now phase (tk_failures t) reason (tk_last_recovered_at t)))).

(** The counters after a healthy probe or a recovery. *)
Definition calmed (generation : option Z) (recovered : option Timestamp) (t : Tracker) : Tracker :=
  mk_tracker 0 None generation false (tk_last_heartbeat t) 0 0 0 (tk_recovery_attempts t) recovered.

Definition update_guest_quiescence (h : option GuestHeartbeat) (generation : Z) (t : Tracker) : Tracker :=
  match h with
  | None => mk_tracker (tk_failures t) (tk_first_failure t) (tk_generation t) (tk_fence_held t)
              (tk_last_heartbeat t) 0 (tk_no_busy_heartbeats t) (tk_zero_inventory_reads t)
              (tk_recovery_attempts t) (tk_last_recovered_at t)
  | Some h =>
      if bool_decide (tk_last_heartbeat t = Some (hb_observed_at h)) then t
      else
        let acknowledged := bool_decide (hb_acknowledged_generation h = Some generation) in
        mk_tracker (tk_failures t) (tk_first_failure t) (tk_generation t) (tk_fence_held t)
          (Some (hb_observed_at h))
          (if acknowledged && bool_decide (hb_local_active_attempts h = Some 0)
           then sat_add U8_MAX (tk_zero_heartbeats t) 1 else 0)
          (if acknowledged && bool_decide (hb_local_busy_attempts h = Some 0)
           then sat_add U8_MAX (tk_no_busy_heartbeats t) 1 else 0)
          (tk_zero_inventory_reads t) (tk_recovery_attempts t) (tk_last_recovered_at t)
  end.

Definition b2z (b : bool) : Z := if b then 1 else 0.
(** The busy and the online managed runners of the targets the guest names. *)
Definition count_managed (l : RunnerListing) (acc : Z * Z) : Z * Z :=
  fold_left (λ acc r, if starts_with (lit "runner-manager-") (ir_name r)
                      then (sat_add U32_MAX acc.1 (b2z (ir_busy r)), sat_add U32_MAX acc.2 (b2z (ir_online r)))
                      else acc) (rl_runners l) acc.
Fixpoint github_inventory (targets : list ScaleTarget) (acc : Z * Z) : wprogram (option (Z * Z)) :=
  match targets with
  | [] => mret (Some acc)
  | t :: targets =>
      listing ← wop (WInventory t);
      match listing with
      | None => mret None
      | Some l => if rl_truncated l || rl_missing l then mret None
                  else github_inventory targets (count_managed l acc)
      end
  end.

(** The probes after a restart, each after its delay. *)
Fixpoint await_healthy (delays : list Z) : wprogram bool :=
  match delays with
  | [] => mret false
  | d :: delays =>
      _ ← wop (WSleep (seconds d));
      healthy ← wop WProbe;
      if (healthy : bool) then mret true else await_healthy delays
  end.
Definition recover_named : wprogram bool :=
  terminated ← wop WTerminate;
  if negb terminated then mret false
  else
    _ ← wop (WSleep (seconds 2));
    _ ← wop WStartTask;
    await_healthy [2; 4; 8; 16; 30; 30].

Definition generation_now (now : Timestamp) : Z := Z.max 1 (now / 1000000).

(** [expire_circuit]: old attempts leave from the front. *)
Fixpoint expire_circuit (now : Timestamp) (l : list Timestamp) : list Timestamp :=
  match l with
  | t :: l' => if bool_decide (CIRCUIT_WINDOW < now - t) then expire_circuit now l' else l
  | [] => []
  end.

Definition with_fence (held : bool) (t : Tracker) : Tracker :=
  mk_tracker (tk_failures t) (tk_first_failure t) (tk_generation t) held (tk_last_heartbeat t)
    (tk_zero_heartbeats t) (tk_no_busy_heartbeats t) (tk_zero_inventory_reads t)
    (tk_recovery_attempts t) (tk_last_recovered_at t).
Definition with_inventory_reads (n : Z) (t : Tracker) : Tracker :=
  mk_tracker (tk_failures t) (tk_first_failure t) (tk_generation t) (tk_fence_held t) (tk_last_heartbeat t)
    (tk_zero_heartbeats t) (tk_no_busy_heartbeats t) n (tk_recovery_attempts t) (tk_last_recovered_at t).
Definition with_attempts (l : list Timestamp) (t : Tracker) : Tracker :=
  mk_tracker (tk_failures t) (tk_first_failure t) (tk_generation t) (tk_fence_held t) (tk_last_heartbeat t)
    (tk_zero_heartbeats t) (tk_no_busy_heartbeats t) (tk_zero_inventory_reads t) l (tk_last_recovered_at t).

(** The claim of an unhealthy turn: whether the recovery of [generation] has the fence. *)
Definition claim_recovery (generation : Z) (held : bool) : wprogram bool :=
  if held then mret true
  else
    claimed ← try_claim WindowsRecovery (Some generation);
    match claimed with
    | Ok true => mret true
    | Ok false =>
        owner ← wop WReadOwner;
        mret (match owner with Ok (Some o) => is_recovery_of generation o | _ => false end)
    | Err _ => mret held
    end.

(** The healthy branch of [observe]. *)
Definition observe_healthy (t : Tracker) : wprogram Tracker :=
  _ ← (match tk_generation t with Some g => ignore (clear_recovery g) | None => mret tt end);
  now ← wop WNow;
  _ ← ignore (retire_abandoned_windows_recovery now ABANDONED_RECOVERY_AFTER);
  let t := calmed None (tk_last_recovered_at t) t in
  _ ← publish t PhaseHealthy None;
  mret t.

(** The empty listings in a row. *)
Definition count_inventory (counts : option (Z * Z)) (t : Tracker) : Tracker :=
  with_inventory_reads
    (match counts with
     | Some (busy, online) =>
         if bool_decide (busy = 0) && bool_decide (online = 0)
         then sat_add U8_MAX (tk_zero_inventory_reads t) 1 else 0
     | None => 0
     end) t.
(** What GitHub lists of the guest's runners. *)
Definition read_inventory (heartbeat : option GuestHeartbeat) (t : Tracker)
    : wprogram (option (Z * Z) * Tracker) :=
  match heartbeat with
  | None => mret (None, t)
  | Some h =>
      counts ← github_inventory (hb_managed_targets h) (0, 0);
      mret (counts, count_inventory counts t)
  end.

Definition evidence_of (t : Tracker) (generation : Z) (span : Duration) (owned wsl2 : bool)
    (heartbeat : option GuestHeartbeat) (counts : option (Z * Z)) (now : Timestamp) : RecoveryEvidence :=
  mk_evidence_of (tk_failures t) (Some span) true generation
    (h ← heartbeat; hb_acknowledged_generation h)
    (h ← heartbeat; if bool_decide (0 ≤ now - hb_observed_at h) then Some (now - hb_observed_at h) else None)
    (h ← heartbeat; hb_local_active_attempts h) (h ← heartbeat; hb_local_busy_attempts h)
    (tk_zero_heartbeats t) (tk_no_busy_heartbeats t) (fst <$> counts) (snd <$> counts)
    (tk_zero_inventory_reads t) (h ← heartbeat; hb_unmanaged_runner_services h)
    owned wsl2 (bool_decide (is_Some counts)) (tk_fence_held t)
    (bool_decide (CIRCUIT_LIMIT ≤ Z.of_nat (length (tk_recovery_attempts t)))).

(** The end of an unhealthy turn. *)
Definition act_on (generation : Z) (d : RecoveryDecision) (t : Tracker) : wprogram Tracker :=
  match d with
  | Observe => _ ← publish t PhaseDegraded (Some (lit "waiting for the bounded failure threshold")); mret t
  | RequestDrain => _ ← publish t PhaseDraining (Some (lit "waiting for the guest drain acknowledgement")); mret t
  | Blocked reason => _ ← publish t PhaseRecoveryBlocked (Some reason); mret t
  | TerminateNamed =>
      _ ← publish t PhaseRecovering None;
      at_ ← wop WInstant;
      let t := with_attempts (tk_recovery_attempts t ++ [at_]) t in
      recovered ← recover_named;
      if (recovered : bool) then
        _ ← ignore (clear_recovery generation);
        now ← wop WNow;
        let t := calmed None (Some now) t in
        _ ← publish t PhaseHealthy None;
        mret t
      else
        _ ← publish t PhaseBackoff (Some (lit "the named distribution did not become healthy after recovery"));
        mret t
  end.

(** ... after the drain request is written. *)
Definition judge (owned wsl2 : bool) (generation : Z) (first : Timestamp) (t : Tracker) : wprogram Tracker :=
  held ← claim_recovery generation (tk_fence_held t);
  read ← wop WReadHeartbeat;
  let heartbeat := match read with Ok h => h | Err _ => None end in
  counted ← read_inventory heartbeat (update_guest_quiescence heartbeat generation (with_fence held t));
  now ← wop WNow;
  instant ← wop WInstant;
  let t := with_attempts (expire_circuit instant (tk_recovery_attempts counted.2)) counted.2 in
  elapsed ← wop WInstant;
  act_on generation (decide_recovery_of (evidence_of t generation (elapsed - first) owned wsl2 heartbeat counted.1 now)) t.

Definition observe_unhealthy (owned wsl2 : bool) (t : Tracker) : wprogram Tracker :=
  first ← (match tk_first_failure t with Some i => mret i | None => wop WInstant end);
  generation ← (match tk_generation t with Some g => mret g | None => now ← wop WNow; mret (generation_now now) end);
  let t := mk_tracker (sat_add U8_MAX (tk_failures t) 1) (Some first) (Some generation) (tk_fence_held t)
             (tk_last_heartbeat t) (tk_zero_heartbeats t) (tk_no_busy_heartbeats t)
             (tk_zero_inventory_reads t) (tk_recovery_attempts t) (tk_last_recovered_at t) in
  now ← wop WNow;
  written ← wop (WWriteRequest (mk_drain generation now));
  match written with
  | Err _ => _ ← publish t PhaseRecoveryBlocked (Some (lit "the drain request cannot be written")); mret t
  | Ok _ => judge owned wsl2 generation first t
  end.

Definition observe (t : Tracker) : wprogram Tracker :=
  host ← wop WHost;
  if negb host then mret t
  else
    owned ← wop WTaskOwned;
    wsl2 ← wop WIsWsl2;
    healthy ← wop WProbe;
    if (healthy : bool) then observe_healthy t else observe_unhealthy owned wsl2 t.

(** [n] turns of [maintain_distribution]. *)
Fixpoint maintain_distribution (n : nat) (t : Tracker) : wprogram Tracker :=
  match n with
  | O => mret t
  | S n =>
      record ← wop WRecord;
      t ← (match record with
           | Ok true => observe t
           | Ok false =>
               _ ← publish t PhaseRecoveryBlocked (Some (lit "the managed WSL provider record is missing"));
               mret t
           | Err _ => mret t
           end);
      _ ← wop (WSleep WATCH_INTERVAL);
      maintain_distribution n t
  end.
