(* ===== verification/FenceSafety.v ===== *)
(** * Launches and recoveries exclude each other

    [Fence] with its parties running at once: any number of launches, heartbeats and start-up
    reclamations in a guest that may die and start again at any time, and watchdogs of
    which one lives at a time and which may die at any time. The shared directory behaves
    as a file system does: creating a directory succeeds for one, a record is written
    whole or not at all, a removal that fails may have removed the record. Proved here: no
    two live tasks are ever in a launch or a termination at once. Assumed, and not enforced
    by the code: that only one watchdog lives (the daemon's companion and the CLI's can
    both be started), that the two sides share a clock, that the configuration is never
    absent, and that a live watchdog takes less than [OWNERLESS_CLAIM_GRACE] from making
    the directory to its record. *)

From Stdlib Require Import Relations.
From stdpp Require Import strings.
From S2P Require Import Prelude RustStr Ordered Model Policy Effects Tasks Process Fence.
#[local] Open Scope Z_scope.
#[local] Open Scope rust_scope.

(** ** What a termination needs *)

Definition window_past (e : RecoveryEvidence) : Prop :=
  FAILURE_THRESHOLD ≤ consecutive_probe_failures e ∧
  ∃ span, failure_span e = Some span ∧ MINIMUM_FAILURE_SPAN ≤ span.
Definition guest_drained (e : RecoveryEvidence) : Prop :=
  acknowledged_generation e = Some (drain_generation e) ∧
  (∃ age, heartbeat_age e = Some age ∧ age ≤ MAX_HEARTBEAT_AGE) ∧
  unmanaged_runner_services e = Some 0 ∧ local_busy_attempts e = Some 0 ∧
  ∃ active, local_active_attempts e = Some active ∧
    2 ≤ (if bool_decide (active = 0) then consecutive_zero_attempt_heartbeats e
         else consecutive_no_busy_heartbeats e).
Definition github_agrees (e : RecoveryEvidence) : Prop :=
  managed_busy_runners e = Some 0 ∧ managed_online_registrations e = Some 0 ∧
  2 ≤ consecutive_zero_inventory_reads e.
Definition may_terminate (e : RecoveryEvidence) : Prop :=
  circuit_open e = false ∧ failure_is_recoverable e = true ∧ task_is_product_owned e = true ∧
  distribution_is_wsl2 e = true ∧ inventory_authorized e = true ∧ recovery_fence_held e = true.

Lemma decide_inventory_iff e : decide_inventory e = TerminateNamed ↔ github_agrees e.
Proof.
  unfold decide_inventory, github_agrees.
  destruct (managed_busy_runners e) as [busy|], (managed_online_registrations e) as [online|];
    repeat case_bool_decide; split; intros; destruct_and?; simplify_eq; done || lia.
Qed.

Lemma decide_guest_iff e : decide_guest e = TerminateNamed ↔
  local_busy_attempts e = Some 0 ∧
  (∃ active, local_active_attempts e = Some active ∧
    2 ≤ (if bool_decide (active = 0) then consecutive_zero_attempt_heartbeats e
         else consecutive_no_busy_heartbeats e)) ∧ github_agrees e.
Proof.
  rewrite <- decide_inventory_iff. unfold decide_guest.
  destruct (local_active_attempts e) as [active|]; [|naive_solver].
  destruct (local_busy_attempts e) as [busy|]; [|naive_solver].
  split.
  - intros H. repeat (case_bool_decide; cbn [negb] in *; try discriminate); subst; split_and!; try done;
      eexists; (split; [reflexivity|]); rewrite ?bool_decide_true, ?bool_decide_false by done; done || lia.
  - intros (E & (a & [= <-] & Ha) & Hg). injection E as ->. rewrite (bool_decide_true (0 = 0)) by done. cbn [negb].
    case_bool_decide; rewrite bool_decide_false by lia; done.
Qed.

(** The recovery ladder, exactly: the distribution is terminated when every condition of
    every rung holds, and only then. *)
Lemma termination_ladder e :
  decide_recovery_of e = TerminateNamed ↔
  may_terminate e ∧ window_past e ∧ guest_drained e ∧ github_agrees e.
Proof.
  unfold decide_recovery_of, may_terminate, window_past, guest_drained. split.
  - intros H. do 14 (case_match; simplify_eq). apply decide_guest_iff in H as (? & ? & ?).
    repeat match goal with
      | E : negb _ = false |- _ => apply negb_false_iff in E
      | E : bool_decide _ = true |- _ => apply bool_decide_eq_true in E
      | E : bool_decide _ = false |- _ => apply bool_decide_eq_false in E
      end. subst. split_and!; try done; try lia; (eexists; split; [reflexivity|]; lia).
  - intros ((-> & -> & -> & -> & -> & ->) & (? & span & -> & ?) & (-> & (age & -> & ?) & -> & ? & ?) & ?).
    cbn [negb]. rewrite (bool_decide_false (_ < FAILURE_THRESHOLD)), (bool_decide_false (span < _)),
      (bool_decide_false (_ < age)) by lia. rewrite !bool_decide_true by done. cbn [negb].
    by apply decide_guest_iff.
Qed.

(** ** The world *)

(** The fence's directory, and which task created it. *)
Record fence_dir := mk_dir { fd_by : nat; fd_owner : option FenceOwner; fd_modified : Timestamp }.

Record fworld := mk_fworld {
  fw_clock : Timestamp;
  fw_fence : option fence_dir;
  fw_guest : nat;            (* the guest's process, by how many came before *)
  fw_windows : nat;          (* the task of the live watchdog *)
  fw_mutex : option nat;     (* HELD_HERE's, of the guest's process *)
  fw_held : bool;            (* ... and its content *)
  fw_claiming : bool;        (* the watchdog made the directory and has not recorded itself *)
}.
Implicit Types w : fworld.

Definition set_dir (d : option fence_dir) (claiming : bool) w : fworld :=
  mk_fworld (fw_clock w) d (fw_guest w) (fw_windows w) (fw_mutex w) (fw_held w) claiming.
Definition set_mutex (m : option nat) w : fworld :=
  mk_fworld (fw_clock w) (fw_fence w) (fw_guest w) (fw_windows w) m (fw_held w) (fw_claiming w).
Definition set_held (b : bool) w : fworld :=
  mk_fworld (fw_clock w) (fw_fence w) (fw_guest w) (fw_windows w) (fw_mutex w) b (fw_claiming w).
(** Another process in the guest: its [HELD_HERE] is new. *)
Definition guest_died (next : nat) w : fworld :=
  mk_fworld (fw_clock w) (fw_fence w) next (fw_windows w) None false (fw_claiming w).

Section World.
(** The process a guest task belongs to; other tasks are watchdogs. *)
Context (proc : nat → option nat).

Definition alive (i : nat) w : Prop :=
  match proc i with Some p => fw_guest w = p | None => fw_windows w = i end.

(** Nobody's, or a guest's. *)
Definition guest_side w : Prop :=
  fw_claiming w = false ∧ ∃ d, fw_fence w = Some d ∧ ∀ o, fd_owner d = Some o → fo_kind o = GuestLaunch.
Definition launching (i : nat) w : Prop :=
  fw_held w = true ∧ ∃ d o, fw_fence w = Some d ∧ fd_by d = i ∧ fd_owner d = Some o ∧ fo_kind o = GuestLaunch.
Definition recovery_of (g : option Z) w : Prop :=
  ∃ d o, fw_fence w = Some d ∧ fd_owner d = Some o ∧ fo_kind o = WindowsRecovery ∧ fo_generation o = g.

Definition fence_inv w : Prop :=
  (fw_held w = true → ∃ j, launching j w) ∧
  (fw_claiming w = true → ∃ d, fw_fence w = Some d ∧ fd_owner d = None ∧
                               fw_clock w - fd_modified d < OWNERLESS_CLAIM_GRACE).

(** What a call does. *)
Definition with_claiming (i : nat) (b : bool) w : bool :=
  match proc i with Some _ => fw_claiming w | None => b end.
Definition fence_does (i : nat) w (e : wcall) : wanswer e → fworld → Prop :=
  match e return wanswer e → fworld → Prop with
  | WCreateFence => λ x w',
      match x, fw_fence w with
      | Created, None => w' = set_dir (Some (mk_dir i None (fw_clock w))) (with_claiming i true w) w
      | AlreadyExists, Some _ | MkDirFailed, _ => w' = w
      | _, _ => False
      end
  | WWriteOwner o => λ x w',
      (∃ d, fw_fence w = Some d ∧
        w' = set_dir (Some (mk_dir (fd_by d) (Some o) (fw_clock w))) (with_claiming i false w) w) ∨
      (is_ok x = false ∧ w' = w)
  | WReadOwner => λ x w', w' = w ∧ (is_ok x = false ∨ x = Ok (fw_fence w ≫= fd_owner))
  | WFenceModified => λ x w', w' = w ∧ (is_ok x = false ∨ x = Ok (fd_modified <$> fw_fence w))
  | WRemoveFence => λ x w',
      if is_ok x then w' = set_dir None (with_claiming i false w) w
      else w' = set_dir (fw_fence w) (with_claiming i false w) w ∨
           ∃ d, fw_fence w = Some d ∧
             w' = set_dir (Some (mk_dir (fd_by d) None (fw_clock w))) (with_claiming i false w) w
  | WNow => λ x w', w' = w ∧ x = fw_clock w
  | WHeldLock => λ _ w', fw_mutex w = None ∧ w' = set_mutex (Some i) w
  | WHeldUnlock => λ _ w', w' = set_mutex None w
  | WHeld => λ x w', w' = w ∧ x = fw_held w
  | WSetHeld b => λ _ w', w' = set_held b w
  | WReadConfig => λ x w', w' = w ∧ x ≠ Ok None
  | WTerminate => λ x w', w' = guest_died (S (fw_guest w)) w ∨ (x = false ∧ w' = w)
  | _ => λ _ w', w' = w
  end.
Definition fence_act (i : nat) w (e : wcall) (x : wanswer e) w' : Prop := alive i w ∧ fence_does i w e x w'.

(** What a task must have established. *)
Definition demand (i : nat) w (e : wcall) : Prop :=
  match e with
  | WLaunch => launching i w
  | WTerminate => proc i = None ∧ ∃ g, recovery_of g w
  | WHeldLock => is_Some (proc i)
  | WHeldUnlock => fw_mutex w = Some i
  | WSetHeld true => fw_mutex w = Some i ∧ fw_held w = false ∧ launching i (set_held true w)
  | WSetHeld false => fw_mutex w = Some i ∧ launching i w
  | WCreateFence => is_Some (proc i) → fw_mutex w = Some i ∧ fw_held w = false
  | WWriteOwner o =>
      match proc i with
      | Some _ => fw_mutex w = Some i ∧ fw_held w = false ∧ guest_side w ∧ fo_kind o = GuestLaunch
      | None => fw_claiming w = true ∧ fo_kind o = WindowsRecovery
      end
  | WRemoveFence =>
      match proc i with
      | Some _ => fw_mutex w = Some i ∧ fw_held w = false ∧ guest_side w
      | None => fw_claiming w = true ∨ ∃ g, recovery_of g w
      end
  | _ => True
  end.
Definition fence_asks (i : nat) w (e : wcall) : Prop := fence_inv w ∧ (alive i w → demand i w e).

(** Time passes, but a watchdog records itself within the grace; processes die. *)
Inductive fence_tick : fworld → fworld → Prop :=
  | tick_clock w clock :
      fw_clock w ≤ clock →
      (fw_claiming w = true → ∀ d, fw_fence w = Some d → clock - fd_modified d < OWNERLESS_CLAIM_GRACE) →
      fence_tick w (mk_fworld clock (fw_fence w) (fw_guest w) (fw_windows w) (fw_mutex w) (fw_held w) (fw_claiming w))
  | tick_guest w next : (fw_guest w < next)%nat → fence_tick w (guest_died next w)
  | tick_windows w next : (fw_windows w < next)%nat →
      fence_tick w (mk_fworld (fw_clock w) (fw_fence w) (fw_guest w) next (fw_mutex w) (fw_held w) false).

(** ** What a task may rely on *)

Definition guest_rely (i : nat) w w' : Prop :=
  (fw_mutex w = Some i →
     fw_mutex w' = Some i ∧ fw_held w' = fw_held w ∧
     (guest_side w → guest_side w' ∧ fw_fence w' = fw_fence w) ∧
     (fw_fence w' = fw_fence w ∨ ∀ d, fw_fence w' = Some d → fw_clock w ≤ fd_modified d)) ∧
  (launching i w → launching i w').
Definition windows_rely w w' : Prop :=
  (fw_claiming w = true → fw_claiming w' = true ∧ fw_fence w' = fw_fence w) ∧
  (∀ g, recovery_of g w → recovery_of g w').
Definition fence_rely (i : nat) w w' : Prop :=
  (fence_inv w → fence_inv w') ∧ fw_clock w ≤ fw_clock w' ∧
  (fw_guest w ≤ fw_guest w')%nat ∧ (fw_windows w ≤ fw_windows w')%nat ∧
  (fence_inv w → alive i w → alive i w' →
     if bool_decide (is_Some (proc i)) then guest_rely i w w' else windows_rely w w').

Lemma alive_between i w1 w2 w3 :
  (fw_guest w1 ≤ fw_guest w2 ≤ fw_guest w3)%nat → (fw_windows w1 ≤ fw_windows w2 ≤ fw_windows w3)%nat →
  alive i w1 → alive i w3 → alive i w2.
Proof. unfold alive. destruct (proc i); lia. Qed.

Lemma guest_rely_trans i w1 w2 w3 :
  fw_clock w1 ≤ fw_clock w2 → guest_rely i w1 w2 → guest_rely i w2 w3 → guest_rely i w1 w3.
Proof.
  intros Hc [M1 L1] [M2 L2]. split; [|tauto]. intros Hm.
  destruct (M1 Hm) as (Hm2 & Hh & Hg & Hf). destruct (M2 Hm2) as (? & Hh2 & Hg2 & Hf2).
  split; [done|]. split; [congruence|]. split.
  - intros G. destruct (Hg G) as [G2 E]. destruct (Hg2 G2) as [? E2]. split; [done|congruence].
  - destruct Hf2 as [->|Hf2]; [done|]. right. intros d Hd. specialize (Hf2 d Hd). lia.
Qed.

#[global] Instance fence_rely_preorder i : PreOrder (fence_rely i).
Proof.
  split.
  - intros w. split; [done|]. do 3 (split; [lia|]). intros _ _ _. case_bool_decide; [|split; auto].
    split; [|done]. intros Hm. auto.
  - intros w1 w2 w3 (I1 & C1 & G1 & N1 & R1) (I2 & C2 & G2 & N2 & R2).
    split; [tauto|]. split; [lia|]. split; [lia|]. split; [lia|]. intros Hi Ha Ha3.
    assert (alive i w2) as Ha2 by (eapply (alive_between i w1 w2 w3); [done..|]; auto).
    specialize (R1 Hi Ha Ha2). specialize (R2 (I1 Hi) Ha2 Ha3).
    case_bool_decide; [by eapply guest_rely_trans|].
    destruct R1 as [A1 B1], R2 as [A2 B2]. split; [|auto].
    intros E. destruct (A1 E) as [E2 F2]. destruct (A2 E2) as [? F3]. split; [done|congruence].
Qed.

(** *** The others *)

Definition calm (e : wcall) : Prop :=
  match e with
  | WCreateFence | WWriteOwner _ | WRemoveFence | WHeldLock | WHeldUnlock | WSetHeld _ | WTerminate => False
  | _ => True
  end.
Lemma calm_stays i w e x w' : calm e → fence_does i w e x w' → w' = w.
Proof. destruct e; simpl; try done; by intros _ [? _]. Qed.

(** A claim recorded excludes the others. *)
Lemma claim_exclusive w i : fence_inv w → launching i w →
  fw_claiming w = false ∧ (∀ j, launching j w → j = i) ∧ (∀ g, recovery_of g w → False).
Proof.
  intros [_ I2] (Hh & d & o & Hf & <- & Ho & Hk). split; [|split].
  - destruct (fw_claiming w); [|done]. destruct I2 as (d' & ? & ? & _); [done|]. congruence.
  - intros j (_ & d' & o' & Hf' & <- & _). congruence.
  - intros g (d' & o' & ? & ? & ? & _). congruence.
Qed.
Lemma recovery_not_claiming w g : fence_inv w → recovery_of g w → fw_claiming w = false.
Proof.
  intros [_ I2] (d & o & Hf & Ho & _). destruct (fw_claiming w); [|done].
  destruct I2 as (d' & ? & ? & _); [done|]. congruence.
Qed.

(** The invariant, whoever calls. *)
Lemma inv_idle w : fw_held w = false → fw_claiming w = false → fence_inv w.
Proof. intros Hh Hc. split; congruence. Qed.
Lemma windows_not_held w : fence_inv w → (fw_claiming w = true ∨ ∃ g, recovery_of g w) → fw_held w = false.
Proof.
  intros Hi Hw. destruct (fw_held w) eqn:Hh; [|done]. destruct (proj1 Hi Hh) as [j Hj].
  destruct (claim_exclusive w j Hi Hj) as (? & _ & Hr). destruct Hw as [|[g Hg]]; [congruence|]. by destruct (Hr g).
Qed.

Lemma does_inv i w e x w' :
  fence_inv w → demand i w e → fence_does i w e x w' → fence_inv w'.
Proof.
  intros Hi Hd. destruct e; try (intros H; apply calm_stays in H as ->; [done|exact I]); simpl in *.
  - assert (fw_fence w = None → fw_held w = false ∧ fw_claiming w = false) as Hn.
    { intros Hf. destruct Hi as [I1 I2]. split.
      - destruct (fw_held w); [|done]. destruct I1 as (j & _ & d & o & ? & _); [done|congruence].
      - destruct (fw_claiming w); [|done]. destruct I2 as (d & ? & _); [done|congruence]. }
    destruct x, (fw_fence w) as [d|] eqn:Hf; try done; intros ->; try done.
    destruct Hn as [Hh Hc]; [done|]. split; simpl; [congruence|]. intros _.
    eexists. split; [done|]. simpl. split; [done|]. unfold OWNERLESS_CLAIM_GRACE, seconds. lia.
  - intros [(d & Hf & ->)|[_ ->]]; [|done]. unfold with_claiming. destruct (proc i) in Hd |- *.
    + destruct Hd as (_ & ? & [? _] & _). by apply inv_idle.
    + apply inv_idle; [|done]. exact (windows_not_held w Hi (or_introl (proj1 Hd))).
  - assert (fw_held w = false ∧ with_claiming i false w = false) as [Hh Hc].
    { unfold with_claiming. destruct (proc i) in Hd |- *; [by destruct Hd as (_ & ? & [? _])|].
      split; [by apply windows_not_held|done]. }
    destruct (is_ok x); [intros ->|intros [->|(d & _ & ->)]]; by apply inv_idle.
  - by intros [_ ->].
  - by intros ->.
  - intros ->. destruct b.
    + destruct Hd as (_ & _ & Hl). split; [by exists i|]. apply Hi.
    + split; [done|apply Hi].
  - intros [->|[_ ->]]; [|done]. split; [done|apply Hi].
Qed.
Lemma does_grows i w e x w' : fence_does i w e x w' →
  fw_clock w' = fw_clock w ∧ (fw_guest w ≤ fw_guest w')%nat ∧ fw_windows w' = fw_windows w.
Proof.
  destruct e; try (intros H; apply calm_stays in H as ->; [done|exact I]); simpl.
  - destruct x, (fw_fence w); try done; by intros ->.
  - by intros [(d & _ & ->)|[_ ->]].
  - destruct (is_ok x); [by intros ->|]. by intros [->|(d & _ & ->)].
  - by intros [_ ->].
  - by intros ->.
  - by intros ->.
  - intros [->|[_ ->]]; simpl; auto with lia.
Qed.

(** A task of the guest, among the others. *)
Lemma does_guest_rely i j w e x w' :
  i ≠ j → fence_inv w → alive i w → demand i w e → fence_does i w e x w' →
  is_Some (proc j) → alive j w → alive j w' → guest_rely j w w'.
Proof.
  intros Hij Hi Ha Hd He [p Hp] Hj Hj'.
  assert (guest_rely j w w) as Hrefl by (split; [intros; auto|done]).
  destruct e; try (apply calm_stays in He as ->; [done|exact I]); simpl in *.
  - destruct x, (fw_fence w) as [d|] eqn:Hf; try done; subst w'; try done.
    split; [|intros (_ & d & o & ? & _); congruence]. intros Hm. split; [done|]. split; [done|].
    split; [intros (_ & d & ? & _); congruence|]. right. intros d [= <-]. simpl. lia.
  - destruct He as [(d & Hf & ->)|[_ ->]]; [|done]. destruct (proc i) eqn:Hpi.
    + destruct Hd as (Hm & Hh & Hg & _). split; [congruence|]. intros [? _]. congruence.
    + destruct Hd as [Hc _]. split.
      * intros Hm. split; [done|]. split; [done|]. split; [intros [? _]; congruence|]. right. intros d' [= <-]. simpl. lia.
      * intros Hl. destruct (claim_exclusive w j Hi Hl) as [? _]. congruence.
  - assert ((fw_mutex w = Some j → False) ∨ (guest_side w → False)) as Hex.
    { destruct (proc i); [left; destruct Hd as [? _]; congruence|right]. intros [Hc (d & Hf & Hk)].
      destruct Hd as [|(g & d' & o & ? & Ho & Hw & _)]; [congruence|]. simplify_eq. by rewrite (Hk o Ho) in Hw. }
    assert (fw_held w = false) as Hh.
    { destruct (proc i); [by destruct Hd as (_ & ? & _)|by apply windows_not_held]. }
    assert (∀ w1, fw_mutex w1 = fw_mutex w → fw_held w1 = fw_held w → fw_clock w1 = fw_clock w →
      (fw_fence w1 = fw_fence w ∨ ∀ d, fw_fence w1 = Some d → fw_clock w ≤ fd_modified d) → guest_rely j w w1) as Hgo.
    { intros w1 E1 E2 _ E3. split; [|intros [? _]; congruence]. intros Hm. split; [congruence|].
      split; [done|]. split; [|done]. destruct Hex; tauto. }
    destruct (is_ok x); [subst w'; apply Hgo; try done; by right|].
    destruct He as [->|(d & Hf & ->)]; apply Hgo; try done; [by left|]. right. intros d' [= <-]. simpl. lia.
  - destruct He as [Hn ->]. split; [congruence|done].
  - subst w'. split; [congruence|done].
  - subst w'. destruct b.
    + destruct Hd as (Hm & Hh & Hl). split; [congruence|]. intros [? _]. congruence.
    + destruct Hd as (Hm & Hl). split; [congruence|]. intros Hl'.
      destruct (claim_exclusive w i Hi Hl) as (_ & Hu & _). by destruct Hij; rewrite (Hu j Hl').
  - destruct He as [->|[_ ->]]; [|done]. unfold alive in *. rewrite Hp in *. simpl in *. lia.
Qed.

(** The watchdog, among the others. *)
Lemma does_windows_rely i j w e x w' :
  i ≠ j → fence_inv w → alive i w → demand i w e → fence_does i w e x w' →
  proc j = None → alive j w → windows_rely w w'.
Proof.
  intros Hij Hi Ha Hd He Hp Hj.
  assert (is_Some (proc i)) as [p Hpi].
  { destruct (proc i) eqn:E; [done|]. unfold alive in *. rewrite E in *. rewrite Hp in *. congruence. }
  assert (∀ w1, fw_claiming w1 = fw_claiming w → fw_fence w1 = fw_fence w → windows_rely w w1) as Hsame.
  { intros w1 E1 E2. split; [by rewrite E1, E2|]. intros g (d & o & ? & ? & ? & ?). exists d, o. by rewrite E2. }
  assert (∀ w1, guest_side w → windows_rely w w1) as Hside.
  { intros w1 [Hc (d & Hf & Hk)]. split; [congruence|]. intros g (d' & o & ? & Ho & Hw & _). simplify_eq.
    by rewrite (Hk o Ho) in Hw. }
  destruct e; try (apply calm_stays in He as ->; [by apply Hsame|exact I]); simpl in *; rewrite ?Hpi in *.
  - destruct x, (fw_fence w) as [d|] eqn:Hf; try done; subst w'; try by apply Hsame.
    split; [|intros g (d & o & ? & _); congruence]. intros Hc. destruct (proj2 Hi Hc) as (d & ? & _). congruence.
  - destruct Hd as (_ & _ & Hg & _). destruct He as [(d & _ & ->)|[_ ->]]; [by apply Hside|by apply Hsame].
  - apply Hside. by destruct Hd as (_ & _ & ?).
  - destruct He as [_ ->]. by apply Hsame.
  - subst. by apply Hsame.
  - subst. by apply Hsame.
  - by destruct Hd.
Qed.

Lemma fence_act_rely i j w e x w' :
  i ≠ j → fence_asks i w e → fence_act i w e x w' → fence_rely j w w'.
Proof.
  intros Hij [Hi Hd] [Ha He]. specialize (Hd Ha). destruct (does_grows _ _ _ _ _ He) as (E1 & E2 & E3).
  split; [intros _; by eapply does_inv|]. split; [lia|]. split; [done|]. split; [lia|]. intros _ Hj Hj'.
  case_bool_decide as Hp; [by eapply (does_guest_rely i)|].
  eapply (does_windows_rely i); try done. by destruct (proc j); [destruct Hp|].
Qed.

Lemma fence_tick_rely j w w' : fence_tick w w' → fence_rely j w w'.
Proof.
  assert (∀ w1 w2, fw_claiming w1 = fw_claiming w2 → fw_fence w1 = fw_fence w2 → windows_rely w1 w2) as Hw.
  { intros w1 w2 E1 E2. split; [by rewrite E1, E2|]. intros g (d & o & ?). exists d, o. by rewrite <- E2. }
  intros [? clock Hc Hg|? next Hn|? next Hn].
  - split; [|split; [done|]; split; [done|]; split; [done|]].
    + intros [I1 I2]. split; [exact I1|]. intros Hcl. destruct (I2 Hcl) as (d & Hf & Ho & _).
      exists d. split; [done|]. split; [done|]. simpl. auto.
    + intros _ _ _. case_bool_decide; [|by apply Hw]. split; [intros; auto|done].
  - split; [|split; [done|]; split; [simpl; lia|]; split; [done|]].
    + intros [_ I2]. split; [done|exact I2].
    + intros _ Hj Hj'. case_bool_decide as Hp; [|by apply Hw]. destruct Hp as [p Hp].
      unfold alive in *. rewrite Hp in *. simpl in *. lia.
  - split; [|split; [done|]; split; [done|]; split; [simpl; lia|]].
    + intros [I1 _]. split; [exact I1|done].
    + intros Hi Hj Hj'. case_bool_decide as Hp.
      * split; [|done]. intros Hm. split; [done|]. split; [done|]. split; [|by left].
        intros [_ Hs]. split; [|done]. split; [done|exact Hs].
      * unfold alive in *. destruct (proc j); [by destruct Hp|]. simpl in *. lia.
Qed.

(** ** One task *)

Lemma does_alive i w e x w' : alive i w → demand i w e → fence_does i w e x w' → alive i w'.
Proof.
  intros Ha Hd He. destruct (does_grows _ _ _ _ _ He) as (_ & _ & E). unfold alive in *.
  destruct (proc i) eqn:Hp; [|by rewrite E].
  destruct e; try (apply calm_stays in He as ->; [done|exact I]); simpl in *.
  - destruct x, (fw_fence w); try done; by subst.
  - by destruct He as [(d & _ & ->)|[_ ->]].
  - destruct (is_ok x); [by subst|]. by destruct He as [->|(d & _ & ->)].
  - by destruct He as [_ ->].
  - by subst.
  - by subst.
  - destruct Hd. congruence.
Qed.

Section Task.
Context (me : nat).
#[local] Abbreviation V := (task_env fence_asks fence_act fence_rely me).

(** A fact of a live task; a dead one makes no calls. *)
Definition on (P : fworld → Prop) w : Prop := fence_inv w ∧ (alive me w → P w).
Definition stable (P : fworld → Prop) : Prop :=
  ∀ w w', fence_inv w → alive me w → alive me w' → fence_rely me w w' → P w → P w'.

Lemma on_mono (P P' : fworld → Prop) w : on P w → (∀ w, fence_inv w → P w → P' w) → on P' w.
Proof. intros [Hi HP] H. split; [done|]. auto. Qed.
Lemma stable_true : stable (λ _, True).
Proof. done. Qed.
Lemma stable_if (φ : Prop) P : stable P → stable (λ w, φ → P w).
Proof. intros H w w' Hi Ha Ha' Hr HP Hφ. by apply (H w); auto. Qed.

Lemma sat_call e w (P : wanswer e → fworld → Prop) (Q : fworld → wanswer e → Prop) :
  fence_inv w → (alive me w → demand me w e) →
  (∀ x w1, alive me w → fence_inv w1 → fence_does me w e x w1 → P x w1) →
  (∀ x, stable (P x)) → (∀ x w', on (P x) w' → Q w' x) → sat V (wop e) w Q.
Proof.
  intros Hi Hd HP Hs HQ. apply sat_op; [by split|]. intros x w' (w1 & [Ha He] & Hr). apply HQ.
  specialize (Hd Ha). pose proof (does_inv _ _ _ _ _ Hi Hd He) as Hi1.
  pose proof (does_alive _ _ _ _ _ Ha Hd He) as Ha1.
  split; [by apply Hr|]. intros Ha'. apply (Hs x w1); try done. by apply HP.
Qed.

(** A call that changes nothing keeps what is known, and may add to it. *)
Lemma sat_unchanged e w (P : fworld → Prop) (P' : wanswer e → fworld → Prop) (Q : fworld → wanswer e → Prop) :
  calm e → e ≠ WLaunch → on P w →
  (∀ x w, fence_inv w → P w → fence_does me w e x w → P' x w) →
  (∀ x, stable (P' x)) → (∀ x w', on (P' x) w' → Q w' x) → sat V (wop e) w Q.
Proof.
  intros He Hn [Hi HP] HP' Hs HQ. apply (sat_call e w P'); [done| |..|done|done].
  - by destruct e.
  - intros x w1 Ha Hi1 Hd. pose proof (calm_stays _ _ _ _ _ He Hd) as ->. apply HP'; auto.
Qed.
Lemma sat_quiet e w (P : fworld → Prop) (Q : fworld → wanswer e → Prop) :
  calm e → e ≠ WLaunch → on P w → stable P → (∀ x w', on P w' → Q w' x) → sat V (wop e) w Q.
Proof. intros He Hn HP Hs HQ. by apply (sat_unchanged e w P (λ _, P)). Qed.

Definition quiet (e : wcall) : Prop := calm e ∧ e ≠ WLaunch.
Lemma sat_quietly {A} (m : wprogram A) w (P : fworld → Prop) (Q : fworld → A → Prop) :
  within quiet m → stable P → on P w → (∀ a w', on P w' → Q w' a) → sat V m w Q.
Proof.
  intros Hm Hs Hon HQ. revert w Hon. induction m as [a|e k IH]; intros w Hon; [by apply HQ|].
  destruct Hm as [[He Hn] Hk]. change (sat V (wop e ≫= k) w Q).
  apply sat_bind, (sat_quiet e w P); try done. intros x w' Hon'. by apply IH.
Qed.

Ltac quietly := repeat (within_step ltac:(split; [exact I|discriminate]) || (unfold ignore, note_refused, note_granted, publish)).

(** *** The guest *)

Section Guest.
Context (p : nat) (guest : proc me = Some p).
Implicit Types n : Timestamp.

Lemma guest_relies w w' :
  fence_inv w → alive me w → alive me w' → fence_rely me w w' → guest_rely me w w'.
Proof.
  intros Hi Ha Ha' (_ & _ & _ & _ & H). specialize (H Hi Ha Ha').
  rewrite bool_decide_true in H; [done|]. by exists p.
Qed.

(** Under the mutex, with [HELD_HERE] known, no earlier than [n]. *)
Definition inside (b : bool) n w : Prop := fw_mutex w = Some me ∧ fw_held w = b ∧ n ≤ fw_clock w.
(** The directory is this task's, and names it. *)
Definition named w : Prop := launching me (set_held true w).
(** What has no record yet is as old as it was. *)
Definition unnamed_or_new n w : Prop :=
  ∀ d, fw_fence w = Some d → fd_owner d = None ∨ n ≤ fd_modified d.

Lemma named_side w : fence_inv w → named w → guest_side w.
Proof.
  intros [_ I2] (_ & d & o & Hf & _ & Ho & Hk). simpl in Hf. split.
  - destruct (fw_claiming w); [|done]. destruct I2 as (d' & ? & ? & _); [done|congruence].
  - exists d. split; [done|]. congruence.
Qed.

Lemma stable_launching : stable (launching me).
Proof. intros w w' Hi Ha Ha' Hr. by apply guest_relies in Hr as [_ ?]. Qed.
Lemma stable_mutex : stable (λ w, fw_mutex w = Some me).
Proof. intros w w' Hi Ha Ha' Hr Hm. apply guest_relies in Hr as [Hr _]; try done. by apply Hr. Qed.
Lemma stable_since n : stable (λ w, n ≤ fw_clock w).
Proof. intros w w' _ _ _ (_ & ? & _) ?. lia. Qed.
Lemma stable_and (P P' : fworld → Prop) : stable P → stable P' → stable (λ w, P w ∧ P' w).
Proof. intros H H' w w' Hi Ha Ha' Hr [? ?]. split; [by apply (H w)|by apply (H' w)]. Qed.
Lemma stable_inside b n : stable (inside b n).
Proof.
  intros w w' Hi Ha Ha' Hr (Hm & Hh & Hn). pose proof Hr as (_ & Hc & _).
  apply guest_relies in Hr as [Hr _]; try done. destruct (Hr Hm) as (? & ? & _).
  split; [done|]. split; [congruence|lia].
Qed.
(** The mutex keeps what is on the guest's side. *)
Lemma stable_side b n (P : option fence_dir → Prop) :
  stable (λ w, inside b n w ∧ guest_side w ∧ P (fw_fence w)).
Proof.
  intros w w' Hi Ha Ha' Hr (Hin & Hs & HP). split; [by eapply stable_inside|].
  apply guest_relies in Hr as [Hr _]; try done. destruct (Hr (proj1 Hin)) as (_ & _ & Hg & _).
  destruct (Hg Hs) as [? ->]. done.
Qed.
Lemma stable_inside_side b n : stable (λ w, inside b n w ∧ guest_side w).
Proof.
  intros w w' Hi Ha Ha' Hr [? ?]. by destruct (stable_side b n (λ _, True) w w') as (? & ? & _).
Qed.
Lemma stable_named b n : stable (λ w, inside b n w ∧ named w).
Proof.
  intros w w' Hi Ha Ha' Hr [? Hn]. pose proof (named_side w Hi Hn) as Hs. destruct Hn as (_ & d & o & Hd).
  destruct (stable_side b n (λ f, f = fw_fence w) w w') as (? & _ & E); try done.
  split; [done|]. split; [done|]. exists d, o. by simpl; rewrite E.
Qed.
Lemma stable_unnamed b n : stable (λ w, inside b n w ∧ unnamed_or_new n w).
Proof.
  intros w w' Hi Ha Ha' Hr [Hin Hu]. split; [by eapply stable_inside|].
  apply guest_relies in Hr as [Hr _]; try done. destruct (Hr (proj1 Hin)) as (_ & _ & _ & [E|E]).
  - intros d Hd. apply Hu. congruence.
  - intros d Hd. right. destruct Hin as (_ & _ & ?). specialize (E d Hd). lia.
Qed.

Lemma remove_claim_sat n w : on (λ w, inside false n w ∧ guest_side w) w →
  sat V remove_claim w (λ w' r, on (λ w, inside false n w ∧ (is_ok r = false → guest_side w)) w').
Proof.
  intros [Hi H]. apply (sat_call WRemoveFence w (λ r w, inside false n w ∧ (is_ok r = false → guest_side w))); try done.
  - intros Ha. destruct (H Ha) as [(? & ? & _) ?]. simpl. by rewrite guest.
  - intros r w1 Ha Hi1 Hd. destruct (H Ha) as [(? & ? & ?) [Hc (d & Hf & Hk)]]. simpl in Hd.
    unfold with_claiming in Hd. rewrite guest in Hd. destruct (is_ok r); [by subst|].
    destruct Hd as [->|(d' & _ & ->)]; (split; [done|]); intros _; (split; [done|]).
    + by exists d.
    + eexists. by split; [reflexivity|].
  - intros r. destruct (is_ok r).
    + intros w1 w2 ? ? ? ? [? _]. split; [by eapply stable_inside|done].
    + intros w1 w2 ? ? ? ? [? Hs]. by destruct (stable_inside_side false n w1 w2) as [? ?]; auto.
Qed.

Lemma stable_inside_if b n (φ : Prop) (P : fworld → Prop) :
  stable (λ w, inside b n w ∧ P w) → stable (λ w, inside b n w ∧ (φ → P w)).
Proof.
  intros H w w' ? ? ? ? [? HP]. split; [by eapply stable_inside|]. intros Hφ.
  by destruct (H w w') as [_ ?]; auto.
Qed.

Definition made_here (f : option fence_dir) : Prop := ∃ d, f = Some d ∧ fd_by d = me.

Lemma create_fence_sat n w (Q : fworld → MkDir → Prop) : on (inside false n) w →
  (∀ x w', on (λ w, inside false n w ∧ (x = Created → guest_side w ∧ made_here (fw_fence w))) w' → Q w' x) →
  sat V (wop WCreateFence) w Q.
Proof.
  intros [Hi H] HQ.
  apply (sat_call WCreateFence w (λ x w, inside false n w ∧ (x = Created → guest_side w ∧ made_here (fw_fence w)))); try done.
  - intros Ha _. by destruct (H Ha) as (? & ? & _).
  - intros x w1 Ha Hi1 Hd. specialize (H Ha). simpl in Hd. unfold with_claiming in Hd. rewrite guest in Hd.
    destruct x, (fw_fence w) eqn:Hf; try done; subst w1; try (by split).
    split; [done|]. intros _. destruct Hi as [_ I2]. split.
    + split; [|by eexists; split; [reflexivity|]]. simpl. destruct (fw_claiming w); [|done].
      destruct I2 as (d & ? & _); [done|congruence].
    + eexists. by split.
  - intros x. apply stable_inside_if, stable_side.
Qed.

Lemma write_owner_sat n o w (Q : fworld → result unit FenceError → Prop) :
  fo_kind o = GuestLaunch → on (λ w, inside false n w ∧ guest_side w ∧ made_here (fw_fence w)) w →
  (∀ x w', on (λ w, (inside false n w ∧ guest_side w) ∧ (is_ok x = true → named w)) w' → Q w' x) →
  sat V (wop (WWriteOwner o)) w Q.
Proof.
  intros Ho [Hi H] HQ.
  apply (sat_call (WWriteOwner o) w
    (λ x w, (inside false n w ∧ guest_side w) ∧ (is_ok x = true → named w))); try done.
  - intros Ha. destruct (H Ha) as ((? & ? & _) & ? & _). simpl. by rewrite guest.
  - intros x w1 Ha Hi1 Hd. destruct (H Ha) as (Hin & [Hc Hs] & (d & Hf & Hby)). simpl in Hd.
    unfold with_claiming in Hd. rewrite guest in Hd.
    destruct Hd as [(d' & Hf' & ->)|[Hx ->]]; [|split; [done|congruence]]. simplify_eq. split.
    + split; [done|]. split; [done|]. eexists. split; [reflexivity|]. simpl. congruence.
    + intros _. split; [done|]. by do 2 eexists.
  - intros x w1 w2 ? ? ? ? [[? ?] Hn]. split; [by apply (stable_inside_side false n w1)|].
    intros Hx. by apply (stable_named false n w1 w2); auto.
Qed.

Lemma try_claim_guest_sat n w : on (inside false n) w →
  sat V (try_claim GuestLaunch None) w (λ w' r, on (λ w, inside false n w ∧ (r = Ok true → named w)) w').
Proof.
  intros Hon. unfold try_claim. apply sat_bind_ok.
  apply (sat_quiet WCreateRoot w (inside false n)); [done..|apply stable_inside|].
  intros [[]|e] w1 H1; [|by apply (on_mono _ _ _ H1)]. apply sat_bind, (create_fence_sat n); [done|].
  intros [| |] w2 H2; [|by apply sat_ret; apply (on_mono _ _ _ H2); intros ? ? [? _]..].
  assert (on (λ w, inside false n w ∧ guest_side w ∧ made_here (fw_fence w)) w2) as H2'.
  { apply (on_mono _ _ _ H2). intros ? _ [? Hc]. split; [done|]. by apply Hc. }
  do 3 (apply sat_bind, (sat_quiet _ _ (λ w, inside false n w ∧ guest_side w ∧ made_here (fw_fence w)));
    [done..|apply stable_side|]; intros ? ? ?).
  apply sat_bind, (write_owner_sat n); [done|done|]. intros [[]|e] w6 H6.
  { apply sat_ret. apply (on_mono _ _ _ H6). intros ? _ [[? _] Hn]. split; [done|]. intros _. by apply Hn. }
  apply sat_bind, sat_bind. eapply sat_mono; [apply (remove_claim_sat n); by apply (on_mono _ _ _ H6); intros ? _ [? _]|].
  intros w7 r H7. apply sat_ret, sat_ret. by apply (on_mono _ _ _ H7); intros ? _ [? _].
Qed.

(** A stale claim is a guest's. *)
Lemma stale_guest_owner_sat o w (P : fworld → Prop) : stable P → on P w →
  sat V (stale_guest_owner o) w (λ w' r, on P w' ∧ (r ≠ None → fo_kind o = GuestLaunch)).
Proof.
  intros Hs Hon. unfold stale_guest_owner. case_bool_decide; cbn [negb]; [|by apply sat_ret].
  by apply (sat_quietly _ w P); [quietly|done..|].
Qed.

Lemma remove_stale_sat {A} n (a : A) w : on (λ w, inside false n w ∧ guest_side w) w →
  sat V (_ ←? remove_claim; Ret (Ok a)) w (λ w' _, on (inside false n) w').
Proof.
  intros Hon. apply sat_bind_ok. eapply sat_mono; [by apply remove_claim_sat|].
  intros w1 [[]|e] H1; [apply sat_ret|]; apply (on_mono _ _ _ H1); by intros ? _ [? _].
Qed.

(** What a record proves of the directory, and what its absence does. *)
Definition judged now (x : result (option FenceOwner) FenceError) w : Prop :=
  inside false now w ∧ (x = Ok None → unnamed_or_new now w) ∧
  (∀ o, x = Ok (Some o) → fo_kind o = GuestLaunch → guest_side w).

Lemma read_owner_sat now w (Q : fworld → result (option FenceOwner) FenceError → Prop) : on (inside false now) w →
  (∀ x w', on (judged now x) w' → Q w' x) → sat V (wop WReadOwner) w Q.
Proof.
  intros Hon HQ. apply (sat_unchanged WReadOwner w (inside false now) (judged now)); try done.
  - intros x w1 Hi1 Hin [_ Hx]. split; [done|]. split.
    + intros ->. destruct Hx as [|[= Hx]]; [done|]. intros d Hd. rewrite Hd in Hx. by left.
    + intros o -> Hk. destruct Hx as [|[= Hx]]; [done|]. destruct (fw_fence w1) as [d|] eqn:Hf; [|done].
      split; [|exists d; split; [done|]; simpl in Hx; congruence].
      destruct (fw_claiming w1) eqn:Hc; [|done]. destruct (proj2 Hi1 Hc) as (d' & ? & E & _). simpl in Hx. congruence.
  - intros x w1 w2 ? ? ? ? (? & Hu & Hg). split; [by eapply stable_inside|]. split.
    + intros Hx. by apply (stable_unnamed false now w1 w2); auto.
    + intros o Hx Hk. apply (stable_inside_side false now w1 w2); auto. split; [done|]. by eapply Hg.
Qed.

(** A directory without a record and older than the grace is nobody's. *)
Lemma fence_modified_sat now w (Q : fworld → result (option Timestamp) FenceError → Prop) :
  on (λ w, inside false now w ∧ unnamed_or_new now w) w →
  (∀ x w', on (λ w, inside false now w ∧
     (∀ m, x = Ok (Some m) → OWNERLESS_CLAIM_GRACE ≤ now - m → guest_side w)) w' → Q w' x) →
  sat V (wop WFenceModified) w Q.
Proof.
  intros Hon HQ. apply (sat_unchanged WFenceModified w (λ w, inside false now w ∧ unnamed_or_new now w)
    (λ x w, inside false now w ∧ (∀ m, x = Ok (Some m) → OWNERLESS_CLAIM_GRACE ≤ now - m → guest_side w))); try done.
  - intros x w2 Hi2 [Hin Hu] [_ Hx]. split; [done|]. intros m -> Hm. destruct Hx as [|[= Hx]]; [done|].
    destruct (fw_fence w2) as [d|] eqn:Hf; [|done]. simpl in Hx. simplify_eq.
    destruct Hin as (_ & _ & Hnow). assert (0 < OWNERLESS_CLAIM_GRACE) by (unfold OWNERLESS_CLAIM_GRACE, seconds; lia).
    destruct (Hu d Hf) as [Hn|]; [|lia]. split; [|exists d; split; [done|congruence]].
    destruct (fw_claiming w2) eqn:Hc; [|done]. destruct (proj2 Hi2 Hc) as (d' & ? & _ & ?). simplify_eq. lia.
  - intros x w2 w3 ? ? ? ? [? Hg]. split; [by eapply stable_inside|]. intros m Hx Hm.
    apply (stable_inside_side false now w2 w3); auto. split; [done|]. by eapply Hg.
Qed.

(** What the directory's record or its age prove is still so when it is removed. *)
Lemma reclaim_unheld_sat now w : on (inside false now) w →
  sat V (reclaim_unheld now) w (λ w' _, on (inside false now) w').
Proof.
  intros Hon. unfold reclaim_unheld. apply sat_bind_ok, (read_owner_sat now); [done|].
  intros [[o|]|e] w1 H1; [..|by apply (on_mono _ _ _ H1); intros ? _ [? _]].
  - apply sat_bind. eapply sat_mono.
    { apply (stale_guest_owner_sat o w1 (λ w, inside false now w ∧ (fo_kind o = GuestLaunch → guest_side w))).
      - apply stable_inside_if, stable_inside_side.
      - apply (on_mono _ _ _ H1). intros ? _ (? & _ & Hg). split; [done|]. by apply Hg. }
    intros w2 [reason|] [H2 Hk]; [|by apply sat_ret, (on_mono _ _ _ H2); intros ? _ [? _]].
    apply sat_bind_ok, (sat_quiet WReadOwner w2 (λ w, inside false now w ∧ guest_side w)); [done..| |apply stable_inside_side|].
    { apply (on_mono _ _ _ H2). intros ? _ [? Hg]. split; [done|]. by apply Hg, Hk. }
    intros [again|e] w3 H3; [|by apply (on_mono _ _ _ H3); intros ? _ [? _]].
    destruct (negb _); [by apply sat_ret, (on_mono _ _ _ H3); intros ? _ [? _]|]. by apply remove_stale_sat.
  - apply sat_bind_ok, (fence_modified_sat now).
    { apply (on_mono _ _ _ H1). intros ? _ (? & Hu & _). split; [done|]. by apply Hu. }
    intros [modified|e] w2 H2; [|by apply (on_mono _ _ _ H2); intros ? _ [? _]].
    destruct (from_option _ _ _) eqn:E; cbn [negb]; [|by apply sat_ret, (on_mono _ _ _ H2); intros ? _ [? _]].
    destruct modified as [m|]; [|done]. simpl in E. unfold elapsed_at_least in E.
    apply andb_true_iff in E as [_ E%bool_decide_eq_true].
    apply sat_bind_ok, (sat_quiet WReadOwner w2 (λ w, inside false now w ∧ guest_side w)); [done..| |apply stable_inside_side|].
    { apply (on_mono _ _ _ H2). intros ? _ [? Hg]. split; [done|]. by eapply Hg. }
    intros [[o|]|e] w3 H3; [| |by apply (on_mono _ _ _ H3); intros ? _ [? _]].
    + by apply sat_ret, (on_mono _ _ _ H3); intros ? _ [? _].
    + by apply remove_stale_sat.
Qed.

(** *** Under the mutex *)

Lemma under_held_sat {A} (m : wprogram A) (P : fworld → Prop) (Q : A → fworld → Prop) w :
  on P w → stable P → (∀ a, stable (Q a)) →
  (∀ w, on (λ w, fw_mutex w = Some me ∧ P w) w → sat V m w (λ w' a, on (λ w, fw_mutex w = Some me ∧ Q a w) w')) →
  (∀ w, P w → P (set_mutex (Some me) w)) → (∀ a w, Q a w → Q a (set_mutex None w)) →
  sat V (under_held m) w (λ w' a, on (Q a) w').
Proof.
  intros [Hi HP] HsP HsQ Hm Hlock Hunlock. unfold under_held. apply sat_bind.
  apply (sat_call WHeldLock w (λ _ w, fw_mutex w = Some me ∧ P w)); [done|by intros _; exists p| | |].
  { intros [] w1 Ha _ [_ ->]. split; [done|]. by apply Hlock, HP. }
  { intros _. by apply stable_and; [apply stable_mutex|]. }
  intros [] w1 H1. apply sat_bind. eapply sat_mono; [by apply Hm|]. intros w2 a [Hi2 H2].
  apply sat_bind, (sat_call WHeldUnlock w2 (λ _, Q a)); [done|by apply H2| |by intros _|by intros [] w3 H3; apply sat_ret].
  intros [] w3 Ha _ ->. by apply Hunlock, H2.
Qed.

Lemma claim_or_reclaim_sat now w : on (λ w, fw_mutex w = Some me ∧ now ≤ fw_clock w) w →
  sat V (claim_or_reclaim now) w (λ w' r, on (λ w, fw_mutex w = Some me ∧ (r = Ok true → launching me w)) w').
Proof.
  intros Hon. unfold claim_or_reclaim. apply sat_bind.
  apply (sat_unchanged WHeld w (λ w, fw_mutex w = Some me ∧ now ≤ fw_clock w) (λ b, inside b now)); try done.
  { intros b w1 _ [? ?] [_ ->]. done. }
  { intros b. apply stable_inside. }
  assert (∀ w1 (r : result bool FenceError) b, r ≠ Ok true → on (inside b now) w1 →
    on (λ w, fw_mutex w = Some me ∧ (r = Ok true → launching me w)) w1) as Hfail.
  { intros w1 r b Hr H1. apply (on_mono _ _ _ H1). intros ? _ [? _]. by split. }
  assert (∀ w1 (r : result bool FenceError), on (λ w, inside false now w ∧ (r = Ok true → named w)) w1 → on (inside false now) w1) as Hin.
  { intros w1 r H1. apply (on_mono _ _ _ H1). by intros ? _ [? _]. }
  intros [] w1 H1; [by apply sat_ret, (Hfail _ _ true)|].
  assert (∀ w2 (c : bool), on (λ w, inside false now w ∧ ((Ok c : result bool FenceError) = Ok true → named w)) w2 →
    sat V (if c then _ ← wop (WSetHeld true); Ret (Ok true) else Ret (Ok false)) w2
      (λ w' (r : result bool FenceError), on (λ w, fw_mutex w = Some me ∧ (r = Ok true → launching me w)) w')) as Hend.
  { intros w2 [] [Hi2 H2]; [|by apply sat_ret, (Hfail _ _ false); [done|]; eapply Hin].
    apply sat_bind, (sat_call (WSetHeld true) w2 (λ _ w, fw_mutex w = Some me ∧ (Ok true = Ok true :> result bool FenceError → launching me w))); [done|..].
    - intros Ha. destruct (H2 Ha) as [(? & ? & _) Hn]. split; [done|]. split; [done|]. by apply Hn.
    - intros [] w3 Ha _ ->. destruct (H2 Ha) as [(? & ? & _) Hn]. split; [done|]. intros _. by apply Hn.
    - intros _. apply stable_and; [apply stable_mutex|apply stable_if, stable_launching].
    - intros [] w3 H3. by apply sat_ret. }
  apply sat_bind_ok. eapply sat_mono; [by apply try_claim_guest_sat|].
  intros w2 [[]|e] H2; [| |by eapply (Hfail _ _ false); [done|]; eapply Hin].
  { apply sat_bind_ok, sat_ret. exact (Hend w2 true H2). }
  apply sat_bind_ok, sat_bind_ok. eapply sat_mono; [by apply (reclaim_unheld_sat now); eapply Hin|].
  intros w3 [[x|]|e] H3; [|apply sat_ret; refine (Hend w3 false (on_mono _ _ _ H3 _)); intros; by split|by apply (Hfail _ _ false)].
  eapply sat_mono; [by apply try_claim_guest_sat|]. intros w4 [c|e] H4; [exact (Hend w4 c H4)|].
  apply (Hfail _ _ false); [done|]. by eapply Hin.
Qed.

Lemma on_true w : on (λ _, True) w ↔ fence_inv w.
Proof. split; [by intros []|done]. Qed.

Lemma sat_now w (Q : fworld → Timestamp → Prop) :
  fence_inv w → (∀ now w', on (λ w, now ≤ fw_clock w) w' → Q w' now) → sat V (wop WNow) w Q.
Proof.
  intros Hi HQ. apply (sat_unchanged WNow w (λ _, True) (λ now w, now ≤ fw_clock w)); try done.
  - by intros now w1 _ _ [_ ->].
  - intros now. apply stable_since.
Qed.

(** What [try_claim_guest_launch] calls a claim is this task's. *)
Lemma try_claim_guest_launch_sat w : fence_inv w →
  sat V try_claim_guest_launch w (λ w' r, on (λ w, r = Ok true → launching me w) w').
Proof.
  intros Hi. unfold try_claim_guest_launch. apply sat_bind, sat_now; [done|]. intros now w1 H1.
  apply sat_bind_ok, (sat_quiet WCreateRoot w1 (λ w, now ≤ fw_clock w)); [done..|apply stable_since|].
  intros [[]|e] w2 H2; [|by apply (on_mono _ _ _ H2)].
  apply (under_held_sat _ (λ w, now ≤ fw_clock w)); try done.
  - apply stable_since.
  - intros r. apply stable_if, stable_launching.
  - apply claim_or_reclaim_sat.
Qed.

Lemma reclaim_stale_guest_claim_sat w : fence_inv w →
  sat V reclaim_stale_guest_claim w (λ w' _, fence_inv w').
Proof.
  intros Hi. unfold reclaim_stale_guest_claim. apply sat_bind, sat_now; [done|]. intros now w1 H1.
  eapply sat_mono; [apply (under_held_sat _ (λ w, now ≤ fw_clock w) (λ _ _, True)); try done|by intros w2 r []].
  { apply stable_since. }
  intros w2 H2. apply sat_bind.
  apply (sat_unchanged WHeld w2 (λ w, fw_mutex w = Some me ∧ now ≤ fw_clock w) (λ b, inside b now)); try done.
  { intros b w3 _ [? ?] [_ ->]. done. }
  { intros b. apply stable_inside. }
  intros [] w3 H3.
  - apply sat_ret, (on_mono _ _ _ H3). by intros ? _ [? _].
  - eapply sat_mono; [by apply reclaim_unheld_sat|]. intros w4 r H4. apply (on_mono _ _ _ H4). by intros ? _ [? _].
Qed.

Lemma remove_retrying_sat n attempts attempt w : on (λ w, inside false n w ∧ guest_side w) w →
  sat V (remove_retrying attempts attempt) w (λ w' _, on (inside false n) w').
Proof.
  revert attempt w. induction attempts as [|attempts IH]; intros attempt w Hon; cbn [remove_retrying].
  { apply sat_ret, (on_mono _ _ _ Hon). by intros ? _ [? _]. }
  apply sat_bind. eapply sat_mono; [by apply remove_claim_sat|]. intros w1 r H1.
  destruct (is_ok r) eqn:Er; cbn [orb].
  { apply sat_ret, (on_mono _ _ _ H1). by intros ? _ [? _]. }
  case_bool_decide; [apply sat_ret, (on_mono _ _ _ H1); by intros ? _ [? _]|].
  apply sat_bind, (sat_quiet _ w1 (λ w, inside false n w ∧ guest_side w)); [done..| |apply stable_inside_side|].
  - apply (on_mono _ _ _ H1). intros ? _ [? Hg]. split; [done|]. by apply Hg.
  - intros [] w2 H2. by apply IH.
Qed.

Lemma release_guest_launch_sat w : on (launching me) w → sat V release_guest_launch w (λ w' _, fence_inv w').
Proof.
  intros Hon. unfold release_guest_launch.
  eapply sat_mono; [apply (under_held_sat _ (launching me) (λ _ _, True)); try done|by intros w1 r []].
  { apply stable_launching. }
  intros w1 [Hi1 H1]. apply sat_bind.
  set (n := fw_clock w1). apply (sat_call (WSetHeld false) w1 (λ _ w, inside false n w ∧ guest_side w)); [done|..].
  - intros Ha. by apply H1.
  - intros [] w2 Ha Hi2 ->. destruct (H1 Ha) as [Hm Hl]. split; [done|].
    apply named_side; [done|]. destruct Hl as (_ & d & o & Hd). split; [done|]. by exists d, o.
  - intros _. apply stable_inside_side.
  - intros [] w2 H2. eapply sat_mono; [by apply remove_retrying_sat|]. intros w3 r H3.
    apply (on_mono _ _ _ H3). by intros ? _ [? _].
Qed.

(** A launch is admitted only with the claim. *)
Lemma claim_fence_sat w : fence_inv w →
  sat V claim_fence w (λ w' r, on (λ w, ∀ claimed, r = Ok claimed → claimed = true ∧ launching me w) w').
Proof.
  intros Hi. unfold claim_fence. apply sat_bind.
  apply (sat_unchanged WReadConfig w (λ _, True) (λ x _, x ≠ Ok None)); try done.
  { by intros x w1 _ _ [_ ?]. }
  { by intros x w1 w2 _ _ _ _ ?. }
  intros [[c|]|e] w1 H1; [|by apply sat_ret, (on_mono _ _ _ H1)|by apply sat_ret, (on_mono _ _ _ H1)].
  apply sat_bind. eapply sat_mono; [apply try_claim_guest_launch_sat; by destruct H1|]. intros w2 [[]|e] H2.
  - assert (on (launching me) w2) as H2' by (apply (on_mono _ _ _ H2); intros ? _ H; by apply H).
    apply sat_bind, (sat_quiet WReadRequest w2 (launching me)); [done..|apply stable_launching|].
    intros [[r|]|e] w3 H3.
    + apply sat_bind, sat_bind. eapply sat_mono; [by apply release_guest_launch_sat|]. intros w4 r' H4. by apply sat_ret, sat_ret.
    + apply sat_ret, (on_mono _ _ _ H3). by intros ? _ ? ? [= <-].
    + apply sat_bind, sat_bind. eapply sat_mono; [by apply release_guest_launch_sat|]. intros w4 r' H4. by apply sat_ret, sat_ret.
  - apply sat_bind, (sat_quiet WReadOwner w2 (λ _, True)); [done..|by apply on_true; destruct H2|done|].
    intros x w3 H3. by apply sat_ret, (on_mono _ _ _ H3).
  - apply sat_bind, (sat_quiet WReadOwner w2 (λ _, True)); [done..|by apply on_true; destruct H2|done|].
    intros x w3 H3. by apply sat_ret, (on_mono _ _ _ H3).
Qed.

Lemma dead_sat {A} (m : wprogram A) w : on (λ _, False) w → sat V m w (λ w' _, fence_inv w').
Proof.
  intros [Hi Hd]. destruct m as [a|e k]; [done|]. split; [by split|]. intros x w' (w1 & [Ha _] & _). by destruct (Hd Ha).
Qed.
Lemma quiet_sat {A} (m : wprogram A) w : within quiet m → fence_inv w → sat V m w (λ w' _, fence_inv w').
Proof. intros Hm Hi. apply (sat_quietly _ w (λ _, True)); try done. by intros a w' []. Qed.

Lemma release_fence_sat w : on (launching me) w → sat V (release_fence true) w (λ w' _, fence_inv w').
Proof.
  intros Hon. apply sat_bind. eapply sat_mono; [by apply release_guest_launch_sat|]. intros w1 r H1. by apply sat_ret.
Qed.

Lemma launch_fenced_sat w : fence_inv w → sat V launch_fenced w (λ w' _, fence_inv w').
Proof.
  intros Hi. unfold launch_fenced. apply sat_bind. eapply sat_mono; [by apply claim_fence_sat|].
  intros w1 [claimed|cause] H1; [|apply quiet_sat; [quietly|by destruct H1]].
  destruct claimed; [|apply dead_sat; apply (on_mono _ _ _ H1); intros w2 _ H; by destruct (H false)].
  assert (on (launching me) w1) as H1' by (apply (on_mono _ _ _ H1); intros w2 _ H; by apply (H true)).
  assert (∀ e w2 (Q : fworld → wanswer e → Prop), quiet e → on (launching me) w2 →
    (∀ x w', on (launching me) w' → Q w' x) → sat V (wop e) w2 Q) as Hq.
  { intros e w2 Q [? ?] H2 HQ. apply (sat_quiet e w2 (launching me)); try done. apply stable_launching. }
  apply sat_bind, Hq; [done|done|]. intros [] w2 H2; cbn [negb].
  - apply sat_bind, (sat_quietly _ w2 (launching me)); [quietly|apply stable_launching|done|]. intros [] w3 H3.
    apply sat_bind, Hq; [done|done|]. intros [] w4 H4. apply sat_bind.
    apply (sat_call WLaunch w4 (λ _, launching me)); [by destruct H4|by destruct H4| |intros _; apply stable_launching|].
    { intros [] w5 Ha _ ->. by apply H4. }
    intros [] w5 H5. apply sat_bind. eapply sat_mono; [by apply release_fence_sat|]. intros w6 [] H6.
    by apply quiet_sat; [quietly|].
  - apply sat_bind, (sat_quietly _ w2 (launching me)); [quietly|apply stable_launching|done|]. intros [] w3 H3.
    apply sat_bind. eapply sat_mono; [by apply release_fence_sat|]. intros w4 [] H4. by apply sat_ret.
Qed.

Lemma guest_heartbeat_sat w : fence_inv w → sat V guest_heartbeat w (λ w' _, fence_inv w').
Proof. intros Hi. apply quiet_sat; [|done]. unfold guest_heartbeat. quietly. Qed.
End Guest.

(** *** The watchdog *)

Section Watchdog.
Context (watchdog : proc me = None).

Lemma windows_relies w w' :
  fence_inv w → alive me w → alive me w' → fence_rely me w w' → windows_rely w w'.
Proof.
  intros Hi Ha Ha' (_ & _ & _ & _ & H). specialize (H Hi Ha Ha').
  rewrite bool_decide_false in H; [done|]. rewrite watchdog. by intros [].
Qed.
Lemma stable_recovery g : stable (recovery_of g).
Proof. intros w w' Hi Ha Ha' Hr. apply windows_relies in Hr as [_ Hr]; auto. Qed.
(** What the watchdog may remove. *)
Definition removable w : Prop := fw_claiming w = true ∨ ∃ g, recovery_of g w.
Lemma stable_claiming : stable (λ w, fw_claiming w = true).
Proof. intros w w' Hi Ha Ha' Hr Hc. apply windows_relies in Hr as [Hr _]; try done. by apply Hr. Qed.
Lemma stable_removable : stable removable.
Proof.
  intros w w' Hi Ha Ha' Hr [Hc|[g Hg]]; [left; by apply (stable_claiming w)|right; exists g; by apply (stable_recovery g w)].
Qed.

Lemma windows_remove_sat w : on removable w → sat V remove_claim w (λ w' _, fence_inv w').
Proof.
  intros [Hi H]. apply (sat_call WRemoveFence w (λ _ _, True)); try done.
  - intros Ha. simpl. rewrite watchdog. by apply H.
  - by intros x w' [].
Qed.

(** A record read as Windows' stays: only the watchdog removes it. *)
Definition read_recovery (x : result (option FenceOwner) FenceError) w : Prop :=
  ∀ o, x = Ok (Some o) → fo_kind o = WindowsRecovery → recovery_of (fo_generation o) w.
Lemma windows_read_owner_sat w (Q : fworld → result (option FenceOwner) FenceError → Prop) :
  fence_inv w → (∀ x w', on (read_recovery x) w' → Q w' x) → sat V (wop WReadOwner) w Q.
Proof.
  intros Hi HQ. apply (sat_unchanged WReadOwner w (λ _, True) read_recovery); try done.
  - intros x w1 _ _ [_ Hx] o -> Hk. destruct Hx as [|[= Hx]]; [done|].
    destruct (fw_fence w1) as [d|] eqn:Hf; [|done]. by exists d, o.
  - intros x w1 w2 ? ? ? ? H o Ho Hk. apply (stable_recovery _ w1); auto.
Qed.

Lemma recovery_removable g o w : is_recovery_of g o = true → on (read_recovery (Ok (Some o))) w → on removable w.
Proof.
  intros [Hk _]%andb_true_iff H. apply bool_decide_eq_true in Hk. apply (on_mono _ _ _ H).
  intros w1 _ H1. right. eexists. by apply H1.
Qed.

Lemma clear_recovery_sat g w : fence_inv w → sat V (clear_recovery g) w (λ w' _, fence_inv w').
Proof.
  intros Hi. unfold clear_recovery. apply sat_bind_ok, windows_read_owner_sat; [done|].
  intros [owner|e] w1 H1; [|by destruct H1]. apply sat_bind_ok.
  assert (sat V (if from_option (is_recovery_of g) false owner then remove_claim else Ret (Ok tt)) w1
            (λ w' _, fence_inv w')) as Hr.
  { destruct owner as [o|]; simpl; [|by destruct H1]. destruct (is_recovery_of g o) eqn:E; [|by destruct H1].
    eapply windows_remove_sat, recovery_removable; done. }
  eapply sat_mono; [exact Hr|]. intros w2 [[]|e] H2; [|done]. apply quiet_sat; [quietly|done].
Qed.

Lemma retire_windows_recovery_sat w : fence_inv w → sat V retire_windows_recovery w (λ w' _, fence_inv w').
Proof.
  intros Hi. unfold retire_windows_recovery. apply sat_bind_ok, windows_read_owner_sat; [done|].
  intros [owner|e] w1 [H1 _]; [|done].
  assert (∀ (m : option Z) w, fence_inv w →
    sat V (match m with Some g => clear_recovery g | None => Ret (Ok tt) end) w (λ w' _, fence_inv w')) as Hm.
  { intros [g|] w2 H2; [by apply clear_recovery_sat|done]. }
  apply sat_bind_ok. eapply sat_mono; [by apply Hm|]. intros w2 [[]|e] H2; [|done].
  apply sat_bind_ok. eapply sat_mono; [by apply quiet_sat; [quietly|]|]. intros w3 [request|e] H3; [|done].
  apply sat_bind_ok. eapply (sat_mono _ _ _ (λ w' _, fence_inv w')).
  { destruct request as [r|]; [by apply (Hm (Some (dr_generation r)))|done]. }
  intros w4 [[]|e] H4; [|done]. by apply quiet_sat; [quietly|].
Qed.

Lemma retire_abandoned_sat now d w : fence_inv w →
  sat V (retire_abandoned_windows_recovery now d) w (λ w' _, fence_inv w').
Proof.
  intros Hi. unfold retire_abandoned_windows_recovery.
  apply sat_bind_ok. eapply sat_mono; [by apply quiet_sat; [quietly|]|]. intros w1 [request|e] H1; [|done].
  destruct (from_option _ _ _); [done|].
  apply sat_bind_ok. eapply sat_mono; [by apply quiet_sat; [quietly|]|]. intros w2 [owner|e] H2; [|done].
  destruct (from_option _ _ _); [done|].
  assert (sat V (_ ←? retire_windows_recovery; Ret (Ok true)) w2 (λ w' (_ : result bool FenceError), fence_inv w')) as Hr.
  { apply sat_bind_ok. eapply sat_mono; [by apply retire_windows_recovery_sat|]. by intros w3 [[]|e] H3. }
  destruct request; [exact Hr|]. case_match; [exact Hr|done].
Qed.

(** A claim of the recovery is its own. *)
Lemma try_claim_windows_sat g w : fence_inv w →
  sat V (try_claim WindowsRecovery (Some g)) w (λ w' r, on (λ w, r = Ok true → recovery_of (Some g) w) w').
Proof.
  intros Hi. unfold try_claim. apply sat_bind_ok. eapply sat_mono; [by apply quiet_sat; [quietly|]|].
  intros w1 [[]|e] H1; [|done]. apply sat_bind.
  apply (sat_call WCreateFence w1 (λ x w, x = Created → fw_claiming w = true)); [done|..].
  { intros _ []. congruence. }
  { intros x w2 Ha _ Hd ->. simpl in Hd. unfold with_claiming in Hd. rewrite watchdog in Hd.
    destruct (fw_fence w1); [done|]. by subst. }
  { intros x. apply stable_if, stable_claiming. }
  intros [| |] w2 H2; [|by apply sat_ret, (on_mono _ _ _ H2)..].
  assert (on (λ w, fw_claiming w = true) w2) as H2' by (apply (on_mono _ _ _ H2); intros ? _ H; by apply H).
  do 3 (apply sat_bind, (sat_quiet _ _ (λ w, fw_claiming w = true)); [done..|apply stable_claiming|]; intros ? ? ?).
  apply sat_bind. match goal with |- sat _ (op (WWriteOwner ?o)) ?w0 _ => set (me_owner := o); rename w0 into w5 end.
  assert (on (λ w, fw_claiming w = true) w5) as H5 by done.
  apply (sat_call (WWriteOwner me_owner) w5 (λ x w, (is_ok x = true → recovery_of (Some g) w) ∧ removable w)); [by destruct H5|..].
  - intros Ha. simpl. rewrite watchdog. split; [by apply H5|done].
  - intros y w6 Ha _ Hd. simpl in Hd. unfold with_claiming in Hd. rewrite watchdog in Hd.
    destruct Hd as [(d & Hf & ->)|[Hx ->]]; [|split; [congruence|left; by apply H5]].
    assert (recovery_of (Some g) (set_dir (Some (mk_dir (fd_by d) (Some me_owner) (fw_clock w5))) false w5)) as Hr
      by by do 2 eexists.
    split; [done|]. right. by exists (Some g).
  - intros y w6 w7 ? ? ? ? [Hx Hr]. split; [|by apply (stable_removable w6)].
    intros E. apply (stable_recovery _ w6); auto.
  - intros [[]|e] w6 H6.
    + apply sat_ret, (on_mono _ _ _ H6). intros w7 _ [Hr _] _. by apply Hr.
    + apply sat_bind, sat_bind. eapply sat_mono; [apply windows_remove_sat, (on_mono _ _ _ H6); by intros w7 _ [_ ?]|].
      intros w7 r H7. by apply sat_ret, sat_ret.
Qed.

Definition holds (held : bool) (g : Z) w : Prop := held = true → recovery_of (Some g) w.
Lemma stable_holds held g : stable (holds held g).
Proof. apply stable_if, stable_recovery. Qed.

Lemma claim_recovery_sat g held w : on (holds held g) w →
  sat V (claim_recovery g held) w (λ w' held', on (holds held' g) w').
Proof.
  intros Hon. unfold claim_recovery. destruct held; [by apply sat_ret|]. apply sat_bind.
  eapply sat_mono; [apply try_claim_windows_sat; by destruct Hon|]. intros w1 [[]|e] H1.
  - apply sat_ret, (on_mono _ _ _ H1). intros w2 _ H _. by apply H.
  - apply sat_bind, windows_read_owner_sat; [by destruct H1|]. intros x w2 H2. apply sat_ret, (on_mono _ _ _ H2).
    intros w3 _ H3. destruct x as [[o|]|e]; try done. intros [E1 E2]%andb_true_iff.
    apply bool_decide_eq_true in E1, E2. rewrite <- E2. by apply H3.
  - by apply sat_ret, (on_mono _ _ _ H1).
Qed.

(** Between turns: the tracker holds the fence only when its generation has it. *)
Definition tracked (t : Tracker) w : Prop :=
  tk_fence_held t = true → ∃ g, tk_generation t = Some g ∧ recovery_of (Some g) w.
Lemma stable_tracked t : stable (tracked t).
Proof.
  apply stable_if. intros w w' ? ? ? ? (g & ? & ?). exists g. split; [done|]. by apply (stable_recovery _ w).
Qed.

Lemma recover_named_sat g w : on (recovery_of g) w → sat V recover_named w (λ w' _, on (recovery_of g) w').
Proof.
  intros [Hi H]. unfold recover_named. apply sat_bind.
  apply (sat_call WTerminate w (λ _, recovery_of g)); [done|..].
  - intros Ha. split; [done|]. exists g. by apply H.
  - intros x w1 Ha _ [->|[_ ->]]; by apply H.
  - intros _. apply stable_recovery.
  - intros x w1 H1. destruct x; cbn [negb]; [|by apply sat_ret].
    apply (sat_quietly _ w1 (recovery_of g)); [|apply stable_recovery|done|done]. unfold await_healthy. quietly.
Qed.

Lemma act_on_sat g d t w : (d = TerminateNamed → tk_fence_held t = true) → tk_generation t = Some g →
  on (holds (tk_fence_held t) g) w → sat V (act_on g d t) w (λ w' t', on (tracked t') w').
Proof.
  intros Hd Hg Hon.
  assert (∀ w1 a, on (holds (tk_fence_held t) g) w1 → on (tracked (with_attempts a t)) w1) as Hends.
  { intros w1 a H1. apply (on_mono _ _ _ H1). intros w2 _ H2 E. exists g. split; [done|]. by apply H2. }
  assert (∀ {A} (m : wprogram A) w1 (Q : fworld → A → Prop), within quiet m → on (holds (tk_fence_held t) g) w1 →
    (∀ w2 a, on (holds (tk_fence_held t) g) w2 → Q w2 a) → sat V m w1 Q) as Hq.
  { intros A m w1 Q Hm H1 HQ. apply (sat_quietly m w1 (holds (tk_fence_held t) g)); auto. apply stable_holds. }
  assert (with_attempts (tk_recovery_attempts t) t = t) as Et by by destruct t.
  destruct d; cbn [act_on];
    try (apply sat_bind, Hq; [quietly|done|]; intros w1 [] H1; apply sat_ret; rewrite <- Et; by apply Hends).
  specialize (Hd eq_refl). rewrite Hd in Hon, Hq, Hends.
  apply sat_bind, Hq; [quietly|done|]. intros w1 [] H1. apply sat_bind, Hq; [quietly|done|]. intros w2 now H2.
  apply sat_bind. eapply sat_mono.
  { apply (recover_named_sat (Some g)), (on_mono _ _ _ H2). intros ? _ H. by apply H. }
  intros w3 [] H3.
  - apply sat_bind, sat_bind. eapply sat_mono; [apply clear_recovery_sat; by destruct H3|]. intros w4 r H4.
    apply sat_ret, sat_bind. eapply sat_mono; [by apply quiet_sat; [quietly|]|]. intros w5 at_ H5.
    apply sat_bind. eapply sat_mono; [by apply quiet_sat; [quietly|]|]. intros w6 [] H6. by apply sat_ret.
  - apply sat_bind, Hq; [quietly| |].
    + apply (on_mono _ _ _ H3). by intros ? _ ? _.
    + intros w4 [] H4. by apply sat_ret, Hends.
Qed.

Lemma observe_healthy_sat t w : fence_inv w → sat V (observe_healthy t) w (λ w' t', on (tracked t') w').
Proof.
  intros Hi. unfold observe_healthy. apply sat_bind. eapply (sat_mono _ _ _ (λ w' _, fence_inv w')).
  { destruct (tk_generation t) as [g|]; [|done]. apply sat_bind. eapply sat_mono; [by apply clear_recovery_sat|].
    intros w1 r H1. by apply sat_ret. }
  intros w1 [] H1. apply sat_bind. eapply sat_mono; [by apply quiet_sat; [quietly|]|]. intros w2 now H2.
  apply sat_bind, sat_bind. eapply sat_mono; [by apply retire_abandoned_sat|]. intros w3 r H3. apply sat_ret.
  apply sat_bind. eapply sat_mono; [by apply quiet_sat; [quietly|]|]. intros w4 [] H4. by apply sat_ret.
Qed.

Lemma read_inventory_quiet h t : within quiet (read_inventory h t).
Proof.
  destruct h as [h|]; [|exact I]. apply within_bind; [|intros; exact I].
  generalize (0, 0). induction (hb_managed_targets h) as [|x l IH]; intros acc; cbn [github_inventory]; quietly. apply IH.
Qed.
Lemma read_inventory_keeps h t : returns (λ x, tk_fence_held x.2 = tk_fence_held t ∧ tk_generation x.2 = tk_generation t)
  (read_inventory h t).
Proof. destruct h as [h|]; [|done]. apply returns_bind. by intros a. Qed.
Lemma quiescence_keeps h g t :
  tk_fence_held (update_guest_quiescence h g t) = tk_fence_held t ∧
  tk_generation (update_guest_quiescence h g t) = tk_generation t.
Proof. unfold update_guest_quiescence. destruct h; [case_match|]; done. Qed.

Lemma evidence_held t g span owned wsl2 h counts now :
  decide_recovery_of (evidence_of t g span owned wsl2 h counts now) = TerminateNamed → tk_fence_held t = true.
Proof. intros ((_ & _ & _ & _ & _ & H) & _)%termination_ladder. exact H. Qed.

Lemma judge_sat owned wsl2 g first t w : tk_generation t = Some g →
  on (holds (tk_fence_held t) g) w → sat V (judge owned wsl2 g first t) w (λ w' t', on (tracked t') w').
Proof.
  intros Hg Hon. unfold judge. apply sat_bind. eapply sat_mono; [by apply claim_recovery_sat|]. intros w1 held H1.
  assert (∀ {A} (m : wprogram A) w1 (Q : fworld → A → Prop), within quiet m → on (holds held g) w1 →
    (∀ a w2, on (holds held g) w2 → Q w2 a) → sat V m w1 Q) as Hq.
  { intros A m w2 Q Hm H2 HQ. apply (sat_quietly m w2 (holds held g)); auto. apply stable_holds. }
  apply sat_bind, Hq; [quietly|done|]. intros read w2 H2.
  set (h := match read with Ok h => h | Err _ => None end). apply sat_bind.
  destruct (quiescence_keeps h g (with_fence held t)) as [Ef Eg].
  eapply sat_mono.
  { eapply sat_returns; [apply read_inventory_keeps|].
    apply (sat_quietly _ w2 (holds held g)); [apply read_inventory_quiet|apply stable_holds|done|].
    by intros ? ? H; exact H. }
  intros w3 [counts t3] [H3 [E1 E2]]. cbn [fst snd] in *. rewrite Ef in E1. rewrite Eg in E2. simpl in E1, E2.
  do 2 (apply sat_bind, Hq; [quietly|done|]; intros ? ? ?).
  apply sat_bind, Hq; [quietly|done|]. intros elapsed w6 H6.
  apply act_on_sat; [apply evidence_held|simpl; congruence|]. simpl. by rewrite E1.
Qed.

Lemma observe_unhealthy_sat owned wsl2 t w : on (tracked t) w →
  sat V (observe_unhealthy owned wsl2 t) w (λ w' t', on (tracked t') w').
Proof.
  intros Hon. unfold observe_unhealthy.
  assert (∀ {A} (m : wprogram A) w1 (Q : fworld → A → Prop), within quiet m → on (tracked t) w1 →
    (∀ a w2, on (tracked t) w2 → Q w2 a) → sat V m w1 Q) as Hq.
  { intros A m w2 Q Hm H2 HQ. apply (sat_quietly m w2 (tracked t)); auto. apply stable_tracked. }
  apply sat_bind, Hq; [quietly|done|]. intros first w1 H1. apply sat_bind.
  set (fixed g := default g (tk_generation t) = g).
  eapply (sat_mono _ _ _ (λ w' g, on (tracked t) w' ∧ fixed g)).
  { unfold fixed. destruct (tk_generation t) as [g|]; [by split|]. apply Hq; [quietly|done|]. by intros. }
  intros w2 g [H2 Hg]. apply sat_bind, Hq; [quietly|done|]. intros now w3 H3.
  apply sat_bind, Hq; [quietly|done|]. intros written w4 H4.
  set (t1 := mk_tracker _ _ _ _ _ _ _ _ _ _).
  assert (on (holds (tk_fence_held t1) g) w4) as H4'.
  { apply (on_mono _ _ _ H4). intros w5 _ Ht E. destruct (Ht E) as (g' & Eg & Hr). unfold fixed in Hg.
    rewrite Eg in Hg. simpl in Hg. by subst. }
  destruct written as [[]|e]; [by apply judge_sat|].
  apply sat_bind, (sat_quietly _ w4 (holds (tk_fence_held t1) g)); [quietly|apply stable_holds|done|].
  intros [] w5 H5. apply sat_ret, (on_mono _ _ _ H5). intros w6 _ H E. exists g. split; [done|by apply H].
Qed.

Lemma observe_sat t w : on (tracked t) w → sat V (observe t) w (λ w' t', on (tracked t') w').
Proof.
  intros Hon. unfold observe.
  assert (∀ {A} (m : wprogram A) w1 (Q : fworld → A → Prop), within quiet m → on (tracked t) w1 →
    (∀ a w2, on (tracked t) w2 → Q w2 a) → sat V m w1 Q) as Hq.
  { intros A m w2 Q Hm H2 HQ. apply (sat_quietly m w2 (tracked t)); auto. apply stable_tracked. }
  apply sat_bind, Hq; [quietly|done|]. intros [] w1 H1; [|by apply sat_ret]. cbn [negb].
  apply sat_bind, Hq; [quietly|done|]. intros owned w2 H2. apply sat_bind, Hq; [quietly|done|]. intros wsl2 w3 H3.
  apply sat_bind, Hq; [quietly|done|]. intros [] w4 H4.
  - apply observe_healthy_sat. by destruct H4.
  - by apply observe_unhealthy_sat.
Qed.

Lemma maintain_sat n t w : on (tracked t) w → sat V (maintain_distribution n t) w (λ w' _, fence_inv w').
Proof.
  revert t w. induction n as [|n IH]; intros t w Hon; cbn [maintain_distribution]; [by apply sat_ret; destruct Hon|].
  apply sat_bind, (sat_quietly _ w (tracked t)); [quietly|apply stable_tracked|done|]. intros record w1 H1.
  apply sat_bind. eapply (sat_mono _ _ _ (λ w' t', on (tracked t') w')).
  - destruct record as [[]|e]; [by apply observe_sat| |by apply sat_ret].
    apply sat_bind, (sat_quietly _ w1 (tracked t)); [quietly|apply stable_tracked|done|].
    intros [] w2 H2. by apply sat_ret.
  - intros w2 t' H2. apply sat_bind, (sat_quietly _ w2 (tracked t')); [quietly|apply stable_tracked|done|].
    intros [] w3 H3. by apply IH.
Qed.
End Watchdog.
End Task.

(** ** All of them *)

(** What a task of the guest does; a watchdog runs for some turns. *)
Inductive guest_task := GLaunch | GHeartbeat | GReclaim.
Definition task_program (guests : nat → guest_task) (turns : nat → nat) (i : nat) : wprogram unit :=
  match proc i with
  | Some _ => match guests i with
              | GLaunch => _ ← launch_fenced; mret tt
              | GHeartbeat => guest_heartbeat
              | GReclaim => _ ← reclaim_stale_guest_claim; mret tt
              end
  | None => _ ← maintain_distribution (turns i) Tracker_default; mret tt
  end.

(** Nobody has begun: whatever directory there is was left behind. *)
Definition at_rest w : Prop := fw_mutex w = None ∧ fw_held w = false ∧ fw_claiming w = false.

Definition fence_reachable guests turns w0 (p : pool) w : Prop :=
  clos_refl_trans_1n _ (pool_step fence_act fence_tick) (task_program guests turns, w0) (p, w).

Lemma tasks_settled guests turns w0 :
  at_rest w0 → all_settled fence_asks fence_act fence_rely (λ _ w _, fence_inv w) (task_program guests turns, w0).
Proof.
  intros (Hm & Hh & Hc) i. unfold settled. cbn [fst snd]. intros w Hr.
  assert (fence_inv w) as Hi by (apply Hr, inv_idle; done). unfold task_program.
  assert (∀ {A} (m : wprogram A), sat (task_env fence_asks fence_act fence_rely i) m w (λ w' _, fence_inv w') →
    sat (task_env fence_asks fence_act fence_rely i) (_ ← m; mret tt) w (λ w' _, fence_inv w')) as Hb.
  { intros A m H. apply sat_bind. eapply sat_mono; [exact H|]. by intros w' a ?. }
  destruct (proc i) as [p|] eqn:Hp; [destruct (guests i)|]; try apply Hb.
  - by eapply launch_fenced_sat.
  - by apply guest_heartbeat_sat.
  - by eapply reclaim_stale_guest_claim_sat.
  - apply maintain_sat; [done|]. split; [done|]. by intros _ [=].
Qed.

Lemma tasks_sound guests turns w0 p w : at_rest w0 → fence_reachable guests turns w0 p w →
  ∀ i e k, p i = Op e k → fence_inv w ∧ (alive i w → demand i w e).
Proof.
  intros Hw Hr i e k Hi.
  pose proof (pool_sound fence_asks fence_act fence_tick fence_rely (λ _ w _, fence_inv w)
    fence_act_rely fence_tick_rely _ _ Hr (tasks_settled guests turns w0 Hw) i) as H.
  cbn [fst snd] in H. by rewrite Hi in H.
Qed.

(** In a launch, or about to terminate the distribution. *)
Definition critical (m : wprogram unit) : Prop :=
  match m with Op WLaunch _ | Op WTerminate _ => True | _ => False end.

(** C13: launches and recoveries exclude each other, on the assumptions of this file: one
    watchdog lives at a time, both sides read one clock, the provider's configuration is
    there whenever it can be read, and a live watchdog that made the directory of the fence
    records itself in it before the grace of an ownerless claim is over. Then, however many
    launches, heartbeats and reclamations run in the guest, however often the guest's
    process and the watchdog die and start again, whatever directory an earlier process
    left behind and whatever file operation fails: no two live tasks are ever in a launch
    or a termination at once, a launch has its own record in the fence, and a termination
    has a recovery's. *)
Theorem launches_exclude_recovery guests turns w0 p w :
  at_rest w0 → fence_reachable guests turns w0 p w →
  (∀ i j, alive i w → alive j w → critical (p i) → critical (p j) → i = j) ∧
  (∀ i k, alive i w → p i = Op WLaunch k → launching i w) ∧
  (∀ i k, alive i w → p i = Op WTerminate k → ∃ g, recovery_of g w).
Proof.
  intros Hw Hr. pose proof (tasks_sound _ _ _ _ _ Hw Hr) as Hs.
  assert (∀ i, alive i w → critical (p i) →
    fence_inv w ∧ (launching i w ∨ (proc i = None ∧ ∃ g, recovery_of g w))) as Hc.
  { intros i Ha Hi. destruct (p i) as [|e k] eqn:E; [done|]. destruct (Hs i e k E) as [Hinv Hd]. specialize (Hd Ha).
    split; [done|]. destruct e; try done; simpl in Hd; auto. }
  split; [|split].
  - intros i j Hai Haj Hi Hj. destruct (Hc i Hai Hi) as [Hinv [Li|[Pi [g Ri]]]], (Hc j Haj Hj) as [_ [Lj|[Pj [g' Rj]]]].
    + destruct (claim_exclusive w i Hinv Li) as (_ & Hu & _). by rewrite (Hu j).
    + destruct (claim_exclusive w i Hinv Li) as (_ & _ & Hn). by destruct (Hn g').
    + destruct (claim_exclusive w j Hinv Lj) as (_ & _ & Hn). by destruct (Hn g).
    + unfold alive in *. rewrite Pi, Pj in *. congruence.
  - intros i k Ha E. by apply (Hs i WLaunch k E).
  - intros i k Ha E. by apply (Hs i WTerminate k E).
Qed.
End World.
