(* ===== verification/FenceRuns.v ===== *)
(** * Runs of the launch fence

    What the watchdog must have read before it terminates a distribution; a scheduler
    whose runs are interleavings of [FenceSafety]'s world; and concrete runs: a launch
    that reclaims what a dead process left behind and then holds the watchdog off, and a
    recovery that waits for its proofs and then holds a launch off. *)

From Stdlib Require Import Relations.
From stdpp Require Import strings.
From S2P Require Import Prelude RustStr Ordered Model Policy Effects Tasks Process Fence FenceSafety.
#[local] Open Scope Z_scope.
#[local] Open Scope rust_scope.

(** ** The proofs of a termination *)

Lemma termination_conditions t g span owned wsl2 h counts now :
  decide_recovery_of (evidence_of t g span owned wsl2 h counts now) = TerminateNamed ↔
  (Z.of_nat (length (tk_recovery_attempts t)) < CIRCUIT_LIMIT ∧ tk_fence_held t = true ∧ owned = true ∧ wsl2 = true) ∧
  (FAILURE_THRESHOLD ≤ tk_failures t ∧ MINIMUM_FAILURE_SPAN ≤ span) ∧
  (counts = Some (0, 0) ∧ 2 ≤ tk_zero_inventory_reads t) ∧
  ∃ b active, h = Some b ∧ hb_acknowledged_generation b = Some g ∧
    0 ≤ now - hb_observed_at b ≤ MAX_HEARTBEAT_AGE ∧
    hb_unmanaged_runner_services b = Some 0 ∧ hb_local_busy_attempts b = Some 0 ∧
    hb_local_active_attempts b = Some active ∧
    2 ≤ (if bool_decide (active = 0) then tk_zero_heartbeats t else tk_no_busy_heartbeats t).
Proof.
  rewrite termination_ladder. unfold may_terminate, window_past, guest_drained, github_agrees, evidence_of. simpl.
  rewrite bool_decide_eq_false, bool_decide_eq_true. split.
  - intros ((? & _ & ? & ? & ? & ?) & (? & s & [= ->] & ?) & (Ha & (age & Hage & ?) & Hu & Hb & active & Hact & ?) & Hbusy & Honl & ?).
    destruct h as [b|]; simpl in *; [|done]. destruct counts as [[busy online]|]; simpl in *; [|done]. injection Hbusy as ->. injection Honl as ->.
    destruct (bool_decide (0 ≤ _)) eqn:E in Hage; [|done]. apply bool_decide_eq_true in E. injection Hage as <-.
    split_and!; try done; try lia. by exists b, active.
  - intros ((? & ? & ? & ?) & (? & ?) & (-> & ?) & b & active & -> & ? & ? & ? & ? & ? & ?). simpl.
    rewrite bool_decide_true by lia. split_and!; try done; try lia; eauto.
    eexists. split; [done|]. lia.
Qed.

(** What a turn reads: the heartbeat, and with one the busy and online managed runners GitHub
    lists, when the listing is complete. *)
Definition reading : Type := option GuestHeartbeat * option (Z * Z).
(** What [judge] makes of it, in the recovery of generation [g]. *)
Definition take_reading (g : Z) (t : Tracker) (r : reading) : Tracker :=
  let t := update_guest_quiescence r.1 g t in
  match r.1 with Some _ => count_inventory r.2 t | None => t end.

Lemma reading_taken g t h :
  returns (λ x, x.2 = take_reading g t (h, x.1)) (read_inventory h (update_guest_quiescence h g t)).
Proof. unfold read_inventory. destruct h as [b|]; [|done]. by apply returns_bind. Qed.

(** The counters a reading may move. *)
Definition tallies (t : Tracker) : Z * Z * Z :=
  (tk_zero_heartbeats t, tk_no_busy_heartbeats t, tk_zero_inventory_reads t).

(** The guest acknowledged the drain and has no attempt, or none that is busy. *)
Definition idle (g : Z) (b : GuestHeartbeat) : bool :=
  bool_decide (hb_acknowledged_generation b = Some g) && bool_decide (hb_local_active_attempts b = Some 0).
Definition not_busy (g : Z) (b : GuestHeartbeat) : bool :=
  bool_decide (hb_acknowledged_generation b = Some g) && bool_decide (hb_local_busy_attempts b = Some 0).

(** Nothing newer than [b] was read; [missing] readings do not count. *)
Definition same_as (missing : bool) (b : GuestHeartbeat) (r : reading) : Prop :=
  match r.1 with Some h => hb_observed_at h = hb_observed_at b | None => missing = true end.
(** The last two heartbeats were good, and are not the same one. *)
Definition confirmed (missing : bool) (good : GuestHeartbeat → bool) (l : list reading) : Prop :=
  ∃ l1 b1 c1 l2 b2 c2 l3, l = l1 ++ (Some b1, c1) :: l2 ++ (Some b2, c2) :: l3 ∧
    good b1 = true ∧ good b2 = true ∧ hb_observed_at b1 ≠ hb_observed_at b2 ∧
    Forall (same_as missing b1) l2 ∧ Forall (same_as missing b2) l3.
(** The last two listings were empty; without a heartbeat there is none. *)
Definition empty_twice (l : list reading) : Prop :=
  ∃ l1 b1 l2 b2 l3, l = l1 ++ (Some b1, Some (0, 0)) :: l2 ++ (Some b2, Some (0, 0)) :: l3 ∧
    Forall (λ r, r.1 = None) (l2 ++ l3).

Lemma sat_add_reaches n k : 1 ≤ k → k + 1 ≤ sat_add U8_MAX n 1 → k ≤ n.
Proof. unfold sat_add. lia. Qed.

(** A counter of good heartbeats. *)
Section Streak.
Context (g : Z) (missing : bool) (good : GuestHeartbeat → bool) (count : Tracker → Z) (t0 : Tracker).
Context (count_none : ∀ t c, count (take_reading g t (None, c)) = if missing then count t else 0).
Context (count_some : ∀ t h c, count (take_reading g t (Some h, c)) =
  if bool_decide (tk_last_heartbeat t = Some (hb_observed_at h)) then count t
  else if good h then sat_add U8_MAX (count t) 1 else 0).
Context (count_start : count t0 = 0).

Lemma last_some t h c : tk_last_heartbeat (take_reading g t (Some h, c)) = Some (hb_observed_at h).
Proof. unfold take_reading. simpl. by case_bool_decide. Qed.

(** The same, and the last heartbeat the tracker knows is the last of them. *)
Definition one_good (l : list reading) (last : option Timestamp) : Prop :=
  ∃ l1 b c l2, l = l1 ++ (Some b, c) :: l2 ∧ good b = true ∧ Forall (same_as missing b) l2 ∧
    last = Some (hb_observed_at b).
Definition two_good (l : list reading) (last : option Timestamp) : Prop :=
  ∃ l1 b1 c1 l2 b2 c2 l3, l = l1 ++ (Some b1, c1) :: l2 ++ (Some b2, c2) :: l3 ∧
    good b1 = true ∧ good b2 = true ∧ hb_observed_at b1 ≠ hb_observed_at b2 ∧
    Forall (same_as missing b1) l2 ∧ Forall (same_as missing b2) l3 ∧ last = Some (hb_observed_at b2).

Lemma one_good_again l last r :
  (∀ b, last = Some (hb_observed_at b) → same_as missing b r) → one_good l last → one_good (l ++ [r]) last.
Proof.
  intros Hr (l1 & b & c & l2 & -> & ? & ? & E). exists l1, b, c, (l2 ++ [r]). rewrite <- app_assoc.
  split_and!; [done|done| |done]. apply Forall_app. auto.
Qed.
Lemma two_good_again l last r :
  (∀ b, last = Some (hb_observed_at b) → same_as missing b r) → two_good l last → two_good (l ++ [r]) last.
Proof.
  intros Hr (l1 & b1 & c1 & l2 & b2 & c2 & l3 & -> & ? & ? & ? & ? & ? & E).
  exists l1, b1, c1, l2, b2, c2, (l3 ++ [r]). split_and!; try done; [by simplify_list_eq|]. apply Forall_app. auto.
Qed.
Lemma one_more_good l last h c :
  good h = true → last ≠ Some (hb_observed_at h) → one_good l last → two_good (l ++ [(Some h, c)]) (Some (hb_observed_at h)).
Proof.
  intros Hg Hne (l1 & b & c' & l2 & -> & ? & ? & E). exists l1, b, c', l2, h, c, [].
  split_and!; try done; [by simplify_list_eq|congruence].
Qed.

Lemma streak l : let t := foldl (take_reading g) t0 l in
  (1 ≤ count t → one_good l (tk_last_heartbeat t)) ∧ (2 ≤ count t → two_good l (tk_last_heartbeat t)).
Proof.
  induction l as [|[h c] l IH] using rev_ind; cbn zeta in *; [simpl; rewrite count_start; split; lia|].
  rewrite foldl_app. cbn [foldl]. set (t := foldl _ t0 l) in *. destruct IH as [IH1 IH2]. destruct h as [h|].
  - rewrite count_some, last_some. case_bool_decide as E.
    { rewrite E in *. split; intros; [apply one_good_again|apply two_good_again]; auto; intros b Eb; unfold same_as; simpl; congruence. }
    destruct (good h) eqn:Hg; [|split; lia]. split; [intros _; by exists l, h, c, []|].
    intros Hn%(sat_add_reaches _ 1); [|lia]. eapply one_more_good; eauto.
  - rewrite count_none. change (tk_last_heartbeat (take_reading g t (None, c))) with (tk_last_heartbeat t).
    destruct missing eqn:Em; [|split; lia]. split; intros; [apply one_good_again|apply two_good_again]; auto.
Qed.
Lemma streak_confirmed l : 2 ≤ count (foldl (take_reading g) t0 l) → confirmed missing good l.
Proof.
  intros (l1 & b1 & c1 & l2 & b2 & c2 & l3 & ? & ? & ? & ? & ? & ? & _)%streak. by exists l1, b1, c1, l2, b2, c2, l3.
Qed.
End Streak.

Lemma idle_streak g t0 l : tk_zero_heartbeats t0 = 0 →
  2 ≤ tk_zero_heartbeats (foldl (take_reading g) t0 l) → confirmed false (idle g) l.
Proof.
  intros H0. apply (streak_confirmed g false (idle g) tk_zero_heartbeats t0); [done| |done].
  intros t h c. unfold take_reading. simpl. by case_bool_decide.
Qed.
Lemma not_busy_streak g t0 l : tk_no_busy_heartbeats t0 = 0 →
  2 ≤ tk_no_busy_heartbeats (foldl (take_reading g) t0 l) → confirmed true (not_busy g) l.
Proof.
  intros H0. apply (streak_confirmed g true (not_busy g) tk_no_busy_heartbeats t0); [done| |done].
  intros t h c. unfold take_reading. simpl. by case_bool_decide.
Qed.

Lemma empty_streak g t0 l : tk_zero_inventory_reads t0 = 0 →
  2 ≤ tk_zero_inventory_reads (foldl (take_reading g) t0 l) → empty_twice l.
Proof.
  intros H0. cut (let n := tk_zero_inventory_reads (foldl (take_reading g) t0 l) in
    (1 ≤ n → ∃ l1 b l2, l = l1 ++ (Some b, Some (0, 0)) :: l2 ∧ Forall (λ r, r.1 = None) l2) ∧ (2 ≤ n → empty_twice l)).
  { by intros [_ ?]. }
  induction l as [|[h c] l IH] using rev_ind; cbn zeta in *; [simpl; rewrite H0; split; lia|].
  rewrite foldl_app. cbn [foldl]. set (t := foldl _ t0 l) in *. destruct IH as [IH1 IH2].
  destruct h as [h|].
  - assert (tk_zero_inventory_reads (take_reading g t (Some h, c)) =
      if bool_decide (c = Some (0, 0)) then sat_add U8_MAX (tk_zero_inventory_reads t) 1 else 0) as ->.
    { unfold take_reading, count_inventory. cbn [fst snd with_inventory_reads tk_zero_inventory_reads].
      assert (tk_zero_inventory_reads (update_guest_quiescence (Some h) g t) = tk_zero_inventory_reads t) as ->
        by (simpl; by case_bool_decide).
      destruct c as [[busy online]|]; [|by rewrite bool_decide_false]. repeat case_bool_decide; naive_solver. }
    case_bool_decide as E; [subst c|split; lia]. split; [intros _; by exists l, h, []|].
    intros (l1 & b & l2 & -> & HF)%(sat_add_reaches _ 1)%IH1; [|lia]. exists l1, b, l2, h, [].
    rewrite app_nil_r. split; [by simplify_list_eq|done].
  - change (tk_zero_inventory_reads (take_reading g t (None, c))) with (tk_zero_inventory_reads t). split.
    + intros (l1 & b & l2 & -> & HF)%IH1. exists l1, b, (l2 ++ [(None, c)]). rewrite <- app_assoc.
      split; [done|]. apply Forall_app. auto.
    + intros (l1 & b1 & l2 & b2 & l3 & -> & HF)%IH2. exists l1, b1, l2, b2, (l3 ++ [(None, c)]).
      split; [by simplify_list_eq|]. rewrite app_assoc. apply Forall_app. auto.
Qed.

(** C27: the watchdog terminates the distribution exactly when it has every proof. With the
    circuit closed (fewer than three recoveries in the window), the fence held, a
    product-owned task and a WSL2 distribution, three failed probes over at least five
    minutes; a heartbeat no older than thirty seconds that acknowledges this drain, reports
    no unmanaged runner service and no busy attempt; a complete listing of GitHub without a
    busy or online managed runner; and the counters at two. The counters say what was read
    since they were last cleared: the last two heartbeats, of different times, both
    acknowledged this drain and reported no attempt (or, if there is one that is not busy,
    none busy), and the last two listings were empty. Missing heartbeats in between do not
    count against the latter two. *)
Theorem termination_needs_every_proof g t0 l h counts t span owned wsl2 now :
  tallies t0 = (0, 0, 0) → tallies t = tallies (foldl (take_reading g) t0 (l ++ [(h, counts)])) →
  let decision := decide_recovery_of (evidence_of t g span owned wsl2 h counts now) in
  (decision = TerminateNamed ↔
    (Z.of_nat (length (tk_recovery_attempts t)) < CIRCUIT_LIMIT ∧ tk_fence_held t = true ∧ owned = true ∧ wsl2 = true) ∧
    (FAILURE_THRESHOLD ≤ tk_failures t ∧ MINIMUM_FAILURE_SPAN ≤ span) ∧
    (counts = Some (0, 0) ∧ 2 ≤ tk_zero_inventory_reads t) ∧
    ∃ b active, h = Some b ∧ hb_acknowledged_generation b = Some g ∧
      0 ≤ now - hb_observed_at b ≤ MAX_HEARTBEAT_AGE ∧
      hb_unmanaged_runner_services b = Some 0 ∧ hb_local_busy_attempts b = Some 0 ∧
      hb_local_active_attempts b = Some active ∧
      2 ≤ (if bool_decide (active = 0) then tk_zero_heartbeats t else tk_no_busy_heartbeats t)) ∧
  (decision = TerminateNamed → empty_twice (l ++ [(h, counts)]) ∧
    (confirmed false (idle g) (l ++ [(h, counts)]) ∨
     (h ≫= hb_local_active_attempts) ≠ Some 0 ∧ confirmed true (not_busy g) (l ++ [(h, counts)]))).
Proof.
  intros H0 Ht decision. pose proof (termination_conditions t g span owned wsl2 h counts now) as Hiff.
  split; [exact Hiff|]. unfold tallies in *. injection H0 as Z0 N0 I0. injection Ht as Zt Nt It. intros Hd.
  apply Hiff in Hd as (_ & _ & (_ & Hi) & b & active & -> & _ & _ & _ & _ & Ha & Hn). split.
  - rewrite It in Hi. by eapply empty_streak.
  - case_bool_decide; [left; rewrite Zt in Hn; by eapply idle_streak|right].
    rewrite Nt in Hn. simpl. split; [congruence|]. by eapply not_busy_streak.
Qed.

(** ** A scheduler *)

Section Scheduler.
Context (proc : nat → option nat).
(** The guest cannot be reached, its heartbeats acknowledge [drain] and show no attempt;
    every process but [self] is gone. *)
Context (drain : Z) (self : ProcessIdentity).

Definition serve_answer (w : fworld) (e : wcall) : wanswer e :=
  match e return wanswer e with
  | WCreateFence => match fw_fence w with None => Created | Some _ => AlreadyExists end
  | WCreateRoot | WWriteOwner _ | WRemoveFence | WWriteRequest _ | WRemoveRequest | WWriteStatus _
  | WRemoveStatus | WWriteHeartbeat _ | WRecordBlocked _ _ _ | WClearBlocked => Ok tt
  | WReadOwner => Ok (fw_fence w ≫= fd_owner)
  | WFenceModified => Ok (fd_modified <$> fw_fence w)
  | WReadRequest => Ok None
  | WReadHeartbeat => Ok (Some (mk_heartbeat (fw_clock w) (Some drain) (Some 0) (Some 0) [] (Some 0)))
  | WReadConfig => Ok (Some (mk_guest_config 1 []))
  | WNow | WInstant | WProcessStarted => fw_clock w
  | WPid => pi_pid self
  | WInFlight => 0
  | WIdentity => Some self
  | WRecheck i => Some (if bool_decide (i = self) then AdoptLive else AdoptGone)
  | WPidAlive _ => None
  | WBootTime => None
  | WRecord => Ok true
  | WHeld => fw_held w
  | WHost | WInnerLock | WTaskOwned | WIsWsl2 | WTerminate => true
  | WProbe => false
  | WRefusals f => f (mk_refusals None false)
  | WAttempts => Some []
  | WPolicies => Some []
  | WUnmanagedServices => Some 0
  | WInventory _ => None
  | _ => tt
  end.
Definition serve_world (i : nat) (w : fworld) (e : wcall) : fworld :=
  match e with
  | WCreateFence =>
      match fw_fence w with
      | None => set_dir (Some (mk_dir i None (fw_clock w))) (with_claiming proc i true w) w
      | Some _ => w
      end
  | WWriteOwner o =>
      match fw_fence w with
      | Some d => set_dir (Some (mk_dir (fd_by d) (Some o) (fw_clock w))) (with_claiming proc i false w) w
      | None => w
      end
  | WRemoveFence => set_dir None (with_claiming proc i false w) w
  | WHeldLock => set_mutex (Some i) w
  | WHeldUnlock => set_mutex None w
  | WSetHeld b => set_held b w
  | WTerminate => guest_died (S (fw_guest w)) w
  | _ => w
  end.
Definition living (i : nat) (w : fworld) : bool :=
  match proc i with Some p => bool_decide (fw_guest w = p) | None => bool_decide (fw_windows w = i) end.
Definition servable (i : nat) (w : fworld) (e : wcall) : bool :=
  living i w &&
  match e with
  | WHeldLock => bool_decide (fw_mutex w = None)
  | WWriteOwner _ => bool_decide (is_Some (fw_fence w))
  | WLaunch | WTerminate => false
  | _ => true
  end.

Lemma living_alive i w : living i w = true → alive proc i w.
Proof. unfold living, alive. destruct (proc i); apply bool_decide_eq_true. Qed.
Lemma serve_act i w e : servable i w e = true → fence_act proc i w e (serve_answer w e) (serve_world i w e).
Proof.
  unfold servable. intros [Hl He]%andb_true_iff. split; [by apply living_alive|].
  destruct e; simpl in *; try done; try (by split; [|right]).
  - by destruct (fw_fence w).
  - apply bool_decide_eq_true in He as [d Hd]. rewrite Hd. left. by exists d.
  - by apply bool_decide_eq_true in He.
Qed.

(** Sleep takes its time. *)
Definition slept (e : wcall) (w : fworld) : fworld :=
  match e with
  | WSleep d => if bool_decide (0 ≤ d) && negb (fw_claiming w)
                then mk_fworld (fw_clock w + d) (fw_fence w) (fw_guest w) (fw_windows w) (fw_mutex w) (fw_held w) (fw_claiming w)
                else w
  | _ => w
  end.
Lemma slept_ticks e w : slept e w = w ∨ fence_tick w (slept e w).
Proof.
  destruct e; simpl; auto. destruct (bool_decide _) eqn:Hd; simpl; [|by left].
  destruct (fw_claiming w) eqn:Hc; simpl; [by left|]. right.
  apply bool_decide_eq_true in Hd. pose proof (tick_clock w (fw_clock w + d)) as H. rewrite Hc in H.
  apply H; [lia|done].
Qed.

(** Task [i] runs until it launches, terminates or cannot go on. *)
Fixpoint advance_fence (fuel i : nat) (p : @pool wcall wanswer unit) (w : fworld) : pool * fworld :=
  match fuel, p i with
  | S fuel, Op e k =>
      if servable i w e then advance_fence fuel i (set_task i (k (serve_answer w e)) p) (slept e (serve_world i w e))
      else (p, w)
  | _, _ => (p, w)
  end.
Fixpoint fence_turns (fuel : nat) (l : list nat) (c : pool * fworld) : pool * fworld :=
  match l with [] => c | i :: l => fence_turns fuel l (advance_fence fuel i c.1 c.2) end.

Lemma advance_fence_steps fuel i p w :
  clos_refl_trans_1n _ (pool_step (fence_act proc) fence_tick) (p, w) (advance_fence fuel i p w).
Proof.
  revert p w. induction fuel as [|fuel IH]; intros p w; simpl; [constructor|].
  destruct (p i) as [a|e k] eqn:Ei; [constructor|]. destruct (servable i w e) eqn:Es; [|constructor].
  econstructor; [econstructor; [exact Ei|by apply serve_act]|].
  destruct (slept_ticks e (serve_world i w e)) as [->|Ht]; [apply IH|].
  econstructor; [by apply step_tick|apply IH].
Qed.
Lemma fence_turns_steps fuel l c :
  clos_refl_trans_1n _ (pool_step (fence_act proc) fence_tick) c (fence_turns fuel l c).
Proof.
  revert c. induction l as [|i l IH]; intros c; simpl; [constructor|].
  apply clos_rt_rt1n. eapply rt_trans; apply clos_rt1n_rt; [|apply IH]. destruct c. apply advance_fence_steps.
Qed.
End Scheduler.

(** ** Examples *)

(** Task 0 is the watchdog, the others launch in the guest. *)
Definition ex_proc (i : nat) : option nat := match i with O => None | _ => Some O end.
Definition ex_guests (i : nat) : guest_task := GLaunch.
Definition ex_turns (i : nat) : nat := 40.
Definition ex_self : ProcessIdentity := mk_identity 10 (lit "1700").
(** A dead process' claim. *)
Definition ex_left : fence_dir :=
  mk_dir 9 (Some (mk_owner GuestLaunch None 7 (seconds 900) (Some (mk_identity 7 (lit "1600"))))) (seconds 900).
Definition ex_rest (d : option fence_dir) : fworld := mk_fworld (seconds 1000) d 0 0 None false false.
Definition ex_fence_run (d : option fence_dir) (l : list nat) : pool * fworld :=
  fence_turns ex_proc 1000000 ex_self 2000 l (task_program ex_proc ex_guests ex_turns, ex_rest d).

Lemma ex_fence_reachable d l :
  fence_reachable ex_proc ex_guests ex_turns (ex_rest d) (ex_fence_run d l).1 (ex_fence_run d l).2.
Proof. unfold fence_reachable. rewrite <- surjective_pairing. apply fence_turns_steps. Qed.

Definition pending (m : free wanswer unit) : option bool :=
  match m with Op WLaunch _ => Some true | Op WTerminate _ => Some false | _ => None end.
Lemma pending_launch m : pending m = Some true → ∃ k, m = Op WLaunch k.
Proof. destruct m as [|[] k]; simpl; try done. by exists k. Qed.
Lemma pending_terminate m : pending m = Some false → ∃ k, m = Op WTerminate k.
Proof. destruct m as [|[] k]; simpl; try done. by exists k. Qed.

(** A launch takes over the dead process' claim; a second one and the watchdog find it
    held. *)
Definition ex_launching : pool * fworld := ex_fence_run (Some ex_left) [1; 2; 0]%nat.
(** The watchdog comes first and gets to its termination; a launch is refused. *)
Definition ex_recovering : pool * fworld := ex_fence_run None [0; 1]%nat.

Lemma launches_exclude_recovery_witness :
  (pending (ex_launching.1 1%nat) = Some true ∧ pending (ex_launching.1 0%nat) = None ∧ launching 1 ex_launching.2) ∧
  (pending (ex_recovering.1 0%nat) = Some false ∧ pending (ex_recovering.1 1%nat) = None ∧
   ∃ g, recovery_of g ex_recovering.2).
Proof.
  assert (pending (ex_launching.1 1%nat) = Some true) as E1 by (vm_compute; reflexivity).
  assert (pending (ex_recovering.1 0%nat) = Some false) as E2 by (vm_compute; reflexivity).
  split; (split; [assumption|]; split; [vm_compute; reflexivity|]).
  - apply pending_launch in E1 as [k E1].
    refine (proj1 (proj2 (launches_exclude_recovery ex_proc ex_guests ex_turns (ex_rest (Some ex_left))
      ex_launching.1 ex_launching.2 (conj eq_refl (conj eq_refl eq_refl)) (ex_fence_reachable _ _))) 1%nat k _ E1).
    vm_compute. reflexivity.
  - apply pending_terminate in E2 as [k E2].
    refine (proj2 (proj2 (launches_exclude_recovery ex_proc ex_guests ex_turns (ex_rest None)
      ex_recovering.1 ex_recovering.2 (conj eq_refl (conj eq_refl eq_refl)) (ex_fence_reachable _ _))) 0%nat k _ E2).
    vm_compute. reflexivity.
Defined.

(** A third failed probe after ten minutes, and two heartbeats of an idle guest. *)
Definition ex_beat (at_ : Z) : GuestHeartbeat := mk_heartbeat (seconds at_) (Some 7) (Some 0) (Some 0) [] (Some 0).
Definition ex_readings : list reading := [(Some (ex_beat 1000), Some (0, 0)); (None, None)].
Definition ex_last : reading := (Some (ex_beat 1030), Some (0, 0)).
Definition ex_before : Tracker := mk_tracker 3 (Some 0) (Some 7) true None 0 0 0 [] None.
Definition ex_confirmed : list reading := [(Some (ex_beat 1000), Some (0, 0)); (Some (ex_beat 1015), Some (0, 0))].
Definition ex_done : Tracker := foldl (take_reading 7) ex_before (ex_confirmed ++ [ex_last]).

(** The idle heartbeat before a missing one does not count. *)
Lemma termination_waits :
  decide_recovery_of (evidence_of (foldl (take_reading 7) ex_before (ex_readings ++ [ex_last])) 7 (seconds 600) true true
    ex_last.1 ex_last.2 (seconds 1040)) ≠ TerminateNamed.
Proof. vm_compute. discriminate. Qed.
Lemma termination_needs_every_proof_witness :
  decide_recovery_of (evidence_of ex_done 7 (seconds 600) true true ex_last.1 ex_last.2 (seconds 1040)) = TerminateNamed ∧
  empty_twice (ex_confirmed ++ [ex_last]).
Proof.
  assert (decide_recovery_of (evidence_of ex_done 7 (seconds 600) true true ex_last.1 ex_last.2 (seconds 1040)) = TerminateNamed)
    as E by (vm_compute; reflexivity).
  split; [exact E|].
  exact (proj1 (proj2 (termination_needs_every_proof 7 ex_before ex_confirmed (Some (ex_beat 1030)) (Some (0, 0)) ex_done
    (seconds 600) true true (seconds 1040) eq_refl eq_refl) E)).
Defined.

(** ** What is not blocked *)

(** The heartbeat of a guest whose policies cannot be read names no targets, and the
    listing of no targets is complete and empty. *)
Definition unreadable_policies (e : wcall) (w : option GuestHeartbeat) : option (option GuestHeartbeat * wanswer e) :=
  Some (match e with WWriteHeartbeat h => Some h | _ => w end,
        match e return wanswer e with WPolicies => None | e => serve_answer 1 ex_self (ex_rest None) e end).
Lemma unread_policies_look_empty :
  (∃ h, run_with unreadable_policies guest_heartbeat None = Some (Some h, tt) ∧ hb_managed_targets h = []) ∧
  github_inventory [] (0, 0) = mret (Some (0, 0)).
Proof. split; [|done]. eexists. by split; [vm_compute|]. Qed.
