(* ===== verification/Archive.v ===== *)
(** * Runner package archives ([crates/agent/src/package.rs])

    The values of a package (its version, its digest, the errors of the cache) and the
    extraction of an archive: where each entry lands, where a link may point, and which
    mode a file gets. Paths are lists of components, as [Path::components] yields them;
    what an archive contains, and [tar]'s own unpacking, are answers of the calls. *)

From stdpp Require Import strings.
From S2P Require Import Prelude RustStr Ordered Model Path Workspace Execution Host Attempt.
From S2P Require Import Effects.
#[local] Open Scope Z_scope.
#[local] Open Scope rust_scope.

(** ** Paths *)

Inductive Component := Prefix (p : str) | RootDir | CurDir | ParentDir | Normal (part : str).
#[global] Instance Component_eq_dec : EqDecision Component.
Proof. solve_decision. Defined.
#[global] Abbreviation path := (list Component) (only parsing).

(** [Path::components] of a Unix path: empty parts and later dots are dropped. *)
Definition component_of (part : str) : option Component :=
  if bool_decide (part = []) || str_eqb part (lit ".") then None
  else Some (if str_eqb part (lit "..") then ParentDir else Normal part).
Definition components (s : PathBuf) : path :=
  let parts := split_on (N.eqb 47) s in
  match s, parts with
  | [], _ => []
  | _, [] :: parts => RootDir :: omap component_of parts
  | _, p :: parts => (if str_eqb p (lit ".") then [CurDir] else []) ++ omap component_of (p :: parts)
  | _, [] => []
  end.

Definition is_absolute (p : path) : bool :=
  match p with RootDir :: _ | Prefix _ :: RootDir :: _ => true | _ => false end.
Definition path_push (part : str) (p : path) : path := p ++ [Normal part].
Definition path_parent (p : path) : option path :=
  match last p with
  | Some (Normal _) | Some CurDir | Some ParentDir => Some (removelast p)
  | _ => None
  end.

(** ** Versions and digests *)

Record RunnerVersion := mk_version { rv_parts : list Z (* u64 *); rv_raw : str }.
#[global] Instance RunnerVersion_eq_dec : EqDecision RunnerVersion.
Proof. solve_decision. Defined.
#[global] Instance RunnerVersion_ord : Ord RunnerVersion := λ a b,
  match cmp (rv_parts a) (rv_parts b) with Eq => cmp (rv_raw a) (rv_raw b) | c => c end.

Record Sha256Hex := mk_sha { sha_text : str }.
#[global] Instance Sha256Hex_eq_dec : EqDecision Sha256Hex.
Proof. solve_decision. Defined.

Inductive PublishedChecksum := ChecksumMissing | ChecksumEmpty | ChecksumMalformed.
Inductive ArchiveKind := Zip | TarGz.
#[global] Instance ArchiveKind_eq_dec : EqDecision ArchiveKind.
Proof. solve_decision. Defined.

Inductive PackageError :=
  | UnsupportedHost (o : Os) (a : Arch)
  | NoPackagePublished (o : Os) (a : Arch)
  | ChecksumAbsent (v : RunnerVersion) (o : Os) (a : Arch) (published : PublishedChecksum)
  | ChecksumMismatch (v : RunnerVersion) (expected actual : Sha256Hex)
  | MalformedDigest (raw : str)
  | VersionRejected (v : option RunnerVersion) (detail : option str)
  | CatalogUnavailable (detail : str)
  | Download (detail : str)
  | UnrecognisedVersion (raw : str)
  | UnsupportedArchive (filename : str)
  | UnsafeArchiveEntry (entry : str)
  | Extract (detail : str)
  | VersionInUse (v : RunnerVersion) (a : AttemptId) (s : AttemptState)
  | VersionHeldByUnknownAttempt (v : RunnerVersion) (a : AttemptId)
  | UnreadableLease (p : path)
  | WorkspaceInsideCache (a : AttemptId) (p : PathBuf)
  | NotInstalled (v : RunnerVersion)
  | PackageIo (what : str) (p : path)
  | Exhausted (attempts : Z) (source : PackageError).

Definition package_is_terminal (e : PackageError) : bool :=
  match e with
  | ChecksumMismatch _ _ _ | CatalogUnavailable _ | Download _ | Extract _ | PackageIo _ _ => false
  | _ => true
  end.
Fixpoint package_failure_reason (e : PackageError) : option FailureReason :=
  match e with
  | ChecksumAbsent _ _ _ _ | ChecksumMismatch _ _ _ | MalformedDigest _ | UnsafeArchiveEntry _ =>
      Some RunnerPackageUnverified
  | VersionRejected _ _ => Some RunnerVersionRejected
  | Exhausted _ source => package_failure_reason source
  | _ => None
  end.

Definition VERSION_MAX_LEN : Z := 64.
Definition version_segment (raw segment : str) : result Z PackageError :=
  if bool_decide (segment = []) || negb (forallb is_ascii_digit segment) then Err (UnrecognisedVersion raw)
  else match parse_uint U64_MAX segment with Some n => Ok n | None => Err (UnrecognisedVersion raw) end.
Definition RunnerVersion_parse (raw : str) : result RunnerVersion PackageError :=
  if bool_decide (raw = []) || bool_decide (VERSION_MAX_LEN < len raw) then Err (UnrecognisedVersion raw)
  else
    let? parts := collect_result (version_segment raw) (split_on (N.eqb (ch ".")) raw) in
    let n := Z.of_nat (length parts) in
    if bool_decide (n < 2) || bool_decide (4 < n) then Err (UnrecognisedVersion raw)
    else Ok (mk_version parts raw).

Definition SHA256_LEN : Z := 64.
Definition Sha256Hex_parse (raw : str) : result Sha256Hex PackageError :=
  let trimmed := trim raw in
  if negb (bool_decide (len trimmed = SHA256_LEN)) || negb (forallb is_ascii_hexdigit trimmed)
  then Err (MalformedDigest trimmed) else Ok (mk_sha (to_ascii_lowercase trimmed)).

(** [ArchiveKind::split]: the name without its extension, whatever its case. *)
Fixpoint archive_split_on (l : list (str * ArchiveKind)) (filename : str) : option (str * ArchiveKind) :=
  match l with
  | [] => None
  | (extension, kind) :: l =>
      if ends_with extension (to_ascii_lowercase filename)
      then Some (take (length filename - length extension) filename, kind)
      else archive_split_on l filename
  end.
Definition archive_split (filename : str) : result (str * ArchiveKind) PackageError :=
  match archive_split_on [(lit ".tar.gz", TarGz); (lit ".tgz", TarGz); (lit ".zip", Zip)] filename with
  | Some x => Ok x
  | None => Err (UnsupportedArchive filename)
  end.
Definition version_from_filename (filename : str) : result RunnerVersion PackageError :=
  let? x := archive_split filename in
  RunnerVersion_parse (default x.1 (last (split_on (N.eqb (ch "-")) x.1))).

(** ** Where an entry lands *)

Definition lexical_part (c : Component) : option str :=
  match c with
  | Normal part => Some part
  | RootDir => Some (lit "/")
  | Prefix p => Some p
  | CurDir | ParentDir => None
  end.
Definition is_inside (root candidate : path) : bool :=
  if existsb (λ c, bool_decide (c = ParentDir)) candidate then false
  else
    let r := omap lexical_part root in
    let c := omap lexical_part candidate in
    bool_decide (length r ≤ length c)%nat && bool_decide (take (length r) c = r).

Fixpoint join_normal (p : path) (l : path) : option path :=
  match l with
  | [] => Some p
  | Normal part :: l => join_normal (path_push part p) l
  | CurDir :: l => join_normal p l
  | _ :: _ => None
  end.
Definition resolve_inside (root relative : path) (raw : str) : result path PackageError :=
  if is_absolute relative then Err (UnsafeArchiveEntry raw)
  else match join_normal root relative with
  | None => Err (UnsafeArchiveEntry raw)
  | Some resolved => if is_inside root resolved then Ok resolved else Err (UnsafeArchiveEntry raw)
  end.
Definition entry_destination (root relative : path) (raw : str) : result (option path) PackageError :=
  let? resolved := resolve_inside root relative raw in
  Ok (if bool_decide (resolved = root) then None else Some resolved).

Inductive EntryType := Regular | Directory | Symlink | Link | OtherType.
#[global] Instance EntryType_eq_dec : EqDecision EntryType.
Proof. solve_decision. Defined.
Definition is_link (k : EntryType) : bool := match k with Symlink | Link => true | _ => false end.

Fixpoint follow (p : path) (l : path) : option path :=
  match l with
  | [] => Some p
  | Normal part :: l => follow (path_push part p) l
  | CurDir :: l => follow p l
  | ParentDir :: l => p ← path_parent p; follow p l
  | _ :: _ => None
  end.
Definition resolve_link_target (into destination : path) (kind : EntryType) (target : path) (raw : str)
    : result unit PackageError :=
  if is_absolute target then Err (UnsafeArchiveEntry raw)
  else
    let start := if bool_decide (kind = Symlink) then default into (path_parent destination) else into in
    match follow start target with
    | None => Err (UnsafeArchiveEntry raw)
    | Some resolved => if is_inside into resolved then Ok tt else Err (UnsafeArchiveEntry raw)
    end.

(** Modes in octal: 0o600, 0o700, and the executable bits 0o100 and 0o111. *)
Definition MODE_FILE : Z := 6 * 64.
Definition MODE_EXECUTABLE : Z := 7 * 64.
Definition OWNER_EXECUTE : Z := 64.
Definition ANY_EXECUTE : Z := 64 + 8 + 1.
Definition policy_mode (published : Z) : Z :=
  if bool_decide (Z.land published ANY_EXECUTE = 0) then MODE_FILE else MODE_EXECUTABLE.
Definition intended_mode (is_directory : bool) (published : option Z) : option Z :=
  if is_directory then Some (policy_mode (Z.lor (default MODE_EXECUTABLE published) OWNER_EXECUTE))
  else policy_mode <$> published.

(** ** Extraction *)

Record ZipEntry := mk_zip_entry {
  ze_name : str;
  ze_enclosed_name : option path;
  ze_is_dir : bool;
  ze_is_symlink : bool;
  ze_unix_mode : option Z;
}.
(** A header whose path, mode or link cannot be read fails as a whole. *)
Record TarEntry := mk_tar_entry {
  te_path : path;
  te_display : str;
  te_type : EntryType;
  te_mode : Z;
  te_link_name : option path;
}.

Inductive xcall :=
  | XCreateDirAll (p : path)
  | XOpenZip | XOpenTar              (* the archive's entries, as far as they can be read *)
  | XCreateFile (p : path) | XCopy (p : path)
  | XUnpackIn (into : path) (e : TarEntry)   (* without permissions, masked *)
  | XSetMode (p : path) (mode : Z).
Definition xanswer (e : xcall) : Set :=
  match e with
  | XOpenZip => result (list (result ZipEntry str)) PackageError
  | XOpenTar => result (list (result TarEntry str)) PackageError
  | XUnpackIn _ _ => result bool str
  | _ => bool
  end.
#[global] Abbreviation xprogram := (free xanswer) (only parsing).
#[global] Abbreviation xop e := (@op xcall xanswer e) (only parsing).

Definition create_dir_all (p : path) : xprogram (result unit PackageError) :=
  ok ← xop (XCreateDirAll p);
  Ret (if (ok : bool) then Ok tt else Err (PackageIo (lit "create a runner package cache directory") p)).

Section Extract.
Context (unix : bool).

Definition apply_mode_policy (p : path) (mode : option Z) : xprogram (result unit PackageError) :=
  match mode with
  | None => Ret (Ok tt)
  | Some published =>
      if unix then
        ok ← xop (XSetMode p (policy_mode published));
        Ret (if (ok : bool) then Ok tt
             else Err (PackageIo (lit "set permissions on an extracted runner package file") p))
      else Ret (Ok tt)
  end.

Definition zip_entry_out (into : path) (e : ZipEntry) : xprogram (result unit PackageError) :=
  match ze_enclosed_name e with
  | None => Ret (Err (UnsafeArchiveEntry (ze_name e)))
  | Some relative =>
      match entry_destination into relative (ze_name e) with
      | Err x => Ret (Err x)
      | Ok None => Ret (Ok tt)
      | Ok (Some destination) =>
          if ze_is_dir e then
            _ ←? create_dir_all destination;
            apply_mode_policy destination (intended_mode true (ze_unix_mode e))
          else if ze_is_symlink e then Ret (Err (UnsafeArchiveEntry (ze_name e)))
          else
            _ ←? (match path_parent destination with Some parent => create_dir_all parent | None => Ret (Ok tt) end);
            made ← xop (XCreateFile destination);
            if negb made then Ret (Err (PackageIo (lit "create an extracted runner package file") destination))
            else
              copied ← xop (XCopy destination);
              if negb copied then Ret (Err (PackageIo (lit "write an extracted runner package file") destination))
              else apply_mode_policy destination (intended_mode false (ze_unix_mode e))
      end
  end.
Fixpoint zip_entries_out (into : path) (l : list (result ZipEntry str)) : xprogram (result unit PackageError) :=
  match l with
  | [] => Ret (Ok tt)
  | Err detail :: _ => Ret (Err (Extract detail))
  | Ok e :: l => _ ←? zip_entry_out into e; zip_entries_out into l
  end.
Definition extract_zip (into : path) : xprogram (result unit PackageError) :=
  entries ←? xop XOpenZip; zip_entries_out into entries.

Definition check_link (into destination : path) (e : TarEntry) : result unit PackageError :=
  if is_link (te_type e) then
    match te_link_name e with
    | None => Err (UnsafeArchiveEntry (te_display e))
    | Some target => resolve_link_target into destination (te_type e) target (te_display e)
    end
  else Ok tt.
Definition tar_entry_out (into : path) (e : TarEntry) : xprogram (result unit PackageError) :=
  match entry_destination into (te_path e) (te_display e) with
  | Err x => Ret (Err x)
  | Ok None => Ret (Ok tt)
  | Ok (Some destination) =>
      match check_link into destination e with
      | Err x => Ret (Err x)
      | Ok _ =>
          unpacked ← xop (XUnpackIn into e);
          match unpacked with
          | Err detail => Ret (Err (Extract detail))
          | Ok false => Ret (Err (UnsafeArchiveEntry (te_display e)))
          | Ok true =>
              if is_link (te_type e) then Ret (Ok tt)
              else apply_mode_policy destination
                     (intended_mode (bool_decide (te_type e = Directory)) (Some (te_mode e)))
          end
      end
  end.
Fixpoint tar_entries_out (into : path) (l : list (result TarEntry str)) : xprogram (result unit PackageError) :=
  match l with
  | [] => Ret (Ok tt)
  | Err detail :: _ => Ret (Err (Extract detail))
  | Ok e :: l => _ ←? tar_entry_out into e; tar_entries_out into l
  end.
Definition extract_tar_gz (into : path) : xprogram (result unit PackageError) :=
  entries ←? xop XOpenTar; tar_entries_out into entries.

Definition extract (kind : ArchiveKind) (into : path) : xprogram (result unit PackageError) :=
  _ ←? create_dir_all into;
  match kind with Zip => extract_zip into | TarGz => extract_tar_gz into end.
End Extract.
