(* ===== verification/ArchiveSafety.v ===== *)
(** * What an extraction may touch

    For every archive, whatever its entries say: the paths an extraction names are those
    of its own directory and below, a link's target is followed to a place inside it, and
    no file gets a mode beyond its owner's. That the check follows links by their names
    only is shown at the end, with the archive that gets around it. *)

From stdpp Require Import strings.
From S2P Require Import Prelude RustStr Ordered Model Effects Archive.
#[local] Open Scope Z_scope.
#[local] Open Scope rust_scope.

(** ** Paths *)

Definition below (root p : path) : Prop := ∃ parts, p = root ++ (Normal <$> parts).
Definition strictly_below (root p : path) : Prop := ∃ part parts, p = root ++ (Normal <$> part :: parts).

Lemma below_refl root : below root root.
Proof. exists []. by rewrite app_nil_r. Qed.
Lemma below_push root part p : below root p → below root (path_push part p).
Proof. intros [parts ->]. exists (parts ++ [part]). unfold path_push. by rewrite fmap_app, app_assoc. Qed.
Lemma below_strict root p : below root p → p ≠ root → strictly_below root p.
Proof.
  intros [[|part parts] ->] Hne; [by rewrite app_nil_r in Hne|]. by exists part, parts.
Qed.
Lemma strict_below root p : strictly_below root p → below root p.
Proof. intros (part & parts & ->). by exists (part :: parts). Qed.

Lemma join_normal_below root p l q : below root p → join_normal p l = Some q → below root q.
Proof.
  revert p. induction l as [|[pre| | | |part] l IH]; intros p Hp; simpl; try done; [by intros [= <-]|by apply IH|].
  intros H. eapply IH; [|exact H]. by apply below_push.
Qed.
Lemma resolve_inside_below root relative raw p :
  resolve_inside root relative raw = Ok p → below root p.
Proof.
  unfold resolve_inside. destruct (is_absolute relative); [done|].
  destruct (join_normal root relative) as [q|] eqn:E; [|done]. destruct (is_inside root q); [|done].
  intros [= <-]. eapply join_normal_below; [apply below_refl|done].
Qed.
Lemma entry_destination_below root relative raw p :
  entry_destination root relative raw = Ok (Some p) → strictly_below root p.
Proof.
  unfold entry_destination. destruct (resolve_inside root relative raw) as [q|] eqn:E; [|done]. simpl.
  case_bool_decide; [done|]. intros [= <-]. by apply below_strict; [eapply resolve_inside_below|].
Qed.

(** The parent of what is strictly below. *)
Lemma strictly_below_parent root p : strictly_below root p → ∃ q, path_parent p = Some q ∧ below root q.
Proof.
  intros (part & parts & ->). rewrite fmap_cons. unfold path_parent.
  destruct (exists_last (l := part :: parts)) as (init & x & E); [done|].
  replace (Normal part :: (Normal <$> parts)) with (Normal <$> (init ++ [x])) by (by rewrite <- E).
  rewrite fmap_app, app_assoc. simpl. rewrite last_snoc. eexists. split; [done|].
  rewrite removelast_last. by exists init.
Qed.

(** ** The safety of an extraction *)

(** Owner-only: read and write, and execute or not. *)
Definition private_mode (m : Z) : Prop := m = MODE_FILE ∨ m = MODE_EXECUTABLE.
Lemma policy_mode_private m : private_mode (policy_mode m).
Proof. unfold policy_mode, private_mode. case_bool_decide; auto. Qed.

(** What a link's target leads to, by names. *)
Definition link_inside (into : path) (e : TarEntry) : Prop :=
  is_link (te_type e) = true →
  ∃ target start resolved, te_link_name e = Some target ∧ is_absolute target = false ∧
    below into start ∧ follow start target = Some resolved ∧ is_inside into resolved = true.
Definition stays (into : path) (e : xcall) : Prop :=
  match e with
  | XCreateDirAll p => below into p
  | XCreateFile p | XCopy p => strictly_below into p
  | XSetMode p m => strictly_below into p ∧ private_mode m
  | XUnpackIn dir e =>
      dir = into ∧ (∃ p, entry_destination into (te_path e) (te_display e) = Ok (Some p) ∧ strictly_below into p) ∧
      link_inside into e
  | XOpenZip | XOpenTar => True
  end.

Lemma apply_mode_stays unix into p m : strictly_below into p → within (stays into) (apply_mode_policy unix p m).
Proof.
  intros Hp. destruct m as [m|]; [|exact I]. simpl. destruct unix; [|exact I].
  split; [split; [done|apply policy_mode_private]|]. intros []; exact I.
Qed.
Lemma create_dir_stays into p : below into p → within (stays into) (create_dir_all p).
Proof. intros Hp. split; [done|]. intros []; exact I. Qed.

Lemma zip_entry_stays unix into e : within (stays into) (zip_entry_out unix into e).
Proof.
  unfold zip_entry_out. destruct (ze_enclosed_name e) as [relative|]; [|exact I].
  destruct (entry_destination _ _ _) as [[p|]|] eqn:E; [|exact I..].
  apply entry_destination_below in E. destruct (ze_is_dir e).
  { apply within_bind_ok; [by apply create_dir_stays, strict_below|]. intros []. by apply apply_mode_stays. }
  destruct (ze_is_symlink e); [exact I|]. destruct (strictly_below_parent _ _ E) as (q & -> & Hq).
  apply within_bind_ok; [by apply create_dir_stays|]. intros [].
  split; [done|]. intros [|]; [|exact I]. split; [done|]. intros [|]; [|exact I]. by apply apply_mode_stays.
Qed.

Lemma check_link_inside into p e : strictly_below into p → check_link into p e = Ok tt → link_inside into e.
Proof.
  intros Hp. unfold check_link, link_inside. destruct (is_link (te_type e)); [|done].
  destruct (te_link_name e) as [target|]; [|done]. unfold resolve_link_target.
  destruct (is_absolute target) eqn:Ea; [done|].
  destruct (follow _ target) as [q|] eqn:Ef; [|done]. destruct (is_inside into q) eqn:Ei; [|done].
  intros _ _. eexists target, _, q. split_and!; try done. case_bool_decide; [|apply below_refl].
  destruct (strictly_below_parent _ _ Hp) as (q' & -> & ?). done.
Qed.

Lemma tar_entry_stays unix into e : within (stays into) (tar_entry_out unix into e).
Proof.
  unfold tar_entry_out. destruct (entry_destination _ _ _) as [[p|]|] eqn:E; [|exact I..].
  pose proof (entry_destination_below _ _ _ _ E) as Hp.
  destruct (check_link into p e) as [[]|] eqn:El; [|exact I].
  split; [split_and!; [done|by exists p|by eapply check_link_inside]|].
  intros [[]|]; [|exact I..]. destruct (is_link (te_type e)); [exact I|]. by apply apply_mode_stays.
Qed.

Lemma extract_stays unix kind into : within (stays into) (extract unix kind into).
Proof.
  unfold extract. apply within_bind_ok; [apply create_dir_stays, below_refl|]. intros [].
  destruct kind; apply within_bind_ok; try (split; [exact I|]; intros; exact I); intros l;
    induction l as [|[e|] l IH]; try exact I; apply within_bind_ok; try (intros []; exact IH).
  - apply zip_entry_stays.
  - apply tar_entry_stays.
Qed.

(** ** Links by their names *)

(** Where a path leads, through the links there are, as the kernel walks it. *)
Definition link_at (links : list (path * path)) (p : path) : option path :=
  snd <$> List.find (λ l, bool_decide (l.1 = p)) links.
Fixpoint walk (fuel : nat) (links : list (path * path)) (cur l : path) : option path :=
  match fuel, l with
  | _, [] => Some cur
  | O, _ => None
  | S fuel, RootDir :: l => walk fuel links [RootDir] l
  | S fuel, CurDir :: l => walk fuel links cur l
  | S fuel, ParentDir :: l => walk fuel links (removelast cur) l
  | S fuel, Prefix _ :: _ => None
  | S fuel, Normal part :: l =>
      match link_at links (path_push part cur) with
      | Some target => walk fuel links cur (target ++ l)
      | None => walk fuel links (path_push part cur) l
      end
  end.
(** [tar] makes a link in the directory its path leads to, when that is inside. *)
Definition make_link (into : path) (e : TarEntry) (links : list (path * path)) : option (list (path * path)) :=
  parent ← path_parent (te_path e);
  dir ← walk 100 links into parent;
  name ← last (te_path e);
  target ← te_link_name e;
  if is_inside into dir then Some ((dir ++ [name], target) :: links) else None.
Definition unix_links (into : path) (entries : list TarEntry) (e : xcall) (links : list (path * path))
    : option (list (path * path) * xanswer e) :=
  match e return option (list (path * path) * xanswer e) with
  | XCreateDirAll _ => Some (links, true)
  | XOpenTar => Some (links, Ok (Ok <$> entries))
  | XUnpackIn _ entry => links' ← make_link into entry links; Some (links', Ok true)
  | _ => None
  end.

Definition ex_into : path := [RootDir; Normal (lit "srv"); Normal (lit "package")].
Definition ex_link (p target : path) : TarEntry := mk_tar_entry p (lit "link") Symlink 511 (Some target).
Definition ex_escape : list TarEntry :=
  [ex_link [Normal (lit "a")] [CurDir]; ex_link [Normal (lit "a"); Normal (lit "b")] [ParentDir]].

(** An archive with a link to its own directory, and then a link through it to the
    directory above, is extracted without an objection; the second link is
    [/srv/package/b], and leads to [/srv]. *)
Lemma linked_parent_escapes :
  ∃ links, run_with (unix_links ex_into ex_escape) (extract true TarGz ex_into) [] = Some (links, Ok tt) ∧
    link_at links (path_push (lit "b") ex_into) = Some [ParentDir] ∧
    walk 100 links ex_into [Normal (lit "b")] = Some [RootDir; Normal (lit "srv")].
Proof. eexists. split; [vm_compute; reflexivity|]. split; vm_compute; reflexivity. Qed.
