(* ===== verification/Package.v ===== *)
(** * The cache of runner packages ([crates/agent/src/package.rs], [lifecycle.rs])

    [PackageCache]: which published package this host needs, its download, verification,
    extraction and commit, the entries on disk, leases and pruning; and
    [CachedRuntimePackages], which copies an entry into a runtime only while it is the
    tree this process made ([TrustedTrees]). Seeds, which only macOS uses, are not
    modelled. *)

From stdpp Require Import strings.
From S2P Require Import Prelude RustStr Ordered Model Path Workspace Execution Host Attempt.
From S2P Require Import Labels Policy Github Effects Ports Archive.
#[local] Open Scope Z_scope.
#[local] Open Scope rust_scope.

Definition PACKAGES_DIR : str := lit "packages".
Definition STAGING_DIR : str := lit ".staging".
Definition LEASES_DIR : str := lit ".leases".
Definition LEASE_EXTENSION : str := lit "lease".
Definition MANIFEST_FILE : str := lit ".runner-package.json".
Definition FRESHNESS_WINDOW : Duration := seconds (30 * 24 * 60 * 60).
Definition CHECK_INTERVAL : Duration := seconds (6 * 60 * 60).
Definition RETRY_BUDGET : nat := 3.

(** ** Published packages ([rest.rs]) *)

Record RunnerDownload := mk_download {
  rd_os : str;
  rd_architecture : str;
  rd_download_url : str;
  rd_filename : str;
  rd_sha256_checksum : option str;
}.
#[global] Abbreviation RunnerDownloads := (list RunnerDownload) (only parsing).
Definition download_matches (o : Os) (a : Arch) (d : RunnerDownload) : bool :=
  match Os_from_str (rd_os d), Arch_from_str (rd_architecture d) with
  | Ok o', Ok a' => bool_decide (o' = o) && bool_decide (a' = a)
  | _, _ => false
  end.
Definition select (o : Os) (a : Arch) (l : RunnerDownloads) : option RunnerDownload :=
  List.find (download_matches o a) l.

(** The documented pairs ([os.rs]). *)
Definition validate_host (o : Os) (a : Arch) : result unit PackageError :=
  match o, a with
  | _, X64 | _, Arm64 | Linux, Arm32 => Ok tt
  | _, Arm32 => Err (UnsupportedHost o a)
  end.

(** ** Entries *)

Record Manifest := mk_manifest {
  mf_version : RunnerVersion;
  mf_digest : Sha256Hex;
  mf_installed_at : Timestamp;
  mf_filename : str;
}.
#[global] Instance Manifest_eq_dec : EqDecision Manifest.
Proof. solve_decision. Defined.
Record InstalledPackage := mk_installed {
  ip_version : RunnerVersion;
  ip_root : path;
  ip_installed_at : Timestamp;
  ip_digest : Sha256Hex;
}.
Record Lease := mk_lease { ls_version : RunnerVersion }.
Definition PinnedDigests : Type := list (RunnerVersion * Sha256Hex).

Inductive kcall :=
  (* the ports *)
  | KNow | KUuid | KPublished | KFetch (url : str) (archive : path) | KWait (attempt : Z)
  | KLastCheck | KSetLastCheck (t : Timestamp)
  (* files and directories; [KExtract] is a step of the extraction of an archive *)
  | KHash (archive : path) | KExtract (archive into : path) (e : xcall)
  | KCreateDirAll (p : path) | KIsDir (p : path) | KExists (p : path) | KReadDir (p : path)
  | KReadManifest (p : path) | KWriteManifest (p : path) (m : Manifest)
  | KRename (source target : path) | KRemoveTree (p : path) | KRemoveFile (p : path)
  | KReadLease (p : path) | KWriteLease (p : path) (l : Lease)
  (* a runtime *)
  | KRecorded (root : path) | KFingerprint (root : path) | KRecord (root : path) (print : Z)
  | KClone (source destination : path) | KUndo (a : RunnerAttempt)
  | KPanic.
Definition kanswer (e : kcall) : Type :=
  match e with
  | KNow => Timestamp
  | KUuid => str
  | KPublished => result RunnerDownloads PackageError
  | KFetch _ _ => result unit PackageError
  | KLastCheck => option Timestamp
  | KHash _ => result str PackageError
  | KExtract _ _ e => xanswer e
  | KIsDir _ | KExists _ | KCreateDirAll _ | KRename _ _ | KRemoveTree _ | KWriteManifest _ _ | KWriteLease _ _ => bool
  | KClone _ _ => option bool        (* [None]: the command did not start *)
  | KReadDir _ => result (option (list (result (option str) unit))) unit
  | KReadManifest _ => result (option Manifest) unit
  | KRemoveFile _ => result bool unit
  | KReadLease _ => result (option (option Lease)) unit
  | KRecorded _ => option Z
  | KFingerprint _ => option Z
  | KPanic => Empty_set
  | _ => unit
  end.
#[global] Abbreviation kprogram := (free kanswer) (only parsing).
#[global] Abbreviation kop e := (@op kcall kanswer e) (only parsing).

Definition checked (what : str) (p : path) (m : kprogram bool) : kprogram (result unit PackageError) :=
  ok ← m; Ret (if (ok : bool) then Ok tt else Err (PackageIo what p)).
Definition cache_dir_all (p : path) : kprogram (result unit PackageError) :=
  checked (lit "create a runner package cache directory") p (kop (KCreateDirAll p)).

(** An extraction, inside the cache's program. *)
Fixpoint extracting {A} (archive into : path) (m : xprogram A) : kprogram A :=
  match m with
  | Ret a => Ret a
  | Op e k => Op (KExtract archive into e : kcall) (λ x, extracting archive into (k x))
  end.

Section Cache.
(** [uuid::Uuid::parse_str], and the host. *)
Context (parse_uuid : str → option AttemptId) (unix : bool).
Context (root : path) (os : Os) (arch : Arch) (pins : PinnedDigests).
Context (window check_interval : Duration) (retry_budget : nat).

Definition version_dir (v : RunnerVersion) : path := path_push (rv_raw v) root.
Definition staging_root : path := path_push STAGING_DIR root.
Definition leases_dir : path := path_push LEASES_DIR root.
Definition lease_name (a : AttemptId) : str := show_uuid a ++ [ch "."] ++ LEASE_EXTENSION.
Definition lease_path (a : AttemptId) : path := path_push (lease_name a) leases_dir.
Definition manifest_path (p : path) : path := path_push MANIFEST_FILE p.

(** *** Reading *)

Definition entry (v : RunnerVersion) : kprogram (result (option InstalledPackage) PackageError) :=
  let dir := version_dir v in
  is_dir ← kop (KIsDir dir);
  if negb is_dir then Ret (Ok None)
  else
    read ← kop (KReadManifest (manifest_path dir));
    Ret (match read with
         | Err _ => Err (PackageIo (lit "read a runner package cache file") (manifest_path dir))
         | Ok None => Ok None
         | Ok (Some m) => Ok (Some (mk_installed (mf_version m) dir (mf_installed_at m) (mf_digest m)))
         end).

Definition version_named (name : option str) : option RunnerVersion :=
  name ← name;
  if starts_with [ch "."] name then None
  else match RunnerVersion_parse name with Ok v => Some v | Err _ => None end.
Fixpoint read_entries (l : list (result (option str) unit)) : kprogram (result (list InstalledPackage) PackageError) :=
  match l with
  | [] => Ret (Ok [])
  | Err _ :: _ => Ret (Err (PackageIo (lit "read the runner package cache") root))
  | Ok name :: l =>
      match version_named name with
      | None => read_entries l
      | Some v =>
          found ←? entry v;
          rest ←? read_entries l;
          Ret (Ok (option_list found ++ rest))
      end
  end.
(** A stable sort, oldest version first. *)
Fixpoint insert_installed (x : InstalledPackage) (l : list InstalledPackage) : list InstalledPackage :=
  match l with
  | [] => [x]
  | y :: l' => match cmp (ip_version x) (ip_version y) with Gt => y :: insert_installed x l' | _ => x :: l end
  end.
Definition installed : kprogram (result (list InstalledPackage) PackageError) :=
  listed ← kop (KReadDir root);
  match listed with
  | Err _ => Ret (Err (PackageIo (lit "read the runner package cache") root))
  | Ok None => Ret (Ok [])
  | Ok (Some names) => found ←? read_entries names; Ret (Ok (foldr insert_installed [] found))
  end.
(** [max_by_key]: the last of the most recent. *)
Definition later_installed (best : option InstalledPackage) (x : InstalledPackage) : option InstalledPackage :=
  match best with
  | Some b => if bool_decide (ip_installed_at x < ip_installed_at b) then best else Some x
  | None => Some x
  end.
Definition newest_installed : kprogram (result (option InstalledPackage) PackageError) :=
  found ←? installed; Ret (Ok (fold_left later_installed found None)).

Definition is_stale (now : Timestamp) (x : InstalledPackage) : bool := bool_decide (window < now - ip_installed_at x).
Definition check_is_due (now : Timestamp) : kprogram (result bool PackageError) :=
  newest ←? newest_installed;
  match newest with
  | None => Ret (Ok true)
  | Some x =>
      if is_stale now x then Ret (Ok true)
      else
        last_check ← kop KLastCheck;
        Ret (Ok (match last_check with None => true | Some t => bool_decide (check_interval ≤ now - t) end))
  end.

(** *** Installing *)

Definition pinned (v : RunnerVersion) : option Sha256Hex := map_get v pins.
Definition required_digest (d : RunnerDownload) (v : RunnerVersion) : result Sha256Hex PackageError :=
  let unusable (published : PublishedChecksum) :=
    match pinned v with Some digest => Ok digest | None => Err (ChecksumAbsent v os arch published) end in
  match rd_sha256_checksum d with
  | None => unusable ChecksumMissing
  | Some raw =>
      if bool_decide (trim raw = []) then unusable ChecksumEmpty
      else match Sha256Hex_parse raw with Ok digest => Ok digest | Err _ => unusable ChecksumMalformed end
  end.

Definition fetch_verify_extract (d : RunnerDownload) (v : RunnerVersion) (expected : Sha256Hex)
    (kind : ArchiveKind) (archive extracted : path) : kprogram (result unit PackageError) :=
  _ ←? kop (KFetch (rd_download_url d) archive);
  text ←? kop (KHash archive);
  match Sha256Hex_parse text with
  | Err e => Ret (Err e)
  | Ok actual =>
      if negb (bool_decide (actual = expected)) then Ret (Err (ChecksumMismatch v expected actual))
      else extracting archive extracted (extract unix kind extracted)
  end.

Definition remove_file_if_present (p : path) (what : str) : kprogram (result unit PackageError) :=
  r ← kop (KRemoveFile p); Ret (match r with Ok _ => Ok tt | Err _ => Err (PackageIo what p) end).
(** The guard's drop, and its disarming: the staging directory goes. *)
Definition drop_staging (p : path) : kprogram unit := _ ← kop (KRemoveTree p); mret tt.
Definition set_aside (p : path) : kprogram (result path PackageError) :=
  token ← kop KUuid;
  let aside := path_push (lit "untrusted-" ++ token) staging_root in
  _ ←? checked (lit "set aside a runner package to reinstall it") p (kop (KRename p aside));
  Ret (Ok aside).

(** The commit, with what the staging guard and the displaced entry's guard drop. *)
Definition commit (v : RunnerVersion) (expected : Sha256Hex) (now : Timestamp) (force : bool) (extracted : path)
    : kprogram (result (InstalledPackage * bool) PackageError) :=
  let target := version_dir v in
  renamed ← kop (KRename extracted target);
  if (renamed : bool) then
    _ ← drop_staging extracted;
    Ret (Ok (mk_installed v target now expected, true))
  else
    found ←? (if force then Ret (Ok None) else entry v);
    match found with
    | Some e => _ ← drop_staging extracted; Ret (Ok (e, false))
    | None => Ret (Err (PackageIo (lit "commit the extracted runner package") target))
    end.
Definition land (d : RunnerDownload) (v : RunnerVersion) (expected : Sha256Hex) (now : Timestamp) (force : bool)
    (extracted : path) : kprogram (result (InstalledPackage * bool) PackageError) :=
  _ ←? checked (lit "write a runner package cache file") (manifest_path extracted)
         (kop (KWriteManifest (manifest_path extracted) (mk_manifest v expected now (rd_filename d))));
  _ ←? cache_dir_all root;
  present ← (if force then kop (KExists (version_dir v)) else mret false);
  displaced ←? (if (present : bool) then x ←? set_aside (version_dir v); Ret (Ok (Some x)) else Ret (Ok None));
  r ← commit v expected now force extracted;
  _ ← (match displaced with Some x => drop_staging x | None => mret tt end);
  mret r.
Definition download_verify_and_install (d : RunnerDownload) (v : RunnerVersion) (expected : Sha256Hex)
    (now : Timestamp) (force : bool) : kprogram (result (InstalledPackage * bool) PackageError) :=
  match archive_split (rd_filename d) with
  | Err e => Ret (Err e)
  | Ok (_, kind) =>
      _ ←? cache_dir_all staging_root;
      token ← kop KUuid;
      let archive := path_push (lit "download-" ++ token ++ lit ".archive") staging_root in
      let extracted := path_push token staging_root in
      outcome ← fetch_verify_extract d v expected kind archive extracted;
      removed ← remove_file_if_present archive (lit "remove the package download");
      _ ←? Ret outcome;
      _ ←? Ret removed;
      r ← land d v expected now force extracted;
      _ ← (if is_ok r then mret tt else drop_staging extracted);
      mret r
  end.

Definition install_once (force : bool) : kprogram (result (InstalledPackage * bool) PackageError) :=
  published ←? kop KPublished;
  match select os arch published with
  | None => Ret (Err (NoPackagePublished os arch))
  | Some d =>
      match version_from_filename (rd_filename d) with
      | Err e => Ret (Err e)
      | Ok v =>
          held ←? (if force then Ret (Ok None) else entry v);
          match held with
          | Some e => Ret (Ok (e, false))
          | None =>
              now ← kop KNow;
              newest ←? (if force then Ret (Ok None) else newest_installed);
              match (if from_option (is_stale now) true newest then None else newest) with
              | Some x => Ret (Ok (x, false))
              | None =>
                  match required_digest d v with
                  | Err e => Ret (Err e)
                  | Ok digest => download_verify_and_install d v digest now force
                  end
              end
          end
      end
  end.

Fixpoint install_attempts (remaining : nat) (attempt : Z) (last : option PackageError) (force : bool)
    : kprogram (result (InstalledPackage * bool) PackageError) :=
  match remaining with
  | O => match last with
         | Some e => Ret (Err (Exhausted (Z.of_nat retry_budget) e))
         | None => x ← kop KPanic; match (x : Empty_set) with end
         end
  | S remaining =>
      r ← install_once force;
      match r with
      | Ok package => now ← kop KNow; _ ← kop (KSetLastCheck now); Ret (Ok package)
      | Err e =>
          if package_is_terminal e then Ret (Err e)
          else
            _ ← (if bool_decide (remaining = 0)%nat then mret tt else kop (KWait attempt));
            install_attempts remaining (attempt + 1) (Some e) force
      end
  end.
Definition reusable (force : bool) (now : Timestamp) : kprogram (result (option InstalledPackage) PackageError) :=
  if force then Ret (Ok None)
  else
    due ←? check_is_due now;
    if (due : bool) then Ret (Ok None) else newest_installed.
Definition install (force : bool) : kprogram (result (InstalledPackage * bool) PackageError) :=
  match validate_host os arch with
  | Err e => Ret (Err e)
  | Ok _ =>
      now ← kop KNow;
      held ←? reusable force now;
      match held with
      | Some e => Ret (Ok (e, false))
      | None => install_attempts retry_budget 1 None force
      end
  end.

Fixpoint set_all_aside (l : list InstalledPackage) : kprogram (list path * result unit PackageError) :=
  match l with
  | [] => mret ([], Ok tt)
  | x :: l =>
      r ← set_aside (ip_root x);
      match r with
      | Err e => mret ([], Err e)
      | Ok p => rest ← set_all_aside l; mret (p :: rest.1, rest.2)
      end
  end.
Fixpoint drop_all (l : list path) : kprogram unit :=
  match l with [] => mret tt | p :: l => _ ← drop_staging p; drop_all l end.
Definition reinstall : kprogram (result InstalledPackage PackageError) :=
  _ ←? cache_dir_all staging_root;
  found ←? installed;
  aside ← set_all_aside found;
  match aside.2 with
  | Err e => _ ← drop_all aside.1; Ret (Err e)
  | Ok _ =>
      r ← install true;
      _ ← drop_all aside.1;
      Ret (match r with Ok x => Ok x.1 | Err e => Err e end)
  end.

(** *** Leases *)

Definition lease (a : RunnerAttempt) (v : RunnerVersion) : kprogram (result unit PackageError) :=
  found ←? entry v;
  match found with
  | None => Ret (Err (NotInstalled v))
  | Some _ =>
      if is_inside root (components (runtime_path a)) then Ret (Err (WorkspaceInsideCache (a_id a) (runtime_path a)))
      else
        _ ←? cache_dir_all leases_dir;
        checked (lit "write a runner package cache file") (lease_path (a_id a))
          (kop (KWriteLease (lease_path (a_id a)) (mk_lease v)))
  end.
Definition release_lease (a : AttemptId) : kprogram (result unit PackageError) :=
  remove_file_if_present (lease_path a) (lit "release a runner package lease").

(** [Path::file_stem] and [Path::extension] of a name. *)
Definition stem_and_extension (name : str) : str * option str :=
  match rsplit_once [ch "."] name with
  | Some (stem, ext) => if bool_decide (stem = []) then (name, None) else (stem, Some ext)
  | None => (name, None)
  end.
Definition holder_of (name : str) (v : RunnerVersion) : kprogram (result (option AttemptId) PackageError) :=
  let p := path_push name leases_dir in
  match parse_uuid (stem_and_extension name).1 with
  | None => Ret (Err (UnreadableLease p))
  | Some a =>
      read ← kop (KReadLease p);
      Ret (match read with
           | Err _ => Err (PackageIo (lit "read a runner package lease") p)
           | Ok None => Ok None
           | Ok (Some None) => Err (UnreadableLease p)
           | Ok (Some (Some l)) => Ok (if bool_decide (ls_version l = v) then Some a else None)
           end)
  end.
Fixpoint read_holders (v : RunnerVersion) (l : list (result (option str) unit))
    : kprogram (result (list AttemptId) PackageError) :=
  match l with
  | [] => Ret (Ok [])
  | Err _ :: _ => Ret (Err (PackageIo (lit "read the runner package leases") leases_dir))
  | Ok name :: l =>
      match name with
      | None => read_holders v l
      | Some name =>
          if bool_decide ((stem_and_extension name).2 = Some LEASE_EXTENSION) then
            found ←? holder_of name v;
            rest ←? read_holders v l;
            Ret (Ok (option_list found ++ rest))
          else read_holders v l
      end
  end.
(** [sort_unstable]. *)
Fixpoint insert_id (x : AttemptId) (l : list AttemptId) : list AttemptId :=
  match l with
  | [] => [x]
  | y :: l' => if bool_decide (x ≤ y)%N then x :: l else y :: insert_id x l'
  end.
Definition holders (v : RunnerVersion) : kprogram (result (list AttemptId) PackageError) :=
  listed ← kop (KReadDir leases_dir);
  match listed with
  | Err _ => Ret (Err (PackageIo (lit "read the runner package leases") leases_dir))
  | Ok None => Ret (Ok [])
  | Ok (Some names) => found ←? read_holders v names; Ret (Ok (foldr insert_id [] found))
  end.
Fixpoint judge_holders (v : RunnerVersion) (attempts : list RunnerAttempt) (l : list AttemptId)
    : result unit PackageError :=
  match l with
  | [] => Ok tt
  | h :: l =>
      match List.find (λ a, bool_decide (a_id a = h)) attempts with
      | Some a => if counts_against_capacity a then Err (VersionInUse v h (state a)) else judge_holders v attempts l
      | None => Err (VersionHeldByUnknownAttempt v h)
      end
  end.
Fixpoint release_all (l : list AttemptId) : kprogram (result unit PackageError) :=
  match l with [] => Ret (Ok tt) | a :: l => _ ←? release_lease a; release_all l end.
Definition prune (v : RunnerVersion) (attempts : list RunnerAttempt) : kprogram (result unit PackageError) :=
  found ←? entry v;
  match found with
  | None => Ret (Err (NotInstalled v))
  | Some _ =>
      holding ←? holders v;
      match judge_holders v attempts holding with
      | Err e => Ret (Err e)
      | Ok _ =>
          _ ←? checked (lit "remove a cached runner package") (version_dir v) (kop (KRemoveTree (version_dir v)));
          release_all holding
      end
  end.
End Cache.

(** ** Runtimes ([lifecycle.rs]) *)

Definition package_failure (e : PackageError) : FailureReason :=
  default (Other (lit "runner package cache operation failed")) (package_failure_reason e).

Section Runtimes.
Context (parse_uuid : str → option AttemptId) (unix : bool).
Context (root : path) (os : Os) (arch : Arch) (pins : PinnedDigests).
Context (window check_interval : Duration) (retry_budget : nat).
#[local] Abbreviation install' := (install unix root os arch pins window check_interval retry_budget).
#[local] Abbreviation reinstall' := (reinstall unix root os arch pins window check_interval retry_budget).

(** [TrustedTrees]. *)
Definition trusted_holds (p : path) : kprogram bool :=
  if unix then
    recorded ← kop (KRecorded p);
    match recorded with
    | None => mret false
    | Some r => current ← kop (KFingerprint p); mret (bool_decide (current = Some r))
    end
  else mret true.
Definition trusted_record (p : path) : kprogram (result unit FailureReason) :=
  if unix then
    print ← kop (KFingerprint p);
    match print with
    | None => Ret (Err ProcessStartFailed)
    | Some r => _ ← kop (KRecord p r); Ret (Ok tt)
    end
  else Ret (Ok tt).

(** [copy_package_tree], and [clone_tree]'s two commands. *)
Definition copy_package_tree (source destination : path) : kprogram bool :=
  used ← kop (KExists (path_push DEFAULT_WORK_FOLDER source));
  if (used : bool) then mret false
  else
    cloned ← kop (KClone source destination);
    match cloned with
    | None => mret false
    | Some done =>
        if done || negb unix then mret done
        else plain ← kop (KClone source destination); mret (default false plain)
    end.

Definition materialize (a : RunnerAttempt) : kprogram (result RunnerVersion FailureReason) :=
  first ← install' false;
  match first with
  | Err e => Ret (Err (package_failure e))
  | Ok (found, downloaded) =>
      chosen ←? (if (downloaded : bool) then Ret (Ok (found, true))
                 else
                   holds ← trusted_holds (ip_root found);
                   if (holds : bool) then Ret (Ok (found, false))
                   else
                     again ← reinstall';
                     Ret (match again with Ok x => Ok (x, true) | Err e => Err (package_failure e) end));
      let source := ip_root chosen.1 in
      _ ←? (if (chosen.2 : bool) then trusted_record source else Ret (Ok tt));
      copied ← copy_package_tree source (components (runtime_path a));
      still ← (if (copied : bool) then trusted_holds source else mret false);
      if negb still then
        _ ← kop (KUndo a); Ret (Err ProcessStartFailed)
      else
        leased ← lease root a (ip_version chosen.1);
        match leased with
        | Err e => _ ← kop (KUndo a); Ret (Err (package_failure e))
        | Ok _ => Ret (Ok (ip_version chosen.1))
        end
  end.

Definition release_packages (a : AttemptId) : kprogram (result unit FailureReason) :=
  r ← release_lease root a; Ret (match r with Ok x => Ok x | Err e => Err (package_failure e) end).

Fixpoint prune_each (current : RunnerVersion) (attempts : list RunnerAttempt) (l : list InstalledPackage)
    : kprogram (result unit FailureReason) :=
  match l with
  | [] => Ret (Ok tt)
  | x :: l =>
      if bool_decide (ip_version x = current) then prune_each current attempts l
      else
        r ← prune parse_uuid root (ip_version x) attempts;
        match r with
        | Ok _ | Err (VersionInUse _ _ _) => prune_each current attempts l
        | Err e => Ret (Err (package_failure e))
        end
  end.
Definition prune_obsolete_guarded (current : RunnerVersion) (attempts : list RunnerAttempt)
    : kprogram (result unit FailureReason) :=
  found ← installed root;
  match found with
  | Err e => Ret (Err (package_failure e))
  | Ok l => prune_each current attempts l
  end.
End Runtimes.
