(* ===== verification/PackageSafety.v ===== *)
(** * Only verified packages are run

    [Package] on a machine whose jobs run as the same account and rewrite any package tree
    at any time, but keep away from the downloads and from a tree that this process is
    making. Proved here: an archive is
    unpacked only after its digest matched the one required of the package GitHub listed
    for this host, and only inside its own directory; an entry lands only when it is
    complete; and what a runtime is given is such a package, whatever such jobs did to the
    entries in between. *)

From stdpp Require Import strings functions.
From S2P Require Import Prelude RustStr Ordered Model Path Workspace Execution Host Attempt.
From S2P Require Import Labels Policy Github Effects Archive ArchiveSafety Package.
#[local] Open Scope Z_scope.
#[local] Open Scope rust_scope.

(** ** Contents *)

(** The steps of an extraction, with their answers; a whole one. *)
Definition xdone : Set := {e : xcall & xanswer e}.
Fixpoint performed {A} (m : xprogram A) (l : list xdone) (a : A) : Prop :=
  match m with
  | Ret a' => l = [] ∧ a' = a
  | Op e k => ∃ x l', l = existT e x :: l' ∧ performed (k x) l' a
  end.

Record content := mk_content { ct_bytes : list N; ct_log : list xdone }.
(** [pt_print] is what [tree_fingerprint] answers: every change moves it, and it never
    comes back. *)
Record ptree := mk_tree { pt_content : content; pt_print : Z; pt_manifest : option Manifest }.

Record kworld := mk_kworld {
  kw_files : path → option (list N);       (* downloads *)
  kw_trees : path → option ptree;
  kw_prints : path → option Z;             (* TrustedTrees *)
  kw_fresh : Z;                            (* no tree has had this fingerprint yet *)
  kw_making : path → bool;                 (* from its directory's name to its record *)
  kw_published : list (list RunnerDownload);   (* what GitHub has listed *)
  kw_laid : path → option content;         (* what was copied into a runtime *)
}.
Implicit Types w : kworld.

Definition set_files f w := mk_kworld f (kw_trees w) (kw_prints w) (kw_fresh w) (kw_making w) (kw_published w) (kw_laid w).
Definition set_trees f w := mk_kworld (kw_files w) f (kw_prints w) (kw_fresh w + 1) (kw_making w) (kw_published w) (kw_laid w).
Definition set_prints f w := mk_kworld (kw_files w) (kw_trees w) f (kw_fresh w) (kw_making w) (kw_published w) (kw_laid w).
Definition set_making f w := mk_kworld (kw_files w) (kw_trees w) (kw_prints w) (kw_fresh w) f (kw_published w) (kw_laid w).
Definition set_published l w := mk_kworld (kw_files w) (kw_trees w) (kw_prints w) (kw_fresh w) (kw_making w) l (kw_laid w).
Definition set_laid f w := mk_kworld (kw_files w) (kw_trees w) (kw_prints w) (kw_fresh w) (kw_making w) (kw_published w) f.

Section Safety.
(** SHA-256 in hexadecimal, and the readers of archives. *)
Context (sha256hex : list N → str).
Context (read_zip : list N → result (list (result ZipEntry str)) PackageError).
Context (read_tar : list N → result (list (result TarEntry str)) PackageError).
Context (root : path) (os : Os) (arch : Arch) (pins : PinnedDigests).
Context (window check_interval : Duration) (retry_budget : nat).

(** What GitHub listed for this host, and the digest it must have. *)
Definition wanted w (d : RunnerDownload) (v : RunnerVersion) (digest : Sha256Hex) : Prop :=
  (∃ l, l ∈ kw_published w ∧ select os arch l = Some d) ∧
  version_from_filename (rd_filename d) = Ok v ∧ required_digest os arch pins d v = Ok digest.
Definition verified w (v : RunnerVersion) (bytes : list N) : Prop :=
  ∃ d digest, wanted w d v digest ∧ Sha256Hex_parse (sha256hex bytes) = Ok digest.
(** Every entry of the archive, and nothing else. *)
Definition read_as (bytes : list N) (s : xdone) : Prop :=
  match s with
  | existT XOpenZip x => is_ok x = true → x = read_zip bytes
  | existT XOpenTar x => is_ok x = true → x = read_tar bytes
  | _ => True
  end.
Definition unpacked (c : content) : Prop :=
  Forall (read_as (ct_bytes c)) (ct_log c) ∧
  ∃ kind into, performed (extract true kind into) (ct_log c) (Ok tt).
Definition good_for (v : RunnerVersion) w (t : ptree) : Prop :=
  verified w v (ct_bytes (pt_content t)) ∧ unpacked (pt_content t) ∧
  ∃ m, pt_manifest t = Some m ∧ mf_version m = v.

Definition package_inv w : Prop :=
  (∀ p t, kw_trees w p = Some t → pt_print t < kw_fresh w) ∧
  (∀ p r, kw_prints w p = Some r → r < kw_fresh w) ∧
  (∀ p t, kw_trees w p = Some t → kw_prints w p = Some (pt_print t) → ∃ v, good_for v w t).

(** ** The jobs

    They rewrite any tree but one that is being made, and no download: the code does not
    prevent that either, and a tree changed between its unpacking and its record is
    recorded as trusted. What follows holds of jobs that keep away from both. *)

Definition jobs w w' : Prop :=
  kw_files w' = kw_files w ∧ kw_prints w' = kw_prints w ∧ kw_making w' = kw_making w ∧
  kw_published w' = kw_published w ∧ kw_laid w' = kw_laid w ∧ kw_fresh w ≤ kw_fresh w' ∧
  (∀ p, kw_making w p = true → kw_trees w' p = kw_trees w p) ∧
  (∀ p t, kw_trees w' p = Some t → kw_trees w p = Some t ∨ kw_fresh w ≤ pt_print t < kw_fresh w').

#[global] Instance jobs_preorder : PreOrder jobs.
Proof.
  split; [by intros w; split_and!; auto|].
  intros w1 w2 w3 (E1 & E2 & E3 & E4 & E5 & E6 & M1 & T1) (F1 & F2 & F3 & F4 & F5 & F6 & M2 & T2).
  split_and!; try congruence; [lia| |].
  - intros p Hp. rewrite M2 by (by rewrite E3). by apply M1.
  - intros p t Ht. destruct (T2 p t Ht) as [Ht2|]; [|right; lia]. destruct (T1 p t Ht2); [by left|right; lia].
Qed.

Lemma verified_published w w' v b : kw_published w ⊆ kw_published w' → verified w v b → verified w' v b.
Proof.
  intros Hs (d & digest & [(l & Hl & Hd) Hr] & Hh). exists d, digest. split; [|done]. split; [|done].
  exists l. split; [by apply Hs|done].
Qed.
Lemma good_published w w' v t : kw_published w ⊆ kw_published w' → good_for v w t → good_for v w' t.
Proof. intros Hs (? & ? & ?). split; [by eapply verified_published|done]. Qed.

Lemma jobs_inv w w' : package_inv w → jobs w w' → package_inv w'.
Proof.
  intros (I1 & I2 & I3) (_ & Ep & _ & Eu & _ & Ef & _ & T). split_and!.
  - intros p t Ht. destruct (T p t Ht) as [Ht'|]; [|lia]. specialize (I1 p t Ht'). lia.
  - intros p r Hr. rewrite Ep in Hr. specialize (I2 p r Hr). lia.
  - intros p t Ht Hr. rewrite Ep in Hr. specialize (I2 _ _ Hr). destruct (T p t Ht) as [Ht'|]; [|lia].
    destruct (I3 p t Ht' Hr) as [v Hv]. exists v. eapply good_published; [|done]. by rewrite Eu.
Qed.

(** ** Calls *)

Definition tree_of (into archive : path) w : ptree :=
  default (mk_tree (mk_content (default [] (kw_files w archive)) []) 0 None) (kw_trees w into).
Definition unpack_step (archive into : path) (s : xdone) w : kworld :=
  let t := tree_of into archive w in
  set_trees (<[into := Some (mk_tree (mk_content (ct_bytes (pt_content t)) (ct_log (pt_content t) ++ [s]))
                              (kw_fresh w) (pt_manifest t))]> (kw_trees w)) w.
Definition package_does w (e : kcall) : kanswer e → kworld → Prop :=
  match e return kanswer e → kworld → Prop with
  | KUuid => λ token w',
      let p := path_push token (staging_root root) in
      kw_trees w p = None ∧ w' = set_making (<[p := true]> (kw_making w)) w
  | KPublished => λ x w', match x with Ok l => w' = set_published (l :: kw_published w) w | Err _ => w' = w end
  | KFetch _ p => λ x w', ∃ b, w' = set_files (<[p := b]> (kw_files w)) w ∧ (is_ok x = true → is_Some b)
  | KHash p => λ x w', w' = w ∧ ∀ text, x = Ok text → ∃ b, kw_files w p = Some b ∧ text = sha256hex b
  | KExtract p into e => λ x w', w' = unpack_step p into (existT e x) w ∧ read_as (default [] (kw_files w p)) (existT e x)
  | KReadManifest p => λ x w', w' = w ∧ ∀ m, x = Ok m → m = (q ← path_parent p; t ← kw_trees w q; pt_manifest t)
  | KWriteManifest p m => λ ok w',
      ∃ q o, path_parent p = Some q ∧ (ok = true → o = Some m) ∧
        w' = set_trees (<[q := (λ t, mk_tree (pt_content t) (kw_fresh w) o) <$> kw_trees w q]> (kw_trees w)) w
  | KRename p q => λ ok w',
      if ok then ∃ t, kw_trees w p = Some t ∧ kw_trees w q = None ∧
        w' = set_making (<[q := kw_making w p]> (<[p := false]> (kw_making w)))
               (set_trees (<[q := Some (mk_tree (pt_content t) (kw_fresh w) (pt_manifest t))]>
                           (<[p := None]> (kw_trees w))) w)
      else w' = w
  | KRemoveTree p => λ _ w', ∃ o, (∀ t, o = Some t → pt_print t = kw_fresh w) ∧ w' = set_trees (<[p := o]> (kw_trees w)) w
  | KRemoveFile p => λ _ w', ∃ b, w' = set_files (<[p := b]> (kw_files w)) w
  | KRecorded p => λ x w', w' = w ∧ x = kw_prints w p
  | KFingerprint p => λ x w', w' = w ∧ ∀ r, x = Some r → ∃ t, kw_trees w p = Some t ∧ pt_print t = r
  | KRecord p r => λ _ w', w' = set_making (<[p := false]> (kw_making w)) (set_prints (<[p := Some r]> (kw_prints w)) w)
  | KClone p q => λ ok w',
      ∃ w1 c, jobs w w1 ∧ w' = set_laid (<[q := Some c]> (kw_laid w1)) w1 ∧
        (ok = Some true → ∀ t, kw_trees w p = Some t → kw_trees w1 p = Some t → c = pt_content t)
  | KPanic => λ _ _, False
  | _ => λ _ w', w' = w
  end.

(** What is asked of each call. *)
Definition package_asks w (e : kcall) : Prop :=
  match e with
  | KExtract p into e =>
      stays into e ∧ kw_making w into = true ∧
      ∃ b v, kw_files w p = Some b ∧ verified w v b ∧ ∀ t, kw_trees w into = Some t → ct_bytes (pt_content t) = b
  | KRename p q =>
      (∃ v, q = version_dir root v) → ∃ t v, q = version_dir root v ∧ kw_trees w p = Some t ∧ good_for v w t
  | KRecord p r => ∃ t, kw_trees w p = Some t ∧ pt_print t = r ∧ ∃ v, good_for v w t
  | KPanic => False
  | _ => True
  end.
Definition package_env : env kanswer kworld :=
  mk_env (λ w e, package_inv w ∧ package_asks w e) (λ w e x w', ∃ w1, package_does w e x w1 ∧ jobs w1 w').
#[local] Abbreviation V := package_env.

(** ** What the calls keep *)

(** Every change of a tree moves its fingerprint, and only [KRecord] trusts one. *)
Definition steady w w' : Prop :=
  kw_prints w' = kw_prints w ∧ kw_published w ⊆ kw_published w' ∧ kw_fresh w ≤ kw_fresh w' ∧
  (∀ p t, kw_trees w' p = Some t → kw_trees w p = Some t ∨ kw_fresh w ≤ pt_print t < kw_fresh w').
Definition records (e : kcall) : bool := match e with KRecord _ _ => true | _ => false end.

Lemma jobs_steady w w' : jobs w w' → steady w w'.
Proof. intros (_ & ? & _ & E & _ & ? & _ & ?). split_and!; try done. by rewrite E. Qed.
#[global] Instance steady_preorder : PreOrder steady.
Proof.
  split; [intros w; split_and!; auto; lia|].
  intros w1 w2 w3 (E1 & E2 & E3 & T1) (F1 & F2 & F3 & T2). split_and!; [congruence|by etransitivity|lia|].
  intros p t Ht. destruct (T2 p t Ht) as [Ht2|]; [|right; lia]. destruct (T1 p t Ht2); [by left|right; lia].
Qed.
Lemma steady_same w w' : kw_prints w' = kw_prints w → kw_published w' = kw_published w →
  kw_fresh w' = kw_fresh w → kw_trees w' = kw_trees w → steady w w'.
Proof. intros ? E Ef Et. split_and!; [done|by rewrite E|lia|]. intros p t. rewrite Et. by left. Qed.
Lemma steady_tree w f p o : (∀ t, o = Some t → pt_print t = kw_fresh w) →
  (∀ q, f q = kw_trees w q ∨ f q = None) → steady w (set_trees (<[p := o]> f) w).
Proof.
  intros Ho Hf. split_and!; simpl; [done|done|lia|]. intros q t. destruct (decide (q = p)) as [->|].
  - rewrite fn_lookup_insert. intros H. rewrite (Ho _ H). right. lia.
  - rewrite fn_lookup_insert_ne by done. intros H. left. destruct (Hf q); congruence.
Qed.

Lemma does_steady w e x w' : records e = false → package_does w e x w' → steady w w'.
Proof.
  intros Hr. destruct e; try done; simpl; try (intros ->; reflexivity); try (intros [-> _]; reflexivity).
  - intros [_ ->]. by apply steady_same.
  - destruct x as [l|]; intros ->; [|reflexivity]. split_and!; simpl; [done|set_solver|done|by left].
  - intros (b & -> & _). by apply steady_same.
  - intros [-> _]. apply steady_tree; [by intros t [= <-]|by left].
  - intros (q & o & _ & _ & ->). apply steady_tree; [|by left].
    intros t. destruct (kw_trees w q); [by intros [= <-]|done].
  - destruct x; [|intros ->; reflexivity]. intros (t & _ & _ & ->). etransitivity.
    + apply (steady_tree w (<[source:=None]> (kw_trees w)) target (Some (mk_tree (pt_content t) (kw_fresh w) (pt_manifest t)))); [by intros t' [= <-]|].
      intros q. destruct (decide (q = source)) as [->|]; [right|left]; by rewrite ?fn_lookup_insert, ?fn_lookup_insert_ne.
    + by apply steady_same.
  - intros (o & Ho & ->). by apply steady_tree; [|left].
  - intros (b & ->). by apply steady_same.
  - intros (w1 & c & Hj & -> & _). etransitivity; [by apply jobs_steady|]. by apply steady_same.
Qed.
Lemma steady_inv w w' : package_inv w → steady w w' → package_inv w'.
Proof.
  intros (I1 & I2 & I3) (Ep & Eu & Ef & T). split_and!.
  - intros p t Ht. destruct (T p t Ht) as [Ht'|]; [|lia]. specialize (I1 p t Ht'). lia.
  - intros p r Hr. rewrite Ep in Hr. specialize (I2 p r Hr). lia.
  - intros p t Ht Hr. rewrite Ep in Hr. specialize (I2 _ _ Hr). destruct (T p t Ht) as [Ht'|]; [|lia].
    destruct (I3 p t Ht' Hr) as [v Hv]. exists v. by eapply good_published.
Qed.
Lemma package_does_inv w e x w' : package_inv w → package_asks w e → package_does w e x w' → package_inv w'.
Proof.
  intros HI Ha Hd. destruct (records e) eqn:E; [|by eapply steady_inv, does_steady].
  destruct e; try done. simpl in Ha, Hd. subst w'. destruct Ha as (t & Ht & <- & v & Hv).
  destruct HI as (I1 & I2 & I3). split_and!; simpl; [done| |].
  - intros p r. destruct (decide (p = root0)) as [->|].
    + rewrite fn_lookup_insert. intros [= <-]. by eapply I1.
    + rewrite fn_lookup_insert_ne by done. apply I2.
  - intros p u Hu. destruct (decide (p = root0)) as [->|].
    + intros _. exists v. rewrite Ht in Hu. by injection Hu as <-.
    + rewrite fn_lookup_insert_ne by done. by apply I3.
Qed.

(** ** Programs *)

Lemma sat_k {A} e (k : kanswer e → kprogram A) w Q :
  package_inv w → package_asks w e →
  (∀ x w1 w', package_inv w1 → package_inv w' → package_does w e x w1 → jobs w1 w' → sat V (k x) w' Q) →
  sat V (kop e ≫= k) w Q.
Proof.
  intros HI Ha Hk. apply sat_op_bind; [by split|]. intros x w' (w1 & Hd & Hj).
  pose proof (package_does_inv _ _ _ _ HI Ha Hd) as H1. by eapply Hk, Hj; [|eapply steady_inv, jobs_steady|].
Qed.

(** Calls that change nothing. *)
Definition reads (e : kcall) : bool :=
  match e with
  | KNow | KWait _ | KLastCheck | KSetLastCheck _ | KHash _ | KCreateDirAll _ | KIsDir _ | KExists _ | KReadDir _
  | KReadManifest _ | KReadLease _ | KWriteLease _ _ | KRecorded _ | KFingerprint _ | KUndo _ => true
  | _ => false
  end.
Lemma reads_same w e x w' : reads e = true → package_does w e x w' → w' = w.
Proof. destruct e; try done; simpl; intros _; first [by intros ->|by intros [-> _]|done]. Qed.
Lemma sat_reads {A} e (k : kanswer e → kprogram A) w Q :
  reads e = true → package_inv w →
  (∀ x w', package_inv w' → package_does w e x w → jobs w w' → sat V (k x) w' Q) →
  sat V (kop e ≫= k) w Q.
Proof.
  intros Hl HI Hk. apply sat_k; [done|by destruct e|]. intros x w1 w' H1 H2 Hd Hj.
  pose proof (reads_same _ _ _ _ Hl Hd) as ->. by eapply Hk.
Qed.

(** *** Reading the entries *)

(** Whatever entry was read, if its tree is the trusted one then it is of that version. *)
Definition seen (x : InstalledPackage) w : Prop :=
  ∀ t, kw_trees w (ip_root x) = Some t → kw_prints w (ip_root x) = Some (pt_print t) →
    ∃ m, pt_manifest t = Some m ∧ mf_version m = ip_version x.
Definition after {A} w (Q : kworld → A → Prop) w' (a : A) : Prop := package_inv w' ∧ jobs w w' ∧ Q w' a.

Lemma seen_steady x w w' : package_inv w → steady w w' → seen x w → seen x w'.
Proof.
  intros (_ & I2 & _) (Ep & _ & _ & T) Hs t Ht Hp. rewrite Ep in Hp. specialize (I2 _ _ Hp).
  destruct (T _ _ Ht) as [Ht'|]; [by apply Hs|lia].
Qed.
Lemma seen_jobs x w w' : package_inv w → jobs w w' → seen x w → seen x w'.
Proof. intros HI Hj. by apply seen_steady, jobs_steady. Qed.

Lemma path_parent_push name p : path_parent (path_push name p) = Some p.
Proof. unfold path_parent, path_push. rewrite last_snoc. simpl. by rewrite removelast_last. Qed.

Lemma entry_spec v w : package_inv w →
  sat V (entry root v) w (after w (λ w' r, ∀ x, r = Ok (Some x) → seen x w')).
Proof.
  intros HI. apply sat_reads; [done..|]. intros d w1 H1 _ J1. destruct d; [|by split_and!].
  apply sat_reads; [done..|]. intros r w2 H2 [_ Hr] J2. apply sat_ret. split_and!; [done|by etransitivity|].
  destruct r as [[m|]|]; try done. intros x [= <-]. apply (seen_jobs _ w1); [done..|]. intros t Ht _. simpl in *.
  specialize (Hr _ eq_refl). unfold manifest_path in Hr. rewrite path_parent_push in Hr. simpl in Hr.
  rewrite Ht in Hr. simpl in Hr. by exists m.
Qed.
Lemma after_trans {A} w w1 (Q : kworld → A → Prop) w2 a : jobs w w1 → after w1 Q w2 a → after w Q w2 a.
Proof. intros J (? & ? & ?). split_and!; [done|by etransitivity|done]. Qed.

Lemma read_entries_spec l w : package_inv w →
  sat V (read_entries root l) w (after w (λ w' r, ∀ xs, r = Ok xs → Forall (λ x, seen x w') xs)).
Proof.
  revert w. induction l as [|[name|] l IH]; intros w HI; simpl.
  - split_and!; [done..|]. by intros xs [= <-].
  - destruct (version_named name) as [v|]; [|by apply IH].
    apply sat_bind_ok. eapply sat_mono; [by apply entry_spec|]. intros w1 [found|e] (H1 & J1 & S1); [|by split_and!].
    apply sat_bind_ok. eapply sat_mono; [by apply IH|]. intros w2 [rest|e] (H2 & J2 & S2);
      (split_and!; [done|by etransitivity|]); [|done]. intros xs [= <-]. apply Forall_app. split; [|by apply S2].
    destruct found as [x|]; [|done]. simpl. constructor; [|done]. apply (seen_jobs _ w1); [done..|]. by apply S1.
  - by split_and!.
Qed.

Lemma insert_installed_elem x y l : x ∈ insert_installed y l → x = y ∨ x ∈ l.
Proof.
  induction l as [|z l IH]; simpl; [set_solver|]. destruct (cmp _ _); set_solver.
Qed.
Lemma insert_all_Forall (P : InstalledPackage → Prop) l : Forall P l → Forall P (foldr insert_installed [] l).
Proof.
  rewrite !Forall_forall. intros H x. assert (x ∈ foldr insert_installed [] l → x ∈ l) as Hs; [|auto].
  clear H. induction l as [|y l IH]; simpl; [done|]. intros [->|?]%insert_installed_elem; set_solver.
Qed.
Lemma installed_spec w : package_inv w →
  sat V (installed root) w (after w (λ w' r, ∀ xs, r = Ok xs → Forall (λ x, seen x w') xs)).
Proof.
  intros HI. apply sat_reads; [done..|]. intros [[names|]|] w1 H1 _ J1; [|by split_and!; [..|intros xs [= <-]]|by split_and!].
  apply sat_bind_ok. eapply sat_mono; [by apply read_entries_spec|]. intros w2 [found|e] (H2 & J2 & S2);
    (split_and!; [done|by etransitivity|]); [|done]. intros xs [= <-]. by apply insert_all_Forall, S2.
Qed.
Lemma later_installed_Forall (P : InstalledPackage → Prop) l b x :
  Forall P l → (∀ x, b = Some x → P x) → fold_left later_installed l b = Some x → P x.
Proof.
  intros Hl. revert b. induction Hl as [|y l Hy Hl IH]; intros b Hb; simpl; [by apply Hb|].
  apply IH. intros z. unfold later_installed. destruct b as [u|]; [destruct (bool_decide _)|]; intros [= <-]; [by apply Hb|done..].
Qed.
Lemma newest_spec w : package_inv w →
  sat V (newest_installed root) w (after w (λ w' r, ∀ x, r = Ok (Some x) → seen x w')).
Proof.
  intros HI. apply sat_bind_ok. eapply sat_mono; [by apply installed_spec|]. intros w1 [xs|e] (H1 & J1 & S1);
    split_and!; try done. intros x [= Hx]. apply (later_installed_Forall (λ x, seen x w1) xs None); [by apply S1|done|done].
Qed.
Lemma reusable_spec force now w : package_inv w →
  sat V (reusable root window check_interval force now) w
    (after w (λ w' r, ∀ x, r = Ok (Some x) → force = false ∧ seen x w')).
Proof.
  intros HI. unfold reusable. destruct force; [by split_and!|]. apply sat_bind_ok. unfold check_is_due.
  apply sat_bind_ok. eapply sat_mono; [by apply newest_spec|]. intros w1 [newest|e] (H1 & J1 & _); [|by split_and!].
  assert (∀ w2, package_inv w2 → jobs w w2 → sat V (newest_installed root) w2
    (after w (λ w' r, ∀ x, r = Ok (Some x) → false = false ∧ seen x w'))) as Hn.
  { intros w2 H2 J2. eapply sat_mono; [by apply newest_spec|]. intros w3 r (H3 & J3 & S3).
    split_and!; [done|by etransitivity|]. auto. }
  destruct newest as [x|]; [|by split_and!]. destruct (is_stale window now x); [by split_and!|].
  apply sat_reads; [done..|]. intros t w2 H2 _ J2. apply sat_ret.
  destruct (match t with None => _ | Some _ => _ end); [split_and!; [done|by etransitivity|done]|].
  apply Hn; [done|by etransitivity].
Qed.

(** *** Making a tree *)

Definition being_made (v : RunnerVersion) (b : list N) (archive into : path) (l : list xdone) w : Prop :=
  kw_making w into = true ∧ kw_files w archive = Some b ∧ verified w v b ∧ Forall (read_as b) l ∧
  match kw_trees w into with
  | None => l = []
  | Some t => ct_bytes (pt_content t) = b ∧ ct_log (pt_content t) = l
  end.
Lemma being_made_jobs v b archive into l w w' : jobs w w' → being_made v b archive into l w → being_made v b archive into l w'.
Proof.
  intros (Ef & _ & Em & Eu & _ & _ & T & _) (Hm & Hf & Hv & Hl & Ht). unfold being_made. rewrite Em, Ef, (T _ Hm).
  split_and!; try done. eapply verified_published; [|done]. by rewrite Eu.
Qed.
Lemma extracting_spec {A} v b archive into (m : xprogram A) l w :
  within (stays into) m → package_inv w → being_made v b archive into l w →
  sat V (extracting archive into m) w
    (λ w' a, package_inv w' ∧ ∃ l', performed m l' a ∧ being_made v b archive into (l ++ l') w').
Proof.
  revert l w. induction m as [a|e k IH]; intros l w Hs HI Hb; simpl.
  { split; [done|]. exists []. by rewrite app_nil_r. }
  destruct Hs as [Hs Hk]. apply (sat_k (KExtract archive into e)); [done| |].
  { destruct Hb as (Hm & Hf & Hv & _ & Ht). split_and!; [done..|]. exists b, v. split_and!; [done..|].
    intros t Et. rewrite Et in Ht. by destruct Ht. }
  intros x w1 w2 H1 H2 [-> Hx] Hj. eapply sat_mono; [apply (IH x (l ++ [existT e x])); [done..|]|].
  - apply (being_made_jobs _ _ _ _ _ _ _ Hj). destruct Hb as (Hm & Hf & Hv & Hl & Ht). unfold being_made. simpl in *.
    rewrite fn_lookup_insert. rewrite Hf in Hx. simpl in *. split_and!; try done.
    + apply Forall_app. split; [done|by constructor].
    + unfold tree_of. destruct (kw_trees w into); simpl; [tauto|by rewrite Hf].
    + unfold tree_of. destruct (kw_trees w into); simpl; [by destruct Ht as [_ ->]|by rewrite Ht].
  - intros w3 a (H3 & l' & Hp & Hb3). split; [done|]. exists (existT e x :: l'). rewrite <- app_assoc in Hb3.
    split; [by exists x, l'|done].
Qed.

(** Unpacked whole from a verified archive, and nobody else's yet. *)
Definition staged (v : RunnerVersion) (p : path) w : Prop :=
  kw_making w p = true ∧ ∃ t, kw_trees w p = Some t ∧ verified w v (ct_bytes (pt_content t)) ∧ unpacked (pt_content t).
Definition ready (v : RunnerVersion) (p : path) w : Prop :=
  kw_making w p = true ∧ ∃ t, kw_trees w p = Some t ∧ good_for v w t.

Lemma fetch_spec d v expected kind archive into w :
  package_inv w → kw_making w into = true → kw_trees w into = None → wanted w d v expected →
  sat V (fetch_verify_extract true d v expected kind archive into) w
    (λ w' r, package_inv w' ∧ (r = Ok tt → staged v into w')).
Proof.
  intros HI Hm Ht Hw. apply sat_bind_ok, sat_op; [by split|]. intros r w1 (w0 & Hd & Hj).
  assert (package_inv w1) as H1 by (eapply steady_inv; [by eapply (package_does_inv w (KFetch _ _))|by apply jobs_steady]).
  destruct r as [[]|e]; [|by split]. destruct Hd as (f & -> & _). destruct Hj as (_ & _ & Em & Eu & _ & _ & T & _).
  simpl in *. specialize (T _ Hm). apply sat_bind_ok, sat_op; [by split|]. intros r w2 (w0 & [-> Hd] & Hj2).
  assert (package_inv w2) as H2 by (by eapply steady_inv, jobs_steady).
  destruct r as [text|e]; [|by split]. destruct (Hd _ eq_refl) as (b & Hb & ->).
  destruct (Sha256Hex_parse _) as [actual|e] eqn:Es; [|by split]. case_bool_decide as Ee; [|by split]. subst actual. cbn [negb].
  destruct Hj2 as (Ef2 & _ & Em2 & Eu2 & _ & _ & T2 & _).
  eapply sat_mono; [apply (extracting_spec v b archive into (extract true kind into) []); [apply extract_stays|done|]|].
  - unfold being_made. rewrite Em2, Em, Ef2, T2 by (by rewrite Em). rewrite T, Ht. split_and!; try done.
    apply (verified_published w); [by rewrite Eu2, Eu|]. by exists d, expected.
  - intros w3 r (H3 & l & Hp & Hm3 & _ & Hv & Hl & Ht3). split; [done|]. intros ->. split; [done|].
    destruct (kw_trees w3 into) as [t|]; [destruct Ht3 as [<- Hlog]|].
    + exists t. split_and!; [done..|]. simpl in Hlog. split; [by rewrite Hlog|]. exists kind, into. by rewrite Hlog.
    + simpl in Ht3. subst l. destruct Hp as (? & ? & [=] & _).
Qed.

(** *** Landing it *)

Definition staging_path (p : path) : Prop := ∃ name, p = path_push name (staging_root root).
Lemma version_dir_staging v p : staging_path p → p ≠ version_dir root v.
Proof.
  intros [name ->] E. apply (f_equal length) in E. unfold path_push, version_dir, staging_root, path_push in E.
  rewrite !length_app in E. simpl in E. lia.
Qed.
Lemma manifest_parent p q : path_parent (manifest_path p) = Some q → q = p.
Proof. unfold manifest_path. rewrite path_parent_push. by intros [= ->]. Qed.

Lemma ready_frame v p w w' : kw_trees w' p = kw_trees w p → kw_making w' p = kw_making w p →
  kw_published w ⊆ kw_published w' → ready v p w → ready v p w'.
Proof. intros Et Em Hp (Hm & t & Ht & Hg). split; [congruence|]. exists t. split; [congruence|by eapply good_published]. Qed.
Lemma ready_jobs v p w w' : jobs w w' → ready v p w → ready v p w'.
Proof.
  intros (_ & _ & Em & Eu & _ & _ & T & _) Hr. apply (ready_frame v p w); [by apply T, Hr|by rewrite Em|by rewrite Eu|done].
Qed.
Lemma staged_jobs v p w w' : jobs w w' → staged v p w → staged v p w'.
Proof.
  intros (_ & _ & Em & Eu & _ & _ & T & _) (Hm & t & Ht & Hv & Hu). split; [by rewrite Em|].
  exists t. rewrite (T _ Hm). split_and!; [done| |done]. eapply verified_published; [|done]. by rewrite Eu.
Qed.

(** What an installation answers with: an entry it has just made, or one it found. *)
Definition found (force : bool) (r : result (InstalledPackage * bool) PackageError) w : Prop :=
  match r with
  | Ok (x, true) => ip_root x = version_dir root (ip_version x) ∧ ready (ip_version x) (ip_root x) w
  | Ok (x, false) => force = false ∧ seen x w
  | Err _ => True
  end.
Lemma found_jobs force r w w' : package_inv w → jobs w w' → found force r w → found force r w'.
Proof.
  intros HI Hj. destruct r as [[x []]|]; [|intros [? ?]; split; [done|by eapply seen_jobs]|done].
  intros [? ?]. split; [done|by eapply ready_jobs].
Qed.
Lemma found_remove force r p w x w' : package_inv w → staging_path p →
  package_does w (KRemoveTree p) x w' → found force r w → found force r w'.
Proof.
  intros HI Hp Hd. pose proof (does_steady _ (KRemoveTree p) _ _ eq_refl Hd) as Hs.
  destruct r as [[y []]|]; [|intros [? ?]; split; [done|by eapply seen_steady]|done].
  intros [E Hr]. split; [done|]. destruct Hd as (o & _ & ->). eapply ready_frame; [| | |done]; [|done..]. simpl.
  rewrite fn_lookup_insert_ne; [done|]. rewrite E. by apply version_dir_staging.
Qed.
Lemma drop_staging_spec force r p w : package_inv w → staging_path p → found force r w →
  sat V (drop_staging p) w (λ w' _, package_inv w' ∧ found force r w').
Proof.
  intros HI Hp Hf. apply (sat_k (KRemoveTree p)); [done..|]. intros x w1 w' H1 H' Hd Hj. apply sat_ret.
  split; [done|]. apply (found_jobs force r w1); [done..|]. by apply (found_remove force r p w x w1).
Qed.
Lemma drop_all_spec force r l w : package_inv w → Forall staging_path l → found force r w →
  sat V (drop_all l) w (λ w' _, package_inv w' ∧ found force r w').
Proof.
  revert w. induction l as [|p l IH]; intros w HI Hl Hf; [by apply sat_ret|]. inversion Hl; subst.
  apply sat_bind. eapply sat_mono; [by apply drop_staging_spec|]. intros w1 _ [? ?]. by apply IH.
Qed.

Lemma commit_spec v expected now force extracted w :
  package_inv w → staging_path extracted → ready v extracted w →
  sat V (commit root v expected now force extracted) w (λ w' r, package_inv w' ∧ found force r w').
Proof.
  intros HI Hp Hr. apply sat_k; [done| |].
  { intros _. destruct Hr as (_ & t & Ht & Hg). by exists t, v. }
  intros renamed w1 w2 H1 H2 Hd Hj. destruct renamed.
  - assert (found force (Ok (mk_installed v (version_dir root v) now expected, true)) w2) as Hf.
    { eapply found_jobs; [exact H1|done|]. destruct Hd as (t & Ht & _ & ->). split; [done|]. split; simpl.
      { rewrite fn_lookup_insert. apply Hr. }
      rewrite fn_lookup_insert. eexists. split; [done|]. destruct Hr as (_ & t' & Ht' & Hg). rewrite Ht in Ht'.
      by injection Ht' as <-. }
    apply sat_bind. eapply sat_mono; [by apply drop_staging_spec|]. intros w3 _ [? ?]. by apply sat_ret.
  - apply sat_bind_ok. destruct force; [by apply sat_ret|].
    eapply sat_mono; [by apply entry_spec|]. intros w3 [[e|]|e] (H3 & _ & S3); [|by apply sat_ret|done].
    apply sat_bind. eapply sat_mono; [apply (drop_staging_spec false (Ok (e, false))); [done..|]|].
    + split; [done|]. by apply S3.
    + intros w4 _ [? ?]. by apply sat_ret.
Qed.

Lemma set_aside_spec p w : package_inv w →
  sat V (set_aside root p) w (λ w' r, package_inv w' ∧ (∀ q, r = Ok q → staging_path q) ∧
    ∀ v x, x ≠ p → ready v x w → ready v x w').
Proof.
  intros HI. apply sat_k; [done..|]. intros token w1 w2 H1 H2 [_ ->] J1.
  assert (∀ v x, ready v x w → ready v x w2) as R1.
  { intros v x Hr. eapply ready_jobs; [exact J1|]. eapply ready_frame; [| | |done]; [done| |done]. simpl.
    destruct (decide (x = path_push token (staging_root root))) as [->|]; [|by rewrite fn_lookup_insert_ne].
    rewrite fn_lookup_insert. symmetry. apply Hr. }
  apply sat_bind_ok. unfold checked. apply sat_k; [done| |].
  { intros [v Ev]. exfalso. revert Ev. apply version_dir_staging. by eexists. }
  intros ok w3 w4 H3 H4 Hd J3. apply sat_ret.
  assert (∀ v x, x ≠ p → ready v x w → ready v x w4) as R4.
  { intros v x Hne Hr%R1. eapply ready_jobs; [exact J3|]. destruct ok; [|by rewrite Hd].
    destruct Hd as (t & _ & Hq & ->). assert (x ≠ path_push (lit "untrusted-" ++ token) (staging_root root)).
    { intros ->. destruct Hr as (_ & t' & Ht' & _). congruence. }
    eapply ready_frame; [| | |done]; simpl; [| |done]; by rewrite !fn_lookup_insert_ne. }
  destruct ok; [|by split_and!]. apply sat_ret. split_and!; [done| |done]. intros q [= <-]. by eexists.
Qed.

Lemma land_spec d v expected now force extracted w :
  package_inv w → staging_path extracted → staged v extracted w →
  sat V (land root d v expected now force extracted) w (λ w' r, package_inv w' ∧ found force r w').
Proof.
  intros HI Hp Hs. apply sat_bind_ok. unfold checked. apply sat_k; [done..|].
  intros ok w1 w2 H1 H2 (q & o & Hq%manifest_parent & Ho & ->) J1. subst q. apply sat_ret. destruct ok; [|by split].
  assert (ready v extracted w2) as Hr2.
  { eapply ready_jobs; [exact J1|]. destruct Hs as (Hm & t & Ht & Hv & Hu). split; [done|]. simpl.
    rewrite fn_lookup_insert, Ht. eexists. split; [done|]. split_and!; [done..|]. rewrite (Ho eq_refl). by eexists. }
  clear J1 Ho Hs. apply sat_bind_ok. unfold cache_dir_all, checked. apply sat_reads; [done..|]. intros made w3 H3 _ J3.
  apply sat_ret. destruct made; [|by split]. apply (ready_jobs _ _ _ _ J3) in Hr2. apply sat_bind.
  eapply (sat_mono _ _ _ (λ w' _, package_inv w' ∧ ready v extracted w')).
  { destruct force; [|by apply sat_ret]. apply sat_op; [by split|]. intros x w4 (w0 & -> & J4).
    split; [by eapply steady_inv, jobs_steady|by eapply ready_jobs]. }
  intros w4 present [H4 R4]. apply sat_bind_ok. eapply (sat_mono _ _ _ (λ w' r, package_inv w' ∧
    ready v extracted w' ∧ ∀ x, r = Ok (Some x) → staging_path x)).
  { destruct present; [|by apply sat_ret]. apply sat_bind_ok. eapply sat_mono; [by apply set_aside_spec|].
    intros w5 r (H5 & S5 & R5). assert (ready v extracted w5) by (apply R5; [by apply version_dir_staging|done]).
    destruct r as [x|e]; [|by split_and!]. apply sat_ret. split_and!; [done..|]. intros y [= <-]. by apply S5. }
  intros w5 [displaced|e] (H5 & R5 & S5); [|by split]. apply sat_bind. eapply sat_mono; [by apply commit_spec|].
  intros w6 r [H6 F6]. apply sat_bind. eapply (sat_mono _ _ _ (λ w' _, package_inv w' ∧ found force r w')).
  { destruct displaced as [x|]; [|by apply sat_ret]. apply drop_staging_spec; auto. }
  intros w7 _ [? ?]. by apply sat_ret.
Qed.

Lemma download_spec d v expected now force w :
  package_inv w → wanted w d v expected →
  sat V (download_verify_and_install true root d v expected now force) w (λ w' r, package_inv w' ∧ found force r w').
Proof.
  intros HI Hw. unfold download_verify_and_install. destruct (archive_split _) as [[stem kind]|e]; [|by apply sat_ret].
  apply sat_bind_ok. unfold cache_dir_all, checked. apply sat_reads; [done..|]. intros made w1 H1 _ J1.
  apply sat_ret. destruct made; [|by split].
  assert (wanted w1 d v expected) as W1 by (destruct J1 as (_ & _ & _ & E & _); unfold wanted; by rewrite E).
  apply sat_k; [done..|]. intros token w2 w3 H2 H3 [Hn ->] J3. destruct J3 as (_ & _ & Em & Eu & _ & _ & T & _).
  simpl in Hn, Em, Eu, T. set (p := path_push token (staging_root root)) in *.
  assert (kw_making w3 p = true) as Hm by (by rewrite Em, fn_lookup_insert).
  apply sat_bind. eapply sat_mono; [apply fetch_spec; [done..| |]|].
  { rewrite T; [done|by rewrite fn_lookup_insert]. }
  { unfold wanted. by rewrite Eu. }
  intros w4 r [H4 S4]. apply sat_bind. unfold remove_file_if_present. apply sat_k; [done..|].
  intros removed w5 w6 H5 H6 [f ->] J6. apply sat_ret. apply sat_bind_ok, sat_ret.
  destruct r as [[]|e]; [|by split]. apply sat_bind_ok, sat_ret. destruct removed; [|by split].
  apply sat_bind. eapply sat_mono; [apply land_spec; [done|by eexists|]|].
  { eapply staged_jobs; [exact J6|]. exact (S4 eq_refl). }
  intros w7 r [H7 F7]. apply sat_bind. eapply (sat_mono _ _ _ (λ w' _, package_inv w' ∧ found force r w')).
  { destruct (is_ok r); [by apply sat_ret|]. apply drop_staging_spec; [done|by eexists|done]. }
  intros w8 _ [? ?]. by apply sat_ret.
Qed.

#[local] Abbreviation install_once' := (install_once true root os arch pins window).
#[local] Abbreviation install_attempts' := (install_attempts true root os arch pins window retry_budget).
#[local] Abbreviation install' := (install true root os arch pins window check_interval retry_budget).
#[local] Abbreviation reinstall' := (reinstall true root os arch pins window check_interval retry_budget).

Lemma install_once_spec force w : package_inv w →
  sat V (install_once' force) w (λ w' r, package_inv w' ∧ found force r w').
Proof.
  intros HI. apply sat_bind_ok, sat_op; [by split|]. intros r w1 (w0 & Hd & J1).
  assert (package_inv w1) as H1 by (eapply steady_inv; [by eapply (package_does_inv w KPublished)|by apply jobs_steady]).
  destruct r as [l|e]; [|by split]. simpl in Hd. subst w0. destruct J1 as (_ & _ & _ & Eu & _). simpl in Eu.
  destruct (select os arch l) as [d|] eqn:Es; [|by apply sat_ret].
  destruct (version_from_filename _) as [v|] eqn:Ev; [|by apply sat_ret].
  apply sat_bind_ok. eapply (sat_mono _ _ _ (after w1 (λ w' r, ∀ x, r = Ok (Some x) → force = false ∧ seen x w'))).
  { destruct force; [by apply sat_ret; split_and!|]. eapply sat_mono; [by apply entry_spec|].
    intros w2 r (? & ? & S). split_and!; [done..|]. auto. }
  intros w2 [[x|]|e] (H2 & J2 & S2); [split; [done|by apply S2]| |by split].
  apply sat_reads; [done..|]. intros now w3 H3 _ J3. apply sat_bind_ok.
  eapply (sat_mono _ _ _ (after w3 (λ w' r, ∀ x, r = Ok (Some x) → force = false ∧ seen x w'))).
  { destruct force; [by apply sat_ret; split_and!|]. eapply sat_mono; [by apply newest_spec|].
    intros w4 r (? & ? & S). split_and!; [done..|]. auto. }
  intros w4 [newest|e] (H4 & J4 & S4); [|by split].
  destruct (if from_option (is_stale window now) true newest then None else newest) as [x|] eqn:En.
  - apply sat_ret. split; [done|]. apply S4. destruct (from_option (is_stale window now) true newest); congruence.
  - destruct (required_digest _ _ _ _ _) as [digest|] eqn:Er; [|by apply sat_ret]. apply download_spec; [done|].
    split_and!; [|done..]. exists l. split; [|done]. assert (jobs w1 w4) as (_ & _ & _ & E4 & _) by by (etransitivity; [exact J2|]; etransitivity; [exact J3|exact J4]).
    rewrite E4, Eu. by left.
Qed.
Lemma install_attempts_spec force n k last w : package_inv w → (last = None → n ≠ 0%nat) →
  sat V (install_attempts' n k last force) w (λ w' r, package_inv w' ∧ found force r w').
Proof.
  revert k last w. induction n as [|n IH]; intros k last w HI Hn; cbn [Package.install_attempts].
  { destruct last; [by apply sat_ret|]. by destruct Hn. }
  apply sat_bind. eapply sat_mono; [by apply install_once_spec|]. intros w1 [x|e] [H1 F1].
  { apply sat_reads; [done..|]. intros now w2 H2 _ J2. apply sat_reads; [done..|]. intros _ w3 H3 _ J3. apply sat_ret.
    split; [done|]. apply (found_jobs _ _ w1); [done|by etransitivity|done]. }
  destruct (package_is_terminal e); [by apply sat_ret|]. apply sat_bind.
  eapply (sat_mono _ _ _ (λ w' _, package_inv w')); [|intros w2 _ H2; by apply IH].
  destruct (bool_decide _); [by apply sat_ret|]. apply sat_op; [by split|].
  intros x w2 (w0 & -> & J2). by eapply steady_inv, jobs_steady.
Qed.
Lemma install_spec force w : (0 < retry_budget)%nat → package_inv w →
  sat V (install' force) w (λ w' r, package_inv w' ∧ found force r w').
Proof.
  intros Hb HI. unfold Package.install. destruct (validate_host os arch); [|by apply sat_ret].
  apply sat_reads; [done..|]. intros now w1 H1 _ J1. apply sat_bind_ok. eapply sat_mono; [by apply reusable_spec|].
  intros w2 [[x|]|e] (H2 & J2 & S2); [split; [done|by apply S2]| |by split].
  apply install_attempts_spec; [done|]. intros _. lia.
Qed.

Lemma set_all_aside_spec l w : package_inv w →
  sat V (set_all_aside root l) w (λ w' r, package_inv w' ∧ Forall staging_path r.1).
Proof.
  revert w. induction l as [|x l IH]; intros w HI; cbn [set_all_aside]; [by apply sat_ret|].
  apply sat_bind. eapply sat_mono; [by apply set_aside_spec|]. intros w1 [p|e] (H1 & S1 & _); [|by apply sat_ret].
  apply sat_bind. eapply sat_mono; [by apply IH|]. intros w2 r [H2 F2]. apply sat_ret.
  split; [done|]. constructor; [by apply S1|done].
Qed.
Definition remade (r : result InstalledPackage PackageError) w : Prop :=
  match r with
  | Ok x => ip_root x = version_dir root (ip_version x) ∧ ready (ip_version x) (ip_root x) w
  | Err _ => True
  end.
Lemma reinstall_spec w : (0 < retry_budget)%nat → package_inv w →
  sat V reinstall' w (λ w' r, package_inv w' ∧ remade r w').
Proof.
  intros Hb HI. apply sat_bind_ok. unfold cache_dir_all, checked. apply sat_reads; [done..|]. intros made w1 H1 _ J1.
  apply sat_ret. destruct made; [|by split]. apply sat_bind_ok. eapply sat_mono; [by apply installed_spec|].
  intros w2 [l|e] (H2 & _ & _); [|by split]. apply sat_bind. eapply sat_mono; [by apply set_all_aside_spec|].
  intros w3 [ps [[]|e]] [H3 F3]; simpl in F3; cbn [fst snd].
  - apply sat_bind. eapply sat_mono; [by apply install_spec|]. intros w4 r [H4 F4].
    apply sat_bind. eapply sat_mono; [by apply (drop_all_spec true r)|]. intros w5 _ [H5 F5]. apply sat_ret.
    split; [done|]. destruct r as [[x []]|]; [done| |done]. by destruct F5.
  - apply sat_bind. eapply sat_mono; [by apply (drop_all_spec true (Err e))|]. intros w4 _ [? _]. by apply sat_ret.
Qed.

(** *** Using it *)

(** The recorded fingerprint is that of a package of this version. *)
Definition trusted (v : RunnerVersion) (p : path) w : Prop :=
  ∃ r, kw_prints w p = Some r ∧ ∀ t, kw_trees w p = Some t → pt_print t = r → good_for v w t.
Lemma trusted_steady v p w w' : package_inv w → steady w w' → trusted v p w → trusted v p w'.
Proof.
  intros (_ & I2 & _) (Ep & Hp & _ & T) (r & Hr & Hg). exists r. rewrite Ep. split; [done|].
  intros t Ht Er. specialize (I2 _ _ Hr). destruct (T _ _ Ht) as [Ht'|]; [|lia]. eapply good_published; [done|]. by apply Hg.
Qed.
Lemma trusted_holds_spec p w : package_inv w →
  sat V (trusted_holds true p) w (after w (λ w' b, b = true →
    ∃ w1 t, package_inv w1 ∧ jobs w w1 ∧ jobs w1 w' ∧ kw_trees w1 p = Some t ∧ kw_prints w1 p = Some (pt_print t))).
Proof.
  intros HI. apply sat_reads; [done..|]. intros [r|] w1 H1 [_ Hp] J1; [|by split_and!].
  apply sat_reads; [done..|]. intros current w2 H2 [_ Hc] J2. apply sat_ret. split_and!; [done|by etransitivity|].
  intros ->%bool_decide_eq_true. destruct (Hc _ eq_refl) as (t & Ht & Hr). exists w1, t. split_and!; [done..|].
  destruct J1 as (_ & E & _). by rewrite E, <- Hp, Hr.
Qed.
Lemma seen_trusted x w t : package_inv w → seen x w → kw_trees w (ip_root x) = Some t →
  kw_prints w (ip_root x) = Some (pt_print t) → trusted (ip_version x) (ip_root x) w.
Proof.
  intros (_ & _ & I3) Hs Ht Hp. exists (pt_print t). split; [done|]. intros u Hu _. rewrite Ht in Hu. injection Hu as <-.
  destruct (I3 _ _ Ht Hp) as (v & Hv & Hc & m & Hm & Ev). destruct (Hs _ Ht Hp) as (m' & Hm' & E').
  assert (v = ip_version x) as <- by congruence. split_and!; [done..|]. by exists m.
Qed.
Lemma trusted_record_spec v p w : package_inv w → ready v p w →
  sat V (trusted_record true p) w (λ w' r, package_inv w' ∧ (r = Ok tt → trusted v p w')).
Proof.
  intros HI Hr. apply sat_reads; [done..|]. intros [r|] w1 H1 [_ Hp] J1; [|by split].
  apply (ready_jobs _ _ _ _ J1) in Hr as Hr1. destruct (Hp _ eq_refl) as (t & Ht & <-).
  assert (kw_trees w1 p = Some t) as Ht1 by (destruct J1 as (_ & _ & _ & _ & _ & _ & T & _); rewrite T; [done|apply Hr]).
  destruct Hr1 as (_ & u & Hu & Hg). rewrite Ht1 in Hu. injection Hu as <-.
  apply sat_k; [done|by exists t; eauto|]. intros x w2 w3 H2 H3 -> J3. apply sat_ret. split; [done|]. intros _.
  eapply trusted_steady; [exact H2|by apply jobs_steady|]. exists (pt_print t). simpl. rewrite fn_lookup_insert.
  split; [done|]. intros u Hu _. rewrite Ht1 in Hu. by injection Hu as <-.
Qed.

(** While the tree stays the recorded one, what was copied is its content. *)
Definition copied (p q : path) w : Prop :=
  ∀ t, kw_trees w p = Some t → kw_prints w p = Some (pt_print t) → kw_laid w q = Some (pt_content t).
Lemma copied_jobs p q w w' : package_inv w → jobs w w' → copied p q w → copied p q w'.
Proof.
  intros (_ & I2 & _) (_ & Ep & _ & _ & El & _ & _ & T) Hc t Ht Hp. rewrite Ep in Hp. rewrite El.
  specialize (I2 _ _ Hp). destruct (T _ _ Ht) as [Ht'|]; [by apply Hc|lia].
Qed.
Lemma clone_spec v p q w : package_inv w → trusted v p w →
  sat V (kop (KClone p q)) w (λ w' ok, package_inv w' ∧ trusted v p w' ∧ (ok = Some true → copied p q w')).
Proof.
  intros HI Ht. apply sat_op; [by split|]. intros ok w' (w0 & Hd & J).
  assert (package_inv w0) as H0 by (by eapply (package_does_inv w (KClone _ _))).
  pose proof (does_steady w (KClone p q) _ _ eq_refl Hd) as Hs. apply jobs_steady in J as Hs'.
  split_and!; [by eapply steady_inv|apply (trusted_steady v p w); [done|by etransitivity|done]|].
  intros ->. apply (copied_jobs _ _ w0); [done..|]. destruct Hd as (w1 & c & J1 & -> & Hc). intros t Hx Hp. simpl in *.
  rewrite fn_lookup_insert. f_equal. apply Hc; [done| |done].
  destruct J1 as (_ & Ep & _ & _ & _ & _ & _ & T). rewrite Ep in Hp. destruct HI as (_ & I2 & _). specialize (I2 _ _ Hp).
  destruct (T _ _ Hx); [done|lia].
Qed.
Lemma copy_spec v p q w : package_inv w → trusted v p w →
  sat V (copy_package_tree true p q) w (λ w' ok, package_inv w' ∧ trusted v p w' ∧ (ok = true → copied p q w')).
Proof.
  intros HI Ht. apply sat_reads; [done..|]. intros used w1 H1 _ J1. apply (trusted_steady _ _ _ _ HI (jobs_steady _ _ J1)) in Ht.
  destruct used; [by apply sat_ret|]. apply sat_bind. eapply sat_mono; [by apply clone_spec|].
  intros w2 ok (H2 & T2 & C2). destruct ok as [[]|]; cbn [orb negb]; [by apply sat_ret; auto| |by apply sat_ret].
  apply sat_bind. eapply sat_mono; [by apply clone_spec|]. intros w3 ok (H3 & T3 & C3). apply sat_ret.
  split_and!; [done..|]. destruct ok as [[]|]; auto; done.
Qed.

(** What a runtime holds: the whole of a package of this version, verified. *)
Definition runs (v : RunnerVersion) (q : path) w : Prop :=
  ∃ c, kw_laid w q = Some c ∧ verified w v (ct_bytes c) ∧ unpacked c.
Lemma runs_jobs v q w w' : jobs w w' → runs v q w → runs v q w'.
Proof.
  intros (_ & _ & _ & Eu & El & _) (c & Hc & Hv & Hu). exists c. rewrite El. split_and!; [done| |done].
  eapply verified_published; [|done]. by rewrite Eu.
Qed.
Lemma still_runs v p q w w1 w' t : package_inv w → trusted v p w → copied p q w → jobs w w1 → jobs w1 w' →
  kw_trees w1 p = Some t → kw_prints w1 p = Some (pt_print t) → runs v q w'.
Proof.
  intros HI Ht Hc J1 J2 Hx Hp. apply (runs_jobs _ _ w1); [done|].
  destruct (trusted_steady _ _ _ _ HI (jobs_steady _ _ J1) Ht) as (r & Hr & Hg). rewrite Hp in Hr. injection Hr as <-.
  destruct (Hg _ Hx eq_refl) as (Hv & Hu & _). exists (pt_content t). split_and!; try done. by eapply copied_jobs.
Qed.
Lemma lease_spec a v w : package_inv w → sat V (lease root a v) w (after w (λ _ _, True)).
Proof.
  intros HI. apply sat_bind_ok. eapply sat_mono; [by apply entry_spec|].
  intros w1 [[x|]|e] (H1 & J1 & _); [|by split_and!..]. destruct (is_inside _ _); [by split_and!|].
  apply sat_bind_ok. unfold cache_dir_all, checked. apply sat_reads; [done..|]. intros made w2 H2 _ J2.
  assert (jobs w w2) by (by etransitivity). apply sat_ret. destruct made; [|by split_and!].
  apply sat_reads; [done..|]. intros ok w3 H3 _ J3. apply sat_ret. split_and!; [done|by etransitivity|done].
Qed.

(** The tree to copy: made now, or still the one this process made. *)
Lemma choose_spec x downloaded w : (0 < retry_budget)%nat → package_inv w → found false (Ok (x, downloaded)) w →
  sat V (if (downloaded : bool) then Ret (Ok (x, true))
         else holds ← trusted_holds true (ip_root x);
              if (holds : bool) then Ret (Ok (x, false))
              else again ← reinstall'; Ret (match again with Ok y => Ok (y, true) | Err e => Err (package_failure e) end)) w
    (λ w' r, package_inv w' ∧ ∀ y (fresh : bool), r = Ok (y, fresh) →
      if fresh then ready (ip_version y) (ip_root y) w' else trusted (ip_version y) (ip_root y) w').
Proof.
  intros Hb HI Hf. destruct downloaded.
  { apply sat_ret. split; [done|]. intros y fresh [= <- <-]. apply Hf. }
  destruct Hf as [_ Hs]. apply sat_bind. eapply sat_mono; [by apply trusted_holds_spec|].
  intros w1 holds (H1 & _ & Hh). destruct holds.
  - apply sat_ret. split; [done|]. intros y fresh [= <- <-]. destruct (Hh eq_refl) as (w2 & t & H2 & J1 & J2 & Ht & Hp).
    apply (trusted_steady _ _ w2); [done|by apply jobs_steady|]. apply (seen_trusted x w2 t); [done|by apply (seen_jobs x w)|done..].
  - apply sat_bind. eapply sat_mono; [by apply reinstall_spec|]. intros w2 r [H2 R2]. apply sat_ret.
    split; [done|]. intros y fresh Hr. destruct r as [z|]; [|done]. injection Hr as <- <-. apply R2.
Qed.

Lemma materialize_spec (a : RunnerAttempt) w :
  (0 < retry_budget)%nat → package_inv w →
  sat V (materialize true root os arch pins window check_interval retry_budget a) w
    (λ w' r, ∀ v, r = Ok v → runs v (components (runtime_path a)) w').
Proof.
  intros Hb HI. apply sat_bind. eapply sat_mono; [by apply install_spec|]. intros w1 [[x downloaded]|e] [H1 F1]; [|done].
  apply sat_bind_ok. eapply sat_mono; [by apply choose_spec|]. intros w2 [[y fresh]|e] [H2 C2]; [|done].
  specialize (C2 _ _ eq_refl). cbn [fst snd]. apply sat_bind_ok.
  eapply (sat_mono _ _ _ (λ w' r, package_inv w' ∧ (r = Ok tt → trusted (ip_version y) (ip_root y) w'))).
  { destruct fresh; [by apply trusted_record_spec|by apply sat_ret]. }
  intros w3 [[]|e] [H3 T3]; [|done]. specialize (T3 eq_refl). apply sat_bind. eapply sat_mono; [by apply copy_spec|].
  intros w4 ok (H4 & T4 & C4). apply sat_bind. eapply (sat_mono _ _ _ (λ w' b, package_inv w' ∧
    (b = true → runs (ip_version y) (components (runtime_path a)) w'))).
  { destruct ok; [|by apply sat_ret]. eapply sat_mono; [by apply trusted_holds_spec|]. intros w5 b (H5 & _ & Hh).
    split; [done|]. intros ->. destruct (Hh eq_refl) as (w6 & t & _ & J1 & J2 & Ht & Hp). by apply (still_runs _ (ip_root y) _ w4 w6 w5 t); auto. }
  intros w5 still [H5 S5]. destruct still; cbn [negb].
  - apply sat_bind. eapply sat_mono; [by apply lease_spec|]. intros w6 [[]|e] (H6 & J6 & _).
    + apply sat_ret. intros v [= <-]. eapply runs_jobs; [done|]. by apply S5.
    + apply sat_reads; [done..|]. intros ? w7 _ _ _. by apply sat_ret.
  - apply sat_reads; [done..|]. intros ? w6 _ _ _. by apply sat_ret.
Qed.
End Safety.
