(* ===== verification/PackageRuns.v ===== *)
(** * Runs of the package cache

    What [PackageSafety] proves, read as executions: at every call of a materialization,
    and at its end. The calls are counted here as well, and the package of an attempt that
    runs, or that nobody knows, survives every pruning. *)

From stdpp Require Import strings functions.
From S2P Require Import Prelude RustStr Ordered Model Path Workspace Execution Host Attempt.
From S2P Require Import Labels Policy Github Effects Archive ArchiveSafety Package PackageSafety.
#[local] Open Scope Z_scope.
#[local] Open Scope rust_scope.

(** ** Downloads *)

Definition is_fetch (e : kcall) : bool := match e with KFetch _ _ => true | _ => false end.
Definition quiet (e : kcall) : Prop := is_fetch e = false.
Ltac within_quiet := repeat first [within_step ltac:(done) | progress unfold checked, cache_dir_all, drop_staging].

Section Downloads.
Context (unix : bool) (root : path) (os : Os) (arch : Arch) (pins : PinnedDigests).
Context (window check_interval : Duration) (retry_budget : nat).

Lemma extracting_quiet {A} archive into (m : xprogram A) : within quiet (extracting archive into m).
Proof. induction m as [a|e k IH]; simpl; [done|]. by split. Qed.
Lemma entry_quiet v : within quiet (entry root v).
Proof. unfold entry. within_quiet. Qed.
Lemma installed_quiet : within quiet (installed root).
Proof.
  unfold installed. apply within_bind; [by split|]. intros [[l|]|]; [|exact I..]. apply within_bind_ok; [|done].
  induction l as [|[name|] l IH]; try exact I. cbn [read_entries]. destruct (version_named name); [|done].
  apply within_bind_ok; [apply entry_quiet|]. intros ?. by apply within_bind_ok; [|done].
Qed.
Lemma newest_quiet : within quiet (newest_installed root).
Proof. apply within_bind_ok; [apply installed_quiet|done]. Qed.
Lemma set_aside_quiet p : within quiet (set_aside root p).
Proof. unfold set_aside. within_quiet. Qed.
Lemma commit_quiet v expected now force p : within quiet (commit root v expected now force p).
Proof. unfold commit. within_quiet. apply entry_quiet. Qed.
Lemma land_quiet d v expected now force p : within quiet (land root d v expected now force p).
Proof. unfold land. within_quiet; [apply set_aside_quiet|apply commit_quiet]. Qed.
Lemma drop_all_quiet l : within quiet (drop_all l).
Proof. induction l as [|p l IH]; simpl; [done|]. by split. Qed.
Lemma set_all_aside_quiet l : within quiet (set_all_aside root l).
Proof.
  induction l as [|x l IH]; [exact I|]. cbn [set_all_aside]. apply within_bind; [apply set_aside_quiet|].
  intros [p|e]; [|exact I]. by apply within_bind.
Qed.
Lemma quiet_at_most {A} (m : kprogram A) : within quiet m → at_most is_fetch 0 m.
Proof. by apply within_at_most. Qed.

Lemma download_fetches d v expected now force :
  at_most is_fetch 1 (download_verify_and_install unix root d v expected now force).
Proof.
  unfold download_verify_and_install. destruct (archive_split _) as [[stem kind]|]; [|done].
  apply (at_most_bind_ok _ 0 1); [apply quiet_at_most; within_quiet|]. intros _.
  apply (at_most_bind _ 0 1); [done|]. intros token. apply (at_most_bind _ 1 0).
  - apply (at_most_bind_ok _ 1 0); [done|]. intros _. apply quiet_at_most. apply within_bind_ok; [by split|]. intros text.
    destruct (Sha256Hex_parse text); [|done]. destruct (negb _); [exact I|apply extracting_quiet].
  - intros r. apply quiet_at_most. unfold remove_file_if_present. within_quiet. apply land_quiet.
Qed.
Lemma install_once_fetches force : at_most is_fetch 1 (install_once unix root os arch pins window force).
Proof.
  apply (at_most_bind_ok _ 0 1); [done|]. intros l. destruct (select _ _ l); [|done].
  destruct (version_from_filename _); [|done].
  apply (at_most_bind_ok _ 0 1); [apply quiet_at_most; destruct force; [done|apply entry_quiet]|]. intros [x|]; [done|].
  apply (at_most_bind _ 0 1); [done|]. intros now.
  apply (at_most_bind_ok _ 0 1); [apply quiet_at_most; destruct force; [done|apply newest_quiet]|]. intros newest.
  destruct (if from_option (is_stale window now) true newest then None else newest); [done|]. destruct (required_digest _ _ _ _ _); [|done].
  apply download_fetches.
Qed.
Lemma install_fetches force : at_most is_fetch retry_budget (install unix root os arch pins window check_interval retry_budget force).
Proof.
  unfold install. destruct (validate_host os arch); [|done]. apply (at_most_bind _ 0 retry_budget); [done|]. intros now.
  apply (at_most_bind_ok _ 0 retry_budget).
  { apply quiet_at_most. unfold reusable, check_is_due. destruct force; [done|]. within_quiet; apply newest_quiet. }
  intros [x|]; [done|]. cut (∀ n k last, at_most is_fetch n (install_attempts unix root os arch pins window retry_budget n k last force)); [auto|].
  induction n as [|n IH]; intros k last; cbn [install_attempts]; [by destruct last as [e|]; [|intros []]|].
  apply (at_most_bind _ 1 n); [apply install_once_fetches|]. intros [x|e]; [done|].
  destruct (package_is_terminal e); [done|]. apply (at_most_bind _ 0 n); [|intros _; apply IH].
  by destruct (bool_decide _).
Qed.
Lemma materialize_fetches a :
  at_most is_fetch (2 * retry_budget) (materialize unix root os arch pins window check_interval retry_budget a).
Proof.
  replace (2 * retry_budget)%nat with (retry_budget + (retry_budget + 0))%nat by lia.
  apply at_most_bind; [apply install_fetches|]. intros [[x downloaded]|e]; [|done]. apply at_most_bind_ok.
  - destruct downloaded; [done|]. apply (at_most_bind _ 0 retry_budget).
    { apply quiet_at_most. unfold trusted_holds. within_quiet. }
    intros []; [done|]. replace retry_budget with (retry_budget + 0)%nat at 1 by lia. apply at_most_bind; [|done].
    apply (at_most_bind_ok _ 0 retry_budget); [apply quiet_at_most; within_quiet|]. intros _.
    apply (at_most_bind_ok _ 0 retry_budget); [apply quiet_at_most, installed_quiet|]. intros l.
    apply (at_most_bind _ 0 retry_budget); [apply quiet_at_most, set_all_aside_quiet|]. intros [ps [[]|e]]; cbn [fst snd].
    + replace retry_budget with (retry_budget + 0)%nat at 1 by lia. apply at_most_bind; [apply install_fetches|].
      intros r. apply quiet_at_most. apply within_bind; [apply drop_all_quiet|done].
    + eapply at_most_mono; [|apply quiet_at_most, within_bind; [apply drop_all_quiet|done]]. lia.
  - intros [y fresh]. apply quiet_at_most. unfold trusted_record, trusted_holds, copy_package_tree, lease.
    within_quiet; apply entry_quiet.
Qed.
End Downloads.

(** ** A materialization *)

Section Materialize.
Context (sha256hex : list N → str).
Context (read_zip : list N → result (list (result ZipEntry str)) PackageError).
Context (read_tar : list N → result (list (result TarEntry str)) PackageError).
Context (root : path) (os : Os) (arch : Arch) (pins : PinnedDigests).
Context (window check_interval : Duration) (retry_budget : nat).
#[local] Abbreviation V := (package_env sha256hex read_zip read_tar root os arch pins).
#[local] Abbreviation materialize' := (materialize true root os arch pins window check_interval retry_budget).

End Materialize.

(** *** A machine *)

Definition ex_bytes : list N := [31; 139; 8]%N.
Definition ex_sha (b : list N) : str := replicate 64 (if bool_decide (b = ex_bytes) then ch "a" else ch "b").
Definition ex_tar (b : list N) : result (list (result TarEntry str)) PackageError :=
  Ok [Ok (mk_tar_entry [Normal (lit "run.sh")] (lit "run.sh") Regular 493 None)].
Definition ex_zip (b : list N) : result (list (result ZipEntry str)) PackageError := Err (Extract (lit "not a zip")).
Definition ex_package : RunnerDownload :=
  mk_download (lit "linux") (lit "x64") (lit "https://example.com/runner") (lit "actions-runner-linux-x64-2.330.0.tar.gz")
    (Some (replicate 64 (ch "a"))).
Definition ex_version : RunnerVersion := mk_version [2; 330; 0] (lit "2.330.0").
Definition ex_root : path := [RootDir; Normal (lit "srv"); Normal PACKAGES_DIR].
Definition ex_holder : RunnerAttempt := allocate 7 1 (lit "/srv/runtimes/7") 0.

Definition honest_open (b : list N) (e : xcall) : xanswer e :=
  match e with
  | XOpenZip => ex_zip b
  | XOpenTar => ex_tar b
  | XUnpackIn _ _ => Ok true
  | _ => true
  end.
(** It answers as a machine without other jobs would, or not at all. *)
Definition honest (e : kcall) (w : kworld) : option (kworld * kanswer e) :=
  match e return option (kworld * kanswer e) with
  | KNow => Some (w, 1000)
  | KUuid =>
      let p := path_push (lit "t") (staging_root ex_root) in
      match kw_trees w p with
      | None => Some (set_making (<[p := true]> (kw_making w)) w, lit "t")
      | Some _ => None
      end
  | KPublished => Some (set_published ([ex_package] :: kw_published w) w, Ok [ex_package])
  | KFetch _ p => Some (set_files (<[p := Some ex_bytes]> (kw_files w)) w, Ok tt)
  | KLastCheck => Some (w, Some 900)
  | KHash p => match kw_files w p with Some b => Some (w, Ok (ex_sha b)) | None => None end
  | KExtract p into e =>
      let x := honest_open (default [] (kw_files w p)) e in Some (unpack_step p into (existT e x) w, x)
  | KIsDir p | KExists p => Some (w, bool_decide (is_Some (kw_trees w p)))
  | KCreateDirAll _ | KWriteLease _ _ => Some (w, true)
  | KReadDir _ => Some (w, Ok (Some [Ok (Some (lit "2.330.0")); Ok (Some STAGING_DIR)]))
  | KReadManifest p => Some (w, Ok (q ← path_parent p; t ← kw_trees w q; pt_manifest t))
  | KWriteManifest p m =>
      match path_parent p with
      | Some q =>
          Some (set_trees (<[q := (λ t, mk_tree (pt_content t) (kw_fresh w) (Some m)) <$> kw_trees w q]> (kw_trees w)) w, true)
      | None => None
      end
  | KRename p q =>
      match kw_trees w p, kw_trees w q with
      | Some t, None =>
          Some (set_making (<[q := kw_making w p]> (<[p := false]> (kw_making w)))
                 (set_trees (<[q := Some (mk_tree (pt_content t) (kw_fresh w) (pt_manifest t))]>
                             (<[p := None]> (kw_trees w))) w), true)
      | _, _ => Some (w, false)
      end
  | KRemoveTree p => Some (set_trees (<[p := None]> (kw_trees w)) w, true)
  | KRemoveFile p => Some (set_files (<[p := None]> (kw_files w)) w, Ok true)
  | KReadLease _ => Some (w, Ok None)
  | KRecorded p => Some (w, kw_prints w p)
  | KFingerprint p => Some (w, pt_print <$> kw_trees w p)
  | KRecord p r => Some (set_making (<[p := false]> (kw_making w)) (set_prints (<[p := Some r]> (kw_prints w)) w), tt)
  | KClone p q =>
      match kw_trees w p with
      | Some t => Some (set_laid (<[q := Some (pt_content t)]> (kw_laid w)) w, Some true)
      | None => None
      end
  | KWait _ | KSetLastCheck _ | KUndo _ => Some (w, tt)
  | KPanic => None
  end.
#[local] Abbreviation ex_env := (package_env ex_sha ex_zip ex_tar ex_root Linux X64 []).

Lemma honest_open_reads b e : read_as ex_zip ex_tar b (existT e (honest_open b e)).
Proof. by destruct e. Qed.
Lemma honest_does e w w' x : honest e w = Some (w', x) → does ex_env w e x w'.
Proof.
  intros H. exists w'. split; [|reflexivity]. destruct e; simpl in *; simplify_eq; try done.
  all: try (by eexists).
  - destruct (kw_trees w _) eqn:E; [done|]. by simplify_eq.
  - destruct (kw_files w archive) as [b|] eqn:E; [|done]. simplify_eq. split; [done|]. intros text [= <-]. by exists b.
  - split; [done|apply honest_open_reads].
  - split; [done|]. by intros m [= <-].
  - destruct (path_parent p) as [q|] eqn:E; [|done]. simplify_eq. by exists q, (Some m).
  - destruct (kw_trees w source) as [t|] eqn:E, (kw_trees w target) eqn:E'; simplify_eq; try done. by exists t.
  - by exists None.
  - split; [done|]. intros r Hr. destruct (kw_trees w' root) as [t|]; [|done]. injection Hr as <-. by exists t.
  - destruct (kw_trees w source) as [t|] eqn:E; [|done]. simplify_eq.
    exists w, (pt_content t). split_and!; [reflexivity|done|]. intros _ t' Ht _. congruence.
Qed.

(** A job has rewritten the cached package, keeping its manifest: the machine finds the
    entry, does not trust it, installs the package anew, and copies that. *)
Definition ex_tampered : kworld :=
  mk_kworld (λ _, None)
    (<[version_dir ex_root ex_version := Some (mk_tree (mk_content [1; 2; 3]%N []) 4
        (Some (mk_manifest ex_version (mk_sha (replicate 64 (ch "a"))) 950 (lit "x"))))]> (λ _, None))
    (<[version_dir ex_root ex_version := Some 3]> (λ _, None)) 5 (λ _, false) [] (λ _, None).
Lemma ex_tampered_inv : package_inv ex_sha ex_zip ex_tar Linux X64 [] ex_tampered.
Proof.
  split_and!; simpl; intros p t; (destruct (decide (p = version_dir ex_root ex_version)) as [->|];
    [rewrite !fn_lookup_insert|rewrite !fn_lookup_insert_ne by done; done]); intros [= <-]; simpl; [lia..|by intros [=]].
Qed.
#[local] Abbreviation ex_materialize :=
  (materialize true ex_root Linux X64 [] FRESHNESS_WINDOW CHECK_INTERVAL RETRY_BUDGET ex_holder).
Lemma ex_materialized :
  ∃ w', partly_run ex_env ex_materialize ex_tampered (Ret (Ok ex_version)) w' ∧
    ct_bytes <$> kw_laid w' (components (runtime_path ex_holder)) = Some ex_bytes.
Proof. apply (run_for_end ex_env id honest _ 100 _ _ _ _ honest_does). vm_compute. reflexivity. Qed.


(** ** Pruning *)

(** The leases, in the order of nothing; a lease is written whole. *)
Record lworld := mk_lworld { lw_leases : AttemptId → option RunnerVersion }.
Definition real (v : RunnerVersion) : Prop := RunnerVersion_parse (rv_raw v) = Ok v.

Lemma rsplit_once_none c b : c ∉ b → rsplit_once [c] b = None.
Proof.
  induction b as [|d b IH]; [done|]. intros Hb. cbn [rsplit_once strip_prefix]. rewrite IH by set_solver.
  destruct (N.eqb_spec c d) as [<-|]; [set_solver|done].
Qed.
Lemma rsplit_once_last c a b : c ∉ b → rsplit_once [c] (a ++ [c] ++ b) = Some (a, b).
Proof.
  intros Hb. induction a as [|d a IH].
  - cbn [app rsplit_once strip_prefix]. by rewrite (rsplit_once_none c b), N.eqb_refl by done.
  - cbn [app rsplit_once] in *. by rewrite IH.
Qed.
Lemma path_push_inj p x y : path_push x p = path_push y p → x = y.
Proof. unfold path_push. intros E%app_inv_head. congruence. Qed.
Lemma lease_name_parts a : stem_and_extension (lease_name a) = (show_uuid a, Some LEASE_EXTENSION).
Proof.
  unfold stem_and_extension, lease_name. rewrite rsplit_once_last.
  - rewrite bool_decide_eq_false_2; [done|]. unfold show_uuid. by intros [_ [=]]%app_nil.
  - apply (bool_decide_unpack _). by vm_compute.
Qed.

Definition is_uuid (a : AttemptId) : Prop := (a < 2 ^ 128)%N.

Section Prune.
Context (parse_uuid : str → option AttemptId) (root : path).
Context (current : RunnerVersion) (attempts : list RunnerAttempt).
(** [uuid::Uuid::parse_str] reads what [Display] writes; an identifier has 128 bits. *)
Hypothesis parse_shown : ∀ a, is_uuid a → parse_uuid (show_uuid a) = Some a.
Hypothesis parse_range : ∀ s a, parse_uuid s = Some a → is_uuid a.
Implicit Types w : lworld.

(** The journal knows the attempt, and it no longer runs. *)
Definition finished (a : AttemptId) : Prop := ∃ x, x ∈ attempts ∧ a_id x = a ∧ counts_against_capacity x = false.
(** Under the allocation lock nobody else takes or gives back a lease. *)
Definition lease_does w (e : kcall) : kanswer e → lworld → Prop :=
  match e return kanswer e → lworld → Prop with
  | KReadDir p => λ x w', w' = w ∧ (p = leases_dir root → ∀ a v, lw_leases w a = Some v →
      match x with Ok (Some l) => Ok (Some (lease_name a)) ∈ l | Ok None => False | Err _ => True end)
  | KReadLease p => λ x w', w' = w ∧ (∀ a v, p = lease_path root a → lw_leases w a = Some v →
      match x with Ok (Some (Some l)) => ls_version l = v | Ok None => False | _ => True end)
  | KReadManifest _ => λ x w', w' = w ∧ (∀ m, x = Ok (Some m) → real (mf_version m))
  | KRemoveFile p => λ _ w', w' = w ∨ ∀ a, lw_leases w' a = lw_leases w a ∨ (p = lease_path root a ∧ lw_leases w' a = None)
  | KPanic => λ _ _, False
  | _ => λ _ w', w' = w
  end.
(** Only a package goes that is neither the current one nor leased by an attempt that
    runs or is unknown. *)
Definition lease_asks w (e : kcall) : Prop :=
  match e with
  | KRemoveTree p => ∃ v, p = version_dir root v ∧ v ≠ current ∧
      ∀ a v', lw_leases w a = Some v' → version_dir root v' = p → finished a
  | KRemoveFile p => ∀ a v, p = lease_path root a → lw_leases w a = Some v → finished a
  | KPanic => False
  | _ => True
  end.
Definition lease_env : env kanswer lworld := mk_env lease_asks lease_does.
#[local] Abbreviation L := lease_env.
Definition leases_real w : Prop := ∀ a v, lw_leases w a = Some v → real v ∧ is_uuid a.

Lemma version_dir_inj v v' : real v → real v' → version_dir root v = version_dir root v' → v = v'.
Proof.
  unfold real, version_dir. intros Hv Hv' E%path_push_inj. congruence.
Qed.

Lemma lease_path_inj a b : is_uuid a → is_uuid b → lease_path root a = lease_path root b → a = b.
Proof.
  intros Ha Hb. unfold lease_path. intros E%path_push_inj.
  apply (f_equal (λ n, parse_uuid (stem_and_extension n).1)) in E. rewrite !lease_name_parts in E.
  cbn [fst] in E. rewrite !parse_shown in E by done. congruence.
Qed.

Lemma entry_leases v w :
  sat L (entry root v) w (λ w' r, w' = w ∧ ∀ x, r = Ok (Some x) → real (ip_version x)).
Proof.
  apply sat_op_bind; [done|]. intros d w1 ->. destruct d; [|by split].
  apply sat_op_bind; [done|]. intros r w2 [-> Hr]. apply sat_ret. split; [done|].
  destruct r as [[m|]|]; try done. intros x [= <-]. by apply Hr.
Qed.
Lemma installed_leases w :
  sat L (installed root) w (λ w' r, w' = w ∧ ∀ l, r = Ok l → Forall (λ x, real (ip_version x)) l).
Proof.
  apply sat_op_bind; [done|]. intros r w1 [-> _]. destruct r as [[names|]|]; [|by split; [|intros l [= <-]]|by split].
  apply sat_bind_ok. eapply (sat_mono _ _ _ (λ w' r, w' = w ∧ ∀ l, r = Ok l → Forall (λ x, real (ip_version x)) l)).
  - induction names as [|[name|] names IH]; cbn [read_entries]; [by split; [|intros l [= <-]]| |by split].
    destruct (version_named name); [|done]. apply sat_bind_ok. eapply sat_mono; [apply entry_leases|].
    intros w1 [x|] [-> Hx]; [|done]. apply sat_bind_ok. eapply sat_mono; [apply IH|]. intros w1 [l|] [-> Hl]; [|done].
    split; [done|]. intros l' [= <-]. apply Forall_app. split; [|by apply Hl].
    destruct x as [x|]; constructor; [by apply Hx|done].
  - intros w1 [l|] [-> Hl]; [|done]. split; [done|]. intros l' [= <-]. by apply insert_all_Forall, Hl.
Qed.

(** Every holder is found, or the lookup fails. *)
Lemma holder_leases name v w : leases_real w →
  sat L (holder_of parse_uuid root name v) w (λ w' r, w' = w ∧ ∀ x, r = Ok x →
    (∀ a, x = Some a → is_uuid a) ∧ ∀ a, name = lease_name a → lw_leases w a = Some v → x = Some a).
Proof.
  intros HI. unfold holder_of. destruct (parse_uuid _) as [b|] eqn:Eb; [|by apply sat_ret].
  apply sat_op_bind; [done|]. intros r w1 [-> Hr]. apply sat_ret. split; [done|]. intros x Hx. split.
  { intros a ->. destruct r as [[[l|]|]|]; try done. injection Hx as Hx. destruct (bool_decide _); [|done].
    injection Hx as <-. by eapply parse_range. }
  intros a -> Ha. rewrite lease_name_parts in Eb. cbn [fst] in Eb.
  rewrite parse_shown in Eb by (by eapply HI). injection Eb as <-.
  specialize (Hr a v eq_refl Ha). destruct r as [[[l|]|]|]; try done.
  rewrite bool_decide_eq_true_2 in Hx by done. by injection Hx as <-.
Qed.
Lemma read_holders_leases v l w : leases_real w →
  sat L (read_holders parse_uuid root v l) w (λ w' r, w' = w ∧ ∀ hs, r = Ok hs → Forall is_uuid hs ∧
    ∀ a, Ok (Some (lease_name a)) ∈ l → lw_leases w a = Some v → a ∈ hs).
Proof.
  intros HI. induction l as [|[[name|]|] l IH]; cbn [read_holders].
  - split; [done|]. intros hs [= <-]. split; [done|]. set_solver.
  - case_bool_decide as Hx.
    + apply sat_bind_ok. eapply sat_mono; [by apply holder_leases|].
      intros w1 [x|] [-> Hh]; [|by split]. destruct (Hh _ eq_refl) as [Hu Hs]. apply sat_bind_ok.
      eapply sat_mono; [apply IH|]. intros w1 [hs|] [-> Hl]; [|by split]. destruct (Hl _ eq_refl) as [Hlu Hls].
      apply sat_ret. split; [done|]. intros hs' [= <-]. split.
      { apply Forall_app. split; [|done]. destruct x; constructor; auto. }
      intros a Ha Hv. apply elem_of_app. apply elem_of_cons in Ha as [[= Ha]|Ha]; [|right; by eapply Hls].
      left. rewrite (Hs a (eq_sym Ha) Hv). simpl. set_solver.
    + eapply sat_mono; [apply IH|]. intros w1 r [-> Hl]. split; [done|]. intros hs Hr.
      destruct (Hl _ Hr) as [Hlu Hls]. split; [done|]. intros a Ha Hv.
      apply elem_of_cons in Ha as [[= <-]|Ha]; [|by eapply Hls]. rewrite lease_name_parts in Hx. done.
  - eapply sat_mono; [apply IH|]. intros w1 r [-> Hl]. split; [done|]. intros hs Hr.
    destruct (Hl _ Hr) as [Hlu Hls]. split; [done|]. intros a Ha Hv. set_solver.
  - by split.
Qed.
Lemma insert_id_elem x y l : x ∈ insert_id y l ↔ x = y ∨ x ∈ l.
Proof.
  induction l as [|z l IH]; simpl; [set_solver|]. destruct (bool_decide (y ≤ z)%N); set_solver.
Qed.
Lemma insert_ids_elem x l : x ∈ foldr insert_id [] l ↔ x ∈ l.
Proof. induction l as [|y l IH]; simpl; [done|]. rewrite insert_id_elem. set_solver. Qed.
Lemma holders_leases v w : leases_real w →
  sat L (holders parse_uuid root v) w (λ w' r, w' = w ∧ ∀ hs, r = Ok hs →
    (∀ a, a ∈ hs → is_uuid a) ∧ ∀ a, lw_leases w a = Some v → a ∈ hs).
Proof.
  intros HI. apply sat_op_bind; [done|]. intros r w1 [-> Hr]. specialize (Hr eq_refl).
  destruct r as [[names|]|]; [| |by split].
  - apply sat_bind_ok. eapply sat_mono; [by apply read_holders_leases|]. intros w1 [hs|] [-> Hh]; [|by split].
    destruct (Hh _ eq_refl) as [Hu Hs]. rewrite Forall_forall in Hu.
    apply sat_ret. split; [done|]. intros hs' [= <-]. split; intros a; rewrite insert_ids_elem; [by apply Hu|].
    intros Ha. by eapply Hs; [eapply Hr|].
  - split; [done|]. intros hs [= <-]. split; [set_solver|]. intros a Ha. by destruct (Hr _ _ Ha).
Qed.
Lemma judged_finished v l a : judge_holders v attempts l = Ok tt → a ∈ l → finished a.
Proof.
  induction l as [|h l IH]; simpl; [set_solver|].
  destruct (List.find _ attempts) as [x|] eqn:Ef; [|done].
  destruct (counts_against_capacity x) eqn:Ec; [done|]. intros Hj [->|Ha]%elem_of_cons; [|by apply IH].
  apply find_some in Ef as [Hx Hid%bool_decide_eq_true]. exists x. split_and!; [by apply list_elem_of_In|done|done].
Qed.

Lemma release_all_leases l w : leases_real w → (∀ a, a ∈ l → is_uuid a ∧ finished a) →
  sat L (release_all root l) w (λ w' _, leases_real w').
Proof.
  revert w. induction l as [|h l IH]; intros w HI Hf; [done|]. cbn [release_all]. apply sat_bind_ok.
  unfold release_lease, remove_file_if_present. apply sat_op_bind.
  { intros a v E Ha. destruct (Hf h) as [Hu Hh]; [set_solver|]. apply lease_path_inj in E as <-; [done..|by eapply HI]. }
  intros r w1 Hd. apply sat_ret. assert (leases_real w1) as H1.
  { destruct Hd as [->|Hd]; [done|]. intros a v Ha. destruct (Hd a) as [E|[_ E]]; [|congruence].
    rewrite E in Ha. by eapply HI. }
  destruct r; [|done]. apply IH; [done|]. set_solver.
Qed.
Lemma prune_leases v w : v ≠ current → real v → leases_real w →
  sat L (prune parse_uuid root v attempts) w (λ w' _, leases_real w').
Proof.
  intros Hc Hv HI. apply sat_bind_ok. eapply sat_mono; [apply entry_leases|]. intros w1 [[x|]|] [-> _]; [|done..].
  apply sat_bind_ok. eapply sat_mono; [by apply holders_leases|]. intros w1 [hs|] [-> Hh]; [|done].
  destruct (Hh _ eq_refl) as [Hu Hs]. clear Hh.
  destruct (judge_holders v attempts hs) as [[]|] eqn:Ej; [|done]. apply sat_bind_ok. unfold checked. apply sat_op_bind.
  { exists v. split_and!; [done..|]. intros a v' Ha E. apply version_dir_inj in E as ->; [|by eapply HI|done].
    eapply judged_finished; [exact Ej|]. by apply Hs. }
  intros ok w1 ->. apply sat_ret. destruct ok; [|done]. apply release_all_leases; [done|].
  intros a Ha. split; [by apply Hu|by eapply judged_finished].
Qed.
Lemma prune_each_leases l w : Forall (λ x, real (ip_version x)) l → leases_real w →
  sat L (prune_each parse_uuid root current attempts l) w (λ w' _, leases_real w').
Proof.
  intros Hl. revert w. induction Hl as [|x l Hx Hl IH]; intros w HI; [done|]. cbn [prune_each].
  case_bool_decide; [by apply IH|]. apply sat_bind. eapply sat_mono; [by apply prune_leases|].
  intros w1 [[]|e] H1; [by apply IH|]. destruct e; first [by apply IH|done].
Qed.

(** C28: Under the allocation lock, [prune_obsolete_guarded] removes nothing but packages of
    versions other than the current one whose every lease is held by an attempt the journal
    knows and that no longer counts against the capacity, whatever the entries' manifests
    say and whatever cannot be read; and it gives back the leases of such attempts only. *)
Theorem pruning_spares_packages_in_use (w : lworld) :
  leases_real w →
  ∀ e k w', partly_run L (prune_obsolete_guarded parse_uuid root current attempts) w (Op e k) w' → lease_asks w' e.
Proof.
  intros HI e k w'. apply (sat_interrupted L _ w (λ _ _, True)). apply sat_bind.
  eapply sat_mono; [apply installed_leases|]. intros w1 [l|] [-> Hl]; [|done].
  eapply sat_mono; [by apply prune_each_leases; [apply Hl|]|done].
Qed.
End Prune.

(** *** A reader of identifiers, and a host *)

Definition unhex (c : char) : option N :=
  if (48 <=? c)%N && (c <? 58)%N then Some (c - 48)%N
  else if (97 <=? c)%N && (c <? 103)%N then Some (c - 87)%N else None.
Definition unhex_step (n : option N) (c : char) : option N := n ← n; d ← unhex c; Some (16 * n + d)%N.
Definition read_uuid (s : str) : option AttemptId :=
  n ← fold_left unhex_step (List.filter (λ c, negb (N.eqb c (ch "-"))) s) (Some 0%N);
  if bool_decide (n < 2 ^ 128)%N then Some n else None.

Lemma unhex_hex d : (d < 16)%N → unhex (hex_digit d) = Some d ∧ hex_digit d ≠ ch "-".
Proof.
  intros Hd. change (ch "-") with 45%N. unfold unhex, hex_digit. destruct (N.ltb_spec d 10); split; try lia.
  - rewrite (proj2 (N.leb_le _ _)), (proj2 (N.ltb_lt _ _)) by lia. simpl. f_equal. lia.
  - rewrite (proj2 (N.ltb_ge (87 + d) 58)), (proj2 (N.leb_le 97 _)), (proj2 (N.ltb_lt _ 103)) by lia.
    rewrite andb_false_r. cbn [andb]. f_equal. lia.
Qed.
Lemma hex_digits_Forall k n : Forall (λ c, c ≠ ch "-") (hex_digits k n).
Proof.
  revert n. induction k as [|k IH]; intros n; cbn [hex_digits]; [constructor|].
  apply Forall_app. split; [apply IH|]. constructor; [|constructor]. apply unhex_hex. by apply N.mod_lt.
Qed.
Lemma unhex_digits k n m : fold_left unhex_step (hex_digits k n) (Some m) = Some (16 ^ N.of_nat k * m + n mod 16 ^ N.of_nat k)%N.
Proof.
  revert n m. induction k as [|k IH]; intros n m; cbn [hex_digits fold_left].
  { rewrite N.mod_1_r. f_equal. simpl. lia. }
  rewrite fold_left_app, IH. cbn [fold_left unhex_step mbind option_bind].
  assert (n mod 16 < 16)%N as Hd by (by apply N.mod_lt). rewrite (proj1 (unhex_hex _ Hd)). cbn [mbind option_bind]. f_equal.
  rewrite Nat2N.inj_succ, N.pow_succ_r', N.Div0.mod_mul_r. lia.
Qed.
Lemma filter_hyphens l : Forall (λ c, c ≠ ch "-") l → List.filter (λ c, negb (N.eqb c (ch "-"))) l = l.
Proof.
  induction 1 as [|c l Hc Hl IH]; [done|]. cbn [List.filter]. rewrite (proj2 (N.eqb_neq _ _) Hc). cbn [negb]. by rewrite IH.
Qed.
Lemma show_uuid_digits n : List.filter (λ c, negb (N.eqb c (ch "-"))) (show_uuid n) = hex_digits 32 n.
Proof.
  unfold show_uuid. pose proof (hex_digits_Forall 32 n) as H. set (h := hex_digits 32 n) in *. clearbody h.
  rewrite !List.filter_app. cbn [List.filter app]. rewrite N.eqb_refl. cbn [negb].
  rewrite !filter_hyphens by (repeat first [apply Forall_take|apply Forall_drop]; done). cbn [app].
  transitivity (take 8 h ++ drop 8 h); [|apply take_drop]. f_equal.
  transitivity (take 4 (drop 8 h) ++ drop 4 (drop 8 h)); [|apply take_drop]. f_equal. rewrite drop_drop.
  transitivity (take 4 (drop 12 h) ++ drop 4 (drop 12 h)); [|apply take_drop]. f_equal. rewrite drop_drop.
  transitivity (take 4 (drop 16 h) ++ drop 4 (drop 16 h)); [|apply take_drop]. f_equal. by rewrite drop_drop.
Qed.
Lemma read_uuid_shown a : is_uuid a → read_uuid (show_uuid a) = Some a.
Proof.
  intros Ha. unfold read_uuid. rewrite show_uuid_digits, unhex_digits. cbn [mbind option_bind].
  change (16 ^ N.of_nat 32)%N with (2 ^ 128)%N. rewrite N.mod_small by done. rewrite N.mul_0_r, N.add_0_l.
  by rewrite bool_decide_eq_true_2.
Qed.
Lemma read_uuid_range s a : read_uuid s = Some a → is_uuid a.
Proof.
  unfold read_uuid. destruct (fold_left _ _ _) as [n|]; [|done]. cbn [mbind option_bind].
  case_bool_decide; [|done]. by intros [= <-].
Qed.

(** Version 2.329.0 is leased by an attempt that runs, 2.328.0 by one that has ended;
    2.330.0 is the current one. Only 2.328.0 goes. *)
Definition ex_v328 : RunnerVersion := mk_version [2; 328; 0] (lit "2.328.0").
Definition ex_v329 : RunnerVersion := mk_version [2; 329; 0] (lit "2.329.0").
Definition ex_ended : RunnerAttempt := set_state Cleaned 5 (allocate 8 1 (lit "/srv/runtimes/8") 0).
Definition ex_leases : lworld := mk_lworld (λ a,
  if bool_decide (a = 7%N) then Some ex_v329 else if bool_decide (a = 8%N) then Some ex_v328 else None).
Definition keeper (e : kcall) (w : unit) : option (unit * kanswer e) :=
  match e return option (unit * kanswer e) with
  | KIsDir _ => Some (w, true)
  | KReadDir p =>
      Some (w, if bool_decide (p = leases_dir ex_root) then Ok (Some [Ok (Some (lease_name 7)); Ok (Some (lease_name 8))])
               else Ok (Some [Ok (Some (lit "2.328.0")); Ok (Some (lit "2.329.0")); Ok (Some (lit "2.330.0"))]))
  | KReadLease p =>
      Some (w, if bool_decide (p = lease_path ex_root 7) then Ok (Some (Some (mk_lease ex_v329)))
               else if bool_decide (p = lease_path ex_root 8) then Ok (Some (Some (mk_lease ex_v328))) else Err tt)
  | KReadManifest p =>
      Some (w, Ok (v ← List.find (λ v, bool_decide (p = manifest_path (version_dir ex_root v))) [ex_v328; ex_v329; ex_version];
                   Some (mk_manifest v (mk_sha []) 0 [])))
  | _ => None
  end.
#[local] Abbreviation ex_lease_env := (lease_env ex_root ex_version [ex_holder; ex_ended]).

Lemma ex_leased a v : lw_leases ex_leases a = Some v → (a = 7%N ∧ v = ex_v329) ∨ (a = 8%N ∧ v = ex_v328).
Proof. simpl. repeat case_bool_decide; intros [= <-]; auto. Qed.
Lemma ex_leases_real : leases_real ex_leases.
Proof. intros a v [[-> ->]|[-> ->]]%ex_leased; by vm_compute. Qed.
Lemma keeper_does e w w' x : keeper e w = Some (w', x) → does ex_lease_env ex_leases e x ex_leases.
Proof.
  destruct e; try done; intros [= <- <-]; try done; split; try done.
  - intros -> a v. rewrite bool_decide_eq_true_2 by done. intros [[-> _]|[-> _]]%ex_leased; set_solver.
  - intros m [= Hm]. repeat (destruct (bool_decide _) in Hm; [injection Hm as <-; by vm_compute|]). done.
  - intros a v -> [[-> ->]|[-> ->]]%ex_leased.
    + by rewrite bool_decide_eq_true_2.
    + rewrite bool_decide_eq_false_2; [by rewrite bool_decide_eq_true_2|]. by vm_compute.
Qed.

Lemma pruning_spares_packages_in_use_witness :
  ∃ k w', partly_run ex_lease_env (prune_obsolete_guarded read_uuid ex_root ex_version [ex_holder; ex_ended]) ex_leases
    (Op (KRemoveTree (version_dir ex_root ex_v328)) k) w' ∧
    lease_asks ex_root ex_version [ex_holder; ex_ended] w' (KRemoveTree (version_dir ex_root ex_v328)).
Proof.
  destruct (run_for_call ex_lease_env (λ _, ex_leases) keeper 12
    (prune_obsolete_guarded read_uuid ex_root ex_version [ex_holder; ex_ended]) tt
    (KRemoveTree (version_dir ex_root ex_v328)) keeper_does) as (k & w' & Hp); [vm_compute; reflexivity|].
  exists k, ex_leases. split; [exact Hp|].
  exact (pruning_spares_packages_in_use read_uuid ex_root ex_version [ex_holder; ex_ended] read_uuid_shown
    read_uuid_range ex_leases ex_leases_real _ _ _ Hp).
Defined.
