(* ===== verification/TargetLoop.v ===== *)
(** * The loop of a target ([crates/app/src/cli/daemon.rs], [cli/coordinator.rs])

    The daemon runs one loop for each target: it re-reads the target's policies, makes a
    pass of [Reconcile], and sleeps until the next one, unless a coordinator's wake brings
    it forward. A shutdown drains it within a deadline, an upgrade until the journal holds
    no running attempt. The pass is a call here; what it does is proved in
    [ReconcilePass]. *)

From stdpp Require Import strings.
From S2P Require Import Prelude RustStr Ordered Model Path Workspace Execution Host Attempt.
From S2P Require Import Labels Policy Capacity Github Schedule Routing Backoff Report Effects.
#[local] Open Scope Z_scope.
#[local] Open Scope rust_scope.

Definition DRAIN_DEADLINE : Duration := seconds 60.
Definition WAKE_MIN_GAP : Duration := seconds 5.

Inductive DrainKind := DrainShutdown | DrainUpgrade.
#[global] Instance DrainKind_eq_dec : EqDecision DrainKind.
Proof. solve_decision. Defined.

Definition supervised (p : ScalePolicy) : bool := may_start_runners p || bool_decide (p_state p = Draining).

(** ** Which targets get a loop *)

(** [sort_by], which is stable, then runs of one target. *)
Fixpoint insert_by_target (p : ScalePolicy) (l : list ScalePolicy) : list ScalePolicy :=
  match l with
  | [] => [p]
  | q :: l' => match cmp (target p) (target q) with Gt => q :: insert_by_target p l' | _ => p :: l end
  end.
Fixpoint group_by_target (l : list ScalePolicy) : list (list ScalePolicy) :=
  match l with
  | [] => []
  | p :: l =>
      match group_by_target l with
      | (q :: g) :: gs => if ScaleTarget_eqb (target q) (target p) then (p :: q :: g) :: gs else [p] :: (q :: g) :: gs
      | gs => [p] :: gs
      end
  end.
Definition active_autoscale_targets (policies : list ScalePolicy) : list (list ScalePolicy) :=
  group_by_target (foldr insert_by_target [] (List.filter supervised policies)).

(** ** One target *)

(** What the loop waits for between two passes. *)
Inductive tevent := TSlept | TWoken | TShutdown (on : bool) | TUpgrade (on : bool).
Inductive tcall :=
  | TNow                                            (* the monotonic clock *)
  | TSignalled (kind : DrainKind)                   (* a signal already given *)
  | TTakeWake                                       (* a wake that has been stored *)
  | TCancel                                         (* the token of the demand source *)
  | TPolicies | TAttempts (policy : PolicyId)       (* the journal *)
  | TRefreshIntervals
  | TReconcile (policies : list ScalePolicy)
  | TObserve (t : ScaleTarget) (next : NextPoll)
  | TRecord | TRejected | TAccepted                 (* the contact records *)
  | TSelect (deadline : Timestamp) (wakes shutdown upgrade : bool).
Definition tanswer (e : tcall) : Type :=
  match e with
  | TNow => Timestamp
  | TSignalled _ => bool
  | TPolicies => result (list ScalePolicy) unit
  | TAttempts _ => result (list RunnerAttempt) unit
  | TReconcile _ => ReconcileReport
  | TRecord => bool
  | TSelect _ _ _ _ => tevent
  | _ => unit
  end.
#[global] Abbreviation tprogram := (free tanswer) (only parsing).
#[global] Abbreviation top e := (@op tcall tanswer e) (only parsing).

Definition reached_github (r : ReconcileReport) : bool := bool_decide (0 < rr_targets_read r).
(** [try_fold]: unknown as soon as one policy has no allocation. *)
Fixpoint active_owned_from (total : Z) (r : ReconcileReport) (policies : list ScalePolicy) : option Z :=
  match policies with
  | [] => Some total
  | p :: policies =>
      match List.find (λ a, bool_decide (al_policy_id a = p_id p)) (rr_allocations r) with
      | Some a => active_owned_from (sat_add U16_MAX total (al_active_owned a)) r policies
      | None => None
      end
  end.
Definition active_owned (r : ReconcileReport) (policies : list ScalePolicy) : option Z := active_owned_from 0 r policies.
Definition drain_one (p : ScalePolicy) : ScalePolicy := if can_request_disable p then (request_disable p).1 else p.
Definition begin_drain (policies : list ScalePolicy) : tprogram (list ScalePolicy) :=
  _ ← top TCancel; mret (drain_one <$> policies).

Definition of_target (t : ScaleTarget) (p : ScalePolicy) : bool := ScaleTarget_eqb (target p) t && supervised p.
(** A journal that cannot be read, or has none left, keeps the loaded policies. *)
Definition refresh_policies (policies : list ScalePolicy) : tprogram (list ScalePolicy) :=
  match policies with
  | [] => mret policies
  | first :: _ =>
      all ← top TPolicies;
      mret (match all with
            | Err _ => policies
            | Ok all => match List.filter (of_target (target first)) all with [] => policies | l => l end
            end)
  end.
Fixpoint local_active_from (total : Z) (policies : list ScalePolicy) : tprogram (option Z) :=
  match policies with
  | [] => mret (Some total)
  | p :: policies =>
      attempts ← top (TAttempts (p_id p));
      match attempts with
      | Err _ => mret None
      | Ok l => local_active_from (sat_add U16_MAX total (active_count_for (p_id p) l)) policies
      end
  end.
Definition local_active (policies : list ScalePolicy) : tprogram (option Z) := local_active_from 0 policies.
Definition observe_pass (policies : list ScalePolicy) (r : ReconcileReport) : tprogram unit :=
  match policies with [] => mret tt | p :: _ => top (TObserve (target p) (rr_next_poll r)) end.

(** ** The loop *)

Definition woken_deadline (scheduled last_poll now : Timestamp) : Timestamp :=
  Z.min scheduled (Z.max (last_poll + WAKE_MIN_GAP) now).

Record LoopState := mk_loop {
  ls_policies : list ScalePolicy;
  ls_draining : option DrainKind;
  ls_deadline : option Timestamp;  (* of a drain *)
}.
Definition drain_shutdown (s : LoopState) : tprogram LoopState :=
  policies ← begin_drain (ls_policies s);
  now ← top TNow;
  mret (mk_loop policies (Some DrainShutdown) (Some (now + DRAIN_DEADLINE))).
Definition drain_upgrade (s : LoopState) : tprogram LoopState :=
  policies ← begin_drain (ls_policies s);
  mret (mk_loop policies (Some DrainUpgrade) (ls_deadline s)).

(** What a pass leaves for the next: [None] when the loop returned. *)
Definition judge_pass (r : ReconcileReport) (s : LoopState) : tprogram (option (result unit unit)) :=
  recorded ← (if bool_decide (ls_draining s = None) then
                _ ← observe_pass (ls_policies s) r;
                ok ← (if reached_github r then top TRecord else mret true);
                if negb ok then mret false
                else
                  _ ← (if bool_decide (rr_failure r = Some RUnauthorized) then top TRejected
                       else if reached_github r then top TAccepted else mret tt);
                  mret true
              else mret true);
  if negb recorded then mret (Some (Err tt))
  else match ls_draining s with
  | Some DrainShutdown =>
      mret (if bool_decide (active_owned r (ls_policies s) = Some 0) then Some (Ok tt) else None)
  | Some DrainUpgrade =>
      left ← local_active (ls_policies s);
      mret (if bool_decide (left = Some 0) then Some (Ok tt) else None)
  | None => mret None
  end.
Definition next_delay (r : ReconcileReport) (s : LoopState) : tprogram Duration :=
  match ls_deadline s with
  | None => mret (delay (rr_next_poll r))
  | Some d => now ← top TNow; mret (Z.min (delay (rr_next_poll r)) (Z.max 0 (d - now)))
  end.
Definition honours_wakes (r : ReconcileReport) (s : LoopState) : bool :=
  bool_decide (ls_draining s = None) && negb (is_throttled (pace (rr_next_poll r))).

(** Between two passes: [None] when the turns run out. *)
Fixpoint wait (turns : nat) (deadline polled_at : Timestamp) (wakes : bool) (s : LoopState)
    : tprogram (option LoopState) :=
  match turns with
  | O => mret None
  | S turns =>
      e ← top (TSelect deadline wakes (negb (bool_decide (ls_draining s = Some DrainShutdown)))
                 (bool_decide (ls_draining s = None)));
      match e with
      | TSlept => mret (Some s)
      | TWoken => now ← top TNow; wait turns (woken_deadline deadline polled_at now) polled_at wakes s
      | TShutdown on => s ← (if (on : bool) then drain_shutdown s else mret s); mret (Some s)
      | TUpgrade on => s ← (if (on : bool) then drain_upgrade s else mret s); mret (Some s)
      end
  end.
(** [None] is a loop still running after that many turns. *)
Fixpoint loop (turns waits : nat) (s : LoopState) : tprogram (option (result unit unit)) :=
  match turns with
  | O => mret None
  | S turns =>
      late ← (match ls_deadline s with None => mret false | Some d => now ← top TNow; mret (bool_decide (d ≤ now)) end);
      if (late : bool) then mret (Some (Ok tt))
      else
        polled_at ← top TNow;
        _ ← top TTakeWake;
        policies ← refresh_policies (ls_policies s);
        let s := mk_loop policies (ls_draining s) (ls_deadline s) in
        _ ← top TRefreshIntervals;
        report ← top (TReconcile policies);
        returned ← judge_pass report s;
        match returned with
        | Some r => mret (Some r)
        | None =>
            d ← next_delay report s;
            now ← top TNow;
            next ← wait waits (now + d) polled_at (honours_wakes report s) s;
            match next with
            | None => mret None
            | Some s => loop turns waits s
            end
        end
  end.

(** [shutdown_kind]: a shutdown wins. *)
Definition shutdown_kind : tprogram (option DrainKind) :=
  shutdown ← top (TSignalled DrainShutdown);
  if (shutdown : bool) then mret (Some DrainShutdown)
  else
    upgrade ← top (TSignalled DrainUpgrade);
    mret (if (upgrade : bool) then Some DrainUpgrade else None).
Definition run_target_loop (turns waits : nat) (policies : list ScalePolicy) : tprogram (option (result unit unit)) :=
  draining ← shutdown_kind;
  deadline ← (if bool_decide (draining = Some DrainShutdown) then now ← top TNow; mret (Some (now + DRAIN_DEADLINE))
              else mret None);
  policies ← (if bool_decide (draining = None) then mret policies else begin_drain policies);
  loop turns waits (mk_loop policies draining deadline).
