(* ===== verification/LoopSafety.v ===== *)
(** * What a target's loop does, and when

    [TargetLoop] on a clock that moves on by itself, with a journal only the passes write,
    and signals and wakes that come at any time. Proved here: a pass begins no sooner than
    the schedule of the last one says, and a wake brings it forward only when nothing
    slowed the schedule down, and never closer than the gap; no pass follows one that
    ended after the deadline of a shutdown; the loop returns only when it was told to, an
    upgrade's only when the journal holds no attempt that runs. *)

From stdpp Require Import strings.
From S2P Require Import Prelude RustStr Ordered Model Path Workspace Execution Host Attempt.
From S2P Require Import Labels Policy Capacity Github Schedule Routing Backoff Report Effects TargetLoop.
#[local] Open Scope Z_scope.
#[local] Open Scope rust_scope.

(** A pass: when it was begun, when it ended, on which policies, and its report. *)
Record pass := mk_pass { ps_begun : Z; ps_ended : Z; ps_policies : list ScalePolicy; ps_report : ReconcileReport }.
Definition scheduled (x : pass) : Z := ps_ended x + delay (rr_next_poll (ps_report x)).
Definition slowed (x : pass) : bool := is_throttled (pace (rr_next_poll (ps_report x))).

Record tworld := mk_tworld {
  tw_clock : Z;
  tw_read : Z;                        (* the last instant read *)
  tw_begun : Z;                       (* when the wakes were last discarded *)
  tw_pass : option pass;              (* the last pass *)
  tw_told : bool;                     (* a signal has come since *)
  tw_woken : bool;                    (* a wake has come since *)
  tw_draining : option DrainKind;
  tw_pending : bool;                  (* a shutdown whose deadline is not set *)
  tw_due : option Z;                  (* DRAIN_DEADLINE after the first instant read then *)
  tw_attempts : PolicyId → list RunnerAttempt;
}.
Implicit Types w : tworld.

Definition at_clock c w := mk_tworld c (tw_read w) (tw_begun w) (tw_pass w) (tw_told w) (tw_woken w) (tw_draining w)
  (tw_pending w) (tw_due w) (tw_attempts w).
Definition reading c w := mk_tworld c c (tw_begun w) (tw_pass w) (tw_told w) (tw_woken w) (tw_draining w) false
  (if tw_pending w then Some (c + DRAIN_DEADLINE) else tw_due w) (tw_attempts w).
Definition beginning w := mk_tworld (tw_clock w) (tw_read w) (tw_read w) (tw_pass w) (tw_told w) (tw_woken w)
  (tw_draining w) (tw_pending w) (tw_due w) (tw_attempts w).
Definition passed c ps r attempts w := mk_tworld c (tw_read w) (tw_begun w) (Some (mk_pass (tw_begun w) c ps r)) false false
  (tw_draining w) (tw_pending w) (tw_due w) attempts.
Definition woken w := mk_tworld (tw_clock w) (tw_read w) (tw_begun w) (tw_pass w) (tw_told w) true (tw_draining w)
  (tw_pending w) (tw_due w) (tw_attempts w).
Definition told w := mk_tworld (tw_clock w) (tw_read w) (tw_begun w) (tw_pass w) true (tw_woken w) (tw_draining w)
  (tw_pending w) (tw_due w) (tw_attempts w).
Definition drains kind w := mk_tworld (tw_clock w) (tw_read w) (tw_begun w) (tw_pass w) (tw_told w) (tw_woken w)
  (Some kind) (bool_decide (kind = DrainShutdown)) (tw_due w) (tw_attempts w).

(** ** The environment *)

Definition loop_does w (e : tcall) : tanswer e → tworld → Prop :=
  match e return tanswer e → tworld → Prop with
  | TNow => λ x w', tw_clock w ≤ x ∧ w' = reading x w
  | TSignalled kind => λ x w', ∃ c, tw_clock w ≤ c ∧ w' = if x then drains kind (at_clock c w) else at_clock c w
  | TTakeWake => λ _ w', w' = beginning w
  | TAttempts p => λ x w', ∃ c, tw_clock w ≤ c ∧ w' = at_clock c w ∧ ∀ l, x = Ok l → l = tw_attempts w p
  | TReconcile ps => λ r w', 0 ≤ delay (rr_next_poll r) ∧ ∃ c attempts, tw_clock w ≤ c ∧ w' = passed c ps r attempts w
  | TSelect deadline wakes shutdown upgrade => λ x w', ∃ c, tw_clock w ≤ c ∧
      match x with
      | TSlept => deadline ≤ c ∧ w' = at_clock c w
      | TWoken => wakes = true ∧ w' = woken (at_clock c w)
      | TShutdown on => shutdown = true ∧
          w' = if on then drains DrainShutdown (told (at_clock c w)) else told (at_clock c w)
      | TUpgrade on => upgrade = true ∧ w' = if on then drains DrainUpgrade (told (at_clock c w)) else told (at_clock c w)
      end
  | _ => λ _ w', ∃ c, tw_clock w ≤ c ∧ w' = at_clock c w
  end.

(** When the next pass may begin. *)
Definition in_time w : Prop :=
  ∀ x, tw_pass w = Some x → tw_told w = false →
    (tw_woken w = false ∨ tw_draining w ≠ None ∨ slowed x = true → scheduled x ≤ tw_clock w) ∧
    Z.min (scheduled x) (ps_begun x + WAKE_MIN_GAP) ≤ tw_clock w.
Definition not_late w : Prop :=
  ∀ x d, tw_pass w = Some x → tw_told w = false → tw_due w = Some d → ps_ended x < d.
Definition loop_asks w (e : tcall) : Prop :=
  match e with
  | TReconcile _ => in_time w ∧ not_late w
  | TSelect deadline wakes _ _ =>
      (∀ x d, tw_pass w = Some x → tw_due w = Some d → deadline - tw_read w ≤ Z.max 0 (d - ps_ended x)) ∧
      (wakes = true → tw_draining w = None ∧ ∀ x, tw_pass w = Some x → slowed x = false)
  | _ => True
  end.
Definition loop_env : env tanswer tworld := mk_env loop_asks loop_does.
#[local] Abbreviation V := loop_env.

(** ** The parts *)

(** Calls that only take time. *)
Definition idles (e : tcall) : bool :=
  match e with TCancel | TPolicies | TRefreshIntervals | TObserve _ _ | TRecord | TRejected | TAccepted | TAttempts _ => true | _ => false end.
Definition later w w' : Prop := tw_clock w ≤ tw_clock w' ∧ w' = at_clock (tw_clock w') w.
#[global] Instance later_preorder : PreOrder later.
Proof.
  split; [intros w; split; [done|by destruct w]|].
  intros w1 w2 w3 [C1 E1] [C2 E2]. split; [lia|]. rewrite E2 at 1. by rewrite E1.
Qed.
Lemma later_at c w : tw_clock w ≤ c → later w (at_clock c w).
Proof. by split. Qed.
Lemma idles_later w e x w' : idles e = true → loop_does w e x w' → later w w'.
Proof.
  destruct e; try done; intros _.
  all: try (intros (c & Hc & ->); by apply later_at).
  intros (c & Hc & -> & _). by apply later_at.
Qed.
Lemma idles_within {A} (m : tprogram A) w : within (λ e, idles e = true) m → sat V m w (λ w' _, later w w').
Proof.
  intros Hm. eapply sat_mono; [apply (sat_within V (λ e, idles e = true) (λ _, True) later); [| |done|done]|by intros ? ? [_ ?]].
  - intros s e _ He. by destruct e.
  - intros s e x s' _ He Hd. split; [done|by eapply idles_later].
Qed.
Lemma refresh_idles ps : within (λ e, idles e = true) (refresh_policies ps).
Proof. unfold refresh_policies. destruct ps; [exact I|]. by split. Qed.

(** The loop's own state, and the world's. *)
Definition agrees (s : LoopState) w : Prop :=
  ls_draining s = tw_draining w ∧ ls_deadline s = tw_due w ∧ tw_pending w = false ∧
  (tw_draining w ≠ Some DrainShutdown → tw_due w = None) ∧ (∀ x, tw_pass w = Some x → ps_ended x ≤ tw_clock w).
Definition due_by w : Prop := ∃ d, tw_due w = Some d ∧ d ≤ tw_clock w.
Definition ready w : Prop :=
  ∀ x, tw_pass w = Some x → tw_told w = false →
    ((tw_woken w = false ∨ tw_draining w ≠ None ∨ slowed x = true → scheduled x ≤ tw_clock w) ∧
     Z.min (scheduled x) (ps_begun x + WAKE_MIN_GAP) ≤ tw_clock w) ∨ due_by w.
(** Why the loop may return. *)
Definition none_runs (x : pass) w : Prop :=
  ∀ p a, p ∈ ps_policies x → a ∈ tw_attempts w (p_id p) → a_policy_id a = p_id p → counts_against_capacity a = false.
Definition may_end w : Prop :=
  (tw_draining w = Some DrainShutdown ∧
    (due_by w ∨ ∃ x, tw_pass w = Some x ∧ active_owned (ps_report x) (ps_policies x) = Some 0)) ∨
  (tw_draining w = Some DrainUpgrade ∧ ∃ x, tw_pass w = Some x ∧ none_runs x w).

Lemma later_fields w w' : later w w' →
  tw_clock w ≤ tw_clock w' ∧ tw_read w' = tw_read w ∧ tw_begun w' = tw_begun w ∧ tw_pass w' = tw_pass w ∧
  tw_told w' = tw_told w ∧ tw_woken w' = tw_woken w ∧ tw_draining w' = tw_draining w ∧
  tw_pending w' = tw_pending w ∧ tw_due w' = tw_due w ∧ tw_attempts w' = tw_attempts w.
Proof. intros [Hc E]. rewrite E. by split_and!. Qed.
Lemma later_agrees s w w' : later w w' → agrees s w → agrees s w'.
Proof.
  intros [Hc ->] (? & ? & ? & ? & Hp). split_and!; try done. intros x Hx. simpl. specialize (Hp x Hx). lia.
Qed.

Lemma none_counts id l : active_count_for id l = 0 →
  ∀ a, a ∈ l → a_policy_id a = id → counts_against_capacity a = false.
Proof.
  rewrite active_count_for_spec. unfold active_of. intros H a Ha Hid.
  destruct (counts_against_capacity a) eqn:E; [|done]. exfalso.
  assert (a ∈ List.filter (λ a, bool_decide (a_policy_id a = id) && counts_against_capacity a) l) as Hf.
  { apply list_elem_of_In, filter_In. split; [by apply list_elem_of_In|]. rewrite E, bool_decide_eq_true_2; done. }
  destruct (List.filter _ l); [by apply elem_of_nil in Hf|]. simpl in H. unfold U16_MAX in H. lia.
Qed.

Lemma local_active_spec ps total w : 0 ≤ total →
  sat V (local_active_from total ps) w (λ w' r, later w w' ∧ (r = Some 0 → total = 0 ∧
    ∀ p a, p ∈ ps → a ∈ tw_attempts w (p_id p) → a_policy_id a = p_id p → counts_against_capacity a = false)).
Proof.
  revert total w. induction ps as [|p ps IH]; intros total w Ht; cbn [local_active_from].
  { split; [reflexivity|]. intros [= ->]. split; [done|]. set_solver. }
  apply sat_op_bind; [done|]. intros r w1 (c & Hc & -> & Hr). destruct r as [l|]; [|split; [by apply later_at|done]].
  specialize (Hr l eq_refl) as ->. eapply sat_mono.
  { apply IH. rewrite active_count_for_spec. unfold sat_add, active_of, U16_MAX. lia. }
  intros w2 r [Hl H]. split; [etransitivity; [by apply later_at|done]|]. intros Hz.
  destruct (H Hz) as [Ha Hs]. assert (0 ≤ active_count_for (p_id p) (tw_attempts w (p_id p))).
  { rewrite active_count_for_spec. unfold active_of, U16_MAX. lia. }
  unfold sat_add, U16_MAX in Ha. split; [lia|]. intros q a [->|Hq]%elem_of_cons; [|by apply (Hs q)].
  apply none_counts. lia.
Qed.

Lemma judge_pass_spec s x w : agrees s w → tw_pass w = Some x → ps_policies x = ls_policies s →
  sat V (judge_pass (ps_report x) s) w (λ w' r, later w w' ∧ (r = Some (Ok tt) → may_end w')).
Proof.
  intros Ha Hx Hp. unfold judge_pass. apply sat_bind. eapply sat_mono; [apply idles_within|].
  { unfold observe_pass. repeat within_step ltac:(done). }
  intros w1 recorded Hl. destruct recorded; cbn [negb]; [|by apply sat_ret].
  destruct Ha as (Hd & _). destruct (ls_draining s) as [[]|] eqn:Ed; [| |by apply sat_ret].
  - apply sat_ret. split; [done|]. case_bool_decide as Eo; [|done]. intros _. left.
    destruct (later_fields _ _ Hl) as (_ & _ & _ & Fp & _ & _ & Fd & _).
    split; [by rewrite Fd|]. right. exists x. by rewrite Fp, Hp.
  - apply sat_bind. eapply sat_mono; [apply local_active_spec; lia|]. intros w2 left_ [Hl2 Hz]. apply sat_ret.
    split; [by etransitivity|]. case_bool_decide as Eo; [|done]. intros _. right.
    destruct (later_fields _ _ (transitivity Hl Hl2)) as (_ & _ & _ & Fp & _ & _ & Fd & _ & _ & Fa).
    destruct (later_fields _ _ Hl) as (_ & _ & _ & _ & _ & _ & _ & _ & _ & Fa1).
    split; [by rewrite Fd|]. exists x. split; [by rewrite Fp|]. destruct (Hz Eo) as [_ Hs]. intros p a Hq.
    rewrite Hp in Hq. rewrite Fa, <- Fa1. by apply Hs.
Qed.

(** Waiting for the pass after [x], to end no sooner than [deadline]. *)
Definition waits (x : pass) (wakes : bool) (deadline : Z) w : Prop :=
  tw_pass w = Some x ∧ tw_told w = false ∧
  (wakes = true → tw_draining w = None ∧ slowed x = false) ∧ (tw_woken w = true → wakes = true) ∧
  (tw_woken w = false → scheduled x ≤ deadline ∨ ∃ d, tw_due w = Some d ∧ d ≤ deadline) ∧
  (Z.min (scheduled x) (ps_begun x + WAKE_MIN_GAP) ≤ deadline ∨ ∃ d, tw_due w = Some d ∧ d ≤ deadline) ∧
  (∀ d, tw_due w = Some d → deadline - tw_read w ≤ Z.max 0 (d - ps_ended x)).

Lemma slept_ready x wakes deadline c w : waits x wakes deadline w → deadline ≤ c → ready (at_clock c w).
Proof.
  intros (Hx & Ht & Hw & Hk & Hs & Hm & _) Hc y Hy _. simpl in *. rewrite Hx in Hy. injection Hy as <-.
  assert (∀ d, tw_due w = Some d → d ≤ deadline → due_by (at_clock c w)) as Hd.
  { intros d Ed ?. exists d. simpl. split; [done|lia]. }
  destruct Hm as [Hm|(d & Ed & ?)]; [|right; by eapply Hd].
  destruct (tw_woken w) eqn:Ew.
  - left. split; [|lia]. destruct (Hw (Hk eq_refl)) as [Hn Hl]. intros [|[|]]; congruence.
  - destruct (Hs eq_refl) as [?|(d & Ed & ?)]; [|right; by eapply Hd]. left. split; [intros _|]; lia.
Qed.

Lemma drain_shutdown_spec s w : agrees s (told w) →
  sat V (drain_shutdown s) (drains DrainShutdown (told w)) (λ w' s', agrees s' w' ∧ ready w' ∧ tw_pass w' = tw_pass w).
Proof.
  intros (Hd & Hl & Hp & Hn & He). apply sat_bind, sat_op_bind; [done|]. intros _ w1 (c & Hc & ->). apply sat_ret.
  apply sat_op_bind; [done|]. intros now w2 [Hnow ->]. apply sat_ret. simpl in *. split_and!; [| |done].
  - split_and!; simpl; try done. intros x Hx. specialize (He x Hx). simpl in He. lia.
  - by intros x _.
Qed.
Lemma drain_upgrade_spec s w : agrees s (told w) → tw_draining w = None →
  sat V (drain_upgrade s) (drains DrainUpgrade (told w)) (λ w' s', agrees s' w' ∧ ready w' ∧ tw_pass w' = tw_pass w).
Proof.
  intros (Hd & Hl & Hp & Hn & He) Hdr. apply sat_bind, sat_op_bind; [done|]. intros _ w1 (c & Hc & ->). apply sat_ret.
  apply sat_ret. simpl in *. split_and!; [| |done].
  - split_and!; simpl; try done; [by rewrite Hn; [|congruence]|]. intros x Hx. specialize (He x Hx). simpl in He. lia.
  - by intros x _.
Qed.

Lemma wait_spec turns x wakes deadline s w : agrees s w → waits x wakes deadline w →
  sat V (wait turns deadline (ps_begun x) wakes s) w
    (λ w' r, ∀ s', r = Some s' → agrees s' w' ∧ ready w' ∧ tw_pass w' = Some x).
Proof.
  revert deadline w. induction turns as [|turns IH]; intros deadline w Ha Hw; cbn [wait]; [done|].
  destruct Hw as (Hx & Ht & Hwk & Hk & Hs & Hm & Hd) eqn:E. clear E.
  apply sat_op_bind.
  { split; [|by intros [? ?]%Hwk; split; [|intros y Hy; rewrite Hx in Hy; injection Hy as <-]].
    intros y d Hy Ed. rewrite Hx in Hy. injection Hy as <-. by apply Hd. }
  intros e w1 (c & Hc & He). destruct e as [| |on|on].
  - destruct He as [Hc' ->]. apply sat_ret. intros s' [= <-]. split_and!; [by eapply later_agrees, Ha; apply later_at| |done].
    by eapply slept_ready.
  - destruct He as [-> ->]. apply sat_op_bind; [done|]. intros now w2 [Hnow ->]. destruct (Hwk eq_refl) as [Hdr Hsl].
    destruct Ha as (A1 & A2 & A3 & A4 & A5). assert (tw_due w = None) as Hdue by (apply A4; congruence).
    apply IH; simpl in *.
    + split_and!; simpl; rewrite ?A3; try done. intros y Hy. specialize (A5 y Hy). lia.
    + split_and!; simpl; rewrite ?A3; try done; [|intros d; congruence].
      left. unfold woken_deadline. destruct Hm as [|(d & Ed & _)]; [lia|congruence].
  - destruct He as [_ ->]. assert (agrees s (told (at_clock c w))) as Ha'.
    { destruct Ha as (A1 & A2 & A3 & A4 & A5). split_and!; simpl; try done. intros y Hy. specialize (A5 y Hy). lia. }
    destruct on.
    + apply sat_bind. eapply sat_mono; [by apply drain_shutdown_spec|]. intros w2 s2 (? & ? & ?). apply sat_ret.
      intros s' [= <-]. simpl in *. split_and!; [done..|congruence].
    + apply sat_bind, sat_ret, sat_ret. intros s' [= <-]. split_and!; [done| |done]. by intros y _.
  - destruct He as [Hup ->]. assert (agrees s (told (at_clock c w))) as Ha'.
    { destruct Ha as (A1 & A2 & A3 & A4 & A5). split_and!; simpl; try done. intros y Hy. specialize (A5 y Hy). lia. }
    destruct on.
    + apply sat_bind. eapply sat_mono; [apply drain_upgrade_spec; [done|]|].
      { apply bool_decide_eq_true in Hup. destruct Ha as (A1 & _). simpl. congruence. }
      intros w2 s2 (? & ? & ?). apply sat_ret. intros s' [= <-]. simpl in *. split_and!; [done..|congruence].
    + apply sat_bind, sat_ret, sat_ret. intros s' [= <-]. split_and!; [done| |done]. by intros y _.
Qed.

(** What stays while nothing but time passes. *)
Definition free_to_pass (s : LoopState) w : Prop := agrees s w ∧ in_time w ∧ not_late w.
Lemma free_later s w w' : later w w' → free_to_pass s w → free_to_pass s w'.
Proof.
  intros Hl (Ha & Ht & Hn). split_and!; [by eapply later_agrees| |].
  - destruct (later_fields _ _ Hl) as (Fc & _ & _ & Fp & Ft & Fw & Fd & _). intros x Hx Hd. rewrite Fp in Hx. rewrite Ft in Hd.
    destruct (Ht x Hx Hd) as [H1 H2]. rewrite Fw, Fd. split; [|lia]. intros Hs. specialize (H1 Hs). lia.
  - destruct (later_fields _ _ Hl) as (_ & _ & _ & Fp & Ft & _ & _ & _ & Fu & _). intros x d. rewrite Fp, Ft, Fu. apply Hn.
Qed.
Lemma agrees_reading s c w : tw_clock w ≤ c → agrees s w → agrees s (reading c w).
Proof.
  intros Hc (A1 & A2 & A3 & A4 & A5). unfold agrees. simpl. rewrite A3. split_and!; try done.
  intros x Hx. specialize (A5 x Hx). lia.
Qed.
Lemma free_reading s c w : tw_clock w ≤ c → free_to_pass s w → free_to_pass s (reading c w).
Proof.
  intros Hc (Ha & Ht & Hn). split; [by apply agrees_reading|]. split.
  - intros x Hx Hd. simpl in *. destruct (Ht x Hx Hd) as [H1 H2]. split; [|lia]. intros Hs. specialize (H1 Hs). lia.
  - intros x d. simpl. destruct Ha as (_ & _ & -> & _). apply Hn.
Qed.

Lemma late_spec s w : agrees s w → ready w →
  sat V (match ls_deadline s with None => mret false | Some d => now ← top TNow; mret (bool_decide (d ≤ now)) end) w
    (λ w' late, if (late : bool) then may_end w' else free_to_pass s w').
Proof.
  intros Ha Hr. destruct Ha as (A1 & A2 & A3 & A4 & A5) eqn:E. clear E. destruct (ls_deadline s) as [d|] eqn:Ed.
  - apply sat_op_bind; [done|]. intros now w1 [Hnow ->]. apply sat_ret. case_bool_decide as Hl.
    + left. simpl. split; [by destruct (decide (tw_draining w = Some DrainShutdown)) as [|Hne%A4]; [|congruence]|].
      left. exists d. simpl. rewrite A3. by split.
    + assert (¬ due_by w) as Hd by (intros (d' & Hd' & ?); rewrite Hd' in A2; injection A2 as ->; lia).
      split; [apply agrees_reading; [done|]; by split_and!; rewrite ?Ed|]. split.
      * intros x Hx Ht. simpl in *. destruct (Hr x Hx Ht) as [[H1 H2]|]; [|done]. split; [|lia]. intros Hs. specialize (H1 Hs). lia.
      * intros x d' Hx _. simpl. rewrite A3. intros Hd'. rewrite Hd' in A2. injection A2 as ->. specialize (A5 x Hx). lia.
  - apply sat_ret. split; [by split_and!; rewrite ?Ed|]. split.
    + intros x Hx Ht. destruct (Hr x Hx Ht) as [|(d & Hd & _)]; [done|]. congruence.
    + intros x d Hx _ Hd. congruence.
Qed.

Lemma next_delay_spec s x w : agrees s w → tw_pass w = Some x → 0 ≤ delay (rr_next_poll (ps_report x)) →
  sat V (next_delay (ps_report x) s) w (λ w' d, agrees s w' ∧ tw_pass w' = Some x ∧
    tw_told w' = tw_told w ∧ tw_woken w' = tw_woken w ∧ 0 ≤ d ∧
    (∀ c, tw_clock w' ≤ c → scheduled x ≤ c + d ∨ ∃ u, tw_due w' = Some u ∧ u ≤ c + d) ∧
    (∀ u, tw_due w' = Some u → d ≤ Z.max 0 (u - ps_ended x))).
Proof.
  intros Ha Hx Hz. pose proof Ha as (A1 & A2 & A3 & A4 & A5). specialize (A5 x Hx) as Hend.
  unfold next_delay. destruct (ls_deadline s) as [u|] eqn:Ed.
  - apply sat_op_bind; [done|]. intros now w1 [Hnow ->]. apply sat_ret. unfold scheduled. simpl. rewrite A3.
    split; [by apply agrees_reading|]. split_and!; try done; [lia| |].
    + intros c Hc. destruct (decide (delay (rr_next_poll (ps_report x)) ≤ Z.max 0 (u - now))); [left; lia|].
      right. exists u. split; [done|lia].
    + intros u' Hu'. rewrite Hu' in A2. injection A2 as ->. lia.
  - apply sat_ret. unfold scheduled. split; [done|]. split_and!; try done.
    + intros c Hc. left. lia.
    + intros u Hu. congruence.
Qed.

Lemma loop_spec turns waits_ s w : agrees s w → ready w →
  sat V (loop turns waits_ s) w (λ w' r, r = Some (Ok tt) → may_end w').
Proof.
  revert s w. induction turns as [|turns IH]; intros s w Ha Hr; cbn [loop]; [done|].
  apply sat_bind. eapply sat_mono; [by apply late_spec|]. intros w1 late H1. destruct late; [by apply sat_ret|].
  apply sat_op_bind; [done|]. intros polled w2 [Hc ->]. apply (free_reading _ polled) in H1; [|done].
  apply sat_op_bind; [done|]. intros _ w3 ->. set (w4 := beginning (reading polled w1)).
  assert (free_to_pass s w4) as H4 by exact H1. clear H1. assert (tw_begun w4 = polled) as Hbeg by done. clearbody w4.
  apply sat_bind. eapply sat_mono; [apply idles_within, refresh_idles|]. intros w5 ps Hl5.
  apply sat_op_bind; [done|]. intros _ w6 (c6 & Hc6 & ->). set (w6 := at_clock c6 w5).
  assert (later w4 w6) as Hl6 by (etransitivity; [exact Hl5|by apply later_at]). clearbody w6. clear Hl5.
  apply (free_later _ _ _ Hl6) in H4. destruct (later_fields _ _ Hl6) as (_ & _ & Hb6 & _). rewrite Hbeg in Hb6. clear Hl6.
  apply sat_op_bind; [by destruct H4 as (_ & ? & ?)|]. intros r w7 (Hz & c & att & Hc7 & ->).
  set (x := mk_pass (tw_begun w6) c ps r). set (s1 := mk_loop ps (ls_draining s) (ls_deadline s)).
  assert (agrees s1 (passed c ps r att w6)) as Ha7.
  { destruct H4 as ((A1 & A2 & A3 & A4 & A5) & _ & _). split_and!; simpl; try done. intros y [= <-]. done. }
  apply sat_bind. eapply sat_mono; [by apply (judge_pass_spec s1 x)|]. intros w8 returned [Hl8 He8].
  destruct returned as [r'|]; [apply sat_ret; intros [= ->]; by apply He8|].
  destruct (later_fields _ _ Hl8) as (_ & _ & _ & Hp8 & Ht8 & Hw8 & _). simpl in Hp8, Ht8, Hw8.
  apply (later_agrees _ _ _ Hl8) in Ha7 as Ha8.
  apply sat_bind. eapply sat_mono; [by apply (next_delay_spec s1 x)|].
  intros w9 d (Ha9 & Hp9 & Ht9 & Hw9 & Hd0 & Hs9 & Hu9). apply sat_op_bind; [done|]. intros now w10 [Hnow ->].
  apply (agrees_reading _ now) in Ha9 as Ha10; [|done]. destruct Ha9 as (A1 & _ & A3 & _).
  apply sat_bind. rewrite <- Hb6 at 1. eapply sat_mono; [apply (wait_spec _ x)|].
  - done.
  - split_and!; simpl; rewrite ?A3; try congruence.
    + unfold honours_wakes. intros [Hn%bool_decide_eq_true Hth%negb_true_iff]%andb_prop. split; [congruence|done].
    + intros _. destruct (Hs9 now Hnow) as [?|(u & ? & ?)]; [left|right; exists u]; done.
    + destruct (Hs9 now Hnow) as [?|(u & ? & ?)]; [left; lia|right; by exists u].
    + intros u Hu. specialize (Hu9 u Hu). unfold x in *. simpl in *. lia.
  - intros w11 [s2|] Hn; [|by apply sat_ret]. destruct (Hn s2 eq_refl) as (? & ? & _). by apply IH.
Qed.

(** ** The loop *)

(** Before its first call: no pass, no signal read. *)
Definition fresh_loop w : Prop :=
  tw_pass w = None ∧ tw_draining w = None ∧ tw_due w = None ∧ tw_pending w = false.

Lemma starts_spec turns waits_ ps draining deadline w :
  agrees (mk_loop ps draining deadline) w → tw_pass w = None →
  sat V (policies ← (if bool_decide (draining = None) then mret ps else begin_drain ps);
         loop turns waits_ (mk_loop policies draining deadline)) w (λ w' r, r = Some (Ok tt) → may_end w').
Proof.
  intros Ha Hn. assert (∀ w' ps', later w w' →
    sat V (loop turns waits_ (mk_loop ps' draining deadline)) w' (λ w' r, r = Some (Ok tt) → may_end w')) as Hloop.
  { intros w' ps' Hl. apply loop_spec; [exact (later_agrees _ _ _ Hl Ha)|].
    intros x Hx. destruct (later_fields _ _ Hl) as (_ & _ & _ & Fp & _). congruence. }
  apply sat_bind. destruct (bool_decide (draining = None)).
  - apply sat_ret. by apply Hloop.
  - apply sat_op_bind; [done|]. intros _ w1 (c & Hc & ->). apply sat_ret. by apply Hloop, later_at.
Qed.
Lemma run_target_loop_spec turns waits_ ps w : fresh_loop w →
  sat V (run_target_loop turns waits_ ps) w (λ w' r, r = Some (Ok tt) → may_end w').
Proof.
  intros (Hp & Hd & Hu & Hn). apply sat_bind, sat_op_bind; [done|]. intros on w1 (c & Hc & ->). destruct on.
  - apply sat_ret. rewrite (bool_decide_eq_true_2 (Some DrainShutdown = Some DrainShutdown)) by done.
    apply sat_bind, sat_op_bind; [done|].
    intros now w2 [Hnow ->]. apply sat_ret. apply starts_spec; [|done]. split_and!; simpl; try done. by rewrite Hp.
  - apply sat_op_bind; [done|]. intros on w2 (c2 & Hc2 & ->). apply sat_ret.
    rewrite (bool_decide_eq_false_2 ((if on then Some DrainUpgrade else None) = Some DrainShutdown)) by (by destruct on).
    apply sat_bind, sat_ret. destruct on; (apply starts_spec; [|done]); split_and!; simpl; try done; by rewrite Hp.
Qed.

(** C21: The loop of a target, whenever wakes and signals come: a pass begins no sooner than
    the last one's report scheduled it, or, when a wake came and neither a drain nor a
    slowdown of the schedule stands, no sooner than the gap after the last one began; only
    a signal breaks this. Once a shutdown is past its deadline no pass follows one that
    ended after it, and no sleep outlasts it. And the loop returns only when told to: for
    a shutdown at its deadline or when its target owns no active runner, for an upgrade
    only when the journal holds no attempt of its policies that still counts. *)
Theorem loop_keeps_its_schedule turns waits_ policies w :
  fresh_loop w →
  (∀ e k w', partly_run V (run_target_loop turns waits_ policies) w (Op e k) w' → loop_asks w' e) ∧
  (∀ w', partly_run V (run_target_loop turns waits_ policies) w (Ret (Some (Ok tt))) w' → may_end w').
Proof.
  intros Hw. pose proof (run_target_loop_spec turns waits_ policies w Hw) as H. split.
  - intros e k w' Hp. exact (sat_interrupted _ _ _ _ _ _ _ H Hp).
  - intros w' Hp. exact (sat_partly_run _ _ _ _ _ _ H Hp eq_refl).
Qed.
