(* ===== verification/LoopRuns.v ===== *)
(** * Loops, executed

    Every supervised policy has exactly one loop, and no two loops serve one target. An
    execution of a loop in which a wake brings a pass forward and an upgrade ends it; and
    what a drain does to the policies it disabled, when the next pass reads the journal. *)

From Stdlib Require Import Sorting.Sorted.
From stdpp Require Import strings.
From S2P Require Import Prelude RustStr Ordered Model Path Workspace Execution Host Attempt.
From S2P Require Import Labels Policy Capacity Github Schedule Routing Backoff Report Reconcile ReconcilePass.
From S2P Require Import Effects TargetLoop LoopSafety.
#[local] Open Scope Z_scope.
#[local] Open Scope rust_scope.

(** ** One loop for a target *)

Definition up_to (p q : ScalePolicy) : Prop := cmp (target p) (target q) ≠ Gt.
Definition one_target (g : list ScalePolicy) : Prop :=
  ∃ p g', g = p :: g' ∧ Forall (λ q, cmp (target p) (target q) = Eq) g'.
Definition before (g h : list ScalePolicy) : Prop := ∀ p q, p ∈ g → q ∈ h → cmp (target p) (target q) = Lt.

Lemma up_to_trans : Transitive up_to.
Proof.
  intros p q r H1 H2. unfold up_to in *. destruct (cmp (target p) (target q)) eqn:E1; [|destruct (cmp (target q) (target r)) eqn:E2|done].
  - by rewrite (cmp_eq_l _ _ _ E1).
  - rewrite cmp_opp, (cmp_eq_l (target r) (target q)); [by rewrite cmp_opp, E1|by rewrite cmp_opp, E2].
  - by rewrite (cmp_lt_trans _ _ _ E1 E2).
  - done.
Qed.
Lemma insert_by_target_perm p l : insert_by_target p l ≡ₚ p :: l.
Proof.
  induction l as [|q l IH]; simpl; [done|]. destruct (cmp _ _); [done..|]. rewrite IH. constructor.
Qed.
Lemma insert_by_target_sorted p l : StronglySorted up_to l → StronglySorted up_to (insert_by_target p l).
Proof.
  induction 1 as [|q l Hs IH Hq]; simpl; [repeat constructor|].
  assert (cmp (target p) (target q) ≠ Gt → StronglySorted up_to (p :: q :: l)) as Hc.
  { intros Hpq. constructor; [by constructor|]. constructor; [done|]. eapply Forall_impl; [exact Hq|].
    intros r. by apply (up_to_trans p q r). }
  destruct (cmp (target p) (target q)) eqn:E; [by apply Hc|by apply Hc|]. constructor; [done|].
  rewrite insert_by_target_perm. constructor; [|done]. unfold up_to. by rewrite cmp_opp, E.
Qed.
Lemma sorted_policies l : StronglySorted up_to (foldr insert_by_target [] l) ∧ foldr insert_by_target [] l ≡ₚ l.
Proof.
  induction l as [|p l [Hs Hp]]; simpl; [by repeat constructor|].
  split; [by apply insert_by_target_sorted|]. by rewrite insert_by_target_perm, Hp.
Qed.

Lemma groups_concat l : concat (group_by_target l) = l.
Proof.
  induction l as [|p l IH]; simpl; [done|]. destruct (group_by_target l) as [|[|q g] gs]; simpl in *; [by subst|by rewrite IH|].
  destruct (ScaleTarget_eqb _ _); simpl; by rewrite IH.
Qed.
Lemma groups_sound l : StronglySorted up_to l →
  Forall one_target (group_by_target l) ∧ StronglySorted before (group_by_target l).
Proof.
  induction 1 as [|p l Hs [IH1 IH2] Hp]; simpl; [by repeat constructor|].
  pose proof (groups_concat l) as Hc. destruct (group_by_target l) as [|[|q g] gs].
  - split; [|by repeat constructor]. apply Forall_singleton. by exists p, [].
  - exfalso. apply Forall_cons in IH1 as [(? & ? & ? & _) _]. done.
  - apply Forall_cons in IH1 as [(q' & g' & [= <- <-] & Hg) Hgs]. pose proof IH2 as [Hs2 Hb]%StronglySorted_inv. subst.
    simpl in Hp. apply Forall_cons in Hp as [Hpq _]. rewrite Forall_forall in Hg. rewrite Forall_forall in Hb.
    destruct (ScaleTarget_eqb (target q) (target p)) eqn:E.
    + apply ScaleTarget_eqb_cmp in E. assert (cmp (target p) (target q) = Eq) as E' by (by rewrite cmp_opp, E).
      split; [constructor; [|done]; exists p, (q :: g); split; [done|]|].
      * constructor; [done|]. apply Forall_forall. intros r Hr. rewrite (cmp_eq_l _ _ _ E'). by apply Hg.
      * constructor; [done|]. apply Forall_forall. intros h Hh x y Hx Hy.
        apply elem_of_cons in Hx as [->|Hx]; [|by apply (Hb h)].
        rewrite (cmp_eq_l _ _ _ E'). apply (Hb h); [done|by left|done].
    + assert (cmp (target p) (target q) = Lt) as Hlt.
      { unfold up_to in Hpq. destruct (cmp (target p) (target q)) eqn:E'; [exfalso|done|congruence].
        assert (ScaleTarget_eqb (target q) (target p) = true); [|congruence].
        apply ScaleTarget_eqb_cmp. by rewrite cmp_opp, E'. }
      split.
      { constructor; [by exists p, []|]. constructor; [|done]. exists q, g. split; [done|by apply Forall_forall]. }
      constructor; [done|]. constructor.
      * intros x y ->%list_elem_of_singleton Hy. apply elem_of_cons in Hy as [->|Hy]; [done|].
        specialize (Hg y Hy). rewrite cmp_opp, (cmp_eq_l (target y) (target q)); [by rewrite cmp_opp, Hlt|by rewrite cmp_opp, Hg].
      * apply Forall_forall. intros h Hh x y ->%list_elem_of_singleton Hy.
        eapply cmp_lt_trans; [exact Hlt|]. apply (Hb h); [done|by left|done].
Qed.

(** Every supervised policy is in one group, each group has one target, and the groups
    have different ones, in order. *)
Lemma each_target_one_loop policies :
  concat (active_autoscale_targets policies) ≡ₚ List.filter supervised policies ∧
  Forall one_target (active_autoscale_targets policies) ∧ StronglySorted before (active_autoscale_targets policies).
Proof.
  unfold active_autoscale_targets. destruct (sorted_policies (List.filter supervised policies)) as [Hs Hp].
  rewrite groups_concat. split; [done|]. by apply groups_sound.
Qed.

(** ** An execution *)

Definition ex_report : ReconcileReport :=
  with_next_poll (mk_next (seconds 30) PaceNominal) ReconcileReport_default.
(** The clock moves by a second at each reading; the events of the waits are given. *)
Definition tick_host (e : tcall) (c : tworld * list tevent) : option ((tworld * list tevent) * tanswer e) :=
  let '(w, script) := c in
  match e return option ((tworld * list tevent) * tanswer e) with
  | TNow => let c := tw_clock w + seconds 1 in Some ((reading c w, script), c)
  | TSignalled _ => Some ((at_clock (tw_clock w) w, script), false)
  | TTakeWake => Some ((beginning w, script), tt)
  | TPolicies => Some ((at_clock (tw_clock w) w, script), Ok [example_active])
  | TAttempts p => Some ((at_clock (tw_clock w) w, script), Ok (tw_attempts w p))
  | TReconcile ps => Some ((passed (tw_clock w) ps ex_report (tw_attempts w) w, script), ex_report)
  | TSelect deadline wakes shutdown upgrade =>
      match script with
      | TSlept :: script => Some ((at_clock (Z.max deadline (tw_clock w)) w, script), TSlept)
      | TWoken :: script => if wakes then Some ((woken (at_clock (tw_clock w) w), script), TWoken) else None
      | TUpgrade true :: script =>
          if upgrade then Some ((drains DrainUpgrade (told (at_clock (tw_clock w) w)), script), TUpgrade true) else None
      | _ => None
      end
  | TCancel | TRefreshIntervals | TObserve _ _ | TRejected | TAccepted => Some ((at_clock (tw_clock w) w, script), tt)
  | TRecord => Some ((at_clock (tw_clock w) w, script), true)
  end.
Lemma tick_does e c c' x : tick_host e c = Some (c', x) → does loop_env c.1 e x c'.1.
Proof.
  destruct c as [w script]. destruct e; simpl; intros H; simplify_eq; simpl.
  all: try (eexists; split; [reflexivity|done]).
  all: try (eexists; split; [reflexivity|split; [done|congruence]]).
  all: try done.
  - split; [unfold seconds; lia|done].
  - split; [done|]. by eexists _, _.
  - destruct script as [|[| |[]|[]] script]; try done; [| |].
    + simplify_eq. simpl. eexists. split; [|split; [|reflexivity]]; lia.
    + destruct wakes; [|done]. simplify_eq. simpl. eexists. by split.
    + destruct upgrade; [|done]. simplify_eq. simpl. eexists. by split.
Qed.

Definition ex_idle : tworld := mk_tworld 0 0 0 None false false None false None (λ _, []).
(** A pass, a wake that brings the next one forward, a whole wait, and an upgrade. *)
Definition ex_script : list tevent := [TWoken; TSlept; TSlept; TUpgrade true].

Lemma loop_keeps_its_schedule_witness :
  ∃ c, partly_run loop_env (run_target_loop 5 5 [example_active]) ex_idle (Ret (Some (Ok tt))) c ∧ may_end c ∧
    tw_draining c = Some DrainUpgrade.
Proof.
  destruct (run_for_end loop_env fst tick_host (λ c, tw_draining c.1) 100 (run_target_loop 5 5 [example_active])
    (ex_idle, ex_script) (Some (Ok tt)) (Some DrainUpgrade) tick_does) as (c & Hp & Hd); [vm_compute; reflexivity|].
  exists c.1. split; [exact Hp|]. split; [|exact Hd].
  exact (proj2 (loop_keeps_its_schedule 5 5 [example_active] ex_idle
    (conj eq_refl (conj eq_refl (conj eq_refl eq_refl)))) c.1 Hp).
Defined.

(** ** What a drain leaves *)

(** [begin_drain] disables the loaded policies, not the journal's, and the next pass
    begins with the journal's: a policy that was running is running again. *)
Lemma drain_undone policies t all :
  (∃ p ps, policies = p :: ps ∧ target p = t) →
  sat (mk_env (λ _ _, True) (λ (w : tworld) e, match e return tanswer e → tworld → Prop with
      | TPolicies => λ x w', x = Ok all ∧ w' = w
      | _ => λ _ w', w' = w
      end)) (policies ← begin_drain policies; refresh_policies policies) ex_idle
    (λ _ l, List.filter (of_target t) all ≠ [] → l = List.filter (of_target t) all).
Proof.
  intros (p & ps & -> & <-). simpl. split; [done|]. intros _ w ->.
  assert (target (drain_one p) = target p) as ->.
  { unfold drain_one. destruct (can_request_disable p); [|done].
    cbv [request_disable transition_to st_modify st_read st_bind]. simpl. by destruct (policy_can_transition_to (p_state p) Draining). }
  split; [done|]. intros x w' [-> ->]. apply sat_ret. by destruct (List.filter _ all).
Qed.

(** The polls of such a policy are withdrawn, since its token is cancelled, so the pass
    has no allocation for it: that it has no runner is unknown, and the drain goes on to
    its deadline, where for the disabled policy it would end at once. *)
#[local] Existing Instances sim_launcher sim_lock sim_directory sim_clock.
Lemma drain_waits_for_deadline :
  let J := fixed_jitter 0 in
  let D : DemandSource SimHost := {| ds_poll := λ _ w, (w, PollFailed RCancelled) |} in
  let idle := mk_st (Reconciler_new example_machine) [] (mk_sim [] [] 10%N false) in
  let left ps := (λ x, active_owned x.2.1 ps) <$> reconcile (DemandSource0:=D) ps idle in
  left [drain_one example_active] = Some (Some 0) ∧ left [example_active] = Some None.
Proof. split; vm_compute; reflexivity. Qed.
