(* ===== verification/Protocol.v ===== *)
(** * The coordinator's wire contract ([crates/coordinator-protocol/src/lib.rs])

    Messages and their codec, the coordinator's address, and the authentication of a
    host: the bytes it signs, the encodings of nonces, keys and signatures. The JSON
    parser, base64, Ed25519 and the URL parser are other crates: the class [Wire] has
    their operations, and [WireLaws] what is relied on of them. *)

From stdpp Require Import strings.
From S2P Require Import Prelude RustStr Ordered Model Path Workspace Execution Host Attempt.
From S2P Require Import Labels Policy Capacity Github Coordinator.
#[local] Open Scope Z_scope.
#[local] Open Scope rust_scope.

Definition AUTH_CONTEXT : list N := as_bytes (lit "runner-manager-coordinator/v1/host-auth").
Definition NONCE_LEN : nat := 32.
Definition MAX_MESSAGE_BYTES : Z := 64 * 1024.
Definition CLOSE_UNAUTHORIZED : Z := 4401.
Definition CLOSE_UNSUPPORTED_VERSION : Z := 4400.
Definition CONNECT_PATH : str := lit "/connect".
Definition ENROLL_PATH : str := lit "/enroll".

Inductive ProtocolError := InvalidUrl | InsecureUrl | Malformed | InvalidKey | InvalidSignature.

Inductive HostMessage :=
  | HAuth (protocol_version : Z) (host_id signature : str)
  | HHello (hello : Hello)
  | HHeartbeat (heartbeat : Heartbeat)
  | HUnknown.

Record EnrollRequest := mk_enroll {
  er_protocol_version : Z;
  er_code : str;
  er_hostname : str;
  er_public_key : str;
}.

(** ** What other crates do *)

Inductive UrlHost := Domain (name : str) | Ipv4 (octets : list N) | Ipv6 (segments : list N).
Record Url := mk_url {
  u_scheme : str;
  u_host : option UrlHost;
  u_username : str;
  u_password : option str;
  u_origin : str;          (* origin().ascii_serialization() *)
}.

Class Wire := {
  skey : Set;
  vkey : Set;
  esig : Set;
  verifying_key : skey → vkey;
  key_of_seed : list N → skey;              (* SigningKey::from_bytes *)
  vkey_of : list N → option vkey;           (* VerifyingKey::from_bytes *)
  is_weak : vkey → bool;
  vkey_bytes : vkey → list N;
  skey_bytes : skey → list N;
  ed_sign : skey → list N → esig;
  esig_bytes : esig → list N;
  esig_of : list N → option esig;           (* Signature::from_slice *)
  verify_strict : vkey → list N → esig → bool;
  b64_encode : list N → str;
  b64_decode : str → option (list N);
  host_from_str : str → option HostMessage; (* serde_json::from_str *)
  server_from_str : str → option ServerMessage;
  enroll_from_slice : list N → option EnrollRequest;
  url_parse : str → option Url;
}.

(** Base64 and the encodings read back; a signature verifies; an origin is its own. *)
Class WireLaws `{!Wire} := {
  b64_roundtrip bs : b64_decode (b64_encode bs) = Some bs;
  esig_roundtrip s : esig_of (esig_bytes s) = Some s;
  sign_verifies k m : verify_strict (verifying_key k) m (ed_sign k m) = true;
  vkey_roundtrip v : length (vkey_bytes v) = 32%nat ∧ vkey_of (vkey_bytes v) = Some v;
  seed_roundtrip k : length (skey_bytes k) = 32%nat ∧ key_of_seed (skey_bytes k) = k;
  origin_of_origin raw u u' : url_parse raw = Some u → url_parse (u_origin u) = Some u' →
    u_scheme u' = u_scheme u ∧ u_host u' = u_host u ∧ u_origin u' = u_origin u;
}.

(** UTF-8 is prefix-free, so a string is determined by its bytes. *)
Lemma utf8_char_inj c c' (l l' : list N) : utf8_char c ++ l = utf8_char c' ++ l' → c = c' ∧ l = l'.
Proof.
  unfold utf8_char.
  destruct (c <? 128)%N eqn:?, (c' <? 128)%N eqn:?; [by intros [= -> ->]|..].
  all: destruct (c <? 2048)%N eqn:?; try lia; destruct (c' <? 2048)%N eqn:?; try lia.
  all: destruct (c <? 65536)%N eqn:?; try lia; destruct (c' <? 65536)%N eqn:?; try lia.
  all: cbn [app]; intros H; injection H; clear H; intros; subst.
  all: (split; [|done]) || exfalso.
  all: zify; Z.to_euclidean_division_equations; lia.
Qed.
Lemma as_bytes_inj s s' : as_bytes s = as_bytes s' → s = s'.
Proof.
  assert (∀ c, utf8_char c ≠ []) as Hn by (intros c; unfold utf8_char; by repeat case_match).
  revert s'. induction s as [|c s IH]; intros [|c' s'] H; [done|..].
  - exfalso. cbn in H. symmetry in H. apply app_nil in H as [H _]. by apply (Hn c').
  - exfalso. cbn in H. apply app_nil in H as [H _]. by apply (Hn c).
  - cbn in H. apply utf8_char_inj in H as [-> H]. f_equal. by apply IH.
Qed.

Section Protocol.
Context `{W : Wire}.

Definition decode_host (text : str) : option HostMessage :=
  if bool_decide (MAX_MESSAGE_BYTES < len text) then None else host_from_str text.
Definition decode_server (text : str) : option ServerMessage :=
  if bool_decide (MAX_MESSAGE_BYTES < len text) then None else server_from_str text.

(** ** The address *)

Definition is_loopback (h : UrlHost) : bool :=
  match h with
  | Domain d => eq_ignore_ascii_case d (lit "localhost")
  | Ipv4 octets => bool_decide (head octets = Some 127%N)
  | Ipv6 segments => bool_decide (segments = [0; 0; 0; 0; 0; 0; 0; 1]%N)
  end.

Record CoordinatorUrl := mk_curl { cu_origin : Url }.
Definition CoordinatorUrl_parse (raw : str) : result CoordinatorUrl ProtocolError :=
  match url_parse (trim raw) with
  | None => Err InvalidUrl
  | Some parsed =>
      match u_host parsed with
      | None => Err InvalidUrl
      | Some host =>
          if negb (bool_decide (u_username parsed = [])) || bool_decide (is_Some (u_password parsed)) then Err InvalidUrl
          else if bool_decide (u_scheme parsed = lit "https") || bool_decide (u_scheme parsed = lit "http") && is_loopback host
          then match url_parse (u_origin parsed) with
               | None => Err InvalidUrl
               | Some origin => Ok (mk_curl origin)
               end
          else if bool_decide (u_scheme parsed = lit "http") then Err InsecureUrl else Err InvalidUrl
      end
  end.
Definition origin (u : CoordinatorUrl) : str := u_origin (cu_origin u).
(** [split_once("://")]. *)
Fixpoint after_scheme (s : str) : str :=
  if starts_with (lit "://") s then drop 3 s else match s with [] => [] | _ :: s => after_scheme s end.
Definition connect_url (u : CoordinatorUrl) : str :=
  (if bool_decide (u_scheme (cu_origin u) = lit "https") then lit "wss" else lit "ws")
  ++ lit "://" ++ after_scheme (origin u) ++ CONNECT_PATH.
Definition enroll_url (u : CoordinatorUrl) : str := origin u ++ ENROLL_PATH.

(** ** Host authentication *)

Definition auth_message (nonce : list N) (origin : str) : list N := nonce ++ AUTH_CONTEXT ++ as_bytes origin.
(** An array of [n] bytes from a vector. *)
Definition array_of (n : nat) (bytes : list N) : option (list N) :=
  if bool_decide (length bytes = n) then Some bytes else None.
Definition encode_nonce (nonce : list N) : str := b64_encode nonce.
Definition decode_nonce (text : str) : option (list N) := b64_decode text ≫= array_of NONCE_LEN.
Definition sign_challenge (k : skey) (nonce : list N) (origin : str) : str :=
  b64_encode (esig_bytes (ed_sign k (auth_message nonce origin))).
Definition decode_signature (s : str) : option esig := b64_decode s ≫= esig_of.
Definition verify_challenge (v : vkey) (nonce : list N) (origin signature : str) : bool :=
  match decode_signature signature with
  | Some s => verify_strict v (auth_message nonce origin) s
  | None => false
  end.
Definition encode_public_key (v : vkey) : str := b64_encode (vkey_bytes v).
Definition decode_public_key (text : str) : option vkey :=
  v ← (b64_decode text ≫= array_of 32) ≫= vkey_of; if is_weak v then None else Some v.
Definition encode_signing_key (k : skey) : str := b64_encode (skey_bytes k).
Definition decode_signing_key (text : str) : option skey :=
  seed ← b64_decode (trim text) ≫= array_of 32; Some (key_of_seed seed).

(** ** What this gives *)

(** The nonce has a fixed length, so the message determines both its parts. *)
Lemma auth_message_inj n o n' o' :
  length n = NONCE_LEN → length n' = NONCE_LEN → auth_message n o = auth_message n' o' →
  n = n' ∧ o = o'.
Proof.
  intros Hn Hn' Hm. unfold auth_message in Hm. apply app_inj_1 in Hm as [? Hm]; [|congruence].
  apply app_inv_head in Hm. by apply as_bytes_inj in Hm.
Qed.

Context {laws : WireLaws}.

Lemma array_of_exact n bytes : length bytes = n → array_of n bytes = Some bytes.
Proof. intros H. unfold array_of. by rewrite bool_decide_eq_true_2. Qed.
Lemma nonce_roundtrip n : length n = NONCE_LEN → decode_nonce (encode_nonce n) = Some n.
Proof. intros Hn. unfold decode_nonce, encode_nonce. rewrite b64_roundtrip. by apply array_of_exact. Qed.
Lemma public_key_roundtrip v : is_weak v = false → decode_public_key (encode_public_key v) = Some v.
Proof.
  intros Hw. unfold decode_public_key, encode_public_key. rewrite b64_roundtrip. simpl.
  destruct (vkey_roundtrip v) as [Hl Hv]. rewrite (array_of_exact 32 _ Hl). simpl. rewrite Hv. simpl. by rewrite Hw.
Qed.
(** A host's own signature of a challenge is accepted. *)
Lemma signature_accepted k n o : verify_challenge (verifying_key k) n o (sign_challenge k n o) = true.
Proof.
  unfold verify_challenge, sign_challenge, decode_signature. rewrite b64_roundtrip. simpl. rewrite esig_roundtrip.
  apply sign_verifies.
Qed.
(** Only https, or http to this machine. *)
Lemma parsed_url_safe raw u :
  CoordinatorUrl_parse raw = Ok u →
  u_scheme (cu_origin u) = lit "https" ∨
  (u_scheme (cu_origin u) = lit "http" ∧ ∃ h, u_host (cu_origin u) = Some h ∧ is_loopback h = true).
Proof.
  unfold CoordinatorUrl_parse. destruct (url_parse (trim raw)) as [p|] eqn:Er; [|done].
  destruct (u_host p) as [h|] eqn:Eh; [|done]. destruct (negb _ || _); [done|].
  set (http := bool_decide (u_scheme p = lit "http")).
  destruct (_ || http && _) eqn:E; [|by destruct http].
  destruct (url_parse (u_origin p)) as [p'|] eqn:Ep; [|done].
  intros [= <-]. simpl. destruct (origin_of_origin _ _ _ Er Ep) as (-> & -> & _).
  apply orb_true_iff in E as [E%bool_decide_eq_true|[E%bool_decide_eq_true Hl]%andb_true_iff]; [by left|right].
  split; [done|by exists h].
Qed.
End Protocol.
