(* ===== verification/Link.v ===== *)
(** * The link of a host and the coordinator ([coordinator/src/server.rs],
    [app/src/cli/coordinator.rs])

    Both ends of a connection as programs over their calls. The coordinator challenges
    whoever connects, checks the answer against the host's record, registers it, and
    serves it until it is silent, revoked or replaced; the daemon keeps a link up,
    answers the challenge with its key, describes itself, and delivers wakes. *)

From stdpp Require Import strings.
From S2P Require Import Prelude RustStr Ordered Model Path Workspace Execution Host Attempt.
From S2P Require Import Labels Policy Capacity Github Fence Coordinator Effects Protocol.
#[local] Open Scope Z_scope.
#[local] Open Scope rust_scope.

#[global] Instance WireProfile_eq_dec : EqDecision WireProfile.
Proof. solve_decision. Defined.
#[global] Instance WireTarget_eq_dec : EqDecision WireTarget.
Proof. solve_decision. Defined.

(** ** Data *)

(** A frame of the socket; [None] is its end. *)
Inductive frame := FText (text : str) | FOther | FClose (code : option Z) | FError.
Definition received : Set := option frame.

Record Config := mk_config {
  public_origin : str;
  trust_forwarded_for : bool;
  heartbeat_interval : Duration;
  auth_timeout : Duration;
  revocation_check : Duration;
  attempts_per_minute : Z;
}.
Definition Config_new (origin : str) : Config := mk_config origin false (seconds 15) (seconds 10) (seconds 10) 20.
Definition TOUCH_EVERY : Duration := seconds 60.
Definition TOO_MANY_REQUESTS : Z := 429.
Definition UPGRADE_REQUIRED : Z := 426.
Definition CONFLICT : Z := 409.

Record CoordinatorConfig := mk_cconfig {
  cc_schema_version : Z;
  cc_url : str;
  cc_host_id : str;
  cc_name : str;
  cc_joined_at : Timestamp;
}.
#[global] Instance CoordinatorConfig_eq_dec : EqDecision CoordinatorConfig.
Proof. solve_decision. Defined.
Record LinkRecord := mk_link {
  lr_schema_version : Z;
  lr_written_at : Timestamp;
  lr_connected : bool;
  lr_since : option Timestamp;
  lr_reason : option string;
  lr_last_wake_at : option Timestamp;
  lr_wakes_received : Z;   (* u64 *)
}.
Definition LinkRecord_new (written_at : Timestamp) : LinkRecord := mk_link 1 written_at false None None None 0.

Definition LINK_STALE_AFTER : Duration := seconds (3 * 60).
Definition HANDSHAKE_TIMEOUT : Duration := seconds 15.
Definition RECONNECT_FIRST : Duration := seconds 1.
Definition RECONNECT_CAP : Duration := seconds 60.
Definition REJECTED_CAP : Duration := seconds (5 * 60).
Definition STABLE_SESSION : Duration := seconds 60.
Definition CONFIG_RECHECK : Duration := seconds 15.
Definition LINK_KEEPALIVE : Duration := seconds 60.

Inductive SessionEnd := Reconfigured | Unreachable | Rejected | UnsupportedVersion | Closed | NoKey | NoTls.
#[global] Instance SessionEnd_eq_dec : EqDecision SessionEnd.
Proof. solve_decision. Defined.
Definition end_str (e : SessionEnd) : string :=
  match e with
  | Reconfigured => "reconfigured"
  | Unreachable => "unreachable"
  | Rejected => "rejected"
  | UnsupportedVersion => "unsupported_version"
  | Closed => "closed"
  | NoKey => "no_key"
  | NoTls => "no_tls_verifier"
  end.

(** What the status commands show of the link. *)
Inductive LinkState := LNotConfigured | LConnected | LDisconnected | LUnknown.
Definition link_state (config : result (option CoordinatorConfig) ()) (link : option LinkRecord) (now : Timestamp) : LinkState :=
  match config with
  | Ok None => LNotConfigured
  | Err _ => LUnknown
  | Ok (Some _) =>
      match link with
      | None => LUnknown
      | Some l => if elapsed_at_least (lr_written_at l) now LINK_STALE_AFTER then LUnknown
                  else if lr_connected l then LConnected else LDisconnected
      end
  end.

(** [WakeRoutes]: the targets with a loop, and whether readings are shared. *)
Record WakeRoutes := mk_routes { routes : list ScaleTarget; shares_readings : bool }.

Section Link.
Context `{W : Wire}.

(** ** Calls *)

Inductive event := EvFrame (f : received) | EvOutbound (o : option Outbound) | EvTick.
Inductive lcall :=
  (* of the coordinator *)
  | SrvNow
  | SrvAllow (address : str)
  | SrvRandom                                              (* a nonce *)
  | SrvSend (m : ServerMessage) | SrvClose (code : Z) (reason : string)
  | SrvRecv (deadline : Timestamp)                         (* None: the time is up *)
  | SrvFind (host_id : str)                                (* Store::active_host *)
  | SrvRegister (host_id : str)                            (* with a new channel *)
  | SrvUnregister (host_id : str) (connection : Z)
  | SrvHello (host_id : str) (connection : Z) (h : Hello)
  | SrvHeartbeat (host_id : str) (connection : Z) (h : Heartbeat)
  | SrvTouch (host_id : str)
  | SrvSelect (check : Duration)                           (* a frame, a message to send, or a tick *)
  (* of a host *)
  | HstNow | HstUtc
  | HstConfigured | HstRecord (r : LinkRecord)
  | HstTls | HstSecret
  | HstConnect (u : CoordinatorUrl) (tls : bool)
  | HstRecv (deadline : Timestamp)
  | HstSign (k : skey) (nonce : list N) (origin : str)
  | HstSend (m : HostMessage) | HstClose
  | HstPolicies | HstAttempts (policy : PolicyId)
  | HstHardware | HstLoad
  | HstForget (r : OwnerRepo) | HstNotify (t : ScaleTarget)
  | HstSelect (interval : Duration)
  | HstJitter (d : Duration) | HstSleep (d : Duration) | HstSleepUntil (t : Timestamp).
Definition lanswer (e : lcall) : Type :=
  match e with
  | SrvNow | HstNow | HstUtc => Timestamp
  | SrvAllow _ | SrvSend _ | HstSend _ | HstConnect _ _ | HstTls => bool
  | SrvRandom => list N
  | SrvRecv _ | HstRecv _ => option received
  | SrvFind _ => result (option HostRecord) ()
  | SrvRegister _ => Z
  | SrvSelect _ | HstSelect _ => event
  | HstConfigured => result (option CoordinatorConfig) ()
  | HstSecret => option str
  | HstSign _ _ _ => str
  | HstPolicies => result (list ScalePolicy) ()
  | HstAttempts _ => result (list RunnerAttempt) ()
  | HstHardware => option Z * option Z * option Z      (* cores, memory, free disk *)
  | HstLoad => option Z * option Z * bool * bool       (* processor, memory, unfit, draining *)
  | HstJitter _ => Duration
  | _ => unit
  end.
#[local] Abbreviation lprogram := (free lanswer) (only parsing).
#[local] Abbreviation call e := (@op lcall lanswer e) (only parsing).

(** ** The coordinator *)

Context (config : Config).

Definition last_address (l : list str) (peer : str) : str := default peer (last l).
(** [parse_ip]: [IpAddr::from_str]; the values of the header that are text. *)
Definition client_address (parse_ip : str → option str) (peer : str) (forwarded : list str) : str :=
  if trust_forwarded_for config
  then last_address (omap (λ e, parse_ip (trim e)) (forwarded ≫= split_on (λ c, c =? ch ",")%N)) peer
  else peer.

(** [next_text] under the timeout: [None] while it still waits. *)
Fixpoint server_text (turns : nat) (deadline : Timestamp) : lprogram (option (option str)) :=
  match turns with
  | O => mret None
  | S turns =>
      x ← call (SrvRecv deadline);
      match x with
      | Some (Some (FText t)) => mret (Some (Some t))
      | Some (Some FOther) => server_text turns deadline
      | _ => mret (Some None)
      end
  end.

(** [serve_host]: [false] while it still serves. *)
Fixpoint serve_host (turns : nat) (host_id : str) (connection : Z) (heard touched : Timestamp) : lprogram bool :=
  match turns with
  | O => mret false
  | S turns =>
      e ← call (SrvSelect (revocation_check config));
      match e with
      | EvFrame (Some (FText t)) =>
          heard ← call SrvNow;
          match decode_host t with
          | Some (HHello h) =>
              if negb (bool_decide (he_protocol_version h = PROTOCOL_VERSION)) then
                _ ← call (SrvClose CLOSE_UNSUPPORTED_VERSION "unsupported protocol version");
                mret true
              else
                _ ← call (SrvHello host_id connection h);
                serve_host turns host_id connection heard touched
          | Some (HHeartbeat h) =>
              _ ← call (SrvHeartbeat host_id connection h);
              now ← call SrvNow;
              if bool_decide (TOUCH_EVERY ≤ duration_since now touched) then
                touched ← call SrvNow;
                _ ← call (SrvTouch host_id);
                serve_host turns host_id connection heard touched
              else serve_host turns host_id connection heard touched
          | _ => serve_host turns host_id connection heard touched
          end
      | EvFrame (Some FOther) => heard ← call SrvNow; serve_host turns host_id connection heard touched
      | EvFrame _ => mret true
      | EvOutbound (Some (Send m)) =>
          ok ← call (SrvSend m);
          if (ok : bool) then serve_host turns host_id connection heard touched else mret true
      | EvOutbound (Some (Close code reason)) => _ ← call (SrvClose code reason); mret true
      | EvOutbound None => mret true
      | EvTick =>
          active ← call (SrvFind host_id);
          if bool_decide (active = Ok None) then
            _ ← call (SrvClose CLOSE_UNAUTHORIZED "revoked");
            mret true
          else
            now ← call SrvNow;
            if bool_decide (3 * heartbeat_interval config < duration_since now heard) then
              _ ← call (SrvClose 1001 "silent");
              mret true
            else serve_host turns host_id connection heard touched
      end
  end.

Definition refuse (code : Z) (reason : string) : lprogram bool := _ ← call (SrvClose code reason); mret true.
Definition unauthorized : lprogram bool := refuse CLOSE_UNAUTHORIZED "unauthorized".

Definition record_verifies (nonce : list N) (signature : str) (r : HostRecord) : bool :=
  match decode_public_key (hr_public_key r) with
  | Some key => verify_challenge key nonce (public_origin config) signature
  | None => false
  end.
Definition welcomed (turns : nat) (r : HostRecord) : lprogram bool :=
  let host_id := hr_id r in
  sent ← call (SrvSend (Welcome PROTOCOL_VERSION (Z.min U32_MAX (heartbeat_interval config / seconds 1))));
  if negb sent then mret true
  else
    connection ← call (SrvRegister host_id);
    _ ← call (SrvTouch host_id);
    heard ← call SrvNow;
    touched ← call SrvNow;
    returned ← serve_host turns host_id connection heard touched;
    if (returned : bool) then _ ← call (SrvUnregister host_id connection); mret true else mret false.
(** [false] while the connection is open. *)
Definition connection (turns : nat) : lprogram bool :=
  nonce ← call SrvRandom;
  sent ← call (SrvSend (Challenge PROTOCOL_VERSION (encode_nonce nonce)));
  if negb sent then mret true
  else
    now ← call SrvNow;
    answer ← server_text turns (now + auth_timeout config);
    match answer with
    | None => mret false
    | Some None => unauthorized
    | Some (Some text) =>
        match decode_host text with
        | Some (HAuth version host_id signature) =>
            if negb (bool_decide (version = PROTOCOL_VERSION))
            then refuse CLOSE_UNSUPPORTED_VERSION "unsupported protocol version"
            else
              found ← call (SrvFind host_id);
              match found with
              | Ok (Some r) => if record_verifies nonce signature r then welcomed turns r else unauthorized
              | _ => unauthorized
              end
        | _ => unauthorized
        end
    end.
(** The answer to [/connect]: a connection, or a status. *)
Definition connect (turns : nat) (address : str) : lprogram bool :=
  allowed ← call (SrvAllow address);
  if (allowed : bool) then connection turns else mret true.

(** [/enroll]: the status, and the host when it enrolled. *)
Definition enroll_request (parse_ip : str → option str) (sha256_digest : list N → list N) (hex_encode : list N → str)
    (peer : str) (forwarded : list str) (body : list N) (instant now : Timestamp) (id : str) (s : RateLimiter * cdb)
    : (RateLimiter * cdb) * (Z * option HostRecord) :=
  let '(limiter, allowed) := allow (client_address parse_ip peer forwarded) instant s.1 in
  if negb allowed then ((limiter, s.2), (TOO_MANY_REQUESTS, None))
  else match enroll_from_slice body with
  | None => ((limiter, s.2), (BAD_REQUEST, None))
  | Some r =>
      if negb (bool_decide (er_protocol_version r = PROTOCOL_VERSION)) then ((limiter, s.2), (UPGRADE_REQUIRED, None))
      else if bool_decide (decode_public_key (er_public_key r) = None) then ((limiter, s.2), (BAD_REQUEST, None))
      else
        let '(d, x) := enroll sha256_digest hex_encode (er_code r) (er_hostname r) (er_public_key r) now id s.2 in
        ((limiter, d),
         match x with
         | Ok host => (OK, Some host)
         | Err InvalidCode => (UNAUTHORIZED, None)
         | Err (EnrollStore _) => (CONFLICT, None)
         end)
  end.

(** ** The host's record of the link *)

Record Recorder := mk_recorder { rc_record : LinkRecord; rc_written : option Timestamp }.
Definition rec_write (rc : Recorder) : lprogram Recorder :=
  written ← call HstNow;
  utc ← call HstUtc;
  let r := rc_record rc in
  let r := mk_link (lr_schema_version r) utc (lr_connected r) (lr_since r) (lr_reason r) (lr_last_wake_at r) (lr_wakes_received r) in
  _ ← call (HstRecord r);
  mret (mk_recorder r (Some written)).
Definition keep_alive (rc : Recorder) : lprogram Recorder :=
  due ← (match rc_written rc with
         | None => mret true
         | Some at_ => now ← call HstNow; mret (bool_decide (LINK_KEEPALIVE ≤ duration_since now at_))
         end);
  if (due : bool) then rec_write rc else mret rc.
Definition rec_connected (rc : Recorder) : lprogram Recorder :=
  utc ← call HstUtc;
  let r := rc_record rc in
  rec_write (mk_recorder (mk_link (lr_schema_version r) (lr_written_at r) true (Some utc) None (lr_last_wake_at r)
    (lr_wakes_received r)) (rc_written rc)).
Definition rec_disconnected (e : SessionEnd) (rc : Recorder) : lprogram Recorder :=
  let r := rc_record rc in
  since ← (if lr_connected r || bool_decide (lr_since r = None) then utc ← call HstUtc; mret (Some utc)
           else mret (lr_since r));
  rec_write (mk_recorder (mk_link (lr_schema_version r) (lr_written_at r) false since (Some (end_str e)) (lr_last_wake_at r)
    (lr_wakes_received r)) (rc_written rc)).
Definition rec_woke (rc : Recorder) : lprogram Recorder :=
  utc ← call HstUtc;
  let r := rc_record rc in
  rec_write (mk_recorder (mk_link (lr_schema_version r) (lr_written_at r) (lr_connected r) (lr_since r) (lr_reason r) (Some utc)
    (sat_add U64_MAX (lr_wakes_received r) 1)) (rc_written rc)).

(** ** The host *)

Context (host : Host) (wakes : WakeRoutes).

Definition deliver (w : Wake) : lprogram bool :=
  match List.find (λ t, same_target t (wk_target w)) (routes wakes) with
  | None => mret false
  | Some t =>
      _ ← (match OwnerRepo_parse (wk_repository w) with
           | Ok r => if shares_readings wakes && covers (wk_target w) (wk_repository w) then call (HstForget r) else mret tt
           | Err _ => mret tt
           end);
      _ ← call (HstNotify t);
      mret true
  end.

Definition load_key : lprogram (option skey) := secret ← call HstSecret; mret (secret ≫= decode_signing_key).
Definition hello (host_id : str) (policies : list ScalePolicy) : lprogram Hello :=
  x ← call HstHardware;
  let '(cores, ram, disk) := x in
  mret (mk_hello PROTOCOL_VERSION host_id (Os_label_token (h_os host)) (Arch_label_token (architecture host))
    (match cores with Some c => if bool_decide (c ≤ U32_MAX) then c else 1 | None => 1 end) ram disk
    (advertised_targets policies)).
Fixpoint busy_slots (total : Z) (policies : list ScalePolicy) : lprogram Z :=
  match policies with
  | [] => mret total
  | p :: policies =>
      x ← call (HstAttempts (p_id p));
      busy_slots (match x with Ok l => sat_add U16_MAX total (active_count l) | Err _ => total end) policies
  end.
Definition heartbeat (policies : list ScalePolicy) : lprogram Heartbeat :=
  busy ← busy_slots 0 policies;
  x ← call HstLoad;
  let '(cpu, ram, unfit, draining) := x in
  mret (mk_heartbeat (sat_sub (host_capacity host) busy) busy cpu ram unfit draining).

(** [next_text_within]. *)
Fixpoint host_text (turns : nat) (deadline : Timestamp) : lprogram (option (result str SessionEnd)) :=
  match turns with
  | O => mret None
  | S turns =>
      x ← call (HstRecv deadline);
      match x with
      | Some (Some (FText t)) => mret (Some (Ok t))
      | Some (Some FOther) => host_text turns deadline
      | Some (Some (FClose code)) =>
          mret (Some (Err (if bool_decide (code = Some CLOSE_UNAUTHORIZED) then Rejected
                           else if bool_decide (code = Some CLOSE_UNSUPPORTED_VERSION) then UnsupportedVersion
                           else Closed)))
      | _ => mret (Some (Err Closed))
      end
  end.
Definition within_handshake (turns : nat) : lprogram (option (result str SessionEnd)) :=
  now ← call HstNow; host_text turns (now + HANDSHAKE_TIMEOUT).

(** The heartbeat interval; [None] while the handshake is still going on. *)
Definition handshake (turns : nat) (u : CoordinatorUrl) (host_id : str) (k : skey) : lprogram (option (result Duration SessionEnd)) :=
  challenge ← within_handshake turns;
  match challenge with
  | None => mret None
  | Some (Err e) => mret (Some (Err e))
  | Some (Ok text) =>
      match decode_server text with
      | Some (Challenge version nonce) =>
          if negb (bool_decide (version = PROTOCOL_VERSION)) then mret (Some (Err UnsupportedVersion))
          else match decode_nonce nonce with
          | None => mret (Some (Err Closed))
          | Some nonce =>
              signature ← call (HstSign k nonce (origin u));
              sent ← call (HstSend (HAuth PROTOCOL_VERSION host_id signature));
              if negb sent then mret (Some (Err Closed))
              else
                welcome ← within_handshake turns;
                match welcome with
                | None => mret None
                | Some (Err e) => mret (Some (Err e))
                | Some (Ok text) =>
                    mret (Some (match decode_server text with
                                | Some (Welcome _ secs) => Ok (seconds (clamp 5 300 secs))
                                | _ => Err Closed
                                end))
                end
          end
      | _ => mret (Some (Err Closed))
      end
  end.

Definition policies_or_none : lprogram (list ScalePolicy) := x ← call HstPolicies; mret (match x with Ok l => l | Err _ => [] end).
Definition describe (host_id : str) (policies : list ScalePolicy) : lprogram bool :=
  h ← hello host_id policies; call (HstSend (HHello h)).
(** The loop of [serve], once the host has described itself. *)
Fixpoint serving (turns : nat) (c : CoordinatorConfig) (interval : Duration) (described : list WireTarget) (rc : Recorder)
    : lprogram (option (Recorder * SessionEnd)) :=
  match turns with
  | O => mret None
  | S turns =>
      e ← call (HstSelect interval);
      match e with
      | EvFrame (Some (FText t)) =>
          woken ← (match decode_server t with Some (MWake w) => deliver w | _ => mret false end);
          rc ← (if (woken : bool) then rec_woke rc else mret rc);
          serving turns c interval described rc
      | EvFrame (Some FOther) => serving turns c interval described rc
      | EvFrame (Some (FClose code)) =>
          mret (Some (rc, if bool_decide (code = Some CLOSE_UNAUTHORIZED) then Rejected
                          else if bool_decide (code = Some CLOSE_UNSUPPORTED_VERSION) then UnsupportedVersion else Closed))
      | EvTick =>
          now ← call HstConfigured;
          if negb (bool_decide (now = Ok (Some c))) then _ ← call HstClose; mret (Some (rc, Reconfigured))
          else
            policies ← policies_or_none;
            let current := advertised_targets policies in
            ok ← (if negb (bool_decide (current = described)) then describe (cc_host_id c) policies else mret true);
            if negb ok then mret (Some (rc, Closed))
            else
              beat ← heartbeat policies;
              ok ← call (HstSend (HHeartbeat beat));
              if negb ok then mret (Some (rc, Closed))
              else
                rc ← keep_alive rc;
                serving turns c interval current rc
      | _ => mret (Some (rc, Closed))
      end
  end.
Definition serve (turns : nat) (c : CoordinatorConfig) (interval : Duration) (rc : Recorder) : lprogram (option (Recorder * SessionEnd)) :=
  policies ← policies_or_none;
  ok ← describe (cc_host_id c) policies;
  if negb ok then mret (Some (rc, Closed)) else serving turns c interval (advertised_targets policies) rc.

(** One connection; [None] while it lasts. *)
Definition session (turns : nat) (c : CoordinatorConfig) (tls : bool) (rc : Recorder) : lprogram (option (Recorder * SessionEnd)) :=
  match CoordinatorUrl_parse (cc_url c) with
  | Err _ => mret (Some (rc, Unreachable))
  | Ok u =>
      key ← load_key;
      match key with
      | None => mret (Some (rc, NoKey))
      | Some k =>
          if negb tls && starts_with (lit "wss://") (connect_url u) then mret (Some (rc, NoTls))
          else
            connected ← call (HstConnect u tls);
            if negb connected then mret (Some (rc, Unreachable))
            else
              interval ← handshake turns u (cc_host_id c) k;
              match interval with
              | None => mret None
              | Some (Err e) => mret (Some (rc, e))
              | Some (Ok interval) => rc ← rec_connected rc; serve turns c interval rc
              end
      end
  end.

(** ** Keeping the link up *)

Definition back_off_cap (e : SessionEnd) : Duration :=
  match e with Rejected | UnsupportedVersion | NoKey | NoTls => REJECTED_CAP | _ => RECONNECT_CAP end.
(** The wait of a back-off, in steps; [None] while it lasts. *)
Fixpoint back_off (turns : nat) (resume : Timestamp) (rc : Recorder) : lprogram (option Recorder) :=
  match turns with
  | O => mret None
  | S turns =>
      now ← call HstNow;
      if negb (bool_decide (now < resume)) then mret (Some rc)
      else
        now ← call HstNow;
        _ ← call (HstSleepUntil (Z.min resume (now + LINK_KEEPALIVE)));
        c ← call HstConfigured;
        match c with
        | Ok (Some _) => rc ← keep_alive rc; back_off turns resume rc
        | _ => mret (Some rc)
        end
  end.
Fixpoint maintaining (turns steps : nat) (tls : bool) (backoff : Duration) (rc : Recorder) : lprogram bool :=
  match turns with
  | O => mret false
  | S turns =>
      c ← call HstConfigured;
      match c with
      | Ok (Some c) =>
          started ← call HstNow;
          ended ← session steps c tls rc;
          match ended with
          | None => mret false
          | Some (rc, Reconfigured) =>
              now ← call HstConfigured;
              rc ← (match now with Ok (Some _) => rec_disconnected Reconfigured rc | _ => mret rc end);
              maintaining turns steps tls RECONNECT_FIRST rc
          | Some (rc, e) =>
              rc ← rec_disconnected e rc;
              now ← call HstNow;
              let backoff := if bool_decide (STABLE_SESSION ≤ duration_since now started) then RECONNECT_FIRST else backoff in
              let backoff := Z.min backoff (back_off_cap e) in
              now ← call HstNow;
              wait ← call (HstJitter backoff);
              waited ← back_off steps (now + wait) rc;
              match waited with
              | None => mret false
              | Some rc => maintaining turns steps tls (Z.min (2 * backoff) (back_off_cap e)) rc
              end
          end
      | _ => _ ← call (HstSleep CONFIG_RECHECK); maintaining turns steps tls backoff rc
      end
  end.
(** [maintain_link] never returns: [false] after that many turns. *)
Definition maintain_link (turns steps : nat) : lprogram bool :=
  tls ← call HstTls;
  now ← call HstUtc;
  maintaining turns steps tls RECONNECT_FIRST (mk_recorder (LinkRecord_new now) None).
End Link.
