(* ===== verification/LinkSafety.v ===== *)
(** * Who may speak for a host

    Any number of connections of the coordinator and of links of hosts run at once, over
    a network that may deliver anything to anybody, except signatures of a host's key over
    messages that key never signed. Proved here: the registry holds only hosts for which
    a connection answered its own, fresh challenge with a signature made after it was
    issued, by the key of the host's record and for this coordinator; a connection
    speaks for no other host and leaves nothing behind. A link signs only challenges of
    the coordinator its host joined, over TLS or on the machine itself, and does not
    reconnect in a hurry. *)

From Stdlib Require Import Relations.
From stdpp Require Import strings.
From S2P Require Import Prelude RustStr Ordered Model Path Workspace Execution Host Attempt.
From S2P Require Import Labels Policy Capacity Github Fence Coordinator Effects Tasks Protocol Link.
#[local] Open Scope Z_scope.
#[local] Open Scope rust_scope.

(** What a connection of the coordinator has, and what a host's link has. *)
Record conn := mk_conn {
  co_nonce : option (list N);            (* its challenge *)
  co_found : option HostRecord;          (* the record last looked up *)
  co_registered : option (str * Z);      (* in the registry *)
}.
Section LinkSafety.
Context `{W : Wire}.

Record hlink := mk_hlink {
  hl_config : option CoordinatorConfig;              (* the setting last read *)
  hl_url : option CoordinatorUrl;                    (* the last connection *)
  hl_tried : option (Timestamp * CoordinatorConfig); (* when, and for which setting *)
  hl_changed : bool;                                 (* another setting was read since *)
}.
Inductive levent :=
  | Issued (i : nat) (nonce : list N)
  | Found (i : nat) (r : HostRecord)
  | Signed (j : nat) (k : skey) (nonce : list N) (origin : str).
Record lworld := mk_lworld {
  lw_clock : Z;
  lw_db : cdb;
  lw_registry : Registry;
  lw_conns : nat → conn;
  lw_links : nat → hlink;
  lw_history : list levent;              (* newest first *)
}.
Implicit Types (w : lworld) (i j : nat).

Definition upd {A} i (x : A) (f : nat → A) : nat → A := λ j, if decide (j = i) then x else f j.
Definition with_clock c w := mk_lworld c (lw_db w) (lw_registry w) (lw_conns w) (lw_links w) (lw_history w).
Definition with_db d w := mk_lworld (lw_clock w) d (lw_registry w) (lw_conns w) (lw_links w) (lw_history w).
Definition with_registry r w := mk_lworld (lw_clock w) (lw_db w) r (lw_conns w) (lw_links w) (lw_history w).
Definition with_conn i c w := mk_lworld (lw_clock w) (lw_db w) (lw_registry w) (upd i c (lw_conns w)) (lw_links w) (lw_history w).
Definition with_link i l w := mk_lworld (lw_clock w) (lw_db w) (lw_registry w) (lw_conns w) (upd i l (lw_links w)) (lw_history w).
Definition logged e w := mk_lworld (lw_clock w) (lw_db w) (lw_registry w) (lw_conns w) (lw_links w) (e :: lw_history w).

Definition with_nonce n c := mk_conn (Some n) (co_found c) (co_registered c).
Definition with_found r c := mk_conn (co_nonce c) r (co_registered c).
Definition with_registered x c := mk_conn (co_nonce c) (co_found c) x.
Definition reads_config (x : result (option CoordinatorConfig) ()) l :=
  mk_hlink (match x with Ok (Some c) => Some c | _ => None end) (hl_url l) (hl_tried l)
    (hl_changed l || match hl_tried l with Some (_, c) => negb (bool_decide (x = Ok (Some c))) | None => false end).
Definition tries t u l := mk_hlink (hl_config l) (Some u) ((t,.) <$> hl_config l) false.

(** ** The environment *)

Context (config : Config) (holds : nat → skey → Prop).

(** A text carries no signature of a host's key but of what that key signed. *)
Definition unforged w (text : str) : Prop :=
  ∀ version host_id s sig k m, decode_host text = Some (HAuth version host_id s) →
    decode_signature s = Some sig → (∃ j, holds j k) → verify_strict (verifying_key k) m sig = true →
    ∃ j n o, Signed j k n o ∈ lw_history w ∧ m = auth_message n o.
Definition unforged_frame w (x : received) : Prop := ∀ t, x = Some (FText t) → unforged w t.
Definition new_nonce w (n : list N) : Prop :=
  length n = NONCE_LEN ∧ (∀ i, Issued i n ∉ lw_history w) ∧ (∀ j k o, Signed j k n o ∉ lw_history w).

Definition link_act i w (e : lcall) : lanswer e → lworld → Prop :=
  let c := lw_conns w i in let l := lw_links w i in
  match e return lanswer e → lworld → Prop with
  | SrvNow | HstNow => λ x w', lw_clock w ≤ x ∧ w' = with_clock x w
  | SrvRandom => λ x w', new_nonce w x ∧ w' = logged (Issued i x) (with_conn i (with_nonce x c) w)
  | SrvRecv _ => λ x w', (∀ f, x = Some f → unforged_frame w f) ∧ w' = w
  | SrvFind id => λ x w', (x = Err tt ∧ w' = w) ∨
      (x = Ok (active_host id (lw_db w)) ∧
       w' = (match active_host id (lw_db w) with Some r => logged (Found i r) | None => λ w, w end)
              (with_conn i (with_found (active_host id (lw_db w)) c) w))
  | SrvRegister h => λ x w', ∃ channel r, register h channel (lw_registry w) = (r, x) ∧
      w' = with_registry r (with_conn i (with_registered (Some (h, x)) c) w)
  | SrvUnregister h n => λ _ w',
      w' = with_registry (unregister h n (lw_registry w)) (with_conn i (with_registered None c) w)
  | SrvHello h n x => λ _ w', w' = with_registry (set_hello h n x (lw_registry w)) w
  | SrvHeartbeat h n x => λ _ w', w' = with_registry (set_heartbeat h n x (lw_registry w)) w
  | SrvTouch h => λ _ w', ∃ now, w' = with_db (touch h now (lw_db w)) w
  | SrvSelect _ => λ x w', (∀ f, x = EvFrame f → unforged_frame w f) ∧ w' = w
  | HstConfigured => λ x w', w' = with_link i (reads_config x l) w
  | HstSecret => λ x w', (∀ s k, x = Some s → decode_signing_key s = Some k → holds i k) ∧ w' = w
  | HstConnect u _ => λ _ w', w' = with_link i (tries (lw_clock w) u l) w
  | HstSign k n o => λ x w', x = sign_challenge k n o ∧ w' = logged (Signed i k n o) w
  | HstSelect _ => λ x w', (∀ o, x ≠ EvOutbound o) ∧ w' = w
  | HstJitter d => λ x w', d ≤ x ≤ d + d / 2 ∧ w' = w
  | HstSleep d => λ _ w', ∃ t, lw_clock w + d ≤ t ∧ lw_clock w ≤ t ∧ w' = with_clock t w
  | HstSleepUntil d => λ _ w', ∃ t, d ≤ t ∧ lw_clock w ≤ t ∧ w' = with_clock t w
  | _ => λ _ w', w' = w
  end.
(** Time passes; deliveries wake hosts; the operator invites, revokes, and hosts enroll. *)
Inductive link_tick : lworld → lworld → Prop :=
  | tick_time w t : lw_clock w ≤ t → link_tick w (with_clock t w)
  | tick_wake w repository labels delivery :
      link_tick w (with_registry (wake_for_job repository labels delivery (lw_registry w)).1 w)
  | tick_db w d : link_tick w (with_db d w).

(** ** What is promised *)

(** Connection [i] speaks for the host of [r]: since its challenge was issued, to it
    alone, the record was found active, and whoever holds its key signed the challenge. *)
Definition authentic i (r : HostRecord) w : Prop :=
  record_is_active r = true ∧ ∃ n l l', co_nonce (lw_conns w i) = Some n ∧ lw_history w = l ++ Issued i n :: l' ∧
    (∀ j, Issued j n ∉ l ++ l') ∧ Found i r ∈ l ∧
    ∀ k, (∃ j, holds j k) → decode_public_key (hr_public_key r) = Some (verifying_key k) →
      ∃ j, holds j k ∧ Signed j k n (public_origin config) ∈ l.

Definition safely (u : CoordinatorUrl) (tls : bool) : Prop :=
  (u_scheme (cu_origin u) = lit "https" ∧ tls = true) ∨ ∃ h, u_host (cu_origin u) = Some h ∧ is_loopback h = true.
Definition rested i w : Prop :=
  ∀ t c, hl_tried (lw_links w i) = Some (t, c) → hl_changed (lw_links w i) = false → t + RECONNECT_FIRST ≤ lw_clock w.
Definition link_asks i w (e : lcall) : Prop :=
  match e with
  | SrvRandom => co_nonce (lw_conns w i) = None
  | SrvSend (Welcome _ _) => ∃ r, authentic i r w
  | SrvRegister h => co_registered (lw_conns w i) = None ∧ ∃ r, hr_id r = h ∧ authentic i r w
  | SrvUnregister h n | SrvHello h n _ | SrvHeartbeat h n _ => co_registered (lw_conns w i) = Some (h, n)
  | SrvTouch h => ∃ n, co_registered (lw_conns w i) = Some (h, n)
  | SrvSelect _ => ∃ x r, co_registered (lw_conns w i) = Some x ∧ co_found (lw_conns w i) = Some r
  | HstConnect u tls => rested i w ∧ safely u tls ∧
      ∃ c, hl_config (lw_links w i) = Some c ∧ CoordinatorUrl_parse (cc_url c) = Ok u
  | HstSign k n o => holds i k ∧ length n = NONCE_LEN ∧ ∃ u, hl_url (lw_links w i) = Some u ∧ o = origin u
  | HstJitter d => RECONNECT_FIRST ≤ d ≤ REJECTED_CAP
  | _ => True
  end.
Definition link_result i w (returned : bool) : Prop := returned = true → co_registered (lw_conns w i) = None.

(** ** Interference *)

Definition sound_event (e : levent) : Prop :=
  match e with Signed j k n _ => holds j k ∧ length n = NONCE_LEN | _ => True end.
Definition grows (h h' : list levent) : Prop :=
  ∃ l, h' = l ++ h ∧ Forall sound_event l ∧ ∀ i n, Issued i n ∈ l → ∀ j, Issued j n ∉ h.
Definition apart i w w' : Prop :=
  lw_clock w ≤ lw_clock w' ∧ lw_conns w' i = lw_conns w i ∧ lw_links w' i = lw_links w i ∧
  grows (lw_history w) (lw_history w').
#[local] Abbreviation V i := (task_env link_asks link_act apart i).

#[global] Instance grows_preorder : PreOrder grows.
Proof.
  split; [intros h; exists []; split_and!; [done|done|by intros ? ? ?%elem_of_nil]|].
  intros h1 h2 h3 (l1 & -> & F1 & N1) (l2 & -> & F2 & N2). exists (l2 ++ l1).
  split_and!; [by rewrite app_assoc|by apply Forall_app|]. intros i n [H|H]%elem_of_app j Hj; [|by apply (N1 i n H j)].
  apply (N2 i n H j), elem_of_app. by right.
Qed.
Lemma grows_refl h : grows h h.
Proof. reflexivity. Qed.
#[local] Hint Resolve grows_refl : core.
#[global] Instance apart_preorder i : PreOrder (apart i).
Proof.
  split; [by intros w; split_and!|]. intros w1 w2 w3 (? & ? & ? & ?) (? & ? & ? & ?).
  split_and!; [lia|congruence|congruence|by etransitivity].
Qed.
Lemma grows_one e h : sound_event e → (∀ i n, e = Issued i n → ∀ j, Issued j n ∉ h) → grows h (e :: h).
Proof.
  intros He Hn. exists [e]. split_and!; [done|by repeat constructor|].
  intros i n Hi%list_elem_of_singleton. by apply (Hn i).
Qed.
Lemma upd_same {A} i (x : A) f : upd i x f i = x.
Proof. unfold upd. by rewrite decide_True. Qed.
Lemma upd_other {A} i j (x : A) f : i ≠ j → upd i x f j = f j.
Proof. intros H. unfold upd. by rewrite decide_False. Qed.

Lemma act_grows i w e x w' : link_asks i w e → link_act i w e x w' →
  lw_clock w ≤ lw_clock w' ∧ grows (lw_history w) (lw_history w').
Proof.
  destruct e; cbn [link_act link_asks]; intros Ha H.
  all: try (lazymatch type of H with _ ∧ _ => destruct H as [? ->] | _ = _ => subst w' end; by split).
  - destruct H as [(Hl & Hn & _) ->]. split; [done|]. apply grows_one; [done|]. by intros ? ? [= <- <-].
  - destruct H as [[_ ->]|[_ ->]]; [done|]. destruct (active_host _ _); [|done]. split; [done|]. by apply grows_one.
  - destruct H as (ch & r & _ & ->). by split.
  - destruct H as (now & ->). by split.
  - destruct H as [-> ->]. destruct Ha as (Hk & Hn & _). split; [done|]. by apply grows_one.
  - destruct H as (t1 & Hd & Ht & ->). by split.
  - destruct H as (t1 & Hd & Ht & ->). by split.
Qed.
(** A call moves the clock and the history, and only the parts of its own task. *)
Lemma act_apart i j w e x w' : i ≠ j → link_asks i w e → link_act i w e x w' → apart j w w'.
Proof.
  intros Hij Ha H. destruct (act_grows i w e x w' Ha H) as [Hc Hg].
  assert (lw_conns w' j = lw_conns w j ∧ lw_links w' j = lw_links w j) as [H1 H2]; [|by split_and!].
  clear Hc Hg Ha. destruct e; cbn [link_act] in H.
  all: try (lazymatch type of H with _ ∧ _ => destruct H as [? ->] | _ = _ => subst w' end; by split).
  all: try (lazymatch type of H with _ ∧ _ => destruct H as [? ->] | _ = _ => subst w' end;
            first [split; [done|by apply upd_other]|split; [by apply upd_other|done]]).
  - destruct H as [[_ ->]|[_ ->]]; [done|]. destruct (active_host _ _); (split; [by apply upd_other|done]).
  - destruct H as (ch & r & _ & ->). split; [by apply upd_other|done].
  - by destruct H as (now & ->).
  - destruct H as (t1 & Hd & Ht & ->). by split.
  - destruct H as (t1 & Hd & Ht & ->). by split.
Qed.
Lemma tick_apart j w w' : link_tick w w' → apart j w w'.
Proof. destruct 1; by split_and!. Qed.

(** ** Authenticity lasts *)

Lemma authentic_grows i r w w' :
  co_nonce (lw_conns w' i) = co_nonce (lw_conns w i) → grows (lw_history w) (lw_history w') →
  authentic i r w → authentic i r w'.
Proof.
  intros Hn (L & HL & _ & HN) (Ha & n & l & l' & En & El & Hu & Hf & Hs).
  split; [done|]. exists n, (L ++ l), l'.
  split_and!; [by rewrite Hn|by rewrite HL, El, app_assoc| | |].
  - rewrite <-app_assoc. intros j [Hj|Hj]%elem_of_app; [|by apply (Hu j)]. apply (HN j n Hj i). rewrite El. set_solver.
  - set_solver.
  - intros k Hk Hd. destruct (Hs k Hk Hd) as (j & Hj & Hm). exists j. split; [done|]. set_solver.
Qed.
Lemma authentic_apart i r w w' : apart i w w' → authentic i r w → authentic i r w'.
Proof. intros (_ & Hc & _ & Hg). apply authentic_grows; [by rewrite Hc|done]. Qed.

(** ** Calls that leave their task's own state alone *)

Definition quiet (e : lcall) : bool :=
  match e with SrvRandom | SrvFind _ | SrvRegister _ | SrvUnregister _ _ | HstConfigured | HstConnect _ _ => false | _ => true end.
Lemma quiet_apart i w e x w' : quiet e = true → link_asks i w e → does (V i) w e x w' → apart i w w'.
Proof.
  intros Hq Ha (w1 & H & Hr). etransitivity; [|exact Hr]. destruct (act_grows i w e x w1 Ha H) as [Hc Hg].
  split; [done|]. clear Ha Hc Hr. destruct e; try done; cbn [link_act] in H.
  all: try (lazymatch type of H with _ ∧ _ => destruct H as [? ->] | _ = _ => subst w1 end; by split_and!).
  - destruct H as (now & ->). by split_and!.
  - destruct H as (t1 & _ & _ & ->). by split_and!.
  - destruct H as (t1 & _ & _ & ->). by split_and!.
Qed.
Lemma sat_leaving {A} i e (k : lanswer e → free lanswer A) w (Q : lworld → A → Prop) :
  quiet e = true → link_asks i w e → (∀ x w', apart i w w' → sat (V i) (k x) w' Q) → sat (V i) (op e ≫= k) w Q.
Proof. intros Hq Ha H. apply sat_op_bind; [done|]. intros x w' Hd. apply H. by eapply quiet_apart. Qed.

(** ** A connection *)

Definition sound w : Prop := Forall sound_event (lw_history w).
Lemma sound_apart i w w' : apart i w w' → sound w → sound w'.
Proof. intros (_ & _ & _ & l & Hl & Hs & _) H. unfold sound. rewrite Hl. by apply Forall_app. Qed.
Lemma unforged_apart i w w' t : apart i w w' → unforged w t → unforged w' t.
Proof.
  intros (_ & _ & _ & l & Hl & _) H v h s sig k m Hd Hs Hk Hv.
  destruct (H v h s sig k m Hd Hs Hk Hv) as (j & n & o & Hj & Hm). exists j, n, o. rewrite Hl. set_solver.
Qed.

(** Challenged with a nonce no other connection has, and what happened since. *)
Definition challenged i (n : list N) (since : list levent) w : Prop :=
  sound w ∧ length n = NONCE_LEN ∧ co_nonce (lw_conns w i) = Some n ∧ co_registered (lw_conns w i) = None ∧
  ∃ l l', lw_history w = l ++ Issued i n :: l' ∧ (∀ j, Issued j n ∉ l ++ l') ∧ (∀ j k o, Signed j k n o ∉ l') ∧ since ⊆ l.
Lemma challenged_grows i n since w w' :
  sound w' → co_nonce (lw_conns w' i) = co_nonce (lw_conns w i) →
  co_registered (lw_conns w' i) = co_registered (lw_conns w i) →
  grows (lw_history w) (lw_history w') → challenged i n since w → challenged i n since w'.
Proof.
  intros Hw' Hc1 Hc2 (L & HL & _ & HN) (Hw & Hl & Hn & Hr & l & l' & El & Hu & Hs & Hi).
  split_and!; [done|done|by rewrite Hc1|by rewrite Hc2|]. exists (L ++ l), l'.
  split_and!; [by rewrite HL, El, app_assoc| |done|set_solver].
  rewrite <-app_assoc. intros j [Hj|Hj]%elem_of_app; [|by apply (Hu j)]. apply (HN j n Hj i). rewrite El. set_solver.
Qed.
Lemma challenged_apart i n since w w' : apart i w w' → challenged i n since w → challenged i n since w'.
Proof.
  intros Ha H. pose proof Ha as (_ & Hc & _ & Hg).
  apply (challenged_grows _ _ _ w); [eapply sound_apart; [exact Ha|apply H]|by rewrite Hc|by rewrite Hc|done|done].
Qed.

(** An answer that verifies was signed after the challenge. *)
Lemma verified_authentic i n r text version id s w :
  challenged i n [Found i r] w → unforged w text → decode_host text = Some (HAuth version id s) →
  record_is_active r = true → record_verifies config n s r = true → authentic i r w.
Proof.
  intros (Hw & Hl & Hn & _ & l & l' & El & Hu & Hs & Hi) Ht Hd Ha Hv. split; [done|]. exists n, l, l'.
  split_and!; [done|done|done|set_solver|]. intros k Hk Hp.
  unfold record_verifies in Hv. rewrite Hp in Hv. unfold verify_challenge in Hv.
  destruct (decode_signature s) as [sig|] eqn:Es; [|done].
  destruct (Ht _ _ _ _ k _ Hd Es Hk Hv) as (j & n' & o & Hj & Hm).
  pose proof (proj1 (Forall_forall _ _) Hw _ Hj) as [Hjk Hn']. simpl in Hjk, Hn'.
  apply auth_message_inj in Hm as [<- <-]; [|done..]. exists j. split; [done|].
  rewrite El in Hj. apply elem_of_app in Hj as [?|[?|?]%elem_of_cons]; [done|done|]. by destruct (Hs j k (public_origin config)).
Qed.

Lemma server_text_spec i n turns deadline w :
  challenged i n [] w →
  sat (V i) (server_text turns deadline) w (λ w' x, challenged i n [] w' ∧ ∀ t, x = Some (Some t) → unforged w' t).
Proof.
  revert w. induction turns as [|turns IH]; intros w Hc; [by apply sat_ret|].
  cbn [server_text]. apply sat_op_bind; [done|]. intros x w' Hd. pose proof (quiet_apart i w _ x w' eq_refl I Hd) as Ha.
  destruct Hd as (w1 & [Hf ->] & Hr). pose proof (challenged_apart i n [] w w' Ha Hc) as Hc'.
  destruct x as [[[t| |code|]|]|]; try (by apply sat_ret); [|by apply IH].
  apply sat_ret. split; [done|]. intros ? [= <-]. eapply unforged_apart; [exact Ha|]. by apply (Hf (Some (FText t))).
Qed.

(** Registered, and its host not seen revoked. *)
Definition admitted i (h : str) (c : Z) w : Prop :=
  co_registered (lw_conns w i) = Some (h, c) ∧ is_Some (co_found (lw_conns w i)) ∧ ∃ r, authentic i r w.
Lemma admitted_apart i h c w w' : apart i w w' → admitted i h c w → admitted i h c w'.
Proof.
  intros Ha (Hr & Hf & r & Hu). pose proof Ha as (_ & Hc & _ & _). unfold admitted. rewrite Hc.
  split_and!; [done|done|]. exists r. by eapply authentic_apart.
Qed.
Lemma registered_apart i x w w' : apart i w w' → co_registered (lw_conns w i) = x → co_registered (lw_conns w' i) = x.
Proof. by intros (_ & -> & _). Qed.
Definition still i (h : str) (c : Z) w : Prop := co_registered (lw_conns w i) = Some (h, c).

(** One quiet call of a connection that is admitted, and on. *)
Ltac on :=
  apply sat_leaving; [done|by eauto|];
  let x := fresh "x" in let w := fresh "w" in let Ha := fresh "Ha" in
  intros x w Ha; lazymatch goal with H : admitted ?i ?h ?c ?v |- _ => apply (admitted_apart i h c v w Ha) in H; clear Ha end.
Lemma admitted_asks i h c w : admitted i h c w → ∃ n, co_registered (lw_conns w i) = Some (h, n).
Proof. intros [H _]. by exists c. Qed.

Lemma serve_host_spec i h c turns heard touched w :
  admitted i h c w → sat (V i) (serve_host config turns h c heard touched) w (λ w' _, still i h c w').
Proof.
  revert w heard touched. induction turns as [|turns IH]; intros w heard touched Hw; [apply sat_ret, Hw|].
  assert (link_asks i w (SrvSelect (revocation_check config))) as Hs.
  { destruct Hw as (? & [r ?] & _). by exists (h, c), r. }
  cbn [serve_host]. apply sat_leaving; [done|done|]. intros e w1 Ha1. apply (admitted_apart i h c w w1 Ha1) in Hw. clear Ha1 Hs.
  destruct e as [[[t| |code|]|]|[[m|code reason]|]|]; try (by apply sat_ret, Hw).
  - on. destruct (decode_host t) as [[v id sg|x1|b|]|]; try (by apply IH).
    + destruct (negb _).
      * on. by apply sat_ret, Hw.
      * apply sat_leaving; [done|apply Hw|]. intros ? w2 Ha. apply IH. by eapply admitted_apart.
    + apply sat_leaving; [done|apply Hw|]. intros ? w2 Ha. apply (admitted_apart i h c w0 w2 Ha) in Hw. on.
      destruct (bool_decide _); [|by apply IH]. on. apply sat_leaving; [done|by eapply admitted_asks|].
      intros ? w5 Ha5. apply IH. by eapply admitted_apart.
  - on. by apply IH.
  - apply sat_leaving; [done| |].
    { destruct m; try done. apply Hw. }
    intros [] w2 Ha; [apply IH; by eapply admitted_apart|]. apply sat_ret. eapply registered_apart; [exact Ha|apply Hw].
  - on. by apply sat_ret, Hw.
  - apply sat_op_bind; [done|]. intros x w3 (w2 & Hact & Hr). cbn [link_act] in Hact.
    assert (x = Err tt ∨ (∃ r, x = Ok (Some r)) → admitted i h c w3) as Hok.
    { intros Hx. apply (admitted_apart i h c w2 w3 Hr). destruct Hw as (Hreg & Hf & r & Hu).
      destruct Hact as [[-> ->]|[-> ->]]; [by split_and!; [..|exists r]|].
      destruct Hx as [?|[r' [= Hx]]]; [done|]. rewrite Hx. unfold admitted. simpl. rewrite upd_same. simpl.
      split_and!; [done|done|]. exists r. eapply authentic_grows; [| |exact Hu]; simpl; [by rewrite upd_same|by apply grows_one]. }
    assert (still i h c w3) as Hst.
    { eapply registered_apart; [exact Hr|]. destruct Hw as [Hreg _].
      destruct Hact as [[-> ->]|[-> ->]]; [done|]. destruct (active_host _ _); simpl; by rewrite upd_same. }
    destruct x as [[r|]|[]].
    + rewrite bool_decide_eq_false_2 by done. specialize (Hok (or_intror (ex_intro _ r eq_refl))). on.
      destruct (bool_decide _); [on; by apply sat_ret, Hok|by apply IH].
    + rewrite bool_decide_eq_true_2 by done. apply sat_leaving; [done|done|]. intros _ w4 Ha. apply sat_ret. by eapply registered_apart.
    + rewrite bool_decide_eq_false_2 by done. specialize (Hok (or_introl eq_refl)). on.
      destruct (bool_decide _); [on; by apply sat_ret, Hok|by apply IH].
Qed.

(** Verified, and not registered yet. *)
Definition verified i (r : HostRecord) w : Prop :=
  co_registered (lw_conns w i) = None ∧ co_found (lw_conns w i) = Some r ∧ authentic i r w.
Lemma verified_apart i r w w' : apart i w w' → verified i r w → verified i r w'.
Proof.
  intros Ha (Hr & Hf & Hu). pose proof Ha as (_ & Hc & _ & _). unfold verified. rewrite Hc.
  split_and!; [done|done|]. by eapply authentic_apart.
Qed.
Lemma welcomed_spec i turns r w :
  verified i r w → sat (V i) (welcomed config turns r) w (link_result i).
Proof.
  intros Hw. unfold welcomed. apply sat_leaving; [done|exists r; apply Hw|].
  intros [] w1 Ha1; cbn [negb]; apply (verified_apart i r w w1 Ha1) in Hw; [|intros _; apply Hw].
  apply sat_op_bind; [split; [apply Hw|]; exists r; split; [done|apply Hw]|].
  intros c w3 (w2 & (channel & rg & Hreg & ->) & Hr). set (h := hr_id r) in *.
  assert (admitted i h c w3) as Ha.
  { apply (admitted_apart _ _ _ _ _ Hr). destruct Hw as (_ & Hf & Hu). unfold admitted. simpl. rewrite upd_same. simpl.
    split_and!; [done|by rewrite Hf|]. exists r. eapply authentic_grows; [| |exact Hu]; simpl; [by rewrite upd_same|done]. }
  clear Hreg Hr Ha1. apply sat_leaving; [done|by eapply admitted_asks|]. intros _ w4 Ha4. apply (admitted_apart i h c w3 w4 Ha4) in Ha.
  on. on. apply sat_bind. eapply sat_mono; [by apply serve_host_spec|]. simpl. intros w7 [] Hst; [|done].
  apply sat_op_bind; [exact Hst|]. intros _ w9 (w8 & -> & Hr) _. eapply registered_apart; [exact Hr|]. simpl. by rewrite upd_same.
Qed.

Lemma unregistered_ends i n since w b : challenged i n since w → link_result i w b.
Proof. intros (_ & _ & _ & Hr & _) _. exact Hr. Qed.
Lemma refuse_spec i n since code reason w :
  challenged i n since w → sat (V i) (refuse code reason) w (link_result i).
Proof.
  intros Hc. unfold refuse. apply sat_leaving; [done|done|]. intros _ w' Ha. apply sat_ret.
  eapply unregistered_ends, challenged_apart; [exact Ha|exact Hc].
Qed.

Lemma found_challenged i n id r w :
  challenged i n [] w → active_host id (lw_db w) = Some r →
  challenged i n [Found i r] (logged (Found i r) (with_conn i (with_found (Some r) (lw_conns w i)) w)).
Proof.
  intros (Hw & Hl & Hn & Hr & l & l' & El & Hu & Hs & Hi) Hf. unfold challenged. simpl. rewrite upd_same. simpl.
  split_and!; [by constructor|done|done|done|]. exists (Found i r :: l), l'. rewrite El. split_and!; [done| |done|set_solver].
  intros j [?|?]%elem_of_cons; [done|]. by apply (Hu j).
Qed.
Lemma active_is_active id d r : active_host id d = Some r → record_is_active r = true.
Proof. unfold active_host. destruct (_ !! _); [|done]. destruct (record_is_active _) eqn:E; [|done]. by intros [= <-]. Qed.

Lemma answered_spec i n turns text version id s w :
  challenged i n [] w → unforged w text → decode_host text = Some (HAuth version id s) →
  sat (V i) (found ← op (SrvFind id);
             match found with
             | Ok (Some r) => if record_verifies config n s r then welcomed config turns r else unauthorized
             | _ => unauthorized
             end) w (link_result i).
Proof.
  intros Hc Ht Hd. apply sat_op_bind; [done|]. intros x w2 (w1 & Hact & Hr). cbn [link_act] in Hact.
  destruct Hact as [[-> ->]|[-> ->]]; [eapply refuse_spec, challenged_apart; [exact Hr|exact Hc]|].
  destruct (active_host id (lw_db w)) as [r|] eqn:Ef.
  - pose proof (found_challenged i n id r w Hc Ef) as Hc1. pose proof (challenged_apart _ _ _ _ _ Hr Hc1) as Hc2.
    destruct (record_verifies config n s r) eqn:Ev; [|by eapply refuse_spec].
    apply welcomed_spec, (verified_apart _ _ _ _ Hr). split_and!; [apply Hc1|simpl; by rewrite upd_same|].
    eapply verified_authentic; [exact Hc1| |exact Hd|by eapply active_is_active|exact Ev].
    intros v' h' s' sig k m Hd' Hs' Hk Hv. destruct (Ht v' h' s' sig k m Hd' Hs' Hk Hv) as (j & n' & o & Hj & Hm).
    exists j, n', o. split; [by right|done].
  - eapply (refuse_spec i n []), challenged_apart; [exact Hr|].
    eapply challenged_grows; [| | | |exact Hc]; simpl; [apply Hc|by rewrite upd_same|by rewrite upd_same|done].
Qed.

Definition unused i w : Prop := sound w ∧ lw_conns w i = mk_conn None None None.
Lemma connection_spec i turns w : unused i w → sat (V i) (connection config turns) w (link_result i).
Proof.
  intros [Hw Hi]. unfold connection. apply sat_op_bind; [simpl; by rewrite Hi|].
  intros n w2 (w1 & [(Hl & Hn & Hs) ->] & Hr).
  assert (challenged i n [] w2) as Hc.
  { eapply challenged_apart; [exact Hr|]. unfold challenged. simpl. rewrite upd_same, Hi. simpl.
    split_and!; [by constructor|done|done|done|]. exists [], (lw_history w). by split_and!. }
  apply sat_leaving; [done|done|]. intros sent w3 Ha3. apply (challenged_apart _ _ _ _ _ Ha3) in Hc.
  destruct sent; cbn [negb]; [|by eapply unregistered_ends].
  apply sat_leaving; [done|done|]. intros now w4 Ha4. apply (challenged_apart _ _ _ _ _ Ha4) in Hc.
  apply sat_bind. eapply sat_mono; [by apply server_text_spec|]. simpl. clear -Hc.
  intros w5 [[text|]|] [Hc5 Ht]; [|by eapply refuse_spec|by eapply unregistered_ends].
  destruct (decode_host text) as [[v id s| | |]|] eqn:Ed; try (by eapply refuse_spec).
  destruct (negb _); [by eapply refuse_spec|]. eapply answered_spec; [done|by apply Ht|exact Ed].
Qed.
Lemma connect_spec i turns address w : unused i w → sat (V i) (connect config turns address) w (link_result i).
Proof.
  intros Hi. unfold connect. apply sat_leaving; [done|done|]. intros allowed w' Ha.
  assert (unused i w') as Hi'.
  { destruct Hi as [Hs Hi]. split; [by eapply sound_apart|]. destruct Ha as (_ & -> & _). done. }
  destruct allowed; [by apply connection_spec|]. apply sat_ret. intros _. by rewrite (proj2 Hi').
Qed.

(** ** A link *)

(** The link's own state, with instants of the past. *)
Definition past i w : Prop := ∀ t c, hl_tried (lw_links w i) = Some (t, c) → t ≤ lw_clock w.
Definition idle_conn i w : Prop := co_registered (lw_conns w i) = None.
Definition between i w : Prop := past i w ∧ idle_conn i w.
Definition in_session i (c : CoordinatorConfig) (u : CoordinatorUrl) w : Prop :=
  between i w ∧ hl_url (lw_links w i) = Some u ∧ ∃ t, hl_tried (lw_links w i) = Some (t, c).
Lemma rested_apart i w w' : apart i w w' → rested i w → rested i w'.
Proof. intros (Hc & _ & Hl & _) H t c. rewrite Hl. intros H1 H2. specialize (H t c H1 H2). lia. Qed.
Lemma between_apart i w w' : apart i w w' → between i w → between i w'.
Proof.
  intros (Hc & Hn & Hl & _) [H Hi]. split; [|unfold idle_conn; by rewrite Hn].
  intros t c. rewrite Hl. intros H1. specialize (H t c H1). lia.
Qed.
Lemma in_session_apart i c u w w' : apart i w w' → in_session i c u w → in_session i c u w'.
Proof. intros Ha (Hb & Hu & Ht). pose proof Ha as (_ & _ & Hl & _). split; [by eapply between_apart|]. by rewrite Hl. Qed.

(** Programs of quiet calls that ask nothing. *)
Definition silent_call (e : lcall) : bool :=
  match e with
  | HstNow | HstUtc | HstRecord _ | HstSecret | HstRecv _ | HstSend _ | HstClose | HstPolicies | HstAttempts _
  | HstHardware | HstLoad | HstForget _ | HstNotify _ | HstSelect _ => true
  | _ => false
  end.
Lemma silent_spec {A} i (m : free lanswer A) w :
  within (λ e, silent_call e = true) m → sat (V i) m w (λ w' _, apart i w w').
Proof.
  intros Hm. eapply sat_mono; [apply (sat_within (V i) (λ e, silent_call e = true) (λ _, True) (apart i)); [| |done|done]|by intros ? ? [_ ?]].
  - intros s e _ He. by destruct e.
  - intros s e x s' _ He Hd. split; [done|]. apply (quiet_apart i s e x s'); [by destruct e|by destruct e|done].
Qed.
Ltac is_silent := repeat (within_step ltac:(done) || done).
Lemma rec_write_silent rc : within (λ e, silent_call e = true) (rec_write rc).
Proof. unfold rec_write. is_silent. Qed.
Lemma keep_alive_silent rc : within (λ e, silent_call e = true) (keep_alive rc).
Proof. unfold keep_alive, rec_write. is_silent. Qed.
Lemma busy_slots_silent total ps : within (λ e, silent_call e = true) (busy_slots total ps).
Proof. revert total. induction ps as [|p ps IH]; intros total; [done|]. cbn [busy_slots]. is_silent. Qed.
Lemma describe_silent host id ps : within (λ e, silent_call e = true) (describe host id ps).
Proof. unfold describe, hello. is_silent. Qed.
Lemma heartbeat_silent host ps : within (λ e, silent_call e = true) (heartbeat host ps).
Proof. unfold heartbeat. apply within_bind; [apply busy_slots_silent|]. is_silent. Qed.
Lemma deliver_silent wakes k : within (λ e, silent_call e = true) (deliver wakes k).
Proof. unfold deliver. is_silent. Qed.

(** A silent program, and on. *)
Lemma sat_silently {A B} i (m : free lanswer A) (k : A → free lanswer B) w (Q : lworld → B → Prop) :
  within (λ e, silent_call e = true) m → (∀ a w', apart i w w' → sat (V i) (k a) w' Q) → sat (V i) (m ≫= k) w Q.
Proof. intros Hm Hk. apply sat_bind. eapply sat_mono; [by apply silent_spec|]. simpl. intros w' a Ha. by apply Hk. Qed.

Section Host.
Context (host : Host) (wakes : WakeRoutes) {laws : WireLaws}.

Lemma decode_nonce_length t n : decode_nonce t = Some n → length n = NONCE_LEN.
Proof.
  unfold decode_nonce, array_of. destruct (b64_decode t); [|done]. simpl. case_bool_decide as E; [|done]. by intros [= <-].
Qed.
Lemma host_text_spec i turns deadline w :
  sat (V i) (host_text turns deadline) w (λ w' x, apart i w w' ∧ x ≠ Some (Err Reconfigured)).
Proof.
  revert w. induction turns as [|turns IH]; intros w; [by apply sat_ret|]. cbn [host_text].
  apply sat_leaving; [done|done|]. intros x w1 Ha. destruct x as [[[t| |code|]|]|]; try (by apply sat_ret).
  - eapply sat_mono; [apply IH|]. simpl. intros w2 x [Ha2 Hx]. split; [by etransitivity|done].
  - apply sat_ret. split; [done|]. by repeat case_bool_decide.
Qed.
Lemma within_handshake_spec i turns w :
  sat (V i) (within_handshake turns) w (λ w' x, apart i w w' ∧ x ≠ Some (Err Reconfigured)).
Proof.
  unfold within_handshake. apply sat_leaving; [done|done|]. intros now w1 Ha.
  eapply sat_mono; [apply host_text_spec|]. simpl. intros w2 x [Ha2 Hx]. split; [by etransitivity|done].
Qed.
Lemma handshake_spec i c u turns k w :
  in_session i c u w → holds i k →
  sat (V i) (handshake turns u (cc_host_id c) k) w (λ w' x, in_session i c u w' ∧ x ≠ Some (Err Reconfigured)).
Proof.
  intros Hw Hk. unfold handshake. apply sat_bind. eapply sat_mono; [apply within_handshake_spec|].
  intros w1 x [Ha1 Hx]. apply (in_session_apart _ _ _ _ _ Ha1) in Hw.
  destruct x as [[t|e]|]; try (apply sat_ret; split; [done|congruence]).
  destruct (decode_server t) as [[v n| | |]|]; try (by apply sat_ret). destruct (negb _); [by apply sat_ret|].
  destruct (decode_nonce n) as [n'|] eqn:En; [|by apply sat_ret].
  apply sat_leaving; [done|split_and!; [done|by eapply decode_nonce_length|]; exists u; split; [apply Hw|done]|].
  intros s w2 Ha2. apply (in_session_apart _ _ _ _ _ Ha2) in Hw.
  apply sat_leaving; [done|done|]. intros [] w3 Ha3; cbn [negb]; apply (in_session_apart _ _ _ _ _ Ha3) in Hw; [|by apply sat_ret].
  apply sat_bind. eapply sat_mono; [apply within_handshake_spec|]. intros w4 y [Ha4 Hy]. apply (in_session_apart _ _ _ _ _ Ha4) in Hw.
  destruct y as [[t'|e]|]; apply sat_ret; (split; [done|]); [|congruence|done]. by destruct (decode_server t') as [[]|].
Qed.

(** How a session leaves its link. *)
Definition left_link i w (x : option (Recorder * SessionEnd)) : Prop :=
  ∀ rc e, x = Some (rc, e) → between i w ∧ (e = Reconfigured → rested i w).
Lemma reads_config_between i x w w' :
  does (V i) w HstConfigured x w' → between i w → between i w'.
Proof.
  intros (w1 & -> & Hr) [Hp Hi]. apply (between_apart _ _ _ Hr). split; [|exact Hi].
  intros t c. simpl. rewrite upd_same. apply Hp.
Qed.
Lemma reads_config_rested i x w w' :
  does (V i) w HstConfigured x w' → rested i w → rested i w'.
Proof.
  intros (w1 & -> & Hr) H. apply (rested_apart _ _ _ Hr). intros t c. simpl. rewrite upd_same. simpl.
  intros Ht Hc. apply orb_false_iff in Hc as [Hc _]. by apply (H t c).
Qed.
(** Another setting: the link may be tried at once. *)
Lemma reconfigured_rested i c t x w w' :
  does (V i) w HstConfigured x w' → hl_tried (lw_links w i) = Some (t, c) → x ≠ Ok (Some c) → rested i w'.
Proof.
  intros (w1 & -> & Hr) Ht Hx. apply (rested_apart _ _ _ Hr). intros t' c'. simpl. rewrite upd_same. simpl.
  rewrite Ht. intros [= <- <-] Hc. rewrite bool_decide_eq_false_2 in Hc by done. by rewrite orb_true_r in Hc.
Qed.
Lemma same_config i c u x w w' :
  does (V i) w HstConfigured x w' → in_session i c u w → in_session i c u w'.
Proof.
  intros Hd Hw. destruct Hw as (Hb & Hu & t & Ht). split; [by eapply reads_config_between|].
  destruct Hd as (w1 & -> & (_ & _ & Hl & _)). rewrite Hl. simpl. rewrite upd_same. split; [done|by exists t].
Qed.

Lemma serving_spec i c u turns interval described rc w :
  in_session i c u w → sat (V i) (serving host wakes turns c interval described rc) w (left_link i).
Proof.
  revert described rc w. induction turns as [|turns IH]; intros described rc w Hw; [by apply sat_ret|].
  assert (∀ w' rc' e, apart i w w' → e ≠ Reconfigured → left_link i w' (Some (rc', e))) as Hend.
  { intros w' rc' e Ha He rc2 e2 [= <- <-]. split; [|done]. eapply between_apart; [exact Ha|apply Hw]. }
  cbn [serving]. apply sat_leaving; [done|done|]. intros e w1 Ha1.
  assert (∀ rc' e, e ≠ Reconfigured → sat (V i) (mret (Some (rc', e))) w1 (left_link i)) as Hend1.
  { intros rc' e' He. by apply sat_ret, Hend. }
  assert (in_session i c u w1) as Hw1 by (by eapply in_session_apart).
  destruct e as [[[t| |code|]|]|o|]; try (by apply Hend1); [| |apply Hend1; by repeat case_bool_decide|].
  - apply sat_silently.
    { destruct (decode_server t) as [[| |k|]|]; [done|done|apply deliver_silent|done|done]. }
    intros b w2 Ha2. apply sat_silently; [destruct b; [unfold rec_woke; is_silent|done]|].
    intros rc' w3 Ha3. apply IH. eapply in_session_apart; [exact Ha3|]. by eapply in_session_apart.
  - by apply IH.
  - apply sat_op_bind; [done|]. intros x w2 Hd.
    match goal with |- context [negb ?b] => destruct b eqn:Ex end; cbn [negb].
    + pose proof (same_config i c u x w1 w2 Hd Hw1) as Hw2. clear Hend Hend1 Ha1 Hd Ex.
      assert (∀ w' rc', apart i w2 w' → sat (V i) (mret (Some (rc', Closed))) w' (left_link i)) as Hend.
      { intros w' rc' Ha. apply sat_ret. intros rc2 e2 [= <- <-]. split; [|done]. eapply between_apart; [exact Ha|apply Hw2]. }
      apply sat_silently; [unfold policies_or_none; is_silent|]. intros ps w3 Ha3.
      apply sat_silently; [destruct (negb _); [apply describe_silent|done]|]. intros ok w4 Ha4.
      destruct ok; cbn [negb]; [|apply Hend; by etransitivity].
      apply sat_silently; [apply heartbeat_silent|]. intros beat w5 Ha5.
      apply sat_leaving; [done|done|]. intros ok w6 Ha6. assert (apart i w2 w6) as Ha.
      { by transitivity w3; [|transitivity w4; [|transitivity w5]]. }
      destruct ok; cbn [negb]; [|by apply Hend]. apply sat_silently; [apply keep_alive_silent|]. intros rc' w7 Ha7. apply IH.
      eapply in_session_apart; [exact Ha7|]. by eapply in_session_apart.
    + apply bool_decide_eq_false in Ex. destruct Hw1 as (Hb & Hu & t & Ht).
      pose proof (reconfigured_rested i c t x w1 w2 Hd Ht Ex) as Hr. pose proof (reads_config_between i x w1 w2 Hd Hb) as Hb2.
      apply sat_leaving; [done|done|]. intros _ w3 Ha3. apply sat_ret. intros rc2 e2 [= <- <-].
      split; [by eapply between_apart|intros _; by eapply rested_apart].
Qed.

Lemma serve_spec i c u turns interval rc w :
  in_session i c u w → sat (V i) (serve host wakes turns c interval rc) w (left_link i).
Proof.
  intros Hw. unfold serve. apply sat_silently; [unfold policies_or_none; is_silent|]. intros ps w1 Ha1.
  apply sat_silently; [apply describe_silent|]. intros ok w2 Ha2.
  assert (in_session i c u w2) as Hw2 by (eapply in_session_apart; [exact Ha2|]; by eapply in_session_apart).
  destruct ok; cbn [negb]; [by eapply serving_spec|]. apply sat_ret. intros rc2 e2 [= <- <-]. split; [apply Hw2|done].
Qed.
(** Over TLS, or on this machine. *)
Lemma starts_with_wss u : u_scheme (cu_origin u) = lit "https" → starts_with (lit "wss://") (connect_url u) = true.
Proof. intros H. unfold connect_url. rewrite bool_decide_eq_true_2 by done. by vm_compute. Qed.
Lemma checked_safely raw u tls :
  CoordinatorUrl_parse raw = Ok u → negb tls && starts_with (lit "wss://") (connect_url u) = false → safely u tls.
Proof.
  intros Hp Ht. destruct (parsed_url_safe _ _ Hp) as [Hs|(_ & h & Hh & Hl)]; [left|right; by exists h].
  split; [done|]. rewrite starts_with_wss in Ht by done. by destruct tls.
Qed.

Lemma session_spec i c turns tls rc w :
  between i w → rested i w → hl_config (lw_links w i) = Some c →
  sat (V i) (session host wakes turns c tls rc) w (left_link i).
Proof.
  intros Hb Hr Hc. unfold session.
  assert (∀ w' rc' e, apart i w w' → e ≠ Reconfigured → sat (V i) (mret (Some (rc', e))) w' (left_link i)) as Hend.
  { intros w' rc' e Ha He. apply sat_ret. intros rc2 e2 [= <- <-]. split; [by eapply between_apart|done]. }
  destruct (CoordinatorUrl_parse (cc_url c)) as [u|] eqn:Eu; [|by apply Hend].
  apply sat_bind, sat_op_bind; [done|]. intros x w1 Hd1. pose proof (quiet_apart i w HstSecret x w1 eq_refl I Hd1) as Ha1.
  destruct Hd1 as (w0 & [Hx ->] & _). apply sat_ret. destruct (x ≫= decode_signing_key) as [k|] eqn:Ek; [|by apply Hend].
  assert (holds i k) as Hk.
  { destruct x as [s|]; [|done]. by apply (Hx s). }
  match goal with |- context [negb tls && ?b] => destruct (negb tls && b) eqn:Et end; [by apply Hend|].
  apply sat_op_bind.
  { split; [by eapply rested_apart|]. split; [by eapply checked_safely|]. exists c. destruct Ha1 as (_ & _ & -> & _). done. }
  intros connected w3 (w2 & -> & Hr3).
  assert (in_session i c u w3) as Hw3.
  { apply (in_session_apart _ _ _ _ _ Hr3). destruct (between_apart _ _ _ Ha1 Hb) as [_ Hi].
    unfold in_session, between, past. simpl. rewrite upd_same. simpl. destruct Ha1 as (_ & _ & -> & _). rewrite Hc. simpl.
    split_and!; [by intros ? ? [= <- <-]|done|done|by eexists]. }
  clear Hend. destruct connected; cbn [negb]; [|apply sat_ret; intros ? ? [= <- <-]; split; [apply Hw3|done]].
  apply sat_bind. eapply sat_mono; [by apply (handshake_spec i c u)|].
  intros w4 [[interval|e]|] [Hw4 He]; [| |by apply sat_ret].
  - apply sat_silently; [unfold rec_connected; is_silent|]. intros rc' w5 Ha5. eapply serve_spec. by eapply in_session_apart.
  - apply sat_ret. intros ? ? [= <- <-]. split; [apply Hw4|]. by intros ->.
Qed.

(** ** Keeping the link up *)

Lemma back_off_spec i turns resume rc w :
  between i w → (∀ t c, hl_tried (lw_links w i) = Some (t, c) → t + RECONNECT_FIRST ≤ resume) →
  sat (V i) (back_off turns resume rc) w (λ w' x, ∀ rc', x = Some rc' → between i w' ∧ rested i w').
Proof.
  revert rc w. induction turns as [|turns IH]; intros rc w Hb Hr; [by apply sat_ret|]. cbn [back_off].
  assert (∀ w', apart i w w' → ∀ t c, hl_tried (lw_links w' i) = Some (t, c) → t + RECONNECT_FIRST ≤ resume) as Hr'.
  { intros w' (_ & _ & Hl & _). by rewrite Hl. }
  apply sat_op_bind; [done|]. intros now w1 Hd1. pose proof (quiet_apart i w HstNow now w1 eq_refl I Hd1) as Ha1.
  destruct Hd1 as (w0 & [Hn ->] & (Hc & _)). destruct (bool_decide (now < resume)) eqn:En; cbn [negb].
  2: { apply sat_ret. intros rc' _. split; [by eapply between_apart|]. intros t c Ht _. specialize (Hr' w1 Ha1 t c Ht).
    apply bool_decide_eq_false in En. simpl in Hc. lia. }
  clear En Hc Hn. apply sat_leaving; [done|done|]. intros now2 w2 Ha2. apply sat_leaving; [done|done|]. intros _ w3 Ha3.
  apply sat_op_bind; [done|]. intros x w4 Hd. assert (apart i w w3) as Ha by (by transitivity w1; [|transitivity w2]).
  pose proof (between_apart _ _ _ Ha Hb) as Hb3.
  assert (x = Err tt ∨ x = Ok None → sat (V i) (mret (Some rc)) w4 (λ w' y, ∀ rc', y = Some rc' → between i w' ∧ rested i w')) as Hend.
  { intros Hx. apply sat_ret. intros rc' _. split; [by eapply reads_config_between|].
    destruct (hl_tried (lw_links w3 i)) as [[t c]|] eqn:Et; [eapply reconfigured_rested; [exact Hd|exact Et|by destruct Hx as [-> | ->]]|].
    eapply reads_config_rested; [exact Hd|]. intros t c. by rewrite Et. }
  destruct x as [[c|]|[]]; [|apply Hend; by right|apply Hend; by left].
  apply sat_silently; [apply keep_alive_silent|]. intros rc' w5 Ha5. apply IH.
  - eapply between_apart; [exact Ha5|]. by eapply reads_config_between.
  - intros t c'. destruct Ha5 as (_ & _ & -> & _). destruct Hd as (w3' & -> & (_ & _ & -> & _)). simpl. rewrite upd_same. by apply Hr'.
Qed.

Lemma back_off_cap_range e : RECONNECT_FIRST ≤ back_off_cap e ≤ REJECTED_CAP.
Proof. unfold RECONNECT_FIRST, REJECTED_CAP, seconds. destruct e; vm_compute; split; discriminate. Qed.
Definition in_range_of_back_off (d : Duration) : Prop := RECONNECT_FIRST ≤ d ≤ REJECTED_CAP.
Lemma capped_range d e : in_range_of_back_off d → in_range_of_back_off (Z.min d (back_off_cap e)).
Proof. unfold in_range_of_back_off. pose proof (back_off_cap_range e). lia. Qed.

(** The wait after a session that ended by itself. *)
Lemma waiting_spec i steps e backoff started rc w {A} (k : Recorder → Duration → free lanswer A) (d : A) (Q : lworld → A → Prop) :
  between i w → in_range_of_back_off backoff →
  (∀ w', Q w' d) → (∀ rc' b w', between i w' → rested i w' → in_range_of_back_off b → sat (V i) (k rc' b) w' Q) →
  sat (V i) (rc ← rec_disconnected e rc;
             now ← op HstNow;
             let backoff := if bool_decide (STABLE_SESSION ≤ duration_since now started) then RECONNECT_FIRST else backoff in
             let backoff := Z.min backoff (back_off_cap e) in
             now ← op HstNow;
             wait ← op (HstJitter backoff);
             waited ← back_off steps (now + wait) rc;
             match waited with None => mret d | Some rc => k rc (Z.min (2 * backoff) (back_off_cap e)) end) w Q.
Proof.
  intros Hb Hrange Hd Hk. apply sat_silently; [unfold rec_disconnected; is_silent|]. intros rc1 w1 Ha1.
  apply sat_leaving; [done|done|]. intros now w2 Ha2. apply (between_apart _ _ _ Ha1), (between_apart _ _ _ Ha2) in Hb.
  set (b0 := if bool_decide _ then _ else _). cbv zeta.
  assert (in_range_of_back_off (Z.min b0 (back_off_cap e))) as Hr.
  { apply capped_range. unfold b0. destruct (bool_decide _); [|done]. unfold in_range_of_back_off. by vm_compute. }
  apply sat_op_bind; [done|]. intros now2 w4 (w3 & [Hn ->] & Ha4).
  assert (between i w4 ∧ ∀ t c, hl_tried (lw_links w4 i) = Some (t, c) → t ≤ now2) as [Hb4 Ht4].
  { destruct Hb as [Hp Hi]. destruct Ha4 as (Hc4 & Hn4 & Hl4 & _). simpl in *. unfold between, idle_conn, past. rewrite Hn4, Hl4.
    split; [split; [|done]|]; intros t c Ht; specialize (Hp t c Ht); lia. }
  apply sat_op_bind; [exact Hr|]. intros wait w6 (w5 & [Hwait ->] & Ha6). apply sat_bind.
  eapply sat_mono; [apply back_off_spec; [by eapply between_apart|]|].
  - destruct Ha6 as (_ & _ & -> & _). intros t c Ht. specialize (Ht4 t c Ht). unfold in_range_of_back_off in Hr. lia.
  - cbv beta. intros w7 [rc'|] H7; [|by apply sat_ret]. destruct (H7 rc' eq_refl) as [Hb7 Hr7]. apply Hk; [done|done|].
    unfold in_range_of_back_off in *. pose proof (back_off_cap_range e). unfold RECONNECT_FIRST, seconds in *. lia.
Qed.

Lemma maintaining_spec i turns steps tls backoff rc w :
  between i w → rested i w → in_range_of_back_off backoff →
  sat (V i) (maintaining host wakes turns steps tls backoff rc) w (λ _ b, b = false).
Proof.
  revert backoff rc w. induction turns as [|turns IH]; intros backoff rc w Hb Hr Hrange; [by apply sat_ret|]. cbn [maintaining].
  apply sat_op_bind; [done|]. intros x w1 Hd.
  pose proof (reads_config_between i x w w1 Hd Hb) as Hb1. pose proof (reads_config_rested i x w w1 Hd Hr) as Hr1.
  destruct x as [[c|]|[]].
  2-3: apply sat_leaving; [done|done|]; intros _ w2 Ha2; apply IH; [by eapply between_apart|by eapply rested_apart|done].
  apply sat_leaving; [done|done|]. intros started w2 Ha2. apply sat_bind.
  eapply sat_mono; [apply session_spec; [by eapply between_apart|by eapply rested_apart|]|].
  { destruct Ha2 as (_ & _ & -> & _). destruct Hd as (w0 & -> & (_ & _ & -> & _)). simpl. by rewrite upd_same. }
  intros w3 [[rc' e]|] Hl; [|by apply sat_ret]. destruct (Hl rc' e eq_refl) as [Hb3 He]. clear Hl.
  destruct (decide (e = Reconfigured)) as [->|Hne].
  - specialize (He eq_refl). apply sat_op_bind; [done|]. intros y w4 Hd4.
    pose proof (reads_config_between i y w3 w4 Hd4 Hb3) as Hb4. pose proof (reads_config_rested i y w3 w4 Hd4 He) as Hr4.
    apply sat_silently; [destruct y as [[?|]|?]; [unfold rec_disconnected; is_silent|done|done]|]. intros rc'' w5 Ha5.
    apply IH; [by eapply between_apart|by eapply rested_apart|]. unfold in_range_of_back_off. by vm_compute.
  - assert (∀ B (a b : B), match e with Reconfigured => a | _ => b end = b) as Hm by (by destruct e).
    rewrite Hm. apply (waiting_spec i steps e backoff started rc' w3 (λ rc b, maintaining host wakes turns steps tls b rc) false);
      [done|done|done|].
    intros rc'' b w' Hb' Hr' Hrange'. by apply IH.
Qed.
Lemma maintain_link_spec i turns steps w :
  between i w → rested i w → sat (V i) (maintain_link host wakes turns steps) w (λ _ b, b = false).
Proof.
  intros Hb Hr. unfold maintain_link. apply sat_leaving; [done|done|]. intros tls w1 Ha1. apply sat_leaving; [done|done|]. intros now w2 Ha2.
  apply maintaining_spec; [eapply between_apart; [exact Ha2|]; by eapply between_apart|eapply rested_apart; [exact Ha2|]; by eapply rested_apart|].
  unfold in_range_of_back_off. by vm_compute.
Qed.
End Host.

(** ** All of them together *)

(** The registry has only what connections that answered their challenge put there. *)
Definition registry_sound w : Prop :=
  ∀ h c, rg_hosts (lw_registry w) !! h = Some c →
    ∃ i r, co_registered (lw_conns w i) = Some (h, cn_connection c) ∧ hr_id r = h ∧ authentic i r w.
(** Tasks that are connections of the coordinator, or links of hosts. *)
Definition starts (p : pool (ans := lanswer) (A := bool)) : Prop :=
  ∀ i, (∃ turns address, p i = connect config turns address) ∨
       (∃ host wakes turns steps, p i = maintain_link host wakes turns steps).
Definition fresh_world w : Prop :=
  rg_hosts (lw_registry w) = ∅ ∧ lw_history w = [] ∧ ∀ i, lw_conns w i = mk_conn None None None ∧
  lw_links w i = mk_hlink None None None false.
#[local] Abbreviation steps_to := (clos_refl_trans_1n _ (pool_step link_act link_tick)).
#[local] Abbreviation settled_all := (all_settled link_asks link_act apart link_result).

Lemma starts_settled `{!WireLaws} p w : starts p → fresh_world w → settled_all (p, w).
Proof.
  intros Hp (_ & Hh & Hi) i w' Ha. cbn [fst snd] in Ha. destruct (Hi i) as [Hc Hl]. pose proof Ha as (_ & Hc' & Hl' & _).
  assert (sound w') as Hs by (eapply sound_apart; [exact Ha|]; unfold sound; simpl; by rewrite Hh). simpl.
  destruct (Hp i) as [(turns & address & ->)|(host & wakes & turns & steps & ->)].
  - apply connect_spec. split; [done|]. by rewrite Hc', Hc.
  - eapply sat_mono; [apply (maintain_link_spec host wakes)|by intros w1 b -> ?].
    + split; [intros t c; by rewrite Hl', Hl|]. red. by rewrite Hc', Hc.
    + intros t c. by rewrite Hl', Hl.
Qed.
Lemma registry_hosts_wake a b c (r : Registry) : rg_hosts (wake_for_job a b c r).1 = rg_hosts r.
Proof. unfold wake_for_job. by destruct (foldl _ _ _). Qed.
Lemma set_hello_lookup h n x r k c : rg_hosts (set_hello h n x r) !! k = Some c →
  ∃ c', rg_hosts r !! k = Some c' ∧ cn_connection c' = cn_connection c.
Proof.
  unfold set_hello. destruct (rg_hosts r !! h) as [c0|] eqn:E; [|by exists c]. case_bool_decide; [|by exists c].
  simpl. intros [(<- & <-)|[_ ?]]%lookup_insert_Some; [by exists c0|by exists c].
Qed.
Lemma set_heartbeat_lookup h n x r k c : rg_hosts (set_heartbeat h n x r) !! k = Some c →
  ∃ c', rg_hosts r !! k = Some c' ∧ cn_connection c' = cn_connection c.
Proof.
  unfold set_heartbeat. destruct (rg_hosts r !! h) as [c0|] eqn:E; [|by exists c]. case_bool_decide; [|by exists c].
  simpl. intros [(<- & <-)|[_ ?]]%lookup_insert_Some; [by exists c0|by exists c].
Qed.
Lemma unregister_lookup h n r k c : rg_hosts (unregister h n r) !! k = Some c →
  rg_hosts r !! k = Some c ∧ (k, cn_connection c) ≠ (h, n).
Proof.
  unfold unregister. destruct (rg_hosts r !! h) as [c0|] eqn:E; [|intros H; split; [done|congruence]].
  case_bool_decide as Hn; simpl; [intros [? ?]%lookup_delete_Some; split; [done|congruence]|].
  intros H. split; [done|]. intros [= -> Hc]. rewrite E in H. injection H as ->. done.
Qed.
Lemma register_lookup h ch r r' x k c : register h ch r = (r', x) → rg_hosts r' !! k = Some c →
  (k = h ∧ cn_connection c = x) ∨ (k ≠ h ∧ rg_hosts r !! k = Some c).
Proof.
  unfold register. intros [= <- <-]. simpl. intros [(<- & <-)|[? ?]]%lookup_insert_Some; [by left|right; by split].
Qed.

(** What keeps the entries, keeps the invariant. *)
Lemma registry_sound_keep w w' :
  (∀ k c, rg_hosts (lw_registry w') !! k = Some c →
     ∃ c', rg_hosts (lw_registry w) !! k = Some c' ∧ cn_connection c' = cn_connection c) →
  (∀ i, co_registered (lw_conns w' i) = co_registered (lw_conns w i)) →
  (∀ i r, authentic i r w → authentic i r w') → registry_sound w → registry_sound w'.
Proof.
  intros Hg Hc Ha H k c Hk. destruct (Hg k c Hk) as (c' & Hk' & E). destruct (H k c' Hk') as (i & r & Hi & Hr & Hu).
  exists i, r. rewrite Hc, <-E. split_and!; [done|done|by apply Ha].
Qed.
Lemma act_authentic i w e x w' j r : link_asks i w e → link_act i w e x w' → authentic j r w → authentic j r w'.
Proof.
  intros Ha H Hu. destruct (act_grows i w e x w' Ha H) as [_ Hg]. eapply authentic_grows; [|exact Hg|exact Hu].
  destruct (decide (i = j)) as [->|Hij]; [|by destruct (act_apart i j w e x w' Hij Ha H) as (_ & -> & _)].
  destruct e; cbn [link_act link_asks] in H, Ha.
  all: try (lazymatch type of H with _ ∧ _ => destruct H as [? ->] | _ = _ => subst w' end; simpl; by rewrite ?upd_same).
  - exfalso. destruct Hu as (_ & n & ? & ? & Hn & _). congruence.
  - destruct H as [[_ ->]|[_ ->]]; [done|]. destruct (active_host _ _); simpl; by rewrite upd_same.
  - destruct H as (ch & r' & _ & ->). simpl. by rewrite upd_same.
  - by destruct H as (now & ->).
  - by destruct H as (t1 & _ & _ & ->).
  - by destruct H as (t1 & _ & _ & ->).
Qed.
Lemma act_registry_sound i w e x w' : link_asks i w e → link_act i w e x w' → registry_sound w → registry_sound w'.
Proof.
  intros Ha H Hw. pose proof (λ j r, act_authentic i w e x w' j r Ha H) as Hu.
  assert (∀ k c, rg_hosts (lw_registry w) !! k = Some c →
    ∃ c', rg_hosts (lw_registry w) !! k = Some c' ∧ cn_connection c' = cn_connection c) as Hid by (intros k c; by exists c).
  destruct e; cbn [link_act link_asks] in H, Ha.
  all: try (lazymatch type of H with _ ∧ _ => destruct H as [? ->] | _ = _ => subst w' end;
            by apply (registry_sound_keep w)).
  - destruct H as [? ->]. apply (registry_sound_keep w); [done| |done|done]. intros j. simpl. unfold upd. by destruct (decide (j = i)) as [->|].
  - apply (registry_sound_keep w); [|intros j|done|done]; (destruct H as [[_ ->]|[_ ->]]; [done|]; destruct (active_host _ _)); simpl; try done;
      unfold upd; by destruct (decide (j = i)) as [->|].
  - destruct H as (ch & r' & Hreg & ->). destruct Ha as [Hn (r & <- & Hr)]. intros k c Hk. simpl in Hk.
    destruct (register_lookup _ _ _ _ _ _ _ Hreg Hk) as [[-> <-]|[Hne Hk']].
    + exists i, r. simpl. rewrite upd_same. split_and!; [done|done|by apply Hu].
    + destruct (Hw k c Hk') as (j & r2 & Hj & E & Hr2). exists j, r2. simpl. rewrite upd_other by congruence.
      split_and!; [done|done|by apply Hu].
  - subst w'. intros k c Hk. simpl in Hk. apply unregister_lookup in Hk as [Hk Hne].
    destruct (Hw k c Hk) as (j & r2 & Hj & E & Hr2). exists j, r2. simpl. rewrite upd_other by congruence.
    split_and!; [done|done|by apply Hu].
  - subst w'. apply (registry_sound_keep w); [|done|done|done]. intros k c. apply set_hello_lookup.
  - subst w'. apply (registry_sound_keep w); [|done|done|done]. intros k c. apply set_heartbeat_lookup.
  - destruct H as (now & ->). by apply (registry_sound_keep w).
  - destruct H as (t1 & _ & _ & ->). by apply (registry_sound_keep w).
  - destruct H as (t1 & _ & _ & ->). by apply (registry_sound_keep w).
Qed.
Lemma tick_registry_sound w w' : link_tick w w' → registry_sound w → registry_sound w'.
Proof.
  destruct 1 as [w t Ht|w a b c|w d]; intros H; apply (registry_sound_keep w); try done.
  all: try (by intros k c0; exists c0).
  intros k c0. simpl. rewrite registry_hosts_wake. by exists c0.
Qed.
Lemma reachable_sound c c' : steps_to c c' → settled_all c → registry_sound c.2 → registry_sound c'.2 ∧ settled_all c'.
Proof.
  induction 1 as [c|c c1 c2 Hs _ IH]; intros Ha Hr; [done|]. apply IH.
  - eapply (pool_step_settled link_asks link_act link_tick apart link_result act_apart tick_apart); [exact Hs|exact Ha].
  - destruct Hs as [p s i e k x s' Hi Hact|p s s' Ht]; simpl in *; [|by eapply tick_registry_sound].
    eapply act_registry_sound; [|exact Hact|exact Hr]. specialize (Ha i). simpl in Ha. rewrite Hi in Ha.
    by destruct (Ha s (reflexivity s)).
Qed.

(** C20: Whatever the network delivers, short of a signature a host's key never made, and
    however connections, links, deliveries and revocations interleave: every host in the
    registry was put there by a connection that speaks for it: the coordinator issued a
    nonce to that connection and to no other, and afterwards found the host's record
    active and got the nonce signed, for its own origin, by a holder of the record's
    key. A connection welcomes and registers only then, and once; changes only its own
    entry; waits for more only while the last check found its host; and one that is over
    has given its entry back. A link signs with its host's key, and only challenges of
    the coordinator its host joined, connects to that one over TLS or on this machine,
    and, unless the setting changed, no sooner than a second after it last tried. *)
Theorem only_authentic_hosts_registered `{!WireLaws} p w c :
  starts p → fresh_world w → steps_to (p, w) c →
  registry_sound c.2 ∧
  ∀ i, match c.1 i with Op e k => link_asks i c.2 e | Ret over => link_result i c.2 over end.
Proof.
  intros Hp Hw Hs. destruct (reachable_sound (p, w) c Hs) as [Hr Ha].
  - by apply starts_settled.
  - intros h x. simpl. rewrite (proj1 Hw), lookup_empty. done.
  - split; [exact Hr|]. intros i. specialize (Ha i c.2 (reflexivity c.2)).
    destruct (c.1 i); [exact Ha|by destruct Ha].
Qed.
End LinkSafety.
