(* ===== verification/LinkRuns.v ===== *)
(** * Links, executed

    A coordinator and a host with toy cryptography, for which the assumptions on the
    network hold: the host connects, answers the challenge, and is registered. What a
    host is told of the machines it may be; what an enrollment stores; and how often a
    link that keeps failing tries. *)

From Stdlib Require Import Relations Eqdep_dec.
From stdpp Require Import strings.
From S2P Require Import Prelude RustStr Ordered Model Path Workspace Execution Host Attempt.
From S2P Require Import Labels Policy Capacity Github Fence Coordinator Effects Tasks Protocol Link LinkSafety.
#[local] Open Scope Z_scope.
#[local] Open Scope rust_scope.

(** ** Toy cryptography *)

Definition toy_key : Set := { l : list N | bool_decide (length l = 32%nat) = true }.
Lemma toy_key_eq (k k' : toy_key) : proj1_sig k = proj1_sig k' → k = k'.
Proof. destruct k as [l H], k' as [l' H']. simpl. intros <-. f_equal. apply UIP_dec, bool_eq_dec. Qed.
Definition toy_key_of (l : list N) : option toy_key :=
  match decide (bool_decide (length l = 32%nat) = true) with left H => Some (l ↾ H) | right _ => None end.
Lemma toy_key_of_key k : toy_key_of (proj1_sig k) = Some k.
Proof.
  unfold toy_key_of. destruct (decide _) as [H|H]; [|by destruct k]. f_equal. by apply toy_key_eq.
Qed.
Lemma toy_length (k : toy_key) : length (proj1_sig k) = 32%nat.
Proof. destruct k as [l H]. exact (bool_decide_eq_true_1 _ H). Qed.
Definition zeros : toy_key := replicate 32 0%N ↾ eq_refl.
Definition toy_origin : str := lit "https://c".
Definition toy_url : Url := mk_url (lit "https") (Some (Domain (lit "c"))) [] None toy_origin.

(** A text is the host's letter and a signature, or a letter and a nonce. *)
#[global] Instance toy : Wire := {|
  skey := toy_key; vkey := toy_key; esig := list N;
  verifying_key k := k;
  key_of_seed l := default zeros (toy_key_of l);
  vkey_of := toy_key_of; is_weak _ := false; vkey_bytes k := proj1_sig k; skey_bytes k := proj1_sig k;
  ed_sign k m := proj1_sig k ++ m; esig_bytes s := s; esig_of := Some;
  verify_strict k m s := bool_decide (s = proj1_sig k ++ m);
  b64_encode l := l; b64_decode := Some;
  host_from_str t := match t with id :: s => Some (HAuth PROTOCOL_VERSION [id] s) | [] => None end;
  server_from_str t :=
    match t with 0%N :: n => Some (Challenge PROTOCOL_VERSION n) | _ => Some (Welcome PROTOCOL_VERSION 15) end;
  enroll_from_slice _ := None;
  url_parse s := if bool_decide (s = toy_origin) then Some toy_url else None;
|}.
#[global] Instance toy_laws : WireLaws.
Proof.
  split; simpl; try done.
  - intros k m. by apply bool_decide_eq_true.
  - intros v. split; [apply toy_length|apply toy_key_of_key].
  - intros k. split; [apply toy_length|]. by rewrite toy_key_of_key.
  - intros raw u u'. do 2 (case_bool_decide; [|done]). by intros [= <-] [= <-].
Qed.

(** ** A coordinator, a host, and a network that passes the messages on *)

Definition ex_record : HostRecord := mk_record [65%N] (lit "host") (lit "host") (proj1_sig zeros) 0 None None.
Definition ex_config : Config := Config_new toy_origin.
Definition ex_holds (j : nat) (k : toy_key) : Prop := j = 1%nat ∧ k = zeros.
Definition ex_setting : CoordinatorConfig := mk_cconfig 1 toy_origin [65%N] (lit "host") 0.
Definition ex_world : lworld :=
  mk_lworld 0 (mk_cdb {[ [65%N] := ex_record ]} ∅) (mk_registry ∅ 0 ∅) (λ _, mk_conn None None None)
    (λ _, mk_hlink None None None false) [].
Definition ex_nonce : list N := replicate 32 7%N.

Lemma toy_unforged holds w j (k : toy_key) n o (id : char) : Signed j k n o ∈ lw_history w →
  unforged holds w (id :: sign_challenge k n o).
Proof.
  intros Hs version h s sig k' m Hd Hsig _ Hv. unfold decode_host in Hd. destruct (bool_decide _); [done|].
  injection Hd as <- <- <-. injection Hsig as <-. apply bool_decide_eq_true_1 in Hv.
  apply app_inj_1 in Hv as [Hk Hm]; [|by rewrite !toy_length]. apply (toy_key_eq k k') in Hk. subst k'. by exists j, n, o.
Qed.

Lemma ex_secret : decode_signing_key (encode_signing_key zeros) = Some zeros.
Proof. vm_compute. reflexivity. Qed.

(** Task 0 is a connection, task 1 a link; a message that was sent is delivered. *)
Definition net (i : nat) (w : lworld) (e : lcall) : option (lworld * lanswer e) :=
  let c := lw_conns w i in let l := lw_links w i in
  match e return option (lworld * lanswer e) with
  | SrvNow | HstNow => Some (with_clock (lw_clock w) w, lw_clock w)
  | HstUtc => Some (w, 0)
  | SrvAllow _ | SrvSend _ | HstSend _ | HstTls => Some (w, true)
  | SrvRandom =>
      match lw_history w with
      | [] => Some (logged (Issued i ex_nonce) (with_conn i (with_nonce ex_nonce c) w), ex_nonce)
      | _ => None
      end
  | SrvRecv _ =>
      match lw_history w with
      | Signed _ k n o :: _ => Some (w, Some (Some (FText (65%N :: sign_challenge k n o))))
      | _ => None
      end
  | SrvFind id =>
      let found := active_host id (lw_db w) in
      Some ((match found with Some r => logged (Found i r) | None => λ w, w end) (with_conn i (with_found found c) w), Ok found)
  | SrvRegister h =>
      let '(r, x) := register h 0%N (lw_registry w) in
      Some (with_registry r (with_conn i (with_registered (Some (h, x)) c) w), x)
  | SrvTouch h => Some (with_db (touch h 0 (lw_db w)) w, tt)
  | HstConfigured => Some (with_link i (reads_config (Ok (Some ex_setting)) l) w, Ok (Some ex_setting))
  | HstSecret => if decide (i = 1%nat) then Some (w, Some (encode_signing_key zeros)) else None
  | HstConnect u _ => Some (with_link i (tries (lw_clock w) u l) w, true)
  | HstRecv _ => Some (w, Some (Some (FText (0%N :: ex_nonce))))
  | HstSign k n o => Some (logged (Signed i k n o) w, sign_challenge k n o)
  | _ => None
  end.
Lemma net_acts i w e w' x : net i w e = Some (w', x) → link_act ex_holds i w e x w'.
Proof.
  destruct e; cbn [net link_act]; intros H; simplify_eq; try done.
  - destruct (lw_history w) eqn:E; [|done]. simplify_eq. split; [|done]. unfold new_nonce. rewrite E.
    split_and!; [done|intros ? ?%elem_of_nil; done|intros ? ? ? ?%elem_of_nil; done].
  - destruct (lw_history w) as [|[| |j k n o] h] eqn:E; try done. simplify_eq.
    split; [|done]. intros f [= <-] t [= <-]. apply (toy_unforged _ _ j k). rewrite E. by left.
  - by right.
  - destruct (register _ _ _) as [r y] eqn:E. simplify_eq. by exists 0%N, r.
  - by exists 0.
  - destruct (decide _) as [->|]; [|done]. simplify_eq. split; [|done]. intros s k [= <-] Hk. split; [done|].
    change (decode_signing_key (encode_signing_key zeros) = Some k) in Hk. rewrite ex_secret in Hk. by injection Hk as <-.
Qed.

Definition ex_host : Host :=
  mk_host 1%N (lit "host") Linux X64 4 Login (mk_RefreshInterval 60) None 0.
Definition ex_pool : pool (ans := lanswer) (A := bool) :=
  λ i, match i with 1%nat => maintain_link ex_host (mk_routes [] false) 5 5 | _ => connect ex_config 5 (lit "peer") end.
(** The challenge, the answer, the check, and the registration. *)
Definition ex_schedule : list nat :=
  [0; 0; 0; 0; 1; 1; 1; 1; 1; 1; 1; 1; 1; 1; 0; 0; 0; 0]%nat.

Lemma only_authentic_hosts_registered_witness :
  ∃ c, clos_refl_trans_1n _ (pool_step (link_act ex_holds) link_tick) (ex_pool, ex_world) c ∧
    is_Some (rg_hosts (lw_registry c.2) !! [65%N]) ∧ registry_sound ex_config ex_holds c.2.
Proof.
  destruct (play_reaches (link_act (W:=toy) ex_holds) link_tick net (λ _, True) (λ i w e w' x _ H, conj (net_acts i w e w' x H) I)
    (λ c, rg_hosts (lw_registry c.2) !! [65%N]) ex_schedule (ex_pool, ex_world)
    (Some (mk_connected 0 0%N None None))) as (c & Hs & Hl); [exact I|vm_compute; reflexivity|].
  exists c. split; [exact Hs|]. split; [rewrite Hl; by eexists|].
  apply (only_authentic_hosts_registered (W:=toy) ex_config ex_holds ex_pool ex_world c); [| |exact Hs].
  - intros i. unfold ex_pool. destruct i as [|[|i]]; [left|right|left]; by repeat eexists.
  - done.
Defined.

(** ** Enrollment *)

(** A host is stored with a key the coordinator can use, for the code and name of an
    invite, and nothing is stored otherwise. *)
Lemma enroll_request_stores `{W : Wire} config parse_ip sha hex peer forwarded body instant now id s s' status r :
  enroll_request config parse_ip sha hex peer forwarded body instant now id s = (s', (status, r)) →
  match r with
  | Some r => status = OK ∧ ∃ q, enroll_from_slice body = Some q ∧ is_Some (decode_public_key (er_public_key q)) ∧
      enroll sha hex (er_code q) (er_hostname q) (er_public_key q) now id s.2 = (s'.2, Ok r)
  | None => status ≠ OK ∧ s'.2 = s.2
  end.
Proof.
  unfold enroll_request. destruct (allow _ _ _) as [limiter allowed]. destruct (negb allowed); [by intros [= <- <- <-]|].
  destruct (enroll_from_slice body) as [q|]; [|by intros [= <- <- <-]]. destruct (negb _); [by intros [= <- <- <-]|].
  destruct (decode_public_key (er_public_key q)) as [v|] eqn:Ek; [|by intros [= <- <- <-]].
  rewrite bool_decide_eq_false_2 by done. destruct (enroll sha hex _ _ _ now id s.2) as [d [host|e]] eqn:Ee.
  - intros [= <- <- <-]. split; [done|]. exists q. rewrite Ek. by split_and!.
  - assert (d = s.2) as ->.
    { revert Ee. unfold enroll. repeat case_match; by intros [= <- ?]. }
    destruct e; intros [= <- <- <-]; by split.
Qed.
