(* ===== verification/HostLock.v ===== *)
(** * Locks of a host ([crates/platform/src/lock.rs], on Unix)

    A lock is an advisory lock ([flock]) on a file that is never removed. The guard
    unlocks before it closes, because a child forked meanwhile has a copy of its
    descriptor, and only in the process that acquired it, because such a copy may be
    dropped too. The file records who holds it, for messages. *)

From stdpp Require Import strings.
From S2P Require Import Prelude RustStr Ordered Model Github Effects Process Archive.
#[local] Open Scope Z_scope.
#[local] Open Scope rust_scope.

Inductive LockKind := SingleInstance | Allocation | CredentialRenewal | DependencyCache | DockerCleanup | GitCache | Update.
#[global] Instance LockKind_eq_dec : EqDecision LockKind.
Proof. solve_decision. Defined.
Definition lock_file_name (k : LockKind) : str :=
  match k with
  | SingleInstance => lit "agent.lock"
  | Allocation => lit "allocation.lock"
  | CredentialRenewal => lit "credential-renewal.lock"
  | DependencyCache => lit ".lock"
  | DockerCleanup => lit ".sweep.lock"
  | GitCache => lit ".git-cache.lock"
  | Update => lit "update.lock"
  end.

Record LockHolder := mk_holder {
  lh_identity : ProcessIdentity;
  lh_executable : option str;
  lh_acquired_at : Timestamp;
  lh_lock : LockKind;
}.
Inductive LockError :=
  | LockHeld (kind : LockKind) (p : path) (holder : option LockHolder) (refused_with : option Z)
  | LockIo (p : path)
  | LockIdentity (kind : LockKind).
Inductive Acquired := AcquiredYes | AcquiredNo (refused_with : option Z).

(** An open file is named by its description, which forked copies of it share. *)
Record HostLock := mk_lock { hl_file : N; hl_owner_pid : Z; hl_path : path; hl_kind : LockKind }.

Definition RETRY_INTERVAL : Duration := seconds 1 / 40.
Definition EWOULDBLOCK : Z := 11.

(** ** Calls *)

(** An error is its code, if it has one. *)
Inductive lkcall :=
  | LkMkdir (p : path)
  | LkOpen (p : path)                                (* for reading and writing, made if absent *)
  | LkFlock (file : N)                               (* LOCK_EX | LOCK_NB *)
  | LkUnlock (file : N) | LkClose (file : N)
  | LkSeek (file : N) | LkSetLen (file : N) | LkWrite (file : N) (h : LockHolder) | LkFlush (file : N) | LkSync (file : N)
  | LkReadHolder (p : path)                          (* the file's text, parsed *)
  | LkPid | LkSelf | LkExe | LkUtc
  | LkNow | LkSleep (d : Duration)
  | LkUse (g : HostLock)                             (* what the caller does under the guard *)
  | LkInherit.                                       (* a guard that a forked process is born with *)
Definition lkanswer (e : lkcall) : Type :=
  match e with
  | LkMkdir _ | LkFlock _ | LkUnlock _ | LkSeek _ | LkSetLen _ | LkWrite _ _ | LkFlush _ | LkSync _ => result () (option Z)
  | LkOpen _ => result N (option Z)
  | LkReadHolder _ => result (option LockHolder) (option Z)
  | LkPid => Z
  | LkSelf => result ProcessIdentity ()
  | LkExe => option str
  | LkUtc | LkNow => Timestamp
  | LkInherit => HostLock
  | _ => unit
  end.
#[global] Abbreviation lkprogram := (free lkanswer) (only parsing).
#[global] Abbreviation lkop e := (@op lkcall lkanswer e) (only parsing).

(** [sys] on Unix; on Linux both codes are one. *)
Definition is_contention (code : option Z) : bool := bool_decide (code = Some EWOULDBLOCK).
Definition try_lock (file : N) : lkprogram (result Acquired (option Z)) :=
  x ← lkop (LkFlock file);
  mret (match x with
        | Ok _ => Ok AcquiredYes
        | Err code => if is_contention code then Ok (AcquiredNo code) else Err code
        end).
Definition EINTR : Z := 4.
(** [false] while it is still interrupted. *)
Fixpoint unlock (turns : nat) (file : N) : lkprogram bool :=
  match turns with
  | O => mret false
  | S turns =>
      x ← lkop (LkUnlock file);
      match x with
      | Ok _ => mret true
      | Err code => if bool_decide (code = Some EINTR) then unlock turns file else mret true
      end
  end.

(** ** The guard *)

(** [drop]: then the file closes. *)
Definition drop_lock (turns : nat) (g : HostLock) : lkprogram bool :=
  pid ← lkop LkPid;
  over ← (if bool_decide (pid = hl_owner_pid g) then unlock turns (hl_file g) else mret true);
  if (over : bool) then _ ← lkop (LkClose (hl_file g)); mret true else mret false.

Definition io_step {A} (p : path) (m : lkprogram (result A (option Z))) : lkprogram (result A LockError) :=
  x ← m; mret (match x with Ok a => Ok a | Err _ => Err (LockIo p) end).
Definition record_holder (g : HostLock) : lkprogram (result () LockError) :=
  self ← lkop LkSelf;
  match self with
  | Err _ => mret (Err (LockIdentity (hl_kind g)))
  | Ok identity =>
      exe ← lkop LkExe;
      utc ← lkop LkUtc;
      let file := hl_file g in let p := hl_path g in
      bind_ok (io_step p (lkop (LkSeek file))) (λ _,
      bind_ok (io_step p (lkop (LkSetLen file))) (λ _,
      bind_ok (io_step p (lkop (LkWrite file (mk_holder identity exe utc (hl_kind g))))) (λ _,
      bind_ok (io_step p (lkop (LkFlush file))) (λ _,
      io_step p (lkop (LkSync file))))))
  end.
Definition held_error (p : path) (k : LockKind) (refused_with : option Z) : lkprogram LockError :=
  x ← lkop (LkReadHolder p);
  mret (LockHeld k p (match x with Ok h => h | Err _ => None end) refused_with).

(** [None] while a guard is being dropped again. *)
Definition try_acquire_at (turns : nat) (p : path) (k : LockKind) : lkprogram (option (result HostLock LockError)) :=
  made ← (match path_parent p with Some parent => lkop (LkMkdir parent) | None => mret (Ok tt) end);
  match made with
  | Err _ => mret (Some (Err (LockIo p)))
  | Ok _ =>
      opened ← lkop (LkOpen p);
      match opened with
      | Err code => if is_contention code then e ← held_error p k code; mret (Some (Err e)) else mret (Some (Err (LockIo p)))
      | Ok file =>
          acquired ← try_lock file;
          match acquired with
          | Err _ => _ ← lkop (LkClose file); mret (Some (Err (LockIo p)))
          | Ok (AcquiredNo code) => e ← held_error p k code; _ ← lkop (LkClose file); mret (Some (Err e))
          | Ok AcquiredYes =>
              pid ← lkop LkPid;
              let g := mk_lock file pid p k in
              recorded ← record_holder g;
              match recorded with
              | Ok _ => mret (Some (Ok g))
              | Err e => over ← drop_lock turns g; mret (if (over : bool) then Some (Err e) else None)
              end
          end
      end
  end.
Definition is_held (e : LockError) : bool := match e with LockHeld _ _ _ _ => true | _ => false end.
Fixpoint acquiring (turns : nat) (p : path) (k : LockKind) (deadline : Timestamp) : lkprogram (option (result HostLock LockError)) :=
  match turns with
  | O => mret None
  | S turns' =>
      x ← try_acquire_at turns p k;
      match x with
      | Some (Err e) =>
          if is_held e then
            now ← lkop LkNow;
            if bool_decide (deadline ≤ now) then mret (Some (Err e))
            else _ ← lkop (LkSleep RETRY_INTERVAL); acquiring turns' p k deadline
          else mret (Some (Err e))
      | _ => mret x
      end
  end.
Definition acquire_at (turns : nat) (p : path) (k : LockKind) (wait : Duration) : lkprogram (option (result HostLock LockError)) :=
  now ← lkop LkNow; acquiring turns p k (now + wait).
Definition lock_path (state_dir : path) (k : LockKind) : path := path_push (lock_file_name k) state_dir.
Definition try_acquire (turns : nat) (state_dir : path) (k : LockKind) := try_acquire_at turns (lock_path state_dir k) k.
Definition acquire (turns : nat) (state_dir : path) (k : LockKind) (wait : Duration) := acquire_at turns (lock_path state_dir k) k wait.
Definition ALLOCATION_LOCK_WAIT : Duration := seconds 5.
Definition SINGLE_INSTANCE_SETTLE : Duration := seconds 1 / 4.
