(* ===== verification/LockSafety.v ===== *)
(** * Locks exclude

    Any number of processes with any number of threads take and drop the locks of
    [HostLock], fork, and die at any call, over the kernel's open files. Proved here: a
    guard in use owns the lock of its file, and the file names its process; no two
    threads that live use guards of one file; a thread that is done holds no lock, even
    when a forked child still has a copy of its file; and a lock is held only while a
    living process has such a copy. *)

From Stdlib Require Import Relations.
From stdpp Require Import strings fin_sets.
From S2P Require Import Prelude RustStr Ordered Model Github Effects Tasks Process Archive HostLock.
#[local] Open Scope Z_scope.
#[local] Open Scope rust_scope.

Record lockworld := mk_lockworld {
  kl_clock : Z;
  kl_dead : gset Z;                     (* processes that are gone *)
  kl_files : gmap N (path * nat);       (* open file descriptions: the file, and who opened it *)
  kl_fds : gset (Z * N);                (* descriptors of processes *)
  kl_lock : path → option N;            (* the description that has the file locked *)
  kl_text : path → option LockHolder;   (* what the file says *)
}.
Implicit Types (w : lockworld) (i j : nat) (o : N) (p : path) (q : Z).

Definition put {A} p (x : A) (f : path → A) : path → A := λ p', if decide (p' = p) then x else f p'.
Definition copied o (fds : gset (Z * N)) : Prop := set_Exists (λ x, x.2 = o) fds.
(** The kernel releases the lock of a description nobody has any more. *)
Definition kept (fds : gset (Z * N)) (lock : path → option N) : path → option N :=
  λ p, match lock p with Some o => if decide (copied o fds) then Some o else None | None => None end.
Definition at_time t w := mk_lockworld t (kl_dead w) (kl_files w) (kl_fds w) (kl_lock w) (kl_text w).
Definition with_fds fds w := mk_lockworld (kl_clock w) (kl_dead w) (kl_files w) fds (kept fds (kl_lock w)) (kl_text w).
Definition with_lock l w := mk_lockworld (kl_clock w) (kl_dead w) (kl_files w) (kl_fds w) l (kl_text w).
Definition with_text t w := mk_lockworld (kl_clock w) (kl_dead w) (kl_files w) (kl_fds w) (kl_lock w) t.
Definition opening o p i q w :=
  mk_lockworld (kl_clock w) (kl_dead w) (<[o := (p, i)]> (kl_files w)) ({[ (q, o) ]} ∪ kl_fds w) (kl_lock w) (kl_text w).
Definition dying q w :=
  let fds := filter (λ x, x.1 ≠ q) (kl_fds w) in
  mk_lockworld (kl_clock w) ({[ q ]} ∪ kl_dead w) (kl_files w) fds (kept fds (kl_lock w)) (kl_text w).

Section LockSafety.
Context (pid_of : nat → Z) (self_of : Z → ProcessIdentity).
Definition alive i w : Prop := pid_of i ∉ kl_dead w.
Definition opened i o p w : Prop := kl_files w !! o = Some (p, i).

(** ** The kernel *)

Definition lock_act i w (e : lkcall) : lkanswer e → lockworld → Prop :=
  let q := pid_of i in
  match e return lkanswer e → lockworld → Prop with
  | LkOpen p => λ x w', alive i w ∧
      match x with Ok o => kl_files w !! o = None ∧ (∀ p', kl_lock w p' ≠ Some o) ∧ w' = opening o p i q w | Err _ => w' = w end
  | LkFlock o => λ x w', alive i w ∧ ∀ p, opened i o p w →
      match x with
      | Ok _ => (kl_lock w p = None ∨ kl_lock w p = Some o) ∧ w' = with_lock (put p (Some o) (kl_lock w)) w
      | Err code => (is_contention code = true → ∃ o', kl_lock w p = Some o' ∧ o' ≠ o) ∧ w' = w
      end
  | LkUnlock o => λ x w', alive i w ∧ ∀ p, opened i o p w →
      match x with
      | Ok _ => w' = if decide (kl_lock w p = Some o) then with_lock (put p None (kl_lock w)) w else w
      | Err code => code = Some EINTR ∧ w' = w
      end
  | LkClose o => λ _ w', alive i w ∧ w' = with_fds (kl_fds w ∖ {[ (q, o) ]}) w
  | LkSetLen o => λ x w', alive i w ∧ ∀ p, opened i o p w →
      match x with Ok _ => w' = with_text (put p None (kl_text w)) w | Err _ => w' = w end
  | LkWrite o h => λ x w', alive i w ∧ ∀ p, opened i o p w →
      w' = with_text (put p (match x with Ok _ => Some h | Err _ => None end) (kl_text w)) w
  | LkPid => λ x w', alive i w ∧ x = q ∧ w' = w
  | LkSelf => λ x w', alive i w ∧ (∀ s, x = Ok s → s = self_of q) ∧ w' = w
  | LkNow => λ x w', alive i w ∧ kl_clock w ≤ x ∧ w' = at_time x w
  | LkSleep d => λ _ w', alive i w ∧ ∃ t, kl_clock w + d ≤ t ∧ kl_clock w ≤ t ∧ w' = at_time t w
  | LkInherit => λ g w', alive i w ∧ hl_owner_pid g ≠ q ∧
      (∃ j, opened j (hl_file g) (hl_path g) w ∧ pid_of j = hl_owner_pid g) ∧
      w' = with_fds ({[ (q, hl_file g) ]} ∪ kl_fds w) w
  | _ => λ _ w', alive i w ∧ w' = w
  end.
(** Time passes; a process forks a child, which has copies of its descriptors until it
    executes another program or ends; a process dies. *)
Inductive lock_tick : lockworld → lockworld → Prop :=
  | ltick_time w t : kl_clock w ≤ t → lock_tick w (at_time t w)
  | ltick_fork w q q' o : (q, o) ∈ kl_fds w → q' ∉ kl_dead w → lock_tick w (with_fds ({[ (q', o) ]} ∪ kl_fds w) w)
  | ltick_exec w q o : (∀ p j, opened j o p w → pid_of j ≠ q) → lock_tick w (with_fds (kl_fds w ∖ {[ (q, o) ]}) w)
  | ltick_die w q : lock_tick w (dying q w).

Definition owns i o p w : Prop := opened i o p w ∧ kl_lock w p = Some o.
Definition names_itself i (g : HostLock) w : Prop :=
  ∃ h, kl_text w (hl_path g) = Some h ∧ lh_identity h = self_of (pid_of i) ∧ lh_lock h = hl_kind g.
Definition lock_asks i w (e : lkcall) : Prop :=
  alive i w →
  match e with
  | LkFlock o | LkUnlock o => ∃ p, opened i o p w ∧ (pid_of i, o) ∈ kl_fds w
  | LkSetLen o | LkWrite o _ => ∃ p, owns i o p w
  | LkClose o => ∀ p j, opened j o p w → j = i ∨ pid_of j ≠ pid_of i
  | LkUse g => owns i (hl_file g) (hl_path g) w ∧ names_itself i g w
  | _ => True
  end.

(** ** Interference *)

(** What others leave alone: the descriptions this thread opened and still has. *)
Definition kept_of i w w' : Prop :=
  ∀ o p, opened i o p w → (pid_of i, o) ∈ kl_fds w →
    (pid_of i, o) ∈ kl_fds w' ∧ (kl_lock w' p = Some o ↔ kl_lock w p = Some o) ∧
    (kl_lock w p = Some o → kl_text w' p = kl_text w p).
Definition beside i w w' : Prop :=
  kl_clock w ≤ kl_clock w' ∧ kl_dead w ⊆ kl_dead w' ∧ kl_files w ⊆ kl_files w' ∧
  (∀ o p, opened i o p w' → opened i o p w) ∧
  (alive i w' → kept_of i w w' ∧ (∀ o p, opened i o p w → kl_lock w' p = Some o → kl_lock w p = Some o)).
#[global] Instance beside_preorder i : PreOrder (beside i).
Proof.
  split.
  - intros w. split_and!; [lia|done|done|done|]. intros _. split; [|done]. intros o p _ Ho. by split_and!.
  - intros w1 w2 w3 (C1 & D1 & F1 & O1 & K1) (C2 & D2 & F2 & O2 & K2).
    assert (∀ o p, opened i o p w1 → opened i o p w2) as Hop by (intros o p Ho; by eapply lookup_weaken).
    split_and!; [lia|by etransitivity|by etransitivity|by eauto|]. intros Ha.
    assert (alive i w2) as Ha2 by (unfold alive in *; set_solver).
    destruct (K1 Ha2) as [K1a K1b], (K2 Ha) as [K2a K2b]. split; [|by eauto].
    intros o p Ho Hf. destruct (K1a o p Ho Hf) as (Hf2 & L1 & T1), (K2a o p (Hop o p Ho) Hf2) as (Hf3 & L2 & T2).
    split_and!; [done|by rewrite L2|]. intros Hl. rewrite T2; [by apply T1|by apply L1].
Qed.

Lemma kept_iff fds lock p o : kept fds lock p = Some o ↔ lock p = Some o ∧ copied o fds.
Proof.
  unfold kept. destruct (lock p) as [o'|]; [|naive_solver]. destruct (decide (copied o' fds)); naive_solver.
Qed.
Lemma copied_by q o fds : (q, o) ∈ fds → copied o fds.
Proof. intros H. by exists (q, o). Qed.
Lemma put_same {A} p (x : A) f : put p x f p = x.
Proof. unfold put. by rewrite decide_True. Qed.
Lemma put_other {A} p p' (x : A) f : p' ≠ p → put p x f p' = f p'.
Proof. intros H. unfold put. by rewrite decide_False. Qed.
Lemma opened_unique i j o p p' w : opened i o p w → opened j o p' w → i = j ∧ p = p'.
Proof. unfold opened. intros -> [= -> ->]. done. Qed.

Lemma with_fds_beside j fds w :
  (∀ o p, opened j o p w → (pid_of j, o) ∈ kl_fds w → (pid_of j, o) ∈ fds) → beside j w (with_fds fds w).
Proof.
  intros H. split_and!; [done|done|done|done|]. intros _. split; [|by intros o p _ [? _]%kept_iff].
  intros o p Ho Hf. specialize (H o p Ho Hf). split_and!; [done| |done]. simpl. rewrite kept_iff.
  split; [by intros []|]. intros ?. split; [done|by eapply copied_by].
Qed.
Lemma with_lock_beside j l w :
  (∀ o p, opened j o p w → l p = Some o ↔ kl_lock w p = Some o) → beside j w (with_lock l w).
Proof.
  intros H. split_and!; [done|done|done|done|]. intros _. split; [|intros o p Ho; by apply H].
  intros o p Ho Hf. split_and!; [done|by apply H|done].
Qed.
Lemma with_text_beside j t w :
  (∀ o p, opened j o p w → kl_lock w p = Some o → t p = kl_text w p) → beside j w (with_text t w).
Proof.
  intros H. split_and!; [done|done|done|done|]. intros _. split; [|done]. intros o p Ho Hf. split_and!; [done|done|by apply (H o p)].
Qed.
Lemma tick_beside j w w' : lock_tick w w' → beside j w w'.
Proof.
  destruct 1 as [w t Ht|w q q' o Ho Hq|w q o Ho|w q].
  - split_and!; [done|done|done|done|]. intros _. split; [|done]. intros o p _ Hf. by split_and!.
  - apply with_fds_beside. set_solver.
  - apply with_fds_beside. intros o' p Hop Hf. apply elem_of_difference. split; [done|].
    intros [= <- ->]%elem_of_singleton. by apply (Ho p j).
  - split_and!; [done|simpl; set_solver|done|done|]. intros Ha. unfold alive in Ha. simpl in Ha.
    split; [|by intros o p _ [? _]%kept_iff]. intros o p Ho Hf.
    assert ((pid_of j, o) ∈ filter (λ x, x.1 ≠ q) (kl_fds w)) as Hf'.
    { apply elem_of_filter. split; [simpl; set_solver|done]. }
    split_and!; [done| |done]. simpl. rewrite kept_iff. split; [by intros []|]. intros ?. split; [done|by eapply copied_by].
Qed.

Lemma act_alive i w e x w' : lock_act i w e x w' → alive i w.
Proof. destruct e; by intros [? _]. Qed.
Lemma act_beside i j w e x w' : i ≠ j → lock_asks i w e → lock_act i w e x w' → beside j w w'.
Proof.
  intros Hij Ha H. specialize (Ha (act_alive _ _ _ _ _ H)).
  destruct e; cbn [lock_act] in H; destruct H as [_ H].
  all: try (by subst w'; reflexivity).
  - destruct x as [o|]; [|by subst w'; reflexivity]. destruct H as (Hn & _ & ->).
    split_and!; [done|done|by apply insert_subseteq| |].
    + intros o' p'. unfold opened. simpl. intros [[<- [= _ ?]]|[_ ?]]%lookup_insert_Some; done.
    + intros _. split; [|done]. intros o' p' Ho Hf. split_and!; [simpl; set_solver|done|done].
  - destruct Ha as (p & Ho & _). specialize (H p Ho). destruct x as [[]|code]; [|by destruct H as [_ ->]; reflexivity].
    destruct H as [Hl ->]. apply with_lock_beside. intros o' p' Ho'. destruct (decide (p' = p)) as [->|Hp]; [rewrite put_same|by rewrite put_other].
    assert (o' ≠ file) as Hne by (intros ->; destruct (opened_unique _ _ _ _ _ _ Ho Ho'); done).
    split; [congruence|]. destruct Hl as [-> | ->]; congruence.
  - destruct Ha as (p & Ho & _). specialize (H p Ho). destruct x as [[]|code]; [|by destruct H as [_ ->]; reflexivity].
    destruct (decide _) as [Hl|]; subst w'; [|reflexivity]. apply with_lock_beside. intros o' p' Ho'.
    destruct (decide (p' = p)) as [->|Hp]; [rewrite put_same|by rewrite put_other].
    split; [done|]. rewrite Hl. intros [= ->]. by destruct (opened_unique _ _ _ _ _ _ Ho Ho').
  - subst w'. apply with_fds_beside. intros o p Ho Hf. apply elem_of_difference. split; [done|].
    intros [= E ->]%elem_of_singleton. by destruct (Ha p j Ho) as [->|].
  - destruct Ha as (p & Ho & Hl). specialize (H p Ho).
    assert (beside j w (with_text (put p None (kl_text w)) w)) as Hb; [|by destruct x; subst; [|reflexivity]].
    apply with_text_beside. intros o' p' Ho' Hl'. apply put_other. intros ->.
    rewrite Hl in Hl'. injection Hl' as ->. by destruct (opened_unique _ _ _ _ _ _ Ho Ho').
  - destruct Ha as (p & Ho & Hl). rewrite (H p Ho). apply with_text_beside. intros o' p' Ho' Hl'. apply put_other. intros ->.
    rewrite Hl in Hl'. injection Hl' as ->. by destruct (opened_unique _ _ _ _ _ _ Ho Ho').
  - destruct H as [_ ->]. reflexivity.
  - destruct H as [_ ->]. reflexivity.
  - destruct H as [Ht ->]. split_and!; [done|done|done|done|]. intros _. split; [|done]. intros o p _ Hf. by split_and!.
  - destruct H as (t & Hd & Ht & ->). split_and!; [done|done|done|done|]. intros _. split; [|done]. intros o p _ Hf. by split_and!.
  - destruct H as (_ & _ & ->). apply with_fds_beside. set_solver.
Qed.
(** ** A thread *)

#[local] Abbreviation V i := (task_env lock_asks lock_act beside i).

(** Holds no lock; has one file of its own, with its lock or without. *)
Definition clean i w : Prop := alive i w → ∀ o p, opened i o p w → kl_lock w p ≠ Some o.
Definition having i o p (locked : bool) w : Prop := alive i w →
  opened i o p w ∧ (pid_of i, o) ∈ kl_fds w ∧ (kl_lock w p = Some o ↔ locked = true) ∧
  ∀ o' p', opened i o' p' w → o' ≠ o → kl_lock w p' ≠ Some o'.
Lemma beside_alive i w w' : beside i w w' → alive i w' → alive i w.
Proof. intros (_ & Hd & _) Ha. unfold alive in *. set_solver. Qed.
Lemma clean_beside i w w' : beside i w w' → clean i w → clean i w'.
Proof.
  intros Hb Hc Ha o p Ho Hl. pose proof (beside_alive _ _ _ Hb Ha) as Haw. destruct Hb as (_ & _ & _ & Hop & Hk).
  destruct (Hk Ha) as [_ Hk']. specialize (Hop o p Ho). by apply (Hc Haw o p), (Hk' o p).
Qed.
Lemma having_beside i o p b w w' : beside i w w' → having i o p b w → having i o p b w'.
Proof.
  intros Hb Hc Ha. pose proof (beside_alive _ _ _ Hb Ha) as Haw. destruct (Hc Haw) as (Ho & Hf & Hl & Hoth).
  destruct Hb as (_ & _ & Hfl & Hop & Hk). destruct (Hk Ha) as [Hk1 Hk2]. destruct (Hk1 o p Ho Hf) as (Hf' & Hl' & _).
  split_and!; [by eapply lookup_weaken|done|by rewrite Hl'|]. intros o' p' Ho' Hne Hx.
  specialize (Hop o' p' Ho'). by apply (Hoth o' p' Hop Hne), (Hk2 o' p').
Qed.
Definition named i (g : HostLock) w : Prop := alive i w → names_itself i g w.
Lemma named_beside i g w w' :
  beside i w w' → having i (hl_file g) (hl_path g) true w → named i g w → named i g w'.
Proof.
  intros Hb Hc Hn Ha. pose proof (beside_alive _ _ _ Hb Ha) as Haw. destruct (Hc Haw) as (Ho & Hf & Hl & _).
  destruct Hb as (_ & _ & _ & _ & Hk). destruct (Hk Ha) as [Hk1 _]. destruct (Hk1 _ _ Ho Hf) as (_ & _ & Ht).
  destruct (Hn Haw) as (h & Hh & ?). exists h. rewrite Ht by (by apply Hl). done.
Qed.

(** Calls that change nothing of their own. *)
Definition plain (e : lkcall) : bool :=
  match e with LkOpen _ | LkFlock _ | LkUnlock _ | LkClose _ | LkSetLen _ | LkWrite _ _ | LkInherit => false | _ => true end.
Lemma plain_beside i w e x w' : plain e = true → does (V i) w e x w' → beside i w w'.
Proof.
  intros He (w1 & H & Hr). etransitivity; [|exact Hr]. clear Hr.
  assert (∀ t, kl_clock w ≤ t → beside i w (at_time t w)) as Ht.
  { intros t Ht. apply tick_beside. by constructor. }
  destruct e; try done; cbn [lock_act] in H; destruct H as [_ H].
  all: try (by subst w1).
  - by destruct H as [_ ->].
  - by destruct H as [_ ->].
  - destruct H as [Hx ->]. by apply Ht.
  - destruct H as (t & _ & Hx & ->). by apply Ht.
Qed.
Lemma sat_beside {A} i e (k : lkanswer e → free lkanswer A) w (Q : lockworld → A → Prop) :
  plain e = true → lock_asks i w e → (∀ x w', beside i w w' → sat (V i) (k x) w' Q) → sat (V i) (op e ≫= k) w Q.
Proof. intros He Ha H. apply sat_op_bind; [done|]. intros x w' Hd. apply H. by eapply plain_beside. Qed.

(** ** Dropping *)

Lemma unlock_spec i o p turns w :
  having i o p true w → sat (V i) (unlock turns o) w (λ w' b, b = true → having i o p false w').
Proof.
  revert w. induction turns as [|turns IH]; intros w Hw; [by apply sat_ret|]. cbn [unlock].
  apply sat_op_bind; [intros Ha; exists p; by destruct (Hw Ha) as (? & ? & _)|].
  intros x w2 (w1 & [Ha H] & Hr). destruct (Hw Ha) as (Ho & Hf & Hl & Hoth). specialize (H p Ho). destruct x as [[]|code].
  - apply sat_ret. intros _. apply (having_beside _ _ _ _ _ _ Hr). rewrite decide_True in H by (by apply Hl). subst w1.
    intros _. split_and!; [done|done|simpl; by rewrite put_same|]. intros o' p' Ho' Hne. simpl.
    destruct (decide (p' = p)) as [->|?]; [by rewrite put_same|]. rewrite put_other by done. by apply Hoth.
  - destruct H as [-> ->]. rewrite bool_decide_eq_true_2 by done. apply IH. by eapply having_beside.
Qed.
Lemma close_spec {A} i o p w (k : () → free lkanswer A) (Q : lockworld → A → Prop) :
  having i o p false w → (∀ w', clean i w' → sat (V i) (k tt) w' Q) → sat (V i) (lkop (LkClose o) ≫= k) w Q.
Proof.
  intros Hw HQ. apply sat_op_bind.
  { intros Ha p' j Hj. left. destruct (Hw Ha) as (Ho & _). by destruct (opened_unique _ _ _ _ _ _ Hj Ho). }
  intros [] w2 (w1 & [Ha ->] & Hr). apply HQ, (clean_beside _ _ _ Hr). destruct (Hw Ha) as (Ho & _ & Hl & Hoth).
  intros _ o' p' Ho' [Hx _]%kept_iff. destruct (decide (o' = o)) as [->|Hne]; [|by apply (Hoth o' p' Ho')].
  destruct (opened_unique _ _ _ _ _ _ Ho Ho') as [_ <-]. apply Hl in Hx. done.
Qed.
(** In the process that acquired it. *)
Lemma drop_spec i g turns w :
  hl_owner_pid g = pid_of i → having i (hl_file g) (hl_path g) true w →
  sat (V i) (drop_lock turns g) w (λ w' b, b = true → clean i w').
Proof.
  intros Hpid Hw. unfold drop_lock. apply sat_op_bind; [done|]. intros q w1 Hd. pose proof (plain_beside i w LkPid q w1 eq_refl Hd) as Hb.
  destruct Hd as (w0 & (_ & -> & ->) & _). apply (having_beside _ _ _ _ _ _ Hb) in Hw. rewrite bool_decide_eq_true_2 by done.
  apply sat_bind. eapply sat_mono; [by apply unlock_spec|]. intros w2 [] Hw2; [|by apply sat_ret].
  eapply close_spec; [by apply Hw2|]. intros w3 Hc. by apply sat_ret.
Qed.
(** In a child that inherited it. *)
Lemma inherited_spec i turns w : clean i w → sat (V i) (g ← op LkInherit; drop_lock turns g) w (λ w' b, b = true → clean i w').
Proof.
  intros Hw. apply sat_op_bind; [done|]. intros g w2 (w1 & (Ha & Hne & (j & Hj & Hpj) & ->) & Hr).
  assert (beside i w (with_fds ({[ (pid_of i, hl_file g) ]} ∪ kl_fds w) w)) as Hb by (apply with_fds_beside; set_solver).
  assert (clean i w2) as Hc by (eapply clean_beside; [etransitivity; [exact Hb|exact Hr]|done]).
  assert (opened j (hl_file g) (hl_path g) w2) as Hj2.
  { destruct Hr as (_ & _ & Hfl & _). by eapply lookup_weaken. }
  clear Hw Ha Hb Hr Hj. unfold drop_lock. apply sat_op_bind; [done|]. intros q w3 Hd.
  pose proof (plain_beside i w2 LkPid q w3 eq_refl Hd) as Hb. destruct Hd as (w0 & (_ & -> & ->) & _).
  rewrite bool_decide_eq_false_2 by done. apply sat_bind, sat_ret.
  assert (opened j (hl_file g) (hl_path g) w3) as Hj3 by (destruct Hb as (_ & _ & Hfl & _); by eapply lookup_weaken).
  apply sat_op_bind.
  { intros _ p' j' Hj'. right. destruct (opened_unique _ _ _ _ _ _ Hj' Hj3) as [-> _]. congruence. }
  intros [] w5 (w4 & [_ ->] & Hr). apply sat_ret. intros _. apply (clean_beside _ _ _ Hr).
  pose proof (clean_beside _ _ _ Hb Hc) as Hc3. intros Ha o p Ho [Hx _]%kept_iff. by apply (Hc3 Ha o p).
Qed.
(** ** Acquiring *)

Lemma record_spec i g w :
  having i (hl_file g) (hl_path g) true w →
  sat (V i) (record_holder g) w (λ w' x, having i (hl_file g) (hl_path g) true w' ∧ (x = Ok tt → named i g w')).
Proof.
  set (o := hl_file g). set (p := hl_path g). intros Hw. unfold record_holder.
  assert (∀ w' (x : result () LockError), having i o p true w' → x ≠ Ok tt → having i o p true w' ∧ (x = Ok tt → named i g w')) as Hfail by done.
  apply sat_op_bind; [done|]. intros x w1 Hd. pose proof (plain_beside i w LkSelf x w1 eq_refl Hd) as Hb1.
  destruct Hd as (w0 & (_ & Hx & ->) & _). apply (having_beside _ _ _ _ _ _ Hb1) in Hw. clear Hb1.
  destruct x as [self|]; [|by apply sat_ret, Hfail]. rewrite (Hx self eq_refl).
  apply sat_beside; [done|done|]. intros exe w2 Hb2. apply (having_beside _ _ _ _ _ _ Hb2) in Hw.
  apply sat_beside; [done|done|]. intros utc w3 Hb3. apply (having_beside _ _ _ _ _ _ Hb3) in Hw. cbv zeta.
  unfold io_step. apply sat_bind_ok, sat_beside; [done|done|]. intros x4 w4 Hb4. apply (having_beside _ _ _ _ _ _ Hb4) in Hw.
  destruct x4 as [[]|]; apply sat_ret; [|by apply Hfail]. clear Hx Hb2 Hb3 Hb4.
  assert (∀ w, having i o p true w → alive i w → ∃ p', owns i o p' w) as Hasks.
  { intros w' Hw' Ha. exists p. destruct (Hw' Ha) as (? & _ & Hl & _). split; [done|by apply Hl]. }
  assert (∀ w t, having i o p true w → having i o p true (with_text t w)) as Htext by done.
  apply sat_bind_ok, sat_op_bind; [exact (Hasks _ ltac:(done))|]. intros x5 w6 (w5 & [Ha H5] & Hr).
  destruct (Hw Ha) as (Ho & _). specialize (H5 p Ho).
  assert (having i o p true w6) as Hw6 by (apply (having_beside _ _ _ _ _ _ Hr); destruct x5; subst w5; [by apply Htext|done]).
  destruct x5 as [[]|]; apply sat_ret; [|by apply Hfail]. clear Hw Ha Ho Hr H5.
  apply sat_bind_ok, sat_op_bind; [exact (Hasks _ ltac:(done))|]. intros x7 w8 (w7 & [Ha H7] & Hr). destruct (Hw6 Ha) as (Ho & _). rewrite (H7 p Ho) in Hr.
  assert (having i o p true w8) as Hw8 by (apply (having_beside _ _ _ _ _ _ Hr), Htext, Hw6).
  destruct x7 as [[]|]; apply sat_ret; [|by apply Hfail].
  assert (named i g w8) as Hn8.
  { eapply (named_beside _ _ _ _ Hr); [by apply Htext, Hw6|]. intros _. eexists. simpl. rewrite put_same. by split_and!. }
  clear Hw6 Ha Ho Hr H7. apply sat_bind_ok, sat_beside; [done|done|]. intros x9 w9 Hb9.
  pose proof (having_beside _ _ _ _ _ _ Hb9 Hw8) as Hw9. pose proof (named_beside _ _ _ _ Hb9 Hw8 Hn8) as Hn9.
  destruct x9 as [[]|]; apply sat_ret; [|by apply Hfail].
  apply sat_beside; [done|done|]. intros x10 w10 Hb10. apply sat_ret.
  split; [by eapply having_beside|intros _; by eapply named_beside].
Qed.

(** What an attempt leaves. *)
Definition got i p k w (x : option (result HostLock LockError)) : Prop :=
  match x with
  | Some (Ok g) => hl_path g = p ∧ hl_kind g = k ∧ hl_owner_pid g = pid_of i ∧
      having i (hl_file g) p true w ∧ named i g w
  | Some (Err _) => clean i w
  | None => True
  end.
Lemma held_error_spec {A} i p k code w (f : LockError → free lkanswer A) (Q : lockworld → A → Prop) :
  (∀ e w', beside i w w' → sat (V i) (f e) w' Q) → sat (V i) (held_error p k code ≫= f) w Q.
Proof. intros H. apply sat_bind, sat_beside; [done|done|]. intros x w' Hb. by apply sat_ret, H. Qed.
Lemma opened_having i o p w w' :
  clean i w → alive i w → (∀ p', kl_lock w p' ≠ Some o) → beside i (opening o p i (pid_of i) w) w' → having i o p false w'.
Proof.
  intros Hc Ha Hl Hr. apply (having_beside _ _ _ _ _ _ Hr). intros _. unfold opened. simpl.
  split_and!; [by rewrite lookup_insert_eq|set_solver|by split; [intros []%Hl|]|]. intros o' p' [[? ?]|[_ Ho]]%lookup_insert_Some ?; [done|].
  by apply Hc.
Qed.

Definition won (x : result Acquired (option Z)) : bool := match x with Ok AcquiredYes => true | _ => false end.
Lemma try_lock_spec i o p w :
  having i o p false w →
  sat (V i) (try_lock o) w (λ w' x, having i o p (won x) w').
Proof.
  intros Hw. unfold try_lock. apply sat_op_bind; [intros Ha; exists p; by destruct (Hw Ha) as (? & ? & _)|].
  intros x w2 (w1 & [Ha H] & Hr). destruct (Hw Ha) as (Ho & Hf & Hl & Hoth). specialize (H p Ho). apply sat_ret.
  destruct x as [[]|code].
  - destruct H as [Hfree ->]. apply (having_beside _ _ _ _ _ _ Hr). intros _.
    split_and!; [done|done|simpl; by rewrite put_same|]. intros o' p' Ho' Hne. simpl.
    destruct (decide (p' = p)) as [->|?]; [rewrite put_same; congruence|]. rewrite put_other by done. by apply Hoth.
  - destruct H as [_ ->]. apply (having_beside _ _ _ _ _ _ Hr). by destruct (is_contention code).
Qed.

Lemma try_acquire_spec i turns p k w :
  clean i w → sat (V i) (try_acquire_at turns p k) w (λ w' x, got i p k w' x).
Proof.
  intros Hw. unfold try_acquire_at.
  assert (∀ (m : free lkanswer (result () (option Z))) (f : _ → free lkanswer (option (result HostLock LockError))) Q,
    (m = mret (Ok tt) ∨ ∃ d, m = lkop (LkMkdir d)) →
    (∀ x w', clean i w' → sat (V i) (f x) w' Q) → sat (V i) (m ≫= f) w Q) as Hmk.
  { intros m f Q [->|[d ->]] Hf; [by apply Hf|]. apply sat_beside; [done|done|]. intros x w' Hb. by eapply Hf, clean_beside. }
  apply Hmk; [destruct (path_parent p); [right; by eexists|by left]|]. clear w Hw Hmk. intros made w Hw.
  destruct made as [[]|]; [|by apply sat_ret]. apply sat_op_bind; [done|]. intros x w2 (w1 & [Ha H] & Hr).
  destruct x as [o|code]; [destruct H as (Hn & Hl & ->)|subst w1].
  2: { apply (clean_beside _ _ _ Hr) in Hw. destruct (is_contention code); [|by apply sat_ret].
    apply held_error_spec. intros e w3 Hb. apply sat_ret. by eapply clean_beside. }
  pose proof (opened_having i o p w w2 Hw Ha Hl Hr) as Hw2. clear Hn Hl Hr Ha Hw. apply sat_bind.
  eapply sat_mono; [by apply try_lock_spec|]. intros w3 [[|code]|code] Hw3.
  - apply sat_op_bind; [done|]. intros q w4 Hd.
    pose proof (plain_beside i w3 LkPid q w4 eq_refl Hd) as Hb. destruct Hd as (w0 & (_ & -> & ->) & _).
    apply (having_beside _ _ _ _ _ _ Hb) in Hw3. cbv zeta. set (g := mk_lock o (pid_of i) p k).
    apply sat_bind. eapply sat_mono; [by apply (record_spec i g)|]. intros w5 [[]|e] [Hw5 Hn5].
    + apply sat_ret. split_and!; [done|done|done|done|by apply Hn5].
    + apply sat_bind. eapply sat_mono; [by apply (drop_spec i g)|]. intros w6 [] Hc; apply sat_ret; [by apply Hc|done].
  - apply held_error_spec. intros e w4 Hb.
    eapply close_spec; [by eapply having_beside|]. intros w5 Hc. by apply sat_ret.
  - eapply close_spec; [done|]. intros w5 Hc. by apply sat_ret.
Qed.
Lemma acquiring_spec i turns p k deadline w :
  clean i w → sat (V i) (acquiring turns p k deadline) w (λ w' x, got i p k w' x).
Proof.
  revert w. induction turns as [|turns IH]; intros w Hw; [by apply sat_ret|]. cbn [acquiring]. apply sat_bind.
  eapply sat_mono; [by apply try_acquire_spec|]. intros w1 [[g|e]|] H1; [by apply sat_ret| |by apply sat_ret].
  destruct (is_held e); [|by apply sat_ret]. apply sat_beside; [done|done|]. intros now w2 Hb2. apply (clean_beside _ _ _ Hb2) in H1.
  destruct (bool_decide _); [by apply sat_ret|]. apply sat_beside; [done|done|]. intros _ w3 Hb3. by eapply IH, clean_beside.
Qed.
Lemma acquire_at_spec i turns p k wait w :
  clean i w → sat (V i) (acquire_at turns p k wait) w (λ w' x, got i p k w' x).
Proof. intros Hw. apply sat_beside; [done|done|]. intros now w1 Hb. by eapply acquiring_spec, clean_beside. Qed.
(** ** Clients *)

Fixpoint uses (n : nat) (g : HostLock) : lkprogram () :=
  match n with O => mret tt | S n => _ ← lkop (LkUse g); uses n g end.
(** Work under a lock; and a forked process that drops the guard it was born with. *)
Definition guarded (turns : nat) (p : path) (k : LockKind) (wait : Duration) (n : nat) : lkprogram bool :=
  x ← acquire_at turns p k wait;
  match x with
  | Some (Ok g) => _ ← uses n g; drop_lock turns g
  | Some (Err _) => mret true
  | None => mret false
  end.
Definition child (turns : nat) : lkprogram bool := g ← lkop LkInherit; drop_lock turns g.
Definition released i w (over : bool) : Prop := over = true → clean i w.
Lemma uses_spec i n g w :
  having i (hl_file g) (hl_path g) true w → named i g w →
  sat (V i) (uses n g) w (λ w' _, having i (hl_file g) (hl_path g) true w').
Proof.
  revert w. induction n as [|n IH]; intros w Hw Hn; [by apply sat_ret|]. cbn [uses]. apply sat_beside; [done| |].
  - intros Ha. destruct (Hw Ha) as (Ho & _ & Hl & _). split; [split; [done|by apply Hl]|by apply Hn].
  - intros _ w1 Hb. apply IH; [by eapply having_beside|by eapply named_beside].
Qed.
Lemma guarded_spec i turns p k wait n w : clean i w → sat (V i) (guarded turns p k wait n) w (released i).
Proof.
  intros Hw. unfold guarded. apply sat_bind. eapply sat_mono; [by apply acquire_at_spec|].
  intros w1 [[g|e]|] H1; [|apply sat_ret; by intros _|by apply sat_ret]. destruct H1 as (<- & _ & Hq & Hh & Hn).
  apply sat_bind. eapply sat_mono; [by apply uses_spec|]. intros w2 u Hw2. by apply drop_spec.
Qed.

Definition lock_starts (P : pool (ans := lkanswer) (A := bool)) : Prop :=
  ∀ i, (∃ turns (q : path) k wait n, P i = guarded turns q k wait n) ∨ (∃ turns, P i = child turns).
Definition lock_fresh w : Prop := kl_files w = ∅ ∧ kl_fds w = ∅ ∧ ∀ p, kl_lock w p = None.
#[local] Abbreviation lock_steps := (clos_refl_trans_1n _ (pool_step lock_act lock_tick)).
Lemma lock_starts_settled P w : lock_starts P → lock_fresh w → all_settled lock_asks lock_act beside released (P, w).
Proof.
  intros Hp (_ & _ & Hl) i w' Hb. cbn [fst snd] in *.
  assert (clean i w') as Hc by (eapply clean_beside; [exact Hb|]; intros _ o q _; by rewrite Hl).
  destruct (Hp i) as [(turns & q & k & wait & n & ->)|(turns & ->)]; [by apply guarded_spec|by apply inherited_spec].
Qed.

(** A lock has a living process with a copy of its description. *)
Definition backed w : Prop :=
  (∀ q o, (q, o) ∈ kl_fds w → q ∉ kl_dead w) ∧ ∀ p o, kl_lock w p = Some o → copied o (kl_fds w).
Lemma with_fds_backed fds w : (∀ q o, (q, o) ∈ fds → q ∉ kl_dead w) → backed (with_fds fds w).
Proof. intros H. split; [done|]. by intros p o [_ ?]%kept_iff. Qed.
Lemma act_backed i w e x w' : lock_asks i w e → lock_act i w e x w' → backed w → backed w'.
Proof.
  intros Ha H Hb. pose proof (act_alive _ _ _ _ _ H) as Hal. specialize (Ha Hal). destruct Hb as [Hq Hl].
  destruct e; cbn [lock_act] in H; destruct H as [_ H].
  all: try (by subst w').
  - destruct x as [o|]; [|by subst w']. destruct H as (_ & _ & ->). split; simpl.
    + intros q o' [[= -> ->]%elem_of_singleton|?]%elem_of_union; [done|by eapply Hq].
    + intros p' o' Hp. destruct (Hl p' o' Hp) as (y & ? & ?). exists y. set_solver.
  - destruct Ha as (p & Ho & Hf). specialize (H p Ho). destruct x as [[]|]; [|by destruct H as [_ ->]]. destruct H as [_ ->].
    split; [done|]. intros p' o'. simpl. unfold put. destruct (decide (p' = p)); [|apply Hl]. intros [= <-]. by eapply copied_by.
  - destruct Ha as (p & Ho & Hf). specialize (H p Ho). destruct x as [[]|]; [|by destruct H as [_ ->]].
    destruct (decide _); subst w'; [|done]. split; [done|]. intros p' o'. simpl. unfold put. destruct (decide (p' = p)); [done|apply Hl].
  - subst w'. apply with_fds_backed. intros q o [? _]%elem_of_difference. by eapply Hq.
  - destruct Ha as (p & Ho & _). specialize (H p Ho). by destruct x; subst w'.
  - destruct Ha as (p & Ho & _). by rewrite (H p Ho).
  - by destruct H as [_ ->].
  - by destruct H as [_ ->].
  - by destruct H as [_ ->].
  - by destruct H as (t & _ & _ & ->).
  - destruct H as (_ & _ & ->). apply with_fds_backed. intros q o [[= -> ->]%elem_of_singleton|?]%elem_of_union; [done|by eapply Hq].
Qed.
Lemma tick_backed w w' : lock_tick w w' → backed w → backed w'.
Proof.
  destruct 1 as [w t Ht|w q q' o Ho Hq|w q o Ho|w q]; intros [Hq' Hl]; [done|..].
  - apply with_fds_backed. intros q2 o2 [[= -> ->]%elem_of_singleton|?]%elem_of_union; [done|by eapply Hq'].
  - apply with_fds_backed. intros q2 o2 [? _]%elem_of_difference. by eapply Hq'.
  - split; simpl; [|by intros p o [_ ?]%kept_iff]. intros q2 o2 [Hne Hf]%elem_of_filter. simpl in Hne. specialize (Hq' _ _ Hf). set_solver.
Qed.
Lemma lock_reachable c c' : lock_steps c c' → all_settled lock_asks lock_act beside released c → backed c.2 →
  all_settled lock_asks lock_act beside released c' ∧ backed c'.2.
Proof.
  induction 1 as [c|c c1 c2 Hs _ IH]; intros Ha Hb; [done|]. apply IH.
  - eapply (pool_step_settled lock_asks lock_act lock_tick beside released act_beside tick_beside); [exact Hs|exact Ha].
  - destruct Hs as [p s i e k x s' Hi Hact|p s s' Ht]; simpl in *; [|by eapply tick_backed].
    eapply act_backed; [|exact Hact|exact Hb]. specialize (Ha i). simpl in Ha. rewrite Hi in Ha. by destruct (Ha s (reflexivity s)).
Qed.

(** C14: Processes of one host take and drop locks, fork, and die at any call: two threads
    that live and use guards of one lock file are the same; a guard in use owns the
    kernel's lock of its file, which names its process; a thread that gave up or dropped
    its guard holds no lock, though children may still have copies of its descriptor, and
    a child that drops the guard it was born with takes nothing from its parent; and a
    lock is held only while a living process has its descriptor, so that no crash leaves
    one behind. *)
Theorem host_locks_exclude P w c :
  lock_starts P → lock_fresh w → lock_steps (P, w) c →
  (∀ i, match c.1 i with Op e k => lock_asks i c.2 e | Ret over => released i c.2 over end) ∧
  (∀ i j g g' k k', c.1 i = Op (LkUse g) k → c.1 j = Op (LkUse g') k' → alive i c.2 → alive j c.2 →
     hl_path g = hl_path g' → i = j) ∧
  (∀ p o, kl_lock c.2 p = Some o → ∃ pid, (pid, o) ∈ kl_fds c.2 ∧ pid ∉ kl_dead c.2).
Proof.
  intros Hp Hw Hs. destruct (lock_reachable (P, w) c Hs) as [Ha [Hq Hl]].
  { by apply lock_starts_settled. }
  { destruct Hw as (_ & Hf & Hl). split; simpl; [intros q o; rewrite Hf; set_solver|intros q o; by rewrite Hl]. }
  assert (∀ i, match c.1 i with Op e k => lock_asks i c.2 e | Ret over => released i c.2 over end) as Hall.
  { intros i. specialize (Ha i c.2 (reflexivity c.2)). destruct (c.1 i); [exact Ha|by destruct Ha]. }
  split; [exact Hall|]. split.
  - intros i j g g' k k' Hi Hj Hai Haj Hpath. pose proof (Hall i) as Hi'. pose proof (Hall j) as Hj'.
    rewrite Hi in Hi'. rewrite Hj in Hj'. destruct (Hi' Hai) as [[Ho1 Hl1] _], (Hj' Haj) as [[Ho2 Hl2] _].
    rewrite <-Hpath in Ho2, Hl2. rewrite Hl1 in Hl2. injection Hl2 as E. rewrite <-E in Ho2.
    by destruct (opened_unique _ _ _ _ _ _ Ho1 Ho2).
  - intros q o Ho. destruct (Hl q o Ho) as ([pid o'] & Hf & [= ->]). exists pid. split; [done|by eapply Hq].
Qed.
End LockSafety.
