(* ===== verification/LockRuns.v ===== *)
(** * Locks, executed

    Two processes want one lock: one works under it while the other is told who has it,
    and a forked child drops its copy of the guard meanwhile. *)

From Stdlib Require Import Relations.
From stdpp Require Import strings fin_sets.
From S2P Require Import Prelude RustStr Ordered Model Github Effects Tasks Process Archive HostLock LockSafety.
#[local] Open Scope Z_scope.
#[local] Open Scope rust_scope.

(** Thread 0 is process 100, thread 1 process 101, thread 2 a child of the first. *)
Definition ex_pid (i : nat) : Z := 100 + Z.of_nat i.
Definition ex_self (q : Z) : ProcessIdentity := mk_identity q (lit "start").
Definition ex_dir : path := [RootDir; Normal (lit "state")].
Definition ex_path : path := lock_path ex_dir Allocation.
Definition kernel (i : nat) (w : lockworld) (e : lkcall) : option (lockworld * lkanswer e) :=
  if decide (ex_pid i ∈ kl_dead w) then None else
  match e return option (lockworld * lkanswer e) with
  | LkOpen p =>
      let o := N.of_nat (size (kl_files w)) in
      if decide (kl_files w !! o = None ∧ o ≠ default 99%N (kl_lock w ex_path) ∧ p = ex_path)
      then Some (opening o p i (ex_pid i) w, Ok o) else None
  | LkFlock o =>
      match kl_files w !! o with
      | Some (p, _) =>
          match kl_lock w p with
          | None => Some (with_lock (put p (Some o) (kl_lock w)) w, Ok tt)
          | Some o' => if decide (o' = o) then None else Some (w, Err (Some EWOULDBLOCK))
          end
      | None => None
      end
  | LkUnlock o =>
      match kl_files w !! o with
      | Some (p, _) => Some (if decide (kl_lock w p = Some o) then with_lock (put p None (kl_lock w)) w else w, Ok tt)
      | None => None
      end
  | LkClose o => Some (with_fds (kl_fds w ∖ {[ (ex_pid i, o) ]}) w, tt)
  | LkSetLen o =>
      match kl_files w !! o with Some (p, _) => Some (with_text (put p None (kl_text w)) w, Ok tt) | None => None end
  | LkWrite o h =>
      match kl_files w !! o with Some (p, _) => Some (with_text (put p (Some h) (kl_text w)) w, Ok tt) | None => None end
  | LkReadHolder p => Some (w, Ok (kl_text w p))
  | LkMkdir _ | LkSeek _ | LkFlush _ | LkSync _ => Some (w, Ok tt)
  | LkPid => Some (w, ex_pid i)
  | LkSelf => Some (w, Ok (ex_self (ex_pid i)))
  | LkExe => Some (w, None)
  | LkUtc => Some (w, 0)
  | LkNow => Some (at_time (kl_clock w) w, kl_clock w)
  | LkSleep _ => None
  | LkUse _ => Some (w, tt)
  | LkInherit =>
      let g := mk_lock 0%N (ex_pid 0) ex_path Allocation in
      if decide (ex_pid i ≠ ex_pid 0 ∧ kl_files w !! 0%N = Some (ex_path, 0%nat))
      then Some (with_fds ({[ (ex_pid i, 0%N) ]} ∪ kl_fds w) w, g) else None
  end.
Definition ex_lockworld : lockworld := mk_lockworld 0 ∅ ∅ ∅ (λ _, None) (λ _, None).

(** Only this lock is ever taken here. *)
Definition one_lock (w : lockworld) : Prop := ∀ p, p ≠ ex_path → kl_lock w p = None.
Lemma one_lock_put w p x : one_lock w → p = ex_path → one_lock (with_lock (put p x (kl_lock w)) w).
Proof. intros H -> p0 Hp. simpl. rewrite put_other by done. by apply H. Qed.
Lemma one_lock_kept fds w : one_lock w → one_lock (with_fds fds w).
Proof. intros H p Hp. simpl. unfold kept. by rewrite H. Qed.
Definition here (w : lockworld) : Prop := one_lock w ∧ ∀ o p i, kl_files w !! o = Some (p, i) → p = ex_path.
Lemma kernel_acts i w e w' x : here w → kernel i w e = Some (w', x) → lock_act ex_pid ex_self i w e x w' ∧ here w'.
Proof.
  intros [Hw Hf] H. unfold kernel in H. destruct (decide (ex_pid i ∈ kl_dead w)) as [|Ha]; [done|].
  destruct e; cbn [lock_act]; simplify_eq.
  all: try (by split; [split|]).
  - destruct (decide _) as [(Hn & Hl & ->)|]; [|done]. simplify_eq. split; [split; [done|]|].
    + split_and!; [done| |done]. intros p'. destruct (decide (p' = ex_path)) as [->|Hp]; [|by rewrite Hw].
      intros E. rewrite E in Hl. done.
    + split; [done|]. intros o p i'. simpl. intros [[_ [= <- _]]|[_ ?]]%lookup_insert_Some; [done|by eapply Hf].
  - destruct (kl_files w !! file) as [[p j]|] eqn:E; [|done]. destruct (kl_lock w p) as [o'|] eqn:El.
    + destruct (decide (o' = file)) as [|Hne]; [done|]. simplify_eq. split; [|done]. split; [done|].
      intros p' Hp'. unfold opened in Hp'. rewrite E in Hp'. injection Hp' as -> ->. split; [|done]. intros _. by exists o'.
    + simplify_eq. split; [split; [done|]|].
      * intros p' Hp'. unfold opened in Hp'. rewrite E in Hp'. injection Hp' as -> ->. split; [by left|done].
      * split; [apply one_lock_put; [done|by eapply Hf]|done].
  - destruct (kl_files w !! file) as [[p j]|] eqn:E; [|done]. simplify_eq. split; [split; [done|]|].
    + intros p' Hp'. unfold opened in Hp'. rewrite E in Hp'. by injection Hp' as -> ->.
    + destruct (decide _); [|done]. split; [apply one_lock_put; [done|by eapply Hf]|done].
  - split; [done|]. split; [by apply one_lock_kept|done].
  - destruct (kl_files w !! file) as [[p j]|] eqn:E; [|done]. simplify_eq. split; [split; [done|]|done].
    intros p' Hp'. unfold opened in Hp'. rewrite E in Hp'. by injection Hp' as -> ->.
  - destruct (kl_files w !! file) as [[p j]|] eqn:E; [|done]. simplify_eq. split; [split; [done|]|done].
    intros p' Hp'. unfold opened in Hp'. rewrite E in Hp'. by injection Hp' as -> ->.
  - split; [split_and!; [done|by intros s [= <-]|done]|done].
  - destruct (decide _) as [[Hne Ho]|]; [|done]. simplify_eq. split; [|split; [by apply one_lock_kept|done]].
    split_and!; [done|simpl; congruence|by exists 0%nat|done].
Qed.

Definition ex_threads : pool (ans := lkanswer) (A := bool) :=
  λ i, match i with 2%nat => child 3 | _ => guarded 3 ex_path Allocation 0 3 end.
(** The first acquires and works, the other is refused, the child drops its copy, and the
    first works on. *)
Definition ex_turns : list nat :=
  replicate 14 0%nat ++ replicate 7 1%nat ++ [2; 2; 2]%nat ++ [0]%nat.
Lemma host_locks_exclude_witness :
  ∃ c, clos_refl_trans_1n _ (pool_step (lock_act ex_pid ex_self) (lock_tick ex_pid)) (ex_threads, ex_lockworld) c ∧
    kl_lock c.2 ex_path = Some 0%N ∧ c.1 1%nat = Ret true ∧ c.1 2%nat = Ret true ∧
    lock_asks ex_pid ex_self 0 c.2 (LkUse (mk_lock 0 (ex_pid 0) ex_path Allocation)).
Proof.
  destruct (play_reaches (lock_act ex_pid ex_self) (lock_tick ex_pid) kernel here kernel_acts
    (λ c, (kl_lock c.2 ex_path, match c.1 1%nat, c.1 2%nat with Ret x, Ret y => Some (x, y) | _, _ => None end,
           match c.1 0%nat with Op (LkUse g) _ => Some g | _ => None end))
    ex_turns (ex_threads, ex_lockworld) (Some 0%N, Some (true, true), Some (mk_lock 0 (ex_pid 0) ex_path Allocation)))
    as (c & Hs & Hl).
  { split; [done|]. intros o p i. simpl. rewrite lookup_empty. done. }
  { vm_compute. reflexivity. }
  destruct (host_locks_exclude ex_pid ex_self ex_threads ex_lockworld c) as [Hall _]; [| |exact Hs|].
  { intros i. unfold ex_threads. destruct i as [|[|[|i]]]; [left|left|right|left]; by repeat eexists. }
  { done. }
  exists c. split; [exact Hs|]. specialize (Hall 0%nat). destruct (c.1 1%nat), (c.1 2%nat); try discriminate Hl.
  destruct (c.1 0%nat) as [|[] k]; try discriminate Hl. injection Hl as -> -> -> ->. by split_and!.
Defined.
