(* ===== verification/CacheNames.v ===== *)
(** * Dependency caches: whose, and for which tools ([crates/platform/src/dependency_cache.rs])

    A native runner gets directories for the caches of its build tools. Which ones is
    decided by the configuration and the target; where they are, by the target's
    namespace, whose two path segments are made from its names. *)

From stdpp Require Import strings sorting.
From S2P Require Import Prelude RustStr Ordered Model Github RunnerEnv.
#[local] Open Scope Z_scope.
#[local] Open Scope rust_scope.

(** ** Tools *)

Record Platforms := mk_platforms { pf_windows : bool; pf_macos : bool; pf_linux : bool }.
Definition ALL_PLATFORMS : Platforms := mk_platforms true true true.
Definition UNIX_PLATFORMS : Platforms := mk_platforms false true true.
Definition includes (p : Platforms) (platform : RunnerPlatform) : bool :=
  match platform with RpWindows => pf_windows p | RpMacOs => pf_macos p | RpLinux => pf_linux p end.
Inductive Sharing := InNamespace | InSlot.
Inductive VarValue := VarDir | VarSub (sub : str) | VarLiteral (value : str) | VarTemplate (template : str).
Record CacheVariable := mk_variable { cv_name : str; cv_value : VarValue; cv_platforms : Platforms }.
Record CacheTool := mk_cache_tool {
  ct_id : str;
  ct_dir : str;
  ct_sharing : Sharing;
  ct_default_enabled : bool;
  ct_variables : list CacheVariable;
}.
Definition all_platforms (name : string) (v : VarValue) : CacheVariable := mk_variable (lit name) v ALL_PLATFORMS.
Definition unix_platforms (name : string) (v : VarValue) : CacheVariable := mk_variable (lit name) v UNIX_PLATFORMS.
#[local] Abbreviation mk_tool id dir := (mk_cache_tool (lit id) (lit dir)).
Definition variables_on (platform : RunnerPlatform) (t : CacheTool) : list CacheVariable :=
  List.filter (λ v, includes (cv_platforms v) platform) (ct_variables t).
Definition applies_to (platform : RunnerPlatform) (t : CacheTool) : bool :=
  negb (bool_decide (length (variables_on platform t) = 0%nat)).
(** The notes of the table are left out. *)
Definition TOOLS : list CacheTool := [
  mk_tool "git" "git" InNamespace false [all_platforms "RUNNER_MANAGER_GIT_CACHE_DIR" VarDir];
  mk_tool "xdg" "xdg" InNamespace true [unix_platforms "XDG_CACHE_HOME" VarDir];
  mk_tool "tool-cache" "tool-cache" InSlot true [all_platforms "RUNNER_TOOL_CACHE" VarDir; all_platforms "AGENT_TOOLSDIRECTORY" VarDir];
  mk_tool "dotnet" "dotnet" InSlot true [all_platforms "DOTNET_INSTALL_DIR" VarDir];
  mk_tool "npm" "npm" InNamespace true [all_platforms "npm_config_cache" VarDir];
  mk_tool "pnpm" "pnpm-store" InNamespace true [all_platforms "npm_config_store_dir" VarDir; all_platforms "PNPM_CONFIG_STORE_DIR" VarDir];
  mk_tool "yarn" "yarn" InNamespace true [all_platforms "YARN_GLOBAL_FOLDER" VarDir];
  mk_tool "bun" "bun" InNamespace true [all_platforms "BUN_INSTALL_CACHE_DIR" VarDir];
  mk_tool "deno" "deno" InNamespace true [all_platforms "DENO_DIR" VarDir];
  mk_tool "node-gyp" "node-gyp" InNamespace true [all_platforms "npm_config_devdir" VarDir; all_platforms "npm_package_config_node_gyp_devdir" VarDir];
  mk_tool "electron" "electron" InNamespace true [all_platforms "electron_config_cache" VarDir; all_platforms "ELECTRON_CACHE" VarDir];
  mk_tool "electron-builder" "electron-builder" InNamespace true [all_platforms "ELECTRON_BUILDER_CACHE" VarDir];
  mk_tool "playwright" "ms-playwright" InNamespace true [all_platforms "PLAYWRIGHT_BROWSERS_PATH" VarDir; all_platforms "PLAYWRIGHT_SKIP_BROWSER_GC" (VarLiteral (lit "1"))];
  mk_tool "cypress" "cypress" InSlot true [all_platforms "CYPRESS_CACHE_FOLDER" VarDir];
  mk_tool "nuget" "nuget" InNamespace true [all_platforms "NUGET_PACKAGES" (VarSub (lit "packages")); all_platforms "NUGET_HTTP_CACHE_PATH" (VarSub (lit "http-cache")); all_platforms "NUGET_PLUGINS_CACHE_PATH" (VarSub (lit "plugins-cache")); all_platforms "NUGET_SCRATCH" (VarSub (lit "scratch"))];
  mk_tool "pip" "pip" InNamespace true [all_platforms "PIP_CACHE_DIR" VarDir];
  mk_tool "uv" "uv" InNamespace true [all_platforms "UV_CACHE_DIR" VarDir];
  mk_tool "go" "go" InNamespace true [all_platforms "GOMODCACHE" (VarSub (lit "mod")); all_platforms "GOCACHE" (VarSub (lit "build"))];
  mk_tool "composer" "composer" InNamespace true [all_platforms "COMPOSER_CACHE_DIR" VarDir];
  mk_tool "cocoapods" "cocoapods" InNamespace true [unix_platforms "CP_CACHE_DIR" VarDir];
  mk_tool "ccache" "ccache" InNamespace true [all_platforms "CCACHE_DIR" VarDir];
  mk_tool "poetry" "poetry" InSlot false [all_platforms "POETRY_CACHE_DIR" VarDir];
  mk_tool "cargo" "cargo" InNamespace false [all_platforms "CARGO_HOME" VarDir];
  mk_tool "gradle" "gradle" InNamespace false [all_platforms "GRADLE_USER_HOME" VarDir];
  mk_tool "maven" "maven" InSlot false [all_platforms "MAVEN_ARGS" (VarTemplate (lit "-Dmaven.repo.local={dir}"))];
  mk_tool "pub" "pub" InSlot false [all_platforms "PUB_CACHE" VarDir];
  mk_tool "bundler" "bundler" InSlot false [all_platforms "BUNDLE_USER_CACHE" VarDir]
].
Definition tool (id : str) : option CacheTool := List.find (λ t, str_eqb (ct_id t) id) TOOLS.

(** ** Names *)

(** Everything up to the first dot, in upper case. *)
Definition device_stem (s : str) : str := to_ascii_uppercase (default s (head (split_on (N.eqb (ch ".")) s))).
Definition is_windows_device_name (s : str) : bool :=
  let stem := device_stem s in
  existsb (str_eqb stem) [lit "CON"; lit "PRN"; lit "AUX"; lit "NUL"]
  || bool_decide (len stem = 4) && (starts_with (lit "COM") stem || starts_with (lit "LPT") stem)
     && match as_bytes stem !! 3%nat with Some b => is_ascii_digit b | None => false end.
Inductive CacheError :=
  | CacheParse
  | UnknownTool (id : str) | InvalidNamespace (name : str) | InvalidTarget (key : str) | InvalidRoot (root : str)
  | CacheIo | CacheLock.
Definition namespace_name_ok (name : str) : bool :=
  negb (bool_decide (name = [])) && bool_decide (len name ≤ 64) && negb (starts_with (lit ".") name)
  && forallb (λ c, is_ascii_lowercase c || is_ascii_digit c || existsb (N.eqb c) [ch "."; ch "_"; ch "-"]) name
  && negb (is_windows_device_name name).
Definition validate_namespace_name (name : str) : result () CacheError :=
  if namespace_name_ok name then Ok tt else Err (InvalidNamespace name).

Definition MAX_SEGMENT_LEN : nat := 32.
Definition SEGMENT_DIGEST_LEN : nat := 8.
Definition portable_char (c : char) : char :=
  if is_ascii_alphanumeric c || existsb (N.eqb c) [ch "."; ch "-"; ch "_"] then c else ch "_".
Definition portable_segment (raw : str) : str :=
  let cleaned := portable_char <$> raw in
  let cleaned := if existsb (str_eqb cleaned) [[]; lit "."; lit ".."] then ch "_" :: cleaned else cleaned in
  if is_windows_device_name cleaned || ends_with (lit ".") cleaned then cleaned ++ [ch "_"] else cleaned.

Inductive Namespace := NsRepository (owner repo : str) | NsOrganization (org : str) | NsShared (name : str).
#[global] Instance Namespace_eq_dec : EqDecision Namespace.
Proof. solve_decision. Defined.
Definition ORG_PREFIX : str := lit "_org".
Definition SHARED_PREFIX : str := lit "_shared".
Definition namespace_of (t : ScaleTarget) : Namespace :=
  match t with
  | Repository r => NsRepository (to_ascii_lowercase (name_str (owner r))) (to_ascii_lowercase (name_str (repo r)))
  | Organization o => NsOrganization (to_ascii_lowercase (name_str (org_name o)))
  end.

Section Names.
(** [hex::encode(Sha256::digest(..))]. *)
Context (sha256_hex : list N → str).
Definition segment (raw : str) : str :=
  let cleaned := portable_segment raw in
  if bool_decide (len cleaned ≤ Z.of_nat MAX_SEGMENT_LEN) then cleaned
  else take (MAX_SEGMENT_LEN - SEGMENT_DIGEST_LEN - 1) cleaned ++ [ch "-"] ++ take SEGMENT_DIGEST_LEN (sha256_hex (as_bytes raw)).
Definition segments (n : Namespace) : str * str :=
  match n with
  | NsRepository o r => (segment o, segment r)
  | NsOrganization o => (ORG_PREFIX, segment o)
  | NsShared s => (SHARED_PREFIX, segment s)
  end.
End Names.

(** ** What a target gets *)

Record TargetCacheConfig := mk_target_config {
  tc_enabled : option bool;
  tc_namespace : option str;
  tc_tools : gmap str bool;
}.
Record CacheConfig := mk_cache_config {
  cf_enabled : option bool;
  cf_root : option str;
  cf_max_size_gib : option Z;   (* u64 *)
  cf_tools : gmap str bool;
  cf_targets : gmap str TargetCacheConfig;
}.
Definition GIB : Z := 1024 * 1024 * 1024.
Definition DEFAULT_MAX_SIZE_GIB : Z := 20.
Definition target_key (t : ScaleTarget) : str := to_ascii_lowercase (slug t).
Definition config_target (t : ScaleTarget) (c : CacheConfig) : option TargetCacheConfig := cf_targets c !! target_key t.
Definition max_bytes (c : CacheConfig) : option Z :=
  let gib := default DEFAULT_MAX_SIZE_GIB (cf_max_size_gib c) in
  if bool_decide (gib = 0) then None else Some (sat_mul U64_MAX gib GIB).
Definition host_enabled (c : CacheConfig) : bool := default true (cf_enabled c).

(** ** The configuration *)

Definition TargetCacheConfig_is_empty (t : TargetCacheConfig) : bool :=
  bool_decide (tc_enabled t = None ∧ tc_namespace t = None ∧ tc_tools t = ∅).
(** On Unix. *)
Definition is_absolute (p : str) : bool := starts_with (lit "/") p.
Definition validate_root_text (root : str) : result () CacheError :=
  let network := starts_with (lit "\\") root || starts_with (lit "//") root in
  if network || existsb is_whitespace root || negb (is_absolute root) then Err (InvalidRoot root) else Ok tt.
(** A [BTreeMap] in the order of its keys. *)
Definition entry_le {V} (a b : str * V) : Prop := cmp a.1 b.1 ≠ Gt.
#[global] Instance entry_le_dec {V} : RelDecision (entry_le (V := V)).
Proof. intros a b. unfold entry_le. apply _. Defined.
Definition in_order {V} (m : gmap str V) : list (str * V) := merge_sort entry_le (map_to_list m).
Fixpoint check_all {A} (check : A → result () CacheError) (l : list A) : result () CacheError :=
  match l with [] => Ok tt | x :: l => let? _ := check x in check_all check l end.
Definition check_tool (id : str) : result () CacheError :=
  match tool id with Some _ => Ok tt | None => Err (UnknownTool id) end.
Definition check_target (entry : str * TargetCacheConfig) : result () CacheError :=
  match ScaleTarget_repository entry.1, ScaleTarget_organization entry.1 with
  | Err _, Err _ => Err (InvalidTarget entry.1)
  | _, _ => match tc_namespace entry.2 with Some name => validate_namespace_name name | None => Ok tt end
  end.
Definition validate_config (c : CacheConfig) : result () CacheError :=
  let? _ := match cf_root c with Some root => validate_root_text root | None => Ok tt end in
  let? _ := check_all check_tool
    ((in_order (cf_tools c)).*1 ++ (in_order (cf_targets c) ≫= λ t, (in_order (tc_tools t.2)).*1)) in
  check_all check_target (in_order (cf_targets c)).
Definition CacheConfig_default : CacheConfig := mk_cache_config None None None ∅ ∅.
(** [toml] is another crate's: a text is a configuration or none. A missing file is the default. *)
Definition config_parse (toml : str → option CacheConfig) (text : str) : result CacheConfig CacheError :=
  match toml text with
  | None => Err CacheParse
  | Some c => let? _ := validate_config c in Ok c
  end.
Definition config_load (toml : str → option CacheConfig) (found : result str bool) : result CacheConfig CacheError :=
  match found with
  | Ok text => config_parse toml text
  | Err absent => if (absent : bool) then Ok CacheConfig_default else Err CacheIo
  end.
(** What [save] writes. *)
Definition saved_config (c : CacheConfig) : result CacheConfig CacheError :=
  let c := mk_cache_config (cf_enabled c) (cf_root c) (cf_max_size_gib c) (cf_tools c)
             (filter (λ t, TargetCacheConfig_is_empty t.2 = false) (cf_targets c)) in
  let? _ := validate_config c in Ok c.

Definition DEFAULT_ROOT_NAME : str := lit "_cache".
Inductive RootSource := RootConfigured | RootRunnerRoot | RootPlatformFallback.
Record ResolvedRoot := mk_resolved { rr_path : str; rr_source : RootSource }.
Definition usable_root (p : str) : bool := negb (existsb is_whitespace p).
(** [Path::join] with one component, on Unix. *)
Definition join_component (p name : str) : str := if ends_with (lit "/") p || bool_decide (p = []) then p ++ name else p ++ [ch "/"] ++ name.
Definition resolve_root (c : CacheConfig) (runner_root fallback : option str) : option ResolvedRoot :=
  match cf_root c with
  | Some root => Some (mk_resolved root RootConfigured)
  | None =>
      let standing_in :=
        match fallback with
        | Some p => if usable_root p && is_absolute p then Some (mk_resolved p RootPlatformFallback) else None
        | None => None
        end in
      match runner_root with
      | Some r =>
          let candidate := join_component r DEFAULT_ROOT_NAME in
          if usable_root candidate then Some (mk_resolved candidate RootRunnerRoot) else standing_in
      | None => standing_in
      end
  end.

Inductive ToolSource := SourceDefault | SourceHost | SourceTarget | SourceOperator.
Record ToolState := mk_tool_state { ts_tool : CacheTool; ts_enabled : bool; ts_source : ToolSource }.
Inductive Disabled := HostOff | TargetOff | OrganizationOptIn.
Record Selection := mk_selection {
  se_disabled : option Disabled;
  se_namespace : Namespace;
  se_tools : list ToolState;
}.
Definition select_tool (c : CacheConfig) (own : option TargetCacheConfig) (t : CacheTool) : ToolState :=
  let s := mk_tool_state t (ct_default_enabled t) SourceDefault in
  let s := match cf_tools c !! ct_id t with Some e => mk_tool_state t e SourceHost | None => s end in
  match own ≫= λ o, tc_tools o !! ct_id t with Some e => mk_tool_state t e SourceTarget | None => s end.
Definition is_repository (t : ScaleTarget) : bool := match t with Repository _ => true | Organization _ => false end.
Definition select_caches (c : CacheConfig) (t : ScaleTarget) (platform : RunnerPlatform) : Selection :=
  let own := config_target t c in
  let namespace := match own ≫= tc_namespace with Some n => NsShared n | None => namespace_of t end in
  let disabled :=
    if negb (host_enabled c) then Some HostOff
    else match own ≫= tc_enabled, t with
    | Some true, _ => None
    | Some false, _ => Some TargetOff
    | None, Repository _ => None
    | None, Organization _ => Some OrganizationOptIn
    end in
  mk_selection disabled namespace
    (select_tool c own <$>
       List.filter (λ x, applies_to platform x && (negb (str_eqb (ct_id x) (lit "git")) || is_repository t)) TOOLS).
Definition enabled_tools (s : Selection) : list CacheTool := ts_tool <$> List.filter ts_enabled (se_tools s).
Definition defer_to_operator (platform : RunnerPlatform) (is_set : str → bool) (s : Selection) : Selection :=
  mk_selection (se_disabled s) (se_namespace s)
    ((λ x, if ts_enabled x && existsb (λ v, is_set (cv_name v)) (variables_on platform (ts_tool x))
           then mk_tool_state (ts_tool x) false SourceOperator else x) <$> se_tools s).

(** ** The environment *)

(** A directory is its path below the cache root. *)
Definition dir : Type := list str.
Definition tool_dir (t : CacheTool) (namespace_dir slot_dir : dir) : dir :=
  match ct_sharing t with InNamespace => namespace_dir ++ [ct_dir t] | InSlot => slot_dir ++ [ct_dir t] end.
(** A value is a directory, a text, or a text with a directory in the place of [{dir}]. *)
Inductive rendered := RenderedDir (d : dir) | RenderedText (s : str) | RenderedTemplate (template : str) (d : dir).
Definition render (v : CacheVariable) (d : dir) : rendered * option dir :=
  match cv_value v with
  | VarDir => (RenderedDir d, Some d)
  | VarSub sub => (RenderedDir (d ++ [sub]), Some (d ++ [sub]))
  | VarLiteral s => (RenderedText s, None)
  | VarTemplate s => (RenderedTemplate s d, Some d)
  end.
Definition tool_environment (platform : RunnerPlatform) (namespace_dir slot_dir : dir) (t : CacheTool)
    : list ((str * rendered) * option dir) :=
  (λ v, let '(x, d) := render v (tool_dir t namespace_dir slot_dir) in (cv_name v, x, d)) <$> variables_on platform t.
Definition environment (tools : list CacheTool) (namespace_dir slot_dir : dir) (platform : RunnerPlatform)
    : list (str * rendered) * list dir :=
  let all := tools ≫= tool_environment platform namespace_dir slot_dir in
  (all.*1, omap snd all).
