(* ===== verification/CacheIsolation.v ===== *)
(** * Which targets share a cache

    Targets whose names fit in a segment share a directory only when they are one target,
    or when one repository's name is the other's with an underscore after a device name
    or a final dot; a repository never shares with an organization or a shared namespace.
    Longer names are shortened, and a shortened name can be another one's own. At the
    end, what a checked configuration guarantees, and what saving one keeps. *)

From stdpp Require Import strings.
From S2P Require Import Prelude RustStr Ordered Model Github RunnerEnv CacheNames.
#[local] Open Scope Z_scope.
#[local] Open Scope rust_scope.

(** ** Segments of names *)

Definition plain_name (s : str) : Prop :=
  Forall (λ c, portable_char c = c) s ∧ existsb (str_eqb s) [[]; lit "."; lit ".."] = false.
(** Names that get an underscore. *)
Definition patched (s : str) : bool := is_windows_device_name s || ends_with (lit ".") s.

Lemma portable_plain s : Forall (λ c, portable_char c = c) s → portable_char <$> s = s.
Proof. induction 1 as [|c s Hc _ IH]; [done|]. rewrite fmap_cons, Hc. by f_equal. Qed.
Lemma portable_segment_plain s : plain_name s → portable_segment s = if patched s then s ++ [ch "_"] else s.
Proof. intros [Hp He]. unfold portable_segment. rewrite (portable_plain s Hp), He. done. Qed.
Lemma portable_segment_shared a b :
  plain_name a → plain_name b → portable_segment a = portable_segment b →
  a = b ∨ (patched a = true ∧ b = a ++ [ch "_"]) ∨ (patched b = true ∧ a = b ++ [ch "_"]).
Proof.
  intros Ha Hb. rewrite (portable_segment_plain a Ha), (portable_segment_plain b Hb).
  destruct (patched a), (patched b); intros H; [left; by eapply app_inv_tail|right; left|right; right|left]; done.
Qed.

Lemma repo_char_portable c : is_repo_char c = true → portable_char (to_ascii_lower c) = to_ascii_lower c.
Proof. unfold is_repo_char, portable_char. simpl. chars. Qed.
Lemma login_char_portable c :
  is_ascii_alphanumeric c || N.eqb c (ch "-") = true →
  portable_char (to_ascii_lower c) = to_ascii_lower c ∧ to_ascii_lower c ≠ ch "_" ∧ to_ascii_lower c ≠ ch ".".
Proof. unfold portable_char. simpl. intros H. split_and!; revert H; chars. Qed.
Lemma lower_dot c : to_ascii_lower c = ch "." → c = ch ".".
Proof. chars. Qed.
Lemma lower_dots s k : to_ascii_lowercase s = replicate k (ch ".") → s = replicate k (ch ".").
Proof.
  revert k. induction s as [|c s IH]; intros [|k]; try done. simpl. intros [= Hc Hs].
  rewrite (lower_dot c Hc). f_equal. by apply IH.
Qed.
Lemma plain_intro s : Forall (λ c, portable_char c = c) s → s ≠ [] → s ≠ lit "." → s ≠ lit ".." → plain_name s.
Proof.
  intros Hs H0 H1 H2. split; [done|]. unfold str_eqb. simpl. rewrite !bool_decide_eq_false_2 by done. done.
Qed.
Lemma repo_name_plain n : valid_repo_name n → plain_name (to_ascii_lowercase (name_str n)).
Proof.
  intros (Hne & _ & H1 & H2 & Hc). apply plain_intro.
  - apply Forall_fmap. eapply Forall_impl; [exact Hc|]. apply repo_char_portable.
  - intros H. apply Hne. by apply (lower_dots _ 0).
  - intros H. apply H1. by apply (lower_dots _ 1).
  - intros H. apply H2. by apply (lower_dots _ 2).
Qed.
Lemma login_plain n : valid_login n →
  plain_name (to_ascii_lowercase (name_str n)) ∧ ch "_" ∉ to_ascii_lowercase (name_str n).
Proof.
  intros (Hne & _ & Hc & _).
  assert (∀ c, c ∈ to_ascii_lowercase (name_str n) → portable_char c = c ∧ c ≠ ch "_" ∧ c ≠ ch ".") as Hall.
  { intros c (c0 & -> & Hc0)%list_elem_of_fmap. apply login_char_portable. rewrite Forall_forall in Hc. by apply Hc. }
  assert (∀ k, to_ascii_lowercase (name_str n) ≠ replicate k (ch ".")) as Hd.
  { intros [|k] H; [apply Hne; by apply (lower_dots _ 0)|]. destruct (Hall (ch ".")) as (_ & _ & ?); [rewrite H; by left|done]. }
  split; [|intros H; by destruct (Hall _ H) as (_ & ? & _)].
  apply plain_intro; [|apply (Hd 0%nat)|apply (Hd 1%nat)|apply (Hd 2%nat)]. apply Forall_forall. intros c H. by apply Hall.
Qed.

(** ** Targets *)

Definition fits (s : str) : Prop := len (portable_segment s) ≤ 32.
Definition names_fit (n : Namespace) : Prop :=
  match n with NsRepository o r => fits o ∧ fits r | NsOrganization s | NsShared s => fits s end.

Section Isolation.
Context (sha256_hex : list N → str).
#[local] Abbreviation seg := (segment sha256_hex).

Lemma segment_fits s : fits s → seg s = portable_segment s.
Proof. intros H. unfold segment. by rewrite bool_decide_eq_true_2. Qed.
Lemma login_segments a b : valid_login a → valid_login b →
  let x := to_ascii_lowercase (name_str a) in let y := to_ascii_lowercase (name_str b) in
  fits x → fits y → seg x = seg y → x = y.
Proof.
  intros Ha Hb x y Hx Hy. rewrite (segment_fits x Hx), (segment_fits y Hy).
  destruct (login_plain a Ha) as [Pa Na], (login_plain b Hb) as [Pb Nb]. fold x in Pa, Na. fold y in Pb, Nb.
  intros [?|[[_ E]|[_ E]]]%portable_segment_shared; [done| | |done|done].
  - exfalso. apply Nb. rewrite E. set_solver.
  - exfalso. apply Na. rewrite E. set_solver.
Qed.
(** An owner's segment has no underscore at its beginning. *)
Lemma login_segment_head a s : valid_login a → let x := to_ascii_lowercase (name_str a) in
  fits x → seg x ≠ ch "_" :: s.
Proof.
  intros Ha x Hx. destruct (login_plain a Ha) as [Pa Na]. fold x in Pa, Na.
  rewrite (segment_fits x Hx), (portable_segment_plain x Pa). destruct Pa as [_ He].
  destruct x as [|c x]; [done|]. intros H. apply Na. destruct (patched (c :: x)); injection H as -> _; by left.
Qed.

(** Only these share a directory. *)
Lemma fitting_targets_share t1 t2 :
  valid_target t1 → valid_target t2 → names_fit (namespace_of t1) → names_fit (namespace_of t2) →
  segments sha256_hex (namespace_of t1) = segments sha256_hex (namespace_of t2) →
  namespace_of t1 = namespace_of t2 ∨
  ∃ o a, patched a = true ∧
    ((namespace_of t1 = NsRepository o a ∧ namespace_of t2 = NsRepository o (a ++ [ch "_"])) ∨
     (namespace_of t2 = NsRepository o a ∧ namespace_of t1 = NsRepository o (a ++ [ch "_"]))).
Proof.
  destruct t1 as [r1|o1], t2 as [r2|o2]; simpl; intros V1 V2 F1 F2 H.
  - destruct V1 as [Vo1 Vr1], V2 as [Vo2 Vr2], F1 as [Fo1 Fr1], F2 as [Fo2 Fr2]. injection H as Ho Hr.
    apply (login_segments _ _ Vo1 Vo2 Fo1 Fo2) in Ho. rewrite Ho. rewrite (segment_fits _ Fr1), (segment_fits _ Fr2) in Hr.
    apply portable_segment_shared in Hr as [->|[[Hp ->]|[Hp ->]]]; [by left|right|right|by apply repo_name_plain..].
    + eexists _, _. split; [exact Hp|]. by left.
    + eexists _, _. split; [exact Hp|]. by right.
  - exfalso. injection H as Ho _. destruct V1 as [Vo _], F1 as [Fo _]. by apply (login_segment_head _ (lit "org") Vo Fo).
  - exfalso. injection H as Ho _. destruct V2 as [Vo _], F2 as [Fo _]. by apply (login_segment_head _ (lit "org") Vo Fo).
  - injection H as Ho. apply (login_segments _ _ V1 V2 F1 F2) in Ho. left. by f_equal.
Qed.

(** The directory of a namespace is never a hidden one. *)
Lemma login_segment_visible a s : valid_login a → seg (to_ascii_lowercase (name_str a)) ≠ ch "." :: s.
Proof.
  intros Ha. pose proof Ha as (Hne & _ & Hc & _). destruct (login_plain a Ha) as [Pa Na].
  unfold segment. rewrite (portable_segment_plain _ Pa). destruct (name_str a) as [|c x]; [done|].
  apply Forall_cons in Hc as [Hc _]. destruct (login_char_portable c Hc) as (_ & _ & Hd). simpl fmap.
  destruct (patched _); (case_bool_decide as E; [simpl; by intros [= ? _]|]); unfold MAX_SEGMENT_LEN, SEGMENT_DIGEST_LEN; simpl; by intros [= ? _].
Qed.
Lemma selected_visible c t platform s :
  valid_target t → (segments sha256_hex (se_namespace (select_caches c t platform))).1 ≠ ch "." :: s.
Proof.
  intros Ht. unfold select_caches. simpl. destruct (config_target t c ≫= tc_namespace); [done|].
  destruct t as [r|o]; [|done]. simpl. by apply login_segment_visible; destruct Ht.
Qed.
End Isolation.

(** ** Names that share a directory *)

Definition repository_of (o r : str) : ScaleTarget := Repository (mk_OwnerRepo (mk_Name o) (mk_Name r)).
(** The underscore that a device name or a final dot gets can be part of another name. *)
Definition patched_pairs : list (str * str) := [(lit "con", lit "con_"); (lit "foo.", lit "foo._")].
Lemma patched_names_clash sha256_hex :
  Forall (λ '(a, b),
    valid_target (repository_of (lit "octo") a) ∧ valid_target (repository_of (lit "octo") b) ∧
    namespace_of (repository_of (lit "octo") a) ≠ namespace_of (repository_of (lit "octo") b) ∧
    segments sha256_hex (namespace_of (repository_of (lit "octo") a)) = segments sha256_hex (namespace_of (repository_of (lit "octo") b)))
    patched_pairs.
Proof.
  assert (∀ s, forallb (λ c, is_ascii_alphanumeric c || N.eqb c (ch "-")) s = true → Forall (λ c, is_ascii_alphanumeric c || N.eqb c (ch "-") = true) s) as Hl.
  { intros s H. apply Forall_forall. intros c Hc%list_elem_of_In. rewrite forallb_forall in H. by apply H. }
  assert (∀ s, forallb is_repo_char s = true → Forall (λ c, is_repo_char c = true) s) as Hr.
  { intros s H. apply Forall_forall. intros c Hc%list_elem_of_In. rewrite forallb_forall in H. by apply H. }
  repeat constructor; try done; by (apply Hl || apply Hr).
Qed.
(** A name that does not begin as a device's does. *)
Lemma not_device s : is_windows_device_name (ch "z" :: s) = false.
Proof.
  assert (∃ t, device_stem (ch "z" :: s) = ch "Z" :: t) as [t Ht].
  { unfold device_stem. cbn [split_on]. change (N.eqb (ch ".") (ch "z")) with false. cbn iota.
    destruct (split_on _ s) as [|x l]; by eexists. }
  unfold is_windows_device_name. rewrite Ht. cbn -[len as_bytes]. destruct (bool_decide _); done.
Qed.
Lemma len_ones s : Forall (λ c, len_utf8 c = 1) s → len s = Z.of_nat (length s).
Proof. induction 1 as [|c s Hc _ IH]; [done|]. unfold len in *. cbn [foldr length]. rewrite Hc, IH. lia. Qed.
(** The shortened form of a long name can be another name. *)
Lemma shortened_names_clash sha256_hex o :
  let long := replicate 40 (ch "z") in
  let digest := take SEGMENT_DIGEST_LEN (sha256_hex (as_bytes long)) in
  length digest = 8%nat → Forall (λ c, is_ascii_hexdigit c = true) digest →
  let short := replicate 23 (ch "z") ++ [ch "-"] ++ digest in
  short ≠ long ∧ segments sha256_hex (NsRepository o short) = segments sha256_hex (NsRepository o long).
Proof.
  intros long digest Hl Hh short.
  assert (segment sha256_hex long = short) as Hlong by (unfold segment; rewrite bool_decide_eq_false_2 by (vm_compute; auto); reflexivity).
  clearbody digest. assert (Forall (λ c, portable_char c = c ∧ c ≠ ch "." ∧ len_utf8 c = 1) digest) as Hc.
  { eapply Forall_impl; [exact Hh|]. intros c. unfold portable_char, len_utf8. simpl. intros H. split_and!; revert H; chars. }
  split; [intros E; apply (f_equal length) in E; unfold short, long in E; rewrite !length_app, !length_replicate, Hl in E; simpl in E; lia|].
  unfold segments. rewrite Hlong. f_equal. clearbody long. clear Hlong Hh.
  assert (plain_name short) as Hp.
  { split; [|done]. apply Forall_app. split; [by apply Forall_replicate|]. constructor; [done|].
    eapply Forall_impl; [exact Hc|]. by intros c (? & _). }
  assert (patched short = false) as Hn.
  { unfold patched. apply orb_false_intro; [apply (not_device (replicate 22 (ch "z") ++ [ch "-"] ++ digest))|].
    apply not_true_is_false. intros Hd. apply (ends_with_char (ch ".") short) in Hd.
    destruct digest as [|d digest _] using rev_ind; [done|]. unfold short in Hd. rewrite !app_assoc, last_snoc in Hd. injection Hd as ->.
    apply Forall_app in Hc as [_ Hc]. apply Forall_inv in Hc as (_ & ? & _). done. }
  assert (len short ≤ 32) as Hs.
  { rewrite (len_ones short); [unfold short; rewrite !length_app, length_replicate, Hl; done|].
    apply Forall_app. split; [by apply Forall_replicate|]. constructor; [done|]. eapply Forall_impl; [exact Hc|]. by intros c (_ & _ & ?). }
  unfold segment. rewrite (portable_segment_plain short Hp), Hn. by rewrite bool_decide_eq_true_2.
Qed.

(** ** Configurations *)

Lemma resolved_root_clean c runner_root fallback root :
  validate_config c = Ok tt → resolve_root c runner_root fallback = Some root → usable_root (rr_path root) = true.
Proof.
  intros Hc Hr. unfold resolve_root in Hr. destruct (cf_root c) as [text|] eqn:E.
  - injection Hr as <-. unfold validate_config in Hc. rewrite E in Hc. unfold validate_root_text, usable_root in *. simpl.
    destruct (existsb is_whitespace text); [|done]. by rewrite orb_true_r in Hc.
  - assert (∀ p, (if usable_root p && is_absolute p then Some (mk_resolved p RootPlatformFallback) else None) = Some root →
      usable_root (rr_path root) = true) as Hf.
    { intros p. destruct (usable_root p) eqn:Eu; simpl; [|done]. destruct (is_absolute p); [|done]. by intros [= <-]. }
    destruct runner_root as [r|]; [destruct (usable_root (join_component _ _)) eqn:Eu; [by injection Hr as <-|]|];
      (destruct fallback; [by eapply Hf|done]).
Qed.
#[local] Opaque TOOLS.
(** What is written is valid, is written the same again, and gives every target the same. *)
Lemma saved_entry t c c' :
  saved_config c = Ok c' →
  config_target t c' = config_target t c ∨ (config_target t c' = None ∧ ∃ x, config_target t c = Some x ∧ TargetCacheConfig_is_empty x = true).
Proof.
  unfold saved_config, config_target. destruct (validate_config _); [|done]. intros [= <-]. simpl.
  destruct (cf_targets c !! target_key t) as [x|] eqn:E.
  - destruct (TargetCacheConfig_is_empty x) eqn:Ex.
    + right. split; [|by exists x]. apply map_lookup_filter_None. right. intros y Hy. rewrite E in Hy. injection Hy as <-. simpl. congruence.
    + left. by apply map_lookup_filter_Some.
  - left. apply map_lookup_filter_None. by left.
Qed.
Lemma saved_config_faithful c c' :
  saved_config c = Ok c' →
  validate_config c' = Ok tt ∧ saved_config c' = Ok c' ∧ ∀ t platform, select_caches c' t platform = select_caches c t platform.
Proof.
  intros Hs. pose proof (λ t, saved_entry t c c' Hs) as He. unfold saved_config in Hs.
  destruct (validate_config _) as [[]|] eqn:Ev; [|done]. injection Hs as <-. split_and!; [done| |].
  - unfold saved_config. simpl. rewrite map_filter_filter_r by done. by rewrite Ev.
  - intros t platform. unfold select_caches.
    destruct (He t) as [->|(-> & x & -> & Hx)]; [done|]. apply bool_decide_eq_true_1 in Hx as (H1 & H2 & H3).
    simpl. rewrite H1, H2. f_equal. apply list_fmap_ext. intros i y _. unfold select_tool. simpl. rewrite H3, lookup_empty. done.
Qed.
(** A target written in another case is accepted and never found. *)
Lemma lower_key t : to_ascii_lowercase (target_key t) = target_key t.
Proof. unfold target_key, to_ascii_lowercase. rewrite <-list_fmap_compose. apply list_fmap_ext. intros i c _. simpl. chars. Qed.
Definition mixed_config : CacheConfig :=
  mk_cache_config None None None ∅ {[ lit "Octo/Hello" := mk_target_config (Some false) None ∅ ]}.
Lemma mixed_case_target_ignored :
  validate_config mixed_config = Ok tt ∧ (∀ t, config_target t mixed_config = None) ∧
  se_disabled (select_caches mixed_config (repository_of (lit "Octo") (lit "Hello")) RpLinux) = None.
Proof.
  split_and!; [by vm_compute| |by vm_compute]. intros t. unfold config_target, mixed_config. simpl.
  apply lookup_singleton_ne. intros E. pose proof (lower_key t) as H. rewrite <-E in H. by vm_compute in H.
Qed.
