(* ===== verification/Caches.v ===== *)
(** * Dependency caches: slots, launches and pruning

    [prepare_launch], [measure], [plan_prune] and [prune] of
    [crates/platform/src/dependency_cache.rs], and the daemon's half,
    [crates/agent/src/dependency_caches.rs]. Directories are below one cache root, which
    stays the same. A loop without a bound of its own gets [turns]; [None] is a loop that
    has not ended. At the end, what [plan_prune] chooses. *)

From stdpp Require Import strings sorting.
From S2P Require Import Prelude RustStr Ordered Model Github Effects RunnerEnv CacheNames.
#[local] Open Scope Z_scope.
#[local] Open Scope rust_scope.

Definition TRASH_DIR : str := lit ".trash".
Definition SLOTS_DIR : str := lit "_slots".
Definition LEASE_EXTENSION : str := lit "lease".
Definition LAST_USED_FILE : str := lit ".last-used".
Definition GIT_ENVIRONMENT : str := lit "RUNNER_MANAGER_GIT_CACHE_DIR".

(** A namespace's directory is its two segments. *)
Definition space : Type := str * str.
Definition namespace_dir (n : space) : dir := [n.1; n.2].
Definition slots_dir (n : space) : dir := namespace_dir n ++ [SLOTS_DIR].
Definition slot_dir (n : space) (slot : Z) : dir := slots_dir n ++ [show_uint slot].
Definition lease_file (slot : str) : str := slot ++ [ch "."] ++ LEASE_EXTENSION.
Definition lease_name (slot : Z) : str := lease_file (show_uint slot).
(** [path.extension().is_some_and(|ext| ext == LEASE_EXTENSION)]. *)
Definition is_lease (file : str) : bool :=
  ends_with (lease_file []) file && negb (str_eqb file (lease_file [])).
Definition name_text (n : space) : str := n.1 ++ [ch "/"] ++ n.2.

Record LaunchCaches := mk_launch {
  lc_namespace : space;
  lc_slot : Z;
  lc_variables : list (str * rendered);
}.
Record NamespaceUsage := mk_usage {
  nu_name : space;
  nu_bytes : Z;                          (* u64 *)
  nu_last_used : option Timestamp;
  nu_in_use : bool;
}.
Record CacheUsage := mk_cache_usage {
  cu_measured_at : Timestamp;
  cu_total_bytes : Z;
  cu_max_bytes : option Z;
  cu_namespaces : list NamespaceUsage;
  cu_pruned : list space;
}.
Inductive PruneRefusal := PruneBusy | PruneConfig | PruneRoot | PruneNoRoot | PruneFailed | PruneOff.
Record PruneResult := mk_prune_result { pr_request : str; pr_outcome : result CacheUsage PruneRefusal }.

(** ** Calls *)

Inductive filekind := KindDir | KindFile | KindOther.
Inductive ccall :=
  | CcConfig | CcRoot (c : CacheConfig) | CcRootIsDir
  | CcVars                                            (* the process's environment *)
  | CcMkdir (d : dir)                                 (* with its parents *)
  | CcLock | CcUnlock                                 (* the root's host lock *)
  | CcRead (n : space) (file : str)                   (* a lease; the error says whether it is absent *)
  | CcCreate (n : space) (file : str) | CcWrite (n : space) (file text : str)
  | CcTouch (n : space)
  | CcBin (runtime : str)                             (* is [bin] a directory; or an error, as for a lease *)
  | CcList (d : dir)
  | CcMeta (d : dir)                                  (* without following links *)
  | CcIsFile (d : dir) | CcIsDir (d : dir)            (* following them *)
  | CcModified (d : dir)
  | CcAside (n : space)                               (* into [.trash], under a new name *)
  | CcRemove (d : dir)
  | CcUtc | CcPublish (u : CacheUsage)
  | CcSwap | CcClear                                  (* [PRUNING] *)
  | CcAnswer (r : PruneResult)
  | CcGitPrepare (value : rendered) (t : ScaleTarget) (runtime : str)
  | CcGitTarget (runtime : str) | CcGitCapture (d : dir) (t : ScaleTarget) (runtime : str)
  | CcLayOut (runtime : str)                          (* a runner package was put there *)
  | CcEnded (runtime : str).                          (* its runner is known to have ended *)
Definition canswer (e : ccall) : Type :=
  match e with
  | CcConfig => result CacheConfig ()
  | CcRoot _ | CcMkdir _ | CcLock | CcCreate _ _ | CcWrite _ _ _ | CcTouch _ | CcAside _ | CcRemove _ | CcPublish _
  | CcGitCapture _ _ _ => result () ()
  | CcRootIsDir | CcIsFile _ | CcIsDir _ | CcSwap => bool
  | CcVars => list (option str * str)
  | CcRead _ _ => result str bool
  | CcBin _ => result bool bool
  | CcList _ => result (list str) ()
  | CcMeta _ => option (filekind * Z)
  | CcModified _ => option Timestamp
  | CcUtc => Timestamp
  | CcGitTarget _ => result (option ScaleTarget) ()
  | _ => unit
  end.
#[global] Abbreviation cprogram := (free canswer) (only parsing).
#[global] Abbreviation cop e := (@op ccall canswer e) (only parsing).
Definition or_io {A} (m : cprogram (result A ())) : cprogram (result A CacheError) :=
  x ← m; mret (match x with Ok a => Ok a | Err _ => Err CacheIo end).

(** ** Launch *)

Definition runtime_holds_runner (runtime : str) : cprogram bool :=
  x ← cop (CcBin runtime);
  mret (match x with Ok is_dir => is_dir | Err absent => negb absent end).
(** Of a slot. *)
Definition slot_is_free (n : space) (own : str) (slot : Z) : cprogram bool :=
  x ← cop (CcRead n (lease_name slot));
  match x with
  | Err absent => mret absent
  | Ok holder => if str_eqb holder own then mret true else held ← runtime_holds_runner holder; mret (negb held)
  end.
Fixpoint free_slot_from (turns : nat) (n : space) (own : str) (slot : Z) : cprogram (option Z) :=
  match turns with
  | O => mret None
  | S turns => free ← slot_is_free n own slot; if (free : bool) then mret (Some slot) else free_slot_from turns n own (slot + 1)
  end.
Definition free_slot (turns : nat) (n : space) (own : str) : cprogram (option Z) := free_slot_from turns n own 1.
(** [fs::write] of a lease. *)
Definition write_lease (n : space) (slot : Z) (text : str) : cprogram (result () ()) :=
  bind_ok (cop (CcCreate n (lease_name slot))) (λ _, cop (CcWrite n (lease_name slot) text)).
(** What is done while the lock is held. *)
Definition lease_slot (turns : nat) (n : space) (runtime : str) : cprogram (option (result Z CacheError)) :=
  made ← cop (CcMkdir (slots_dir n));
  match made with
  | Err _ => mret (Some (Err CacheIo))
  | Ok _ =>
      found ← free_slot turns n runtime;
      match found with
      | None => mret None
      | Some slot =>
          x ← bind_ok (or_io (write_lease n slot runtime)) (λ _,
              bind_ok (or_io (cop (CcTouch n))) (λ _, mret (Ok slot)));
          mret (Some x)
      end
  end.
Definition lock_cache_root : cprogram (result () CacheError) :=
  x ← cop CcLock; mret (match x with Ok _ => Ok tt | Err _ => Err CacheLock end).
Definition locked {A} (m : cprogram (option (result A CacheError))) : cprogram (option (result A CacheError)) :=
  l ← lock_cache_root;
  match l with
  | Err e => mret (Some (Err e))
  | Ok _ => x ← m; match x with Some y => _ ← cop CcUnlock; mret (Some y) | None => mret None end
  end.
Definition make_dirs (dirs : list dir) : cprogram (result () CacheError) :=
  for_each_ok dirs (λ d _, or_io (cop (CcMkdir d))) tt.
Definition prepare_launch (turns : nat) (n : space) (tools : list CacheTool) (runtime : str) (platform : RunnerPlatform)
    : cprogram (option (result LaunchCaches CacheError)) :=
  made ← cop (CcMkdir []);
  match made with
  | Err _ => mret (Some (Err CacheIo))
  | Ok _ =>
      x ← locked (lease_slot turns n runtime);
      match x with
      | None => mret None
      | Some (Err e) => mret (Some (Err e))
      | Some (Ok slot) =>
          let '(variables, dirs) := environment tools (namespace_dir n) (slot_dir n slot) platform in
          y ← bind_ok (make_dirs dirs) (λ _, mret (Ok (mk_launch n slot variables)));
          mret (Some y)
      end
  end.

(** ** Pruning *)

Fixpoint any_held (files : list str) (n : space) : cprogram bool :=
  match files with
  | [] => mret false
  | file :: files =>
      held ← (if is_lease file then
                x ← cop (CcRead n file);
                match x with Ok holder => runtime_holds_runner holder | Err _ => mret true end
              else mret false);
      if (held : bool) then mret true else any_held files n
  end.
Definition namespace_in_use (n : space) : cprogram bool :=
  x ← cop (CcList (slots_dir n));
  match x with Err _ => mret false | Ok files => any_held files n end.

(** The entries of a directory: what they add, and the directories among them. *)
Fixpoint measure_entries (d : dir) (names : list str) (total : Z) (pending : list dir) : cprogram (Z * list dir) :=
  match names with
  | [] => mret (total, pending)
  | name :: names =>
      m ← cop (CcMeta (d ++ [name]));
      match m with
      | Some (KindDir, _) => measure_entries d names total ((d ++ [name]) :: pending)
      | Some (KindFile, bytes) => measure_entries d names (sat_add U64_MAX total bytes) pending
      | _ => measure_entries d names total pending
      end
  end.
(** The stack's top is the list's head. *)
Fixpoint tree_size_from (turns : nat) (total : Z) (pending : list dir) : cprogram (option Z) :=
  match turns with
  | O => mret None
  | S turns =>
      match pending with
      | [] => mret (Some total)
      | d :: pending =>
          x ← cop (CcList d);
          match x with
          | Err _ => tree_size_from turns total pending
          | Ok names => y ← measure_entries d names total pending; tree_size_from turns y.1 y.2
          end
      end
  end.
Definition tree_size (turns : nat) (d : dir) : cprogram (option Z) := tree_size_from turns 0 [d].

Definition is_dir_entry (d : dir) : cprogram bool :=
  m ← cop (CcMeta d); mret (match m with Some (KindDir, _) => true | _ => false end).
Fixpoint inner_dirs (outer : str) (names : list str) : cprogram (list space) :=
  match names with
  | [] => mret []
  | name :: names =>
      let n := (outer, name) in
      file ← cop (CcIsFile (namespace_dir n ++ [LAST_USED_FILE]));
      marked ← (if (file : bool) then mret true else cop (CcIsDir (slots_dir n)));
      found ← (if (marked : bool) then is_dir_entry (namespace_dir n) else mret false);
      rest ← inner_dirs outer names;
      mret (if (found : bool) then n :: rest else rest)
  end.
Fixpoint outer_dirs (names : list str) : cprogram (list space) :=
  match names with
  | [] => mret []
  | outer :: names =>
      wanted ← (if starts_with (lit ".") outer then mret false else is_dir_entry [outer]);
      here ← (if (wanted : bool) then
                x ← cop (CcList [outer]); match x with Ok inner => inner_dirs outer inner | Err _ => mret [] end
              else mret []);
      rest ← outer_dirs names;
      mret (here ++ rest)
  end.
Definition space_le (a b : space) : Prop := cmp (name_text a) (name_text b) ≠ Gt.
#[global] Instance space_le_dec : RelDecision space_le.
Proof. intros a b. unfold space_le. apply _. Defined.
Definition namespace_dirs : cprogram (list space) :=
  x ← cop (CcList []);
  match x with Err _ => mret [] | Ok names => found ← outer_dirs names; mret (merge_sort space_le found) end.
Fixpoint measure_all (turns : nat) (spaces : list space) : cprogram (option (list NamespaceUsage)) :=
  match spaces with
  | [] => mret (Some [])
  | n :: spaces =>
      bytes ← tree_size turns (namespace_dir n);
      match bytes with
      | None => mret None
      | Some bytes =>
          marker ← cop (CcModified (namespace_dir n ++ [LAST_USED_FILE]));
          last_used ← (match marker with Some t => mret (Some t) | None => cop (CcModified (namespace_dir n)) end);
          in_use ← namespace_in_use n;
          rest ← measure_all turns spaces;
          mret (cons (mk_usage n bytes last_used in_use) <$> rest)
      end
  end.
Definition measure (turns : nat) : cprogram (option (list NamespaceUsage)) := spaces ← namespace_dirs; measure_all turns spaces.

(** [sum] of [u64]s, which wraps. *)
Definition sum_u64 (l : list Z) : Z := foldl (λ a x, (a + x) mod (U64_MAX + 1)) 0 l.
Definition used_cmp (a b : option Timestamp) : comparison :=
  match a, b with
  | None, None => Eq
  | None, Some _ => Lt
  | Some _, None => Gt
  | Some x, Some y => x ?= y
  end.
Definition usage_cmp (a b : NamespaceUsage) : comparison :=
  match used_cmp (nu_last_used a) (nu_last_used b) with
  | Eq => cmp (name_text (nu_name a)) (name_text (nu_name b))
  | c => c
  end.
Definition usage_le (a b : NamespaceUsage) : Prop := usage_cmp a b ≠ Gt.
#[global] Instance usage_le_dec : RelDecision usage_le.
Proof. intros a b. unfold usage_le. apply _. Defined.
Definition idle_namespaces (namespaces : list NamespaceUsage) : list NamespaceUsage :=
  merge_sort usage_le (List.filter (λ ns, negb (nu_in_use ns)) namespaces).
Fixpoint choose (max total : Z) (idle : list NamespaceUsage) : list space :=
  match idle with
  | [] => []
  | ns :: idle => if bool_decide (total ≤ max) then [] else nu_name ns :: choose max (sat_sub total (nu_bytes ns)) idle
  end.
Definition plan_prune (namespaces : list NamespaceUsage) (max_bytes : option Z) : list space :=
  match max_bytes with
  | None => []
  | Some max => choose max (sum_u64 (nu_bytes <$> namespaces)) (idle_namespaces namespaces)
  end.

Fixpoint remove_entries (names : list str) : cprogram () :=
  match names with [] => mret tt | name :: names => _ ← cop (CcRemove [TRASH_DIR; name]); remove_entries names end.
Definition empty_trash : cprogram () :=
  x ← cop (CcList [TRASH_DIR]);
  match x with Err _ => mret tt | Ok names => remove_entries names end.
(** Each one is checked again, under the lock. *)
Fixpoint set_aside (planned pruned : list space) : cprogram (list space) :=
  match planned with
  | [] => mret pruned
  | n :: planned =>
      in_use ← namespace_in_use n;
      if (in_use : bool) then set_aside planned pruned
      else moved ← cop (CcAside n); set_aside planned (match moved with Ok _ => pruned ++ [n] | Err _ => pruned end)
  end.
Definition prune_planned (planned : list space) : cprogram (option (result (list space) CacheError)) :=
  match planned with
  | [] => mret (Some (Ok []))
  | _ =>
      made ← cop (CcMkdir [TRASH_DIR]);
      match made with
      | Err _ => mret (Some (Err CacheIo))
      | Ok _ => locked (pruned ← set_aside planned []; mret (Some (Ok pruned)))
      end
  end.
Definition prune (turns : nat) (max_bytes : option Z) : cprogram (option (result CacheUsage CacheError)) :=
  _ ← empty_trash;
  measured ← measure turns;
  match measured with
  | None => mret None
  | Some namespaces =>
      x ← prune_planned (plan_prune namespaces max_bytes);
      match x with
      | None => mret None
      | Some (Err e) => mret (Some (Err e))
      | Some (Ok pruned) =>
          _ ← empty_trash;
          let left := List.filter (λ ns, negb (bool_decide (nu_name ns ∈ pruned))) namespaces in
          now ← cop CcUtc;
          let usage := mk_cache_usage now (sum_u64 (nu_bytes <$> left)) max_bytes left pruned in
          y ← bind_ok (or_io (cop (CcPublish usage))) (λ _, mret (Ok usage));
          mret (Some y)
      end
  end.

(** ** The daemon's half *)

Definition inherited_in (vars : list (option str * str)) (name : str) : bool :=
  existsb (λ kv, negb (bool_decide (kv.2 = [])) && match kv.1 with Some key => eq_ignore_ascii_case key name | None => false end) vars.

Section Agent.
Context (sha256_hex : list N → str) (platform : RunnerPlatform).

Definition for_launch (turns : nat) (t : ScaleTarget) (runtime : str) (host_env : RunnerEnv)
    : cprogram (option (list (str * rendered))) :=
  c ← cop CcConfig;
  match c with
  | Err _ => mret (Some [])
  | Ok config =>
      let selection := select_caches config t platform in
      if bool_decide (is_Some (se_disabled selection)) then mret (Some [])
      else
        vars ← cop CcVars;
        let selection := defer_to_operator platform (λ name,
          inherited_in vars name || existsb (λ kv, eq_ignore_ascii_case kv.1 name) (entries host_env)) selection in
        root ← cop (CcRoot config);
        match root with
        | Err _ => mret (Some [])
        | Ok _ =>
            x ← prepare_launch turns (segments sha256_hex (se_namespace selection)) (enabled_tools selection) runtime platform;
            match x with
            | None => mret None
            | Some (Err _) => mret (Some [])
            | Some (Ok launch) =>
                _ ← (if is_repository t then
                       match List.find (λ v, str_eqb v.1 GIT_ENVIRONMENT) (lc_variables launch) with
                       | Some v => cop (CcGitPrepare v.2 t runtime)
                       | None => mret tt
                       end
                     else mret tt);
                mret (Some (lc_variables launch))
            end
        end
  end.

Definition git_tools (s : Selection) : list CacheTool := List.filter (λ t, str_eqb (ct_id t) (lit "git")) (enabled_tools s).
(** [false] while a loop has not ended. *)
Definition capture_git (turns : nat) (runtime : str) : cprogram bool :=
  held ← runtime_holds_runner runtime;
  if negb held then mret true
  else
    x ← cop (CcGitTarget runtime);
    match x with
    | Ok (Some t) =>
        c ← cop CcConfig;
        match c with
        | Err _ => mret true
        | Ok config =>
            let selection := select_caches config t platform in
            if bool_decide (is_Some (se_disabled selection)) || negb (existsb (λ t, str_eqb (ct_id t) (lit "git")) (enabled_tools selection))
            then mret true
            else
              root ← cop (CcRoot config);
              match root with
              | Err _ => mret true
              | Ok _ =>
                  let n := segments sha256_hex (se_namespace selection) in
                  x ← prepare_launch turns n (git_tools selection) runtime platform;
                  match x with
                  | None => mret false
                  | Some (Err _) => mret true
                  | Some (Ok _) => _ ← cop (CcGitCapture (namespace_dir n ++ [lit "git"]) t runtime); mret true
                  end
              end
        end
    | _ => mret true
    end.

Definition prune_unguarded (turns : nat) (only_when_enabled : bool) : cprogram (option (result (option CacheUsage) PruneRefusal)) :=
  c ← cop CcConfig;
  match c with
  | Err _ => mret (Some (Err PruneConfig))
  | Ok config =>
      if only_when_enabled && negb (host_enabled config) then mret (Some (Ok None))
      else
        root ← cop (CcRoot config);
        match root with
        | Err _ => mret (Some (Err PruneRoot))
        | Ok _ =>
            exists_ ← cop CcRootIsDir;
            if negb exists_ then mret (Some (Err PruneNoRoot))
            else
              x ← prune turns (max_bytes config);
              mret (match x with
                    | None => None
                    | Some (Ok usage) => Some (Ok (Some usage))
                    | Some (Err _) => Some (Err PruneFailed)
                    end)
        end
  end.
Definition prune_guarded (turns : nat) (only_when_enabled : bool) : cprogram (option (result (option CacheUsage) PruneRefusal)) :=
  busy ← cop CcSwap;
  if (busy : bool) then mret (Some (Err PruneBusy))
  else x ← prune_unguarded turns only_when_enabled; match x with Some y => _ ← cop CcClear; mret (Some y) | None => mret None end.
Definition prune_scheduled (turns : nat) : cprogram bool :=
  x ← prune_guarded turns true; mret (bool_decide (is_Some x)).
Definition answer_prune_request (turns : nat) (request : str) : cprogram bool :=
  x ← prune_guarded turns false;
  match x with
  | None => mret false
  | Some y =>
      let outcome := match y with Ok (Some usage) => Ok usage | Ok None => Err PruneOff | Err e => Err e end in
      _ ← cop (CcAnswer (mk_prune_result request outcome));
      mret true
  end.

(** An attempt: its package is laid out, then its runner starts with the variables; and
    what is done when the runner has ended. *)
Definition launching (turns : nat) (t : ScaleTarget) (runtime : str) (host_env : RunnerEnv) : cprogram (option (list (str * rendered))) :=
  _ ← cop (CcLayOut runtime); for_launch turns t runtime host_env.
Definition capturing (turns : nat) (runtime : str) : cprogram (option (list (str * rendered))) :=
  _ ← cop (CcEnded runtime); _ ← capture_git turns runtime; mret None.
Definition pruning (turns : nat) (m : option str) : cprogram (option (list (str * rendered))) :=
  _ ← (match m with Some request => answer_prune_request turns request | None => prune_scheduled turns end); mret None.
End Agent.

(** ** What a prune removes

    The plan of a prune: namespaces that are not in use, least recently used first, no
    more than it takes, and as many as it takes unless there are no more. *)

Definition total_bytes (l : list NamespaceUsage) : Z := foldr (λ ns a, nu_bytes ns + a) 0 l.
Definition measured (ns : NamespaceUsage) : Prop := 0 ≤ nu_bytes ns.

Lemma total_nonneg l : Forall measured l → 0 ≤ total_bytes l.
Proof. induction 1 as [|ns l H _ IH]; simpl; [done|]. unfold measured in H. lia. Qed.
Lemma total_permutation l l' : l ≡ₚ l' → total_bytes l = total_bytes l'.
Proof. induction 1; simpl; lia. Qed.
Lemma sum_u64_from a l : Forall measured l → 0 ≤ a → a + total_bytes l ≤ U64_MAX →
  foldl (λ a x, (a + x) mod (U64_MAX + 1)) a (nu_bytes <$> l) = a + total_bytes l.
Proof.
  intros Hl. revert a. induction Hl as [|ns l H Hl IH]; intros a Ha Hb; simpl in *; [lia|]. unfold measured in H.
  pose proof (total_nonneg l Hl). rewrite Z.mod_small by lia. rewrite IH by lia. lia.
Qed.
Lemma sum_u64_exact l : Forall measured l → total_bytes l ≤ U64_MAX → sum_u64 (nu_bytes <$> l) = total_bytes l.
Proof. intros Hl Hb. unfold sum_u64. by rewrite sum_u64_from by (done || lia). Qed.

(** A prefix of the idle ones, and the shortest that fits. *)
Lemma choose_prefix max total idle :
  Forall measured idle → total_bytes idle ≤ total →
  ∃ k, (k ≤ length idle)%nat ∧ choose max total idle = nu_name <$> take k idle ∧
    (k = length idle ∨ total - total_bytes (take k idle) ≤ max) ∧
    ∀ j, (j < k)%nat → max < total - total_bytes (take j idle).
Proof.
  intros Hi. revert total. induction Hi as [|ns idle H Hi IH]; intros total Ht; simpl in Ht.
  { exists 0%nat. simpl. split_and!; [lia|done|by left|lia]. }
  unfold measured in H. pose proof (total_nonneg idle Hi). cbn [choose]. case_bool_decide as E.
  { exists 0%nat. simpl. split_and!; [lia|done|right; lia|lia]. }
  assert (sat_sub total (nu_bytes ns) = total - nu_bytes ns) as -> by (unfold sat_sub; lia).
  destruct (IH (total - nu_bytes ns)) as (k & Hk & -> & Hfit & Hmin); [lia|]. exists (S k). simpl. split_and!; [lia|done| |].
  - destruct Hfit as [->|Hfit]; [by left|right; lia].
  - intros [|j] Hj; simpl; [lia|]. specialize (Hmin j ltac:(lia)). lia.
Qed.
Lemma idle_measured l : Forall measured l → Forall measured (idle_namespaces l) ∧ total_bytes (idle_namespaces l) ≤ total_bytes l.
Proof.
  intros Hl. unfold idle_namespaces.
  rewrite (total_permutation _ _ (merge_sort_Permutation usage_le (List.filter _ l))), (merge_sort_Permutation usage_le (List.filter _ l)).
  induction Hl as [|ns l H Hl [IH1 IH2]]; simpl; [done|]. unfold measured in H.
  destruct (nu_in_use ns); simpl; (split; [|lia]); [done|]. by constructor.
Qed.
Lemma idle_elem ns l : ns ∈ idle_namespaces l ↔ ns ∈ l ∧ nu_in_use ns = false.
Proof.
  unfold idle_namespaces. rewrite merge_sort_Permutation, <-negb_true_iff. setoid_rewrite list_elem_of_In. apply filter_In.
Qed.

(** Least recently used first; the name decides between equals. *)
Lemma used_cmp_opp a b : used_cmp b a = CompOpp (used_cmp a b).
Proof. destruct a, b; try done. simpl. apply Z.compare_antisym. Qed.
#[local] Instance usage_le_total : Total usage_le.
Proof.
  intros a b. unfold usage_le, usage_cmp. rewrite (used_cmp_opp (nu_last_used a)).
  destruct (used_cmp _ _); simpl; [|by left|by right]. rewrite (cmp_opp (name_text (nu_name a)) (name_text (nu_name b))).
  destruct (cmp (name_text (nu_name a)) _); simpl; [by left|by left|by right].
Qed.
Lemma idle_sorted l : Sorted usage_le (idle_namespaces l).
Proof. apply Sorted_merge_sort, _. Qed.

(** What is left fits under the cap, or nothing idle is left; nothing in use is chosen,
    and no fewer would do. *)
Lemma plan_prune_minimal l max :
  Forall measured l → total_bytes l ≤ U64_MAX →
  ∃ chosen spared, idle_namespaces l = chosen ++ spared ∧ Sorted usage_le (chosen ++ spared) ∧
    plan_prune l (Some max) = nu_name <$> chosen ∧ Forall (λ ns, ns ∈ l ∧ nu_in_use ns = false) chosen ∧
    (spared = [] ∨ total_bytes l - total_bytes chosen ≤ max) ∧
    ∀ fewer, fewer `prefix_of` chosen → fewer ≠ chosen → max < total_bytes l - total_bytes fewer.
Proof.
  intros Hl Hb. destruct (idle_measured l Hl) as [Hi Ht].
  destruct (choose_prefix max (total_bytes l) (idle_namespaces l) Hi Ht) as (k & Hk & Hc & Hfit & Hmin).
  exists (take k (idle_namespaces l)), (drop k (idle_namespaces l)). rewrite take_drop. split_and!; [done|apply idle_sorted| | | |].
  - simpl. by rewrite sum_u64_exact.
  - apply Forall_forall. intros ns Hns%elem_of_take. by apply idle_elem; destruct Hns as (? & ?%list_elem_of_lookup_2 & _).
  - destruct Hfit as [->|Hfit]; [left; apply drop_all|by right].
  - intros fewer Hp Hne. destruct Hp as [rest E]. assert (length fewer < k)%nat as Hlt.
    { apply (f_equal length) in E as E'. rewrite length_app, length_take_le in E' by done. destruct rest; [rewrite app_nil_r in E; congruence|].
      simpl in E'. lia. }
    rewrite <-(take_app_length fewer rest), <-E, take_take. rewrite Nat.min_l by lia. by apply Hmin.
Qed.
