(* ===== verification/CacheSafety.v ===== *)
(** * Cache slots are lent to one runner at a time

    Launches, captures and prunes of any number of processes run at once over the leases
    below one cache root; a process may die at any call, and a lease may be left half
    written. The lock of the root is as [LockSafety] shows locks to be. *)

From Stdlib Require Import Relations.
From stdpp Require Import strings sorting.
From S2P Require Import Prelude RustStr Ordered Model Github Effects Tasks RunnerEnv CacheNames CacheIsolation Caches.
#[local] Open Scope Z_scope.
#[local] Open Scope rust_scope.

(** The package of an attempt, and who runs it. *)
Inductive rstatus := RsPending | RsRunning (i : nat) | RsEnded | RsGone.
#[global] Instance rstatus_eq_dec : EqDecision rstatus.
Proof. solve_decision. Defined.
Definition rank (s : rstatus) : nat := match s with RsPending => 0 | RsRunning _ => 1 | RsEnded => 2 | RsGone => 3 end.
Definition advance (s s' : rstatus) : Prop := s = s' ∨ (rank s < rank s')%nat.
#[global] Instance advance_preorder : PreOrder advance.
Proof. split; [by left|]. intros a b c [->|H1] [->|H2]; unfold advance; auto. right. lia. Qed.

(** A lease says a text; [Some i] when the task wrote it whole. *)
Record cacheworld := mk_cacheworld {
  cw_dead : gset nat;
  cw_lock : option nat;
  cw_leases : gmap (space * str) (str * option nat);
  cw_status : str → rstatus;
}.
Implicit Types (w : cacheworld) (i j : nat) (n : space) (k : space * str) (r : str).
Definition with_root_lock l w := mk_cacheworld (cw_dead w) l (cw_leases w) (cw_status w).
Definition with_leases m w := mk_cacheworld (cw_dead w) (cw_lock w) m (cw_status w).
Definition with_status r s w :=
  mk_cacheworld (cw_dead w) (cw_lock w) (cw_leases w) (λ r', if decide (r' = r) then s else cw_status w r').
Definition expiring i w :=
  mk_cacheworld ({[ i ]} ∪ cw_dead w) (if decide (cw_lock w = Some i) then None else cw_lock w) (cw_leases w) (cw_status w).
Definition living i w : Prop := i ∉ cw_dead w.
Definition lease_path k : dir := slots_dir k.1 ++ [k.2].
Definition without (P : space * str → Prop) `{∀ k, Decision (P k)} (m : gmap (space * str) (str * option nat)) :=
  filter (λ kv, ¬ P kv.1) m.

Section CacheSafety.
(** Whether a read of a directory shows all its leases, and fails only where there are none. *)
Context (honest : bool).

Definition cache_act i w (e : ccall) : canswer e → cacheworld → Prop :=
  match e return canswer e → cacheworld → Prop with
  | CcLock => λ x w', living i w ∧
      match x with Ok _ => cw_lock w = None ∧ w' = with_root_lock (Some i) w | Err _ => w' = w end
  | CcUnlock => λ _ w', living i w ∧ w' = if decide (cw_lock w = Some i) then with_root_lock None w else w
  | CcRead n f => λ x w', living i w ∧ w' = w ∧
      match x with
      | Ok text => ∃ by_, cw_leases w !! (n, f) = Some (text, by_)
      | Err absent => absent = true → cw_leases w !! (n, f) = None
      end
  | CcCreate n f => λ x w', living i w ∧
      match x with Ok _ => w' = with_leases (<[ (n, f) := ([], None) ]> (cw_leases w)) w | Err _ => w' = w end
  | CcWrite n f text => λ x w', living i w ∧
      match x with
      | Ok _ => w' = with_leases (<[ (n, f) := (text, Some i) ]> (cw_leases w)) w
      | Err _ => ∃ part, part `prefix_of` text ∧ w' = with_leases (<[ (n, f) := (part, None) ]> (cw_leases w)) w
      end
  | CcBin r => λ x w', living i w ∧ w' = w ∧
      ((rank (cw_status w r) = 1 ∨ rank (cw_status w r) = 2)%nat → x = Ok true ∨ x = Err false)
  | CcList d => λ x w', living i w ∧ w' = w ∧ ∀ n f, honest = true → d = slots_dir n → is_Some (cw_leases w !! (n, f)) → ∃ files, x = Ok files ∧ f ∈ files
  | CcAside n => λ x w', living i w ∧
      match x with Ok _ => w' = with_leases (without (λ k, k.1 = n) (cw_leases w)) w | Err _ => w' = w end
  | CcRemove d => λ _ w', living i w ∧ ∃ gone : gset (space * str),
      (∀ k, k ∈ gone → d `prefix_of` lease_path k) ∧ w' = with_leases (without (.∈ gone) (cw_leases w)) w
  | CcLayOut r => λ _ w', living i w ∧ cw_status w r = RsPending ∧
      (∀ k j, cw_leases w !! k ≠ Some (r, Some j)) ∧ w' = with_status r (RsRunning i) w
  | CcEnded r => λ _ w', living i w ∧ (rank (cw_status w r) = 1 ∨ rank (cw_status w r) = 2)%nat ∧ w' = with_status r RsEnded w
  | _ => λ _ w', living i w ∧ w' = w
  end.
(** A runner ends, its package goes; a process dies, and its lock is released. *)
Inductive cache_tick : cacheworld → cacheworld → Prop :=
  | ctick_status w r s : advance (cw_status w r) s → (∀ i, s ≠ RsRunning i) → cache_tick w (with_status r s w)
  | ctick_die w i : cache_tick w (expiring i w).

(** A lease nobody else may touch. *)
Definition lent i k w : Prop :=
  k.1.1 ≠ TRASH_DIR ∧ is_lease k.2 = true ∧ ∃ r, cw_leases w !! k = Some (r, Some i) ∧ cw_status w r = RsRunning i.
Definition cache_asks i w (e : ccall) : Prop :=
  living i w →
  match e with
  | CcCreate n f | CcWrite n f _ => cw_lock w = Some i ∧ ∀ j, lent j (n, f) w → j = i
  | CcAside n => cw_lock w = Some i ∧ ∀ f j, ¬ lent j (n, f) w
  | CcRemove d => ∃ name, d = [TRASH_DIR; name]
  | _ => True
  end.

(** ** Interference *)

Definition around i w w' : Prop :=
  cw_dead w ⊆ cw_dead w' ∧
  (∀ r, advance (cw_status w r) (cw_status w' r)) ∧
  (∀ r, cw_status w' r = RsRunning i → cw_status w r = RsRunning i) ∧
  (∀ k r, k.1.1 ≠ TRASH_DIR → is_lease k.2 = true → cw_leases w !! k = Some (r, Some i) → cw_status w' r = RsRunning i →
     cw_leases w' !! k = Some (r, Some i)) ∧
  (living i w' → cw_lock w = Some i →
     cw_lock w' = Some i ∧ (∀ k, k.1.1 ≠ TRASH_DIR → cw_leases w' !! k = cw_leases w !! k) ∧
     (∀ k j, lent j k w' → lent j k w)).
Lemma living_before i w w' : cw_dead w ⊆ cw_dead w' → living i w' → living i w.
Proof. unfold living. set_solver. Qed.
#[global] Instance around_preorder i : PreOrder (around i).
Proof.
  split.
  - intros w. split_and!; [done|done|done|done|]. by intros _ ->.
  - intros w1 w2 w3 (D1 & S1 & R1 & K1 & L1) (D2 & S2 & R2 & K2 & L2). split_and!; [set_solver|intros r; by transitivity (cw_status w2 r)|by eauto| |].
    + intros k r Ht Hk Hw Hr. apply K2; [done|done| |done]. apply K1; [done|done|done|by apply R2].
    + intros Ha Hl. destruct (L1 (living_before _ _ _ D2 Ha) Hl) as (Hl2 & E1 & P1), (L2 Ha Hl2) as (Hl3 & E2 & P2).
      split_and!; [done| |by eauto]. intros k Hk. by rewrite E2, E1.
Qed.

Lemma around_intro i w w' :
  cw_dead w ⊆ cw_dead w' → (∀ r, cw_status w' r = cw_status w r) → cw_lock w' = cw_lock w →
  (∀ k r, k.1.1 ≠ TRASH_DIR → is_lease k.2 = true → cw_leases w !! k = Some (r, Some i) → cw_status w r = RsRunning i →
     cw_leases w' !! k = Some (r, Some i)) →
  (cw_lock w = Some i → ∀ k, k.1.1 ≠ TRASH_DIR → cw_leases w' !! k = cw_leases w !! k) → around i w w'.
Proof.
  intros Hd Hs Hl Hk He. split_and!; [done|by intros r; rewrite Hs|by intros r; rewrite Hs| |].
  - intros k r Ht Hf Hw. rewrite Hs. by apply Hk.
  - intros _ Hi. split_and!; [by rewrite Hl|by apply He|]. intros k j (Ht & Hf & r & Hw & Hr).
    split_and!; [done|done|]. exists r. rewrite <-(He Hi k Ht), <-Hs. done.
Qed.
Lemma with_status_around i w r s :
  advance (cw_status w r) s → s ≠ RsRunning i →
  (∀ j k, s = RsRunning j → cw_leases w !! k ≠ Some (r, Some j)) → around i w (with_status r s w).
Proof.
  intros Ha Hs Hn. split_and!; simpl; [done| | |done|].
  - intros r'. by destruct (decide (r' = r)) as [->|].
  - intros r'. by destruct (decide (r' = r)) as [->|].
  - intros _ Hl. split_and!; [done|done|]. intros k j (Ht & Hf & r' & Hk & Hr). simpl in *. split_and!; [done|done|].
    exists r'. split; [done|]. destruct (decide (r' = r)) as [->|]; [|done]. by destruct (Hn j k Hr).
Qed.
Lemma ctick_around j w w' : cache_tick w w' → around j w w'.
Proof.
  destruct 1 as [w r s Hs Hr|w i].
  - apply with_status_around; [done|by apply Hr|]. intros j' k Hj. by destruct (Hr j').
  - split_and!; simpl; [set_solver|done|done|done|]. intros Ha Hl. unfold living in Ha. simpl in Ha.
    rewrite decide_False by (rewrite Hl; intros [= ->]; set_solver). done.
Qed.
Lemma act_living i w e x w' : cache_act i w e x w' → living i w.
Proof. destruct e; by intros [? _]. Qed.
Lemma without_keeps (P : space * str → Prop) `{∀ k, Decision (P k)} m k : ¬ P k → without P m !! k = m !! k.
Proof.
  intros Hk. unfold without. apply option_eq. intros x. rewrite map_lookup_filter_Some. naive_solver.
Qed.
(** Of a lease under the lock. *)
Lemma insert_around i j w n f x :
  i ≠ j → cw_lock w = Some i → (∀ j', lent j' (n, f) w → j' = i) → around j w (with_leases (<[ (n, f) := x ]> (cw_leases w)) w).
Proof.
  intros Hij Hl Hp. apply around_intro; [done|done|done| |by rewrite Hl; intros [= ->]].
  intros k r Ht Hf Hk Hr. simpl. destruct (decide (k = (n, f))) as [->|Hne]; [|by rewrite lookup_insert_ne].
  destruct Hij. symmetry. apply Hp. split_and!; [done|done|by exists r].
Qed.
Lemma trash_path k name : [TRASH_DIR; name] `prefix_of` lease_path k → k.1.1 = TRASH_DIR.
Proof. intros [z Hz]. by injection Hz. Qed.
Lemma cact_around i j w e x w' : i ≠ j → cache_asks i w e → cache_act i w e x w' → around j w w'.
Proof.
  intros Hij Ha H. specialize (Ha (act_living _ _ _ _ _ H)).
  destruct e; cbn [cache_act] in H; destruct H as [Hal H].
  all: try (by subst w'; reflexivity).
  all: try (by destruct H as [-> _]; reflexivity).
  - destruct x as [[]|]; [|by subst w'; reflexivity]. destruct H as [Hn ->]. split_and!; [done|done|done|done|]. by rewrite Hn.
  - destruct (decide _) as [Hl|]; subst w'; [|reflexivity]. split_and!; [done|done|done|done|]. by rewrite Hl; intros _ [= ->].
  - destruct Ha as [Hl Hp]. destruct x as [[]|]; subst w'; [|reflexivity]. by apply (insert_around i).
  - destruct Ha as [Hl Hp]. destruct x as [[]|]; [subst w'|destruct H as (part & _ & ->)]; by apply (insert_around i).
  - destruct Ha as [Hl Hp]. destruct x as [[]|]; subst w'; [|reflexivity].
    apply around_intro; [done|done|done| |by rewrite Hl; intros [= ->]].
    intros k r Ht Hf Hk Hr. simpl. rewrite without_keeps; [done|]. destruct k as [n' f]. intros E. simpl in E. subst n'.
    destruct (Hp f j). split_and!; [done|done|by exists r].
  - destruct Ha as [name ->], H as (gone & Hg & ->).
    assert (∀ k, k.1.1 ≠ TRASH_DIR → without (.∈ gone) (cw_leases w) !! k = cw_leases w !! k) as He.
    { intros k Hk. apply without_keeps. intros Hin. by apply Hk, (trash_path k name), Hg. }
    apply around_intro; [done|done|done| |done]. intros k r Ht _ Hk _. simpl. by rewrite He.
  - destruct H as (Hp & Hn & ->). apply with_status_around; [rewrite Hp; right; simpl; lia|congruence|].
    by intros j' k [= <-].
  - destruct H as (Hr & ->). apply with_status_around; [|done|done]. unfold advance.
    destruct (cw_status w runtime); simpl in *; auto; lia.
Qed.

(** ** A task *)

#[local] Abbreviation V i := (task_env cache_asks cache_act around i).

(** Calls that leave the leases outside [.trash], the lock and the runners alone. *)
Definition calm (e : ccall) : Prop :=
  match e with
  | CcLock | CcUnlock | CcCreate _ _ | CcWrite _ _ _ | CcAside _ | CcLayOut _ | CcEnded _ => False
  | CcRemove d => ∃ name, d = [TRASH_DIR; name]
  | _ => True
  end.
Lemma calm_asks i w e : calm e → cache_asks i w e.
Proof. intros He _. by destruct e. Qed.
Lemma calm_around i w e x w' : calm e → does (V i) w e x w' → around i w w'.
Proof.
  intros He (w1 & H & Hr). etransitivity; [|exact Hr]. clear Hr.
  destruct e; try done; cbn [cache_act] in H; destruct H as [_ H].
  all: try (by subst w1).
  all: try (by destruct H as [-> _]).
  destruct He as [name ->], H as (gone & Hg & ->).
  assert (∀ k, k.1.1 ≠ TRASH_DIR → without (.∈ gone) (cw_leases w) !! k = cw_leases w !! k) as He.
  { intros k Hk. apply without_keeps. intros Hin. by apply Hk, (trash_path k name), Hg. }
  apply around_intro; [done|done|done| |done]. intros k r Ht _ Hk _. simpl. by rewrite He.
Qed.
Lemma sat_around {A} i e (c : canswer e → free canswer A) w (Q : cacheworld → A → Prop) :
  calm e → (∀ x w', around i w w' → sat (V i) (c x) w' Q) → sat (V i) (op e ≫= c) w Q.
Proof. intros He H. apply sat_op_bind; [by apply calm_asks|]. intros x w' Hd. apply H. by eapply calm_around. Qed.
Lemma sat_undisturbed {A} i (m : free canswer A) w : within calm m → sat (V i) m w (λ w' _, around i w w').
Proof.
  intros Hm. eapply sat_mono; [apply (sat_within (V i) calm (λ _, True) (around i)); [| |exact Hm|done]|by intros ? ? []].
  - intros w0 e _. apply calm_asks.
  - intros w0 e x w' _ He Hd. split; [done|]. by eapply calm_around.
Qed.

(** What a task knows, which the others leave true: that a runtime is its own or over;
    that it has the lock; that a file's lease is not another's; and that it has a lease. *)
Definition mine i r w : Prop := cw_status w r = RsRunning i ∨ (2 ≤ rank (cw_status w r))%nat.
Definition holding i w : Prop := living i w → cw_lock w = Some i.
Definition free_for i n f w : Prop := living i w → ∀ j, lent j (n, f) w → j = i.
Definition leased i n f r w : Prop :=
  n.1 ≠ TRASH_DIR → cw_status w r = RsRunning i → cw_leases w !! (n, f) = Some (r, Some i).
Lemma mine_around i r w w' : around i w w' → mine i r w → mine i r w'.
Proof.
  intros (_ & Hs & _) H. unfold mine in *. destruct (Hs r) as [E|Ha]; [by rewrite <-E|]. right.
  destruct H as [H|H]; [rewrite H in Ha; simpl in Ha|]; lia.
Qed.
Lemma holding_around i w w' : around i w w' → holding i w → holding i w'.
Proof. intros (Hd & _ & _ & _ & Hl) H Ha. apply Hl; [done|]. by apply H, (living_before _ _ _ Hd). Qed.
Lemma free_around i n f w w' : around i w w' → holding i w → free_for i n f w → free_for i n f w'.
Proof.
  intros (Hd & _ & _ & _ & Hl) H Hf Ha j Hj. pose proof (living_before _ _ _ Hd Ha) as Ha0.
  destruct (Hl Ha (H Ha0)) as (_ & _ & Hp). by apply (Hf Ha0), Hp.
Qed.
Lemma leased_around i n f r w w' : is_lease f = true → around i w w' → leased i n f r w → leased i n f r w'.
Proof. intros Hf (_ & _ & Hr & Hk & _) H Ht Hs. apply Hk; [done|done| |done]. apply H; [done|by apply Hr]. Qed.

(** ** Leasing *)

Lemma runner_spec i r w :
  sat (V i) (runtime_holds_runner r) w (λ w' held, around i w w' ∧
    (held = false → living i w ∧ (rank (cw_status w r) = 0 ∨ rank (cw_status w r) = 3)%nat)).
Proof.
  apply sat_op_bind; [done|]. intros x w' Hd. apply sat_ret. split; [by eapply (calm_around i w (CcBin r))|].
  destruct Hd as (w1 & (Ha & _ & Hx) & _). intros Hf. split; [done|].
  destruct (cw_status w r); simpl in *; auto; destruct Hx as [-> | ->]; auto; done.
Qed.
Lemma not_lent j k w text by_ :
  cw_leases w !! k = Some (text, by_) → (rank (cw_status w text) = 0 ∨ rank (cw_status w text) = 3)%nat → ¬ lent j k w.
Proof. intros Hk Hs (_ & _ & r & Hr & E). rewrite Hk in Hr. injection Hr as -> _. rewrite E in Hs. simpl in Hs. lia. Qed.
Lemma slot_is_free_spec i n own slot w :
  mine i own w → holding i w →
  sat (V i) (slot_is_free n own slot) w (λ w' b, around i w w' ∧ (b = true → free_for i n (lease_name slot) w')).
Proof.
  intros Hm Hh. unfold slot_is_free. apply sat_op_bind; [done|]. intros x w1 Hd.
  pose proof (calm_around i w (CcRead n (lease_name slot)) x w1 I Hd) as Hb1. destruct Hd as (w0 & (Ha & _ & Hx) & _).
  destruct x as [holder|absent].
  - destruct Hx as [by_ Hx]. destruct (str_eqb holder own) eqn:Eo; unfold str_eqb in Eo.
    + apply bool_decide_eq_true_1 in Eo as ->. apply sat_ret. split; [done|]. intros _.
      apply (free_around i n _ w); [done|done|]. intros _ j (_ & _ & r & Hr & Hs). rewrite Hx in Hr. injection Hr as <- _.
      destruct Hm as [Hm|Hm]; rewrite Hs in Hm; [by injection Hm|simpl in Hm; lia].
    + apply sat_bind. eapply sat_mono; [apply runner_spec|]. intros w2 held [Hb2 Hf]. apply sat_ret. split; [by etransitivity|]. intros Hneg. destruct held; [done|].
      destruct (Hf eq_refl) as [Ha1 Hs]. pose proof (holding_around _ _ _ Hb1 Hh) as Hh1.
      apply (free_around i n _ w1); [done|done|]. intros _ j Hj. exfalso.
      destruct Hb1 as (_ & _ & _ & _ & Hl). destruct (Hl Ha1 (Hh Ha)) as (_ & He & _).
      apply (not_lent j (n, lease_name slot) w1 holder by_); [|done|done]. rewrite He; [done|]. by destruct Hj.
  - apply sat_ret. split; [done|]. intros ->. apply (free_around i n _ w); [done|done|].
    intros _ j (_ & _ & r & Hr & _). by rewrite Hx in Hr.
Qed.
Lemma free_slot_spec i turns n own w slot0 :
  mine i own w → holding i w →
  sat (V i) (free_slot_from turns n own slot0) w
    (λ w' x, around i w w' ∧ ∀ slot, x = Some slot → free_for i n (lease_name slot) w').
Proof.
  revert w slot0. induction turns as [|turns IH]; intros w slot0 Hm Hh; [by apply sat_ret|]. cbn [free_slot_from].
  apply sat_bind. eapply sat_mono; [by apply slot_is_free_spec|]. intros w1 b [Hb Hf]. destruct b.
  - apply sat_ret. split; [done|]. intros slot [= <-]. by apply Hf.
  - eapply sat_mono; [apply IH; [by eapply mine_around|by eapply holding_around]|]. intros w2 x [Hb2 Hx]. split; [by etransitivity|done].
Qed.

Lemma lease_name_lease slot : is_lease (lease_name slot) = true.
Proof.
  unfold is_lease, lease_name, str_eqb. apply andb_true_intro. split.
  - apply ends_with_spec. by exists (show_uint slot).
  - apply negb_true_iff, bool_decide_eq_false_2. unfold lease_file. intros H. apply app_inv_tail in H. by apply (show_uint_nonempty slot).
Qed.
#[local] Hint Resolve lease_name_lease : core.
Definition lent_out i n r w (x : option (result Z CacheError)) : Prop := ∀ slot, x = Some (Ok slot) → leased i n (lease_name slot) r w.
Lemma write_lease_spec i n slot r w :
  holding i w → free_for i n (lease_name slot) w →
  sat (V i) (write_lease n slot r) w (λ w' x, holding i w' ∧ (x = Ok tt → leased i n (lease_name slot) r w')).
Proof.
  intros Hh Hf. unfold write_lease. apply sat_bind_ok, sat_op.
  { intros Ha. split; [by apply Hh|by apply Hf]. }
  intros x w2 (w1 & [Ha H] & Hr). assert (holding i w2) as Hh2.
  { apply (holding_around _ _ _ Hr). destruct x; subst w1; [|done]. intros _. by apply Hh. }
  destruct x as [[]|]; [|done]. subst w1. apply sat_op.
  { intros Ha2. split; [by apply Hh2|]. refine (free_around i n _ _ _ Hr _ _ Ha2).
    - intros _. by apply Hh.
    - intros _ j (_ & _ & r' & Hr' & _). simpl in Hr'. rewrite lookup_insert_eq in Hr'. done. }
  intros x w4 (w3 & [Ha3 H3] & Hr3). split.
  - apply (holding_around _ _ _ Hr3). intros _. destruct x; [subst w3|destruct H3 as (part & _ & ->)]; by apply Hh2.
  - intros ->. subst w3. apply (leased_around i n _ r _ _ (lease_name_lease slot) Hr3). intros _ _. simpl. by rewrite lookup_insert_eq.
Qed.
Lemma lease_slot_spec i turns n r w :
  mine i r w → holding i w → sat (V i) (lease_slot turns n r) w (λ w' x, lent_out i n r w' x).
Proof.
  intros Hm Hh. unfold lease_slot. apply sat_around; [done|]. intros made w1 Hb1. destruct made; [|by apply sat_ret].
  apply sat_bind. eapply sat_mono; [apply free_slot_spec; [by eapply mine_around|by eapply holding_around]|].
  intros w2 [slot|] [Hb2 Hf]; [|by apply sat_ret]. apply sat_bind, sat_bind_ok. unfold or_io. apply sat_bind.
  eapply sat_mono; [apply write_lease_spec; [by do 2 (eapply holding_around; [done|])|by apply Hf]|].
  intros w3 [[]|] [Hh3 Hl]; apply sat_ret; [|by apply sat_ret]. apply sat_bind_ok, sat_around; [done|]. intros x w4 Hb4.
  destruct x; apply sat_ret, sat_ret; [|done]. apply sat_ret. intros slot' [= <-].
  by eapply leased_around; [|exact Hb4|apply Hl].
Qed.

(** A critical section. *)
Definition stable i (P : cacheworld → Prop) : Prop :=
  (∀ w w', around i w w' → P w → P w') ∧ ∀ w l, P w → P (with_root_lock l w).
Lemma locked_spec {A} i (m : cprogram (option (result A CacheError))) (P : cacheworld → Prop) Q w :
  stable i P → (∀ x, stable i (λ w, Q w x)) → (∀ w e, P w → Q w (Some (Err e))) →
  (∀ w, P w → holding i w → sat (V i) m w Q) → P w → sat (V i) (locked m) w Q.
Proof.
  intros [HP1 HP2] HQ He Hm Hw. unfold locked, lock_cache_root. apply sat_bind, sat_op_bind; [done|].
  intros x w2 (w1 & [Ha H] & Hr). destruct x as [[]|].
  - destruct H as [_ ->]. apply sat_ret, sat_bind. eapply sat_mono.
    { apply Hm; [by eapply HP1, HP2|]. by apply (holding_around _ _ _ Hr). }
    intros w3 [y|] Hy; [|by apply sat_ret]. apply sat_op_bind; [done|]. intros _ w5 (w4 & [_ ->] & Hr4). apply sat_ret.
    destruct (HQ (Some y)) as [HQ1 HQ2]. apply (HQ1 _ _ Hr4). destruct (decide _); [by apply HQ2|done].
  - subst w1. apply sat_ret, sat_ret, He. by eapply HP1.
Qed.
Lemma mine_stable i r : stable i (mine i r).
Proof. split; [intros w w'; apply mine_around|done]. Qed.
Lemma lent_out_stable i n r x : stable i (λ w, lent_out i n r w x).
Proof. split; [|done]. intros w w' Hb H slot E. eapply leased_around; [done|exact Hb|by apply H]. Qed.

Definition launched i n tools r platform w (x : option (result LaunchCaches CacheError)) : Prop :=
  ∀ l, x = Some (Ok l) →
    lc_variables l = (environment tools (namespace_dir n) (slot_dir n (lc_slot l)) platform).1 ∧
    leased i n (lease_name (lc_slot l)) r w.
Lemma make_dirs_calm dirs : within calm (make_dirs dirs).
Proof. apply within_for_each_ok. by intros d _. Qed.
Lemma prepare_launch_spec i turns n tools r platform w :
  mine i r w → sat (V i) (prepare_launch turns n tools r platform) w (launched i n tools r platform).
Proof.
  intros Hm. unfold prepare_launch. apply sat_around; [done|]. intros made w1 Hb1. destruct made; [|by apply sat_ret].
  apply sat_bind. eapply sat_mono.
  { apply (locked_spec i _ (mine i r) (lent_out i n r)); [apply mine_stable|apply lent_out_stable|done| |by eapply mine_around].
    intros w2 Hm2 Hh2. by apply lease_slot_spec. }
  intros w2 [[slot|e]|] Hs; [|by apply sat_ret|by apply sat_ret]. destruct (environment _ _ _ _) as [variables dirs] eqn:Ee.
  apply sat_bind, sat_bind_ok. eapply sat_mono; [apply sat_undisturbed, make_dirs_calm|].
  intros w3 [[]|] Hb3; [|by apply sat_ret]. apply sat_ret, sat_ret. intros l [= <-]. cbn [lc_variables lc_slot]. rewrite Ee. split; [done|].
  eapply leased_around; [done|exact Hb3|by apply Hs].
Qed.

(** ** Pruning *)

Definition idle i n f w : Prop := living i w → ∀ j, ¬ lent j (n, f) w.
Lemma idle_around i n f w w' : around i w w' → holding i w → idle i n f w → idle i n f w'.
Proof.
  intros (Hd & _ & _ & _ & Hl) H Hf Ha j Hj. pose proof (living_before _ _ _ Hd Ha) as Ha0.
  destruct (Hl Ha (H Ha0)) as (_ & _ & Hp). by apply (Hf Ha0 j), Hp.
Qed.
Lemma any_held_spec i files n w :
  holding i w → sat (V i) (any_held files n) w (λ w' b, around i w w' ∧ (b = false → ∀ f, f ∈ files → idle i n f w')).
Proof.
  revert w. induction files as [|file files IH]; intros w Hh.
  { apply sat_ret. split; [done|]. intros _ f Hf. by apply not_elem_of_nil in Hf. }
  cbn [any_held]. apply sat_bind.
  apply (sat_mono _ _ _ (λ w' b, around i w w' ∧ (b = false → idle i n file w'))).
  - destruct (is_lease file) eqn:El; [|apply sat_ret; split; [done|]; intros _ _ j (_ & Hl & _); simpl in Hl; congruence].
    apply sat_op_bind; [done|]. intros x w1 Hd. pose proof (calm_around i w (CcRead n file) x w1 I Hd) as Hb1.
    destruct Hd as (w0 & (Ha & _ & Hx) & _). destruct x as [holder|]; [|by apply sat_ret]. destruct Hx as [by_ Hx].
    eapply sat_mono; [apply runner_spec|]. intros w2 held [Hb2 Hf]. split; [by etransitivity|].
    intros ->. destruct (Hf eq_refl) as [Ha1 Hs]. apply (idle_around i n _ w1); [done|by eapply holding_around|].
    intros _ j Hj. destruct Hb1 as (_ & _ & _ & _ & Hl). destruct (Hl Ha1 (Hh Ha)) as (_ & He & _).
    apply (not_lent j (n, file) w1 holder by_); [|done|done]. rewrite He; [done|]. by destruct Hj.
  - intros w1 [] [Hb1 Hf]; [by apply sat_ret|]. pose proof (holding_around _ _ _ Hb1 Hh) as Hh1.
    eapply sat_mono; [by apply IH|]. intros w2 b [Hb2 Hx]. split; [by etransitivity|]. intros E f [->|Hin]%elem_of_cons; [|by apply Hx].
    apply (idle_around i n _ w1); [done|done|by apply Hf].
Qed.

Context (honest_reads : honest = true).
Lemma namespace_in_use_spec i n w :
  holding i w → sat (V i) (namespace_in_use n) w (λ w' b, around i w w' ∧ (b = false → ∀ f, idle i n f w')).
Proof.
  intros Hh. unfold namespace_in_use. apply sat_op_bind; [done|]. intros x w1 Hd.
  pose proof (calm_around i w (CcList (slots_dir n)) x w1 I Hd) as Hb1. destruct Hd as (w0 & (_ & _ & Hx) & _).
  assert (∀ f, (∀ files, x = Ok files → f ∉ files) → idle i n f w1) as Hnone.
  { intros f Hf. apply (idle_around i n f w); [done|done|]. intros _ j (_ & _ & r & Hr & _).
    destruct (Hx n f honest_reads eq_refl) as (files & -> & Hin); [by rewrite Hr|]. by apply (Hf files). }
  destruct x as [files|]; [|apply sat_ret; split; [done|]; intros _ f; by apply Hnone].
  pose proof (holding_around _ _ _ Hb1 Hh) as Hh1. eapply sat_mono; [by apply any_held_spec|].
  intros w2 b [Hb2 Hf]. split; [by etransitivity|]. intros E f. destruct (decide (f ∈ files)) as [Hin|Hin]; [by apply Hf|].
  apply (idle_around i n f w1); [done|done|]. apply Hnone. by intros ? [= <-].
Qed.
Lemma aside_spec i planned pruned w : holding i w → sat (V i) (set_aside planned pruned) w (λ _ _, True).
Proof.
  revert pruned w. induction planned as [|n planned IH]; intros pruned w Hh; [by apply sat_ret|]. cbn [set_aside].
  apply sat_bind. eapply sat_mono; [by apply namespace_in_use_spec|]. intros w1 b [Hb1 Hi].
  pose proof (holding_around _ _ _ Hb1 Hh) as Hh1. destruct b; [by apply IH|].
  apply sat_op_bind; [intros Ha; split; [by apply Hh1|intros f; by apply Hi]|]. intros x w3 (w2 & [Ha H] & Hr).
  apply IH, (holding_around _ _ _ Hr). intros _. destruct x; subst w2; by apply Hh1.
Qed.
Lemma prune_planned_spec i planned w : sat (V i) (prune_planned planned) w (λ _ _, True).
Proof.
  unfold prune_planned. destruct planned as [|n planned]; [by apply sat_ret|]. apply sat_around; [done|]. intros made w1 _.
  destruct made; [|by apply sat_ret]. apply (locked_spec i _ (λ _, True) (λ _ _, True)); [done|done|done| |done].
  intros w2 _ Hh. apply sat_bind. eapply sat_mono; [by apply aside_spec|]. by intros; apply sat_ret.
Qed.

(** Measuring only reads. *)
Lemma runner_calm r : within calm (runtime_holds_runner r).
Proof. done. Qed.
Lemma in_use_calm n : within calm (namespace_in_use n).
Proof.
  apply within_bind; [done|]. intros [files|]; [|done]. induction files as [|file files IH]; [done|]. cbn [any_held].
  apply within_bind; [|by intros []]. destruct (is_lease file); [|done]. apply within_bind; [done|]. by intros [].
Qed.
Lemma measure_entries_calm d names total pending : within calm (measure_entries d names total pending).
Proof.
  revert total pending. induction names as [|name names IH]; intros total pending; [done|]. cbn [measure_entries].
  apply within_bind; [done|]. intros [[[] bytes]|]; apply IH.
Qed.
Lemma tree_size_calm turns total pending : within calm (tree_size_from turns total pending).
Proof.
  revert total pending. induction turns as [|turns IH]; intros total [|d pending]; [done..|]. cbn [tree_size_from].
  apply within_bind; [done|]. intros [names|]; [|apply IH]. apply within_bind; [apply measure_entries_calm|]. intros y. apply IH.
Qed.
Lemma inner_dirs_calm outer names : within calm (inner_dirs outer names).
Proof.
  induction names as [|name names IH]; [done|]. cbn [inner_dirs]. apply within_bind; [done|]. intros file.
  apply within_bind; [by destruct file|]. intros marked. apply within_bind; [by destruct marked|]. intros found.
  by apply within_bind.
Qed.
Lemma outer_dirs_calm names : within calm (outer_dirs names).
Proof.
  induction names as [|outer names IH]; [done|]. cbn [outer_dirs]. apply within_bind; [by destruct (starts_with _ _)|].
  intros []; (apply within_bind; [|intros here; by apply within_bind]); [|done].
  apply within_bind; [done|]. intros []; [apply inner_dirs_calm|done].
Qed.
Lemma measure_calm turns : within calm (measure turns).
Proof.
  apply within_bind.
  - apply within_bind; [done|]. intros [names|]; [|done]. by apply within_bind; [apply outer_dirs_calm|].
  - intros spaces. induction spaces as [|n spaces IH]; [done|]. cbn [measure_all]. apply within_bind; [apply tree_size_calm|].
    intros [bytes|]; [|done]. apply within_bind; [done|]. intros marker. apply within_bind; [by destruct marker|]. intros used.
    apply within_bind; [apply in_use_calm|]. intros in_use. by apply within_bind.
Qed.
Lemma empty_trash_calm : within calm empty_trash.
Proof.
  apply within_bind; [done|]. intros [names|]; [|done]. induction names as [|name names IH]; [done|]. cbn [remove_entries].
  apply within_bind; [|done]. split; [by exists name|done].
Qed.
Lemma prune_spec i turns max_bytes w : sat (V i) (prune turns max_bytes) w (λ _ _, True).
Proof.
  unfold prune. apply sat_bind. eapply sat_mono; [apply sat_undisturbed, empty_trash_calm|]. intros w1 _ _.
  apply sat_bind. eapply sat_mono; [apply sat_undisturbed, measure_calm|]. intros w2 [namespaces|] _; [|by apply sat_ret].
  apply sat_bind. eapply sat_mono; [apply prune_planned_spec|]. intros w3 [[pruned|]|] _; [|by apply sat_ret|by apply sat_ret].
  apply sat_bind. eapply sat_mono; [apply sat_undisturbed, empty_trash_calm|]. intros w4 _ _. apply sat_around; [done|]. intros now w5 _.
  cbv zeta. apply sat_bind, sat_bind_ok, sat_around; [done|]. intros [] w6 _; by apply sat_ret.
Qed.

(** ** The daemon *)

Context (sha256_hex : list N → str) (platform : RunnerPlatform).
(** The variables of a launch: none, or those of a namespace and a slot it has a lease of. *)
Definition equipped i r w (variables : list (str * rendered)) : Prop :=
  variables = [] ∨ ∃ n slot tools,
    n.1 ≠ TRASH_DIR ∧ tools ⊆ TOOLS ∧
    variables = (environment tools (namespace_dir n) (slot_dir n slot) platform).1 ∧ leased i n (lease_name slot) r w.
#[local] Opaque TOOLS.
Lemma select_tool_tool c own t : ts_tool (select_tool c own t) = t.
Proof. unfold select_tool. by destruct (cf_tools c !! ct_id t), (own ≫= _). Qed.
Lemma enabled_known c t is_set : enabled_tools (defer_to_operator platform is_set (select_caches c t platform)) ⊆ TOOLS.
Proof.
  intros x. unfold enabled_tools. rewrite list_elem_of_fmap. intros (y & -> & [Hy _]%list_elem_of_In%filter_In).
  apply list_elem_of_In, list_elem_of_fmap in Hy as (z & -> & Hz). simpl in Hz.
  apply list_elem_of_fmap in Hz as (u & -> & [Hu _]%list_elem_of_In%filter_In).
  apply list_elem_of_In. destruct (_ && _); simpl; by rewrite select_tool_tool.
Qed.
Lemma deferred_namespace is_set s : se_namespace (defer_to_operator platform is_set s) = se_namespace s.
Proof. done. Qed.
Lemma for_launch_spec i turns t r host_env w :
  valid_target t → mine i r w →
  sat (V i) (for_launch sha256_hex platform turns t r host_env) w (λ w' x, ∀ variables, x = Some variables → equipped i r w' variables).
Proof.
  intros Ht Hm. unfold for_launch.
  assert (∀ w0, sat (V i) (mret (Some [])) w0 (λ w' x, ∀ variables, x = Some variables → equipped i r w' variables)) as Hno.
  { intros w0. apply sat_ret. intros variables [= <-]. by left. }
  apply sat_around; [done|]. intros [config|] w1 Hb1; [|apply Hno]. cbv zeta. case_bool_decide; [apply Hno|].
  apply sat_around; [done|]. intros vars w2 Hb2. apply sat_around; [done|]. intros [|] w3 Hb3; [|apply Hno].
  apply sat_bind. match goal with |- context [defer_to_operator platform ?f _] => set (is_set := f) end.
  pose proof (enabled_known config t is_set) as Hk. rewrite deferred_namespace.
  pose proof (selected_visible sha256_hex config t platform (lit "trash") Ht) as Hv.
  set (n := segments _ _) in Hv |- *. set (tools := enabled_tools _) in Hk |- *. clearbody n tools. eapply sat_mono.
  { apply prepare_launch_spec. by do 3 (eapply mine_around; [done|]). }
  intros w4 [[l|]|] Hl; [|apply Hno|by apply sat_ret]. destruct (Hl l eq_refl) as [Ev Hs].
  apply sat_bind. eapply sat_mono.
  { apply sat_undisturbed. destruct (is_repository t); [|done]. by destruct (List.find _ _). }
  intros w5 ? Hb5. apply sat_ret. intros variables [= <-]. right. exists n, (lc_slot l), tools. split_and!; [done|done|done|].
  by eapply leased_around; [|exact Hb5|].
Qed.
Lemma capture_spec i turns r w : mine i r w → sat (V i) (capture_git sha256_hex platform turns r) w (λ _ _, True).
Proof.
  intros Hm. unfold capture_git. apply sat_bind. eapply sat_mono; [apply runner_spec|]. intros w1 held [Hb1 _].
  destruct held; [|by apply sat_ret]. apply sat_around; [done|]. intros [[t|]|] w2 Hb2; [|by apply sat_ret|by apply sat_ret].
  apply sat_around; [done|]. intros [config|] w3 Hb3; [|by apply sat_ret]. cbv zeta.
  destruct (bool_decide _ || negb _); [by apply sat_ret|]. apply sat_around; [done|]. intros [|] w4 Hb4; [|by apply sat_ret].
  apply sat_bind. eapply sat_mono.
  { apply prepare_launch_spec. by do 4 (eapply mine_around; [done|]). }
  intros w5 [[l|]|] _; [|by apply sat_ret|by apply sat_ret]. apply sat_around; [done|]. intros x w6 _. by apply sat_ret.
Qed.
Lemma prune_guarded_spec i turns only w : sat (V i) (prune_guarded turns only) w (λ _ _, True).
Proof.
  unfold prune_guarded. apply sat_around; [done|]. intros [] w1 _; [by apply sat_ret|]. apply sat_bind.
  apply (sat_mono _ _ _ (λ _ _, True)); [|intros w2 [y|] _; [apply sat_around; [done|]; intros; by apply sat_ret|by apply sat_ret]].
  unfold prune_unguarded. apply sat_around; [done|]. intros [config|] w2 _; [|by apply sat_ret].
  destruct (_ && _); [by apply sat_ret|]. apply sat_around; [done|]. intros [|] w3 _; [|by apply sat_ret].
  apply sat_around; [done|]. intros [] w4 _; [|by apply sat_ret]. apply sat_bind. eapply sat_mono; [apply prune_spec|].
  by intros; apply sat_ret.
Qed.

(** ** All of them *)

Inductive job := JLaunch (turns : nat) (t : ScaleTarget) (r : str) (host_env : RunnerEnv) | JCapture (turns : nat) (r : str) | JPrune (turns : nat) (request : option str).
Definition job_program (x : job) : cprogram (option (list (str * rendered))) :=
  match x with
  | JLaunch turns t r host_env => launching sha256_hex platform turns t r host_env
  | JCapture turns r => capturing sha256_hex platform turns r
  | JPrune turns request => pruning turns request
  end.
Definition job_valid (x : job) : Prop := match x with JLaunch _ t _ _ => valid_target t | _ => True end.
Definition job_done (jobs : nat → job) i w (x : option (list (str * rendered))) : Prop :=
  match jobs i with JLaunch _ _ r _ => ∀ variables, x = Some variables → equipped i r w variables | _ => True end.
Lemma job_spec jobs i w : job_valid (jobs i) → sat (V i) (job_program (jobs i)) w (job_done jobs i).
Proof.
  unfold job_done. destruct (jobs i) as [turns t r host_env|turns r|turns request]; simpl job_program; intros Hv.
  - unfold launching. apply sat_op_bind; [done|]. intros [] w2 (w1 & (_ & _ & _ & ->) & Hr). apply for_launch_spec; [done|].
    apply (mine_around _ _ _ _ Hr). left. simpl. by rewrite decide_True.
  - unfold capturing. apply sat_op_bind; [done|]. intros [] w2 (w1 & (_ & _ & ->) & Hr). apply sat_bind.
    eapply sat_mono; [apply capture_spec; apply (mine_around _ _ _ _ Hr); right; simpl; rewrite decide_True by done; simpl; lia|].
    by intros; apply sat_ret.
  - unfold pruning. apply sat_bind. apply (sat_mono _ _ _ (λ _ _, True)); [|by intros; apply sat_ret].
    destruct request as [request|]; (apply sat_bind; eapply sat_mono; [apply prune_guarded_spec|]); [|by intros; apply sat_ret].
    intros w1 [y|] _; [|by apply sat_ret]. apply sat_around; [done|]. by intros; apply sat_ret.
Qed.
End CacheSafety.

(** ** Directories of slots *)

Definition value_dir (x : rendered) : option dir :=
  match x with RenderedDir d | RenderedTemplate _ d => Some d | RenderedText _ => None end.
(** A variable that names a directory below that of a slot. *)
Definition names_slot (variables : list (str * rendered)) (n : space) (slot : str) : Prop :=
  ∃ name x d, (name, x) ∈ variables ∧ value_dir x = Some d ∧ (slots_dir n ++ [slot]) `prefix_of` d.
Lemma tools_avoid_slots : forallb (λ t, negb (str_eqb (ct_dir t) SLOTS_DIR)) TOOLS = true.
Proof. by vm_compute. Qed.
Lemma render_dir v d x : value_dir (render v d).1 = Some x → d `prefix_of` x.
Proof. unfold render. destruct (cv_value v); intros [= <-]; [done|by eexists|done]. Qed.
Lemma prefix_long (a b c : dir) : a `prefix_of` c → b `prefix_of` c → length a = length b → a = b.
Proof. intros [x ->] [y Hy] Hl. by apply (app_inj_1 _ _ _ _ Hl) in Hy as [-> _]. Qed.
Lemma environment_slot tools n slot platform n' f :
  tools ⊆ TOOLS → names_slot (environment tools (namespace_dir n) (slot_dir n slot) platform).1 n' f →
  n' = n ∧ f = show_uint slot.
Proof.
  intros Ht (name & x & d & Hin & Hd & Hp). unfold environment in Hin. cbn [fst] in Hin.
  apply list_elem_of_fmap in Hin as ([[name' x'] d'] & [= <- <-] & Hin). apply list_elem_of_bind in Hin as (t & Hin & Htool).
  apply list_elem_of_fmap in Hin as (v & Ev & _). destruct (render v _) as [x' d''] eqn:Er. injection Ev as -> -> ->.
  assert (tool_dir t (namespace_dir n) (slot_dir n slot) `prefix_of` d) as Hpre by (apply (render_dir v); by rewrite Er).
  pose proof tools_avoid_slots as Ha. rewrite forallb_forall in Ha. specialize (Ha t). rewrite <-list_elem_of_In in Ha.
  specialize (Ha (Ht _ Htool)). unfold tool_dir in Hpre. destruct n as [n1 n2], n' as [m1 m2], (ct_sharing t).
  - exfalso. assert ([m1; m2; SLOTS_DIR] `prefix_of` d) as Hp3 by (etransitivity; [|exact Hp]; by exists [f]).
    pose proof (prefix_long _ _ _ Hp3 Hpre eq_refl) as E. injection E as _ _ E. unfold str_eqb in Ha.
    rewrite bool_decide_eq_true_2 in Ha by done. done.
  - assert (slot_dir (n1, n2) slot `prefix_of` d) as Hp3 by (etransitivity; [|exact Hpre]; by eexists).
    pose proof (prefix_long _ _ _ Hp Hp3 eq_refl) as E. by injection E as -> -> ->.
Qed.

(** ** All of them together *)

(** A launch that has its variables, and whose runner has not ended. *)
Definition runs (jobs : nat → job) (c : pool (ans := canswer) (A := option (list (str * rendered))) * cacheworld) (i : nat)
    (variables : list (str * rendered)) : Prop :=
  ∃ turns t r host_env, jobs i = JLaunch turns t r host_env ∧ c.1 i = Ret (Some variables) ∧ cw_status c.2 r = RsRunning i.
#[local] Abbreviation cache_steps := (clos_refl_trans_1n _ (pool_step (cache_act true) cache_tick)).
Lemma jobs_settled sha256_hex platform jobs w : (∀ i, job_valid (jobs i)) →
  all_settled cache_asks (cache_act true) around (job_done platform jobs) (λ i, job_program sha256_hex platform (jobs i), w).
Proof. intros Hv i w' _. by apply job_spec. Qed.

(** C15: Launches, captures and prunes of any number of processes run at once, and processes
    die at any call: a lease is written, and a namespace moved away, only under the lock and
    when no other runner that still runs was lent it; a launch has no variables, or those of
    a namespace and a slot whose lease is still in its place and names its runtime, for as
    long as its runner runs; and no directory below one slot is named to two runners that
    run. *)
Theorem cache_slots_lent_once sha256_hex platform jobs w c :
  (∀ i, job_valid (jobs i)) → cache_steps (λ i, job_program sha256_hex platform (jobs i), w) c →
  (∀ i, match c.1 i with Op e k => cache_asks i c.2 e | Ret x => job_done platform jobs i c.2 x end) ∧
  (∀ i j vi vj n slot, runs jobs c i vi → runs jobs c j vj → names_slot vi n slot → names_slot vj n slot → i = j).
Proof.
  intros Hv Hs.
  pose proof (pool_sound cache_asks (cache_act true) cache_tick around (job_done platform jobs)
    (cact_around true) ctick_around _ _ Hs (jobs_settled sha256_hex platform jobs w Hv)) as Hall.
  split; [exact Hall|].
  assert (∀ i v n slot, runs jobs c i v → names_slot v n slot →
    ∃ r, cw_leases c.2 !! (n, lease_file slot) = Some (r, Some i)) as Hone.
  { intros i v n slot (turns & t & r & host_env & Ej & Ec & Er) Hn. specialize (Hall i). rewrite Ec in Hall. unfold job_done in Hall.
    rewrite Ej in Hall. destruct (Hall v eq_refl) as [->|(n' & slot' & tools & Hd & Ht & -> & Hl)].
    { destruct Hn as (? & ? & ? & Hin & _). by apply not_elem_of_nil in Hin. }
    destruct (environment_slot _ _ _ _ _ _ Ht Hn) as [-> ->]. exists r. by apply Hl. }
  intros i j vi vj n slot Hi Hj Hni Hnj. destruct (Hone i vi n slot Hi Hni) as (r & Er), (Hone j vj n slot Hj Hnj) as (r' & Er').
  rewrite Er in Er'. by injection Er' as _ ->.
Qed.
