(* ===== verification/CacheRuns.v ===== *)
(** * Caches, executed

    A prune measures a namespace that nobody uses and plans to remove it; two launches
    lease its slots before the prune has the lock, and the prune leaves it. The same prune
    where the directory of slots cannot be read removes it under a runner. *)

From Stdlib Require Import Relations.
From stdpp Require Import strings.
From S2P Require Import Prelude RustStr Ordered Model Github Effects Tasks RunnerEnv CacheNames CacheIsolation Caches CacheSafety.
#[local] Open Scope Z_scope.
#[local] Open Scope rust_scope.

Definition ex_target : ScaleTarget := repository_of (lit "octo") (lit "hello").
Definition ex_space : space := (lit "octo", lit "hello").
Definition ex_runtime (i : nat) : str := lit "/runs/" ++ show_uint (Z.of_nat i).
Definition ex_sha (_ : list N) : str := replicate 64 (ch "0").
Definition ex_config : CacheConfig := mk_cache_config None None (Some 1) ∅ ∅.
Definition ex_jobs (i : nat) : job :=
  match i with
  | 2%nat => JPrune 10 None
  | _ => JLaunch 10 ex_target (ex_runtime i) RunnerEnv_default
  end.
Definition ex_cacheworld : cacheworld := mk_cacheworld ∅ None ∅ (λ _, RsPending).
Definition ex_blob : str := lit "blob".
(** One file of two gibibytes in the namespace. *)
Definition ex_entries (d : dir) : list str :=
  if decide (d = []) then [lit "octo"] else if decide (d = [lit "octo"]) then [lit "hello"]
  else if decide (d = namespace_dir ex_space) then [ex_blob] else [].
Definition leases_in (d : dir) (w : cacheworld) : list str :=
  omap (λ x, if decide (slots_dir x.1.1 = d) then Some x.1.2 else None) (map_to_list (cw_leases w)).
Definition unread (readable : bool) (d : dir) : bool := negb readable && bool_decide (last d = Some SLOTS_DIR).
Definition files (readable : bool) (i : nat) (w : cacheworld) (e : ccall) : option (cacheworld * canswer e) :=
  if decide (i ∈ cw_dead w) then None else
  match e return option (cacheworld * canswer e) with
  | CcConfig => Some (w, Ok ex_config)
  | CcRootIsDir | CcIsFile _ | CcIsDir _ => Some (w, true)
  | CcSwap => Some (w, false)
  | CcVars => Some (w, [])
  | CcLock => match cw_lock w with None => Some (with_root_lock (Some i) w, Ok tt) | Some _ => None end
  | CcUnlock => Some (if decide (cw_lock w = Some i) then with_root_lock None w else w, tt)
  | CcRead n f => Some (w, match cw_leases w !! (n, f) with Some (text, _) => Ok text | None => Err true end)
  | CcCreate n f => Some (with_leases (<[ (n, f) := ([], None) ]> (cw_leases w)) w, Ok tt)
  | CcWrite n f text => Some (with_leases (<[ (n, f) := (text, Some i) ]> (cw_leases w)) w, Ok tt)
  | CcBin r => Some (w, Ok (bool_decide (rank (cw_status w r) = 1 ∨ rank (cw_status w r) = 2)%nat))
  | CcList d => Some (w, if unread readable d then Err tt else Ok (leases_in d w ++ ex_entries d))
  | CcMeta d => Some (w, Some (if decide (last d = Some ex_blob) then (KindFile, 2 * GIB) else (KindDir, 0)))
  | CcModified _ => Some (w, Some 0)
  | CcAside n => Some (with_leases (without (λ k, k.1 = n) (cw_leases w)) w, Ok tt)
  | CcRemove d => None
  | CcUtc => Some (w, 0)
  | CcGitTarget _ => Some (w, Ok None)
  | CcLayOut r =>
      if decide (cw_status w r = RsPending ∧ map_Forall (λ _ x, x.1 ≠ r) (cw_leases w)) then Some (with_status r (RsRunning i) w, tt) else None
  | CcEnded r => None
  | CcRoot _ | CcMkdir _ | CcTouch _ | CcPublish _ | CcGitCapture _ _ _ => Some (w, Ok tt)
  | CcClear | CcAnswer _ | CcGitPrepare _ _ _ => Some (w, tt)
  end.
Lemma files_acts readable honest i w e w' x :
  implb honest readable = true → files readable i w e = Some (w', x) → cache_act honest i w e x w' ∧ True.
Proof.
  intros Hr H. split; [|done]. unfold files in H. destruct (decide (i ∈ cw_dead w)) as [|Ha]; [done|].
  destruct e; cbn [cache_act]; simplify_eq; (split; [exact Ha|]).
  all: try done.
  - by destruct (cw_lock w) eqn:E; simplify_eq.
  - split; [done|]. destruct (cw_leases w' !! (n, file)) as [[text by_]|]; [by exists by_|done].
  - split; [done|]. intros Hx. left. by rewrite bool_decide_eq_true_2.
  - split; [done|]. intros n f -> -> [y Hy]. destruct readable; [|done]. eexists. split; [reflexivity|].
    apply elem_of_app. left. apply list_elem_of_omap. exists ((n, f), y). split; [by apply elem_of_map_to_list|]. simpl. by rewrite decide_True.
  - destruct (decide _) as [[Hp Hl]|]; [|done]. simplify_eq. split_and!; [done| |done]. intros k j Hk. by apply Hl in Hk.
Qed.

Definition ex_pool : pool (ans := canswer) (A := option (list (str * rendered))) :=
  λ i, job_program ex_sha RpLinux (ex_jobs i).
Lemma ex_jobs_valid i : job_valid (ex_jobs i).
Proof. assert (valid_target ex_target) as H by (repeat constructor; try done). by destruct i as [|[|[|i]]]. Qed.
(** What a launch gave its runner for [dotnet], and the leases. *)
Definition dotnet_of (m : free canswer (option (list (str * rendered)))) : option (option rendered) :=
  match m with
  | Ret (Some v) => Some (snd <$> List.find (λ x, str_eqb x.1 (lit "DOTNET_INSTALL_DIR")) v)
  | _ => None
  end.
Definition ended (m : free canswer (option (list (str * rendered)))) : bool := match m with Ret _ => true | _ => false end.
Definition ex_turns : list nat := replicate 15 2%nat ++ replicate 40 0%nat ++ replicate 42 1%nat ++ replicate 9 2%nat.
Definition ex_dotnet (slot : string) : rendered := RenderedDir (slots_dir ex_space ++ [lit slot; lit "dotnet"]).

Lemma dotnet_named m d : dotnet_of m = Some (Some (RenderedDir d)) →
  ∃ v, m = Ret (Some v) ∧ (lit "DOTNET_INSTALL_DIR", RenderedDir d) ∈ v.
Proof.
  unfold dotnet_of. destruct m as [[v|]|]; try done. destruct (List.find _ v) as [[name x]|] eqn:E; [|done]. simpl. intros [= ->].
  exists v. split; [done|]. apply find_some in E as [Hin Hn]. apply bool_decide_eq_true_1 in Hn. simpl in Hn. subst name.
  by apply list_elem_of_In.
Qed.
Lemma cache_slots_lent_once_witness :
  ∃ c, clos_refl_trans_1n _ (pool_step (cache_act true) cache_tick) (ex_pool, ex_cacheworld) c ∧
    ended (c.1 2%nat) = true ∧ cw_leases c.2 !! (ex_space, lit "2.lease") = Some (ex_runtime 1, Some 1%nat) ∧
    ∀ v j, runs ex_jobs c j v → names_slot v ex_space (lit "1") → j = 0%nat.
Proof.
  destruct (play_reaches (cache_act true) cache_tick (files true) (λ _, True) (λ i w e w' x _, files_acts true true i w e w' x eq_refl)
    (λ c, (dotnet_of (c.1 0%nat), dotnet_of (c.1 1%nat), ended (c.1 2%nat), cw_leases c.2 !! (ex_space, lit "2.lease"),
           cw_status c.2 (ex_runtime 0)))
    ex_turns (ex_pool, ex_cacheworld)
    (Some (Some (ex_dotnet "1")), Some (Some (ex_dotnet "2")), true, Some (ex_runtime 1, Some 1%nat), RsRunning 0)) as (c & Hs & Hl).
  { done. }
  { vm_compute. reflexivity. }
  injection Hl as H0 H1 H2 H3 H4. exists c. split_and!; [exact Hs|exact H2|exact H3|]. intros v j Hj Hn.
  destruct (dotnet_named _ _ H0) as (v0 & Ev & Hin).
  destruct (cache_slots_lent_once ex_sha RpLinux ex_jobs ex_cacheworld c ex_jobs_valid Hs) as [_ Hone].
  apply (Hone j 0%nat v v0 ex_space (lit "1")); [exact Hj|by repeat eexists|exact Hn|].
  exists (lit "DOTNET_INSTALL_DIR"), (ex_dotnet "1"), (slots_dir ex_space ++ [lit "1"; lit "dotnet"]).
  split_and!; [exact Hin|done|]. by exists [lit "dotnet"].
Defined.

(** Where the directory of leases cannot be read, a prune takes the namespace from under a
    runner that runs. *)
Lemma unreadable_slots_pruned :
  ∃ c, clos_refl_trans_1n _ (pool_step (cache_act false) cache_tick) (ex_pool, ex_cacheworld) c ∧
    dotnet_of (c.1 0%nat) = Some (Some (ex_dotnet "1")) ∧ cw_status c.2 (ex_runtime 0) = RsRunning 0 ∧
    ended (c.1 2%nat) = true ∧ cw_leases c.2 !! (ex_space, lit "1.lease") = None.
Proof.
  destruct (play_reaches (cache_act false) cache_tick (files false) (λ _, True) (λ i w e w' x _, files_acts false false i w e w' x eq_refl)
    (λ c, (dotnet_of (c.1 0%nat), cw_status c.2 (ex_runtime 0), ended (c.1 2%nat), cw_leases c.2 !! (ex_space, lit "1.lease")))
    (replicate 40 0%nat ++ replicate 23 2%nat) (ex_pool, ex_cacheworld)
    (Some (Some (ex_dotnet "1")), RsRunning 0, true, None)) as (c & Hs & Hl).
  { done. }
  { vm_compute. reflexivity. }
  injection Hl as H0 H1 H2 H3. exists c. by split_and!.
Qed.

(** No two tools set one variable. *)
Lemma tool_variables_distinct : NoDup (TOOLS ≫= λ t, cv_name <$> ct_variables t).
Proof. apply (bool_decide_unpack _). by vm_compute. Qed.
