(* ===== verification/Lifecycle.v ===== *)
(** * The runner lifecycle ([crates/agent/src/lifecycle.rs], [LifecycleLauncher])

    Launching an attempt, supervising it on every poll, recovering the journal at startup
    and cleaning up, as programs over the effects of [Ports]. An attempt handed out as
    [&mut] is returned; after an error no caller reads more of it than its identifiers. *)

From stdpp Require Import strings.
From S2P Require Import Prelude RustStr Ordered Model Path Workspace Execution Host Attempt.
From S2P Require Import Labels Policy Capacity Recovery Store Github Backoff Report.
From S2P Require Import Effects Ports Slots.
#[local] Open Scope Z_scope.
#[local] Open Scope rust_scope.

Record LifecycleLauncher := mk_launcher {
  lc_host_id : HostId;
  lc_diagnostics_root : PathBuf;
  lc_runner_group_id : Z;  (* u64 *)
  lc_timeouts : RecoveryTimeouts;
  lc_retry : RetryPolicy;
}.

Inductive ReconcileProgress :=
  | Reconciled
  | Deferred
  | Replacement (attempt : AttemptId) (operation : string).

Definition runner_name (a : AttemptId) : str := lit "runner-manager-" ++ show_uuid a.

Definition WORKSPACE_NAME_LEN : nat := 12.
Definition workspace_name (id : AttemptId) : str :=
  take WORKSPACE_NAME_LEN (List.filter (λ c, negb (N.eqb c (ch "-"))) (show_uuid id)).

Definition package_failure_is_terminal (r : FailureReason) : bool :=
  match r with RunnerPackageUnverified | RunnerVersionRejected => true | _ => false end.

Definition replacement_operation (o : AttemptOutcome) : option string :=
  match o with
  | OutcomeFailed JitExpired => Some "jit_expired_replacement"
  | OutcomeFailed ProcessExitedUnexpectedly => Some "exit_before_acceptance_replacement"
  | _ => None
  end.

Record Placement := mk_placement { pl_runtime : PathBuf; pl_workspace : AttemptWorkspace }.

Definition policy_is_native (p : ScalePolicy) : bool :=
  match execution_policy p with EPNative => true | EPIsolated _ _ _ => false end.
Definition is_registered (g : GithubRunnerObservation) : bool :=
  match g with Registered _ => true | _ => false end.

Section Launcher.
Context (NATIVE : PathPlatform) (self : LifecycleLauncher).

(** ** Memory and journal *)

Definition modify_memory (f : Memory → Memory) : prog unit :=
  m ← call MemGet; call (MemPut (f m)).
Definition modify_retries (f : CleanBackoff → CleanBackoff) : prog unit :=
  modify_memory (λ m, mk_memory (recovery_complete m) (versions m) (pending_replacements m)
                        (f (cleanup_retries m))).
Definition set_recovery_complete (b : bool) : prog unit :=
  modify_memory (λ m, mk_memory b (versions m) (pending_replacements m) (cleanup_retries m)).
Definition set_pending (l : list (AttemptId * ReplacementIntent)) : prog unit :=
  modify_memory (λ m, mk_memory (recovery_complete m) (versions m) l (cleanup_retries m)).
Definition retry_is_due (id : AttemptId) (now : Timestamp) : prog bool :=
  m ← call MemGet; mret (is_due id now (cleanup_retries m)).

Definition record (a : RunnerAttempt) : lprog unit :=
  written ← call (JRecord a);
  match written with
  | Ok _ => _ ← call (Emit (AEvState (a_id a) (state a))); lret tt
  | Err _ => lfail LJournal
  end.

(** One edge of the state machine. *)
Definition take_edge (edge : attempt_method) (a : RunnerAttempt) : lprog RunnerAttempt :=
  match edge a with
  | (a', Ok _) => lret a'
  | (_, Err _) => lfail LTransition
  end.

(** [transition]: the edge, journalled. *)
Definition transition (edge : Timestamp → attempt_method) (a : RunnerAttempt)
    : lprog RunnerAttempt :=
  now ← call ClockNow;
  a ←? take_edge (edge now) a;
  _ ←? record a;
  lret a.

Definition conclude_attempt (o : AttemptOutcome) (a : RunnerAttempt) : lprog RunnerAttempt :=
  a ←? transition (conclude o) a;
  _ ← call (Emit (AEvConcluded (a_id a) (OutcomeKind_of o)));
  lret a.

Definition deregister_runner (p : ScalePolicy) (a : RunnerAttempt) : prog unit :=
  known ← (match github_runner_id a with
           | Some id => mret (Some id)
           | None => read_runner_id NATIVE (runtime_path a)
           end);
  match known with
  | None => mret tt
  | Some runner_id =>
      gone ← call (GhDeregister (target p) runner_id);
      if (gone : bool) then call (Emit (AEvDeregistered (a_id a) runner_id)) else mret tt
  end.

Definition known_runner_id (a : RunnerAttempt) (observed : option Z) : prog (option Z) :=
  match github_runner_id a, observed with
  | Some id, _ => mret (Some id)
  | None, Some id => mret (Some id)
  | None, None => read_runner_id NATIVE (runtime_path a)
  end.

(** ** Cleanup *)

Definition diagnostic (a : RunnerAttempt) (o : AttemptOutcome) : str :=
  lit "attempt_id=" ++ show_uuid (a_id a) ++ [10%N]
  ++ lit "policy_id=" ++ show_uuid (a_policy_id a) ++ [10%N]
  ++ lit "outcome=" ++ lit (OutcomeKind_as_str (OutcomeKind_of o)) ++ [10%N]
  ++ lit "reason=" ++ lit match o with
                          | OutcomeFailed reason => failure_reason_kind reason
                          | _ => "none"
                          end ++ [10%N].

Definition preserve_diagnostics (a : RunnerAttempt) (o : AttemptOutcome) : lprog unit :=
  _ ←? op_map_err (λ _, LFailed (Other (lit "diagnostics directory could not be created")))
         (call (FsCreateDirAll (lc_diagnostics_root self)));
  op_map_err (λ _, LFailed (Other (lit "redacted diagnostics could not be preserved")))
    (call (FsWrite (path_join NATIVE (lc_diagnostics_root self) (show_uuid (a_id a) ++ lit ".log"))
           (diagnostic a o))).

Definition quarantine_on_refusal (r : result unit SlotQuarantine) : result unit LifecycleError :=
  match r with
  | Ok _ => Ok tt
  | Err q => Err (LSlotQuarantined (refusal_class (sq_refusal q)) (quarantine_display q))
  end.

Definition scrub_persistent_slot (a : RunnerAttempt) (slot : Z) : lprog unit :=
  found ←? op_map_err (λ _, LJournal) (call (JPolicy (a_policy_id a)));
  let configured := (found : option ScalePolicy) ≫= λ p, wp_root (workspace_policy p) in
  scrubbed ← scrub_slot NATIVE (runtime_path a) slot configured;
  mret (quarantine_on_refusal scrubbed).

Definition scrub_workspace (a : RunnerAttempt) : lprog unit :=
  match workspace a with
  | AEphemeral =>
      removed ← remove_runtime_tree NATIVE (runtime_path a);
      match removed with
      | Ok _ => lret tt
      | Err error =>
          if bool_decide (io_kind error = IoNotFound) then lret tt
          else lfail LWorkspaceCleanupDeferred
      end
  | APersistentSlot slot => scrub_persistent_slot a slot
  end.

(** The last steps, common to both kinds: nothing marks the attempt cleaned before its
    workspace is scrubbed and its package released. *)
Definition finish_cleaning (edge : Timestamp → attempt_method) (o : AttemptOutcome)
    (a : RunnerAttempt) : lprog RunnerAttempt :=
  _ ←? preserve_diagnostics a o;
  _ ←? scrub_workspace a;
  _ ←? op_map_err LFailed (call (PkRelease (a_id a)));
  a ←? transition edge a;
  _ ← call (Emit (AEvCleaned (a_id a) (OutcomeKind_of o)));
  _ ← call (EmitReconcile (EvAttemptCleaned (a_policy_id a) (a_id a) (OutcomeKind_of o)));
  lret a.

(** [defer_environment_cleanup], raised. *)
Definition defer_environment_cleanup {A} (a : RunnerAttempt) : lprog A :=
  _ ←? transition defer_cleanup a;
  lfail LEnvironmentCleanupDeferred.

Definition quarantine_resource {A} (a : RunnerAttempt) : lprog A :=
  _ ← call (Emit (AEvQuarantinedOwnedResource (a_id a)));
  defer_environment_cleanup a.

Definition has_identity (a : RunnerAttempt) : bool :=
  match execution a with Isolated _ (Some _) _ _ => true | _ => false end.

(** An environment that is still there: proven ours, stopped, destroyed and seen gone. *)
Definition destroy_environment (current : EnvironmentState) (a : RunnerAttempt) : lprog unit :=
  if bool_decide (current = EnvMissing) then lret tt
  else
    owned ← call (PrOwns a);
    match owned with
    | Ok true =>
        stopped ← (if bool_decide (current = EnvStarting ∨ current = EnvRunning) then
                     r ← call (PrStop a);
                     mret (match r with Ok StopStopped => true | _ => false end)
                   else mret true);
        if negb stopped then defer_environment_cleanup a
        else
          destroyed ← call (PrDestroy a);
          match destroyed with
          | Ok Destroyed =>
              seen ← call (PrInspect a);
              match seen with
              | Ok EnvMissing => lret tt
              | _ => defer_environment_cleanup a
              end
          | _ => defer_environment_cleanup a
          end
    | _ => quarantine_resource a
    end.

Definition clean_isolated_attempt (a : RunnerAttempt) : lprog RunnerAttempt :=
  let host := lc_host_id self in
  a ←? (if bool_decide (state a = Destroying) then lret a else transition begin_destroy a);
  resources ← call (PrEnumerateOwned host);
  let matching := List.filter (identity_same_allocation host a) resources in
  if bool_decide (1 < length matching)%nat
     || existsb (λ i, negb (identity_matches_intent host a i)) matching
  then quarantine_resource a
  else if negb (has_identity a) && existsb (identity_matches_intent host a) resources
  then defer_environment_cleanup a
  else
    current ← (if has_identity a then call (PrInspect a) else call (PrRecover a));
    match current with
    | Err _ => defer_environment_cleanup a
    | Ok current =>
        if negb (has_identity a) && negb (bool_decide (current = EnvMissing))
        then defer_environment_cleanup a
        else
          _ ←? destroy_environment current a;
          left ← call (PrEnumerateOwned host);
          if existsb (identity_same_allocation host a) left then defer_environment_cleanup a
          else match outcome a with
          | None => lfail LTransition
          | Some o => finish_cleaning clean_isolated o a
          end
    end.

Definition clean_attempt (a : RunnerAttempt) : lprog RunnerAttempt :=
  if negb (is_native (execution a)) then clean_isolated_attempt a
  else
    destroyed ←? op_map_err LFailed (call (PrDestroy a));
    match destroyed with
    | DestroyDeferred reason => lfail (LFailed (Other reason))
    | Destroyed =>
        match outcome a with
        | None => lfail LTransition
        | Some o => finish_cleaning clean o a
        end
    end.

(** The failures of a cleanup that are retried later, with the reason they report. *)
Definition tolerated (e : LifecycleError) : option string :=
  match e with
  | LSlotQuarantined class _ => Some class
  | LWorkspaceCleanupDeferred => Some (failure_reason_kind WorkspaceCleanupDeferred)
  | LEnvironmentCleanupDeferred => Some "isolated_environment_cleanup_deferred"
  | _ => None
  end.

Definition clean_or_quarantine (a : RunnerAttempt) : lprog unit :=
  now ← call ClockNow;
  due ← retry_is_due (a_id a) now;
  if negb due then lret tt
  else
    cleaned ← clean_attempt a;
    match cleaned with
    | Ok _ => _ ← modify_retries (clean_succeeded (a_id a)); lret tt
    | Err e =>
        match tolerated e with
        | Some reason =>
            _ ← modify_retries (clean_failed (a_id a) now);
            _ ← call (EmitReconcile (EvAttemptCleanFailed (a_policy_id a) (a_id a) reason));
            lret tt
        | None => lfail e
        end
    end.

Definition conclude_and_clean (o : AttemptOutcome) (a : RunnerAttempt) : lprog unit :=
  a ←? conclude_attempt o a;
  clean_or_quarantine a.
End Launcher.
