(* ===== verification/Native.v ===== *)
(** * The native execution provider ([crates/agent/src/lifecycle.rs])

    [NativeProcesses]: how a runner's process is started with its secret, recorded so that
    a restarted daemon finds it again, observed and stopped; and the routing of
    [PlatformExecutionProvider], by which a container's attempt never reaches it. *)

From stdpp Require Import strings.
From S2P Require Import Prelude RustStr Ordered Model Path Workspace Execution Host Attempt.
From S2P Require Import Labels Policy Capacity Recovery Store Github Backoff Report.
From S2P Require Import Effects Ports Slots RunnerEnv Process Lifecycle.
#[local] Open Scope Z_scope.
#[local] Open Scope rust_scope.

Definition MAX_POST_SPAWN_STOP_ATTEMPTS : nat := 3.

(** ** Routing *)

Inductive ProviderKind := NativeProvider | OciProvider | HyperVProvider.
#[global] Instance ProviderKind_eq_dec : EqDecision ProviderKind.
Proof. solve_decision. Defined.
Definition provider_unavailable : FailureReason := Other (lit "execution provider unavailable").

Section Routing.
Context (PLATFORM : RunnerPlatform).

Definition isolated_provider (b : Backend) : option ProviderKind :=
  match b with
  | BAuto => match PLATFORM with RpWindows => Some HyperVProvider | _ => Some OciProvider end
  | BOci => Some OciProvider
  | BWindowsHyperVContainer => Some HyperVProvider
  | BVirtualMachine => None
  end.
Definition provider_for_attempt (a : RunnerAttempt) : option ProviderKind :=
  match execution a with
  | Native _ => Some NativeProvider
  | Isolated kind _ _ _ => isolated_provider kind
  end.
Definition required_provider_for_attempt (a : RunnerAttempt) : result ProviderKind FailureReason :=
  ok_or (provider_for_attempt a) provider_unavailable.
End Routing.

(** ** The native provider *)

Section Native.
(** [serde_json] of an identity, in both directions, and the platform. *)
Context (NATIVE : PathPlatform) (PLATFORM : RunnerPlatform).
Context (to_json : ProcessIdentity → option str) (from_json : str → option ProcessIdentity).
(** The fields that do not change: [runner.env], whether there are dependency caches, and
    where containers are accounted for. *)
Context (runner_env_file : option PathBuf) (dependency_caches : bool)
        (docker_root : option PathBuf).

(** *** Sidecars *)

Definition identity_path (a : RunnerAttempt) : PathBuf :=
  path_join NATIVE (runtime_path a) IDENTITY_FILE.
Definition fallback_identity_path (a : RunnerAttempt) : PathBuf :=
  path_join NATIVE (runtime_path a) FALLBACK_IDENTITY_FILE.
Definition unresolved_process_path (a : RunnerAttempt) : PathBuf :=
  path_join NATIVE (runtime_path a) UNRESOLVED_PROCESS_FILE.
Definition intent_path (a : RunnerAttempt) : PathBuf :=
  path_join NATIVE (runtime_path a) TERMINATE_INTENT_FILE.

Definition remove_identity_files (a : RunnerAttempt) : sprogram unit :=
  _ ← sysop (SysRemoveFile (identity_path a));
  _ ← sysop (SysRemoveFile (fallback_identity_path a));
  _ ← sysop (SysRemoveFile (unresolved_process_path a));
  mret tt.

Definition read_identity_at (p : PathBuf) : sprogram (result (option ProcessIdentity) FailureReason) :=
  found ← sysop (SysReadToString p);
  mret (match found with
        | Ok bytes =>
            map_ok Some (ok_or (from_json bytes)
                           (Other (lit "process identity journal is unreadable")))
        | Err error =>
            if bool_decide (io_kind error = IoNotFound) then Ok None
            else Err (Other (lit "process identity journal could not be read"))
        end).
Definition read_identity (a : RunnerAttempt) : sprogram (result (option ProcessIdentity) FailureReason) :=
  found ←? read_identity_at (identity_path a);
  match found with
  | Some i => Ret (Ok (Some i))
  | None => read_identity_at (fallback_identity_path a)
  end.

(** *** The children this daemon holds *)

Definition with_children (f : gmap AttemptId ChildProcess → gmap AttemptId ChildProcess)
    (n : NativeProcesses) : NativeProcesses := mk_native (f (children n)) (successful_exits n).
Definition insert_child (id : AttemptId) (c : ChildProcess) : sprogram unit :=
  n ← sysop NativeGet; sysop (NativePut (with_children (insert id c) n)).
Definition find_child (id : AttemptId) : sprogram (option ChildProcess) :=
  n ← sysop NativeGet; mret (children n !! id).
Definition record_exit (id : AttemptId) (success : bool) : sprogram unit :=
  n ← sysop NativeGet;
  sysop (NativePut (mk_native (children n) (<[id := success]> (successful_exits n)))).

(** *** Starting *)

Definition host_env : sprogram (result RunnerEnv FailureReason) :=
  match runner_env_file with
  | None => Ret (Ok RunnerEnv_default)
  | Some path =>
      found ← sysop (SysReadToString path);
      mret (map_err (λ error, Other (lit "runner.env cannot be applied (" ++ env_error_text error
                       ++ lit "); fix it with `runner-manager host env`"))
              (env_load NATIVE path found))
  end.

Definition cache_env (a : RunnerAttempt) (target : option ScaleTarget) (env : RunnerEnv)
    : sprogram (list (str * str)) :=
  match target with
  | Some target =>
      if dependency_caches then sysop (CachesForLaunch target (runtime_path a) env) else mret []
  | None => mret []
  end.

(** The macOS tool directories that exist. *)
Fixpoint existing_dirs (dirs : list str) : sprogram (list str) :=
  match dirs with
  | [] => mret []
  | d :: dirs =>
      present ← sysop (SysExists d);
      rest ← existing_dirs dirs;
      mret (if (present : bool) then d :: rest else rest)
  end.

Fixpoint create_dirs (vars : list (str * str)) : sprogram unit :=
  match vars with
  | [] => mret tt
  | (name, dir) :: vars =>
      _ ← (if bool_decide (name ∈ DIRECTORY_VARIABLES)
           then _ ← sysop (SysCreateDirAll dir); mret tt else mret tt);
      create_dirs vars
  end.

(** [runner_listener_spec], once the defaults are known. *)
Definition listener_spec (program runtime : PathBuf) (defaults caches : list (str * str))
    (env : RunnerEnv) : SpawnSpec :=
  let tmp := path_join NATIVE runtime (lit "tmp") in
  let spec := spec_working_dir runtime (spec_arg (lit "run") (SpawnSpec_new program)) in
  let spec := fold_left (λ s nv, spec_env nv.1 nv.2 s)
                (runner_environment defaults caches env) spec in
  spec_env (lit "TMP") tmp (spec_env (lit "TEMP") tmp (spec_env (lit "TMPDIR") tmp spec)).

Definition runner_listener_spec (program runtime : PathBuf) (caches : list (str * str))
    (env : RunnerEnv) : sprogram SpawnSpec :=
  _ ← sysop (SysCreateDirAll (path_join NATIVE runtime (lit "tmp")));
  var ← sysop SysEnvironment;
  present ← (match PLATFORM with RpMacOs => existing_dirs MACOS_TOOL_DIRECTORIES | _ => mret [] end);
  let defaults := platform_defaults NATIVE PLATFORM runtime (Inherited_from_env var)
                    (λ d, bool_decide (d ∈ present)) in
  _ ← create_dirs defaults;
  mret (listener_spec program runtime defaults caches env).

Definition listener_program (a : RunnerAttempt) : PathBuf :=
  path_join NATIVE (path_join NATIVE (runtime_path a) (lit "bin"))
    (match NATIVE with PWindows => lit "Runner.Listener.exe" | PUnix => lit "Runner.Listener" end).

(** The accounting of a job's containers, which may add a variable; the directory where
    the runner is recorded for it. *)
Definition docker_spec (a : RunnerAttempt) (target : option ScaleTarget) (env : RunnerEnv)
    (spec : SpawnSpec) : sprogram (result (SpawnSpec * option PathBuf) ProcessStartFailure) :=
  match docker_root with
  | None => Ret (Ok (spec, None))
  | Some root =>
      let repository := from_option slug [] target in
      endpoint ← sysop (DockerEnvironment (a_id a) repository env);
      match endpoint with
      | Ok (Some endpoint) =>
          Ret (Ok (spec_env (lit "DOCKER_HOST") endpoint spec,
                   Some (path_join NATIVE root (show_uuid (a_id a)))))
      | Ok None => Ret (Ok (spec, None))
      | Err _ =>
          applies ← sysop DockerApplies;
          Ret (if (applies : bool) then Err (before_spawn ProcessStartFailed) else Ok (spec, None))
      end
  end.

(** Everything up to the child, while the handoff exists. *)
Definition spawn_child (a : RunnerAttempt) (config : str) (target : option ScaleTarget)
    : sprogram (result (ChildProcess * option PathBuf) ProcessStartFailure) :=
  let program := listener_program a in
  present ← sysop (SysIsFile program);
  if negb present then Ret (Err (before_spawn ProcessStartFailed))
  else
    env ←? sys_map_err before_spawn host_env;
    caches ← cache_env a target env;
    spec ← runner_listener_spec program (runtime_path a) caches env;
    accounted ←? docker_spec a target env spec;
    let '(spec, docker_proxy) := (accounted : SpawnSpec * option PathBuf) in
    child ←? sys_map_err (λ _, before_spawn ProcessStartFailed)
               (spawn_runner_with_handoff spec config);
    Ret (Ok (child, docker_proxy)).

(** *** Abandoning a child *)

Definition stop_spawned_child (c : ChildProcess) : sprogram bool :=
  stopped ← child_stop 1000000000 c; mret (is_ok stopped).

Fixpoint stop_again (n : nat) (c : ChildProcess) : sprogram bool :=
  match n with
  | O => mret false
  | S n =>
      stopped ← stop_spawned_child c;
      if (stopped : bool) then mret true else stop_again n c
  end.

(** The child's identity made durable, in one file or the other. *)
Definition persist_somewhere (a : RunnerAttempt) (c : ChildProcess) : sprogram bool :=
  match to_json (ch_identity c) with
  | None => mret false
  | Some text =>
      persisted ← sysop (SysPersist (identity_path a) text);
      if is_ok persisted then mret true
      else
        persisted ← sysop (SysPersist (fallback_identity_path a) text);
        mret (is_ok persisted)
  end.

Definition abort_spawned_child (c : ChildProcess) (a : RunnerAttempt) (remove_identity : bool)
    : sprogram ProcessStartFailure :=
  reaped ← stop_spawned_child c;
  if (reaped : bool) then
    _ ← (if remove_identity then remove_identity_files a else mret tt);
    mret after_spawn_stopped
  else
    identity_durable ← persist_somewhere a c;
    if (identity_durable : bool) then
      _ ← insert_child (a_id a) c;
      mret (after_spawn_live (child_pid c))
    else
      reaped ← stop_again (MAX_POST_SPAWN_STOP_ATTEMPTS - 1) c;
      if (reaped : bool) then mret after_spawn_stopped
      else
        marker ← sysop (SysPersist (unresolved_process_path a) (show_uint (child_pid c)));
        _ ← insert_child (a_id a) c;
        mret (after_spawn_live_with_reason (child_pid c) (Other
          (if is_ok marker
           then lit "spawn cleanup exhausted its bounded stop attempts; the live process remains under durable unresolved supervision"
           else lit "spawn cleanup exhausted its bounded stop attempts and the unresolved-process marker could not be journalled"))).

(** *** The child made durable *)

Definition record_child (c : ChildProcess) (docker_proxy : option PathBuf) (a : RunnerAttempt)
    : sprogram (result Z ProcessStartFailure) :=
  let abort remove_identity :=
    failure ← abort_spawned_child c a remove_identity; mret (Err failure) in
  match to_json (ch_identity c) with
  | None => abort false
  | Some text =>
      persisted ← sysop (SysPersist (identity_path a) text);
      if negb (is_ok persisted) then abort true
      else
        accounted ← (match docker_proxy with
                     | None => mret (Ok tt)
                     | Some directory =>
                         sysop (DockerRecord (path_join NATIVE directory (lit "runner.json"))
                                  (ch_identity c))
                     end);
        if negb (is_ok accounted) then abort true
        else
          _ ← insert_child (a_id a) c;
          mret (Ok (child_pid c))
  end.

Definition spawn_listener (a : RunnerAttempt) (config : str) (target : option ScaleTarget)
    : sprogram (result Z ProcessStartFailure) :=
  handoff ← handoff_create NATIVE (runtime_path a) config;
  match handoff with
  | Err _ => mret (Err (before_spawn ProcessStartFailed))
  | Ok handoff =>
      spawned ← spawn_child a config target;
      match spawned with
      | Err failure => _ ← handoff_drop handoff; mret (Err failure)
      | Ok (child, docker_proxy) =>
          deleted ← handoff_delete handoff;
          if negb (is_ok deleted) then
            failure ← abort_spawned_child child a false; mret (Err failure)
          else record_child child docker_proxy a
      end
  end.

(** *** The provider's operations *)

Definition native_prepare (a : RunnerAttempt) (p : ScalePolicy)
    : sprogram (result PreparedEnvironment FailureReason) :=
  if negb (is_native (execution a)) || negb (policy_is_native p)
  then Ret (Err provider_unavailable)
  else
    _ ←? host_env;
    if dependency_caches then
      _ ←? sysop CachesConfig;
      Ret (Ok (mk_prepared (a_id a) None (Some (target p))))
    else Ret (Ok (mk_prepared (a_id a) None None)).

Definition native_start (prepared : PreparedEnvironment) (a : RunnerAttempt) (config : str)
    : sprogram (result EnvironmentIdentity ProcessStartFailure) :=
  if negb (bool_decide (pe_attempt prepared = a_id a)) || negb (is_native (execution a))
  then Ret (Err (before_spawn (Other (lit "execution provider identity mismatch"))))
  else
    pid ←? spawn_listener a config (pe_cache_target prepared);
    Ret (Ok (NativeProcess pid)).

(** A recorded process this daemon does not hold. *)
Definition is_recorded_alive (a : RunnerAttempt) : sprogram (result bool FailureReason) :=
  recorded ←? read_identity a;
  match recorded with
  | Some i =>
      adoption ← recheck i;
      mret (Ok (match adoption with Ok AdoptLive => true | _ => false end))
  | None =>
      unresolved ← (match process_id a with
                    | Some _ => mret true
                    | None => sysop (SysIsFile (unresolved_process_path a))
                    end);
      mret (if (unresolved : bool)
            then Err (Other (lit "runner process identity is missing; refusing recovery until the process is resolved"))
            else Ok false)
  end.

Definition is_alive (a : RunnerAttempt) : sprogram (result bool FailureReason) :=
  child ← find_child (a_id a);
  match child with
  | Some c =>
      status ←? sys_map_err (λ _, Other (lit "runner process could not be observed"))
                  (try_exit_status c);
      match status with
      | None => Ret (Ok true)
      | Some success => _ ← record_exit (a_id a) success; Ret (Ok false)
      end
  | None => is_recorded_alive a
  end.

Definition native_inspect (a : RunnerAttempt) : sprogram (result EnvironmentState FailureReason) :=
  if negb (is_native (execution a)) then Ret (Err provider_unavailable)
  else
    alive ←? is_alive a;
    Ret (Ok (if (alive : bool) then EnvRunning else EnvMissing)).

Definition recovered_pid (a : RunnerAttempt) : sprogram (result (option Z) FailureReason) :=
  recorded ←? read_identity a; Ret (Ok (pi_pid <$> recorded)).

Definition completed_successfully (a : RunnerAttempt) : sprogram bool :=
  n ← sysop NativeGet; mret (default false (successful_exits n !! a_id a)).

Definition record_terminate_intent (a : RunnerAttempt) : sprogram (result unit FailureReason) :=
  sys_map_err (λ _, Other (lit "terminate intent could not be journalled"))
    (sysop (SysPersist (intent_path a) (lit "registration-timeout" ++ [10%N]))).
Definition has_terminate_intent (a : RunnerAttempt) : sprogram bool :=
  sysop (SysIsFile (intent_path a)).

Definition not_stopped : FailureReason := Other (lit "runner process could not be stopped").
Definition native_terminate (a : RunnerAttempt) : sprogram (result unit FailureReason) :=
  child ← find_child (a_id a);
  match child with
  | Some c =>
      _ ←? sys_map_err (λ _, not_stopped) (child_stop 10000000000 c);
      Ret (Ok tt)
  | None =>
      recorded ←? read_identity a;
      match recorded with
      | None => Ret (Ok tt)
      | Some i =>
          outcome ←? sys_map_err (λ _, not_stopped) (identity_terminate i 10000000000);
          match outcome with
          | Terminated | AlreadyGone => Ret (Ok tt)
          | RefusedPidRecycled _ =>
              Ret (Err (Other (lit "runner PID was recycled; refusing to signal it")))
          end
      end
  end.
Definition native_stop (a : RunnerAttempt) : sprogram (result ProviderStop FailureReason) :=
  if negb (is_native (execution a)) then Ret (Err provider_unavailable)
  else _ ←? native_terminate a; Ret (Ok StopStopped).

Definition native_destroy (a : RunnerAttempt) : sprogram (result ProviderDestroy FailureReason) :=
  if negb (is_native (execution a)) then Ret (Err provider_unavailable)
  else
    _ ← (if dependency_caches then sysop (CachesCaptureGit (runtime_path a)) else mret tt);
    Ret (Ok Destroyed).
End Native.
