(* ===== verification/ListenerEnv.v ===== *)
(** * What a runner's process finds in its environment

    The variables [Native.listener_spec] gives the listener, as the process sees them: a
    later assignment of a name replaces an earlier one. *)

From stdpp Require Import strings.
From S2P Require Import Prelude RustStr Ordered Model Path Workspace Execution Host Attempt.
From S2P Require Import Labels Policy Capacity Recovery Store Github Backoff Report.
From S2P Require Import Effects Ports Slots RunnerEnv Process Lifecycle Native.
#[local] Open Scope Z_scope.
#[local] Open Scope rust_scope.

Section Listener.
Context (NATIVE : PathPlatform).
#[local] Abbreviation env_key := (env_key NATIVE) (only parsing).

(** What the child sees of assignments made in this order. *)
Definition effective (name : str) (envs : list (str * str)) : option str :=
  fold_left (λ found nv, if same_name NATIVE nv.1 name then Some nv.2 else found) envs None.

Lemma effective_snoc name envs key value :
  effective name (envs ++ [(key, value)]) =
  if same_name NATIVE key name then Some value else effective name envs.
Proof. unfold effective. by rewrite fold_left_app. Qed.

(** The later list wins. *)
Lemma effective_app name envs envs' :
  effective name (envs ++ envs') =
  match effective name envs' with Some v => Some v | None => effective name envs end.
Proof.
  induction envs' as [|[key value] envs' IH] using rev_ind; [by rewrite app_nil_r|].
  rewrite app_assoc, !effective_snoc. by destruct (same_name _ _ _).
Qed.

Lemma effective_Some name envs v :
  effective name envs = Some v → ∃ n, (n, v) ∈ envs ∧ env_key n = env_key name.
Proof.
  induction envs as [|[key value] envs IH] using rev_ind; [done|]. rewrite effective_snoc, same_name_spec.
  case_bool_decide as Hk; [intros [= ->]; exists key; set_solver|].
  intros (n & Hn & ?)%IH. exists n. set_solver.
Qed.

Lemma effective_None name envs n v :
  effective name envs = None → (n, v) ∈ envs → env_key n ≠ env_key name.
Proof.
  induction envs as [|[key value] envs IH] using rev_ind; [by intros _ ?%not_elem_of_nil|].
  rewrite effective_snoc, same_name_spec. case_bool_decide as Hk; [done|].
  intros H [Hin|[= -> ->]%list_elem_of_singleton]%elem_of_app; [by apply IH|done].
Qed.

(** A file that was read gives each name one value. *)
Lemma effective_entries name e :
  named_env NATIVE e → effective name (entries e) = env_get NATIVE name e.
Proof.
  intros He. destruct (effective name (entries e)) as [v|] eqn:E.
  - symmetry. apply env_get_Some; [done|]. by apply effective_Some.
  - destruct (env_get NATIVE name e) as [v|] eqn:G; [|done].
    apply env_get_Some in G as (n & Hin & Hk); [|done]. exfalso. by eapply effective_None.
Qed.

Lemma fold_env_envs vars s :
  ss_envs (fold_left (λ s nv, spec_env nv.1 nv.2 s) vars s) = ss_envs s ++ vars.
Proof.
  revert s. induction vars as [|[n v] vars IH]; intros s; simpl; [by rewrite app_nil_r|].
  rewrite IH. simpl. by rewrite <- app_assoc.
Qed.

Lemma listener_spec_envs program runtime defaults caches e :
  let tmp := path_join NATIVE runtime (lit "tmp") in
  ss_envs (listener_spec NATIVE program runtime defaults caches e) =
  defaults ++ caches ++ entries e ++ [(lit "TMPDIR", tmp); (lit "TEMP", tmp); (lit "TMP", tmp)].
Proof. simpl. rewrite fold_env_envs. simpl. unfold runner_environment. by rewrite <- !app_assoc. Qed.

Lemma effective_tmp name (tmp : str) :
  effective name [(lit "TMPDIR", tmp); (lit "TEMP", tmp); (lit "TMP", tmp)] =
  if bool_decide (env_key name ∈ env_key <$> RESERVED_NAMES) then Some tmp else None.
Proof.
  unfold effective. cbn [fold_left fst snd]. rewrite !same_name_spec. unfold RESERVED_NAMES.
  cbn [fmap list_fmap]. case_bool_decide as E1.
  { rewrite bool_decide_eq_true_2; [done|]. rewrite <- E1. set_solver. }
  case_bool_decide as E2; [rewrite bool_decide_eq_true_2; [done|]; rewrite <- E2; set_solver|].
  case_bool_decide as E3; [rewrite bool_decide_eq_true_2; [done|]; rewrite <- E3; set_solver|].
  rewrite bool_decide_eq_false_2; [done|]. rewrite !elem_of_cons, elem_of_nil. naive_solver.
Qed.

(** The environment of a runner. For every name: the temporary directories are the
    attempt's own, whatever the operator, the caches or the platform say; otherwise a
    variable of [runner.env] wins over the cache variables and those over the platform's
    defaults; and the names through which the runner is given its secret cannot be set by
    the file, in any spelling. *)
Theorem listener_environment program runtime defaults caches text e name :
  env_parse NATIVE text = Ok e →
  effective name (ss_envs (listener_spec NATIVE program runtime defaults caches e)) =
    (if bool_decide (env_key name ∈ env_key <$> RESERVED_NAMES)
     then Some (path_join NATIVE runtime (lit "tmp"))
     else match env_get NATIVE name e with
          | Some v => Some v
          | None => match effective name caches with
                    | Some v => Some v
                    | None => effective name defaults
                    end
          end) ∧
  (starts_with RESERVED_PREFIX (to_ascii_uppercase name) = true → env_get NATIVE name e = None).
Proof.
  intros He%parse_named. split.
  - rewrite listener_spec_envs, !effective_app, effective_entries by done.
    rewrite effective_tmp. case_bool_decide; [done|].
    by destruct (env_get NATIVE name e), (effective name caches).
  - intros Hp. apply reserved_not_set; [done|]. unfold is_reserved. by rewrite Hp.
Qed.
End Listener.

(** On Windows, where names have no case: the file overrides a cache, and the temporary
    directory stays the attempt's. *)
Lemma listener_environment_witness :
  ∃ e, env_parse PWindows (lit "npm_config_cache=D:\npm") = Ok e ∧
    let spec := listener_spec PWindows (lit "p") (lit "C:\rt") []
                  [(lit "NPM_CONFIG_CACHE", lit "C:\c"); (lit "TMP", lit "C:\t")] e in
    effective PWindows (lit "Npm_Config_Cache") (ss_envs spec) = Some (lit "D:\npm") ∧
    effective PWindows (lit "tmp") (ss_envs spec) = Some (lit "C:\rt\tmp").
Proof.
  eexists. split; [vm_compute; reflexivity|].
  split; (etransitivity; [apply (listener_environment PWindows _ _ _ _ (lit "npm_config_cache=D:\npm"));
    vm_compute; reflexivity|vm_compute; reflexivity]).
Defined.
