(* ===== verification/Supervise.v ===== *)
(** * Supervision and startup recovery ([crates/agent/src/lifecycle.rs])

    What a poll does with each journalled attempt of a policy ([reconcile_one], and
    [reconcile_isolated_one] for containers), and what a restarted daemon does with the
    whole journal before it may launch anything ([recover_startup]). *)

From stdpp Require Import strings.
From S2P Require Import Prelude RustStr Ordered Model Path Workspace Execution Host Attempt.
From S2P Require Import Labels Policy Capacity Recovery Store Github Backoff Report.
From S2P Require Import Effects Ports Slots Lifecycle.
#[local] Open Scope Z_scope.
#[local] Open Scope rust_scope.

Section Supervise.
Context (NATIVE : PathPlatform) (self : LifecycleLauncher).

Definition replaced_by (a : RunnerAttempt) (operation : option string) : ReconcileProgress :=
  match operation with Some o => Replacement (a_id a) o | None => Reconciled end.

(** A cleaned attempt whose disposable directory came back. *)
Definition reconcile_cleaned (a : RunnerAttempt) : lprog ReconcileProgress :=
  match workspace a with
  | APersistentSlot _ => lret Reconciled
  | AEphemeral =>
      present ← call (FsExists (runtime_path a));
      if negb present then lret Reconciled
      else
        now ← call ClockNow;
        due ← retry_is_due (a_id a) now;
        if negb due then lret Reconciled
        else
          scrubbed ← scrub_workspace NATIVE a;
          match scrubbed with
          | Ok _ => _ ← modify_retries (clean_succeeded (a_id a)); lret Reconciled
          | Err LWorkspaceCleanupDeferred =>
              _ ← modify_retries (clean_failed (a_id a) now);
              _ ← call (EmitReconcile (EvAttemptCleanFailed (a_policy_id a) (a_id a)
                          "late_ephemeral_workspace_could_not_be_removed"));
              lret Reconciled
          | Err e => lfail e
          end
  end.

(** The runner id of GitHub's inventory, made durable before any decision. *)
Definition recover_runner_id (observed : option Z) (a : RunnerAttempt) (report : bool)
    : lprog unit :=
  match observed with
  | None => lret tt
  | Some runner_id =>
      known ← read_runner_id NATIVE (runtime_path a);
      match known with
      | Some _ => lret tt
      | None =>
          _ ←? write_runner_id NATIVE (runtime_path a) runner_id;
          _ ← (if report then call (Emit (AEvRemoteIdentityRecovered (a_id a) runner_id))
               else mret tt);
          lret tt
      end
  end.

(** What the runner's own diagnostics, and then GitHub's sample, say of a process that
    ended well: the edge to take first, and the outcome. *)
Definition completed_outcome (a : RunnerAttempt) (g : LifecycleGithubObservation)
    : prog (option (option Z * AttemptOutcome)) :=
  evidence ← JobEvidence_of NATIVE (runtime_path a);
  match state a, evidence with
  | (Starting | Idle), RanAJob =>
      known ← known_runner_id NATIVE a (go_runner_id g);
      mret ((λ id, (Some id, CompletedJob)) <$> known)
  | Busy, RanAJob => mret (Some (None, CompletedJob))
  | Busy, NoJob => mret (Some (None, ExitedIdleWithoutWork))
  | Busy, UnknownEvidence =>
      mret (if bool_decide (go_status g = NotRegistered) then Some (None, CompletedJob) else None)
  | _, _ => mret None
  end.

Definition conclude_completed (p : ScalePolicy) (g : LifecycleGithubObservation)
    (walk : option Z) (o : AttemptOutcome) (a : RunnerAttempt) : lprog ReconcileProgress :=
  _ ← (if is_registered (go_status g) then deregister_runner NATIVE p a else mret tt);
  a ←? match walk, o with
       | Some runner_id, _ => transition (assigned_job runner_id) a
       | None, ExitedIdleWithoutWork => transition assignment_not_taken a
       | None, _ => _ ← call ClockNow; lret a
       end;
  _ ←? conclude_and_clean NATIVE self o a;
  lret Reconciled.

(** [RecoveryDecision::Observe] of a native attempt. *)
Definition observe_state (s : AttemptState) (observed : option Z) (a : RunnerAttempt)
    : lprog ReconcileProgress :=
  known ← known_runner_id NATIVE a observed;
  match known with
  | None => lfail LTransition
  | Some runner_id =>
      _ ←? match s with
           | JitReceived => transition jit_received a
           | Starting =>
               match process_id a with
               | None => lfail LTransition
               | Some pid => transition (started pid) a
               end
           | Idle => transition (registered_idle runner_id) a
           | Busy => transition (assigned_job runner_id) a
           | _ => lfail LTransition
           end;
      lret Reconciled
  end.

Definition terminate_attempt (p : ScalePolicy) (payload : AttemptOutcome) (a : RunnerAttempt)
    : lprog ReconcileProgress :=
  let idle_exit := is_idle_exit payload in
  _ ←? op_map_err LFailed (call (PrRecordTerminateIntent a));
  _ ← call (Emit (AEvTerminateIntent (a_id a)));
  stopped ←? op_map_err LFailed (call (PrStop a));
  if bool_decide (stopped = StopStillRunning) then lret Deferred
  else
    seen ←? op_map_err LFailed (call (PrInspect a));
    if bool_decide (seen = EnvRunning) then lret Deferred
    else
      _ ← call (Emit (AEvTerminated (a_id a)));
      let o := if idle_exit then ExitedIdleWithoutWork
               else OutcomeFailed TerminatedAfterRegistrationTimeout in
      _ ← deregister_runner NATIVE p a;
      _ ←? conclude_and_clean NATIVE self o a;
      lret (if idle_exit then Reconciled
            else Replacement (a_id a) "registration_timeout_replacement").

Definition apply_decision (p : ScalePolicy) (g : LifecycleGithubObservation)
    (d : RecoveryDecision) (a : RunnerAttempt) : lprog ReconcileProgress :=
  match d with
  | Nothing | Wait => lret Reconciled
  | Defer => lret Deferred
  | Adopt => _ ← call (Emit (AEvAdopted (a_id a))); lret Reconciled
  | Clean => _ ←? clean_or_quarantine NATIVE self a; lret Reconciled
  | Observe s => observe_state s (go_runner_id g) a
  | Conclude o =>
      _ ← (if is_registered (go_status g) then deregister_runner NATIVE p a else mret tt);
      _ ←? conclude_and_clean NATIVE self o a;
      lret (replaced_by a (replacement_operation o))
  | Terminate payload => terminate_attempt p payload a
  end.

(** The decision, with the clock it reads. *)
Definition decide_recovery (alive : bool) (g : LifecycleGithubObservation) (a : RunnerAttempt)
    : prog RecoveryDecision :=
  now ← call ClockNow;
  match recovery_decision a (mk_observation alive (go_status g)) (lc_timeouts self) now with
  | Some d => mret d
  | None => panic
  end.

(** [jit_received -> starting] for a process that outlived the journal write. *)
Definition adopt_spawned (alive : bool) (a : RunnerAttempt) : lprog RunnerAttempt :=
  if bool_decide (state a = JitReceived) && alive then
    pid ←? op_map_err LFailed (call (PrRecoveredPid a));
    match pid with
    | Some pid => transition (started pid) a
    | None => lret a
    end
  else lret a.

(** A live runner journalled [busy] that never took the job up. *)
Definition assignment_declined (alive : bool) (g : LifecycleGithubObservation)
    (a : RunnerAttempt) : prog bool :=
  if alive && bool_decide (state a = Busy) && bool_decide (go_status g = Registered false) then
    evidence ← JobEvidence_of NATIVE (runtime_path a);
    mret (bool_decide (evidence = NoJob))
  else mret false.

(** From the one-shot child that ended well to the recovery decision. *)
Definition settle (p : ScalePolicy) (alive : bool) (g : LifecycleGithubObservation)
    (a : RunnerAttempt) : lprog ReconcileProgress :=
  declined ← assignment_declined alive g a;
  if (declined : bool) then _ ←? transition assignment_not_taken a; lret Reconciled
  else
    intent ← call (PrHasTerminateIntent a);
    if intent && negb alive then
      _ ← deregister_runner NATIVE p a;
      _ ←? conclude_and_clean NATIVE self
             (OutcomeFailed TerminatedAfterRegistrationTimeout) a;
      lret (Replacement (a_id a) "registration_timeout_replacement")
    else if bool_decide (state a = Allocated ∨ state a = JitReceived) && negb alive
            && is_registered (go_status g) then
      a ←? (if bool_decide (state a = Allocated) then transition jit_received a else lret a);
      _ ← deregister_runner NATIVE p a;
      _ ←? conclude_and_clean NATIVE self (OutcomeFailed JitExpired) a;
      lret (Replacement (a_id a) "jit_expired_replacement")
    else
      d ← decide_recovery alive g a;
      apply_decision p g d a.

Definition ended_well (alive : bool) (g : LifecycleGithubObservation) (a : RunnerAttempt)
    : prog (option (option Z * AttemptOutcome)) :=
  if negb alive && negb (bool_decide (go_status g = Unreachable))
     && bool_decide (state a = Starting ∨ state a = Idle ∨ state a = Busy) then
    completed ← call (PrCompletedSuccessfully a);
    if (completed : bool) then completed_outcome a g else mret None
  else mret None.

(** ** Containers *)

(** A recovered environment must be ours; [None] defers the attempt. *)
Definition recover_owned (a : RunnerAttempt) : prog (option EnvironmentState) :=
  recovered ← call (PrRecover a);
  match recovered with
  | Err _ => mret None
  | Ok state =>
      if bool_decide (state = EnvMissing) then mret (Some state)
      else
        owned ← call (PrOwns a);
        match owned with
        | Err _ => mret None
        | Ok true => mret (Some state)
        | Ok false => _ ← call (Emit (AEvQuarantinedOwnedResource (a_id a))); mret None
        end
  end.

Definition observe_isolated (s : AttemptState) (observed : option Z) (a : RunnerAttempt)
    : lprog ReconcileProgress :=
  known ← (match observed with
           | Some id => mret (Some id)
           | None => read_runner_id NATIVE (runtime_path a)
           end);
  match known with
  | None => lfail LTransition
  | Some runner_id =>
      _ ←? match s with
           | Idle => transition (registered_idle runner_id) a
           | Busy => transition (assigned_job runner_id) a
           | _ => lfail LTransition
           end;
      lret Reconciled
  end.

Definition apply_isolated_decision (p : ScalePolicy) (g : LifecycleGithubObservation)
    (d : RecoveryDecision) (a : RunnerAttempt) : lprog ReconcileProgress :=
  match d with
  | Nothing | Wait => lret Reconciled
  | Defer => lret Deferred
  | Adopt => _ ← call (Emit (AEvAdopted (a_id a))); lret Reconciled
  | Clean => _ ←? clean_or_quarantine NATIVE self a; lret Reconciled
  | Observe s => observe_isolated s (go_runner_id g) a
  | Conclude o | Terminate o =>
      _ ← (if is_registered (go_status g) then deregister_runner NATIVE p a else mret tt);
      _ ←? conclude_and_clean NATIVE self o a;
      lret (replaced_by a (replacement_operation o))
  end.

Definition settle_isolated (p : ScalePolicy) (live : bool) (a : RunnerAttempt)
    : lprog ReconcileProgress :=
  a ←? (if bool_decide (state a = JitReceived) && live then transition started_isolated a
        else lret a);
  g ← call (GhObserve (target p) (a_id a));
  _ ←? recover_runner_id (go_runner_id g) a false;
  completed ← (if bool_decide (state a = Busy) && negb live
                  && bool_decide (go_status g = NotRegistered)
               then call (PrCompletedSuccessfully a) else mret false);
  if (completed : bool) then
    _ ←? conclude_and_clean NATIVE self CompletedJob a; lret Reconciled
  else
    d ← decide_recovery live g a;
    apply_isolated_decision p g d a.

Definition reconcile_isolated_one (p : ScalePolicy) (a : RunnerAttempt)
    : lprog ReconcileProgress :=
  if bool_decide (state a = Cleaned) then lret Reconciled
  else if is_terminal (state a) then _ ←? clean_or_quarantine NATIVE self a; lret Reconciled
  else if bool_decide (state a ∈ [Allocated; Preparing; Prepared]) then
    _ ←? conclude_and_clean NATIVE self
           (OutcomeFailed (Other (lit "isolated preparation interrupted"))) a;
    lret Reconciled
  else
    recovered ← recover_owned a;
    match recovered with
    | None => lret Deferred
    | Some s => settle_isolated p (bool_decide (s = EnvStarting ∨ s = EnvRunning)) a
    end.

(** ** One attempt *)

Definition reconcile_one (p : ScalePolicy) (a : RunnerAttempt) : lprog ReconcileProgress :=
  if negb (is_native (execution a)) then reconcile_isolated_one p a
  else if bool_decide (state a = Cleaned) then reconcile_cleaned a
  else if is_terminal (state a) then _ ←? clean_or_quarantine NATIVE self a; lret Reconciled
  else
    seen ←? op_map_err LFailed (call (PrInspect a));
    let alive := bool_decide (seen = EnvRunning) in
    g ← call (GhObserve (target p) (a_id a));
    _ ←? recover_runner_id (go_runner_id g) a true;
    a ←? adopt_spawned alive a;
    completed ← ended_well alive g a;
    match completed with
    | Some (walk, o) => conclude_completed p g walk o a
    | None => settle p alive g a
    end.

(** ** A poll, and a startup *)

Definition authorized (p : ScalePolicy) (a : RunnerAttempt) : result unit LifecycleError :=
  map_err (λ _, LJournal) (authorize (lc_host_id self) p a).

Definition supervise_one (p : ScalePolicy) (a : RunnerAttempt) (rs : list ReplacementIntent)
    : lprog (list ReplacementIntent) :=
  _ ←? Ret (authorized p a);
  progress ←? reconcile_one p a;
  lret (match progress with
        | Replacement attempt operation => rs ++ [mk_intent (p_id p) attempt operation]
        | _ => rs
        end).

Definition of_this_policy (p : ScalePolicy) (kv : AttemptId * ReplacementIntent) : bool :=
  bool_decide (in_policy kv.2 = p_id p).

Definition supervise (p : ScalePolicy) : lprog (list ReplacementIntent) :=
  m ← call MemGet;
  let '(mine, others) :=
    (List.filter (of_this_policy p) (pending_replacements m),
     List.filter (λ kv, negb (of_this_policy p kv)) (pending_replacements m)) in
  _ ← set_pending others;
  attempts ←? op_map_err (λ _, LJournal) (call (JAttemptsForPolicy (p_id p)));
  for_each_ok attempts (supervise_one p) (snd <$> mine).

(** Provider resources that no uncleaned attempt of the journal accounts for. *)
Definition surface_unowned (attempts : list RunnerAttempt) (i : EnvironmentIdentity)
    : lprog unit :=
  match i with
  | IsolatedIdentity _ id _ _ _ _ =>
      if existsb (λ a, negb (bool_decide (state a = Cleaned))
                       && identity_matches_intent (lc_host_id self) a i) attempts
      then lret tt
      else _ ← call (Emit (AEvQuarantinedOwnedResource id)); lret tt
  | NativeProcess _ => lret tt
  end.

(** The one resource of an allocation whose identity was not journalled. *)
Definition adopt_resource (resources : list EnvironmentIdentity) (a : RunnerAttempt)
    : lprog RunnerAttempt :=
  match execution a, resources with
  | Isolated _ None _ _, [IsolatedIdentity _ _ _ environment_id _ _] =>
      if bool_decide (state a = Cleaned) then lret a
      else
        a ←? take_edge (prepared_environment environment_id) a;
        a ←? (if bool_decide (state a = Preparing) then
                now ← call ClockNow; take_edge (mark_prepared now) a
              else lret a);
        _ ←? record a;
        lret a
  | _, _ => lret a
  end.

Definition recover_one (policies : list ScalePolicy) (owned : list EnvironmentIdentity)
    (a : RunnerAttempt) (unresolved : bool) : lprog bool :=
  match List.find (λ p, bool_decide (p_id p = a_policy_id a)) (List.rev policies) with
  | None => lret (unresolved || counts_against_capacity a)
  | Some p =>
      _ ←? Ret (authorized p a);
      let resources := List.filter (identity_same_allocation (lc_host_id self) a) owned in
      _ ← (if bool_decide (1 < length resources)%nat
           then call (Emit (AEvQuarantinedOwnedResource (a_id a))) else mret tt);
      a ←? adopt_resource resources a;
      progress ←? reconcile_one p a;
      match progress with
      | Deferred => lret (unresolved || policy_is_native p)
      | Replacement attempt operation =>
          m ← call MemGet;
          _ ← set_pending (map_insert attempt (mk_intent (p_id p) attempt operation)
                             (pending_replacements m));
          lret unresolved
      | Reconciled => lret unresolved
      end
  end.

(** The whole journal; whether something could not be resolved. *)
Definition recover_attempts (policies : list ScalePolicy) : lprog bool :=
  attempts ←? op_map_err (λ _, LJournal) (call JAttempts);
  owned ← call (PrEnumerateOwned (lc_host_id self));
  _ ←? for_each_ok owned (λ i _, surface_unowned attempts i) tt;
  for_each_ok attempts (recover_one policies owned) false.

Definition recover_startup (policies : list ScalePolicy) : lprog (list ReplacementIntent) :=
  _ ← set_recovery_complete false;
  unresolved ←? recover_attempts policies;
  if (unresolved : bool) then lfail LRecoveryIncomplete
  else
    _ ← set_recovery_complete true;
    m ← call MemGet;
    lret (snd <$> pending_replacements m).
End Supervise.
