(* ===== verification/Launch.v ===== *)
(** * Launching a runner ([crates/agent/src/lifecycle.rs])

    Placement of an attempt's files, the first journal write, the retried package, JIT
    registration and process start, and the [RunnerLauncher] methods the reconciler
    calls. *)

From stdpp Require Import strings.
From S2P Require Import Prelude RustStr Ordered Model Path Workspace Execution Host Attempt.
From S2P Require Import Labels Policy Capacity Recovery Store Github Backoff Report.
From S2P Require Import Effects Ports Slots Lifecycle Supervise.
#[local] Open Scope Z_scope.
#[local] Open Scope rust_scope.

Section Launch.
Context (NATIVE : PathPlatform) (self : LifecycleLauncher).

(** ** Retries

    Each turn that does not leave a loop raises [issued] by one, so [max_attempts] turns
    are enough. *)

Definition max_turns : Z := Z.max (max_attempts (lc_retry self)) 1.
Definition turns : nat := Z.to_nat max_turns.

(** The wait before another try: demand must be there before it and after it. *)
Definition retry_wait (p : PolicyId) (id : AttemptId) (operation : string) (delay : Duration)
    : prog bool :=
  _ ← call (Emit (AEvRetry id operation delay));
  _ ← call (DelayWait delay);
  call (DemandPersists p).

Fixpoint materialize_loop (fuel : nat) (issued : Z) (p : ScalePolicy) (a : RunnerAttempt)
    : prog (result str FailureReason) :=
  match fuel with
  | O => panic
  | S fuel =>
      let issued := sat_add U32_MAX issued 1 in
      materialized ← call (PkMaterialize a);
      match materialized with
      | Ok version => mret (Ok version)
      | Err reason =>
          if package_failure_is_terminal reason || bool_decide (max_turns ≤ issued)
          then mret (Err reason)
          else
            wanted ← call (DemandPersists (p_id p));
            if negb wanted then mret (Err reason)
            else
              wanted ← retry_wait (p_id p) (a_id a) "package_materialization"
                         (retry_policy_delay (lc_retry self) issued);
              if negb wanted then mret (Err reason)
              else materialize_loop fuel issued p a
      end
  end.
Definition materialize_with_retry (p : ScalePolicy) (a : RunnerAttempt)
    : prog (result str FailureReason) := materialize_loop turns 0 p a.

Fixpoint register_loop (fuel : nat) (issued : Z) (p : ScalePolicy) (id : AttemptId)
    (request : JitRunnerRequest) : lprog JitRegistration :=
  match fuel with
  | O => panic
  | S fuel =>
      let issued := sat_add U32_MAX issued 1 in
      registered ← call (GhRegister (target p) request);
      match registered with
      | Ok registration => lret registration
      | Err error =>
          if jf_terminal error then lfail (LFailed (jf_reason error))
          else if bool_decide (max_turns ≤ issued) then lfail (LFailed (jf_reason error))
          else
            wanted ← call (DemandPersists (p_id p));
            if negb wanted then lfail (LFailed (jf_reason error))
            else
              wanted ← retry_wait (p_id p) id "jit_request"
                         (default (retry_policy_delay (lc_retry self) issued)
                            (jf_retry_after error));
              if negb wanted then lfail (LFailed (jf_reason error))
              else register_loop fuel issued p id request
      end
  end.
Definition register_with_retry (p : ScalePolicy) (id : AttemptId) (request : JitRunnerRequest)
    : lprog JitRegistration := register_loop turns 0 p id request.

(** ** Placement *)

Definition root_refused {A} (p : PolicyId) (root : str) (error : RootError) : lprog A :=
  now ← call ClockNow;
  _ ← call (RecordRootRefusal p now (re_kind error) root (re_text error));
  lfail (LFailed (Other (re_text error))).

(** [call.map_err(|error| self.root_refused(..))?]. *)
Definition or_root_refused {A} (p : PolicyId) (root : str) (m : prog (result A RootError))
    : lprog A :=
  r ← m;
  match r with Ok a => lret a | Err error => root_refused p root error end.

Definition configured_host_root : lprog (option LocalAbsolutePath) :=
  found ←? op_map_err (λ _, LJournal) (call (JHost (lc_host_id self)));
  match found with
  | None => lfail (LFailed (Other (lit "host not found")))
  | Some h => lret (runner_root_override h)
  end.

Definition resolvable_host_root : lprog (option LocalAbsolutePath) :=
  configured ←? configured_host_root;
  match configured with
  | Some root => lret (Some root)
  | None =>
      default ← call RootDefault;
      lret (match default with Ok root => Some root | Err _ => None end)
  end.

Definition effective_host_root (p : ScalePolicy) : lprog LocalAbsolutePath :=
  configured ←? configured_host_root;
  match configured with
  | Some root => lret root
  | None => or_root_refused (p_id p) (lit "the platform default runner root") (call RootDefault)
  end.

Definition allocate_disposable (p : ScalePolicy) (id : AttemptId) : lprog Placement :=
  root ←? effective_host_root p;
  _ ←? or_root_refused (p_id p) (text root) (call (RootCheck OwnerHost root None));
  let runtime := path_join NATIVE (text root) (workspace_name id) in
  _ ←? op_map_err (λ _, LFailed ProcessStartFailed) (call (FsCreateDirAll runtime));
  lret (mk_placement runtime AEphemeral).

Definition allocate_persistent_slot (p : ScalePolicy) (root : LocalAbsolutePath)
    : lprog Placement :=
  match mode_max (mode p) with
  | None => lfail (LFailed (Other
      (lit "a persistent workspace needs the policy's max_capacity to bound its slots")))
  | Some ceiling =>
      leases ←? op_map_err (λ _, LJournal) (call (JSlotLeases (p_id p)));
      match lowest_free_slot leases ceiling with
      | None => lfail (LFailed (Other
          (lit "every persistent slot s1 to s" ++ show_uint ceiling ++ lit " for "
           ++ slug (target p) ++ lit " is leased by an attempt that has not been cleaned, so no "
           ++ lit "slot is free; raise the repository's max capacity, or finish cleaning a "
           ++ lit "concluded attempt")))
      | Some slot =>
          host_root ←? resolvable_host_root;
          leaf ←? or_root_refused (p_id p) (text root)
                    (call (RootCheck (OwnerRepository (slug (target p))) root host_root));
          _ ←? match (leaf : option PathBuf) with
               | None => lret tt
               | Some leaf =>
                   op_map_err (λ source, LFailed (Other
                       (lit "the persistent workspace root " ++ path_display leaf
                        ++ lit " could not be created: " ++ io_text source)))
                     (call (FsCreateDir leaf))
               end;
          slot_path ←? or_root_refused (p_id p) (text root)
                         (mret (derive_child root (lit "s" ++ show_uint slot)));
          _ ←? create_or_validate_slot NATIVE (text slot_path);
          _ ←? or_root_refused (p_id p) (text root) (call (RootContains root slot_path));
          _ ←? accept_reusable_slot NATIVE (text slot_path);
          lret (mk_placement (text slot_path) (APersistentSlot slot))
      end
  end.

Definition allocate_workspace (p : ScalePolicy) (id : AttemptId) : lprog Placement :=
  placement ← (match workspace_policy p with
               | WPersistent root => allocate_persistent_slot p root
               | WEphemeral => allocate_disposable p id
               end);
  _ ← (if is_ok placement then call (ClearRootRefusal (p_id p)) else mret tt);
  mret placement.

(** ** The first journal write *)

Definition record_allocation (a : RunnerAttempt) : lprog unit :=
  written ← call (JRecord a);
  match written with
  | Ok _ => _ ← call (Emit (AEvState (a_id a) (state a))); lret tt
  | Err (SlotAlreadyLeased policy slot) =>
      lfail (LFailed (Other
        (lit "policy " ++ show_uuid policy ++ lit " already holds an uncleaned attempt in "
         ++ lit "persistent slot s" ++ show_uint slot ++ lit "; one slot is leased to at most one "
         ++ lit "uncleaned attempt and nothing was written")))
  | Err _ => lfail LJournal
  end.

Definition resolution_mismatch {A} : lprog A :=
  lfail (LFailed (Other (lit "provider resolution mismatch"))).

(** What the provider resolved must fit the policy. *)
Definition check_resolution (p : ScalePolicy) (resolved : option ResolvedEnvironment)
    : lprog unit :=
  if negb (Bool.eqb (policy_is_native p) (bool_decide (resolved = None))) then resolution_mismatch
  else match resolved with
  | None => lret tt
  | Some r =>
      if bool_decide (rv_provider_kind r = BAuto) then resolution_mismatch
      else match AttemptExecution_validate
                   (Isolated (rv_provider_kind r) None (rv_image r) (lit "generation-check")) with
      | Ok _ => lret tt
      | Err _ => lfail (LFailed (Other (lit "resolved image is incompatible")))
      end
  end.

Definition allocate_attempt (p : ScalePolicy) : lprog (RunnerAttempt * RoutingLabels) :=
  m ← call MemGet;
  if negb (recovery_complete m) then lfail LRecoveryIncomplete
  else
    capability ← call (PrProbe p);
    if negb (bool_decide (capability = CapReady))
    then lfail (LFailed (capability_refusal capability))
    else
      resolved ←? op_map_err (λ reason, LFailed
                    (if policy_is_native p then reason
                     else safe_isolation_reason reason RuntimeOperationFailed))
                    (call (PrResolve p));
      _ ←? check_resolution p resolved;
      match mode_labels (mode p) with
      | None => lfail (LFailed JitRequestFailed)
      | Some labels =>
          id ← call FreshAttemptId;
          placement ←? allocate_workspace p id;
          now ← call ClockNow;
          let a := allocate_in id (p_id p) (pl_runtime placement) (pl_workspace placement) now in
          a ←? match resolved with
               | None => lret a
               | Some r =>
                   generation ← call FreshUuid;
                   take_edge (allocate_execution
                     (Isolated (rv_provider_kind r) None (rv_image r) (show_uuid generation))) a
               end;
          _ ←? record_allocation a;
          lret (a, labels)
      end.

(** ** The steps after it *)

Definition fail_launch {A} (a : RunnerAttempt) (reason : FailureReason) : lprog A :=
  _ ←? conclude_attempt (OutcomeFailed reason) a;
  lfail (LFailed reason).

Definition prune_under_allocation_lock (version : str) : lprog unit :=
  attempts ←? op_map_err (λ _, LJournal) (call JAttempts);
  op_map_err LFailed (call (PkPrune version attempts)).

Definition ownership_mismatch {A} : lprog A :=
  lfail (LFailed (IsolationProvider OwnershipMismatch)).

(** The prepared environment's own record must be the one intended. *)
Definition journal_prepared (prepared : PreparedEnvironment) (a : RunnerAttempt)
    : lprog RunnerAttempt :=
  match pe_identity prepared with
  | None => ownership_mismatch
  | Some identity =>
      if negb (identity_matches_intent (lc_host_id self) a identity) then ownership_mismatch
      else match identity with
      | NativeProcess _ => panic
      | IsolatedIdentity _ _ _ environment_id _ _ =>
          a ←? take_edge (prepared_environment environment_id) a;
          transition mark_prepared a
      end
  end.

Definition start_isolated (prepared : PreparedEnvironment) (a : RunnerAttempt) (config : str)
    : lprog RunnerAttempt :=
  identity ←? op_map_err (λ failure,
                LFailed (safe_isolation_reason (sf_reason failure) RuntimeOperationFailed))
                (call (PrStart prepared a config));
  if negb (identity_matches_intent (lc_host_id self) a identity) then ownership_mismatch
  else transition started_isolated a.

Fixpoint start_native (fuel : nat) (issued : Z) (p : ScalePolicy)
    (prepared : PreparedEnvironment) (a : RunnerAttempt) (config : str) : lprog RunnerAttempt :=
  match fuel with
  | O => panic
  | S fuel =>
      let issued := sat_add U32_MAX issued 1 in
      spawned ← call (PrStart prepared a config);
      match spawned with
      | Ok (NativeProcess pid) => transition (started pid) a
      | Ok (IsolatedIdentity _ _ _ _ _ _) =>
          lfail (LFailed (Other (lit "unexpected isolated environment identity")))
      | Err error =>
          match sf_live_pid error with
          | Some pid =>
              _ ←? transition (started pid) a;
              lfail (LFailed (sf_reason error))
          | None =>
              if negb (sf_retryable error) || bool_decide (max_turns ≤ issued)
              then fail_launch a (sf_reason error)
              else
                wanted ← call (DemandPersists (p_id p));
                if negb wanted then fail_launch a (sf_reason error)
                else
                  wanted ← retry_wait (p_id p) (a_id a) "process_start"
                             (retry_policy_delay (lc_retry self) issued);
                  if negb wanted then fail_launch a (sf_reason error)
                  else start_native fuel issued p prepared a config
          end
      end
  end.

Definition register_and_start (p : ScalePolicy) (labels : RoutingLabels)
    (prepared : PreparedEnvironment) (a : RunnerAttempt) : lprog RunnerAttempt :=
  registered ← register_with_retry p (a_id a)
                 (for_policy (runner_name (a_id a)) (lc_runner_group_id self) labels);
  match registered with
  | Err error => fail_launch a (LifecycleError_reason error)
  | Ok registration =>
      _ ←? write_runner_id NATIVE (runtime_path a) (rg_runner_id registration);
      a ←? transition jit_received a;
      if negb (is_native (execution a)) then start_isolated prepared a (rg_config registration)
      else start_native turns 0 p prepared a (rg_config registration)
  end.

Definition prepare_and_start (p : ScalePolicy) (labels : RoutingLabels) (a : RunnerAttempt)
    : lprog RunnerAttempt :=
  let isolated := negb (is_native (execution a)) in
  a ←? (if isolated then transition begin_prepare a else lret a);
  prepared ← call (PrPrepare a p);
  match prepared with
  | Err reason =>
      fail_launch a (if isolated then safe_isolation_reason reason RuntimeOperationFailed
                     else reason)
  | Ok prepared =>
      a ←? (if isolated then journal_prepared prepared a else lret a);
      register_and_start p labels prepared a
  end.

Definition launch_steps (p : ScalePolicy) (labels : RoutingLabels) (a : RunnerAttempt)
    : lprog RunnerAttempt :=
  materialized ← materialize_with_retry p a;
  match materialized with
  | Err reason => fail_launch a reason
  | Ok version =>
      _ ←? prune_under_allocation_lock version;
      _ ← modify_memory (λ m, mk_memory (recovery_complete m) (<[a_id a := version]> (versions m))
                                (pending_replacements m) (cleanup_retries m));
      prepare_and_start p labels a
  end.

Definition launch_attempt (p : ScalePolicy) : lprog RunnerAttempt :=
  '(a, labels) ←? allocate_attempt p;
  launched ← launch_steps p labels a;
  _ ← call (Emit (AEvLaunched (a_id a) (is_ok launched)));
  mret launched.

(** ** The launcher port *)

Definition launcher_host_capacity (h : Host) : prog (result Z HostCapacityError) :=
  found ← call (JHost (h_id h));
  mret (match found with
        | Err _ => Err JournalUnreadable
        | Ok None => Err MissingHost
        | Ok (Some current) => Ok (host_capacity current)
        end).

Definition as_launch_failure {A} (m : lprog A) : prog (result A LaunchFailure) :=
  op_map_err (λ e, mk_launch_failure (LifecycleError_reason e)) m.

Definition launcher_supervise (p : ScalePolicy) : prog (result (list ReplacementIntent) LaunchFailure) :=
  as_launch_failure (supervise NATIVE self p).

Definition journal_unreadable : LaunchFailure :=
  mk_launch_failure (Other (lit "attempt journal could not be read")).

Definition launcher_attempts : prog (result (list RunnerAttempt) LaunchFailure) :=
  op_map_err (λ _, journal_unreadable) (call JAttempts).

Definition launcher_launch (p : ScalePolicy) : prog (result RunnerAttempt LaunchFailure) :=
  as_launch_failure (launch_attempt p).

Definition launcher_clean (id : AttemptId) : prog (result unit LaunchFailure) :=
  found ←? op_map_err (λ _, journal_unreadable) (call (JAttempt id));
  match found with
  | None => Ret (Err (mk_launch_failure (Other (lit "attempt disappeared from the journal"))))
  | Some a =>
      _ ←? as_launch_failure (clean_attempt NATIVE self a);
      _ ← modify_retries (clean_succeeded id);
      Ret (Ok tt)
  end.
End Launch.
