(* ===== verification/LifecycleEnv.v ===== *)
(** * What the lifecycle may rely on, and what is asked of it

    The world behind the ports of [Ports]: the journal of [Store], the launcher's memory
    and the set of attempts whose process or container may be running. [lifecycle_env]
    states what each call answers (the provider's and the journal's documented contracts,
    with any call free to fail) and what must hold when it is made. *)

From stdpp Require Import strings.
From S2P Require Import Prelude RustStr Ordered Model Path Workspace Execution Host Attempt.
From S2P Require Import Labels Policy Capacity Recovery Store Github Backoff Report.
From S2P Require Import Effects Ports Slots Lifecycle.
#[local] Open Scope Z_scope.
#[local] Open Scope rust_scope.

Record world := mk_world { w_db : db; w_mem : Memory; w_live : gset AttemptId }.
Definition rows (w : world) : gmap AttemptId PersistedAttempt := attempts (w_db w).

(** States in which no process was started yet. *)
Definition early (s : AttemptState) : bool :=
  match s with Allocated | Preparing | Prepared => true | _ => false end.

(** The journal is in order, and every running process belongs to an attempt in it that
    counts against the machine's capacity and had its registration. *)
Record accounted (w : world) : Prop := {
  in_order : journal_ok (w_db w);
  live_counted : ∀ id, id ∈ w_live w →
    ∃ row, rows w !! id = Some row ∧ active_sql row = true ∧ early (pa_state row) = false;
}.

(** The journal holds [a]'s state, kind and place. *)
Definition row_is (row : PersistedAttempt) (a : RunnerAttempt) : Prop :=
  pa_state row = state a ∧ is_native (pa_execution row) = is_native (execution a) ∧
  pa_runtime_path row = runtime_path a ∧ pa_workspace_kind row = aw_kind (workspace a).
Definition holds (w : world) (a : RunnerAttempt) : Prop :=
  ∃ row, rows w !! a_id a = Some row ∧ row_is row a.

(** Nothing but processes ending. *)
Definition quiet (w w' : world) : Prop :=
  w_db w' = w_db w ∧ w_mem w' = w_mem w ∧ w_live w' ⊆ w_live w.

Definition failed {A F} (r : result A F) : Prop := is_ok r = false.

(** A journal call runs its transaction or fails without a trace. *)
Definition journal {A} (m : store_method A) (r : result A StoreError) (w w' : world) : Prop :=
  w_mem w' = w_mem w ∧ w_live w' ⊆ w_live w ∧
  (m (w_db w) = (w_db w', r) ∨ failed r ∧ w_db w' = w_db w).

Section Env.
Context (NATIVE : PathPlatform).

(** Whether a state of the environment says that nothing runs. *)
Definition not_running (a : RunnerAttempt) (s : EnvironmentState) : bool :=
  negb (bool_decide (s = EnvRunning))
  && (is_native (execution a) || negb (bool_decide (s = EnvStarting))).

(** ** Answers

    Inspections settle what counts as running: an attempt of which one says that nothing
    runs leaves [w_live]. [site_does] below keeps the processes that run all the same. *)

Definition lifecycle_does (w : world) (e : effect) : answer e → world → Prop :=
  match e return answer e → world → Prop with
  | Panic => λ x _, match x with end
  | MemGet => λ m w', m = w_mem w ∧ quiet w w'
  | MemPut m => λ _ w', w_mem w' = m ∧ w_db w' = w_db w ∧ w_live w' ⊆ w_live w
  | JAttempts => λ r w', journal (attempts_where (λ _, true)) r w w'
  | JAttemptsForPolicy p => λ r w', journal (attempts_for_policy p) r w w'
  | JSlotLeases p => λ r w', journal (slot_leases_for_policy p) r w w'
  | JAttempt id => λ r w', journal (Store.attempt id) r w w'
  | JRecord a => λ r w', journal (record_attempt a) r w w'
  | JHost h => λ r w', quiet w w' ∧ (r = host NATIVE h (w_db w) ∨ failed r)
  | JPolicy p => λ r w', quiet w w' ∧ (Some r = policy NATIVE p (w_db w) ∨ failed r)
  | FreshAttemptId => λ id w', quiet w w' ∧ rows w !! id = None
  | PrStart _ a _ => λ r w',
      w_db w' = w_db w ∧ w_mem w' = w_mem w ∧
      w_live w' ⊆
        match r with
        | Ok _ => w_live w ∪ {[ a_id a ]}
        | Err f =>
            if is_native (execution a) && bool_decide (sf_live_pid f = None)
            then w_live w else w_live w ∪ {[ a_id a ]}
        end
  | PrInspect a | PrRecover a => λ r w',
      quiet w w' ∧
      match r with
      | Ok s => not_running a s = true → a_id a ∉ w_live w'
      | Err _ => True
      end
  | _ => λ _ w', quiet w w'
  end.

(** ** Demands *)

Definition concluded (w : world) (id : AttemptId) : Prop :=
  ∃ row, rows w !! id = Some row ∧ is_terminal (pa_state row) = true ∧ id ∉ w_live w.

(** What a removal may take away: the disposable directory of a concluded attempt, or an
    entry of its slot other than the job workspace. *)
Definition removable (w : world) (p : PathBuf) : Prop :=
  ∃ id row, rows w !! id = Some row ∧ is_terminal (pa_state row) = true ∧ (id ∉ w_live w) ∧
    match pa_workspace_kind row with
    | KEphemeral => p = pa_runtime_path row
    | KPersistent =>
        ∃ name, p = path_join NATIVE (pa_runtime_path row) name ∧
                is_work_folder NATIVE name = false
    end.

(** The sidecar of a runner id before it is renamed into place. *)
Definition sidecar_temporary (p : PathBuf) : Prop :=
  ∃ dir id, p = path_join NATIVE dir (RUNNER_ID_FILE ++ lit "." ++ show_uuid id ++ lit ".tmp").

Definition lifecycle_may (w : world) (e : effect) : Prop :=
  accounted w ∧
  match e with
  | Panic => False
  | PkMaterialize a | PrPrepare a _ =>
      ∃ row, rows w !! a_id a = Some row ∧ early (pa_state row) = true
  | GhRegister _ r =>
      ∃ id row, jr_name r = runner_name id ∧ rows w !! id = Some row ∧ (id ∉ w_live w) ∧
        pa_state row = if is_native (pa_execution row) then Allocated else Prepared
  | PrStart _ a _ =>
      ∃ row, rows w !! a_id a = Some row ∧ pa_state row = JitReceived ∧ a_id a ∉ w_live w
  | JRecord a => state a = Cleaned → a_id a ∉ w_live w
  | PkRelease id => concluded w id
  | FsRemoveDirAll p | FsRemoveDir p | UnlinkReparsePoints p => removable w p
  | FsRemoveFile p => removable w p ∨ sidecar_temporary p
  | _ => True
  end.

Definition lifecycle_env : env answer world := mk_env lifecycle_may lifecycle_does.
#[local] Abbreviation V := lifecycle_env.

(** ** Facts about worlds *)

(** The journal's rows stay, and processes only end. *)
Definition still (w w' : world) : Prop := rows w' = rows w ∧ w_live w' ⊆ w_live w.
#[global] Instance still_preorder : PreOrder still.
Proof.
  split; [by intros w|]. intros w1 w2 w3 [H1 H2] [H3 H4]. split; [congruence|set_solver].
Qed.

Lemma quiet_still w w' : quiet w w' → still w w'.
Proof. intros (H & _ & ?). split; [unfold rows; by rewrite H|done]. Qed.

Lemma journal_ok_rows d d' : attempts d' = attempts d → journal_ok d → journal_ok d'.
Proof. intros E [Hk Hu]. split; rewrite E; done. Qed.

Lemma accounted_still w w' : still w w' → accounted w → accounted w'.
Proof.
  intros [Hr Hl] [Hj H]. split.
  - by eapply journal_ok_rows.
  - intros id Hid. rewrite Hr. apply H. set_solver.
Qed.

Lemma holds_still w w' a : still w w' → holds w a → holds w' a.
Proof. intros [Hr _] H. unfold holds. by rewrite Hr. Qed.

Lemma dead_still w w' id : still w w' → id ∉ w_live w → id ∉ w_live w'.
Proof. intros [_ Hl]. set_solver. Qed.

Lemma concluded_still w w' id : still w w' → concluded w id → concluded w' id.
Proof.
  intros [Hr Hl] (row & ? & ? & ?). exists row. rewrite Hr. split_and!; [done..|set_solver].
Qed.

(** Only the row of one attempt changes, and it takes no capacity it did not have. *)
Definition settles (id : AttemptId) (w w' : world) : Prop :=
  (∀ j, j ≠ id → rows w' !! j = rows w !! j) ∧ w_live w' ⊆ w_live w ∧
  (∀ row', rows w' !! id = Some row' → active_sql row' = true →
     ∃ row, rows w !! id = Some row ∧ active_sql row = true).
#[global] Instance settles_preorder id : PreOrder (settles id).
Proof.
  split.
  - intros w. split_and!; [done..|]. eauto.
  - intros w1 w2 w3 (H1 & H2 & H3) (H4 & H5 & H6). split_and!.
    + intros j Hj. rewrite H4 by done. by apply H1.
    + set_solver.
    + intros row' Hr Ha. destruct (H6 _ Hr Ha) as (row & Hr2 & Ha2). eauto.
Qed.

Lemma still_settles id w w' : still w w' → settles id w w'.
Proof. intros [Hr Hl]. unfold settles. rewrite Hr. split_and!; eauto. Qed.

Lemma row_is_active row a : row_is row a → active_sql row = counts_against_capacity a.
Proof.
  intros (Hs & Hn & _). unfold active_sql, counts_against_capacity. rewrite Hs, Hn.
  by destruct (state a).
Qed.

(** A native attempt that has concluded has no process. *)
Lemma concluded_native_dead w a :
  accounted w → holds w a → is_native (execution a) = true → is_terminal (state a) = true →
  a_id a ∉ w_live w.
Proof.
  intros Hw (row & Hr & Hi) Hn Ht Hin. destruct (live_counted _ Hw _ Hin) as (row' & Hr' & Ha & _).
  simplify_eq. rewrite (row_is_active _ _ Hi) in Ha. unfold counts_against_capacity in Ha.
  unfold state_counts_against_capacity in Ha. rewrite Hn, Ht in Ha. done.
Qed.

(** No process was started for an attempt in an early state. *)
Lemma early_dead w a :
  accounted w → holds w a → early (state a) = true → a_id a ∉ w_live w.
Proof.
  intros Hw (row & Hr & Hs & _) He Hin. destruct (live_counted _ Hw _ Hin) as (row' & Hr' & _ & He').
  simplify_eq. congruence.
Qed.

(** ** Calm programs

    Programs that change no row and start nothing: readings, waits, events. *)

Definition calm_effect (e : effect) : Prop :=
  match e with
  | Panic | JRecord _ | GhRegister _ _ | PrStart _ _ _ | PkMaterialize _ | PrPrepare _ _
  | PkRelease _ | FsRemoveDirAll _ | FsRemoveDir _ | UnlinkReparsePoints _ => False
  | FsRemoveFile p => sidecar_temporary p
  | _ => True
  end.

(** And removals of some paths. *)
Definition removes (P : PathBuf → Prop) (e : effect) : Prop :=
  calm_effect e ∨
  match e with
  | FsRemoveDirAll p | FsRemoveDir p | UnlinkReparsePoints p | FsRemoveFile p => P p
  | _ => False
  end.

(** What a journal call leaves when it is not a write. *)
Lemma load_rows_rows l d : attempts (load_rows l d).1 = attempts d.
Proof.
  revert d. induction l as [|row l IH]; intros d; [done|]. simpl. unfold st_bind, st_ret.
  assert (attempts (attempt_from_row row d).1 = attempts d) as Hr.
  { unfold attempt_from_row. by destruct (normalise row). }
  destruct (attempt_from_row row d) as [d1 [a|e]]; simpl in Hr; [|done].
  specialize (IH d1). destruct (load_rows l d1) as [d2 [b|e]]; simpl in *; congruence.
Qed.

Lemma attempt_rows_kept id d : attempts (Store.attempt id d).1 = attempts d.
Proof.
  unfold Store.attempt. destruct (attempts d !! id) as [row|]; [|done].
  unfold st_bind, st_ret, attempt_from_row. destruct (normalise row).
  by destruct (map_err _ _).
Qed.

Lemma journal_still {A} (m : store_method A) r w w' :
  (∀ d, attempts (m d).1 = attempts d) → journal m r w w' → still w w'.
Proof.
  intros Hm (_ & Hl & [E|[_ E]]); split; try done; unfold rows.
  - specialize (Hm (w_db w)). by rewrite E in Hm.
  - by rewrite E.
Qed.

Lemma calm_does w e x w' : calm_effect e → lifecycle_does w e x w' → still w w'.
Proof.
  destruct e; simpl; intros Hc Hd; try done; try (by apply quiet_still);
    try (apply quiet_still; naive_solver);
    try (eapply journal_still; [|exact Hd]; intros d; apply load_rows_rows).
  - destruct Hd as (_ & E & Hl). split; [unfold rows; by rewrite E|done].
  - eapply journal_still; [|exact Hd]. apply attempt_rows_kept.
Qed.

Lemma removes_sat {A} (P : PathBuf → Prop) (m : prog A) w :
  within (removes P) m → accounted w →
  (∀ w' p, accounted w' → still w w' → P p → removable w' p) →
  sat V m w (λ w' _, accounted w' ∧ still w w').
Proof.
  intros Hm Hw HP.
  eapply sat_mono; [apply (sat_within V (removes P) (λ w', accounted w' ∧ still w w') still)|];
    [..|done|by split|].
  - intros w1 e [H1 H2] [He|He]; (split; [done|]); destruct e; simpl in *; auto; done.
  - intros w1 e x w2 [H1 H2] He Hd. assert (still w1 w2) as Hs.
    { destruct He as [He|He]; [by eapply calm_does|].
      destruct e; try done; by apply quiet_still. }
    split_and!; [by eapply accounted_still|by etransitivity|done].
  - intros w' _ [[? ?] _]. done.
Qed.

Lemma calm_sat {A} (m : prog A) w :
  within calm_effect m → accounted w → sat V m w (λ w' _, accounted w' ∧ still w w').
Proof.
  intros Hm Hw. apply (removes_sat (λ _, False)); [|done|done].
  eapply within_mono; [|done]. by left.
Qed.

(** The rule for a calm program at the head. *)
Lemma sat_calm {A B} (m : prog A) (k : A → prog B) w (Q : world → B → Prop) :
  within calm_effect m → accounted w →
  (∀ a w', accounted w' → still w w' → sat V (k a) w' Q) → sat V (m ≫= k) w Q.
Proof.
  intros Hm Hw Hk. apply sat_bind. eapply sat_mono; [by apply calm_sat|]. naive_solver.
Qed.

Lemma sat_calm_ok {A B F} (m : prog (result A F)) (k : A → prog (result B F)) w
    (Q : world → result B F → Prop) :
  within calm_effect m → accounted w →
  (∀ a w', accounted w' → still w w' → sat V (k a) w' Q) →
  (∀ e w', accounted w' → still w w' → Q w' (Err e)) →
  sat V (bind_ok m k) w Q.
Proof.
  intros Hm Hw Hk He. apply sat_calm; [done..|]. intros [a|e] w' ? ?; [by apply Hk|].
  apply sat_ret. by apply He.
Qed.

(** ** What the providers deny

    [w_live] of a site is everything that runs. An inspection may answer anything:
    [s_denied] are the attempts of which one said that nothing runs while something did
    (a native process whose record was never written, or whose start time could not be
    read again). *)
Record site := mk_site { s_world : world; s_denied : gset AttemptId }.

Definition denies (a : RunnerAttempt) {F} (x : result EnvironmentState F) : bool :=
  match x with Ok s => not_running a s | Err _ => false end.

Definition site_does (s : site) (e : effect) : answer e → site → Prop :=
  match e return answer e → site → Prop with
  | PrInspect a | PrRecover a => λ x s',
      quiet (s_world s) (s_world s') ∧
      s_denied s' = s_denied s ∪ (if denies a x then {[ a_id a ]} ∩ w_live (s_world s') else ∅)
  | e => λ x s', lifecycle_does (s_world s) e x (s_world s') ∧ s_denied s' = s_denied s
  end.

(** What the launcher can know of. *)
Definition in_sight (s : site) : world :=
  mk_world (w_db (s_world s)) (w_mem (s_world s)) (w_live (s_world s) ∖ s_denied s).

Definition site_env : env answer site := mk_env (λ s, lifecycle_may (in_sight s)) site_does.

Lemma in_sight_does s e x s' : site_does s e x s' → lifecycle_does (in_sight s) e x (in_sight s').
Proof.
  destruct e; simpl; unfold quiet, journal, rows, in_sight; simpl; try (by intros []);
    try (intros [H ->]; repeat case_match; naive_solver set_solver);
    intros ((? & ? & ?) & ->); (split; [split_and!; [done..|set_solver]|]); destruct x; simpl; [|done|..|done];
    intros ->; set_solver.
Qed.

Lemma in_sight_sat {A} (m : prog A) s (Q : world → A → Prop) :
  sat V m (in_sight s) Q → sat site_env m s (λ s' a, Q (in_sight s') a).
Proof.
  revert s. induction m as [a|e k IH]; intros s; [done|]. intros [Hm Hk]. split; [exact Hm|].
  intros x s' Hd. apply IH, Hk. by apply in_sight_does.
Qed.

(** Without denials. *)
Lemma truthful_does w e x w' : lifecycle_does w e x w' → site_does (mk_site w ∅) e x (mk_site w' ∅).
Proof.
  destruct e; simpl; try done; intros [? H]; (split; [done|]);
    destruct x as [state|]; simpl; try set_solver; destruct (not_running _ state); set_solver.
Qed.
Lemma truthful_run {A} (m : prog A) w m' w' :
  partly_run V m w m' w' → partly_run site_env m (mk_site w ∅) m' (mk_site w' ∅).
Proof. induction 1; [constructor|]. econstructor; [by apply truthful_does|done]. Qed.
End Env.

Create HintDb calm discriminated.
Ltac confined tac :=
  repeat first
    [ solve [auto with calm]
    | port_step tac ].
Ltac calm := confined ltac:(exact I).
