(* ===== verification/NativeSafety.v ===== *)
(** * What the native provider promises

    [Native] against an operating system: the runner processes by the directory they run
    in, the files of those directories, this daemon's memory and a clock. Proved here: a
    start that reports no live process leaves none, a process that is left running can be
    found again after a restart, an answer that nothing runs is true, the secret of a
    launch reaches the child's environment only and its file is removed, and the calls
    return. With that the provider keeps the promises [LifecycleEnv] makes of it. *)

From stdpp Require Import strings.
From S2P Require Import Prelude RustStr Ordered Model Path Workspace Execution Host Attempt.
From S2P Require Import Labels Policy Capacity Recovery Store Github Backoff Report.
From S2P Require Import Effects Ports Slots RunnerEnv Process Lifecycle Native LifecycleEnv.
#[local] Open Scope Z_scope.
#[local] Open Scope rust_scope.

(** ** The operating system *)

Record Runner := mk_runner { rn_handle : N; rn_identity : ProcessIdentity }.
Record pworld := mk_pworld {
  pw_native : NativeProcesses;
  pw_files : gmap PathBuf str;
  pw_stuck : gset PathBuf;               (* files whose removal was refused *)
  pw_runners : gmap PathBuf Runner;      (* the processes that run, by working directory *)
  pw_clock : Timestamp;
  pw_misread : gset Z;                   (* PIDs whose start time could not be read *)
}.

(** Nothing but processes ending and time passing. *)
Definition passes (w w' : pworld) : Prop :=
  pw_native w' = pw_native w ∧ pw_files w' = pw_files w ∧ pw_stuck w' = pw_stuck w ∧
  pw_runners w' ⊆ pw_runners w ∧ pw_clock w ≤ pw_clock w'.
#[global] Instance passes_preorder : PreOrder passes.
Proof.
  split; [done|]. intros w1 w2 w3 (?&?&?&?&?) (?&?&?&?&?).
  split_and!; try congruence; [by etransitivity|lia].
Qed.

(** Time that passed in steps. *)
Ltac passes_by :=
  cbn beta iota;
  repeat match goal with
  | H : does _ ?w _ _ ?w' |- _ => change (passes w w') in H
  end;
  match goal with
  | |- passes ?w _ =>
      first [reflexivity | assumption
            | multimatch goal with
              | H : passes w _ |- _ => apply (transitivity H); clear H; passes_by
              end]
  end.

(** One file changes. *)
Definition file_step (f : gmap PathBuf str → gmap PathBuf str) (w w' : pworld) : Prop :=
  passes (mk_pworld (pw_native w) (f (pw_files w)) (pw_stuck w) (pw_runners w) (pw_clock w) (pw_misread w)) w'.

Definition no_handle (h : N) (w : pworld) : Prop :=
  ∀ d r, pw_runners w !! d = Some r → rn_handle r ≠ h.

(** A secret that is in no argument and in no variable but the runner's input. *)
Definition unexposed (s : SpawnSpec) (extra : option (str * str)) : Prop :=
  match extra with
  | None => True
  | Some (key, payload) =>
      key = RUNNER_JIT_CONFIG_ENV ∧
      (payload ≠ [] → Forall (λ arg, os_str_contains arg payload = false) (ss_args s) ∧
                      Forall (λ nv, os_str_contains nv.2 payload = false) (ss_envs s))
  end.

Definition sys_does (w : pworld) (e : sys) : sys_answer e → pworld → Prop :=
  match e return sys_answer e → pworld → Prop with
  | SysPanic => λ x _, match x with end
  | SysNow => λ t w', passes w w' ∧ t = pw_clock w'
  | SysSleep d => λ _ w', passes w w' ∧ pw_clock w + d ≤ pw_clock w'
  | SysStartToken pid filter => λ r w', passes w w' ∧
      ∀ d x, pw_runners w' !! d = Some x → pi_pid (rn_identity x) = pid →
        match r with
        | Ok token => token = Some (pi_start_token (rn_identity x))
        | Err _ => pid ∈ pw_misread w'
        end
  | SysSpawn s _ => λ r w',
      match r with
      | Err _ => passes w w'
      | Ok (h, pid) =>
          ∃ token, passes (mk_pworld (pw_native w) (pw_files w) (pw_stuck w)
            (match ss_working_dir s with
             | Some dir => <[dir := mk_runner h (mk_identity pid token)]> (pw_runners w)
             | None => pw_runners w
             end) (pw_clock w) (pw_misread w)) w'
      end
  | SysTryWait h => λ r w', passes w w' ∧
      match r with Ok (Some _) => no_handle h w' | _ => True end
  | SysWait h => λ _ w', passes w w' ∧ no_handle h w'
  | SysCreateRestrictive p => λ r w',
      match r with
      | Ok _ => pw_files w !! p = None ∧ file_step (insert p []) w w'
      | Err _ => passes w w'
      end
  | SysWriteFile p t => λ r w',
      match r with
      | Ok _ => file_step (insert p t) w w'
      | Err _ => ∃ u, file_step (insert p u) w w'
      end
  | SysRemoveFile p => λ r w',
      match r with
      | Ok _ => file_step (delete p) w w'
      | Err source =>
          if bool_decide (io_kind source = IoNotFound)
          then pw_files w !! p = None ∧ passes w w'
          else passes (mk_pworld (pw_native w) (pw_files w) (pw_stuck w ∪ {[ p ]})
                         (pw_runners w) (pw_clock w) (pw_misread w)) w'
      end
  | SysPersist p t => λ r w',
      match r with
      | Ok _ => file_step (insert p t) w w'
      | Err _ => passes w w' ∨ ∃ u, u `prefix_of` t ∧ file_step (insert p u) w w'
      end
  | SysIsFile p => λ b w', passes w w' ∧ (b = false → pw_files w !! p = None)
  | SysReadToString p => λ r w', passes w w' ∧
      match r with
      | Ok t => pw_files w !! p = Some t
      | Err error => io_kind error = IoNotFound → pw_files w !! p = None
      end
  | NativeGet => λ n w', n = pw_native w ∧ passes w w'
  | NativePut n => λ _ w', passes (mk_pworld n (pw_files w) (pw_stuck w) (pw_runners w) (pw_clock w) (pw_misread w)) w'
  | _ => λ _ w', passes w w'
  end.

Definition sys_may (w : pworld) (e : sys) : Prop :=
  match e with
  | SysPanic => False
  | SysSpawn s extra =>
      unexposed s extra ∧ (∀ dir, ss_working_dir s = Some dir → pw_runners w !! dir = None)
  | _ => True
  end.
Definition sys_env : env sys_answer pworld := mk_env sys_may sys_does.
#[local] Abbreviation V := sys_env.

(** The proofs let [pw_misread] change with time; the theorems are about an operating
    system in which a PID enters it exactly when a look-up of that PID fails. *)
Definition misreads (e : sys) : sys_answer e → gset Z :=
  match e return sys_answer e → gset Z with
  | SysStartToken pid _ => λ r, if is_ok r then ∅ else {[ pid ]}
  | _ => λ _, ∅
  end.
Definition os_env : env sys_answer pworld :=
  mk_env sys_may (λ w e x w', sys_does w e x w' ∧ pw_misread w' = pw_misread w ∪ misreads e x).

Lemma os_sat {A} (m : sprogram A) w (Q : pworld → A → Prop) : sat sys_env m w Q → sat os_env m w Q.
Proof.
  revert w. induction m as [a|e k IH]; intros w; [done|]. intros [Hm Hk]. split; [exact Hm|].
  intros x w' [Hd _]. by apply IH, Hk.
Qed.

(** ** Programs that only look and wait *)

Definition looking (e : sys) : Prop :=
  match e with
  | SysPanic | SysSpawn _ _ | SysCreateRestrictive _ | SysWriteFile _ _ | SysRemoveFile _
  | SysPersist _ _ | NativePut _ => False
  | _ => True
  end.

Lemma looking_does w e x w' : looking e → sys_does w e x w' → passes w w'.
Proof. destruct e; simpl; try done; naive_solver. Qed.

Lemma looking_may w e : looking e → sys_may w e.
Proof. by destruct e. Qed.

(** The rules for a looking program at the head. *)
Lemma sat_looking {A} (m : sprogram A) w :
  within looking m → sat V m w (λ w' _, passes w w').
Proof.
  intros Hm. eapply sat_mono; [apply (sat_within V looking (λ _, True) passes)|]; [..|done|done|].
  - intros w1 e _ He. by apply looking_may.
  - intros w1 e x w2 _ He Hd. split; [done|]. by eapply looking_does.
  - by intros w' a [_ ?].
Qed.

Lemma looks_then {A B} (m : sprogram A) (k : A → sprogram B) w (Q : pworld → B → Prop) :
  within looking m → (∀ a w', passes w w' → sat V (k a) w' Q) → sat V (m ≫= k) w Q.
Proof. intros Hm Hk. apply sat_bind. eapply sat_mono; [by apply sat_looking|]. naive_solver. Qed.

Lemma sat_sys_map_err {A F G} (f : F → G) (m : sprogram (result A F)) w (Q : pworld → result A G → Prop) :
  sat V m w (λ w' r, Q w' (map_err f r)) → sat V (sys_map_err f m) w Q.
Proof. intros H. by apply sat_bind. Qed.

Lemma runners_passes w w' d r :
  passes w w' → pw_runners w' !! d = Some r → pw_runners w !! d = Some r.
Proof. intros (_ & _ & _ & Hs & _) Hr. by eapply lookup_weaken. Qed.

Lemma absent_passes w w' d : passes w w' → pw_runners w !! d = None → pw_runners w' !! d = None.
Proof.
  intros Hp Hd. destruct (pw_runners w' !! d) eqn:E; [|done].
  apply (runners_passes _ _ _ _ Hp) in E. congruence.
Qed.

Lemma no_handle_passes h w w' : passes w w' → no_handle h w → no_handle h w'.
Proof. intros Hp Hh d r Hr. eapply Hh, runners_passes; done. Qed.
#[local] Hint Resolve absent_passes no_handle_passes : core.

(** ** Waiting ends *)

(** Turns that a poll with this deadline cannot use up. *)
Definition enough (fuel : nat) (deadline : Timestamp) (w : pworld) : Prop :=
  deadline + POLL_INTERVAL ≤ pw_clock w + Z.of_nat fuel * POLL_INTERVAL.

Lemma enough_polls grace w : 0 ≤ grace → enough (polls grace) (pw_clock w + grace) w.
Proof.
  intros Hg. unfold enough, polls, POLL_INTERVAL.
  pose proof (Z.div_mod grace 20000000 ltac:(lia)).
  pose proof (Z.mod_pos_bound grace 20000000 ltac:(lia)).
  pose proof (Z.div_pos grace 20000000). rewrite Z2Nat.id by lia. lia.
Qed.

Lemma polls_positive grace : 0 ≤ grace → polls grace ≠ 0%nat.
Proof. intros Hg. unfold polls. pose proof (Z.div_pos grace POLL_INTERVAL Hg eq_refl). lia. Qed.

(** One turn that did not reach the deadline. *)
Lemma enough_next fuel deadline w w1 w2 w3 :
  enough (S fuel) deadline w → passes w w1 → ¬ deadline ≤ pw_clock w1 → passes w1 w2 →
  pw_clock w2 + POLL_INTERVAL ≤ pw_clock w3 → enough fuel deadline w3 ∧ fuel ≠ 0%nat.
Proof. intros He (_&_&_&_&?) Hd (_&_&_&_&?) Hs. unfold enough, POLL_INTERVAL in *. lia. Qed.

Lemma wait_until_sat fuel deadline c w :
  enough fuel deadline w → fuel ≠ 0%nat →
  sat V (wait_until fuel deadline c) w
    (λ w' r, passes w w' ∧ match r with Ok (Some _) => no_handle (ch_handle c) w' | _ => True end).
Proof.
  revert w. induction fuel as [|fuel IH]; intros w He Hf; [done|]. cbn [wait_until].
  apply sat_bind_ok, sat_sys_map_err, sat_op; [done|]. intros [s|e] w1 [H1 Hh]; cbn [map_err]; [|done].
  destruct s as [s|]; [by apply sat_ret|].
  apply sat_op_bind; [done|]. intros now w2 [H2 ->]. case_bool_decide as Hd.
  { apply sat_ret. split; [passes_by|done]. }
  apply sat_op_bind; [done|]. intros _ w3 [H3 Hs].
  destruct (enough_next fuel deadline w w2 w2 w3) as [He' Hf']; try done; [passes_by|].
  eapply sat_mono; [by apply IH|]. intros w' r [Hp Hr]. split; [|done].
  passes_by.
Qed.

Lemma await_gone_sat fuel deadline i w :
  enough fuel deadline w → fuel ≠ 0%nat →
  sat V (await_gone fuel deadline i) w (λ w' _, passes w w').
Proof.
  revert w. induction fuel as [|fuel IH]; intros w He Hf; [done|]. cbn [await_gone].
  apply sat_op_bind; [done|]. intros now w1 [H1 ->]. case_bool_decide as Hd; [by apply sat_ret|].
  apply sat_bind_ok, sat_op_bind; [done|]. intros [s|e] w2 [H2 _]; apply sat_ret; [|passes_by].
  assert (passes w w2) by (passes_by).
  destruct (classify i s); [|by apply sat_ret|by apply sat_ret].
  apply sat_op_bind; [done|]. intros _ w3 [H3 Hs].
  destruct (enough_next fuel deadline w w1 w2 w3) as [He' Hf']; try done.
  eapply sat_mono; [by apply IH|]. intros w' r Hp.
  passes_by.
Qed.

Lemma child_stop_sat grace c w :
  0 ≤ grace →
  sat V (child_stop grace c) w
    (λ w' r, passes w w' ∧ (is_ok r = true → no_handle (ch_handle c) w')).
Proof.
  intros Hg. apply sat_bind_ok, sat_sys_map_err, sat_op; [done|].
  intros [s|e] w1 [H1 Hh]; cbn [map_err]; [|done].
  destruct s as [s|]; [by apply sat_ret|].
  apply sat_bind_ok, sat_sys_map_err, sat_op; [done|].
  intros [requested|e] w2 H2; cbn [map_err]; [|split; [passes_by|done]].
  assert (passes w w2) as H02 by (passes_by). apply sat_bind_ok.
  assert (∀ w3 waited, passes w2 w3 → match waited with Some _ => no_handle (ch_handle c) w3 | None => True end →
    sat V match waited with Some status => Ret (Ok status)
      | None => sys_map_err (ControlFailed (child_pid c)) (sysop (SysKill (ch_handle c)))
                  ≫= λ r, match r with Ok _ => child_wait c | Err e => Ret (Err e) end end w3
      (λ w' r, passes w w' ∧ (is_ok r = true → no_handle (ch_handle c) w'))) as Hkill.
  { intros w3 [status|] H3 Hw.
    - apply sat_ret. split; [passes_by|done].
    - apply sat_bind, sat_sys_map_err, sat_op; [done|]. intros [[]|e] w4 H4; cbn [map_err].
      + apply sat_sys_map_err, sat_op; [done|]. intros x w5 [H5 Hn].
        split; [|done]. passes_by.
      + apply sat_ret. split; [|done]. passes_by. }
  destruct requested; [|apply sat_ret; by apply (Hkill w2 None)].
  apply sat_op_bind; [done|]. intros now w3 [H3 ->].
  eapply sat_mono; [apply wait_until_sat; [by apply enough_polls|by apply polls_positive]|].
  intros w4 [waited|e] [H4 Hw].
  - apply Hkill; [passes_by|by destruct waited].
  - split; [|done]. passes_by.
Qed.

Lemma recheck_looking i : within looking (recheck i).
Proof. by apply within_bind. Qed.

Lemma identity_terminate_sat i grace w :
  0 ≤ grace → sat V (identity_terminate i grace) w (λ w' _, passes w w').
Proof.
  intros Hg. apply sat_bind_ok. eapply sat_mono; [apply sat_looking, recheck_looking|].
  intros w1 [[]|e] H1; [|by apply sat_ret|by apply sat_ret|exact H1].
  apply sat_bind_ok, sat_sys_map_err, sat_op; [done|].
  intros [requested|e] w2 H2; cbn [map_err]; [|passes_by].
  assert (∀ w3, passes w w3 → sat V (adoption ←? recheck i;
      match adoption with
      | AdoptGone => Ret (Ok AlreadyGone)
      | AdoptPidRecycled current => Ret (Ok (RefusedPidRecycled current))
      | AdoptLive => _ ←? sys_map_err (ControlFailed (pi_pid i)) (sysop (SysForceStop (pi_pid i)));
                     Ret (Ok Terminated)
      end) w3 (λ w' _, passes w w')) as Hend.
  { intros w3 H3. eapply sat_mono; [apply sat_looking|intros w4 r H4; passes_by].
    apply within_bind_ok; [apply recheck_looking|]. intros []; [|done|done].
    by apply within_bind_ok; [apply within_bind|]. }
  apply sat_bind_ok. destruct requested; [|apply sat_ret; apply Hend; passes_by].
  apply sat_op_bind; [done|]. intros now w3 [H3 ->].
  eapply sat_mono; [apply await_gone_sat; [by apply enough_polls|by apply polls_positive]|].
  intros w4 [[]|e] H4; [apply sat_ret; passes_by|apply Hend; passes_by|passes_by].
Qed.

(** ** Starting a child *)

(** Nothing happens but in one directory. *)
Definition elsewhere (dir : PathBuf) (w w' : pworld) : Prop :=
  pw_native w' = pw_native w ∧ pw_files w' = pw_files w ∧ pw_stuck w' = pw_stuck w ∧
  (∀ d r, d ≠ dir → pw_runners w' !! d = Some r → pw_runners w !! d = Some r) ∧
  pw_clock w ≤ pw_clock w'.

Lemma passes_elsewhere dir w w' : passes w w' → elsewhere dir w w'.
Proof. intros Hp. pose proof Hp as (?&?&?&?&?). split_and!; try done. eauto using runners_passes. Qed.

Lemma elsewhere_passes dir w w1 w2 : elsewhere dir w w1 → passes w1 w2 → elsewhere dir w w2.
Proof.
  intros (?&?&?&Hr&?) Hp. pose proof Hp as (?&?&?&?&?). split_and!; try congruence; [|lia].
  eauto using runners_passes.
Qed.
#[local] Hint Resolve passes_elsewhere elsewhere_passes : core.

(** The child is the process that runs there, if one does. *)
Definition is_child (dir : PathBuf) (c : ChildProcess) (w : pworld) : Prop :=
  ∀ x, pw_runners w !! dir = Some x → rn_handle x = ch_handle c ∧ rn_identity x = ch_identity c.

Lemma is_child_passes dir c w w' : passes w w' → is_child dir c w → is_child dir c w'.
Proof. intros Hp Hc x Hx. eapply Hc, runners_passes; done. Qed.

Lemma is_child_gone dir c w : is_child dir c w → no_handle (ch_handle c) w → pw_runners w !! dir = None.
Proof.
  intros Hc Hn. destruct (pw_runners w !! dir) as [x|] eqn:E; [|done].
  destruct (Hc _ E) as [Hh _]. by apply Hn in E.
Qed.

Lemma spawn_with_extra_env_sat s extra dir w :
  ss_working_dir s = Some dir → unexposed s extra → pw_runners w !! dir = None →
  sat V (spawn_with_extra_env s extra) w (λ w' r, elsewhere dir w w' ∧
    match r with Ok c => is_child dir c w' | Err _ => pw_runners w' !! dir = None end).
Proof.
  intros Hd Hs Hn. apply sat_bind_ok, sat_sys_map_err, sat_op.
  { split; [done|]. intros dir' E. by simplify_eq. }
  intros [[h pid]|e] w1 H1; cbn [map_err]; cycle 1.
  { split; [by apply passes_elsewhere|]. eapply absent_passes; [exact H1|done]. }
  destruct H1 as [token H1]. rewrite Hd in H1.
  set (w0 := mk_pworld _ _ _ _ _ _) in H1.
  assert (elsewhere dir w w1) as He.
  { eapply elsewhere_passes; [|exact H1]. split_and!; try done. intros d r Hne. simpl.
    by rewrite lookup_insert_ne. }
  assert (∀ x, pw_runners w1 !! dir = Some x → x = mk_runner h (mk_identity pid token)) as Hx.
  { intros x Hx%(runners_passes _ _ _ _ H1). simpl in Hx. rewrite lookup_insert_eq in Hx. congruence. }
  apply sat_bind, sat_bind, sat_bind, sat_op; [done|]. intros r w2 [H2 Hr]. apply sat_ret, sat_ret.
  assert (elsewhere dir w w2) as He2 by eauto.
  destruct r as [[token'|]|source].
  - apply sat_ret. split; [done|]. intros x Hx2. pose proof (Hx x) as Hx1.
    pose proof (runners_passes _ _ _ _ H2 Hx2) as Hx2'. apply Hx1 in Hx2' as ->.
    split; [done|]. specialize (Hr _ _ Hx2 eq_refl). simpl in Hr. by injection Hr as ->.
  - apply sat_ret. split; [done|]. intros x Hx2. exfalso.
    pose proof (runners_passes _ _ _ _ H2 Hx2) as Hx2'. apply Hx in Hx2' as ->.
    by specialize (Hr _ _ Hx2 eq_refl).
  - apply sat_op_bind; [done|]. intros k w3 H3. apply sat_op_bind; [done|]. intros st w4 [H4 Hw4].
    apply sat_ret. assert (passes w2 w4) as H24 by passes_by. split; [by eauto|].
    destruct (pw_runners w4 !! dir) as [x|] eqn:E; [|done]. exfalso.
    pose proof (Hw4 _ _ E) as Hne. apply Hne.
    assert (passes w1 w4) as H14 by passes_by.
    apply (runners_passes _ _ _ _ H14), Hx in E as ->. done.
Qed.

Lemma reject_exposed_ok s payload :
  reject_exposed_handoff s payload = Ok tt → unexposed s (Some (RUNNER_JIT_CONFIG_ENV, payload)).
Proof.
  unfold reject_exposed_handoff. intros H. split; [done|]. intros Hne. destruct payload as [|c p]; [done|].
  assert (∀ i args, exposed_arg i (c :: p) args = None →
    Forall (λ arg, os_str_contains arg (c :: p) = false) args) as Ha.
  { intros i args. revert i. induction args as [|arg args IH]; intros i; simpl; [by constructor|].
    destruct (os_str_contains arg (c :: p)) eqn:E; [done|]. intros ?%IH. by constructor. }
  assert (∀ envs, exposed_env (c :: p) envs = None →
    Forall (λ nv, os_str_contains nv.2 (c :: p) = false) envs) as He.
  { induction envs as [|[k v] envs IH]; simpl; [by constructor|].
    destruct (os_str_contains v (c :: p)) eqn:E; [done|]. intros ?%IH. by constructor. }
  destruct (exposed_arg _ _ _) eqn:E1; [done|]. destruct (exposed_env _ _) eqn:E2; [done|].
  split; [by eapply Ha|by eapply He].
Qed.

(** ** The provider *)

Ltac fields := cbn [pw_native pw_files pw_stuck pw_runners pw_clock] in *.

Ltac looks :=
  repeat first
    [ done
    | progress intros
    | apply within_bind
    | apply within_bind_ok
    | match goal with |- within _ match ?x with _ => _ end => destruct x end ].

Section Provider.
Context (NATIVE : PathPlatform) (PLATFORM : RunnerPlatform).
Context (to_json : ProcessIdentity → option str) (from_json : str → option ProcessIdentity).
Context (runner_env_file : option PathBuf) (dependency_caches : bool)
        (docker_root : option PathBuf).
Implicit Types a : RunnerAttempt.

(** What [serde_json] reads back: what it wrote, and nothing from less than all of it. *)
Class JsonLaws : Prop := {
  json_roundtrip i t : to_json i = Some t → from_json t = Some i;
  json_prefix i t u : to_json i = Some t → u `prefix_of` t → u ≠ t → from_json u = None;
}.
Context `{HJson : !JsonLaws}.

#[local] Abbreviation host_env := (host_env NATIVE runner_env_file) (only parsing).
#[local] Abbreviation spawn_child :=
  (spawn_child NATIVE PLATFORM runner_env_file dependency_caches docker_root) (only parsing).
#[local] Abbreviation identity_path := (identity_path NATIVE) (only parsing).
#[local] Abbreviation fallback_identity_path := (fallback_identity_path NATIVE) (only parsing).
#[local] Abbreviation unresolved_process_path := (unresolved_process_path NATIVE) (only parsing).

Lemma host_env_looking : within looking host_env.
Proof. unfold Native.host_env. by destruct runner_env_file; looks. Qed.

Lemma existing_dirs_looking dirs : within looking (existing_dirs dirs).
Proof. induction dirs as [|d dirs IH]; [done|]. cbn [existing_dirs]. looks. Qed.

Lemma create_dirs_looking vars : within looking (create_dirs vars).
Proof.
  induction vars as [|[name dir] vars IH]; [done|]. cbn [create_dirs].
  apply within_bind; [case_bool_decide; by looks|by intros].
Qed.

Lemma listener_spec_looking program runtime caches e :
  within looking (runner_listener_spec NATIVE PLATFORM program runtime caches e).
Proof.
  apply within_bind; [done|]. intros _. apply within_bind; [done|]. intros var.
  apply within_bind; [destruct PLATFORM; [done|apply existing_dirs_looking|done]|]. intros present.
  apply within_bind; [apply create_dirs_looking|done].
Qed.

Lemma docker_spec_looking a target e spec :
  within looking (docker_spec NATIVE docker_root a target e spec).
Proof. unfold docker_spec. destruct docker_root; [|done]. looks. Qed.

Lemma read_identity_looking a : within looking (read_identity NATIVE from_json a).
Proof. unfold read_identity, read_identity_at. looks. Qed.
#[local] Hint Resolve host_env_looking listener_spec_looking docker_spec_looking
  read_identity_looking recheck_looking : core.

(** Every listener runs in its attempt's directory. *)
Lemma fold_env_working_dir vars s :
  ss_working_dir (fold_left (λ s nv, spec_env nv.1 nv.2 s) vars s) = ss_working_dir s.
Proof. revert s. induction vars as [|nv vars IH]; intros s; [done|]. simpl. by rewrite IH. Qed.

Lemma listener_spec_sat program runtime caches e w :
  sat V (runner_listener_spec NATIVE PLATFORM program runtime caches e) w
    (λ w' s, passes w w' ∧ ss_working_dir s = Some runtime).
Proof.
  apply looks_then; [done|]. intros _ w1 H1. apply looks_then; [done|]. intros var w2 H2.
  apply looks_then; [destruct PLATFORM; [done|apply existing_dirs_looking|done]|]. intros dirs w3 H3.
  apply looks_then; [apply create_dirs_looking|]. intros _ w4 H4. apply sat_ret.
  split; [passes_by|]. simpl. by rewrite fold_env_working_dir.
Qed.

Lemma docker_spec_sat a target e spec w :
  sat V (docker_spec NATIVE docker_root a target e spec) w
    (λ w' r, passes w w' ∧ match r with
      | Ok (s, _) => ss_working_dir s = ss_working_dir spec
      | Err f => sf_live_pid f = None
      end).
Proof.
  unfold docker_spec. destruct docker_root as [root|]; [|by apply sat_ret].
  apply sat_op_bind; [done|]. intros [[endpoint|]|error] w1 H1; [by apply sat_ret..|].
  apply sat_op_bind; [done|]. intros applies w2 H2. apply sat_ret. split; [passes_by|].
  by destruct applies.
Qed.

Lemma spawn_child_sat a config target w :
  pw_runners w !! runtime_path a = None →
  sat V (spawn_child a config target) w
    (λ w' r, elsewhere (runtime_path a) w w' ∧
      match r with
      | Ok (c, _) => is_child (runtime_path a) c w'
      | Err f => sf_live_pid f = None ∧ pw_runners w' !! runtime_path a = None
      end).
Proof.
  intros Hn. apply looks_then; [done|]. intros present w1 H1.
  destruct (negb present); [apply sat_ret; by eauto|].
  apply sat_bind_ok, sat_sys_map_err. eapply sat_mono; [apply sat_looking, host_env_looking|].
  intros w2 [e|reason] H2; cbn [map_err]; cycle 1.
  { assert (passes w w2) as Hp by passes_by. by eauto. }
  apply looks_then; [unfold cache_env; destruct target; [|done]; by destruct dependency_caches|].
  intros caches w3 H3. apply sat_bind. eapply sat_mono; [apply listener_spec_sat|].
  intros w4 spec [H4 Hd]. apply sat_bind_ok. eapply sat_mono; [apply docker_spec_sat|].
  intros w5 [[s proxy]|f] [H5 Hs]; cycle 1.
  { assert (passes w w5) as Hp by passes_by. by eauto. }
  assert (passes w w5) as Hp by passes_by.
  apply sat_bind_ok, sat_sys_map_err. apply sat_bind_ok, sat_ret.
  destruct (reject_exposed_handoff s config) as [[]|error] eqn:Hr; cycle 1.
  { cbn [map_err]. by eauto. }
  eapply sat_mono; [apply (spawn_with_extra_env_sat _ _ (runtime_path a))|].
  - congruence.
  - by apply reject_exposed_ok.
  - by eauto.
  - assert (∀ w6, elsewhere (runtime_path a) w5 w6 → elsewhere (runtime_path a) w w6) as Htr.
    { intros w6 (?&?&?&Hru&?). pose proof Hp as (?&?&?&_&?). split_and!; try congruence; [|lia].
      eauto using runners_passes. }
    intros w6 [c|error] [He Hc]; cbn [map_err]; [by apply sat_ret; auto|by auto].
Qed.

(** *** The sidecars of an attempt *)

Definition sidecars a : list PathBuf :=
  [identity_path a; fallback_identity_path a; unresolved_process_path a].

(** Only the attempt's sidecars and its entry among the children change. *)
Definition aside a (w w' : pworld) : Prop :=
  pw_runners w' ⊆ pw_runners w ∧ pw_clock w ≤ pw_clock w' ∧ pw_stuck w ⊆ pw_stuck w' ∧
  (∀ j, j ≠ a_id a → children (pw_native w') !! j = children (pw_native w) !! j) ∧
  (∀ p, p ∉ sidecars a → pw_files w' !! p = pw_files w !! p).
#[local] Instance aside_preorder a : PreOrder (aside a).
Proof.
  split; [done|]. intros w1 w2 w3 (?&?&?&C1&F1) (?&?&?&C2&F2). split_and!.
  - by etransitivity.
  - lia.
  - by etransitivity.
  - intros j Hj. by rewrite C2, C1.
  - intros p Hp. by rewrite F2, F1.
Qed.

Lemma passes_aside a w w' : passes w w' → aside a w w'.
Proof. intros (E & F & S & Hr & Hc). unfold aside. by rewrite E, F, S. Qed.

Lemma aside_runners a w w' d : aside a w w' → pw_runners w !! d = None → pw_runners w' !! d = None.
Proof. intros (Hr & _) Hd. destruct (pw_runners w' !! d) eqn:E; [|done].
  eapply lookup_weaken in E; [|exact Hr]. congruence. Qed.

Lemma is_child_aside a dir c w w' : aside a w w' → is_child dir c w → is_child dir c w'.
Proof. intros (Hr & _) Hc x Hx. by eapply Hc, lookup_weaken. Qed.

Lemma insert_aside a p t w w' : p ∈ sidecars a → file_step (insert p t) w w' → aside a w w'.
Proof.
  intros Hp (E & F & S & Hr & Hc). simpl in *. unfold aside. rewrite E, F, S. split_and!; try done.
  intros q Hq. rewrite lookup_insert_ne; [done|]. by intros ->.
Qed.

Lemma remove_aside a p r w w' : p ∈ sidecars a → sys_does w (SysRemoveFile p) r w' → aside a w w'.
Proof.
  intros Hp. destruct r as [[]|source]; simpl.
  - intros (E & F & S & Hr & Hc). simpl in *. unfold aside. rewrite E, F, S. split_and!; try done.
    intros q Hq. rewrite lookup_delete_ne; [done|]. by intros ->.
  - case_bool_decide; [intros [_ Hq]; by apply passes_aside|]. intros (E & F & S & Hr & Hc).
    simpl in *. unfold aside. rewrite E, F, S. split_and!; try done. set_solver.
Qed.

(** What the identity files hold is the child's identity, or part of it. *)
Definition mine a (c : ChildProcess) (w : pworld) : Prop :=
  ∀ p t, p ∈ [identity_path a; fallback_identity_path a] → pw_files w !! p = Some t →
    ∃ full, to_json (ch_identity c) = Some full ∧ t `prefix_of` full.

Lemma mine_files a c w w' : pw_files w' = pw_files w → mine a c w → mine a c w'.
Proof. unfold mine. by intros ->. Qed.

Lemma mine_insert a c p t full w w' :
  to_json (ch_identity c) = Some full → t `prefix_of` full → file_step (insert p t) w w' →
  mine a c w → mine a c w'.
Proof.
  intros Hj Ht (_ & F & _) Hm q u Hq. rewrite F. simpl. destruct (decide (p = q)) as [->|Hne].
  - rewrite lookup_insert_eq. intros [= <-]. eauto.
  - rewrite lookup_insert_ne by done. by apply Hm.
Qed.

(** The daemon holds the child, and what was written of it is true. *)
Definition held a (c : ChildProcess) (w : pworld) : Prop :=
  children (pw_native w) !! a_id a = Some c ∧ is_child (runtime_path a) c w ∧ mine a c w.

(** Writing the identity: whole when it is reported, part of it otherwise. *)
Lemma persist_sat a c p full w :
  p ∈ [identity_path a; fallback_identity_path a] → to_json (ch_identity c) = Some full →
  mine a c w →
  sat V (sysop (SysPersist p full)) w (λ w' r,
    aside a w w' ∧ mine a c w' ∧ pw_native w' = pw_native w ∧
    (is_ok r = true → pw_files w' !! p = Some full)).
Proof.
  intros Hp Hj Hm. assert (p ∈ sidecars a) as Hp' by (unfold sidecars; set_solver).
  apply sat_op; [done|].
  assert (∀ t w', t `prefix_of` full → file_step (insert p t) w w' →
    aside a w w' ∧ mine a c w' ∧ pw_native w' = pw_native w) as Hstep.
  { intros t w' Ht Hs. split_and!; [by eapply insert_aside|by eapply mine_insert|]. by destruct Hs. }
  intros [[]|e] w' Hs.
  - destruct (Hstep full w') as (?&?&?); [done|done|]. split_and!; try done.
    intros _. destruct Hs as (_ & -> & _). apply lookup_insert_eq.
  - destruct Hs as [Hs|(u & Hu & Hs)].
    + split_and!; [by apply passes_aside| |by destruct Hs|done]. eapply mine_files; [by destruct Hs as (_&?&_)|done].
    + destruct (Hstep u w') as (?&?&?); [done|done|]. by split_and!.
Qed.

Lemma name_ne a n m : n ≠ m → path_join NATIVE (runtime_path a) n ≠ path_join NATIVE (runtime_path a) m.
Proof. intros Hne E. by apply path_join_inj in E. Qed.

Lemma persist_marker_sat a c t w :
  mine a c w →
  sat V (sysop (SysPersist (unresolved_process_path a) t)) w (λ w' r,
    aside a w w' ∧ mine a c w' ∧ pw_native w' = pw_native w).
Proof.
  intros Hm. assert (unresolved_process_path a ∈ sidecars a) as Hp by (unfold sidecars; set_solver).
  assert (∀ u w', file_step (insert (unresolved_process_path a) u) w w' →
    aside a w w' ∧ mine a c w' ∧ pw_native w' = pw_native w) as Hstep.
  { intros u w' Hs. split_and!; [by eapply insert_aside| |by destruct Hs].
    intros q v Hq. destruct Hs as (_ & -> & _). simpl. rewrite lookup_insert_ne; [by apply Hm|].
    intros <-. apply elem_of_cons in Hq as [E|E%list_elem_of_singleton];
      by apply path_join_inj in E. }
  apply sat_op; [done|]. intros [[]|e] w' Hs; [exact (Hstep _ _ Hs)|].
  destruct Hs as [Hs|(u & _ & Hs)]; [|exact (Hstep _ _ Hs)].
  split_and!; [by apply passes_aside| |by destruct Hs]. eapply mine_files; [by destruct Hs as (_&?&_)|done].
Qed.

Lemma persist_somewhere_sat a c w :
  mine a c w →
  sat V (persist_somewhere NATIVE to_json a c) w
    (λ w' _, aside a w w' ∧ mine a c w' ∧ pw_native w' = pw_native w).
Proof.
  intros Hm. unfold persist_somewhere. destruct (to_json (ch_identity c)) as [full|] eqn:Hj; [|by apply sat_ret].
  apply sat_bind. eapply sat_mono; [apply (persist_sat a c); [set_solver|done|done]|].
  intros w1 r (A1 & M1 & N1 & _). destruct (is_ok r); [by apply sat_ret|].
  apply sat_bind. eapply sat_mono; [apply (persist_sat a c); [set_solver|done|done]|].
  intros w2 r2 (A2 & M2 & N2 & _). apply sat_ret. split_and!; [by etransitivity|done|congruence].
Qed.

Lemma stop_spawned_child_sat c w :
  sat V (stop_spawned_child c) w (λ w' stopped, passes w w' ∧ (stopped = true → no_handle (ch_handle c) w')).
Proof. apply sat_bind. eapply sat_mono; [by apply child_stop_sat|]. done. Qed.

Lemma stop_again_sat n c w :
  sat V (stop_again n c) w (λ w' stopped, passes w w' ∧ (stopped = true → no_handle (ch_handle c) w')).
Proof.
  revert w. induction n as [|n IH]; intros w; [by apply sat_ret|]. cbn [stop_again].
  apply sat_bind. eapply sat_mono; [apply stop_spawned_child_sat|]. intros w1 [] [P1 N1].
  - apply sat_ret. by auto.
  - eapply sat_mono; [apply IH|]. intros w2 stopped [P2 N2]. split; [passes_by|done].
Qed.

Lemma remove_identity_files_sat a w :
  sat V (remove_identity_files NATIVE a) w (λ w' _, aside a w w').
Proof.
  apply sat_op_bind; [done|]. intros r1 w1 A1%(remove_aside a); [|unfold sidecars; set_solver].
  apply sat_op_bind; [done|]. intros r2 w2 A2%(remove_aside a); [|unfold sidecars; set_solver].
  apply sat_op_bind; [done|]. intros r3 w3 A3%(remove_aside a); [|unfold sidecars; set_solver].
  apply sat_ret. by do 2 (etransitivity; [eassumption|]).
Qed.

Lemma insert_child_sat a c w :
  is_child (runtime_path a) c w → mine a c w →
  sat V (insert_child (a_id a) c) w (λ w' _, aside a w w' ∧ held a c w' ∧ pw_files w' = pw_files w).
Proof.
  intros Hc Hm. apply sat_op_bind; [done|]. intros n w1 [-> P1]. apply sat_op; [done|].
  intros x w2 P2. pose proof P1 as (E1 & F1 & S1 & R1 & T1). pose proof P2 as (E2 & F2 & S2 & R2 & T2).
  simpl in *. assert (pw_runners w2 ⊆ pw_runners w) by (by etransitivity).
  assert (pw_files w2 = pw_files w) as HF by congruence. split; [|split; [split|done]].
  - unfold aside. rewrite E2, S2, S1, HF. split_and!; try done; [lia|].
    intros j Hj. simpl. by rewrite lookup_insert_ne.
  - rewrite E2. simpl. by rewrite lookup_insert_eq.
  - split; [|by eapply mine_files]. intros y Hy. by eapply Hc, lookup_weaken.
Qed.

(** *** Abandoning a child leaves none that is not accounted for *)

Definition abandoned a c (w w' : pworld) (f : ProcessStartFailure) : Prop :=
  aside a w w' ∧
  match sf_live_pid f with
  | None => pw_runners w' !! runtime_path a = None
  | Some pid => pid = child_pid c ∧ held a c w'
  end.

Lemma abort_sat a c remove w :
  is_child (runtime_path a) c w → mine a c w →
  sat V (abort_spawned_child NATIVE to_json c a remove) w (abandoned a c w).
Proof.
  intros Hc Hm. apply sat_bind. eapply sat_mono; [apply stop_spawned_child_sat|].
  intros w1 reaped [P1 N1]. pose proof (passes_aside a _ _ P1) as A1.
  pose proof (is_child_passes _ _ _ _ P1 Hc) as C1.
  assert (mine a c w1) as M1 by (eapply mine_files; [by destruct P1 as (_&?&_)|done]).
  destruct reaped.
  - apply sat_bind. specialize (N1 eq_refl). pose proof (is_child_gone _ _ _ C1 N1) as G1.
    eapply (sat_mono _ _ _ (λ w' _, aside a w1 w')).
    { destruct remove; [apply remove_identity_files_sat|by apply sat_ret]. }
    intros w2 _ A2. apply sat_ret. split; [by etransitivity|]. by eapply aside_runners.
  - apply sat_bind. eapply sat_mono; [by apply persist_somewhere_sat|].
    intros w2 durable (A2 & M2 & _). pose proof (is_child_aside _ _ _ _ _ A2 C1) as C2.
    assert (aside a w w2) as A02 by (by etransitivity). destruct durable.
    + apply sat_bind. eapply sat_mono; [by apply insert_child_sat|]. intros w3 _ (A3 & H3 & _).
      apply sat_ret. split; [by etransitivity|done].
    + apply sat_bind. eapply sat_mono; [apply stop_again_sat|]. intros w3 reaped [P3 N3].
      pose proof (passes_aside a _ _ P3) as A3. pose proof (is_child_passes _ _ _ _ P3 C2) as C3.
      destruct reaped.
      * apply sat_ret. split; [by etransitivity|]. by apply (is_child_gone _ c); auto.
      * apply sat_bind. eapply sat_mono; [apply (persist_marker_sat a c)|].
        { eapply mine_files; [by destruct P3 as (_&?&_)|done]. }
        intros w4 marker (A4 & M4 & _). apply sat_bind.
        eapply sat_mono; [apply insert_child_sat; [by eapply is_child_aside|done]|].
        intros w5 _ (A5 & H5 & _). apply sat_ret. split; [|done].
        do 3 (etransitivity; [eassumption|]). done.
Qed.

(** *** Recording a child *)

Lemma record_child_sat a c proxy w :
  is_child (runtime_path a) c w →
  pw_files w !! identity_path a = None → pw_files w !! fallback_identity_path a = None →
  sat V (record_child NATIVE to_json c proxy a) w (λ w' r,
    match r with
    | Ok pid =>
        aside a w w' ∧ pid = child_pid c ∧ held a c w' ∧
        ∃ full, to_json (ch_identity c) = Some full ∧ pw_files w' !! identity_path a = Some full
    | Err f => abandoned a c w w' f
    end).
Proof.
  intros Hc Hi Hf. assert (mine a c w) as Hm.
  { intros p t [->| ->%list_elem_of_singleton]%elem_of_cons; congruence. }
  unfold record_child. destruct (to_json (ch_identity c)) as [full|] eqn:Hj; cycle 1.
  { apply sat_bind. eapply sat_mono; [by apply abort_sat|]. by intros. }
  assert (∀ w1 remove, aside a w w1 → is_child (runtime_path a) c w1 → mine a c w1 →
    sat V (failure ← abort_spawned_child NATIVE to_json c a remove; mret (Err (A:=Z) failure)) w1
      (λ w' r, match r with
       | Ok pid => aside a w w' ∧ pid = child_pid c ∧ held a c w' ∧
           ∃ full', Some full = Some full' ∧ pw_files w' !! identity_path a = Some full'
       | Err f => abandoned a c w w' f end)) as Habort.
  { intros w1 remove A1 C1 M1. apply sat_bind. eapply sat_mono; [by apply abort_sat|].
    intros w2 f [A2 Hp]. apply sat_ret. split; [by etransitivity|done]. }
  apply sat_bind. eapply sat_mono; [apply (persist_sat a c); [set_solver|done|done]|].
  intros w1 r (A1 & M1 & _ & F1). pose proof (is_child_aside _ _ _ _ _ A1 Hc) as C1.
  destruct (is_ok r); cbn [negb]; [|by apply Habort]. specialize (F1 eq_refl).
  apply looks_then; [by destruct proxy|]. intros accounted w2 P2.
  pose proof (passes_aside a _ _ P2) as A2. pose proof (is_child_aside _ _ _ _ _ A2 C1) as C2.
  assert (mine a c w2) as M2 by (eapply mine_files; [by destruct P2 as (_&?&_)|done]).
  assert (aside a w w2) as A02 by (by etransitivity).
  destruct (is_ok accounted); cbn [negb]; [|by apply Habort].
  apply sat_bind. eapply sat_mono; [by apply insert_child_sat|]. intros w3 _ (A3 & H3 & F3).
  apply sat_ret. split; [by etransitivity|]. split; [done|]. split; [done|]. exists full.
  split; [done|]. destruct P2 as (_ & E2 & _). by rewrite F3, E2.
Qed.

(** *** The secret's file *)

Definition is_handoff a (p : PathBuf) : Prop :=
  ∃ id, p = path_join NATIVE (runtime_path a) (handoff_name id).

Lemma handoff_not_sidecar a p q : is_handoff a p → q ∈ sidecars a → p ≠ q.
Proof.
  intros [id ->] Hq E. unfold sidecars in Hq. rewrite !elem_of_cons in Hq.
  destruct Hq as [->|[->|[->|Hq]]]; [..|by apply not_elem_of_nil in Hq];
    apply path_join_inj, (f_equal (@head N)) in E; by vm_compute in E.
Qed.

(** Nothing but handoff files that could not be removed. *)
Definition littered a (w w' : pworld) : Prop :=
  ∀ p, p ∉ sidecars a → pw_files w' !! p = pw_files w !! p ∨ (is_handoff a p ∧ p ∈ pw_stuck w').

Lemma delete_in_place_sat p F t w :
  F !! p = None → pw_files w = <[p := t]> F →
  sat V (delete_in_place p) w (λ w' r,
    pw_native w' = pw_native w ∧ pw_runners w' ⊆ pw_runners w ∧ pw_clock w ≤ pw_clock w' ∧
    pw_stuck w ⊆ pw_stuck w' ∧
    match r with
    | Ok _ => pw_files w' = F
    | Err _ => pw_files w' = <[p := t]> F ∧ p ∈ pw_stuck w'
    end).
Proof.
  intros HF Hw. apply sat_op_bind; [done|]. intros [[]|source] w1 H1; cbn in H1; apply sat_ret.
  - destruct H1 as (E & Hf & S & R & T). simpl in *. split_and!; try done; [by rewrite S|].
    by rewrite Hf, Hw, delete_insert_id.
  - case_bool_decide as Hk.
    + destruct H1 as [Hn _]. by rewrite Hw, lookup_insert_eq in Hn.
    + destruct H1 as (E & Hf & S & R & T). simpl in *. split_and!; try done; [set_solver|congruence|set_solver].
Qed.

(** The rest of the world while the handoff is written or removed. *)
Definition filing (w w' : pworld) : Prop :=
  pw_native w' = pw_native w ∧ pw_runners w' ⊆ pw_runners w ∧ pw_clock w ≤ pw_clock w' ∧
  pw_stuck w ⊆ pw_stuck w'.
#[local] Instance filing_preorder : PreOrder filing.
Proof.
  split; [done|]. intros w1 w2 w3 (?&?&?&?) (?&?&?&?).
  split_and!; [congruence|by etransitivity|lia|by etransitivity].
Qed.

Lemma passes_filing w w' : passes w w' → filing w w'.
Proof. intros (?&?&S&?&?). split_and!; try done. by rewrite S. Qed.

(** The handoff [p] is gone from the files [F], or could not be removed. *)
Definition swept (p : PathBuf) (t : str) (F : gmap PathBuf str) (w : pworld) : Prop :=
  pw_files w = F ∨ (pw_files w = <[p := t]> F ∧ p ∈ pw_stuck w).

Lemma handoff_drop_sat p F t w :
  F !! p = None → pw_files w = <[p := t]> F →
  sat V (handoff_drop p) w (λ w' _, filing w w' ∧ swept p t F w').
Proof.
  intros HF Hw. apply sat_bind. eapply sat_mono; [by apply delete_in_place_sat|].
  intros w1 r (?&?&?&?&Hr). apply sat_ret. split; [done|]. destruct r; [by left|by right].
Qed.

Lemma handoff_delete_sat p F t w :
  F !! p = None → pw_files w = <[p := t]> F →
  sat V (handoff_delete p) w (λ w' r, filing w w' ∧
    if is_ok r then pw_files w' = F else swept p t F w').
Proof.
  intros HF Hw. apply sat_bind. eapply sat_mono; [by apply delete_in_place_sat|].
  intros w1 r (?&?&?&?&Hr). destruct r as [[]|e]; [by apply sat_ret|]. destruct Hr as [Hr Hp].
  apply sat_bind. eapply sat_mono; [by apply (handoff_drop_sat p F t)|].
  intros w2 _ [P2 S2]. apply sat_ret. split; [|done]. etransitivity; [|exact P2]. done.
Qed.

Lemma handoff_create_sat a config w :
  sat V (handoff_create NATIVE (runtime_path a) config) w (λ w' r, filing w w' ∧
    match r with
    | Ok p => is_handoff a p ∧ pw_files w !! p = None ∧ pw_files w' = <[p := config]> (pw_files w)
    | Err _ =>
        ∃ p t, is_handoff a p ∧ pw_files w !! p = None ∧ swept p t (pw_files w) w' ∨
        pw_files w' = pw_files w
    end).
Proof.
  apply sat_op_bind; [done|]. intros id w1 P1. assert (passes w w1) as P by exact P1. clear P1.
  set (p := path_join NATIVE (runtime_path a) (handoff_name id)).
  assert (is_handoff a p) as Hp by (by exists id).
  assert (pw_files w1 = pw_files w) as F1 by (by destruct P as (_&?&_)).
  apply sat_bind_ok, sat_op; [done|]. intros [[]|e] w2 H2; cbn in H2; cycle 1.
  { split; [apply passes_filing; passes_by|]. exists p, []. right. destruct H2 as (_&F2&_). congruence. }
  destruct H2 as (Hn & E2 & F2 & S2 & R2 & T2). fields. rewrite F1 in Hn, F2.
  assert (filing w w2) as G2.
  { etransitivity; [by apply passes_filing|]. split_and!; try done. by rewrite S2. }
  apply sat_op_bind; [done|]. intros r w3 H3.
  assert (∀ t, file_step (insert p t) w2 w3 → filing w w3 ∧ pw_files w3 = <[p := t]> (pw_files w)) as Hw.
  { intros t (E3 & F3 & S3 & R3 & T3). fields. split.
    - etransitivity; [exact G2|]. split_and!; try done. by rewrite S3.
    - by rewrite F3, F2, insert_insert_eq. }
  destruct r as [[]|e]; cbn in H3.
  - destruct (Hw _ H3) as [? ?]. apply sat_ret. by split_and!.
  - destruct H3 as [t H3]. destruct (Hw _ H3) as [G3 F3]. apply sat_bind.
    eapply sat_mono; [by apply (handoff_drop_sat p (pw_files w) t)|].
    intros w4 _ [G4 S4]. apply sat_ret. split; [by etransitivity|]. exists p, t. by left.
Qed.

Lemma swept_littered a p t F w w' :
  is_handoff a p → F !! p = None → pw_files w = F → swept p t F w' → littered a w w'.
Proof.
  intros Hp HF Hw [E|[E Hs]] q Hq; rewrite Hw, E; [by left|].
  destruct (decide (p = q)) as [<-|Hne]; [by right|]. left. by rewrite lookup_insert_ne.
Qed.

(** *** A start *)

Definition others_kept a (w w' : pworld) : Prop :=
  (∀ d x, d ≠ runtime_path a → pw_runners w' !! d = Some x → pw_runners w !! d = Some x) ∧
  (∀ j, j ≠ a_id a → children (pw_native w') !! j = children (pw_native w) !! j) ∧
  littered a w w'.

(** A child that is durably recorded. *)
Definition recorded_child a (pid : Z) (w : pworld) : Prop :=
  ∃ c full, pid = child_pid c ∧ held a c w ∧
    to_json (ch_identity c) = Some full ∧ pw_files w !! identity_path a = Some full.

Definition started_as a (r : result Z ProcessStartFailure) (w : pworld) : Prop :=
  match r with
  | Ok pid => recorded_child a pid w
  | Err f =>
      match sf_live_pid f with
      | None => pw_runners w !! runtime_path a = None
      | Some pid => ∃ c, pid = child_pid c ∧ held a c w
      end
  end.

Lemma others_kept_filing a w w' :
  filing w w' → littered a w w' → others_kept a w w'.
Proof.
  intros (E & R & _) Hl. split_and!; [|by rewrite E|done]. intros d x _ Hx. by eapply lookup_weaken.
Qed.

Lemma absent_filing w w' d : filing w w' → pw_runners w !! d = None → pw_runners w' !! d = None.
Proof.
  intros (_ & R & _) Hd. destruct (pw_runners w' !! d) eqn:E; [|done].
  eapply lookup_weaken in E; [|exact R]. congruence.
Qed.

Lemma elsewhere_files a w w' F p t :
  elsewhere (runtime_path a) w w' → pw_files w = <[p := t]> F → pw_files w' = <[p := t]> F.
Proof. by intros (_ & -> & _). Qed.

Lemma spawn_listener_sat a config target w :
  pw_runners w !! runtime_path a = None →
  pw_files w !! identity_path a = None → pw_files w !! fallback_identity_path a = None →
  sat V (spawn_listener NATIVE PLATFORM to_json runner_env_file dependency_caches docker_root
           a config target) w
    (λ w' r, others_kept a w w' ∧ started_as a r w').
Proof.
  intros Hr Hi Hf. apply sat_bind. eapply sat_mono; [apply handoff_create_sat|].
  intros w1 [p|e] [G1 H1]; cycle 1.
  { apply sat_ret. split; [|by eapply absent_filing]. apply others_kept_filing; [done|].
    destruct H1 as (p & t & [(Hp & Hn & Hs)|E]); [by eapply swept_littered|].
    intros q _. left. by rewrite E. }
  destruct H1 as (Hp & Hn & F1). apply sat_bind.
  eapply sat_mono; [apply spawn_child_sat; by eapply absent_filing|].
  intros w2 r [E2 Hc]. pose proof (elsewhere_files _ _ _ _ _ _ E2 F1) as F2.
  assert (∀ w3, filing w2 w3 → littered a w w3 → others_kept a w w3) as Hothers.
  { intros w3 (E3 & R3 & _) L3. destruct G1 as (N1 & R1 & _), E2 as (N2 & _ & _ & R2 & _).
    split_and!; [|by rewrite E3, N2, N1|done]. intros d x Hd Hx.
    eapply lookup_weaken; [|exact R1]. eapply R2; [done|]. by eapply lookup_weaken. }
  destruct r as [[c proxy]|f]; cycle 1.
  { destruct Hc as [Hl Hg]. apply sat_bind. eapply sat_mono; [by eapply handoff_drop_sat|].
    intros w3 _ [G3 S3]. apply sat_ret. split.
    - apply Hothers; [done|]. by eapply swept_littered.
    - simpl. rewrite Hl. by eapply absent_filing. }
  apply sat_bind. eapply sat_mono; [by eapply handoff_delete_sat|]. intros w3 r [G3 S3].
  assert (is_child (runtime_path a) c w3) as C3.
  { intros x Hx. apply Hc. destruct G3 as (_ & R3 & _). by eapply lookup_weaken. }
  assert (littered a w w3) as L3.
  { destruct (is_ok r); [|by eapply swept_littered]. intros q _. left. by rewrite S3. }
  assert (∀ q, q ∈ sidecars a → pw_files w3 !! q = pw_files w !! q) as F3.
  { intros q Hq. pose proof (handoff_not_sidecar _ _ _ Hp Hq).
    assert (∀ G, G = pw_files w ∨ G = <[p := config]> (pw_files w) → G !! q = pw_files w !! q) as HG.
    { intros G [->| ->]; [done|]. by rewrite lookup_insert_ne. }
    apply HG. destruct (is_ok r); [by left|]. destruct S3 as [?|[? _]]; auto. }
  assert (∀ w4, aside a w3 w4 → others_kept a w w4) as Haside.
  { intros w4 (R4 & _ & S4 & C4 & F4). destruct (Hothers _ G3 L3) as (R & C & _). split_and!.
    - intros d x Hd Hx. apply (R d x Hd). by eapply lookup_weaken.
    - intros j Hj. rewrite C4 by done. by apply C.
    - intros q Hq. rewrite F4 by done. destruct (L3 q Hq) as [?|[? ?]]; [by left|right; set_solver]. }
  assert (pw_files w3 !! identity_path a = None ∧ pw_files w3 !! fallback_identity_path a = None) as [I3 B3].
  { split; (rewrite F3; [done|unfold sidecars; set_solver]). }
  destruct (is_ok r); cbn [negb].
  - eapply sat_mono; [by apply record_child_sat|]. intros w4 [pid|f].
    + intros (A4 & -> & H4 & full & Hj & Hfile). split; [by apply Haside|]. by exists c, full.
    + intros [A4 H4]. split; [by apply Haside|]. simpl. destruct (sf_live_pid f); [by exists c|done].
  - apply sat_bind. eapply sat_mono; [apply abort_sat; [done|]|].
    { intros q t [->| ->%list_elem_of_singleton]%elem_of_cons; congruence. }
    intros w4 f [A4 H4]. apply sat_ret. split; [by apply Haside|]. simpl.
    destruct (sf_live_pid f); [by exists c|done].
Qed.

(** ** Finding a process again *)

(** What the sidecars say; [None] when they cannot be understood. *)
Definition recorded a (w : pworld) : option (option ProcessIdentity) :=
  match pw_files w !! identity_path a with
  | Some t => Some <$> from_json t
  | None =>
      match pw_files w !! fallback_identity_path a with
      | Some t => Some <$> from_json t
      | None => Some None
      end
  end.

(** A running process that the files, or the journalled PID, give away. *)
Definition durable a (w : pworld) (x : Runner) : Prop :=
  match recorded a w with
  | None => True
  | Some (Some i) => i = rn_identity x
  | Some None => is_Some (process_id a) ∨ is_Some (pw_files w !! unresolved_process_path a)
  end.
Definition traced a (w : pworld) : Prop :=
  ∀ x, pw_runners w !! runtime_path a = Some x →
    match children (pw_native w) !! a_id a with
    | Some c => ch_handle c = rn_handle x
    | None => durable a w x
    end.

(** A restarted daemon holds no children. *)
Definition restart (w : pworld) : pworld :=
  mk_pworld (mk_native ∅ ∅) (pw_files w) (pw_stuck w) (pw_runners w) (pw_clock w) ∅.

(** The same attempt, later in its life. *)
Definition same_place a a' : Prop := a_id a' = a_id a ∧ runtime_path a' = runtime_path a.

Lemma held_traced a a' c w : same_place a a' → held a c w → traced a' w.
Proof.
  intros [Hid Hp] (Hc & Hi & _) x. rewrite Hid, Hp, Hc. intros Hx. by destruct (Hi _ Hx).
Qed.

Lemma paths_same a a' :
  same_place a a' → identity_path a' = identity_path a ∧ fallback_identity_path a' = fallback_identity_path a.
Proof. intros [_ Hp]. unfold Native.identity_path, Native.fallback_identity_path. by rewrite Hp. Qed.

Lemma mine_recorded a a' c w x :
  same_place a a' → mine a c w → is_child (runtime_path a) c w →
  pw_runners w !! runtime_path a = Some x →
  match recorded a' w with Some (Some i) => i = rn_identity x | _ => True end.
Proof.
  intros [Hi Hf]%paths_same Hm Hc Hx. destruct (Hc _ Hx) as [_ ->].
  assert (∀ p t, p ∈ [identity_path a; fallback_identity_path a] → pw_files w !! p = Some t →
    match Some <$> from_json t with Some (Some i) => i = ch_identity c | _ => True end) as Hread.
  { intros p t Hp Ht. destruct (Hm _ _ Hp Ht) as (full & Hj & Hu).
    destruct (decide (t = full)) as [->|Hne]; [by rewrite (json_roundtrip _ _ Hj)|].
    by rewrite (json_prefix _ _ _ Hj Hu Hne). }
  unfold recorded. rewrite Hi, Hf. destruct (pw_files w !! identity_path a) eqn:E1.
  - eapply Hread; [|exact E1]. set_solver.
  - destruct (pw_files w !! fallback_identity_path a) eqn:E2; [|done]. eapply Hread; [|exact E2]. set_solver.
Qed.

(** What a start left running is found again, by this daemon and by the next. *)
Lemma started_traced a a' r w :
  started_as a r w → same_place a a' →
  (∀ f, r = Err f → is_Some (sf_live_pid f) → is_Some (process_id a')) →
  traced a' w ∧ traced a' (restart w).
Proof.
  intros Hs Hp Hpid.
  assert (∀ c, held a c w → (∀ x, pw_runners w !! runtime_path a = Some x → recorded a' w = Some None →
    is_Some (process_id a')) → traced a' w ∧ traced a' (restart w)) as Hheld.
  { intros c Hh Hn. split; [by eapply held_traced|]. destruct Hh as (_ & Hi & Hm). intros x Hx.
    unfold restart in Hx |- *. fields. destruct Hp as [Hid Hpath]. rewrite Hpath in Hx.
    cbn [children]. rewrite lookup_empty. unfold durable.
    change (recorded a' (mk_pworld _ _ _ _ _ _)) with (recorded a' w).
    pose proof (mine_recorded a a' c w x (conj Hid Hpath) Hm Hi Hx) as Hrec.
    destruct (recorded a' w) as [[i|]|] eqn:E; [done|left; by eauto|done]. }
  destruct r as [pid|f]; simpl in Hs.
  - destruct Hs as (c & full & _ & Hh & Hj & Hf). apply (Hheld c Hh). intros x _.
    unfold recorded. destruct (paths_same _ _ Hp) as [-> _]. rewrite Hf, (json_roundtrip _ _ Hj). done.
  - destruct (sf_live_pid f) eqn:El.
    + destruct Hs as (c & _ & Hh). apply (Hheld c Hh). intros. eapply Hpid; [done|by rewrite El].
    + destruct Hp as [_ Hpath]. split; intros x; unfold restart; fields; rewrite Hpath; congruence.
Qed.

(** ** Observing *)

(** Nothing but the exits this daemon saw. *)
Definition observes (w w' : pworld) : Prop :=
  children (pw_native w') = children (pw_native w) ∧ pw_files w' = pw_files w ∧
  pw_stuck w' = pw_stuck w ∧ pw_runners w' ⊆ pw_runners w.

Lemma passes_observes w w' : passes w w' → observes w w'.
Proof. intros (E & ? & ? & ? & _). split_and!; try done. by rewrite E. Qed.

Lemma recheck_sat i w :
  sat V (recheck i) w (λ w' r, passes w w' ∧
    (match r with Ok AdoptLive => true | _ => false end = false →
     ∀ d x, pw_runners w' !! d = Some x → rn_identity x = i → pi_pid i ∈ pw_misread w')).
Proof.
  apply sat_op_bind; [done|]. intros r w1 [P1 H1]. apply sat_ret. split; [done|].
  intros Hn d x Hx <-. specialize (H1 d x Hx eq_refl). destruct r as [token|source]; [|exact H1].
  subst token. unfold classify in Hn. by rewrite bool_decide_eq_true_2 in Hn.
Qed.

Lemma read_identity_at_sat p w :
  sat V (read_identity_at from_json p) w (λ w' r, passes w w' ∧
    match r with
    | Ok o => match pw_files w !! p with
              | Some t => Some <$> from_json t = Some o
              | None => o = None
              end
    | Err _ => True
    end).
Proof.
  apply sat_op_bind; [done|]. intros [t|error] w1 [P1 H1]; apply sat_ret; (split; [done|]).
  - rewrite H1. by destruct (from_json t).
  - case_bool_decide; [|done]. by rewrite H1.
Qed.

Lemma read_identity_sat a w :
  sat V (read_identity NATIVE from_json a) w (λ w' r, passes w w' ∧
    match r with Ok o => recorded a w = Some o | Err _ => True end).
Proof.
  apply sat_bind_ok. eapply sat_mono; [apply read_identity_at_sat|]. intros w1 [o|e] [P1 H1]; [|done].
  unfold recorded. destruct (pw_files w !! identity_path a) as [t|].
  - destruct (from_json t) as [i|]; [|done]. injection H1 as <-. by apply sat_ret.
  - subst o. eapply sat_mono; [apply read_identity_at_sat|]. intros w2 r [P2 H2].
    split; [passes_by|]. destruct r as [o|e]; [|done]. destruct P1 as (_ & F1 & _).
    rewrite F1 in H2. destruct (pw_files w !! fallback_identity_path a); [done|by subst].
Qed.

Lemma is_recorded_alive_sat a w :
  sat V (is_recorded_alive NATIVE from_json a) w (λ w' r, passes w w' ∧
    (r = Ok false → ∀ x, pw_runners w' !! runtime_path a = Some x → durable a w x →
       pi_pid (rn_identity x) ∈ pw_misread w')).
Proof.
  apply sat_bind_ok. eapply sat_mono; [apply read_identity_sat|].
  intros w1 [o|e] [P1 Hr]; [|done]. unfold durable. rewrite Hr. destruct o as [i|].
  - apply sat_bind. eapply sat_mono; [apply recheck_sat|]. intros w2 r [P2 H2]. apply sat_ret.
    split; [passes_by|]. intros [= Hf] x Hx ->. by eapply H2.
  - destruct (process_id a) as [pid|].
    + apply sat_bind, sat_ret, sat_ret. done.
    + apply sat_op_bind; [done|]. intros marker w2 [P2 H2]. apply sat_ret. split; [passes_by|].
      destruct marker; [done|]. intros _ x _ [[? ?]|[? E]]; [done|].
      specialize (H2 eq_refl). destruct P1 as (_ & F1 & _). rewrite F1 in H2. congruence.
Qed.

(** If something runs in the directory, its start time could not be read. *)
Definition misjudged a (w : pworld) : Prop :=
  ∀ x, pw_runners w !! runtime_path a = Some x → pi_pid (rn_identity x) ∈ pw_misread w.

Lemma is_alive_sat a w :
  sat V (is_alive NATIVE from_json a) w (λ w' r, observes w w' ∧ (traced a w → r = Ok false → misjudged a w')).
Proof.
  apply sat_bind, sat_op_bind; [done|]. intros n w1 [-> P1]. apply sat_ret.
  assert (∀ w', passes w1 w' → observes w w') as Hobs.
  { intros w' P'. apply passes_observes. passes_by. }
  destruct (children (pw_native w) !! a_id a) as [c|] eqn:Hc.
  - apply sat_bind_ok, sat_sys_map_err, sat_sys_map_err, sat_op; [done|].
    intros [[s|]|e] w2 [P2 H2]; cbn [map_err]; [|split; [by apply Hobs|done]..].
    apply sat_bind, sat_op_bind; [done|]. intros n w3 [-> P3]. apply sat_op; [done|]. intros x w4 P4.
    apply sat_ret. pose proof P4 as (E4 & F4 & S4 & R4 & _). fields.
    assert (observes w w3) as (E & F & S & R) by (apply Hobs; passes_by). split.
    + split_and!; [|congruence|congruence|by etransitivity]. rewrite E4. cbn [children].
      by destruct P3 as (<- & _).
    + intros Ht _ y Ey. exfalso.
      pose proof (lookup_weaken _ _ _ _ Ey R4) as Hy3.
      eapply (no_handle_passes _ _ _ P3 H2); [exact Hy3|].
      pose proof (lookup_weaken _ _ _ _ Hy3 R) as Hy. specialize (Ht _ Hy). by rewrite Hc in Ht.
  - eapply sat_mono; [apply is_recorded_alive_sat|]. intros w2 r [P2 H2]. split; [by apply Hobs|].
    intros Ht Hf y Ey. apply (H2 Hf _ Ey). assert (passes w w2) as P02 by passes_by.
    pose proof (runners_passes _ _ _ _ P02 Ey) as Hy. specialize (Ht _ Hy). rewrite Hc in Ht.
    unfold durable, recorded in *. by destruct P1 as (_ & -> & _).
Qed.

Lemma native_inspect_sat a w :
  sat V (native_inspect NATIVE from_json a) w (λ w' r, observes w w' ∧
    match r with
    | Ok s => traced a w → s ≠ EnvRunning → misjudged a w'
    | Err _ => True
    end).
Proof.
  unfold native_inspect. destruct (negb _); [by apply sat_ret|].
  apply sat_bind_ok. eapply sat_mono; [apply is_alive_sat|].
  intros w1 [alive|e] [O1 H1]; [|done]. apply sat_ret. split; [done|]. destruct alive; [done|]. by auto.
Qed.

(** ** Theorems *)

#[local] Abbreviation native_start :=
  (native_start NATIVE PLATFORM to_json runner_env_file dependency_caches docker_root) (only parsing).
#[local] Abbreviation native_inspect := (native_inspect NATIVE from_json) (only parsing).

(** Nothing runs in the directory and no identity of an earlier start is left in it. *)
Definition clean_slate a (w : pworld) : Prop :=
  pw_runners w !! runtime_path a = None ∧
  pw_files w !! identity_path a = None ∧ pw_files w !! fallback_identity_path a = None.

Lemma native_start_sat prepared a config w :
  clean_slate a w →
  sat V (native_start prepared a config) w (λ w' r,
    others_kept a w w' ∧
    match r with
    | Ok i => ∃ pid, i = NativeProcess pid ∧ started_as a (Ok pid) w'
    | Err f => started_as a (Err f) w'
    end).
Proof.
  intros (Hr & Hi & Hf). unfold Native.native_start. destruct (_ || _).
  { apply sat_ret. split; [|done]. split_and!; try done. by left. }
  apply sat_bind_ok. eapply sat_mono; [by apply spawn_listener_sat|].
  intros w1 [pid|f] [O1 S1]; [|done]. apply sat_ret. split; [done|]. by exists pid.
Qed.

(** The daemon goes on, and notes which look-ups fail from now on. *)
Definition goes_on (w : pworld) : pworld :=
  mk_pworld (pw_native w) (pw_files w) (pw_stuck w) (pw_runners w) (pw_clock w) ∅.

(** C6: a start that returned can be found again. Let nothing run in the attempt's
    directory and no identity of an earlier start be left in it. Whatever then fails while a
    runner is started (the files, the spawn, the identity, the stops), when the start
    returns: a failure that names no live PID left nothing running there; if the journal is
    given the PID of one that does, then this daemon, and any daemon started after it, that
    reports nothing running is right, unless during that very inspection the operating
    system could not tell when the process that runs there was started; no other directory
    or attempt is touched; and of the secret's file nothing remains, unless the operating
    system refused to remove it. *)
Theorem native_start_is_found_again prepared a config w :
  clean_slate a w →
  sat os_env (native_start prepared a config) w (λ w' r,
    others_kept a w w' ∧
    match r with
    | Err f => sf_live_pid f = None → pw_runners w' !! runtime_path a = None
    | Ok _ => True
    end ∧
    ∀ a' daemon, same_place a a' → daemon ∈ [goes_on w'; restart w'] →
      (∀ f, r = Err f → is_Some (sf_live_pid f) → is_Some (process_id a')) →
      sat os_env (native_inspect a') daemon (λ w'' s, s = Ok EnvMissing →
        ∀ x, pw_runners w'' !! runtime_path a = Some x → pi_pid (rn_identity x) ∈ pw_misread w'')).
Proof.
  intros Hw. apply os_sat. eapply sat_mono; [by apply native_start_sat|]. intros w1 r [O1 S1]. split; [done|].
  assert (∃ r', started_as a r' w1 ∧ (∀ f, r = Err f ↔ r' = Err f)) as (r' & S' & Hr).
  { destruct r as [i|f]; [destruct S1 as (pid & _ & S1)|]; eexists; (split; [exact S1|naive_solver]). }
  split.
  - destruct r as [i|f]; [done|]. intros El. simpl in S1. by rewrite El in S1.
  - intros a' daemon Hp Hd Hpid. destruct (started_traced a a' r' w1 S' Hp) as [T1 T2].
    { intros f Hf. apply Hpid. by apply Hr. }
    destruct Hp as [_ Hpath]. rewrite <- Hpath.
    assert (traced a' daemon) as Ht.
    { apply elem_of_cons in Hd as [->|Hd]; [exact T1|]. by apply list_elem_of_singleton in Hd as ->. }
    apply os_sat. eapply sat_mono; [apply native_inspect_sat|]. intros w2 s [_ H2] ->. by apply H2.
Qed.

(** *** The promises of the lifecycle *)

(** A start spawns in the attempt's directory and nowhere else. *)
Definition spawns_in (dir : PathBuf) (e : sys) : Prop :=
  match e with SysSpawn s _ => ss_working_dir s = Some dir | _ => True end.

Lemma spawns_in_others dir w e x w' d y :
  spawns_in dir e → sys_does w e x w' → d ≠ dir → pw_runners w' !! d = Some y → pw_runners w !! d = Some y.
Proof.
  intros He Hd Hne.
  assert (∀ w0, passes w0 w' → pw_runners w' !! d = Some y → pw_runners w0 !! d = Some y) as Hp.
  { intros w0 ??. by eapply runners_passes. }
  destruct e; simpl in He, Hd; try (by apply Hp); try (by destruct Hd as [? ?]; apply Hp);
    repeat match goal with
    | H : match ?x with Ok _ => _ | Err _ => _ end |- _ => destruct x as [[]|]
    | H : if bool_decide _ then _ else _ |- _ => case_bool_decide
    | H : ∃ _, _ |- _ => destruct H
    | H : _ ∧ _ |- _ => destruct H
    | H : _ ∨ _ |- _ => destruct H
    end;
    try (match goal with H : passes ?w0 _ |- _ => exact (Hp _ H) | H : file_step _ _ _ |- _ => exact (Hp _ H) end).
  intros Hy%(Hp _ H). simpl in Hy. by rewrite He, lookup_insert_ne in Hy.
Qed.

Lemma within_bind_returns {A B} (R : sys → Prop) (P : A → Prop) (m : sprogram A) (k : A → sprogram B) :
  within R m → returns P m → (∀ x, P x → within R (k x)) → within R (m ≫= k).
Proof. intros Hm Hp Hk. induction m as [x|e c IH]; simpl in *; [by apply Hk|]. destruct Hm as [He Hc]. split; [done|]. intros x. by apply IH. Qed.

Lemma looking_spawns {A} dir (m : sprogram A) : within looking m → within (spawns_in dir) m.
Proof. apply within_mono. by intros []. Qed.

(** Programs that spawn nothing. *)
Ltac no_spawn :=
  repeat first
    [ done
    | assumption
    | progress intros
    | apply within_bind
    | apply within_bind_ok
    | match goal with
      | |- within _ (if ?b then _ else _) => destruct b
      | |- within _ match ?x with _ => _ end => destruct x
      end ].

Lemma wait_until_spawns dir fuel deadline c : within (spawns_in dir) (wait_until fuel deadline c).
Proof. induction fuel as [|fuel IH]; cbn [wait_until]; no_spawn. Qed.

Lemma stop_spawns dir c : within (spawns_in dir) (stop_spawned_child c).
Proof. pose proof (wait_until_spawns dir). unfold stop_spawned_child, child_stop, wait_for. no_spawn. Qed.

Lemma stop_again_spawns dir n c : within (spawns_in dir) (stop_again n c).
Proof. pose proof (stop_spawns dir c). induction n as [|n IH]; cbn [stop_again]; no_spawn. Qed.

Lemma abort_spawns dir c a remove : within (spawns_in dir) (abort_spawned_child NATIVE to_json c a remove).
Proof.
  pose proof (stop_spawns dir c). pose proof (λ n, stop_again_spawns dir n c).
  unfold abort_spawned_child, persist_somewhere, remove_identity_files, insert_child. no_spawn.
Qed.

Lemma listener_spec_returns program runtime caches e :
  returns (λ s, ss_working_dir s = Some runtime) (runner_listener_spec NATIVE PLATFORM program runtime caches e).
Proof.
  do 4 (apply returns_bind; intros). unfold listener_spec. simpl. by rewrite fold_env_working_dir.
Qed.
Lemma docker_spec_returns a target e spec :
  returns (λ r, match r with Ok (s, _) => ss_working_dir s = ss_working_dir spec | Err _ => True end)
    (docker_spec NATIVE docker_root a target e spec).
Proof.
  unfold docker_spec. destruct docker_root as [root|]; [|done]. apply returns_bind.
  intros [[endpoint|]|error]; [done|done|]. apply returns_bind. by intros [].
Qed.

Lemma spawn_child_spawns a config target :
  within (spawns_in (runtime_path a)) (spawn_child a config target).
Proof.
  apply within_bind; [done|]. intros present. destruct (negb _); [done|].
  apply within_bind_ok; [apply looking_spawns, within_bind; [apply host_env_looking|done]|]. intros e.
  apply within_bind; [unfold cache_env; destruct target; [|done]; by destruct dependency_caches|]. intros caches.
  eapply within_bind_returns; [apply looking_spawns, listener_spec_looking|apply listener_spec_returns|].
  intros spec Hd. eapply within_bind_returns; [apply looking_spawns, docker_spec_looking|apply docker_spec_returns|].
  intros [[s proxy]|f] Hs; [|done]. assert (ss_working_dir s = Some (runtime_path a)) by congruence.
  unfold spawn_runner_with_handoff, spawn_with_extra_env, of_child, identity_read. no_spawn.
Qed.

Lemma native_start_spawns prepared a config :
  within (spawns_in (runtime_path a)) (native_start prepared a config).
Proof.
  pose proof (spawn_child_spawns a config). pose proof (λ c, abort_spawns (runtime_path a) c a).
  unfold Native.native_start, spawn_listener, handoff_create, handoff_drop, handoff_delete, delete_in_place,
    record_child, insert_child. no_spawn.
Qed.

Lemma cut_others {A} dir (m m' : sprogram A) w w' d y :
  within (spawns_in dir) m → partly_run os_env m w m' w' → d ≠ dir → pw_runners w' !! d = Some y →
  pw_runners w !! d = Some y.
Proof.
  intros Hm Hrun Hne. induction Hrun as [|e k w x w1 m' w' [Hd _] _ IH]; [done|].
  destruct Hm as [He Hk]. intros Hy. eapply spawns_in_others; [exact He|exact Hd|exact Hne|]. by apply IH.
Qed.

(** The processes of a site are those that run in the attempts' directories. *)
Definition tracks (path_of : AttemptId → PathBuf) (s : site) (w : pworld) : Prop :=
  ∀ id, id ∈ w_live (s_world s) ↔ is_Some (pw_runners w !! path_of id).

(** The same journal and memory, with some of these processes. *)
Definition shrink (path_of : AttemptId → PathBuf) (s : site) (live denied : gset AttemptId) (w : pworld) : site :=
  mk_site (LifecycleEnv.mk_world (w_db (s_world s)) (w_mem (s_world s))
    (filter (λ id, is_Some (pw_runners w !! path_of id)) live)) denied.

Lemma shrink_tracks path_of s live denied w :
  (∀ id, is_Some (pw_runners w !! path_of id) → id ∈ live) → tracks path_of (shrink path_of s live denied w) w.
Proof. intros H id. unfold shrink. cbn [s_world w_live]. rewrite elem_of_filter. naive_solver. Qed.

Section Promises.
Context (path_of : AttemptId → PathBuf) (s : site) (w : pworld) (a : RunnerAttempt).
Context (Ht : tracks path_of s w) (Ha : path_of (a_id a) = runtime_path a).
Context (Hinj : ∀ id, path_of id = runtime_path a → id = a_id a).

(** Whatever left the other directories alone. *)
Lemma tracks_others denied w' :
  (∀ d y, d ≠ runtime_path a → pw_runners w' !! d = Some y → pw_runners w !! d = Some y) →
  (∀ id, id ≠ a_id a → is_Some (pw_runners w' !! path_of id) → id ∈ w_live (s_world s)) ∧
  tracks path_of (shrink path_of s (w_live (s_world s) ∪ {[ a_id a ]}) denied w') w'.
Proof.
  intros Ho. assert (∀ id, id ≠ a_id a → is_Some (pw_runners w' !! path_of id) → id ∈ w_live (s_world s)) as Hother.
  { intros id Hne [x Hx]. apply Ht. exists x. apply (Ho _ _); [|done]. intros E. by apply Hinj in E. }
  split; [done|]. apply shrink_tracks. intros id Hx.
  destruct (decide (id = a_id a)) as [->|Hne]; [set_solver|]. apply elem_of_union_l. by apply Hother.
Qed.

Lemma start_promised prepared config :
  is_native (execution a) = true → clean_slate a w →
  sat V (native_start prepared a config) w (λ w' r,
    ∃ s', tracks path_of s' w' ∧ site_does NATIVE s (PrStart prepared a config) r s').
Proof.
  intros Hn Hw. eapply sat_mono; [by apply native_start_sat|]. intros w' r [(Ho & _) Hs].
  destruct (tracks_others (s_denied s) w' Ho) as [Hother Ht']. eexists. split; [exact Ht'|].
  split; [|done]. cbn. split; [done|]. split; [done|]. intros id. rewrite elem_of_filter. intros [Hx Hid].
  destruct r as [i|f]; [done|]. rewrite Hn. cbn [andb]. case_bool_decide as El; [|done].
  simpl in Hs. rewrite El in Hs. apply Hother; [|done]. intros ->. rewrite Ha, Hs in Hx. by destruct Hx.
Qed.

Lemma inspect_promised :
  sat V (native_inspect a) w (λ w' r,
    ∃ s', tracks path_of s' w' ∧ site_does NATIVE s (PrInspect a) r s' ∧
      (traced a w → s_denied s' = s_denied s ∨
         ∃ x, pw_runners w' !! runtime_path a = Some x ∧ pi_pid (rn_identity x) ∈ pw_misread w')).
Proof.
  eapply sat_mono; [apply native_inspect_sat|]. intros w' r [(_ & _ & _ & R) Hs].
  set (live := filter (λ id, is_Some (pw_runners w' !! path_of id)) (w_live (s_world s))).
  exists (shrink path_of s (w_live (s_world s))
    (s_denied s ∪ (if denies a r then {[ a_id a ]} ∩ live else ∅)) w'). split; [|split].
  - apply shrink_tracks. intros id [x Hx]. apply Ht. exists x. by eapply lookup_weaken.
  - split; [|done]. split; [done|]. split; [done|]. intros id. unfold shrink. cbn [s_world w_live].
    rewrite elem_of_filter. by intros [_ ?].
  - intros Htr. unfold shrink. cbn [s_denied]. destruct (denies a r) eqn:Hd; [|left; set_solver].
    destruct (pw_runners w' !! runtime_path a) as [x|] eqn:Ex.
    + right. exists x. split; [done|]. destruct r as [state|e]; [|done]. simpl in Hd. apply (Hs Htr); [|done].
      unfold not_running in Hd. apply andb_true_iff in Hd as [Hd _]. intros ->.
      by rewrite bool_decide_eq_true_2 in Hd.
    + left. assert (a_id a ∉ live); [|set_solver]. unfold live. rewrite elem_of_filter, Ha, Ex. by intros [[? ?] _].
Qed.
End Promises.

(** C7: the native provider is what the lifecycle was proved against. With the processes of
    a site those that run in the attempts' directories, on any operating system of this
    file: a start into a clean directory answers as [site_does] says of [PrStart]; a daemon
    that dies anywhere in the middle of one leaves at most the attempt's own process more;
    and an inspection answers as [site_does] says of [PrInspect], where it denies a running
    process that memory, files or the journalled PID give away only if during that
    inspection the operating system could not tell when it was started. *)
Theorem native_keeps_lifecycle_promises path_of s w a prepared config :
  tracks path_of s w → path_of (a_id a) = runtime_path a →
  (∀ id, path_of id = runtime_path a → id = a_id a) → is_native (execution a) = true →
  (clean_slate a w → sat os_env (native_start prepared a config) w (λ w' r,
     ∃ s', tracks path_of s' w' ∧ site_does NATIVE s (PrStart prepared a config) r s')) ∧
  (∀ rest w', partly_run os_env (native_start prepared a config) w rest w' →
     ∃ s', tracks path_of s' w' ∧ w_db (s_world s') = w_db (s_world s) ∧ s_denied s' = s_denied s ∧
       w_live (s_world s') ⊆ w_live (s_world s) ∪ {[ a_id a ]}) ∧
  (pw_misread w = ∅ → sat os_env (native_inspect a) w (λ w' r,
     ∃ s', tracks path_of s' w' ∧ site_does NATIVE s (PrInspect a) r s' ∧
       (traced a w → s_denied s' = s_denied s ∨
          ∃ x, pw_runners w' !! runtime_path a = Some x ∧ pi_pid (rn_identity x) ∈ pw_misread w'))).
Proof.
  intros Ht Ha Hinj Hn. split_and!.
  - intros Hw. by apply os_sat, start_promised.
  - intros rest w' Hrun. eexists. split.
    + apply (tracks_others path_of s w a Ht Ha Hinj (s_denied s)). intros d y Hne.
      by apply (cut_others _ _ _ _ _ _ _ (native_start_spawns prepared a config) Hrun).
    + split; [done|]. split; [done|]. intros id. cbn. rewrite elem_of_filter. by intros [_ ?].
  - intros _. by apply os_sat, inspect_promised.
Qed.
End Provider.
