(* ===== verification/LifecycleSafety.v ===== *)
(** * What the lifecycle guarantees

    Every program of [Lifecycle], [Supervise] and [Launch] meets the demands of
    [LifecycleEnv] at each of its calls, so also when the daemon dies between two of
    them. The lemmas follow the programs from the journal write up. *)

From stdpp Require Import strings.
From S2P Require Import Prelude RustStr Ordered Model Path Workspace Execution Host Attempt.
From S2P Require Import Labels Policy Capacity Recovery Store Github Backoff Report.
From S2P Require Import Effects Ports Slots Lifecycle Supervise Launch LifecycleEnv.
#[local] Open Scope Z_scope.
#[local] Open Scope rust_scope.

Section Safety.
Context (NATIVE : PathPlatform) (self : LifecycleLauncher).
#[local] Abbreviation V := (lifecycle_env NATIVE).
Implicit Types (w : world) (a : RunnerAttempt).

(** ** Calm parts *)

Lemma calm_read_runner_id p : within (calm_effect NATIVE) (read_runner_id NATIVE p).
Proof. unfold read_runner_id. calm. Qed.
#[local] Hint Resolve calm_read_runner_id : calm.

Lemma calm_write_durable_file dir name content :
  within (calm_effect NATIVE) (write_durable_file NATIVE dir name content).
Proof. unfold write_durable_file. calm. Qed.
#[local] Hint Resolve calm_write_durable_file : calm.

Lemma calm_write_runner_id p id : within (calm_effect NATIVE) (write_runner_id NATIVE p id).
Proof.
  unfold write_runner_id, journal_if. calm. split; [|done]. by eexists p, _.
Qed.
#[local] Hint Resolve calm_write_runner_id : calm.

Lemma calm_known_runner_id a observed : within (calm_effect NATIVE) (known_runner_id NATIVE a observed).
Proof. unfold known_runner_id. calm. Qed.
Lemma calm_deregister_runner p a : within (calm_effect NATIVE) (deregister_runner NATIVE p a).
Proof. unfold deregister_runner. calm. Qed.
Lemma calm_JobEvidence_of p : within (calm_effect NATIVE) (JobEvidence_of NATIVE p).
Proof. unfold JobEvidence_of. calm. Qed.
Lemma calm_preserve_diagnostics a o : within (calm_effect NATIVE) (preserve_diagnostics NATIVE self a o).
Proof. unfold preserve_diagnostics. calm. Qed.
Lemma calm_modify_memory f : within (calm_effect NATIVE) (modify_memory f).
Proof. unfold modify_memory. calm. Qed.
#[local] Hint Resolve calm_known_runner_id calm_deregister_runner calm_JobEvidence_of
  calm_preserve_diagnostics calm_modify_memory : calm.
Lemma calm_modify_retries f : within (calm_effect NATIVE) (modify_retries f).
Proof. apply calm_modify_memory. Qed.
Lemma calm_set_pending l : within (calm_effect NATIVE) (set_pending l).
Proof. apply calm_modify_memory. Qed.
Lemma calm_set_recovery_complete b : within (calm_effect NATIVE) (set_recovery_complete b).
Proof. apply calm_modify_memory. Qed.
Lemma calm_retry_is_due id now : within (calm_effect NATIVE) (retry_is_due id now).
Proof. unfold retry_is_due. calm. Qed.
Lemma calm_retry_wait p id o d : within (calm_effect NATIVE) (retry_wait p id o d).
Proof. unfold retry_wait. calm. Qed.
#[local] Hint Resolve calm_modify_retries calm_set_pending calm_set_recovery_complete
  calm_retry_is_due calm_retry_wait : calm.

(** ** The journal write *)

Lemma row_is_normalised a : row_is (normalise (to_persisted a)).1 a.
Proof.
  unfold normalise, row_is. simpl. repeat case_match; simplify_eq/=; split_and!; try done;
    congruence.
Qed.

(** An accepted write replaces one row by what the attempt says; a refused one none. *)
Lemma record_rows a d d' r :
  record_attempt a d = (d', r) →
  (∀ old, attempts d !! a_id a = Some old → pa_workspace_kind old = aw_kind (workspace a)) →
  match r with
  | Ok _ => ∃ row, attempts d' = <[a_id a := row]> (attempts d) ∧ row_is row a ∧
              pa_id row = a_id a ∧ slot_taken row d = false
  | Err _ => attempts d' = attempts d
  end.
Proof.
  intros H Hold. pose proof (row_is_normalised a) as Hn. unfold record_attempt in H.
  assert (pa_id (normalise (to_persisted a)).1 = a_id a) as Hid
    by (unfold normalise; simpl; by repeat case_match).
  destruct (normalise (to_persisted a)) as [f n]. simpl in Hn, Hid.
  unfold attempt_params in H.
  repeat (case_match; simplify_eq/=; try done). all: try (by destruct r).
  all: eexists; rewrite Hid; split; [done|]; destruct Hn as (? & ? & ? & ?);
    unfold upsert_row, row_is in *; simpl in *; rewrite Hid in *;
    destruct (attempts d !! a_id a) as [old|] eqn:E; simpl; split_and!; auto.
Qed.

(** The journal holds [a], or has no row of it yet. *)
Definition recordable w a : Prop :=
  ∀ old, rows w !! a_id a = Some old → pa_workspace_kind old = aw_kind (workspace a).

(** Writing [a] keeps every process accounted for. *)
Definition stays_accounted w a : Prop :=
  a_id a ∈ w_live w → counts_against_capacity a = true ∧ early (state a) = false.

Lemma holds_recordable w a a' :
  holds w a → a_id a' = a_id a → workspace a' = workspace a → recordable w a'.
Proof.
  intros (row & Hr & _ & _ & _ & Hk) Hid Hws old. rewrite Hid, Hws, Hr. by intros [= <-].
Qed.

Lemma stays_accounted_still w w' a : still w w' → stays_accounted w a → stays_accounted w' a.
Proof. intros [_ Hl] H Hin. apply H. set_solver. Qed.

(** What a write of [a] leaves. *)
Definition recorded {A F} a w w' (r : result A F) : Prop :=
  accounted w' ∧ (∀ j, j ≠ a_id a → rows w' !! j = rows w !! j) ∧ w_live w' ⊆ w_live w ∧
  match r with Ok _ => holds w' a | Err _ => rows w' = rows w end.

Lemma recorded_still a w0 w w' w1 {A B F G} (r : result A F) (r' : result B G) :
  still w0 w → recorded a w w' r → still w' w1 → is_ok r' = is_ok r → recorded a w0 w1 r'.
Proof.
  intros [Hr0 Hl0] (Hw & Hj & Hl & Hr) Hs Hok. pose proof Hs as [Hr1 Hl1]. split_and!.
  - by eapply accounted_still.
  - intros j ?. rewrite Hr1, Hj by done. by rewrite Hr0.
  - set_solver.
  - destruct r, r'; try done; [by eapply holds_still|congruence].
Qed.

Lemma record_effect a r w w' :
  lifecycle_does NATIVE w (JRecord a) r w' → accounted w → recordable w a →
  stays_accounted w a → recorded a w w' r.
Proof.
  intros (_ & Hl & [E|[Hf E]]) Hw Hrec Hsafe.
  - pose proof (record_rows _ _ _ _ E Hrec) as Hr. destruct r as [[]|e].
    + destruct Hr as (row & Hr & Hrow & Hid & Hslot). unfold recorded, holds, rows in *. rewrite Hr.
      split_and!; [|intros j Hj; by rewrite lookup_insert_ne|done|].
      * split.
        { eapply journal_ok_rows, journal_ok_insert, Hslot; [|apply Hw].
          simpl. by rewrite Hr, Hid. }
        intros id Hin. unfold rows. rewrite Hr. destruct (decide (id = a_id a)) as [->|Hne].
        -- exists row. rewrite lookup_insert_eq, (row_is_active _ _ Hrow).
           destruct Hsafe as [? ?]; [set_solver|]. destruct Hrow as (-> & _).
           by split_and!.
        -- rewrite lookup_insert_ne by done. apply (live_counted _ Hw). set_solver.
      * exists row. by rewrite lookup_insert_eq.
    + assert (still w w') as Hs by done. split_and!; [by eapply accounted_still|..|done].
      * intros j _. unfold rows. by rewrite Hr.
      * done.
  - assert (still w w') as Hs by (split; [unfold rows; by rewrite E|done]).
    destruct r; [done|]. pose proof Hs as [Hr ?].
    split_and!; [by eapply accounted_still|intros j _; by rewrite Hr|done..].
Qed.

(** A cleaned attempt counts no more, so its write asks that nothing of it runs. *)
Lemma may_record w a : accounted w → stays_accounted w a → lifecycle_may NATIVE w (JRecord a).
Proof.
  intros Hw H. split; [done|]. intros Hc [Hin _]%H. unfold counts_against_capacity in Hin.
  rewrite Hc in Hin. by rewrite andb_false_r in Hin.
Qed.

Lemma record_sat a w :
  accounted w → recordable w a → stays_accounted w a →
  sat V (record a) w (recorded a w).
Proof.
  intros Hw Hrec Hst. apply sat_op_bind; [by apply may_record|].
  intros r w1 Hd. apply record_effect in Hd; [|done..]. destruct r as [[]|e].
  - apply sat_op_bind; [split; [apply Hd|done]|]. intros _ w2 Hq%quiet_still. apply sat_ret.
    by eapply recorded_still.
  - by apply sat_ret.
Qed.

(** A write of an attempt the journal holds takes no capacity the attempt did not have. *)
Lemma recorded_settles a0 a w w' {A F} (r : result A F) :
  holds w a0 → a_id a = a_id a0 →
  (counts_against_capacity a = true → counts_against_capacity a0 = true) →
  recorded a w w' r → settles (a_id a0) w w'.
Proof.
  intros (row & Hr & Hrow) Hid Hc (_ & Hj & Hl & Hok). rewrite Hid in Hj. split_and!; [done..|].
  intros row' Hr' Hact. destruct r.
  - destruct Hok as (row2 & Hr2 & Hrow2). rewrite Hid in Hr2. simplify_eq. exists row.
    split; [done|]. rewrite (row_is_active _ _ Hrow). apply Hc.
    by rewrite <- (row_is_active _ _ Hrow2).
  - rewrite Hok in Hr'. eauto.
Qed.

(** What one edge, journalled, leaves. *)
Definition journalled (a0 : RunnerAttempt) (op : attempt_op) w w' (r : result RunnerAttempt LifecycleError)
    : Prop :=
  accounted w' ∧ settles (a_id a0) w w' ∧
  match r with
  | Ok a' => holds w' a' ∧ ∃ now, apply_op op now a0 = (a', Ok tt)
  | Err _ => still w w'
  end.

(** An edge never leads back to the states before the registration. *)
Lemma edge_not_early op now a a' :
  apply_op op now a = (a', Ok tt) → early (state a) = false → early (state a') = false.
Proof.
  intros Hedge%apply_op_edge He.
  destruct (keeps_state op); destruct Hedge as [Hedge _]; [by rewrite Hedge|].
  by destruct (state a), (state a').
Qed.

Lemma live_not_early w a :
  accounted w → holds w a → a_id a ∈ w_live w → early (state a) = false.
Proof.
  intros Hw (row & Hr & Hs & _) Hin. destruct (live_counted _ Hw _ Hin) as (row' & Hr' & _ & He).
  simplify_eq. by rewrite <- Hs.
Qed.

Lemma transition_sat op a w :
  accounted w → holds w a →
  match op with OpAllocateExecution _ => false | _ => true end = true →
  (a_id a ∈ w_live w → ∀ now a', apply_op op now a = (a', Ok tt) →
     counts_against_capacity a' = true) →
  sat V (transition (apply_op op) a) w (journalled a op w).
Proof.
  intros Hw Ha Hop Hlive. unfold transition. apply sat_op_bind; [by split|].
  intros now w1 Hq%quiet_still. unfold take_edge.
  destruct (apply_op op now a) as [a' [[]|e]] eqn:E.
  2:{ apply sat_bind_ok, sat_ret. split_and!; [by eapply accounted_still| |done].
      by apply still_settles. }
  destruct (apply_op_identity _ _ _ _ _ E) as (Hid & _ & Hpath & Hws & _).
  apply sat_bind_ok, sat_ret, sat_bind_ok. eapply sat_mono.
  { apply record_sat; [by eapply accounted_still|by eapply holds_recordable; [eapply holds_still|..]|].
    eapply stays_accounted_still; [done|]. intros Hin. rewrite Hid in Hin.
    split; [by eapply Hlive|]. by eapply edge_not_early, live_not_early. }
  intros w2 r Hrec.
  assert (settles (a_id a) w w2) as Hs.
  { etransitivity; [by apply still_settles|]. eapply recorded_settles, Hrec; [|done|].
    - by eapply holds_still.
    - by eapply apply_op_counts. }
  destruct Hrec as (Hw2 & _ & Hl & Hr). destruct r as [[]|e].
  - apply sat_ret. split_and!; [done..|]. by exists now.
  - destruct Hq. split_and!; [done..|]. split; [congruence|set_solver].
Qed.

(** ** Removals *)

Lemma within_remove_runtime_tree (P : PathBuf → Prop) path :
  P path → within (removes NATIVE P) (remove_runtime_tree NATIVE path).
Proof.
  intros HP. unfold remove_runtime_tree. confined ltac:(first [by left | by right]).
Qed.

(** A slot is scrubbed of its entries, and never of the job workspace. *)
Definition slot_entry (runtime : PathBuf) (p : PathBuf) : Prop :=
  ∃ name, p = path_join NATIVE runtime name ∧ is_work_folder NATIVE name = false.

Lemma within_scrub_entry slot entry :
  within (removes NATIVE (slot_entry slot)) (scrub_entry NATIVE slot entry).
Proof.
  unfold scrub_entry, listed_entry_metadata. apply within_bind_ok; [done|]. intros name.
  apply within_bind_ok; [confined ltac:(by left)|]. intros [m|]; [|done].
  destruct (is_work_folder NATIVE name) eqn:Hwork.
  { by destruct (is_retainable_work_folder _ _ _). }
  assert (slot_entry slot (path_join NATIVE slot name)) as Hp by by exists name.
  unfold remove_slot_entry. confined ltac:(first [by left | by right]).
  by apply within_remove_runtime_tree.
Qed.

Lemma within_scrub_slot runtime slot configured :
  within (removes NATIVE (slot_entry runtime)) (scrub_slot NATIVE runtime slot configured).
Proof.
  unfold scrub_slot, verify_journalled_slot, slot_is_present, scrub_slot_entries,
    verify_slot_scrubbed, verify_entry, listed_entry_metadata, stat_sensitive.
  confined ltac:(by left). apply within_scrub_entry.
Qed.

Lemma holds_removable w a p :
  holds w a → is_terminal (state a) = true → a_id a ∉ w_live w →
  match workspace a with
  | AEphemeral => p = runtime_path a
  | APersistentSlot _ => slot_entry (runtime_path a) p
  end → removable NATIVE w p.
Proof.
  intros (row & Hr & Hs & _ & Hpath & Hk) Ht Hd Hp. exists (a_id a), row.
  rewrite Hs, Hpath, Hk. split_and!; [done..|]. by destruct (workspace a).
Qed.

Lemma scrub_workspace_sat a w :
  accounted w → holds w a → is_terminal (state a) = true → a_id a ∉ w_live w →
  sat V (scrub_workspace NATIVE a) w (λ w' _, accounted w' ∧ still w w').
Proof.
  intros Hw Ha Ht Hd. unfold scrub_workspace.
  assert (∀ w' p, still w w' → match workspace a with
    | AEphemeral => p = runtime_path a
    | APersistentSlot _ => slot_entry (runtime_path a) p
    end → removable NATIVE w' p) as Hrem.
  { intros w' p Hs. apply holds_removable; [by eapply holds_still|done|by eapply dead_still]. }
  destruct (workspace a) as [|slot].
  - apply (removes_sat NATIVE (λ p, p = runtime_path a)); [|done|by intros; eapply Hrem].
    apply within_bind; [by apply within_remove_runtime_tree|]. intros r. confined idtac.
  - apply (removes_sat NATIVE (slot_entry (runtime_path a))); [|done|by intros; eapply Hrem].
    unfold scrub_persistent_slot. apply within_bind_ok; [confined ltac:(by left)|].
    intros found. apply within_bind; [apply within_scrub_slot|done].
Qed.

(** ** Cleanup *)

(** What a program that works on one attempt leaves, whatever it answers. *)
Definition leaves {A} (id : AttemptId) w : world → A → Prop :=
  λ w' _, accounted w' ∧ settles id w w'.

Lemma leaves_still {A} id w w1 (m : prog A) :
  still w w1 → sat V m w1 (leaves id w1) → sat V m w1 (leaves id w).
Proof.
  intros Hs H. eapply sat_mono; [exact H|]. intros w' x [? ?]. split; [done|].
  etransitivity; [by apply still_settles|done].
Qed.

Lemma leaves_settles {A} id w w1 (m : prog A) :
  settles id w w1 → sat V m w1 (leaves id w1) → sat V m w1 (leaves id w).
Proof.
  intros Hs H. eapply sat_mono; [exact H|]. intros w' x [? ?]. split; [done|by etransitivity].
Qed.

Lemma finish_cleaning_sat op o a w :
  (op = OpClean ∨ op = OpCleanIsolated) →
  accounted w → holds w a → is_terminal (state a) = true → a_id a ∉ w_live w →
  sat V (finish_cleaning NATIVE self (apply_op op) o a) w (leaves (a_id a) w).
Proof.
  intros Hop Hw Ha Ht Hd. unfold finish_cleaning.
  assert (∀ (e : LifecycleError) w', accounted w' → still w w' → leaves (a_id a) w w' (@Err RunnerAttempt _ e))
    as Herr by (intros e w' ? ?; split; [done|by apply still_settles]).
  apply sat_calm_ok; [auto with calm|done| |done]. intros [] w1 Hw1 Hs1.
  apply sat_bind_ok. eapply sat_mono.
  { apply scrub_workspace_sat; [done|by eapply holds_still|done|by eapply dead_still]. }
  intros w2 r [Hw2 Hs2]. assert (still w w2) as Hs by by etransitivity.
  destruct r as [[]|e]; [|by apply Herr].
  apply sat_bind_ok, sat_bind, sat_op.
  { split; [done|]. destruct (holds_still _ _ _ Hs Ha) as (row & Hr & Hst & _).
    exists row. rewrite Hst. split_and!; [done..|by eapply dead_still]. }
  intros r w3 Hq%quiet_still. assert (still w w3) as Hs3 by by etransitivity.
  apply sat_ret. destruct r as [[]|e]; cbn [map_err]; [|apply Herr; [by eapply accounted_still|done]].
  apply sat_bind_ok. eapply sat_mono.
  { apply transition_sat; [by eapply accounted_still|by eapply holds_still| |].
    - by destruct Hop as [-> | ->].
    - intros Hin. by destruct (dead_still _ _ _ Hs3 Hd). }
  intros w4 r (Hw4 & Hst4 & Hr). destruct r as [a'|e].
  - apply sat_calm; [calm|done|]. intros _ w5 Hw5 Hs5.
    apply sat_calm; [calm|done|]. intros _ w6 Hw6 Hs6. apply sat_ret. split; [done|].
    etransitivity; [by apply still_settles|]. etransitivity; [exact Hst4|].
    apply still_settles. by etransitivity.
  - split; [done|]. etransitivity; [by apply still_settles|done].
Qed.

(** *** Containers *)

Definition raises {A} (id : AttemptId) w : world → result A LifecycleError → Prop :=
  λ w' r, failed r ∧ leaves id w w' r.

Lemma raises_still {A} id w w1 (m : lprog A) :
  still w w1 → sat V m w1 (raises id w1) → sat V m w1 (raises id w).
Proof.
  intros Hs H. eapply sat_mono; [exact H|]. intros w' x (? & ? & ?). split; [done|].
  split; [done|]. etransitivity; [by apply still_settles|done].
Qed.

Lemma counted_if_live w a :
  accounted w → holds w a → a_id a ∈ w_live w → counts_against_capacity a = true.
Proof.
  intros Hw (row & Hr & Hrow) Hin. destruct (live_counted _ Hw _ Hin) as (row' & Hr' & Hact & _).
  simplify_eq. by rewrite <- (row_is_active _ _ Hrow).
Qed.

(** An edge that ends neither the attempt nor its cleanup. *)
Lemma plain_transition_sat op a w :
  accounted w → holds w a → ends op = false →
  match op with OpAllocateExecution _ => false | _ => true end = true →
  sat V (transition (apply_op op) a) w (journalled a op w).
Proof.
  intros Hw Ha He Hop. apply transition_sat; [done..|]. intros Hin now a' E.
  eapply apply_op_keeps_counting; [exact E|done|by eapply counted_if_live].
Qed.

Lemma defer_sat {A} a w :
  accounted w → holds w a → sat V (@defer_environment_cleanup A a) w (raises (a_id a) w).
Proof.
  intros Hw Ha. apply sat_bind_ok. eapply sat_mono.
  { by apply (plain_transition_sat OpDeferCleanup). }
  intros w' [a'|e] (? & ? & _); [apply sat_ret|]; done.
Qed.

Lemma quarantine_sat {A} a w :
  accounted w → holds w a → sat V (@quarantine_resource A a) w (raises (a_id a) w).
Proof.
  intros Hw Ha. apply sat_calm; [calm|done|]. intros _ w1 Hw1 Hs1.
  apply raises_still; [done|]. apply defer_sat; [done|by eapply holds_still].
Qed.

(** After [destroy_environment] nothing of the attempt runs. *)
Definition gone (a : RunnerAttempt) w w' (r : result unit LifecycleError) : Prop :=
  match r with
  | Ok _ => accounted w' ∧ still w w' ∧ a_id a ∉ w_live w'
  | Err _ => leaves (a_id a) w w' r
  end.

Lemma raises_gone (m : lprog unit) a w w1 :
  still w w1 → sat V m w1 (raises (a_id a) w1) → sat V m w1 (gone a w).
Proof.
  intros Hs Hm. eapply sat_mono; [by apply raises_still|]. intros w' [u|e] [Hf Hl]; [done|exact Hl].
Qed.

Lemma destroy_environment_sat current a w :
  accounted w → holds w a →
  (not_running a current = true → a_id a ∉ w_live w) →
  sat V (destroy_environment current a) w (gone a w).
Proof.
  intros Hw Ha Hcur. unfold destroy_environment.
  case_bool_decide as Hm.
  { subst. apply sat_ret. split_and!; [done..|]. apply Hcur. unfold not_running.
    by rewrite orb_true_r. }
  apply sat_op_bind; [by split|]. intros owned w1 Hq1%quiet_still.
  assert (∀ w', accounted w' → still w w' → sat V (@defer_environment_cleanup unit a) w' (gone a w))
    as Hdefer.
  { intros w' Hw' Hs'. apply raises_gone; [done|]. apply defer_sat; [done|by eapply holds_still]. }
  assert (accounted w1) as Hw1 by by eapply accounted_still.
  destruct owned as [[]|e];
    try (apply raises_gone; [done|]; apply quarantine_sat; [done|by eapply holds_still]).
  apply sat_calm; [calm|done|]. intros stopped w2 Hw2 Hs2.
  assert (still w w2) by by etransitivity.
  destruct stopped; cbn [negb]; [|by apply Hdefer].
  apply sat_op_bind; [by split|]. intros destroyed w3 Hq3%quiet_still.
  assert (accounted w3) as Hw3 by by eapply accounted_still.
  assert (still w w3) by by etransitivity.
  destruct destroyed as [[]|]; try (by apply Hdefer).
  apply sat_op_bind; [by split|]. intros seen w4 [Hq4%quiet_still Hseen].
  assert (accounted w4) as Hw4 by by eapply accounted_still.
  assert (still w w4) by by etransitivity.
  destruct seen as [[]|]; try (by apply Hdefer).
  apply sat_ret. split_and!; [done..|]. apply Hseen. unfold not_running. by rewrite orb_true_r.
Qed.

Lemma raises_leaves {A} id w w1 (m : lprog A) :
  still w w1 → sat V m w1 (raises id w1) → sat V m w1 (leaves id w).
Proof. intros Hs Hm. eapply sat_mono; [by apply raises_still|]. by intros w' r [_ ?]. Qed.

(** The rest of the cleanup of a container in [Destroying]. *)
Lemma destroying_sat a w :
  accounted w → holds w a → is_terminal (state a) = true →
  sat V (current ← (if has_identity a then call (PrInspect a) else call (PrRecover a));
         match current with
         | Err _ => defer_environment_cleanup a
         | Ok current =>
             if negb (has_identity a) && negb (bool_decide (current = EnvMissing))
             then defer_environment_cleanup a
             else
               _ ←? destroy_environment current a;
               left ← call (PrEnumerateOwned (lc_host_id self));
               if existsb (identity_same_allocation (lc_host_id self) a) left
               then defer_environment_cleanup a
               else match outcome a with
               | None => lfail LTransition
               | Some o => finish_cleaning NATIVE self clean_isolated o a
               end
         end) w (leaves (a_id a) w).
Proof.
  intros Hw Ha Ht.
  assert (∀ w', accounted w' → still w w' →
    sat V (@defer_environment_cleanup RunnerAttempt a) w' (leaves (a_id a) w)) as Hdefer.
  { intros w' Hw' Hs'. apply raises_leaves; [done|]. apply defer_sat; [done|by eapply holds_still]. }
  apply sat_bind. eapply (sat_mono V _ _ (λ w1 (current : result EnvironmentState FailureReason),
    accounted w1 ∧ still w w1 ∧
    match current with
    | Ok s => not_running a s = true → a_id a ∉ w_live w1
    | Err _ => True
    end)).
  { destruct (has_identity a); (apply sat_op; [by split|]); intros x w1 [Hq%quiet_still Hx];
      (split_and!; [by eapply accounted_still|done|exact Hx]). }
  intros w1 [current|e] (Hw1 & Hs1 & Hcur); [|by apply Hdefer].
  destruct (_ && _); [by apply Hdefer|].
  apply sat_bind_ok. eapply sat_mono.
  { apply destroy_environment_sat; [done|by eapply holds_still|done]. }
  intros w2 [u|e] Hg.
  2:{ destruct Hg as [? ?]. split; [done|]. etransitivity; [by apply still_settles|done]. }
  destruct Hg as (Hw2 & Hs2 & Hd2). assert (still w w2) as Hs by by etransitivity.
  apply sat_op_bind; [by split|]. intros left w3 Hq3%quiet_still.
  assert (still w w3) as Hs3 by by etransitivity.
  assert (accounted w3) as Hw3 by by eapply accounted_still.
  destruct (existsb _ _); [by apply Hdefer|].
  destruct (outcome a); [|split; [done|by apply still_settles]].
  apply leaves_still; [done|]. apply (finish_cleaning_sat OpCleanIsolated);
    [by right|done|by eapply holds_still|done|by eapply (dead_still w2)].
Qed.

(** [begin_destroy] leaves a concluded attempt in [Destroying]. *)
Lemma begin_destroy_ok now a a' :
  begin_destroy now a = (a', Ok tt) → state a' = Destroying ∧ a_id a' = a_id a.
Proof. unfold begin_destroy. intros H. accepted. done. Qed.

Lemma clean_isolated_attempt_sat a w :
  accounted w → holds w a → sat V (clean_isolated_attempt NATIVE self a) w (leaves (a_id a) w).
Proof.
  intros Hw Ha. unfold clean_isolated_attempt. apply sat_bind_ok.
  eapply (sat_mono V _ _ (λ w1 (r : result RunnerAttempt LifecycleError),
    accounted w1 ∧ settles (a_id a) w w1 ∧
    match r with
    | Ok a1 => holds w1 a1 ∧ a_id a1 = a_id a ∧ is_terminal (state a1) = true
    | Err _ => True
    end)).
  { case_bool_decide as E.
    - apply sat_ret. split_and!; [done..|]. by rewrite E.
    - eapply sat_mono; [by apply (plain_transition_sat OpBeginDestroy)|].
      intros w1 [a1|e] (? & ? & Hr); (split; [done|]); (split; [done|]); [|done].
      destruct Hr as (? & now & (Hs & Hi)%begin_destroy_ok). rewrite Hs. by split_and!. }
  intros w1 [a1|e] (Hw1 & Hs1 & Hr); [|done]. destruct Hr as (Ha1 & Hid & Ht).
  rewrite <- Hid in *. apply sat_op_bind; [by split|]. intros resources w2 Hq2%quiet_still.
  assert (accounted w2) as Hw2 by by eapply accounted_still.
  assert (holds w2 a1) as Ha2 by by eapply holds_still.
  assert (settles (a_id a1) w w2) as Hs2 by (etransitivity; [done|by apply still_settles]).
  destruct (_ || _).
  { eapply leaves_settles; [done|]. apply raises_leaves; [done|]. by apply quarantine_sat. }
  destruct (_ && _).
  { eapply leaves_settles; [done|]. apply raises_leaves; [done|]. by apply defer_sat. }
  eapply leaves_settles; [done|]. by apply destroying_sat.
Qed.

Lemma clean_attempt_sat a w :
  accounted w → holds w a → (is_Some (outcome a) → is_terminal (state a) = true) →
  sat V (clean_attempt NATIVE self a) w (leaves (a_id a) w).
Proof.
  intros Hw Ha Ho. unfold clean_attempt.
  destruct (is_native (execution a)) eqn:Hn; cbn [negb]; [|by apply clean_isolated_attempt_sat].
  apply sat_calm_ok; [calm|done| |intros; split; [done|by apply still_settles]].
  intros destroyed w1 Hw1 Hs1. destruct destroyed as [|reason];
    [|split; [done|by apply still_settles]].
  destruct (outcome a) as [o|]; [|split; [done|by apply still_settles]].
  assert (is_terminal (state a) = true) as Ht by eauto.
  assert (holds w1 a) as Ha1 by by eapply holds_still.
  apply leaves_still; [done|]. apply (finish_cleaning_sat OpClean); [by left|done..|].
  by apply concluded_native_dead.
Qed.

Lemma clean_or_quarantine_sat a w :
  accounted w → holds w a → (is_Some (outcome a) → is_terminal (state a) = true) →
  sat V (clean_or_quarantine NATIVE self a) w (leaves (a_id a) w).
Proof.
  intros Hw Ha Ho. unfold clean_or_quarantine. apply sat_calm; [calm|done|].
  intros now w1 Hw1 Hs1. apply sat_calm; [calm|done|]. intros due w2 Hw2 Hs2.
  assert (still w w2) as Hs by by etransitivity.
  destruct due; cbn [negb]; [|split; [done|by apply still_settles]].
  apply leaves_still; [done|]. apply sat_bind. eapply sat_mono.
  { apply clean_attempt_sat; [done|by eapply holds_still|done]. }
  intros w3 r [Hw3 Hs3]. eapply leaves_settles; [done|].
  eapply sat_mono; [apply calm_sat; [|done]|].
  - destruct r; [calm|]. destruct (tolerated _); calm.
  - intros w4 r4 [? ?]. split; [done|by apply still_settles].
Qed.

(** ** Conclusions *)

(** A conclusion is journalled when nothing of the attempt runs, or when it is a container,
    which counts until it is proven gone. *)
Lemma conclude_attempt_sat o a w :
  accounted w → holds w a → (a_id a ∈ w_live w → is_native (execution a) = false) →
  sat V (conclude_attempt o a) w (λ w' r, leaves (a_id a) w w' r ∧
    match r with
    | Ok a' => holds w' a' ∧ a_id a' = a_id a ∧ is_terminal (state a') = true
    | Err _ => True
    end).
Proof.
  intros Hw Ha Hd. unfold conclude_attempt. apply sat_bind_ok. eapply sat_mono.
  { apply (transition_sat (OpConclude o)); [done..|]. intros Hin now a' E.
    unfold counts_against_capacity. rewrite (apply_op_kind _ _ _ _ E eq_refl), (Hd Hin).
    cbn [apply_op] in E. unfold conclude in E. accepted. by destruct o. }
  intros w1 [a'|e] (Hw1 & Hs1 & Hr); [|done].
  destruct Hr as (Ha1 & now & E). pose proof (apply_op_identity _ _ _ _ _ E) as (Hid & _).
  apply sat_calm; [calm|done|]. intros _ w2 Hw2 Hs2. apply sat_ret. split_and!.
  - split; [done|]. etransitivity; [done|by apply still_settles].
  - by eapply holds_still.
  - done.
  - cbn [apply_op] in E. unfold conclude in E. accepted. apply terminal_state_terminal.
Qed.

Lemma conclude_and_clean_sat o a w :
  accounted w → holds w a → (a_id a ∈ w_live w → is_native (execution a) = false) →
  sat V (conclude_and_clean NATIVE self o a) w (leaves (a_id a) w).
Proof.
  intros Hw Ha Hd. apply sat_bind_ok. eapply sat_mono; [by apply conclude_attempt_sat|].
  intros w1 [a'|e] [[Hw1 Hs1] Hr]; [|done]. destruct Hr as (Ha1 & Hid & Ht).
  rewrite <- Hid. eapply leaves_settles; [by rewrite Hid|]. by apply clean_or_quarantine_sat.
Qed.
End Safety.

#[export] Hint Resolve calm_read_runner_id calm_write_durable_file calm_write_runner_id
  calm_known_runner_id calm_deregister_runner calm_JobEvidence_of calm_preserve_diagnostics
  calm_modify_memory calm_modify_retries calm_set_pending calm_set_recovery_complete
  calm_retry_is_due calm_retry_wait : calm.
