(* ===== verification/SuperviseSafety.v ===== *)
(** * Supervision and recovery keep the journal's promises

    Every program of [Supervise] meets the demands of [LifecycleEnv]: whatever a poll or a
    startup decides about an attempt, its process stays accounted for until it is seen
    gone. The loops are proved over the attempts still to be visited, whose rows no
    earlier turn touches. *)

From stdpp Require Import strings sorting.
From S2P Require Import Prelude RustStr Ordered Model Path Workspace Execution Host Attempt.
From S2P Require Import Labels Policy Capacity Recovery Store Github Backoff Report.
From S2P Require Import Effects Ports Slots Lifecycle Supervise Launch LifecycleEnv.
From S2P Require Import LifecycleSafety.
#[local] Open Scope Z_scope.
#[local] Open Scope rust_scope.

Section Supervision.
Context (NATIVE : PathPlatform) (self : LifecycleLauncher).
#[local] Abbreviation V := (lifecycle_env NATIVE).
Implicit Types (w : world) (a : RunnerAttempt).

(** ** Rules for programs about one attempt *)

(** What is known of an attempt while it is being handled. *)
Definition handled w a : Prop := accounted w ∧ holds w a.

Lemma handled_still w w' a : still w w' → handled w a → handled w' a.
Proof. intros Hs [? ?]. split; [by eapply accounted_still|by eapply holds_still]. Qed.

Lemma leaves_ret {A} id w (x : A) : accounted w → sat V (Ret x) w (leaves id w).
Proof. intros Hw. apply sat_ret. split; [done|]. by apply still_settles. Qed.

Lemma leaves_calm {A B} a w (m : prog A) (k : A → prog B) :
  within (calm_effect NATIVE) m → handled w a →
  (∀ x w', handled w' a → still w w' → sat V (k x) w' (leaves (a_id a) w')) →
  sat V (m ≫= k) w (leaves (a_id a) w).
Proof.
  intros Hm Ha Hk. apply sat_calm; [done|apply Ha|]. intros x w' _ Hs.
  apply leaves_still; [done|]. apply Hk; [by eapply handled_still|done].
Qed.

Lemma leaves_calm_ok {A B} a w (m : lprog A) (k : A → lprog B) :
  within (calm_effect NATIVE) m → handled w a →
  (∀ x w', handled w' a → still w w' → sat V (k x) w' (leaves (a_id a) w')) →
  sat V (bind_ok m k) w (leaves (a_id a) w).
Proof.
  intros Hm Ha Hk. apply leaves_calm; [done..|]. intros [x|e] w' Ha' Hs; [by apply Hk|].
  apply leaves_ret, Ha'.
Qed.

Lemma leaves_then {A B} id w (m : lprog A) (k : A → lprog B) :
  sat V m w (leaves id w) → (∀ x w', accounted w' → sat V (k x) w' (leaves id w')) →
  sat V (bind_ok m k) w (leaves id w).
Proof.
  intros Hm Hk. apply sat_bind_ok. eapply sat_mono; [exact Hm|].
  intros w1 [x|e] [Hw1 Hs1]; [|done]. eapply leaves_settles; [done|]. by apply Hk.
Qed.

(** Edges that end neither the attempt nor its cleanup, or none at all. *)
Definition moves a w w' (r : result RunnerAttempt LifecycleError) : Prop :=
  leaves (a_id a) w w' r ∧
  match r with
  | Ok a' => holds w' a' ∧ a_id a' = a_id a ∧ is_native (execution a') = is_native (execution a)
  | Err _ => True
  end.

Lemma moves_ret a w : handled w a → sat V (lret a) w (moves a w).
Proof. intros [Hw Ha]. apply sat_ret. split; [|done]. split; [done|by apply still_settles]. Qed.

Lemma moves_transition op a w :
  handled w a → ends op = false →
  match op with OpAllocateExecution _ => false | _ => true end = true →
  sat V (transition (apply_op op) a) w (moves a w).
Proof.
  intros [Hw Ha] He Hop. eapply sat_mono; [by apply plain_transition_sat|].
  intros w1 [a'|e] (Hw1 & Hs1 & Hr); (split; [done|]); [|done]. destruct Hr as (Ha1 & now & E).
  split; [done|]. split; [by apply (apply_op_identity _ _ _ _ _ E)|by eapply apply_op_kind].
Qed.

Lemma leaves_moves {B} a w (m : lprog RunnerAttempt) (k : RunnerAttempt → lprog B) :
  sat V m w (moves a w) →
  (∀ a' w', handled w' a' → a_id a' = a_id a →
     is_native (execution a') = is_native (execution a) → w_live w' ⊆ w_live w →
     sat V (k a') w' (leaves (a_id a') w')) →
  sat V (bind_ok m k) w (leaves (a_id a) w).
Proof.
  intros Hm Hk. apply sat_bind_ok. eapply sat_mono; [exact Hm|].
  intros w1 [a'|e] [[Hw1 Hs1] Hr]; [|done]. destruct Hr as (Ha1 & Hid & Hn).
  eapply leaves_settles; [done|]. rewrite <- Hid. apply Hk; [done..|].
  by destruct Hs1 as (_ & ? & _).
Qed.

(** The edge of an observation, with nothing after it. *)
Lemma leaves_observed {B} op a w (x : B) :
  handled w a → ends op = false →
  match op with OpAllocateExecution _ => false | _ => true end = true →
  sat V (bind_ok (transition (apply_op op) a) (λ _, lret x)) w (leaves (a_id a) w).
Proof.
  intros. apply leaves_moves; [by apply moves_transition|].
  intros a' w' [? ?] ???. by apply leaves_ret.
Qed.

Lemma leaves_conclude {B} o a w (x : B) :
  handled w a → (a_id a ∈ w_live w → is_native (execution a) = false) →
  sat V (bind_ok (conclude_and_clean NATIVE self o a) (λ _, lret x)) w (leaves (a_id a) w).
Proof.
  intros [Hw Ha] Hd. apply leaves_then; [by apply conclude_and_clean_sat|].
  intros _ w' Hw'. by apply leaves_ret.
Qed.

Lemma leaves_clean {B} a w (x : B) :
  handled w a → is_terminal (state a) = true →
  sat V (bind_ok (clean_or_quarantine NATIVE self a) (λ _, lret x)) w (leaves (a_id a) w).
Proof.
  intros [Hw Ha] Ht. apply leaves_then; [by apply clean_or_quarantine_sat|].
  intros _ w' Hw'. by apply leaves_ret.
Qed.

(** ** Native attempts *)

Lemma calm_recover_runner_id observed a report :
  within (calm_effect NATIVE) (recover_runner_id NATIVE observed a report).
Proof. unfold recover_runner_id. calm. Qed.
Lemma calm_completed_outcome a g : within (calm_effect NATIVE) (completed_outcome NATIVE a g).
Proof. unfold completed_outcome. calm. Qed.
#[local] Hint Resolve calm_recover_runner_id calm_completed_outcome : calm.
Lemma calm_ended_well alive g a : within (calm_effect NATIVE) (ended_well NATIVE alive g a).
Proof. unfold ended_well. calm. Qed.
Lemma calm_assignment_declined alive g a :
  within (calm_effect NATIVE) (assignment_declined NATIVE alive g a).
Proof. unfold assignment_declined. calm. Qed.
Lemma calm_recover_owned a : within (calm_effect NATIVE) (recover_owned a).
Proof. unfold recover_owned. calm. Qed.
Lemma calm_surface_unowned attempts i :
  within (calm_effect NATIVE) (surface_unowned self attempts i).
Proof. unfold surface_unowned. calm. Qed.
#[local] Hint Resolve calm_ended_well calm_assignment_declined calm_recover_owned
  calm_surface_unowned : calm.

Lemma reconcile_cleaned_sat a w :
  handled w a → is_native (execution a) = true → state a = Cleaned →
  sat V (reconcile_cleaned NATIVE a) w (leaves (a_id a) w).
Proof.
  intros Ha Hn Hc. unfold reconcile_cleaned. destruct (workspace a); [|apply leaves_ret, Ha].
  apply leaves_calm; [calm|done|]. intros present w1 Ha1 _.
  destruct (negb _); [apply leaves_ret, Ha1|].
  apply leaves_calm; [calm|done|]. intros now w2 Ha2 _.
  apply leaves_calm; [calm|done|]. intros due w3 Ha3 _.
  destruct (negb _); [apply leaves_ret, Ha3|].
  assert (is_terminal (state a) = true) as Ht by by rewrite Hc.
  apply sat_bind. eapply sat_mono.
  { destruct Ha3. apply scrub_workspace_sat; [done..|by apply concluded_native_dead]. }
  intros w4 r [Hw4 Hs4]. apply leaves_still; [done|]. pose proof (handled_still _ _ _ Hs4 Ha3).
  eapply sat_mono; [apply calm_sat; [|done]|].
  - destruct r as [|[]]; calm.
  - intros w5 r5 [? ?]. split; [done|by apply still_settles].
Qed.

(** [alive] is what the provider said of the attempt's process. *)
Definition seen_alive w a (alive : bool) : Prop := alive = false → a_id a ∉ w_live w.

Lemma seen_alive_still w w' a alive : still w w' → seen_alive w a alive → seen_alive w' a alive.
Proof. intros Hs H E. by eapply dead_still, H. Qed.

Lemma dead_concludes {w a} : a_id a ∉ w_live w → a_id a ∈ w_live w → is_native (execution a) = false.
Proof. done. Qed.

Lemma conclude_completed_sat p g walk o a w :
  handled w a → a_id a ∉ w_live w →
  sat V (conclude_completed NATIVE self p g walk o a) w (leaves (a_id a) w).
Proof.
  intros Ha Hd. apply leaves_calm; [calm|done|]. intros _ w1 Ha1 Hs1.
  pose proof (dead_still _ _ _ Hs1 Hd) as Hd1.
  assert (∀ op, ends op = false →
    match op with OpAllocateExecution _ => false | _ => true end = true →
    sat V (bind_ok (transition (apply_op op) a) (λ a,
      bind_ok (conclude_and_clean NATIVE self o a) (λ _, lret Reconciled))) w1
      (leaves (a_id a) w1)) as Hwalk.
  { intros op He Hop. apply leaves_moves; [by apply moves_transition|].
    intros a' w' Ha' Hid _ Hl. apply leaves_conclude; [done|].
    apply dead_concludes. rewrite Hid. set_solver. }
  destruct walk as [id|]; [by apply (Hwalk (OpAssignedJob id))|].
  destruct o; try (by apply (Hwalk OpAssignmentNotTaken));
    (apply sat_bind_ok, sat_op_bind; [split; [apply Ha1|done]|]; intros _ w2 Hq%quiet_still;
     apply sat_ret, leaves_still; [done|]; apply leaves_conclude;
     [by eapply handled_still|by eapply dead_concludes, (dead_still w1)]).
Qed.

Lemma observe_state_sat s observed a w :
  handled w a → sat V (observe_state NATIVE s observed a) w (leaves (a_id a) w).
Proof.
  intros Ha. apply leaves_calm; [calm|done|]. intros [id|] w1 Ha1 _; [|apply leaves_ret, Ha1].
  destruct s; try (apply leaves_ret, Ha1).
  - by apply (leaves_observed OpJitReceived).
  - destruct (process_id a) as [pid|]; [|apply leaves_ret, Ha1].
    by apply (leaves_observed (OpStarted pid)).
  - by apply (leaves_observed (OpRegisteredIdle id)).
  - by apply (leaves_observed (OpAssignedJob id)).
Qed.

Lemma observe_isolated_sat s observed a w :
  handled w a → sat V (observe_isolated NATIVE s observed a) w (leaves (a_id a) w).
Proof.
  intros Ha. apply leaves_calm; [calm|done|]. intros [id|] w1 Ha1 _; [|apply leaves_ret, Ha1].
  destruct s; try (apply leaves_ret, Ha1).
  - by apply (leaves_observed (OpRegisteredIdle id)).
  - by apply (leaves_observed (OpAssignedJob id)).
Qed.

Lemma terminate_attempt_sat p payload a w :
  handled w a → is_native (execution a) = true →
  sat V (terminate_attempt NATIVE self p payload a) w (leaves (a_id a) w).
Proof.
  intros Ha Hn. apply leaves_calm_ok; [calm|done|]. intros _ w1 Ha1 _.
  apply leaves_calm; [calm|done|]. intros _ w2 Ha2 _.
  apply leaves_calm_ok; [calm|done|]. intros stopped w3 Ha3 _.
  case_bool_decide; [apply leaves_ret, Ha3|].
  apply sat_bind_ok, sat_bind, sat_op; [split; [apply Ha3|done]|].
  intros seen w4 [Hq%quiet_still Hseen]. apply sat_ret.
  pose proof (handled_still _ _ _ Hq Ha3) as Ha4.
  destruct seen as [seen|e]; cbn [map_err]; [|split; [apply Ha4|by apply still_settles]].
  apply leaves_still; [done|].
  case_bool_decide as Hrun; [apply leaves_ret, Ha4|].
  assert (a_id a ∉ w_live w4) as Hd.
  { apply Hseen. unfold not_running. rewrite Hn. by rewrite bool_decide_eq_false_2. }
  apply leaves_calm; [calm|done|]. intros _ w5 Ha5 Hs5.
  apply leaves_calm; [calm|done|]. intros _ w6 Ha6 Hs6.
  apply leaves_conclude; [done|]. eapply dead_concludes, dead_still, dead_still; done.
Qed.

Lemma decide_recovery_sat alive g a w :
  accounted w →
  sat V (decide_recovery self alive g a) w (λ w' d, accounted w' ∧ still w w' ∧
    match d with
    | Conclude _ => alive = false
    | Clean => is_terminal (state a) = true
    | _ => True
    end).
Proof.
  intros Hw. apply sat_op_bind; [by split|]. intros now w1 Hq%quiet_still.
  destruct (recovery_decision_some a (mk_observation alive (go_status g)) (lc_timeouts self) now)
    as [d Hd].
  rewrite Hd. apply sat_ret. split_and!; [by eapply accounted_still|done|].
  destruct d; try done; [by eapply clean_only_terminal|by apply conclude_only_dead in Hd].
Qed.

Lemma apply_decision_sat p g d alive a w :
  handled w a → is_native (execution a) = true → seen_alive w a alive →
  match d with
  | Conclude _ => alive = false
  | Clean => is_terminal (state a) = true
  | _ => True
  end →
  sat V (apply_decision NATIVE self p g d a) w (leaves (a_id a) w).
Proof.
  intros Ha Hn Hal Hd. destruct d; cbn [apply_decision]; try (apply leaves_ret, Ha).
  - by apply leaves_clean.
  - apply leaves_calm; [calm|done|]. intros _ w1 Ha1 _. apply leaves_ret, Ha1.
  - by apply observe_state_sat.
  - apply leaves_calm; [calm|done|]. intros _ w1 Ha1 Hs1.
    apply leaves_conclude; [done|]. by eapply dead_concludes, dead_still, Hal.
  - by apply terminate_attempt_sat.
Qed.

Lemma settle_sat p alive g a w :
  handled w a → is_native (execution a) = true → seen_alive w a alive →
  sat V (settle NATIVE self p alive g a) w (leaves (a_id a) w).
Proof.
  intros Ha Hn Hal. apply leaves_calm; [calm|done|]. intros declined w1 Ha1 Hs1.
  destruct declined; [by apply (leaves_observed OpAssignmentNotTaken)|].
  apply leaves_calm; [calm|done|]. intros intent w2 Ha2 Hs2.
  assert (seen_alive w2 a alive) as Hal2 by (do 2 (eapply seen_alive_still; [done|]); done).
  destruct (intent && negb alive) eqn:Hi.
  { destruct alive; [by rewrite andb_false_r in Hi|].
    apply leaves_calm; [calm|done|]. intros _ w3 Ha3 Hs3.
    apply leaves_conclude; [done|]. by eapply dead_concludes, dead_still, Hal2. }
  destruct (bool_decide _ && _ && _) eqn:Hj.
  { destruct alive; [by rewrite andb_false_r in Hj|]. apply leaves_moves.
    { clear Hj. case_bool_decide; [by apply (moves_transition OpJitReceived)|by apply moves_ret]. }
    intros a' w3 Ha3 Hid _ Hl.
    apply leaves_calm; [calm|done|]. intros _ w4 Ha4 Hs4.
    apply leaves_conclude; [done|]. eapply dead_concludes, dead_still; [done|].
    rewrite Hid. specialize (Hal2 eq_refl). set_solver. }
  apply sat_bind. eapply sat_mono; [apply decide_recovery_sat, Ha2|].
  intros w3 d (Hw3 & Hs3 & Hd). apply leaves_still; [done|].
  apply (apply_decision_sat p g d alive); [by eapply handled_still|done| |done].
  by eapply seen_alive_still.
Qed.

(** ** Containers *)

Lemma apply_isolated_decision_sat p g d a w :
  handled w a → is_native (execution a) = false → (d = Clean → is_terminal (state a) = true) →
  sat V (apply_isolated_decision NATIVE self p g d a) w (leaves (a_id a) w).
Proof.
  intros Ha Hn Hd. destruct d; cbn [apply_isolated_decision]; try (apply leaves_ret, Ha).
  - apply leaves_clean; auto.
  - apply leaves_calm; [calm|done|]. intros _ w1 Ha1 _. apply leaves_ret, Ha1.
  - by apply observe_isolated_sat.
  - apply leaves_calm; [calm|done|]. intros _ w1 Ha1 Hs1. by apply leaves_conclude.
  - apply leaves_calm; [calm|done|]. intros _ w1 Ha1 Hs1. by apply leaves_conclude.
Qed.

Lemma settle_isolated_sat p live a w :
  handled w a → is_native (execution a) = false →
  sat V (settle_isolated NATIVE self p live a) w (leaves (a_id a) w).
Proof.
  intros Ha Hn. apply leaves_moves.
  { destruct (_ && _); [by apply (moves_transition OpStartedIsolated)|by apply moves_ret]. }
  intros a' w1 Ha1 _ Hn1 _. rewrite Hn in Hn1.
  apply leaves_calm; [calm|done|]. intros g w2 Ha2 _.
  apply leaves_calm_ok; [calm|done|]. intros _ w3 Ha3 _.
  apply leaves_calm; [calm|done|]. intros completed w4 Ha4 _.
  destruct completed; [by apply leaves_conclude|].
  apply sat_bind. eapply sat_mono; [apply decide_recovery_sat, Ha4|].
  intros w5 d (Hw5 & Hs5 & Hd). apply leaves_still; [done|].
  apply apply_isolated_decision_sat; [by eapply handled_still|done|]. by intros ->.
Qed.

Lemma reconcile_isolated_one_sat p a w :
  handled w a → is_native (execution a) = false →
  sat V (reconcile_isolated_one NATIVE self p a) w (leaves (a_id a) w).
Proof.
  intros Ha Hn. unfold reconcile_isolated_one. case_bool_decide; [apply leaves_ret, Ha|].
  destruct (is_terminal (state a)) eqn:Ht; [by apply leaves_clean|].
  case_bool_decide; [by apply leaves_conclude|].
  apply leaves_calm; [calm|done|]. intros [s|] w1 Ha1 _; [|apply leaves_ret, Ha1].
  by apply settle_isolated_sat.
Qed.

(** ** One attempt *)

Lemma adopt_spawned_sat alive a w :
  handled w a → sat V (adopt_spawned alive a) w (moves a w).
Proof.
  intros Ha. unfold adopt_spawned. destruct (_ && _); [|by apply moves_ret].
  apply sat_bind_ok, sat_bind, sat_op; [split; [apply Ha|done]|].
  intros r w1 Hq%quiet_still. apply sat_ret.
  assert (∀ m : lprog RunnerAttempt, sat V m w1 (moves a w1) → sat V m w1 (moves a w)) as Hm.
  { intros m H. eapply sat_mono; [exact H|]. intros w' r' [[? ?] ?]. split; [|done].
    split; [done|]. etransitivity; [by apply still_settles|done]. }
  pose proof (handled_still _ _ _ Hq Ha) as Ha1.
  destruct r as [[pid|]|e]; cbn [map_err].
  - apply Hm. by apply (moves_transition (OpStarted pid)).
  - apply Hm. by apply moves_ret.
  - split; [|done]. split; [apply Ha1|by apply still_settles].
Qed.

Lemma reconcile_one_sat p a w :
  handled w a → sat V (reconcile_one NATIVE self p a) w (leaves (a_id a) w).
Proof.
  intros Ha. unfold reconcile_one.
  destruct (is_native (execution a)) eqn:Hn; cbn [negb]; [|by apply reconcile_isolated_one_sat].
  case_bool_decide; [by apply reconcile_cleaned_sat|].
  destruct (is_terminal (state a)) eqn:Ht; [by apply leaves_clean|].
  apply sat_bind_ok, sat_bind, sat_op; [split; [apply Ha|done]|].
  intros seen w1 [Hq%quiet_still Hseen]. apply sat_ret.
  pose proof (handled_still _ _ _ Hq Ha) as Ha1.
  destruct seen as [seen|e]; cbn [map_err]; [|split; [apply Ha1|by apply still_settles]].
  apply leaves_still; [done|].
  assert (seen_alive w1 a (bool_decide (seen = EnvRunning))) as Hal.
  { intros E. apply Hseen. unfold not_running. by rewrite E, Hn. }
  apply leaves_calm; [calm|done|]. intros g w2 Ha2 Hs2.
  apply leaves_calm_ok; [calm|done|]. intros _ w3 Ha3 Hs3.
  apply leaves_moves; [by apply adopt_spawned_sat|]. intros a' w4 Ha4 Hid Hn4 Hl.
  assert (seen_alive w4 a' (bool_decide (seen = EnvRunning))) as Hal4.
  { intros E. specialize (Hal E). destruct Hs2, Hs3. rewrite Hid. set_solver. }
  rewrite Hn in Hn4. clear - Ha4 Hn4 Hal4. destruct (bool_decide _) eqn:Halive.
  { by apply settle_sat. }
  apply leaves_calm; [calm|done|]. intros [[walk o]|] w5 Ha5 Hs5.
  - apply conclude_completed_sat; [done|]. by eapply dead_still, Hal4.
  - apply settle_sat; [done..|]. by eapply seen_alive_still.
Qed.

(** ** Attempts read from the journal *)

(** What a read attempt shares with its row. *)
Lemma load_row_is row a : load row = Ok a → row_is row a ∧ a_id a = pa_id row.
Proof.
  intros H. pose proof (load_columns _ _ H) as (_ & Hs & Hn). unfold load in H.
  apply map_err_ok in H. unfold from_persisted in H. repeat (case_match; [|done]).
  injection H as <-. simpl in *.
  assert (∀ f, pa_id (normalise f).1 = pa_id f ∧ pa_runtime_path (normalise f).1 = pa_runtime_path f
     ∧ pa_workspace_kind (normalise f).1 = pa_workspace_kind f) as Hf.
  { intros f. unfold normalise. by repeat case_match. }
  destruct (Hf row) as (Hi & Hp & Hk). split; [|done]. unfold row_is. simpl. rewrite Hs, Hp.
  split_and!; try done.
  match goal with
  | H : map_err AWorkspace _ = Ok _ |- _ => apply map_err_ok, aw_from_persisted_kind in H as ->
  end.
  done.
Qed.

Lemma load_outcome row a : load row = Ok a → is_Some (outcome a) → is_terminal (state a) = true.
Proof.
  intros H [o Ho]. unfold load in H. apply map_err_ok in H. unfold from_persisted in H.
  repeat (case_match; [|done]). injection H as <-. simpl in *.
  destruct (is_terminal (pa_state (normalise row).1)) eqn:Ht; [done|].
  match goal with H : check_outcome _ = Ok _ |- _ => unfold check_outcome in H; rewrite Ho, Ht in H end.
  done.
Qed.

Lemma attempt_rows_ids d :
  (∀ id r, attempts d !! id = Some r → pa_id r = id) → NoDup (pa_id <$> attempt_rows d).
Proof.
  intros Hk. unfold attempt_rows. rewrite merge_sort_Permutation, <- list_fmap_compose.
  rewrite (list_fmap_ext _ fst); [apply NoDup_fst_map_to_list|].
  intros i [k r] Hin%list_elem_of_lookup_2%elem_of_map_to_list. simpl. by apply Hk.
Qed.

Lemma loaded_ids rows l :
  Forall2 (λ row a, load row = Ok a) rows l → a_id <$> l = pa_id <$> rows.
Proof.
  induction 1 as [|row a rows l Hl _ IH]; [done|].
  destruct (load_row_is _ _ Hl) as [_ Hid]. by rewrite !fmap_cons, IH, Hid.
Qed.

Lemma journal_read pred l w w' :
  journal (attempts_where pred) (Ok l) w w' → accounted w →
  still w w' ∧ Forall (holds w') l ∧ NoDup (a_id <$> l).
Proof.
  intros Hj Hw. assert (still w w') as Hs.
  { eapply journal_still; [|exact Hj]. intros d. apply load_rows_rows. }
  split; [done|]. destruct Hj as (_ & _ & [E|[? _]]); [|done].
  assert (Forall2 (λ row a, load row = Ok a) (List.filter pred (attempt_rows (w_db w))) l) as Hl.
  { apply (load_rows_ok _ (w_db w)). unfold attempts_where in E. by rewrite E. }
  destruct (in_order _ Hw) as [Hk _]. split.
  - apply Forall_forall. intros a [i Hi]%list_elem_of_lookup_1.
    destruct (Forall2_lookup_r _ _ _ _ _ Hl Hi) as (row & Hrow & Hload).
    apply load_row_is in Hload as [His Hid].
    apply list_elem_of_lookup_2, elem_of_filter_bool in Hrow as [Hin _].
    apply attempt_rows_elem in Hin as [id Hrow]. pose proof (Hk _ _ Hrow) as E2.
    exists row. destruct Hs as [Hr _]. rewrite Hr, Hid, E2. done.
  - rewrite (loaded_ids _ _ Hl). by apply NoDup_fmap_filter, attempt_rows_ids.
Qed.

(** ** Loops over attempts *)

(** Attempts end, and none begins. *)
Definition subsides w w' : Prop :=
  w_live w' ⊆ w_live w ∧
  ∀ id row', rows w' !! id = Some row' → active_sql row' = true →
    ∃ row, rows w !! id = Some row ∧ active_sql row = true.
#[global] Instance subsides_preorder : PreOrder subsides.
Proof.
  split; [intros w; split; eauto|]. intros w1 w2 w3 [H1 H2] [H3 H4]. split; [set_solver|].
  intros id row' Hr Ha. destruct (H4 _ _ Hr Ha) as (row & Hr2 & Ha2). eauto.
Qed.

Lemma settles_subsides id w w' : settles id w w' → subsides w w'.
Proof.
  intros (Hj & Hl & Hid). split; [done|]. intros j row' Hr Ha.
  destruct (decide (j = id)) as [->|]; [eauto|]. rewrite Hj in Hr by done. eauto.
Qed.
Lemma still_subsides w w' : still w w' → subsides w w'.
Proof. intros Hs. by eapply settles_subsides, (still_settles 1%N). Qed.

Lemma visit_sat {B} (l : list RunnerAttempt) (body : RunnerAttempt → B → lprog B) w b :
  accounted w → Forall (holds w) l → NoDup (a_id <$> l) →
  (∀ a w b, handled w a → sat V (body a b) w (leaves (a_id a) w)) →
  sat V (for_each_ok l body b) w (λ w' _, accounted w' ∧ subsides w w').
Proof.
  intros Hw Hl Hnd Hbody. revert w b Hw Hl. induction l as [|a l IH]; intros w b Hw Hl.
  { apply sat_ret. done. }
  apply NoDup_cons in Hnd as [Hx Hnd]. apply Forall_cons in Hl as [Ha Hl].
  apply sat_bind_ok. eapply sat_mono; [by apply Hbody|].
  intros w1 r [Hw1 Hs1]. pose proof (settles_subsides _ _ _ Hs1) as Hsub.
  destruct r as [b1|e]; [|done]. eapply sat_mono; [apply IH; [done..|]|].
  - rewrite Forall_forall in *. intros a' Ha'. destruct (Hl a' Ha') as (row & Hr & Hrow).
    exists row. split; [|done]. destruct Hs1 as [Hj _]. rewrite Hj; [done|].
    intros E. apply Hx. rewrite <- E. by apply list_elem_of_fmap_2.
  - intros w2 r [? ?]. split; [done|]. by etransitivity.
Qed.

Lemma supervise_one_sat p a rs w :
  handled w a → sat V (supervise_one NATIVE self p a rs) w (leaves (a_id a) w).
Proof.
  intros Ha. apply leaves_calm_ok; [calm|done|]. intros _ w1 Ha1 _.
  apply leaves_then; [by apply reconcile_one_sat|]. intros x w' Hw'. by apply leaves_ret.
Qed.

Lemma supervise_sat p w :
  accounted w → sat V (supervise NATIVE self p) w (λ w' _, accounted w' ∧ subsides w w').
Proof.
  intros Hw. apply sat_calm; [calm|done|]. intros m w1 Hw1 Hs1. cbn beta iota zeta.
  apply sat_calm; [calm|done|]. intros _ w2 Hw2 Hs2.
  assert (still w w2) as Hs by by etransitivity.
  apply sat_bind_ok, sat_bind, sat_op; [by split|]. intros r w3 Hj. apply sat_ret.
  destruct r as [l|e]; cbn [map_err].
  - destruct (journal_read _ _ _ _ Hj Hw2) as (Hs3 & Hl & Hnd).
    eapply sat_mono; [apply visit_sat; [by eapply accounted_still|done..|]|].
    + intros. by apply supervise_one_sat.
    + intros w4 r [? ?]. split; [done|]. etransitivity; [|done].
      apply still_subsides. by etransitivity.
  - pose proof (calm_does NATIVE w2 (JAttemptsForPolicy (p_id p)) (Err e) w3 I Hj).
    split; [by eapply accounted_still|]. apply still_subsides. by etransitivity.
Qed.

(** ** Startup recovery *)

(** Accepted edges, with none that ends the attempt. *)
Record advances a a' : Prop := {
  adv_id : a_id a' = a_id a;
  adv_workspace : workspace a' = workspace a;
  adv_kind : is_native (execution a') = is_native (execution a);
  adv_counts : counts_against_capacity a' = counts_against_capacity a;
  adv_early : early (state a) = false → early (state a') = false;
}.
#[global] Instance advances_preorder : PreOrder advances.
Proof.
  split; [by split|]. intros a b c [] []. split; try congruence. auto.
Qed.

Lemma apply_op_advances_to op now a a' :
  apply_op op now a = (a', Ok tt) → ends op = false →
  match op with OpAllocateExecution _ => false | _ => true end = true → advances a a'.
Proof.
  intros E He Hop. destruct (apply_op_identity _ _ _ _ _ E) as (Hid & _ & _ & Hws & _). split.
  - done.
  - done.
  - by eapply apply_op_kind.
  - apply eq_bool_prop_intro. split; intros H%Is_true_true; apply Is_true_true.
    + by eapply apply_op_counts.
    + by eapply apply_op_keeps_counting.
  - by eapply edge_not_early.
Qed.

Lemma record_moves a a' w :
  handled w a → advances a a' → sat V (bind_ok (record a') (λ _, lret a')) w (moves a w).
Proof.
  intros [Hw Ha] Hadv. pose proof Hadv as [Hid Hws Hk Hc He]. apply sat_bind_ok. eapply sat_mono.
  { apply record_sat; [done|by eapply holds_recordable|]. intros Hin. rewrite Hid in Hin.
    rewrite Hc. split; [by eapply counted_if_live|]. by eapply He, live_not_early. }
  intros w1 r Hr. assert (settles (a_id a) w w1) as Hs.
  { eapply recorded_settles; [done..| |exact Hr]. by rewrite Hc. }
  destruct Hr as (Hw1 & _ & _ & Hr). destruct r; [apply sat_ret|]; (split; [done|]); done.
Qed.

Lemma adopt_resource_sat resources a w :
  handled w a → sat V (adopt_resource resources a) w (moves a w).
Proof.
  intros Ha. unfold adopt_resource. destruct (execution a) as [|k [] i g] eqn:Hx;
    try (by apply moves_ret).
  destruct resources as [|[|h id k' env i' g'] [|]]; try (by apply moves_ret).
  case_bool_decide as Hc; [by apply moves_ret|].
  unfold take_edge. destruct (prepared_environment env a) as [a1 [[]|e]] eqn:E1.
  2:{ apply sat_bind_ok, sat_ret. split; [|done]. split; [apply Ha|by apply still_settles]. }
  assert (advances a a1) as H1 by by eapply (apply_op_advances_to (OpPreparedEnvironment env) 0).
  apply sat_bind_ok, sat_ret, sat_bind_ok. case_bool_decide; [|apply sat_ret; by apply record_moves].
  apply sat_op_bind; [split; [apply Ha|done]|]. intros now w1 Hq%quiet_still.
  pose proof (handled_still _ _ _ Hq Ha) as Ha1.
  destruct (mark_prepared now a1) as [a2 [[]|e]] eqn:E2; apply sat_ret.
  - assert (advances a a2) as H2.
    { etransitivity; [done|]. by eapply (apply_op_advances_to OpMarkPrepared). }
    eapply sat_mono; [by apply record_moves|]. intros w2 r [[? ?] ?]. split; [|done].
    split; [done|]. etransitivity; [by apply still_settles|done].
  - split; [|done]. split; [apply Ha1|by apply still_settles].
Qed.

Lemma recover_one_sat policies owned a b w :
  handled w a → sat V (recover_one NATIVE self policies owned a b) w (leaves (a_id a) w).
Proof.
  intros Ha. unfold recover_one. destruct (List.find _ _) as [p|]; [|apply leaves_ret, Ha].
  apply leaves_calm_ok; [calm|done|]. intros _ w1 Ha1 _. cbn zeta.
  apply leaves_calm; [calm|done|]. intros _ w2 Ha2 _.
  apply leaves_moves; [by apply adopt_resource_sat|]. intros a' w3 Ha3 _ _ _.
  apply leaves_then; [by apply reconcile_one_sat|]. intros progress w4 Hw4.
  eapply sat_mono; [apply calm_sat; [|done]|].
  - destruct progress; calm.
  - intros w5 r [? ?]. split; [done|by apply still_settles].
Qed.

Lemma recover_attempts_sat policies w :
  accounted w →
  sat V (recover_attempts NATIVE self policies) w (λ w' _, accounted w' ∧ subsides w w').
Proof.
  intros Hw. apply sat_bind_ok, sat_bind, sat_op; [by split|]. intros r w1 Hj. apply sat_ret.
  assert (still w w1) as Hs by by exact (calm_does NATIVE w JAttempts r w1 I Hj).
  destruct r as [l|e]; cbn [map_err].
  2:{ split; [by eapply accounted_still|by apply still_subsides]. }
  destruct (journal_read _ _ _ _ Hj Hw) as (_ & Hl & Hnd).
  apply sat_calm; [calm|by eapply accounted_still|]. intros owned w2 Hw2 Hs2.
  apply sat_calm_ok; [calm|done| |].
  2:{ intros e w3 ? ?. split; [done|]. apply still_subsides. by do 2 (etransitivity; [done|]). }
  intros _ w3 Hw3 Hs3. eapply sat_mono.
  { apply visit_sat; [done| |done|].
    - eapply Forall_impl; [exact Hl|]. intros a Ha. by do 2 (eapply holds_still; [done|]).
    - intros. by apply recover_one_sat. }
  intros w4 r [Hw4 Hs4]. split; [done|]. etransitivity; [|done]. apply still_subsides.
  by do 2 (etransitivity; [done|]).
Qed.

Lemma recover_startup_sat policies w :
  accounted w →
  sat V (recover_startup NATIVE self policies) w (λ w' _, accounted w' ∧ subsides w w').
Proof.
  intros Hw. apply sat_calm; [calm|done|]. intros _ w1 Hw1 Hs1. apply sat_bind_ok.
  eapply sat_mono; [by apply recover_attempts_sat|]. intros w2 r [Hw2 Hs2].
  assert (subsides w w2) as Hsub by (etransitivity; [by apply still_subsides|done]).
  destruct r as [unresolved|e]; [|done]. eapply sat_mono; [apply calm_sat; [|done]|].
  - destruct unresolved; calm.
  - intros w3 r [? ?]. split; [done|]. etransitivity; [done|by apply still_subsides].
Qed.
End Supervision.
