(* ===== verification/LaunchSafety.v ===== *)
(** * Launching keeps the journal's promises

    Every program of [Launch] meets the demands of [LifecycleEnv]: a runner is registered
    only for an attempt that the journal holds and that runs nothing, a process is started
    only after the journal shows the registration, and each retry loop ends within the
    turns of the retry policy. *)

From stdpp Require Import strings.
From S2P Require Import Prelude RustStr Ordered Model Path Workspace Execution Host Attempt.
From S2P Require Import Labels Policy Capacity Recovery Store Github Backoff Report.
From S2P Require Import Effects Ports Slots Lifecycle Supervise Launch LifecycleEnv.
From S2P Require Import LifecycleSafety SuperviseSafety.
#[local] Open Scope Z_scope.
#[local] Open Scope rust_scope.

Section Launching.
Context (NATIVE : PathPlatform) (self : LifecycleLauncher).
Context (turns_u32 : in_u32 (max_attempts (lc_retry self))).
#[local] Abbreviation V := (lifecycle_env NATIVE).
Implicit Types (w : world) (a : RunnerAttempt).

(** ** Calm parts *)

Lemma calm_root_refused {A} p root e : within (calm_effect NATIVE) (@root_refused A p root e).
Proof. unfold root_refused. calm. Qed.
#[local] Hint Resolve calm_root_refused : calm.
Lemma calm_or_root_refused {A} p root (m : prog (result A RootError)) :
  within (calm_effect NATIVE) m → within (calm_effect NATIVE) (or_root_refused p root m).
Proof. intros Hm. unfold or_root_refused. apply within_bind; [done|]. intros r. calm. Qed.
Lemma calm_configured_host_root : within (calm_effect NATIVE) (configured_host_root self).
Proof. unfold configured_host_root. calm. Qed.
#[local] Hint Resolve calm_configured_host_root : calm.
Lemma calm_resolvable_host_root : within (calm_effect NATIVE) (resolvable_host_root self).
Proof. unfold resolvable_host_root. calm. Qed.
Lemma calm_effective_host_root p : within (calm_effect NATIVE) (effective_host_root self p).
Proof. unfold effective_host_root. calm. apply calm_or_root_refused. calm. Qed.
#[local] Hint Resolve calm_resolvable_host_root calm_effective_host_root : calm.
Lemma calm_create_or_validate_slot slot :
  within (calm_effect NATIVE) (create_or_validate_slot NATIVE slot).
Proof. unfold create_or_validate_slot. calm. Qed.
Lemma calm_accept_reusable_slot slot :
  within (calm_effect NATIVE) (accept_reusable_slot NATIVE slot).
Proof. unfold accept_reusable_slot, accept_entry. calm. Qed.
#[local] Hint Resolve calm_create_or_validate_slot calm_accept_reusable_slot : calm.
Lemma calm_allocate_workspace p id :
  within (calm_effect NATIVE) (allocate_workspace NATIVE self p id).
Proof.
  unfold allocate_workspace, allocate_persistent_slot, allocate_disposable.
  repeat (calm; try apply calm_or_root_refused).
Qed.
Lemma calm_check_resolution p r : within (calm_effect NATIVE) (check_resolution p r).
Proof. unfold check_resolution, resolution_mismatch. calm. Qed.
Lemma calm_prune version : within (calm_effect NATIVE) (prune_under_allocation_lock version).
Proof. unfold prune_under_allocation_lock. calm. Qed.
#[local] Hint Resolve calm_allocate_workspace calm_check_resolution calm_prune : calm.

(** ** Retries *)

(** What is left of the turns. *)
Definition turns_left (fuel : nat) (issued : Z) : Prop :=
  0 ≤ issued < max_turns self ∧ Z.of_nat fuel = max_turns self - issued.

Lemma turns_start : turns_left (turns self) 0.
Proof. unfold turns_left, turns, max_turns. lia. Qed.

Lemma turns_next fuel issued :
  turns_left (S fuel) issued → max_turns self ≤ sat_add U32_MAX issued 1 ∨
    turns_left fuel (sat_add U32_MAX issued 1).
Proof.
  unfold turns_left, max_turns, sat_add. intros [? ?]. zarith.
Qed.

Lemma turns_positive fuel issued : turns_left fuel issued → ∃ n, fuel = S n.
Proof. unfold turns_left. destruct fuel; [lia|eauto]. Qed.

Lemma materialize_loop_sat fuel issued p a w :
  turns_left fuel issued → handled w a → early (state a) = true →
  sat V (materialize_loop self fuel issued p a) w (λ w' _, accounted w' ∧ still w w').
Proof.
  intros Ht Ha He. revert issued w Ht Ha. induction fuel as [|fuel IH]; intros issued w Ht Ha.
  { by destruct (turns_positive _ _ Ht). }
  pose proof (turns_next _ _ Ht) as Hnext. apply sat_op_bind.
  { destruct Ha as [Hw (row & Hr & Hs & _)]. split; [done|]. exists row. by rewrite Hs. }
  intros r w1 Hq%quiet_still. pose proof (handled_still _ _ _ Hq Ha) as Ha1.
  destruct r as [v|reason]; [split; [apply Ha1|done]|].
  destruct (_ || bool_decide _) eqn:Hstop; [split; [apply Ha1|done]|].
  apply orb_false_iff in Hstop as [_ Hstop]. breflect. destruct Hnext as [?|Hnext]; [lia|].
  apply sat_calm; [calm|apply Ha1|]. intros wanted w2 Hw2 Hs2.
  assert (still w w2) as Hs by by etransitivity.
  destruct wanted; cbn [negb]; [|done].
  apply sat_calm; [calm|done|]. intros wanted w3 Hw3 Hs3.
  assert (still w w3) as Hs' by by etransitivity.
  destruct wanted; cbn [negb]; [|done].
  eapply sat_mono; [apply IH; [done|by eapply handled_still]|].
  intros w4 r [? ?]. split; [done|by etransitivity].
Qed.

(** The journal holds an attempt that may be registered: nothing of it runs, and it was
    allocated (or, as a container, prepared). *)
Definition registrable w a : Prop :=
  handled w a ∧ state a = if is_native (execution a) then Allocated else Prepared.

Lemma registrable_early w a : registrable w a → early (state a) = true.
Proof. intros [_ ->]. by destruct (is_native _). Qed.

Lemma registrable_still w w' a : still w w' → registrable w a → registrable w' a.
Proof. intros Hs [? ?]. split; [by eapply handled_still|done]. Qed.

Lemma register_loop_sat fuel issued p a request w :
  turns_left fuel issued → registrable w a → jr_name request = runner_name (a_id a) →
  sat V (register_loop self fuel issued p (a_id a) request) w (λ w' _, accounted w' ∧ still w w').
Proof.
  intros Ht Ha Hname. revert issued w Ht Ha. induction fuel as [|fuel IH]; intros issued w Ht Ha.
  { by destruct (turns_positive _ _ Ht). }
  pose proof (turns_next _ _ Ht) as Hnext. apply sat_op_bind.
  { pose proof (registrable_early _ _ Ha) as He.
    destruct Ha as [[Hw Ha] Hst]. pose proof (early_dead _ _ Hw Ha He) as Hd.
    destruct Ha as (row & Hr & Hs & Hn & _).
    split; [done|]. exists (a_id a), row. rewrite Hs, Hn. by split_and!. }
  intros r w1 Hq%quiet_still. pose proof (registrable_still _ _ _ Hq Ha) as Ha1.
  destruct r as [v|error]; [split; [apply Ha1|done]|].
  destruct (jf_terminal error); [split; [apply Ha1|done]|].
  case_bool_decide; [split; [apply Ha1|done]|]. destruct Hnext as [?|Hnext]; [lia|].
  apply sat_calm; [calm|apply Ha1|]. intros wanted w2 Hw2 Hs2.
  assert (still w w2) as Hs by by etransitivity.
  destruct wanted; cbn [negb]; [|done].
  apply sat_calm; [calm|done|]. intros wanted w3 Hw3 Hs3.
  assert (still w w3) as Hs' by by etransitivity.
  destruct wanted; cbn [negb]; [|done].
  eapply sat_mono; [apply IH; [done|by eapply registrable_still]|].
  intros w4 r [? ?]. split; [done|by etransitivity].
Qed.

(** ** Starting *)

(** What a launch of [id] leaves: other attempts as they were, and at most one more
    process; a launched runner is in the journal and counted. *)
Definition launches (id : AttemptId) w w' (r : result RunnerAttempt LifecycleError) : Prop :=
  accounted w' ∧ (∀ j, j ≠ id → rows w' !! j = rows w !! j) ∧
  w_live w' ⊆ w_live w ∪ {[ id ]} ∧
  match r with
  | Ok a => a_id a = id ∧ holds w' a ∧ state a = Starting
  | Err _ => True
  end.

Lemma launches_from id w w1 (m : lprog RunnerAttempt) :
  (∀ j, j ≠ id → rows w1 !! j = rows w !! j) → w_live w1 ⊆ w_live w ∪ {[ id ]} →
  sat V m w1 (launches id w1) → sat V m w1 (launches id w).
Proof.
  intros Hj Hl H. eapply sat_mono; [exact H|]. intros w2 r (Hw & Hj2 & Hl2 & Hr).
  split_and!; [done| |set_solver|done]. intros j Hne. rewrite Hj2 by done. by apply Hj.
Qed.

Lemma launches_still id w w1 (m : lprog RunnerAttempt) :
  still w w1 → sat V m w1 (launches id w1) → sat V m w1 (launches id w).
Proof.
  intros [Hr Hl]. apply launches_from; [intros j _; by rewrite Hr|set_solver].
Qed.

Lemma launches_settles id w w1 (m : lprog RunnerAttempt) :
  settles id w w1 → sat V m w1 (launches id w1) → sat V m w1 (launches id w).
Proof. intros (Hr & Hl & _). apply launches_from; [done|set_solver]. Qed.

Lemma launches_err id w w1 e : accounted w1 → settles id w w1 → launches id w w1 (Err e).
Proof. intros Hw (Hr & Hl & _). split_and!; [done..|set_solver|done]. Qed.

Lemma fail_launch_sat a reason w :
  handled w a → (a_id a ∈ w_live w → is_native (execution a) = false) →
  sat V (fail_launch a reason) w (launches (a_id a) w).
Proof.
  intros [Hw Ha] Hd. apply sat_bind_ok. eapply sat_mono; [by apply conclude_attempt_sat|].
  intros w1 [a'|e] [[Hw1 Hs1] _]; [apply sat_ret|]; by apply launches_err.
Qed.

(** The edge to [Starting] of a process that runs, or may. *)
Lemma starting_sat op a w :
  handled w a → ((∃ pid, op = OpStarted pid) ∨ op = OpStartedIsolated) →
  sat V (transition (apply_op op) a) w (launches (a_id a) w).
Proof.
  intros [Hw Ha] Hop. eapply sat_mono.
  { apply plain_transition_sat; [done..| |]; by destruct Hop as [[pid ->]| ->]. }
  intros w1 [a'|e] (Hw1 & Hs1 & Hr); [|by apply launches_err].
  destruct Hr as (Ha1 & now & E). destruct Hs1 as (Hj & Hl & _).
  destruct (apply_op_identity _ _ _ _ _ E) as (Hid & _).
  split_and!; [done..|set_solver|done|done|].
  destruct Hop as [[pid ->]| ->]; cbn [apply_op] in E; [unfold started in E|unfold started_isolated in E];
    accepted; done.
Qed.

(** A registered attempt may come to run. *)
Lemma start_handled w w' a :
  handled w a → state a = JitReceived → w_db w' = w_db w →
  w_live w' ⊆ w_live w ∪ {[ a_id a ]} → handled w' a.
Proof.
  intros [Hw Ha] Hst E Hl. assert (rows w' = rows w) as Hr by (unfold rows; by rewrite E).
  split; [|unfold holds; by rewrite Hr]. split; [rewrite E; apply Hw|].
  intros id Hin. rewrite Hr. destruct (decide (id = a_id a)) as [->|Hne].
  - destruct Ha as (row & Hrow & His). exists row. rewrite (row_is_active _ _ His).
    destruct His as (-> & _). unfold counts_against_capacity. by rewrite Hst.
  - apply (live_counted _ Hw). set_solver.
Qed.

(** A registered attempt of which nothing runs. *)
Definition startable w a : Prop := handled w a ∧ state a = JitReceived ∧ a_id a ∉ w_live w.

Lemma startable_may w a prepared config :
  startable w a → lifecycle_may NATIVE w (PrStart prepared a config).
Proof.
  intros ([Hw (row & Hr & Hs & _)] & Hst & Hd). split; [done|]. exists row. by rewrite Hs.
Qed.

Lemma start_isolated_sat prepared a config w :
  startable w a → sat V (start_isolated self prepared a config) w (launches (a_id a) w).
Proof.
  intros Ha. apply sat_bind_ok, sat_bind, sat_op; [by apply startable_may|].
  intros r w1 (Hdb & _ & Hl). apply sat_ret. destruct Ha as (Ha & Hst & Hd).
  assert (w_live w1 ⊆ w_live w ∪ {[ a_id a ]}) as Hl1.
  { destruct r; [done|]. destruct (_ && _); set_solver. }
  assert (handled w1 a) as Ha1 by by eapply start_handled.
  assert (∀ e, launches (a_id a) w w1 (Err e)) as Herr.
  { intros e. split_and!; [apply Ha1| |done|done]. intros. unfold rows. by rewrite Hdb. }
  destruct r as [i|e]; cbn [map_err]; [|apply Herr].
  destruct (negb _); [apply Herr|].
  apply launches_from; [|done|].
  { intros j _. unfold rows. by rewrite Hdb. }
  apply (starting_sat OpStartedIsolated); [done|by right].
Qed.

Lemma start_native_sat fuel issued p prepared a config w :
  turns_left fuel issued → startable w a → is_native (execution a) = true →
  sat V (start_native self fuel issued p prepared a config) w (launches (a_id a) w).
Proof.
  intros Ht Ha Hn. revert issued w Ht Ha. induction fuel as [|fuel IH]; intros issued w Ht Ha.
  { by destruct (turns_positive _ _ Ht). }
  pose proof (turns_next _ _ Ht) as Hnext. apply sat_op_bind; [by apply startable_may|].
  intros r w1 (Hdb & _ & Hl). destruct Ha as (Ha & Hst & Hd).
  assert (w_live w1 ⊆ w_live w ∪ {[ a_id a ]}) as Hl1.
  { destruct r; [done|]. destruct (_ && _); set_solver. }
  assert (handled w1 a) as Ha1 by by eapply start_handled.
  assert (∀ j, j ≠ a_id a → rows w1 !! j = rows w !! j) as Hj.
  { intros j _. unfold rows. by rewrite Hdb. }
  destruct r as [[pid|]|error].
  - apply launches_from; [done..|]. apply (starting_sat (OpStarted pid)); [done|eauto].
  - apply sat_ret. split_and!; [apply Ha1|done..].
  - destruct (sf_live_pid error) as [pid|] eqn:Hp.
    { apply launches_from; [done..|]. apply sat_bind_ok. eapply sat_mono.
      - apply (starting_sat (OpStarted pid)); [done|eauto].
      - intros w2 [a'|e] (? & ? & ? & _); [apply sat_ret|]; by split_and!. }
    rewrite Hn, bool_decide_eq_true_2 in Hl by done. simpl in Hl.
    assert (startable w1 a) as Hs1 by (split_and!; [done|done|set_solver]).
    apply launches_from; [done..|]. clear Hdb Hl Hl1 Hj.
    assert (∀ w2, still w1 w2 → sat V (fail_launch a (sf_reason error)) w2 (launches (a_id a) w1))
      as Hfail.
    { intros w2 Hs2. apply launches_still; [done|]. apply fail_launch_sat; [by eapply handled_still|].
      apply dead_concludes. eapply dead_still; [done|apply Hs1]. }
    destruct (_ || bool_decide _) eqn:Hstop; [by apply Hfail|].
    apply orb_false_iff in Hstop as [_ Hstop]. breflect. destruct Hnext as [?|Hnext]; [lia|].
    apply sat_calm; [calm|apply Ha1|]. intros wanted w2 Hw2 Hs2.
    destruct wanted; cbn [negb]; [|by apply Hfail].
    apply sat_calm; [calm|done|]. intros wanted w3 Hw3 Hs3.
    assert (still w1 w3) as Hs by by etransitivity.
    destruct wanted; cbn [negb]; [|by apply Hfail].
    apply launches_still; [done|]. apply IH; [done|].
    destruct Hs1 as (? & ? & ?). split_and!; [by eapply handled_still|done|by eapply dead_still].
Qed.

(** ** The steps of a launch *)

Lemma register_and_start_sat p labels prepared a w :
  registrable w a →
  sat V (register_and_start NATIVE self p labels prepared a) w (launches (a_id a) w).
Proof.
  intros Ha. apply sat_bind. eapply sat_mono.
  { apply register_loop_sat; [apply turns_start|done|done]. }
  intros w1 r [Hw1 Hs1]. pose proof (registrable_still _ _ _ Hs1 Ha) as Ha1.
  pose proof Ha1 as [Hh1 Hst1]. pose proof (registrable_early _ _ Ha1) as He1.
  pose proof (early_dead _ _ Hw1 (proj2 Hh1) He1) as Hd1.
  apply launches_still; [done|]. clear w Ha Hs1. destruct r as [registration|error].
  2:{ by apply fail_launch_sat. }
  apply sat_calm_ok; [calm|done| |].
  2:{ intros e w2 ? ?. apply launches_err; [done|by apply still_settles]. }
  intros _ w2 Hw2 Hs2. apply launches_still; [done|]. apply sat_bind_ok. eapply sat_mono.
  { apply (plain_transition_sat NATIVE OpJitReceived); [done|by eapply holds_still, Hh1|done..]. }
  intros w3 [a'|e] (Hw3 & Hs3 & Hr); [|by apply launches_err].
  destruct Hr as (Ha3 & now & E). destruct (apply_op_identity _ _ _ _ _ E) as (Hid & _).
  rewrite <- Hid in *. eapply launches_settles; [done|].
  assert (startable w3 a') as Hst.
  { split_and!; [done|cbn [apply_op] in E; unfold jit_received in E; by accepted|].
    destruct Hs3 as (_ & ? & _). rewrite Hid in *. pose proof (dead_still _ _ _ Hs2 Hd1). set_solver. }
  destruct (is_native (execution a')) eqn:Hn; cbn [negb].
  - apply start_native_sat; [apply turns_start|done..].
  - by apply start_isolated_sat.
Qed.

(** The journal's columns that are looked at do not name the environment. *)
Lemma prepared_environment_holds env a a' w :
  prepared_environment env a = (a', Ok tt) → holds w a →
  holds w a' ∧ a_id a' = a_id a ∧ is_native (execution a') = is_native (execution a).
Proof.
  intros E (row & Hr & Hs & Hn & Hp & Hk).
  pose proof (apply_op_kind (OpPreparedEnvironment env) 0 a a' E eq_refl) as Hn'.
  apply prepared_environment_ok in E as (_ & k & i & g & He & _ & ->). simpl in *.
  split_and!; [|done|done].
  exists row. split; [done|]. unfold row_is. simpl. rewrite Hs, Hn, Hp, Hk, <- Hn'. done.
Qed.

Definition prepares a w w' (r : result RunnerAttempt LifecycleError) : Prop :=
  accounted w' ∧ settles (a_id a) w w' ∧
  match r with Ok a' => registrable w' a' ∧ a_id a' = a_id a | Err _ => True end.

Lemma prepares_err a w e : accounted w → sat V (lfail e) w (prepares a w).
Proof. intros Hw. apply sat_ret. split_and!; [done|by apply still_settles|done]. Qed.

Lemma journal_prepared_sat prepared a w :
  handled w a → is_native (execution a) = false →
  sat V (journal_prepared self prepared a) w (prepares a w).
Proof.
  intros [Hw Ha] Hn. unfold journal_prepared, ownership_mismatch.
  destruct (pe_identity prepared) as [i|]; [|by apply prepares_err].
  destruct (negb _) eqn:Hm; [by apply prepares_err|]. destruct i as [pid|h id k env im g].
  { unfold identity_matches_intent, identity_same_allocation in Hm. by destruct (execution a). }
  unfold take_edge. destruct (prepared_environment env a) as [a1 [[]|e]] eqn:E1.
  2:{ by apply sat_bind_ok, prepares_err. }
  destruct (prepared_environment_holds _ _ _ _ E1 Ha) as (Ha1 & Hid & Hn1).
  apply sat_bind_ok, sat_ret. eapply sat_mono; [by apply (plain_transition_sat NATIVE OpMarkPrepared)|].
  intros w1 [a2|e] (Hw1 & Hs1 & Hr); rewrite Hid in Hs1; (split; [done|]); (split; [done|]); [|done].
  destruct Hr as (Ha2 & now & E2). pose proof (apply_op_kind _ _ _ _ E2 eq_refl) as Hn2.
  destruct (apply_op_identity _ _ _ _ _ E2) as (Hid2 & _). split; [|congruence].
  split; [done|]. rewrite Hn2, Hn1, Hn. cbn [apply_op] in E2. unfold mark_prepared in E2. by accepted.
Qed.

Lemma begin_prepare_sat a w :
  handled w a → is_native (execution a) = false →
  sat V (transition begin_prepare a) w (λ w' r, accounted w' ∧ settles (a_id a) w w' ∧
    match r with
    | Ok a' => handled w' a' ∧ a_id a' = a_id a ∧ is_native (execution a') = false ∧
               state a' = Preparing
    | Err _ => True
    end).
Proof.
  intros [Hw Ha] Hn. eapply sat_mono; [by apply (plain_transition_sat NATIVE OpBeginPrepare)|].
  intros w1 [a'|e] (Hw1 & Hs1 & Hr); (split; [done|]); (split; [done|]); [|done].
  destruct Hr as (Ha1 & now & E). pose proof (apply_op_kind _ _ _ _ E eq_refl) as Hn1.
  destruct (apply_op_identity _ _ _ _ _ E) as (Hid & _).
  split_and!; [done|done|congruence|]. cbn [apply_op] in E. unfold begin_prepare in E. by accepted.
Qed.

Lemma may_prepare w a p :
  handled w a → early (state a) = true → lifecycle_may NATIVE w (PrPrepare a p).
Proof.
  intros [Hw (row & Hr & Hs & _)] He. split; [done|]. exists row. by rewrite Hs.
Qed.

(** [prepare] and what follows it, for either kind. *)
Lemma prepare_native_sat p labels a w :
  handled w a → is_native (execution a) = true → state a = Allocated →
  sat V (prepare_and_start NATIVE self p labels a) w (launches (a_id a) w).
Proof.
  intros Ha Hn Hst. unfold prepare_and_start. rewrite Hn. cbn [negb].
  assert (early (state a) = true) as He by by rewrite Hst.
  apply sat_bind_ok, sat_ret, sat_op_bind; [by apply may_prepare|].
  intros prepared w1 Hq%quiet_still. pose proof (handled_still _ _ _ Hq Ha) as Ha1.
  apply launches_still; [done|]. destruct prepared as [prepared|reason].
  - apply sat_bind_ok, sat_ret, register_and_start_sat. split; [done|]. by rewrite Hn.
  - apply fail_launch_sat; [done|]. destruct Ha1. by eapply dead_concludes, early_dead.
Qed.

Lemma prepare_isolated_sat p labels a w :
  handled w a → is_native (execution a) = false →
  sat V (prepare_and_start NATIVE self p labels a) w (launches (a_id a) w).
Proof.
  intros Ha Hn. unfold prepare_and_start. rewrite Hn. cbn [negb].
  apply sat_bind_ok. eapply sat_mono; [by apply begin_prepare_sat|].
  intros w1 [a1|e] (Hw1 & Hs1 & Hr); [|by apply launches_err].
  destruct Hr as (Ha1 & Hid & Hn1 & Hst). rewrite <- Hid in *.
  eapply launches_settles; [done|]. apply sat_op_bind; [apply may_prepare; [done|by rewrite Hst]|].
  intros prepared w2 Hq%quiet_still. pose proof (handled_still _ _ _ Hq Ha1) as Ha2.
  apply launches_still; [done|]. destruct prepared as [prepared|reason].
  2:{ by apply fail_launch_sat. }
  apply sat_bind_ok. eapply sat_mono; [by apply journal_prepared_sat|].
  intros w3 [a3|e] (Hw3 & Hs3 & Hr3); [|by apply launches_err].
  destruct Hr3 as [Hreg Hid3]. eapply launches_settles; [done|]. rewrite <- Hid3.
  by apply register_and_start_sat.
Qed.

Lemma launch_steps_sat p labels a w :
  handled w a → state a = Allocated →
  sat V (launch_steps NATIVE self p labels a) w (launches (a_id a) w).
Proof.
  intros Ha Hst. assert (early (state a) = true) as He by by rewrite Hst.
  apply sat_bind. eapply sat_mono.
  { apply materialize_loop_sat; [apply turns_start|done|done]. }
  intros w1 r [Hw1 Hs1]. apply launches_still; [done|].
  pose proof (handled_still _ _ _ Hs1 Ha) as Ha1. destruct r as [version|reason].
  2:{ apply fail_launch_sat; [done|]. destruct Ha1. by eapply dead_concludes, early_dead. }
  apply sat_calm_ok; [calm|done| |].
  2:{ intros e w2 ? ?. apply launches_err; [done|by apply still_settles]. }
  intros _ w2 Hw2 Hs2. apply launches_still; [done|].
  pose proof (handled_still _ _ _ Hs2 Ha1) as Ha2.
  apply sat_calm; [calm|done|]. intros _ w3 Hw3 Hs3. apply launches_still; [done|].
  pose proof (handled_still _ _ _ Hs3 Ha2) as Ha3.
  destruct (is_native (execution a)) eqn:Hn; [by apply prepare_native_sat|by apply prepare_isolated_sat].
Qed.

(** ** Allocation *)

(** A new attempt, journalled before anything is done for it. *)
Definition allocates w w' (r : result (RunnerAttempt * RoutingLabels) LifecycleError) : Prop :=
  match r with
  | Ok (a, _) =>
      rows w !! a_id a = None ∧ handled w' a ∧ state a = Allocated ∧
      (∀ j, j ≠ a_id a → rows w' !! j = rows w !! j) ∧ w_live w' ⊆ w_live w
  | Err _ => accounted w' ∧ still w w'
  end.

Lemma allocates_err w w' e : accounted w' → still w w' → sat V (lfail e) w' (allocates w).
Proof. intros. by apply sat_ret. Qed.

(** The first write: the attempt has no row, so it runs nothing. *)
Lemma record_allocation_sat a w :
  accounted w → rows w !! a_id a = None →
  sat V (record_allocation a) w (recorded a w).
Proof.
  intros Hw Hnone. assert (recordable w a) as Hrec by (intros old; by rewrite Hnone).
  assert (stays_accounted w a) as Hst.
  { intros Hin. destruct (live_counted _ Hw _ Hin) as (row & Hr & _). congruence. }
  apply sat_op_bind; [by apply may_record|]. intros r w1 Hd.
  apply record_effect in Hd; [|done..]. destruct r as [[]|e].
  - apply sat_op_bind; [split; [apply Hd|done]|]. intros _ w2 Hq%quiet_still. apply sat_ret.
    by eapply recorded_still.
  - destruct e; apply sat_ret; by eapply recorded_still.
Qed.

Lemma place_attempt_sat (p : ScalePolicy) resolved id placement labels w :
  accounted w → rows w !! id = None →
  sat V (now ← call ClockNow;
         let a := allocate_in id (p_id p) (pl_runtime placement) (pl_workspace placement) now in
         a ←? match resolved with
              | None => lret a
              | Some r =>
                  generation ← call FreshUuid;
                  take_edge (allocate_execution
                    (Isolated (rv_provider_kind r) None (rv_image r) (show_uuid generation))) a
              end;
         _ ←? record_allocation a;
         lret (a, labels)) w (allocates w).
Proof.
  intros Hw Hnone. apply sat_op_bind; [by split|]. intros now w1 Hq%quiet_still. cbn zeta.
  assert (accounted w1) as Hw1 by by eapply accounted_still.
  set (a0 := allocate_in _ _ _ _ _).
  assert (∀ a w', accounted w' → still w w' → a_id a = id → state a = Allocated →
    sat V (_ ←? record_allocation a; lret (a, labels)) w' (allocates w)) as Hwrite.
  { intros a w' Hw' [Hr Hl] Hid Hst. apply sat_bind_ok.
    eapply sat_mono; [apply record_allocation_sat; [done|by rewrite Hid, Hr]|].
    intros w2 r (Hw2 & Hj & Hl2 & Hok). destruct r as [[]|e].
    - apply sat_ret. split_and!; [by rewrite Hid|done|done| |set_solver].
      intros j Hne. rewrite Hj by done. by rewrite Hr.
    - split; [done|]. split; [congruence|set_solver]. }
  apply sat_bind_ok. destruct resolved as [r|]; [|apply sat_ret; by apply Hwrite].
  apply sat_op_bind; [by split|]. intros generation w2 Hq2%quiet_still.
  assert (still w w2) as Hs by by etransitivity.
  assert (accounted w2) as Hw2 by by eapply accounted_still.
  unfold take_edge. destruct (allocate_execution _ a0) as [a1 [[]|e]] eqn:E; apply sat_ret; [|done].
  apply allocate_execution_ok in E as (Hst & _ & _ & _ & ->). by apply Hwrite.
Qed.

Lemma allocate_attempt_sat p w :
  accounted w → sat V (allocate_attempt NATIVE self p) w (allocates w).
Proof.
  intros Hw. apply sat_calm; [calm|done|]. intros m w1 Hw1 Hs1.
  destruct (negb _); [by apply allocates_err|].
  apply sat_calm; [calm|done|]. intros capability w2 Hw2 Hs2.
  assert (still w w2) as Hs by by etransitivity.
  destruct (negb _); [by apply allocates_err|].
  apply sat_calm_ok; [calm|done| |].
  2:{ intros e w3 ? ?. split; [done|by etransitivity]. }
  intros resolved w3 Hw3 Hs3. assert (still w w3) as Hs' by by etransitivity.
  apply sat_calm_ok; [calm|done| |].
  2:{ intros e w4 ? ?. split; [done|by etransitivity]. }
  intros _ w4 Hw4 Hs4. assert (still w w4) as Hs'' by by etransitivity.
  destruct (mode_labels (mode p)) as [labels|]; [|by apply allocates_err].
  apply sat_op_bind; [by split|]. intros id w5 [Hq5%quiet_still Hnone].
  assert (still w w5) as Hs5 by by etransitivity.
  apply sat_calm_ok; [calm|by eapply accounted_still| |].
  2:{ intros e w6 ? ?. split; [done|by etransitivity]. }
  intros placement w6 Hw6 Hs6. assert (still w w6) as Hs6' by by etransitivity.
  pose proof Hs6' as [Hr Hl]. eapply sat_mono; [apply (place_attempt_sat p resolved id); [done|]|].
  { destruct Hs'' as [Hr4 _]. rewrite Hr, <- Hr4. done. }
  intros w7 [[a l]|e] Hal; unfold allocates in *.
  - rewrite <- Hr. destruct Hal as (? & ? & ? & ? & ?). split_and!; [done..|set_solver].
  - destruct Hal. split; [done|by etransitivity].
Qed.

(** What a launch leaves. *)
Definition launch_post w w' (r : result RunnerAttempt LifecycleError) : Prop :=
  (failed r ∧ accounted w' ∧ still w w') ∨
  ∃ id, rows w !! id = None ∧ launches id w w' r.

Lemma launch_attempt_sat p w :
  accounted w → sat V (launch_attempt NATIVE self p) w (launch_post w).
Proof.
  intros Hw. apply sat_bind_ok. eapply sat_mono; [by apply allocate_attempt_sat|].
  intros w1 [[a labels]|e] Hal; [|by left]. destruct Hal as (Hnone & Ha & Hst & Hj & Hl).
  apply sat_bind. eapply sat_mono; [by apply launch_steps_sat|].
  intros w2 r (Hw2 & Hj2 & Hl2 & Hr). apply sat_op_bind; [by split|].
  intros _ w3 Hq%quiet_still. apply sat_ret. right. exists (a_id a). split; [done|].
  pose proof Hq as [Hr3 Hl3]. split_and!.
  - by eapply accounted_still.
  - intros j Hne. rewrite Hr3, Hj2 by done. by apply Hj.
  - set_solver.
  - destruct r as [a'|e]; [|done]. destruct Hr as (? & ? & ?).
    split_and!; [done|by eapply holds_still|done].
Qed.

(** The attempt that one row holds. *)
Lemma journal_read_one id a w w' :
  journal (Store.attempt id) (Ok (Some a)) w w' → accounted w → still w w' →
  holds w' a ∧ (is_Some (outcome a) → is_terminal (state a) = true).
Proof.
  intros (_ & _ & [E|[? _]]) Hw [Hr _]; [|done]. unfold Store.attempt in E.
  destruct (attempts (w_db w) !! id) as [row|] eqn:Hrow; [|done].
  pose proof (attempt_from_row_result row (w_db w)) as Hload. unfold st_bind, st_ret in E.
  destruct (attempt_from_row row (w_db w)) as [d1 [a1|e]]; [|done]. simplify_eq/=.
  symmetry in Hload. pose proof (load_row_is _ _ Hload) as [His Hid].
  split; [|by eapply load_outcome]. exists row. split; [|done].
  rewrite Hr, Hid. destruct (in_order _ Hw) as [Hk _]. by rewrite (Hk _ _ Hrow).
Qed.

Lemma launcher_clean_sat id w :
  accounted w → sat V (launcher_clean NATIVE self id) w (λ w' _, accounted w' ∧ subsides w w').
Proof.
  intros Hw. apply sat_bind_ok, sat_bind, sat_op; [by split|]. intros r w1 Hj. apply sat_ret.
  pose proof (calm_does NATIVE w (JAttempt id) r w1 I Hj) as Hs1.
  assert (accounted w1) as Hw1 by by eapply accounted_still.
  destruct r as [[a|]|e]; cbn [map_err]; [|apply sat_ret|];
    try (split; [done|by apply still_subsides]).
  destruct (journal_read_one _ _ _ _ Hj Hw Hs1) as [Ha Ho].
  apply sat_bind_ok, sat_bind. eapply sat_mono; [by apply clean_attempt_sat|].
  intros w2 r [Hw2 Hs2]. apply sat_ret. assert (subsides w w2) as Hsub.
  { etransitivity; [by apply still_subsides|by eapply settles_subsides]. }
  destruct r as [a'|e]; cbn [map_err]; [|done].
  apply sat_calm; [calm|done|]. intros _ w3 Hw3 Hs3. apply sat_ret. split; [done|].
  etransitivity; [done|by apply still_subsides].
Qed.
End Launching.
