(* ===== verification/Machine.v ===== *)
(** * A machine behind the ports

    One concrete answer to every call of [Ports], on the worlds of [LifecycleEnv]: an
    empty disk, a journal, a GitHub that registers and sees nothing, processes that start
    and keep running, at a fixed time. It keeps every promise of the environment, so the theorems about
    the lifecycle have something to speak of, and programs can be run on it. *)

From stdpp Require Import strings.
From S2P Require Import Prelude RustStr Ordered Model Path Workspace Execution Host Attempt.
From S2P Require Import Labels Policy Capacity Recovery Store Github Backoff Report.
From S2P Require Import Effects Ports Slots Lifecycle LifecycleEnv.
#[local] Open Scope Z_scope.
#[local] Open Scope rust_scope.

Definition not_found : IoError := mk_io IoNotFound (lit "not found").

Section Machine.
Context (NATIVE : PathPlatform) (now : Timestamp).

Definition machine_root : LocalAbsolutePath :=
  match NATIVE with
  | PWindows => mk_path (lit "C:\rman") PWindows
  | PUnix => mk_path (lit "/srv/rman") PUnix
  end.

(** A journal call. *)
Definition on_journal {A} (m : store_method A) (w : world) : world * result A StoreError :=
  let (d, r) := m (w_db w) in (mk_world d (w_mem w) (w_live w), r).

Definition running (w : world) (a : RunnerAttempt) : EnvironmentState :=
  if bool_decide (a_id a ∈ w_live w) then EnvRunning else EnvMissing.

Definition machine (e : effect) (w : world) : option (world * answer e) :=
  match e return option (world * answer e) with
  | Panic => None
  | ClockNow => Some (w, now)
  | FreshAttemptId => Some (w, fresh (dom (rows w)))
  | FreshUuid => Some (w, 5%N)
  | MemGet => Some (w, w_mem w)
  | MemPut m => Some (mk_world (w_db w) m (w_live w), tt)
  | Emit _ | EmitReconcile _ => Some (w, tt)
  | JAttempts => Some (on_journal (attempts_where (λ _, true)) w)
  | JAttemptsForPolicy p => Some (on_journal (attempts_for_policy p) w)
  | JSlotLeases p => Some (on_journal (slot_leases_for_policy p) w)
  | JAttempt id => Some (on_journal (Store.attempt id) w)
  | JRecord a => Some (on_journal (record_attempt a) w)
  | JHost h => Some (w, host NATIVE h (w_db w))
  | JPolicy p => Some (w, default (Err SqliteConstraint) (policy NATIVE p (w_db w)))
  | GhRegister _ _ => Some (w, Ok (mk_registration (lit "jit") 42))
  | GhObserve _ _ => Some (w, mk_gh_observation NotRegistered None)
  | GhDeregister _ _ => Some (w, true)
  | DemandPersists _ => Some (w, true)
  | DelayWait _ => Some (w, tt)
  | PkMaterialize _ => Some (w, Ok (lit "2.330.0"))
  | PkRelease _ | PkPrune _ _ => Some (w, Ok tt)
  | PrProbe _ => Some (w, CapReady)
  | PrResolve _ => Some (w, Ok None)
  | PrPrepare a _ => Some (w, Ok (mk_prepared (a_id a) None None))
  | PrStart _ a _ =>
      Some (mk_world (w_db w) (w_mem w) (w_live w ∪ {[ a_id a ]}), Ok (NativeProcess 77))
  | PrInspect a | PrRecover a => Some (w, Ok (running w a))
  | PrStop a => Some (w, Ok StopStillRunning)
  | PrDestroy _ => Some (w, Ok Destroyed)
  | PrOwns _ => Some (w, Ok true)
  | PrEnumerateOwned _ => Some (w, [])
  | PrRecoveredPid _ => Some (w, Ok None)
  | PrCompletedSuccessfully _ | PrHasTerminateIntent _ => Some (w, false)
  | PrRecordTerminateIntent _ => Some (w, Ok tt)
  | RootDefault => Some (w, Ok machine_root)
  | RootCheck _ _ _ => Some (w, Ok None)
  | RootContains _ _ => Some (w, Ok tt)
  | RecordRootRefusal _ _ _ _ _ | ClearRootRefusal _ => Some (w, tt)
  | DirectoryResponds _ | FsExists _ => Some (w, false)
  | FsReadToString _ => Some (w, Err not_found)
  | FsReadDir _ => Some (w, Ok [])
  | FsSymlinkMetadata _ => Some (w, Err not_found)
  | FsCreateDir _ | FsCreateDirAll _ | FsWrite _ _ | FsOpenTruncate _ | FsWriteAll _ _
  | FsSyncFile _ | FsSyncDir _ | FsRename _ _ | FsRemoveFile _ | FsRemoveDir _
  | FsRemoveDirAll _ => Some (w, Ok tt)
  | UnlinkReparsePoints _ => Some (w, tt)
  end.

Lemma on_journal_does {A} (m : store_method A) w w' r :
  on_journal m w = (w', r) → journal m r w w'.
Proof.
  unfold on_journal. destruct (m (w_db w)) as [d r'] eqn:E. intros [= <- <-].
  split; [done|]. split; [done|]. by left.
Qed.

Lemma machine_does e w w' x : machine e w = Some (w', x) → lifecycle_does NATIVE w e x w'.
Proof.
  assert (∀ w, quiet w w) as Hq by (intros; by split_and!).
  destruct e; simpl; intros H; simplify_eq; try done; try (by apply on_journal_does);
    try (by apply Hq).
  - split; [apply Hq|]. apply not_elem_of_dom, is_fresh.
  - split; [apply Hq|]. by left.
  - split; [apply Hq|]. destruct (policy NATIVE p (w_db w')); [by left|by right].
  - split; [apply Hq|]. unfold running. case_bool_decide; [|done].
    unfold not_running. by destruct (is_native _).
  - split; [apply Hq|]. unfold running. case_bool_decide; [|done].
    unfold not_running. by destruct (is_native _).
Qed.

Lemma machine_answers e w : e ≠ Panic → is_Some (machine e w).
Proof. destruct e; simpl; eauto; try done; intros _; by destruct (on_journal _ w). Qed.

Lemma machine_keeps_promises : keeps_promises (lifecycle_env NATIVE) id machine.
Proof.
  intros e w [_ Hmay]. destruct (machine_answers e w) as [[w' x] E]; [by intros ->|].
  exists w', x. split; [done|]. by apply machine_does.
Qed.
End Machine.

(** ** Examples *)

Definition example_lifecycle : LifecycleLauncher :=
  mk_launcher 1%N (lit "/srv/diag") 1 provisional (bounded 3 (seconds 1) (seconds 8)).

(** A new installation: one host, no attempts, and a daemon that has not recovered. *)
Definition example_installation : world :=
  mk_world (put_host example_machine empty_db).1 Memory_new ∅.

Lemma example_installation_accounted : accounted example_installation.
Proof. split; [by split|]. intros id. set_solver. Qed.

Lemma example_lifecycle_turns : in_u32 (max_attempts (lc_retry example_lifecycle)).
Proof. split; vm_compute; congruence. Qed.
