(* ===== verification/NativeMachine.v ===== *)
(** * A host for the native provider

    One concrete answer to every call of [Process]: processes that start with consecutive
    PIDs and run until they are killed, files that are always written, one interval of
    time per sleep. It keeps every promise of [NativeSafety], so the theorems there have
    something to speak of; a runner is started and found again on it; and it shows the one
    moment at which a daemon that dies loses a runner. *)

From stdpp Require Import strings.
From S2P Require Import Prelude RustStr Ordered Model Path Workspace Execution Host Attempt.
From S2P Require Import Labels Policy Capacity Recovery Store Github Backoff Report.
From S2P Require Import Effects Ports Slots RunnerEnv Process Lifecycle Native LifecycleEnv.
From S2P Require Import NativeSafety Machine.
#[local] Open Scope Z_scope.
#[local] Open Scope rust_scope.

(** ** The host *)

(** The processes by the directory they run in. The number of a process is its handle and
    its PID, and its digits are its start token. *)
Record host_world := mk_hworld {
  hw_native : NativeProcesses;
  hw_files : gmap PathBuf str;
  hw_processes : gmap PathBuf N;
  hw_clock : Timestamp;
}.
Definition process_of (n : N) : Runner :=
  mk_runner n (mk_identity (Z.of_N n) (show_uint (Z.of_N n))).
Definition view (w : host_world) : pworld :=
  mk_pworld (hw_native w) (hw_files w) ∅ (process_of <$> hw_processes w) (hw_clock w) ∅.

Definition with_files (f : gmap PathBuf str → gmap PathBuf str) (w : host_world) : host_world :=
  mk_hworld (hw_native w) (f (hw_files w)) (hw_processes w) (hw_clock w).
Definition with_processes (f : gmap PathBuf N → gmap PathBuf N) (w : host_world) : host_world :=
  mk_hworld (hw_native w) (hw_files w) (f (hw_processes w)) (hw_clock w).

(** The first number above 99 that no process has. *)
Definition next_number (w : host_world) : N :=
  map_fold (λ _ n next, N.max next (n + 1)) 100%N (hw_processes w).
Definition runs (n : N) (w : host_world) : bool :=
  bool_decide (filter (λ dn, dn.2 = n) (hw_processes w) ≠ ∅).
Definition ended (n : N) (w : host_world) : host_world :=
  with_processes (filter (λ dn, dn.2 ≠ n)) w.
Definition missing : IoError := mk_io IoNotFound (lit "not found").

Definition a_host (e : sys) (w : host_world) : option (host_world * sys_answer e) :=
  match e return option (host_world * sys_answer e) with
  | SysPanic => None
  | SysNow => Some (w, hw_clock w)
  | SysSleep d =>
      Some (mk_hworld (hw_native w) (hw_files w) (hw_processes w) (hw_clock w + Z.max 0 d), tt)
  | SysUuid => Some (w, 5%N)
  | SysStartToken pid _ =>
      Some (w, Ok (if runs (Z.to_N pid) w then Some (show_uint pid) else None))
  | SysRequestStop _ => Some (w, Ok true)
  | SysForceStop pid => Some (ended (Z.to_N pid) w, Ok tt)
  | SysSpawn s _ =>
      let n := next_number w in
      Some (match ss_working_dir s with
            | Some dir => with_processes (insert dir n) w
            | None => w
            end, Ok (n, Z.of_N n))
  | SysTryWait h => Some (w, Ok (if runs h w then None else Some true))
  | SysWait h => Some (ended h w, Ok true)
  | SysKill h => Some (ended h w, Ok tt)
  | SysCreateRestrictive p =>
      Some (match hw_files w !! p with
            | None => (with_files (insert p []) w, Ok tt)
            | Some _ => (w, Err (mk_io IoAlreadyExists (lit "file exists")))
            end)
  | SysWriteFile p t => Some (with_files (insert p t) w, Ok tt)
  | SysPersist p t => Some (with_files (insert p t) w, Ok tt)
  | SysRemoveFile p =>
      Some (match hw_files w !! p with
            | Some _ => (with_files (delete p) w, Ok tt)
            | None => (w, Err missing)
            end)
  | SysIsFile p => Some (w, bool_decide (is_Some (hw_files w !! p)))
  | SysExists _ => Some (w, true)
  | SysReadToString p => Some (w, match hw_files w !! p with Some t => Ok t | None => Err missing end)
  | SysCreateDirAll _ => Some (w, Ok tt)
  | SysEnvironment => Some (w, λ _, None)
  | NativeGet => Some (w, hw_native w)
  | NativePut n => Some (mk_hworld n (hw_files w) (hw_processes w) (hw_clock w), tt)
  | CachesConfig => Some (w, Ok tt)
  | CachesForLaunch _ _ _ => Some (w, [])
  | CachesCaptureGit _ => Some (w, tt)
  | DockerEnvironment _ _ _ => Some (w, Ok None)
  | DockerApplies => Some (w, false)
  | DockerRecord _ _ => Some (w, Ok tt)
  end.

(** ** It keeps the promises *)

Lemma ended_passes n w : passes (view w) (view (ended n w)).
Proof.
  split_and!; try done. simpl. apply map_fmap_mono, map_filter_subseteq.
Qed.

Lemma ended_gone n w : no_handle n (view (ended n w)).
Proof.
  intros d r. simpl. rewrite lookup_fmap_Some. intros (m & <- & Hm). simpl.
  by apply map_lookup_filter_Some in Hm as [_ ?].
Qed.

Lemma runs_spec n w : runs n w = false → no_handle n (view w).
Proof.
  unfold runs. rewrite bool_decide_eq_false. intros H%dec_stable d r. simpl.
  rewrite lookup_fmap_Some. intros (m & <- & Hm). simpl. intros ->.
  apply (f_equal (λ f, f !! d)) in H. rewrite lookup_empty, map_lookup_filter_None in H.
  destruct H as [H|H]; [congruence|by apply (H n)].
Qed.

Lemma a_host_promises e w w' x : a_host e w = Some (w', x) → does os_env (view w) e x (view w').
Proof.
  intros E. split; [|by destruct e; simplify_eq/=]. revert E.
  destruct e; cbn [a_host]; try (by intros [= <- <-]); cbn [sys_does].
  - intros [= <- <-]. split; [|simpl; lia]. split_and!; try done. simpl. lia.
  - intros [= <- <-]. split; [done|]. intros d y. simpl. rewrite lookup_fmap_Some.
    intros (n & <- & Hn) <-. simpl. rewrite N2Z.id. destruct (runs n w) eqn:E; [done|].
    exfalso. apply runs_spec in E. apply (E d (process_of n)); [|done]. simpl. by rewrite lookup_fmap, Hn.
  - intros [= <- <-]. apply ended_passes.
  - intros [= <- <-]. exists (show_uint (Z.of_N (next_number w))).
    destruct (ss_working_dir s) as [dir|]; [|done]. unfold view. cbn [with_processes hw_native hw_files hw_processes hw_clock].
    rewrite fmap_insert. reflexivity.
  - intros [= <- <-]. split; [done|]. destruct (runs handle w) eqn:E; [done|]. by apply runs_spec.
  - intros [= <- <-]. split; [apply ended_passes|apply ended_gone].
  - intros [= <- <-]. apply ended_passes.
  - destruct (hw_files w !! p) eqn:E; intros [= <- <-]; done.
  - destruct (hw_files w !! p) eqn:E; intros [= <- <-]; [done|]. by rewrite bool_decide_eq_true_2.
  - intros [= <- <-]. split; [done|]. intros H. apply eq_None_not_Some.
    by eapply bool_decide_eq_false.
  - intros [= <- <-]. split; [done|]. by destruct (hw_files w !! p) eqn:E.
Qed.

Lemma a_host_total e w : e ≠ SysPanic → is_Some (a_host e w).
Proof. by destruct e. Qed.

Lemma a_host_keeps : keeps_promises os_env view a_host.
Proof.
  intros e w Hm. destruct (a_host_total e w) as [[w' x] E]; [by intros ->|].
  exists w', x. split; [done|]. by apply a_host_promises.
Qed.

(** ** Reading identities back *)

(** A format with the laws asked of [serde_json]: the length of the token first. *)
Definition frame (i : ProcessIdentity) : option str :=
  if bool_decide (0 ≤ pi_pid i)
  then Some (N.of_nat (length (pi_start_token i)) :: Z.to_N (pi_pid i) :: pi_start_token i)
  else None.
Definition unframe (s : str) : option ProcessIdentity :=
  match s with
  | len :: pid :: token =>
      if bool_decide (N.of_nat (length token) = len) then Some (mk_identity (Z.of_N pid) token) else None
  | _ => None
  end.

#[global] Instance frame_laws : JsonLaws frame unframe.
Proof.
  split.
  - intros [pid token] t. unfold frame. cbn [pi_pid pi_start_token]. case_bool_decide; [|done].
    intros [= <-]. simpl. rewrite bool_decide_eq_true_2 by done. by rewrite Z2N.id.
  - intros [pid token] t u. unfold frame. cbn [pi_pid pi_start_token]. case_bool_decide; [|done].
    intros [= <-] [rest E] Hne. destruct u as [|len [|p u]]; [done|done|]. simpl in E.
    injection E as <- <- ->. simpl. rewrite bool_decide_eq_false_2; [done|].
    rewrite length_app. destruct rest as [|c rest]; [by rewrite app_nil_r in Hne|]. simpl. lia.
Qed.

(** ** A runner started and found again *)

Definition example_native : RunnerAttempt := example_starting.
Definition example_prepared : PreparedEnvironment := mk_prepared (a_id example_native) None None.
(** A host with the listener installed and nothing running. *)
Definition example_idle_host : host_world :=
  mk_hworld (mk_native ∅ ∅) {[ listener_program PUnix example_native := [] ]} ∅ 0.

#[local] Abbreviation start :=
  (native_start PUnix RpLinux frame None false None example_prepared example_native (lit "secret"))
  (only parsing).
#[local] Abbreviation inspect := (native_inspect PUnix unframe) (only parsing).

Lemma idle_host_clean : clean_slate PUnix example_native (view example_idle_host).
Proof. by vm_compute. Qed.

(** The runner is started under the first PID and its identity is on disk; a daemon that is
    then restarted, and knows only the files, sees it run. *)
Definition next_daemon (w : host_world) : host_world :=
  mk_hworld (mk_native ∅ ∅) (hw_files w) (hw_processes w) (hw_clock w).

Lemma next_daemon_view w : view (next_daemon w) = restart (view w).
Proof. done. Qed.

(** The start succeeds here, and the restarted daemon's observation is the one
    the theorem speaks of. *)
Lemma native_start_is_found_again_witness :
  clean_slate PUnix example_native (view example_idle_host) ∧
  ∃ w r, run_with a_host start example_idle_host = Some (w, r) ∧
    r = Ok (NativeProcess 100) ∧ hw_processes w !! runtime_path example_native = Some 100%N ∧
    run_with a_host (inspect example_native) (next_daemon w) = Some (next_daemon w, Ok EnvRunning) ∧
    sat os_env (inspect example_native) (view (next_daemon w)) (λ w'' s, s = Ok EnvMissing →
      ∀ x, pw_runners w'' !! runtime_path example_native = Some x → pi_pid (rn_identity x) ∈ pw_misread w'').
Proof.
  split; [exact idle_host_clean|].
  pose proof (native_start_is_found_again PUnix RpLinux frame unframe None false None
    example_prepared example_native (lit "secret") _ idle_host_clean) as H.
  apply (sat_run_with _ view a_host) in H as (w & r & Hrun & _ & _ & Hfound); [|exact a_host_keeps].
  exists w, r. split; [exact Hrun|]. vm_compute in Hrun. injection Hrun as Hw Hr.
  split; [by rewrite <- Hr|]. split; [by rewrite <- Hw|]. split; [by rewrite <- Hw; vm_compute|].
  apply (Hfound example_native (view (next_daemon w))); [done| |by rewrite <- Hr].
  rewrite next_daemon_view. by apply elem_of_cons; right; apply list_elem_of_singleton.
Defined.

(** The lifecycle's world of a host on which one runner runs. *)
Definition example_paths (id : AttemptId) : PathBuf :=
  if bool_decide (id = a_id example_native) then runtime_path example_native else [id].

Lemma example_paths_inj id :
  example_paths id = runtime_path example_native → id = a_id example_native.
Proof. unfold example_paths. case_bool_decide; [done|]. by intros. Qed.

(** The processes of the two worlds stay the same, and the answers of the provider are the
    ones promised to the lifecycle. *)
Lemma native_keeps_lifecycle_promises_witness :
  tracks example_paths (mk_site example_installation ∅) (view example_idle_host) ∧
  ∃ w r, run_with a_host start example_idle_host = Some (w, r) ∧ r = Ok (NativeProcess 100) ∧
    ∃ s', tracks example_paths s' (view w) ∧
      site_does PUnix (mk_site example_installation ∅)
        (PrStart example_prepared example_native (lit "secret")) r s' ∧
      a_id example_native ∈ w_live (s_world s').
Proof.
  assert (tracks example_paths (mk_site example_installation ∅) (view example_idle_host)) as Ht.
  { intros id. simpl. split; [set_solver|]. rewrite lookup_fmap, lookup_empty. by intros [? ?]. }
  split; [exact Ht|].
  destruct (native_keeps_lifecycle_promises PUnix RpLinux frame unframe None false None
    example_paths (mk_site example_installation ∅) (view example_idle_host) example_native example_prepared
    (lit "secret") Ht eq_refl example_paths_inj eq_refl) as (Hstart & _ & _).
  specialize (Hstart idle_host_clean).
  apply (sat_run_with _ view a_host) in Hstart as (w & r & Hrun & lw' & Ht' & Hd); [|exact a_host_keeps].
  exists w, r. split; [exact Hrun|]. vm_compute in Hrun. injection Hrun as Hw Hr.
  split; [by rewrite <- Hr|]. exists lw'. split; [done|]. split; [done|].
  apply Ht'. rewrite <- Hw. vm_compute. by eexists.
Defined.

(** ** The moment at which a runner can be lost *)

(** Between the spawn and the identity on disk nothing but the daemon's memory knows of
    the process: a daemon that dies there leaves a runner that its successor reports
    missing. *)
Theorem crash_before_record_loses_runner :
  ∃ rest w, partly_run os_env start (view example_idle_host) rest (view w) ∧
    run_with a_host (inspect example_native) (next_daemon w) = Some (next_daemon w, Ok EnvMissing) ∧
    hw_processes w !! runtime_path example_native = Some 100%N.
Proof.
  destruct (run_for 9 a_host start example_idle_host) as [[rest w]|] eqn:E; [|by vm_compute in E].
  exists rest, w. split; [apply (run_for_partly _ _ a_host 9); [exact a_host_promises|exact E]|].
  assert (Some w = snd <$> run_for 9 a_host start example_idle_host) as Hw by by rewrite E.
  vm_compute in Hw. injection Hw as ->. clear E. split; vm_compute; reflexivity.
Qed.
