(* ===== verification/Retries.v ===== *)
(** * Bounded retries

    A launch fetches the package, registers and starts within the turns of its retry
    policy, and never leaves a loop for want of fuel, whatever the ports answer. *)

From stdpp Require Import strings.
From S2P Require Import Prelude RustStr Ordered Model Path Workspace Execution Host Attempt.
From S2P Require Import Labels Policy Capacity Recovery Store Github Backoff Report.
From S2P Require Import Effects Ports Slots Lifecycle Supervise Launch LifecycleEnv.
From S2P Require Import LaunchSafety Machine.
#[local] Open Scope Z_scope.
#[local] Open Scope rust_scope.

(** The calls that are retried. *)
Inductive retried := RMaterialize | RRegister | RStart.
#[global] Instance retried_eq_dec : EqDecision retried.
Proof. solve_decision. Defined.

Definition retried_by (e : effect) : option retried :=
  match e with
  | PkMaterialize _ => Some RMaterialize
  | GhRegister _ _ => Some RRegister
  | PrStart _ _ _ => Some RStart
  | _ => None
  end.
Definition is_retried (r : retried) (e : effect) : bool := bool_decide (retried_by e = Some r).

(** Everything else a launch does, without a panic. *)
Definition other (e : effect) : Prop := retried_by e = None ∧ e ≠ Panic.

Section Retries.
Context (NATIVE : PathPlatform) (self : LifecycleLauncher).

Create HintDb other discriminated.
Ltac others := repeat first [solve [auto with other] | port_step ltac:(by split)].

Lemma other_retry_wait p id o d : within other (retry_wait p id o d).
Proof. unfold retry_wait. others. Qed.
Lemma other_transition edge a : within other (transition edge a).
Proof. unfold transition, take_edge, record. others. Qed.
Lemma other_root_refused {A} p root e : within other (@root_refused A p root e).
Proof. unfold root_refused. others. Qed.
#[local] Hint Resolve other_retry_wait other_transition other_root_refused : other.
Lemma other_or_root_refused {A} p root (m : prog (result A RootError)) :
  within other m → within other (or_root_refused p root m).
Proof. intros Hm. unfold or_root_refused. apply within_bind; [done|]. intros r. others. Qed.
Lemma other_fail_launch {A} a reason : within other (@fail_launch A a reason).
Proof. unfold fail_launch, conclude_attempt. others. Qed.
Lemma other_write_runner_id p id : within other (write_runner_id NATIVE p id).
Proof. unfold write_runner_id, read_runner_id, write_durable_file, journal_if. others. Qed.
#[local] Hint Resolve other_fail_launch other_write_runner_id : other.

Lemma other_allocate_attempt p : within other (allocate_attempt NATIVE self p).
Proof.
  unfold allocate_attempt, check_resolution, resolution_mismatch, allocate_workspace,
    allocate_persistent_slot, allocate_disposable, effective_host_root, resolvable_host_root,
    configured_host_root, create_or_validate_slot, accept_reusable_slot, accept_entry,
    record_allocation, take_edge.
  repeat (others; try apply other_or_root_refused).
Qed.

(** At most [f r] calls of each kind on every branch, and no panic. *)
Definition bounded_calls {A} (f : retried → nat) (m : prog A) : Prop :=
  (∀ r, at_most (is_retried r) (f r) m) ∧ within (λ e, e ≠ Panic) m.

Definition none : retried → nat := λ _, 0%nat.
(** [n] calls of one kind. *)
Definition only (k : retried) (n : nat) : retried → nat := λ r, if decide (r = k) then n else 0%nat.

Lemma other_bounded {A} f (m : prog A) : within other m → bounded_calls f m.
Proof.
  intros Hm. split.
  - intros r. apply (at_most_mono _ 0); [lia|]. eapply within_at_most; [|exact Hm].
    intros e [He _]. unfold is_retried. by rewrite He.
  - eapply within_mono; [|exact Hm]. by intros e [_ ?].
Qed.

Lemma bounded_bind {A B} f g h (m : prog A) (k : A → prog B) :
  bounded_calls f m → (∀ a, bounded_calls g (k a)) → (∀ r, (f r + g r ≤ h r)%nat) →
  bounded_calls h (m ≫= k).
Proof.
  intros [Hm Hp] Hk Hle. split.
  - intros r. eapply at_most_mono; [apply Hle|]. apply at_most_bind; [done|]. intros a. apply Hk.
  - apply within_bind; [done|]. intros a. apply Hk.
Qed.

Lemma bounded_bind_ok {A B F} f g h (m : prog (result A F)) (k : A → prog (result B F)) :
  bounded_calls f m → (∀ a, bounded_calls g (k a)) → (∀ r, (f r + g r ≤ h r)%nat) →
  bounded_calls h (bind_ok m k).
Proof. intros Hm Hk. apply bounded_bind; [done|]. intros [a|e]; [done|]. by apply other_bounded. Qed.

Lemma bounded_call k n (e : effect) :
  retried_by e = Some k → bounded_calls (only k (S n)) (call e).
Proof.
  intros He. split.
  - intros r. simpl. unfold is_retried. rewrite He. case_bool_decide as E; [|done].
    simplify_eq. unfold only. by rewrite decide_True.
  - split; [|done]. by intros ->.
Qed.

(** A call of a loop, and the rest of its turns. *)
Lemma bounded_turn {B} k n (e : effect) (c : answer e → prog B) :
  retried_by e = Some k → (∀ x, bounded_calls (only k n) (c x)) →
  bounded_calls (only k (S n)) (call e ≫= c).
Proof.
  intros He Hc. eapply bounded_bind; [by apply (bounded_call k 0)|exact Hc|].
  intros r. unfold only. destruct (decide _); lia.
Qed.

Lemma bounded_other_bind {A B} f (m : prog A) (k : A → prog B) :
  within other m → (∀ a, bounded_calls f (k a)) → bounded_calls f (m ≫= k).
Proof. intros Hm Hk. eapply (bounded_bind none); [by apply other_bounded|done|]. intros r. simpl. lia. Qed.

Lemma bounded_other_bind_ok {A B F} f (m : prog (result A F)) (k : A → prog (result B F)) :
  within other m → (∀ a, bounded_calls f (k a)) → bounded_calls f (bind_ok m k).
Proof. intros Hm Hk. apply bounded_other_bind; [done|]. intros [a|e]; [done|]. by apply other_bounded. Qed.

Ltac given_up := solve [apply other_bounded; others].

Context (turns_u32 : in_u32 (max_attempts (lc_retry self))).

Lemma materialize_loop_bounded fuel issued p a :
  turns_left self fuel issued →
  bounded_calls (only RMaterialize fuel) (materialize_loop self fuel issued p a).
Proof.
  revert issued. induction fuel as [|fuel IH]; intros issued Ht.
  { by destruct (turns_positive self _ _ Ht). }
  pose proof (turns_next self turns_u32 _ _ Ht) as Hnext. apply bounded_turn; [done|].
  intros [version|reason]; [given_up|].
  destruct (_ || bool_decide _) eqn:Hstop; [given_up|].
  apply orb_false_iff in Hstop as [_ Hstop]. breflect. destruct Hnext as [?|Hnext]; [lia|].
  apply bounded_other_bind; [others|]. intros []; cbn [negb]; [|given_up].
  apply bounded_other_bind; [others|]. intros []; cbn [negb]; [|given_up]. by apply IH.
Qed.

Lemma register_loop_bounded fuel issued p id request :
  turns_left self fuel issued →
  bounded_calls (only RRegister fuel) (register_loop self fuel issued p id request).
Proof.
  revert issued. induction fuel as [|fuel IH]; intros issued Ht.
  { by destruct (turns_positive self _ _ Ht). }
  pose proof (turns_next self turns_u32 _ _ Ht) as Hnext. apply bounded_turn; [done|].
  intros [registration|error]; [given_up|].
  destruct (jf_terminal error); [given_up|]. case_bool_decide; [given_up|].
  destruct Hnext as [?|Hnext]; [lia|].
  apply bounded_other_bind; [others|]. intros []; cbn [negb]; [|given_up].
  apply bounded_other_bind; [others|]. intros []; cbn [negb]; [|given_up]. by apply IH.
Qed.

Lemma start_native_bounded fuel issued p prepared a config :
  turns_left self fuel issued →
  bounded_calls (only RStart fuel) (start_native self fuel issued p prepared a config).
Proof.
  revert issued. induction fuel as [|fuel IH]; intros issued Ht.
  { by destruct (turns_positive self _ _ Ht). }
  pose proof (turns_next self turns_u32 _ _ Ht) as Hnext. apply bounded_turn; [done|].
  intros [[pid|]|error]; [given_up|given_up|].
  destruct (sf_live_pid error) as [pid|]; [given_up|].
  destruct (_ || bool_decide _) eqn:Hstop; [given_up|].
  apply orb_false_iff in Hstop as [_ Hstop]. breflect. destruct Hnext as [?|Hnext]; [lia|].
  apply bounded_other_bind; [others|]. intros []; cbn [negb]; [|given_up].
  apply bounded_other_bind; [others|]. intros []; cbn [negb]; [|given_up]. by apply IH.
Qed.

(** One start of a container. *)
Lemma start_isolated_bounded prepared a config :
  bounded_calls (only RStart 1) (start_isolated self prepared a config).
Proof.
  eapply (bounded_bind_ok (only RStart 1) none); [|intros; unfold ownership_mismatch; given_up|].
  - eapply (bounded_bind (only RStart 1) none); [by apply (bounded_call RStart 0)|intros; given_up|].
    intros r. unfold none. lia.
  - intros r. unfold none. lia.
Qed.

Lemma register_and_start_bounded p labels prepared a :
  bounded_calls (λ r, (only RRegister (turns self) r + only RStart (turns self) r)%nat)
    (register_and_start NATIVE self p labels prepared a).
Proof.
  eapply bounded_bind; [apply register_loop_bounded, turns_start; done| |intros r; reflexivity].
  intros [registration|error]; [|given_up].
  apply bounded_other_bind_ok; [others|]. intros _.
  apply bounded_other_bind_ok; [others|]. intros a'.
  destruct (negb _).
  - destruct (start_isolated_bounded prepared a' (rg_config registration)) as [H1 H2].
    split; [|done]. intros r. eapply at_most_mono, H1. unfold only, turns, max_turns.
    destruct (decide _); lia.
  - by apply start_native_bounded, turns_start.
Qed.

Lemma journal_prepared_other prepared a : within other (journal_prepared self prepared a).
Proof.
  unfold journal_prepared, ownership_mismatch, take_edge.
  destruct (pe_identity prepared) as [i|]; [|others]. destruct (negb _) eqn:Hm; [others|].
  destruct i; [|others]. unfold identity_matches_intent, identity_same_allocation in Hm.
  by destruct (execution a).
Qed.

Lemma launch_attempt_bounded p :
  bounded_calls (λ _, turns self) (launch_attempt NATIVE self p).
Proof.
  apply bounded_other_bind_ok; [apply other_allocate_attempt|].
  intros [a labels].
  eapply (bounded_bind (λ _, turns self) none); [|intros; given_up|intros r; unfold none; lia].
  eapply (bounded_bind (only RMaterialize (turns self))
            (λ r, (only RRegister (turns self) r + only RStart (turns self) r)%nat)).
  - by apply materialize_loop_bounded, turns_start.
  - intros [version|reason]; [|given_up].
    apply bounded_other_bind_ok; [unfold prune_under_allocation_lock; others|]. intros _. apply bounded_other_bind; [unfold modify_memory; others|]. intros _.
    apply bounded_other_bind_ok; [others|]. intros a'.
    apply bounded_other_bind; [others|]. intros [prepared|reason]; [|given_up].
    apply bounded_other_bind_ok.
    + destruct (negb _); [apply journal_prepared_other|done].
    + intros a2. apply register_and_start_bounded.
  - intros r. unfold only. by destruct r; repeat case_decide; simplify_eq; lia.
Qed.

(** ** Theorems *)

(** A launch ends. Whatever the ports answer, and however often they fail, one launch
    fetches its package, requests its registration and starts its process at most as
    often as the retry policy allows (at least once), and no loop runs out of turns before
    it has decided. *)
Theorem launch_retries_bounded p :
  (∀ r, at_most (is_retried r) (turns self) (launch_attempt NATIVE self p)) ∧
  within (λ e, e ≠ Panic) (launch_attempt NATIVE self p).
Proof. apply launch_attempt_bounded. Qed.
End Retries.

Lemma launch_retries_bounded_witness :
  (∀ r, at_most (is_retried r) 3 (launch_attempt PUnix example_lifecycle example_active)) ∧
  within (λ e, e ≠ Panic) (launch_attempt PUnix example_lifecycle example_active).
Proof.
  exact (launch_retries_bounded PUnix example_lifecycle example_lifecycle_turns example_active).
Defined.
