(* ===== verification/RecoveryGate.v ===== *)
(** * Nothing is launched before the journal is recovered

    [recovery_complete] is written by [recover_startup] alone: every other program of the
    launcher puts back the flag it read. *)

From stdpp Require Import strings.
From S2P Require Import Prelude RustStr Ordered Model Path Workspace Execution Host Attempt.
From S2P Require Import Labels Policy Capacity Recovery Store Github Backoff Report.
From S2P Require Import Effects Ports Slots Lifecycle Supervise Launch LifecycleEnv.
From S2P Require Import LifecycleSafety SuperviseSafety LaunchSafety Machine.
#[local] Open Scope Z_scope.
#[local] Open Scope rust_scope.

(** The memory read has the flag [b], and so has the memory written. *)
Definition flag_may (b : bool) (_ : unit) (e : effect) : Prop :=
  match e with MemPut m => recovery_complete m = b | _ => True end.
Definition flag_does (b : bool) (_ : unit) (e : effect) : answer e → unit → Prop :=
  match e return answer e → unit → Prop with
  | MemGet => λ m _, recovery_complete m = b
  | _ => λ _ _, True
  end.
Definition flag_env (b : bool) : env answer unit := mk_env (flag_may b) (flag_does b).

(** A program that keeps the flag. *)
Definition steady {A} (m : prog A) : Prop := ∀ b, sat (flag_env b) m tt (λ _ _, True).

Lemma steady_ret {A} (x : A) : steady (Ret x).
Proof. by intros b. Qed.
Lemma steady_bind {A B} (m : prog A) (k : A → prog B) :
  steady m → (∀ a, steady (k a)) → steady (m ≫= k).
Proof. intros Hm Hk b. apply sat_bind. eapply sat_mono; [apply Hm|]. intros [] a _. apply Hk. Qed.
Lemma steady_bind_ok {A B F} (m : prog (result A F)) (k : A → prog (result B F)) :
  steady m → (∀ a, steady (k a)) → steady (bind_ok m k).
Proof. intros Hm Hk. apply steady_bind; [done|]. intros [a|e]; [done|]. apply steady_ret. Qed.
Lemma steady_map_err {A F G} (f : F → G) (m : prog (result A F)) :
  steady m → steady (op_map_err f m).
Proof. intros Hm. apply steady_bind; [done|]. intros r. apply steady_ret. Qed.
Lemma steady_for_each {A B F} (l : list A) (body : A → B → prog (result B F)) b :
  (∀ x b, steady (body x b)) → steady (for_each_ok l body b).
Proof.
  intros Hbody. revert b. induction l as [|x l IH]; intros b; [apply steady_ret|].
  apply steady_bind_ok; auto.
Qed.

Definition puts_memory (e : effect) : bool := match e with MemPut _ => true | _ => false end.
Lemma steady_op e : puts_memory e = false → steady (call e).
Proof. intros He b. apply sat_op; [by destruct e|]. done. Qed.

Lemma steady_modify f :
  (∀ m, recovery_complete (f m) = recovery_complete m) → steady (modify_memory f).
Proof.
  intros Hf b. apply sat_op_bind; [done|]. intros m [] Hm. apply sat_op; [|done]. simpl.
  by rewrite Hf.
Qed.

Create HintDb steady discriminated.
Ltac steady_step :=
  first
    [ solve [auto with steady]
    | apply steady_map_err
    | match goal with
      | |- steady (bind_ok _ _) => apply steady_bind_ok
      | |- steady (op _) => apply steady_op; reflexivity
      | |- steady (_ ≫= _) => apply steady_bind
      | |- steady (for_each_ok _ _ _) => apply steady_for_each
      | |- steady (lret _) => apply steady_ret
      | |- steady (lfail _) => apply steady_ret
      | |- steady (refuse _ _) => apply steady_ret
      | |- steady (mret _) => apply steady_ret
      | |- steady (Ret _) => apply steady_ret
      | |- steady panic => intros ?; by split
      | |- steady (if ?b then _ else _) => destruct b
      | |- steady (match ?x with _ => _ end) => destruct x
      | |- ∀ _, _ => intros ?
      end ].
Ltac steady := repeat steady_step.

Section Steady.
Context (NATIVE : PathPlatform) (self : LifecycleLauncher).

Lemma steady_modify_retries f : steady (modify_retries f).
Proof. by apply steady_modify. Qed.
Lemma steady_set_pending l : steady (set_pending l).
Proof. by apply steady_modify. Qed.
Lemma steady_retry_is_due id now : steady (retry_is_due id now).
Proof. unfold retry_is_due. steady. Qed.
Lemma steady_read_runner_id p : steady (read_runner_id NATIVE p).
Proof. unfold read_runner_id. steady. Qed.
#[local] Hint Resolve steady_modify_retries steady_set_pending steady_retry_is_due
  steady_read_runner_id : steady.
Lemma steady_transition edge a : steady (transition edge a).
Proof. unfold transition, take_edge, record. steady. Qed.
Lemma steady_write_runner_id p id : steady (write_runner_id NATIVE p id).
Proof. unfold write_runner_id, write_durable_file, journal_if. steady. Qed.
Lemma steady_deregister_runner p a : steady (deregister_runner NATIVE p a).
Proof. unfold deregister_runner. steady. Qed.
Lemma steady_known_runner_id a o : steady (known_runner_id NATIVE a o).
Proof. unfold known_runner_id. steady. Qed.
Lemma steady_scrub_slot p n c : steady (scrub_slot NATIVE p n c).
Proof.
  unfold scrub_slot, verify_journalled_slot, slot_is_present, scrub_slot_entries, scrub_entry,
    listed_entry_metadata, remove_slot_entry, remove_runtime_tree, verify_slot_scrubbed,
    verify_entry, listed_entry_metadata, stat_sensitive. steady.
Qed.
#[local] Hint Resolve steady_transition steady_write_runner_id steady_deregister_runner
  steady_known_runner_id steady_scrub_slot : steady.
Lemma steady_scrub_workspace a : steady (scrub_workspace NATIVE a).
Proof. unfold scrub_workspace, scrub_persistent_slot, remove_runtime_tree. steady. Qed.
#[local] Hint Resolve steady_scrub_workspace : steady.
Lemma steady_finish_cleaning edge o a : steady (finish_cleaning NATIVE self edge o a).
Proof. unfold finish_cleaning, preserve_diagnostics. steady. Qed.
Lemma steady_defer {A} a : steady (@defer_environment_cleanup A a).
Proof. unfold defer_environment_cleanup. steady. Qed.
#[local] Hint Resolve steady_finish_cleaning steady_defer : steady.
Lemma steady_clean_attempt a : steady (clean_attempt NATIVE self a).
Proof.
  unfold clean_attempt, clean_isolated_attempt, destroy_environment, quarantine_resource. steady.
Qed.
#[local] Hint Resolve steady_clean_attempt : steady.
Lemma steady_clean_or_quarantine a : steady (clean_or_quarantine NATIVE self a).
Proof. unfold clean_or_quarantine. steady. Qed.
#[local] Hint Resolve steady_clean_or_quarantine : steady.
Lemma steady_conclude_attempt o a : steady (conclude_attempt o a).
Proof. unfold conclude_attempt. steady. Qed.
#[local] Hint Resolve steady_conclude_attempt : steady.
Lemma steady_conclude_and_clean o a : steady (conclude_and_clean NATIVE self o a).
Proof. unfold conclude_and_clean. steady. Qed.
#[local] Hint Resolve steady_conclude_and_clean : steady.

Lemma steady_reconcile_cleaned a : steady (reconcile_cleaned NATIVE a).
Proof. unfold reconcile_cleaned. steady. Qed.
Lemma steady_recover_runner_id o a report : steady (recover_runner_id NATIVE o a report).
Proof. unfold recover_runner_id. steady. Qed.
Lemma steady_decide alive g a : steady (decide_recovery self alive g a).
Proof. unfold decide_recovery. steady. Qed.
#[local] Hint Resolve steady_reconcile_cleaned steady_recover_runner_id steady_decide : steady.
Lemma steady_apply_decision p g d a : steady (apply_decision NATIVE self p g d a).
Proof. unfold apply_decision, observe_state, terminate_attempt. steady. Qed.
Lemma steady_apply_isolated_decision p g d a :
  steady (apply_isolated_decision NATIVE self p g d a).
Proof. unfold apply_isolated_decision, observe_isolated. steady. Qed.
#[local] Hint Resolve steady_apply_decision steady_apply_isolated_decision : steady.
Lemma steady_settle p alive g a : steady (settle NATIVE self p alive g a).
Proof. unfold settle, assignment_declined, JobEvidence_of. steady. Qed.
Lemma steady_conclude_completed p g walk o a : steady (conclude_completed NATIVE self p g walk o a).
Proof. unfold conclude_completed. steady. Qed.
Lemma steady_ended_well alive g a : steady (ended_well NATIVE alive g a).
Proof. unfold ended_well, completed_outcome, JobEvidence_of. steady. Qed.
Lemma steady_reconcile_isolated_one p a : steady (reconcile_isolated_one NATIVE self p a).
Proof. unfold reconcile_isolated_one, recover_owned, settle_isolated. steady. Qed.
#[local] Hint Resolve steady_settle steady_conclude_completed steady_ended_well
  steady_reconcile_isolated_one : steady.
Lemma steady_reconcile_one p a : steady (reconcile_one NATIVE self p a).
Proof. unfold reconcile_one, adopt_spawned. steady. Qed.
#[local] Hint Resolve steady_reconcile_one : steady.
Lemma steady_supervise p : steady (supervise NATIVE self p).
Proof. unfold supervise, supervise_one. steady. Qed.
Lemma steady_recover_one policies owned a b : steady (recover_one NATIVE self policies owned a b).
Proof. unfold recover_one, adopt_resource, take_edge, record. steady. Qed.
Lemma steady_loops fuel :
  (∀ issued p a, steady (materialize_loop self fuel issued p a)) ∧
  (∀ issued p id request, steady (register_loop self fuel issued p id request)) ∧
  (∀ issued p prepared a config, steady (start_native self fuel issued p prepared a config)).
Proof.
  induction fuel as [|fuel (IH1 & IH2 & IH3)]; [by split_and!; intros; cbn; steady|].
  split_and!; intros; cbn [materialize_loop register_loop start_native];
    unfold retry_wait, fail_launch; steady; auto.
Qed.

Lemma steady_or_root_refused {A} p root (m : prog (result A RootError)) :
  steady m → steady (or_root_refused p root m).
Proof. intros Hm. unfold or_root_refused, root_refused. apply steady_bind; [done|]. steady. Qed.

Lemma steady_allocate_attempt p : steady (allocate_attempt NATIVE self p).
Proof.
  unfold allocate_attempt, check_resolution, resolution_mismatch, allocate_workspace,
    allocate_persistent_slot, allocate_disposable, effective_host_root, resolvable_host_root,
    configured_host_root, create_or_validate_slot, accept_reusable_slot, accept_entry,
    record_allocation, take_edge.
  repeat (steady; try apply steady_or_root_refused).
Qed.

Lemma steady_launch_attempt p : steady (launch_attempt NATIVE self p).
Proof.
  destruct (steady_loops (turns self)) as (H1 & H2 & H3).
  unfold launch_attempt, launch_steps, prepare_and_start, register_and_start, journal_prepared,
    start_isolated, ownership_mismatch, fail_launch, prune_under_allocation_lock, take_edge,
    materialize_with_retry, register_with_retry.
  repeat (steady; try first [apply steady_allocate_attempt | apply H1 | apply H2 | apply H3
                            | by apply steady_modify]).
Qed.

(** ** The flag in the launcher's memory *)

#[local] Abbreviation V := (lifecycle_env NATIVE).

Lemma flag_kept (w : world) e x w' :
  flag_may (recovery_complete (w_mem w)) tt e → lifecycle_does NATIVE w e x w' →
  flag_does (recovery_complete (w_mem w)) tt e x tt ∧
  recovery_complete (w_mem w') = recovery_complete (w_mem w).
Proof.
  destruct e; simpl; intros Hm Hd; try done; unfold journal, quiet in Hd;
    try (by destruct Hd as (-> & _)); try (by destruct Hd as (_ & -> & _));
    try (by destruct Hd as ((_ & -> & _) & _)).
  destruct Hd as (-> & _ & -> & _). done.
Qed.

Lemma steady_sat {A} (m : prog A) w (Q : world → A → Prop) :
  steady m → sat V m w Q →
  sat V m w (λ w' r, Q w' r ∧ recovery_complete (w_mem w') = recovery_complete (w_mem w)).
Proof.
  intros Hm. specialize (Hm (recovery_complete (w_mem w))). remember (recovery_complete (w_mem w)) as b eqn:Hb.
  revert w Hb Hm. induction m as [a|e k IH]; intros w Hb Hm; [done|].
  intros [Hmay Hk]. destruct Hm as [Hf Hm]. split; [done|]. intros x w' Hd. subst b.
  destruct (flag_kept w e x w' Hf Hd) as [Hx Hw']. apply IH; [done| |by apply Hk].
  by apply (Hm x tt).
Qed.

Lemma set_recovery_complete_sat b w :
  accounted w →
  sat V (set_recovery_complete b) w (λ w' _,
    accounted w' ∧ still w w' ∧ recovery_complete (w_mem w') = b).
Proof.
  intros Hw. apply sat_op_bind; [by split|]. intros m w1 [-> Hq%quiet_still].
  apply sat_op; [split; [by eapply accounted_still|done]|]. intros _ w2 (Hm & Hdb & Hl).
  assert (still w1 w2) by (split; [unfold rows; by rewrite Hdb|done]).
  assert (still w w2) by by etransitivity.
  split_and!; [by eapply accounted_still|done|by rewrite Hm].
Qed.

Lemma recover_startup_flag policies w :
  accounted w →
  sat V (recover_startup NATIVE self policies) w
    (λ w' r, recovery_complete (w_mem w') = is_ok r).
Proof.
  intros Hw. apply sat_bind. eapply sat_mono; [by apply set_recovery_complete_sat|].
  intros w1 _ (Hw1 & _ & Hf1).
  apply sat_bind_ok. eapply sat_mono.
  { apply steady_sat; [|by apply recover_attempts_sat].
    unfold recover_attempts, surface_unowned. repeat (steady; try apply steady_recover_one). }
  intros w2 r [[Hw2 _] Hf2]. rewrite Hf1 in Hf2. destruct r as [[]|e]; [done| |done].
  apply sat_bind. eapply sat_mono; [by apply set_recovery_complete_sat|].
  intros w3 _ (Hw3 & _ & Hf3). apply sat_op_bind; [by split|]. intros m w4 [_ (_ & E & _)].
  apply sat_ret. by rewrite E.
Qed.

(** ** Theorems *)

(** C29: the gate. A startup recovery leaves the launcher open exactly when it reports
    success; polls, cleanups and launches leave the gate as it is; and while it is closed
    (as after every restart) a launch is refused with [RecoveryIncomplete] before it
    allocates, journals or starts anything. *)
Theorem recovery_gates_launches policies p id w :
  accounted w → in_u32 (max_attempts (lc_retry self)) →
  sat V (recover_startup NATIVE self policies) w
    (λ w' r, recovery_complete (w_mem w') = is_ok r) ∧
  sat V (supervise NATIVE self p) w
    (λ w' _, recovery_complete (w_mem w') = recovery_complete (w_mem w)) ∧
  sat V (launcher_clean NATIVE self id) w
    (λ w' _, recovery_complete (w_mem w') = recovery_complete (w_mem w)) ∧
  sat V (launch_attempt NATIVE self p) w
    (λ w' r, recovery_complete (w_mem w') = recovery_complete (w_mem w) ∧
      (recovery_complete (w_mem w) = false → r = Err LRecoveryIncomplete ∧ still w w')).
Proof.
  intros Hw Hu. split_and!.
  - by apply recover_startup_flag.
  - eapply sat_mono; [apply steady_sat; [apply steady_supervise|by apply supervise_sat]|].
    by intros w' r [_ ?].
  - eapply sat_mono; [apply steady_sat; [|by apply launcher_clean_sat]|].
    + unfold launcher_clean, as_launch_failure. steady.
    + by intros w' r [_ ?].
  - destruct (recovery_complete (w_mem w)) eqn:Hf.
    + eapply sat_mono; [apply steady_sat; [apply steady_launch_attempt|by apply launch_attempt_sat]|].
      intros w' r [_ E]. by rewrite E.
    + apply sat_bind_ok, sat_op_bind; [by split|]. intros m w1 [-> Hq]. rewrite Hf. cbn [negb].
      apply sat_ret. pose proof Hq as (_ & E & _). rewrite E.
      split_and!; [done|]. intros _. split; [done|by apply quiet_still].
Qed.
End Steady.

(** A restarted daemon: its first launch is refused. *)
Lemma recovery_gates_launches_witness :
  sat (lifecycle_env PUnix) (launch_attempt PUnix example_lifecycle example_active)
    example_installation (λ w' r, r = Err LRecoveryIncomplete ∧ still example_installation w') ∧
  sat (lifecycle_env PUnix) (recover_startup PUnix example_lifecycle [example_active])
    example_installation (λ w' r, recovery_complete (w_mem w') = is_ok r).
Proof.
  destruct (recovery_gates_launches PUnix example_lifecycle [example_active] example_active 1%N
    example_installation example_installation_accounted example_lifecycle_turns)
    as (Hr & _ & _ & Hl).
  split; [|exact Hr]. eapply sat_mono; [exact Hl|]. intros w' r [_ H]. apply H. reflexivity.
Defined.
