(* ===== verification/Daemon.v ===== *)
(** * Histories of the daemon

    The calls the daemon makes on the launcher, one after another, each of them complete or
    cut short by the process dying between two effects, with restarts in between. Whatever
    the history, the demands of [LifecycleEnv] are met. In the histories of a
    [site] a provider may deny a process that runs, and the daemon may die in the middle
    of a start. *)

From stdpp Require Import strings.
From S2P Require Import Prelude RustStr Ordered Model Path Workspace Execution Host Attempt.
From S2P Require Import Labels Policy Capacity Recovery Store Github Backoff Report.
From S2P Require Import Effects Ports Slots Lifecycle Supervise Launch LifecycleEnv.
From S2P Require Import LifecycleSafety SuperviseSafety LaunchSafety Machine.
#[local] Open Scope Z_scope.
#[local] Open Scope rust_scope.

(** The launcher's entry points. *)
Inductive launcher_call :=
  | CallRecover (policies : list ScalePolicy)
  | CallSupervise (p : ScalePolicy)
  | CallAttempts
  | CallHostCapacity (h : Host)
  | CallLaunch (p : ScalePolicy)
  | CallClean (id : AttemptId).

Section Daemon.
Context (NATIVE : PathPlatform) (self : LifecycleLauncher).
#[local] Abbreviation V := (lifecycle_env NATIVE).
#[local] Abbreviation site_env := (LifecycleEnv.site_env NATIVE).

Definition answered (c : launcher_call) : Type :=
  match c with
  | CallRecover _ => result (list ReplacementIntent) LifecycleError
  | CallSupervise _ => result (list ReplacementIntent) LaunchFailure
  | CallAttempts => result (list RunnerAttempt) LaunchFailure
  | CallHostCapacity _ => result Z HostCapacityError
  | CallLaunch _ => result RunnerAttempt LaunchFailure
  | CallClean _ => result unit LaunchFailure
  end.

Definition program_of (c : launcher_call) : prog (answered c) :=
  match c with
  | CallRecover policies => recover_startup NATIVE self policies
  | CallSupervise p => launcher_supervise NATIVE self p
  | CallAttempts => launcher_attempts
  | CallHostCapacity h => launcher_host_capacity h
  | CallLaunch p => launcher_launch NATIVE self p
  | CallClean id => launcher_clean NATIVE self id
  end.

(** From an empty machine where no running process is denied: calls, whole or cut short, and restarts, which lose the memory
    and keep the journal and whatever still runs. *)
Inductive history : world → Prop :=
  | history_start w : journal_ok (w_db w) → w_live w = ∅ → history w
  | history_call w c rest w' :
      history w → partly_run V (program_of c) w rest w' → history w'
  | history_restart w w' :
      history w → w_db w' = w_db w → w_mem w' = Memory_new → w_live w' ⊆ w_live w → history w'.

(** Histories of a site: as before, and the daemon may also die while a provider starts a
    process, which then runs or does not. *)
Inductive site_history : site → Prop :=
  | site_start w : journal_ok (w_db w) → w_live w = ∅ → site_history (mk_site w ∅)
  | site_call s c rest s' :
      site_history s → partly_run site_env (program_of c) s rest s' → site_history s'
  | site_dies_starting s c prepared a config k s' w :
      site_history s → partly_run site_env (program_of c) s (Op (PrStart prepared a config) k) s' →
      w_db w = w_db (s_world s') → w_live w ⊆ w_live (s_world s') ∪ {[ a_id a ]} →
      site_history (mk_site w (s_denied s'))
  | site_restart s w :
      site_history s → w_db w = w_db (s_world s) → w_live w ⊆ w_live (s_world s) →
      site_history (mk_site w (s_denied s)).

(** A history without denials is one of a site. *)
Lemma truthful_history w : history w → site_history (mk_site w ∅).
Proof.
  induction 1 as [w Hj Hl|w c rest w' _ IH Hrun|w w' _ IH Hdb _ Hl].
  - by constructor.
  - eapply site_call; [exact IH|]. by apply truthful_run.
  - by apply (site_restart _ w' IH).
Qed.

(** ** The demands are met *)

Context (turns_u32 : in_u32 (max_attempts (lc_retry self))).

Lemma launched_accounted w w' r : launch_post w w' r → accounted w'.
Proof. by intros [(_ & ? & _)|(id & _ & ? & _)]. Qed.

Lemma program_sat c w : accounted w → sat V (program_of c) w (λ w' _, accounted w').
Proof.
  intros Hw. destruct c; simpl.
  - eapply sat_mono; [by apply recover_startup_sat|]. by intros ?? [? _].
  - apply sat_bind. eapply sat_mono; [by apply supervise_sat|]. by intros ?? [? _].
  - eapply sat_mono; [apply calm_sat; [unfold launcher_attempts; calm|done]|]. by intros ?? [? _].
  - eapply sat_mono; [apply calm_sat; [unfold launcher_host_capacity; calm|done]|].
    by intros ?? [? _].
  - apply sat_bind. eapply sat_mono; [by apply launch_attempt_sat|].
    intros ?? ?%launched_accounted. done.
  - eapply sat_mono; [by apply launcher_clean_sat|]. by intros ?? [? _].
Qed.

Lemma history_accounted w : history w → accounted w.
Proof.
  induction 1 as [w Hj Hl|w c rest w' _ Hw Hrun|w w' _ Hw Hdb _ Hl].
  - split; [done|]. rewrite Hl. set_solver.
  - pose proof (sat_partly_run _ _ _ _ _ _ (program_sat c w Hw) Hrun) as Hs.
    destruct rest as [x|e k]; [exact Hs|]. by destruct Hs as [[? _] _].
  - eapply accounted_still; [|done]. split; [unfold rows; by rewrite Hdb|done].
Qed.

Lemma history_demand w c e k w' :
  history w → partly_run V (program_of c) w (Op e k) w' → lifecycle_may NATIVE w' e.
Proof.
  intros Hw Hrun. apply (sat_interrupted V _ w _ e k w' (program_sat c w (history_accounted w Hw)) Hrun).
Qed.

Lemma site_demand s c e k s' :
  accounted (in_sight s) → partly_run site_env (program_of c) s (Op e k) s' → lifecycle_may NATIVE (in_sight s') e.
Proof.
  intros Hw Hrun.
  exact (sat_interrupted site_env _ s _ e k s' (in_sight_sat _ _ _ _ (program_sat c _ Hw)) Hrun).
Qed.

Lemma site_accounted s : site_history s → accounted (in_sight s).
Proof.
  induction 1 as [w Hj Hl|s c rest s' _ Hw Hrun|s c prepared a config k s' w _ Hw Hrun Hdb Hl|s w _ Hw Hdb Hl].
  - split; [done|]. simpl. rewrite Hl. set_solver.
  - pose proof (sat_partly_run _ _ _ _ _ _ (in_sight_sat _ _ _ _ (program_sat c _ Hw)) Hrun) as Hs.
    destruct rest as [x|e k]; [exact Hs|]. by destruct Hs as [[? _] _].
  - destruct (site_demand _ _ _ _ _ Hw Hrun) as ([Hj Hc] & row & Hr & Hst & _).
    unfold in_sight, rows in *. simpl in *. split; simpl; [by rewrite Hdb|]. intros id Hid. unfold rows. simpl.
    rewrite Hdb. destruct (decide (id = a_id a)) as [->|Hne]; [|apply Hc; set_solver].
    exists row. unfold active_sql. rewrite Hst. done.
  - eapply accounted_still; [|exact Hw]. unfold still, rows, in_sight. simpl. rewrite Hdb. split; [done|set_solver].
Qed.

(** ** Theorems *)

(** C3: no runner escapes the books unless a provider denies it. In every history of a
    site, with the launcher's calls one after another, cut short anywhere (in the middle
    of a start too), and restarts that forget everything but the journal, each process or
    container that runs belongs to a journalled attempt that counts against capacity and
    whose registration was journalled, except those of which an inspection answered that
    nothing runs while it did; and no two uncleaned attempts of a policy hold the same
    slot. *)
Theorem live_runners_accounted s :
  site_history s →
  (∀ id, id ∈ w_live (s_world s) → id ∉ s_denied s →
     ∃ row, rows (s_world s) !! id = Some row ∧ active_sql row = true ∧ early (pa_state row) = false) ∧
  (∀ i j r t, rows (s_world s) !! i = Some r → rows (s_world s) !! j = Some t → i ≠ j →
     leases r = true → leases t = true → same_slot r t = false).
Proof. intros [[_ Hu] Hl]%site_accounted. split; [|exact Hu]. intros id ? ?. apply Hl. set_solver. Qed.

(** C4: intent is durable before it is acted on. Whenever the launcher asks for a process
    to be started, the journal already shows that attempt's registration and nothing of
    it runs, so no attempt is started twice; whenever it asks GitHub for a registration,
    the name is that of a journalled attempt that has none and runs nothing. *)
Theorem effects_follow_the_journal c w e k w' :
  history w → partly_run V (program_of c) w (Op e k) w' →
  match e with
  | PrStart _ a _ =>
      ∃ row, rows w' !! a_id a = Some row ∧ pa_state row = JitReceived ∧ a_id a ∉ w_live w'
  | GhRegister _ r =>
      ∃ id row, jr_name r = runner_name id ∧ rows w' !! id = Some row ∧ (id ∉ w_live w') ∧
        pa_state row = if is_native (pa_execution row) then Allocated else Prepared
  | _ => True
  end.
Proof. intros Hw Hrun. destruct (history_demand _ _ _ _ _ Hw Hrun) as [_ H]. by destruct e. Qed.

(** C5: only what is over is taken away, as far as the providers tell. Every removal of a
    tree, at whatever call of whatever history of a site, is of the disposable directory of
    an attempt that the journal shows concluded, or of an entry of its slot other than the
    job workspace; and of that attempt, of one recorded cleaned and of one whose package is
    released, nothing runs unless an inspection denied it while it ran. *)
Theorem removals_follow_conclusions c s e k s' :
  site_history s → partly_run site_env (program_of c) s (Op e k) s' →
  let over id := id ∈ w_live (s_world s') → id ∈ s_denied s' in
  match e with
  | FsRemoveDirAll p | FsRemoveDir p | UnlinkReparsePoints p =>
      ∃ id row, rows (s_world s') !! id = Some row ∧ is_terminal (pa_state row) = true ∧ over id ∧
        match pa_workspace_kind row with
        | KEphemeral => p = pa_runtime_path row
        | KPersistent => ∃ name, p = path_join NATIVE (pa_runtime_path row) name ∧
                           is_work_folder NATIVE name = false
        end
  | PkRelease id =>
      ∃ row, rows (s_world s') !! id = Some row ∧ is_terminal (pa_state row) = true ∧ over id
  | JRecord a => state a = Cleaned → over (a_id a)
  | _ => True
  end.
Proof.
  intros Hw Hrun over. destruct (site_demand _ _ _ _ _ (site_accounted _ Hw) Hrun) as [_ H].
  assert (∀ id, id ∉ w_live (in_sight s') → over id) as Hover.
  { intros id Hid Hin. destruct (decide (id ∈ s_denied s')); set_solver. }
  unfold removable, concluded in H. destruct e; naive_solver.
Qed.

(** C31: every call of the launcher returns: on any machine that keeps the promises of the
    environment, a call made in any history runs to its end without a panic, and leaves
    every process accounted for. *)
Theorem calls_return {X} (view : X → world) h c x :
  keeps_promises V view h → history (view x) →
  ∃ x' r, run_with h (program_of c) x = Some (x', r) ∧ accounted (view x').
Proof.
  intros Hh Hw. apply (sat_run_with V view h (program_of c) x (λ w' _, accounted w') Hh).
  by apply program_sat, history_accounted.
Qed.
End Daemon.

(** ** Witnesses *)

#[local] Abbreviation daemon := (program_of PUnix example_lifecycle) (only parsing).

Lemma machine_history now n c w m w' :
  history PUnix example_lifecycle w → run_for n (machine PUnix now) (daemon c) w = Some (m, w') →
  history PUnix example_lifecycle w'.
Proof.
  intros Hw Hrun. eapply history_call; [exact Hw|].
  eapply (run_for_partly _ id); [|exact Hrun]. intros. by eapply machine_does.
Qed.

(** The world after some calls on the machine, each cut short after so many effects. *)
Definition after_calls (now : Timestamp) (n : nat) (c : launcher_call) (w : world) : world :=
  match run_for n (machine PUnix now) (daemon c) w with Some (_, w') => w' | None => w end.
Lemma after_calls_history now n c w :
  history PUnix example_lifecycle w → history PUnix example_lifecycle (after_calls now n c w).
Proof.
  intros Hw. unfold after_calls. destruct (run_for _ _ _ w) as [[m w']|] eqn:E; [|done].
  by eapply machine_history.
Qed.

Definition restarted (w : world) : world := mk_world (w_db w) Memory_new (w_live w).
Lemma restarted_history w :
  history PUnix example_lifecycle w → history PUnix example_lifecycle (restarted w).
Proof. intros Hw. by eapply history_restart. Qed.

Definition recovered : world :=
  after_calls (seconds 1000) 100 (CallRecover [example_active]) example_installation.
Definition launched : world := after_calls (seconds 1000) 100 (CallLaunch example_active) recovered.
(** The daemon died on its way to the start of a process, and comes back much later. *)
Definition interrupted : world :=
  restarted (after_calls (seconds 1000) 30 (CallLaunch example_active) recovered).

Lemma recovered_history : history PUnix example_lifecycle recovered.
Proof. apply after_calls_history, history_start; [by split|done]. Qed.
Lemma interrupted_history : history PUnix example_lifecycle interrupted.
Proof. apply restarted_history, after_calls_history, recovered_history. Qed.

Lemma live_runners_accounted_witness :
  ∃ row, 0%N ∈ w_live launched ∧ rows launched !! 0%N = Some row ∧ active_sql row = true.
Proof.
  assert (0%N ∈ w_live launched) as Hin by (vm_compute; reflexivity).
  destruct (live_runners_accounted PUnix example_lifecycle example_lifecycle_turns (mk_site launched ∅)
    (truthful_history _ _ _ (after_calls_history _ _ _ _ recovered_history))) as [H _].
  destruct (H _ Hin (not_elem_of_empty _)) as (row & Hr & Ha & _). exists row. exact (conj Hin (conj Hr Ha)).
Defined.

(** What a run of some effects stopped before. *)
Definition stopped_at {A} (P : effect → bool) (r : option (prog A * world)) : bool :=
  match r with Some (Op e _, _) => P e | _ => false end.

Lemma stopped_at_inv {A} P (r : option (prog A * world)) :
  stopped_at P r = true → ∃ e k w', r = Some (Op e k, w') ∧ P e = true.
Proof. destruct r as [[[x|e k] w']|]; simpl; try done. intros H. eauto. Qed.

Lemma machine_partly now n c w (P : effect → bool) :
  stopped_at P (run_for n (machine PUnix now) (daemon c) w) = true →
  ∃ e k w', partly_run (lifecycle_env PUnix) (daemon c) w (Op e k) w' ∧ P e = true.
Proof.
  intros (e & k & w' & Hrun & HP)%stopped_at_inv. exists e, k, w'. split; [|exact HP].
  apply (run_for_partly _ id (machine PUnix now) n); [|exact Hrun].
  intros. by apply (machine_does PUnix now).
Qed.

(** The first launch, as it asks for the process. *)
Definition is_start (e : effect) : bool := match e with PrStart _ _ _ => true | _ => false end.
Lemma effects_follow_the_journal_witness :
  ∃ prepared a config k w' row,
    partly_run (lifecycle_env PUnix) (daemon (CallLaunch example_active)) recovered
      (Op (PrStart prepared a config) k) w' ∧
    rows w' !! a_id a = Some row ∧ pa_state row = JitReceived ∧ a_id a ∉ w_live w'.
Proof.
  destruct (machine_partly (seconds 1000) 30 (CallLaunch example_active) recovered is_start)
    as (e & k & w' & Hrun & He); [vm_compute; reflexivity|].
  destruct e; try discriminate He.
  destruct (effects_follow_the_journal PUnix example_lifecycle example_lifecycle_turns
    (CallLaunch example_active) recovered _ k w' recovered_history Hrun) as (row & H).
  do 6 eexists. exact (conj Hrun H).
Defined.

(** The recovery of the interrupted launch, as it removes the directory. *)
Definition is_removal (e : effect) : bool := match e with FsRemoveDirAll _ => true | _ => false end.
Lemma removals_follow_conclusions_witness :
  ∃ p k w' id row,
    partly_run (lifecycle_env PUnix) (daemon (CallRecover [example_active])) interrupted
      (Op (FsRemoveDirAll p) k) w' ∧
    rows w' !! id = Some row ∧ is_terminal (pa_state row) = true ∧ id ∉ w_live w'.
Proof.
  destruct (machine_partly (seconds 100000) 17 (CallRecover [example_active]) interrupted is_removal)
    as (e & k & w' & Hrun & He); [vm_compute; reflexivity|].
  destruct e; try discriminate He.
  destruct (removals_follow_conclusions PUnix example_lifecycle example_lifecycle_turns
    (CallRecover [example_active]) (mk_site interrupted ∅) _ k (mk_site w' ∅)
    (truthful_history _ _ _ interrupted_history) (truthful_run _ _ _ _ _ Hrun))
    as (id & row & Hr & Ht & Hd & _).
  do 5 eexists. split; [exact Hrun|]. split; [exact Hr|]. split; [exact Ht|].
  intros Hin. exact (not_elem_of_empty _ (Hd Hin)).
Defined.

Lemma calls_return_witness :
  ∃ w' r, run_with (machine PUnix (seconds 1000)) (daemon (CallLaunch example_active)) recovered
          = Some (w', r) ∧ accounted w'.
Proof.
  apply (calls_return PUnix example_lifecycle example_lifecycle_turns id
           (machine PUnix (seconds 1000)) (CallLaunch example_active) recovered).
  - apply machine_keeps_promises.
  - apply recovered_history.
Defined.
