(* ===== verification/SlotSafety.v ===== *)
(** * Which slot is chosen, and what its cleanup leaves on disk

    The choice of [Slots.lowest_free_slot] from the leases of the journal; and the scrub
    against a directory: the entries of one slot by name, with system calls that do what
    they document or fail. Whatever fails, the job workspace stays; a scrub that reports
    success leaves nothing else. *)

From stdpp Require Import strings sorting.
From S2P Require Import Prelude RustStr Ordered Model Path Workspace Execution Host Attempt.
From S2P Require Import Labels Policy Capacity Recovery Store Github Backoff Report.
From S2P Require Import Effects Ports Slots.
#[local] Open Scope Z_scope.
#[local] Open Scope rust_scope.

(** ** Choosing a slot *)

Lemma find_first {A} (f : A → bool) l :
  match List.find f l with
  | Some x => ∃ pre post, l = pre ++ x :: post ∧ f x = true ∧ Forall (λ y, f y = false) pre
  | None => Forall (λ y, f y = false) l
  end.
Proof.
  induction l as [|y l IH]; simpl; [constructor|]. destruct (f y) eqn:E.
  - exists [], l. by split_and!.
  - destruct (List.find f l) as [x|].
    + destruct IH as (pre & post & -> & Hx & Hpre). exists (y :: pre), post. split_and!; [done|done|].
      by constructor.
    + by constructor.
Qed.

(** An uncleaned attempt holds the slot. *)
Definition leased (leases : list RunnerAttempt) (slot : Z) : Prop :=
  ∃ a, a ∈ leases ∧ aw_slot_number (workspace a) = Some slot.

Lemma lowest_free_slot_spec leases ceiling :
  match lowest_free_slot leases ceiling with
  | Some slot => 1 ≤ slot ≤ ceiling ∧ ¬ leased leases slot ∧ ∀ t, 1 ≤ t < slot → leased leases t
  | None => ∀ t, 1 ≤ t ≤ ceiling → leased leases t
  end.
Proof.
  assert (∀ t, t ∈ omap (λ a, aw_slot_number (workspace a)) leases ↔ leased leases t) as Hheld.
  { intros t. apply list_elem_of_omap. }
  unfold lowest_free_slot.
  match goal with |- context [List.find ?f ?l] => pose proof (find_first f l) as H; destruct (List.find f l) as [slot|] eqn:E end.
  - destruct H as (pre & post & Hl & Hf & Hpre). breflect. rewrite Hheld in *.
    rewrite Forall_forall in Hpre.
    assert (∃ i, seqZ 1 ceiling !! i = Some slot ∧ length pre = i) as (i & Hi & Hlen).
    { exists (length pre). split; [|done]. rewrite Hl. by rewrite list_lookup_middle. }
    apply lookup_seqZ in Hi as [-> Hi]. split_and!; [lia|lia|done|].
    intros t Ht. assert (t ∈ pre) as Hin.
    { apply (list_elem_of_lookup_2 _ (Z.to_nat (t - 1))).
      rewrite <- (lookup_app_l pre (1 + Z.of_nat i :: post)) by lia. rewrite <- Hl.
      apply lookup_seqZ. lia. }
    apply Hpre in Hin. breflect. by apply Hheld.
  - rewrite Forall_forall in H. intros t Ht. specialize (H t).
    rewrite elem_of_seqZ in H. specialize (H ltac:(lia)). breflect. by apply Hheld.
Qed.

(** The characters of a slot's directory name. *)
Lemma slot_name_chars n :
  Forall (λ c, (c = ch "s" ∨ is_ascii_digit c = true)) (lit "s" ++ show_uint n).
Proof.
  apply Forall_app. split; [by constructor; [left|]|].
  eapply Forall_impl; [apply show_uint_digits|]. intros c Hc. by right.
Qed.

Lemma slot_name_lacks (f : N → bool) n :
  f (ch "s") = false → (∀ c, is_ascii_digit c = true → f c = false) →
  Forall (λ c, f c = false) (lit "s" ++ show_uint n).
Proof.
  intros Hs Hd. eapply Forall_impl; [apply slot_name_chars|]. intros c [->|Hc]; auto.
Qed.

Lemma digit_range c : is_ascii_digit c = true → (48 ≤ c ≤ 57)%N.
Proof. unfold is_ascii_digit, in_range, ch. simpl. lia. Qed.

Lemma slot_name_component n p : validate_component (lit "s" ++ show_uint n) p = Ok tt.
Proof.
  set (name := lit "s" ++ show_uint n).
  assert (∀ c, c ∈ name → c ≠ ch " " ∧ c ≠ ch ".") as Hlast.
  { intros c Hc. pose proof (slot_name_chars n) as H. rewrite Forall_forall in H.
    destruct (H _ Hc) as [->|Hd%digit_range]; [done|]. unfold ch. simpl. lia. }
  unfold validate_component.
  replace (find_char (N.eqb NUL) name) with (@None N).
  2:{ symmetry. apply find_char_None, slot_name_lacks; [done|]. intros c Hc%digit_range.
      apply N.eqb_neq. unfold NUL. lia. }
  case_bool_decide; [done|].
  match goal with |- context [find_char ?f name] => replace (find_char f name) with (@None N) end.
  2:{ symmetry. apply find_char_None, slot_name_lacks; [by vm_compute|]. intros c Hc%digit_range.
      apply orb_false_iff. split.
      - apply bool_decide_eq_false. unfold WINDOWS_RESERVED_CHARACTERS, ch. simpl.
        rewrite !elem_of_cons, elem_of_nil. lia.
      - unfold is_control, in_range. lia. }
  replace (ends_with [ch " "] name || ends_with [ch "."] name) with false.
  2:{ symmetry. apply orb_false_iff. split; apply not_true_iff_false; rewrite ends_with_char;
      intros Hl%last_Some_elem_of; by destruct (Hlast _ Hl). }
  destruct (split_once (ch ".") name) as [[a b]|] eqn:Hsp.
  { apply split_once_Some in Hsp as [E _]. exfalso. destruct (Hlast (ch ".")); [|done].
    rewrite E. apply elem_of_app. right. by left. }
  rewrite trim_end_fixed.
  2:{ intros c Hc%last_Some_elem_of. apply N.eqb_neq. intros <-. by destruct (Hlast _ Hc). }
  replace (existsb _ _) with false; [done|].
  symmetry. apply not_true_iff_false. rewrite existsb_exists. intros (r & Hr & He).
  apply eq_ignore_ascii_case_spec in He. apply (f_equal (@head N)) in He.
  change (Some (ch "s") = head (to_ascii_lowercase r)) in He.
  assert (Forall (λ r, Some (ch "s") ≠ head (to_ascii_lowercase r)) WINDOWS_RESERVED_NAMES) as Hres
    by (repeat constructor; vm_compute; congruence).
  rewrite Forall_forall in Hres. rewrite <- list_elem_of_In in Hr. by apply (Hres r).
Qed.

(** Every platform stores the name of a slot. *)
Lemma slot_name_derives root n :
  derive_child root (lit "s" ++ show_uint n) =
  Ok (mk_path (text root ++ [separator (platform root)] ++ lit "s" ++ show_uint n) (platform root)).
Proof.
  unfold derive_child, join_child. rewrite slot_name_component.
  assert (existsb (is_separator (platform root)) (lit "s" ++ show_uint n) = false) as Hsep.
  { apply not_true_iff_false. rewrite existsb_exists. intros (c & Hc & Hs).
    rewrite <- list_elem_of_In in Hc. pose proof (slot_name_chars n) as H.
    rewrite Forall_forall in H. destruct (H _ Hc) as [->|Hd%digit_range].
    - by destruct (platform root).
    - unfold is_separator in Hs. destruct (platform root); unfold ch in Hs; simpl in Hs; lia. }
  rewrite Hsep, orb_false_r, bool_decide_eq_false_2; [done|].
  intros [H|[H|H]]; apply (f_equal (@head N)) in H; by vm_compute in H.
Qed.

(** A persistent slot is chosen from the journal alone: the lowest number from one to
    the ceiling that no uncleaned attempt holds, and none exactly when all are held; and
    its directory is always one component below the configured root, on every platform. *)
Theorem slot_choice_lowest_free leases ceiling root :
  match lowest_free_slot leases ceiling with
  | Some slot =>
      1 ≤ slot ≤ ceiling ∧ ¬ leased leases slot ∧ (∀ t, 1 ≤ t < slot → leased leases t) ∧
      derive_child root (lit "s" ++ show_uint slot) =
        Ok (mk_path (text root ++ [separator (platform root)] ++ lit "s" ++ show_uint slot)
              (platform root))
  | None => ∀ t, 1 ≤ t ≤ ceiling → leased leases t
  end.
Proof.
  pose proof (lowest_free_slot_spec leases ceiling) as H.
  destruct (lowest_free_slot leases ceiling) as [slot|]; [|done].
  destruct H as (? & ? & ?). split_and!; try done; try lia. apply slot_name_derives.
Qed.

(** ** A slot's directory *)

(** An entry, with what is below it. *)
Record Entry := mk_entry { en_metadata : Metadata; en_content : N }.
#[global] Abbreviation directory := (gmap str Entry) (only parsing).

Section Scrub.
Context (NATIVE : PathPlatform) (slot : PathBuf).
Implicit Types d : directory.

(** An entry is named by one non-empty component. *)
Definition names (p : PathBuf) (name : str) : Prop := name ≠ [] ∧ p = path_join NATIVE slot name.

(** What happened to one entry. *)
Definition touches (p : PathBuf) (d d' : directory) : Prop :=
  ∀ name, ¬ names p name → d' !! name = d !! name.
Definition removed_if_ok (p : PathBuf) (r : io unit) (d d' : directory) : Prop :=
  touches p d d' ∧
  match r with
  | Ok _ => ∀ name, names p name → d' !! name = None
  | Err e => io_kind e = IoNotFound → ∀ name, names p name → d' !! name = None
  end.

Definition directory_does (d : directory) (e : effect) : answer e → directory → Prop :=
  match e return answer e → directory → Prop with
  | FsReadDir p => λ r d', d' = d ∧
      match r with
      | Ok entries => p = slot →
          (∀ name, is_Some (d !! name) → (Ok name : io str) ∈ entries) ∧
          (∀ name, (Ok name : io str) ∈ entries → name ≠ [])
      | Err _ => True
      end
  | FsSymlinkMetadata p => λ r d', d' = d ∧
      match r with
      | Ok m => ∀ name, names p name → ∃ en, d !! name = Some en ∧ en_metadata en = m
      | Err e => io_kind e = IoNotFound →
          (∀ name, names p name → d !! name = None) ∧ (p = slot → d = ∅)
      end
  | FsRemoveFile p => λ r d', removed_if_ok p r d d'
  | FsRemoveDir p => λ r d', removed_if_ok p r d d'
  | FsRemoveDirAll p => λ r d', removed_if_ok p r d d'
  | UnlinkReparsePoints p => λ _ d', touches p d d'
  | _ => λ _ d', d' = d
  end.

(** What the cleanup is asked: never to remove the job workspace. *)
Definition directory_may (d : directory) (e : effect) : Prop :=
  match e with
  | FsRemoveFile p | FsRemoveDir p | FsRemoveDirAll p | UnlinkReparsePoints p =>
      ∃ name, names p name ∧ is_work_folder NATIVE name = false
  | Panic => False
  | _ => True
  end.
Definition directory_env : env answer directory := mk_env directory_may directory_does.
#[local] Abbreviation V := directory_env.

Lemma names_unique p name name' : names p name → names p name' → name = name'.
Proof. intros [_ ->] [_ H]. by apply (path_join_inj NATIVE slot). Qed.

(** The job workspace is as it was. *)
Definition spares d d' : Prop := ∀ name, is_work_folder NATIVE name = true → d' !! name = d !! name.
#[global] Instance spares_preorder : PreOrder spares.
Proof. split; [by intros d name|]. intros d1 d2 d3 H1 H2 name Hn. rewrite H2 by done. by apply H1. Qed.

Lemma touches_spares p name d d' :
  names p name → is_work_folder NATIVE name = false → touches p d d' → spares d d'.
Proof.
  intros Hp Hn Ht name' Hw. apply Ht. intros Hp'. rewrite (names_unique _ _ _ Hp Hp') in Hn. congruence.
Qed.

(** ** Programs that only look *)

Definition looks (e : effect) : Prop :=
  match e with
  | FsRemoveFile _ | FsRemoveDir _ | FsRemoveDirAll _ | UnlinkReparsePoints _ | Panic => False
  | _ => True
  end.

Lemma looks_does d e x d' : looks e → directory_does d e x d' → d' = d.
Proof. destruct e; simpl; intros Hl Hd; try done; by destruct Hd. Qed.

Lemma looks_sat {A} (m : prog A) d : within looks m → sat V m d (λ d' _, d' = d).
Proof.
  intros Hm. eapply sat_mono; [apply (sat_within V looks (λ _, True) (=)); [| |done..]|].
  - intros d1 e _ He. by destruct e.
  - intros d1 e x d2 _ He Hd. split; [done|]. symmetry. by eapply looks_does.
  - by intros d1 x [_ ->].
Qed.

(** ** Removing one entry *)

(** The state [d'] of the directory after work on the entries of [d]. *)
Lemma remove_runtime_tree_sat p name d :
  names p name → is_work_folder NATIVE name = false →
  sat V (remove_runtime_tree NATIVE p) d (λ d' _, spares d d').
Proof.
  intros Hp Hn.
  assert (∀ d d', touches p d d' → spares d d') as Hsp by (intros; by eapply touches_spares).
  assert (∀ d, directory_may d (FsRemoveDirAll p)) as Hmay by (intros; by exists name).
  assert (∀ d, directory_may d (UnlinkReparsePoints p)) as Hmay' by (intros; by exists name).
  unfold remove_runtime_tree. clear Hn. destruct NATIVE.
  - apply sat_op_bind; [apply Hmay|]. intros r d1 [H1%Hsp _].
    destruct r as [[]|e]; [by apply sat_ret|]. case_bool_decide; [|by apply sat_ret].
    apply sat_op_bind; [apply Hmay'|]. intros _ d2 H2%Hsp.
    apply sat_op; [apply Hmay|]. intros r d3 [H3%Hsp _].
    by do 2 (etransitivity; [done|]).
  - apply sat_op; [apply Hmay|]. intros r d1 [Ht _]. by apply Hsp.
Qed.

Lemma remove_slot_entry_sat p name m d :
  names p name → is_work_folder NATIVE name = false →
  sat V (remove_slot_entry NATIVE p m) d (λ d' _, spares d d').
Proof.
  intros Hp Hn. unfold remove_slot_entry. apply sat_bind.
  eapply (sat_mono _ _ _ (λ d' _, spares d d')); [|intros d' r Hs; by apply sat_ret].
  destruct (is_link_like NATIVE m).
  - apply sat_op_bind; [by exists name|]. intros r d1 [Ht _].
    pose proof (touches_spares _ _ _ _ Hp Hn Ht) as H1. destruct r as [[]|e]; [by apply sat_ret|].
    apply sat_op; [by exists name|]. intros r d2 [Ht2 _].
    etransitivity; [done|]. by eapply touches_spares.
  - destruct (md_is_dir m); [by eapply remove_runtime_tree_sat|].
    apply sat_op; [by exists name|]. intros r d1 [Ht _]. by eapply touches_spares.
Qed.

Ltac looks := repeat port_step ltac:(exact I).

Lemma sat_looks {A B} (m : prog A) (k : A → prog B) d (Q : directory → B → Prop) :
  within looks m → (∀ x, sat V (k x) d Q) → sat V (m ≫= k) d Q.
Proof.
  intros Hm Hk. apply sat_bind. eapply sat_mono; [by apply looks_sat|]. by intros d' x ->.
Qed.

Lemma scrub_entry_sat entry d :
  (∀ name, entry = Ok name → name ≠ []) →
  sat V (scrub_entry NATIVE slot entry) d (λ d' _, spares d d').
Proof.
  intros Hne. unfold scrub_entry. destruct entry as [name|e]; [|by apply sat_bind_ok, sat_ret].
  specialize (Hne name eq_refl). apply sat_bind_ok, sat_ret. cbn [map_err].
  apply sat_looks; [unfold listed_entry_metadata; looks|]. intros [[m|]|e]; [|by apply sat_ret..].
  destruct (is_work_folder NATIVE name) eqn:Hw.
  { by destruct (is_retainable_work_folder _ _ _); apply sat_ret. }
  apply sat_bind. eapply sat_mono; [by apply (remove_slot_entry_sat _ name)|].
  intros d' r Hs. by apply sat_ret.
Qed.

Lemma scrub_slot_entries_sat d : sat V (scrub_slot_entries NATIVE slot) d (λ d' _, spares d d').
Proof.
  unfold scrub_slot_entries. apply sat_bind_ok, sat_bind, sat_op; [done|].
  intros r d1 [-> Hr]. apply sat_ret. destruct r as [entries|e]; cbn [map_err]; [|done].
  destruct (Hr eq_refl) as [_ Hne].
  apply (sat_for_each_ok V (λ d' _, spares d d')); [done| |done].
  intros entry d' [] Hin Hs. eapply sat_mono.
  { apply scrub_entry_sat. intros name ->. by apply Hne. }
  intros d2 [[]|e] H2; by etransitivity.
Qed.

(** ** Verification *)

(** What may stay: one real directory with the name of the job workspace. *)
Definition retainable (name : str) (en : Entry) : Prop :=
  is_retainable_work_folder NATIVE name (en_metadata en) = true.
Definition only_work d : Prop := ∀ name en, d !! name = Some en → retainable name en.

Definition harmless d (name : str) : Prop := ∀ en, d !! name = Some en → retainable name en.

Lemma listed_entry_sat name d :
  name ≠ [] →
  sat V (listed_entry_metadata (path_join NATIVE slot name)) d (λ d' r, d' = d ∧
    match r with
    | Ok (Some m) => ∃ en, d !! name = Some en ∧ en_metadata en = m
    | Ok None => d !! name = None
    | Err _ => True
    end).
Proof.
  intros Hne. apply sat_op_bind; [done|]. intros r d1 [-> Hr]. apply sat_ret. split; [done|].
  destruct r as [m|e]; [by apply Hr|]. case_bool_decide as Hk; [|done].
  destruct (Hr Hk) as [Hn _]. by apply Hn.
Qed.

Lemma verify_entry_sat entry residue named d :
  (∀ name, entry = Ok name → name ≠ []) → 0 ≤ residue ≤ U64_MAX →
  sat V (verify_entry NATIVE slot entry (residue, named)) d (λ d' r, d' = d ∧
    match r with
    | Ok (residue', _) => residue ≤ residue' ≤ U64_MAX ∧
        (residue' = 0 → ∀ name, entry = Ok name → harmless d name)
    | Err _ => True
    end).
Proof.
  intros Hne H0. unfold verify_entry. destruct entry as [name|e]; [|by apply sat_bind_ok, sat_ret].
  specialize (Hne name eq_refl). apply sat_bind_ok, sat_ret. cbn [map_err].
  apply sat_bind_ok, sat_bind. eapply sat_mono; [by apply listed_entry_sat|].
  intros d1 r [-> Hr]. apply sat_ret. destruct r as [[m|]|e]; cbn [map_err]; [|apply sat_ret|done].
  - destruct Hr as (en & Hen & <-).
    destruct (is_retainable_work_folder NATIVE name (en_metadata en)) eqn:Hret; apply sat_ret;
      (split; [done|]).
    + split; [lia|]. intros _ ? [= <-] en' E. unfold retainable. congruence.
    + unfold sat_add. split; [zarith|]. intros. exfalso. zarith.
  - split; [done|]. split; [lia|]. intros _ ? [= <-] en' E. congruence.
Qed.

Lemma verify_entries_sat entries residue named d :
  (∀ name, (Ok name : io str) ∈ entries → name ≠ []) → 0 ≤ residue ≤ U64_MAX →
  sat V (for_each_ok entries (verify_entry NATIVE slot) (residue, named)) d (λ d' r, d' = d ∧
    match r with
    | Ok (residue', _) => residue ≤ residue' ∧
        (residue' = 0 → ∀ name, (Ok name : io str) ∈ entries → harmless d name)
    | Err _ => True
    end).
Proof.
  revert residue named. induction entries as [|entry entries IH]; intros residue named Hne H0.
  { apply sat_ret. split; [done|]. split; [lia|]. intros _ name. by rewrite elem_of_nil. }
  apply sat_bind_ok. eapply sat_mono.
  { apply verify_entry_sat; [|done]. intros name ->. apply Hne. by left. }
  intros d1 r [-> Hr]. destruct r as [[residue1 named1]|e]; [|done]. destruct Hr as [H1 Hh].
  eapply sat_mono; [apply IH; [|lia]|].
  { intros name Hin. apply Hne. by right. }
  intros d2 r [-> Hr]. split; [done|]. destruct r as [[residue2 named2]|e]; [|done].
  destruct Hr as [H2 Hh2]. split; [lia|]. intros -> name [E|Hin]%elem_of_cons.
  - apply Hh; [lia|done].
  - by apply Hh2.
Qed.

Lemma verify_slot_scrubbed_sat d :
  sat V (verify_slot_scrubbed NATIVE slot) d (λ d' r, d' = d ∧ (is_ok r = true → only_work d)).
Proof.
  unfold verify_slot_scrubbed. apply sat_bind_ok, sat_bind, sat_op; [done|].
  intros r d1 [-> Hr]. apply sat_ret. destruct r as [entries|e]; cbn [map_err]; [|done].
  destruct (Hr eq_refl) as [Hall Hne]. apply sat_bind_ok.
  eapply sat_mono; [apply verify_entries_sat; [done|done]|].
  intros d1 r [-> Hv]. destruct r as [[residue named]|e]; [|done]. destruct Hv as [_ Hv].
  apply sat_looks; [unfold stat_sensitive; looks|]. intros [named'|e]; [|by apply sat_ret].
  case_bool_decide as Hz; apply sat_ret; (split; [done|]); [|done].
  intros _ name en Hen. destruct Hz as [Hz _]. apply (Hv Hz); [|done]. apply Hall. by eexists.
Qed.

(** ** A slot taken again *)

Lemma accept_entry_sat entry refused d :
  (∀ name, entry = Ok name → name ≠ []) →
  sat V (accept_entry NATIVE slot entry refused) d (λ d' r, d' = d ∧
    match r with
    | Ok refused' => refused' = [] → refused = [] ∧ ∀ name, entry = Ok name → harmless d name
    | Err _ => True
    end).
Proof.
  intros Hne. unfold accept_entry. destruct entry as [name|e]; [|by apply sat_ret].
  specialize (Hne name eq_refl). apply sat_bind_ok, sat_bind, sat_op; [done|].
  intros r d1 [-> Hr]. apply sat_ret. destruct r as [m|e]; cbn [map_err]; [|done].
  destruct (Hr name) as (en & Hen & <-); [by split|].
  apply sat_ret. split; [done|].
  destruct (is_retainable_work_folder NATIVE name (en_metadata en)) eqn:Hret.
  - intros ->. split; [done|]. intros ? [= <-] en' E. unfold retainable. congruence.
  - by destruct refused.
Qed.

Lemma accept_entries_sat entries refused d :
  (∀ name, (Ok name : io str) ∈ entries → name ≠ []) →
  sat V (for_each_ok entries (accept_entry NATIVE slot) refused) d (λ d' r, d' = d ∧
    match r with
    | Ok refused' => refused' = [] →
        refused = [] ∧ ∀ name, (Ok name : io str) ∈ entries → harmless d name
    | Err _ => True
    end).
Proof.
  revert refused. induction entries as [|entry entries IH]; intros refused Hne.
  { apply sat_ret. split; [done|]. intros ->. split; [done|]. intros name. by rewrite elem_of_nil. }
  apply sat_bind_ok. eapply sat_mono.
  { apply accept_entry_sat. intros name ->. apply Hne. by left. }
  intros d1 r [-> Hr]. destruct r as [refused1|e]; [|done].
  eapply sat_mono; [apply IH|].
  { intros name Hin. apply Hne. by right. }
  intros d2 r [-> Hr2]. split; [done|]. destruct r as [refused2|e]; [|done].
  intros [H1 Hh2]%Hr2. destruct (Hr H1) as [H0 Hh]. split; [done|].
  intros name [E|Hin]%elem_of_cons; [by apply Hh|by apply Hh2].
Qed.

Lemma accept_reusable_slot_sat d :
  sat V (accept_reusable_slot NATIVE slot) d (λ d' r, d' = d ∧ (is_ok r = true → only_work d)).
Proof.
  unfold accept_reusable_slot. apply sat_bind_ok, sat_bind, sat_op; [done|].
  intros r d1 [-> Hr]. apply sat_ret. destruct r as [entries|e]; cbn [map_err]; [|done].
  destruct (Hr eq_refl) as [Hall Hne]. apply sat_bind_ok.
  eapply sat_mono; [by apply accept_entries_sat|]. intros d1 r [-> Hv].
  destruct r as [refused|e]; [|done]. case_bool_decide as Hz; apply sat_ret; (split; [done|]); [|done].
  intros _ name en Hen. apply (proj2 (Hv Hz) name); [|done]. apply Hall. by eexists.
Qed.

Lemma scrub_slot_sat n configured d :
  sat V (scrub_slot NATIVE slot n configured) d
    (λ d' r, spares d d' ∧ (is_ok r = true → only_work d')).
Proof.
  unfold scrub_slot. apply sat_looks; [unfold verify_journalled_slot; looks|].
  intros [[]|e]; [|by apply sat_ret]. apply sat_bind_ok.
  apply (sat_mono _ _ _ (λ d' r, d' = d ∧ (r = Ok false → d = ∅))).
  { apply sat_op_bind; [done|]. intros r d1 [-> Hr]. destruct r as [m|e].
    - destruct (_ || _); by apply sat_ret.
    - case_bool_decide as Hk; apply sat_ret; (split; [done|]); [|done].
      intros _. by apply Hr. }
  intros d1 r [-> Hr]. destruct r as [[]|e]; [| |done].
  - apply sat_bind_ok. eapply sat_mono; [apply scrub_slot_entries_sat|].
    intros d2 r Hs. destruct r as [[]|e]; [|done].
    eapply sat_mono; [apply verify_slot_scrubbed_sat|]. by intros d3 r2 [-> ?].
  - apply sat_ret. split; [done|]. intros _ name en. by rewrite Hr, lookup_empty.
Qed.

(** ** Theorems *)

(** C30: the cleanup of a persistent slot removes runner state and never the job's
    retained workspace: at no system call of it is an entry named as the workspace
    removed, whatever fails the workspace is as it was, and a cleanup that reports success
    leaves nothing in the slot but one real `_work` directory. The same holds of a slot
    that an allocation accepts for reuse. *)
Theorem slots_keep_only_work n configured d :
  sat V (scrub_slot NATIVE slot n configured) d
    (λ d' r, spares d d' ∧ (is_ok r = true → only_work d')) ∧
  sat V (accept_reusable_slot NATIVE slot) d (λ d' r, d' = d ∧ (is_ok r = true → only_work d)).
Proof. split; [apply scrub_slot_sat|apply accept_reusable_slot_sat]. Qed.
End Scrub.
