(* ===== verification/RunnerIdFile.v ===== *)
(** * The runner id sidecar ([crates/agent/src/lifecycle.rs], [write_runner_id])

    The file that remembers which GitHub runner an attempt registered, against a store of
    files whose calls do what they document or fail half way. *)

From stdpp Require Import strings.
From S2P Require Import Prelude RustStr Ordered Model Path Workspace Execution Host Attempt.
From S2P Require Import Labels Policy Capacity Recovery Store Github Backoff Report.
From S2P Require Import Effects Ports.
#[local] Open Scope Z_scope.
#[local] Open Scope rust_scope.

Section RunnerIdFile.
Context (NATIVE : PathPlatform) (runtime : PathBuf).
#[local] Abbreviation files := (gmap PathBuf str) (only parsing).
#[local] Abbreviation target := (path_join NATIVE runtime RUNNER_ID_FILE).
Implicit Types fs : files.

(** Nothing but the file at [p] changes. *)
Definition changes (p : PathBuf) fs fs' : Prop := ∀ q, q ≠ p → fs' !! q = fs !! q.

(** A truncation or a write that fails may leave anything in its file; a rename happens or
    does not. *)
Definition files_does fs (e : effect) : answer e → files → Prop :=
  match e return answer e → files → Prop with
  | FsReadToString p => λ r fs', fs' = fs ∧
      match r with
      | Ok t => fs !! p = Some t
      | Err e => io_kind e = IoNotFound → fs !! p = None
      end
  | FsOpenTruncate p => λ r fs', changes p fs fs' ∧ (is_ok r = true → fs' !! p = Some [])
  | FsWriteAll p t => λ r fs', changes p fs fs' ∧ (is_ok r = true → fs' !! p = Some t)
  | FsRemoveFile p => λ r fs', changes p fs fs'
  | FsRename p q => λ r fs',
      match r with
      | Ok _ => fs' = match fs !! p with Some t => <[q := t]> (delete p fs) | None => fs end
      | Err _ => fs' = fs
      end
  | _ => λ _ fs', fs' = fs
  end.

(** What must hold whenever a call is made: the sidecar is as it was, or complete. *)
Definition files_env (old : option str) (new : str) : env answer files :=
  mk_env (λ fs e, (fs !! target = old ∨ fs !! target = Some new) ∧ e ≠ Panic) files_does.

Lemma temporary_not_target id :
  path_join NATIVE runtime (RUNNER_ID_FILE ++ lit "." ++ show_uuid id ++ lit ".tmp") ≠ target.
Proof.
  assert (∀ t, RUNNER_ID_FILE ++ lit "." ++ t ≠ RUNNER_ID_FILE) as H.
  { intros t H. rewrite <- (app_nil_r RUNNER_ID_FILE) in H at 2. by apply app_inv_head in H. }
  unfold path_join. destruct (List.rev runtime) as [|c l]; [apply H|].
  destruct (is_separator NATIVE c); intros E%app_inv_head; [by apply H in E|].
  apply (f_equal tail) in E. cbn [tail] in E. by apply H in E.
Qed.

(** The sidecar remembers [id]. *)
Definition remembers fs (id : Z) : Prop :=
  ∃ t, fs !! target = Some t ∧ parse_uint U64_MAX (trim t) = Some id.

Lemma read_runner_id_sat (old : option str) (new : str) fs (Q : files → option Z → Prop) :
  (fs !! target = old ∨ fs !! target = Some new) →
  (∀ r, (∀ id, r = Some id → remembers fs id) → Q fs r) →
  sat (files_env old new) (read_runner_id NATIVE runtime) fs Q.
Proof.
  intros Hok HQ. apply sat_op_bind; [by split|]. intros r fs' [-> Hr]. apply sat_ret, HQ.
  intros id Hid. destruct r as [t|e]; [|done]. by exists t.
Qed.

Lemma write_durable_sat (old : option str) (name text new : str) fs :
  path_join NATIVE runtime name ≠ target → (fs !! target = old ∨ fs !! target = Some new) →
  sat (files_env old new) (write_durable_file NATIVE runtime name text) fs (λ fs' r,
    fs' !! target = fs !! target ∧
    (is_ok r = true → fs' !! path_join NATIVE runtime name = Some text)).
Proof.
  intros Hne Hok. unfold write_durable_file.
  assert (∀ fs', changes (path_join NATIVE runtime name) fs fs' → fs' !! target = fs !! target)
    as Hch by (intros fs' H; by apply H).
  apply sat_bind_ok, sat_op; [by split|]. intros r fs1 [H1 _]. pose proof (Hch _ H1) as E1.
  destruct r as [[]|e]; [|done].
  apply sat_bind_ok, sat_op; [split; [by rewrite E1|done]|]. intros r fs2 [H2 Hw].
  assert (fs2 !! target = fs !! target) as E2 by (rewrite <- E1; by apply H2).
  destruct r as [[]|e]; [|done].
  apply sat_bind_ok, sat_op; [split; [by rewrite E2|done]|]. intros r fs3 ->.
  destruct r as [[]|e]; [|done].
  apply sat_op; [split; [by rewrite E2|done]|]. intros r fs4 ->. split; [done|]. intros _. by apply Hw.
Qed.

Lemma rename_ok p q u t fs fs' :
  files_does fs (FsRename p q) (Ok u) fs' → fs !! p = Some t → fs' !! q = Some t.
Proof. cbn [files_does]. intros -> ->. apply lookup_insert_eq. Qed.

Lemma write_runner_id_sat id fs :
  in_u64 id →
  sat (files_env (fs !! target) (show_uint id)) (write_runner_id NATIVE runtime id) fs (λ fs' r,
    (fs' !! target = fs !! target ∨ fs' !! target = Some (show_uint id)) ∧
    match r with Ok _ => remembers fs' id | Err _ => True end).
Proof.
  intros Hid. unfold write_runner_id. apply sat_bind, read_runner_id_sat; [by left|].
  intros [existing|] Hr.
  { unfold journal_if. case_bool_decide as E; apply sat_ret; (split; [by left|]); [|done].
    subst. by apply Hr. }
  apply sat_op_bind; [split; [by left|done]|]. intros u fs1 ->.
  apply sat_bind_ok, sat_bind. eapply sat_mono.
  { apply write_durable_sat; [apply temporary_not_target|by left]. }
  intros fs1 r [E1 Hw]. apply sat_ret. destruct r as [[]|e]; cbn [map_err]; [|by split; [left|]].
  apply sat_op_bind; [split; [by left|done]|]. intros r fs2 H2.
  destruct r as [[]|e].
  - assert (fs2 !! target = Some (show_uint id)) as E2 by by eapply rename_ok, Hw.
    apply sat_bind, sat_op; [split; [by right|done]|]. intros r fs3 ->. apply sat_ret.
    split; [by right|].
    destruct r as [[]|e]; cbn [map_err]; [|done]. eexists. split; [done|]. by apply parse_show_uint.
  - assert (fs2 = fs1) as -> by exact H2. apply sat_op_bind; [split; [by left|done]|]. intros r fs3 H3.
    assert (fs3 !! target = fs !! target) as E3.
    { rewrite <- E1. apply H3. intros E. by apply (temporary_not_target u). }
    case_bool_decide; [|by apply sat_ret; split; [left|]].
    apply sat_bind, read_runner_id_sat; [by left|]. intros found Hf. unfold journal_if.
    case_bool_decide; apply sat_ret; (split; [by left|]); [|done]. subst. by apply Hf.
Qed.

(** ** Theorems *)

(** The id of a registered runner survives a crash whole or not at all. At every call
    of the write the sidecar holds what it held before or the complete new text, so a
    daemon that dies anywhere never finds half an id; when the write reports success the
    sidecar parses to the id, and whatever a later reading returns is that id. *)
Theorem runner_id_roundtrip id fs :
  in_u64 id →
  sat (files_env (fs !! target) (show_uint id))
    (written ← write_runner_id NATIVE runtime id;
     found ← read_runner_id NATIVE runtime;
     mret (written, found)) fs
    (λ fs' '(written, found),
      (fs' !! target = fs !! target ∨ remembers fs' id) ∧
      (is_ok written = true → remembers fs' id ∧ ∀ other, found = Some other → other = id)).
Proof.
  intros Hid. assert (∀ fs', fs' !! target = Some (show_uint id) → remembers fs' id) as Hnew.
  { intros fs' E. eexists. split; [done|]. by apply parse_show_uint. }
  apply sat_bind. eapply sat_mono; [by apply write_runner_id_sat|].
  intros fs1 [[]|e] [H1 H2].
  - apply sat_bind, read_runner_id_sat; [done|]. intros found Hf. apply sat_ret.
    split; [by right|]. intros _. split; [done|]. intros other E.
    destruct (Hf _ E) as (t & Ht & Hp), H2 as (t' & Ht' & Hp'). congruence.
  - apply sat_bind, read_runner_id_sat; [done|]. intros found Hf. apply sat_ret.
    split; [|done]. destruct H1; [by left|right; by apply Hnew].
Qed.
End RunnerIdFile.

(** A first registration, as runner 42. *)
Lemma runner_id_roundtrip_witness :
  let dir := lit "/srv/r" in
  let file := path_join PUnix dir RUNNER_ID_FILE in
  sat (files_env PUnix dir ((∅ : gmap PathBuf str) !! file) (show_uint 42))
    (written ← write_runner_id PUnix dir 42;
     found ← read_runner_id PUnix dir;
     mret (written, found)) ∅
    (λ fs' '(written, found),
      (fs' !! file = (∅ : gmap PathBuf str) !! file ∨ remembers PUnix dir fs' 42) ∧
      (is_ok written = true →
        remembers PUnix dir fs' 42 ∧ ∀ other, found = Some other → other = 42)).
Proof. apply (runner_id_roundtrip PUnix (lit "/srv/r") 42 ∅). split; vm_compute; congruence. Defined.
