(* ===== verification/LauncherContract.v ===== *)
(** * The lifecycle behind the reconciler

    [LifecycleLauncher] as an instance of the [RunnerLauncher] port of [Reconcile], on any
    machine that keeps the promises of [LifecycleEnv]. The contract that the pass was
    proved against is discharged: the runners that hold a slot are the active rows of the
    journal. *)

From stdpp Require Import strings sorting.
From S2P Require Import Prelude RustStr Ordered Model Path Workspace Execution Host Attempt.
From S2P Require Import Labels Policy Capacity Recovery Store Github Schedule Routing Backoff Report.
From S2P Require Import Reconcile ReconcileSafety ReconcilePass.
From S2P Require Import Effects Ports Slots Lifecycle Supervise Launch LifecycleEnv.
From S2P Require Import LifecycleSafety SuperviseSafety LaunchSafety Machine Daemon.
#[local] Open Scope Z_scope.
#[local] Open Scope rust_scope.

(** The attempts that take a place. *)
Definition taken (w : world) : gset AttemptId :=
  dom (filter (λ '(_, row), active_sql row = true) (rows w)).

Lemma elem_of_taken id w :
  id ∈ taken w ↔ ∃ row, rows w !! id = Some row ∧ active_sql row = true.
Proof.
  unfold taken. rewrite elem_of_dom. split.
  - intros [row [Hr Ha]%map_lookup_filter_Some]. by exists row.
  - intros (row & Hr & Ha). exists row. by apply map_lookup_filter_Some.
Qed.

(** Whatever runs takes a place. *)
Lemma live_taken w : accounted w → w_live w ⊆ taken w.
Proof.
  intros Hw id Hid. apply elem_of_taken. destruct (live_counted _ Hw _ Hid) as (row & ? & ? & _).
  by exists row.
Qed.

Lemma subsides_taken w w' : subsides w w' → taken w' ⊆ taken w.
Proof. intros [_ H] id (row & Hr & Ha)%elem_of_taken. apply elem_of_taken. by eapply H. Qed.

Section Contract.
Context (NATIVE : PathPlatform) (self : LifecycleLauncher) (ceiling : Z).
Context {X : Type} (view : X → world) (h : ∀ e, X → option (X * answer e)).
Context (turns_u32 : in_u32 (max_attempts (lc_retry self))).
Context (promises : keeps_promises (lifecycle_env NATIVE) view h).
#[local] Abbreviation V := (lifecycle_env NATIVE).

(** ** The hosts table *)

Lemma record_hosts a d : hosts (record_attempt a d).1 = hosts d.
Proof. unfold record_attempt. by repeat case_match; simplify_eq/=. Qed.
Lemma load_rows_hosts l d : hosts (load_rows l d).1 = hosts d.
Proof.
  revert d. induction l as [|row l IH]; intros d; [done|]. simpl. unfold st_bind, st_ret.
  assert (hosts (attempt_from_row row d).1 = hosts d) as Hr.
  { unfold attempt_from_row. by destruct (normalise row). }
  destruct (attempt_from_row row d) as [d1 [a|e]]; simpl in Hr; [|done].
  specialize (IH d1). destruct (load_rows l d1) as [d2 [b|e]]; simpl in *; congruence.
Qed.
Lemma attempt_hosts id d : hosts (Store.attempt id d).1 = hosts d.
Proof.
  unfold Store.attempt. destruct (attempts d !! id) as [row|]; [|done].
  unfold st_bind, st_ret, attempt_from_row. destruct (normalise row). by destruct (map_err _ _).
Qed.

Definition same_hosts (w w' : world) : Prop := hosts (w_db w') = hosts (w_db w).
#[local] Instance same_hosts_preorder : PreOrder same_hosts.
Proof. split; [done|]. intros w1 w2 w3 H1 H2. unfold same_hosts in *. congruence. Qed.

Lemma journal_hosts {A} (m : store_method A) r w w' :
  (∀ d, hosts (m d).1 = hosts d) → journal m r w w' → same_hosts w w'.
Proof.
  intros Hm (_ & _ & [E|[_ E]]); unfold same_hosts; [|by rewrite E].
  specialize (Hm (w_db w)). by rewrite E in Hm.
Qed.

Lemma does_hosts w e x w' : lifecycle_does NATIVE w e x w' → same_hosts w w'.
Proof.
  unfold same_hosts. destruct e; simpl; intros Hd; try done; unfold quiet in Hd;
    try (by destruct Hd as (-> & _)); try (by destruct Hd as ((-> & _) & _));
    try (by destruct Hd as (_ & -> & _)); try (by destruct Hd as (_ & (-> & _)));
    (eapply journal_hosts; [|exact Hd]).
  1-3: intros d; apply load_rows_hosts.
  - apply attempt_hosts.
  - apply record_hosts.
Qed.

(** ** The launcher as functions of the machine *)

(** Nothing escapes the journal, and every host's capacity ([u16]) is within the ceiling. *)
Definition sound (w : world) : Prop :=
  accounted w ∧
  ∀ id row, hosts (w_db w) !! id = Some row → 0 ≤ hr_host_capacity row ≤ ceiling.
Definition host_state : Type := { x : X | sound (view x) }.
Definition world_of (x : host_state) : world := view (`x).

Lemma sound_sat {A} (m : prog A) w (Q : world → A → Prop) :
  sat V m w Q → (∀ w' r, Q w' r → accounted w') → sound w →
  sat V m w (λ w' r, Q w' r ∧ sound w').
Proof.
  intros Hm HQ [Hw Hc]. eapply sat_mono; [apply (sat_always V same_hosts); [apply does_hosts|exact Hm]|].
  intros w' r [Hq Hh]. split; [done|]. split; [by eapply HQ|]. unfold same_hosts in Hh. by rewrite Hh.
Qed.

(** Programs that keep every process accounted for run to their end. *)
Definition dependable {A} (m : prog A) : Prop :=
  ∀ w, accounted w → sat V m w (λ w' _, accounted w').

Lemma dependable_runs {A} (m : prog A) (x : host_state) :
  dependable m → ∃ x' r, run_with h m (`x) = Some (x', r) ∧ sound (view x').
Proof.
  intros Hm. destruct x as [x [Hw Hc]]. simpl.
  destruct (sat_run_with V view h m x (λ w' _, accounted w' ∧ sound w') promises)
    as (x' & r & E & _ & Hs); [|eauto].
  apply sound_sat; [by apply Hm|done|done].
Qed.

Lemma dependable_end {A} (m : prog A) (x : host_state) x' r :
  dependable m → run_with h m (`x) = Some (x', r) → sound (view x').
Proof. intros Hm E. destruct (dependable_runs m x Hm) as (y & r' & E' & Hs). congruence. Qed.
Lemma dependable_ends {A} (m : prog A) (x : host_state) :
  dependable m → run_with h m (`x) = None → False.
Proof. intros Hm E. destruct (dependable_runs m x Hm) as (y & r' & E' & Hs). congruence. Qed.

Definition perform_run {A} (m : prog A) (Hm : dependable m) (x : host_state)
    (o : option (X * A)) : run_with h m (`x) = o → host_state * A :=
  match o with
  | Some (x', r) => λ E, (exist _ x' (dependable_end m x x' r Hm E), r)
  | None => λ E, False_rect _ (dependable_ends m x Hm E)
  end.
Definition perform {A} (m : prog A) (Hm : dependable m) (x : host_state) : host_state * A :=
  perform_run m Hm x _ eq_refl.

Lemma perform_run_eq {A} (m : prog A) Hm x o Eo x' r :
  o = Some (x', r) →
  world_of (perform_run m Hm x o Eo).1 = view x' ∧ (perform_run m Hm x o Eo).2 = r.
Proof. intros ->. done. Qed.

Lemma perform_sat {A} (m : prog A) Hm x (Q : world → A → Prop) :
  sat V m (world_of x) Q → Q (world_of (perform m Hm x).1) (perform m Hm x).2.
Proof.
  intros Hs. destruct (sat_run_with V view h m (`x) Q promises Hs) as (x' & r & E & HQ).
  destruct (perform_run_eq m Hm x _ eq_refl x' r E) as [H1 H2]. unfold perform. by rewrite H1, H2.
Qed.

(** The methods of the port. *)

Lemma dependable_supervise p : dependable (launcher_supervise NATIVE self p).
Proof. intros w Hw. by apply (program_sat NATIVE self turns_u32 (CallSupervise p)). Qed.
Lemma dependable_attempts : dependable launcher_attempts.
Proof. intros w Hw. by apply (program_sat NATIVE self turns_u32 CallAttempts). Qed.
Lemma dependable_capacity hst : dependable (launcher_host_capacity hst).
Proof. intros w Hw. by apply (program_sat NATIVE self turns_u32 (CallHostCapacity hst)). Qed.
Lemma dependable_launch p : dependable (launcher_launch NATIVE self p).
Proof. intros w Hw. by apply (program_sat NATIVE self turns_u32 (CallLaunch p)). Qed.
Lemma dependable_clean id : dependable (launcher_clean NATIVE self id).
Proof. intros w Hw. by apply (program_sat NATIVE self turns_u32 (CallClean id)). Qed.

#[local] Instance lifecycle_launcher : RunnerLauncher host_state := {|
  l_host_capacity := λ hst, perform (launcher_host_capacity hst) (dependable_capacity hst);
  l_supervise := λ p, perform (launcher_supervise NATIVE self p) (dependable_supervise p);
  l_attempts := perform launcher_attempts dependable_attempts;
  l_launch := λ _ p, perform (launcher_launch NATIVE self p) (dependable_launch p);
  l_clean := λ id, perform (launcher_clean NATIVE self id) (dependable_clean id);
|}.

(** ** The contract *)

Lemma map_ok_Some {A E} (r : result A E) a : map_ok Some r = Ok (Some a) → r = Ok a.
Proof. by destruct r; intros [= ->]. Qed.

Lemma host_from_row_capacity id row hst :
  host_from_row NATIVE id row = Ok hst →
  host_capacity hst = hr_host_capacity row ∧ hr_host_capacity row ≠ 0.
Proof.
  unfold host_from_row, Host_new. intros H. cases. breflect. by split.
Qed.

Lemma world_of_accounted (x : host_state) : accounted (world_of x).
Proof. by destruct x as [x [? ?]]. Qed.

Lemma supervise_taken p x : taken (world_of (l_supervise p x).1) ⊆ taken (world_of x).
Proof.
  apply (perform_sat _ _ _ (λ w' _, taken w' ⊆ taken (world_of x))).
  apply sat_bind. eapply sat_mono; [apply supervise_sat, world_of_accounted|].
  intros w' r [_ Hs]. by apply sat_ret, subsides_taken.
Qed.

Lemma clean_taken id x : taken (world_of (l_clean id x).1) ⊆ taken (world_of x).
Proof.
  apply (perform_sat _ _ _ (λ w' _, taken w' ⊆ taken (world_of x))).
  eapply sat_mono; [apply launcher_clean_sat, world_of_accounted|].
  intros w' r [_ Hs]. by apply subsides_taken.
Qed.

Lemma capacity_spec hst x :
  taken (world_of (l_host_capacity hst x).1) ⊆ taken (world_of x) ∧
  ∀ c, (l_host_capacity hst x).2 = Ok c → 1 ≤ c ≤ ceiling.
Proof.
  apply (perform_sat _ _ _ (λ w' r, taken w' ⊆ taken (world_of x) ∧ ∀ c, r = Ok c → 1 ≤ c ≤ ceiling)).
  destruct x as [x [Hw Hc]]. unfold world_of. simpl.
  apply sat_op_bind; [by split|]. intros r w' [Hq%quiet_still Hr]. apply sat_ret.
  split; [by apply subsides_taken, still_subsides|].
  intros c E. destruct r as [[current|]|e]; simplify_eq.
  destruct Hr as [Hr|Hr]; [|done]. unfold host in Hr.
  destruct (hosts (w_db (view x)) !! h_id hst) as [row|] eqn:Hrow; [|done].
  symmetry in Hr. apply map_ok_Some in Hr. destruct (Hc _ _ Hrow).
  apply host_from_row_capacity in Hr as [-> ?]. lia.
Qed.

Lemma attempts_spec x :
  taken (world_of (l_attempts x).1) ⊆ taken (world_of x) ∧
  ∀ l, (l_attempts x).2 = Ok l → taken (world_of (l_attempts x).1) ⊆ active_ids l.
Proof.
  apply (perform_sat _ _ _ (λ w' r, taken w' ⊆ taken (world_of x) ∧
    ∀ l, r = Ok l → taken w' ⊆ active_ids l)).
  pose proof (world_of_accounted x) as Hw. set (w := world_of x) in *. clearbody w.
  apply sat_bind, sat_op; [by split|]. intros r w' Hj. apply sat_ret.
  pose proof (calm_does NATIVE w JAttempts r w' I Hj) as Hs.
  split; [by apply subsides_taken, still_subsides|]. intros l E.
  destruct r as [l'|e]; [|done]. injection E as ->.
  destruct Hj as (_ & _ & [Hr|[? _]]); [|done].
  assert (Forall2 (λ row a, load row = Ok a) (List.filter (λ _, true) (attempt_rows (w_db w))) l) as Hl.
  { apply (load_rows_ok _ (w_db w)). unfold attempts_where in Hr. by rewrite Hr. }
  intros id (row & Hrow & Hact)%elem_of_taken. destruct Hs as [Hrows _]. rewrite Hrows in Hrow.
  assert (row ∈ List.filter (λ _, true) (attempt_rows (w_db w))) as Hin.
  { apply elem_of_filter_bool. split; [|done]. apply attempt_rows_elem. by exists id. }
  apply list_elem_of_lookup_1 in Hin as [i Hi].
  destruct (Forall2_lookup_l _ _ _ _ _ Hl Hi) as (a & Ha & Hload).
  apply elem_of_active_ids. exists a. split; [by eapply list_elem_of_lookup_2|].
  split; [by rewrite <- (active_sql_domain _ _ Hload)|].
  destruct (load_row_is _ _ Hload) as [_ ->]. destruct (in_order _ Hw) as [Hk _]. by apply Hk.
Qed.

Lemma launcher_launch_spec hst p x :
  ∃ id, taken (world_of (l_launch hst p x).1) ⊆ taken (world_of x) ∪ {[ id ]} ∧
    match (l_launch hst p x).2 with
    | Ok a => a_id a = id ∧ counts_against_capacity a = true
    | Err _ => True
    end.
Proof.
  apply (perform_sat _ _ _ (λ w' r, ∃ id, taken w' ⊆ taken (world_of x) ∪ {[ id ]} ∧
    match r with Ok a => a_id a = id ∧ counts_against_capacity a = true | Err _ => True end)).
  apply sat_bind. eapply sat_mono; [apply launch_attempt_sat; [done|apply world_of_accounted]|].
  intros w' r [(Hf & _ & Hs)|(id & _ & _ & Hj & _ & Hr)]; apply sat_ret.
  - exists 0%N. apply still_subsides, subsides_taken in Hs. split; [set_solver|].
    by destruct r.
  - exists id. split.
    + intros j (row & Hrow & Ha)%elem_of_taken. destruct (decide (j = id)) as [->|Hne]; [set_solver|].
      apply elem_of_union_l, elem_of_taken. rewrite Hj in Hrow by done. by exists row.
    + destruct r as [a|e]; [|done]. destruct Hr as (? & _ & Hst). split; [done|].
      unfold counts_against_capacity. simpl. by rewrite Hst.
Qed.

(** ** Beside the other ports *)

(** The lock, the demand source, the repository directory and the clock do not touch the
    journal, and the launcher's effects do not drop the lock. *)
Context (locked : X → Prop).
Context {L : AllocationLock host_state} {D : DemandSource host_state}.
Context {R : RepositoryDirectory host_state} {C : Clock host_state}.
Definition untouched (x x' : host_state) : Prop := taken (world_of x') ⊆ taken (world_of x).
Context (handler_keeps_lock : ∀ e x x' r, h e x = Some (x', r) → locked x → locked x').
Context (acquire_untouched : ∀ x, untouched x (acquire x).1).
Context (acquire_locks : ∀ x, (acquire x).2 = true → locked (` (acquire x).1)).
Context (release_untouched : ∀ x, untouched x (release x)).
Context (poll_untouched : ∀ sc x, untouched x (ds_poll sc x).1).
Context (directory_untouched : ∀ org x, untouched x (d_repositories org x).1).
Context (clock_untouched : ∀ x, untouched x (clock_now x).1).

#[local] Instance lifecycle_view : HostView host_state := {|
  occupied := λ x, taken (world_of x);
  pending := λ _, ∅;
  held := λ x, locked (`x);
|}.

Lemma run_keeps_lock {A} (m : prog A) x x' r :
  run_with h m x = Some (x', r) → locked x → locked x'.
Proof.
  revert x. induction m as [a|e k IH]; intros x; simpl; [by intros [= <- <-]|].
  destruct (h e x) as [[x1 y]|] eqn:E; [|done]. intros Hr Hl. eapply IH; [exact Hr|].
  by eapply handler_keeps_lock.
Qed.

Lemma perform_keeps_lock {A} (m : prog A) Hm x : locked (`x) → locked (` (perform m Hm x).1).
Proof.
  intros Hl. unfold perform. assert (∀ o E, locked (` (perform_run m Hm x o E).1)) as H; [|apply H].
  intros [[x' r]|] E; [by eapply run_keeps_lock|]. by destruct (dependable_ends m x Hm E).
Qed.

Lemma untouched_benign x x' : untouched x x' → benign ceiling x x'.
Proof.
  intros Hu. split; [|done]. unfold safe. simpl. intros Hs. etransitivity; [|exact Hs].
  by apply inj_le, subseteq_size.
Qed.

Lemma lifecycle_host_contract : ceiling ≤ U16_MAX → HostContract host_state ceiling.
Proof.
  intros Hu. split; try done; intros.
  - apply untouched_benign, supervise_taken.
  - apply untouched_benign, clean_taken.
  - by apply untouched_benign.
  - by apply untouched_benign.
  - by apply untouched_benign.
  - by apply untouched_benign.
  - by apply untouched_benign.
  - apply untouched_benign, capacity_spec.
  - split; [apply capacity_spec|]. split; [done|]. by apply perform_keeps_lock.
  - by eapply capacity_spec.
  - apply untouched_benign, attempts_spec.
  - split; [apply attempts_spec|]. split; [done|]. by apply perform_keeps_lock.
  - etransitivity; [by eapply attempts_spec|]. apply union_subseteq_l.
  - destruct (launcher_launch_spec h0 p w) as (id & Ht & Hr). exists id. split; [done|].
    revert Hr. destruct (l_launch h0 p w).2 as [a|e]; [|intros _; apply empty_subseteq].
    intros [Hid Hc]. split; [exact Hid|]. split; [exact Hc|apply empty_subseteq].
Qed.

(** ** Theorems *)

(** C2: the launcher fulfils the contract that the reconciliation pass was proved against,
    and so the machine is never oversubscribed by real processes: on any machine whose
    ports keep their promises, a pass over any policies, with every launch, poll, cleanup
    and failure inside it, completes, and if at most [ceiling] attempts held a place
    before it then at most [ceiling] do afterwards, and at most [ceiling] processes or
    containers are running. *)
Theorem lifecycle_pass_within_capacity {J : Jitter} policies (s : St host_state) :
  ceiling ≤ U16_MAX → Forall valid_policy policies →
  Z.of_nat (size (taken (world_of (Reconcile.world s)))) ≤ ceiling →
  ∃ s' report launched, reconcile policies s = Some (s', (report, launched)) ∧
    Z.of_nat (size (taken (world_of (Reconcile.world s')))) ≤ ceiling ∧
    Z.of_nat (size (w_live (world_of (Reconcile.world s')))) ≤ ceiling.
Proof.
  intros Hu Hp Hs. pose proof (lifecycle_host_contract Hu) as HC.
  assert (pass_inv (ceiling:=ceiling) (rc_host (Reconcile.self s)) [] s) as Hi.
  { split; [done|]. split; [exact Hs|]. split; [apply empty_subseteq|constructor]. }
  pose proof (reconcile_spec (rc_host (Reconcile.self s)) policies Hp (λ _, True) s
    ltac:(done) ltac:(done) Hi) as Hwp. unfold wp in Hwp.
  destruct (reconcile policies s) as [[s' [report launched]]|]; [|done].
  destruct Hwp as ((_ & Hsafe & _) & _). exists s', report, launched. split; [done|].
  split; [exact Hsafe|]. etransitivity; [|exact Hsafe]. apply inj_le, subseteq_size.
  apply live_taken, world_of_accounted.
Qed.
End Contract.

(** ** Witness: the example machine with a lock *)

Definition locking : Type := LifecycleEnv.world * bool.
Definition locking_handler (e : effect) (x : locking) : option (locking * answer e) :=
  match machine PUnix (seconds 1000) e x.1 with
  | Some (w, r) => Some ((w, x.2), r)
  | None => None
  end.

Lemma locking_promises : keeps_promises (lifecycle_env PUnix) fst locking_handler.
Proof.
  intros e [w b] Hm. destruct (machine_keeps_promises PUnix (seconds 1000) e w Hm) as (w' & r & E & Hd).
  exists (w', b), r. unfold locking_handler. simpl. rewrite E. done.
Qed.

#[local] Abbreviation locking_host := (host_state 3 (X := locking) fst) (only parsing).
Definition with_lock (b : bool) (x : locking_host) : locking_host :=
  match x with exist _ (w, _) Hs => exist _ (w, b) Hs end.

#[local] Instance locking_lock : AllocationLock locking_host := {|
  acquire := λ x, (with_lock true x, true);
  release := with_lock false;
|}.
#[local] Instance locking_demand : DemandSource locking_host :=
  {| ds_poll := λ _ x, (x, Ready (QueuedDemand_new
       (match target example_active with
        | Repository r => [(r, replicate 5 (Single (lit "gpu")))]
        | Organization _ => []
        end))) |}.
#[local] Instance locking_directory : RepositoryDirectory locking_host :=
  {| d_repositories := λ _ x, (x, Ok []) |}.
#[local] Instance locking_clock : Clock locking_host := {| clock_now := λ x, (x, seconds 1000) |}.

Lemma recovered_sound : sound 3 recovered.
Proof.
  split; [by apply (history_accounted PUnix example_lifecycle example_lifecycle_turns), recovered_history|].
  assert (hosts (w_db recovered)
          = <[h_id example_machine := host_row example_machine]> (∅ : gmap HostId HostRow)) as ->
    by (vm_compute; reflexivity).
  intros id row [[_ <-]|[_ H]]%lookup_insert_Some; [simpl; lia|by rewrite lookup_empty in H].
Qed.

Definition example_host_state : locking_host := exist _ (recovered, false) recovered_sound.

Lemma with_lock_untouched b x : untouched 3 fst x (with_lock b x).
Proof. destruct x as [[w b'] Hs]. unfold untouched, world_of. reflexivity. Qed.

(** Five jobs wait and the host holds three: the pass starts three real processes. *)
Lemma lifecycle_pass_within_capacity_witness :
  let J := fixed_jitter 0 in
  let launcher := lifecycle_launcher PUnix example_lifecycle 3 fst locking_handler
                    example_lifecycle_turns locking_promises in
  ∃ s' report launched,
    reconcile [example_active]
      (mk_st (Reconciler_new example_machine) [] example_host_state) = Some (s', (report, launched)) ∧
    length launched = 3%nat ∧
    Z.of_nat (size (w_live (world_of 3 fst (Reconcile.world s')))) ≤ 3.
Proof.
  intros J launcher.
  destruct (lifecycle_pass_within_capacity PUnix example_lifecycle 3 fst locking_handler
    example_lifecycle_turns locking_promises (λ x : locking, x.2 = true)) with
    (J := J) (policies := [example_active])
    (s := mk_st (Reconciler_new example_machine) [] example_host_state)
    as (s' & report & launched & He & _ & Hl).
  - intros e [w b] [w' b'] r. unfold locking_handler. simpl.
    destruct (machine PUnix (seconds 1000) e w) as [[w1 r1]|]; [|discriminate].
    intros [= _ <- _]. exact (λ H, H).
  - intros x. apply with_lock_untouched.
  - intros [[w b] Hs] _. reflexivity.
  - intros x. apply with_lock_untouched.
  - intros sc x. unfold untouched. reflexivity.
  - intros org x. unfold untouched. reflexivity.
  - intros x. unfold untouched. reflexivity.
  - discriminate.
  - apply Forall_singleton, example_active_valid.
  - vm_compute. discriminate.
  - exists s', report, launched. split; [exact He|]. split; [|exact Hl].
    assert (length <$> (snd <$> (snd <$> reconcile [example_active]
      (mk_st (Reconciler_new example_machine) [] example_host_state))) = Some 3%nat) as Hn
      by (vm_compute; reflexivity).
    pose proof (eq_trans (f_equal (λ o, length <$> (snd <$> (snd <$> o))) (eq_sym He)) Hn) as H.
    injection H as H. exact H.
Defined.
